(* ===== verification/_CoqProject ===== *)
-Q . S2P
Prelude.v
Message.v
CacheModel.v
CacheKeyEnc.v
CacheAdmission.v
CacheStore.v
SingleFlight.v
CacheFacade.v
Text.v
Regex.v
Net.v
Client.v
Hosts.v
Rules.v
Group.v
Outcome.v
CacheCodec.v
DohRoute.v
Plan.v
Executor.v
Upstreams.v
QueryKey.v
Publish.v
ResourceRefresh.v
Resolve.v
ResolveSpec.v
Background.v
CoreBuild.v
Stats.v
StatsStore.v
StatsPipeline.v
Session.v
SourceEdit.v
WebAuth.v
Wire.v
Socks5.v
Outbound.v
Bootstrap.v
DohClient.v
ClientIp.v
DohServer.v
Inbound.v
Admission.v
Coordinator.v
DohSession.v
MokaStore.v
Snapshot.v
SnapshotOwner.v
ConfigModel.v
ConfigValidate.v
ConfigResolve.v
