(* ===== verification/Prelude.v ===== *)
(** * FluxDNS verification library

    A model of the core of FluxDNS, a DNS server written in Rust (src/backend/src), and
    the theorems that make its parts correct. Definitions follow the source function by
    function and keep its names where Rocq allows; each file says which source files it
    models. The definitions are executable: the examples at the ends of the files evaluate
    them.

    ** The program

    A configuration document is validated and resolved; a runtime is built from the result.
    A listener (UDP, TCP or DNS over HTTPS) decodes a query and hands it, with a response
    handle, to the core of the active runtime. The core finds out who asks and under which
    route, consults the cache under the Fast key, evaluates the strategy of the client over
    hosts files and rule sets, consults the cache under the Resolved key, and lets one
    request per key ask the upstream group while the others wait for its result. A group
    tries its members in order or in parallel and aggregates their outcomes; an upstream is
    reached over HTTP, directly or through a SOCKS5 proxy, at addresses found with bootstrap
    queries. The answer goes back through the handle; the cache write, optimistic refreshes
    of stale entries and late answers are background work. Resources (hosts files and rule
    sets) are refreshed by workers and published into the policy state. Runtimes are
    replaced on reload: the old one drains while the new one serves. Every request is counted in
    statistics that a worker persists. A web interface authenticates its users and can
    change them.

    ** Files

    - Prelude.v: results and their monad, machine integers and their wrap-around, instants
      and durations, bytes, generic lemmas, the hint databases [flux].
    - Text.v, Net.v: Rust strings and UTF-8, IP addresses and their parser.
    - Message.v: dns/message.rs, canonical queries and responses over the interface
      [Hickory] of the hickory-proto crate.
    - CacheModel.v, CacheKeyEnc.v, CacheAdmission.v, CacheCodec.v: ports/cache.rs and the
      parts of cache/ that decide what is stored, under which key, for how long and in
      which bytes.
    - CacheStore.v, SingleFlight.v, CacheFacade.v: cache/memory.rs and cache/service.rs, the
      store, the single-flight protocol on it, and the facade. The facade is proved against
      the interface [CacheStoreOps] with its laws [CacheStoreLaws]; the store discharges it.
    - MokaStore.v, Snapshot.v, SnapshotOwner.v: cache/moka.rs, the store over the moka
      library (class [Moka] with its laws [MokaLaws]), cache/snapshot.rs, the files its
      records are saved in, and cache/snapshot_owner.rs, who may write them and when.
    - Client.v, Hosts.v, Regex.v, Rules.v, DohRoute.v, Plan.v: policy/, resource/hosts.rs,
      resource/rules.rs, config/doh_route.rs: from a request to its plan.
    - Group.v, Outcome.v, Executor.v, Upstreams.v: upstream/group.rs, outcome.rs,
      executor.rs and the construction of the upstreams in dns/policy.rs.
    - QueryKey.v, Resolve.v, ResolveSpec.v, Background.v, CoreBuild.v: dns/policy.rs, the
      whole path of a query and the work after it.
    - Publish.v, ResourceRefresh.v: publication of resources in dns/policy.rs, and resource/
      (schedules, reservations, the registry, workers).
    - Stats.v, StatsStore.v, StatsPipeline.v: ports/storage.rs, ports/telemetry.rs and
      storage/ (accumulator, ledger, tables and retention, the persistence worker).
    - Session.v, SourceEdit.v, WebAuth.v: management/session.rs, auth.rs, router.rs,
      events.rs, mod.rs, and the edit of the document that creates the first user
      (config/source_edit.rs, over the YAML parser as the class [YamlEdit]).
    - Wire.v: transport/wire.rs, tcp.rs, udp.rs.
    - Socks5.v, Outbound.v, Bootstrap.v, DohClient.v: upstream/socks5.rs, outbound.rs,
      bootstrap.rs, http.rs, doh.rs.
    - ClientIp.v, DohServer.v, DohSession.v: transport/doh.rs and the task of a DoH
      connection in service.rs.
    - Inbound.v: ports/inbound.rs, dns/trace.rs and dispatch in dns/handler.rs.
    - Admission.v, Coordinator.v: runtime/coordinator.rs.
    - ConfigModel.v, ConfigValidate.v, ConfigResolve.v: config/model.rs, contract.rs,
      validate.rs and resolve.rs, from the document a YAML text is read into to the
      configuration a runtime is built from.

    ** What the theorems show

    - Queries. Whatever its path, a request is answered, and only with a response to its own
      question: from the store, with its TTLs adjusted, from hosts, from the upstream that
      was asked, or with SERVFAIL when routing or the upstream failed; the cache holds under
      a key only what answers it; two requests share a cache
      key only when their answers may be shared; a stale answer stays within its window; the
      lease of a load is settled on every path ([ResolveSpec], [QueryKey], [Background]).
    - Cache. Compare-and-swap, lookup and the invariant of the store on every branch; at most
      one leader per key and generation and no follower left waiting, under any
      interleaving; keys are injective and records are read back ([CacheStore],
      [SingleFlight], [CacheFacade], [CacheKeyEnc], [CacheCodec]). The moka store refines a
      map that may forget records and loses no update; a snapshot file is replaced whole or
      not at all, is read back as it was written, with the time the wall clock shows to have
      passed deducted, and is published only by the runtime that is current at the check ([MokaStore], [Snapshot], [SnapshotOwner]).
    - Policy and upstreams. The first matching rule decides; the regular expression matcher
      agrees with its meaning as a factorisation of the text; round robin is fair within
      bounds; aggregation makes the choice its cases describe; group construction terminates without
      cycles ([Plan], [Regex], [Group], [Outcome], [Upstreams]).
    - Resources. Publication by compare-and-swap is linearizable and changes nothing but the
      resource published; at most one refresh of a
      resource is under way ([Publish], [ResourceRefresh]).
    - Statistics. Every event is counted exactly once across flushes, failures, retention
      and restarts, up to the explicit drop counters ([StatsPipeline]).
    - Web. Sessions belong to current users and end when the users change, a logout is
      final, stores and attempts are bounded ([Session], [WebAuth]).
    - Transports. TCP and DoH requests are handed over and answered in order however the
      network cuts the stream (for DoH as long as they stay a read below the limit of the
      buffer), behind a PROXY header and TLS if configured; receiving ends;
      base64url is read back exactly; a client cannot forge its forwarded address; HTTP and
      SOCKS5 replies are accepted exactly when they are well formed; a DoH answer belongs to
      its query and was read whole from the connection dialled for it; addresses found by
      bootstrap come from an unexpired answer of the bootstrap upstream ([Wire], [DohSession], [DohServer], [ClientIp], [Socks5], [DohClient],
      [Bootstrap]).
    - Requests and runtimes. A request is decided once, whoever races for it; a drained
      runtime stays drained and no wait for it is lost; no runtime with requests escapes the
      shutdown ([Inbound], [Admission], [Coordinator]).
    - Configuration. Resolution never panics, and its result is closed: names are unique,
      references lead to items of the right kind, no upstream depends on itself, and the
      upstreams can be built. The search for cycles is exact, the bind plan serves
      every socket that is asked for and no two that compete, data files lie apart, and durations are read exactly ([ConfigModel],
      [ConfigValidate], [ConfigResolve]).

    ** Environment

    What is not FluxDNS's own code is an argument. Libraries are type classes or section
    variables with the laws they are used under ([Hickory] and its extensions, [IpNetOps],
    [HickoryName], the url crate, SHA-256, argon2 and bcrypt, TLS). Clock readings, random
    tokens, the order of hash maps, the outcomes of socket reads and writes, of SQL
    statements and commits, the polls of a [select!], cancellations and timeouts are inputs
    of the definitions. Concurrency is an explicit sequence of atomic steps: a critical
    section, an atomic access, or what happens between two awaits. Atomic accesses are
    sequentially consistent whatever ordering the source asks for (runtime/coordinator.rs
    asks for Acquire and Release only, see Admission.v). The codec of DNS messages is
    assumed to give back a query whose client subnet has no bits beyond its prefix, as
    RFC 7871 encodes it. A property with such a
    law as a hypothesis has a witness with a concrete instance.

    ** Fuel

    Loops that are not structural carry fuel, and their theorems show that it is enough:
    the construction of nested groups takes the number of upstreams ([build_fuel]);
    evictions take the number of records or sessions; the regular expression matcher takes
    the length of its input and its tokens; the flush of the statistics takes one round per
    pending batch and one more; serving a TCP connection takes one round per request and
    one more; a read is cut with the length of its data; the search for upstream cycles takes
    the number of upstreams and a duration the length of its text. Receiving on a DoH connection is
    shown to end for every large enough fuel, because TLS may change what is left to read.

    ** Not modelled

    - cache/snapshot_owner.rs: the timer of periodic writes, notifications and task joins.
    - cache/service.rs: the finalizer of late upstream answers.
    - config/: reading and writing YAML texts and their editing beyond the first user, the
      store of the active document, redaction, and the [Debug] texts that go into the text
      a configuration is hashed from.
    - storage/: detail rows and their queries, the log of resolutions, physical reclaiming.
    - management/: queries, configuration changes, metrics, assets and the HTTP server.
    - service.rs, app.rs, runtime/bind.rs, prepared.rs, supervisor.rs: assembly, binding of
      sockets and task lifecycles, apart from the connection task of DoH.
    - upstream/reqwest_http.rs (HTTPS through a library), upstream/hosts.rs.
    - observability: logging and counters. The web frontend is TypeScript.
    - Debug and Display, serialisation attributes, and panics of poisoned locks. *)

From Stdlib Require Import ZArith Lia.
From Stdlib Require Export Strings.Byte.
From stdpp Require Export base tactics list gmap strings sorting numbers countable.

#[global] Open Scope Z_scope.
#[global] Set Default Goal Selector "!".

(** ** Results: Rust's [Result<A, E>] *)

Inductive result (E A : Type) : Type :=
| Ok (a : A)
| Err (e : E).
Arguments Ok {E A} _.
Arguments Err {E A} _.

#[global] Instance result_ret E : MRet (result E) := fun _ a => Ok a.
#[global] Instance result_bind E : MBind (result E) := fun _ _ f r =>
  match r with Ok a => f a | Err e => Err e end.
#[global] Instance result_fmap E : FMap (result E) := fun _ _ f r =>
  match r with Ok a => Ok (f a) | Err e => Err e end.
#[global] Instance result_eq_dec E A `{EqDecision E, EqDecision A} :
  EqDecision (result E A).
Proof. solve_decision. Defined.

(** [Result::map_err]. *)
Definition map_err {E F A} (f : E -> F) (r : result E A) : result F A :=
  match r with Ok a => Ok a | Err e => Err (f e) end.

(** [Option::ok_or]. *)
Definition ok_or {E A} (e : E) (o : option A) : result E A :=
  match o with Some a => Ok a | None => Err e end.

Definition is_ok {E A} (r : result E A) : bool :=
  match r with Ok _ => true | Err _ => false end.

Lemma bind_ok {E A B} (f : A -> result E B) (r : result E A) (b : B) :
  (r ≫= f) = Ok b <-> exists a, r = Ok a /\ f a = Ok b.
Proof.
  destruct r as [a|e]; simpl; split.
  - by exists a.
  - intros (a' & [= ->] & H). exact H.
  - discriminate.
  - by intros (a & ? & _).
Qed.

Lemma ok_or_ok {E A} (e : E) (o : option A) (a : A) :
  ok_or e o = Ok a <-> o = Some a.
Proof. destruct o; naive_solver. Qed.

Lemma Ok_inj {E A} (a b : A) : @Ok E A a = Ok b -> a = b.
Proof. congruence. Qed.

(** Peels the [?] operator off a hypothesis that a computation succeeded. *)
Ltac inv_ok :=
  repeat match goal with
  | H : (_ ≫= _) = Ok _ |- _ =>
      let a := fresh "a" in let H1 := fresh "H" in
      apply bind_ok in H as (a & H1 & H)
  | H : ok_or _ _ = Ok _ |- _ => apply ok_or_ok in H
  | H : Ok _ = Ok _ |- _ => apply Ok_inj in H
  | H : Err _ = Ok _ |- _ => discriminate H
  | H : Ok _ = Err _ |- _ => discriminate H
  end.

(** ** Machine integers *)

Definition u8_max : Z := 2 ^ 8 - 1.
Definition u16_max : Z := 2 ^ 16 - 1.
Definition u32_max : Z := 2 ^ 32 - 1.
Definition u64_max : Z := 2 ^ 64 - 1.
(** [usize] and [u64] coincide on the 64-bit targets the project ships. *)
Definition usize_max : Z := u64_max.

Definition u16 (z : Z) : Prop := 0 <= z <= u16_max.
Definition u32 (z : Z) : Prop := 0 <= z <= u32_max.
Definition u64 (z : Z) : Prop := 0 <= z <= u64_max.

(** [u64::wrapping_add], [wrapping_mul], [saturating_add], [saturating_sub]. *)
Definition wrap64 (z : Z) : Z := z mod 2 ^ 64.
Definition sat_add64 (a b : Z) : Z := Z.min (a + b) u64_max.
Definition sat_sub (a b : Z) : Z := Z.max 0 (a - b).
(** [u32::try_from(x).unwrap_or(u32::MAX)] for an unsigned [x]. *)
Definition u32_clamp (z : Z) : Z := Z.min z u32_max.

Ltac unfold_ints :=
  unfold sat_add64, sat_sub, u32_clamp, u16, u32, u64, u8_max, u16_max, u32_max,
    usize_max, u64_max in *.

Lemma wrap64_small z : u64 z -> wrap64 z = z.
Proof. unfold u64, u64_max, wrap64. intros. apply Z.mod_small. lia. Qed.

Lemma wrap64_range z : u64 (wrap64 z).
Proof.
  unfold u64, u64_max, wrap64.
  pose proof (Z.mod_pos_bound z (2 ^ 64) eq_refl). lia.
Qed.

Lemma sat_add64_range a b : u64 a -> u64 b -> u64 (sat_add64 a b).
Proof. unfold_ints. lia. Qed.

Lemma sat_add64_assoc a b c :
  u64 a -> u64 b -> u64 c ->
  sat_add64 (sat_add64 a b) c = sat_add64 a (sat_add64 b c).
Proof. unfold_ints. lia. Qed.

Lemma sat_add64_comm a b : sat_add64 a b = sat_add64 b a.
Proof. unfold_ints. lia. Qed.

(** [i64::try_from] of an unsigned value, [u64::checked_add] and
    [usize::checked_add]. *)
Definition i64_max : Z := 2 ^ 63 - 1.
Definition i64_of (z : Z) : option Z := if z <=? i64_max then Some z else None.
Definition checked_add64 (a b : Z) : option Z :=
  if a + b <=? u64_max then Some (a + b) else None.

Lemma i64_of_some z y : i64_of z = Some y <-> y = z /\ z <= i64_max.
Proof. unfold i64_of. destruct (Z.leb_spec z i64_max); naive_solver lia. Qed.

Lemma checked_add64_some a b c : checked_add64 a b = Some c <-> c = a + b /\ a + b <= u64_max.
Proof. unfold checked_add64. destruct (Z.leb_spec (a + b) u64_max); naive_solver lia. Qed.

(** The saturating operations as operators. *)
Declare Scope flux_scope.
Delimit Scope flux_scope with flux.
Infix "⊞" := sat_add64 (at level 50, left associativity) : flux_scope.
Infix "⊟" := sat_sub (at level 50, left associativity) : flux_scope.

(** ** Time: [Instant] and [Duration] in nanoseconds

    [Instant] is the Unix one: an [i64] number of seconds with nanoseconds, so
    that additions beyond that range return [None]. *)

Abbreviation Instant := Z (only parsing).
Abbreviation Duration := Z (only parsing).

Definition nanos_per_sec : Z := 1000000000.
Definition instant_min : Z := - 2 ^ 63 * nanos_per_sec.
Definition instant_max : Z := 2 ^ 63 * nanos_per_sec - 1.
Definition duration_max : Z := 2 ^ 64 * nanos_per_sec - 1.

Definition from_secs (s : Z) : Duration := s * nanos_per_sec.
Definition as_secs (d : Duration) : Z := d / nanos_per_sec.
Definition is_zero (d : Duration) : bool := d =? 0.

Definition instant_checked_add (t : Instant) (d : Duration) : option Instant :=
  if t + d <=? instant_max then Some (t + d) else None.
Definition instant_checked_sub (t : Instant) (d : Duration) : option Instant :=
  if instant_min <=? t - d then Some (t - d) else None.
(** [Instant::saturating_duration_since]. *)
Definition duration_since (later earlier : Instant) : Duration :=
  sat_sub later earlier.

Lemma as_secs_from_secs s : as_secs (from_secs s) = s.
Proof. unfold as_secs, from_secs, nanos_per_sec. apply Z.div_mul. lia. Qed.

Lemma from_secs_pos s : 0 < s -> 0 < from_secs s.
Proof. unfold from_secs, nanos_per_sec. lia. Qed.

(** ** Bytes *)

#[global] Instance byte_eq_dec : EqDecision byte := Byte.byte_eq_dec.
#[global] Instance byte_countable : Countable byte.
Proof. exact (inj_countable Byte.to_N Byte.of_N Byte.of_to_N). Defined.

Definition byte_to_Z (b : byte) : Z := Z.of_N (Byte.to_N b).
Definition byte_of_Z (z : Z) : byte :=
  default x00 (Byte.of_N (Z.to_N (z mod 256))).

Lemma byte_to_Z_range b : 0 <= byte_to_Z b < 256.
Proof. unfold byte_to_Z. pose proof (Byte.to_N_bounded b). lia. Qed.

Lemma byte_to_of_Z z : byte_to_Z (byte_of_Z z) = z mod 256.
Proof.
  unfold byte_to_Z, byte_of_Z.
  pose proof (Z.mod_pos_bound z 256 eq_refl).
  destruct (Byte.of_N (Z.to_N (z mod 256))) as [b|] eqn:E; simpl.
  - apply Byte.to_of_N in E. rewrite E. lia.
  - apply Byte.of_N_None_iff in E. lia.
Qed.

Lemma byte_to_Z_inj b1 b2 : byte_to_Z b1 = byte_to_Z b2 -> b1 = b2.
Proof.
  unfold byte_to_Z. intros H. apply N2Z.inj in H.
  apply (f_equal Byte.of_N) in H. rewrite !Byte.of_to_N in H. by injection H.
Qed.

Lemma byte_of_to_Z b : byte_of_Z (byte_to_Z b) = b.
Proof.
  apply byte_to_Z_inj. rewrite byte_to_of_Z. apply Z.mod_small, byte_to_Z_range.
Qed.

(** Big-endian encoding: [to_be_bytes] / [from_be_bytes] on [n] bytes. *)
Fixpoint be_bytes (n : nat) (z : Z) : list byte :=
  match n with
  | O => []
  | S n' => byte_of_Z (z / 256 ^ Z.of_nat n') :: be_bytes n' z
  end.

Definition from_be_acc (acc : Z) (l : list byte) : Z :=
  foldl (fun a b => a * 256 + byte_to_Z b) acc l.
Definition from_be (l : list byte) : Z := from_be_acc 0 l.

Lemma length_be_bytes n z : length (be_bytes n z) = n.
Proof. induction n; simpl; congruence. Qed.

Lemma from_be_acc_be_bytes n z acc :
  from_be_acc acc (be_bytes n z) =
  acc * 256 ^ Z.of_nat n + z mod 256 ^ Z.of_nat n.
Proof.
  revert acc. induction n as [|n IH]; intros acc; cbn [be_bytes from_be_acc foldl].
  - change (256 ^ Z.of_nat 0) with 1. rewrite Z.mod_1_r. lia.
  - fold (from_be_acc (acc * 256 + byte_to_Z (byte_of_Z (z / 256 ^ Z.of_nat n)))
            (be_bytes n z)).
    rewrite IH, byte_to_of_Z.
    rewrite Nat2Z.inj_succ, Z.pow_succ_r by lia.
    rewrite (Z.mul_comm 256 (256 ^ Z.of_nat n)).
    rewrite Z.rem_mul_r by lia. lia.
Qed.

Lemma from_be_be_bytes n z : from_be (be_bytes n z) = z mod 256 ^ Z.of_nat n.
Proof. unfold from_be. rewrite from_be_acc_be_bytes. lia. Qed.

Lemma from_be_be_bytes_small n z :
  0 <= z < 256 ^ Z.of_nat n -> from_be (be_bytes n z) = z.
Proof. intros. rewrite from_be_be_bytes. by apply Z.mod_small. Qed.

Lemma from_be_acc_app acc l1 l2 : from_be_acc acc (l1 ++ l2) = from_be_acc (from_be_acc acc l1) l2.
Proof. apply foldl_app. Qed.

Lemma from_be_acc_split acc l : from_be_acc acc l = acc * 256 ^ Z.of_nat (length l) + from_be l.
Proof.
  unfold from_be. revert acc. induction l as [|b l IH]; intros acc; cbn [from_be_acc foldl length].
  - change (256 ^ Z.of_nat 0) with 1. lia.
  - fold (from_be_acc (acc * 256 + byte_to_Z b) l). fold (from_be_acc (0 * 256 + byte_to_Z b) l).
    rewrite (IH (acc * 256 + byte_to_Z b)), (IH (0 * 256 + byte_to_Z b)).
    rewrite Nat2Z.inj_succ, Z.pow_succ_r by lia. lia.
Qed.

Lemma from_be_cons b l : from_be (b :: l) = byte_to_Z b * 256 ^ Z.of_nat (length l) + from_be l.
Proof. exact (from_be_acc_split (0 * 256 + byte_to_Z b) l). Qed.

Lemma from_be_range l : 0 <= from_be l < 256 ^ Z.of_nat (length l).
Proof.
  induction l as [|b l IH]; [by cbn|]. rewrite from_be_cons. cbn [length].
  rewrite Nat2Z.inj_succ, Z.pow_succ_r by lia. pose proof (byte_to_Z_range b). nia.
Qed.

Lemma be_bytes_mod n z m : (n <= m)%nat -> be_bytes n (z mod 256 ^ Z.of_nat m) = be_bytes n z.
Proof.
  induction n as [|n IH]; intros Hm; [done|]. cbn [be_bytes]. rewrite IH by lia. f_equal.
  apply byte_to_Z_inj. rewrite !byte_to_of_Z.
  replace (256 ^ Z.of_nat m) with (256 ^ Z.of_nat n * 256 ^ Z.of_nat (m - n))
    by (rewrite <-Z.pow_add_r by lia; f_equal; lia).
  rewrite Z.rem_mul_r by (apply Z.pow_nonzero || apply Z.pow_pos_nonneg; lia).
  rewrite (Z.mul_comm (256 ^ Z.of_nat n)), Z.div_add by (apply Z.pow_nonzero; lia).
  rewrite (Z.div_small (z mod 256 ^ Z.of_nat n)) by (apply Z.mod_pos_bound, Z.pow_pos_nonneg; lia).
  replace (Z.of_nat (m - n)) with (Z.succ (Z.of_nat (m - n) - 1)) by lia.
  rewrite Z.pow_succ_r, Z.rem_mul_r by (lia || (apply Z.pow_pos_nonneg; lia)).
  rewrite Z.add_0_l, Z.mul_comm, Z.mod_add by lia. apply Z.mod_mod. lia.
Qed.

Lemma be_bytes_from_be l : be_bytes (length l) (from_be l) = l.
Proof.
  induction l as [|b l IH]; [done|]. cbn [length be_bytes]. pose proof (from_be_range l) as Hr.
  assert (Hp : 0 < 256 ^ Z.of_nat (length l)) by (apply Z.pow_pos_nonneg; lia).
  rewrite from_be_cons. f_equal.
  - rewrite Z.div_add_l, Z.div_small, Z.add_0_r by lia. apply byte_of_to_Z.
  - rewrite <-(be_bytes_mod _ _ (length l)) by lia. rewrite Z.add_comm, Z.mod_add, Z.mod_small by lia. exact IH.
Qed.

Lemma be_bytes_inj n z1 z2 :
  0 <= z1 < 256 ^ Z.of_nat n -> 0 <= z2 < 256 ^ Z.of_nat n ->
  be_bytes n z1 = be_bytes n z2 -> z1 = z2.
Proof.
  intros H1 H2 H. apply (f_equal from_be) in H.
  by rewrite !from_be_be_bytes_small in H.
Qed.

(** ** Strings

    A Rust [&str] is its UTF-8 bytes; identifiers are kept as [string], whose
    characters are those bytes. *)
Definition str_bytes (s : string) : list byte := String.list_byte_of_string s.
Definition str_len (s : string) : Z := Z.of_nat (String.length s).
Definition bytes_len (l : list byte) : Z := Z.of_nat (length l).

Lemma str_bytes_inj s1 s2 : str_bytes s1 = str_bytes s2 -> s1 = s2.
Proof.
  intros H. apply (f_equal String.string_of_list_byte) in H.
  unfold str_bytes in H. by rewrite !String.string_of_list_byte_of_string in H.
Qed.

Lemma length_str_bytes s : length (str_bytes s) = String.length s.
Proof.
  unfold str_bytes, String.list_byte_of_string. rewrite length_map.
  induction s as [|a s IH]; simpl; congruence.
Qed.

(** ** Lists with distinct keys *)

Lemma NoDup_fmap_eq {A B} (f : A -> B) (l : list A) x y :
  NoDup (f <$> l) -> x ∈ l -> y ∈ l -> f x = f y -> x = y.
Proof.
  intros Hnd Hx Hy Hf. apply list_elem_of_lookup_1 in Hx as [i Hi], Hy as [j Hj].
  assert (i = j) as ->; [|congruence]. apply (NoDup_lookup (f <$> l) i j (f x)); [done|..].
  - by rewrite list_lookup_fmap, Hi.
  - by rewrite list_lookup_fmap, Hj, Hf.
Qed.

(** ** Stable sorting: [slice::sort_by_key] *)

Section SortByKey.
Context {A : Type} (key : A -> Z).

Fixpoint insert_by_key (x : A) (l : list A) : list A :=
  match l with
  | [] => [x]
  | y :: l' => if key x <=? key y then x :: l else y :: insert_by_key x l'
  end.
Definition sort_by_key (l : list A) : list A := foldr insert_by_key [] l.

Definition key_le (x y : A) : Prop := key x <= key y.

Lemma insert_by_key_perm x l : insert_by_key x l ≡ₚ x :: l.
Proof.
  induction l as [|y l IH]; [done|]. cbn [insert_by_key]. destruct (_ <=? _); [done|].
  rewrite IH. constructor.
Qed.

Lemma sort_by_key_perm l : sort_by_key l ≡ₚ l.
Proof. induction l as [|x l IH]; [done|]. cbn. by rewrite insert_by_key_perm, IH. Qed.

Lemma insert_by_key_sorted x l :
  StronglySorted key_le l -> StronglySorted key_le (insert_by_key x l).
Proof.
  induction 1 as [|y l Hs IH Hy]; [by repeat constructor|]. cbn [insert_by_key].
  destruct (Z.leb_spec (key x) (key y)).
  - constructor; [by constructor|]. constructor; [done|].
    revert Hy. apply Forall_impl. unfold key_le. intros. lia.
  - constructor; [done|]. rewrite insert_by_key_perm. constructor; [|done]. unfold key_le. lia.
Qed.

Lemma sort_by_key_sorted l : StronglySorted key_le (sort_by_key l).
Proof. induction l as [|x l IH]; [constructor|]. by apply insert_by_key_sorted. Qed.

(** With distinct keys the result does not depend on the input order. *)
Lemma sort_by_key_unique l1 l2 :
  NoDup (key <$> l1) -> l1 ≡ₚ l2 -> sort_by_key l1 = sort_by_key l2.
Proof.
  intros Hnd Hp. apply (StronglySorted_unique_strong key_le); try apply sort_by_key_sorted.
  - intros x y Hx Hy Hxy Hyx. rewrite sort_by_key_perm in Hx, Hy. rewrite <-Hp in Hy.
    apply (NoDup_fmap_eq key l1); [done..|]. unfold key_le in *. lia.
  - by rewrite !sort_by_key_perm.
Qed.

(** Sorting a sorted list changes nothing. *)
Lemma sort_by_key_id l : StronglySorted key_le l -> sort_by_key l = l.
Proof.
  induction 1 as [|x l Hs IH Hx]; [done|]. cbn [sort_by_key foldr]. fold (sort_by_key l). rewrite IH.
  destruct l as [|y l]; [done|]. inversion_clear Hx as [|? ? Hxy _]. cbn [insert_by_key].
  by rewrite (proj2 (Z.leb_le _ _)).
Qed.

(** Strictly increasing keys. *)
Definition key_lt (x y : A) : Prop := key x < key y.

Lemma key_lt_sorted l : StronglySorted key_lt l -> StronglySorted key_le l /\ NoDup (key <$> l).
Proof.
  induction 1 as [|x l Hs [IH1 IH2] Hx]; [by repeat constructor|]. split.
  - constructor; [done|]. revert Hx. apply Forall_impl. unfold key_lt, key_le. lia.
  - constructor; [|done]. intros (y & Hk & Hy)%list_elem_of_fmap.
    apply (proj1 (list.Forall_forall _ _) Hx) in Hy. unfold key_lt in Hy. lia.
Qed.

End SortByKey.

(** ** [BTreeMap] iteration: the entries in the order of their keys *)

Section BTreeMap.
Context {A : Type}.
Implicit Types m : gmap string A.

Definition by_name (a b : string * A) : Prop := String.le a.1 b.1.
#[global] Instance by_name_dec : RelDecision by_name.
Proof. intros a b. unfold by_name. apply _. Defined.

Definition btree_list m : list (string * A) := merge_sort by_name (map_to_list m).

Lemma elem_of_btree_list m k v : (k, v) ∈ btree_list m <-> m !! k = Some v.
Proof. unfold btree_list. by rewrite merge_sort_Permutation, elem_of_map_to_list. Qed.

Lemma btree_list_inj m1 m2 : btree_list m1 = btree_list m2 -> m1 = m2.
Proof.
  intros H. apply map_eq. intros k. apply option_eq. intros v.
  by rewrite <-!elem_of_btree_list, H.
Qed.

Lemma length_btree_list m : length (btree_list m) = size m.
Proof. unfold btree_list. by rewrite merge_sort_Permutation, length_map_to_list. Qed.

End BTreeMap.

(** ** [BTreeMap] with integer keys *)

Section ZMap.
Context {A : Type}.
Implicit Types m : gmap Z A.

Definition zmap_list m : list (Z * A) := sort_by_key fst (map_to_list m).
(** [BTreeMap::first_key_value] *)
Definition zmap_first m : option (Z * A) := head (zmap_list m).

Lemma elem_of_zmap_list m k v : (k, v) ∈ zmap_list m <-> m !! k = Some v.
Proof. unfold zmap_list. by rewrite sort_by_key_perm, elem_of_map_to_list. Qed.

Lemma zmap_first_none m : zmap_first m = None <-> m = ∅.
Proof.
  unfold zmap_first. split.
  - intros H. apply map_to_list_empty_iff, Permutation_nil_r.
    rewrite <-(sort_by_key_perm fst). by destruct (zmap_list m) eqn:E; unfold zmap_list in E; rewrite ?E.
  - intros ->. done.
Qed.

Lemma zmap_first_some m k v :
  zmap_first m = Some (k, v) -> m !! k = Some v /\ (forall k', is_Some (m !! k') -> k <= k').
Proof.
  unfold zmap_first. destruct (zmap_list m) as [|[k0 v0] l] eqn:E; [done|]. cbn. intros [= -> ->]. split.
  - apply elem_of_zmap_list. rewrite E. left.
  - intros k' [v' H]. apply elem_of_zmap_list in H. rewrite E in H.
    pose proof (sort_by_key_sorted fst (map_to_list m)) as Hs. fold (zmap_list m) in Hs. rewrite E in Hs.
    inversion_clear Hs as [|? ? _ Hk]. apply elem_of_cons in H as [[= -> ->]|H]; [lia|].
    apply (proj1 (list.Forall_forall _ _) Hk) in H. exact H.
Qed.

End ZMap.

(** ** Sums over lists *)

Definition Zsum_with {A} (f : A -> Z) (l : list A) : Z := foldr (fun x s => f x + s) 0 l.

Lemma Zsum_with_app {A} (f : A -> Z) l1 l2 : Zsum_with f (l1 ++ l2) = Zsum_with f l1 + Zsum_with f l2.
Proof. induction l1 as [|x l IH]; cbn; [done|]. unfold Zsum_with in *. lia. Qed.

Lemma Zsum_with_perm {A} (f : A -> Z) l1 l2 : l1 ≡ₚ l2 -> Zsum_with f l1 = Zsum_with f l2.
Proof. induction 1; cbn in *; unfold Zsum_with in *; lia. Qed.

#[global] Instance Zsum_with_proper {A} (f : A -> Z) : Proper ((≡ₚ) ==> (=)) (Zsum_with f).
Proof. intros l1 l2. apply Zsum_with_perm. Qed.

Lemma Zsum_with_nonneg {A} (f : A -> Z) l : (forall x, x ∈ l -> 0 <= f x) -> 0 <= Zsum_with f l.
Proof.
  induction l as [|x l IH]; intros H; [done|]. cbn. fold (Zsum_with f l).
  pose proof (H x ltac:(left)). assert (0 <= Zsum_with f l); [|lia].
  apply IH. intros y Hy. apply H. by right.
Qed.

(** ** Automation

    [flux] holds the facts about machine integers and bytes that side conditions
    ask for; [autorewrite with flux] normalises lengths and encodings. *)
Create HintDb flux.
Create Rewrite HintDb flux.
#[export] Hint Resolve wrap64_range sat_add64_range byte_to_Z_range from_secs_pos : flux.
#[export] Hint Rewrite @length_be_bytes @length_str_bytes @length_app @Zsum_with_app : flux.
