(* ===== verification/Message.v ===== *)
(** * Canonical DNS messages (src/backend/src/dns/message.rs)

    [CanonicalQuery] and [CanonicalResponse]: validation of a parsed DNS
    message, normalisation of the question, classification of responses, the TTL
    metadata and the operations that rewrite the TTLs of a response.

    The wire library (hickory_proto) is a parameter: the class [Hickory] holds
    what the code uses of it, [HickoryLaws] the behaviour it relies on. *)

From S2P Require Import Prelude.

(** ** hickory_proto *)

Inductive MessageType := MT_Query | MT_Response.
Inductive OpCode := OP_Query | OP_Other (code : Z).
Inductive ResponseCode :=
| NoError | FormErr | ServFail | NXDomain | NotImp | Refused | RC_Other (code : Z).

#[global] Instance MessageType_eq_dec : EqDecision MessageType.
Proof. solve_decision. Defined.
#[global] Instance OpCode_eq_dec : EqDecision OpCode.
Proof. solve_decision. Defined.
#[global] Instance ResponseCode_eq_dec : EqDecision ResponseCode.
Proof. solve_decision. Defined.

(** [op::Metadata], [op::Query], [rr::Record] and [op::Message]: the public
    fields of the library's structs, over its opaque name, RDATA and EDNS
    types. Record types and classes are their 16-bit codes. *)
Record Metadata := {
  md_id : Z;
  md_message_type : MessageType;
  md_op_code : OpCode;
  md_authoritative : bool;
  md_truncation : bool;
  md_recursion_desired : bool;
  md_recursion_available : bool;
  md_authentic_data : bool;
  md_checking_disabled : bool;
  md_response_code : ResponseCode
}.

Record HQuery (Name : Type) := {
  q_name : Name;
  q_type : Z;
  q_class : Z
}.
Arguments q_name {Name} _. Arguments q_type {Name} _. Arguments q_class {Name} _.
Arguments Build_HQuery {Name} _ _ _.

Record HRecord (Name RData : Type) := {
  rr_name : Name;
  rr_class : Z;
  rr_ttl : Z;
  rr_data : RData
}.
Arguments rr_name {Name RData} _. Arguments rr_class {Name RData} _.
Arguments rr_ttl {Name RData} _. Arguments rr_data {Name RData} _.
Arguments Build_HRecord {Name RData} _ _ _ _.

Record HMessage (Name RData Edns : Type) := {
  metadata : Metadata;
  queries : list (HQuery Name);
  answers : list (HRecord Name RData);
  authorities : list (HRecord Name RData);
  additionals : list (HRecord Name RData);
  edns : option Edns
}.
Arguments metadata {Name RData Edns} _. Arguments queries {Name RData Edns} _.
Arguments answers {Name RData Edns} _. Arguments authorities {Name RData Edns} _.
Arguments additionals {Name RData Edns} _. Arguments edns {Name RData Edns} _.
Arguments Build_HMessage {Name RData Edns} _ _ _ _ _ _.

Class Hickory := {
  Name : Type;
  RData : Type;
  Edns : Type;
  ClientSubnet : Type;
  (** [Name::to_lowercase], [Name::set_fqdn(true)] and [PartialEq for Name]. *)
  name_to_lowercase : Name -> Name;
  name_set_fqdn : Name -> Name;
  name_eqb : Name -> Name -> bool;
  (** [RData::SOA(soa)] gives [soa.minimum]. *)
  rdata_soa_minimum : RData -> option Z;
  (** [Edns::version], [Edns::new], and the ECS option of the OPT record. *)
  edns_version : Edns -> Z;
  edns_new : Edns;
  edns_subnet : Edns -> option ClientSubnet;
  edns_remove_subnet : Edns -> Edns;
  edns_insert_subnet : ClientSubnet -> Edns -> Edns;
  (** [Message::to_vec] and [Message::from_vec]. *)
  to_vec : HMessage Name RData Edns -> option (list byte);
  from_vec : list byte -> option (HMessage Name RData Edns)
}.

Abbreviation Message := (HMessage Name RData Edns).
Abbreviation Record_ := (HRecord Name RData).
Abbreviation Query := (HQuery Name).

(** Lower-casing and the root point are idempotent, name equality is an
    equivalence, and the ECS option behaves like a field of the OPT record. *)
Class HickoryLaws (H : Hickory) := {
  name_eqb_refl : forall n, name_eqb n n = true;
  name_eqb_sym : forall n m, name_eqb n m = name_eqb m n;
  name_eqb_trans : forall n m k,
    name_eqb n m = true -> name_eqb m k = true -> name_eqb n k = true;
  name_canon_idem : forall n,
    name_set_fqdn (name_to_lowercase (name_set_fqdn (name_to_lowercase n))) =
    name_set_fqdn (name_to_lowercase n);
  edns_new_version : edns_version edns_new = 0;
  edns_subnet_insert : forall s e,
    edns_subnet (edns_insert_subnet s (edns_remove_subnet e)) = Some s;
  edns_subnet_insert_new : forall s,
    edns_subnet (edns_insert_subnet s edns_new) = Some s;
  edns_subnet_remove : forall e, edns_subnet (edns_remove_subnet e) = None;
  edns_version_insert : forall s e,
    edns_version (edns_insert_subnet s e) = edns_version e;
  edns_version_remove : forall e, edns_version (edns_remove_subnet e) = edns_version e
}.

Section Message.
Context {HH : Hickory}.

(** [Message::new(id, message_type, op_code)]. *)
Definition message_new (id : Z) (mt : MessageType) (op : OpCode) : Message :=
  {| metadata := {| md_id := id; md_message_type := mt; md_op_code := op;
       md_authoritative := false; md_truncation := false;
       md_recursion_desired := false; md_recursion_available := false;
       md_authentic_data := false; md_checking_disabled := false;
       md_response_code := NoError |};
     queries := []; answers := []; authorities := []; additionals := [];
     edns := None |}.

(** ** Questions *)

Record CanonicalQuestion := {
  cq_name : Name;
  cq_query_type : Z;
  cq_query_class : Z
}.

Definition CanonicalQuestion_from_query (q : Query) : CanonicalQuestion :=
  {| cq_name := name_set_fqdn (name_to_lowercase (q_name q));
     cq_query_type := q_type q; cq_query_class := q_class q |}.

Definition CanonicalQuestion_to_query (q : CanonicalQuestion) : Query :=
  {| q_name := cq_name q; q_type := cq_query_type q; q_class := cq_query_class q |}.

(** The derived [PartialEq]. *)
Definition CanonicalQuestion_eqb (a b : CanonicalQuestion) : bool :=
  name_eqb (cq_name a) (cq_name b) && (cq_query_type a =? cq_query_type b)
  && (cq_query_class a =? cq_query_class b).

(** ** Validation *)

Inductive CanonicalMessageError :=
| UnexpectedMessageType (expected actual : MessageType)
| UnsupportedOpCode (op : OpCode)
| QuestionCount (n : Z)
| UnsupportedEdnsVersion (v : Z)
| MessageIdMismatch (expected actual : Z)
| QuestionMismatch.

Definition validate_common (m : Message) (expected : MessageType) :
    result CanonicalMessageError unit :=
  let md := metadata m in
  if negb (bool_decide (md_message_type md = expected)) then
    Err (UnexpectedMessageType expected (md_message_type md))
  else if negb (bool_decide (md_op_code md = OP_Query)) then
    Err (UnsupportedOpCode (md_op_code md))
  else if negb (Nat.eqb (length (queries m)) 1) then
    Err (QuestionCount (Z.of_nat (length (queries m))))
  else match edns m with
  | Some e => if negb (edns_version e =? 0) then Err (UnsupportedEdnsVersion (edns_version e))
              else Ok tt
  | None => Ok tt
  end.

(** ** Queries *)

Record CanonicalQuery := {
  query_message : Message;
  query_question : CanonicalQuestion
}.

Definition CanonicalQuery_from_message (m : Message) :
    result CanonicalMessageError CanonicalQuery :=
  _ ← validate_common m MT_Query;
  match queries m with
  | [] => Err (QuestionCount 0)
  | q :: _ =>
    let question := CanonicalQuestion_from_query q in
    let base := message_new 0 MT_Query OP_Query in
    let md := metadata base in
    Ok {| query_message :=
            {| metadata := {| md_id := md_id md; md_message_type := md_message_type md;
                 md_op_code := md_op_code md; md_authoritative := md_authoritative md;
                 md_truncation := md_truncation md;
                 md_recursion_desired := md_recursion_desired (metadata m);
                 md_recursion_available := md_recursion_available md;
                 md_authentic_data := md_authentic_data (metadata m);
                 md_checking_disabled := md_checking_disabled (metadata m);
                 md_response_code := md_response_code md |};
               queries := queries base ++ [CanonicalQuestion_to_query question];
               answers := answers base; authorities := authorities base;
               additionals := additionals base; edns := edns m |};
          query_question := question |}
  end.

Definition with_edns (m : Message) (e : option Edns) : Message :=
  {| metadata := metadata m; queries := queries m; answers := answers m;
     authorities := authorities m; additionals := additionals m; edns := e |}.

Definition with_metadata (m : Message) (md : Metadata) : Message :=
  {| metadata := md; queries := queries m; answers := answers m;
     authorities := authorities m; additionals := additionals m; edns := edns m |}.

Definition md_with_id (md : Metadata) (id : Z) : Metadata :=
  {| md_id := id; md_message_type := md_message_type md; md_op_code := md_op_code md;
     md_authoritative := md_authoritative md; md_truncation := md_truncation md;
     md_recursion_desired := md_recursion_desired md;
     md_recursion_available := md_recursion_available md;
     md_authentic_data := md_authentic_data md;
     md_checking_disabled := md_checking_disabled md;
     md_response_code := md_response_code md |}.

Definition edns_client_subnet (q : CanonicalQuery) : option ClientSubnet :=
  edns (query_message q) ≫= edns_subnet.

Definition with_edns_client_subnet (q : CanonicalQuery) (subnet : option ClientSubnet) :
    CanonicalQuery :=
  let removed := edns_remove_subnet <$> edns (query_message q) in
  let edns' := match subnet with
    | Some s => Some (edns_insert_subnet s (default edns_new removed))
    | None => removed
    end in
  {| query_message := with_edns (query_message q) edns';
     query_question := query_question q |}.

Definition message_with_id (q : CanonicalQuery) (id : Z) : Message :=
  with_metadata (query_message q) (md_with_id (metadata (query_message q)) id).

(** ** Responses *)

Inductive ResponseClass :=
| RPositive | RNoData | RNxDomain | RRefused | RServFail | RTruncated
| ROther (code : ResponseCode).

#[global] Instance ResponseClass_eq_dec : EqDecision ResponseClass.
Proof. solve_decision. Defined.

Record TtlMetadata := {
  min_ttl : option Z;
  negative_ttl : option Z
}.

Record CanonicalResponse := {
  resp_message : Message;
  resp_class : ResponseClass;
  resp_ttl : TtlMetadata
}.

Definition classify_response (m : Message) : ResponseClass :=
  if md_truncation (metadata m) then RTruncated
  else match md_response_code (metadata m) with
  | NoError => match answers m with [] => RNoData | _ => RPositive end
  | NXDomain => RNxDomain
  | Refused => RRefused
  | ServFail => RServFail
  | code => ROther code
  end.

Definition is_negative_class (c : ResponseClass) : bool :=
  match c with RNoData | RNxDomain => true | _ => false end.

(** [Iterator::min]. *)
Fixpoint list_min (l : list Z) : option Z :=
  match l with
  | [] => None
  | x :: l' => match list_min l' with Some m => Some (Z.min x m) | None => Some x end
  end.

Definition all_records (m : Message) : list Record_ :=
  answers m ++ authorities m ++ additionals m.

Definition soa_ttl (r : Record_) : option Z :=
  Z.min (rr_ttl r) <$> rdata_soa_minimum (rr_data r).

Definition extract_ttl_metadata (m : Message) (class : ResponseClass) : TtlMetadata :=
  {| min_ttl := list_min (rr_ttl <$> all_records m);
     negative_ttl := if is_negative_class class
                     then list_min (omap soa_ttl (authorities m)) else None |}.

Definition with_queries (m : Message) (qs : list Query) : Message :=
  {| metadata := metadata m; queries := qs; answers := answers m;
     authorities := authorities m; additionals := additionals m; edns := edns m |}.

Definition CanonicalResponse_from_message (m : Message) (expected : CanonicalQuery)
    (expected_id : Z) : result CanonicalMessageError CanonicalResponse :=
  _ ← validate_common m MT_Response;
  if negb (md_id (metadata m) =? expected_id) then
    Err (MessageIdMismatch expected_id (md_id (metadata m)))
  else match queries m with
  | [] => Err (QuestionCount 0)
  | q :: rest =>
    let actual := CanonicalQuestion_from_query q in
    if negb (CanonicalQuestion_eqb actual (query_question expected)) then
      Err QuestionMismatch
    else
      let m' := with_queries (with_metadata m (md_with_id (metadata m) 0))
                  (CanonicalQuestion_to_query actual :: rest) in
      let class := classify_response m' in
      Ok {| resp_message := m'; resp_class := class;
            resp_ttl := extract_ttl_metadata m' class |}
  end.

Definition response_with_code (q : CanonicalQuery) (code : ResponseCode)
    (records : list Record_) : result CanonicalMessageError CanonicalResponse :=
  let base := message_new 0 MT_Response OP_Query in
  let md := metadata base in
  let m :=
    {| metadata := {| md_id := md_id md; md_message_type := md_message_type md;
         md_op_code := md_op_code md; md_authoritative := md_authoritative md;
         md_truncation := md_truncation md;
         md_recursion_desired := md_recursion_desired (metadata (query_message q));
         md_recursion_available := md_recursion_available md;
         md_authentic_data := md_authentic_data md;
         md_checking_disabled := md_checking_disabled (metadata (query_message q));
         md_response_code := code |};
       queries := queries base ++ [CanonicalQuestion_to_query (query_question q)];
       answers := answers base ++ records;
       authorities := authorities base; additionals := additionals base;
       edns := edns base |} in
  CanonicalResponse_from_message m q 0.

Definition response_with_answers (q : CanonicalQuery) (records : list Record_) :=
  response_with_code q NoError records.

Definition empty_response (q : CanonicalQuery) (code : ResponseCode) :=
  response_with_code q code [].

Definition matches_query (r : CanonicalResponse) (q : CanonicalQuery) : bool :=
  match queries (resp_message r) with
  | [] => false
  | hq :: _ => CanonicalQuestion_eqb (CanonicalQuestion_from_query hq) (query_question q)
  end.

(** ** TTL rewriting *)

Definition set_record_ttl (f : Z -> Z) (r : Record_) : Record_ :=
  {| rr_name := rr_name r; rr_class := rr_class r; rr_ttl := f (rr_ttl r);
     rr_data := rr_data r |}.

(** The loop over the three sections that every TTL operation runs, followed by
    the refresh of the derived metadata. *)
Definition map_ttl (f : Z -> Z) (r : CanonicalResponse) : CanonicalResponse :=
  let m := resp_message r in
  let m' := {| metadata := metadata m; queries := queries m;
               answers := set_record_ttl f <$> answers m;
               authorities := set_record_ttl f <$> authorities m;
               additionals := set_record_ttl f <$> additionals m;
               edns := edns m |} in
  {| resp_message := m'; resp_class := resp_class r;
     resp_ttl := extract_ttl_metadata m' (resp_class r) |}.

Definition ttl_bound_seconds (v : option Duration) : option Z :=
  match v with
  | Some d => if is_zero d then None else Some (u32_clamp (as_secs d))
  | None => None
  end.

Definition clamp_value (min max : option Z) (ttl : Z) : Z :=
  let ttl := match min with Some lo => Z.max ttl lo | None => ttl end in
  match max with Some hi => Z.min ttl hi | None => ttl end.

Definition clamp_ttl (r : CanonicalResponse) (min max : option Duration) :
    CanonicalResponse :=
  map_ttl (clamp_value (ttl_bound_seconds min) (ttl_bound_seconds max)) r.

Definition age_ttl (r : CanonicalResponse) (elapsed : Duration) : CanonicalResponse :=
  map_ttl (fun ttl => sat_sub ttl (u32_clamp (as_secs elapsed))) r.

Definition set_ttl (r : CanonicalResponse) (ttl : Duration) : CanonicalResponse :=
  map_ttl (fun _ => u32_clamp (as_secs ttl)) r.

Definition is_negative (r : CanonicalResponse) : bool := is_negative_class (resp_class r).

Definition cap_negative_ttl (r : CanonicalResponse) (max : Duration) : CanonicalResponse :=
  if negb (is_negative r) then r
  else map_ttl (fun ttl => Z.min ttl (u32_clamp (as_secs max))) r.

End Message.

(** ** Well-formed messages *)

Section MessageSpec.
Context {HH : Hickory} {HL : HickoryLaws HH}.

Definition canonical_question (q : CanonicalQuestion) : Prop :=
  name_set_fqdn (name_to_lowercase (cq_name q)) = cq_name q.

(** The class of a locally built, never truncated response. *)
Definition class_of_code (code : ResponseCode) (records : list Record_) : ResponseClass :=
  match code with
  | NoError => match records with [] => RNoData | _ => RPositive end
  | NXDomain => RNxDomain
  | Refused => RRefused
  | ServFail => RServFail
  | c => ROther c
  end.

(** What [validate_common] accepts. *)
Definition acceptable (m : Message) (mt : MessageType) : Prop :=
  md_message_type (metadata m) = mt /\ md_op_code (metadata m) = OP_Query /\
  length (queries m) = 1%nat /\ (forall e, edns m = Some e -> edns_version e = 0).

(** The invariant of [CanonicalQuery]: DNS ID 0, exactly the canonical question. *)
Definition wf_query (q : CanonicalQuery) : Prop :=
  acceptable (query_message q) MT_Query /\
  md_id (metadata (query_message q)) = 0 /\
  queries (query_message q) = [CanonicalQuestion_to_query (query_question q)] /\
  canonical_question (query_question q).

(** The invariant of [CanonicalResponse]: DNS ID 0, a canonical question, and
    derived fields that agree with the message. *)
Definition wf_response (r : CanonicalResponse) : Prop :=
  acceptable (resp_message r) MT_Response /\
  md_id (metadata (resp_message r)) = 0 /\
  (exists q, queries (resp_message r) = [CanonicalQuestion_to_query q] /\
             canonical_question q) /\
  resp_class r = classify_response (resp_message r) /\
  resp_ttl r = extract_ttl_metadata (resp_message r) (resp_class r).

Lemma from_query_canonical q : canonical_question (CanonicalQuestion_from_query q).
Proof. unfold canonical_question. simpl. apply name_canon_idem. Qed.

Lemma from_to_query q :
  canonical_question q -> CanonicalQuestion_from_query (CanonicalQuestion_to_query q) = q.
Proof.
  intros H. destruct q. unfold CanonicalQuestion_from_query. simpl.
  unfold canonical_question in H. simpl in H. by rewrite H.
Qed.

Lemma question_eqb_refl q : CanonicalQuestion_eqb q q = true.
Proof. unfold CanonicalQuestion_eqb. by rewrite name_eqb_refl, !Z.eqb_refl. Qed.

Lemma validate_common_ok m mt : validate_common m mt = Ok tt <-> acceptable m mt.
Proof.
  unfold validate_common, acceptable.
  destruct (bool_decide_reflect (md_message_type (metadata m) = mt)); simpl; [|naive_solver].
  destruct (bool_decide_reflect (md_op_code (metadata m) = OP_Query)); simpl; [|naive_solver].
  destruct (Nat.eqb_spec (length (queries m)) 1); simpl; [|naive_solver].
  destruct (edns m) as [e'|]; [|naive_solver].
  destruct (Z.eqb_spec (edns_version e') 0); naive_solver.
Qed.

Lemma validate_common_cases m mt :
  (validate_common m mt = Ok tt /\ acceptable m mt) \/
  (exists e, validate_common m mt = Err e) /\ ~ acceptable m mt.
Proof.
  destruct (validate_common m mt) as [[]|e] eqn:E.
  - left. split; [done|]. by apply validate_common_ok.
  - right. split; [by eexists|]. intros H%validate_common_ok. congruence.
Qed.

Lemma acceptable_one_query m mt : acceptable m mt -> exists q, queries m = [q].
Proof.
  intros (_ & _ & Hl & _). destruct (queries m) as [|q [|]]; try discriminate. by exists q.
Qed.

Lemma query_from_message_wf m q :
  CanonicalQuery_from_message m = Ok q -> wf_query q.
Proof.
  unfold CanonicalQuery_from_message. intros Hq.
  apply bind_ok in Hq as ([] & Hv & Hq). apply validate_common_ok in Hv.
  destruct (acceptable_one_query _ _ Hv) as [hq Hhq]. rewrite Hhq in Hq.
  injection Hq as <-.
  destruct Hv as (_ & _ & _ & He).
  repeat split; simpl; try done. apply from_query_canonical.
Qed.

(** The responses [from_message] lets through, and what it makes of them. *)
Definition response_accepted (m : Message) (q : CanonicalQuery) (id : Z) : Prop :=
  acceptable m MT_Response /\ md_id (metadata m) = id /\
  forall hq, queries m = [hq] ->
    CanonicalQuestion_eqb (CanonicalQuestion_from_query hq) (query_question q) = true.

Lemma response_from_message_inv m q id r :
  CanonicalResponse_from_message m q id = Ok r ->
  response_accepted m q id /\ wf_response r /\ matches_query r q = true /\
  answers (resp_message r) = answers m /\ authorities (resp_message r) = authorities m /\
  additionals (resp_message r) = additionals m /\ edns (resp_message r) = edns m /\
  resp_class r = classify_response m.
Proof.
  unfold CanonicalResponse_from_message. intros Hr.
  apply bind_ok in Hr as ([] & Hv & Hr). apply validate_common_ok in Hv.
  destruct (Z.eqb_spec (md_id (metadata m)) id); [|done]. simpl in Hr.
  destruct (acceptable_one_query _ _ Hv) as [hq Hhq]. rewrite Hhq in Hr.
  destruct (CanonicalQuestion_eqb _ _) eqn:Hq in Hr; [|done]. simpl in Hr.
  injection Hr as <-.
  assert (Hcan := from_query_canonical hq).
  split; [|split; [|split]].
  - split; [done|]. split; [done|]. intros hq' Hq'. congruence.
  - destruct Hv as (? & ? & ? & ?). repeat split; simpl; try done. by eexists.
  - unfold matches_query. simpl. by rewrite from_to_query.
  - by repeat split.
Qed.

Lemma response_from_message_complete m q id :
  response_accepted m q id -> exists r, CanonicalResponse_from_message m q id = Ok r.
Proof.
  intros (Hacc & Hid & Hq). unfold CanonicalResponse_from_message.
  rewrite (proj2 (validate_common_ok _ _) Hacc). simpl.
  destruct (acceptable_one_query _ _ Hacc) as [hq Hhq].
  rewrite Hhq, Hid, Z.eqb_refl, Hq by done. simpl. by eexists.
Qed.

(** ** TTL metadata *)

Lemma list_min_spec l m :
  list_min l = Some m <-> m ∈ l /\ forall x, x ∈ l -> m <= x.
Proof.
  revert m. induction l as [|x l IH]; intros m; simpl.
  { split; [done|]. intros [?%elem_of_nil _]. done. }
  destruct (list_min l) as [k|] eqn:E.
  - destruct (proj1 (IH k) eq_refl) as [Hk Hle].
    split.
    + intros [= <-]. split.
      * destruct (Z.min_spec x k) as [[_ ->]|[_ ->]]; set_solver.
      * intros y [->|Hy]%elem_of_cons; [lia|]. specialize (Hle y Hy). lia.
    + intros [Hm Hall]. f_equal.
      assert (m <= x) by (apply Hall; set_solver).
      assert (m <= k) by (apply Hall; set_solver).
      apply elem_of_cons in Hm as [->|Hm]; [lia|]. specialize (Hle m Hm). lia.
  - destruct l as [|y l]; [|simpl in E; by destruct (list_min l)].
    split.
    + intros [= <-]. split; [set_solver|]. intros z Hz. set_solver by lia.
    + intros [Hm _]. set_solver.
Qed.

Lemma list_min_mono (f : Z -> Z) l :
  (forall x y, x <= y -> f x <= f y) -> list_min (f <$> l) = f <$> list_min l.
Proof.
  intros Hf. induction l as [|x l IH]; [done|]. cbn [fmap list_fmap list_min].
  change (list_fmap _ _ f l) with (f <$> l). rewrite IH.
  destruct (list_min l) as [k|]; simpl; [|done]. f_equal.
  destruct (Z.le_ge_cases x k) as [H|H].
  - rewrite !Z.min_l; auto.
  - rewrite !Z.min_r; [done|lia|auto].
Qed.

Lemma all_records_map_ttl f r :
  all_records (resp_message (map_ttl f r)) =
  set_record_ttl f <$> all_records (resp_message r).
Proof. unfold all_records. simpl. by rewrite !fmap_app. Qed.

Lemma ttls_map_ttl f r :
  rr_ttl <$> all_records (resp_message (map_ttl f r)) =
  f <$> (rr_ttl <$> all_records (resp_message r)).
Proof. rewrite all_records_map_ttl, <-!list_fmap_compose. done. Qed.

Lemma map_ttl_wf f r : wf_response r -> wf_response (map_ttl f r).
Proof.
  intros (Hacc & Hid & Hq & Hc & Ht).
  repeat split; try apply Hacc; try done. simpl.
  rewrite Hc. unfold classify_response. simpl. by destruct (answers (resp_message r)).
Qed.

Lemma map_ttl_compose f g r : map_ttl g (map_ttl f r) = map_ttl (fun t => g (f t)) r.
Proof.
  unfold map_ttl. simpl. by rewrite <-!list_fmap_compose.
Qed.

Lemma map_ttl_ext f g r : (forall t, f t = g t) -> map_ttl f r = map_ttl g r.
Proof.
  intros Hfg. unfold map_ttl.
  assert (E : forall l : list Record_, set_record_ttl f <$> l = set_record_ttl g <$> l).
  { intros l. apply list_fmap_ext. intros _ x _. unfold set_record_ttl. by rewrite Hfg. }
  by rewrite !E.
Qed.

Lemma map_ttl_min_ttl f r :
  (forall x y, x <= y -> f x <= f y) -> wf_response r ->
  min_ttl (resp_ttl (map_ttl f r)) = f <$> min_ttl (resp_ttl r).
Proof.
  intros Hf (_ & _ & _ & _ & Ht). rewrite Ht. simpl.
  change (resp_message r) with (resp_message r).
  rewrite <-list_min_mono by done. f_equal. apply ttls_map_ttl.
Qed.

Lemma clamp_value_mono lo hi x y : x <= y -> clamp_value lo hi x <= clamp_value lo hi y.
Proof. unfold clamp_value. destruct lo, hi; lia. Qed.

(** ** Properties *)

Lemma clamp_value_bounds lo hi t :
  (forall m, hi = Some m -> clamp_value lo hi t <= m) /\
  (forall l, lo = Some l ->
     Z.min l (default l hi) <= clamp_value lo hi t).
Proof. unfold clamp_value. destruct lo, hi; simpl; split; intros ? [=]; subst; lia. Qed.

Lemma with_subnet_wf q s : wf_query q -> wf_query (with_edns_client_subnet q s).
Proof.
  intros ((? & ? & ? & He) & Hid & Hq & Hc). repeat split; simpl; try done.
  intros e. destruct s as [s|]; destruct (edns (query_message q)) as [e0|]; simpl; intros [= <-].
  - by rewrite edns_version_insert, edns_version_remove, He.
  - by rewrite edns_version_insert, edns_new_version.
  - by rewrite edns_version_remove, He.
Qed.

(** A canonical query built from any parsed message carries DNS ID 0, opcode
    QUERY and exactly the lower-cased absolute question; replacing its ECS keeps
    it canonical, keeps the question, and the ECS read back is the one set. *)
Theorem canonical_query_ecs m q s :
  CanonicalQuery_from_message m = Ok q ->
  wf_query q /\ wf_query (with_edns_client_subnet q s) /\
  edns_client_subnet (with_edns_client_subnet q s) = s /\
  query_question (with_edns_client_subnet q s) = query_question q.
Proof.
  intros Hq%query_from_message_wf. split; [done|]. split; [by apply with_subnet_wf|].
  split; [|done]. unfold edns_client_subnet, with_edns_client_subnet. simpl.
  destruct s as [s|]; destruct (edns (query_message q)) as [e|]; simpl; try done.
  - apply edns_subnet_insert.
  - apply edns_subnet_insert_new.
  - apply edns_subnet_remove.
Qed.

(** A wire response is accepted exactly when it is a QUERY response with one
    question, EDNS version 0, the expected ID and the expected question; the
    canonical response then has ID 0, satisfies the response invariant and
    matches the query. *)
Theorem response_from_message_spec m q id :
  (response_accepted m q id <->
     exists r, CanonicalResponse_from_message m q id = Ok r) /\
  (forall r, CanonicalResponse_from_message m q id = Ok r ->
     wf_response r /\ matches_query r q = true /\
     answers (resp_message r) = answers m /\
     resp_class r = classify_response m).
Proof.
  split.
  - split; [apply response_from_message_complete|].
    intros [r Hr]. exact (proj1 (response_from_message_inv _ _ _ _ Hr)).
  - intros r Hr. apply response_from_message_inv in Hr. tauto.
Qed.

(** Building a response never fails on a well-formed query. *)
Lemma response_with_code_ok q code records :
  wf_query q ->
  exists r, response_with_code q code records = Ok r /\ wf_response r /\
    matches_query r q = true /\ answers (resp_message r) = records /\
    resp_class r = class_of_code code records.
Proof.
  intros (_ & _ & _ & Hc). unfold response_with_code.
  match goal with |- exists r, CanonicalResponse_from_message ?m _ _ = _ /\ _ =>
    destruct (response_from_message_complete m q 0) as [r Hr] end.
  { repeat split; simpl; try done. intros hq [= <-].
    rewrite from_to_query by done. apply question_eqb_refl. }
  exists r. split; [done|].
  apply response_from_message_inv in Hr as (_ & Hwf & Hm & Ha & _ & _ & _ & Hcl).
  repeat split; try apply Hwf; try done. rewrite Hcl. unfold classify_response. simpl.
  by destruct code.
Qed.

(** Building a local response for a canonical query never fails (the
    [expect] on the synthesised SERVFAIL cannot panic); the response answers that
    query, carries the given records and has the class of its RCODE. *)
Theorem response_with_code_infallible q code records :
  wf_query q ->
  exists r, response_with_code q code records = Ok r /\ wf_response r /\
    matches_query r q = true /\ answers (resp_message r) = records /\
    resp_class r = class_of_code code records.
Proof. apply response_with_code_ok. Qed.

(** Clamping keeps the response invariant and its class; afterwards no TTL
    exceeds the maximum (which wins over the minimum), none is below the minimum
    unless the maximum is smaller, and the cached minimum TTL is the clamped old
    one. *)
Theorem clamp_ttl_bounds r lo hi :
  wf_response r ->
  wf_response (clamp_ttl r lo hi) /\
  resp_class (clamp_ttl r lo hi) = resp_class r /\
  min_ttl (resp_ttl (clamp_ttl r lo hi)) =
    clamp_value (ttl_bound_seconds lo) (ttl_bound_seconds hi) <$> min_ttl (resp_ttl r) /\
  forall rr, rr ∈ all_records (resp_message (clamp_ttl r lo hi)) ->
    (forall m, ttl_bound_seconds hi = Some m -> rr_ttl rr <= m) /\
    (forall l, ttl_bound_seconds lo = Some l ->
       Z.min l (default l (ttl_bound_seconds hi)) <= rr_ttl rr).
Proof.
  intros Hwf. unfold clamp_ttl. split; [by apply map_ttl_wf|]. split; [done|]. split.
  - apply map_ttl_min_ttl; [|done]. intros. by apply clamp_value_mono.
  - intros rr Hrr. rewrite all_records_map_ttl in Hrr.
    apply list_elem_of_fmap in Hrr as (rr0 & -> & _). simpl.
    pose proof (clamp_value_bounds (ttl_bound_seconds lo) (ttl_bound_seconds hi) (rr_ttl rr0))
      as [H1 H2].
    by split.
Qed.

(** Ageing a cached response by [a] and then by [b] whole seconds is ageing
    it by their sum, as long as that sum fits the 32-bit TTL field; ageing never
    raises a TTL and never makes one negative. *)
Theorem age_ttl_additive r a b :
  0 <= a -> 0 <= b -> a + b <= u32_max ->
  age_ttl (age_ttl r (from_secs a)) (from_secs b) = age_ttl r (from_secs (a + b)) /\
  forall rr, rr ∈ all_records (resp_message (age_ttl r (from_secs a))) ->
    0 <= rr_ttl rr /\ exists rr0, rr0 ∈ all_records (resp_message r) /\
      (0 <= rr_ttl rr0 -> rr_ttl rr <= rr_ttl rr0).
Proof.
  intros Ha Hb Hab. unfold age_ttl. rewrite !as_secs_from_secs. split.
  - rewrite map_ttl_compose. apply map_ttl_ext. intros t. unfold_ints. lia.
  - intros rr Hrr. rewrite all_records_map_ttl in Hrr.
    apply list_elem_of_fmap in Hrr as (rr0 & -> & H0). simpl.
    split; [unfold_ints; lia|]. exists rr0. split; [done|]. unfold_ints. lia.
Qed.

(** Capping applies to negative answers only: a NODATA/NXDOMAIN response
    leaves with every TTL (the SOA-derived negative TTL included) at most the
    bound, even when the bound is zero; any other response is untouched. *)
Theorem cap_negative_ttl_only_negative r d :
  wf_response r ->
  wf_response (cap_negative_ttl r d) /\
  (is_negative r = false -> cap_negative_ttl r d = r) /\
  (is_negative r = true ->
     (forall rr, rr ∈ all_records (resp_message (cap_negative_ttl r d)) ->
        rr_ttl rr <= u32_clamp (as_secs d)) /\
     (forall t, negative_ttl (resp_ttl (cap_negative_ttl r d)) = Some t ->
        t <= u32_clamp (as_secs d))).
Proof.
  intros Hwf. unfold cap_negative_ttl.
  destruct (is_negative r) eqn:Hn; simpl; [|by repeat split; try apply Hwf].
  split; [by apply map_ttl_wf|]. split; [done|]. intros _.
  assert (Hall : forall rr, rr ∈ all_records (resp_message
      (map_ttl (fun t => Z.min t (u32_clamp (as_secs d))) r)) ->
      rr_ttl rr <= u32_clamp (as_secs d)).
  { intros rr Hrr. rewrite all_records_map_ttl in Hrr.
    apply list_elem_of_fmap in Hrr as (rr0 & -> & _). simpl. lia. }
  split; [exact Hall|]. intros t. cbn [resp_ttl map_ttl extract_ttl_metadata negative_ttl].
  change (resp_class r) with (resp_class r). unfold is_negative in Hn. rewrite Hn.
  intros [Ht _]%list_min_spec. apply list_elem_of_omap in Ht as (rr & Hrr & Hs).
  unfold soa_ttl in Hs. destruct (rdata_soa_minimum (rr_data rr)); [|done].
  injection Hs as <-. specialize (Hall rr).
  assert (rr_ttl rr <= u32_clamp (as_secs d)); [apply Hall|lia].
  unfold all_records. simpl. set_solver.
Qed.

End MessageSpec.

(** ** A concrete wire library, to evaluate the definitions on

    Names are bytes with the root flag, RDATA is the SOA minimum if any, EDNS is
    its version and ECS. *)
Module Sample.

Definition SName : Type := list Z * bool.
Definition lower (c : Z) : Z := if (65 <=? c) && (c <=? 90) then c + 32 else c.

Definition question : HQuery SName :=
  {| q_name := ([69; 88], false); q_type := 1; q_class := 1 |}.

Definition answer (ttl : Z) : HRecord SName (option Z) :=
  {| rr_name := ([101; 120], true); rr_class := 1; rr_ttl := ttl; rr_data := None |}.

Definition soa (ttl minimum : Z) : HRecord SName (option Z) :=
  {| rr_name := ([101; 120], true); rr_class := 1; rr_ttl := ttl; rr_data := Some minimum |}.

Definition header (id : Z) (mt : MessageType) (rc : ResponseCode) : Metadata :=
  {| md_id := id; md_message_type := mt; md_op_code := OP_Query;
     md_authoritative := false; md_truncation := false; md_recursion_desired := true;
     md_recursion_available := false; md_authentic_data := false;
     md_checking_disabled := false; md_response_code := rc |}.

(** A query for EX with ID 7, and two responses to it: one answer with TTL 300,
    and an NXDOMAIN with an SOA. *)
Definition query_msg : HMessage SName (option Z) (Z * option Z) :=
  {| metadata := header 7 MT_Query NoError; queries := [question]; answers := [];
     authorities := []; additionals := []; edns := Some (0, None) |}.
Definition positive_msg (id ttl : Z) : HMessage SName (option Z) (Z * option Z) :=
  {| metadata := header id MT_Response NoError;
     queries := [{| q_name := ([101; 120], true); q_type := 1; q_class := 1 |}];
     answers := [answer ttl]; authorities := []; additionals := []; edns := None |}.
Definition negative_msg (id : Z) : HMessage SName (option Z) (Z * option Z) :=
  {| metadata := header id MT_Response NXDomain;
     queries := [{| q_name := ([101; 120], true); q_type := 1; q_class := 1 |}];
     answers := []; authorities := [soa 900 600]; additionals := []; edns := None |}.

(** Two bytes of ID, one of RCODE, four of the first TTL. *)
Definition wire (m : HMessage SName (option Z) (Z * option Z)) : list byte :=
  be_bytes 2 (md_id (metadata m)) ++
  be_bytes 4 (match answers m with r :: _ => rr_ttl r | [] => 0 end).

#[export] Instance hickory : Hickory := {|
  Name := SName; RData := option Z; Edns := Z * option Z; ClientSubnet := Z;
  name_to_lowercase n := (map lower n.1, n.2);
  name_set_fqdn n := (n.1, true);
  name_eqb n m := bool_decide (n = m);
  rdata_soa_minimum d := d;
  edns_version e := e.1; edns_new := (0, None); edns_subnet e := e.2;
  edns_remove_subnet e := (e.1, None); edns_insert_subnet s e := (e.1, Some s);
  to_vec m := Some (wire m);
  from_vec b := if bool_decide (b = wire (positive_msg 0 300))
                then Some (positive_msg 0 300) else None
|}.

#[export] Instance hickory_laws : HickoryLaws hickory.
Proof.
  split; simpl; try done.
  - intros n. by apply bool_decide_eq_true.
  - intros n m. apply bool_decide_ext. split; congruence.
  - intros n m k H1%bool_decide_eq_true H2%bool_decide_eq_true.
    apply bool_decide_eq_true. congruence.
  - intros [n b]. simpl. f_equal. rewrite map_map. apply map_ext. intros c.
    unfold lower. destruct (Z.leb_spec 65 c), (Z.leb_spec c 90); cbn [andb].
    all: repeat match goal with |- context [?a <=? ?b] => destruct (Z.leb_spec a b) end;
      cbn [andb]; lia.
Qed.

Definition query : CanonicalQuery :=
  match CanonicalQuery_from_message query_msg with
  | Ok q => q
  | Err _ => {| query_message := query_msg;
                query_question := CanonicalQuestion_from_query question |}
  end.

Definition response (m : Message) : CanonicalResponse :=
  match CanonicalResponse_from_message m query (md_id (metadata m)) with
  | Ok r => r
  | Err _ => {| resp_message := m; resp_class := RServFail;
                resp_ttl := {| min_ttl := None; negative_ttl := None |} |}
  end.

Lemma query_wf : wf_query query.
Proof. apply (query_from_message_wf (HH := hickory) query_msg). reflexivity. Qed.

Lemma positive_wf : wf_response (response (positive_msg 7 300)).
Proof.
  by apply (response_from_message_inv (HH := hickory) (positive_msg 7 300) query 7 (response (positive_msg 7 300))).
Qed.

Lemma negative_wf : wf_response (response (negative_msg 7)).
Proof.
  by apply (response_from_message_inv (HH := hickory) (negative_msg 7) query 7 (response (negative_msg 7))).
Qed.

(** Concrete applications of the properties above. *)
Lemma canonical_query_ecs_witness :
  edns_client_subnet (with_edns_client_subnet query (Some 24)) = Some 24.
Proof. apply (canonical_query_ecs (HH := hickory) query_msg query (Some 24)). reflexivity. Defined.

Lemma response_from_message_spec_witness :
  response_accepted (positive_msg 7 300) query 7 /\
  resp_class (response (positive_msg 7 300)) = RPositive.
Proof.
  split.
  - apply (response_from_message_spec (HH := hickory) (positive_msg 7 300) query 7).
    exists (response (positive_msg 7 300)). reflexivity.
  - reflexivity.
Defined.

Lemma response_with_code_infallible_witness :
  exists r, response_with_code query ServFail [] = Ok r /\ resp_class r = RServFail.
Proof.
  destruct (response_with_code_infallible (HH := hickory) query ServFail [] query_wf)
    as (r & Hr & _ & _ & _ & Hc).
  exists r. by split.
Defined.

Lemma clamp_ttl_bounds_witness :
  min_ttl (resp_ttl (clamp_ttl (response (positive_msg 7 300)) (Some (from_secs 600))
    (Some (from_secs 3600)))) = Some 600.
Proof.
  destruct (clamp_ttl_bounds (HH := hickory) (response (positive_msg 7 300)) (Some (from_secs 600))
    (Some (from_secs 3600)) positive_wf) as (_ & _ & H & _).
  rewrite H. reflexivity.
Defined.

Lemma age_ttl_additive_witness :
  age_ttl (age_ttl (response (positive_msg 7 300)) (from_secs 100)) (from_secs 50) =
  age_ttl (response (positive_msg 7 300)) (from_secs 150).
Proof.
  apply (age_ttl_additive (HH := hickory) (response (positive_msg 7 300)) 100 50); unfold u32_max; lia.
Defined.

Lemma cap_negative_ttl_only_negative_witness :
  negative_ttl (resp_ttl (cap_negative_ttl (response (negative_msg 7)) (from_secs 30)))
    = Some 30 /\ 30 <= u32_clamp (as_secs (from_secs 30)).
Proof.
  split; [reflexivity|].
  apply (cap_negative_ttl_only_negative (HH := hickory) (response (negative_msg 7)) (from_secs 30)
    negative_wf); reflexivity.
Defined.

End Sample.
