(* ===== verification/CacheModel.v ===== *)
(** * The cache port (src/backend/src/ports/cache.rs, ports/mod.rs, dns/context.rs)

    Identifiers, namespaces, keys, entries and the vocabulary of the [CacheStore]
    contract: conditions, outcomes, invalidation scopes and single-flight
    completions. *)

From S2P Require Import Prelude Message.

(** ** Port errors and cancellation (ports/mod.rs, dns/context.rs) *)

Inductive CancelReason :=
| ClientDisconnected | DeadlineExceeded | CR_Shutdown | GroupPolicy | UpstreamCancelled.
#[global] Instance CancelReason_eq_dec : EqDecision CancelReason.
Proof. solve_decision. Defined.

Inductive PortErrorClass :=
| PE_InvalidInput | PE_Timeout | PE_Cancelled (reason : CancelReason) | PE_Unavailable
| PE_PermissionDenied | PE_ResourceExhausted | PE_ProtocolViolation | PE_CorruptData
| PE_Internal.
#[global] Instance PortErrorClass_eq_dec : EqDecision PortErrorClass.
Proof. solve_decision. Defined.

(** [PortError]: its class and the operation that failed. *)
Record PortError := port_error {
  pe_class : PortErrorClass;
  pe_operation : string
}.

(** What an answer came from and how the cache took part in it (ports/storage.rs,
    ports/telemetry.rs). *)
Inductive StatsSource := SrcCache | SrcHosts | SrcRuleSet | SrcUpstream.
#[global] Instance StatsSource_eq_dec : EqDecision StatsSource.
Proof. solve_decision. Defined.
Inductive CacheStatus :=
| CS_Disabled | CS_Miss | CS_Fresh | CS_Stale | CS_Expired | CS_StoreUnavailable | CS_WriteRejected.
#[global] Instance CacheStatus_eq_dec : EqDecision CacheStatus.
Proof. solve_decision. Defined.

(** [Deadline]: an instant that can only be tightened. *)
Abbreviation Deadline := Z (only parsing).
Definition is_expired (deadline : Deadline) (now : Instant) : bool := deadline <=? now.
Definition remaining (deadline : Deadline) (now : Instant) : Duration :=
  duration_since deadline now.
Definition shortened_to (deadline : Deadline) (candidate : Instant) : Deadline :=
  Z.min deadline candidate.

(** ** Identifiers *)

Definition EXPIRED_ENTRY_RETENTION : Duration := from_secs 60.
Definition CACHE_ENTRY_FORMAT_VERSION : Z := 2.

Inductive CacheNamespaceIdError := IdEmpty | IdTooShort | IdTooLong | IdInvalidCharacter.

(** [u8::is_ascii_alphanumeric]. *)
Definition is_ascii_alphanumeric (b : byte) : bool :=
  let z := byte_to_Z b in
  ((48 <=? z) && (z <=? 57)) || ((65 <=? z) && (z <=? 90)) || ((97 <=? z) && (z <=? 122)).

(** [b'-' | b'_' | b'.'] *)
Definition is_id_punct (b : byte) : bool :=
  let z := byte_to_Z b in (z =? 45) || (z =? 95) || (z =? 46).

Definition validate_namespace_id (value : string) (minimum_len maximum_len : Z) :
    result CacheNamespaceIdError unit :=
  if str_len value =? 0 then Err IdEmpty
  else if str_len value <? minimum_len then Err IdTooShort
  else if maximum_len <? str_len value then Err IdTooLong
  else if negb (forallb (fun b => is_ascii_alphanumeric b || is_id_punct b)
                  (str_bytes value)) then Err IdInvalidCharacter
  else Ok tt.

Record CacheStrategyId := mk_strategy_id { strategy_id_str : string }.
#[global] Instance CacheStrategyId_eq_dec : EqDecision CacheStrategyId.
Proof. solve_decision. Defined.

Definition CacheStrategyId_from_validated_config_id (value : string) :
    result CacheNamespaceIdError CacheStrategyId :=
  _ ← validate_namespace_id value 1 64; Ok (mk_strategy_id value).

(** [ClientCacheDigest([u8; 32])]. *)
Record ClientCacheDigest := mk_digest { digest_bytes : list byte }.
#[global] Instance ClientCacheDigest_eq_dec : EqDecision ClientCacheDigest.
Proof. solve_decision. Defined.

Inductive CacheNamespace :=
| NsGlobal
| NsStrategy (strategy : CacheStrategyId)
| NsClientStrategy (client_digest : ClientCacheDigest) (strategy : CacheStrategyId).
#[global] Instance CacheNamespace_eq_dec : EqDecision CacheNamespace.
Proof. solve_decision. Defined.

Record CacheUpstreamId := mk_upstream_id { upstream_id_str : string }.
#[global] Instance CacheUpstreamId_eq_dec : EqDecision CacheUpstreamId.
Proof. solve_decision. Defined.

Inductive CacheUpstreamIdError := UpstreamIdError.

(** The characters of an upstream id, [b'!'] included. *)
Definition is_upstream_id_byte (b : byte) : bool :=
  is_ascii_alphanumeric b || is_id_punct b || (byte_to_Z b =? 33).

Definition CacheUpstreamId_from_validated_config_id (value : string) :
    result CacheUpstreamIdError CacheUpstreamId :=
  if (str_len value =? 0) || (128 <? str_len value) then Err UpstreamIdError
  else if negb (forallb is_upstream_id_byte (str_bytes value)) then Err UpstreamIdError
  else Ok (mk_upstream_id value).

Record CacheUpstreamProvenance := mk_provenance {
  target_id : CacheUpstreamId;
  used_id : option CacheUpstreamId
}.
#[global] Instance CacheUpstreamProvenance_eq_dec : EqDecision CacheUpstreamProvenance.
Proof. solve_decision. Defined.

Definition direct_from_validated_config_id (value : string) :
    result CacheUpstreamIdError CacheUpstreamProvenance :=
  id ← CacheUpstreamId_from_validated_config_id value;
  Ok (mk_provenance id (Some id)).

(** ** Keys *)

Record CacheKey := mk_key {
  key_namespace : CacheNamespace;
  key_encoded : list byte;
  key_format_version : Z
}.
#[global] Instance CacheKey_eq_dec : EqDecision CacheKey.
Proof. solve_decision. Defined.

#[global] Instance CacheNamespace_countable : Countable CacheNamespace.
Proof.
  refine (inj_countable'
    (fun ns => match ns with
       | NsGlobal => inl tt
       | NsStrategy s => inr (inl (strategy_id_str s))
       | NsClientStrategy d s => inr (inr (digest_bytes d, strategy_id_str s))
       end)
    (fun x => match x with
       | inl _ => NsGlobal
       | inr (inl s) => NsStrategy (mk_strategy_id s)
       | inr (inr (d, s)) => NsClientStrategy (mk_digest d) (mk_strategy_id s)
       end) _).
  by intros [|[]|[] []].
Defined.

#[global] Instance CacheKey_countable : Countable CacheKey.
Proof.
  refine (inj_countable'
    (fun k => (key_namespace k, key_encoded k, key_format_version k))
    (fun '(ns, e, v) => mk_key ns e v) _).
  by intros [].
Defined.

(** ** Entries *)

Inductive CacheQuality := Q_Failure | Q_Negative | Q_Complete.
#[global] Instance CacheQuality_eq_dec : EqDecision CacheQuality.
Proof. solve_decision. Defined.

(** The discriminants, which the derived [Ord] follows. *)
Definition quality_rank (q : CacheQuality) : Z :=
  match q with Q_Failure => 0 | Q_Negative => 1 | Q_Complete => 2 end.

Inductive CacheResponseClass := C_NoError | C_NoData | C_NxDomain | C_ServFail | C_Truncated.
#[global] Instance CacheResponseClass_eq_dec : EqDecision CacheResponseClass.
Proof. solve_decision. Defined.

Inductive CacheCondition := Absent | IfVersion (version : Z).

Inductive CacheWriteOutcome :=
| Inserted (version : Z)
| Replaced (version : Z)
| Conflict (current : option Z)
| RejectedQuality.

Inductive CacheInvalidationPredicate :=
| ProducerRevision (namespace : CacheNamespace) (revision : Z).

Inductive CacheInvalidation :=
| InvExact (key : CacheKey)
| InvNamespace (namespace : CacheNamespace)
| InvPredicate (predicate : CacheInvalidationPredicate)
| InvAll.

Record CacheStoreStats := mk_stats {
  entries : Z;
  st_weighted_size : Z;
  hits : Z;
  misses : Z;
  conflicts : Z;
  evictions : Z
}.

Inductive CacheLoadFailure :=
| LF_Abandoned | LF_Timeout | LF_Cancelled (reason : CancelReason) | LF_Unavailable
| LF_ResourceExhausted | LF_Internal.

Section Entry.
Context {HH : Hickory}.

Record CacheEntry := mk_entry {
  response : CanonicalResponse;
  upstream : CacheUpstreamProvenance;
  inserted_at : Instant;
  expires_at : Instant;
  stale_until : option Instant;
  response_class : CacheResponseClass;
  producer_revision : Z;
  quality : CacheQuality;
  checksum : Z;
  format_version : Z
}.

(** [CacheEntry::retention_deadline]. *)
Definition retention_deadline (e : CacheEntry) : Instant :=
  let answerable_until := match stale_until e with
    | Some s => Z.max (expires_at e) s
    | None => expires_at e
    end in
  default answerable_until (instant_checked_add answerable_until EXPIRED_ENTRY_RETENTION).

Record CacheRecord := mk_record {
  version : Z;
  entry : CacheEntry
}.

Definition CacheInvalidationPredicate_matches (p : CacheInvalidationPredicate)
    (key : CacheKey) (e : CacheEntry) : bool :=
  match p with
  | ProducerRevision ns rev =>
      bool_decide (ns = key_namespace key) && (producer_revision e =? rev)
  end.

Definition CacheInvalidation_matches (i : CacheInvalidation) (key : CacheKey)
    (e : CacheEntry) : bool :=
  match i with
  | InvExact expected => bool_decide (expected = key)
  | InvNamespace ns => bool_decide (ns = key_namespace key)
  | InvPredicate p => CacheInvalidationPredicate_matches p key e
  | InvAll => true
  end.

Inductive CacheLoadCompletion :=
| LC_Ready (record : CacheRecord)
| LC_Miss
| LC_Failed (failure : CacheLoadFailure).

Lemma retention_deadline_ge e :
  expires_at e <= retention_deadline e /\
  (forall s, stale_until e = Some s -> s <= retention_deadline e).
Proof.
  unfold retention_deadline, instant_checked_add, EXPIRED_ENTRY_RETENTION, from_secs,
    nanos_per_sec.
  destruct (stale_until e) as [s|];
    [set (a := Z.max (expires_at e) s)|set (a := expires_at e)];
    destruct (_ <=? instant_max); simpl; split; try (intros ? [= <-]); try done; lia.
Qed.

End Entry.

(** ** Well-formed keys

    The private fields of the Rust types can only hold validated values; these
    predicates are those values. *)

Definition valid_strategy_id (s : CacheStrategyId) : Prop :=
  validate_namespace_id (strategy_id_str s) 1 64 = Ok tt.
Definition valid_digest (d : ClientCacheDigest) : Prop := length (digest_bytes d) = 32%nat.
Definition valid_namespace (ns : CacheNamespace) : Prop :=
  match ns with
  | NsGlobal => True
  | NsStrategy s => valid_strategy_id s
  | NsClientStrategy d s => valid_digest d /\ valid_strategy_id s
  end.
Definition valid_upstream_id (u : CacheUpstreamId) : Prop :=
  CacheUpstreamId_from_validated_config_id (upstream_id_str u) = Ok u.

Lemma valid_strategy_id_len s : valid_strategy_id s -> 1 <= str_len (strategy_id_str s) <= 64.
Proof.
  unfold valid_strategy_id, validate_namespace_id, str_len.
  destruct (Z.eqb_spec (Z.of_nat (String.length (strategy_id_str s))) 0); [done|].
  destruct (Z.ltb_spec (Z.of_nat (String.length (strategy_id_str s))) 1); [done|].
  destruct (Z.ltb_spec 64 (Z.of_nat (String.length (strategy_id_str s)))); [done|].
  intros _. lia.
Qed.

Lemma valid_upstream_id_len u : valid_upstream_id u -> str_len (upstream_id_str u) <= 128.
Proof.
  unfold valid_upstream_id, CacheUpstreamId_from_validated_config_id.
  destruct (str_len _ =? 0); [done|]. simpl.
  destruct (Z.ltb_spec 128 (str_len (upstream_id_str u))); [done|]. intros _. lia.
Qed.
