(* ===== verification/CacheKeyEnc.v ===== *)
(** * Cache key encoding (src/backend/src/cache/key.rs)

    [build_cache_key] writes every dimension that changes an answer into one byte
    string. The encoders append to an output vector in the source; here each
    returns the bytes it appends. *)

From S2P Require Import Prelude Message CacheModel.

Definition CACHE_KEY_FORMAT_VERSION : Z := 2.

Record CacheFingerprint := mk_fingerprint { fingerprint_bytes : list byte }.
#[global] Instance CacheFingerprint_eq_dec : EqDecision CacheFingerprint.
Proof. solve_decision. Defined.

Inductive CacheKeyMode := Fast | Resolved.

Record CacheKeyDimensions := mk_dimensions {
  mode : CacheKeyMode;
  policy : option CacheFingerprint;
  request : option CacheFingerprint;
  target : option CacheFingerprint;
  ecs : option CacheFingerprint
}.

Inductive CacheKeyError := QueryEncoding | ComponentTooLarge.

Definition encode_component (component : list byte) : result CacheKeyError (list byte) :=
  if bytes_len component <=? u32_max
  then Ok (be_bytes 4 (bytes_len component) ++ component)
  else Err ComponentTooLarge.

Definition encode_namespace (ns : CacheNamespace) : result CacheKeyError (list byte) :=
  match ns with
  | NsGlobal => Ok [x00]
  | NsStrategy s =>
      c ← encode_component (str_bytes (strategy_id_str s)); Ok (x01 :: c)
  | NsClientStrategy d s =>
      c ← encode_component (str_bytes (strategy_id_str s));
      Ok (x02 :: digest_bytes d ++ c)
  end.

Definition encode_fingerprint (f : option CacheFingerprint) : list byte :=
  match f with
  | Some fp => x01 :: fingerprint_bytes fp
  | None => [x00]
  end.

Definition mode_byte (m : CacheKeyMode) : byte :=
  match m with Fast => x00 | Resolved => x01 end.

(** [b"FDCK"]. *)
Definition key_magic : list byte := [x46; x44; x43; x4b].

Definition build_cache_key {HH : Hickory} (ns : CacheNamespace) (query : CanonicalQuery)
    (transport : Z) (dims : CacheKeyDimensions) : result CacheKeyError CacheKey :=
  query_wire ← ok_or QueryEncoding (to_vec (query_message query));
  ns_bytes ← encode_namespace ns;
  wire_bytes ← encode_component query_wire;
  Ok {| key_namespace := ns;
        key_encoded := key_magic ++ be_bytes 2 CACHE_KEY_FORMAT_VERSION ++ ns_bytes ++
          be_bytes 8 transport ++ [mode_byte (mode dims)] ++
          encode_fingerprint (policy dims) ++ encode_fingerprint (request dims) ++
          encode_fingerprint (target dims) ++ encode_fingerprint (ecs dims) ++ wire_bytes;
        key_format_version := CACHE_KEY_FORMAT_VERSION |}.

(** ** Prefix-free encodings

    Each encoder is injective even when followed by arbitrary bytes, so their
    concatenation can be split in only one way. *)

Definition prefix_inj {A} (wf : A -> Prop) (enc : A -> list byte) : Prop :=
  forall a b r s, wf a -> wf b -> enc a ++ r = enc b ++ s -> a = b /\ r = s.

Lemma fixed_length_prefix_inj (n : nat) :
  prefix_inj (fun l : list byte => length l = n) id.
Proof.
  intros a b r s Ha Hb H. unfold id in H. apply app_inj_1 in H; [done|].
  by rewrite Ha, Hb.
Qed.

Lemma be_bytes_prefix_inj n :
  prefix_inj (fun z => 0 <= z < 256 ^ Z.of_nat n) (be_bytes n).
Proof.
  intros a b r s Ha Hb H. apply app_inj_1 in H as [H ->]; [|by rewrite !length_be_bytes].
  split; [|done]. by eapply be_bytes_inj.
Qed.

Lemma component_prefix_inj c1 c2 e1 e2 r s :
  encode_component c1 = Ok e1 -> encode_component c2 = Ok e2 ->
  e1 ++ r = e2 ++ s -> c1 = c2 /\ r = s.
Proof.
  unfold encode_component, bytes_len, u32_max.
  destruct (Z.leb_spec (Z.of_nat (length c1)) (2 ^ 32 - 1)); [|done].
  destruct (Z.leb_spec (Z.of_nat (length c2)) (2 ^ 32 - 1)); [|done].
  intros <-%Ok_inj <-%Ok_inj Heq. rewrite <-!app_assoc in Heq.
  apply (be_bytes_prefix_inj 4) in Heq as [Hl Heq]; [|change (256 ^ Z.of_nat 4) with (2 ^ 32); lia..].
  apply app_inj_1 in Heq; [done|lia].
Qed.

Lemma component_inj c1 c2 e1 e2 :
  encode_component c1 = Ok e1 -> encode_component c2 = Ok e2 -> e1 = e2 -> c1 = c2.
Proof.
  intros H1 H2 ->. by apply (component_prefix_inj _ _ _ _ [] [] H1 H2 eq_refl).
Qed.

Lemma namespace_prefix_inj ns1 ns2 e1 e2 r s :
  valid_namespace ns1 -> valid_namespace ns2 ->
  encode_namespace ns1 = Ok e1 -> encode_namespace ns2 = Ok e2 ->
  e1 ++ r = e2 ++ s -> ns1 = ns2 /\ r = s.
Proof.
  intros Hv1 Hv2 H1 H2.
  destruct ns1 as [|[s1]|[d1] [s1]], ns2 as [|[s2]|[d2] [s2]];
    cbn [encode_namespace strategy_id_str digest_bytes] in H1, H2; inv_ok; subst;
    intros Heq; try discriminate Heq.
  - by injection Heq as ->.
  - injection Heq as Heq.
    destruct (component_prefix_inj _ _ _ _ _ _ H0 H Heq) as [->%str_bytes_inj ->]. done.
  - injection Heq as Heq. rewrite <-!app_assoc in Heq.
    destruct Hv1 as [Hd1 _], Hv2 as [Hd2 _].
    apply (fixed_length_prefix_inj 32 d1 d2) in Heq as [-> Heq]; [|done..].
    destruct (component_prefix_inj _ _ _ _ _ _ H0 H Heq) as [->%str_bytes_inj ->]. done.
Qed.

Definition valid_fingerprint (f : option CacheFingerprint) : Prop :=
  forall fp, f = Some fp -> length (fingerprint_bytes fp) = 32%nat.

Lemma fingerprint_prefix_inj : prefix_inj valid_fingerprint encode_fingerprint.
Proof.
  intros [[a]|] [[b]|] r s Ha Hb; cbn [encode_fingerprint fingerprint_bytes app];
    intros Heq; try discriminate Heq; injection Heq as Heq; [|by rewrite Heq].
  apply (fixed_length_prefix_inj 32 a b) in Heq as [-> ->]; [done|..].
  - by apply (Ha {| fingerprint_bytes := a |}).
  - by apply (Hb {| fingerprint_bytes := b |}).
Qed.

Lemma mode_byte_inj m1 m2 : mode_byte m1 = mode_byte m2 -> m1 = m2.
Proof. by destruct m1, m2. Qed.

Record valid_dimensions (d : CacheKeyDimensions) : Prop := {
  valid_policy : valid_fingerprint (policy d);
  valid_request : valid_fingerprint (request d);
  valid_target : valid_fingerprint (target d);
  valid_ecs : valid_fingerprint (ecs d)
}.

Lemma dimensions_prefix_inj :
  prefix_inj valid_dimensions (fun d => [mode_byte (mode d)] ++
    encode_fingerprint (policy d) ++ encode_fingerprint (request d) ++
    encode_fingerprint (target d) ++ encode_fingerprint (ecs d)).
Proof.
  intros [m1 p1 q1 t1 c1] [m2 p2 q2 t2 c2] r s [] [] Heq. simpl in *.
  rewrite <-!app_assoc in Heq. injection Heq as ->%mode_byte_inj Heq.
  apply fingerprint_prefix_inj in Heq as [-> Heq]; [|done..].
  apply fingerprint_prefix_inj in Heq as [-> Heq]; [|done..].
  apply fingerprint_prefix_inj in Heq as [-> Heq]; [|done..].
  by apply fingerprint_prefix_inj in Heq as [-> ->].
Qed.

Section KeySpec.
Context {HH : Hickory}.

Lemma build_cache_key_inj ns1 q1 t1 d1 k1 ns2 q2 t2 d2 k2 :
  valid_namespace ns1 -> valid_namespace ns2 -> u64 t1 -> u64 t2 ->
  valid_dimensions d1 -> valid_dimensions d2 ->
  build_cache_key ns1 q1 t1 d1 = Ok k1 -> build_cache_key ns2 q2 t2 d2 = Ok k2 ->
  key_encoded k1 = key_encoded k2 ->
  ns1 = ns2 /\ t1 = t2 /\ d1 = d2 /\
  to_vec (query_message q1) = to_vec (query_message q2) /\ k1 = k2.
Proof.
  intros Hn1 Hn2 Ht1 Ht2 Hd1 Hd2 H1 H2 Heq. unfold build_cache_key in H1, H2. inv_ok.
  subst k1 k2. cbn [key_encoded] in Heq.
  apply app_inv_head, app_inv_head in Heq.
  apply (namespace_prefix_inj ns1 ns2) in Heq as [-> Heq]; [|done..].
  apply (be_bytes_prefix_inj 8) in Heq as [-> Heq];
    [|unfold u64, u64_max in *; change (256 ^ Z.of_nat 8) with (2 ^ 64); lia..].
  pose proof (dimensions_prefix_inj d1 d2) as Hd. cbn beta in Hd.
  edestruct Hd as [-> Hw]; [done|done|rewrite <-!app_assoc; exact Heq|].
  match goal with
  | C1 : encode_component ?w1 = Ok ?e1, C2 : encode_component ?w2 = Ok ?e2,
    Hw : ?e1 = ?e2 |- _ => pose proof (component_inj w1 w2 e1 e2 C1 C2 Hw)
  end.
  repeat split; congruence.
Qed.

(** C40: The encoded bytes of a cache key determine everything that went into it:
    two keys with the same encoding have the same namespace, transport class,
    mode, fingerprints and query wire bytes. In particular a Fast key never
    equals a Resolved key and no two namespaces or clients share an entry. *)
Theorem build_cache_key_injective ns1 q1 t1 d1 k1 ns2 q2 t2 d2 k2 :
  valid_namespace ns1 -> valid_namespace ns2 -> u64 t1 -> u64 t2 ->
  valid_dimensions d1 -> valid_dimensions d2 ->
  build_cache_key ns1 q1 t1 d1 = Ok k1 -> build_cache_key ns2 q2 t2 d2 = Ok k2 ->
  key_encoded k1 = key_encoded k2 ->
  ns1 = ns2 /\ t1 = t2 /\ d1 = d2 /\
  to_vec (query_message q1) = to_vec (query_message q2) /\ k1 = k2.
Proof. apply build_cache_key_inj. Qed.

End KeySpec.

Section KeyWitness.
Import Sample.

Definition sample_dims : CacheKeyDimensions :=
  mk_dimensions Fast (Some (mk_fingerprint (replicate 32 xab))) None None None.

Lemma sample_dims_valid : valid_dimensions sample_dims.
Proof. split; by intros ? [= <-]. Qed.

Lemma build_cache_key_injective_witness :
  exists k, build_cache_key (NsStrategy (mk_strategy_id "home")) query 1 sample_dims = Ok k /\
  NsStrategy (mk_strategy_id "home") = NsStrategy (mk_strategy_id "home") /\ sample_dims = sample_dims.
Proof.
  destruct (build_cache_key (NsStrategy (mk_strategy_id "home")) query 1 sample_dims)
    as [k|] eqn:Hk; [|by vm_compute in Hk].
  exists k. split; [done|].
  destruct (build_cache_key_injective (HH := hickory)
    (NsStrategy (mk_strategy_id "home")) query 1 sample_dims k
    (NsStrategy (mk_strategy_id "home")) query 1 sample_dims k)
    as (? & _ & ? & _); try done; apply sample_dims_valid.
Defined.

(** Fast and Resolved keys of the same query differ. *)
Example fast_resolved_differ :
  (key_encoded <$> build_cache_key NsGlobal query 1 sample_dims) <>
  (key_encoded <$> build_cache_key NsGlobal query 1
     (mk_dimensions Resolved (policy sample_dims) None None None)).
Proof. by vm_compute. Qed.

End KeyWitness.
