(* ===== verification/CacheAdmission.v ===== *)
(** * Cache admission (src/backend/src/cache/admission.rs)

    Which responses become cache entries, with which lifetime, quality and stale
    window, and the FNV-1a checksum stored with them. *)

From S2P Require Import Prelude Message CacheModel.

Record CacheAdmissionPolicy := mk_policy {
  failure_ttl : Duration;
  optimistic_max_age : option Duration;
  negative_ttl_max : option Duration;
  negative_optimistic_max_age : option Duration
}.

Definition CacheAdmissionPolicy_new (failure_ttl : Duration)
    (optimistic_max_age : option Duration) : CacheAdmissionPolicy :=
  mk_policy failure_ttl optimistic_max_age None None.

Definition with_negative (p : CacheAdmissionPolicy) (ttl_max stale_max : option Duration) :
    CacheAdmissionPolicy :=
  mk_policy (failure_ttl p) (optimistic_max_age p) ttl_max stale_max.

Inductive CacheAdmissionRejection := RejRefused | RejOtherResponse | RejMissingTtl | RejZeroTtl.
Inductive CacheAdmissionError := ResponseEncoding.

(** [Option::filter(|d| !d.is_zero())]. *)
Definition non_zero (d : option Duration) : option Duration :=
  match d with Some x => if is_zero x then None else Some x | None => None end.

Section Admission.
Context {HH : Hickory}.

Inductive CacheAdmissionOutcome :=
| Accepted (e : CacheEntry)
| Rejected (r : CacheAdmissionRejection).

Definition fnv_step (hash : Z) (b : byte) : Z :=
  wrap64 (Z.lxor hash (byte_to_Z b) * 0x100000001b3).

Definition fnv1a (wire : list byte) : Z := foldl fnv_step 0xcbf29ce484222325 wire.

Definition canonical_checksum (r : CanonicalResponse) : result CacheAdmissionError Z :=
  fnv1a <$> ok_or ResponseEncoding (to_vec (resp_message r)).

(** Also called [negative_ttl] in the source. *)
Definition negative_lifetime (r : CanonicalResponse) (fail_ttl : Duration)
    (ttl_max : option Duration) : result CacheAdmissionRejection Duration :=
  let from_rr := match negative_ttl (resp_ttl r) with
    | Some s => Some s
    | None => min_ttl (resp_ttl r)
    end in
  let chosen := match from_secs <$> from_rr with
    | Some d => Some d
    | None => if is_zero fail_ttl then None else Some fail_ttl
    end in
  ttl ← ok_or RejMissingTtl chosen;
  Ok (match non_zero ttl_max with Some m => Z.min ttl m | None => ttl end).

Definition positive_lifetime (r : CanonicalResponse) : result CacheAdmissionRejection Duration :=
  ok_or RejMissingTtl (from_secs <$> min_ttl (resp_ttl r)).

(** The first match of [admit_response]: class, quality and lifetime of an
    admissible response. *)
Definition admission_row (p : CacheAdmissionPolicy) (r : CanonicalResponse) :
    result CacheAdmissionRejection
      (CacheResponseClass * CacheQuality * result CacheAdmissionRejection Duration) :=
  match resp_class r with
  | RPositive => Ok (C_NoError, Q_Complete, positive_lifetime r)
  | RNoData => Ok (C_NoData, Q_Negative,
      negative_lifetime r (failure_ttl p) (negative_ttl_max p))
  | RNxDomain => Ok (C_NxDomain, Q_Negative,
      negative_lifetime r (failure_ttl p) (negative_ttl_max p))
  | RServFail => Ok (C_ServFail, Q_Failure, Ok (failure_ttl p))
  | RTruncated => Ok (C_Truncated, Q_Failure, Ok (failure_ttl p))
  | RRefused => Err RejRefused
  | ROther _ => Err RejOtherResponse
  end.

Definition stale_window (p : CacheAdmissionPolicy) (q : CacheQuality) : option Duration :=
  match q with
  | Q_Complete => optimistic_max_age p
  | Q_Negative => negative_optimistic_max_age p
  | Q_Failure => None
  end.

Definition admit_response (p : CacheAdmissionPolicy) (r : CanonicalResponse)
    (up : CacheUpstreamProvenance) (now : Instant) (revision : Z) :
    result CacheAdmissionError CacheAdmissionOutcome :=
  match admission_row p r with
  | Err rejection => Ok (Rejected rejection)
  | Ok (class, q, Err rejection) => Ok (Rejected rejection)
  | Ok (class, q, Ok ttl) =>
    if is_zero ttl then Ok (Rejected RejZeroTtl)
    else
      let expires := default now (instant_checked_add now ttl) in
      let stale := non_zero (stale_window p q) ≫= instant_checked_add expires in
      sum ← canonical_checksum r;
      Ok (Accepted {| response := r; upstream := up; inserted_at := now;
        expires_at := expires; stale_until := stale; response_class := class;
        producer_revision := revision; quality := q; checksum := sum;
        format_version := CACHE_ENTRY_FORMAT_VERSION |})
  end.

(** ** Specification *)

(** The lifetime an admissible response gets, as the documentation words it:
    positive answers live their smallest RR TTL; negative ones the SOA negative
    TTL, else the smallest RR TTL, else the failure TTL, capped; SERVFAIL and TC
    live the failure TTL. *)
Definition lifetime (p : CacheAdmissionPolicy) (r : CanonicalResponse) : option Duration :=
  match resp_class r with
  | RPositive => from_secs <$> min_ttl (resp_ttl r)
  | RNoData | RNxDomain =>
      let base := match negative_ttl (resp_ttl r), min_ttl (resp_ttl r) with
        | Some s, _ => Some (from_secs s)
        | None, Some s => Some (from_secs s)
        | None, None => non_zero (Some (failure_ttl p))
        end in
      (fun d => match non_zero (negative_ttl_max p) with
                | Some m => Z.min d m | None => d end) <$> base
  | RServFail | RTruncated => Some (failure_ttl p)
  | RRefused | ROther _ => None
  end.

Definition quality_of_class (c : ResponseClass) : CacheQuality :=
  match c with
  | RPositive => Q_Complete
  | RNoData | RNxDomain => Q_Negative
  | _ => Q_Failure
  end.

(** The invariant every admitted entry satisfies. *)
Record entry_wf (e : CacheEntry) : Prop := {
  ewf_checksum : canonical_checksum (response e) = Ok (checksum e);
  ewf_quality : quality e = quality_of_class (resp_class (response e));
  ewf_class : match resp_class (response e) with RRefused | ROther _ => False | _ => True end;
  ewf_format : format_version e = CACHE_ENTRY_FORMAT_VERSION;
  ewf_stale : forall s, stale_until e = Some s ->
    expires_at e < s /\ quality e <> Q_Failure
}.

Definition policy_wf (p : CacheAdmissionPolicy) : Prop :=
  0 <= failure_ttl p /\
  (forall d, optimistic_max_age p = Some d -> 0 <= d) /\
  (forall d, negative_ttl_max p = Some d -> 0 <= d) /\
  (forall d, negative_optimistic_max_age p = Some d -> 0 <= d).

Lemma admission_row_lifetime p r :
  match admission_row p r with
  | Ok (_, q, ttl) =>
      q = quality_of_class (resp_class r) /\
      match ttl with Ok d => lifetime p r = Some d | Err _ => lifetime p r = None end
  | Err _ => lifetime p r = None
  end.
Proof.
  unfold admission_row, lifetime, positive_lifetime, negative_lifetime.
  destruct (resp_class r); try done; (split; [done|]).
  1: by destruct (min_ttl (resp_ttl r)).
  all: destruct (negative_ttl (resp_ttl r)), (min_ttl (resp_ttl r)); simpl; try done.
  all: by destruct (is_zero (failure_ttl p)).
Qed.

Lemma non_zero_pos d x : non_zero d = Some x -> (forall y, d = Some y -> 0 <= y) -> 0 < x.
Proof.
  unfold non_zero, is_zero. destruct d as [y|]; [|done].
  destruct (Z.eqb_spec y 0); [done|]. intros [= <-] Hy. specialize (Hy y eq_refl). lia.
Qed.

Lemma checked_add_some t d s : instant_checked_add t d = Some s -> s = t + d.
Proof. unfold instant_checked_add. destruct (_ <=? _); congruence. Qed.

Lemma admit_accepted p r up now rev e :
  admit_response p r up now rev = Ok (Accepted e) ->
  exists ttl, lifetime p r = Some ttl /\ is_zero ttl = false /\
    expires_at e = default now (instant_checked_add now ttl) /\
    stale_until e = (non_zero (stale_window p (quality e)) ≫= instant_checked_add (expires_at e)) /\
    quality e = quality_of_class (resp_class r) /\
    canonical_checksum r = Ok (checksum e) /\
    response e = r /\ upstream e = up /\ inserted_at e = now /\
    producer_revision e = rev /\ format_version e = CACHE_ENTRY_FORMAT_VERSION.
Proof.
  unfold admit_response. pose proof (admission_row_lifetime p r) as Hrow.
  destruct (admission_row p r) as [[[class q] [ttl|]]|]; [|done..].
  destruct Hrow as [-> Hl]. destruct (is_zero ttl) eqn:Hz; [done|].
  intros H. inv_ok. injection H as <-. by exists ttl.
Qed.

Lemma admitted_wf p r up now rev e :
  policy_wf p -> admit_response p r up now rev = Ok (Accepted e) -> entry_wf e.
Proof.
  intros Hp He. apply admit_accepted in He
    as (ttl & Hl & Hz & Hexp & Hst & Hq & Hck & Hr & ? & Hi & ? & ?).
  split; [by subst r|by subst r| | done |].
  - subst r. unfold lifetime in Hl. by destruct (resp_class (response e)).
  - intros s Hs. rewrite Hst in Hs.
    destruct (non_zero _) as [w|] eqn:Hw in Hs; [|done]. simpl in Hs.
    apply checked_add_some in Hs as ->. destruct Hp as (_ & Hopt & _ & Hneg).
    unfold stale_window in Hw. destruct (quality e); [done|..];
      (apply non_zero_pos in Hw; [split; [lia|done]|assumption]).
Qed.

(** What admission guarantees of an accepted entry: the lifetime is the
    documented one and positive, expiry and the stale deadline follow the insert
    time in that order, failures are never served stale, and the stored checksum,
    class and quality are those of the response. *)
Theorem admit_response_entry p r up now rev e :
  policy_wf p -> admit_response p r up now rev = Ok (Accepted e) ->
  entry_wf e /\ response e = r /\ upstream e = up /\ inserted_at e = now /\
  exists ttl, lifetime p r = Some ttl /\ ttl <> 0 /\
    (now + ttl <= instant_max -> expires_at e = now + ttl) /\
    (instant_max < now + ttl -> expires_at e = now).
Proof.
  intros Hp He. pose proof He as Hwf.
  apply admit_accepted in He as (ttl & Hl & Hz & Hexp & Hst & Hq & Hck & Hr & ? & Hi & ? & ?).
  split; [|split; [done|split; [done|split; [done|]]]].
  - by eapply admitted_wf.
  - exists ttl. split; [done|]. unfold is_zero in Hz. split; [lia|].
    rewrite Hexp. unfold instant_checked_add. destruct (Z.leb_spec (now + ttl) instant_max).
    + split; [done|lia].
    + split; [lia|done].
Qed.

(** Admission is total up to the wire encoder and decides by the documented
    table: REFUSED and unclassified RCODEs, responses with no lifetime and
    responses with lifetime zero are rejected, everything else is accepted. *)
Theorem admit_response_total p r up now rev sum :
  canonical_checksum r = Ok sum ->
  match lifetime p r with
  | None => exists rej, admit_response p r up now rev = Ok (Rejected rej) /\
      (resp_class r = RRefused -> rej = RejRefused) /\
      (forall c, resp_class r = ROther c -> rej = RejOtherResponse)
  | Some ttl =>
      if is_zero ttl then admit_response p r up now rev = Ok (Rejected RejZeroTtl)
      else exists e, admit_response p r up now rev = Ok (Accepted e)
  end.
Proof.
  intros Hs. pose proof (admission_row_lifetime p r) as Hrow.
  unfold admit_response. rewrite Hs.
  destruct (admission_row p r) as [[[class q] [ttl|rej]]|rej] eqn:E.
  - destruct Hrow as [_ ->]. destruct (is_zero ttl); [done|]. simpl. by eexists.
  - destruct Hrow as [_ ->]. exists rej. split; [done|].
    unfold admission_row in E. split; [intros Hc|intros c Hc]; by rewrite Hc in E.
  - rewrite Hrow. exists rej. split; [done|].
    unfold admission_row in E. split; [intros Hc|intros c Hc]; rewrite Hc in E; congruence.
Qed.

Lemma fnv1a_u64 wire : u64 (fnv1a wire).
Proof.
  unfold fnv1a. destruct wire as [|x l _] using rev_ind; [unfold u64, u64_max; simpl; lia|].
  rewrite foldl_app. simpl. apply wrap64_range.
Qed.

End Admission.

Section AdmissionWitness.
Import Sample.

Definition sample_policy : CacheAdmissionPolicy :=
  with_negative (CacheAdmissionPolicy_new (from_secs 5) (Some (from_secs 3600)))
    (Some (from_secs 60)) (Some (from_secs 30)).
Definition sample_upstream : CacheUpstreamProvenance :=
  mk_provenance (mk_upstream_id "doh") (Some (mk_upstream_id "doh")).
Definition sample_now : Instant := 1000 * nanos_per_sec.

Definition sample_entry : CacheEntry :=
  match admit_response sample_policy (Sample.response (positive_msg 0 300)) sample_upstream
          sample_now 1 with
  | Ok (Accepted e) => e
  | _ => mk_entry (Sample.response (positive_msg 0 300)) sample_upstream 0 0 None C_ServFail
           0 Q_Failure 0 0
  end.

Lemma sample_policy_wf : policy_wf sample_policy.
Proof. repeat split; try (intros d [= <-]); by vm_compute. Qed.

Lemma admit_response_entry_witness :
  entry_wf sample_entry /\ expires_at sample_entry = sample_now + from_secs 300.
Proof.
  destruct (admit_response_entry (HH := hickory) sample_policy
    (Sample.response (positive_msg 0 300)) sample_upstream sample_now 1 sample_entry
    sample_policy_wf eq_refl) as (Hwf & _ & _ & _ & ttl & Hl & _ & Hexp & _).
  split; [done|]. injection Hl as <-. rewrite Hexp; [done|by vm_compute].
Defined.

(** The NXDOMAIN sample carries SOA minimum 600 and is capped to 60 seconds. *)
Lemma admit_response_total_witness :
  exists e, admit_response sample_policy (Sample.response (negative_msg 0)) sample_upstream
    sample_now 1 = Ok (Accepted e).
Proof.
  exact (admit_response_total (HH := hickory) sample_policy (Sample.response (negative_msg 0))
    sample_upstream sample_now 1 _ eq_refl).
Defined.

End AdmissionWitness.
