(* ===== verification/CacheStore.v ===== *)
(** * The in-memory cache store (src/backend/src/cache/memory.rs)

    Every operation runs under one mutex, so it is an atomic function on the
    store; the two readings of the clock an operation makes (before and under the
    lock) are arguments. Lock poisoning, which needs a panic inside a critical
    section, is left out. Wakers are task identifiers. *)

From S2P Require Import Prelude Message CacheModel CacheAdmission.

Section Store.
Context {HH : Hickory}.

Record MemoryLoad := mk_load {
  generation : Z;
  completion : option CacheLoadCompletion;
  followers : Z;
  waiters : list nat
}.

Record MemoryState := mk_state {
  records : gmap CacheKey CacheRecord;
  loads : gmap CacheKey MemoryLoad;
  stats : CacheStoreStats;
  shutting_down : bool
}.

Record MemoryCacheStore := mk_store {
  state : MemoryState;
  next_version : Z;
  next_generation : Z;
  max_weight : option Z
}.

Inductive MemoryCacheStoreBuildError := ZeroMaxWeight.

Definition with_limit (limit : option Z) : MemoryCacheStore :=
  {| state := {| records := ∅; loads := ∅; stats := mk_stats 0 0 0 0 0 0;
                 shutting_down := false |};
     next_version := 0; next_generation := 0; max_weight := limit |}.

Definition with_max_weight (limit : Z) :
    result MemoryCacheStoreBuildError MemoryCacheStore :=
  if limit =? 0 then Err ZeroMaxWeight else Ok (with_limit (Some limit)).

(** ** Updating one field *)

Definition set_records (st : MemoryState) (r : gmap CacheKey CacheRecord) : MemoryState :=
  mk_state r (loads st) (stats st) (shutting_down st).
Definition set_loads (st : MemoryState) (l : gmap CacheKey MemoryLoad) : MemoryState :=
  mk_state (records st) l (stats st) (shutting_down st).
Definition set_stats (st : MemoryState) (s : CacheStoreStats) : MemoryState :=
  mk_state (records st) (loads st) s (shutting_down st).
Definition set_state (s : MemoryCacheStore) (st : MemoryState) : MemoryCacheStore :=
  mk_store st (next_version s) (next_generation s) (max_weight s).

Definition bump_hits (s : CacheStoreStats) : CacheStoreStats :=
  mk_stats (entries s) (st_weighted_size s) (sat_add64 (hits s) 1) (misses s) (conflicts s) (evictions s).
Definition bump_misses (s : CacheStoreStats) : CacheStoreStats :=
  mk_stats (entries s) (st_weighted_size s) (hits s) (sat_add64 (misses s) 1) (conflicts s) (evictions s).
Definition bump_conflicts (s : CacheStoreStats) : CacheStoreStats :=
  mk_stats (entries s) (st_weighted_size s) (hits s) (misses s) (sat_add64 (conflicts s) 1) (evictions s).
Definition bump_evictions (s : CacheStoreStats) : CacheStoreStats :=
  mk_stats (entries s) (st_weighted_size s) (hits s) (misses s) (conflicts s) (sat_add64 (evictions s) 1).

(** ** Weights and capacity *)

Definition weighted_size (key : CacheKey) (r : CacheRecord) : Z :=
  let response_size := match to_vec (resp_message (response (entry r))) with
    | Some bytes => bytes_len bytes
    | None => 0
    end in
  sat_add64 (sat_add64 (bytes_len (key_encoded key)) 64) response_size.

Definition total_weight (rs : gmap CacheKey CacheRecord) : Z :=
  map_fold (fun k r acc => sat_add64 acc (weighted_size k r)) 0 rs.

Definition refresh_stats (st : MemoryState) : MemoryState :=
  let s := stats st in
  set_stats st (mk_stats (Z.of_nat (size (records st))) (total_weight (records st))
    (hits s) (misses s) (conflicts s) (evictions s)).

(** Lexicographic order on byte slices. *)
Fixpoint bytes_ltb (a b : list byte) : bool :=
  match a, b with
  | _, [] => false
  | [], _ :: _ => true
  | x :: a', y :: b' =>
      (byte_to_Z x <? byte_to_Z y) || ((byte_to_Z x =? byte_to_Z y) && bytes_ltb a' b')
  end.

(** The comparator of [enforce_capacity]: insertion time, then version, then
    encoded key. *)
Definition older (a b : CacheKey * CacheRecord) : bool :=
  let '(ka, ra) := a in let '(kb, rb) := b in
  (inserted_at (entry ra) <? inserted_at (entry rb)) ||
  ((inserted_at (entry ra) =? inserted_at (entry rb)) &&
   ((version ra <? version rb) ||
    ((version ra =? version rb) && bytes_ltb (key_encoded ka) (key_encoded kb)))).

(** [Iterator::min_by]: the first of the smallest elements. *)
Definition min_by {A} (lt : A -> A -> bool) (l : list A) : option A :=
  foldl (fun best x => match best with
    | None => Some x
    | Some b => if lt x b then Some x else Some b
    end) None l.

Definition victim (rs : gmap CacheKey CacheRecord) : option CacheKey :=
  fst <$> min_by older (map_to_list rs).

(** The eviction loop; each round removes one record, so [size records] rounds
    are enough. *)
Fixpoint evict_loop (fuel : nat) (limit : Z) (st : MemoryState) : MemoryState :=
  match fuel with
  | O => st
  | S fuel' =>
    if total_weight (records st) <=? limit then st
    else match victim (records st) with
    | None => st
    | Some k => evict_loop fuel' limit
        (set_stats (set_records st (delete k (records st))) (bump_evictions (stats st)))
    end
  end.

Definition enforce_capacity (st : MemoryState) (limit : option Z) : MemoryState :=
  match limit with
  | None => refresh_stats st
  | Some l => refresh_stats (evict_loop (size (records st)) l st)
  end.

(** ** Visibility *)

Definition is_visible (r : CacheRecord) (now : Instant) : bool :=
  now <? retention_deadline (entry r).

Definition is_answerable (r : CacheRecord) (now : Instant) : bool :=
  (now <? expires_at (entry r)) ||
  match stale_until (entry r) with Some s => now <? s | None => false end.

Definition is_fresh (r : CacheRecord) (now : Instant) : bool := now <? expires_at (entry r).

(** ** Lookup and compare-and-swap *)

Definition get (s : MemoryCacheStore) (key : CacheKey) (deadline : Deadline)
    (t0 now : Instant) : result PortError (option CacheRecord) * MemoryCacheStore :=
  if is_expired deadline t0 then (Err (port_error PE_Timeout "memory_cache.get"), s)
  else
    let st := state s in
    if shutting_down st then (Err (port_error PE_Unavailable "memory_cache.get"), s)
    else match records st !! key with
    | Some r =>
      if is_visible r now then
        let st' := set_stats st (if is_answerable r now then bump_hits (stats st)
                                 else bump_misses (stats st)) in
        (Ok (Some r), set_state s st')
      else
        let st' := set_stats (set_records st (delete key (records st)))
                     (bump_misses (stats st)) in
        (Ok None, set_state s (refresh_stats st'))
    | None => (Ok None, set_state s (set_stats st (bump_misses (stats st))))
    end.

(** The removal of a record past its retention, the first step under the lock. *)
Definition purge (st : MemoryState) (key : CacheKey) (now : Instant) : MemoryState :=
  match records st !! key with
  | Some r => if is_visible r now then st
              else refresh_stats (set_records st (delete key (records st)))
  | None => st
  end.

Definition condition_matches (c : CacheCondition) (current : option Z) : bool :=
  match c with
  | Absent => bool_decide (current = None)
  | IfVersion expected => bool_decide (current = Some expected)
  end.

Definition compare_and_swap (s : MemoryCacheStore) (key : CacheKey) (c : CacheCondition)
    (e : CacheEntry) (deadline : Deadline) (t0 now : Instant) :
    result PortError CacheWriteOutcome * MemoryCacheStore :=
  if is_expired deadline t0 then
    (Err (port_error PE_Timeout "memory_cache.compare_and_swap"), s)
  else if shutting_down (state s) then
    (Err (port_error PE_Unavailable "memory_cache.compare_and_swap"), s)
  else
    let st := purge (state s) key now in
    let current := version <$> records st !! key in
    if negb (condition_matches c current) then
      (Ok (Conflict current), set_state s (set_stats st (bump_conflicts (stats st))))
    else if match records st !! key with
         | Some r => (quality_rank (quality e) <? quality_rank (quality (entry r)))
                     && is_fresh r now
         | None => false
         end then (Ok RejectedQuality, set_state s st)
    else if match max_weight s with
         | Some limit => limit <? weighted_size key (mk_record 0 e)
         | None => false
         end then
      (Err (port_error PE_ResourceExhausted "memory_cache.compare_and_swap"), set_state s st)
    else
      let v := wrap64 (next_version s + 1) in
      let outcome := match current with Some _ => Replaced v | None => Inserted v end in
      let st' := enforce_capacity
        (set_records st (<[key := mk_record v e]> (records st))) (max_weight s) in
      (Ok outcome, mk_store st' v (next_generation s) (max_weight s)).

(** ** Single-flight loads *)

Inductive CacheLoadReservation :=
| Leader (gen : Z)
| Follower (gen : Z).

Definition reserve_load (s : MemoryCacheStore) (key : CacheKey) (deadline : Deadline)
    (t0 : Instant) : result PortError CacheLoadReservation * MemoryCacheStore :=
  if is_expired deadline t0 then
    (Err (port_error PE_Timeout "memory_cache.reserve_load"), s)
  else
    let st := state s in
    if shutting_down st then
      (Err (port_error PE_Unavailable "memory_cache.reserve_load"), s)
    else match loads st !! key with
    | Some l =>
      let l' := mk_load (generation l) (completion l) (sat_add64 (followers l) 1) (waiters l) in
      (Ok (Follower (generation l)), set_state s (set_loads st (<[key := l']> (loads st))))
    | None =>
      let g := wrap64 (next_generation s + 1) in
      let st' := set_loads st (<[key := mk_load g None 0 []]> (loads st)) in
      (Ok (Leader g), mk_store st' (next_version s) g (max_weight s))
    end.

Definition complete_load (st : MemoryState) (key : CacheKey) (gen : Z)
    (c : CacheLoadCompletion) : result PortError (list nat) * MemoryState :=
  let violation := Err (port_error PE_ProtocolViolation "memory_cache.complete_load") in
  match loads st !! key with
  | None => (violation, st)
  | Some l =>
    if negb (generation l =? gen) || bool_decide (is_Some (completion l))
    then (violation, st)
    else
      let l' := mk_load (generation l) (Some c) (followers l) [] in
      let loads' := if followers l =? 0 then delete key (loads st)
                    else <[key := l']> (loads st) in
      (Ok (waiters l), set_loads st loads')
  end.

(** [Drop for CacheLoadLease] on an armed lease. *)
Definition abandon (st : MemoryState) (key : CacheKey) (gen : Z) : list nat * MemoryState :=
  match complete_load st key gen (LC_Failed LF_Abandoned) with
  | (Ok woken, st') => (woken, st')
  | (Err _, st') => ([], st')
  end.

(** [publish_load] consumes the lease: on success it is disarmed, on failure it
    is dropped armed. The woken tasks are returned. *)
Definition publish_load (s : MemoryCacheStore) (key : CacheKey) (gen : Z)
    (c : CacheLoadCompletion) : result PortError unit * list nat * MemoryCacheStore :=
  match complete_load (state s) key gen c with
  | (Ok woken, st') => (Ok tt, woken, set_state s st')
  | (Err e, st') =>
      let '(woken, st'') := abandon st' key gen in (Err e, woken, set_state s st'')
  end.

Definition abandon_load (s : MemoryCacheStore) (key : CacheKey) (gen : Z)
    (f : CacheLoadFailure) : result PortError unit * list nat * MemoryCacheStore :=
  publish_load s key gen (LC_Failed f).

Definition release_waiter (st : MemoryState) (key : CacheKey) (gen : Z) : MemoryState :=
  match loads st !! key with
  | None => st
  | Some l =>
    if negb (generation l =? gen) || (followers l =? 0) then st
    else
      let l' := mk_load (generation l) (completion l) (followers l - 1) (waiters l) in
      if bool_decide (is_Some (completion l)) && (followers l' =? 0)
      then set_loads st (delete key (loads st))
      else set_loads st (<[key := l']> (loads st))
  end.

Inductive Poll (A : Type) := Ready (a : A) | Pending.
Arguments Ready {A} _.
Arguments Pending {A}.

Definition poll_load (s : MemoryCacheStore) (key : CacheKey) (gen : Z) (deadline : Deadline)
    (now : Instant) (waker : nat) :
    Poll (result PortError CacheLoadCompletion) * MemoryCacheStore :=
  let violation := Err (port_error PE_ProtocolViolation "memory_cache.wait_load") in
  let st := state s in
  match loads st !! key with
  | None => (Ready violation, s)
  | Some l =>
    if negb (generation l =? gen) then (Ready violation, s)
    else match completion l with
    | Some c => (Ready (Ok c), s)
    | None =>
      if is_expired deadline now then
        (Ready (Err (port_error PE_Timeout "memory_cache.wait_load")), s)
      else
        let ws := if bool_decide (waker ∈ waiters l) then waiters l
                  else waiters l ++ [waker] in
        let l' := mk_load (generation l) (completion l) (followers l) ws in
        (Pending, set_state s (set_loads st (<[key := l']> (loads st))))
    end
  end.

(** ** Invalidation and shutdown *)

Definition invalidate (s : MemoryCacheStore) (scope : CacheInvalidation)
    (deadline : Deadline) (t0 : Instant) : result PortError Z * MemoryCacheStore :=
  if is_expired deadline t0 then
    (Err (port_error PE_Timeout "memory_cache.invalidate"), s)
  else if shutting_down (state s) then
    (Err (port_error PE_Unavailable "memory_cache.invalidate"), s)
  else
    let st := state s in
    let kept := filter (fun kr => CacheInvalidation_matches scope kr.1 (entry kr.2) = false)
                  (records st) in
    let removed := sat_sub (Z.of_nat (size (records st))) (Z.of_nat (size kept)) in
    (Ok removed, set_state s (refresh_stats (set_records st kept))).

Definition shutdown_load (l : MemoryLoad) : MemoryLoad :=
  mk_load (generation l)
    (match completion l with
     | Some c => Some c
     | None => Some (LC_Failed (LF_Cancelled CR_Shutdown))
     end) (followers l) [].

Definition shutdown (s : MemoryCacheStore) : result PortError unit * list nat * MemoryCacheStore :=
  let st := state s in
  let st1 := refresh_stats (mk_state ∅ (loads st) (stats st) true) in
  let woken := map_fold (fun _ l acc => acc ++ waiters l) [] (loads st) in
  let loads' := filter (fun kl => 0 < followers kl.2) (shutdown_load <$> loads st) in
  (Ok tt, woken, set_state s (set_loads st1 loads')).

End Store.

Arguments Ready {A} _.
Arguments Pending {A}.

(** ** Weights *)

Section StoreLemmas.
Context {HH : Hickory}.
Implicit Types (rs : gmap CacheKey CacheRecord) (st : MemoryState) (s : MemoryCacheStore).

Lemma bytes_len_nonneg l : 0 <= bytes_len l.
Proof. unfold bytes_len. lia. Qed.

Lemma weighted_size_range k r : u64 (weighted_size k r).
Proof.
  unfold weighted_size. pose proof (bytes_len_nonneg (key_encoded k)).
  destruct (to_vec _) as [b|]; [pose proof (bytes_len_nonneg b)|]; unfold_ints; lia.
Qed.

Lemma weight_step_comm k1 r1 k2 r2 y :
  sat_add64 (sat_add64 y (weighted_size k1 r1)) (weighted_size k2 r2) =
  sat_add64 (sat_add64 y (weighted_size k2 r2)) (weighted_size k1 r1).
Proof.
  pose proof (weighted_size_range k1 r1). pose proof (weighted_size_range k2 r2).
  unfold_ints. lia.
Qed.

Lemma total_weight_insert k r rs :
  rs !! k = None -> total_weight (<[k := r]> rs) = sat_add64 (total_weight rs) (weighted_size k r).
Proof.
  intros Hk. unfold total_weight.
  rewrite (map_fold_insert_L (fun k r acc => sat_add64 acc (weighted_size k r))); [done| |done].
  intros. apply weight_step_comm.
Qed.

Lemma total_weight_range rs : u64 (total_weight rs).
Proof.
  induction rs as [|k r rs Hk IH] using map_ind.
  - unfold total_weight. rewrite map_fold_empty. unfold_ints. lia.
  - rewrite total_weight_insert by done. apply sat_add64_range; [done|apply weighted_size_range].
Qed.

Lemma total_weight_delete k rs : total_weight (delete k rs) <= total_weight rs.
Proof.
  destruct (rs !! k) as [r|] eqn:Hk; [|by rewrite delete_id].
  rewrite <-(insert_delete_id rs k r Hk) at 2.
  rewrite total_weight_insert by apply lookup_delete_eq.
  pose proof (weighted_size_range k r). pose proof (total_weight_range (delete k rs)).
  unfold_ints. lia.
Qed.

Lemma total_weight_empty : total_weight ∅ = 0.
Proof. unfold total_weight. apply map_fold_empty. Qed.

Lemma total_weight_mono rs1 rs2 : rs1 ⊆ rs2 -> total_weight rs1 <= total_weight rs2.
Proof.
  revert rs1. induction rs2 as [|k r rs Hk IH] using map_ind; intros rs1 Hsub.
  - assert (rs1 = ∅) as ->; [|lia]. apply map_empty. intros k.
    destruct (rs1 !! k) as [r|] eqn:E; [|done].
    by pose proof (lookup_weaken _ _ _ _ E Hsub).
  - rewrite total_weight_insert by done. pose proof (weighted_size_range k r).
    pose proof (total_weight_range rs).
    destruct (rs1 !! k) as [r1|] eqn:H1.
    + pose proof (lookup_weaken _ _ _ _ H1 Hsub) as H2. rewrite lookup_insert_eq in H2.
      injection H2 as <-. rewrite <-(insert_delete_id rs1 k r H1).
      rewrite total_weight_insert by apply lookup_delete_eq.
      assert (total_weight (delete k rs1) <= total_weight rs); [|unfold_ints; lia].
      apply IH. apply map_subseteq_spec. intros i x Hx.
      apply lookup_delete_Some in Hx as [Hne Hx].
      pose proof (lookup_weaken _ _ _ _ Hx Hsub) as Hy.
      by rewrite lookup_insert_ne in Hy.
    + assert (total_weight rs1 <= total_weight rs); [|unfold_ints; lia].
      apply IH. apply map_subseteq_spec. intros i x Hx.
      pose proof (lookup_weaken _ _ _ _ Hx Hsub) as Hy.
      by rewrite lookup_insert_ne in Hy by congruence.
Qed.

(** ** The eviction order *)

Lemma bytes_ltb_negtrans a b c :
  bytes_ltb a b = false -> bytes_ltb b c = false -> bytes_ltb a c = false.
Proof.
  revert a b. induction c as [|z c IH]; intros [|x a] [|y b]; simpl; try done.
  intros Hab Hbc. apply orb_false_iff in Hab as [H1 H2], Hbc as [H3 H4].
  apply orb_false_iff. split; [lia|].
  destruct (Z.eqb_spec (byte_to_Z x) (byte_to_Z z)); [|done]. simpl.
  apply (IH a b).
  - destruct (Z.eqb_spec (byte_to_Z x) (byte_to_Z y)); [done|lia].
  - destruct (Z.eqb_spec (byte_to_Z y) (byte_to_Z z)); [done|lia].
Qed.

Lemma older_negtrans x y z :
  older x y = false -> older y z = false -> older x z = false.
Proof.
  destruct x as [kx rx], y as [ky ry], z as [kz rz]. unfold older.
  pose proof (bytes_ltb_negtrans (key_encoded kx) (key_encoded ky) (key_encoded kz)) as Hb.
  destruct (bytes_ltb (key_encoded kx) (key_encoded ky)),
    (bytes_ltb (key_encoded ky) (key_encoded kz)),
    (bytes_ltb (key_encoded kx) (key_encoded kz)); lia.
Qed.

Lemma bytes_ltb_asym a b : bytes_ltb a b = true -> bytes_ltb b a = false.
Proof.
  revert b. induction a as [|x a IH]; intros [|y b]; simpl; try done.
  specialize (IH b). destruct (bytes_ltb a b), (bytes_ltb b a); lia.
Qed.

Lemma older_asym x y : older x y = true -> older y x = false.
Proof.
  destruct x as [kx rx], y as [ky ry]. unfold older.
  pose proof (bytes_ltb_asym (key_encoded kx) (key_encoded ky)).
  destruct (bytes_ltb (key_encoded kx) (key_encoded ky)),
    (bytes_ltb (key_encoded ky) (key_encoded kx)); lia.
Qed.

Section MinBy.
Context {A : Type} (lt : A -> A -> bool)
  (lt_asym : forall x y, lt x y = true -> lt y x = false)
  (lt_negtrans : forall x y z, lt x y = false -> lt y z = false -> lt x z = false).

Definition min_step (best : option A) (x : A) : option A :=
  match best with
  | None => Some x
  | Some b => if lt x b then Some x else Some b
  end.

Lemma min_fold_some b l :
  exists m, foldl min_step (Some b) l = Some m /\ (m = b \/ m ∈ l) /\
    lt b m = false /\ forall y, y ∈ l -> lt y m = false.
Proof.
  assert (irrefl : forall x, lt x x = false).
  { intros x. destruct (lt x x) eqn:E; [|done]. by rewrite (lt_asym x x E) in E. }
  revert b. induction l as [|x l IH]; intros b; simpl.
  { exists b. split; [done|]. split; [by left|]. split; [done|]. set_solver. }
  destruct (lt x b) eqn:Hx.
  - destruct (IH x) as (m & Hm & Hin & Hxm & Hall). exists m.
    split; [done|]. split; [set_solver|]. split.
    + apply (lt_negtrans b x m); [by apply lt_asym|done].
    + intros y [->|Hy]%elem_of_cons; auto.
  - destruct (IH b) as (m & Hm & Hin & Hbm & Hall). exists m.
    split; [done|]. split; [set_solver|]. split; [done|].
    intros y [->|Hy]%elem_of_cons; [by apply (lt_negtrans x b m)|auto].
Qed.

Lemma min_by_spec l :
  match min_by lt l with
  | None => l = []
  | Some m => m ∈ l /\ forall y, y ∈ l -> lt y m = false
  end.
Proof.
  destruct l as [|x l]; [done|]. unfold min_by. simpl.
  destruct (min_fold_some x l) as (m & Hm & Hin & Hxm & Hall).
  unfold min_step in Hm. rewrite Hm. split; [set_solver|].
  intros y [->|Hy]%elem_of_cons; auto.
Qed.

End MinBy.

(** The victim is a stored record and no stored record is older. *)
Lemma victim_spec rs :
  match victim rs with
  | None => rs = ∅
  | Some k => exists r, rs !! k = Some r /\
      forall k' r', rs !! k' = Some r' -> older (k', r') (k, r) = false
  end.
Proof.
  unfold victim. pose proof (min_by_spec older older_asym older_negtrans (map_to_list rs)) as H.
  destruct (min_by older (map_to_list rs)) as [[k r]|]; simpl.
  - destruct H as [Hin Hall]. exists r. apply elem_of_map_to_list in Hin. split; [done|].
    intros k' r' Hr'. apply (Hall (k', r')). by apply elem_of_map_to_list.
  - by apply map_to_list_empty_iff.
Qed.

Lemma evict_loop_spec fuel limit st :
  (size (records st) <= fuel)%nat -> 0 <= limit ->
  let st' := evict_loop fuel limit st in
  total_weight (records st') <= limit /\
  records st' ⊆ records st /\ loads st' = loads st /\
  shutting_down st' = shutting_down st /\
  forall k r k' r', records st !! k = Some r -> records st' !! k = None ->
    records st' !! k' = Some r' -> older (k', r') (k, r) = false.
Proof.
  revert st. induction fuel as [|fuel IH]; intros st Hsz Hlim st'.
  - assert (E : records st = ∅) by (apply map_size_empty_iff; lia).
    subst st'. simpl. by rewrite E, total_weight_empty.
  - subst st'. simpl. destruct (Z.leb_spec (total_weight (records st)) limit).
    { repeat split; try done. intros * H1 H2. congruence. }
    pose proof (victim_spec (records st)) as Hv.
    destruct (victim (records st)) as [k0|].
    2: { rewrite Hv, total_weight_empty in H. lia. }
    destruct Hv as (r0 & Hr0 & Hmin).
    set (st1 := set_stats _ _).
    destruct (IH st1) as (Hw & Hsub & Hl & Hs & Hold); [|done|].
    { simpl. rewrite map_size_delete_Some by eauto. lia. }
    split; [done|]. split; [etrans; [exact Hsub|apply delete_subseteq]|].
    split; [done|]. split; [done|].
    intros k r k' r' Hk Hgone Hk'.
    assert (Hk'' : delete k0 (records st) !! k' = Some r') by (eapply lookup_weaken; eauto).
    apply lookup_delete_Some in Hk'' as [Hne Hk''].
    destruct (decide (k = k0)) as [->|Hkne].
    + rewrite Hr0 in Hk. injection Hk as <-. by apply Hmin.
    + apply (Hold k r k' r'); try done. simpl. by rewrite lookup_delete_ne.
Qed.

Lemma refresh_stats_records st :
  records (refresh_stats st) = records st /\ loads (refresh_stats st) = loads st /\
  shutting_down (refresh_stats st) = shutting_down st.
Proof. done. Qed.

Lemma enforce_capacity_records st limit :
  (forall l, limit = Some l -> 0 <= l) ->
  let st' := enforce_capacity st limit in
  (forall l, limit = Some l -> total_weight (records st') <= l) /\
  (limit = None -> records st' = records st) /\
  records st' ⊆ records st /\ loads st' = loads st /\
  shutting_down st' = shutting_down st /\
  entries (stats st') = Z.of_nat (size (records st')) /\
  st_weighted_size (stats st') = total_weight (records st').
Proof.
  intros Hpos st'. subst st'. unfold enforce_capacity. destruct limit as [l|].
  - destruct (evict_loop_spec (size (records st)) l st) as (Hw & Hsub & Hl & Hs & _);
      [lia|by apply Hpos|].
    repeat split; try done. by intros l' [= <-].
  - by repeat split.
Qed.

End StoreLemmas.

(** ** The store invariant *)

Section StoreInv.
Context {HH : Hickory}.
Implicit Types (st : MemoryState) (s : MemoryCacheStore).

(** Statistics match the records, the weight limit holds, versions are positive,
    issued, and pairwise distinct, and a store that is shutting down is empty. *)
Record store_inv (s : MemoryCacheStore) : Prop := {
  inv_entries : entries (stats (state s)) = Z.of_nat (size (records (state s)));
  inv_weight : st_weighted_size (stats (state s)) = total_weight (records (state s));
  inv_limit : forall l, max_weight s = Some l -> 0 <= l;
  inv_capacity : forall l, max_weight s = Some l -> total_weight (records (state s)) <= l;
  inv_next : 0 <= next_version s;
  inv_versions : forall k r, records (state s) !! k = Some r -> 0 < version r <= next_version s;
  inv_distinct : forall k1 k2 r1 r2, records (state s) !! k1 = Some r1 ->
    records (state s) !! k2 = Some r2 -> version r1 = version r2 -> k1 = k2;
  inv_shutdown : shutting_down (state s) = true -> records (state s) = ∅
}.

(** The operations of the [CacheStore] trait and of its two drop guards. *)
Inductive StoreOp :=
| OpGet (key : CacheKey) (deadline : Deadline) (t0 now : Instant)
| OpCas (key : CacheKey) (c : CacheCondition) (e : CacheEntry) (deadline : Deadline)
    (t0 now : Instant)
| OpReserve (key : CacheKey) (deadline : Deadline) (t0 : Instant)
| OpPublish (key : CacheKey) (gen : Z) (c : CacheLoadCompletion)
| OpAbandon (key : CacheKey) (gen : Z) (f : CacheLoadFailure)
| OpDropLease (key : CacheKey) (gen : Z)
| OpPoll (key : CacheKey) (gen : Z) (deadline : Deadline) (now : Instant) (waker : nat)
| OpDropWaiter (key : CacheKey) (gen : Z)
| OpInvalidate (scope : CacheInvalidation) (deadline : Deadline) (t0 : Instant)
| OpShutdown.

Definition apply_op (s : MemoryCacheStore) (op : StoreOp) : MemoryCacheStore :=
  match op with
  | OpGet k d t0 now => (get s k d t0 now).2
  | OpCas k c e d t0 now => (compare_and_swap s k c e d t0 now).2
  | OpReserve k d t0 => (reserve_load s k d t0).2
  | OpPublish k g c => (publish_load s k g c).2
  | OpAbandon k g f => (abandon_load s k g f).2
  | OpDropLease k g => set_state s (abandon (state s) k g).2
  | OpPoll k g d now w => (poll_load s k g d now w).2
  | OpDropWaiter k g => set_state s (release_waiter (state s) k g)
  | OpInvalidate sc d t0 => (invalidate s sc d t0).2
  | OpShutdown => (shutdown s).2
  end.

Definition run_ops (s : MemoryCacheStore) (ops : list StoreOp) : MemoryCacheStore :=
  foldl apply_op s ops.

(** Operations that only shrink the records and keep the counters. *)
Lemma inv_shrink s st' :
  store_inv s -> records st' ⊆ records (state s) ->
  entries (stats st') = Z.of_nat (size (records st')) ->
  st_weighted_size (stats st') = total_weight (records st') ->
  (shutting_down st' = true -> records st' = ∅) ->
  store_inv (set_state s st').
Proof.
  intros [] Hsub He Hw Hs. split; simpl; try done.
  - intros l Hl. etrans; [by apply total_weight_mono|eauto].
  - intros k r Hr. apply inv_versions0 with k. by eapply lookup_weaken.
  - intros k1 k2 r1 r2 H1 H2. apply inv_distinct0; by eapply lookup_weaken.
Qed.

(** Operations on the loads (and on the other counters) leave the records alone. *)
Lemma inv_same_records s st' :
  store_inv s -> records st' = records (state s) ->
  entries (stats st') = entries (stats (state s)) ->
  st_weighted_size (stats st') = st_weighted_size (stats (state s)) ->
  shutting_down st' = shutting_down (state s) -> store_inv (set_state s st').
Proof.
  intros Hi Hr He Hw Hs. apply inv_shrink; try done; rewrite Hr.
  - done.
  - rewrite He. apply inv_entries, Hi.
  - rewrite Hw. apply inv_weight, Hi.
  - rewrite Hs. apply inv_shutdown, Hi.
Qed.

Lemma purge_inv s k now : store_inv s -> store_inv (set_state s (purge (state s) k now)).
Proof.
  intros Hi. unfold purge. destruct (records (state s) !! k) as [r|] eqn:E;
    [|by apply inv_same_records].
  destruct (is_visible r now); [by apply inv_same_records|].
  apply inv_shrink; try done; simpl; [apply delete_subseteq|].
  intros Hs. rewrite (inv_shutdown s Hi Hs). apply delete_empty.
Qed.

Lemma get_inv s k d t0 now : store_inv s -> store_inv (get s k d t0 now).2.
Proof.
  intros Hi. unfold get. destruct (is_expired d t0); [done|].
  destruct (shutting_down (state s)) eqn:Hs; [done|].
  destruct (records (state s) !! k) as [r|] eqn:E; [|by apply inv_same_records].
  destruct (is_visible r now).
  - apply inv_same_records; try done; simpl; by destruct (is_answerable r now).
  - apply inv_shrink; try done; simpl; [apply delete_subseteq|congruence].
Qed.

Lemma cas_inv s k c e d t0 now :
  store_inv s -> next_version s < u64_max -> store_inv (compare_and_swap s k c e d t0 now).2.
Proof.
  intros Hi Hv. unfold compare_and_swap. destruct (is_expired d t0); [done|].
  destruct (shutting_down (state s)) eqn:Hs; [done|].
  pose proof (purge_inv s k now Hi) as Hp. set (st := purge (state s) k now) in *.
  destruct (negb _); [by apply (inv_same_records (set_state s st))|].
  destruct (match records st !! k with Some _ => _ | None => _ end); [done|].
  destruct (match max_weight s with Some _ => _ | None => _ end) eqn:Hfit; [done|].
  pose proof (inv_next s Hi).
  assert (Hwrap : wrap64 (next_version s + 1) = next_version s + 1).
  { apply wrap64_small. unfold_ints. lia. }
  cbn [snd]. rewrite Hwrap.
  set (v := next_version s + 1). set (st1 := set_records st _).
  destruct (enforce_capacity_records st1 (max_weight s) (inv_limit s Hi))
    as (Hcap & _ & Hsub & _ & Hsd & He & Hw).
  assert (Hold : forall k' r', records (enforce_capacity st1 (max_weight s)) !! k' = Some r' ->
    (k' = k /\ version r' = v) \/ (k' <> k /\ records st !! k' = Some r')).
  { intros k' r' Hr'. pose proof (lookup_weaken _ _ _ _ Hr' Hsub) as Hin.
    unfold st1 in Hin. cbn [records set_records] in Hin.
    apply lookup_insert_Some in Hin as [[-> <-]|[Hne Hin]]; [by left|by right]. }
  split; cbn [state max_weight next_version]; try done.
  - apply (inv_limit s Hi).
  - lia.
  - intros k' r' [[-> ->]|[_ Hr']]%Hold; [lia|].
    pose proof (inv_versions _ Hp _ _ Hr'). simpl in *. lia.
  - intros k1 k2 r1 r2 [[-> H1]|[Hn1 H1]]%Hold [[-> H2]|[Hn2 H2]]%Hold Heq; try done.
    + pose proof (inv_versions _ Hp _ _ H2). simpl in *. lia.
    + pose proof (inv_versions _ Hp _ _ H1). simpl in *. lia.
    + by apply (inv_distinct _ Hp k1 k2 r1 r2).
  - intros Htrue. rewrite Hsd in Htrue. simpl in Htrue. unfold st, purge in Htrue.
    destruct (records (state s) !! k); [destruct (is_visible _ _)|]; simpl in Htrue; congruence.
Qed.

Lemma complete_load_frame st k g c :
  let st' := (complete_load st k g c).2 in
  records st' = records st /\ stats st' = stats st /\ shutting_down st' = shutting_down st.
Proof.
  unfold complete_load. destruct (loads st !! k); [|done]. by destruct (_ || _).
Qed.

Lemma abandon_frame st k g :
  let st' := (abandon st k g).2 in
  records st' = records st /\ stats st' = stats st /\ shutting_down st' = shutting_down st.
Proof.
  unfold abandon. pose proof (complete_load_frame st k g (LC_Failed LF_Abandoned)).
  by destruct (complete_load st k g _) as [[|] ?].
Qed.

Lemma publish_inv s k g c : store_inv s -> store_inv (publish_load s k g c).2.
Proof.
  intros Hi. unfold publish_load. pose proof (complete_load_frame (state s) k g c) as (H1 & H2 & H3).
  destruct (complete_load (state s) k g c) as [[w|e] st1]; simpl in *.
  - apply inv_same_records; congruence.
  - pose proof (abandon_frame st1 k g) as (H4 & H5 & H6).
    destruct (abandon st1 k g) as [w st2]; simpl in *. apply inv_same_records; congruence.
Qed.

Lemma release_waiter_frame st k g :
  records (release_waiter st k g) = records st /\
  stats (release_waiter st k g) = stats st /\
  shutting_down (release_waiter st k g) = shutting_down st.
Proof.
  unfold release_waiter. destruct (loads st !! k); [|done].
  destruct (_ || _); [done|]. by destruct (_ && _).
Qed.

Lemma poll_inv s k g d now w : store_inv s -> store_inv (poll_load s k g d now w).2.
Proof.
  intros Hi. unfold poll_load. destruct (loads (state s) !! k) as [l|]; [|done].
  destruct (negb _); [done|]. destruct (completion l); [done|].
  destruct (is_expired d now); [done|]. by apply inv_same_records.
Qed.

Lemma invalidate_inv s sc d t0 : store_inv s -> store_inv (invalidate s sc d t0).2.
Proof.
  intros Hi. unfold invalidate. destruct (is_expired d t0); [done|].
  destruct (shutting_down (state s)) eqn:Hs; [done|].
  apply inv_shrink; try done; simpl; [apply map_filter_subseteq|congruence].
Qed.

Lemma reserve_inv s k d t0 :
  store_inv s -> store_inv (reserve_load s k d t0).2 /\
  next_version (reserve_load s k d t0).2 = next_version s.
Proof.
  intros Hi. unfold reserve_load. destruct (is_expired d t0); [done|].
  destruct (shutting_down (state s)); [done|].
  destruct (loads (state s) !! k) as [l|]; split; try done.
  - by apply inv_same_records.
  - destruct Hi. by split.
Qed.

Lemma shutdown_inv s : store_inv s -> store_inv (shutdown s).2.
Proof. intros Hi. apply inv_shrink; try done. simpl. apply map_empty_subseteq. Qed.

Lemma cas_next_version s k c e d t0 now :
  0 <= next_version s < u64_max ->
  next_version s <= next_version (compare_and_swap s k c e d t0 now).2 <= next_version s + 1.
Proof.
  intros Hv. assert (Hw : wrap64 (next_version s + 1) = next_version s + 1).
  { apply wrap64_small. unfold_ints. lia. }
  unfold compare_and_swap. rewrite Hw. repeat case_match; simpl; lia.
Qed.

Lemma apply_op_inv s op :
  store_inv s -> next_version s < u64_max ->
  store_inv (apply_op s op) /\
  next_version s <= next_version (apply_op s op) <= next_version s + 1.
Proof.
  intros Hi Hv. pose proof (inv_next s Hi). destruct op; cbn [apply_op].
  - split; [by apply get_inv|]. unfold get. repeat case_match; simpl; lia.
  - split; [by apply cas_inv|]. by apply cas_next_version.
  - destruct (reserve_inv s key deadline t0 Hi) as [? ->]. split; [done|lia].
  - split; [by apply publish_inv|]. unfold publish_load. repeat case_match; simpl; lia.
  - split; [by apply publish_inv|]. unfold abandon_load, publish_load.
    repeat case_match; simpl; lia.
  - split; [|simpl; lia]. pose proof (abandon_frame (state s) key gen) as (? & ? & ?).
    apply inv_same_records; congruence.
  - split; [by apply poll_inv|]. unfold poll_load. repeat case_match; simpl; lia.
  - split; [|simpl; lia]. pose proof (release_waiter_frame (state s) key gen) as (? & ? & ?).
    apply inv_same_records; congruence.
  - split; [by apply invalidate_inv|]. unfold invalidate. repeat case_match; simpl; lia.
  - split; [by apply shutdown_inv|]. simpl. lia.
Qed.

Lemma with_limit_inv limit :
  (forall l, limit = Some l -> 0 <= l) -> store_inv (with_limit limit).
Proof. intros Hl. by split. Qed.

Lemma run_ops_inv s ops :
  store_inv s -> next_version s + Z.of_nat (length ops) <= u64_max ->
  store_inv (run_ops s ops).
Proof.
  revert s. induction ops as [|op ops IH]; intros s Hi Hv; [done|].
  cbn [length] in Hv. destruct (apply_op_inv s op Hi) as [Hi' ?]; [lia|].
  apply (IH (apply_op s op)); [done|lia].
Qed.

End StoreInv.

(** ** Properties of the store *)

Section StoreProps.
Context {HH : Hickory}.
Implicit Types (st : MemoryState) (s : MemoryCacheStore).

(** Starting from an empty store, after any sequence of fewer than 2^64
    operations the statistics equal the stored records, the total weight is
    within the limit, all stored versions are distinct and already issued, and a
    store that has been shut down holds no record. *)
Theorem store_reachable_inv limit ops :
  (forall l, limit = Some l -> 0 <= l) -> Z.of_nat (length ops) <= u64_max ->
  store_inv (run_ops (with_limit limit) ops).
Proof.
  intros Hl Hn. apply run_ops_inv; [by apply with_limit_inv|]. simpl. lia.
Qed.

(** What a caller can see of the store at [now]: the records still visible. *)
Definition visible (s : MemoryCacheStore) (now : Instant) (k : CacheKey) : option CacheRecord :=
  r ← records (state s) !! k; if is_visible r now then Some r else None.

Lemma purge_lookup st k now k' :
  records (purge st k now) !! k' =
  if decide (k = k') then
    (r ← records st !! k'; if is_visible r now then Some r else None)
  else records st !! k'.
Proof.
  unfold purge. case_decide as E; [subst k'|].
  - destruct (records st !! k) as [r|] eqn:Hr; simpl; [|done].
    destruct (is_visible r now) eqn:Hv; simpl; [done|]. apply lookup_delete_eq.
  - destruct (records st !! k) as [r|]; simpl; [|done].
    destruct (is_visible r now); simpl; [done|]. by rewrite lookup_delete_ne.
Qed.

Lemma purge_visible s k now :
  records (purge (state s) k now) !! k = visible s now k.
Proof. rewrite purge_lookup. by rewrite decide_True. Qed.

Lemma visible_ext s1 s2 now k :
  records (state s1) = records (state s2) -> visible s1 now k = visible s2 now k.
Proof. unfold visible. by intros ->. Qed.

Lemma purge_visible_all s k now k' :
  visible (set_state s (purge (state s) k now)) now k' = visible s now k'.
Proof.
  unfold visible at 1. cbn [state set_state]. rewrite purge_lookup.
  case_decide as E; [subst k'|done]. unfold visible.
  destruct (records (state s) !! k) as [r|]; simpl; [|done].
  destruct (is_visible r now) eqn:Hv; simpl; [by rewrite Hv|done].
Qed.

(** The records after the insertion and eviction steps of a write. *)
Lemma cas_write_records s k now v e limit :
  (forall l, limit = Some l -> 0 <= l) ->
  let st := purge (state s) k now in
  let st' := enforce_capacity (set_records st (<[k := mk_record v e]> (records st))) limit in
  (forall k' r, records st' !! k' = Some r ->
     (k' = k /\ r = mk_record v e) \/ (k' <> k /\ records (state s) !! k' = Some r)) /\
  (limit = None -> records st' !! k = Some (mk_record v e)).
Proof.
  intros Hl st st'.
  pose (st1 := set_records st (<[k := mk_record v e]> (records st))).
  destruct (enforce_capacity_records st1 limit Hl) as (_ & Hnone & Hsub & _).
  fold st' in Hnone, Hsub. split.
  - intros k' r Hr. pose proof (lookup_weaken _ _ _ _ Hr Hsub) as Hin.
    unfold st1 in Hin. cbn [records set_records] in Hin.
    apply lookup_insert_Some in Hin as [[-> <-]|[Hne Hin]]; [by left|right].
    split; [done|]. unfold st in Hin. rewrite purge_lookup in Hin. by rewrite decide_False in Hin.
  - intros E. specialize (Hnone E). change (records st' = records st1) in Hnone.
    rewrite Hnone. apply lookup_insert_eq.
Qed.

(** A lookup returns exactly the record visible at [now], never changes what
    any key shows at that time, and counts a hit only for an answerable record. *)
Theorem get_spec s k d t0 now :
  is_expired d t0 = false -> shutting_down (state s) = false ->
  let '(res, s') := get s k d t0 now in
  res = Ok (visible s now k) /\
  (forall k', visible s' now k' = visible s now k') /\
  hits (stats (state s')) =
    match visible s now k with
    | Some r => if is_answerable r now then sat_add64 (hits (stats (state s))) 1
                else hits (stats (state s))
    | None => hits (stats (state s))
    end.
Proof.
  intros Hd Hs. unfold get, visible. rewrite Hd, Hs.
  destruct (records (state s) !! k) as [r|] eqn:Hr; simpl; [|done].
  destruct (is_visible r now) eqn:Hv; simpl.
  - by destruct (is_answerable r now).
  - split; [done|]. split; [|done]. intros k'.
    destruct (decide (k = k')) as [<-|Hne].
    + by rewrite lookup_delete_eq, Hr; simpl; rewrite Hv.
    + by rewrite lookup_delete_ne.
Qed.

(** The outcome the contract assigns to a compare-and-swap. *)
Definition cas_outcome (s : MemoryCacheStore) (k : CacheKey) (c : CacheCondition)
    (e : CacheEntry) (now : Instant) : result PortErrorClass CacheWriteOutcome :=
  let cur := visible s now k in
  if negb (condition_matches c (version <$> cur)) then Ok (Conflict (version <$> cur))
  else match cur with
  | Some r =>
      if (quality_rank (quality e) <? quality_rank (quality (entry r))) && is_fresh r now
      then Ok RejectedQuality
      else if match max_weight s with
              | Some limit => limit <? weighted_size k (mk_record 0 e) | None => false end
      then Err PE_ResourceExhausted
      else Ok (Replaced (next_version s + 1))
  | None =>
      if match max_weight s with
         | Some limit => limit <? weighted_size k (mk_record 0 e) | None => false end
      then Err PE_ResourceExhausted
      else Ok (Inserted (next_version s + 1))
  end.

(** A write happens exactly when the visible version meets the condition, a
    fresh better answer is not in the way and the entry fits; it then stores that
    entry under a version larger than all earlier ones. Conflicts, quality
    rejections and oversized entries change no visible record. *)
Theorem compare_and_swap_spec s k c e d t0 now :
  store_inv s -> next_version s < u64_max ->
  is_expired d t0 = false -> shutting_down (state s) = false ->
  let '(res, s') := compare_and_swap s k c e d t0 now in
  map_err pe_class res = cas_outcome s k c e now /\
  match res with
  | Ok (Inserted v) | Ok (Replaced v) =>
      v = next_version s + 1 /\ next_version s' = v /\
      (forall k' r, records (state s') !! k' = Some r ->
         (k' = k /\ r = mk_record v e) \/ (k' <> k /\ records (state s) !! k' = Some r)) /\
      (max_weight s = None -> records (state s') !! k = Some (mk_record v e))
  | _ => forall k', visible s' now k' = visible s now k'
  end.
Proof.
  intros Hi Hn Hd Hs. unfold compare_and_swap, cas_outcome. rewrite Hd, Hs, <-purge_visible.
  set (st := purge (state s) k now). set (cur := version <$> records st !! k).
  assert (Hsame : forall s', records (state s') = records st ->
    forall k', visible s' now k' = visible s now k').
  { intros s' Hr k'. rewrite <-(purge_visible_all s k now k'). by apply visible_ext. }
  assert (Hw : wrap64 (next_version s + 1) = next_version s + 1).
  { pose proof (inv_next s Hi). apply wrap64_small. unfold_ints. lia. }
  destruct (negb (condition_matches c cur)); [split; [done|by apply Hsame]|].
  set (big := match max_weight s with Some _ => _ | None => _ end).
  assert (Hwrite : let s' := mk_store (enforce_capacity (set_records st
      (<[k := mk_record (next_version s + 1) e]> (records st))) (max_weight s))
      (next_version s + 1) (next_generation s) (max_weight s) in
    (forall k' r, records (state s') !! k' = Some r ->
         (k' = k /\ r = mk_record (next_version s + 1) e) \/
         (k' <> k /\ records (state s) !! k' = Some r)) /\
    (max_weight s = None -> records (state s') !! k = Some (mk_record (next_version s + 1) e))).
  { apply cas_write_records. apply (inv_limit s Hi). }
  unfold cur. rewrite Hw. destruct (records st !! k) as [r|] eqn:Hr; cbn [fmap option_fmap option_map].
  - destruct (_ && _); [split; [done|by apply Hsame]|].
    destruct big; [split; [done|by apply Hsame]|]. split; [done|]. by split; [|split].
  - destruct big; [split; [done|by apply Hsame]|]. split; [done|]. by split; [|split].
Qed.

(** Eviction is oldest first: whatever a write pushes out to respect the
    weight limit, no record kept is older (by insertion time, then version) than
    a record dropped, and the kept records fit the limit. *)
Theorem eviction_oldest_first st limit :
  0 <= limit ->
  let st' := enforce_capacity st (Some limit) in
  total_weight (records st') <= limit /\ records st' ⊆ records st /\
  (forall k r k' r', records st !! k = Some r -> records st' !! k = None ->
     records st' !! k' = Some r' -> older (k', r') (k, r) = false) /\
  (total_weight (records st) <= limit -> records st' = records st).
Proof.
  intros Hl. simpl.
  destruct (evict_loop_spec (size (records st)) limit st) as (? & ? & _ & _ & ?); [done..|].
  repeat split; try done. intros Hfit.
  destruct (size (records st)); [done|]. simpl. by rewrite (proj2 (Z.leb_le _ _) Hfit).
Qed.

(** Invalidation removes exactly the records its scope matches and reports
    how many it removed. *)
Theorem invalidate_exact s scope d t0 :
  is_expired d t0 = false -> shutting_down (state s) = false ->
  exists n s', invalidate s scope d t0 = (Ok n, s') /\
    (forall k r, records (state s') !! k = Some r <->
       records (state s) !! k = Some r /\
       CacheInvalidation_matches scope k (entry r) = false) /\
    n = Z.of_nat (size (records (state s))) - Z.of_nat (size (records (state s'))).
Proof.
  intros Hd Hs. unfold invalidate. rewrite Hd, Hs. do 2 eexists. split; [done|]. split.
  - intros k r. simpl. apply map_lookup_filter_Some.
  - cbn [state set_state records refresh_stats set_stats set_records]. unfold sat_sub.
    set (kept := filter _ _).
    assert (size kept <= size (records (state s)))%nat; [|lia].
    apply map_subseteq_size, map_filter_subseteq.
Qed.

End StoreProps.

(** ** Concrete runs *)
Section StoreWitness.
Import Sample.

Definition sample_key (b : byte) : CacheKey := mk_key NsGlobal [b] 2.
Definition far : Deadline := instant_max.
Definition later (s : Z) : Instant := sample_now + from_secs s.

(** Two inserts into a store that only has room for one of them. *)
Definition sample_ops : list StoreOp :=
  [OpCas (sample_key x01) Absent sample_entry far 0 sample_now;
   OpCas (sample_key x02) Absent sample_entry far 0 sample_now;
   OpGet (sample_key x02) far 0 (later 10)].
Definition sample_store : MemoryCacheStore := run_ops (with_limit (Some 100)) sample_ops.

Lemma store_reachable_inv_witness :
  store_inv sample_store /\ size (records (state sample_store)) = 1%nat.
Proof.
  split; [|by vm_compute].
  apply (store_reachable_inv (HH := hickory) (Some 100) sample_ops).
  - intros l [= <-]. lia.
  - by vm_compute.
Defined.

Lemma get_spec_witness :
  (get sample_store (sample_key x02) far 0 (later 10)).1 =
  Ok (visible sample_store (later 10) (sample_key x02)) /\
  match visible sample_store (later 10) (sample_key x02) with Some _ => true | None => false end = true.
Proof.
  split.
  - pose proof (get_spec (HH := hickory) sample_store (sample_key x02) far 0 (later 10)
      eq_refl eq_refl) as H.
    destruct (get sample_store (sample_key x02) far 0 (later 10)) as [res s']. apply H.
  - by vm_compute.
Defined.

Lemma compare_and_swap_spec_witness :
  map_err pe_class (compare_and_swap sample_store (sample_key x02) (IfVersion 2) sample_entry
    far 0 (later 10)).1 = Ok (Replaced 3).
Proof.
  pose proof (compare_and_swap_spec (HH := hickory) sample_store (sample_key x02) (IfVersion 2)
    sample_entry far 0 (later 10) (proj1 store_reachable_inv_witness) eq_refl eq_refl eq_refl) as H.
  destruct (compare_and_swap sample_store (sample_key x02) (IfVersion 2) sample_entry
    far 0 (later 10)) as [res s']. destruct H as [H _]. cbn [fst]. rewrite H. by vm_compute.
Defined.

Lemma eviction_oldest_first_witness :
  total_weight (records (enforce_capacity (state sample_store) (Some 10))) <= 10.
Proof.
  pose proof (eviction_oldest_first (HH := hickory) (state sample_store) 10 ltac:(lia)) as H.
  cbv zeta in H. exact (proj1 H).
Defined.

Lemma invalidate_exact_witness :
  exists n s', invalidate sample_store InvAll far 0 = (Ok n, s') /\ n = 1.
Proof.
  destruct (invalidate_exact (HH := hickory) sample_store InvAll far 0 eq_refl eq_refl)
    as (n & s' & H & _ & Hn).
  exists n, s'. split; [exact H|].
  apply (f_equal (fun p => fst p)) in H. cbn [fst] in H. apply (f_equal (fun r => match r with Ok z => z | Err _ => 0 end)) in H.
  rewrite <-H. by vm_compute.
Defined.

End StoreWitness.
