(* ===== verification/SingleFlight.v ===== *)
(** * Single-flight loads (src/backend/src/cache/memory.rs, ports/cache.rs)

    The concurrent protocol around [reserve_load], [publish_load],
    [abandon_load], [wait_load] and the drop guards of leases and waiter tokens.
    A state holds the store together with the leases and waiter tokens that are
    alive and the tasks parked on a waker; every interleaving of the atomic
    operations is a sequence of steps. *)

From S2P Require Import Prelude Message CacheModel CacheStore.

Section SingleFlight.
Context {HH : Hickory}.

(** A [CacheLoadLease] or [CacheLoadWaiter]: key and generation. *)
Abbreviation Token := (CacheKey * Z)%type.

Record Flight := mk_flight {
  store : MemoryCacheStore;
  leases : list Token;
  tokens : list Token;
  parked : list (Token * nat)
}.

(** Tasks whose waker is called are parked no longer. *)
Definition wake (woken : list nat) (p : list (Token * nat)) : list (Token * nat) :=
  filter (fun x => x.2 ∉ woken) p.

Inductive flight_step : Flight -> Flight -> Prop :=
| fs_lead s ls ws ps k d t0 g s' :
    next_generation s < u64_max ->
    reserve_load s k d t0 = (Ok (Leader g), s') ->
    flight_step (mk_flight s ls ws ps) (mk_flight s' ((k, g) :: ls) ws ps)
| fs_follow s ls ws ps k d t0 g s' :
    Z.of_nat (length ws) < u64_max ->
    reserve_load s k d t0 = (Ok (Follower g), s') ->
    flight_step (mk_flight s ls ws ps) (mk_flight s' ls ((k, g) :: ws) ps)
| fs_publish s l1 l2 ws ps k g c r woken s' :
    publish_load s k g c = (r, woken, s') ->
    flight_step (mk_flight s (l1 ++ (k, g) :: l2) ws ps)
      (mk_flight s' (l1 ++ l2) ws (wake woken ps))
| fs_drop_lease s l1 l2 ws ps k g woken st' :
    abandon (state s) k g = (woken, st') ->
    flight_step (mk_flight s (l1 ++ (k, g) :: l2) ws ps)
      (mk_flight (set_state s st') (l1 ++ l2) ws (wake woken ps))
| fs_poll s ls ws ps k g d now w r s' :
    (k, g) ∈ ws -> poll_load s k g d now w = (r, s') ->
    flight_step (mk_flight s ls ws ps)
      (mk_flight s' ls ws (match r with Pending => ((k, g), w) :: ps | Ready _ => ps end))
| fs_drop_token s ls w1 w2 ps k g :
    flight_step (mk_flight s ls (w1 ++ (k, g) :: w2) ps)
      (mk_flight (set_state s (release_waiter (state s) k g)) ls (w1 ++ w2) ps)
| fs_get s ls ws ps k d t0 now :
    flight_step (mk_flight s ls ws ps) (mk_flight (get s k d t0 now).2 ls ws ps)
| fs_cas s ls ws ps k c e d t0 now :
    flight_step (mk_flight s ls ws ps)
      (mk_flight (compare_and_swap s k c e d t0 now).2 ls ws ps)
| fs_invalidate s ls ws ps sc d t0 :
    flight_step (mk_flight s ls ws ps) (mk_flight (invalidate s sc d t0).2 ls ws ps)
| fs_shutdown s ls ws ps r woken s' :
    shutdown s = (r, woken, s') ->
    flight_step (mk_flight s ls ws ps) (mk_flight s' ls ws (wake woken ps)).

Definition flight_init (limit : option Z) : Flight := mk_flight (with_limit limit) [] [] [].

Inductive reachable (limit : option Z) : Flight -> Prop :=
| reach_init : reachable limit (flight_init limit)
| reach_step f f' : reachable limit f -> flight_step f f' -> reachable limit f'.

Definition token_eq_dec : forall a b : Token, {a = b} + {a <> b} := fun a b => decide (a = b).
Abbreviation count := (count_occ token_eq_dec).

(** The invariant. [fi_pending] and [fi_lease] are the single-flight property,
    [fi_token] says that a follower always finds its load, [fi_parked] that a
    parked task is registered with a load that is still running. *)
Record flight_inv (f : Flight) : Prop := {
  fi_next : 0 <= next_generation (store f);
  fi_gen : forall k l, loads (state (store f)) !! k = Some l ->
    generation l <= next_generation (store f);
  fi_lease_gen : forall k g, (k, g) ∈ leases f -> g <= next_generation (store f);
  fi_token : forall k g, (k, g) ∈ tokens f ->
    exists l, loads (state (store f)) !! k = Some l /\ generation l = g;
  fi_followers : forall k l, loads (state (store f)) !! k = Some l ->
    followers l = Z.of_nat (count (tokens f) (k, generation l));
  fi_pending : forall k l, loads (state (store f)) !! k = Some l -> completion l = None ->
    count (leases f) (k, generation l) = 1%nat;
  fi_lease : shutting_down (state (store f)) = false -> forall k g, (k, g) ∈ leases f ->
    exists l, loads (state (store f)) !! k = Some l /\ generation l = g /\ completion l = None;
  fi_done : forall k l, loads (state (store f)) !! k = Some l -> completion l <> None ->
    0 < followers l;
  fi_down : shutting_down (state (store f)) = true -> forall k l,
    loads (state (store f)) !! k = Some l -> completion l <> None;
  fi_parked : forall k g w, ((k, g), w) ∈ parked f ->
    exists l, loads (state (store f)) !! k = Some l /\ generation l = g /\
      completion l = None /\ w ∈ waiters l
}.

Lemma count_le_length (l : list Token) x : (count l x <= length l)%nat.
Proof. induction l as [|y l IH]; simpl; [done|]. destruct (token_eq_dec y x); lia. Qed.

Lemma count_pos (l : list Token) x : x ∈ l -> (0 < count l x)%nat.
Proof. intros H%list_elem_of_In. by apply count_occ_In. Qed.

Lemma count_zero (l : list Token) x : x ∉ l -> count l x = 0%nat.
Proof. intros H. apply count_occ_not_In. by rewrite <-list_elem_of_In. Qed.

Lemma count_cons (l : list Token) x y :
  count (y :: l) x = ((if decide (y = x) then 1 else 0) + count l x)%nat.
Proof. simpl. destruct (token_eq_dec y x), (decide (y = x)); done. Qed.

Lemma count_remove (l1 l2 : list Token) x y :
  count (l1 ++ y :: l2) x = ((if decide (y = x) then 1 else 0) + count (l1 ++ l2) x)%nat.
Proof. rewrite !count_occ_app, count_cons. lia. Qed.

Lemma wake_parked woken ps x : x ∈ wake woken ps <-> x ∈ ps /\ x.2 ∉ woken.
Proof. unfold wake. rewrite list_elem_of_filter. tauto. Qed.

(** Steps that leave the loads, the counter and the shutdown flag alone. *)
Lemma inv_frame s s' ls ws ps :
  flight_inv (mk_flight s ls ws ps) -> loads (state s') = loads (state s) ->
  next_generation s' = next_generation s ->
  shutting_down (state s') = shutting_down (state s) ->
  flight_inv (mk_flight s' ls ws ps).
Proof. intros [] Hl Hn Hs. simpl in *. split; simpl; rewrite ?Hl, ?Hn, ?Hs; done. Qed.

Lemma get_frame s k d t0 now :
  let s' := (get s k d t0 now).2 in
  loads (state s') = loads (state s) /\ next_generation s' = next_generation s /\
  shutting_down (state s') = shutting_down (state s).
Proof. unfold get. repeat case_match; done. Qed.

Lemma purge_frame st k now :
  loads (purge st k now) = loads st /\ shutting_down (purge st k now) = shutting_down st.
Proof. unfold purge. repeat case_match; done. Qed.

Lemma evict_loop_frame fuel limit st :
  loads (evict_loop fuel limit st) = loads st /\
  shutting_down (evict_loop fuel limit st) = shutting_down st.
Proof.
  revert st. induction fuel as [|fuel IH]; intros st; simpl; [done|].
  destruct (_ <=? _); [done|]. destruct (victim _); [|done].
  match goal with |- context [evict_loop fuel limit ?x] => destruct (IH x) as [-> ->] end.
  done.
Qed.

Lemma cas_frame s k c e d t0 now :
  let s' := (compare_and_swap s k c e d t0 now).2 in
  loads (state s') = loads (state s) /\ next_generation s' = next_generation s /\
  shutting_down (state s') = shutting_down (state s).
Proof.
  unfold compare_and_swap. destruct (purge_frame (state s) k now) as [Hl Hs].
  assert (He : forall st limit, loads (enforce_capacity st limit) = loads st /\
            shutting_down (enforce_capacity st limit) = shutting_down st).
  { intros st [l|]; [|done]. simpl. apply evict_loop_frame. }
  destruct (is_expired d t0); [done|]. destruct (shutting_down (state s)) eqn:E; [done|].
  destruct (negb _); [done|].
  destruct (match records _ !! k with Some _ => _ | None => _ end); [done|].
  destruct (match max_weight s with Some _ => _ | None => _ end); [done|].
  cbn [snd state next_generation].
  match goal with |- context [enforce_capacity ?st ?l] => destruct (He st l) as [-> ->] end.
  done.
Qed.

Lemma invalidate_frame s sc d t0 :
  let s' := (invalidate s sc d t0).2 in
  loads (state s') = loads (state s) /\ next_generation s' = next_generation s /\
  shutting_down (state s') = shutting_down (state s).
Proof. unfold invalidate. repeat case_match; done. Qed.

(** ** Preservation *)

Lemma lead_inv s ls ws ps k d t0 g s' :
  flight_inv (mk_flight s ls ws ps) -> next_generation s < u64_max ->
  reserve_load s k d t0 = (Ok (Leader g), s') ->
  flight_inv (mk_flight s' ((k, g) :: ls) ws ps).
Proof.
  intros Hi Hn Hr. unfold reserve_load in Hr. destruct (is_expired d t0); [done|].
  destruct (shutting_down (state s)) eqn:Hs; [done|].
  destruct (loads (state s) !! k) as [l|] eqn:Hk; [done|]. injection Hr as <- <-.
  destruct Hi as [Hnext Hgen Hlg Htok Hfol Hpen Hlea Hdone Hdown Hpark]. simpl in *.
  assert (Hw : wrap64 (next_generation s + 1) = next_generation s + 1).
  { apply wrap64_small. unfold_ints. lia. }
  rewrite Hw. set (g := next_generation s + 1).
  assert (Hother : forall k' l, loads (state s) !! k' = Some l ->
    <[k := mk_load g None 0 []]> (loads (state s)) !! k' = Some l).
  { intros k' l Hl. rewrite lookup_insert_ne; [done|congruence]. }
  split; cbn [store leases tokens parked state loads shutting_down next_generation set_loads].
  - lia.
  - intros k' l [[-> <-]|[_ Hl]]%lookup_insert_Some; simpl; [lia|]. specialize (Hgen k' l Hl). lia.
  - intros k' g' [[= -> ->]|Hin]%elem_of_cons; [lia|]. specialize (Hlg k' g' Hin). lia.
  - intros k' g' Hin. destruct (Htok k' g' Hin) as (l & Hl & Hg). eauto.
  - intros k' l [[-> <-]|[Hne Hl]]%lookup_insert_Some; simpl; [|by apply Hfol].
    rewrite count_zero; [done|]. intros (l & Hl & _)%Htok. congruence.
  - intros k' l [[-> <-]|[Hne Hl]]%lookup_insert_Some Hc; rewrite count_cons; simpl.
    + rewrite decide_True by done. rewrite count_zero; [done|].
      intros Hin%Hlg. lia.
    + rewrite decide_False by congruence. by apply Hpen.
  - intros _ k' g' [[= -> ->]|Hin]%elem_of_cons.
    + eexists. by rewrite lookup_insert_eq.
    + destruct (Hlea Hs k' g' Hin) as (l & Hl & ?). eauto.
  - intros k' l [[-> <-]|[Hne Hl]]%lookup_insert_Some Hc; [done|eauto].
  - congruence.
  - intros k' g' w Hin. destruct (Hpark k' g' w Hin) as (l & Hl & ?). eauto.
Qed.

Lemma follow_inv s ls ws ps k d t0 g s' :
  flight_inv (mk_flight s ls ws ps) -> Z.of_nat (length ws) < u64_max ->
  reserve_load s k d t0 = (Ok (Follower g), s') ->
  flight_inv (mk_flight s' ls ((k, g) :: ws) ps).
Proof.
  intros Hi Hn Hr. unfold reserve_load in Hr. destruct (is_expired d t0); [done|].
  destruct (shutting_down (state s)) eqn:Hs; [done|].
  destruct (loads (state s) !! k) as [l0|] eqn:Hk; [|done]. injection Hr as <- <-.
  destruct Hi as [Hnext Hgen Hlg Htok Hfol Hpen Hlea Hdone Hdown Hpark]. simpl in *.
  pose proof (count_le_length ws (k, generation l0)) as Hcl.
  assert (Hf : sat_add64 (followers l0) 1 = followers l0 + 1).
  { rewrite (Hfol k l0 Hk) in *. unfold_ints. lia. }
  rewrite Hf.
  split; cbn [store leases tokens parked state loads shutting_down next_generation set_loads set_state].
  - done.
  - intros k' l [[-> <-]|[_ Hl]]%lookup_insert_Some; [exact (Hgen _ _ Hk)|eauto].
  - done.
  - intros k' g' [[= -> ->]|Hin]%elem_of_cons; [eexists; by rewrite lookup_insert_eq|].
    destruct (Htok k' g' Hin) as (l & Hl & Hg). destruct (decide (k = k')) as [<-|Hne].
    + eexists. rewrite lookup_insert_eq. split; [done|]. simpl. congruence.
    + exists l. by rewrite lookup_insert_ne.
  - intros k' l [[-> <-]|[Hne Hl]]%lookup_insert_Some; rewrite count_cons; simpl.
    + rewrite decide_True by done. rewrite (Hfol k' l0 Hk). lia.
    + rewrite decide_False by congruence. by apply Hfol.
  - intros k' l [[-> <-]|[_ Hl]]%lookup_insert_Some; simpl; [by apply Hpen|by apply Hpen].
  - intros _ k' g' Hin. destruct (Hlea Hs k' g' Hin) as (l & Hl & Hg & Hc).
    destruct (decide (k = k')) as [<-|Hne].
    + eexists. rewrite lookup_insert_eq. split; [done|]. simpl. split; congruence.
    + exists l. by rewrite lookup_insert_ne.
  - intros k' l [[-> <-]|[_ Hl]]%lookup_insert_Some Hc; [|eauto]. simpl in *.
    rewrite (Hfol k' l0 Hk). lia.
  - congruence.
  - intros k' g' w Hin. destruct (Hpark k' g' w Hin) as (l & Hl & Hg & Hc & Hw).
    destruct (decide (k = k')) as [<-|Hne].
    + eexists. rewrite lookup_insert_eq. split; [done|]. simpl.
      rewrite Hk in Hl. injection Hl as <-. done.
    + exists l. by rewrite lookup_insert_ne.
Qed.

Lemma complete_load_inv st k g c res st' :
  complete_load st k g c = (res, st') ->
  (exists l, res = Ok (waiters l) /\ loads st !! k = Some l /\ generation l = g /\
     completion l = None /\
     st' = set_loads st (if followers l =? 0 then delete k (loads st)
             else <[k := mk_load g (Some c) (followers l) []]> (loads st))) \/
  (exists e, res = Err e /\ st' = st /\
     forall l, loads st !! k = Some l -> generation l = g -> completion l <> None).
Proof.
  unfold complete_load. destruct (loads st !! k) as [l|] eqn:Hk.
  2: { intros [= <- <-]. right. eexists. by split; [|split]. }
  destruct (Z.eqb_spec (generation l) g) as [Hg|Hg]; simpl.
  2: { intros [= <- <-]. right. eexists. split; [done|]. split; [done|]. congruence. }
  destruct (completion l) as [c0|] eqn:Hc; simpl.
  - intros [= <- <-]. right. eexists. split; [done|]. split; [done|]. congruence.
  - intros [= <- <-]. left. exists l. by rewrite <-Hg.
Qed.

(** The end of a lease, successful or not. *)
Lemma complete_inv s l1 l2 ws ps k g c res st' :
  flight_inv (mk_flight s (l1 ++ (k, g) :: l2) ws ps) ->
  complete_load (state s) k g c = (res, st') ->
  flight_inv (mk_flight (set_state s st') (l1 ++ l2) ws
    (wake (match res with Ok woken => woken | Err _ => [] end) ps)).
Proof.
  intros Hi Hc. destruct Hi as [Hnext Hgen Hlg Htok Hfol Hpen Hlea Hdone Hdown Hpark]. simpl in *.
  assert (Hsub : forall x, x ∈ l1 ++ l2 -> x ∈ l1 ++ (k, g) :: l2) by set_solver.
  apply complete_load_inv in Hc as
    [(l & -> & Hk & Hg & Hcn & ->)|(e & -> & -> & Hnot)].
  - assert (Hcnt : count (l1 ++ l2) (k, g) = 0%nat).
    { specialize (Hpen k l Hk Hcn). rewrite Hg, count_remove, decide_True in Hpen by done. lia. }
    assert (Hnsd : shutting_down (state s) = false).
    { destruct (shutting_down (state s)); [|done]. by destruct (Hdown eq_refl k l Hk). }
    assert (Hlook : forall k' l', (if followers l =? 0 then delete k (loads (state s))
        else <[k := mk_load g (Some c) (followers l) []]> (loads (state s))) !! k' = Some l' ->
      (k' = k /\ l' = mk_load g (Some c) (followers l) [] /\ 0 < followers l) \/
      (k' <> k /\ loads (state s) !! k' = Some l')).
    { intros k' l' Hl'. destruct (Z.eqb_spec (followers l) 0).
      - apply lookup_delete_Some in Hl' as [? ?]. by right.
      - apply lookup_insert_Some in Hl' as [[<- <-]|[? ?]]; [left|by right].
        split; [done|]. split; [done|]. rewrite (Hfol k l Hk) in *. lia. }
    assert (Hkeep : forall k' l', k' <> k -> loads (state s) !! k' = Some l' ->
      (if followers l =? 0 then delete k (loads (state s))
        else <[k := mk_load g (Some c) (followers l) []]> (loads (state s))) !! k' = Some l').
    { intros k' l' Hne Hl'. destruct (followers l =? 0).
      - by rewrite lookup_delete_ne. - by rewrite lookup_insert_ne. }
    split; cbn [store leases tokens parked state loads shutting_down next_generation set_loads set_state].
    + done.
    + intros k' l' [(-> & -> & _)|[_ Hl']]%Hlook; [|eauto]. simpl. rewrite <-Hg. eauto.
    + intros k' g' Hin. eauto.
    + intros k' g' Hin. destruct (Htok k' g' Hin) as (l' & Hl' & Hg').
      destruct (decide (k' = k)) as [->|Hne]; [|exists l'; auto].
      assert (l' = l) as -> by congruence. assert (g' = g) as -> by congruence.
      exists (mk_load g (Some c) (followers l) []). split; [|done].
      destruct (Z.eqb_spec (followers l) 0) as [Hz|Hz]; [|by rewrite lookup_insert_eq].
      rewrite (Hfol k l Hk), Hg in Hz. pose proof (count_pos _ _ Hin). lia.
    + intros k' l' [(-> & -> & _)|[_ Hl']]%Hlook; [|eauto]. simpl. rewrite <-Hg. eauto.
    + intros k' l' [(-> & -> & _)|[Hne Hl']]%Hlook Hc'; [done|].
      specialize (Hpen k' l' Hl' Hc'). rewrite count_remove, decide_False in Hpen by congruence.
      done.
    + intros _ k' g' Hin. destruct (Hlea Hnsd k' g' (Hsub _ Hin)) as (l' & Hl' & Hg' & Hc').
      destruct (decide (k' = k)) as [->|Hne]; [|exists l'; auto].
      assert (g' = g) as -> by congruence. pose proof (count_pos _ _ Hin). lia.
    + intros k' l' [(-> & -> & ?)|[_ Hl']]%Hlook Hc'; [done|eauto].
    + congruence.
    + intros k' g' w [Hin Hw]%wake_parked. destruct (Hpark k' g' w Hin) as (l' & Hl' & ? & ? & Hwl).
      destruct (decide (k' = k)) as [->|Hne]; [|exists l'; auto].
      assert (l' = l) as -> by congruence. by destruct Hw.
  - split; cbn [store leases tokens parked state loads shutting_down next_generation set_state];
      try done.
    + intros k' g' Hin. eauto.
    + intros k' l' Hl' Hc'. specialize (Hpen k' l' Hl' Hc'). rewrite count_remove in Hpen.
      destruct (decide ((k, g) = (k', generation l'))) as [[= <- Hg]|]; [|done].
      by destruct (Hnot l' Hl').
    + intros Hs k' g' Hin. eauto.
    + intros k' g' w [Hin _]%wake_parked. eauto.
Qed.

Lemma wake_nil ps : wake [] ps = ps.
Proof.
  unfold wake. induction ps as [|x ps IH]; [done|].
  rewrite filter_cons_True by set_solver. by rewrite IH.
Qed.

Lemma drop_lease_inv s l1 l2 ws ps k g woken st' :
  flight_inv (mk_flight s (l1 ++ (k, g) :: l2) ws ps) ->
  abandon (state s) k g = (woken, st') ->
  flight_inv (mk_flight (set_state s st') (l1 ++ l2) ws (wake woken ps)).
Proof.
  unfold abandon. intros Hi Ha.
  destruct (complete_load (state s) k g (LC_Failed LF_Abandoned)) as [res st1] eqn:E.
  pose proof (complete_inv _ _ _ _ _ _ _ _ _ _ Hi E). by destruct res; injection Ha as <- <-.
Qed.

Lemma publish_step_inv s l1 l2 ws ps k g c r woken s' :
  flight_inv (mk_flight s (l1 ++ (k, g) :: l2) ws ps) ->
  publish_load s k g c = (r, woken, s') ->
  flight_inv (mk_flight s' (l1 ++ l2) ws (wake woken ps)).
Proof.
  unfold publish_load. intros Hi Hp.
  destruct (complete_load (state s) k g c) as [[w|e] st1] eqn:E.
  - injection Hp as <- <- <-. exact (complete_inv _ _ _ _ _ _ _ _ _ _ Hi E).
  - apply complete_load_inv in E as [(l & ? & _)|(e' & _ & -> & _)]; [done|].
    destruct (abandon (state s) k g) as [w st2] eqn:Ea. injection Hp as <- <- <-.
    exact (drop_lease_inv _ _ _ _ _ _ _ _ _ Hi Ea).
Qed.

Lemma poll_step_inv s ls ws ps k g d now w r s' :
  flight_inv (mk_flight s ls ws ps) -> (k, g) ∈ ws ->
  poll_load s k g d now w = (r, s') ->
  flight_inv (mk_flight s' ls ws (match r with Pending => ((k, g), w) :: ps | Ready _ => ps end)).
Proof.
  intros Hi Hin Hp. destruct (fi_token _ Hi k g Hin) as (l & Hk & Hg). simpl in Hk.
  unfold poll_load in Hp. rewrite Hk, Hg, Z.eqb_refl in Hp. simpl in Hp.
  destruct (completion l) as [c|] eqn:Hc; [by injection Hp as <- <-|].
  destruct (is_expired d now); [by injection Hp as <- <-|]. injection Hp as <- <-.
  set (ws' := if bool_decide _ then _ else _).
  assert (Hws : forall x, x ∈ waiters l \/ x = w -> x ∈ ws').
  { intros x Hx. unfold ws'. case_bool_decide; set_solver. }
  destruct Hi as [Hnext Hgen Hlg Htok Hfol Hpen Hlea Hdone Hdown Hpark]. simpl in *.
  split; cbn [store leases tokens parked state loads shutting_down next_generation set_loads set_state];
    try done.
  - intros k' l' [[-> <-]|[_ Hl']]%lookup_insert_Some; [simpl; rewrite <-Hg|]; eauto.
  - intros k' g' Hin'. destruct (Htok k' g' Hin') as (l' & Hl' & Hg').
    destruct (decide (k = k')) as [<-|Hne].
    + eexists. rewrite lookup_insert_eq. split; [done|]. simpl. congruence.
    + exists l'. by rewrite lookup_insert_ne.
  - intros k' l' [[-> <-]|[_ Hl']]%lookup_insert_Some; [|by apply Hfol]. simpl. rewrite <-Hg.
    by apply Hfol.
  - intros k' l' [[-> <-]|[_ Hl']]%lookup_insert_Some Hc'; [|by apply Hpen]. simpl.
    rewrite <-Hg. by apply Hpen.
  - intros Hs k' g' Hin'. destruct (Hlea Hs k' g' Hin') as (l' & Hl' & Hg' & Hc').
    destruct (decide (k = k')) as [<-|Hne].
    + eexists. rewrite lookup_insert_eq. split; [done|]. simpl. split; congruence.
    + exists l'. by rewrite lookup_insert_ne.
  - intros k' l' [[-> <-]|[_ Hl']]%lookup_insert_Some Hc'; [done|eauto].
  - intros Hs k' l' [[-> <-]|[_ Hl']]%lookup_insert_Some; [|eauto]. by destruct (Hdown Hs k' l Hk).
  - intros k' g' w' [[= -> -> ->]|Hin']%elem_of_cons.
    + eexists. rewrite lookup_insert_eq. simpl. eauto 6.
    + destruct (Hpark k' g' w' Hin') as (l' & Hl' & Hg' & Hc' & Hw').
      destruct (decide (k = k')) as [<-|Hne].
      * assert (l' = l) as -> by congruence. eexists. rewrite lookup_insert_eq.
        split; [done|]. simpl. split; [congruence|]. eauto.
      * exists l'. by rewrite lookup_insert_ne.
Qed.

Lemma drop_token_inv s ls w1 w2 ps k g :
  flight_inv (mk_flight s ls (w1 ++ (k, g) :: w2) ps) ->
  flight_inv (mk_flight (set_state s (release_waiter (state s) k g)) ls (w1 ++ w2) ps).
Proof.
  intros Hi. destruct (fi_token _ Hi k g) as (l & Hk & Hg); [set_solver|]. simpl in Hk.
  destruct Hi as [Hnext Hgen Hlg Htok Hfol Hpen Hlea Hdone Hdown Hpark]. simpl in *.
  pose proof (Hfol k l Hk) as Hf. rewrite Hg, count_remove, decide_True in Hf by done.
  set (st' := release_waiter (state s) k g).
  assert (Hlook : forall k' l', loads st' !! k' = Some l' ->
    (k' = k /\ l' = mk_load g (completion l) (followers l - 1) (waiters l) /\
     (completion l <> None -> 0 < followers l - 1)) \/
    (k' <> k /\ loads (state s) !! k' = Some l')).
  { unfold st', release_waiter. rewrite Hk, Hg, Z.eqb_refl. simpl.
    destruct (Z.eqb_spec (followers l) 0) as [|_]; [lia|].
    case_bool_decide as Hc; simpl; [destruct (Z.eqb_spec (followers l - 1) 0)|];
      intros k' l' Hl'; simpl in Hl'.
    - apply lookup_delete_Some in Hl' as [? ?]. by right.
    - apply lookup_insert_Some in Hl' as [[<- <-]|[? ?]]; [left|by right].
      split; [done|]. split; [done|]. lia.
    - apply lookup_insert_Some in Hl' as [[<- <-]|[? ?]]; [left|by right].
      split; [done|]. split; [done|]. intros Hn. destruct Hc. by apply not_eq_None_Some. }
  assert (Hkeep : forall k' l', k' <> k -> loads (state s) !! k' = Some l' -> loads st' !! k' = Some l').
  { intros k' l' Hne Hl'. unfold st', release_waiter. rewrite Hk. destruct (_ || _); [done|].
    destruct (_ && _); simpl; [by rewrite lookup_delete_ne|by rewrite lookup_insert_ne]. }
  assert (Hstay : completion l = None \/ 0 < followers l - 1 ->
    loads st' !! k = Some (mk_load g (completion l) (followers l - 1) (waiters l))).
  { intros Hor. unfold st', release_waiter. rewrite Hk, Hg, Z.eqb_refl. simpl.
    destruct (Z.eqb_spec (followers l) 0) as [|_]; [lia|].
    case_bool_decide as Hc; simpl; [|apply lookup_insert_eq].
    destruct (Z.eqb_spec (followers l - 1) 0); simpl; [|apply lookup_insert_eq].
    destruct Hor as [Hn|?]; [|lia]. rewrite Hn in Hc. by destruct Hc. }
  assert (Hsd : shutting_down st' = shutting_down (state s)) by apply release_waiter_frame.
  split; cbn [store leases tokens parked state next_generation set_state]; rewrite ?Hsd; try done.
  - intros k' l' [(-> & -> & _)|[_ Hl']]%Hlook; [simpl; rewrite <-Hg|]; eauto.
  - intros k' g' Hin'. destruct (Htok k' g') as (l' & Hl' & Hg'); [set_solver|].
    destruct (decide (k' = k)) as [->|Hne]; [|exists l'; auto].
    assert (g' = g) as -> by congruence. eexists. split; [apply Hstay|done].
    right. pose proof (count_pos _ _ Hin'). lia.
  - intros k' l' [(-> & -> & _)|[Hne Hl']]%Hlook; [simpl; lia|].
    rewrite (Hfol k' l' Hl'), count_remove, decide_False by congruence. done.
  - intros k' l' [(-> & -> & _)|[Hne Hl']]%Hlook Hc'; [|by apply Hpen]. simpl in *.
    rewrite <-Hg. by apply Hpen.
  - intros Hs k' g' Hin'. destruct (Hlea Hs k' g' Hin') as (l' & Hl' & Hg' & Hc').
    destruct (decide (k' = k)) as [->|Hne]; [|exists l'; auto].
    eexists. split; [apply Hstay; left|simpl; split]; congruence.
  - intros k' l' [(-> & -> & Hpos)|[Hne Hl']]%Hlook Hc'; [auto|eauto].
  - intros Hs k' l' [(-> & -> & _)|[Hne Hl']]%Hlook; [exact (Hdown Hs _ _ Hk)|eauto].
  - intros k' g' w Hin'. destruct (Hpark k' g' w Hin') as (l' & Hl' & Hg' & Hc' & Hw').
    destruct (decide (k' = k)) as [->|Hne]; [|exists l'; auto].
    assert (l' = l) as -> by congruence. eexists. split; [apply Hstay; by left|]. simpl.
    split; [congruence|]. done.
Qed.

Lemma woken_all (m : gmap CacheKey MemoryLoad) k l w :
  m !! k = Some l -> w ∈ waiters l -> w ∈ map_fold (fun _ l acc => acc ++ waiters l) [] m.
Proof.
  revert k l w. apply (map_fold_weak_ind (fun r m => forall k l w, m !! k = Some l -> w ∈ waiters l -> w ∈ r)).
  - intros k l w Hk. by rewrite lookup_empty in Hk.
  - intros i x m' r Hi IH k l w [[-> ->]|[_ Hk]]%lookup_insert_Some Hw; set_solver.
Qed.

Lemma shutdown_step_inv s ls ws ps r woken s' :
  flight_inv (mk_flight s ls ws ps) -> shutdown s = (r, woken, s') ->
  flight_inv (mk_flight s' ls ws (wake woken ps)).
Proof.
  intros Hi [= <- <- <-].
  destruct Hi as [Hnext Hgen Hlg Htok Hfol Hpen Hlea Hdone Hdown Hpark]. simpl in *.
  set (loads' := filter _ _).
  assert (Hlook : forall k l', loads' !! k = Some l' <->
    exists l, loads (state s) !! k = Some l /\ l' = shutdown_load l /\ 0 < followers l).
  { intros k l'. unfold loads'. rewrite map_lookup_filter_Some, lookup_fmap_Some. simpl.
    split.
    - intros [(l & <- & Hl) Hf]. by exists l.
    - intros (l & Hl & -> & Hf). split; [by exists l|done]. }
  split; cbn [store leases tokens parked state loads shutting_down next_generation set_loads set_state]; try done.
  - intros k l' (l & Hl & -> & _)%Hlook. simpl. eauto.
  - intros k g Hin. destruct (Htok k g Hin) as (l & Hl & Hg). exists (shutdown_load l).
    split; [|done]. apply Hlook. exists l. split; [done|]. split; [done|].
    rewrite (Hfol k l Hl), Hg. pose proof (count_pos _ _ Hin). lia.
  - intros k l' (l & Hl & -> & _)%Hlook. simpl. by apply Hfol.
  - intros k l' (l & Hl & -> & _)%Hlook. simpl. by destruct (completion l).
  - intros k l' (l & Hl & -> & ?)%Hlook. done.
  - intros _ k l' (l & Hl & -> & _)%Hlook. simpl. by destruct (completion l).
  - intros k g w [Hin Hw]%wake_parked. destruct (Hpark k g w Hin) as (l & Hl & _ & _ & Hwl).
    destruct Hw. by eapply woken_all.
Qed.

Lemma flight_step_inv f f' : flight_inv f -> flight_step f f' -> flight_inv f'.
Proof.
  intros Hi Hstep. destruct Hstep.
  - by eapply lead_inv.
  - by eapply follow_inv.
  - by eapply publish_step_inv.
  - by eapply drop_lease_inv.
  - by eapply poll_step_inv.
  - by apply drop_token_inv.
  - destruct (get_frame s k d t0 now) as (? & ? & ?). by eapply inv_frame.
  - destruct (cas_frame s k c e d t0 now) as (? & ? & ?). by eapply inv_frame.
  - destruct (invalidate_frame s sc d t0) as (? & ? & ?). by eapply inv_frame.
  - by eapply shutdown_step_inv.
Qed.

Lemma reachable_inv limit f : reachable limit f -> flight_inv f.
Proof.
  induction 1 as [|f f' _ IH Hstep]; [|by eapply flight_step_inv].
  split; simpl; try done; try (intros; set_solver).
Qed.

Lemma lease_alive f k l :
  flight_inv f -> loads (state (store f)) !! k = Some l -> completion l = None ->
  (k, generation l) ∈ leases f.
Proof.
  intros Hi Hl Hc. pose proof (fi_pending f Hi k l Hl Hc) as Hn.
  apply list_elem_of_In, (count_occ_In token_eq_dec). lia.
Qed.

(** ** Properties *)

(** C16: While the store is open, at most one lease per key is alive in any
    reachable state: concurrent callers never load the same key twice. *)
Theorem single_leader limit f k g1 g2 :
  reachable limit f -> shutting_down (state (store f)) = false ->
  (k, g1) ∈ leases f -> (k, g2) ∈ leases f ->
  g1 = g2 /\ count (leases f) (k, g1) = 1%nat.
Proof.
  intros Hr%reachable_inv Hs H1 H2.
  destruct (fi_lease f Hr Hs k g1 H1) as (l & Hl & <- & Hc).
  destruct (fi_lease f Hr Hs k g2 H2) as (l2 & Hl2 & <- & _).
  rewrite Hl in Hl2. injection Hl2 as <-. split; [done|]. by apply (fi_pending f Hr).
Qed.

(** A follower is never orphaned: polling its token yields the published
    completion, a timeout because its own deadline passed, or it waits with the
    leader's lease still alive; the protocol-violation errors are unreachable. *)
Theorem follower_never_orphaned limit f k g d now w :
  reachable limit f -> (k, g) ∈ tokens f ->
  match (poll_load (store f) k g d now w).1 with
  | Ready (Ok c) => exists l, loads (state (store f)) !! k = Some l /\ completion l = Some c
  | Ready (Err e) => pe_class e = PE_Timeout /\ is_expired d now = true
  | Pending => (k, g) ∈ leases f /\ is_expired d now = false
  end.
Proof.
  intros Hr%reachable_inv Ht. destruct (fi_token f Hr k g Ht) as (l & Hl & Hg).
  unfold poll_load. rewrite Hl, Hg, Z.eqb_refl. simpl.
  destruct (completion l) as [c|] eqn:Hc; [by exists l|].
  destruct (is_expired d now) eqn:Hd; simpl; [done|]. split; [|done].
  rewrite <-Hg. by eapply lease_alive.
Qed.

(** No wake-up is lost: a parked task always has a live leader, and however
    that leader ends (publishing, abandoning, being dropped) or when the store
    shuts down, the task is among those woken. *)
Theorem no_lost_wakeup limit f k g w c :
  reachable limit f -> ((k, g), w) ∈ parked f ->
  (k, g) ∈ leases f /\
  (publish_load (store f) k g c).1.1 = Ok tt /\
  w ∈ (publish_load (store f) k g c).1.2 /\
  w ∈ (abandon (state (store f)) k g).1 /\
  w ∈ (shutdown (store f)).1.2.
Proof.
  intros Hr%reachable_inv Hp. destruct (fi_parked f Hr k g w Hp) as (l & Hl & <- & Hc & Hw).
  split; [by eapply lease_alive|].
  assert (Hok : forall c', complete_load (state (store f)) k (generation l) c' =
    (Ok (waiters l), (complete_load (state (store f)) k (generation l) c').2)).
  { intros c'. unfold complete_load. by rewrite Hl, Z.eqb_refl, Hc. }
  unfold publish_load, abandon. rewrite (Hok c), (Hok (LC_Failed LF_Abandoned)). simpl.
  repeat split; try done. by eapply woken_all.
Qed.

(** What the leader publishes is what every follower gets: publishing
    succeeds while the store is open, and each follower of that load then reads
    exactly that completion, at any time and whatever its deadline. *)
Theorem followers_share_completion limit s l1 l2 ws ps k g c :
  reachable limit (mk_flight s (l1 ++ (k, g) :: l2) ws ps) ->
  shutting_down (state s) = false ->
  let '(r, _, s') := publish_load s k g c in
  r = Ok tt /\
  forall d now w, (k, g) ∈ ws -> poll_load s' k g d now w = (Ready (Ok c), s').
Proof.
  intros Hr%reachable_inv Hs.
  destruct (fi_lease _ Hr Hs k g) as (l & Hl & Hg & Hc); [set_solver|]. simpl in *.
  unfold publish_load, complete_load. rewrite Hl, Hg, Z.eqb_refl, Hc. simpl.
  split; [done|]. intros d now w Hin.
  pose proof (fi_followers _ Hr k l Hl) as Hf. simpl in Hf. rewrite Hg in Hf.
  pose proof (count_pos _ _ Hin). unfold poll_load. simpl.
  destruct (Z.eqb_spec (followers l) 0); [lia|]. by rewrite lookup_insert_eq, Z.eqb_refl.
Qed.

(** Load slots do not leak: once no lease and no waiter token is alive the
    load table is empty again. *)
Theorem loads_reclaimed limit f :
  reachable limit f -> leases f = [] -> tokens f = [] -> loads (state (store f)) = ∅.
Proof.
  intros Hr%reachable_inv Hl Ht. apply map_empty. intros k.
  destruct (loads (state (store f)) !! k) as [l|] eqn:E; [|done].
  destruct (completion l) eqn:Hc.
  - pose proof (fi_done f Hr k l E ltac:(congruence)) as Hd.
    rewrite (fi_followers f Hr k l E), Ht in Hd. done.
  - pose proof (fi_pending f Hr k l E Hc) as Hp. by rewrite Hl in Hp.
Qed.

End SingleFlight.

(** ** A concrete interleaving: a leader, a follower that parks, a publish *)
Section FlightWitness.
Import Sample.

Definition fk : CacheKey := sample_key x07.
Definition f0 : Flight := flight_init None.
Definition s1 : MemoryCacheStore := (reserve_load (store f0) fk far 0).2.
Definition f1 : Flight := mk_flight s1 [(fk, 1)] [] [].
Definition s2 : MemoryCacheStore := (reserve_load s1 fk far 0).2.
Definition f2 : Flight := mk_flight s2 [(fk, 1)] [(fk, 1)] [].
Definition s3 : MemoryCacheStore := (poll_load s2 fk 1 far 0 42).2.
Definition f3 : Flight := mk_flight s3 [(fk, 1)] [(fk, 1)] [((fk, 1), 42%nat)].

Lemma f1_reachable : reachable None f1.
Proof. eapply reach_step; [apply reach_init|]. by apply (fs_lead _ [] [] [] fk far 0 1 s1). Qed.

Lemma f2_reachable : reachable None f2.
Proof.
  eapply reach_step; [apply f1_reachable|]. by apply (fs_follow s1 _ [] [] fk far 0 1 s2).
Qed.

Lemma f3_reachable : reachable None f3.
Proof.
  eapply reach_step; [apply f2_reachable|].
  apply (fs_poll s2 [(fk, 1)] [(fk, 1)] [] fk 1 far 0 42 Pending s3); [set_solver|].
  reflexivity.
Qed.

Lemma single_leader_witness : count_occ token_eq_dec (leases f3) (fk, 1) = 1%nat.
Proof.
  apply (single_leader (HH := hickory) None f3 fk 1 1 f3_reachable);
    [by vm_compute|set_solver..].
Defined.

Lemma follower_never_orphaned_witness :
  (fk, 1) ∈ leases f2 /\ is_expired far 0 = false.
Proof.
  exact (follower_never_orphaned (HH := hickory) None f2 fk 1 far 0 42 f2_reachable
    ltac:(set_solver)).
Defined.

Lemma no_lost_wakeup_witness : 42%nat ∈ (publish_load s3 fk 1 LC_Miss).1.2.
Proof.
  destruct (no_lost_wakeup (HH := hickory) None f3 fk 1 42 LC_Miss f3_reachable
    ltac:(set_solver)) as (_ & _ & H & _). exact H.
Defined.

Lemma followers_share_completion_witness :
  (poll_load (publish_load s3 fk 1 LC_Miss).2 fk 1 0 5 42).1 = Ready (Ok LC_Miss).
Proof.
  pose proof (followers_share_completion (HH := hickory) None s3 [] [] [(fk, 1)]
    [((fk, 1), 42%nat)] fk 1 LC_Miss f3_reachable eq_refl) as H.
  destruct (publish_load s3 fk 1 LC_Miss) as [[r wk] s']. destruct H as [_ H].
  cbn [snd]. rewrite (H 0 5 42%nat ltac:(set_solver)). reflexivity.
Defined.

Lemma loads_reclaimed_witness : loads (state (store f0)) = ∅.
Proof. apply (loads_reclaimed (HH := hickory) None f0); [apply reach_init|done..]. Defined.

End FlightWitness.
