(* ===== verification/CacheFacade.v ===== *)
(** * The cache facade (src/backend/src/cache/service.rs)

    Lookup, admission and write-back over an abstract [CacheStore]. The store is
    an interface: [CacheStoreOps] is the part of the trait the facade calls,
    [CacheStoreLaws] what it promises, and the in-memory store is an instance. *)

From S2P Require Import Prelude Message CacheModel CacheAdmission CacheStore.

(** ** The store interface (trait [CacheStore]) *)

Class CacheStoreOps {HH : Hickory} (S : Type) := {
  cs_get : S -> CacheKey -> Deadline -> Instant -> Instant ->
    result PortError (option CacheRecord) * S;
  cs_cas : S -> CacheKey -> CacheCondition -> CacheEntry -> Deadline -> Instant -> Instant ->
    result PortError CacheWriteOutcome * S;
  cs_reserve : S -> CacheKey -> Deadline -> Instant ->
    result PortError CacheLoadReservation * S;
  cs_publish : S -> CacheKey -> Z -> CacheLoadCompletion -> result PortError unit * list nat * S;
  (** [Drop for CacheLoadLease], through the lease's releaser. *)
  cs_abandon : S -> CacheKey -> Z -> list nat * S
}.

(** What the facade relies on. [cs_ok] is the store's own invariant and
    [cs_stored] its content; a reader sees the records still retained. *)
Definition retained {HH : Hickory} (now : Instant) (o : option CacheRecord) :
    option CacheRecord :=
  r ← o; if now <? retention_deadline (entry r) then Some r else None.

Class CacheStoreLaws {HH : Hickory} (S : Type) `{CacheStoreOps S} := {
  cs_ok : S -> Prop;
  cs_stored : S -> CacheKey -> option CacheRecord;
  cs_get_law : forall s k d t0 now res s',
    cs_ok s -> cs_get s k d t0 now = (res, s') ->
    cs_ok s' /\
    (forall k' r, cs_stored s' k' = Some r -> cs_stored s k' = Some r) /\
    (forall o, res = Ok o -> o = retained now (cs_stored s k));
  cs_cas_law : forall s k c e d t0 now res s',
    cs_ok s -> cs_cas s k c e d t0 now = (res, s') ->
    cs_ok s' /\
    (forall k' r, cs_stored s' k' = Some r ->
       cs_stored s k' = Some r \/
       (k' = k /\ exists v, r = mk_record v e /\
          (res = Ok (Inserted v) \/ res = Ok (Replaced v)))) /\
    match res with
    | Ok (Inserted _) => retained now (cs_stored s k) = None
    | Ok (Replaced _) => exists r,
        retained now (cs_stored s k) = Some r /\ c = IfVersion (version r)
    | Ok (Conflict cur) => cur = version <$> retained now (cs_stored s k) /\
        condition_matches c cur = false
    | Ok RejectedQuality => exists r,
        retained now (cs_stored s k) = Some r /\ now < expires_at (entry r) /\
        quality_rank (quality e) < quality_rank (quality (entry r))
    | Err _ => True
    end;
  cs_reserve_law : forall s k d t0 res s',
    cs_ok s -> cs_reserve s k d t0 = (res, s') ->
    cs_ok s' /\ forall k', cs_stored s' k' = cs_stored s k';
  cs_publish_law : forall s k g c res w s',
    cs_ok s -> cs_publish s k g c = (res, w, s') ->
    cs_ok s' /\ (forall k', cs_stored s' k' = cs_stored s k');
  cs_abandon_law : forall s k g,
    cs_ok s -> cs_ok (cs_abandon s k g).2 /\
    forall k', cs_stored (cs_abandon s k g).2 k' = cs_stored s k'
}.

(** ** Facade types *)

Section Facade.
Context {HH : Hickory}.

Record CacheFacadeOptions := mk_options {
  enabled : bool;
  optimistic_enabled : bool;
  admission : CacheAdmissionPolicy
}.

Inductive CacheFacadeBuildError := ZeroRefreshCapacity.

(** [RefreshAdmission]: the concurrency limit of optimistic refreshes and the
    number of leases alive. *)
Record RefreshAdmission := mk_refresh {
  max_concurrency : Z;
  in_flight : Z
}.

Definition RefreshAdmission_new (limit : option Z) :
    result CacheFacadeBuildError RefreshAdmission :=
  match limit with
  | Some n => if n =? 0 then Err ZeroRefreshCapacity else Ok (mk_refresh n 0)
  | None => Ok (mk_refresh usize_max 0)
  end.

(** The compare-exchange loop as the atomic update it performs. *)
Definition try_acquire (a : RefreshAdmission) : bool * RefreshAdmission :=
  if (max_concurrency a <=? in_flight a) || (in_flight a =? usize_max) then (false, a)
  else (true, mk_refresh (max_concurrency a) (in_flight a + 1)).

(** [Drop for RefreshLease]. *)
Definition release_refresh (a : RefreshAdmission) : RefreshAdmission :=
  mk_refresh (max_concurrency a) (in_flight a - 1).

Record CacheRefreshPermit := mk_permit {
  permit_key : CacheKey;
  permit_version : Z;
  consumed : bool;
  admitted : bool
}.

Definition try_consume (p : CacheRefreshPermit) : bool * CacheRefreshPermit :=
  if admitted p && negb (consumed p)
  then (true, mk_permit (permit_key p) (permit_version p) true (admitted p))
  else (false, p).

Inductive CacheLookup :=
| LkDisabled
| LkMiss
| LkFresh (r : CacheRecord)
| LkStale (r : CacheRecord) (refresh : CacheRefreshPermit)
| LkExpired (r : CacheRecord)
| LkStoreUnavailable.

Inductive CacheFacadeError :=
| FacadeAdmission (e : CacheAdmissionError)
| FacadeStore (e : PortError).

Record CacheWriteRequest := mk_request {
  req_key : CacheKey;
  req_condition : CacheCondition;
  req_response : CanonicalResponse;
  req_upstream : CacheUpstreamProvenance;
  req_now : Instant;
  req_revision : Z;
  req_deadline : Deadline
}.

Inductive CacheWriteResult :=
| WrStored (outcome : CacheWriteOutcome) (record : option CacheRecord)
| WrRejected (r : CacheAdmissionRejection).

Inductive CacheCommitOutcome :=
| CoStored | CoRejected | CoConflict | CoUnavailable | CoDropped.

Inductive CacheActivityOutcome :=
| APending | AInserted | AUpdated | ARejected | AConflict | AFailed | ASkipped | ACoalesced
| ADropped | AUnrecorded.

Section FacadeOps.
Context {S : Type} {HS : CacheStoreOps S}.

Record CacheFacade := mk_facade {
  fc_store : S;
  fc_options : CacheFacadeOptions;
  fc_refresh : RefreshAdmission
}.

Definition set_store (f : CacheFacade) (s : S) : CacheFacade :=
  mk_facade s (fc_options f) (fc_refresh f).

(** [now] is the caller's instant, [t0] and [t1] the store's clock readings. *)
Definition lookup_at (f : CacheFacade) (key : CacheKey) (deadline : Deadline)
    (now t0 t1 : Instant) : result CacheFacadeError CacheLookup * CacheFacade :=
  if negb (enabled (fc_options f)) then (Ok LkDisabled, f)
  else
    let '(res, s') := cs_get (fc_store f) key deadline t0 t1 in
    let f' := set_store f s' in
    match res with
    | Ok None => (Ok LkMiss, f')
    | Err e => match pe_class e with
               | PE_Unavailable => (Ok LkStoreUnavailable, f')
               | _ => (Err (FacadeStore e), f')
               end
    | Ok (Some r) =>
      if now <? expires_at (entry r) then (Ok (LkFresh r), f')
      else if optimistic_enabled (fc_options f) &&
              match stale_until (entry r) with Some s => now <? s | None => false end then
        let '(got, a') := try_acquire (fc_refresh f) in
        (Ok (LkStale r (mk_permit key (version r) false got)),
         mk_facade s' (fc_options f) a')
      else (Ok (LkExpired r), f')
    end.

Definition write_response (f : CacheFacade) (q : CacheWriteRequest) (t0 t1 : Instant) :
    result CacheFacadeError CacheWriteResult * CacheFacade :=
  if negb (enabled (fc_options f)) then (Ok (WrRejected RejOtherResponse), f)
  else match admit_response (admission (fc_options f)) (req_response q) (req_upstream q)
               (req_now q) (req_revision q) with
  | Err e => (Err (FacadeAdmission e), f)
  | Ok (Rejected rej) => (Ok (WrRejected rej), f)
  | Ok (Accepted e) =>
    let '(res, s') := cs_cas (fc_store f) (req_key q) (req_condition q) e (req_deadline q) t0 t1 in
    let f' := set_store f s' in
    match res with
    | Err err => (Err (FacadeStore err), f')
    | Ok outcome =>
      let rec := match outcome with
        | Inserted v | Replaced v => Some (mk_record v e)
        | Conflict _ | RejectedQuality => None
        end in
      (Ok (WrStored outcome rec), f')
    end
  end.

Definition cache_activity_outcome (r : result CacheFacadeError CacheWriteResult) :
    CacheActivityOutcome :=
  match r with
  | Ok (WrStored (Inserted _) _) => AInserted
  | Ok (WrStored (Replaced _) _) => AUpdated
  | Ok (WrStored (Conflict _) _) => AConflict
  | Ok _ => ARejected
  | Err _ => AFailed
  end.

Definition cache_written_ttl_secs (r : result CacheFacadeError CacheWriteResult) : option Z :=
  match r with
  | Ok (WrStored (Inserted _) (Some rec)) | Ok (WrStored (Replaced _) (Some rec)) =>
      Some (as_secs (duration_since (expires_at (entry rec)) (inserted_at (entry rec))))
  | _ => None
  end.

(** [facade.reserve_load] and [facade.publish_load]. *)
Definition facade_reserve_load (f : CacheFacade) (key : CacheKey) (deadline : Deadline)
    (t0 : Instant) : result CacheFacadeError CacheLoadReservation * CacheFacade :=
  if negb (enabled (fc_options f)) then
    (Err (FacadeStore (port_error PE_Unavailable "cache_facade.reserve_load")), f)
  else
    let '(res, s') := cs_reserve (fc_store f) key deadline t0 in
    (map_err FacadeStore res, set_store f s').

Definition facade_publish_load (f : CacheFacade) (key : CacheKey) (gen : Z)
    (c : CacheLoadCompletion) : result CacheFacadeError unit * list nat * CacheFacade :=
  let '(res, woken, s') := cs_publish (fc_store f) key gen c in
  (map_err FacadeStore res, woken, set_store f s').

Definition with_condition (q : CacheWriteRequest) (c : CacheCondition) : CacheWriteRequest :=
  mk_request (req_key q) c (req_response q) (req_upstream q) (req_now q) (req_revision q)
    (req_deadline q).
Definition with_deadline (q : CacheWriteRequest) (d : Deadline) : CacheWriteRequest :=
  mk_request (req_key q) (req_condition q) (req_response q) (req_upstream q) (req_now q)
    (req_revision q) d.

(** The clock readings of one commit: when it starts, those of the (at most two)
    writes, and the one that checks the stored record is still fresh. *)
Record CommitClock := mk_clock {
  ck_start : Instant;
  ck_w1 : Instant * Instant;
  ck_w2 : Instant * Instant;
  ck_fresh : Instant
}.

(** The write phase of [CacheCommitCandidate::commit]: a version CAS that finds
    no visible record is retried once as an insert. *)
Definition commit_write (f : CacheFacade) (q : CacheWriteRequest) (ck : CommitClock) :
    result CacheFacadeError CacheWriteResult * CacheFacade :=
  let '(w, f1) := write_response f q (ck_w1 ck).1 (ck_w1 ck).2 in
  match w, req_condition q with
  | Ok (WrStored (Conflict None) _), IfVersion _ =>
      write_response f1 (with_condition q Absent) (ck_w2 ck).1 (ck_w2 ck).2
  | _, _ => (w, f1)
  end.

Definition commit_completion (w : result CacheFacadeError CacheWriteResult) (now : Instant) :
    CacheCommitOutcome * CacheLoadCompletion :=
  match w with
  | Ok (WrStored (Inserted v) (Some rec)) | Ok (WrStored (Replaced v) (Some rec)) =>
      if now <? expires_at (entry rec) then (CoStored, LC_Ready rec) else (CoRejected, LC_Miss)
  | Ok (WrStored (Conflict _) _) => (CoConflict, LC_Miss)
  | Ok (WrStored _ _) | Ok (WrRejected _) => (CoRejected, LC_Miss)
  | Err _ => (CoUnavailable, LC_Failed LF_Unavailable)
  end.

(** [CacheCommitCandidate::commit]; [gen] is the generation of the lease it owns. *)
Definition commit (f : CacheFacade) (q : CacheWriteRequest) (gen : Z) (timeout : Duration)
    (ck : CommitClock) : CacheCommitOutcome * list nat * CacheFacade :=
  let q' := with_deadline q (ck_start ck + timeout) in
  let '(w, f1) := commit_write f q' ck in
  let '(outcome, completion) := commit_completion w (ck_fresh ck) in
  let '(res, woken, f2) := facade_publish_load f1 (req_key q) gen completion in
  match res with
  | Err _ => (CoUnavailable, woken, f2)
  | Ok _ => (outcome, woken, f2)
  end.

End FacadeOps.
End Facade.
Arguments CacheFacade S : clear implicits.

(** ** The in-memory store implements the interface *)

Section MemoryInstance.
Context {HH : Hickory}.

#[global] Instance memory_store_ops : CacheStoreOps MemoryCacheStore := {
  cs_get := get;
  cs_cas := compare_and_swap;
  cs_reserve := reserve_load;
  cs_publish := publish_load;
  cs_abandon s k g := let '(woken, st) := abandon (state s) k g in (woken, set_state s st)
}.

Definition limit_ok (s : MemoryCacheStore) : Prop :=
  forall l, max_weight s = Some l -> 0 <= l.
Definition stored (s : MemoryCacheStore) (k : CacheKey) : option CacheRecord :=
  records (state s) !! k.

Lemma purge_subset st k now k' r :
  records (purge st k now) !! k' = Some r -> records st !! k' = Some r.
Proof.
  rewrite purge_lookup. case_decide as E; [|done].
  destruct (records st !! k'); simpl; [|done]. by destruct (is_visible _ _).
Qed.

Lemma purge_retained s k now :
  records (purge (state s) k now) !! k = retained now (stored s k).
Proof. by rewrite purge_visible. Qed.

Lemma memory_get_law s k d t0 now res s' :
  limit_ok s -> get s k d t0 now = (res, s') ->
  limit_ok s' /\ (forall k' r, stored s' k' = Some r -> stored s k' = Some r) /\
  (forall o, res = Ok o -> o = retained now (stored s k)).
Proof.
  unfold get, retained, stored. intros Hl.
  destruct (is_expired d t0); [by intros [= <- <-]|].
  destruct (shutting_down (state s)); [by intros [= <- <-]|].
  destruct (records (state s) !! k) as [r|] eqn:Hr; simpl; [|by intros [= <- <-]; split_and!; naive_solver].
  unfold is_visible. destruct (now <? retention_deadline (entry r)); intros [= <- <-].
  - split_and!; naive_solver.
  - split; [done|]. split; [|naive_solver].
    intros k' r'. simpl. intros [_ H]%lookup_delete_Some. done.
Qed.

Lemma memory_cas_law s k c e d t0 now res s' :
  limit_ok s -> compare_and_swap s k c e d t0 now = (res, s') ->
  limit_ok s' /\
  (forall k' r, stored s' k' = Some r ->
     stored s k' = Some r \/
     (k' = k /\ exists v, r = mk_record v e /\
        (res = Ok (Inserted v) \/ res = Ok (Replaced v)))) /\
  match res with
  | Ok (Inserted _) => retained now (stored s k) = None
  | Ok (Replaced _) => exists r, retained now (stored s k) = Some r /\ c = IfVersion (version r)
  | Ok (Conflict cur) => cur = version <$> retained now (stored s k) /\
      condition_matches c cur = false
  | Ok RejectedQuality => exists r, retained now (stored s k) = Some r /\
      now < expires_at (entry r) /\
      quality_rank (quality e) < quality_rank (quality (entry r))
  | Err _ => True
  end.
Proof.
  intros Hl. unfold compare_and_swap.
  destruct (is_expired d t0); [intros [= <- <-]; by auto|].
  destruct (shutting_down (state s)); [intros [= <- <-]; by auto|].
  rewrite purge_retained. set (st := purge (state s) k now).
  assert (Hsub : forall k' r, records st !! k' = Some r -> stored s k' = Some r)
    by (intros ??; apply purge_subset).
  assert (Hkeep : forall st' P (res0 : result PortError CacheWriteOutcome),
    records st' = records st -> P ->
    limit_ok (set_state s st') /\
    (forall k' r, stored (set_state s st') k' = Some r -> stored s k' = Some r \/
       (k' = k /\ exists v, r = mk_record v e /\
          (res0 = Ok (Inserted v) \/ res0 = Ok (Replaced v)))) /\ P).
  { intros st' P res0 Hr HP. split; [done|]. split; [|done]. intros k' r Hk.
    left. apply Hsub. by rewrite <-Hr. }
  pose proof (fun v => proj1 (cas_write_records s k now v e (max_weight s) Hl)) as Hwrite.
  destruct (retained now (stored s k)) as [r|]; cbn [fmap option_fmap option_map].
  - destruct (condition_matches c (Some (version r))) eqn:Hc; simpl.
    2: { intros [= <- <-]. by apply Hkeep. }
    assert (Hver : c = IfVersion (version r)).
    { destruct c; [done|]. apply bool_decide_eq_true in Hc. congruence. }
    destruct (_ && is_fresh r now) eqn:Hq.
    { intros [= <- <-]. apply Hkeep; [done|]. unfold is_fresh in Hq. exists r. split; [done|lia]. }
    destruct (match max_weight s with Some _ => _ | None => _ end); intros [= <- <-].
    { by apply Hkeep. }
    split; [done|]. split; [|by eauto].
    intros k' r' [[-> ->]|[? ?]]%Hwrite; eauto 7.
  - destruct (condition_matches c None) eqn:Hc; simpl.
    2: { intros [= <- <-]. by apply Hkeep. }
    destruct (match max_weight s with Some _ => _ | None => _ end); intros [= <- <-].
    { by apply Hkeep. }
    split; [done|]. split; [|done].
    intros k' r' [[-> ->]|[? ?]]%Hwrite; eauto 7.
Qed.

Lemma memory_publish_law s k g c res w s' :
  limit_ok s -> publish_load s k g c = (res, w, s') ->
  limit_ok s' /\ forall k', stored s' k' = stored s k'.
Proof.
  unfold publish_load, stored. intros Hl. pose proof (complete_load_frame (state s) k g c) as (H1 & _).
  destruct (complete_load (state s) k g c) as [[w0|e] st1]; simpl in H1.
  - intros [= <- <- <-]. simpl. by rewrite H1.
  - pose proof (abandon_frame st1 k g) as (H4 & _).
    destruct (abandon st1 k g) as [w1 st2]; simpl in H4.
    intros [= <- <- <-]. simpl. by rewrite H4, H1.
Qed.

Lemma memory_reserve_law s k d t0 res s' :
  limit_ok s -> reserve_load s k d t0 = (res, s') ->
  limit_ok s' /\ forall k', stored s' k' = stored s k'.
Proof.
  unfold reserve_load, stored. intros Hl. destruct (is_expired d t0); [by intros [= <- <-]|].
  destruct (shutting_down (state s)); [by intros [= <- <-]|].
  by destruct (loads (state s) !! k); intros [= <- <-].
Qed.

Lemma memory_abandon_law s k g :
  limit_ok s -> limit_ok (cs_abandon s k g).2 /\
  forall k', stored (cs_abandon s k g).2 k' = stored s k'.
Proof.
  intros Hl. cbn. pose proof (abandon_frame (state s) k g) as (H & _).
  destruct (abandon (state s) k g) as [w st]; cbn in *. unfold stored. cbn. by rewrite H.
Qed.

#[global] Instance memory_store_laws : CacheStoreLaws MemoryCacheStore := {
  cs_ok := limit_ok;
  cs_stored := stored;
  cs_get_law := memory_get_law;
  cs_cas_law := memory_cas_law;
  cs_reserve_law := memory_reserve_law;
  cs_publish_law := memory_publish_law;
  cs_abandon_law := memory_abandon_law
}.

End MemoryInstance.

(** ** Reachable facades *)

Section FacadeInv.
Context {HH : Hickory} {S : Type} {HS : CacheStoreOps S} {HL : CacheStoreLaws S}.
Implicit Types (f : CacheFacade S).

(** The refresh lease a lookup hands out. *)
Definition granted (res : result CacheFacadeError CacheLookup) : Z :=
  match res with
  | Ok (LkStale _ p) => if admitted p then 1 else 0
  | _ => 0
  end.

(** Facades reached from an empty store by any interleaving of the operations,
    with the number of refresh leases alive. *)
Inductive facade_reachable (opts : CacheFacadeOptions) : CacheFacade S -> Z -> Prop :=
| fr_new s limit a : cs_ok s -> (forall k, cs_stored s k = None) ->
    (forall n, limit = Some n -> 0 <= n <= usize_max) ->
    RefreshAdmission_new limit = Ok a -> facade_reachable opts (mk_facade s opts a) 0
| fr_lookup f n k d now t0 t1 res f' : facade_reachable opts f n ->
    lookup_at f k d now t0 t1 = (res, f') -> facade_reachable opts f' (n + granted res)
| fr_write f n q t0 t1 res f' : facade_reachable opts f n ->
    write_response f q t0 t1 = (res, f') -> facade_reachable opts f' n
| fr_reserve f n k d t0 res f' : facade_reachable opts f n ->
    facade_reserve_load f k d t0 = (res, f') -> facade_reachable opts f' n
| fr_publish f n k g c res w f' : facade_reachable opts f n ->
    facade_publish_load f k g c = (res, w, f') -> facade_reachable opts f' n
| fr_commit f n q g timeout ck res w f' : facade_reachable opts f n ->
    commit f q g timeout ck = (res, w, f') -> facade_reachable opts f' n
| fr_abandon f n k g : facade_reachable opts f n ->
    facade_reachable opts (set_store f (cs_abandon (fc_store f) k g).2) n
| fr_drop f n : facade_reachable opts f n -> 0 < n ->
    facade_reachable opts (mk_facade (fc_store f) (fc_options f) (release_refresh (fc_refresh f)))
      (n - 1).

Record facade_inv (opts : CacheFacadeOptions) (f : CacheFacade S) (n : Z) : Prop := {
  fi_ok : cs_ok (fc_store f);
  fi_entries : forall k r, cs_stored (fc_store f) k = Some r -> entry_wf (entry r);
  fi_options : fc_options f = opts;
  fi_live : in_flight (fc_refresh f) = n;
  fi_bound : 0 <= n <= max_concurrency (fc_refresh f);
  fi_width : max_concurrency (fc_refresh f) <= usize_max
}.

(** Operations that leave the refresh counter alone. *)
Lemma facade_inv_store opts f n s' :
  facade_inv opts f n -> cs_ok s' ->
  (forall k r, cs_stored s' k = Some r -> cs_stored (fc_store f) k = Some r \/ entry_wf (entry r)) ->
  facade_inv opts (set_store f s') n.
Proof.
  intros [] Hok Hst. split; try done. intros k r [H|H]%Hst; [by eapply fi_entries0|done].
Qed.

Lemma try_acquire_spec a :
  0 <= in_flight a <= max_concurrency a -> max_concurrency a <= usize_max ->
  let '(got, a') := try_acquire a in
  max_concurrency a' = max_concurrency a /\
  in_flight a' = in_flight a + (if got then 1 else 0) /\ in_flight a' <= max_concurrency a' /\
  (got = false <-> in_flight a = max_concurrency a).
Proof.
  intros Hb Hu. unfold try_acquire.
  destruct (Z.leb_spec (max_concurrency a) (in_flight a)); simpl; [lia|].
  destruct (Z.eqb_spec (in_flight a) usize_max); simpl; lia.
Qed.

Lemma lookup_inv opts f n k d now t0 t1 res f' :
  facade_inv opts f n -> lookup_at f k d now t0 t1 = (res, f') ->
  facade_inv opts f' (n + granted res).
Proof.
  intros Hi. unfold lookup_at. destruct (negb (enabled (fc_options f))).
  { intros [= <- <-]. by rewrite Z.add_0_r. }
  destruct (cs_get (fc_store f) k d t0 t1) as [r s'] eqn:Hg.
  apply cs_get_law in Hg as (Hok & Hsub & _); [|apply Hi].
  assert (Hs : facade_inv opts (set_store f s') (n + 0)).
  { rewrite Z.add_0_r. apply facade_inv_store; auto. }
  destruct r as [[r|]|e]; [|by intros [= <- <-]|by destruct (pe_class e); intros [= <- <-]].
  destruct (now <? expires_at (entry r)); [by intros [= <- <-]|].
  destruct (_ && _); [|by intros [= <- <-]].
  destruct Hi as [H1 H2 H3 H4 H5 H6]. subst n.
  pose proof (try_acquire_spec (fc_refresh f) H5 H6) as Ha.
  destruct (try_acquire (fc_refresh f)) as [got a']. destruct Ha as (Hm & Hf & Hle & _).
  intros [= <- <-]. simpl. destruct got; split; cbn; try done; try apply Hs; lia.
Qed.

Lemma write_inv opts f n q t0 t1 res f' :
  policy_wf (admission opts) -> facade_inv opts f n ->
  write_response f q t0 t1 = (res, f') -> facade_inv opts f' n.
Proof.
  intros Hp Hi. unfold write_response. rewrite (fi_options _ _ _ Hi).
  destruct (negb (enabled opts)); [by intros [= <- <-]|].
  destruct (admit_response _ _ _ _ _) as [[e|rej]|err] eqn:Ha; [|by intros [= <- <-]..].
  destruct (cs_cas _ _ _ _ _ _ _) as [r s'] eqn:Hc.
  apply cs_cas_law in Hc as (Hok & Hst & _); [|apply Hi].
  intros H. assert (f' = set_store f s') as -> by (by destruct r; injection H as _ <-).
  apply facade_inv_store; [done..|].
  intros k r' [Hr|(-> & v & -> & _)]%Hst; [by left|right]. by eapply admitted_wf.
Qed.

Lemma publish_facade_inv opts f n k g c res w f' :
  facade_inv opts f n -> facade_publish_load f k g c = (res, w, f') -> facade_inv opts f' n.
Proof.
  intros Hi. unfold facade_publish_load.
  destruct (cs_publish _ _ _ _) as [[r w'] s'] eqn:Hc.
  apply cs_publish_law in Hc as (Hok & Hst); [|apply Hi].
  intros [= <- <- <-]. apply facade_inv_store; [done..|]. intros k'. rewrite Hst. auto.
Qed.

Lemma commit_write_inv opts f n q ck res f' :
  policy_wf (admission opts) -> facade_inv opts f n ->
  commit_write f q ck = (res, f') -> facade_inv opts f' n.
Proof.
  intros Hp Hi. unfold commit_write.
  destruct (write_response f q _ _) as [w f1] eqn:Hw. apply (write_inv opts _ n) in Hw; [|done..].
  destruct w as [[[| |[]|]|]|]; try (by intros [= <- <-]).
  destruct (req_condition q); [by intros [= <- <-]|]. by apply write_inv.
Qed.

Lemma facade_reachable_facade_inv opts f n :
  policy_wf (admission opts) -> facade_reachable opts f n -> facade_inv opts f n.
Proof.
  intros Hp. induction 1 as [s limit a Hok Hemp Hlim Ha| | | | |f n q g timeout ck res w f' _ IH Hc|f n k g _ IH|f n _ IH Hn].
  - assert (Hw : 0 <= max_concurrency a <= usize_max /\ in_flight a = 0).
    { destruct limit as [m|]; simpl in Ha.
      - specialize (Hlim m eq_refl). destruct (m =? 0); [done|]. injection Ha as <-. simpl. lia.
      - injection Ha as <-. unfold_ints. simpl. lia. }
    split; simpl; try done; try lia. intros k r Hk. by rewrite Hemp in Hk.
  - by eapply lookup_inv.
  - by eapply write_inv.
  - unfold facade_reserve_load in *. destruct (negb _); [by simplify_eq|].
    destruct (cs_reserve _ _ _ _) as [r s'] eqn:Hc.
    apply cs_reserve_law in Hc as [Hok Hst]; [|apply IHfacade_reachable].
    simplify_eq. apply facade_inv_store; [done..|]. intros k'. rewrite Hst. auto.
  - by eapply publish_facade_inv.
  - unfold commit in Hc. destruct (commit_write f _ ck) as [w1 f1] eqn:Hw.
    apply (commit_write_inv opts _ n) in Hw; [|done..].
    destruct (commit_completion w1 (ck_fresh ck)) as [o c].
    destruct (facade_publish_load f1 _ g c) as [[r w2] f2] eqn:Hpub.
    apply (publish_facade_inv opts _ n) in Hpub; [|done]. by destruct r; simplify_eq.
  - destruct (cs_abandon_law (fc_store f) k g) as [Hok Hst]; [apply IH|].
    apply facade_inv_store; [done..|]. intros k'. rewrite Hst. auto.
  - destruct IH. split; simpl; try done; lia.
Qed.

End FacadeInv.

(** ** Properties of the facade *)

Section FacadeProps.
Context {HH : Hickory} {S : Type} {HS : CacheStoreOps S} {HL : CacheStoreLaws S}.
Implicit Types (f : CacheFacade S).

(** Over any store that keeps the contract and under any interleaving of
    lookups, writes, loads and commits, every stored entry is one admission
    produced (checksum, class and quality agree with the response) and the number
    of optimistic refreshes in flight is that of the leases alive and never
    exceeds the configured limit. *)
Theorem facade_invariant opts f n :
  policy_wf (admission opts) -> facade_reachable opts f n ->
  (forall k r, cs_stored (fc_store f) k = Some r -> entry_wf (entry r)) /\
  in_flight (fc_refresh f) = n /\ 0 <= n <= max_concurrency (fc_refresh f).
Proof. intros Hp Hr. by destruct (facade_reachable_facade_inv opts f n Hp Hr). Qed.

(** C13: A lookup answers by the record's age alone: fresh before expiry; stale
    only with optimistic serving on, inside the stale window, for a successful or
    negative answer (never a failure), and with a refresh permit for exactly that
    key and version; otherwise expired. A miss means nothing is retained. *)
Theorem lookup_at_spec opts f n k d now t0 t1 l f' :
  policy_wf (admission opts) -> facade_reachable opts f n ->
  lookup_at f k d now t0 t1 = (Ok l, f') ->
  let seen := retained t1 (cs_stored (fc_store f) k) in
  match l with
  | LkDisabled => enabled opts = false /\ f' = f
  | LkMiss => seen = None
  | LkFresh r => seen = Some r /\ now < expires_at (entry r)
  | LkStale r p => seen = Some r /\ optimistic_enabled opts = true /\
      (exists s, stale_until (entry r) = Some s /\ expires_at (entry r) <= now < s) /\
      quality (entry r) <> Q_Failure /\
      permit_key p = k /\ permit_version p = version r /\ consumed p = false /\
      (admitted p = false -> n = max_concurrency (fc_refresh f))
  | LkExpired r => seen = Some r /\ expires_at (entry r) <= now /\
      (optimistic_enabled opts = true -> forall s, stale_until (entry r) = Some s -> s <= now)
  | LkStoreUnavailable => True
  end.
Proof.
  intros Hp Hr. apply facade_reachable_facade_inv in Hr; [|done]. unfold lookup_at.
  rewrite (fi_options _ _ _ Hr). destruct (enabled opts); simpl; [|by intros [= <- <-]].
  destruct (cs_get (fc_store f) k d t0 t1) as [res s'] eqn:Hg.
  apply cs_get_law in Hg as (_ & _ & Hget); [|apply Hr].
  destruct res as [[r|]|e]; [|intros [= <- <-]; symmetry; by apply Hget
    |by destruct (pe_class e); intros [= <- <-]].
  specialize (Hget _ eq_refl). rewrite <-Hget.
  destruct (Z.ltb_spec now (expires_at (entry r))); [by intros [= <- <-]|].
  assert (Hwf : entry_wf (entry r)).
  { unfold retained in Hget. destruct (cs_stored (fc_store f) k) as [r0|] eqn:Hst; [|done].
    simpl in Hget. destruct (_ <? _); [|done]. injection Hget as <-. by eapply (fi_entries _ _ _ Hr). }
  destruct (optimistic_enabled opts); simpl; [|by intros [= <- <-]].
  destruct (stale_until (entry r)) as [s|] eqn:Hst; [|by intros [= <- <-]; rewrite Hst].
  destruct (Z.ltb_spec now s).
  2: { intros [= <- <-]. rewrite Hst. split_and!; try done. by intros _ ? [= <-]. }
  destruct (fi_live _ _ _ Hr).
  pose proof (try_acquire_spec (fc_refresh f) (fi_bound _ _ _ Hr) (fi_width _ _ _ Hr)) as Ha.
  destruct (try_acquire (fc_refresh f)) as [got a']. destruct Ha as (_ & _ & _ & Hno).
  intros [= <- <-]. split_and!; try done; [by exists s|exact (proj2 (ewf_stale _ Hwf s Hst))|].
  intros E. by apply Hno.
Qed.

Lemma write_response_stored f q t0 t1 o rec f' :
  write_response f q t0 t1 = (Ok (WrStored o rec), f') ->
  exists e s', admit_response (admission (fc_options f)) (req_response q) (req_upstream q)
      (req_now q) (req_revision q) = Ok (Accepted e) /\
    cs_cas (fc_store f) (req_key q) (req_condition q) e (req_deadline q) t0 t1 = (Ok o, s') /\
    f' = set_store f s' /\
    rec = match o with
          | Inserted v | Replaced v => Some (mk_record v e)
          | Conflict _ | RejectedQuality => None
          end.
Proof.
  unfold write_response. destruct (negb _); [done|].
  destruct (admit_response _ _ _ _ _) as [[e|]|]; [|done..].
  destruct (cs_cas _ _ _ _ _ _ _) as [[o'|] s'] eqn:Hc; [|done].
  intros [= <- <- <-]. by exists e, s'.
Qed.

Lemma write_response_options f q t0 t1 :
  fc_options (write_response f q t0 t1).2 = fc_options f.
Proof.
  unfold write_response. destruct (negb _); [done|].
  destruct (admit_response _ _ _ _ _) as [[e|]|]; [|done..].
  by destruct (cs_cas _ _ _ _ _ _ _) as [[o'|] s'].
Qed.

(** What the two writes of a commit can return. *)
Definition commit_result (opts : CacheFacadeOptions) (q : CacheWriteRequest)
    (w : result CacheFacadeError CacheWriteResult) : Prop :=
  match w with
  | Ok (WrStored out (Some rec)) =>
      (out = Inserted (version rec) \/ out = Replaced (version rec)) /\
      admit_response (admission opts) (req_response q) (req_upstream q) (req_now q)
        (req_revision q) = Ok (Accepted (entry rec))
  | Ok (WrStored out None) => (exists c, out = Conflict c) \/ out = RejectedQuality
  | _ => True
  end.

Lemma write_response_result opts f q t0 t1 w f' :
  fc_options f = opts -> write_response f q t0 t1 = (w, f') -> commit_result opts q w.
Proof.
  intros <- Hw. destruct w as [[out rec|]|]; [|done..].
  apply write_response_stored in Hw as (e & s' & Ha & _ & _ & ->).
  destruct out; simpl; eauto.
Qed.

(** An insert never conflicts with an absent record. *)
Lemma write_absent_conflict f q t0 t1 rec f' :
  cs_ok (fc_store f) -> write_response f q t0 t1 = (Ok (WrStored (Conflict None) rec), f') ->
  exists v, req_condition q = IfVersion v.
Proof.
  intros Hok (e & s' & _ & Hc & _)%write_response_stored.
  apply cs_cas_law in Hc as (_ & _ & _ & Hm); [|done].
  destruct (req_condition q); [done|eauto].
Qed.

Lemma commit_write_result opts f n q ck w f' :
  policy_wf (admission opts) -> facade_inv opts f n ->
  commit_write f q ck = (w, f') ->
  commit_result opts q w /\ forall rec, w <> Ok (WrStored (Conflict None) rec).
Proof.
  intros Hp Hi. unfold commit_write. destruct (write_response f q _ _) as [w1 f1] eqn:H1.
  pose proof (write_inv opts f n _ _ _ _ _ Hp Hi H1) as Hi1.
  pose proof (write_response_result opts f _ _ _ _ _ (fi_options _ _ _ Hi) H1) as Hres.
  pose proof (fun rec H => write_absent_conflict f q _ _ rec f1 (fi_ok _ _ _ Hi)
    (eq_trans H1 (f_equal (fun x => (x, f1)) H))) as Habs.
  destruct (decide (is_Some (match w1 with Ok (WrStored (Conflict None) rec) => Some rec | _ => None end)))
    as [[rec Hsome]|Hno].
  - destruct w1 as [[[| |[]|] rec'|]|]; try done. destruct (Habs _ eq_refl) as [v Hv]. rewrite Hv.
    intros H2. split.
    + by apply (write_response_result opts _ (with_condition q Absent) _ _ _ _ (fi_options _ _ _ Hi1) H2).
    + intros rec2 ->. by apply write_absent_conflict in H2 as [v2 Hv2]; [|apply Hi1].
  - assert (Hne : forall rec, w1 <> Ok (WrStored (Conflict None) rec)).
    { intros rec ->. apply Hno. by eexists. }
    destruct w1 as [[[| |[]|] rec'|]|]; try (by intros [= <- <-]). by destruct (Hne rec').
Qed.

(** The completion chosen for each write result. *)
Lemma commit_completion_form opts q w now o c :
  commit_result opts q w -> commit_completion w now = (o, c) ->
  match o with
  | CoStored => exists out rec, c = LC_Ready rec /\ w = Ok (WrStored out (Some rec)) /\
      (out = Inserted (version rec) \/ out = Replaced (version rec)) /\
      admit_response (admission opts) (req_response q) (req_upstream q) (req_now q)
        (req_revision q) = Ok (Accepted (entry rec)) /\ now < expires_at (entry rec)
  | CoDropped => False
  | _ => c = LC_Miss \/ c = LC_Failed LF_Unavailable
  end.
Proof.
  destruct w as [[out [rec|]|rej]|err]; simpl; [| |by intros _ [= <- <-]; auto..].
  - destruct (Z.ltb_spec now (expires_at (entry rec))); intros [[-> | ->] Ha] [= <- <-]; eauto 10.
  - intros [[c0 ->] | ->] [= <- <-]; auto.
Qed.

(** A commit reports [Stored] only after publishing [Ready] with exactly the
    record it wrote: the entry admission made of the request's response, its
    lifetime counted from the producer's clock, and not yet expired. It never
    reports a conflict because the record it meant to replace was gone. *)
Theorem commit_spec opts f n q gen timeout ck o woken f' :
  policy_wf (admission opts) -> facade_reachable opts f n ->
  commit f q gen timeout ck = (o, woken, f') ->
  exists w f1,
    commit_write f (with_deadline q (ck_start ck + timeout)) ck = (w, f1) /\
    (forall rec, w <> Ok (WrStored (Conflict None) rec)) /\
    match o with
    | CoStored => exists out rec, w = Ok (WrStored out (Some rec)) /\
        (out = Inserted (version rec) \/ out = Replaced (version rec)) /\
        admit_response (admission opts) (req_response q) (req_upstream q) (req_now q)
          (req_revision q) = Ok (Accepted (entry rec)) /\
        ck_fresh ck < expires_at (entry rec) /\
        facade_publish_load f1 (req_key q) gen (LC_Ready rec) = (Ok tt, woken, f')
    | _ => exists c, (c = LC_Miss \/ c = LC_Failed LF_Unavailable \/
          exists rec, c = LC_Ready rec /\ o = CoUnavailable) /\
        (facade_publish_load f1 (req_key q) gen c).1.2 = woken
    end.
Proof.
  intros Hp Hr. apply facade_reachable_facade_inv in Hr; [|done].
  unfold commit. destruct (commit_write f _ ck) as [w f1] eqn:Hw.
  apply (commit_write_result opts _ n) in Hw as [Hres Hnc]; [|done..].
  intros Hc. exists w, f1. split; [done|]. split; [done|]. clear Hnc.
  destruct (commit_completion w (ck_fresh ck)) as [o1 c] eqn:Hcc.
  apply (commit_completion_form opts q) in Hcc; [|done].
  destruct (facade_publish_load f1 (req_key q) gen c) as [[[[]|e] w2] f2] eqn:Hpub.
  - injection Hc as <- <- <-. destruct o1; try (exists c; rewrite Hpub; naive_solver).
    destruct Hcc as (out & rec & -> & -> & ? & ? & ?). exists out, rec. by split_and!.
  - injection Hc as <- <- <-. exists c. rewrite Hpub. split; [|done].
    destruct o1; naive_solver.
Qed.

End FacadeProps.

(** ** Commits over the in-memory store *)

Section MemoryCommit.
Context {HH : Hickory}.
Implicit Types (f : CacheFacade MemoryCacheStore).

Lemma purge_loads st k now : loads (purge st k now) = loads st.
Proof. unfold purge. destruct (records st !! k); [|done]. by destruct (is_visible _ _). Qed.

Lemma cas_loads s k c e d t0 now :
  limit_ok s -> loads (state (compare_and_swap s k c e d t0 now).2) = loads (state s).
Proof.
  intros Hl. unfold compare_and_swap. destruct (is_expired d t0); [done|].
  destruct (shutting_down (state s)); [done|].
  rewrite <-(purge_loads (state s) k now). set (st := purge (state s) k now).
  destruct (negb _); [done|].
  destruct (match records st !! k with Some _ => _ | None => _ end); [done|].
  destruct (match max_weight s with Some _ => _ | None => _ end); [done|].
  cbn [snd state]. by destruct (enforce_capacity_records
    (set_records st (<[k := mk_record (wrap64 (next_version s + 1)) e]> (records st)))
    (max_weight s) Hl) as (_ & _ & _ & -> & _).
Qed.

Lemma write_response_loads f q t0 t1 :
  limit_ok (fc_store f) ->
  limit_ok (fc_store (write_response f q t0 t1).2) /\
  loads (state (fc_store (write_response f q t0 t1).2)) = loads (state (fc_store f)).
Proof.
  intros Hl. unfold write_response. destruct (negb _); [done|].
  destruct (admit_response _ _ _ _ _) as [[e|]|]; [|done..].
  pose proof (cas_loads (fc_store f) (req_key q) (req_condition q) e (req_deadline q) t0 t1 Hl) as H.
  pose proof (memory_cas_law (fc_store f) (req_key q) (req_condition q) e (req_deadline q) t0 t1) as H2.
  simpl. destruct (compare_and_swap _ _ _ _ _ _ _) as [r s']. specialize (H2 r s' Hl eq_refl).
  destruct r; by split; [apply H2|].
Qed.

Lemma commit_write_loads f q ck :
  limit_ok (fc_store f) ->
  loads (state (fc_store (commit_write f q ck).2)) = loads (state (fc_store f)).
Proof.
  intros Hl. unfold commit_write.
  pose proof (write_response_loads f q (ck_w1 ck).1 (ck_w1 ck).2 Hl) as [Hl1 H1].
  destruct (write_response f q _ _) as [w f1]. simpl in *.
  destruct w as [[[| |[]|] ?|]|]; try done. destruct (req_condition q); [done|].
  rewrite <-H1. by apply write_response_loads.
Qed.

(** Whatever becomes of the write (stored, conflict, rejection or store
    failure), a commit always settles the load it leads: every waiting task is
    woken and the load is removed or holds a completion for its followers. *)
Theorem commit_settles_load f q gen timeout ck l o woken f' :
  limit_ok (fc_store f) ->
  loads (state (fc_store f)) !! req_key q = Some l ->
  generation l = gen -> completion l = None ->
  commit f q gen timeout ck = (o, woken, f') ->
  woken = waiters l /\
  loads (state (fc_store f')) !! req_key q =
    (if followers l =? 0 then None
     else Some (mk_load gen
       (Some (commit_completion
         (commit_write f (with_deadline q (ck_start ck + timeout)) ck).1 (ck_fresh ck)).2)
       (followers l) [])) /\
  o = (commit_completion
         (commit_write f (with_deadline q (ck_start ck + timeout)) ck).1 (ck_fresh ck)).1.
Proof.
  intros Hl Hload <- Hcomp. unfold commit. set (q' := with_deadline q _).
  pose proof (commit_write_loads f q' ck Hl) as Hfr.
  destruct (commit_write f q' ck) as [w f1]. cbn [fst snd] in *.
  destruct (commit_completion w (ck_fresh ck)) as [o1 c].
  unfold facade_publish_load. cbn [cs_publish memory_store_ops].
  unfold publish_load, complete_load. rewrite Hfr, Hload, Hcomp, Z.eqb_refl. simpl.
  intros [= <- <- <-]. split; [done|]. split; [|done]. simpl.
  destruct (followers l =? 0); [by rewrite lookup_delete_eq|]. by rewrite lookup_insert_eq.
Qed.

(** A refresh permit lets at most one caller through. *)
Lemma try_consume_once p : (try_consume (try_consume p).2).1 = false.
Proof.
  unfold try_consume. destruct p as [k v [] []]; done.
Qed.

End MemoryCommit.

(** ** Concrete runs *)

Section FacadeWitness.
Import Sample.

Definition sample_options : CacheFacadeOptions := mk_options true true sample_policy.
Definition new_facade : CacheFacade MemoryCacheStore :=
  mk_facade (with_limit None) sample_options (mk_refresh 1 0).
Definition sample_request : CacheWriteRequest :=
  mk_request (sample_key x01) Absent (Sample.response (positive_msg 0 300)) sample_upstream
    sample_now 1 0.
Definition sample_clock : CommitClock :=
  mk_clock sample_now (sample_now, sample_now) (sample_now, sample_now) (later 1).

(** Reserve the load as leader (generation 1), then commit the answer. *)
Definition reserved_facade : CacheFacade MemoryCacheStore :=
  (facade_reserve_load new_facade (sample_key x01) far 0).2.
Definition committed_facade : CacheFacade MemoryCacheStore :=
  (commit reserved_facade sample_request 1 (from_secs 2) sample_clock).2.

Lemma new_facade_reachable : facade_reachable sample_options new_facade 0.
Proof. apply (fr_new _ _ (Some 1)); try done. by intros n [= <-]. Qed.

Lemma reserved_facade_reachable : facade_reachable sample_options reserved_facade 0.
Proof.
  eapply (fr_reserve _ new_facade 0 (sample_key x01) far 0); [apply new_facade_reachable|].
  apply surjective_pairing.
Qed.

Lemma committed_facade_reachable : facade_reachable sample_options committed_facade 0.
Proof.
  unfold committed_facade.
  destruct (commit reserved_facade sample_request 1 (from_secs 2) sample_clock)
    as [[o w] f'] eqn:E.
  exact (fr_commit _ _ _ _ _ _ _ _ _ _ reserved_facade_reachable E).
Qed.

Lemma facade_invariant_witness :
  in_flight (fc_refresh committed_facade) = 0 /\
  size (records (state (fc_store committed_facade))) = 1%nat.
Proof.
  split; [|by vm_compute].
  apply (facade_invariant (HH := hickory) sample_options committed_facade 0 sample_policy_wf
    committed_facade_reachable).
Defined.

(** Between expiry (300 s) and the end of the stale window the record is served
    stale, and the permit carries version 1. *)
Lemma lookup_at_spec_witness :
  exists r p f', lookup_at committed_facade (sample_key x01) far (later 400) 0 (later 400) =
    (Ok (LkStale r p), f') /\ permit_version p = version r.
Proof.
  destruct (lookup_at committed_facade (sample_key x01) far (later 400) 0 (later 400))
    as [res f'] eqn:E.
  assert (K : match res with Ok (LkStale _ _) => true | _ => false end = true).
  { change res with (res, f').1. rewrite <-E. by vm_compute. }
  destruct res as [[| | |r p| |]|]; try discriminate K. exists r, p, f'. split; [done|].
  apply (lookup_at_spec (HH := hickory) sample_options committed_facade 0 (sample_key x01) far
    (later 400) 0 (later 400) _ f' sample_policy_wf committed_facade_reachable E).
Defined.

Lemma commit_spec_witness :
  exists w, (commit reserved_facade sample_request 1 (from_secs 2) sample_clock).1.1 = CoStored /\
    (forall rec, w <> Ok (WrStored (Conflict None) rec)) /\
    w = (commit_write reserved_facade (with_deadline sample_request (sample_now + from_secs 2))
           sample_clock).1.
Proof.
  destruct (commit reserved_facade sample_request 1 (from_secs 2) sample_clock)
    as [[o wk] f'] eqn:E.
  destruct (commit_spec (HH := hickory) sample_options reserved_facade 0 sample_request 1
    (from_secs 2) sample_clock o wk f' sample_policy_wf reserved_facade_reachable E)
    as (w & f1 & Hw & Hn & _).
  exists w. split; [|split; [done|]].
  - change o with (o, wk, f').1.1. rewrite <-E. by vm_compute.
  - change w with (w, f1).1. by rewrite <-Hw.
Defined.

Lemma commit_settles_load_witness :
  loads (state (fc_store committed_facade)) !! sample_key x01 = None.
Proof.
  destruct (commit reserved_facade sample_request 1 (from_secs 2) sample_clock)
    as [[o wk] f'] eqn:E.
  assert (Hf : committed_facade = f') by (unfold committed_facade; by rewrite E).
  rewrite Hf.
  destruct (commit_settles_load (HH := hickory) reserved_facade sample_request 1 (from_secs 2)
    sample_clock (mk_load 1 None 0 []) o wk f') as (_ & H & _).
  - done.
  - apply lookup_insert_eq.
  - done.
  - done.
  - done.
  - exact H.
Defined.

End FacadeWitness.
