(* ===== verification/Text.v ===== *)
(** * Rust strings as sequences of characters

    The parsers (resource/rules.rs, resource/hosts.rs, cache/codec.rs) work on
    [&str] values character by character. A [str] is its list of Unicode scalar
    values; the operations of the standard library the sources use on them (UTF-8,
    [trim], [split], [lines], case mapping) are defined here. *)

From S2P Require Import Prelude.

Abbreviation chars := (list Z) (only parsing).

(** ** UTF-8 *)

(** The values of [char]: code points that are not surrogates. *)
Definition is_scalar (c : Z) : bool :=
  ((0 <=? c) && (c <? 0xD800)) || ((0xE000 <=? c) && (c <=? 0x10FFFF)).

Definition utf8_char (c : Z) : list byte :=
  if c <? 0x80 then [byte_of_Z c]
  else if c <? 0x800 then [byte_of_Z (0xC0 + c / 64); byte_of_Z (0x80 + c mod 64)]
  else if c <? 0x10000 then
    [byte_of_Z (0xE0 + c / 4096); byte_of_Z (0x80 + c / 64 mod 64); byte_of_Z (0x80 + c mod 64)]
  else
    [byte_of_Z (0xF0 + c / 262144); byte_of_Z (0x80 + c / 4096 mod 64);
     byte_of_Z (0x80 + c / 64 mod 64); byte_of_Z (0x80 + c mod 64)].

Definition utf8_encode (s : chars) : list byte := s ≫= utf8_char.

(** [str::len]. *)
Definition text_len (s : chars) : Z := bytes_len (utf8_encode s).

Definition is_cont (b : byte) : bool := (0x80 <=? byte_to_Z b) && (byte_to_Z b <? 0xC0).
Definition cont (b : byte) : Z := byte_to_Z b - 0x80.

(** [str::from_utf8]: shortest forms only, no surrogates, at most 0x10FFFF. *)
Fixpoint utf8_decode (l : list byte) : option chars :=
  match l with
  | [] => Some []
  | b0 :: l1 =>
    let z := byte_to_Z b0 in
    if z <? 0x80 then cons z <$> utf8_decode l1
    else if z <? 0xC0 then None
    else if z <? 0xE0 then
      match l1 with
      | b1 :: l2 =>
        let c := (z - 0xC0) * 64 + cont b1 in
        if is_cont b1 && (0x80 <=? c) then cons c <$> utf8_decode l2 else None
      | _ => None
      end
    else if z <? 0xF0 then
      match l1 with
      | b1 :: b2 :: l3 =>
        let c := (z - 0xE0) * 4096 + cont b1 * 64 + cont b2 in
        if is_cont b1 && is_cont b2 && (0x800 <=? c) && is_scalar c
        then cons c <$> utf8_decode l3 else None
      | _ => None
      end
    else
      match l1 with
      | b1 :: b2 :: b3 :: l4 =>
        let c := (z - 0xF0) * 262144 + cont b1 * 4096 + cont b2 * 64 + cont b3 in
        if is_cont b1 && is_cont b2 && is_cont b3 && (0x10000 <=? c) && is_scalar c
        then cons c <$> utf8_decode l4 else None
      | _ => None
      end
  end.

(** ** Characters *)

(** [char::is_whitespace]. *)
Definition is_whitespace (c : Z) : bool :=
  ((9 <=? c) && (c <=? 13)) || (c =? 32) || (c =? 0x85) || (c =? 0xA0) || (c =? 0x1680) ||
  ((0x2000 <=? c) && (c <=? 0x200A)) || (c =? 0x2028) || (c =? 0x2029) || (c =? 0x202F) ||
  (c =? 0x205F) || (c =? 0x3000).

Definition ascii_lower (c : Z) : Z := if (65 <=? c) && (c <=? 90) then c + 32 else c.
Definition ascii_upper (c : Z) : Z := if (97 <=? c) && (c <=? 122) then c - 32 else c.
Definition to_ascii_lowercase : chars -> chars := map ascii_lower.
Definition to_ascii_uppercase : chars -> chars := map ascii_upper.

(** An ASCII literal of the source. *)
Definition lit (s : string) : chars := map byte_to_Z (str_bytes s).

(** ** Slicing *)

Fixpoint drop_while (p : Z -> bool) (s : chars) : chars :=
  match s with
  | c :: s' => if p c then drop_while p s' else s
  | [] => []
  end.

(** [str::trim]. *)
Definition trim (s : chars) : chars :=
  reverse (drop_while is_whitespace (reverse (drop_while is_whitespace s))).

(** [str::split(sep)]: one piece more than separators. *)
Fixpoint split_on (sep : Z) (s : chars) : list chars :=
  match s with
  | [] => [[]]
  | c :: s' =>
    if c =? sep then [] :: split_on sep s'
    else match split_on sep s' with
         | p :: ps => (c :: p) :: ps
         | [] => [[c]]
         end
  end.

(** [str::split_once(sep)], the part before the first separator. *)
Fixpoint before_first (sep : Z) (s : chars) : chars :=
  match s with
  | [] => []
  | c :: s' => if c =? sep then [] else c :: before_first sep s'
  end.

(** [[str]::join]. *)
Fixpoint join (sep : chars) (ps : list chars) : chars :=
  match ps with
  | [] => []
  | [p] => p
  | p :: ps' => p ++ sep ++ join sep ps'
  end.

(** [str::strip_prefix] and [starts_with]. *)
Fixpoint strip_prefix (pre s : chars) : option chars :=
  match pre, s with
  | [], _ => Some s
  | p :: pre', c :: s' => if p =? c then strip_prefix pre' s' else None
  | _ :: _, [] => None
  end.
Definition starts_with (pre s : chars) : bool := bool_decide (is_Some (strip_prefix pre s)).

(** [str::contains] of a substring. *)
Fixpoint contains_sub (needle s : chars) : bool :=
  starts_with needle s || match s with [] => false | _ :: s' => contains_sub needle s' end.

(** [str::lines]: pieces ended by a line feed, which is removed together with a
    carriage return before it; no empty last piece. *)
Definition strip_cr (rev_line : chars) : chars :=
  match rev_line with
  | 13 :: r => reverse r
  | r => reverse r
  end.
Fixpoint lines_from (rev_line : chars) (s : chars) : list chars :=
  match s with
  | [] => match rev_line with [] => [] | r => [reverse r] end
  | c :: s' => if c =? 10 then strip_cr rev_line :: lines_from [] s'
               else lines_from (c :: rev_line) s'
  end.
Definition lines (s : chars) : list chars := lines_from [] s.

(** [str::split_whitespace]. *)
Fixpoint words_from (rev_word : chars) (s : chars) : list chars :=
  match s with
  | [] => match rev_word with [] => [] | r => [reverse r] end
  | c :: s' =>
    if is_whitespace c then
      match rev_word with [] => words_from [] s' | r => reverse r :: words_from [] s' end
    else words_from (c :: rev_word) s'
  end.
Definition split_whitespace (s : chars) : list chars := words_from [] s.

(** ** Facts *)

Lemma is_scalar_spec c :
  is_scalar c = true <-> (0 <= c < 0xD800 \/ 0xE000 <= c <= 0x10FFFF).
Proof. unfold is_scalar. lia. Qed.

Lemma byte_of_Z_to z : 0 <= z < 256 -> byte_to_Z (byte_of_Z z) = z.
Proof. intros. rewrite byte_to_of_Z. by apply Z.mod_small. Qed.

Lemma byte_of_Z_eq b z : z = byte_to_Z b -> byte_of_Z z = b.
Proof. intros ->. apply byte_of_to_Z. Qed.

Ltac bool_true :=
  repeat match goal with
  | |- context[?a <? ?b] => first [rewrite (proj2 (Z.ltb_lt a b)) by lia
                                  |rewrite (proj2 (Z.ltb_ge a b)) by lia]
  | |- context[?a <=? ?b] => first [rewrite (proj2 (Z.leb_le a b)) by lia
                                   |rewrite (proj2 (Z.leb_gt a b)) by lia]
  end.

Lemma utf8_char_decode c rest :
  is_scalar c = true -> utf8_decode (utf8_char c ++ rest) = cons c <$> utf8_decode rest.
Proof.
  intros Hc. pose proof Hc as Hs. apply is_scalar_spec in Hc. unfold utf8_char.
  pose proof (Z.div_mod c 64). pose proof (Z.mod_pos_bound c 64).
  pose proof (Z.div_mod (c / 64) 64). pose proof (Z.mod_pos_bound (c / 64) 64).
  pose proof (Z.div_mod (c / 64 / 64) 64). pose proof (Z.mod_pos_bound (c / 64 / 64) 64).
  assert (E2 : c / 4096 = c / 64 / 64) by (by rewrite Z.div_div).
  assert (E3 : c / 262144 = c / 64 / 64 / 64) by (by rewrite !Z.div_div).
  rewrite E3, E2.
  destruct (Z.ltb_spec c 0x80); [|destruct (Z.ltb_spec c 0x800);
    [|destruct (Z.ltb_spec c 0x10000)]]; cbn [app utf8_decode]; unfold is_cont, cont;
    rewrite !byte_of_Z_to by lia; bool_true.
  - done.
  - cbn. by replace ((192 + c / 64 - 192) * 64 + (128 + c mod 64 - 128)) with c by lia.
  - cbn. replace ((224 + c / 64 / 64 - 224) * 4096 + (128 + (c / 64) mod 64 - 128) * 64 +
      (128 + c mod 64 - 128)) with c by lia. bool_true. by rewrite Hs.
  - cbn. replace ((240 + c / 64 / 64 / 64 - 240) * 262144 + (128 + (c / 64 / 64) mod 64 - 128) * 4096
      + (128 + (c / 64) mod 64 - 128) * 64 + (128 + c mod 64 - 128)) with c by lia.
    bool_true. by rewrite Hs.
Qed.

(** Decoding inverts encoding. *)
Lemma utf8_decode_encode s :
  Forall (fun c => is_scalar c = true) s -> utf8_decode (utf8_encode s) = Some s.
Proof.
  induction 1 as [|c s Hc _ IH]; [done|]. unfold utf8_encode. cbn.
  rewrite utf8_char_decode by done. unfold utf8_encode in IH. by rewrite IH.
Qed.

(** ** Splitting *)

Lemma split_on_cases sep s :
  ((sep ∉ s) /\ split_on sep s = [s]) \/
  exists l s', s = l ++ sep :: s' /\ (sep ∉ l) /\ split_on sep s = l :: split_on sep s'.
Proof.
  induction s as [|c s IH]; cbn [split_on].
  { left. split; [set_solver|done]. }
  destruct (Z.eqb_spec c sep) as [->|Hne].
  { right. exists [], s. split; [done|]. split; [set_solver|done]. }
  destruct IH as [[Hn E]|(l & s' & -> & Hl & E)]; rewrite E.
  - left. split; [set_solver|done].
  - right. exists (c :: l), s'. split; [done|]. split; [set_solver|done].
Qed.

Lemma split_on_nonempty sep s : split_on sep s <> [].
Proof. destruct (split_on_cases sep s) as [[_ ->]|(? & ? & _ & _ & ->)]; done. Qed.

Lemma join_cons sep p ps : ps <> [] -> join sep (p :: ps) = p ++ sep ++ join sep ps.
Proof. by destruct ps. Qed.

Lemma join_split sep s : join [sep] (split_on sep s) = s.
Proof.
  induction s as [s IH] using (induction_ltof1 _ (@length Z)).
  destruct (split_on_cases sep s) as [[_ ->]|(l & s' & -> & _ & ->)]; [done|].
  rewrite join_cons by apply split_on_nonempty. rewrite IH; [done|].
  unfold ltof. rewrite length_app. cbn. lia.
Qed.

(** The separators of a text are the first one or those of the rest. *)
Lemma split_at_first (sep : Z) (l s p2 s2 : chars) :
  sep ∉ l -> l ++ sep :: s = p2 ++ sep :: s2 ->
  (p2 = l /\ s2 = s) \/ exists p3, p2 = l ++ sep :: p3 /\ s = p3 ++ sep :: s2.
Proof.
  revert p2. induction l as [|c l IH]; intros p2 Hl H.
  - destruct p2 as [|d p2]; injection H; [auto|]. intros -> ->. right. by exists p2.
  - destruct p2 as [|d p2]; injection H as -> H; [set_solver|].
    destruct (IH p2) as [[-> ->]|(p3 & -> & ->)]; [set_solver|done|auto|]. right. by exists p3.
Qed.

Lemma strip_prefix_spec pre s r : strip_prefix pre s = Some r <-> s = pre ++ r.
Proof.
  revert s. induction pre as [|p pre IH]; intros s; cbn [strip_prefix].
  { split; [intros [= <-]|intros ->]; done. }
  destruct s as [|c s]; [done|]. destruct (Z.eqb_spec p c) as [->|Hne].
  - rewrite IH. split; [by intros ->|by intros [= ->]].
  - split; [done|]. intros [= -> _]. done.
Qed.

Lemma starts_with_spec pre s : starts_with pre s = true <-> exists r, s = pre ++ r.
Proof.
  unfold starts_with. rewrite bool_decide_eq_true. unfold is_Some.
  by setoid_rewrite strip_prefix_spec.
Qed.

Lemma contains_sub_spec k s : contains_sub k s = true <-> exists a b, s = a ++ k ++ b.
Proof.
  induction s as [|c s IH]; cbn [contains_sub]; rewrite orb_true_iff, starts_with_spec.
  - split.
    + intros [[r ->]|?]; [by exists [], r|done].
    + intros ([|] & b & H); [by left; exists b|done].
  - rewrite IH. split.
    + intros [[r E]|(a & b & ->)]; [by exists [], r|by exists (c :: a), b].
    + intros ([|x a] & b & E); [left; eauto|]. right. injection E as -> ->. eauto.
Qed.
