(* ===== verification/Regex.v ===== *)
(** * The restricted regular expressions of rule sets (src/backend/src/resource/rules.rs)

    The compiler [CompiledRegex::compile], the memoised backtracking matcher
    [match_here], and their meaning: a match is a factorisation of the text into
    one run per token. *)

From S2P Require Import Prelude Text.

Inductive RegexAtom :=
| Literal (c : Z)
| Any
| Class_ (ranges : list (Z * Z)) (negated : bool).

Record RegexToken := mk_token {
  atom : RegexAtom;
  tmin : nat;
  tmax : option nat
}.

Record CompiledRegex := mk_regex {
  anchored_start : bool;
  anchored_end : bool;
  tokens : list RegexToken
}.

Inductive RegexCompileError := RxInvalid | RxUnsupported | RxTooLarge.

(** ** Compilation *)

(** [is_escaped(chars, position)]: an odd number of backslashes ends just before
    [position]; the argument is the reversed prefix. *)
Fixpoint leading_slashes (rev_prefix : chars) : nat :=
  match rev_prefix with
  | c :: r => if c =? 92 then S (leading_slashes r) else O
  | [] => O
  end.
Definition is_escaped (cs : chars) (position : nat) : bool :=
  Nat.odd (leading_slashes (reverse (take position cs))).

(** One round of [parse_class]: a character, escaped or not, and the range it
    may start. *)
Definition class_item (cs : chars) (position : nat) (c : Z) :
    result RegexCompileError (Z * Z * nat) :=
  '(first, position) ←
    (if c =? 92 then escaped ← ok_or RxInvalid (cs !! S position); Ok (escaped, S (S position))
     else Ok (c, S position));
  if bool_decide (cs !! position = Some 45) && negb (bool_decide (cs !! S position = Some 93))
  then
    hi ← ok_or RxInvalid (cs !! S position);
    if hi <? first then Err RxInvalid else Ok (first, hi, S (S position))
  else Ok (first, first, position).

(** The loop of [parse_class]: the ranges read and where it stopped. Each round
    consumes a character, so [S (length cs)] rounds are enough. *)
Fixpoint class_loop (fuel : nat) (cs : chars) (stop position : nat) (ranges : list (Z * Z)) :
    result RegexCompileError (list (Z * Z) * nat) :=
  match fuel with
  | O => Err RxInvalid
  | S fuel' =>
    match (if (position <? stop)%nat then cs !! position else None) with
    | None => Ok (ranges, position)
    | Some c =>
      if c =? 93 then Ok (ranges, position)
      else
        '(range, position) ← class_item cs position c;
        class_loop fuel' cs stop position (ranges ++ [range])
    end
  end.

Definition parse_class (cs : chars) (start stop : nat) :
    result RegexCompileError (RegexAtom * nat) :=
  let position := S start in
  let negated := bool_decide (cs !! position = Some 94) in
  let position := if negated then S position else position in
  '(ranges, position) ← class_loop (S (length cs)) cs stop position [];
  if bool_decide (ranges = []) || (stop <=? position)%nat ||
     negb (bool_decide (cs !! position = Some 93)) then Err RxInvalid
  else Ok (Class_ ranges negated, S position).

(** The first match of the compile loop: one atom and the position after it. *)
Definition parse_atom (cs : chars) (stop position : nat) (c : Z) :
    result RegexCompileError (RegexAtom * nat) :=
  if (c =? 94) || (c =? 36) || (c =? 40) || (c =? 41) || (c =? 124) then Err RxUnsupported
  else if c =? 46 then Ok (Any, S position)
  else if c =? 91 then parse_class cs position stop
  else if c =? 92 then
    escaped ← ok_or RxInvalid (cs !! S position);
    let next := S (S position) in
    if escaped =? 100 then Ok (Class_ [(48, 57)] false, next)
    else if escaped =? 119 then Ok (Class_ [(48, 57); (65, 90); (95, 95); (97, 122)] false, next)
    else if escaped =? 115 then Ok (Class_ [(9, 9); (32, 32)] false, next)
    else Ok (Literal escaped, next)
  else Ok (Literal c, S position).

(** The second match: the repetition that follows an atom. *)
Definition parse_repeat (cs : chars) (position : nat) :
    result RegexCompileError (nat * option nat * nat) :=
  match cs !! position with
  | Some c =>
    if c =? 42 then Ok (0%nat, None, S position)
    else if c =? 43 then Ok (1%nat, None, S position)
    else if c =? 63 then Ok (0%nat, Some 1%nat, S position)
    else if c =? 123 then Err RxUnsupported
    else Ok (1%nat, Some 1%nat, position)
  | None => Ok (1%nat, Some 1%nat, position)
  end.

(** [while position < end]; every round moves [position] forward. *)
Fixpoint compile_loop (fuel : nat) (cs : chars) (stop max_program position : nat)
    (toks : list RegexToken) : result RegexCompileError (list RegexToken) :=
  match fuel with
  | O => Err RxInvalid
  | S fuel' =>
    match (if (position <? stop)%nat then cs !! position else None) with
    | None => Ok toks
    | Some c =>
      '(a, position) ← parse_atom cs stop position c;
      '(mn, mx, position) ← parse_repeat cs position;
      let toks := toks ++ [mk_token a mn mx] in
      if (max_program <? length toks)%nat then Err RxTooLarge
      else compile_loop fuel' cs stop max_program position toks
    end
  end.

Definition compile (pattern : chars) (max_program : nat) :
    result RegexCompileError CompiledRegex :=
  match pattern with
  | [] => Err RxInvalid
  | first :: _ =>
    let n := length pattern in
    let a_start := first =? 94 in
    let a_end := bool_decide (list.last pattern = Some 36) && negb (is_escaped pattern (n - 1)) in
    let stop := if a_end then (n - 1)%nat else n in
    toks ← compile_loop (S n) pattern stop max_program (if a_start then 1%nat else 0%nat) [];
    if bool_decide (toks = []) then Err RxInvalid
    else Ok (mk_regex a_start a_end toks)
  end.

(** ** Matching *)

Definition atom_matches (a : RegexAtom) (c : Z) : bool :=
  match a with
  | Literal expected => expected =? c
  | Any => true
  | Class_ ranges negated =>
    let matched := existsb (fun '(lo, hi) => (lo <=? c) && (c <=? hi)) ranges in
    if negated then negb matched else matched
  end.

(** The positions one token can reach, greedily: the loop that fills
    [positions]. *)
Fixpoint extend (fuel : nat) (t : RegexToken) (text : chars) (positions : list nat) : list nat :=
  match fuel with
  | O => positions
  | S fuel' =>
    if match tmax t with None => true | Some m => (length positions - 1 <? m)%nat end
    then match list.last positions ≫= (fun p => text !! p) with
         | Some c => if atom_matches (atom t) c
                     then extend fuel' t text (positions ++ [S (default O (list.last positions))])
                     else positions
         | None => positions
         end
    else positions
  end.

(** [for count in (min..=max_count).rev()], stopping at the first success. *)
Fixpoint try_counts (f : nat -> gset (nat * nat) -> bool * gset (nat * nat))
    (counts : list nat) (failed : gset (nat * nat)) : bool * gset (nat * nat) :=
  match counts with
  | [] => (false, failed)
  | n :: counts' =>
    let '(ok, failed) := f n failed in
    if ok then (true, failed) else try_counts f counts' failed
  end.

(** [match_here]: [fuel] bounds the number of remaining tokens. *)
Fixpoint match_here (fuel : nat) (toks : list RegexToken) (token_index char_index : nat)
    (text : chars) (a_end : bool) (failed : gset (nat * nat)) : bool * gset (nat * nat) :=
  match toks !! token_index with
  | None => (negb a_end || (char_index =? length text)%nat, failed)
  | Some t =>
    match fuel with
    | O => (false, failed)
    | S fuel' =>
      if bool_decide ((token_index, char_index) ∈ failed) then (false, failed)
      else
        let positions := extend (length text) t text [char_index] in
        let max_count := (length positions - 1)%nat in
        let counts := reverse (seq (tmin t) (S max_count - tmin t)) in
        let '(ok, failed) := try_counts (fun count failed =>
            match_here fuel' toks (S token_index) (default O (positions !! count)) text a_end failed)
          counts failed in
        if ok then (true, failed) else (false, {[ (token_index, char_index) ]} ∪ failed)
    end
  end.

Definition is_match (r : CompiledRegex) (text : chars) : bool :=
  let starts := if anchored_start r then [0%nat] else seq 0 (S (length text)) in
  existsb (fun start =>
    (match_here (length (tokens r)) (tokens r) 0 start text (anchored_end r) ∅).1) starts.

Example compile_host :
  match compile (lit "^ads?[0-9]+\.example\.com$") 64 with
  | Ok r => is_match r (lit "ad12.example.com") && negb (is_match r (lit "ads.example.com"))
            && negb (is_match r (lit "xad1.example.com"))
  | Err _ => false
  end = true.
Proof. by vm_compute. Qed.

(** Inside a class an escaped letter stands for itself. *)
Example class_escape_is_literal :
  match compile (lit "[\d]") 64, compile (lit "\d") 64 with
  | Ok r1, Ok r2 => (is_match r1 (lit "5"), is_match r1 (lit "d"), is_match r2 (lit "5"))
  | _, _ => (true, false, false)
  end = (false, true, true).
Proof. by vm_compute. Qed.

(** ** Meaning *)

Inductive tokens_match (a_end : bool) : list RegexToken -> chars -> Prop :=
| tm_done rest : (a_end = true -> rest = []) -> tokens_match a_end [] rest
| tm_token t ts run rest :
    Forall (fun c => atom_matches (atom t) c = true) run ->
    (tmin t <= length run)%nat -> (forall m, tmax t = Some m -> (length run <= m)%nat) ->
    tokens_match a_end ts rest -> tokens_match a_end (t :: ts) (run ++ rest).

(** [r] matches somewhere in [text], at the start if anchored there. *)
Definition regex_matches (r : CompiledRegex) (text : chars) : Prop :=
  exists before after, text = before ++ after /\
    (anchored_start r = true -> before = []) /\
    tokens_match (anchored_end r) (tokens r) after.

(** [j] characters of [s] can be consumed by the token, ignoring its minimum. *)
Definition reach (t : RegexToken) (s : chars) (j : nat) : Prop :=
  (j <= length s)%nat /\ (forall m, tmax t = Some m -> (j <= m)%nat) /\
  Forall (fun c => atom_matches (atom t) c = true) (take j s).

Lemma reach_down t s i j : (i <= j)%nat -> reach t s j -> reach t s i.
Proof.
  intros Hij (H1 & H2 & H3). split; [lia|]. split.
  - intros m Hm. specialize (H2 m Hm). lia.
  - rewrite <-(take_drop i (take j s)), Forall_app in H3. destruct H3 as [H3 _].
    rewrite take_take in H3. by replace (Nat.min i j) with i in H3 by lia.
Qed.

Lemma reach_S t s k :
  reach t s (S k) <-> reach t s k /\
    (match tmax t with None => true | Some m => (k <? m)%nat end = true) /\
    exists c, s !! k = Some c /\ atom_matches (atom t) c = true.
Proof.
  split.
  - intros Hr. split; [by eapply reach_down; [|exact Hr]; lia|]. destruct Hr as (H1 & H2 & H3).
    split.
    { destruct (tmax t) as [m|]; [|done]. apply Nat.ltb_lt. specialize (H2 m eq_refl). lia. }
    destruct (lookup_lt_is_Some_2 s k H1) as [c Hc]. exists c. split; [done|].
    rewrite (take_S_r _ _ _ Hc), Forall_app in H3. destruct H3 as [_ H3]. by inversion H3.
  - intros ((H1 & H2 & H3) & Hm & c & Hc & Ha). pose proof (lookup_lt_Some _ _ _ Hc).
    split; [lia|]. split.
    + intros m E. rewrite E in Hm. apply Nat.ltb_lt in Hm. lia.
    + rewrite (take_S_r _ _ _ Hc), Forall_app. auto.
Qed.

Lemma last_seq ci k : list.last (seq ci (S k)) = Some (ci + k)%nat.
Proof. rewrite seq_S. apply last_snoc. Qed.

(** The position loop reaches exactly the counts that [reach] allows. *)
Lemma extend_spec fuel t text ci k :
  reach t (drop ci text) k -> (length text <= fuel + k)%nat ->
  exists n, extend fuel t text (seq ci (S k)) = seq ci (S n) /\
    forall j, reach t (drop ci text) j <-> (j <= n)%nat.
Proof.
  revert k. induction fuel as [|fuel IH]; intros k Hk Hfuel.
  - exists k. split; [done|]. intros j. split; [|intros; by eapply reach_down].
    intros (Hj & _). rewrite length_drop in Hj. simpl in Hfuel. lia.
  - cbn [extend].
    assert (Hstop : ~ reach t (drop ci text) (S k) ->
      forall j, reach t (drop ci text) j <-> (j <= k)%nat).
    { intros Hno j. split; [|intros; by eapply reach_down]. intros Hj.
      destruct (decide (j <= k)%nat); [done|]. destruct Hno. eapply reach_down; [|exact Hj]. lia. }
    rewrite reach_S in Hstop. rewrite last_seq, length_seq.
    replace (S k - 1)%nat with k by lia. cbn [mbind option_bind default].
    rewrite lookup_drop in Hstop.
    destruct (match tmax t with None => true | Some m => (k <? m)%nat end) eqn:Hm.
    2: { exists k. split; [done|]. apply Hstop. by intros (_ & ? & _). }
    destruct (text !! (ci + k)%nat) as [c|] eqn:Hc.
    2: { exists k. split; [done|]. apply Hstop. by intros (_ & _ & c & ? & _). }
    destruct (atom_matches (atom t) c) eqn:Ha.
    2: { exists k. split; [done|]. apply Hstop. intros (_ & _ & c' & [= <-] & ?). congruence. }
    change (id (ci + k)%nat) with (ci + k)%nat.
    replace (seq ci (S k) ++ [S (ci + k)]) with (seq ci (S (S k))).
    2: { rewrite (seq_S (S k)). do 2 f_equal. lia. }
    apply IH; [|lia]. apply reach_S. rewrite lookup_drop. eauto.
Qed.

Lemma tokens_match_nil a_end s : tokens_match a_end [] s <-> (a_end = true -> s = []).
Proof. split; [by inversion 1|by constructor]. Qed.

Lemma tokens_match_cons a_end t ts s :
  tokens_match a_end (t :: ts) s <->
  exists j, (tmin t <= j)%nat /\ reach t s j /\ tokens_match a_end ts (drop j s).
Proof.
  split.
  - inversion 1 as [|? ? run rest Hall Hmin Hmax Hrest]; subst. exists (length run).
    split; [done|]. split.
    + split; [rewrite length_app; lia|]. split; [done|]. by rewrite take_app_length.
    + by rewrite drop_app_length.
  - intros (j & Hmin & (Hlen & Hmax & Hall) & Hrest). rewrite <-(take_drop j s).
    constructor; try done; rewrite length_take_le by done; auto.
Qed.

Section Matching.
Context (toks : list RegexToken) (text : chars) (a_end : bool).

Definition here (ti ci : nat) : Prop := tokens_match a_end (drop ti toks) (drop ci text).

(** The memo set only holds positions where matching fails. *)
Definition memo_sound (failed : gset (nat * nat)) : Prop :=
  forall ti ci, (ti, ci) ∈ failed -> ~ here ti ci.

Lemma try_counts_spec f (P : nat -> Prop) counts failed :
  (forall n fl, n ∈ counts -> memo_sound fl ->
     memo_sound (f n fl).2 /\ ((f n fl).1 = true <-> P n)) ->
  memo_sound failed ->
  memo_sound (try_counts f counts failed).2 /\
  ((try_counts f counts failed).1 = true <-> exists n, n ∈ counts /\ P n).
Proof.
  revert failed. induction counts as [|n counts IH]; intros failed Hf Hs; cbn [try_counts].
  { split; [done|]. split; [done|]. intros (n & Hn & _). set_solver. }
  destruct (Hf n failed) as [Hs1 H1]; [set_solver|done|].
  destruct (f n failed) as [ok fl]. cbn [fst snd] in *. destruct ok.
  - split; [done|]. split; [|done]. intros _. exists n. split; [set_solver|by apply H1].
  - destruct (IH fl) as [Hs2 H2]; [|done|].
    { intros m fl' Hm. apply Hf. set_solver. }
    split; [done|]. rewrite H2. split.
    + intros (m & ? & ?). exists m. set_solver.
    + intros (m & [->|Hm]%elem_of_cons & HP); [apply H1 in HP; done|eauto].
Qed.

Lemma match_here_spec fuel ti ci failed :
  (length toks <= fuel + ti)%nat -> (ci <= length text)%nat -> memo_sound failed ->
  let '(ok, failed') := match_here fuel toks ti ci text a_end failed in
  memo_sound failed' /\ (ok = true <-> here ti ci).
Proof.
  revert ti ci failed. induction fuel as [|fuel IH]; intros ti ci failed Hfuel Hci Hs.
  all: cbn [match_here]; unfold here; destruct (toks !! ti) as [t|] eqn:Ht.
  1: { apply lookup_lt_Some in Ht. simpl in Hfuel. lia. }
  1, 3: apply lookup_ge_None in Ht; rewrite (drop_ge toks) by done;
    rewrite tokens_match_nil; (split; [done|]); rewrite orb_true_iff, negb_true_iff, Nat.eqb_eq;
    split; [intros [-> | ->]; [done|by rewrite drop_all] |];
    intros H; destruct a_end; [right|by left]; specialize (H eq_refl);
    apply (f_equal length) in H; rewrite length_drop in H; simpl in H; lia.
  case_bool_decide as Hmem.
  { split; [done|]. split; [done|]. intros H. by destruct (Hs ti ci Hmem). }
  destruct (extend_spec (length text) t text ci 0) as (n & Hext & Hreach).
  { split; [lia|]. split; [lia|]. constructor. }
  { lia. }
  change [ci] with (seq ci 1). rewrite Hext, length_seq.
  replace (S n - 1)%nat with n by lia.
  pose proof (try_counts_spec (fun count fl => match_here fuel toks (S ti)
      (default O (seq ci (S n) !! count)) text a_end fl)
    (fun j => here (S ti) (ci + j)) (reverse (seq (tmin t) (S n - tmin t))) failed) as Htry.
  destruct Htry as [Hs' Hok]; [|done|].
  - intros j fl Hj Hfl. rewrite elem_of_reverse, elem_of_seq in Hj.
    assert (Hle : (ci + j <= length text)%nat).
    { destruct (proj2 (Hreach j)) as [Hl _]; [lia|]. rewrite length_drop in Hl. lia. }
    rewrite lookup_seq_lt by lia. cbn [default].
    pose proof (IH (S ti) (ci + j)%nat fl) as H. specialize (H ltac:(lia) Hle Hfl).
    by destruct (match_here _ _ _ _ _ _ _).
  - assert (Hiff : here ti ci <->
      exists j, j ∈ reverse (seq (tmin t) (S n - tmin t)) /\ here (S ti) (ci + j)).
    { unfold here at 1. rewrite (drop_S _ _ _ Ht), tokens_match_cons.
      setoid_rewrite elem_of_reverse. setoid_rewrite elem_of_seq. setoid_rewrite Hreach.
      setoid_rewrite drop_drop. unfold here. split; intros (j & ? & ?); exists j; intuition lia. }
    destruct (try_counts _ _ _) as [ok fl]. cbn [fst snd] in *. rewrite <-Hiff in Hok.
    destruct ok; [done|]. split; [|done]. intros ti' ci' [Heq%elem_of_singleton|Hin]%elem_of_union; [|by apply Hs'].
    injection Heq as -> ->. by rewrite <-Hok.
Qed.

End Matching.

(** ** The matcher is correct *)

Lemma is_match_iff r text : is_match r text = true <-> regex_matches r text.
Proof.
  unfold is_match, regex_matches. rewrite existsb_exists.
  assert (Hone : forall start, (start <= length text)%nat ->
    ((match_here (length (tokens r)) (tokens r) 0 start text (anchored_end r) ∅).1 = true <->
     tokens_match (anchored_end r) (tokens r) (drop start text))).
  { intros start Hle.
    pose proof (match_here_spec (tokens r) text (anchored_end r) (length (tokens r)) 0 start ∅) as H.
    destruct (match_here _ _ _ _ _ _ _) as [ok fl].
    destruct H as [_ H]; [lia|done|by intros ? ? ?%not_elem_of_empty|]. exact H. }
  split.
  - intros (start & Hin & Hm).
    assert (Hs : (start <= length text)%nat /\ (anchored_start r = true -> start = 0%nat)).
    { destruct (anchored_start r).
      - destruct Hin as [<-|[]]. split; [lia|done].
      - apply in_seq in Hin. split; [lia|done]. }
    destruct Hs as [Hle Hz]. apply Hone in Hm; [|done].
    exists (take start text), (drop start text). split; [by rewrite take_drop|].
    split; [|done]. intros Ha. by rewrite (Hz Ha).
  - intros (before & after & -> & Ha & Hm). exists (length before). split.
    + destruct (anchored_start r); [by rewrite (Ha eq_refl); left|].
      apply in_seq. rewrite length_app. lia.
    + apply Hone; [rewrite length_app; lia|]. by rewrite drop_app_length.
Qed.

(** ** Compilation *)

Lemma class_item_next cs position c r q :
  class_item cs position c = Ok (r, q) -> (position < q)%nat.
Proof.
  unfold class_item. intros H. apply bind_ok in H as ([first p] & Hp & H).
  assert (position < p)%nat by (destruct (c =? 92); inv_ok; injection Hp; lia).
  destruct (_ && _); inv_ok; [destruct (_ <? first); [done|]|]; injection H; lia.
Qed.

Lemma class_loop_next fuel cs stop position ranges r q :
  class_loop fuel cs stop position ranges = Ok (r, q) -> (position <= q)%nat.
Proof.
  revert position ranges. induction fuel as [|fuel IH]; intros position ranges; [done|].
  cbn [class_loop]. destruct (if (position <? stop)%nat then cs !! position else None) as [c|].
  2: { intros [= _ <-]. lia. }
  destruct (c =? 93); [intros [= _ <-]; lia|]. intros ([rg p] & Hp & H)%bind_ok.
  apply class_item_next in Hp. apply IH in H. lia.
Qed.

Lemma class_loop_S fuel cs stop position ranges :
  class_loop (S fuel) cs stop position ranges =
  match (if (position <? stop)%nat then cs !! position else None) with
  | None => Ok (ranges, position)
  | Some c =>
    if c =? 93 then Ok (ranges, position)
    else
      '(range, position) ← class_item cs position c;
      class_loop fuel cs stop position (ranges ++ [range])
  end.
Proof. done. Qed.

(** Rounds beyond the remaining characters change nothing: the fuel is enough. *)
Lemma class_loop_fuel fuel cs stop position ranges :
  (length cs - position < fuel)%nat ->
  class_loop (S fuel) cs stop position ranges = class_loop fuel cs stop position ranges.
Proof.
  revert position ranges. induction fuel as [|fuel IH]; intros position ranges Hf; [lia|].
  rewrite (class_loop_S (S fuel) cs stop position ranges), (class_loop_S fuel cs stop position ranges).
  destruct (if (position <? stop)%nat then cs !! position else None) as [c|] eqn:Hc; [|done].
  assert (Hlt : (position < length cs)%nat).
  { destruct (position <? stop)%nat; [|done]. by apply lookup_lt_Some in Hc. }
  destruct (c =? 93); [done|].
  destruct (class_item cs position c) as [[rg p]|] eqn:Hp; [|done].
  apply class_item_next in Hp. cbn [mbind result_bind]. apply IH. lia.
Qed.

Lemma parse_class_next cs start stop a q :
  parse_class cs start stop = Ok (a, q) -> (start < q)%nat.
Proof.
  unfold parse_class. intros ([rs p] & Hp & H)%bind_ok. apply class_loop_next in Hp.
  destruct (_ || _); [done|]. injection H as _ <-. case_match; lia.
Qed.

Lemma parse_atom_next cs stop position c a q :
  parse_atom cs stop position c = Ok (a, q) -> (position < q)%nat.
Proof.
  unfold parse_atom. destruct (_ || _); [done|]. destruct (c =? 46); [intros [= _ <-]; lia|].
  destruct (c =? 91); [apply parse_class_next|].
  destruct (c =? 92); [|intros [= _ <-]; lia]. intros (e & _ & H)%bind_ok.
  repeat case_match; simplify_eq; lia.
Qed.

Lemma parse_repeat_next cs position mn mx q :
  parse_repeat cs position = Ok (mn, mx, q) ->
  (position <= q)%nat /\ (forall m, mx = Some m -> (mn <= m)%nat).
Proof.
  unfold parse_repeat. intros. repeat case_match; simplify_eq; split; try lia; naive_solver lia.
Qed.

Lemma compile_loop_S fuel cs stop max position toks :
  compile_loop (S fuel) cs stop max position toks =
  match (if (position <? stop)%nat then cs !! position else None) with
  | None => Ok toks
  | Some c =>
    '(a, position) ← parse_atom cs stop position c;
    '(mn, mx, position) ← parse_repeat cs position;
    let toks := toks ++ [mk_token a mn mx] in
    if (max <? length toks)%nat then Err RxTooLarge
    else compile_loop fuel cs stop max position toks
  end.
Proof. done. Qed.

Lemma compile_loop_fuel fuel cs stop max position toks :
  (length cs - position < fuel)%nat ->
  compile_loop (S fuel) cs stop max position toks = compile_loop fuel cs stop max position toks.
Proof.
  revert position toks. induction fuel as [|fuel IH]; intros position toks Hf; [lia|].
  rewrite (compile_loop_S (S fuel) cs stop max position toks),
    (compile_loop_S fuel cs stop max position toks).
  destruct (if (position <? stop)%nat then cs !! position else None) as [c|] eqn:Hc; [|done].
  assert (Hlt : (position < length cs)%nat).
  { destruct (position <? stop)%nat; [|done]. by apply lookup_lt_Some in Hc. }
  destruct (parse_atom cs stop position c) as [[a p]|] eqn:Hp; [|done].
  apply parse_atom_next in Hp. cbn [mbind result_bind].
  destruct (parse_repeat cs p) as [[[mn mx] q]|] eqn:Hq; [|done].
  apply parse_repeat_next in Hq as [Hq _]. cbn [mbind result_bind].
  cbv zeta. destruct (max <? _)%nat; [done|]. apply IH. lia.
Qed.

Lemma compile_loop_bound fuel cs stop max position toks r :
  (length toks <= max)%nat ->
  Forall (fun t => forall m, tmax t = Some m -> (tmin t <= m)%nat) toks ->
  compile_loop fuel cs stop max position toks = Ok r ->
  (length r <= max)%nat /\
  Forall (fun t => forall m, tmax t = Some m -> (tmin t <= m)%nat) r.
Proof.
  revert position toks. induction fuel as [|fuel IH]; intros position toks Hl Hf; [done|].
  cbn [compile_loop]. destruct (if (position <? stop)%nat then cs !! position else None) as [c|].
  2: { by intros [= <-]. }
  intros ([a p] & _ & H)%bind_ok. apply bind_ok in H as ([[mn mx] q] & Hq & H).
  apply parse_repeat_next in Hq as [_ Hq].
  destruct (max <? _)%nat eqn:Hmax; [done|]. apply Nat.ltb_ge in Hmax. apply IH in H; [done..|].
  apply Forall_app. split; [done|]. by constructor.
Qed.

(** *** Patterns without metacharacters *)

(** Not one of [^ $ ( ) | . [ \ * + ? {]. *)
Definition plain (c : Z) : bool :=
  forallb (fun m => negb (c =? m)) [94; 36; 40; 41; 124; 46; 91; 92; 42; 43; 63; 123].

Definition literal_token (c : Z) : RegexToken := mk_token (Literal c) 1 (Some 1%nat).

Definition literal_pattern (at_start : bool) (p : chars) (at_end : bool) : chars :=
  (if at_start then [94] else []) ++ p ++ (if at_end then [36] else []).

Lemma plain_ne c m :
  plain c = true -> In m [94; 36; 40; 41; 124; 46; 91; 92; 42; 43; 63; 123] -> (c =? m) = false.
Proof.
  intros Hp Hin. apply forallb_forall with (x := m) in Hp; [|done]. by apply negb_true_iff in Hp.
Qed.

Ltac not_meta Hp :=
  repeat match goal with
  | |- context[?c =? ?m] => rewrite (plain_ne c m Hp) by (simpl; tauto)
  end.

Lemma parse_atom_plain cs stop position c :
  plain c = true -> parse_atom cs stop position c = Ok (Literal c, S position).
Proof. intros Hp. unfold parse_atom. by not_meta Hp. Qed.

Lemma parse_repeat_plain cs position :
  (forall c, cs !! position = Some c -> plain c = true \/ c = 36) ->
  parse_repeat cs position = Ok (1%nat, Some 1%nat, position).
Proof.
  intros H. unfold parse_repeat. destruct (cs !! position) as [c|]; [|done].
  destruct (H c eq_refl) as [Hp| ->]; [by not_meta Hp|done].
Qed.

Lemma compile_loop_plain fuel pre p post max toks :
  Forall (fun c => plain c = true) p -> (post = [] \/ post = [36]) ->
  (length p < fuel)%nat -> (length toks + length p <= max)%nat ->
  compile_loop fuel (pre ++ p ++ post) (length pre + length p) max (length pre) toks =
  Ok (toks ++ map literal_token p).
Proof.
  intros Hp Hpost. revert fuel pre toks. induction Hp as [|c p Hc Hp IH]; intros fuel pre toks Hf Hm.
  - destruct fuel as [|fuel]; [simpl in Hf; lia|]. rewrite compile_loop_S.
    rewrite (proj2 (Nat.ltb_ge _ _)) by (simpl; lia). by rewrite app_nil_r.
  - destruct fuel as [|fuel]; [simpl in Hf; lia|]. simpl in Hf, Hm. rewrite compile_loop_S.
    rewrite (proj2 (Nat.ltb_lt _ _)) by (simpl; lia).
    rewrite lookup_app_r, Nat.sub_diag by lia. cbn [lookup list_lookup app].
    rewrite parse_atom_plain by done. cbn [mbind result_bind].
    rewrite parse_repeat_plain.
    2: { intros d. rewrite lookup_app_r by lia. replace (S (length pre) - length pre)%nat with 1%nat by lia.
      cbn [lookup list_lookup]. destruct Hp; [|intros [= <-]; by left].
      destruct Hpost as [-> | ->]; [done|]. intros [= <-]. by right. }
    cbn [mbind result_bind]. cbv zeta.
    rewrite (proj2 (Nat.ltb_ge _ _)) by (rewrite length_app; simpl; lia).
    specialize (IH fuel (pre ++ [c]) (toks ++ [literal_token c])).
    assert (Hpre : length (pre ++ [c]) = S (length pre)) by (rewrite length_app; simpl; lia).
    rewrite Hpre, <-!app_assoc in IH. cbn [app length map] in IH |- *.
    replace (length pre + S (length p))%nat with (S (length pre) + length p)%nat by lia.
    change (mk_token (Literal c) 1 (Some 1%nat)) with (literal_token c).
    rewrite IH; [done|lia|]. rewrite length_app. simpl. lia.
Qed.

Lemma literal_tokens_match a_end p s :
  tokens_match a_end (map literal_token p) s <->
  exists rest, s = p ++ rest /\ (a_end = true -> rest = []).
Proof.
  revert s. induction p as [|c p IH]; intros s; cbn [map].
  - rewrite tokens_match_nil. split; [eauto|]. by intros (rest & -> & ?).
  - split.
    + inversion 1 as [|? ? run rest Hall Hmin Hmax Hrest]; subst. apply IH in Hrest as (r & -> & Hr).
      simpl in Hmin. specialize (Hmax 1%nat eq_refl).
      destruct run as [|x [|]]; simpl in *; try lia. inversion_clear Hall as [|? ? Hx].
      apply Z.eqb_eq in Hx as <-. eauto.
    + intros (rest & -> & Hr). apply (tm_token _ _ _ [c]); simpl; try done.
      * constructor; [apply Z.eqb_refl|done].
      * by intros m [= <-].
      * apply IH. eauto.
Qed.

Lemma is_escaped_plain pre c post :
  plain c = true -> is_escaped (pre ++ c :: post) (S (length pre)) = false.
Proof.
  intros Hc. unfold is_escaped. replace (take (S (length pre)) (pre ++ c :: post)) with (pre ++ [c]).
  - rewrite reverse_app. cbn. by not_meta Hc.
  - rewrite take_app_ge by lia. by replace (S (length pre) - length pre)%nat with 1%nat by lia.
Qed.

Lemma compile_literal st p en max :
  Forall (fun c => plain c = true) p -> p <> [] -> (length p <= max)%nat ->
  compile (literal_pattern st p en) max = Ok (mk_regex st en (map literal_token p)).
Proof.
  intros Hp Hne Hmax.
  destruct (exists_last Hne) as (p0 & cl & Hlast).
  assert (Hcl : plain cl = true).
  { subst p. apply Forall_app in Hp as [_ Hp]. by inversion Hp. }
  set (pre := if st then [94] else []). set (post := if en then [36] else []).
  change (literal_pattern st p en) with (pre ++ p ++ post).
  set (n := length (pre ++ p ++ post)).
  assert (Hlen : (n = length pre + length p + length post)%nat).
  { subst n. rewrite !length_app. lia. }
  assert (Hfirst : exists first rest, pre ++ p ++ post = first :: rest /\ (first =? 94) = st).
  { subst pre. destruct st; [by eexists _, _|]. destruct Hp as [|c p Hc Hp]; [done|].
    eexists _, _. split; [done|]. by not_meta Hc. }
  destruct Hfirst as (first & rest & Hfirst & Hst).
  assert (Hae : bool_decide (list.last (pre ++ p ++ post) = Some 36) &&
      negb (is_escaped (pre ++ p ++ post) (n - 1)) = en).
  { rewrite Hlast in Hlen |- *. rewrite length_app in Hlen. simpl in Hlen. subst post. destruct en.
    - rewrite bool_decide_true by (by rewrite !last_app). simpl in Hlen.
      replace (n - 1)%nat with (S (length (pre ++ p0))) by (rewrite length_app; lia).
      replace (pre ++ (p0 ++ [cl]) ++ [36]) with ((pre ++ p0) ++ cl :: [36])
        by (by rewrite <-!app_assoc).
      by rewrite is_escaped_plain.
    - rewrite bool_decide_false; [done|]. rewrite app_nil_r, !last_app. simpl.
      intros [= ->]. done. }
  unfold compile. fold n. rewrite Hae.
  pose proof (compile_loop_plain (S n) pre p post max [] Hp) as Hloop.
  rewrite Hfirst at 1. rewrite Hst.
  replace (if en then (n - 1)%nat else n) with (length pre + length p)%nat
    by (destruct en; simpl in Hlen; lia).
  replace (if st then 1%nat else 0%nat) with (length pre) by (by destruct st).
  rewrite Hloop; [|subst post; destruct en; auto|lia|done]. cbn [mbind result_bind].
  rewrite bool_decide_false; [done|]. by destruct p.
Qed.

(** ** Properties *)

(** C38: The memoised backtracking matcher decides exactly the declarative
    meaning of the compiled pattern: some factor of the text (the whole prefix or
    suffix when anchored) splits into one run per token, each run made of
    characters its atom accepts and within its repetition bounds. *)
Theorem is_match_correct r text : is_match r text = true <-> regex_matches r text.
Proof. apply is_match_iff. Qed.

(** Compiling a pattern of ordinary characters, with or without the anchors,
    always succeeds within the program limit and gives the substring, prefix,
    suffix or equality test the pattern spells. *)
Theorem compile_literal_matches st p en max text :
  Forall (fun c => plain c = true) p -> p <> [] -> (length p <= max)%nat ->
  exists r, compile (literal_pattern st p en) max = Ok r /\
    (is_match r text = true <->
     exists before after, text = before ++ p ++ after /\
       (st = true -> before = []) /\ (en = true -> after = [])).
Proof.
  intros Hp Hne Hmax. eexists. split; [by apply compile_literal|].
  rewrite is_match_iff. unfold regex_matches. cbn [anchored_start anchored_end tokens].
  setoid_rewrite literal_tokens_match. naive_solver.
Qed.

(** A compiled program is never empty, respects the instruction limit, and
    each of its repetitions has its minimum below its maximum; more rounds of the
    compile loop than the model runs would not change the result. *)
Theorem compile_bounds pattern max r :
  compile pattern max = Ok r ->
  (1 <= length (tokens r) <= max)%nat /\
  Forall (fun t => forall m, tmax t = Some m -> (tmin t <= m)%nat) (tokens r) /\
  forall stop position, compile_loop (S (S (length pattern))) pattern stop max position [] =
    compile_loop (S (length pattern)) pattern stop max position [].
Proof.
  unfold compile. destruct pattern as [|first rest]; [done|].
  intros (toks & Hl & H)%bind_ok. case_bool_decide as Hne; [done|]. injection H as <-.
  apply compile_loop_bound in Hl as [Hb Hf]; [|simpl; lia|constructor]. simpl tokens.
  split; [|split; [done|]].
  - destruct toks; [done|]. simpl in *. lia.
  - intros. apply compile_loop_fuel. simpl. lia.
Qed.

Lemma compile_literal_matches_witness :
  exists r, compile (lit "^ads-1$") 16 = Ok r /\ is_match r (lit "ads-1") = true.
Proof.
  destruct (compile_literal_matches true (lit "ads-1") true 16 (lit "ads-1")) as (r & Hr & Hm).
  - by repeat constructor.
  - done.
  - simpl. lia.
  - exists r. split; [exact Hr|]. apply Hm. by exists [], [].
Defined.

Lemma compile_bounds_witness :
  exists r, compile (lit "a+b") 16 = Ok r /\ (1 <= length (tokens r) <= 16)%nat.
Proof.
  eexists. split; [reflexivity|].
  exact (proj1 (compile_bounds (lit "a+b") 16 _ eq_refl)).
Defined.
