(* ===== verification/Net.v ===== *)
(** * IP addresses ([std::net])

    [IpAddr] with the conversions the policy and resource code uses, and the
    address parser behind [str::parse::<IpAddr>()]. *)

From S2P Require Import Prelude Text.

Inductive IpAddr :=
| V4 (a : Z)
| V6 (a : Z).
#[global] Instance IpAddr_eq_dec : EqDecision IpAddr.
Proof. solve_decision. Defined.

Definition valid_addr (a : IpAddr) : Prop :=
  match a with V4 a => 0 <= a < 2 ^ 32 | V6 a => 0 <= a < 2 ^ 128 end.

(** [octets]. *)
Definition v4_octets (a : Z) : list byte := be_bytes 4 a.
Definition v6_octets (a : Z) : list byte := be_bytes 16 a.

(** [Ipv6Addr::to_ipv4_mapped]: [::ffff:a.b.c.d]. *)
Definition to_ipv4_mapped (a : Z) : option Z :=
  if a / 2 ^ 32 =? 0xFFFF then Some (a mod 2 ^ 32) else None.

(** ** Parsing

    Each reader returns the rest of the input, or nothing and consumes nothing. *)

Definition to_digit (radix c : Z) : option Z :=
  let d := if (48 <=? c) && (c <=? 57) then Some (c - 48)
    else if (97 <=? c) && (c <=? 122) then Some (c - 87)
    else if (65 <=? c) && (c <=? 90) then Some (c - 55)
    else None in
  match d with Some v => if v <? radix then Some v else None | None => None end.

(** The digits at the start of the input, their value and number. *)
Fixpoint read_digits (radix : Z) (s : chars) (acc : Z) (count : nat) : Z * nat * chars :=
  match s with
  | c :: s' =>
    match to_digit radix c with
    | Some d => read_digits radix s' (acc * radix + d) (S count)
    | None => (acc, count, s)
    end
  | [] => (acc, count, s)
  end.

Definition read_number (radix : Z) (max_digits : nat) (allow_zero_prefix : bool) (limit : Z)
    (s : chars) : option (Z * chars) :=
  let '(v, count, rest) := read_digits radix s 0 0 in
  if (max_digits <? count)%nat || (count =? 0)%nat then None
  else if negb allow_zero_prefix && bool_decide (head s = Some 48) && (1 <? count)%nat then None
  else if v <=? limit then Some (v, rest) else None.

Definition read_char (c : Z) (s : chars) : option chars :=
  match s with d :: s' => if d =? c then Some s' else None | [] => None end.

(** [read_separator]: a separator before every item but the first. *)
Definition read_separator {A} (sep : Z) (index : nat) (read : chars -> option (A * chars))
    (s : chars) : option (A * chars) :=
  if (0 <? index)%nat then read_char sep s ≫= read else read s.

Fixpoint read_v4_parts (index n : nat) (acc : Z) (s : chars) : option (Z * chars) :=
  match n with
  | O => Some (acc, s)
  | S n' =>
    '(v, s') ← read_separator 46 index (read_number 10 3 false 255) s;
    read_v4_parts (S index) n' (acc * 256 + v) s'
  end.
Definition read_ipv4_addr (s : chars) : option (Z * chars) := read_v4_parts 0 4 0 s.

(** [read_groups]: at most [limit] groups of 16 bits, the last two possibly as an
    embedded IPv4 address; [left] counts down. *)
Fixpoint read_groups (left index : nat) (groups : list Z) (s : chars) :
    list Z * bool * chars :=
  match left with
  | O => (groups, false, s)
  | S left' =>
    match (if (0 <? left')%nat then read_separator 58 index read_ipv4_addr s else None) with
    | Some (v4, s') => (groups ++ [v4 / 65536; v4 mod 65536], true, s')
    | None =>
      match read_separator 58 index (read_number 16 4 true 65535) s with
      | Some (g, s') => read_groups left' (S index) (groups ++ [g]) s'
      | None => (groups, false, s)
      end
    end
  end.

Definition groups_value (groups : list Z) : Z := foldl (fun a g => a * 65536 + g) 0 groups.

Definition read_ipv6_addr (s : chars) : option (Z * chars) :=
  let '(head, head_v4, rest) := read_groups 8 0 [] s in
  if (length head =? 8)%nat then Some (groups_value head, rest)
  else if head_v4 then None
  else
    rest ← read_char 58 rest;
    rest ← read_char 58 rest;
    let '(tail, _, rest) := read_groups (8 - S (length head)) 0 [] rest in
    let zeros := repeat 0 (8 - length head - length tail) in
    Some (groups_value (head ++ zeros ++ tail), rest).

(** [s.parse::<IpAddr>()]: the whole input must be consumed. *)
Definition parse_ip (s : chars) : option IpAddr :=
  match read_ipv4_addr s with
  | Some (a, rest) => if bool_decide (rest = []) then Some (V4 a) else None
  | None =>
    match read_ipv6_addr s with
    | Some (a, []) => Some (V6 a)
    | _ => None
    end
  end.

Example parse_ip_examples :
  (parse_ip (lit "192.168.0.1"), parse_ip (lit "::1"), parse_ip (lit "2001:db8::ff00:42"),
   parse_ip (lit "::ffff:10.0.0.1"), parse_ip (lit "1.2.3"), parse_ip (lit "01.2.3.4"),
   parse_ip (lit "1:2:3:4:5:6:7:8:9"), parse_ip (lit "1::2::3")) =
  (Some (V4 0xC0A80001), Some (V6 1), Some (V6 0x20010db80000000000000000ff000042),
   Some (V6 0xffff0a000001), None, None, None, None).
Proof. by vm_compute. Qed.
