(* ===== verification/Client.v ===== *)
(** * Client identification (src/backend/src/policy/client.rs)

    The index of configured clients: exact identifiers first, then the longest
    matching CIDR; and the digest that separates their cache entries. *)

From S2P Require Import Prelude Net CacheModel.

(** The [ipnet] crate: networks with containment and prefix length. *)
Class IpNetOps := {
  IpNet : Type;
  #[global] IpNet_eq_dec :: EqDecision IpNet;
  net_contains : IpNet -> IpAddr -> bool;
  prefix_len : IpNet -> Z
}.

Section Client.
Context {IN : IpNetOps}.

Record ClientRule := mk_client {
  client_name : string;
  client_ids : list string;
  client_ips : list IpNet
}.

Inductive ClientRuleBuildError := EmptyRule | DuplicateName | DuplicateClientId | DuplicateCidr.

Inductive ClientMatchKind := ExactId | Cidr (prefix : Z).

Inductive ClientMatch :=
| Matched (client : ClientRule) (kind : ClientMatchKind)
| Unknown.

Record CidrEntry := mk_cidr {
  network : IpNet;
  rule_index : nat
}.

Record ClientIndex := mk_index {
  ci_rules : list ClientRule;
  ci_names : gmap string nat;
  ci_exact_ids : gmap string nat;
  ci_cidrs : list CidrEntry
}.

Definition empty_index : ClientIndex := mk_index [] ∅ ∅ [].

(** ** Building *)

(** [HashMap::insert(..).is_some()] over the identifiers of a rule. *)
Fixpoint add_ids (ids : list string) (i : nat) (m : gmap string nat) :
    result ClientRuleBuildError (gmap string nat) :=
  match ids with
  | [] => Ok m
  | id :: ids' =>
    if bool_decide (is_Some (m !! id)) then Err DuplicateClientId
    else add_ids ids' i (<[id := i]> m)
  end.

Fixpoint add_cidrs (nets : list IpNet) (i : nat) (cs : list CidrEntry) :
    result ClientRuleBuildError (list CidrEntry) :=
  match nets with
  | [] => Ok cs
  | n :: nets' =>
    if existsb (fun e => bool_decide (network e = n)) cs then Err DuplicateCidr
    else add_cidrs nets' i (cs ++ [mk_cidr n i])
  end.

(** One round of the loop of [ClientIndex::build]. *)
Definition add_rule (idx : ClientIndex) (rule : ClientRule) :
    result ClientRuleBuildError ClientIndex :=
  if bool_decide (client_ids rule = []) && bool_decide (client_ips rule = []) then Err EmptyRule
  else
    let i := length (ci_rules idx) in
    if bool_decide (is_Some (ci_names idx !! client_name rule)) then Err DuplicateName
    else
      ids ← add_ids (client_ids rule) i (ci_exact_ids idx);
      cidrs ← add_cidrs (client_ips rule) i (ci_cidrs idx);
      Ok (mk_index (ci_rules idx ++ [rule]) (<[client_name rule := i]> (ci_names idx)) ids cidrs).

Fixpoint add_rules (idx : ClientIndex) (rules : list ClientRule) :
    result ClientRuleBuildError ClientIndex :=
  match rules with
  | [] => Ok idx
  | r :: rs => idx ← add_rule idx r; add_rules idx rs
  end.

(** [sort_by_key(|entry| Reverse(entry.network.prefix_len()))]. *)
Definition sort_cidrs (l : list CidrEntry) : list CidrEntry :=
  sort_by_key (fun e => - prefix_len (network e)) l.

Definition build (rules : list ClientRule) : result ClientRuleBuildError ClientIndex :=
  idx ← add_rules empty_index rules;
  Ok (mk_index (ci_rules idx) (ci_names idx) (ci_exact_ids idx) (sort_cidrs (ci_cidrs idx))).

(** ** Matching *)

Definition get_by_name (idx : ClientIndex) (name : string) : option ClientRule :=
  ci_names idx !! name ≫= fun i => ci_rules idx !! i.

Definition get_by_client_id (idx : ClientIndex) (id : string) : option ClientRule :=
  ci_exact_ids idx !! id ≫= fun i => ci_rules idx !! i.

Definition normalize_client_addr (a : IpAddr) : IpAddr :=
  match a with
  | V6 a => match to_ipv4_mapped a with Some v4 => V4 v4 | None => V6 a end
  | V4 _ => a
  end.

Definition match_cidr (idx : ClientIndex) (addr : option IpAddr) : ClientMatch :=
  match normalize_client_addr <$> addr with
  | None => Unknown
  | Some a =>
    match List.find (fun e => net_contains (network e) a) (ci_cidrs idx) with
    | Some e => match ci_rules idx !! rule_index e with
                | Some r => Matched r (Cidr (prefix_len (network e)))
                | None => Unknown (* an index panic; excluded by [index_inv] *)
                end
    | None => Unknown
    end
  end.

Definition match_client (idx : ClientIndex) (id : option string) (addr : option IpAddr) :
    ClientMatch :=
  match id ≫= get_by_client_id idx with
  | Some r => Matched r ExactId
  | None => match_cidr idx addr
  end.

(** [ClientMatch::observation]: the configured identity to record for a match. *)
Inductive ClientMatchSource := SourceId | SourceIp.

Definition observation (m : ClientMatch) (id : option string) :
    option (ClientMatchSource * string) :=
  match m with
  | Matched _ ExactId => pair SourceId <$> id
  | Matched client (Cidr _) =>
    match client_ids client with
    | [only] => Some (SourceIp, only)
    | _ => None
    end
  | Unknown => None
  end.

(** ** Cache digests *)

Section Digest.
Context (sha256 : list byte -> list byte).

Definition digest_prefix : list byte := str_bytes "fluxdns/client-cache/v1" ++ [x00].

(** The bytes fed to the hasher. *)
Definition digest_input (m : ClientMatch) (id : option string) (addr : option IpAddr) :
    option (list byte) :=
  match m, id, addr with
  | Matched _ ExactId, Some id, _ =>
      Some (digest_prefix ++ (str_bytes "id" ++ [x00]) ++ str_bytes id)
  | Matched _ (Cidr _), _, Some (V4 a) =>
      Some (digest_prefix ++ (str_bytes "ipv4" ++ [x00]) ++ v4_octets a)
  | Matched _ (Cidr _), _, Some (V6 a) =>
      match to_ipv4_mapped a with
      | Some v4 => Some (digest_prefix ++ (str_bytes "ipv4" ++ [x00]) ++ v4_octets v4)
      | None => Some (digest_prefix ++ (str_bytes "ipv6" ++ [x00]) ++ v6_octets a)
      end
  | _, _, _ => None
  end.

Definition cache_digest (m : ClientMatch) (id : option string) (addr : option IpAddr) :
    option ClientCacheDigest :=
  (fun input => mk_digest (sha256 input)) <$> digest_input m id addr.

End Digest.

(** ** The index mirrors the configuration *)

Definition rule_cidrs (i : nat) (r : ClientRule) : list CidrEntry :=
  (fun n => mk_cidr n i) <$> client_ips r.
(** The networks in configuration order, each with its rule. *)
Definition all_cidrs (rules : list ClientRule) : list CidrEntry :=
  mjoin (imap rule_cidrs rules).

Record index_inv (rules : list ClientRule) (idx : ClientIndex) : Prop := {
  ix_rules : ci_rules idx = rules;
  ix_nonempty : Forall (fun r => client_ids r <> [] \/ client_ips r <> []) rules;
  ix_names : forall name i, ci_names idx !! name = Some i <->
    exists r, rules !! i = Some r /\ client_name r = name;
  ix_ids : forall id i, ci_exact_ids idx !! id = Some i <->
    exists r, rules !! i = Some r /\ id ∈ client_ids r;
  ix_cidrs : ci_cidrs idx = all_cidrs rules;
  ix_nodup_names : NoDup (client_name <$> rules);
  ix_nodup_ids : NoDup (rules ≫= client_ids);
  ix_nodup_ips : NoDup (rules ≫= client_ips)
}.

Lemma add_ids_spec ids i m m' :
  add_ids ids i m = Ok m' ->
  NoDup ids /\ (forall id, id ∈ ids -> m !! id = None) /\
  forall id, m' !! id = if decide (id ∈ ids) then Some i else m !! id.
Proof.
  revert m. induction ids as [|id ids IH]; intros m; cbn [add_ids].
  { intros [= <-]. split; [constructor|]. split; [set_solver|]. intros. by rewrite decide_False by set_solver. }
  case_bool_decide as Hm; [done|]. apply eq_None_not_Some in Hm.
  intros (Hnd & Hfresh & Hl)%IH.
  assert (Hnot : id ∉ ids).
  { intros Hin. specialize (Hfresh id Hin). by rewrite lookup_insert_eq in Hfresh. }
  split; [by constructor|]. split.
  - intros id' [->|Hin]%elem_of_cons; [done|]. specialize (Hfresh id' Hin).
    rewrite lookup_insert_ne in Hfresh; [done|]. by intros ->.
  - intros id'. rewrite Hl. destruct (decide (id' = id)) as [->|Hne].
    + rewrite (decide_False (P := id ∈ ids)) by done. rewrite decide_True by set_solver.
      apply lookup_insert_eq.
    + rewrite lookup_insert_ne by done. by repeat case_decide; set_solver.
Qed.

Lemma add_ids_complete ids i m :
  NoDup ids -> (forall id, id ∈ ids -> m !! id = None) -> exists m', add_ids ids i m = Ok m'.
Proof.
  intros Hnd. revert m. induction Hnd as [|id ids Hnot _ IH]; intros m Hf; cbn [add_ids]; [by eexists|].
  rewrite bool_decide_false by (rewrite Hf by set_solver; by intros []).
  apply IH. intros id' Hin. rewrite lookup_insert_ne by (intros ->; done). set_solver.
Qed.

Lemma existsb_network n cs :
  existsb (fun e => bool_decide (network e = n)) cs = true <-> n ∈ network <$> cs.
Proof.
  rewrite existsb_exists, list_elem_of_fmap. setoid_rewrite bool_decide_eq_true.
  setoid_rewrite list_elem_of_In. naive_solver.
Qed.

Lemma add_cidrs_spec nets i cs cs' :
  add_cidrs nets i cs = Ok cs' <->
  NoDup nets /\ (forall n, n ∈ nets -> n ∉ network <$> cs) /\
  cs' = cs ++ ((fun n => mk_cidr n i) <$> nets).
Proof.
  revert cs. induction nets as [|n nets IH]; intros cs; cbn [add_cidrs].
  { rewrite app_nil_r. split; [intros [= <-]|intros (_ & _ & ->); done].
    split; [constructor|]. split; [set_solver|done]. }
  destruct (existsb _ cs) eqn:He.
  - apply existsb_network in He. split; [done|]. intros (_ & Hf & _). by destruct (Hf n); [set_solver|].
  - assert (Hn : n ∉ network <$> cs) by (rewrite <-existsb_network; congruence). rewrite IH.
    rewrite fmap_app. cbn [fmap list_fmap]. rewrite <-app_assoc. cbn [app].
    split.
    + intros (Hnd & Hf & ->). split; [constructor; [|done]|split; [|done]].
      * intros Hin. apply (Hf n Hin). set_solver.
      * intros m [->|Hm]%elem_of_cons; [done|]. specialize (Hf m Hm). set_solver.
    + intros (Hnd & Hf & ->). inversion_clear Hnd as [|? ? Hnot Hnd']. split; [done|]. split; [|done].
      intros m Hm. specialize (Hf m). set_solver.
Qed.

Lemma all_cidrs_app rules r :
  all_cidrs (rules ++ [r]) = all_cidrs rules ++ rule_cidrs (length rules) r.
Proof.
  unfold all_cidrs. rewrite imap_app, join_app. cbn. by rewrite app_nil_r, Nat.add_0_r.
Qed.

Lemma all_cidrs_networks rules : network <$> all_cidrs rules = rules ≫= client_ips.
Proof.
  induction rules as [|r rules IH] using rev_ind; [done|].
  rewrite all_cidrs_app, fmap_app, bind_app, IH. f_equal. unfold rule_cidrs.
  rewrite <-list_fmap_compose. cbn. by rewrite app_nil_r, list_fmap_id.
Qed.

Lemma lookup_snoc_iff {A} (P : A -> Prop) (l : list A) (x : A) i :
  (exists y, (l ++ [x]) !! i = Some y /\ P y) <->
  (exists y, l !! i = Some y /\ P y) \/ (i = length l /\ P x).
Proof.
  setoid_rewrite lookup_app_Some. setoid_rewrite list_lookup_singleton_Some. split.
  - intros (y & [?|(? & ? & ?)] & ?); [eauto|]. right. split; [lia|]. by subst.
  - intros [(y & ? & ?)|[-> ?]]; [eauto|]. exists x. split; [|done]. right. split; [lia|]. split; [lia|done].
Qed.

Lemma NoDup_snoc_bind {A B} (f : A -> list B) (l : list A) (x : A) :
  NoDup ((l ++ [x]) ≫= f) <->
  NoDup (l ≫= f) /\ NoDup (f x) /\ forall b, b ∈ f x -> b ∉ l ≫= f.
Proof.
  rewrite bind_app, list.NoDup_app. cbn. rewrite app_nil_r. set_solver.
Qed.

Lemma ids_not_used rules (m : gmap string nat) (f : ClientRule -> list string) id :
  (forall id i, m !! id = Some i <-> exists r, rules !! i = Some r /\ id ∈ f r) ->
  (m !! id = None) <-> (id ∉ (rules ≫= f)).
Proof.
  intros Hm. rewrite list_elem_of_bind, eq_None_not_Some. apply not_iff_compat. split.
  - intros [i (r & Hr & Hid)%Hm]. exists r. split; [done|]. by eapply list_elem_of_lookup_2.
  - intros (r & Hid & [i Hr]%list_elem_of_lookup_1). exists i. apply Hm. eauto.
Qed.

(** The condition under which a further rule is accepted. *)
Definition rule_fits (rules : list ClientRule) (r : ClientRule) : Prop :=
  (client_ids r <> [] \/ client_ips r <> []) /\
  (client_name r ∉ (client_name <$> rules)) /\
  (NoDup (client_ids r) /\ forall id, id ∈ client_ids r -> id ∉ rules ≫= client_ids) /\
  (NoDup (client_ips r) /\ forall n, n ∈ client_ips r -> n ∉ rules ≫= client_ips).

Lemma add_rule_spec rules idx r :
  index_inv rules idx ->
  match add_rule idx r with
  | Ok idx' => rule_fits rules r /\ index_inv (rules ++ [r]) idx'
  | Err _ => ~ rule_fits rules r
  end.
Proof.
  intros Hi. unfold add_rule. rewrite (ix_rules _ _ Hi).
  assert (Hname : ci_names idx !! client_name r = None <-> client_name r ∉ client_name <$> rules).
  { rewrite (ids_not_used rules _ (fun r => [client_name r])).
    - rewrite list_elem_of_bind, list_elem_of_fmap. set_solver.
    - intros name i. rewrite (ix_names _ _ Hi). set_solver. }
  pose proof (fun id => ids_not_used rules _ client_ids id (ix_ids _ _ Hi)) as Hid.
  destruct (bool_decide (client_ids r = []) && bool_decide (client_ips r = [])) eqn:Hemp.
  { apply andb_true_iff in Hemp as [H1%bool_decide_eq_true H2%bool_decide_eq_true].
    intros [[?|?] _]; done. }
  assert (Hne : client_ids r <> [] \/ client_ips r <> []).
  { apply andb_false_iff in Hemp as [H%bool_decide_eq_false|H%bool_decide_eq_false]; auto. }
  clear Hemp. case_bool_decide as Hn.
  { intros (_ & H & _). rewrite (proj2 Hname H) in Hn. by destruct Hn. }
  apply eq_None_not_Some in Hn. pose proof (proj1 Hname Hn) as Hn'.
  destruct (add_ids _ _ _) as [ids|e] eqn:Hids; cbn [mbind result_bind].
  2: { intros (_ & _ & [Hnd Hf] & _).
       destruct (add_ids_complete (client_ids r) (length rules) (ci_exact_ids idx) Hnd) as [m' Hm'].
       - intros id Hin. by apply Hid, Hf.
       - congruence. }
  apply add_ids_spec in Hids as (Hnd & Hfresh & Hl).
  destruct (add_cidrs _ _ _) as [cs|e] eqn:Hcs; cbn [mbind result_bind].
  2: { intros (_ & _ & _ & [Hndc Hf]).
       assert (H : add_cidrs (client_ips r) (length rules) (ci_cidrs idx) =
         Ok (ci_cidrs idx ++ ((fun n => mk_cidr n (length rules)) <$> client_ips r))); [|congruence].
       apply add_cidrs_spec. split; [done|]. split; [|done].
       by rewrite (ix_cidrs _ _ Hi), all_cidrs_networks. }
  apply add_cidrs_spec in Hcs as (Hndc & Hfc & ->).
  rewrite (ix_cidrs _ _ Hi), all_cidrs_networks in Hfc.
  assert (Hfit : rule_fits rules r).
  { split; [done|]. split; [done|]. split; [|done]. split; [done|]. intros id Hin. by apply Hid, Hfresh. }
  split; [done|]. destruct Hfit as (_ & _ & [_ Hfi] & _).
  split; cbn [ci_rules ci_names ci_exact_ids ci_cidrs].
  - done.
  - apply Forall_app. split; [apply Hi|by constructor].
  - intros name i. rewrite (lookup_snoc_iff (fun r => client_name r = name)), <-(ix_names _ _ Hi).
    rewrite lookup_insert_Some. split; [naive_solver|]. intros [H|[-> <-]]; [|by left].
    right. split; [|done]. intros <-. by rewrite Hn in H.
  - intros id i. rewrite (lookup_snoc_iff (fun r => id ∈ client_ids r)), <-(ix_ids _ _ Hi), Hl.
    case_decide as Hin; split.
    + intros [= <-]. by right.
    + intros [H|[-> _]]; [|done]. by rewrite (Hfresh id Hin) in H.
    + by left.
    + by intros [H|[_ ?]].
  - by rewrite all_cidrs_app, (ix_cidrs _ _ Hi).
  - rewrite fmap_app, list.NoDup_app. split; [apply Hi|]. cbn. split; [|apply NoDup_singleton].
    set_solver.
  - apply NoDup_snoc_bind. split; [apply Hi|done].
  - apply NoDup_snoc_bind. split; [apply Hi|done].
Qed.

(** A configuration every rule of which fits after its predecessors. *)
Definition config_ok (rules : list ClientRule) : Prop :=
  Forall (fun r => client_ids r <> [] \/ client_ips r <> []) rules /\
  NoDup (client_name <$> rules) /\ NoDup (rules ≫= client_ids) /\ NoDup (rules ≫= client_ips).

Lemma config_ok_prefix l1 l2 : config_ok (l1 ++ l2) -> config_ok l1.
Proof.
  unfold config_ok. rewrite Forall_app, fmap_app, !bind_app, !list.NoDup_app. by intuition.
Qed.

Lemma config_ok_fits rules r rest :
  config_ok (rules ++ r :: rest) -> rule_fits rules r.
Proof.
  rewrite cons_middle, app_assoc. intros H%config_ok_prefix. unfold config_ok in H.
  rewrite !NoDup_snoc_bind, Forall_app, fmap_app, list.NoDup_app in H.
  destruct H as ([_ Hr] & (_ & Hn & _) & (_ & ? & ?) & (_ & ? & ?)).
  split; [by inversion Hr|]. split; [|done]. intros Hin. apply (Hn _ Hin). cbn. set_solver.
Qed.

Lemma add_rules_spec done idx rules :
  index_inv done idx ->
  match add_rules idx rules with
  | Ok idx' => index_inv (done ++ rules) idx'
  | Err _ => ~ config_ok (done ++ rules)
  end.
Proof.
  revert done idx. induction rules as [|r rules IH]; intros done idx Hi; cbn [add_rules].
  { by rewrite app_nil_r. }
  pose proof (add_rule_spec done idx r Hi) as Hr.
  destruct (add_rule idx r) as [idx'|e]; cbn [mbind result_bind].
  - destruct Hr as [_ Hr]. apply IH in Hr. by rewrite <-app_assoc in Hr.
  - intros Hc. apply Hr. by eapply config_ok_fits.
Qed.

Lemma index_inv_empty : index_inv [] empty_index.
Proof.
  split; try done; try constructor; cbn; try done.
  - intros (r & H & _). done.
  - intros (r & H & _). done.
Qed.

Lemma build_spec rules :
  match build rules with
  | Ok idx => exists idx0, index_inv rules idx0 /\
      idx = mk_index rules (ci_names idx0) (ci_exact_ids idx0) (sort_cidrs (all_cidrs rules))
  | Err _ => ~ config_ok rules
  end.
Proof.
  unfold build. pose proof (add_rules_spec [] empty_index rules index_inv_empty) as H.
  destruct (add_rules empty_index rules) as [idx|e]; [|done]. cbn [mbind result_bind].
  exists idx. split; [done|]. by rewrite (ix_cidrs _ _ H), (ix_rules _ _ H).
Qed.

(** ** Longest prefix first *)

Abbreviation by_prefix := (key_le (fun e => - prefix_len (network e))).

Lemma find_sorted (f : CidrEntry -> bool) l :
  StronglySorted by_prefix l ->
  match List.find f l with
  | Some e => e ∈ l /\ f e = true /\
      forall e', e' ∈ l -> f e' = true -> prefix_len (network e') <= prefix_len (network e)
  | None => forall e', e' ∈ l -> f e' = false
  end.
Proof.
  induction 1 as [|x l Hs IH Hx]; cbn [List.find]; [set_solver|].
  destruct (f x) eqn:Hf.
  - split; [set_solver|]. split; [done|]. intros e' [->|Hin]%elem_of_cons _; [done|].
    pose proof (proj1 (list.Forall_forall _ _) Hx e' Hin) as Hle. unfold key_le in Hle. lia.
  - destruct (List.find f l) as [e|].
    + destruct IH as (? & ? & Hmax). split; [set_solver|]. split; [done|].
      intros e' [->|Hin]%elem_of_cons ?; [congruence|auto].
    + intros e' [->|Hin]%elem_of_cons; auto.
Qed.

Lemma elem_of_all_cidrs rules e :
  e ∈ all_cidrs rules <->
  exists r, rules !! rule_index e = Some r /\ network e ∈ client_ips r.
Proof.
  unfold all_cidrs. rewrite list_elem_of_join. setoid_rewrite elem_of_lookup_imap.
  unfold rule_cidrs. split.
  - intros (l & Hin & i & r & -> & Hr). apply list_elem_of_fmap in Hin as (n & -> & Hn). eauto.
  - intros (r & Hr & Hn). eexists. split; [|by exists (rule_index e), r].
    apply list_elem_of_fmap. exists (network e). by destruct e.
Qed.

(** The client a request identifies itself as. *)
Definition client_identity (m : ClientMatch) (id : option string) (addr : option IpAddr) :
    option (string + IpAddr) :=
  match m with
  | Matched _ ExactId => inl <$> id
  | Matched _ (Cidr _) => inr ∘ normalize_client_addr <$> addr
  | Unknown => None
  end.

Lemma mapped_valid a v4 : 0 <= a < 2 ^ 128 -> to_ipv4_mapped a = Some v4 -> 0 <= v4 < 2 ^ 32.
Proof.
  unfold to_ipv4_mapped. intros Ha. destruct (_ =? _); [|done]. intros [= <-].
  apply Z.mod_pos_bound. lia.
Qed.

(** What distinguishes two hashed inputs. *)
Lemma digest_input_shape m id addr x :
  digest_input m id addr = Some x -> (forall a, addr = Some a -> valid_addr a) ->
  exists k, client_identity m id addr = Some k /\
    x = digest_prefix ++
      match k with
      | inl i => (str_bytes "id" ++ [x00]) ++ str_bytes i
      | inr (V4 a) => (str_bytes "ipv4" ++ [x00]) ++ v4_octets a
      | inr (V6 a) => (str_bytes "ipv6" ++ [x00]) ++ v6_octets a
      end /\
    match k with inr a => valid_addr a | inl _ => True end.
Proof.
  intros H Hv. destruct m as [r [|p]|]; [| |done].
  - destruct id as [i|]; [|done]. exists (inl i). split; [done|].
    cbn in H. by destruct addr; injection H as <-.
  - destruct addr as [[a|a]|]; cbn in H; [| |by destruct id].
    + specialize (Hv _ eq_refl). destruct id; injection H as <-; by exists (inr (V4 a)).
    + specialize (Hv _ eq_refl). cbn in Hv. cbn [client_identity fmap option_fmap option_map compose normalize_client_addr].
      destruct (to_ipv4_mapped a) as [v4|] eqn:Hm.
      * apply mapped_valid in Hm; [|done]. destruct id; injection H as <-; by exists (inr (V4 v4)).
      * destruct id; injection H as <-; by exists (inr (V6 a)).
Qed.

(** ** Properties *)

(** Building the client index succeeds exactly for configurations in which
    every client has an identifier or a network and no name, identifier or
    network is used twice. *)
Theorem build_accepts_iff rules :
  (exists idx, build rules = Ok idx) <-> config_ok rules.
Proof.
  pose proof (build_spec rules) as H. destruct (build rules) as [idx|e].
  - destruct H as (idx0 & [] & _). split; [done|eauto].
  - split; [by intros [? ?]|done].
Qed.

(** A request is attributed to the client with its exact identifier if there
    is one, otherwise to a client owning a network that contains its
    (IPv4-unmapped) address with the longest prefix of all configured networks
    containing it, otherwise to nobody. *)
Theorem match_client_longest_prefix rules idx id addr :
  build rules = Ok idx ->
  let contains n := exists a, addr = Some a /\ net_contains n (normalize_client_addr a) = true in
  let no_exact := forall r i, r ∈ rules -> id = Some i -> i ∉ client_ids r in
  match match_client idx id addr with
  | Matched r ExactId => r ∈ rules /\ exists i, id = Some i /\ i ∈ client_ids r
  | Matched r (Cidr p) => no_exact /\ r ∈ rules /\
      (exists n, n ∈ client_ips r /\ contains n /\ prefix_len n = p) /\
      forall r' n', r' ∈ rules -> n' ∈ client_ips r' -> contains n' -> prefix_len n' <= p
  | Unknown => no_exact /\ forall r' n', r' ∈ rules -> n' ∈ client_ips r' -> ~ contains n'
  end.
Proof.
  intros Hb contains no_exact. pose proof (build_spec rules) as H. rewrite Hb in H.
  destruct H as (idx0 & Hi & ->). unfold match_client, get_by_client_id. cbn [ci_exact_ids ci_rules].
  assert (Hex : forall i r, ci_exact_ids idx0 !! i ≫= (fun k => rules !! k) = Some r <->
    r ∈ rules /\ i ∈ client_ids r).
  { intros i r. destruct (ci_exact_ids idx0 !! i) as [k|] eqn:Hk; cbn.
    - pose proof (proj1 (ix_ids _ _ Hi _ _) Hk) as (r0 & Hr0 & Hin0). rewrite Hr0. split.
      + intros [= <-]. split; [by eapply list_elem_of_lookup_2|done].
      + intros ([j Hj]%list_elem_of_lookup_1 & Hin).
        assert (ci_exact_ids idx0 !! i = Some j) by (apply (ix_ids _ _ Hi); eauto). congruence.
    - split; [done|]. intros ([j Hj]%list_elem_of_lookup_1 & Hin).
      assert (ci_exact_ids idx0 !! i = Some j) by (apply (ix_ids _ _ Hi); eauto). congruence. }
  destruct (id ≫= _) as [r|] eqn:Hid.
  { destruct id as [i|]; [|done]. apply Hex in Hid as [? ?]. eauto. }
  assert (Hno : no_exact).
  { intros r i Hr -> Hin. cbn in Hid. by rewrite (proj2 (Hex i r)) in Hid. }
  unfold match_cidr. cbn [ci_cidrs ci_rules]. destruct addr as [a|]; cbn.
  2: { split; [done|]. by intros ? ? _ _ (? & ? & _). }
  pose proof (find_sorted (fun e => net_contains (network e) (normalize_client_addr a))
    (sort_cidrs (all_cidrs rules)) (sort_by_key_sorted _ _)) as Hf.
  assert (Hin : forall e, e ∈ sort_cidrs (all_cidrs rules) <->
    exists r, rules !! rule_index e = Some r /\ network e ∈ client_ips r).
  { intros e. unfold sort_cidrs. by rewrite sort_by_key_perm, elem_of_all_cidrs. }
  assert (Hent : forall r' n', r' ∈ rules -> n' ∈ client_ips r' ->
    exists e', network e' = n' /\ exists r, rules !! rule_index e' = Some r /\ network e' ∈ client_ips r).
  { intros r' n' [k Hk]%list_elem_of_lookup_1 Hn. exists (mk_cidr n' k). cbn. eauto. }
  destruct (List.find _ _) as [e|]; setoid_rewrite Hin in Hf.
  - destruct Hf as ((r & Hr & Hn) & Hc & Hmax). rewrite Hr. split; [done|].
    split; [by eapply list_elem_of_lookup_2|]. split.
    + exists (network e). split; [done|]. split; [by exists a|done].
    + intros r' n' Hr' Hn' (a' & [= <-] & Hc').
      destruct (Hent r' n' Hr' Hn') as (e' & <- & He'). by apply Hmax.
  - split; [done|]. intros r' n' Hr' Hn' (a' & [= <-] & Hc').
    destruct (Hent r' n' Hr' Hn') as (e' & <- & He'). by rewrite (Hf e' He') in Hc'.
Qed.

(** Two requests share a client cache digest only if they identify the same
    client (same exact id, or same address after IPv4 unmapping), as long as the
    hash does not collide on the two inputs. *)
Theorem cache_digest_separates (sha256 : list byte -> list byte) m1 id1 a1 m2 id2 a2 d :
  (forall a, a1 = Some a -> valid_addr a) -> (forall a, a2 = Some a -> valid_addr a) ->
  (forall x y, digest_input m1 id1 a1 = Some x -> digest_input m2 id2 a2 = Some y ->
     sha256 x = sha256 y -> x = y) ->
  cache_digest sha256 m1 id1 a1 = Some d -> cache_digest sha256 m2 id2 a2 = Some d ->
  client_identity m1 id1 a1 = client_identity m2 id2 a2.
Proof.
  intros Hv1 Hv2 Hsha. unfold cache_digest.
  destruct (digest_input m1 id1 a1) as [x|] eqn:H1; [|done].
  destruct (digest_input m2 id2 a2) as [y|] eqn:H2; [|done]. cbn. intros [= <-] [= Hxy].
  assert (x = y) as <- by (symmetry in Hxy; by apply Hsha). clear Hsha Hxy.
  apply digest_input_shape in H1 as (k1 & -> & Hx & Hk1); [|done].
  apply digest_input_shape in H2 as (k2 & -> & Hy & Hk2); [|done].
  rewrite Hx in Hy. apply app_inv_head in Hy. f_equal.
  destruct k1 as [i1|[b1|b1]], k2 as [i2|[b2|b2]]; try discriminate Hy;
    apply app_inv_head in Hy; cbn in Hk1, Hk2.
  - f_equal. by apply str_bytes_inj.
  - do 2 f_equal. by apply be_bytes_inj in Hy.
  - do 2 f_equal. by apply be_bytes_inj in Hy.
Qed.

End Client.

(** ** Concrete runs *)

Section ClientWitness.

(** Networks as an address and a prefix length. *)
Definition prefix_contains (n : IpAddr * Z) (a : IpAddr) : bool :=
  match n, a with
  | (V4 b, l), V4 a => Z.shiftr b (32 - l) =? Z.shiftr a (32 - l)
  | (V6 b, l), V6 a => Z.shiftr b (128 - l) =? Z.shiftr a (128 - l)
  | _, _ => false
  end.
Definition prefix_clamp (n : IpAddr * Z) : Z :=
  Z.max 0 (Z.min n.2 match n.1 with V4 _ => 32 | V6 _ => 128 end).
Definition prefix_nets : IpNetOps :=
  {| IpNet := IpAddr * Z; net_contains := prefix_contains; prefix_len := prefix_clamp |}.

Definition lan : @ClientRule prefix_nets :=
  mk_client (IN := prefix_nets) "lan" [] [(V4 0x0A000000, 8)].
Definition kids : @ClientRule prefix_nets :=
  mk_client (IN := prefix_nets) "kids" ["kid-1"] [(V4 0x0A010000, 16)].

(** 10.1.2.3, mapped into IPv6, falls in both networks; the /16 wins. *)
Definition sample_index : ClientIndex :=
  match build (IN := prefix_nets) [lan; kids] with Ok idx => idx | Err _ => empty_index end.

Lemma match_client_longest_prefix_witness :
  match_client sample_index None (Some (V6 0xFFFF0A010203)) = Matched kids (Cidr 16) /\
  (forall r' n', r' ∈ [lan; kids] -> n' ∈ client_ips r' ->
     net_contains n' (V4 0x0A010203) = true -> prefix_len n' <= 16).
Proof.
  assert (E : match_client sample_index None (Some (V6 0xFFFF0A010203)) = Matched kids (Cidr 16))
    by reflexivity.
  split; [exact E|].
  pose proof (match_client_longest_prefix (IN := prefix_nets) [lan; kids] sample_index None
    (Some (V6 0xFFFF0A010203)) eq_refl) as H.
  cbv zeta in H. rewrite E in H. destruct H as (_ & _ & _ & H).
  intros r' n' Hr Hn Hc. apply (H r' n' Hr Hn). by exists (V6 0xFFFF0A010203).
Defined.

Lemma cache_digest_separates_witness :
  client_identity (IN := prefix_nets) (Matched kids (Cidr 16)) None (Some (V6 0xFFFF0A010203)) =
  client_identity (Matched kids (Cidr 16)) None (Some (V4 0x0A010203)).
Proof.
  apply (cache_digest_separates (IN := prefix_nets) (fun x => x)
    (Matched kids (Cidr 16)) None (Some (V6 0xFFFF0A010203))
    (Matched kids (Cidr 16)) None (Some (V4 0x0A010203))
    (mk_digest (digest_prefix ++ (str_bytes "ipv4" ++ [x00]) ++ v4_octets 0x0A010203))).
  - intros a [= <-]. cbn. lia.
  - intros a [= <-]. cbn. lia.
  - by intros x y _ _ H.
  - reflexivity.
  - reflexivity.
Defined.

End ClientWitness.
