(* ===== verification/Hosts.v ===== *)
(** * Hosts resources (src/backend/src/resource/hosts.rs)

    Canonical domain names, the hosts parsers and the immutable index with exact
    and wildcard owners. *)

From S2P Require Import Prelude Text Net.

(** The DNS names of the [hickory-proto] crate, as far as [CanonicalDomain] uses
    them: parsing, the fully-qualified flag and printing. *)
Class HickoryName := {
  HName : Type;
  from_ascii : chars -> option HName;
  set_fqdn : HName -> HName;
  to_ascii : HName -> chars
}.

Record CanonicalDomain := mk_domain { as_str : chars }.
#[global] Instance CanonicalDomain_eq_dec : EqDecision CanonicalDomain.
Proof. solve_decision. Defined.
#[global] Instance CanonicalDomain_countable : Countable CanonicalDomain.
Proof. refine (inj_countable' as_str mk_domain _). by intros []. Defined.

Inductive HostsRecord :=
| Address (a : IpAddr)
| Cname (d : CanonicalDomain).
#[global] Instance HostsRecord_eq_dec : EqDecision HostsRecord.
Proof. solve_decision. Defined.

Definition same_as (a b : HostsRecord) : bool := bool_decide (a = b).
Definition is_cname (r : HostsRecord) : bool := match r with Cname _ => true | _ => false end.

Record HostsLimits := mk_limits {
  max_input_bytes : Z;
  max_records : Z;
  max_names : Z;
  max_line_bytes : Z
}.
Definition default_limits : HostsLimits :=
  mk_limits (8 * 1024 * 1024) 65536 65536 (16 * 1024).

Inductive HostsParseError :=
| InputTooLarge | TooManyRecords | TooManyNames | LineTooLong (line : Z)
| MissingAddress (line : Z) | InvalidAddress (line : Z) | MissingName (line : Z)
| InvalidNameAtLine (line : Z) | InvalidName | InvalidJson | UnsupportedRecordType
| ConflictingRecords | ConflictingCname.

Record HostsIndex := mk_hosts {
  exact : gmap CanonicalDomain (list HostsRecord);
  wildcard : gmap CanonicalDomain (list HostsRecord);
  record_count : Z
}.

Definition hosts_empty : HostsIndex := mk_hosts ∅ ∅ 0.

(** [CanonicalDomain::is_wildcard]. *)
Definition is_wildcard (d : CanonicalDomain) : bool := starts_with (lit "*.") (as_str d).

(** [String::pop]. *)
Definition pop (s : chars) : chars := take (length s - 1) s.

Section Parse.
Context {HN : HickoryName}.

Definition CanonicalDomain_parse (value : chars) : result HostsParseError CanonicalDomain :=
  let value := trim value in
  let name := default value (strip_prefix (lit "*.") value) in
  if bool_decide (name = []) || bool_decide (42 ∈ name) then Err InvalidName
  else
    parsed ← ok_or InvalidName (from_ascii value);
    let normalized := to_ascii_lowercase (to_ascii (set_fqdn parsed)) in
    let normalized := if bool_decide (normalized = lit ".") then normalized else pop normalized in
    if bool_decide (normalized = []) || bool_decide (normalized = lit "*") then Err InvalidName
    else Ok (mk_domain normalized).

End Parse.

(** ** The index *)

Definition owner_count (idx : HostsIndex) : Z :=
  Z.of_nat (size (exact idx)) + Z.of_nat (size (wildcard idx)).

Definition hosts_insert (idx : HostsIndex) (owner : CanonicalDomain) (record : HostsRecord)
    (limits : HostsLimits) : result HostsParseError HostsIndex :=
  let wild := is_wildcard owner in
  let map := if wild then wildcard idx else exact idx in
  let is_new_owner := bool_decide (map !! owner = None) in
  if is_new_owner && (max_names limits <=? owner_count idx) then Err TooManyNames
  else
    let records := default [] (map !! owner) in
    if existsb (fun e => negb (Bool.eqb (is_cname e) (is_cname record))) records
    then Err ConflictingRecords
    else if is_cname record && existsb (fun e => is_cname e && negb (same_as e record)) records
    then Err ConflictingCname
    else if existsb (fun e => same_as e record) records then
      Ok (if wild then mk_hosts (exact idx) (<[owner := records]> map) (record_count idx)
          else mk_hosts (<[owner := records]> map) (wildcard idx) (record_count idx))
    else if max_records limits <=? record_count idx then Err TooManyRecords
    else
      let map' := <[owner := records ++ [record]]> map in
      Ok (if wild then mk_hosts (exact idx) map' (record_count idx + 1)
          else mk_hosts map' (wildcard idx) (record_count idx + 1)).

(** The loop over the wildcard owners of the parent domains, nearest first. *)
Fixpoint lookup_suffixes (idx : HostsIndex) (labels : list chars) : option (list HostsRecord) :=
  match labels with
  | [] => None
  | _ :: rest =>
    match rest with
    | [] => None
    | _ => match wildcard idx !! mk_domain (lit "*." ++ join (lit ".") rest) with
           | Some records => Some records
           | None => lookup_suffixes idx rest
           end
    end
  end.

Definition lookup_hosts (idx : HostsIndex) (name : CanonicalDomain) : option (list HostsRecord) :=
  match exact idx !! name with
  | Some records => Some records
  | None => if is_wildcard name then None
            else lookup_suffixes idx (split_on 46 (as_str name))
  end.

(** [HostsIndex::records]. *)
Definition hosts_records (idx : HostsIndex) (owner : CanonicalDomain) : option (list HostsRecord) :=
  (if is_wildcard owner then wildcard idx else exact idx) !! owner.

(** ** Parsers *)

Section Parsers.
Context {HN : HickoryName}.

(** The names of one line, all owners of the same address. *)
Fixpoint insert_names (idx : HostsIndex) (names : list chars) (address : IpAddr) (line : Z)
    (limits : HostsLimits) : result HostsParseError HostsIndex :=
  match names with
  | [] => Ok idx
  | n :: names' =>
    owner ← map_err (fun _ => InvalidNameAtLine line) (CanonicalDomain_parse n);
    idx ← hosts_insert idx owner (Address address) limits;
    insert_names idx names' address line limits
  end.

Definition parse_line (idx : HostsIndex) (raw_line : chars) (line : Z) (limits : HostsLimits) :
    result HostsParseError HostsIndex :=
  if max_line_bytes limits <? text_len raw_line then Err (LineTooLong line)
  else
    let content := trim (before_first 35 raw_line) in
    if bool_decide (content = []) then Ok idx
    else match split_whitespace content with
    | [] => Err (MissingAddress line)
    | first :: names =>
      address ← ok_or (InvalidAddress line) (parse_ip first);
      idx ← insert_names idx names address line limits;
      if bool_decide (names = []) then Err (MissingName line) else Ok idx
    end.

Fixpoint parse_lines (idx : HostsIndex) (ls : list chars) (line : Z) (limits : HostsLimits) :
    result HostsParseError HostsIndex :=
  match ls with
  | [] => Ok idx
  | l :: ls' => idx ← parse_line idx l line limits; parse_lines idx ls' (line + 1) limits
  end.

Definition parse_hosts_with_limits (input : chars) (limits : HostsLimits) :
    result HostsParseError HostsIndex :=
  if max_input_bytes limits <? text_len input then Err InputTooLarge
  else parse_lines hosts_empty (lines input) 1 limits.

(** The deserialised JSON document: owners in key order, each with the enabled
    flag and the values per record type. *)
Record JsonHost := mk_json_host {
  jh_name : chars;
  jh_enable : bool;
  jh_records : list (chars * list chars)
}.

Definition json_record (record_type value : chars) : result HostsParseError HostsRecord :=
  if bool_decide (record_type = lit "A") || bool_decide (record_type = lit "AAAA") then
    address ← ok_or InvalidJson (parse_ip value);
    let is_v4 := match address with V4 _ => true | V6 _ => false end in
    if (bool_decide (record_type = lit "A") && negb is_v4) ||
       (bool_decide (record_type = lit "AAAA") && is_v4) then Err InvalidJson
    else Ok (Address address)
  else if bool_decide (record_type = lit "CNAME") then Cname <$> CanonicalDomain_parse value
  else Err UnsupportedRecordType.

Fixpoint insert_values (idx : HostsIndex) (owner : CanonicalDomain) (record_type : chars)
    (values : list chars) (limits : HostsLimits) : result HostsParseError HostsIndex :=
  match values with
  | [] => Ok idx
  | v :: values' =>
    record ← json_record record_type v;
    idx ← hosts_insert idx owner record limits;
    insert_values idx owner record_type values' limits
  end.

Fixpoint insert_types (idx : HostsIndex) (owner : CanonicalDomain)
    (records : list (chars * list chars)) (limits : HostsLimits) :
    result HostsParseError HostsIndex :=
  match records with
  | [] => Ok idx
  | (t, values) :: records' =>
    idx ← insert_values idx owner (to_ascii_uppercase t) values limits;
    insert_types idx owner records' limits
  end.

Fixpoint insert_json (idx : HostsIndex) (hosts : list JsonHost) (limits : HostsLimits) :
    result HostsParseError HostsIndex :=
  match hosts with
  | [] => Ok idx
  | h :: hosts' =>
    if negb (jh_enable h) then insert_json idx hosts' limits
    else
      owner ← CanonicalDomain_parse (jh_name h);
      idx ← insert_types idx owner (jh_records h) limits;
      insert_json idx hosts' limits
  end.

(** [parse_json_with_limits]; [decode] is the YAML/JSON deserialiser. *)
Definition parse_json_with_limits (decode : chars -> option (list JsonHost)) (input : chars)
    (limits : HostsLimits) : result HostsParseError HostsIndex :=
  if max_input_bytes limits <? text_len input then Err InputTooLarge
  else hosts ← ok_or InvalidJson (decode input); insert_json hosts_empty hosts limits.

End Parsers.

(** ** Invariant *)

Definition total (m : gmap CanonicalDomain (list HostsRecord)) : Z :=
  map_fold (fun _ l acc => Z.of_nat (length l) + acc) 0 m.

(** The records of an owner: distinct, and either addresses or one alias. *)
Definition records_ok (l : list HostsRecord) : Prop :=
  l <> [] /\ NoDup l /\ (Forall (fun r => is_cname r = false) l \/ exists d, l = [Cname d]).

Record hosts_inv (limits : HostsLimits) (idx : HostsIndex) : Prop := {
  hi_count : record_count idx = total (exact idx) + total (wildcard idx);
  hi_max_records : record_count idx <= Z.max 0 (max_records limits);
  hi_max_names : owner_count idx <= Z.max 0 (max_names limits);
  hi_exact : map_Forall (fun d l => is_wildcard d = false /\ records_ok l) (exact idx);
  hi_wildcard : map_Forall (fun d l => is_wildcard d = true /\ records_ok l) (wildcard idx)
}.

Lemma total_insert d l m :
  total (<[d := l]> m) = total m - Z.of_nat (length (default [] (m !! d))) + Z.of_nat (length l).
Proof.
  assert (Hins : forall k r (rs : gmap CanonicalDomain (list HostsRecord)), rs !! k = None ->
    total (<[k := r]> rs) = Z.of_nat (length r) + total rs).
  { intros k r rs Hk. unfold total.
    rewrite (map_fold_insert_L (fun _ l acc => Z.of_nat (length l) + acc)); [done|lia|done]. }
  destruct (m !! d) as [l0|] eqn:Hd; cbn.
  - rewrite <-(insert_delete_id m d l0 Hd) at 2. rewrite <-(insert_delete_eq m d l).
    rewrite !Hins by apply lookup_delete_eq. unfold id. lia.
  - rewrite Hins by done. lia.
Qed.

Lemma existsb_false {A} (f : A -> bool) (l : list A) :
  existsb f l = false -> Forall (fun x => f x = false) l.
Proof. induction l as [|x l IH]; cbn; [constructor|]. intros [? ?]%orb_false_iff. constructor; auto. Qed.

Lemma records_ok_snoc records record :
  (records = [] \/ records_ok records) ->
  existsb (fun e => negb (Bool.eqb (is_cname e) (is_cname record))) records = false ->
  is_cname record && existsb (fun e => is_cname e && negb (same_as e record)) records = false ->
  existsb (fun e => same_as e record) records = false ->
  records_ok (records ++ [record]).
Proof.
  intros Hok Hmix%existsb_false Hcn Hnew%existsb_false.
  assert (Hnot : record ∉ records).
  { intros Hin. pose proof (proj1 (list.Forall_forall _ _) Hnew _ Hin) as H.
    unfold same_as in H. by apply bool_decide_eq_false in H. }
  split; [by destruct records|]. split.
  - apply list.NoDup_app. split; [destruct Hok as [-> |[_ [? _]]]; [constructor|done]|].
    split; [set_solver|apply NoDup_singleton].
  - destruct record as [a|d]; cbn in Hmix, Hcn.
    + left. apply Forall_app. split; [|by repeat constructor].
      revert Hmix. apply Forall_impl. intros e. by destruct (is_cname e).
    + right. destruct Hok as [-> |(Hne & _ & [Hall|[d0 ->]])]; [by exists d|..].
      * destruct records as [|e records]; [done|]. inversion_clear Hall as [|? ? He].
        inversion_clear Hmix as [|? ? Hm]. by rewrite He in Hm.
      * cbn in Hcn. unfold same_as in Hcn. rewrite orb_false_r, negb_false_iff in Hcn.
        apply bool_decide_eq_true in Hcn. injection Hcn as ->. set_solver.
Qed.

Lemma hosts_insert_inv limits idx owner record idx' :
  hosts_inv limits idx -> hosts_insert idx owner record limits = Ok idx' -> hosts_inv limits idx'.
Proof.
  intros [H1 H2 H3 H4 H5]. unfold hosts_insert. cbv zeta.
  set (map := if is_wildcard owner then wildcard idx else exact idx).
  set (records := default [] (map !! owner)).
  assert (Hmap : map_Forall (fun d l => is_wildcard d = is_wildcard owner /\ records_ok l) map).
  { subst map. by destruct (is_wildcard owner). }
  assert (Hrec : records = [] \/ records_ok records).
  { subst records. destruct (map !! owner) as [l|] eqn:E; [right|by left]. by apply Hmap in E as [_ ?]. }
  case_bool_decide as Hnew; cbn [andb].
  - destruct (Z.leb_spec (max_names limits) (owner_count idx)); [done|].
    assert (records = []) as E by (subst records; by rewrite Hnew). rewrite E. cbn.
    rewrite andb_false_r. destruct (Z.leb_spec (max_records limits) (record_count idx)); [done|].
    intros Hok. assert (Hone : records_ok [record]).
    { split; [done|]. split; [apply NoDup_singleton|]. destruct record; [left; by repeat constructor|right; eauto]. }
    unfold owner_count in *. subst map. destruct (is_wildcard owner) eqn:Hw; injection Hok as <-; split; unfold owner_count; cbn.
    all: rewrite ?total_insert, ?Hnew, ?map_size_insert_None by done; cbn; try lia; try done.
    all: by apply map_Forall_insert_2.
  - destruct (existsb (fun e => negb _) records) eqn:E1; [done|].
    destruct (is_cname record && _) eqn:E2; [done|].
    assert (Hsome : exists l, map !! owner = Some l) by (destruct (map !! owner); [eauto|done]).
    destruct Hsome as [l Hl]. assert (records = l) as Er by (subst records; by rewrite Hl).
    destruct (existsb (fun e => same_as e record) records) eqn:E3.
    + intros Hok. rewrite Er, insert_id in Hok by done. unfold owner_count in *.
      subst map. destruct (is_wildcard owner); injection Hok as <-; by split.
    + destruct (Z.leb_spec (max_records limits) (record_count idx)); [done|]. intros Hok.
      pose proof (records_ok_snoc records record Hrec E1 E2 E3) as Hnewrec.
      unfold owner_count in *. subst map.
      destruct (is_wildcard owner) eqn:Hw; injection Hok as <-; split; unfold owner_count; cbn.
      all: rewrite ?total_insert, ?Hl, ?map_size_insert_Some by eauto.
      all: try (unfold default, from_option, id; rewrite Er, length_app; cbn; lia).
      all: try lia; try done; by apply map_Forall_insert_2.
Qed.

(** ** Parsing keeps the invariant *)

Section ParseInv.
Context {HN : HickoryName}.

Lemma insert_names_inv limits idx names a line idx' :
  hosts_inv limits idx -> insert_names idx names a line limits = Ok idx' -> hosts_inv limits idx'.
Proof.
  revert idx. induction names as [|n names IH]; intros idx Hi; cbn [insert_names].
  { by intros [= <-]. }
  intros H. inv_ok. eapply IH; [|done]. by eapply hosts_insert_inv.
Qed.

Lemma parse_lines_inv limits idx ls line idx' :
  hosts_inv limits idx -> parse_lines idx ls line limits = Ok idx' -> hosts_inv limits idx'.
Proof.
  revert idx line. induction ls as [|l ls IH]; intros idx line Hi; cbn [parse_lines].
  { by intros [= <-]. }
  intros (idx1 & Hl & H)%bind_ok. eapply IH; [|exact H]. unfold parse_line in Hl.
  destruct (_ <? _); [done|]. case_bool_decide; [by injection Hl as <-|].
  destruct (split_whitespace _) as [|first names]; [done|]. inv_ok.
  case_bool_decide; [done|]. inv_ok. subst. by eapply insert_names_inv.
Qed.

Lemma insert_values_inv limits idx owner t values idx' :
  hosts_inv limits idx -> insert_values idx owner t values limits = Ok idx' -> hosts_inv limits idx'.
Proof.
  revert idx. induction values as [|v values IH]; intros idx Hi; cbn [insert_values].
  { by intros [= <-]. }
  intros H. inv_ok. eapply IH; [|done]. by eapply hosts_insert_inv.
Qed.

Lemma insert_types_inv limits idx owner records idx' :
  hosts_inv limits idx -> insert_types idx owner records limits = Ok idx' -> hosts_inv limits idx'.
Proof.
  revert idx. induction records as [|[t vs] records IH]; intros idx Hi; cbn [insert_types].
  { by intros [= <-]. }
  intros H. inv_ok. eapply IH; [|done]. by eapply insert_values_inv.
Qed.

Lemma insert_json_inv limits idx hosts idx' :
  hosts_inv limits idx -> insert_json idx hosts limits = Ok idx' -> hosts_inv limits idx'.
Proof.
  revert idx. induction hosts as [|h hosts IH]; intros idx Hi; cbn [insert_json].
  { by intros [= <-]. }
  destruct (negb _); [by apply IH|]. intros H. inv_ok. eapply IH; [|done].
  by eapply insert_types_inv.
Qed.

Lemma hosts_empty_inv limits : hosts_inv limits hosts_empty.
Proof.
  split; cbn; try done.
  - lia.
  - unfold owner_count. cbn. rewrite !map_size_empty. lia.
Qed.

(** Whatever a hosts file contains, an accepted index respects the record
    and owner limits, counts exactly its records, keeps wildcard and exact owners
    apart, and gives every owner distinct records that are either all addresses
    or a single alias. The same holds for the JSON form. *)
Theorem parse_hosts_inv decode input limits idx :
  parse_hosts_with_limits input limits = Ok idx \/
  parse_json_with_limits decode input limits = Ok idx ->
  hosts_inv limits idx.
Proof.
  unfold parse_hosts_with_limits, parse_json_with_limits. intros [H|H]; destruct (_ <? _); try done.
  - eapply parse_lines_inv; [apply hosts_empty_inv|exact H].
  - inv_ok. eapply insert_json_inv; [apply hosts_empty_inv|exact H].
Qed.

End ParseInv.

(** ** Lookup *)

Definition wild (s : chars) : CanonicalDomain := mk_domain (lit "*." ++ s).

Lemma lookup_suffixes_spec idx s :
  match lookup_suffixes idx (split_on 46 s) with
  | Some recs => exists p s', s = p ++ 46 :: s' /\ wildcard idx !! wild s' = Some recs /\
      forall p2 s2, s = p2 ++ 46 :: s2 -> (length s' < length s2)%nat -> wildcard idx !! wild s2 = None
  | None => forall p2 s2, s = p2 ++ 46 :: s2 -> wildcard idx !! wild s2 = None
  end.
Proof.
  induction s as [s IH] using (induction_ltof1 _ (@length Z)).
  destruct (split_on_cases 46 s) as [[Hn ->]|(l & s' & -> & Hl & ->)]; cbn [lookup_suffixes].
  { intros p2 s2 ->. set_solver. }
  pose proof (split_on_nonempty 46 s') as Hne. pose proof (join_split 46 s') as Hj.
  specialize (IH s'). destruct (split_on 46 s') as [|x xs] eqn:E; [done|].
  change (lit ".") with [46]. rewrite Hj. fold (wild s').
  destruct (wildcard idx !! wild s') as [recs|] eqn:Hw.
  - exists l, s'. split; [done|]. split; [done|]. intros p2 s2 Heq Hlt.
    apply (f_equal length) in Heq as Hlen. rewrite !length_app in Hlen. cbn in Hlen.
    destruct (split_at_first 46 l s' p2 s2 Hl Heq) as [[-> ->]|(p3 & -> & ->)]; [lia|].
    rewrite length_app in Hlt. cbn in Hlt. lia.
  - assert (Hlt : ltof _ (@length Z) s' (l ++ 46 :: s')).
    { unfold ltof. rewrite length_app. cbn. lia. }
    specialize (IH Hlt). destruct (lookup_suffixes idx (x :: xs)) as [recs|].
    + destruct IH as (p & s3 & -> & Hr & Hmax). exists (l ++ 46 :: p), s3.
      split; [by rewrite <-app_assoc|]. split; [done|]. intros p2 s2 Heq Hlen.
      destruct (split_at_first 46 l _ p2 s2 Hl Heq) as [[-> ->]|(p3 & -> & H3)]; [done|eauto].
    + intros p2 s2 Heq. destruct (split_at_first 46 l s' p2 s2 Hl Heq) as [[-> ->]|(p3 & -> & H3)]; eauto.
Qed.

(** A hosts lookup prefers the exact owner; otherwise, for a name that is not
    itself a wildcard, it returns the records of the nearest wildcard parent: the
    one for the longest proper suffix of the name that starts after a dot. *)
Theorem lookup_hosts_spec idx name :
  match lookup_hosts idx name with
  | Some recs =>
      exact idx !! name = Some recs \/
      (exact idx !! name = None /\ is_wildcard name = false /\
       exists p s, as_str name = p ++ 46 :: s /\ wildcard idx !! wild s = Some recs /\
         forall p2 s2, as_str name = p2 ++ 46 :: s2 -> (length s < length s2)%nat ->
           wildcard idx !! wild s2 = None)
  | None => exact idx !! name = None /\
      (is_wildcard name = false ->
       forall p s, as_str name = p ++ 46 :: s -> wildcard idx !! wild s = None)
  end.
Proof.
  unfold lookup_hosts. destruct (exact idx !! name) as [recs|]; [by left|].
  destruct (is_wildcard name); [done|].
  pose proof (lookup_suffixes_spec idx (as_str name)) as H.
  by destruct (lookup_suffixes idx _); [right|].
Qed.

(** ** Concrete runs *)

Section HostsWitness.

(** Names as their text, printed with the root dot. *)
Definition text_names : HickoryName :=
  {| HName := chars; from_ascii := Some; set_fqdn := fun n => n; to_ascii := fun n => n ++ [46] |}.

(** Two lines: an exact and a wildcard owner. *)
Definition sample_text : chars :=
  lit "10.0.0.1 Host.Example # comment" ++ [10] ++ lit "10.0.0.2 *.example" ++ [13; 10].
Definition sample_hosts : HostsIndex :=
  match parse_hosts_with_limits (HN := text_names) sample_text default_limits with
  | Ok idx => idx | Err _ => hosts_empty end.

Lemma parse_hosts_inv_witness :
  hosts_inv default_limits sample_hosts /\ record_count sample_hosts = 2.
Proof.
  split; [|by vm_compute].
  apply (parse_hosts_inv (HN := text_names) (fun _ => None) sample_text). left.
  unfold sample_hosts.
  assert (K : is_ok (parse_hosts_with_limits (HN := text_names) sample_text default_limits) = true)
    by (by vm_compute).
  by destruct (parse_hosts_with_limits sample_text default_limits).
Defined.

Example lookup_examples :
  (lookup_hosts sample_hosts (mk_domain (lit "host.example")),
   lookup_hosts sample_hosts (mk_domain (lit "a.b.example")),
   lookup_hosts sample_hosts (mk_domain (lit "example"))) =
  (Some [Address (V4 0x0A000001)], Some [Address (V4 0x0A000002)], None).
Proof. by vm_compute. Qed.

End HostsWitness.
