(* ===== verification/Rules.v ===== *)
(** * Rule sets (src/backend/src/resource/rules.rs)

    The rule index (exact, suffix, keyword and regex rules, or a map of named
    sub-indexes), its three source formats, and the protobuf reader of the [dat]
    format. *)

From S2P Require Import Prelude Text Regex Hosts.

Record RuleLimits := mk_rule_limits {
  rl_max_input_bytes : Z;
  rl_max_rules : Z;
  rl_max_rule_bytes : Z;
  rl_max_regex_bytes : Z;
  rl_max_regex_program : nat;
  rl_max_selectors : Z;
  rl_max_selector_bytes : Z
}.
Definition default_rule_limits : RuleLimits :=
  mk_rule_limits (16 * 1024 * 1024) 131072 4096 2048 4096 4096 128.

Inductive RuleParseError :=
| RP_InputTooLarge | RP_TooManyRules | RP_RuleTooLong (line : Z) | RP_InvalidJson
| RP_MissingRuleField | RP_UnsupportedSingBoxVersion | RP_InvalidFieldCount (line : Z)
| RP_UnknownRuleType (line : Z) | RP_InvalidDomain (line : Z) | RP_InvalidKeyword
| RP_InvalidRegex (line : Z) | RP_UnsupportedRegex (line : Z) | RP_RegexProgramTooLarge (line : Z)
| RP_InvalidDat | RP_TooManySelectors | RP_InvalidDatSelector | RP_DatSelectorTooLong
| RP_UnsupportedDatDomainType.

Definition with_line (e : RegexCompileError) (line : Z) : RuleParseError :=
  match e with
  | RxInvalid => RP_InvalidRegex line
  | RxUnsupported => RP_UnsupportedRegex line
  | RxTooLarge => RP_RegexProgramTooLarge line
  end.

Inductive RuleMatch :=
| RM_Exact
| RM_Suffix (label_count : nat)
| RM_Keyword (ordinal : nat)
| RM_Regex (ordinal : nat).

(** ** The index *)

(** One rule set; keywords in the order of the [BTreeSet]. *)
Record RuleIndex := mk_rules {
  r_exact : gset CanonicalDomain;
  r_suffix : gset CanonicalDomain;
  r_keywords : list chars;
  r_regex : list CompiledRegex;
  rule_count : Z;
  skipped_unsupported_count : Z
}.

(** A parsed resource: a plain index, or the named indexes of a [dat] file. *)
Inductive RuleResource :=
| RR_Plain (idx : RuleIndex)
| RR_Selectors (selectors : gmap chars RuleIndex) (rule_count skipped : Z).

Definition rules_empty : RuleIndex := mk_rules ∅ ∅ [] [] 0 0.

Definition bump_rule_count (idx : RuleIndex) (limits : RuleLimits) :
    result RuleParseError RuleIndex :=
  if rl_max_rules limits <=? rule_count idx then Err RP_TooManyRules
  else Ok (mk_rules (r_exact idx) (r_suffix idx) (r_keywords idx) (r_regex idx)
             (rule_count idx + 1) (skipped_unsupported_count idx)).

Inductive RuleKind := RK_Exact | RK_Suffix.

(** Order of strings: by character. *)
Fixpoint chars_ltb (a b : chars) : bool :=
  match a, b with
  | _, [] => false
  | [], _ :: _ => true
  | x :: a', y :: b' => (x <? y) || ((x =? y) && chars_ltb a' b')
  end.

(** [BTreeSet::insert]: in order, nothing if present. *)
Fixpoint keyword_insert (k : chars) (l : list chars) : list chars :=
  match l with
  | [] => [k]
  | x :: l' => if bool_decide (x = k) then l
               else if chars_ltb k x then k :: l else x :: keyword_insert k l'
  end.

Section Rules.
Context {HN : HickoryName}.

Definition add_domain (idx : RuleIndex) (kind : RuleKind) (value : chars) (line : Z)
    (limits : RuleLimits) : result RuleParseError RuleIndex :=
  if rl_max_rule_bytes limits <? text_len value then Err (RP_RuleTooLong line)
  else
    domain ← map_err (fun _ => RP_InvalidDomain line) (CanonicalDomain_parse value);
    if is_wildcard domain then Err (RP_InvalidDomain line)
    else
      let present := match kind with
        | RK_Exact => bool_decide (domain ∈ r_exact idx)
        | RK_Suffix => bool_decide (domain ∈ r_suffix idx)
        end in
      let idx' := match kind with
        | RK_Exact => mk_rules ({[domain]} ∪ r_exact idx) (r_suffix idx) (r_keywords idx)
            (r_regex idx) (rule_count idx) (skipped_unsupported_count idx)
        | RK_Suffix => mk_rules (r_exact idx) ({[domain]} ∪ r_suffix idx) (r_keywords idx)
            (r_regex idx) (rule_count idx) (skipped_unsupported_count idx)
        end in
      if present then Ok idx' else bump_rule_count idx' limits.

Definition add_regex (idx : RuleIndex) (value : chars) (line : Z) (limits : RuleLimits) :
    result RuleParseError RuleIndex :=
  if rl_max_regex_bytes limits <? text_len value then Err (RP_RuleTooLong line)
  else
    compiled ← map_err (fun e => with_line e line) (compile value (rl_max_regex_program limits));
    bump_rule_count (mk_rules (r_exact idx) (r_suffix idx) (r_keywords idx)
      (r_regex idx ++ [compiled]) (rule_count idx) (skipped_unsupported_count idx)) limits.

Definition add_keyword (idx : RuleIndex) (value : chars) (limits : RuleLimits) :
    result RuleParseError RuleIndex :=
  if (rl_max_rule_bytes limits <? text_len value) || bool_decide (value = [])
  then Err RP_InvalidKeyword
  else
    let value := to_ascii_lowercase value in
    let idx' := mk_rules (r_exact idx) (r_suffix idx) (keyword_insert value (r_keywords idx))
      (r_regex idx) (rule_count idx) (skipped_unsupported_count idx) in
    if bool_decide (value ∈ r_keywords idx) then Ok idx' else bump_rule_count idx' limits.

(** ** Matching *)

(** The suffix loop: the number of labels of the longest suffix in the set. *)
Fixpoint match_suffix (set : gset CanonicalDomain) (labels : list chars) : option nat :=
  match labels with
  | [] => None
  | _ :: rest =>
    match CanonicalDomain_parse (join (lit ".") labels) with
    | Ok candidate => if bool_decide (candidate ∈ set) then Some (length labels)
                      else match_suffix set rest
    | Err _ => match_suffix set rest
    end
  end.

(** [iter().enumerate().find(..)], the index only. *)
Fixpoint position_of {A} (p : A -> bool) (l : list A) (i : nat) : option nat :=
  match l with
  | [] => None
  | x :: l' => if p x then Some i else position_of p l' (S i)
  end.

Definition rule_matches (idx : RuleIndex) (name : CanonicalDomain) : option RuleMatch :=
  if bool_decide (name ∈ r_exact idx) then Some RM_Exact
  else match match_suffix (r_suffix idx) (split_on 46 (as_str name)) with
  | Some n => Some (RM_Suffix n)
  | None =>
    match position_of (fun k => contains_sub k (as_str name)) (r_keywords idx) 0 with
    | Some i => Some (RM_Keyword i)
    | None => RM_Regex <$> position_of (fun r => is_match r (as_str name)) (r_regex idx) 0
    end
  end.

(** ** The Clash text format *)

Definition clash_line (idx : RuleIndex) (raw_line : chars) (line : Z) (limits : RuleLimits) :
    result RuleParseError RuleIndex :=
  if rl_max_rule_bytes limits <? text_len raw_line then Err (RP_RuleTooLong line)
  else
    let content := trim (before_first 35 raw_line) in
    if bool_decide (content = []) then Ok idx
    else match trim <$> split_on 44 content with
    | [kind; value] =>
      if bool_decide (kind = []) || bool_decide (value = []) then Err (RP_InvalidFieldCount line)
      else
        let kind := to_ascii_uppercase kind in
        if bool_decide (kind = lit "DOMAIN") then add_domain idx RK_Exact value line limits
        else if bool_decide (kind = lit "DOMAIN-SUFFIX") then add_domain idx RK_Suffix value line limits
        else if bool_decide (kind = lit "DOMAIN-REGEX") then add_regex idx value line limits
        else Err (RP_UnknownRuleType line)
    | _ => Err (RP_InvalidFieldCount line)
    end.

Fixpoint clash_lines (idx : RuleIndex) (ls : list chars) (line : Z) (limits : RuleLimits) :
    result RuleParseError RuleIndex :=
  match ls with
  | [] => Ok idx
  | l :: ls' => idx ← clash_line idx l line limits; clash_lines idx ls' (line + 1) limits
  end.

Definition parse_clash_with_limits (input : chars) (limits : RuleLimits) :
    result RuleParseError RuleIndex :=
  if rl_max_input_bytes limits <? text_len input then Err RP_InputTooLarge
  else clash_lines rules_empty (lines input) 1 limits.

(** ** The JSON format, after deserialisation *)

Record JsonRuleFields := mk_json_rules {
  jr_domain : option (list chars);
  jr_domain_suffix : option (list chars);
  jr_domain_keyword : option (list chars);
  jr_domain_regex : option (list chars)
}.

Inductive JsonRuleDocument :=
| JD_Legacy (fields : JsonRuleFields)
| JD_SingBox (version : Z) (rules : list JsonRuleFields).

Fixpoint add_all (add : RuleIndex -> chars -> result RuleParseError RuleIndex)
    (idx : RuleIndex) (values : list chars) : result RuleParseError RuleIndex :=
  match values with
  | [] => Ok idx
  | v :: values' => idx ← add idx v; add_all add idx values'
  end.

Definition has_supported_field (f : JsonRuleFields) : bool :=
  bool_decide (is_Some (jr_domain f)) || bool_decide (is_Some (jr_domain_suffix f)) ||
  bool_decide (is_Some (jr_domain_keyword f)) || bool_decide (is_Some (jr_domain_regex f)).

Definition add_json_fields (idx : RuleIndex) (f : JsonRuleFields) (limits : RuleLimits) :
    result RuleParseError RuleIndex :=
  idx ← add_all (fun i v => add_domain i RK_Exact v 0 limits) idx (default [] (jr_domain f));
  idx ← add_all (fun i v => add_domain i RK_Suffix v 0 limits) idx (default [] (jr_domain_suffix f));
  idx ← add_all (fun i v => add_keyword i v limits) idx (default [] (jr_domain_keyword f));
  add_all (fun i v => add_regex i v 0 limits) idx (default [] (jr_domain_regex f)).

Fixpoint add_json_rules (idx : RuleIndex) (rules : list JsonRuleFields) (limits : RuleLimits) :
    result RuleParseError RuleIndex :=
  match rules with
  | [] => Ok idx
  | f :: rules' => idx ← add_json_fields idx f limits; add_json_rules idx rules' limits
  end.

(** [parse_json_with_limits]; [decode] is [serde_json::from_str]. *)
Definition rules_parse_json (decode : chars -> option JsonRuleDocument) (input : chars)
    (limits : RuleLimits) : result RuleParseError RuleIndex :=
  if rl_max_input_bytes limits <? text_len input then Err RP_InputTooLarge
  else
    document ← ok_or RP_InvalidJson (decode input);
    match document with
    | JD_Legacy fields =>
      if negb (has_supported_field fields) then Err RP_MissingRuleField
      else add_json_fields rules_empty fields limits
    | JD_SingBox v rules =>
      if negb ((1 <=? v) && (v <=? 5)) then Err RP_UnsupportedSingBoxVersion
      else
        idx ← add_json_rules rules_empty rules limits;
        if rule_count idx =? 0 then Err RP_MissingRuleField else Ok idx
    end.

End Rules.

(** ** The protobuf reader *)

Record DatReader := mk_reader {
  d_input : list byte;
  d_position : nat
}.

Definition reader_new (input : list byte) : DatReader := mk_reader input 0.
Definition at_position (r : DatReader) (p : nat) : DatReader := mk_reader (d_input r) p.
Definition is_exhausted (r : DatReader) : bool := (d_position r =? length (d_input r))%nat.

(** The loop of [read_varint] over the remaining shifts. *)
Fixpoint varint_loop (shifts : list Z) (r : DatReader) (value : Z) :
    result RuleParseError (Z * DatReader) :=
  match shifts with
  | [] => Err RP_InvalidDat
  | shift :: shifts' =>
    b ← ok_or RP_InvalidDat (d_input r !! d_position r);
    let byte := byte_to_Z b in
    let r := at_position r (S (d_position r)) in
    if (shift =? 63) && (1 <? byte) then Err RP_InvalidDat
    else
      let value := Z.lor value (Z.shiftl (Z.land byte 0x7f) shift) in
      if Z.land byte 0x80 =? 0 then Ok (value, r) else varint_loop shifts' r value
  end.

Definition read_varint (r : DatReader) : result RuleParseError (Z * DatReader) :=
  varint_loop [0; 7; 14; 21; 28; 35; 42; 49; 56; 63] r 0.

Definition read_key (r : DatReader) : result RuleParseError (option (Z * Z) * DatReader) :=
  if is_exhausted r then Ok (None, r)
  else
    '(key, r) ← read_varint r;
    let field := Z.shiftr key 3 in
    let wire := Z.land key 7 in
    if u32_max <? field then Err RP_InvalidDat
    else if field =? 0 then Err RP_InvalidDat
    else Ok (Some (field, wire), r).

(** [advance] by a 64-bit count. *)
Definition advance (r : DatReader) (count : Z) : result RuleParseError DatReader :=
  let stop := Z.of_nat (d_position r) + count in
  if (usize_max <? stop) || (Z.of_nat (length (d_input r)) <? stop) then Err RP_InvalidDat
  else Ok (at_position r (Z.to_nat stop)).

Definition read_length_delimited (r : DatReader) :
    result RuleParseError (list byte * DatReader) :=
  '(len, r) ← read_varint r;
  r' ← advance r len;
  Ok (take (d_position r' - d_position r) (drop (d_position r) (d_input r)), r').

Definition skip_field (r : DatReader) (wire : Z) : result RuleParseError DatReader :=
  if wire =? 0 then snd <$> read_varint r
  else if wire =? 1 then advance r 8
  else if wire =? 2 then snd <$> read_length_delimited r
  else if wire =? 5 then advance r 4
  else Err RP_InvalidDat.

(** ** The [dat] format *)

Record DatDomain := mk_dat_domain { dd_kind : Z; dd_value : chars }.

(** [String::from_utf8]. *)
Definition dat_string (bytes : list byte) : result RuleParseError chars :=
  ok_or RP_InvalidDat (utf8_decode bytes).

Fixpoint dat_domain_loop (fuel : nat) (r : DatReader) (kind : Z) (value : option chars) :
    result RuleParseError DatDomain :=
  match fuel with
  | O => Err RP_InvalidDat
  | S fuel' =>
    '(key, r) ← read_key r;
    match key with
    | None => v ← ok_or RP_InvalidDat value; Ok (mk_dat_domain kind v)
    | Some (field, wire) =>
      if (field =? 1) && (wire =? 0) then
        '(kind, r) ← read_varint r; dat_domain_loop fuel' r kind value
      else if (field =? 2) && (wire =? 2) then
        if bool_decide (is_Some value) then Err RP_InvalidDat
        else
          '(bytes, r) ← read_length_delimited r;
          v ← dat_string bytes; dat_domain_loop fuel' r kind (Some v)
      else r ← skip_field r wire; dat_domain_loop fuel' r kind value
    end
  end.

Definition parse_dat_domain (payload : list byte) : result RuleParseError DatDomain :=
  dat_domain_loop (S (length payload)) (reader_new payload) 0 None.

Fixpoint dat_site_loop (fuel : nat) (r : DatReader) (selector : option chars)
    (domains : list DatDomain) : result RuleParseError (chars * list DatDomain) :=
  match fuel with
  | O => Err RP_InvalidDat
  | S fuel' =>
    '(key, r) ← read_key r;
    match key with
    | None => s ← ok_or RP_InvalidDat selector; Ok (s, domains)
    | Some (field, wire) =>
      if (field =? 1) && (wire =? 2) then
        if bool_decide (is_Some selector) then Err RP_InvalidDat
        else
          '(bytes, r) ← read_length_delimited r;
          s ← dat_string bytes; dat_site_loop fuel' r (Some s) domains
      else if (field =? 2) && (wire =? 2) then
        '(bytes, r) ← read_length_delimited r;
        d ← parse_dat_domain bytes; dat_site_loop fuel' r selector (domains ++ [d])
      else r ← skip_field r wire; dat_site_loop fuel' r selector domains
    end
  end.

(** [normalize_rule_set_selector] of config/model.rs. *)
Definition normalize_rule_set_selector (value : chars) (max_bytes : Z) : option chars :=
  if bool_decide (value = []) || (max_bytes <? text_len value) ||
     negb (forallb (fun c => c <? 128) value) then None
  else if forallb (fun c => (33 <=? c) && (c <=? 126) && negb (c =? 58) && negb (c =? 64)) value
  then Some (to_ascii_lowercase value) else None.

Definition normalize_dat_selector (selector : chars) (limits : RuleLimits) :
    result RuleParseError chars :=
  if bool_decide (selector = []) then Err RP_InvalidDatSelector
  else if rl_max_selector_bytes limits <? text_len selector then Err RP_DatSelectorTooLong
  else ok_or RP_InvalidDatSelector
         (normalize_rule_set_selector selector (rl_max_selector_bytes limits)).

Section Dat.
Context {HN : HickoryName}.

Definition add_dat_domain (idx : RuleIndex) (d : DatDomain) (limits : RuleLimits) :
    result RuleParseError RuleIndex :=
  if dd_kind d =? 0 then add_keyword idx (dd_value d) limits
  else if dd_kind d =? 1 then
    match add_regex idx (dd_value d) 0 limits with
    | Ok idx' => Ok idx'
    | Err (RP_UnsupportedRegex _) =>
        Ok (mk_rules (r_exact idx) (r_suffix idx) (r_keywords idx) (r_regex idx)
              (rule_count idx) (skipped_unsupported_count idx + 1))
    | Err e => Err e
    end
  else if dd_kind d =? 2 then add_domain idx RK_Suffix (dd_value d) 0 limits
  else if dd_kind d =? 3 then add_domain idx RK_Exact (dd_value d) 0 limits
  else Err RP_UnsupportedDatDomainType.

Fixpoint add_dat_domains (idx : RuleIndex) (ds : list DatDomain) (limits : RuleLimits) :
    result RuleParseError RuleIndex :=
  match ds with
  | [] => Ok idx
  | d :: ds' => idx ← add_dat_domain idx d limits; add_dat_domains idx ds' limits
  end.

Definition parse_dat_site (payload : list byte) (limits : RuleLimits) :
    result RuleParseError (chars * RuleIndex) :=
  '(selector, domains) ← dat_site_loop (S (length payload)) (reader_new payload) None [];
  idx ← add_dat_domains rules_empty domains limits;
  Ok (selector, idx).

Definition total_rules (m : gmap chars RuleIndex) : Z :=
  map_fold (fun _ idx acc => rule_count idx + acc) 0 m.

Fixpoint dat_loop (fuel : nat) (r : DatReader) (selectors : gmap chars RuleIndex) (skipped : Z)
    (limits : RuleLimits) : result RuleParseError (DatReader * gmap chars RuleIndex * Z) :=
  match fuel with
  | O => Err RP_InvalidDat
  | S fuel' =>
    '(key, r) ← read_key r;
    match key with
    | None => Ok (r, selectors, skipped)
    | Some (field, wire) =>
      if (field =? 1) && (wire =? 2) then
        '(payload, r) ← read_length_delimited r;
        '(name, idx) ← parse_dat_site payload limits;
        selector ← normalize_dat_selector name limits;
        if bool_decide (is_Some (selectors !! selector)) then Err RP_InvalidDatSelector
        else if rl_max_selectors limits <=? Z.of_nat (size selectors) then Err RP_TooManySelectors
        else if (usize_max <? total_rules selectors + rule_count idx) ||
                (rl_max_rules limits <? total_rules selectors + rule_count idx)
        then Err RP_TooManyRules
        else dat_loop fuel' r (<[selector := idx]> selectors)
               (skipped + skipped_unsupported_count idx) limits
      else r ← skip_field r wire; dat_loop fuel' r selectors skipped limits
    end
  end.

Definition parse_dat_with_limits (input : list byte) (limits : RuleLimits) :
    result RuleParseError RuleResource :=
  if rl_max_input_bytes limits <? bytes_len input then Err RP_InputTooLarge
  else
    '(r, selectors, skipped) ← dat_loop (S (length input)) (reader_new input) ∅ 0 limits;
    if negb (is_exhausted r) || bool_decide (selectors = ∅) then Err RP_InvalidDat
    else Ok (RR_Selectors selectors (total_rules selectors) skipped).

End Dat.

(** ** Varints *)

(** The protobuf encoding of an unsigned integer. *)
Fixpoint varint_bytes (fuel : nat) (n : Z) : list byte :=
  match fuel with
  | O => []
  | S fuel' => if n <? 128 then [byte_of_Z n]
               else byte_of_Z (128 + n mod 128) :: varint_bytes fuel' (n / 128)
  end.

(** The last [j] of the ten shifts. *)
Fixpoint shifts_left (j : nat) : list Z :=
  match j with
  | O => []
  | S j' => 7 * (9 - Z.of_nat j') :: shifts_left j'
  end.

Lemma lor_shiftl_add v m s : 0 <= s -> 0 <= v < 2 ^ s -> Z.lor v (Z.shiftl m s) = v + m * 2 ^ s.
Proof.
  intros Hs Hv. rewrite <-Z.shiftl_mul_pow2 by done.
  assert (Hd : Z.land v (Z.shiftl m s) = 0).
  { destruct (decide (v = 0)) as [->|]; [apply Z.land_0_l|].
    apply Z.bits_inj'. intros i Hi. rewrite Z.land_spec, Z.bits_0, Z.shiftl_spec by done.
    destruct (decide (i < s)).
    - rewrite (Z.testbit_neg_r m) by lia. apply andb_false_r.
    - rewrite Z.bits_above_log2; [done|lia|]. apply Z.log2_lt_pow2; [lia|].
      eapply Z.lt_le_trans; [apply Hv|]. apply Z.pow_le_mono_r; lia. }
  rewrite Z.add_nocarry_lxor by done. by rewrite Z.lxor_lor.
Qed.

Lemma byte_high b : Z.land (byte_to_Z b) 0x80 = if byte_to_Z b <? 128 then 0 else 128.
Proof. by destruct b. Qed.

Lemma byte_low b : Z.land (byte_to_Z b) 0x7f = byte_to_Z b mod 128.
Proof. apply (Z.land_ones (byte_to_Z b) 7). lia. Qed.

Lemma varint_loop_correct j pre rest n v fuel :
  let s := 7 * (10 - Z.of_nat j) in
  (1 <= j <= 10)%nat -> (j <= fuel)%nat -> 0 <= n < 2 ^ (64 - s) -> 0 <= v < 2 ^ s ->
  varint_loop (shifts_left j) (mk_reader (pre ++ varint_bytes fuel n ++ rest) (length pre)) v =
  Ok (v + n * 2 ^ s,
      mk_reader (pre ++ varint_bytes fuel n ++ rest) (length pre + length (varint_bytes fuel n))).
Proof.
  revert pre n v fuel. induction j as [|j IH]; intros pre n v fuel s Hj Hf Hn Hv; [lia|].
  destruct fuel as [|fuel]; [lia|]. cbn [shifts_left varint_loop varint_bytes].
  assert (Es : 7 * (9 - Z.of_nat j) = s) by (subst s; lia). rewrite Es.
  assert (Hs : 0 <= s <= 63) by (subst s; lia).
  assert (Hget : forall x (l : list byte), (pre ++ (x :: l) ++ rest) !! length pre = Some x).
  { intros. rewrite lookup_app_r, Nat.sub_diag by lia. done. }
  destruct (Z.ltb_spec n 128).
  - cbn [d_input d_position]. rewrite Hget. cbn [ok_or mbind result_bind]. cbv zeta.
    rewrite byte_low, byte_high, byte_of_Z_to by lia. bool_true.
    assert (H63 : (s =? 63) && (1 <? n) = false).
    { destruct (Z.eqb_spec s 63) as [E|]; [|done]. rewrite E in Hn. apply Z.ltb_ge. simpl in Hn. lia. }
    rewrite H63. rewrite Z.mod_small by lia. rewrite lor_shiftl_add by lia. cbn. do 3 f_equal.
    unfold at_position. cbn. f_equal. lia.
  - assert (Hlt : s < 63).
    { destruct (decide (s = 63)) as [E|]; [|lia]. rewrite E in Hn. simpl in Hn. lia. }
    assert (Hj' : (1 <= j)%nat) by (subst s; lia).
    pose proof (Z.mod_pos_bound n 128 eq_refl).
    cbn [d_input d_position]. rewrite Hget. cbn [ok_or mbind result_bind]. cbv zeta.
    rewrite byte_low, byte_high, byte_of_Z_to by lia. bool_true.
    rewrite (proj2 (Z.eqb_neq s 63)) by lia. cbn [andb Z.eqb].
    replace ((128 + n mod 128) mod 128) with (n mod 128)
      by (rewrite <-Zplus_mod_idemp_l; cbn [Z.modulo]; by rewrite Z.add_0_l, Zmod_mod).
    rewrite lor_shiftl_add by lia.
    specialize (IH (pre ++ [byte_of_Z (128 + n mod 128)]) (n / 128) (v + n mod 128 * 2 ^ s) fuel).
    cbv zeta in IH. replace (7 * (10 - Z.of_nat j)) with (s + 7) in IH by (subst s; lia).
    rewrite length_app, <-app_assoc in IH. cbn [app length] in IH |- *.
    unfold at_position. cbn [d_input]. replace (length pre + 1)%nat with (S (length pre)) in IH by lia.
    rewrite IH.
    + do 2 f_equal; [|f_equal; lia]. rewrite Z.pow_add_r by lia. change (2 ^ 7) with 128.
      rewrite (Z.div_mod n 128) at 3 by lia. lia.
    + lia.
    + lia.
    + split; [apply Z.div_pos; lia|]. apply Z.div_lt_upper_bound; [lia|].
      replace (64 - s) with (7 + (64 - (s + 7))) in Hn by lia. rewrite Z.pow_add_r in Hn by lia.
      exact (proj2 Hn).
    + split; [nia|]. rewrite Z.pow_add_r by lia. change (2 ^ 7) with 128. nia.
Qed.

Lemma varint_loop_next shifts r v n r' :
  Forall (fun s => 0 <= s) shifts -> 0 <= v -> varint_loop shifts r v = Ok (n, r') ->
  0 <= n /\ d_input r' = d_input r /\ (d_position r < d_position r' <= length (d_input r))%nat.
Proof.
  intros Hs. revert r v. induction Hs as [|s shifts Hs _ IH]; intros r v Hv; cbn [varint_loop]; [done|].
  intros H. inv_ok. apply lookup_lt_Some in H0. destruct (_ && _); [done|].
  assert (Hv' : 0 <= Z.lor v (Z.shiftl (Z.land (byte_to_Z a) 127) s)).
  { apply Z.lor_nonneg. split; [done|]. apply Z.shiftl_nonneg, Z.land_nonneg. lia. }
  destruct (_ =? 0).
  - injection H as <- <-. cbn. split; [done|]. split; [done|]. lia.
  - apply IH in H as (H1 & H2 & H3); [|done]. cbn in H2, H3. split; [done|]. split; [done|lia].
Qed.

(** ** Progress of the reader: every key consumes input, nothing moves back *)

(** [r'] is [r] moved forward, still within the input. *)
Definition forward (r r' : DatReader) : Prop :=
  d_input r' = d_input r /\ (d_position r <= d_position r')%nat /\
  (d_position r' <= length (d_input r))%nat.

Lemma read_varint_next r n r' :
  read_varint r = Ok (n, r') -> 0 <= n /\ forward r r' /\ (d_position r < d_position r')%nat.
Proof.
  intros H. apply varint_loop_next in H as (? & ? & ?); [|by repeat constructor|done].
  split; [done|]. split; [|lia]. split; [done|lia].
Qed.

Lemma read_key_next r f r' :
  read_key r = Ok (Some f, r') -> forward r r' /\ (d_position r < d_position r')%nat.
Proof.
  unfold read_key. destruct (is_exhausted r); [done|]. intros ([key r1] & Hv & H)%bind_ok.
  destruct (_ <? _); [done|]. destruct (_ =? 0); [done|]. injection H as _ <-.
  by apply read_varint_next in Hv as (_ & ?).
Qed.

Lemma read_key_end r r' : read_key r = Ok (None, r') -> is_exhausted r = true /\ r' = r.
Proof.
  unfold read_key. destruct (is_exhausted r); [by intros [= <-]|]. intros ([key r1] & Hv & H)%bind_ok.
  destruct (_ <? _); [done|]. by destruct (_ =? 0).
Qed.

Lemma advance_next r n r' : 0 <= n -> advance r n = Ok r' -> forward r r'.
Proof.
  unfold advance. intros Hn. destruct (_ || _) eqn:E; [done|]. intros [= <-].
  apply orb_false_iff in E as [_ E]. split; [done|]. cbn. lia.
Qed.

Lemma forward_trans r1 r2 r3 : forward r1 r2 -> forward r2 r3 -> forward r1 r3.
Proof. intros (H1 & H2 & H3) (H4 & H5 & H6). rewrite H1 in *. split; [done|lia]. Qed.

Lemma read_length_delimited_next r b r' : read_length_delimited r = Ok (b, r') -> forward r r'.
Proof.
  unfold read_length_delimited. intros ([n r1] & Hv & H)%bind_ok. inv_ok. injection H as _ <-.
  apply read_varint_next in Hv as (Hn & Hf & _). apply advance_next in H0; [|done].
  by eapply forward_trans.
Qed.

Lemma skip_field_next r w r' : skip_field r w = Ok r' -> forward r r'.
Proof.
  unfold skip_field. destruct (w =? 0).
  { destruct (read_varint r) as [[n r1]|] eqn:E; [|done]. intros [= <-]. by apply read_varint_next in E as (_ & ? & _). }
  destruct (w =? 1); [by apply advance_next|]. destruct (w =? 2).
  { destruct (read_length_delimited r) as [[n r1]|] eqn:E; [|done]. intros [= <-].
    by eapply read_length_delimited_next. }
  destruct (w =? 5); [by apply advance_next|done].
Qed.

(** A reader position [k] bytes before the end of the input. *)
Definition remaining_input (r : DatReader) : nat := length (d_input r) - d_position r.

Lemma forward_remaining r r' : forward r r' -> (remaining_input r' <= remaining_input r)%nat.
Proof. intros (H1 & H2 & H3). unfold remaining_input. rewrite H1. lia. Qed.

Lemma key_remaining r f r' :
  read_key r = Ok (Some f, r') -> (remaining_input r' < remaining_input r)%nat.
Proof.
  intros [(H1 & H2 & H3) H4]%read_key_next. unfold remaining_input. rewrite H1. lia.
Qed.

(** One round of a loop over keys with more fuel than remaining input. *)
Ltac reader_step :=
  match goal with
  | H : read_varint _ = Ok (_, _) |- _ =>
      apply read_varint_next in H as (_ & H%forward_remaining & _)
  | H : read_length_delimited _ = Ok (_, _) |- _ =>
      apply read_length_delimited_next, forward_remaining in H
  | H : skip_field _ _ = Ok _ |- _ => apply skip_field_next, forward_remaining in H
  end.

Lemma dat_domain_loop_fuel fuel r k v :
  (remaining_input r < fuel)%nat ->
  dat_domain_loop (S fuel) r k v = dat_domain_loop fuel r k v.
Proof.
  revert r k v. induction fuel as [|fuel IH]; intros r k v Hf; [lia|].
  set (n := S fuel). change (dat_domain_loop n r k v) with (dat_domain_loop (S fuel) r k v).
  cbn [dat_domain_loop].
  destruct (read_key r) as [[[[f w]|] r1]|] eqn:Hk; [|done..]. apply key_remaining in Hk.
  cbn [mbind result_bind]. destruct (_ && _).
  { destruct (read_varint r1) as [[k' r2]|] eqn:E; [|done]. reader_step. cbn [mbind result_bind].
    apply IH. lia. }
  destruct (_ && _).
  { destruct (bool_decide _); [done|].
    destruct (read_length_delimited r1) as [[b r2]|] eqn:E; [|done]. reader_step.
    cbn [mbind result_bind]. destruct (dat_string b); [|done]. cbn [mbind result_bind]. apply IH. lia. }
  destruct (skip_field r1 w) as [r2|] eqn:E; [|done]. reader_step. cbn [mbind result_bind].
  apply IH. lia.
Qed.

Lemma dat_site_loop_fuel fuel r sel ds :
  (remaining_input r < fuel)%nat ->
  dat_site_loop (S fuel) r sel ds = dat_site_loop fuel r sel ds.
Proof.
  revert r sel ds. induction fuel as [|fuel IH]; intros r sel ds Hf; [lia|].
  set (n := S fuel). change (dat_site_loop n r sel ds) with (dat_site_loop (S fuel) r sel ds).
  cbn [dat_site_loop].
  destruct (read_key r) as [[[[f w]|] r1]|] eqn:Hk; [|done..]. apply key_remaining in Hk.
  cbn [mbind result_bind]. destruct (_ && _).
  { destruct (bool_decide _); [done|].
    destruct (read_length_delimited r1) as [[b r2]|] eqn:E; [|done]. reader_step.
    cbn [mbind result_bind]. destruct (dat_string b); [|done]. cbn [mbind result_bind]. apply IH. lia. }
  destruct (_ && _).
  { destruct (read_length_delimited r1) as [[b r2]|] eqn:E; [|done]. reader_step.
    cbn [mbind result_bind]. destruct (parse_dat_domain b); [|done]. cbn [mbind result_bind]. apply IH. lia. }
  destruct (skip_field r1 w) as [r2|] eqn:E; [|done]. reader_step. cbn [mbind result_bind].
  apply IH. lia.
Qed.

(** ** Invariant of a rule index *)

Section RulesInv.
Context {HN : HickoryName}.

Definition rule_total (idx : RuleIndex) : Z :=
  Z.of_nat (size (r_exact idx)) + Z.of_nat (size (r_suffix idx)) +
  Z.of_nat (length (r_keywords idx)) + Z.of_nat (length (r_regex idx)).

(** Everything but the count: contents are what the parsers admit. *)
Record contents_ok (limits : RuleLimits) (idx : RuleIndex) : Prop := {
  co_exact : set_Forall (fun d => is_wildcard d = false) (r_exact idx);
  co_suffix : set_Forall (fun d => is_wildcard d = false) (r_suffix idx);
  co_keywords : StronglySorted (fun a b => chars_ltb a b = true) (r_keywords idx);
  co_lower : Forall (fun k => k <> [] /\ to_ascii_lowercase k = k) (r_keywords idx);
  co_regex : Forall (fun r => (1 <= length (tokens r) <= rl_max_regex_program limits)%nat)
    (r_regex idx)
}.

Record rules_inv (limits : RuleLimits) (idx : RuleIndex) : Prop := {
  ri_count : rule_count idx = rule_total idx;
  ri_max : rule_count idx <= Z.max 0 (rl_max_rules limits);
  ri_contents : contents_ok limits idx
}.

(** A successful bump leaves room for one more rule. *)
Lemma bump_inv limits idx idx' :
  bump_rule_count idx limits = Ok idx' -> rule_count idx + 1 = rule_total idx ->
  contents_ok limits idx -> rules_inv limits idx'.
Proof.
  unfold bump_rule_count. destruct (Z.leb_spec (rl_max_rules limits) (rule_count idx)); [done|].
  intros [= <-] Ht Hc. split; cbn; [done|lia|]. destruct Hc. by split.
Qed.

Lemma ascii_lower_idem c : ascii_lower (ascii_lower c) = ascii_lower c.
Proof.
  unfold ascii_lower. destruct ((65 <=? c) && (c <=? 90)) eqn:E; [|by rewrite E].
  destruct ((65 <=? c + 32) && (c + 32 <=? 90)) eqn:E2; lia.
Qed.

Lemma to_ascii_lowercase_idem s : to_ascii_lowercase (to_ascii_lowercase s) = to_ascii_lowercase s.
Proof.
  unfold to_ascii_lowercase. rewrite map_map. apply map_ext. apply ascii_lower_idem.
Qed.

Lemma chars_ltb_irrefl a : chars_ltb a a = false.
Proof. induction a as [|x a IH]; [done|]. cbn. rewrite IH, Z.ltb_irrefl. by rewrite andb_false_r. Qed.

Lemma chars_ltb_trans a b c :
  chars_ltb a b = true -> chars_ltb b c = true -> chars_ltb a c = true.
Proof.
  revert b c. induction a as [|x a IH]; intros [|y b] [|z c]; cbn; try done.
  specialize (IH b c). destruct (chars_ltb a b), (chars_ltb b c), (chars_ltb a c); lia.
Qed.

Lemma chars_ltb_total a b : chars_ltb a b = true \/ a = b \/ chars_ltb b a = true.
Proof.
  revert b. induction a as [|x a IH]; intros [|y b]; cbn; auto.
  destruct (IH b) as [H|[->|H]].
  - rewrite H. destruct (Z.lt_trichotomy x y) as [?|[->|?]]; [left; lia|left; lia|right; right; lia].
  - destruct (Z.lt_trichotomy x y) as [?|[->|?]]; [left; lia|auto|right; right; lia].
  - rewrite H. destruct (Z.lt_trichotomy x y) as [?|[->|?]]; [left; lia|right; right; lia|right; right; lia].
Qed.

Abbreviation keywords_sorted := (StronglySorted (fun a b => chars_ltb a b = true)).

(** Insertion into a sorted set of keywords: nothing if present, once if not. *)
Lemma keyword_insert_present k l : keywords_sorted l -> k ∈ l -> keyword_insert k l = l.
Proof.
  induction 1 as [|x l Hs IH Hx]; intros Hin; [set_solver|]. cbn [keyword_insert].
  case_bool_decide as E; [done|]. apply elem_of_cons in Hin as [->|Hin]; [done|].
  pose proof (proj1 (list.Forall_forall _ _) Hx k Hin) as Hlt. cbn in Hlt.
  destruct (chars_ltb k x) eqn:Hk; [|by rewrite IH].
  pose proof (chars_ltb_trans _ _ _ Hlt Hk) as H. by rewrite chars_ltb_irrefl in H.
Qed.

Lemma keyword_insert_perm k l : (k ∉ l) -> keyword_insert k l ≡ₚ k :: l.
Proof.
  induction l as [|x l IH]; [done|]. intros Hk. cbn [keyword_insert].
  rewrite bool_decide_false by set_solver. destruct (chars_ltb k x); [done|].
  rewrite IH by set_solver. constructor.
Qed.

Lemma keyword_insert_sorted k l : keywords_sorted l -> keywords_sorted (keyword_insert k l).
Proof.
  intros Hs. destruct (decide (k ∈ l)) as [Hin|Hout]; [by rewrite keyword_insert_present|].
  induction Hs as [|x l Hs IH Hx]; [by repeat constructor|]. cbn [keyword_insert].
  rewrite bool_decide_false by set_solver. destruct (chars_ltb k x) eqn:Hk.
  - constructor; [by constructor|]. constructor; [done|]. revert Hx. apply Forall_impl.
    intros y. by apply chars_ltb_trans.
  - constructor; [apply IH; set_solver|]. rewrite keyword_insert_perm by set_solver.
    constructor; [|done]. destruct (chars_ltb_total k x) as [?|[->|?]]; [congruence|set_solver|done].
Qed.

Lemma domain_present (d : CanonicalDomain) (X : gset CanonicalDomain) : d ∈ X -> {[d]} ∪ X = X.
Proof. set_solver. Qed.

Lemma domain_size (d : CanonicalDomain) (X : gset CanonicalDomain) :
  (d ∉ X) -> size ({[d]} ∪ X) = S (size X).
Proof. intros. rewrite size_union, size_singleton by set_solver. done. Qed.

Lemma add_domain_inv limits idx kind value line idx' :
  rules_inv limits idx -> add_domain idx kind value line limits = Ok idx' -> rules_inv limits idx'.
Proof.
  intros [Hc Hm [He Hs Hk Hl Hr]]. unfold add_domain. destruct (_ <? _); [done|].
  intros H. inv_ok. destruct (is_wildcard a) eqn:Hw; [done|]. cbv zeta in H.
  assert (Hone : forall X : gset CanonicalDomain, set_Forall (fun d => is_wildcard d = false) X ->
    set_Forall (fun d => is_wildcard d = false) ({[a]} ∪ X)).
  { intros X HX d [->%elem_of_singleton|?]%elem_of_union; [done|by apply HX]. }
  unfold rule_total in *. destruct kind; case_bool_decide as Hin.
  1, 3: injection H as <-; rewrite (domain_present _ _ Hin); by repeat split.
  all: eapply bump_inv; [exact H|unfold rule_total; cbn; rewrite domain_size by done; lia|].
  all: split; cbn; auto.
Qed.

Lemma add_regex_inv limits idx value line idx' :
  rules_inv limits idx -> add_regex idx value line limits = Ok idx' -> rules_inv limits idx'.
Proof.
  intros [Hc Hm [He Hs Hk Hl Hr]]. unfold add_regex. destruct (_ <? _); [done|].
  destruct (compile value _) as [r|] eqn:Hcomp; [|done]. cbn [map_err mbind result_bind].
  intros H. eapply bump_inv; [exact H|unfold rule_total in *; cbn; rewrite length_app; cbn; lia|].
  split; cbn; auto. apply Forall_app. split; [done|]. constructor; [|done].
  unfold compile in Hcomp. destruct value as [|c cs]; [done|].
  apply bind_ok in Hcomp as (toks & Hloop & H2). case_bool_decide as Hne; [done|]. injection H2 as <-.
  apply compile_loop_bound in Hloop as [Hb _]; [|cbn; lia|constructor]. cbn [tokens].
  destruct toks; [done|]. cbn in *. lia.
Qed.

Lemma add_keyword_inv limits idx value idx' :
  rules_inv limits idx -> add_keyword idx value limits = Ok idx' -> rules_inv limits idx'.
Proof.
  intros [Hc Hm [He Hs Hk Hl Hr]]. unfold add_keyword. destruct (_ <? _); [done|]. cbn [orb].
  case_bool_decide as Hne; [done|]. cbv zeta. case_bool_decide as Hin.
  - intros [= <-]. rewrite keyword_insert_present by done. by destruct idx; split.
  - intros H. eapply bump_inv; [exact H| |].
    + unfold rule_total in *. cbn. rewrite keyword_insert_perm by done. cbn. lia.
    + split; cbn; auto; [by apply keyword_insert_sorted|].
      rewrite keyword_insert_perm by done. constructor; [|done].
      split; [by destruct value|apply to_ascii_lowercase_idem].
Qed.

Lemma rules_empty_inv limits : rules_inv limits rules_empty.
Proof.
  split; [done|cbn; lia|]. split; cbn; try constructor; by intros d ?%not_elem_of_empty.
Qed.

Lemma clash_lines_inv limits idx ls line idx' :
  rules_inv limits idx -> clash_lines idx ls line limits = Ok idx' -> rules_inv limits idx'.
Proof.
  revert idx line. induction ls as [|l ls IH]; intros idx line Hi; cbn [clash_lines].
  { by intros [= <-]. }
  intros (idx1 & Hl & H)%bind_ok. eapply IH; [|exact H]. unfold clash_line in Hl.
  repeat (case_match; try done); simplify_eq; try done; eauto using add_domain_inv, add_regex_inv.
Qed.

Lemma add_all_inv limits add idx values idx' :
  (forall i v i', rules_inv limits i -> add i v = Ok i' -> rules_inv limits i') ->
  rules_inv limits idx -> add_all add idx values = Ok idx' -> rules_inv limits idx'.
Proof.
  intros Hadd. revert idx. induction values as [|v values IH]; intros idx Hi; cbn [add_all].
  { by intros [= <-]. }
  intros (i & ? & ?)%bind_ok. eauto.
Qed.

Lemma add_json_fields_inv limits idx f idx' :
  rules_inv limits idx -> add_json_fields idx f limits = Ok idx' -> rules_inv limits idx'.
Proof.
  unfold add_json_fields. intros Hi (i1 & H1 & (i2 & H2 & (i3 & H3 & H4)%bind_ok)%bind_ok)%bind_ok.
  refine (add_all_inv limits _ _ _ _ _ _ H4); [intros ? ? ?; apply add_regex_inv|].
  refine (add_all_inv limits _ _ _ _ _ _ H3); [intros ? ? ?; apply add_keyword_inv|].
  refine (add_all_inv limits _ _ _ _ _ _ H2); [intros ? ? ?; apply add_domain_inv|].
  refine (add_all_inv limits _ _ _ _ _ _ H1); [intros ? ? ?; apply add_domain_inv|done].
Qed.

Lemma add_json_rules_inv limits idx rules idx' :
  rules_inv limits idx -> add_json_rules idx rules limits = Ok idx' -> rules_inv limits idx'.
Proof.
  revert idx. induction rules as [|f rules IH]; intros idx Hi; cbn [add_json_rules].
  { by intros [= <-]. }
  intros (i & ? & ?)%bind_ok. eapply IH; [|done]. by eapply add_json_fields_inv.
Qed.

Lemma add_dat_domains_inv limits idx ds idx' :
  rules_inv limits idx -> add_dat_domains idx ds limits = Ok idx' -> rules_inv limits idx'.
Proof.
  revert idx. induction ds as [|d ds IH]; intros idx Hi; cbn [add_dat_domains].
  { by intros [= <-]. }
  intros (i & Hd & ?)%bind_ok. eapply IH; [|done]. unfold add_dat_domain in Hd.
  destruct (_ =? 0); [by eapply add_keyword_inv|]. destruct (_ =? 1).
  - destruct (add_regex idx (dd_value d) 0 limits) as [i'|[]] eqn:E; simplify_eq;
      [by eapply add_regex_inv|]. by destruct Hi as [? ? []]; split.
  - destruct (_ =? 2); [by eapply add_domain_inv|]. destruct (_ =? 3); [by eapply add_domain_inv|done].
Qed.
End RulesInv.

(** ** Reading back what was encoded *)

Lemma read_varint_encoded pre rest n :
  0 <= n < 2 ^ 64 ->
  read_varint (mk_reader (pre ++ varint_bytes 10 n ++ rest) (length pre)) =
  Ok (n, mk_reader (pre ++ varint_bytes 10 n ++ rest) (length pre + length (varint_bytes 10 n))).
Proof.
  intros Hn. pose proof (varint_loop_correct 10 pre rest n 0 10) as H. cbv zeta in H.
  change (2 ^ (64 - 7 * (10 - Z.of_nat 10))) with (2 ^ 64) in H.
  change (2 ^ (7 * (10 - Z.of_nat 10))) with 1 in H. rewrite Z.mul_1_r in H.
  apply H; lia.
Qed.

(** A length-delimited protobuf field. *)
Definition field_bytes (field : Z) (payload : list byte) : list byte :=
  varint_bytes 10 (field * 8 + 2) ++ varint_bytes 10 (bytes_len payload) ++ payload.

Lemma varint_bytes_nonempty n : varint_bytes 10 n <> [].
Proof. cbn [varint_bytes]. by destruct (n <? 128). Qed.

(** The protobuf reader inverts the encoder: at a length-delimited field it
    returns the field number, wire type 2 and exactly the payload, and stops
    right behind it, for every field number and payload of at most 2^62 bytes. *)
Theorem read_field_roundtrip pre rest field payload :
  1 <= field <= u32_max -> bytes_len payload < 2 ^ 62 ->
  bytes_len (pre ++ field_bytes field payload ++ rest) <= usize_max ->
  let r := mk_reader (pre ++ field_bytes field payload ++ rest) (length pre) in
  exists r1 r2, read_key r = Ok (Some (field, 2), r1) /\
    read_length_delimited r1 = Ok (payload, r2) /\
    drop (d_position r2) (d_input r2) = rest.
Proof.
  intros Hf Hp Hlen r. unfold field_bytes in *.
  set (k := varint_bytes 10 (field * 8 + 2)) in *. set (l := varint_bytes 10 (bytes_len payload)) in *.
  set (input := pre ++ (k ++ l ++ payload) ++ rest) in *.
  assert (E1 : input = pre ++ k ++ (l ++ payload ++ rest)) by (subst input; by rewrite <-!app_assoc).
  assert (E2 : input = (pre ++ k) ++ l ++ (payload ++ rest)) by (rewrite E1; by rewrite <-app_assoc).
  assert (E3 : input = (pre ++ k ++ l) ++ payload ++ rest) by (rewrite E1; by rewrite <-!app_assoc).
  assert (Hlen3 : length input = (length (pre ++ k ++ l) + length payload + length rest)%nat).
  { rewrite E3, !length_app. lia. }
  assert (Hlen2 : length (pre ++ k ++ l) = (length pre + length k + length l)%nat).
  { rewrite !length_app. lia. }
  exists (mk_reader input (length pre + length k)),
    (mk_reader input (length (pre ++ k ++ l) + length payload)).
  assert (Hb : 0 <= bytes_len payload) by (unfold bytes_len; lia).
  split; [|split].
  - unfold read_key, is_exhausted. subst r. cbn [d_position d_input].
    assert (Hk : length k <> 0%nat).
    { intros Hz%length_zero_iff_nil. by apply (varint_bytes_nonempty (field * 8 + 2)). }
    rewrite (proj2 (Nat.eqb_neq _ _)) by lia.
    pose proof (read_varint_encoded pre (l ++ payload ++ rest) (field * 8 + 2)) as Hr.
    fold k in Hr. rewrite <-E1 in Hr. rewrite Hr by (unfold_ints; lia). cbn [mbind result_bind].
    rewrite Z.shiftr_div_pow2 by lia. change (2 ^ 3) with 8.
    change 7 with (Z.ones 3) at 1. rewrite Z.land_ones by lia. change (2 ^ 3) with 8.
    rewrite Z.add_comm, Z.div_add, Z.mod_add by lia. cbn [Z.div Z.modulo].
    change (2 / 8 + field) with field. change (2 mod 8) with 2.
    rewrite (proj2 (Z.ltb_ge _ _)) by (unfold_ints; lia). by rewrite (proj2 (Z.eqb_neq _ _)) by lia.
  - unfold read_length_delimited. rewrite <-length_app.
    pose proof (read_varint_encoded (pre ++ k) (payload ++ rest) (bytes_len payload)) as Hr.
    fold l in Hr. rewrite <-E2 in Hr. rewrite Hr by lia. cbn [mbind result_bind].
    unfold advance. cbn [d_position d_input].
    replace (length (pre ++ k) + length l)%nat with (length (pre ++ k ++ l)) by (rewrite !length_app; lia).
    unfold bytes_len in *. rewrite (proj2 (Z.ltb_ge _ _)) by lia. cbn [orb].
    rewrite (proj2 (Z.ltb_ge _ _)) by lia. cbn [mbind result_bind at_position d_position d_input].
    unfold at_position. cbn [d_position d_input].
    replace (Z.to_nat (Z.of_nat (length (pre ++ k ++ l)) + Z.of_nat (length payload)))
      with (length (pre ++ k ++ l) + length payload)%nat by lia.
    replace (length (pre ++ k ++ l) + length payload - length (pre ++ k ++ l))%nat
      with (length payload) by lia.
    rewrite E3 at 1. by rewrite drop_app_length, take_app_length.
  - cbn [d_position d_input]. rewrite E3 at 1. rewrite <-drop_drop, drop_app_length.
    apply drop_app_length.
Qed.

(** ** The [dat] parser *)

Section DatInv.
Context {HN : HickoryName}.

(** Selectors are stored lower-case, printable and without [:] and [@]. *)
Definition selector_ok (s : chars) : Prop :=
  s <> [] /\ to_ascii_lowercase s = s /\
  Forall (fun c => 33 <= c <= 126 /\ c <> 58 /\ c <> 64) s.

Record dat_inv (limits : RuleLimits) (m : gmap chars RuleIndex) : Prop := {
  di_sites : map_Forall (fun s idx => selector_ok s /\ rules_inv limits idx) m;
  di_size : Z.of_nat (size m) <= Z.max 0 (rl_max_selectors limits);
  di_total : total_rules m <= Z.max 0 (rl_max_rules limits)
}.

Lemma total_rules_insert s idx m :
  m !! s = None -> total_rules (<[s := idx]> m) = rule_count idx + total_rules m.
Proof.
  intros Hs. unfold total_rules.
  rewrite (map_fold_insert_L (fun _ idx acc => rule_count idx + acc)); [done|lia|done].
Qed.

Lemma normalize_dat_selector_ok s limits s' :
  normalize_dat_selector s limits = Ok s' -> selector_ok s'.
Proof.
  unfold normalize_dat_selector, normalize_rule_set_selector.
  case_bool_decide as Hne; [done|]. destruct (_ <? _); [done|]. cbn [orb].
  destruct (negb _); [done|]. destruct (forallb _ _) eqn:Hf; [|done]. intros [= <-].
  split; [by destruct s|]. split; [apply to_ascii_lowercase_idem|].
  rewrite forallb_forall in Hf. unfold to_ascii_lowercase. apply list.Forall_forall.
  intros c Hc. apply list_elem_of_In, in_map_iff in Hc as (c0 & <- & Hc0).
  apply Hf in Hc0. unfold ascii_lower. destruct (_ && (c0 <=? 90)) eqn:E; lia.
Qed.

Lemma parse_dat_site_inv limits payload name idx :
  parse_dat_site payload limits = Ok (name, idx) -> rules_inv limits idx.
Proof.
  unfold parse_dat_site. intros ([sel ds] & _ & H)%bind_ok. inv_ok. injection H as _ <-.
  eapply add_dat_domains_inv; [apply rules_empty_inv|done].
Qed.

Lemma dat_loop_inv limits fuel r m sk r' m' sk' :
  dat_inv limits m -> dat_loop fuel r m sk limits = Ok (r', m', sk') ->
  dat_inv limits m' /\ is_exhausted r' = true.
Proof.
  revert r m sk. induction fuel as [|fuel IH]; intros r m sk Hi; cbn [dat_loop]; [done|].
  intros ([key r1] & Hk & H)%bind_ok. destruct key as [[f w]|].
  2: { injection H as <- <- _. by apply read_key_end in Hk as [? ->]. }
  destruct (_ && _).
  - apply bind_ok in H as ([payload r2] & _ & H). apply bind_ok in H as ([name idx] & Hs & H).
    apply bind_ok in H as (sel & Hsel & H).
    case_bool_decide as Hnew; [done|]. apply eq_None_not_Some in Hnew.
    destruct (Z.leb_spec (rl_max_selectors limits) (Z.of_nat (size m))); [done|].
    destruct (_ || _) eqn:Hb; [done|]. apply orb_false_iff in Hb as [_ Hb].
    eapply IH; [|exact H]. destruct Hi. split.
    + apply map_Forall_insert_2; [|done]. split; [by eapply normalize_dat_selector_ok|by eapply parse_dat_site_inv].
    + rewrite map_size_insert_None by done. lia.
    + rewrite total_rules_insert by done. lia.
  - apply bind_ok in H as (r2 & _ & H). by eapply IH.
Qed.

(** Rounds beyond the remaining input change nothing: the fuel is enough. *)
Lemma dat_loop_fuel limits fuel r m sk :
  (remaining_input r < fuel)%nat ->
  dat_loop (S fuel) r m sk limits = dat_loop fuel r m sk limits.
Proof.
  revert r m sk. induction fuel as [|fuel IH]; intros r m sk Hf; [lia|].
  set (n := S fuel). change (dat_loop n r m sk limits) with (dat_loop (S fuel) r m sk limits).
  cbn [dat_loop].
  destruct (read_key r) as [[[[f w]|] r1]|] eqn:Hk; [|done..]. apply key_remaining in Hk.
  cbn [mbind result_bind]. destruct (_ && _).
  { destruct (read_length_delimited r1) as [[b r2]|] eqn:E; [|done]. reader_step.
    cbn [mbind result_bind]. destruct (parse_dat_site b limits) as [[name idx]|]; [|done].
    cbn [mbind result_bind]. destruct (normalize_dat_selector name limits); [|done].
    cbn [mbind result_bind]. destruct (bool_decide _); [done|]. destruct (_ <=? _); [done|].
    destruct (_ || _); [done|]. apply IH. lia. }
  destruct (skip_field r1 w) as [r2|] eqn:E; [|done]. reader_step. cbn [mbind result_bind].
  apply IH. lia.
Qed.

(** However hostile the input, an accepted rule resource in any of the three
    formats respects its limits: the rule count is the number of stored rules and
    within the maximum (over all selectors together for [dat]), selectors are
    normalised and within their maximum, no rule is a wildcard, keywords are
    lower-case and sorted, and no regex program is too large. *)
Theorem rule_parsers_respect_limits (decode : chars -> option JsonRuleDocument) limits :
  (forall input idx, parse_clash_with_limits input limits = Ok idx -> rules_inv limits idx) /\
  (forall input idx, rules_parse_json decode input limits = Ok idx -> rules_inv limits idx) /\
  (forall input selectors count skipped,
     parse_dat_with_limits input limits = Ok (RR_Selectors selectors count skipped) ->
     dat_inv limits selectors /\ selectors <> ∅ /\ count = total_rules selectors).
Proof.
  split; [|split].
  - intros input idx. unfold parse_clash_with_limits. destruct (_ <? _); [done|].
    apply clash_lines_inv, rules_empty_inv.
  - intros input idx. unfold rules_parse_json. destruct (_ <? _); [done|].
    intros (doc & _ & H)%bind_ok. destruct doc as [f|v rules].
    + destruct (negb _); [done|]. by eapply add_json_fields_inv, H; apply rules_empty_inv.
    + destruct (negb _); [done|]. inv_ok. destruct (_ =? 0); [done|]. inv_ok. subst.
      by eapply add_json_rules_inv; [apply rules_empty_inv|].
  - intros input selectors count skipped. unfold parse_dat_with_limits.
    destruct (_ <? _); [done|]. intros ([[r m] sk] & Hl & H)%bind_ok.
    apply dat_loop_inv in Hl as [Hi He].
    2: { split; [by apply map_Forall_empty|rewrite map_size_empty; lia|].
         unfold total_rules. rewrite map_fold_empty. lia. }
    rewrite He in H. cbn [negb orb] in H. case_bool_decide as Hne; [done|].
    by injection H as <- <- _.
Qed.

(** ** Matching *)

(** [s] is the name or a suffix of it that starts after a dot. *)
Definition label_suffix (s name : chars) : Prop := s = name \/ exists p, name = p ++ 46 :: s.

Definition suffix_hit (set : gset CanonicalDomain) (s : chars) : Prop :=
  exists d, CanonicalDomain_parse s = Ok d /\ d ∈ set.

Lemma match_suffix_spec set name :
  match match_suffix set (split_on 46 name) with
  | Some n => exists s, label_suffix s name /\ suffix_hit set s /\ n = length (split_on 46 s) /\
      forall s', label_suffix s' name -> (length s < length s')%nat -> ~ suffix_hit set s'
  | None => forall s, label_suffix s name -> ~ suffix_hit set s
  end.
Proof.
  induction name as [name IH] using (induction_ltof1 _ (@length Z)).
  pose proof (join_split 46 name) as Hj. change [46] with (lit ".") in Hj.
  assert (Hself : match CanonicalDomain_parse name with
    | Ok d => suffix_hit set name <-> d ∈ set | Err _ => ~ suffix_hit set name end).
  { unfold suffix_hit. destruct (CanonicalDomain_parse name) as [d|].
    - split; [by intros (d' & [= <-] & ?)|eauto].
    - by intros (d' & ? & _). }
  assert (Hhit : suffix_hit set name -> exists s, label_suffix s name /\ suffix_hit set s /\
    length (split_on 46 name) = length (split_on 46 s) /\
    forall s', label_suffix s' name -> (length s < length s')%nat -> ~ suffix_hit set s').
  { intros H. exists name. split; [by left|]. split; [done|]. split; [done|].
    intros s' [->|[p ->]] Hlt; [lia|]. rewrite length_app in Hlt. cbn in Hlt. lia. }
  destruct (split_on_cases 46 name) as [[Hn E]|(l & s' & Hname & Hl & E)].
  - rewrite E in *. cbn [match_suffix]. rewrite Hj.
    assert (Hno : ~ suffix_hit set name -> forall s, label_suffix s name -> ~ suffix_hit set s).
    { intros Hno s [->|[p Hp]]; [done|]. rewrite Hp in Hn. set_solver. }
    destruct (CanonicalDomain_parse name) as [d|]; [|by apply Hno].
    case_bool_decide as Hd; [by apply Hhit, Hself|apply Hno; by rewrite Hself].
  - assert (Hlt : ltof _ (@length Z) s' name).
    { unfold ltof. rewrite Hname, length_app. cbn. lia. }
    specialize (IH s' Hlt). unfold ltof in Hlt.
    assert (Hrest : ~ suffix_hit set name ->
      match match_suffix set (split_on 46 s') with
      | Some n => exists s, label_suffix s name /\ suffix_hit set s /\ n = length (split_on 46 s) /\
          forall s2, label_suffix s2 name -> (length s < length s2)%nat -> ~ suffix_hit set s2
      | None => forall s, label_suffix s name -> ~ suffix_hit set s
      end).
    { intros Hno.
      assert (Hsub : forall s, label_suffix s name -> s = name \/ label_suffix s s').
      { intros s [->|[p Hp]]; [by left|right]. rewrite Hname in Hp.
        apply split_at_first in Hp as [[_ ->]|(p3 & _ & ->)]; [by left|right; eauto|done]. }
      assert (Hsup : forall s, label_suffix s s' -> label_suffix s name).
      { intros s [->|[p ->]]; right; [eauto|]. exists (l ++ 46 :: p). by rewrite <-app_assoc. }
      destruct (match_suffix set (split_on 46 s')) as [n|].
      - destruct IH as (s & Hs & Hh & -> & Hmax). exists s. split; [auto|]. split; [done|].
        split; [done|]. intros s2 [->|Hs2]%Hsub Hlen; [done|auto].
      - intros s [->|Hs]%Hsub; [done|auto]. }
    rewrite E in *. cbn [match_suffix]. rewrite Hj.
    destruct (CanonicalDomain_parse name) as [d|]; [|by apply Hrest].
    case_bool_decide as Hd; [by apply Hhit, Hself|apply Hrest; by rewrite Hself].
Qed.

Lemma position_of_spec {A} (p : A -> bool) (l : list A) i :
  match position_of p l i with
  | Some k => (i <= k)%nat /\ (exists x, l !! (k - i)%nat = Some x /\ p x = true) /\
      forall j x, (j < k - i)%nat -> l !! j = Some x -> p x = false
  | None => forall x, x ∈ l -> p x = false
  end.
Proof.
  revert i. induction l as [|x l IH]; intros i; cbn [position_of]; [set_solver|].
  destruct (p x) eqn:Hp.
  { split; [lia|]. rewrite Nat.sub_diag. split; [by exists x|]. intros j y Hj. lia. }
  specialize (IH (S i)). destruct (position_of p l (S i)) as [k|].
  - destruct IH as (Hk & (y & Hy & Hpy) & Hmin). split; [lia|].
    replace (k - i)%nat with (S (k - S i)) by lia. split; [by exists y|].
    intros [|j] z Hj; cbn; [congruence|]. apply Hmin. lia.
  - intros y [->|Hy]%elem_of_cons; auto.
Qed.

(** A rule set answers by its strongest rule: exact name, then the longest
    configured suffix on a label boundary, then the first keyword contained in
    the name, then the first regex that matches it; it answers nothing only if
    none of these applies. *)
Theorem rule_matches_spec idx name :
  let text := as_str name in
  let no_suffix := forall s, label_suffix s text -> ~ suffix_hit (r_suffix idx) s in
  let has_keyword k := exists a b, text = a ++ k ++ b in
  match rule_matches idx name with
  | Some RM_Exact => name ∈ r_exact idx
  | Some (RM_Suffix n) => (name ∉ r_exact idx) /\
      exists s, label_suffix s text /\ suffix_hit (r_suffix idx) s /\ n = length (split_on 46 s) /\
        forall s', label_suffix s' text -> (length s < length s')%nat ->
          ~ suffix_hit (r_suffix idx) s'
  | Some (RM_Keyword i) => (name ∉ r_exact idx) /\ no_suffix /\
      (exists k, r_keywords idx !! i = Some k /\ has_keyword k) /\
      forall j k, (j < i)%nat -> r_keywords idx !! j = Some k -> ~ has_keyword k
  | Some (RM_Regex i) => (name ∉ r_exact idx) /\ no_suffix /\
      (forall k, k ∈ r_keywords idx -> ~ has_keyword k) /\
      (exists r, r_regex idx !! i = Some r /\ regex_matches r text) /\
      forall j r, (j < i)%nat -> r_regex idx !! j = Some r -> ~ regex_matches r text
  | None => (name ∉ r_exact idx) /\ no_suffix /\
      (forall k, k ∈ r_keywords idx -> ~ has_keyword k) /\
      forall r, r ∈ r_regex idx -> ~ regex_matches r text
  end.
Proof.
  intros text no_suffix has_keyword. unfold rule_matches.
  case_bool_decide as Hex; [done|].
  pose proof (match_suffix_spec (r_suffix idx) text) as Hs. fold text.
  destruct (match_suffix _ _) as [n|]; [done|].
  assert (Hcont : forall k, contains_sub k text = false <-> ~ has_keyword k).
  { intros k. pose proof (contains_sub_spec k text) as H.
    change (contains_sub k text = true <-> has_keyword k) in H.
    destruct (contains_sub k text); naive_solver. }
  pose proof (position_of_spec (fun k => contains_sub k text) (r_keywords idx) 0) as Hk.
  destruct (position_of (fun k => contains_sub k text) _ _) as [i|].
  { rewrite Nat.sub_0_r in Hk. destruct Hk as (_ & (k & Hk & Hc) & Hmin).
    split; [done|]. split; [done|]. split; [exists k; split; [done|by apply contains_sub_spec]|].
    intros j k' Hj Hk'. apply Hcont. by eapply Hmin. }
  setoid_rewrite Hcont in Hk.
  assert (Hre : forall r, is_match r text = false <-> ~ regex_matches r text).
  { intros r. rewrite <-is_match_iff. by destruct (is_match r text). }
  pose proof (position_of_spec (fun r => is_match r text) (r_regex idx) 0) as Hr.
  destruct (position_of (fun r => is_match r text) _ _) as [i|]; cbn [fmap option_fmap option_map].
  - rewrite Nat.sub_0_r in Hr. destruct Hr as (_ & (r & Hr & Hc) & Hmin).
    split; [done|]. split; [done|]. split; [done|].
    split; [exists r; split; [done|by apply is_match_iff]|].
    intros j r' Hj Hr'. apply Hre. by eapply Hmin.
  - setoid_rewrite Hre in Hr. by split_and!.
Qed.

End DatInv.

(** ** Concrete runs *)

Section RulesWitness.

Lemma read_field_roundtrip_witness :
  exists r1 r2, read_key (mk_reader (field_bytes 2 [x61; x62] ++ [x00]) 0) = Ok (Some (2, 2), r1) /\
    read_length_delimited r1 = Ok ([x61; x62], r2).
Proof.
  destruct (read_field_roundtrip [] [x00] 2 [x61; x62]) as (r1 & r2 & H1 & H2 & _).
  - unfold_ints. lia.
  - by vm_compute.
  - by vm_compute.
  - exists r1, r2. split; [exact H1|exact H2].
Defined.

(** A site "ADS" with the keyword "Track" and the suffix "ads.example". *)
Definition sample_dat : list byte :=
  field_bytes 1 (field_bytes 1 (str_bytes "ADS") ++
    field_bytes 2 (field_bytes 2 (str_bytes "Track")) ++
    field_bytes 2 ([x08; x02] ++ field_bytes 2 (str_bytes "ads.example"))).

Definition sample_resource : result RuleParseError RuleResource :=
  parse_dat_with_limits (HN := text_names) sample_dat default_rule_limits.

Lemma rule_parsers_respect_limits_witness :
  exists selectors count skipped,
    sample_resource = Ok (RR_Selectors selectors count skipped) /\
    dat_inv default_rule_limits selectors /\ count = 2.
Proof.
  assert (K : match sample_resource with Ok (RR_Selectors _ c _) => c | _ => 0 end = 2)
    by (by vm_compute).
  destruct sample_resource as [[|m c sk]|] eqn:E; try discriminate K.
  exists m, c, sk. split; [done|]. split; [|exact K].
  destruct (rule_parsers_respect_limits (HN := text_names) (fun _ => None) default_rule_limits)
    as (_ & _ & H).
  exact (proj1 (H sample_dat m c sk E)).
Defined.

Example sample_matches :
  match sample_resource with
  | Ok (RR_Selectors m _ _) =>
    match m !! lit "ads" with
    | Some idx => (rule_matches (HN := text_names) idx (mk_domain (lit "x.ads.example")),
                   rule_matches (HN := text_names) idx (mk_domain (lit "mytracker.net")),
                   rule_matches (HN := text_names) idx (mk_domain (lit "badads.example")))
    | None => (None, None, None)
    end
  | _ => (None, None, None)
  end = (Some (RM_Suffix 2), Some (RM_Keyword 0), None).
Proof. by vm_compute. Qed.

End RulesWitness.
