(* ===== verification/Group.v ===== *)
(** * Upstream group selection (src/backend/src/upstream/group.rs)

    Smooth weighted round robin, least-loaded selection with leases, and the
    fixed orders of the other modes. Each mutex or atomic update is one step. *)

From S2P Require Import Prelude.

Inductive SelectionPolicy := Parallel | RoundRobin | LoadBalance | Failover | Sequential.
#[global] Instance SelectionPolicy_eq_dec : EqDecision SelectionPolicy.
Proof. solve_decision. Defined.

(** The configured modes of config/model.rs and their policy. *)
Inductive UpstreamMode := UM_Parallel | UM_RoundRobin | UM_LoadBalance | UM_Failover.
Definition policy_of_mode (m : UpstreamMode) : SelectionPolicy :=
  match m with
  | UM_Parallel => Parallel
  | UM_RoundRobin => RoundRobin
  | UM_LoadBalance => LoadBalance
  | UM_Failover => Failover
  end.

Record Member := mk_member { member_name : string; weight : Z }.

Inductive GroupSelectorError :=
| EmptyMembers | ZeroWeight (index : nat) | DuplicateMember (index : nat)
| InvalidMode (mode : SelectionPolicy) | NoPrimary (mode : SelectionPolicy)
| InvalidMemberIndex (index : nat) | FixedWeightRequired (index : nat) (mode : SelectionPolicy).

Record GroupSelector := mk_selector {
  g_mode : SelectionPolicy;
  g_members : list Member;
  g_current : list Z;
  g_total_weight : Z;
  g_in_flight : list Z;
  g_cursor : Z
}.

(** The validation loop of [new]: [seen] are the members before [index]. *)
Fixpoint check_members (mode : SelectionPolicy) (seen rest : list Member) (index : nat)
    (total : Z) : result GroupSelectorError Z :=
  match rest with
  | [] => Ok total
  | m :: rest' =>
    if weight m =? 0 then Err (ZeroWeight index)
    else if bool_decide (member_name m ∈ member_name <$> seen) then Err (DuplicateMember index)
    else if (bool_decide (mode = Parallel) || bool_decide (mode = Failover)) && negb (weight m =? 1)
    then Err (FixedWeightRequired index mode)
    else check_members mode (seen ++ [m]) rest' (S index) (total + weight m)
  end.

Definition new_selector (mode : SelectionPolicy) (members : list Member) :
    result GroupSelectorError GroupSelector :=
  if bool_decide (members = []) then Err EmptyMembers
  else if bool_decide (mode = Sequential) then Err (InvalidMode mode)
  else
    total ← check_members mode [] members 0 0;
    Ok (mk_selector mode members (replicate (length members) 0) total
          (replicate (length members) 0) 0).

(** ** Smooth weighted round robin *)

(** The loop of [smooth_select] over the remaining members. *)
Fixpoint smooth_loop (members : list Member) (index : nat) (current : list Z) (selected : nat) :
    list Z * nat :=
  match members with
  | [] => (current, selected)
  | m :: members' =>
    let v := default 0 (current !! index) + weight m in
    let current := <[index := v]> current in
    let selected := if default 0 (current !! selected) <? v then index else selected in
    smooth_loop members' (S index) current selected
  end.

Definition smooth_select (current : list Z) (total : Z) (members : list Member) : nat * list Z :=
  let '(current, selected) := smooth_loop members 0 current 0 in
  (selected, <[selected := default 0 (current !! selected) - total]> current).

(** ** Least loaded *)

Definition load_ratio_is_less (cand_load cand_weight cur_load cur_weight : Z) : bool :=
  cand_load * cur_weight <? cur_load * cand_weight.

(** [for offset in 1..len]. *)
Fixpoint load_loop (members : list Member) (in_flight : list Z) (start : nat)
    (offsets : list nat) (best : nat) : nat :=
  match offsets with
  | [] => best
  | offset :: offsets' =>
    let candidate := ((start + offset) mod length members)%nat in
    let load i := default 0 (in_flight !! i) in
    let wt i := default 0 (weight <$> members !! i) in
    let best := if load_ratio_is_less (load candidate) (wt candidate) (load best) (wt best)
                then candidate else best in
    load_loop members in_flight start offsets' best
  end.

Definition load_balance_index (g : GroupSelector) : nat * GroupSelector :=
  let n := length (g_members g) in
  let start := Z.to_nat (g_cursor g mod Z.of_nat n) in
  (load_loop (g_members g) (g_in_flight g) start (seq 1 (n - 1)) start,
   mk_selector (g_mode g) (g_members g) (g_current g) (g_total_weight g) (g_in_flight g)
     (wrap64 (g_cursor g + 1))).

(** ** Operations *)

Definition select_primary (g : GroupSelector) : result GroupSelectorError nat * GroupSelector :=
  match g_mode g with
  | RoundRobin =>
    let '(selected, current) := smooth_select (g_current g) (g_total_weight g) (g_members g) in
    (Ok selected, mk_selector (g_mode g) (g_members g) current (g_total_weight g)
                    (g_in_flight g) (g_cursor g))
  | LoadBalance => let '(i, g') := load_balance_index g in (Ok i, g')
  | Failover => (Ok 0%nat, g)
  | Parallel => (Err (NoPrimary Parallel), g)
  | Sequential => (Err (InvalidMode Sequential), g)
  end.

Definition set_in_flight (g : GroupSelector) (l : list Z) : GroupSelector :=
  mk_selector (g_mode g) (g_members g) (g_current g) (g_total_weight g) l (g_cursor g).

(** [acquire_primary]: the lease is its member index. *)
Definition acquire_primary (g : GroupSelector) : result GroupSelectorError nat * GroupSelector :=
  if bool_decide (g_mode g = LoadBalance) then
    let '(i, g') := load_balance_index g in
    (Ok i, set_in_flight g' (<[i := wrap64 (default 0 (g_in_flight g' !! i) + 1)]> (g_in_flight g')))
  else (Err (InvalidMode (g_mode g)), g).

(** [Drop for SelectionLease]: a checked decrement. *)
Definition drop_lease (g : GroupSelector) (i : nat) : GroupSelector :=
  match g_in_flight g !! i with
  | Some v => if 0 <? v then set_in_flight g (<[i := v - 1]> (g_in_flight g)) else g
  | None => g
  end.

Definition in_flight (g : GroupSelector) (i : nat) : result GroupSelectorError Z :=
  ok_or (InvalidMemberIndex i) (g_in_flight g !! i).

Definition ordered_candidates (g : GroupSelector) (primary : nat) :
    result GroupSelectorError (list nat) :=
  if (length (g_members g) <=? primary)%nat then Err (InvalidMemberIndex primary)
  else Ok (filter (fun i => i <> primary) (seq 0 (length (g_members g)))).

Definition parallel_order (g : GroupSelector) : list nat := seq 0 (length (g_members g)).

(** ** Smooth round robin is fair *)

Fixpoint Zsum (l : list Z) : Z := match l with [] => 0 | x :: l' => x + Zsum l' end.

Lemma Zsum_app l1 l2 : Zsum (l1 ++ l2) = Zsum l1 + Zsum l2.
Proof. induction l1 as [|x l1 IH]; cbn; [done|].  rewrite IH. lia. Qed.

Lemma Zsum_insert (l : list Z) i x y :
  l !! i = Some x -> Zsum (<[i := y]> l) = Zsum l - x + y.
Proof.
  revert i. induction l as [|z l IH]; intros [|i] H; cbn in H; simplify_eq; [cbn; lia|].
  change (<[S i := y]> (z :: l)) with (z :: <[i := y]> l). cbn [Zsum]. rewrite (IH i H). lia.
Qed.

Lemma Zsum_zip (a b : list Z) : length a = length b -> Zsum (zip_with Z.add a b) = Zsum a + Zsum b.
Proof.
  revert b. induction a as [|x a IH]; intros [|y b] H; try done. cbn in H |- *.
  rewrite IH; lia.
Qed.

Lemma Zsum_nonpos l : (forall i x, l !! i = Some x -> x <= 0) -> Zsum l <= 0.
Proof.
  induction l as [|x l IH]; intros H; cbn; [lia|].
  pose proof (H 0%nat x eq_refl). assert (Zsum l <= 0) by (apply IH; intros i; apply (H (S i))).
  lia.
Qed.

Lemma Zsum_nonneg l : (forall i x, l !! i = Some x -> 0 <= x) -> 0 <= Zsum l.
Proof.
  induction l as [|x l IH]; intros H; cbn; [lia|].
  pose proof (H 0%nat x eq_refl). assert (0 <= Zsum l) by (apply IH; intros i; apply (H (S i))). lia.
Qed.

Lemma Zsum_zero_nonneg l :
  Zsum l = 0 -> (forall i x, l !! i = Some x -> 0 <= x) -> forall i x, l !! i = Some x -> x = 0.
Proof.
  induction l as [|y l IH]; intros Hs Hnn; [done|]. cbn in Hs. pose proof (Hnn 0%nat y eq_refl).
  assert (Hl : forall i x, l !! i = Some x -> 0 <= x) by (intros i; apply (Hnn (S i))).
  pose proof (Zsum_nonneg l Hl). intros [|i] x Hx; cbn in Hx; [simplify_eq; lia|].
  apply (IH ltac:(lia) Hl i x Hx).
Qed.

(** [selected] is the position of a largest element. *)
Definition is_max (l : list Z) (selected : nat) : Prop :=
  exists m, l !! selected = Some m /\ forall j v, l !! j = Some v -> v <= m.

Lemma smooth_loop_spec members pre suf selected :
  length suf = length members ->
  (pre = [] /\ selected = 0%nat \/ is_max pre selected) ->
  let '(current, sel) := smooth_loop members (length pre) (pre ++ suf) selected in
  current = pre ++ zip_with Z.add suf (weight <$> members) /\
  (members <> [] \/ pre <> [] -> is_max current sel).
Proof.
  revert pre suf selected. induction members as [|m members IH]; intros pre suf selected Hlen Hsel;
    destruct suf as [|c suf]; try discriminate Hlen; cbn [smooth_loop].
  { cbn. split; [done|]. intros [?|?]; [done|]. rewrite app_nil_r. destruct Hsel as [[-> _]|?]; done. }
  rewrite (list_lookup_middle pre suf c _ eq_refl). cbn [from_option id default].
  rewrite insert_app_r_alt, Nat.sub_diag by lia. cbn [insert list_insert].
  set (v := c + weight m).
  assert (Hcase : let sel' := if default 0 ((pre ++ v :: suf) !! selected) <? v then length pre else selected in
    is_max (pre ++ [v]) sel').
  { destruct Hsel as [[-> ->]|(mx & Hm & Hmax)]; cbv zeta.
    - cbn. rewrite Z.ltb_irrefl. exists v. split; [done|]. intros [|j] w; cbn; [intros [= <-]; lia|done].
    - pose proof (lookup_lt_Some _ _ _ Hm). rewrite lookup_app_l by done. rewrite Hm. cbn.
      destruct (Z.ltb_spec mx v).
      + exists v. split; [apply list_lookup_middle; done|].
        intros j w [Hj|[_ Hj]]%lookup_app_Some; [apply Hmax in Hj; lia|].
        apply list_lookup_singleton_Some in Hj as [_ <-]. lia.
      + exists mx. split; [by rewrite lookup_app_l|].
        intros j w [Hj|[_ Hj]]%lookup_app_Some; [by apply Hmax in Hj|].
        apply list_lookup_singleton_Some in Hj as [_ <-]. lia. }
  cbv zeta in Hcase. set (sel' := if _ <? v then _ else _) in *.
  specialize (IH (pre ++ [v]) suf sel'). rewrite length_app, Nat.add_1_r, <-app_assoc in IH.
  cbn [app] in IH. destruct (smooth_loop members (S (length pre)) (pre ++ v :: suf) sel') as [cur sel].
  destruct IH as [-> Hm]; [cbn in Hlen; lia|by right|]. cbn. rewrite <-app_assoc. cbn.
  split; [done|]. intros _. rewrite <-app_assoc in Hm. apply Hm. right. by destruct pre.
Qed.

(** The state between selections: credits sum to zero and stay above minus one
    full round. *)
Definition smooth_inv (members : list Member) (current : list Z) : Prop :=
  length current = length members /\ Zsum current = 0 /\
  forall i c, current !! i = Some c -> - Zsum (weight <$> members) < c.

Definition weights_ok (members : list Member) : Prop :=
  members <> [] /\ Forall (fun m => 0 < weight m) members.

Lemma weights_pos members : weights_ok members -> 0 < Zsum (weight <$> members).
Proof.
  intros [Hne Hw]. destruct Hw as [|m members Hm Hw]; [done|]. cbn.
  assert (0 <= Zsum (weight <$> members)).
  { clear -Hw. induction Hw as [|x l Hx _ IH]; cbn; lia. }
  lia.
Qed.

Lemma smooth_select_spec members current :
  weights_ok members -> smooth_inv members current ->
  let W := Zsum (weight <$> members) in
  let '(sel, current') := smooth_select current W members in
  (sel < length members)%nat /\ smooth_inv members current' /\
  forall i m c, members !! i = Some m -> current !! i = Some c ->
    current' !! i = Some (c + weight m - if decide (i = sel) then W else 0).
Proof.
  intros Hw (Hlen & Hsum & Hlow) W. unfold smooth_select.
  pose proof (smooth_loop_spec members [] current 0 Hlen (or_introl (conj eq_refl eq_refl))) as H.
  cbn [app length] in H. destruct (smooth_loop members 0 current 0) as [cur sel].
  destruct H as [-> Hmax]. set (u := zip_with Z.add current (weight <$> members)) in *.
  destruct (Hmax (or_introl (proj1 Hw))) as (mx & Hmx & Hle). cbn [app] in Hmx, Hle |- *.
  assert (Hlu : length u = length members).
  { subst u. rewrite length_zip_with, length_fmap. lia. }
  pose proof (lookup_lt_Some _ _ _ Hmx) as Hsel. rewrite Hmx. cbn [from_option id default].
  assert (HW : 0 < W) by (by apply weights_pos).
  assert (Hu : Zsum u = W).
  { subst u. rewrite Zsum_zip by (by rewrite length_fmap). lia. }
  assert (Hpos : 0 < mx).
  { destruct (decide (0 < mx)) as [|Hn]; [done|]. assert (Zsum u <= 0); [|lia].
    apply Zsum_nonpos. intros i x Hx. specialize (Hle i x Hx). lia. }
  split; [lia|]. split.
  - split; [by rewrite length_insert|]. split; [rewrite (Zsum_insert _ _ _ _ Hmx); lia|].
    intros i c Hc. fold W. destruct (decide (i = sel)) as [->|Hne].
    + rewrite list_lookup_insert_eq in Hc by lia. injection Hc as <-. lia.
    + rewrite list_lookup_insert_ne in Hc by done. subst u.
      apply lookup_zip_with_Some in Hc as (a & b & -> & Ha & Hb).
      apply Hlow in Ha. fold W in Ha. rewrite list_lookup_fmap in Hb.
      destruct (members !! i) as [m|] eqn:Hm; [|done]. injection Hb as <-.
      pose proof (proj1 (Forall_lookup _ _) (proj2 Hw) i m Hm) as Hwm. cbn in Hwm. lia.
  - intros i m c Hm Hc.
    assert (Hui : u !! i = Some (c + weight m)).
    { subst u. rewrite lookup_zip_with, Hc, list_lookup_fmap, Hm. done. }
    destruct (decide (i = sel)) as [->|Hne].
    + rewrite list_lookup_insert_eq by lia. congruence.
    + rewrite list_lookup_insert_ne by done. rewrite Hui. f_equal. lia.
Qed.

(** [k] consecutive selections. *)
Fixpoint smooth_run (k : nat) (current : list Z) (total : Z) (members : list Member) :
    list nat * list Z :=
  match k with
  | O => ([], current)
  | S k' =>
    let '(sel, current) := smooth_select current total members in
    let '(trace, current) := smooth_run k' current total members in
    (sel :: trace, current)
  end.

Definition picks (i : nat) (trace : list nat) : Z := Z.of_nat (count_occ Nat.eq_dec trace i).

Lemma smooth_run_spec k members current :
  weights_ok members -> smooth_inv members current ->
  let W := Zsum (weight <$> members) in
  let '(trace, current') := smooth_run k current W members in
  smooth_inv members current' /\ length trace = k /\
  forall i m c, members !! i = Some m -> current !! i = Some c ->
    current' !! i = Some (c + Z.of_nat k * weight m - picks i trace * W).
Proof.
  intros Hw. revert current. induction k as [|k IH]; intros current Hi W; cbn [smooth_run].
  { split; [done|]. split; [done|]. intros i m c _ ->. f_equal. unfold picks. cbn. lia. }
  pose proof (smooth_select_spec members current Hw Hi) as Hs. cbv zeta in Hs. fold W in Hs.
  destruct (smooth_select current W members) as [sel cur1]. destruct Hs as (_ & Hi1 & Hs).
  specialize (IH cur1 Hi1). cbv zeta in IH. fold W in IH.
  destruct (smooth_run k cur1 W members) as [trace cur2]. destruct IH as (Hi2 & Hl & IH).
  split; [done|]. split; [cbn; lia|]. intros i m c Hm Hc.
  rewrite (IH i m _ Hm (Hs i m c Hm Hc)). f_equal. unfold picks. cbn [count_occ].
  destruct (Nat.eq_dec sel i) as [->|Hne].
  - rewrite decide_True by done. lia.
  - rewrite decide_False by done. lia.
Qed.


(** ** Construction *)

Lemma check_members_spec mode seen rest index total t :
  Forall (fun m => 0 <= weight m) rest -> NoDup (member_name <$> seen) ->
  check_members mode seen rest index total = Ok t ->
  Forall (fun m => 0 < weight m) rest /\ NoDup (member_name <$> seen ++ rest) /\
  t = total + Zsum (weight <$> rest) /\
  (mode = Parallel \/ mode = Failover -> Forall (fun m => weight m = 1) rest).
Proof.
  intros Hw. revert seen index total. induction Hw as [|m rest Hm _ IH]; intros seen index total Hnd.
  { intros [= <-]. rewrite app_nil_r. split; [constructor|]. split; [done|]. split; [cbn; lia|constructor]. }
  cbn [check_members]. destruct (Z.eqb_spec (weight m) 0); [done|]. case_bool_decide as Hn; [done|].
  destruct (_ && _) eqn:Hfix; [done|]. intros H.
  assert (Hnd' : NoDup (member_name <$> seen ++ [m])).
  { rewrite fmap_app, list.NoDup_app. split; [done|]. cbn. split; [set_solver|apply NoDup_singleton]. }
  destruct (IH (seen ++ [m]) (S index) (total + weight m) Hnd' H) as (H1 & H2 & -> & H4).
  rewrite <-app_assoc in H2. split; [constructor; [lia|done]|]. split; [done|]. split; [cbn; lia|].
  intros Hmode. constructor; [|auto]. apply andb_false_iff in Hfix as [Hf|Hf].
  - apply orb_false_iff in Hf as [?%bool_decide_eq_false ?%bool_decide_eq_false]. naive_solver.
  - by apply negb_false_iff, Z.eqb_eq in Hf.
Qed.

Lemma new_selector_spec mode members g :
  Forall (fun m => 0 <= weight m) members -> new_selector mode members = Ok g ->
  weights_ok members /\ NoDup (member_name <$> members) /\
  g = mk_selector mode members (replicate (length members) 0) (Zsum (weight <$> members))
        (replicate (length members) 0) 0.
Proof.
  unfold new_selector. intros Hw. case_bool_decide as Hne; [done|]. case_bool_decide; [done|].
  intros H0. inv_ok. apply check_members_spec in H1 as (H1 & H2 & -> & _); [|done|constructor].
  split; [done|]. split; [done|]. by subst g.
Qed.

Lemma smooth_inv_zeros members : weights_ok members -> smooth_inv members (replicate (length members) 0).
Proof.
  intros Hw. pose proof (weights_pos members Hw). split; [apply length_replicate|]. split.
  - clear. induction (length members); cbn; lia.
  - intros i c [-> _]%lookup_replicate_1. lia.
Qed.

(** [k] calls of [select_primary]. *)
Fixpoint select_n (k : nat) (g : GroupSelector) : list (result GroupSelectorError nat) * GroupSelector :=
  match k with
  | O => ([], g)
  | S k' =>
    let '(r, g) := select_primary g in
    let '(rs, g) := select_n k' g in (r :: rs, g)
  end.

Lemma select_n_smooth k g :
  g_mode g = RoundRobin ->
  let '(trace, current) := smooth_run k (g_current g) (g_total_weight g) (g_members g) in
  select_n k g = (Ok <$> trace, mk_selector RoundRobin (g_members g) current (g_total_weight g)
    (g_in_flight g) (g_cursor g)).
Proof.
  revert g. induction k as [|k IH]; intros g Hm; cbn [smooth_run select_n].
  { by destruct g; cbn in *; subst. }
  unfold select_primary. rewrite Hm.
  destruct (smooth_select (g_current g) (g_total_weight g) (g_members g)) as [sel cur].
  specialize (IH (mk_selector RoundRobin (g_members g) cur (g_total_weight g) (g_in_flight g)
    (g_cursor g)) eq_refl). cbn in IH.
  destruct (smooth_run k cur (g_total_weight g) (g_members g)) as [trace cur2]. by rewrite IH.
Qed.

(** C37: Round robin is smooth and exactly proportional: after any number [k] of
    selections no member is more than one turn ahead of its share k*w/W, and
    after each W = total weight selections every member was chosen exactly its
    weight times and the selector is back in its initial state. *)
Theorem round_robin_fair members g :
  Forall (fun m => 0 <= weight m) members -> new_selector RoundRobin members = Ok g ->
  let W := Zsum (weight <$> members) in
  (forall k, exists trace, (select_n k g).1 = Ok <$> trace /\
     forall i m, members !! i = Some m ->
       picks i trace * W < Z.of_nat k * weight m + W) /\
  exists trace, select_n (Z.to_nat W) g = (Ok <$> trace, g) /\
    forall i m, members !! i = Some m -> picks i trace = weight m.
Proof.
  intros Hnn Hg W. apply new_selector_spec in Hg as (Hw & _ & ->); [|done].
  pose proof (weights_pos members Hw) as HW. pose proof (smooth_inv_zeros members Hw) as Hi.
  set (zeros := replicate (length members) 0) in *.
  set (g := mk_selector RoundRobin members zeros (Zsum (weight <$> members)) zeros 0).
  assert (Hz : forall i m, members !! i = Some m -> zeros !! i = Some 0).
  { intros i m Hm. apply lookup_lt_Some in Hm. by apply lookup_replicate_2. }
  split.
  - intros k. pose proof (select_n_smooth k g eq_refl) as Hs. cbn in Hs.
    pose proof (smooth_run_spec k members zeros Hw Hi) as Hr. cbv zeta in Hr.
    destruct (smooth_run k zeros _ members) as [trace cur]. rewrite Hs. exists trace. split; [done|].
    destruct Hr as ((_ & _ & Hlow) & _ & Hr). intros i m Hm.
    specialize (Hlow i _ (Hr i m 0 Hm (Hz i m Hm))). fold W in Hlow. lia.
  - pose proof (select_n_smooth (Z.to_nat W) g eq_refl) as Hs. cbn in Hs.
    pose proof (smooth_run_spec (Z.to_nat W) members zeros Hw Hi) as Hr. cbv zeta in Hr.
    destruct (smooth_run (Z.to_nat W) zeros _ members) as [trace cur]. exists trace.
    destruct Hr as ((Hlen & Hsum & Hlow) & _ & Hr). fold W in Hlow, Hr.
    assert (Hmul : forall i m, members !! i = Some m ->
      cur !! i = Some (W * (weight m - picks i trace)) /\ 0 <= weight m - picks i trace).
    { intros i m Hm. pose proof (Hr i m 0 Hm (Hz i m Hm)) as Hc.
      rewrite Z2Nat.id in Hc by lia. pose proof (Hlow i _ Hc) as Hlo. fold W in Hlo.
      split; [rewrite Hc; f_equal; lia|nia]. }
    assert (Hzero : forall i c, cur !! i = Some c -> c = 0).
    { assert (Hnn' : forall i c, cur !! i = Some c -> 0 <= c).
      { intros i c Hc. destruct (members !! i) as [m|] eqn:Hm.
        - destruct (Hmul i m Hm) as [Hc' ?]. rewrite Hc in Hc'. injection Hc' as ->. nia.
        - apply lookup_ge_None in Hm. apply lookup_lt_Some in Hc. lia. }
      by apply Zsum_zero_nonneg. }
    split.
    + rewrite Hs. f_equal. unfold g. f_equal. apply list_eq. intros i.
      destruct (members !! i) as [m|] eqn:Hm.
      * destruct (Hmul i m Hm) as [Hc _]. rewrite (Hz i m Hm), Hc. f_equal. by apply (Hzero i).
      * apply lookup_ge_None in Hm. rewrite !(proj2 (lookup_ge_None _ _)); try done; [|lia].
        subst zeros. by rewrite length_replicate.
    + intros i m Hm. destruct (Hmul i m Hm) as [Hc ?]. apply Hzero in Hc. nia.
Qed.

(** ** Least-loaded selection *)

Section LoadBalance.
Context (members : list Member).
Context (Hpos : Forall (fun m => 0 < weight m) members).

Definition wt (i : nat) : Z := default 0 (weight <$> members !! i).

Lemma wt_pos i : (i < length members)%nat -> 0 < wt i.
Proof.
  intros Hi. unfold wt. destruct (lookup_lt_is_Some_2 members i Hi) as [m Hm]. rewrite Hm.
  exact (proj1 (Forall_lookup _ _) Hpos i m Hm).
Qed.

(** Member [i] carries at most the load of [j], relative to their weights. *)
Definition not_busier (load : nat -> Z) (i j : nat) : Prop := load i * wt j <= load j * wt i.

Lemma not_busier_trans load i j k :
  (i < length members)%nat -> (j < length members)%nat -> (k < length members)%nat ->
  not_busier load i j -> not_busier load j k -> not_busier load i k.
Proof.
  intros Hi%wt_pos Hj%wt_pos Hk%wt_pos. unfold not_busier. intros H1 H2.
  apply (Z.mul_le_mono_pos_r _ _ (wt j)); [done|].
  replace (load i * wt k * wt j) with (load i * wt j * wt k) by lia.
  replace (load k * wt i * wt j) with (load k * wt j * wt i) by lia.
  transitivity (load j * wt i * wt k); [nia|].
  replace (load j * wt i * wt k) with (load j * wt k * wt i) by lia. nia.
Qed.

Lemma load_loop_spec in_flight start offsets best :
  let load i := default 0 (in_flight !! i) in
  (best < length members)%nat ->
  let r := load_loop members in_flight start offsets best in
  (r < length members)%nat /\ not_busier load r best /\
  forall o, o ∈ offsets -> not_busier load r ((start + o) mod length members)%nat.
Proof.
  intros load. revert best. induction offsets as [|o offsets IH]; intros best Hb; cbn [load_loop].
  { split; [done|]. split; [unfold not_busier; lia|]. set_solver. }
  set (cand := ((start + o) mod length members)%nat).
  assert (Hc : (cand < length members)%nat) by (apply Nat.mod_upper_bound; lia).
  change (load_ratio_is_less _ _ _ _) with (load cand * wt best <? load best * wt cand).
  set (best' := if _ <? _ then _ else _).
  assert (Hb' : (best' < length members)%nat /\ not_busier load best' best /\ not_busier load best' cand).
  { unfold best', not_busier. destruct (Z.ltb_spec (load cand * wt best) (load best * wt cand));
      (split; [done|lia]). }
  destruct Hb' as (Hlt & H1 & H2). destruct (IH best' Hlt) as (Hr & H3 & H4).
  split; [done|]. split; [by apply (not_busier_trans load _ best')|].
  intros x [->|Hx]%elem_of_cons; [by apply (not_busier_trans load _ best')|auto].
Qed.

(** Every member is visited. *)
Lemma offsets_cover start j :
  (start < length members)%nat -> (j < length members)%nat -> j <> start ->
  exists o, o ∈ seq 1 (length members - 1) /\ j = ((start + o) mod length members)%nat.
Proof.
  intros Hs Hj Hne. set (n := length members) in *. destruct (decide (start < j)%nat).
  - exists (j - start)%nat. rewrite elem_of_seq. split; [lia|].
    replace (start + (j - start))%nat with j by lia. by rewrite Nat.mod_small.
  - exists (n - start + j)%nat. rewrite elem_of_seq. split; [lia|].
    replace (start + (n - start + j))%nat with (j + 1 * n)%nat by lia.
    by rewrite Nat.Div0.mod_add, Nat.mod_small.
Qed.

Lemma load_balance_index_spec g :
  members <> [] -> g_members g = members ->
  let load i := default 0 (g_in_flight g !! i) in
  ((load_balance_index g).1 < length members)%nat /\
  forall j, (j < length members)%nat -> not_busier load (load_balance_index g).1 j.
Proof.
  intros Hne Hg load. unfold load_balance_index. rewrite Hg. cbn [fst].
  set (start := Z.to_nat _).
  assert (Hn : (0 < length members)%nat) by (by destruct members; cbn; [|lia]).
  assert (Hs : (start < length members)%nat).
  { subst start. pose proof (Z.mod_pos_bound (g_cursor g) (Z.of_nat (length members))). lia. }
  destruct (load_loop_spec (g_in_flight g) start (seq 1 (length members - 1)) start Hs) as (H1 & H2 & H3).
  split; [done|]. intros j Hj. destruct (decide (j = start)) as [->|Hne']; [done|].
  destruct (offsets_cover start j Hs Hj Hne') as (o & Ho & ->). by apply H3.
Qed.

(** Selectors reached by acquiring and dropping leases; the leases alive. *)
Inductive lb_reachable : GroupSelector -> list nat -> Prop :=
| lb_new g : new_selector LoadBalance members = Ok g -> lb_reachable g []
| lb_acquire g ls i g' : lb_reachable g ls -> Z.of_nat (length ls) < u64_max ->
    acquire_primary g = (Ok i, g') -> lb_reachable g' (i :: ls)
| lb_drop g ls1 i ls2 : lb_reachable g (ls1 ++ i :: ls2) -> lb_reachable (drop_lease g i) (ls1 ++ ls2).

Record lb_inv (g : GroupSelector) (ls : list nat) : Prop := {
  lbi_members : g_members g = members;
  lbi_mode : g_mode g = LoadBalance;
  lbi_nonempty : members <> [];
  lbi_length : length (g_in_flight g) = length members;
  lbi_count : forall i, (i < length members)%nat -> g_in_flight g !! i = Some (picks i ls)
}.

Lemma picks_le i ls : 0 <= picks i ls <= Z.of_nat (length ls).
Proof. unfold picks. pose proof (count_occ_bound Nat.eq_dec i ls). lia. Qed.

Lemma picks_cons i j ls : picks i (j :: ls) = picks i ls + if decide (j = i) then 1 else 0.
Proof.
  unfold picks. cbn [count_occ]. destruct (Nat.eq_dec j i); case_decide; try done; lia.
Qed.

Lemma picks_middle i j ls1 ls2 :
  picks i (ls1 ++ j :: ls2) = picks i (ls1 ++ ls2) + if decide (j = i) then 1 else 0.
Proof.
  unfold picks. rewrite !count_occ_app. cbn [count_occ].
  destruct (Nat.eq_dec j i); case_decide; try done; lia.
Qed.

Lemma lb_reachable_inv g ls : lb_reachable g ls -> lb_inv g ls.
Proof.
  induction 1 as [g Hg|g ls i g' _ [H1 H2 H3 H4 H5] Hbound Ha|g ls1 i ls2 _ [H1 H2 H3 H4 H5]].
  - apply new_selector_spec in Hg as ([Hne _] & _ & ->).
    2: { revert Hpos. apply Forall_impl. lia. }
    split; cbn; try done; [apply length_replicate|]. intros i Hi. by apply lookup_replicate_2.
  - unfold acquire_primary in Ha. rewrite H2, bool_decide_true in Ha by done.
    pose proof (load_balance_index_spec g H3 H1) as [Hlt _].
    unfold load_balance_index in *. cbn [fst] in Hlt. injection Ha as Hi Hg'. rewrite Hi in Hlt, Hg'.
    subst g'. cbn. split; cbn; try done; [by rewrite length_insert|].
    intros j Hj. rewrite picks_cons. destruct (decide (i = j)) as [->|Hne].
    + rewrite list_lookup_insert_eq by lia. rewrite (H5 j Hj). cbn. f_equal.
      pose proof (picks_le j ls). apply wrap64_small. unfold_ints. lia.
    + rewrite list_lookup_insert_ne by done. rewrite (H5 j Hj). f_equal. lia.
  - unfold drop_lease. destruct (g_in_flight g !! i) as [v|] eqn:Hv.
    + assert (Hi : (i < length members)%nat) by (apply lookup_lt_Some in Hv; lia).
      pose proof (H5 i Hi) as Hc. rewrite Hv in Hc. injection Hc as ->.
      rewrite picks_middle, decide_True in Hv |- * by done. pose proof (picks_le i (ls1 ++ ls2)).
      rewrite (proj2 (Z.ltb_lt _ _)) by lia. split; cbn; try done; [by rewrite length_insert|].
      intros j Hj. destruct (decide (i = j)) as [->|Hne].
      * rewrite list_lookup_insert_eq by lia. f_equal. lia.
      * rewrite list_lookup_insert_ne by done. rewrite (H5 j Hj), picks_middle, decide_False by done.
        f_equal. lia.
    + split; try done. intros j Hj. rewrite (H5 j Hj), picks_middle.
      rewrite decide_False; [f_equal; lia|]. intros ->. apply lookup_ge_None in Hv. lia.
Qed.

(** Under any interleaving of acquisitions and releases the load counters
    equal the leases alive, and the next acquisition always succeeds on a member
    whose load relative to its weight is minimal. *)
Theorem acquire_least_loaded g ls :
  lb_reachable g ls ->
  (forall i, (i < length members)%nat -> in_flight g i = Ok (picks i ls)) /\
  exists i g', acquire_primary g = (Ok i, g') /\ (i < length members)%nat /\
    forall j, (j < length members)%nat -> picks i ls * wt j <= picks j ls * wt i.
Proof.
  intros Hr. apply lb_reachable_inv in Hr as [H1 H2 H3 H4 H5]. split.
  - intros i Hi. unfold in_flight. by rewrite (H5 i Hi).
  - unfold acquire_primary. rewrite H2, bool_decide_true by done.
    pose proof (load_balance_index_spec g H3 H1) as [Hlt Hmin].
    destruct (load_balance_index g) as [i g']. cbn [fst] in *. do 2 eexists. split; [done|].
    split; [done|]. intros j Hj. specialize (Hmin j Hj). unfold not_busier in Hmin.
    by rewrite (H5 i Hlt), (H5 j Hj) in Hmin.
Qed.

End LoadBalance.

(** ** Concrete runs *)

Section GroupWitness.

Definition sample_members : list Member := [mk_member "a" 3; mk_member "b" 1].
Definition sample_group : GroupSelector := mk_selector RoundRobin sample_members [0; 0] 4 [0; 0] 0.

Lemma round_robin_fair_witness :
  exists trace, select_n 4 sample_group = (Ok <$> trace, sample_group) /\ picks 0 trace = 3.
Proof.
  destruct (round_robin_fair sample_members sample_group) as (_ & trace & Hs & Hp).
  - by repeat constructor.
  - reflexivity.
  - exists trace. split; [exact Hs|exact (Hp 0%nat _ eq_refl)].
Defined.

Lemma acquire_least_loaded_witness :
  exists i g', acquire_primary (mk_selector LoadBalance sample_members [0; 0] 4 [0; 0] 0) = (Ok i, g').
Proof.
  destruct (acquire_least_loaded sample_members ltac:(by repeat constructor)
    (mk_selector LoadBalance sample_members [0; 0] 4 [0; 0] 0) []) as (_ & i & g' & H & _).
  - apply lb_new. reflexivity.
  - exists i, g'. exact H.
Defined.

End GroupWitness.
