(* ===== verification/Outcome.v ===== *)
(** * Aggregation of upstream attempts (src/backend/src/upstream/outcome.rs)

    The assessment of one attempt, the decision to enter the fallback window and
    the choice of the final outcome of a group. *)

From S2P Require Import Prelude Message CacheModel Group.

(** Types of ports/exchange.rs. *)
Inductive TransportFailureClass :=
| TF_Connect | TF_DnsBootstrap | TF_Proxy | TF_Tls | TF_HttpStatus | TF_MediaType | TF_BodyLimit
| TF_Timeout | TF_Wire | TF_QuestionMismatch | TF_Unavailable | TF_ProtocolViolation
| TF_ResourceExhausted | TF_Internal.

Record ConnectorId := mk_connector { connector_str : string }.
#[global] Instance ConnectorId_eq_dec : EqDecision ConnectorId.
Proof. solve_decision. Defined.
#[global] Instance ConnectorId_countable : Countable ConnectorId.
Proof. refine (inj_countable' connector_str mk_connector _). by intros []. Defined.

Record TransportFailure := mk_failure {
  tf_connector : ConnectorId;
  tf_class : TransportFailureClass;
  retryable : bool
}.

Inductive FallbackDecision := Continue | Stop.
#[global] Instance FallbackDecision_eq_dec : EqDecision FallbackDecision.
Proof. solve_decision. Defined.

Section Outcome.
Context {HH : Hickory}.

Inductive UpstreamOutcome :=
| UO_Response (r : CanonicalResponse)
| UO_TransportFailure (f : TransportFailure)
| UO_Cancelled (reason : CancelReason).

Inductive AttemptClass :=
| AC_Response (c : ResponseClass)
| AC_TransportFailure (c : TransportFailureClass) (retryable : bool)
| AC_Cancelled (reason : CancelReason).

Record UpstreamAttempt := mk_attempt {
  attempt_index : Z;
  connector : ConnectorId;
  outcome : UpstreamOutcome
}.

Record AggregatedOutcome := mk_aggregated {
  ag_connector : option ConnectorId;
  ag_outcome : UpstreamOutcome
}.

(** [Panic] is the [expect] on the SERVFAIL construction. *)
Inductive OutcomeError := DuplicateAttemptIndex (index : Z) | Panic.

Definition assess (o : UpstreamOutcome) : AttemptClass * FallbackDecision :=
  match o with
  | UO_Response r => (AC_Response (resp_class r),
      match resp_class r with
      | RServFail | RTruncated => Continue
      | _ => Stop
      end)
  | UO_TransportFailure f => (AC_TransportFailure (tf_class f) (retryable f),
      if retryable f then Continue else Stop)
  | UO_Cancelled reason => (AC_Cancelled reason, Stop)
  end.

Definition should_enter_fallback (attempts : list UpstreamAttempt) : bool :=
  negb (bool_decide (length attempts = 0%nat)) &&
  forallb (fun a => bool_decide ((assess (outcome a)).2 = Continue)) attempts.

(** The [filter] with the [seen] set. *)
Fixpoint dedup_from (seen : gset ConnectorId) (l : list ConnectorId) : list ConnectorId :=
  match l with
  | [] => []
  | c :: l' => if bool_decide (c ∈ seen) then dedup_from seen l'
               else c :: dedup_from ({[c]} ∪ seen) l'
  end.
Definition deduplicate_connector_order (primary fallback : list ConnectorId) : list ConnectorId :=
  dedup_from ∅ (primary ++ fallback).

Definition response_preference (c : ResponseClass) : Z :=
  match c with
  | RPositive => 3
  | RNoData => 2
  | RNxDomain | RRefused | ROther _ => 1
  | RServFail | RTruncated => 0
  end.

Definition cancel_priority (r : CancelReason) : Z :=
  match r with
  | CR_Shutdown => 5
  | ClientDisconnected => 4
  | DeadlineExceeded => 3
  | GroupPolicy => 2
  | UpstreamCancelled => 1
  end.

Definition prefer_cancel (current : option (ConnectorId * CancelReason)) (c : ConnectorId)
    (candidate : CancelReason) : ConnectorId * CancelReason :=
  match current with
  | None => (c, candidate)
  | Some cur => if cancel_priority cur.2 <? cancel_priority candidate then (c, candidate) else cur
  end.

(** The three variables of the aggregation loop. *)
Record AggregateState := mk_agg {
  cancellation : option (ConnectorId * CancelReason);
  selected_response : option (ConnectorId * CanonicalResponse);
  fallback_blocked : bool
}.

Definition aggregate_step (mode : SelectionPolicy) (st : AggregateState) (a : UpstreamAttempt) :
    AggregateState :=
  let cancelled reason :=
    mk_agg (Some (prefer_cancel (cancellation st) (connector a) reason))
      (selected_response st) (fallback_blocked st) in
  if fallback_blocked st then
    match outcome a with UO_Cancelled reason => cancelled reason | _ => st end
  else match (assess (outcome a)).2 with
  | Continue => match outcome a with UO_Cancelled reason => cancelled reason | _ => st end
  | Stop =>
    match outcome a with
    | UO_Response r =>
      let replace := match selected_response st with
        | None => true
        | Some (_, current) => bool_decide (mode = Parallel) &&
            (response_preference (resp_class current) <? response_preference (resp_class r))
        end in
      if replace then mk_agg (cancellation st) (Some (connector a, r)) (fallback_blocked st) else st
    | UO_Cancelled reason => cancelled reason
    | UO_TransportFailure f =>
      mk_agg (cancellation st) (selected_response st)
        (fallback_blocked st || (negb (bool_decide (mode = Parallel)) && negb (retryable f)))
    end
  end.

(** [attempts.windows(2)]: the first adjacent pair with equal indexes. *)
Fixpoint first_duplicate (l : list UpstreamAttempt) : option Z :=
  match l with
  | a :: l' =>
    match l' with
    | b :: _ => if attempt_index a =? attempt_index b then Some (attempt_index a)
                else first_duplicate l'
    | [] => None
    end
  | [] => None
  end.

Definition finish_aggregate (q : CanonicalQuery) (st : AggregateState) :
    result OutcomeError AggregatedOutcome :=
  match cancellation st, selected_response st with
  | Some (c, reason), sel =>
    if 3 <=? cancel_priority reason then Ok (mk_aggregated (Some c) (UO_Cancelled reason))
    else match sel with
    | Some (c', r) => Ok (mk_aggregated (Some c') (UO_Response r))
    | None => Ok (mk_aggregated (Some c) (UO_Cancelled reason))
    end
  | None, Some (c, r) => Ok (mk_aggregated (Some c) (UO_Response r))
  | None, None =>
    match empty_response q ServFail with
    | Ok r => Ok (mk_aggregated None (UO_Response r))
    | Err _ => Err Panic
    end
  end.

Definition aggregate_with_connector (mode : SelectionPolicy) (q : CanonicalQuery)
    (attempts : list UpstreamAttempt) : result OutcomeError AggregatedOutcome :=
  let attempts := sort_by_key attempt_index attempts in
  match first_duplicate attempts with
  | Some i => Err (DuplicateAttemptIndex i)
  | None => finish_aggregate q (foldl (aggregate_step mode) (mk_agg None None false) attempts)
  end.

Definition aggregate (mode : SelectionPolicy) (q : CanonicalQuery)
    (attempts : list UpstreamAttempt) : result OutcomeError UpstreamOutcome :=
  ag_outcome <$> aggregate_with_connector mode q attempts.

(** ** Reference semantics *)

(** [x] is the first element of [l] with the largest key. *)
Definition is_first_max {A} (key : A -> Z) (l : list A) (x : A) : Prop :=
  exists l1 l2, l = l1 ++ x :: l2 /\ (forall y, y ∈ l1 -> key y < key x) /\
    forall y, y ∈ l2 -> key y <= key x.

Lemma is_first_max_snoc {A} (key : A -> Z) l x y :
  is_first_max key l x -> is_first_max key (l ++ [y]) (if key x <? key y then y else x).
Proof.
  intros (l1 & l2 & -> & H1 & H2). destruct (Z.ltb_spec (key x) (key y)).
  - exists (l1 ++ x :: l2), []. split; [done|]. split; [|set_solver].
    intros z [Hz|[->|Hz]%elem_of_cons]%elem_of_app; [specialize (H1 z Hz)|lia|specialize (H2 z Hz)]; lia.
  - exists l1, (l2 ++ [y]). split; [by rewrite <-app_assoc|]. split; [done|].
    intros z [Hz|Hz]%elem_of_app; [auto|]. apply list_elem_of_singleton in Hz as ->. lia.
Qed.

Lemma is_first_max_singleton {A} (key : A -> Z) x : is_first_max key [x] x.
Proof. exists [], []. split; [done|]. split; set_solver. Qed.

Definition cancel_of (a : UpstreamAttempt) : option (ConnectorId * CancelReason) :=
  match outcome a with UO_Cancelled reason => Some (connector a, reason) | _ => None end.

(** A response that ends the search: anything but SERVFAIL and truncation. *)
Definition terminal_response (a : UpstreamAttempt) : option (ConnectorId * CanonicalResponse) :=
  match outcome a with
  | UO_Response r => match resp_class r with
                     | RServFail | RTruncated => None
                     | _ => Some (connector a, r)
                     end
  | _ => None
  end.

Definition hard_failure (a : UpstreamAttempt) : bool :=
  match outcome a with UO_TransportFailure f => negb (retryable f) | _ => false end.

(** The attempts whose responses count: all of a parallel batch, otherwise those
    before the first non-retryable failure. *)
Fixpoint before_hard (l : list UpstreamAttempt) : list UpstreamAttempt :=
  match l with
  | [] => []
  | a :: l' => if hard_failure a then [] else a :: before_hard l'
  end.
Definition counted (mode : SelectionPolicy) (l : list UpstreamAttempt) : list UpstreamAttempt :=
  if decide (mode = Parallel) then l else before_hard l.

(** The response chosen: the preferred class in a parallel batch, else the first. *)
Definition chosen (mode : SelectionPolicy) (rs : list (ConnectorId * CanonicalResponse))
    (x : ConnectorId * CanonicalResponse) : Prop :=
  if decide (mode = Parallel)
  then is_first_max (fun x => response_preference (resp_class x.2)) rs x
  else head rs = Some x.

Definition opt_spec {A} (P : A -> Prop) (l : list A) (o : option A) : Prop :=
  match o with Some x => P x | None => l = [] end.

Abbreviation prio := (fun c : ConnectorId * CancelReason => cancel_priority c.2).

Definition agg_inv (mode : SelectionPolicy) (done : list UpstreamAttempt) (st : AggregateState) :
    Prop :=
  opt_spec (is_first_max prio (omap cancel_of done)) (omap cancel_of done) (cancellation st) /\
  opt_spec (chosen mode (omap terminal_response (counted mode done)))
    (omap terminal_response (counted mode done)) (selected_response st) /\
  fallback_blocked st = negb (bool_decide (mode = Parallel)) && existsb hard_failure done.

Lemma before_hard_snoc l a :
  before_hard (l ++ [a]) =
  if existsb hard_failure l then before_hard l
  else before_hard l ++ (if hard_failure a then [] else [a]).
Proof.
  induction l as [|b l IH]; cbn; [by destruct (hard_failure a)|].
  destruct (hard_failure b); [done|]. cbn. rewrite IH. by destruct (existsb hard_failure l).
Qed.

Lemma prefer_cancel_max done st c reason :
  opt_spec (is_first_max prio (omap cancel_of done)) (omap cancel_of done) (cancellation st) ->
  is_first_max prio (omap cancel_of done ++ [(c, reason)]) (prefer_cancel (cancellation st) c reason).
Proof.
  intros H. destruct (cancellation st) as [cur|]; cbn [opt_spec prefer_cancel] in *.
  - by apply (is_first_max_snoc prio _ cur (c, reason)).
  - rewrite H. apply is_first_max_singleton.
Qed.

Lemma chosen_snoc mode rs st c r :
  opt_spec (chosen mode rs) rs st ->
  chosen mode (rs ++ [(c, r)])
    (if match st with
        | None => true
        | Some (_, current) => bool_decide (mode = Parallel) &&
            (response_preference (resp_class current) <? response_preference (resp_class r))
        end then (c, r) else default (c, r) st).
Proof.
  destruct st as [[c0 r0]|]; cbn [opt_spec]; unfold chosen; case_decide as Hm.
  - rewrite bool_decide_true by done. intros H. cbn [andb default from_option id].
    by apply (is_first_max_snoc (fun x => response_preference (resp_class x.2)) rs (c0, r0) (c, r)).
  - rewrite bool_decide_false by done. cbn. intros H. by destruct rs.
  - intros ->. apply is_first_max_singleton.
  - by intros ->.
Qed.

Lemma omap_snoc {A B} (f : A -> option B) l a :
  omap f (l ++ [a]) = omap f l ++ match f a with Some b => [b] | None => [] end.
Proof. rewrite omap_app. cbn. by destruct (f a). Qed.

Lemma counted_snoc mode done a :
  counted mode (done ++ [a]) =
  counted mode done ++
  (if (negb (bool_decide (mode = Parallel)) && existsb hard_failure done) ||
      (negb (bool_decide (mode = Parallel)) && hard_failure a) then [] else [a]).
Proof.
  unfold counted. case_decide as Hm.
  - by rewrite bool_decide_true.
  - rewrite bool_decide_false by done. cbn. rewrite before_hard_snoc.
    destruct (existsb hard_failure done); cbn; [by rewrite app_nil_r|done].
Qed.

Lemma aggregate_step_inv mode done st a :
  agg_inv mode done st -> agg_inv mode (done ++ [a]) (aggregate_step mode st a).
Proof.
  intros (Hc & Hs & Hb). unfold agg_inv. rewrite !omap_snoc, counted_snoc, omap_app, existsb_app.
  cbn [existsb]. rewrite orb_false_r. unfold aggregate_step. rewrite ?Hb.
  set (par := bool_decide (mode = Parallel)) in *. set (hard := existsb hard_failure done) in *.
  destruct (outcome a) as [r|f|reason] eqn:Ho.
  - assert (Hca : cancel_of a = None) by (unfold cancel_of; by rewrite Ho).
    assert (Hha : hard_failure a = false) by (unfold hard_failure; by rewrite Ho).
    rewrite Hca, Hha, andb_false_r, !orb_false_r, app_nil_r.
    destruct (negb par && hard) eqn:Hblk; [cbn; rewrite app_nil_r; by rewrite ?Hb|].
    cbn [omap list_omap].
    destruct (terminal_response a) as [x|] eqn:Ht.
    + assert (x = (connector a, r)) as -> by
        (unfold terminal_response in Ht; rewrite Ho in Ht; by destruct (resp_class r); simplify_eq).
      pose proof (chosen_snoc mode _ _ (connector a) r Hs) as Hch.
      assert (Hst : (assess (UO_Response r)).2 = Stop)
        by (unfold terminal_response in Ht; rewrite Ho in Ht; cbn; by destruct (resp_class r)).
      rewrite Hst. fold par in Hch.
      destruct (selected_response st) as [[c0 r0]|] eqn:Hsel.
      * destruct (par && _); cbn; [by rewrite ?Hb|]. rewrite Hsel, ?Hb. by split_and!.
      * cbn. by rewrite ?Hb.
    + assert (Hct : (assess (UO_Response r)).2 = Continue)
        by (unfold terminal_response in Ht; rewrite Ho in Ht; cbn; by destruct (resp_class r)).
      rewrite Hct. rewrite app_nil_r. by rewrite ?Hb.
  - assert (Hca : cancel_of a = None) by (unfold cancel_of; by rewrite Ho).
    assert (Hta : terminal_response a = None) by (unfold terminal_response; by rewrite Ho).
    assert (Hha : hard_failure a = negb (retryable f)) by (unfold hard_failure; by rewrite Ho).
    assert (Hom : forall b : bool, omap terminal_response (if b then [] else [a]) = [])
      by (intros []; cbn; [done|by rewrite Hta]).
    rewrite Hca, Hom, !app_nil_r, Hha.
    destruct (negb par && hard) eqn:Hblk.
    { rewrite ?Hb. split_and!; try done. destruct par; [done|]. cbn in *. by rewrite Hblk. }
    cbn [assess snd]. destruct (retryable f); cbn.
    + rewrite ?Hb. split_and!; try done. by rewrite orb_false_r.
    + split_and!; try done. rewrite ?Hb. by destruct par, hard.
  - assert (Hca : cancel_of a = Some (connector a, reason)) by (unfold cancel_of; by rewrite Ho).
    assert (Hta : terminal_response a = None) by (unfold terminal_response; by rewrite Ho).
    assert (Hha : hard_failure a = false) by (unfold hard_failure; by rewrite Ho).
    assert (Hom : forall b : bool, omap terminal_response (if b then [] else [a]) = [])
      by (intros []; cbn; [done|by rewrite Hta]).
    rewrite Hca, Hom, app_nil_r, Hha, orb_false_r.
    pose proof (prefer_cancel_max done st (connector a) reason Hc) as Hp.
    destruct (negb par && hard); cbn; rewrite ?Hb; by split_and!.
Qed.

Lemma aggregate_fold_inv mode l :
  agg_inv mode l (foldl (aggregate_step mode) (mk_agg None None false) l).
Proof.
  induction l as [|a l IH] using rev_ind.
  - unfold agg_inv, counted. cbn. split; [done|]. split; [by case_decide|]. by rewrite andb_false_r.
  - rewrite foldl_app. cbn. by apply aggregate_step_inv.
Qed.

Lemma first_duplicate_none l :
  StronglySorted (key_le attempt_index) l -> NoDup (attempt_index <$> l) -> first_duplicate l = None.
Proof.
  induction 1 as [|a l Hs IH Ha]; [done|]. cbn [fmap list_fmap first_duplicate].
  intros Hnd. inversion_clear Hnd as [|? ? Hnot Hnd']. destruct l as [|b l]; [done|].
  destruct (Z.eqb_spec (attempt_index a) (attempt_index b)) as [E|]; [|by apply IH].
  rewrite E in Hnot. set_solver.
Qed.

(** ** Properties *)

(** The cases of the result, in the order in which they are tried. *)
Lemma aggregate_cases `{HL : !HickoryLaws HH} mode q attempts :
  wf_query q -> NoDup (attempt_index <$> attempts) ->
  let sorted := sort_by_key attempt_index attempts in
  let cancels := omap cancel_of sorted in
  let responses := omap terminal_response (counted mode sorted) in
  exists out, aggregate_with_connector mode q attempts = Ok out /\
    ((exists c, is_first_max prio cancels c /\ 3 <= cancel_priority c.2 /\
        out = mk_aggregated (Some c.1) (UO_Cancelled c.2)) \/
     (forall c, c ∈ cancels -> cancel_priority c.2 < 3) /\
     ((exists x, chosen mode responses x /\ out = mk_aggregated (Some x.1) (UO_Response x.2)) \/
      (responses = [] /\
       ((exists c, is_first_max prio cancels c /\
           out = mk_aggregated (Some c.1) (UO_Cancelled c.2)) \/
        (cancels = [] /\ exists r, empty_response q ServFail = Ok r /\ resp_class r = RServFail /\
           out = mk_aggregated None (UO_Response r)))))).
Proof.
  intros Hq Hnd sorted cancels responses. unfold aggregate_with_connector. fold sorted.
  rewrite first_duplicate_none.
  2: apply sort_by_key_sorted.
  2: { unfold sorted. by rewrite sort_by_key_perm. }
  destruct (aggregate_fold_inv mode sorted) as (Hc & Hs & _).
  fold cancels in Hc. fold responses in Hs.
  destruct (foldl _ _ sorted) as [can sel blk]. cbn [cancellation selected_response] in Hc, Hs.
  unfold finish_aggregate. cbn [cancellation selected_response].
  destruct can as [[c reason]|]; cbn [opt_spec] in Hc.
  - destruct (Z.leb_spec 3 (cancel_priority reason)).
    { eexists. split; [done|]. left. by exists (c, reason). }
    assert (Hweak : forall c0, c0 ∈ cancels -> cancel_priority c0.2 < 3).
    { destruct Hc as (l1 & l2 & -> & H1 & H2). cbn in H1, H2.
      intros c0 [Hin|[->|Hin]%elem_of_cons]%elem_of_app; [specialize (H1 c0 Hin)| |specialize (H2 c0 Hin)];
        cbn in *; lia. }
    destruct sel as [[c' r]|]; cbn [opt_spec] in Hs; eexists; (split; [done|]); right; (split; [done|]).
    + left. by exists (c', r).
    + right. split; [done|]. left. by exists (c, reason).
  - assert (Hweak : forall c0, c0 ∈ cancels -> cancel_priority c0.2 < 3) by (rewrite Hc; set_solver).
    destruct sel as [[c' r]|]; cbn [opt_spec] in Hs.
    + eexists. split; [done|]. right. split; [done|]. left. by exists (c', r).
    + destruct (response_with_code_ok q ServFail [] Hq) as (r & Hr & _ & _ & _ & Hcl).
      unfold empty_response. rewrite Hr. eexists. split; [done|]. right. split; [done|]. right.
      split; [done|]. right. split; [done|]. by exists r.
Qed.

(** C15: The aggregated outcome of attempts with distinct indexes: a shutdown,
    disconnect or deadline cancellation wins, over a response that was selected too (the
    comment on [aggregate] lets a cancellation win only when there is no acceptable
    response); without one, the terminal response selected, which in a parallel batch is
    the best by class and the first of these by configuration order, and in the other
    modes the first by configuration order that no non-retryable failure precedes;
    without a response, a weaker cancellation; otherwise a synthesised SERVFAIL, whose
    construction does not fail. *)
Theorem aggregate_spec `{HL : !HickoryLaws HH} mode q attempts :
  wf_query q -> NoDup (attempt_index <$> attempts) ->
  let sorted := sort_by_key attempt_index attempts in
  let cancels := omap cancel_of sorted in
  let responses := omap terminal_response (counted mode sorted) in
  exists out, aggregate_with_connector mode q attempts = Ok out /\
    ((exists c, is_first_max prio cancels c /\ 3 <= cancel_priority c.2 /\
        out = mk_aggregated (Some c.1) (UO_Cancelled c.2)) \/
     (forall c, c ∈ cancels -> cancel_priority c.2 < 3) /\
     ((exists x, chosen mode responses x /\ out = mk_aggregated (Some x.1) (UO_Response x.2)) \/
      (responses = [] /\
       ((exists c, is_first_max prio cancels c /\
           out = mk_aggregated (Some c.1) (UO_Cancelled c.2)) \/
        (cancels = [] /\ exists r, empty_response q ServFail = Ok r /\ resp_class r = RServFail /\
           out = mk_aggregated None (UO_Response r)))))).
Proof. apply aggregate_cases. Qed.

(** The outcome does not depend on the order in which the attempts finished,
    only on their configuration indexes. *)
Theorem aggregate_order_independent mode q attempts attempts' :
  NoDup (attempt_index <$> attempts) -> attempts ≡ₚ attempts' ->
  aggregate_with_connector mode q attempts = aggregate_with_connector mode q attempts'.
Proof.
  intros Hnd Hp. unfold aggregate_with_connector.
  by rewrite (sort_by_key_unique attempt_index attempts attempts').
Qed.

(** The fallback window opens exactly when something was tried and nothing was
    terminal: no attempt ended in a terminal response, a hard failure or a
    cancellation. *)
Lemma should_enter_fallback_iff attempts :
  should_enter_fallback attempts = true <->
  attempts <> [] /\ forall a, a ∈ attempts ->
    terminal_response a = None /\ hard_failure a = false /\ cancel_of a = None.
Proof.
  unfold should_enter_fallback. rewrite andb_true_iff, negb_true_iff, bool_decide_eq_false, forallb_forall.
  rewrite length_zero_iff_nil. setoid_rewrite <-list_elem_of_In. setoid_rewrite bool_decide_eq_true.
  apply and_iff_compat_l. apply forall_proper. intros a. apply forall_proper. intros _.
  unfold terminal_response, hard_failure, cancel_of, assess.
  destruct (outcome a) as [r|f|]; cbn; [destruct (resp_class r)|destruct (retryable f)|]; naive_solver.
Qed.

(** Deduplication keeps the first occurrence of every connector. *)
Lemma dedup_from_spec seen l :
  NoDup (dedup_from seen l) /\ forall c, c ∈ dedup_from seen l <-> c ∈ l /\ (c ∉ seen).
Proof.
  revert seen. induction l as [|x l IH]; intros seen; cbn [dedup_from].
  { split; [constructor|set_solver]. }
  case_bool_decide as Hx.
  - destruct (IH seen) as [H1 H2]. split; [done|]. intros c. rewrite H2. set_solver.
  - destruct (IH ({[x]} ∪ seen)) as [H1 H2]. split.
    + constructor; [rewrite H2; set_solver|done].
    + intros c. rewrite !elem_of_cons, H2. destruct (decide (c = x)); set_solver.
Qed.

End Outcome.

(** ** Concrete runs *)

Section OutcomeWitness.
Import Sample.

Definition up (s : string) : ConnectorId := mk_connector s.
(** A parallel batch finishing out of order: NXDOMAIN from the second upstream, a
    positive answer from the third, a timeout from the first. *)
Definition sample_attempts : list UpstreamAttempt :=
  [mk_attempt 1 (up "b") (UO_Response (Sample.response (negative_msg 0)));
   mk_attempt 2 (up "c") (UO_Response (Sample.response (positive_msg 0 300)));
   mk_attempt 0 (up "a") (UO_TransportFailure (mk_failure (up "a") TF_Timeout true))].

Lemma sample_attempts_nodup : NoDup (attempt_index <$> sample_attempts).
Proof. by apply (bool_decide_unpack _). Qed.

Lemma aggregate_spec_witness :
  exists out, aggregate_with_connector Parallel query sample_attempts = Ok out /\
    ag_connector out = Some (up "c").
Proof.
  destruct (aggregate_spec (HH := hickory) Parallel query sample_attempts query_wf
    sample_attempts_nodup) as (out & H & _).
  exists out. split; [exact H|].
  assert (K : match aggregate_with_connector Parallel query sample_attempts with
              | Ok o => ag_connector o | Err _ => None end = Some (up "c")) by reflexivity.
  rewrite H in K. exact K.
Defined.

Lemma aggregate_order_independent_witness :
  aggregate_with_connector Parallel query sample_attempts =
  aggregate_with_connector Parallel query (reverse sample_attempts).
Proof.
  apply (aggregate_order_independent (HH := hickory)).
  - exact sample_attempts_nodup.
  - symmetry. apply reverse_Permutation.
Defined.

End OutcomeWitness.
