(* ===== verification/CacheCodec.v ===== *)
(** * The cache record codec (src/backend/src/cache/codec.rs)

    The binary form of a cache record in snapshots. Instants are written relative
    to the wall clock, so that a record read back after a restart has aged by the
    wall time that passed. Wall-clock readings are arguments. *)

From S2P Require Import Prelude Text Message CacheModel CacheKeyEnc CacheAdmission.

Definition MAX_COMPONENT_BYTES : Z := 64 * 1024.
Definition MAX_UPSTREAM_ID_BYTES : Z := 128.
Definition MAX_DNS_WIRE_BYTES : Z := 65535.

Inductive CodecError := Corrupt | Incompatible | CodecResourceExhausted.

(** ** Writing *)

Definition put_u16 (v : Z) : list byte := be_bytes 2 v.
Definition put_u32 (v : Z) : list byte := be_bytes 4 v.
Definition put_u64 (v : Z) : list byte := be_bytes 8 v.

Definition put_bytes (value : list byte) (maximum : Z) : result CodecError (list byte) :=
  if u32_max <? bytes_len value then Err CodecResourceExhausted
  else if maximum <? bytes_len value then Err CodecResourceExhausted
  else Ok (put_u32 (bytes_len value) ++ value).

(** ** Reading: the reader is the unread rest of the payload *)

Definition Reader (A : Type) : Type := list byte -> result CodecError (A * list byte).

#[global] Instance reader_ret : MRet Reader := fun _ a rest => Ok (a, rest).
#[global] Instance reader_bind : MBind Reader := fun _ _ f r rest =>
  match r rest with Ok (a, rest') => f a rest' | Err e => Err e end.

Definition fail {A} (e : CodecError) : Reader A := fun _ => Err e.
Definition lift {A} (r : result CodecError A) : Reader A := fun rest =>
  match r with Ok a => Ok (a, rest) | Err e => Err e end.

Definition read_take (n : nat) : Reader (list byte) := fun rest =>
  if (n <=? length rest)%nat then Ok (take n rest, drop n rest) else Err Corrupt.
Definition read_byte : Reader Z := b ← read_take 1; mret (from_be b).
Definition read_u16 : Reader Z := b ← read_take 2; mret (from_be b).
Definition read_u32 : Reader Z := b ← read_take 4; mret (from_be b).
Definition read_u64 : Reader Z := b ← read_take 8; mret (from_be b).

Definition read_bytes (maximum : Z) : Reader (list byte) :=
  len ← read_u32;
  if maximum <? len then fail CodecResourceExhausted else read_take (Z.to_nat len).

Definition reader_is_empty : Reader bool := fun rest => Ok (bool_decide (rest = []), rest).

(** ** Clocks *)

Definition duration_nanos (d : Duration) : Z := Z.min d u64_max.

Definition unix_nanos_for_instant (at_ reference : Instant) (wall : Z) : Z :=
  sat_add64 wall (duration_nanos (duration_since at_ reference)).

Definition instant_from_unix_nanos (value : Z) (reference : Instant) (wall : Z) : option Instant :=
  if value <=? wall then Some reference else instant_checked_add reference (value - wall).

(** ** Enumerations *)

Definition encode_quality (q : CacheQuality) : Z := quality_rank q.
Definition decode_quality (v : Z) : result CodecError CacheQuality :=
  if v =? 0 then Ok Q_Failure else if v =? 1 then Ok Q_Negative
  else if v =? 2 then Ok Q_Complete else Err Corrupt.

Definition encode_response_class (c : CacheResponseClass) : Z :=
  match c with C_NoError => 0 | C_NoData => 1 | C_NxDomain => 2 | C_ServFail => 3 | C_Truncated => 4 end.
Definition decode_response_class (v : Z) : result CodecError CacheResponseClass :=
  if v =? 0 then Ok C_NoError else if v =? 1 then Ok C_NoData else if v =? 2 then Ok C_NxDomain
  else if v =? 3 then Ok C_ServFail else if v =? 4 then Ok C_Truncated else Err Corrupt.

Definition response_class_from_response (c : ResponseClass) : CacheResponseClass :=
  match c with
  | RPositive => C_NoError
  | RNoData => C_NoData
  | RNxDomain => C_NxDomain
  | RServFail => C_ServFail
  | RTruncated => C_Truncated
  | RRefused | ROther _ => C_ServFail
  end.

(** ** Namespaces and upstream identifiers *)

Definition codec_encode_namespace (ns : CacheNamespace) : result CodecError (list byte) :=
  match ns with
  | NsGlobal => Ok [x00]
  | NsStrategy s =>
    b ← put_bytes (str_bytes (strategy_id_str s)) MAX_COMPONENT_BYTES; Ok ([x01] ++ b)
  | NsClientStrategy d s =>
    b ← put_bytes (str_bytes (strategy_id_str s)) MAX_COMPONENT_BYTES;
    Ok ([x02] ++ digest_bytes d ++ b)
  end.

(** [std::str::from_utf8]. *)
Definition read_str (maximum : Z) : Reader string :=
  b ← read_bytes maximum;
  lift (_ ← ok_or Corrupt (utf8_decode b); Ok (String.string_of_list_byte b)).

Definition decode_namespace : Reader CacheNamespace :=
  tag ← read_byte;
  if tag =? 0 then mret NsGlobal
  else if tag =? 1 then
    s ← read_str MAX_COMPONENT_BYTES;
    lift (NsStrategy <$> map_err (fun _ => Corrupt) (CacheStrategyId_from_validated_config_id s))
  else if tag =? 2 then
    d ← read_take 32;
    s ← read_str MAX_COMPONENT_BYTES;
    lift (NsClientStrategy (mk_digest d) <$>
            map_err (fun _ => Corrupt) (CacheStrategyId_from_validated_config_id s))
  else fail Corrupt.

Definition decode_upstream_id : Reader CacheUpstreamId :=
  s ← read_str MAX_UPSTREAM_ID_BYTES;
  lift (map_err (fun _ => Corrupt) (CacheUpstreamId_from_validated_config_id s)).

Definition encode_storage_key (key : CacheKey) : result CodecError (list byte) :=
  ns ← codec_encode_namespace (key_namespace key);
  enc ← put_bytes (key_encoded key) MAX_COMPONENT_BYTES;
  Ok (ns ++ put_u16 (key_format_version key) ++ enc).

(** ** Records *)

Section Record.
Context {HH : Hickory}.

(** Bytes of an optional value after its presence byte. *)
Definition put_option (o : option (list byte)) : list byte :=
  match o with Some b => [x01] ++ b | None => [x00] end.

(** [w1] and [w2] are the wall clock at the two conversions. *)
Definition encode_record (key : CacheKey) (r : CacheRecord) (now : Instant) (w1 w2 : Z) :
    result CodecError (list byte) :=
  let e := entry r in
  wire ← ok_or Corrupt (to_vec (resp_message (response e)));
  if MAX_DNS_WIRE_BYTES <? bytes_len wire mod 2 ^ 32 then Err CodecResourceExhausted
  else
    ns ← codec_encode_namespace (key_namespace key);
    enc ← put_bytes (key_encoded key) MAX_COMPONENT_BYTES;
    target ← put_bytes (str_bytes (upstream_id_str (target_id (upstream e)))) MAX_UPSTREAM_ID_BYTES;
    used ← match used_id (upstream e) with
           | Some u => Some <$> put_bytes (str_bytes (upstream_id_str u)) MAX_UPSTREAM_ID_BYTES
           | None => Ok None
           end;
    body ← put_bytes wire MAX_DNS_WIRE_BYTES;
    Ok (ns ++ put_u16 (key_format_version key) ++ enc ++ put_u64 (version r) ++
        put_u16 (format_version e) ++ put_u64 (producer_revision e) ++
        [byte_of_Z (encode_quality (quality e))] ++
        [byte_of_Z (encode_response_class (response_class e))] ++
        put_u64 (checksum e) ++
        put_u64 (duration_nanos (duration_since now (inserted_at e))) ++
        put_u64 (unix_nanos_for_instant (expires_at e) now w1) ++
        put_option (match stale_until e with
                    | Some until => if now <? until
                                    then Some (put_u64 (unix_nanos_for_instant until now w2))
                                    else None
                    | None => None
                    end) ++
        target ++ put_option used ++ body).

(** The query a stored response answers, rebuilt from its own question. *)
Definition query_of_response (m : Message) : Message :=
  let base := message_new 0 MT_Query OP_Query in
  let md := metadata base in
  {| metadata := {| md_id := md_id md; md_message_type := md_message_type md;
       md_op_code := md_op_code md; md_authoritative := md_authoritative md;
       md_truncation := md_truncation md;
       md_recursion_desired := md_recursion_desired (metadata m);
       md_recursion_available := md_recursion_available md;
       md_authentic_data := md_authentic_data (metadata m);
       md_checking_disabled := md_checking_disabled (metadata m);
       md_response_code := md_response_code md |};
     queries := queries m; answers := answers base; authorities := authorities base;
     additionals := additionals base; edns := edns m |}.

(** The checks on the stored message: canonical, of the stated class, with the
    stated checksum. *)
Definition decode_response (wire : list byte) (class : CacheResponseClass) (sum : Z) :
    result CodecError CanonicalResponse :=
  m ← ok_or Corrupt (from_vec wire);
  if negb (bool_decide (md_message_type (metadata m) = MT_Response)) ||
     negb (md_id (metadata m) =? 0) then Err Corrupt
  else
    q ← map_err (fun _ => Corrupt) (CanonicalQuery_from_message (query_of_response m));
    r ← map_err (fun _ => Corrupt) (CanonicalResponse_from_message m q 0);
    actual ← map_err (fun _ => Corrupt) (canonical_checksum r);
    if negb (bool_decide (class = response_class_from_response (resp_class r))) ||
       negb (sum =? actual) then Err Corrupt
    else Ok r.

Definition read_option {A} (read : Reader A) : Reader (option A) :=
  tag ← read_byte;
  if tag =? 0 then mret None
  else if tag =? 1 then a ← read; mret (Some a)
  else fail Corrupt.

(** [w1] and [w2] are the wall clock when the stale and the expiry instants are
    converted. *)
Definition decode_record (now : Instant) (w1 w2 : Z) : Reader (CacheKey * CacheRecord) :=
  ns ← decode_namespace;
  key_format ← read_u16;
  if negb (key_format =? CACHE_KEY_FORMAT_VERSION) then fail Incompatible
  else
  enc ← read_bytes MAX_COMPONENT_BYTES;
  ver ← read_u64;
  entry_format ← read_u16;
  if negb (entry_format =? CACHE_ENTRY_FORMAT_VERSION) then fail Incompatible
  else
  revision ← read_u64;
  q ← (v ← read_byte; lift (decode_quality v));
  class ← (v ← read_byte; lift (decode_response_class v));
  sum ← read_u64;
  age ← read_u64;
  expires_nanos ← read_u64;
  stale ← read_option (v ← read_u64; lift (ok_or Corrupt (instant_from_unix_nanos v now w1)));
  target ← decode_upstream_id;
  used ← read_option decode_upstream_id;
  wire ← read_bytes MAX_DNS_WIRE_BYTES;
  empty ← reader_is_empty;
  if negb empty then fail Corrupt
  else
  resp ← lift (decode_response wire class sum);
  inserted ← lift (ok_or Corrupt (instant_checked_sub now age));
  expires ← lift (ok_or Corrupt (instant_from_unix_nanos expires_nanos now w2));
  mret (mk_key ns enc key_format,
    mk_record ver (mk_entry resp (mk_provenance target used) inserted expires stale class
      revision q sum entry_format)).

End Record.

(** ** Parsing what was written *)

(** [p] reads [a] off the bytes [b], whatever follows. *)
Definition parses {A} (p : Reader A) (b : list byte) (a : A) : Prop :=
  forall rest, p (b ++ rest) = Ok (a, rest).

Lemma parses_run {A B} (p : Reader A) (f : A -> Reader B) b a rest :
  parses p b a -> (p ≫= f) (b ++ rest) = f a rest.
Proof. intros H. unfold mbind, reader_bind. by rewrite H. Qed.

Lemma parses_bind {A B} (p : Reader A) (f : A -> Reader B) b1 b2 a c :
  parses p b1 a -> parses (f a) b2 c -> parses (p ≫= f) (b1 ++ b2) c.
Proof. intros H1 H2 rest. rewrite <-app_assoc, (parses_run p f b1 a) by done. apply H2. Qed.

Lemma parses_bind_ret {A B} (p : Reader A) (g : A -> B) b a :
  parses p b a -> parses (x ← p; mret (g x)) b (g a).
Proof.
  intros H. rewrite <-(app_nil_r b). apply (parses_bind p (fun x => mret (g x)) b [] a); [done|].
  by intros rest.
Qed.

Lemma parses_lift {A} (r : result CodecError A) a : r = Ok a -> parses (lift r) [] a.
Proof. by intros -> rest. Qed.

Lemma parses_bind_lift {A B} (p : Reader A) (g : A -> result CodecError B) b a c :
  parses p b a -> g a = Ok c -> parses (x ← p; lift (g x)) b c.
Proof.
  intros H1 H2. rewrite <-(app_nil_r b). apply (parses_bind p (fun x => lift (g x)) b [] a); [done|].
  by apply parses_lift.
Qed.

Lemma parses_take n b : length b = n -> parses (read_take n) b b.
Proof.
  intros <- rest. unfold read_take. rewrite length_app.
  rewrite (proj2 (Nat.leb_le _ _)) by lia. by rewrite take_app_length, drop_app_length.
Qed.

Lemma parses_int n v :
  0 <= v < 256 ^ Z.of_nat n -> parses (b ← read_take n; mret (from_be b)) (be_bytes n v) v.
Proof.
  intros Hv. rewrite <-(from_be_be_bytes_small n v Hv) at 2.
  apply parses_bind_ret, parses_take, length_be_bytes.
Qed.

Lemma parses_u16 v : u16 v -> parses read_u16 (put_u16 v) v.
Proof. intros H. apply (parses_int 2). unfold_ints. change (256 ^ Z.of_nat 2) with (2 ^ 16). lia. Qed.
Lemma parses_u32 v : u32 v -> parses read_u32 (put_u32 v) v.
Proof. intros H. apply (parses_int 4). unfold_ints. change (256 ^ Z.of_nat 4) with (2 ^ 32). lia. Qed.
Lemma parses_u64 v : u64 v -> parses read_u64 (put_u64 v) v.
Proof. intros H. apply (parses_int 8). unfold_ints. change (256 ^ Z.of_nat 8) with (2 ^ 64). lia. Qed.

Lemma parses_byte v : 0 <= v < 256 -> parses read_byte [byte_of_Z v] v.
Proof.
  intros H. pose proof (parses_int 1 v H) as Hp. cbn [be_bytes] in Hp.
  change (256 ^ Z.of_nat 0) with 1 in Hp. by rewrite Z.div_1_r in Hp.
Qed.

Lemma put_bytes_ok v max b :
  put_bytes v max = Ok b -> b = put_u32 (bytes_len v) ++ v /\ bytes_len v <= max /\ u32 (bytes_len v).
Proof.
  unfold put_bytes. destruct (Z.ltb_spec u32_max (bytes_len v)); [done|].
  destruct (Z.ltb_spec max (bytes_len v)); [done|]. intros [= <-]. split; [done|]. split; [done|].
  unfold u32, bytes_len in *. lia.
Qed.

Lemma put_bytes_fits v max :
  bytes_len v <= max -> max <= u32_max -> exists b, put_bytes v max = Ok b.
Proof.
  intros H1 H2. unfold put_bytes. rewrite !(proj2 (Z.ltb_ge _ _)) by lia. by eexists.
Qed.

Lemma parses_bytes v max b : put_bytes v max = Ok b -> parses (read_bytes max) b v.
Proof.
  intros (-> & Hm & Hu)%put_bytes_ok. apply (parses_bind read_u32 _ _ _ (bytes_len v)); [by apply parses_u32|].
  rewrite (proj2 (Z.ltb_ge _ _)) by done. apply parses_take. unfold bytes_len. lia.
Qed.

Lemma parses_option {A} (p : Reader A) (o : option (list byte)) a :
  match o, a with
  | Some b, Some x => parses p b x
  | None, None => True
  | _, _ => False
  end -> parses (read_option p) (put_option o) a.
Proof.
  intros H. unfold read_option, put_option. destruct o as [b|], a as [x|]; try done.
  apply (parses_bind read_byte _ [x01] b 1); [by apply (parses_byte 1)|]. cbn.
  by apply (parses_bind_ret p Some).
Qed.

(** ** Identifiers *)

Lemma utf8_decode_ascii l :
  Forall (fun b => byte_to_Z b < 128) l -> utf8_decode l = Some (map byte_to_Z l).
Proof.
  induction 1 as [|b l Hb _ IH]; [done|]. cbn [utf8_decode map].
  rewrite (proj2 (Z.ltb_lt _ _)) by lia. by rewrite IH.
Qed.

Lemma is_ascii_alphanumeric_lt b : is_ascii_alphanumeric b || is_id_punct b = true -> byte_to_Z b < 128.
Proof. unfold is_ascii_alphanumeric, is_id_punct. lia. Qed.

Lemma parses_str s max b :
  Forall (fun b => byte_to_Z b < 128) (str_bytes s) -> put_bytes (str_bytes s) max = Ok b ->
  parses (read_str max) b s.
Proof.
  intros Ha Hb. apply (parses_bind_lift (read_bytes max)
    (fun b => _ ← ok_or Corrupt (utf8_decode b); Ok (String.string_of_list_byte b)) _ (str_bytes s));
    [by apply parses_bytes|].
  rewrite utf8_decode_ascii by done. cbn. f_equal. apply String.string_of_list_byte_of_string.
Qed.

Lemma strategy_id_ascii s :
  valid_strategy_id s -> Forall (fun b => byte_to_Z b < 128) (str_bytes (strategy_id_str s)) /\
  CacheStrategyId_from_validated_config_id (strategy_id_str s) = Ok s /\
  bytes_len (str_bytes (strategy_id_str s)) <= 64.
Proof.
  intros Hv. pose proof (valid_strategy_id_len s Hv) as Hl. unfold valid_strategy_id in Hv.
  unfold CacheStrategyId_from_validated_config_id. rewrite Hv. split_and!.
  - unfold validate_namespace_id in Hv. destruct (_ =? 0); [done|]. destruct (_ <? 1); [done|].
    destruct (_ <? _); [done|]. destruct (forallb _ _) eqn:Hf; [|done].
    rewrite forallb_forall in Hf. apply list.Forall_forall. intros b Hb.
    by apply is_ascii_alphanumeric_lt, Hf, list_elem_of_In.
  - cbn. by destruct s.
  - unfold bytes_len. rewrite length_str_bytes. unfold str_len in Hl. lia.
Qed.

Lemma upstream_id_ascii u :
  valid_upstream_id u -> Forall (fun b => byte_to_Z b < 128) (str_bytes (upstream_id_str u)) /\
  bytes_len (str_bytes (upstream_id_str u)) <= 128.
Proof.
  intros Hv. pose proof (valid_upstream_id_len u Hv) as Hl.
  unfold valid_upstream_id, CacheUpstreamId_from_validated_config_id in Hv.
  destruct (_ || _); [done|]. destruct (forallb _ _) eqn:Hf; [|done]. split.
  - rewrite forallb_forall in Hf. apply list.Forall_forall. intros b Hb%list_elem_of_In.
    apply Hf in Hb. unfold is_upstream_id_byte in Hb. apply orb_true_iff in Hb as [Hb|Hb]; [|lia].
    by apply is_ascii_alphanumeric_lt.
  - unfold bytes_len. rewrite length_str_bytes. unfold str_len in Hl. lia.
Qed.

Lemma parses_upstream_id u b :
  valid_upstream_id u -> put_bytes (str_bytes (upstream_id_str u)) MAX_UPSTREAM_ID_BYTES = Ok b ->
  parses decode_upstream_id b u.
Proof.
  intros Hv Hb. apply (parses_bind_lift (read_str MAX_UPSTREAM_ID_BYTES)
    (fun s => map_err (fun _ => Corrupt) (CacheUpstreamId_from_validated_config_id s)) _ (upstream_id_str u)).
  - apply parses_str; [by apply upstream_id_ascii|done].
  - by rewrite Hv.
Qed.

Lemma parses_namespace ns b :
  valid_namespace ns -> codec_encode_namespace ns = Ok b -> parses decode_namespace b ns.
Proof.
  intros Hv Hb. destruct ns as [|s|d s]; cbn [codec_encode_namespace] in Hb.
  - injection Hb as <-. rewrite <-(app_nil_r [x00]).
    apply (parses_bind read_byte _ [x00] [] 0); [by apply (parses_byte 0)|]. by intros rest.
  - destruct (strategy_id_ascii s Hv) as (Ha & Hid & _). inv_ok. subst b.
    apply (parses_bind read_byte _ [x01] _ 1); [by apply (parses_byte 1)|]. cbn.
    apply (parses_bind_lift (read_str MAX_COMPONENT_BYTES)
      (fun s => NsStrategy <$> map_err (fun _ => Corrupt) (CacheStrategyId_from_validated_config_id s))
      _ (strategy_id_str s)); [by apply parses_str|]. by rewrite Hid.
  - destruct Hv as [Hd Hs]. destruct (strategy_id_ascii s Hs) as (Ha & Hid & _). inv_ok. subst b.
    apply (parses_bind read_byte _ [x02] _ 2); [by apply (parses_byte 2)|]. cbn.
    apply (parses_bind (read_take 32) _ (digest_bytes d) _ (digest_bytes d)); [by apply parses_take|].
    apply (parses_bind_lift (read_str MAX_COMPONENT_BYTES)
      (fun s => NsClientStrategy (mk_digest (digest_bytes d)) <$>
         map_err (fun _ => Corrupt) (CacheStrategyId_from_validated_config_id s))
      _ (strategy_id_str s)); [by apply parses_str|]. rewrite Hid. cbn. by destruct d.
Qed.

(** ** Round trip *)

Section RoundTrip.
Context {HH : Hickory} {HL : HickoryLaws HH}.

Lemma message_eta_id (m : Message) qs :
  md_id (metadata m) = 0 -> queries m = qs ->
  with_queries (with_metadata m (md_with_id (metadata m) 0)) qs = m.
Proof.
  intros Hid Hq. destruct m as [md mq ma mau mad me]. cbn in *. subst qs.
  unfold with_queries, with_metadata, md_with_id. cbn. f_equal. destruct md. cbn in *. by subst.
Qed.

Lemma decode_response_self r wire sum :
  wf_response r -> from_vec wire = Some (resp_message r) -> canonical_checksum r = Ok sum ->
  decode_response wire (response_class_from_response (resp_class r)) sum = Ok r.
Proof.
  intros (Hacc & Hid & (q0 & Hq & Hcan) & Hc & Ht) Hw Hs. unfold decode_response. rewrite Hw.
  cbn [ok_or mbind result_bind]. pose proof Hacc as (Hmt & Hop & Hlen & He).
  rewrite Hmt, Hid, bool_decide_true by done. cbn [negb orb Z.eqb].
  unfold CanonicalQuery_from_message.
  rewrite (proj2 (validate_common_ok (query_of_response (resp_message r)) MT_Query)) by done.
  cbn [mbind result_bind query_of_response queries]. rewrite Hq. cbn [map_err mbind result_bind].
  rewrite from_to_query by done. unfold CanonicalResponse_from_message.
  rewrite (proj2 (validate_common_ok _ _) Hacc). cbn [mbind result_bind]. rewrite Hid, Hq.
  cbn [Z.eqb negb]. rewrite from_to_query by done. cbn [query_question].
  rewrite question_eqb_refl. cbn [negb]. rewrite message_eta_id by done. rewrite <-Hc, <-Ht.
  assert (Hr : {| resp_message := resp_message r; resp_class := resp_class r; resp_ttl := resp_ttl r |} = r)
    by (by destruct r).
  rewrite Hr. cbn [map_err mbind result_bind]. rewrite Hs. cbn [map_err mbind result_bind].
  rewrite bool_decide_true, Z.eqb_refl by done. done.
Qed.

(** The records the store hands to the codec: valid identifiers, machine-width
    numbers and an entry that agrees with its response. *)
Record encodable (key : CacheKey) (r : CacheRecord) (wire : list byte) : Prop := {
  en_ns : valid_namespace (key_namespace key);
  en_key : bytes_len (key_encoded key) <= MAX_COMPONENT_BYTES;
  en_key_format : key_format_version key = CACHE_KEY_FORMAT_VERSION;
  en_version : u64 (version r);
  en_revision : u64 (producer_revision (entry r));
  en_format : format_version (entry r) = CACHE_ENTRY_FORMAT_VERSION;
  en_checksum : canonical_checksum (response (entry r)) = Ok (checksum (entry r));
  en_class : response_class (entry r) =
    response_class_from_response (resp_class (response (entry r)));
  en_response : wf_response (response (entry r));
  en_target : valid_upstream_id (target_id (upstream (entry r)));
  en_used : forall u, used_id (upstream (entry r)) = Some u -> valid_upstream_id u;
  en_wire : to_vec (resp_message (response (entry r))) = Some wire;
  en_from_vec : from_vec wire = Some (resp_message (response (entry r)));
  en_size : bytes_len wire <= MAX_DNS_WIRE_BYTES
}.

(** An instant written at [now] with wall clock [w] and read at [now'] with [w']. *)
Definition restored (at_ now : Instant) (w : Z) (now' : Instant) (w' : Z) : Instant :=
  now' + Z.max 0 (unix_nanos_for_instant at_ now w - w').

(** The entry read back. *)
Definition restored_entry (e : CacheEntry) (now : Instant) (w1 w2 : Z) (now' : Instant)
    (w1' w2' : Z) : CacheEntry :=
  mk_entry (response e) (upstream e)
    (now' - duration_nanos (duration_since now (inserted_at e)))
    (restored (expires_at e) now w1 now' w2')
    (match stale_until e with
     | Some s => if now <? s then Some (restored s now w2 now' w1') else None
     | None => None
     end)
    (response_class e) (producer_revision e) (quality e) (checksum e) (format_version e).

Lemma unix_nanos_range at_ now w : u64 w -> u64 (unix_nanos_for_instant at_ now w).
Proof.
  unfold unix_nanos_for_instant, duration_nanos, duration_since. unfold_ints. lia.
Qed.

Lemma instant_from_unix_restored at_ now w now' w' :
  u64 w -> u64 w' -> now' <= instant_max - u64_max ->
  instant_from_unix_nanos (unix_nanos_for_instant at_ now w) now' w' = Some (restored at_ now w now' w').
Proof.
  intros Hw Hw' Hn. pose proof (unix_nanos_range at_ now w Hw). unfold instant_from_unix_nanos, restored.
  destruct (Z.leb_spec (unix_nanos_for_instant at_ now w) w').
  - f_equal. lia.
  - unfold instant_checked_add. rewrite (proj2 (Z.leb_le _ _)) by (unfold u64 in *; lia). f_equal. lia.
Qed.

Lemma encode_record_ok key r wire now w1 w2 :
  encodable key r wire ->
  exists ns enc target used body,
    codec_encode_namespace (key_namespace key) = Ok ns /\
    put_bytes (key_encoded key) MAX_COMPONENT_BYTES = Ok enc /\
    put_bytes (str_bytes (upstream_id_str (target_id (upstream (entry r))))) MAX_UPSTREAM_ID_BYTES = Ok target /\
    parses (read_option decode_upstream_id) (put_option used) (used_id (upstream (entry r))) /\
    put_bytes wire MAX_DNS_WIRE_BYTES = Ok body /\
    encode_record key r now w1 w2 =
      Ok (ns ++ put_u16 (key_format_version key) ++ enc ++ put_u64 (version r) ++
        put_u16 (format_version (entry r)) ++ put_u64 (producer_revision (entry r)) ++
        [byte_of_Z (encode_quality (quality (entry r)))] ++
        [byte_of_Z (encode_response_class (response_class (entry r)))] ++
        put_u64 (checksum (entry r)) ++
        put_u64 (duration_nanos (duration_since now (inserted_at (entry r)))) ++
        put_u64 (unix_nanos_for_instant (expires_at (entry r)) now w1) ++
        put_option (match stale_until (entry r) with
                    | Some until => if now <? until
                                    then Some (put_u64 (unix_nanos_for_instant until now w2))
                                    else None
                    | None => None
                    end) ++
        target ++ put_option used ++ body).
Proof.
  intros []. unfold encode_record. rewrite en_wire0. cbn [ok_or mbind result_bind].
  unfold MAX_DNS_WIRE_BYTES, MAX_COMPONENT_BYTES, MAX_UPSTREAM_ID_BYTES in *.
  assert (Hwl : 0 <= bytes_len wire) by (unfold bytes_len; lia).
  rewrite Z.mod_small, (proj2 (Z.ltb_ge _ _)) by lia.
  assert (Hns : exists ns, codec_encode_namespace (key_namespace key) = Ok ns).
  { destruct (key_namespace key) as [|s|d s]; cbn [codec_encode_namespace]; [by eexists|..].
    - destruct (strategy_id_ascii s en_ns0) as (_ & _ & Hl).
      destruct (put_bytes_fits (str_bytes (strategy_id_str s)) (64 * 1024)) as [b Hb]; [lia|unfold_ints; lia|].
      unfold MAX_COMPONENT_BYTES. rewrite Hb. by eexists.
    - destruct (strategy_id_ascii s (proj2 en_ns0)) as (_ & _ & Hl).
      destruct (put_bytes_fits (str_bytes (strategy_id_str s)) (64 * 1024)) as [b Hb]; [lia|unfold_ints; lia|].
      unfold MAX_COMPONENT_BYTES. rewrite Hb. by eexists. }
  destruct Hns as [ns Hns]. rewrite Hns. cbn [mbind result_bind].
  destruct (put_bytes_fits (key_encoded key) (64 * 1024)) as [enc Henc]; [done|unfold_ints; lia|].
  rewrite Henc. cbn [mbind result_bind].
  destruct (put_bytes_fits (str_bytes (upstream_id_str (target_id (upstream (entry r))))) 128)
    as [target Ht]; [by apply upstream_id_ascii|unfold_ints; lia|].
  rewrite Ht. cbn [mbind result_bind].
  assert (Hu : exists used, match used_id (upstream (entry r)) with
      | Some u => Some <$> put_bytes (str_bytes (upstream_id_str u)) 128
      | None => Ok None end = Ok used /\
    parses (read_option decode_upstream_id) (put_option used) (used_id (upstream (entry r)))).
  { destruct (used_id (upstream (entry r))) as [u|].
    - specialize (en_used0 u eq_refl).
      destruct (put_bytes_fits (str_bytes (upstream_id_str u)) 128) as [b Hb];
        [by apply upstream_id_ascii|unfold_ints; lia|].
      rewrite Hb. exists (Some b). split; [done|]. apply parses_option. by apply parses_upstream_id.
    - exists None. split; [done|]. by apply parses_option. }
  destruct Hu as (used & Hu & Hpu). rewrite Hu. cbn [mbind result_bind].
  destruct (put_bytes_fits wire 65535) as [body Hbody]; [done|unfold_ints; lia|].
  rewrite Hbody. cbn [mbind result_bind]. by exists ns, enc, target, used, body.
Qed.

Lemma decode_quality_encode q : decode_quality (encode_quality q) = Ok q.
Proof. by destruct q. Qed.
Lemma decode_class_encode c : decode_response_class (encode_response_class c) = Ok c.
Proof. by destruct c. Qed.

Lemma decode_encoded key r wire bytes now w1 w2 now' w1' w2' :
  encodable key r wire ->
  u64 w1 -> u64 w2 -> u64 w1' -> u64 w2' ->
  instant_min + u64_max <= now' <= instant_max - u64_max ->
  encode_record key r now w1 w2 = Ok bytes ->
  decode_record now' w1' w2' bytes =
    Ok ((key, mk_record (version r) (restored_entry (entry r) now w1 w2 now' w1' w2')), []).
Proof.
  intros Hen Hw1 Hw2 Hw1' Hw2' Hnow Hbytes.
  destruct (encode_record_ok key r wire now w1 w2 Hen)
    as (ns & enc & target & used & body & Hns & Henc & Htg & Hus & Hbody & Hall).
  rewrite Hall in Hbytes. apply Ok_inj in Hbytes as <-. clear Hall. destruct Hen.
  unfold decode_record.
  cbv beta; rewrite (parses_run decode_namespace _ ns (key_namespace key)) by (by apply parses_namespace).
  rewrite en_key_format0.
  cbv beta; rewrite (parses_run read_u16 _ (put_u16 CACHE_KEY_FORMAT_VERSION) CACHE_KEY_FORMAT_VERSION) by (by apply parses_u16; vm_compute).
  cbv beta. rewrite Z.eqb_refl. cbn [negb].
  cbv beta; rewrite (parses_run (read_bytes _) _ enc (key_encoded key)) by (by apply parses_bytes).
  cbv beta; rewrite (parses_run read_u64 _ (put_u64 (version r)) (version r)) by (by apply parses_u64).
  rewrite en_format0.
  cbv beta; rewrite (parses_run read_u16 _ (put_u16 CACHE_ENTRY_FORMAT_VERSION) CACHE_ENTRY_FORMAT_VERSION) by (by apply parses_u16; vm_compute).
  cbv beta. rewrite Z.eqb_refl. cbn [negb].
  cbv beta; rewrite (parses_run read_u64 _ (put_u64 (producer_revision (entry r))) (producer_revision (entry r))) by (by apply parses_u64).
  cbv beta; rewrite (parses_run (v ← read_byte; lift (decode_quality v)) _ _ (quality (entry r))).
  2: { apply (parses_bind_lift read_byte decode_quality _ (encode_quality (quality (entry r)))).
       - apply parses_byte. by destruct (quality (entry r)).
       - apply decode_quality_encode. }
  cbv beta; rewrite (parses_run (v ← read_byte; lift (decode_response_class v)) _ _ (response_class (entry r))).
  2: { apply (parses_bind_lift read_byte decode_response_class _
         (encode_response_class (response_class (entry r)))).
       - apply parses_byte. by destruct (response_class (entry r)).
       - apply decode_class_encode. }
  assert (Hsum : u64 (checksum (entry r))).
  { unfold canonical_checksum in en_checksum0. rewrite en_wire0 in en_checksum0. cbn in en_checksum0.
    injection en_checksum0 as <-. apply fnv1a_u64. }
  cbv beta; rewrite (parses_run read_u64 _ (put_u64 (checksum (entry r))) (checksum (entry r))) by (by apply parses_u64).
  set (age := duration_nanos (duration_since now (inserted_at (entry r)))).
  assert (Hage : u64 age).
  { subst age. unfold duration_nanos, duration_since. unfold_ints. lia. }
  cbv beta; rewrite (parses_run read_u64 _ (put_u64 age) age) by (by apply parses_u64).
  cbv beta; rewrite (parses_run read_u64 _ _ (unix_nanos_for_instant (expires_at (entry r)) now w1))
    by (by apply parses_u64, unix_nanos_range).
  cbv beta; rewrite (parses_run (read_option _) _ _ (stale_until (restored_entry (entry r) now w1 w2 now' w1' w2'))).
  2: { apply parses_option. cbn [stale_until restored_entry].
       destruct (stale_until (entry r)) as [s|]; [|done]. destruct (now <? s); [|done].
       apply (parses_bind_lift read_u64
         (fun v => ok_or Corrupt (instant_from_unix_nanos v now' w1')) _ (unix_nanos_for_instant s now w2)).
       - by apply parses_u64, unix_nanos_range.
       - rewrite instant_from_unix_restored by (done || lia). done. }
  cbv beta; rewrite (parses_run decode_upstream_id _ target (target_id (upstream (entry r))))
    by (by apply parses_upstream_id).
  cbv beta; rewrite (parses_run (read_option _) _ _ _ _ Hus).
  rewrite <-(app_nil_r body).
  cbv beta; rewrite (parses_run (read_bytes _) _ body wire) by (by apply parses_bytes).
  cbv beta. cbn [reader_is_empty mbind reader_bind bool_decide negb].
  rewrite en_class0.
  rewrite (decode_response_self (response (entry r)) wire _ en_response0 en_from_vec0 en_checksum0).
  cbn [lift mbind reader_bind]. unfold instant_checked_sub.
  rewrite (proj2 (Z.leb_le _ _)) by (unfold u64 in *; lia). cbn [ok_or lift].
  rewrite instant_from_unix_restored by (done || lia). cbn [ok_or lift].
  unfold mret, reader_ret, restored_entry. rewrite en_class0, en_format0. cbn.
  destruct key as [kn ke kf]. cbn in *. subst kf.
  by destruct (upstream (entry r)).
Qed.


(** ** Inverting a successful decode *)

Lemma reader_bind_ok {A B} (p : Reader A) (f : A -> Reader B) b c rest :
  (p ≫= f) b = Ok (c, rest) <-> exists a b', p b = Ok (a, b') /\ f a b' = Ok (c, rest).
Proof.
  unfold mbind, reader_bind. destruct (p b) as [[a b']|]; split; try done; [eauto|by intros (? & ? & [= <- <-] & ?)|].
  by intros (? & ? & ? & _).
Qed.

Lemma lift_ok {A} (r : result CodecError A) b a b' : lift r b = Ok (a, b') <-> r = Ok a /\ b' = b.
Proof. unfold lift. destruct r; naive_solver. Qed.

Lemma decode_strategy_valid s id :
  map_err (fun _ => Corrupt) (CacheStrategyId_from_validated_config_id s) = Ok id -> valid_strategy_id id.
Proof.
  unfold CacheStrategyId_from_validated_config_id, valid_strategy_id.
  destruct (validate_namespace_id s 1 64) as [[]|] eqn:E; [|done]. cbn. by intros [= <-].
Qed.

Lemma decode_namespace_valid b ns rest : decode_namespace b = Ok (ns, rest) -> valid_namespace ns.
Proof.
  unfold decode_namespace. intros (tag & b1 & _ & H)%reader_bind_ok.
  destruct (tag =? 0); [by injection H as <- _|]. destruct (tag =? 1).
  - apply reader_bind_ok in H as (s & b2 & _ & [H _]%lift_ok).
    destruct (map_err _ _) eqn:E; [|done]. injection H as <-. by eapply decode_strategy_valid.
  - destruct (tag =? 2); [|done]. apply reader_bind_ok in H as (d & b2 & Hd & H).
    apply reader_bind_ok in H as (s & b3 & _ & [H _]%lift_ok).
    destruct (map_err _ _) eqn:E; [|done]. injection H as <-. split; [|by eapply decode_strategy_valid].
    unfold read_take in Hd. destruct (Nat.leb_spec 32 (length b1)); [|done]. injection Hd as <- _.
    unfold valid_digest. cbn. by rewrite length_take_le.
Qed.

Lemma decode_upstream_valid b u rest : decode_upstream_id b = Ok (u, rest) -> valid_upstream_id u.
Proof.
  unfold decode_upstream_id. intros (s & b1 & _ & [H _]%lift_ok)%reader_bind_ok.
  destruct (CacheUpstreamId_from_validated_config_id s) as [u'|] eqn:E; [|done]. injection H as <-.
  unfold valid_upstream_id. unfold CacheUpstreamId_from_validated_config_id in *.
  destruct (_ || _) eqn:E1; [done|]. destruct (negb _) eqn:E2; [done|]. injection E as <-.
  cbn [upstream_id_str]. by rewrite E1, E2.
Qed.

Lemma decode_option_upstream b o rest :
  read_option decode_upstream_id b = Ok (o, rest) -> forall u, o = Some u -> valid_upstream_id u.
Proof.
  unfold read_option. intros (tag & b1 & _ & H)%reader_bind_ok.
  destruct (tag =? 0); [by injection H as <- _|]. destruct (tag =? 1); [|done].
  apply reader_bind_ok in H as (u & b2 & Hu & H). injection H as <- _. intros u' [= <-].
  by eapply decode_upstream_valid.
Qed.

Lemma decode_response_ok wire class sum r :
  decode_response wire class sum = Ok r ->
  wf_response r /\ class = response_class_from_response (resp_class r) /\ canonical_checksum r = Ok sum.
Proof.
  unfold decode_response. intros (m & _ & H)%bind_ok. destruct (_ || _); [done|].
  apply bind_ok in H as (q & Hq & H). apply bind_ok in H as (r' & Hr & H).
  apply bind_ok in H as (actual & Ha & H).
  destruct (CanonicalResponse_from_message m q 0) as [r0|] eqn:E; [|done]. injection Hr as ->.
  apply response_from_message_inv in E as (_ & Hwf & _).
  destruct (canonical_checksum r') as [a|] eqn:Ec; [|done]. injection Ha as ->.
  destruct (bool_decide_reflect (class = response_class_from_response (resp_class r'))); [|done].
  destruct (Z.eqb_spec sum actual); [|done]. cbn in H. injection H as <-. by subst.
Qed.

Lemma restored_not_before v now w t :
  instant_from_unix_nanos v now w = Some t -> now <= t.
Proof.
  unfold instant_from_unix_nanos, instant_checked_add. destruct (Z.leb_spec v w); [by intros [= <-]|].
  destruct (_ <=? _); [|done]. intros [= <-]. lia.
Qed.

(** ** Properties *)

(** A record written to a snapshot and read back, possibly by another process
    later, has the same key, version, answer, upstream, class, quality, checksum
    and revision; its remaining lifetime is the one it had minus the wall time
    that passed, so a restart never extends it. *)
Theorem record_roundtrip key r wire now w now' w' :
  encodable key r wire -> u64 w -> u64 w' ->
  instant_min + u64_max <= now' <= instant_max - u64_max ->
  exists bytes r', encode_record key r now w w = Ok bytes /\
    decode_record now' w' w' bytes = Ok ((key, r'), []) /\
    version r' = version r /\ response (entry r') = response (entry r) /\
    upstream (entry r') = upstream (entry r) /\
    response_class (entry r') = response_class (entry r) /\
    quality (entry r') = quality (entry r) /\ checksum (entry r') = checksum (entry r) /\
    producer_revision (entry r') = producer_revision (entry r) /\
    (w <= w' -> expires_at (entry r') - now' <= Z.max 0 (expires_at (entry r) - now)) /\
    (w <= w' <= w + (expires_at (entry r) - now) -> w + (expires_at (entry r) - now) <= u64_max ->
       expires_at (entry r') - now' = expires_at (entry r) - now - (w' - w)).
Proof.
  intros Hen Hw Hw' Hnow.
  destruct (encode_record_ok key r wire now w w Hen) as (? & ? & ? & ? & ? & _ & _ & _ & _ & _ & Henc).
  match type of Henc with _ = Ok ?b => exists b end. eexists. split; [exact Henc|].
  split; [by apply (decode_encoded key r wire _ now w w now' w' w')|]. cbn.
  split_and!; try done.
  - unfold restored, unix_nanos_for_instant, duration_nanos, duration_since. unfold_ints. lia.
  - unfold restored, unix_nanos_for_instant, duration_nanos, duration_since. unfold_ints. lia.
Qed.

(** Whatever bytes a snapshot contains, a record the decoder accepts is
    complete and consistent: supported formats, valid namespace and upstream
    identifiers, a canonical response with the stored class and checksum, not
    inserted in the future, and nothing left over. *)
Theorem decode_record_sound now w1 w2 bytes key r rest :
  decode_record now w1 w2 bytes = Ok ((key, r), rest) ->
  rest = [] /\ key_format_version key = CACHE_KEY_FORMAT_VERSION /\
  format_version (entry r) = CACHE_ENTRY_FORMAT_VERSION /\
  valid_namespace (key_namespace key) /\
  valid_upstream_id (target_id (upstream (entry r))) /\
  (forall u, used_id (upstream (entry r)) = Some u -> valid_upstream_id u) /\
  wf_response (response (entry r)) /\
  canonical_checksum (response (entry r)) = Ok (checksum (entry r)) /\
  response_class (entry r) = response_class_from_response (resp_class (response (entry r))) /\
  now <= expires_at (entry r).
Proof.
  unfold decode_record. intros H.
  apply reader_bind_ok in H as (ns & b1 & Hns & H). apply decode_namespace_valid in Hns.
  apply reader_bind_ok in H as (kf & b2 & _ & H). destruct (Z.eqb_spec kf CACHE_KEY_FORMAT_VERSION); [|done].
  cbn [negb] in H. do 2 (apply reader_bind_ok in H as (? & ? & _ & H)).
  apply reader_bind_ok in H as (ef & b5 & _ & H). destruct (Z.eqb_spec ef CACHE_ENTRY_FORMAT_VERSION); [|done].
  cbn [negb] in H. do 7 (apply reader_bind_ok in H as (? & ? & _ & H)).
  apply reader_bind_ok in H as (target & ? & Ht & H). apply decode_upstream_valid in Ht.
  apply reader_bind_ok in H as (used & ? & Hu & H). pose proof (decode_option_upstream _ _ _ Hu) as Hused.
  apply reader_bind_ok in H as (wire & bw & _ & H).
  apply reader_bind_ok in H as (empty & be & He & H). injection He as <- <-.
  case_bool_decide as Hemp; [|done]. cbn [negb] in H.
  apply reader_bind_ok in H as (resp & ? & [Hr ->]%lift_ok & H). apply decode_response_ok in Hr as (Hwf & Hcl & Hck).
  apply reader_bind_ok in H as (ins & ? & [_ ->]%lift_ok & H).
  apply reader_bind_ok in H as (exp & ? & [Hexp ->]%lift_ok & H). apply ok_or_ok, restored_not_before in Hexp.
  injection H as <- <- <-. cbn. by split_and!.
Qed.

End RoundTrip.

(** ** Concrete runs *)

Section CodecWitness.
Import Sample.

Definition codec_key : CacheKey := mk_key (NsStrategy (mk_strategy_id "home")) [x01; x02] 2.
Definition codec_record : CacheRecord := mk_record 7 sample_entry.
Definition codec_wire : list byte := wire (positive_msg 0 300).

Lemma codec_encodable : encodable codec_key codec_record codec_wire.
Proof.
  split; try reflexivity.
  - by vm_compute.
  - split; by vm_compute.
  - split; by vm_compute.
  - apply (response_from_message_inv (HH := hickory) (positive_msg 0 300) query 0). reflexivity.
  - by intros u [= <-].
  - by vm_compute.
Qed.

(** Written 10 s after insertion with 290 s left, read back 40 s later. *)
Lemma record_roundtrip_witness :
  exists bytes r', encode_record codec_key codec_record (sample_now + from_secs 10)
      (from_secs 5000) (from_secs 5000) = Ok bytes /\
    decode_record (from_secs 77) (from_secs 5040) (from_secs 5040) bytes = Ok ((codec_key, r'), []) /\
    version r' = 7.
Proof.
  destruct (record_roundtrip (HH := hickory) codec_key codec_record codec_wire
    (sample_now + from_secs 10) (from_secs 5000) (from_secs 77) (from_secs 5040) codec_encodable)
    as (bytes & r' & H1 & H2 & H3 & _).
  - split; by vm_compute.
  - split; by vm_compute.
  - split; by vm_compute.
  - exists bytes, r'. split; [exact H1|]. split; [exact H2|exact H3].
Defined.

Lemma codec_decodes :
  exists bytes r, decode_record (from_secs 77) (from_secs 5040) (from_secs 5040) bytes =
    Ok ((codec_key, r), []).
Proof.
  destruct (encode_record_ok (HH := hickory) codec_key codec_record codec_wire sample_now
    (from_secs 5000) (from_secs 5000) codec_encodable) as (? & ? & ? & ? & ? & _ & _ & _ & _ & _ & H).
  eexists _, _. eapply (decode_encoded (HH := hickory) codec_key codec_record codec_wire);
    [apply codec_encodable|..|exact H]; split; by vm_compute.
Qed.

Lemma decode_record_sound_witness :
  exists bytes key r, decode_record (from_secs 77) (from_secs 5040) (from_secs 5040) bytes =
    Ok ((key, r), []) /\ wf_response (CacheModel.response (entry r)).
Proof.
  destruct codec_decodes as (bytes & r & H). exists bytes, codec_key, r. split; [exact H|].
  apply (decode_record_sound (HH := hickory) _ _ _ bytes codec_key r [] H).
Defined.

End CodecWitness.
