(* ===== verification/DohRoute.v ===== *)
(** * DoH route templates (src/backend/src/config/doh_route.rs)

    Path templates with an optional [{client_id}] segment, their matching against
    request paths, and the overlap test by which the configuration check rejects
    ambiguous routes. Offsets are counted in characters; all of them are character
    boundaries. *)

From S2P Require Import Prelude Text.

Definition CLIENT_ID_MARKER : chars := lit "{client_id}".

Inductive DohPathPatternError := InvalidPath | InvalidPlaceholder.

Record DohPathPattern := mk_pattern {
  template : chars;
  placeholder : option (nat * nat)
}.

Inductive PathSegment := SegLiteral (s : chars) | SegClientId.

(** [str::find] of a substring. *)
Fixpoint find_sub (needle s : chars) : option nat :=
  if starts_with needle s then Some O
  else match s with
       | [] => None
       | _ :: s' => S <$> find_sub needle s'
       end.

(** [str::strip_suffix] and [ends_with]. *)
Definition strip_suffix (suf s : chars) : option chars :=
  reverse <$> strip_prefix (reverse suf) (reverse s).
Definition ends_with (suf s : chars) : bool := bool_decide (is_Some (strip_suffix suf s)).

Definition is_control (c : Z) : bool := (c <? 0x20) || (c =? 0x7f).

Definition pattern_new (t : chars) : result DohPathPatternError DohPathPattern :=
  if bool_decide (t = []) || negb (starts_with (lit "/") t) || bool_decide (63 ∈ t)
     || bool_decide (35 ∈ t) || existsb is_control t
  then Err InvalidPath
  else
    let first := find_sub CLIENT_ID_MARKER t in
    let len := length CLIENT_ID_MARKER in
    if match first with
       | Some i => contains_sub CLIENT_ID_MARKER (drop (i + len) t)
       | None => false
       end
    then Err InvalidPlaceholder
    else match first with
    | None => Ok (mk_pattern t None)
    | Some start =>
      let stop := (start + len)%nat in
      let segment_start := (0 <? start)%nat && bool_decide (t !! (start - 1)%nat = Some 47) in
      let segment_end := (stop =? length t)%nat || bool_decide (t !! stop = Some 47) in
      if negb segment_start || negb segment_end then Err InvalidPlaceholder
      else Ok (mk_pattern t (Some (start, stop)))
    end.

(** The path a trailing placeholder also accepts, without its last slash. *)
Definition bare_path (p : DohPathPattern) : option chars :=
  match placeholder p with
  | None => None
  | Some (start, stop) =>
    if negb (stop =? length (template p))%nat then None
    else
      let prefix := take start (template p) in
      if bool_decide (prefix = lit "/") then Some prefix else strip_suffix (lit "/") prefix
  end.

(** The client identifier of a matching path, if it has one. *)
Definition pattern_matches (p : DohPathPattern) (path : chars) : option (option chars) :=
  match placeholder p with
  | None => if bool_decide (path = template p) then Some None else None
  | Some (start, stop) =>
    let trailing := (stop =? length (template p))%nat in
    if trailing && bool_decide (bare_path p = None) then None
    else if trailing && bool_decide (bare_path p = Some path) then Some None
    else
      let suffix := drop stop (template p) in
      if negb (starts_with (take start (template p)) path) || negb (ends_with suffix path)
      then None
      else if (length path <? length suffix)%nat then None
      else
        let value_end := (length path - length suffix)%nat in
        if (value_end <? start)%nat then None
        else
          let value := take (value_end - start) (drop start path) in
          if bool_decide (value = []) || bool_decide (47 ∈ value) || bool_decide (63 ∈ value)
          then None else Some (Some value)
  end.

Definition segment_of (s : chars) : PathSegment :=
  if bool_decide (s = CLIENT_ID_MARKER) then SegClientId else SegLiteral s.

Definition path_segments (path : chars) : list PathSegment :=
  segment_of <$> drop 1 (split_on 47 path).

Definition path_variants (p : DohPathPattern) : list (list PathSegment) :=
  path_segments (template p) ::
  match bare_path p with Some b => [path_segments b] | None => [] end.

Definition segment_overlaps (l r : PathSegment) : bool :=
  match l, r with
  | SegClientId, SegClientId => true
  | SegClientId, SegLiteral v | SegLiteral v, SegClientId => negb (bool_decide (v = []))
  | SegLiteral a, SegLiteral b => bool_decide (a = b)
  end.

Definition variants_overlap (left right : list PathSegment) : bool :=
  (length left =? length right)%nat &&
  forallb (fun '(l, r) => segment_overlaps l r) (combine left right).

Definition overlaps (p q : DohPathPattern) : bool :=
  existsb (fun l => existsb (variants_overlap l) (path_variants q)) (path_variants p).

Example conflicting_routes :
  match pattern_new (lit "/dns-query/{client_id}"), pattern_new (lit "/dns-query"),
        pattern_new (lit "/{client_id}/x") with
  | Ok a, Ok b, Ok c => (overlaps a b, overlaps a c, overlaps b c,
      pattern_matches a (lit "/dns-query"), pattern_matches a (lit "/dns-query/tv"))
  | _, _, _ => (false, false, false, None, None)
  end = (true, true, false, Some None, Some (Some (lit "tv"))).
Proof. by vm_compute. Qed.

(** ** Splitting and substring search *)

Lemma split_on_app sep a b : split_on sep (a ++ sep :: b) = split_on sep a ++ split_on sep b.
Proof.
  induction a as [|c a IH]; cbn [split_on app].
  { by rewrite Z.eqb_refl. }
  rewrite IH. destruct (c =? sep); [done|].
  destruct (split_on sep a) eqn:E; [by apply split_on_nonempty in E|done].
Qed.

Lemma split_on_single sep s : sep ∉ s -> split_on sep s = [s].
Proof.
  intros Hs. destruct (split_on_cases sep s) as [[_ ->]|(l & s' & -> & _)]; [done|]. set_solver.
Qed.

Lemma split_on_free sep s : Forall (fun x => sep ∉ x) (split_on sep s).
Proof.
  induction s as [s IH] using (induction_ltof1 _ (@length Z)).
  destruct (split_on_cases sep s) as [[? ->]|(l & s' & -> & ? & ->)]; constructor; try done.
  apply IH. unfold ltof. rewrite length_app. cbn. lia.
Qed.

Lemma split_on_sub sep s x : x ∈ split_on sep s -> exists a b, s = a ++ x ++ b.
Proof.
  induction s as [s IH] using (induction_ltof1 _ (@length Z)). intros Hx.
  destruct (split_on_cases sep s) as [[_ E]|(l & s' & -> & _ & E)]; rewrite E in Hx.
  - apply list_elem_of_singleton in Hx as ->. exists [], []. by rewrite app_nil_r.
  - apply elem_of_cons in Hx as [->|Hx]; [by exists [], (sep :: s')|].
    destruct (IH s') with (2 := Hx) as (a & b & ->).
    { unfold ltof. rewrite length_app. cbn. lia. }
    exists (l ++ sep :: a), b. by rewrite <-!app_assoc.
Qed.

Lemma split_join sep ps :
  ps <> [] -> Forall (fun x => sep ∉ x) ps -> split_on sep (join [sep] ps) = ps.
Proof.
  induction ps as [|p ps IH]; [done|]. intros _ HF. inversion_clear HF as [|?? Hp Hps].
  destruct (decide (ps = [])) as [->|Hne]; [by apply split_on_single|].
  rewrite join_cons by done. cbn [app]. rewrite split_on_app, IH, split_on_single by done. done.
Qed.

Lemma split_on_inj sep a b : split_on sep a = split_on sep b -> a = b.
Proof. intros E. by rewrite <-(join_split sep a), <-(join_split sep b), E. Qed.

Lemma find_sub_none k s : find_sub k s = None <-> contains_sub k s = false.
Proof.
  induction s as [|c s IH]; cbn [find_sub contains_sub].
  - by destruct (starts_with k []).
  - destruct (starts_with k (c :: s)); cbn; [done|]. rewrite <-IH. by destruct (find_sub k s).
Qed.

Lemma find_sub_some k s n :
  find_sub k s = Some n ->
  exists a b, s = a ++ k ++ b /\ length a = n /\
    forall a' b', s = a' ++ k ++ b' -> (n <= length a')%nat.
Proof.
  revert n. induction s as [|c s IH]; intros n; cbn [find_sub];
    destruct (starts_with k _) eqn:E; try done.
  1, 2: intros [= <-]; apply starts_with_spec in E as [r ->]; exists [], r;
        (split_and!; [done|done|intros; lia]).
  intros H. destruct (find_sub k s) as [m|]; [|done]. injection H as <-.
  destruct (IH m eq_refl) as (a & b & -> & <- & Hmin). exists (c :: a), b.
  split_and!; [done|done|]. intros [|c' a'] b' Heq.
  - exfalso. assert (starts_with k (c :: a ++ k ++ b) = true); [|congruence].
    apply starts_with_spec. by exists b'.
  - injection Heq as -> Heq. cbn. apply Hmin in Heq. lia.
Qed.

(** Nothing before the first occurrence contains another one. *)
Lemma find_sub_first k s n :
  k <> [] -> find_sub k s = Some n ->
  exists a b, s = a ++ k ++ b /\ length a = n /\ contains_sub k a = false.
Proof.
  intros Hk (a & b & -> & <- & Hmin)%find_sub_some. exists a, b. split_and!; [done|done|].
  apply not_true_iff_false. intros (x & y & ->)%contains_sub_spec.
  specialize (Hmin x (y ++ k ++ b)). rewrite <-!app_assoc in Hmin. specialize (Hmin eq_refl).
  rewrite !length_app in Hmin. destruct k; [done|]. cbn in Hmin. lia.
Qed.

Lemma strip_suffix_spec suf s r : strip_suffix suf s = Some r <-> s = r ++ suf.
Proof.
  unfold strip_suffix. rewrite fmap_Some. setoid_rewrite strip_prefix_spec. split.
  - intros (x & Hx & ->). rewrite <-(reverse_involutive s), Hx, reverse_app.
    by rewrite reverse_involutive.
  - intros ->. exists (reverse r). by rewrite reverse_app, reverse_involutive.
Qed.

Lemma ends_with_spec suf s : ends_with suf s = true <-> exists r, s = r ++ suf.
Proof.
  unfold ends_with. rewrite bool_decide_eq_true. unfold is_Some.
  by setoid_rewrite strip_suffix_spec.
Qed.

(** ** The shape of accepted templates *)

(** Where the placeholder of an accepted pattern sits: a whole segment, the only
    occurrence of the marker. *)
Inductive shape (p : DohPathPattern) : Prop :=
| shape_literal :
    placeholder p = None -> contains_sub CLIENT_ID_MARKER (template p) = false -> shape p
| shape_client pre suf :
    template p = (pre ++ [47]) ++ CLIENT_ID_MARKER ++ suf ->
    placeholder p = Some (length (pre ++ [47]),
      (length (pre ++ [47%Z]) + length CLIENT_ID_MARKER)%nat) ->
    (suf = [] \/ exists suf', suf = 47 :: suf') ->
    contains_sub CLIENT_ID_MARKER (pre ++ [47]) = false ->
    contains_sub CLIENT_ID_MARKER suf = false -> shape p.

Record template_ok (p : DohPathPattern) : Prop := {
  ok_slash : exists t, template p = 47 :: t;
  ok_query : 63 ∉ template p;
  ok_shape : shape p
}.

Lemma last_slash (a : chars) :
  (0 <? length a)%nat && bool_decide (a !! (length a - 1)%nat = Some 47) = true ->
  exists pre, a = pre ++ [47].
Proof.
  destruct a as [|x a _] using rev_ind; [done|]. rewrite length_app. cbn [length].
  replace (length a + 1 - 1)%nat with (length a) by lia.
  rewrite list_lookup_middle by done.
  intros [_ H%bool_decide_eq_true]%andb_true_iff. injection H as ->. by exists a.
Qed.

Lemma pattern_new_ok t p : pattern_new t = Ok p -> template p = t /\ template_ok p.
Proof.
  unfold pattern_new. destruct (_ || _) eqn:Hbad; [done|].
  apply orb_false_iff in Hbad as [[[[_ Hs]%orb_false_iff Hq]%orb_false_iff _]%orb_false_iff _].
  apply negb_false_iff, starts_with_spec in Hs as [t' Ht]. apply bool_decide_eq_false in Hq.
  destruct (find_sub CLIENT_ID_MARKER t) as [n|] eqn:Hf.
  2:{ intros [= <-]. split; [done|]. apply find_sub_none in Hf.
      split; [by exists t'|done|by apply shape_literal]. }
  apply find_sub_first in Hf as (a & b & Hab & <- & Hfirst); [|done].
  assert (Hdrop : drop (length a + length CLIENT_ID_MARKER) t = b).
  { by rewrite Hab, app_assoc, <-length_app, drop_app_length. }
  rewrite Hdrop. destruct (contains_sub CLIENT_ID_MARKER b) eqn:Hsuf; [done|].
  destruct (negb _ || _) eqn:Hseg; [done|]. intros [= <-]. split; [done|].
  apply orb_false_iff in Hseg as [Hl%negb_false_iff Hr%negb_false_iff].
  split; [by exists t'|done|].
  assert (exists pre, a = pre ++ [47]) as [pre ->].
  { apply last_slash. destruct (decide (length a = 0)%nat) as [E|]; [by rewrite E in Hl|].
    rewrite Hab, lookup_app_l in Hl by lia. done. }
  eapply shape_client with (pre := pre) (suf := b); try done. cbn.
  apply orb_true_iff in Hr as [Hr|Hr].
  - left. apply Nat.eqb_eq in Hr. rewrite Hab, !length_app in Hr.
    apply length_zero_iff_nil. lia.
  - right. apply bool_decide_eq_true in Hr.
    rewrite <-(Nat.add_0_r (_ + _)), <-lookup_drop, Hdrop in Hr.
    destruct b as [|x b]; [done|]. injection Hr as ->. by exists b.
Qed.

(** ** Matching *)

(** A value that can stand for the client identifier. *)
Definition client_value (v : chars) : Prop := v <> [] /\ (47 ∉ v) /\ (63 ∉ v).

Definition bare_prefix (pre : chars) : chars := if bool_decide (pre = []) then [47] else pre.

(** [placeholder] ends the template. *)
Lemma marker_trailing (a suf : chars) :
  (length a + length CLIENT_ID_MARKER =? length (a ++ CLIENT_ID_MARKER ++ suf))%nat =
  bool_decide (suf = []).
Proof.
  rewrite !length_app. destruct suf; cbn [length].
  - rewrite bool_decide_true by done. apply Nat.eqb_eq. lia.
  - rewrite bool_decide_false by done. apply Nat.eqb_neq. lia.
Qed.

Lemma client_bare p pre suf :
  template p = (pre ++ [47]) ++ CLIENT_ID_MARKER ++ suf ->
  placeholder p = Some (length (pre ++ [47]),
      (length (pre ++ [47%Z]) + length CLIENT_ID_MARKER)%nat) ->
  bare_path p = if bool_decide (suf = []) then Some (bare_prefix pre) else None.
Proof.
  intros Ht Hp. unfold bare_path. rewrite Hp, Ht, take_app_length, marker_trailing.
  destruct (bool_decide (suf = [])); cbn [negb]; [|done].
  unfold bare_prefix. destruct pre as [|c pre]; [done|].
  rewrite (bool_decide_false (c :: pre = [])) by done.
  rewrite bool_decide_false by (by destruct pre). by apply strip_suffix_spec.
Qed.

(** The value between a fixed prefix and a fixed suffix. *)
Definition between (a suf path : chars) : option (option chars) :=
  if negb (starts_with a path) || negb (ends_with suf path) then None
  else if (length path <? length suf)%nat then None
  else
    let value_end := (length path - length suf)%nat in
    if (value_end <? length a)%nat then None
    else
      let value := take (value_end - length a) (drop (length a) path) in
      if bool_decide (value = []) || bool_decide (47 ∈ value) || bool_decide (63 ∈ value)
      then None else Some (Some value).

Lemma between_spec a suf path cid :
  between a suf path = Some cid <->
  exists v, client_value v /\ path = a ++ v ++ suf /\ cid = Some v.
Proof.
  unfold between, client_value. split.
  - destruct (starts_with a path) eqn:Ha; [|done]. destruct (ends_with suf path) eqn:Hs; [|done].
    apply starts_with_spec in Ha as [r Hr]. apply ends_with_spec in Hs as [q Hq]. cbn [negb orb].
    assert (Hlq : length path = (length q + length suf)%nat) by (by rewrite Hq, length_app).
    rewrite (proj2 (Nat.ltb_ge _ _)) by lia.
    replace (length path - length suf)%nat with (length q) by lia.
    destruct (Nat.ltb_spec (length q) (length a)) as [|Hle]; [done|].
    assert (Hqa : q = a ++ drop (length a) q).
    { rewrite <-(take_drop (length a) q) at 1. f_equal.
      rewrite <-(take_app_le _ suf), <-Hq, Hr, take_app_length by lia. done. }
    assert (Hv : take (length q - length a) (drop (length a) path) = drop (length a) q).
    { rewrite Hq, drop_app_le, <-length_drop, take_app_length by lia. done. }
    rewrite Hv. destruct (_ || _) eqn:Hbad; [done|]. intros [= <-].
    apply orb_false_iff in Hbad as [[?%bool_decide_eq_false ?%bool_decide_eq_false]%orb_false_iff
      ?%bool_decide_eq_false].
    exists (drop (length a) q). split_and!; [done..| |done]. by rewrite app_assoc, <-Hqa.
  - intros (v & (Hne & H47 & H63) & -> & ->).
    rewrite (proj2 (starts_with_spec _ _)) by (by exists (v ++ suf)).
    rewrite (proj2 (ends_with_spec _ _)) by (exists (a ++ v); by rewrite app_assoc).
    cbn [negb orb]. rewrite !length_app. rewrite !(proj2 (Nat.ltb_ge _ _)) by lia.
    rewrite drop_app_length. rewrite take_app_le by lia. rewrite take_ge by lia.
    by rewrite !bool_decide_false by done.
Qed.

Lemma client_matches p pre suf path cid :
  template p = (pre ++ [47]) ++ CLIENT_ID_MARKER ++ suf ->
  placeholder p = Some (length (pre ++ [47]),
      (length (pre ++ [47%Z]) + length CLIENT_ID_MARKER)%nat) ->
  pattern_matches p path = Some cid <->
  (suf = [] /\ path = bare_prefix pre /\ cid = None) \/
  (exists v, client_value v /\ path = (pre ++ [47]) ++ v ++ suf /\ cid = Some v).
Proof.
  intros Ht Hp. unfold pattern_matches. rewrite (client_bare p pre suf Ht Hp), Hp, Ht.
  rewrite take_app_length, marker_trailing.
  assert (Hdrop : drop (length (pre ++ [47%Z]) + length CLIENT_ID_MARKER)
    ((pre ++ [47]) ++ CLIENT_ID_MARKER ++ suf) = suf).
  { by rewrite app_assoc, <-length_app, drop_app_length. }
  rewrite Hdrop. clear Hdrop. cbv zeta. fold (between (pre ++ [47]) suf path).
  rewrite <-between_spec. destruct (bool_decide (suf = [])) eqn:Hsuf; cbn [andb].
  2:{ apply bool_decide_eq_false in Hsuf. naive_solver. }
  apply bool_decide_eq_true in Hsuf. rewrite bool_decide_false by done.
  destruct (bool_decide (Some _ = Some path)) eqn:Hb.
  - apply bool_decide_eq_true in Hb. injection Hb as <-. split; [intros [= <-]; by left|].
    intros [(_ & _ & ->)|(v & (Hne & _) & Heq & _)%between_spec]; [done|].
    apply (f_equal length) in Heq. rewrite !length_app in Heq. destruct v; [done|].
    unfold bare_prefix in Heq. destruct pre; cbn in Heq; lia.
  - apply bool_decide_eq_false in Hb. split; [by right|]. intros [(_ & -> & _)|?]; done.
Qed.

(** ** Segments *)

Definition accepts (seg : PathSegment) (v : chars) : Prop :=
  match seg with
  | SegLiteral s => v = s
  | SegClientId => v <> [] /\ (63 ∉ v)
  end.

(** Segments including the empty one before the leading slash. *)
Definition full_segments (s : chars) : list PathSegment := segment_of <$> split_on 47 s.

Lemma full_segments_slash t : full_segments (47 :: t) = SegLiteral [] :: path_segments (47 :: t).
Proof. unfold full_segments, path_segments. cbn [split_on]. by rewrite Z.eqb_refl. Qed.

Lemma segment_literals ss :
  Forall (fun x => x <> CLIENT_ID_MARKER) ss -> segment_of <$> ss = SegLiteral <$> ss.
Proof.
  induction 1 as [|x ss Hx _ IH]; [done|]. cbn. rewrite IH. unfold segment_of.
  by rewrite bool_decide_false.
Qed.

Lemma accepts_literals ss vals : Forall2 accepts (SegLiteral <$> ss) vals <-> vals = ss.
Proof.
  split.
  - revert vals. induction ss as [|x ss IH]; intros vals H; inversion H; subst; [done|].
    f_equal; [done|by apply IH].
  - intros ->. induction ss; constructor; [done|done].
Qed.

Lemma no_marker_segments s :
  contains_sub CLIENT_ID_MARKER s = false ->
  full_segments s = SegLiteral <$> split_on 47 s.
Proof.
  intros Hs. apply segment_literals, list.Forall_forall. intros x Hx ->.
  apply split_on_sub in Hx as (a & b & ->).
  apply not_true_iff_false in Hs. apply Hs, contains_sub_spec. by exists a, b.
Qed.

Lemma accepts_no_marker s path :
  contains_sub CLIENT_ID_MARKER s = false ->
  Forall2 accepts (full_segments s) (split_on 47 path) <-> path = s.
Proof.
  intros Hs. rewrite no_marker_segments, accepts_literals by done.
  split; [apply split_on_inj|by intros ->].
Qed.

Lemma contains_prefix k a b : contains_sub k (a ++ b) = false -> contains_sub k a = false.
Proof.
  intros H. apply not_true_iff_false. intros (x & y & ->)%contains_sub_spec.
  apply not_true_iff_false in H. apply H, contains_sub_spec. exists x, (y ++ b).
  by rewrite !app_assoc.
Qed.

Lemma contains_suffix k a b : contains_sub k (a ++ b) = false -> contains_sub k b = false.
Proof.
  intros H. apply not_true_iff_false. intros (x & y & ->)%contains_sub_spec.
  apply not_true_iff_false in H. apply H, contains_sub_spec. exists (a ++ x), y.
  by rewrite !app_assoc.
Qed.

(** The segments after a value that is a whole segment. *)
Definition tail_segments (suf : chars) : list chars := drop 1 (split_on 47 suf).

Lemma split_middle pre v suf :
  47 ∉ v -> suf = [] \/ (exists suf', suf = 47 :: suf') ->
  split_on 47 ((pre ++ [47]) ++ v ++ suf) = split_on 47 pre ++ v :: tail_segments suf.
Proof.
  intros Hv Hsuf. rewrite <-(app_assoc pre [47]). cbn [app]. rewrite split_on_app. f_equal.
  destruct Hsuf as [->|[suf' ->]]; unfold tail_segments; cbn [split_on].
  - by rewrite app_nil_r, split_on_single.
  - by rewrite split_on_app, split_on_single, Z.eqb_refl.
Qed.

Lemma accepts_client pre suf path :
  suf = [] \/ (exists suf', suf = 47 :: suf') ->
  contains_sub CLIENT_ID_MARKER (pre ++ [47]) = false ->
  contains_sub CLIENT_ID_MARKER suf = false ->
  Forall2 accepts (full_segments ((pre ++ [47]) ++ CLIENT_ID_MARKER ++ suf)) (split_on 47 path) <->
  exists v, client_value v /\ path = (pre ++ [47]) ++ v ++ suf.
Proof.
  intros Hsuf Hp Hs. apply contains_prefix in Hp.
  assert (Hsegs : full_segments ((pre ++ [47]) ++ CLIENT_ID_MARKER ++ suf) =
    (SegLiteral <$> split_on 47 pre) ++ SegClientId :: (SegLiteral <$> tail_segments suf)).
  { unfold full_segments. rewrite split_middle by (done || vm_compute; set_solver).
    rewrite fmap_app, fmap_cons. f_equal; [by apply no_marker_segments|]. f_equal.
    destruct Hsuf as [->|[suf' ->]]; [done|]. unfold tail_segments.
    cbn [split_on]. rewrite Z.eqb_refl. cbn [drop].
    by apply no_marker_segments, (contains_suffix _ [47]). }
  rewrite Hsegs. split.
  - intros (l1 & l2 & H1 & H2 & Hpath)%Forall2_app_inv_l.
    apply accepts_literals in H1 as ->. inversion H2 as [|? v ? l Hacc H3]; subst.
    apply accepts_literals in H3 as ->. destruct Hacc as [Hne Hq].
    assert (Hv : 47 ∉ v).
    { apply (proj1 (list.Forall_forall _ _) (split_on_free 47 path)). rewrite Hpath. set_solver. }
    exists v. split; [done|]. apply (split_on_inj 47). by rewrite split_middle.
  - intros (v & (Hne & H47 & H63) & ->). rewrite split_middle by done.
    apply Forall2_app; [by apply accepts_literals|]. constructor; [done|].
    by apply accepts_literals.
Qed.

(** ** Variants *)

Lemma literal_matches p path :
  placeholder p = None -> is_Some (pattern_matches p path) <-> path = template p.
Proof.
  intros Hp. unfold pattern_matches. rewrite Hp. case_bool_decide; [naive_solver|].
  split; [by intros [? ?]|done].
Qed.

Lemma bare_prefix_slash pre rest t :
  (pre ++ [47]) ++ rest = 47 :: t -> exists t', bare_prefix pre = 47 :: t'.
Proof.
  unfold bare_prefix. destruct pre as [|c pre]; [by exists []|].
  rewrite bool_decide_false by done. intros [= -> _]. by exists pre.
Qed.

Lemma bare_prefix_no_marker pre :
  contains_sub CLIENT_ID_MARKER (pre ++ [47]) = false ->
  contains_sub CLIENT_ID_MARKER (bare_prefix pre) = false.
Proof.
  unfold bare_prefix. intros H. case_bool_decide; [by vm_compute|by eapply contains_prefix].
Qed.

(** A path matches a template exactly when its segments fit one of the
    template's variants. *)
Lemma matches_variants p path :
  template_ok p ->
  is_Some (pattern_matches p path) <->
  exists vs, vs ∈ path_variants p /\ Forall2 accepts (SegLiteral [] :: vs) (split_on 47 path).
Proof.
  intros [[t Ht] _ [Hp Hm|pre suf Htp Hp Hsuf Hpre Hs]]; unfold path_variants.
  - assert (bare_path p = None) as -> by (unfold bare_path; by rewrite Hp).
    rewrite literal_matches by done. rewrite <-accepts_no_marker by done.
    rewrite Ht, full_segments_slash. set_solver.
  - rewrite (client_bare p pre suf) by done.
    assert (Hfull : is_Some (pattern_matches p path) <->
      (suf = [] /\ path = bare_prefix pre) \/
      exists v, client_value v /\ path = (pre ++ [47]) ++ v ++ suf).
    { unfold is_Some. setoid_rewrite (client_matches p pre suf); [|done..]. naive_solver. }
    rewrite Hfull, <-accepts_client, <-Htp, Ht, full_segments_slash by done.
    destruct (bare_prefix_slash pre (CLIENT_ID_MARKER ++ suf) t) as [t' Hb]; [by rewrite <-Htp|].
    rewrite <-(accepts_no_marker (bare_prefix pre)) by (by apply bare_prefix_no_marker).
    rewrite Hb, full_segments_slash. case_bool_decide; set_solver.
Qed.

(** Literal segments of a variant carry no slash and no question mark. *)
Definition clean (seg : PathSegment) : Prop :=
  match seg with SegLiteral s => (47 ∉ s) /\ (63 ∉ s) | SegClientId => True end.

Lemma path_segments_clean s : 63 ∉ s -> Forall clean (path_segments s).
Proof.
  intros Hq. unfold path_segments. apply Forall_fmap. apply Forall_drop.
  apply list.Forall_forall. intros x Hx. cbn. unfold segment_of. case_bool_decide; [done|].
  split; [by apply (proj1 (list.Forall_forall _ _) (split_on_free 47 s))|].
  apply split_on_sub in Hx as (a & b & ->). set_solver.
Qed.

Lemma variants_clean p vs : template_ok p -> vs ∈ path_variants p -> Forall clean vs.
Proof.
  intros [_ Hq Hshape] Hvs. unfold path_variants in Hvs.
  apply elem_of_cons in Hvs as [->|Hvs]; [by apply path_segments_clean|].
  destruct Hshape as [Hp _|pre suf Htp Hp _ _ _].
  - unfold bare_path in Hvs. rewrite Hp in Hvs. set_solver.
  - rewrite (client_bare p pre suf) in Hvs by done. case_bool_decide; [|set_solver].
    apply list_elem_of_singleton in Hvs as ->. apply path_segments_clean.
    unfold bare_prefix. case_bool_decide; [set_solver|]. rewrite Htp in Hq. set_solver.
Qed.

(** A common value of two overlapping segments. *)
Definition common (l r : PathSegment) : chars :=
  match l, r with
  | SegLiteral s, _ | _, SegLiteral s => s
  | SegClientId, SegClientId => lit "a"
  end.

Lemma segment_overlaps_spec l r :
  clean l -> clean r ->
  segment_overlaps l r = true <-> exists v, accepts l v /\ accepts r v /\ (47 ∉ v).
Proof.
  intros Hl Hr. split.
  - intros H. exists (common l r). destruct l, r; cbn in *;
      try (apply bool_decide_eq_true in H; subst); try apply negb_true_iff in H;
      try apply bool_decide_eq_false in H; try naive_solver.
    split_and!; try done; vm_compute; set_solver.
  - intros (v & Hvl & Hvr & _). destruct l, r; cbn in *; try done; subst.
    + by rewrite bool_decide_true.
    + by rewrite bool_decide_false by naive_solver.
    + by rewrite bool_decide_false by naive_solver.
Qed.

Lemma variants_overlap_spec l r :
  Forall clean l -> Forall clean r ->
  variants_overlap l r = true <->
  exists vals, Forall2 accepts l vals /\ Forall2 accepts r vals /\ Forall (fun v => 47 ∉ v) vals.
Proof.
  unfold variants_overlap. revert r. induction l as [|x l IH]; intros r Hl Hr.
  - destruct r; cbn; [split; [intros _; by exists []|done]|].
    split; [done|]. intros (vals & H1 & H2 & _). inversion H1; subst. by inversion H2.
  - inversion_clear Hl as [|? ? Hx Hl']. destruct r as [|y r]; cbn [length combine forallb].
    { split; [done|]. intros (vals & H1 & H2 & _). inversion H2; subst. by inversion H1. }
    inversion_clear Hr as [|? ? Hy Hr']. cbn [Nat.eqb].
    rewrite andb_comm, <-andb_assoc, andb_true_iff, (andb_comm (forallb _ _)), IH by done.
    rewrite segment_overlaps_spec by done. split.
    + intros ((v & ? & ? & ?) & vals & ? & ? & ?). exists (v :: vals). auto.
    + intros (vals & H1 & H2 & H3). inversion H1; subst. inversion H2; subst.
      inversion H3; subst. eauto 10.
Qed.

(** ** Correctness *)

(** The marker does not overlap itself: its brace opens it only. *)
Lemma marker_no_overlap l r x y :
  l <> [] -> r <> [] -> CLIENT_ID_MARKER = l ++ r -> CLIENT_ID_MARKER ++ x = r ++ y -> False.
Proof.
  intros Hl Hr HM H. destruct l as [|c l]; [done|]. destruct r as [|d r]; [done|].
  injection H as <- _. injection HM as _ HM.
  apply (f_equal (fun s => bool_decide (byte_to_Z x7b ∈ s))) in HM. revert HM.
  rewrite (bool_decide_true (_ ∈ l ++ _)) by set_solver. by vm_compute.
Qed.

Lemma marker_shift l suf suf' :
  l <> [] -> contains_sub CLIENT_ID_MARKER l = false ->
  CLIENT_ID_MARKER ++ suf' = l ++ CLIENT_ID_MARKER ++ suf -> False.
Proof.
  intros Hl Hc (r & [[HM Hr]|[-> _]])%app_eq_app.
  - destruct (decide (r = [])) as [->|Hne]; [|exact (marker_no_overlap _ _ _ _ Hl Hne HM Hr)].
    rewrite app_nil_r in HM. rewrite <-HM in Hc. by vm_compute in Hc.
  - apply not_true_iff_false in Hc. apply Hc, contains_sub_spec. by exists [], r.
Qed.

(** A marker that occurs neither before nor after its place splits the template
    in one way only. *)
Lemma marker_unique pre suf pre' suf' :
  contains_sub CLIENT_ID_MARKER pre = false -> contains_sub CLIENT_ID_MARKER suf = false ->
  pre ++ CLIENT_ID_MARKER ++ suf = pre' ++ CLIENT_ID_MARKER ++ suf' ->
  pre' = pre /\ suf' = suf.
Proof.
  intros Hp Hs (l & [[-> Hl]|[-> Hl]])%app_eq_app; (destruct (decide (l = [])) as [->|Hne];
    [rewrite app_nil_r; cbn [app] in Hl; apply app_inv_head in Hl; done|exfalso]).
  - apply contains_suffix in Hp. by eapply marker_shift.
  - apply app_eq_app in Hl as (r & [[HM Hr]|[-> Hsuf]]).
    + destruct (decide (r = [])) as [->|Hr0]; [|exact (marker_no_overlap _ _ _ _ Hne Hr0 HM Hr)].
      cbn in Hr. subst suf. apply not_true_iff_false in Hs. apply Hs, contains_sub_spec.
      by exists [], suf'.
    + subst suf. apply not_true_iff_false in Hs. apply Hs, contains_sub_spec. by exists r, suf'.
Qed.

(** A template without the marker matches only itself. A template with the
    marker matches exactly the paths that put a non-empty value without slash or
    question mark in the place of the marker, and extracts that value; if the
    marker ends the template, the path without the last segment (and its slash)
    matches too, with no client. *)
Theorem doh_matches_spec t p path cid :
  pattern_new t = Ok p ->
  pattern_matches p path = Some cid <->
  if contains_sub CLIENT_ID_MARKER t then
    exists pre suf, t = (pre ++ [47]) ++ CLIENT_ID_MARKER ++ suf /\
      ((suf = [] /\ path = bare_prefix pre /\ cid = None) \/
       (exists v, client_value v /\ path = (pre ++ [47]) ++ v ++ suf /\ cid = Some v))
  else path = t /\ cid = None.
Proof.
  intros [<- [_ _ Hshape]]%pattern_new_ok. destruct Hshape as [Hp Hm|pre suf Ht Hp _ Hpre Hs].
  - rewrite Hm. unfold pattern_matches. rewrite Hp. case_bool_decide; naive_solver.
  - rewrite (proj2 (contains_sub_spec _ _)) by (by exists (pre ++ [47]), suf).
    rewrite (client_matches p pre suf) by done. split; [by exists pre, suf|].
    intros (pre' & suf' & Ht' & H).
    assert (pre' ++ [47] = pre ++ [47] /\ suf' = suf) as [Epre ->].
    { rewrite Ht in Ht'. by apply marker_unique. }
    apply app_inj_2 in Epre as [-> _]; done.
Qed.

(** The overlap test is exact: two accepted templates are reported as
    overlapping if and only if some request path matches both, so a route table
    without overlaps dispatches every path to at most one route. *)
Theorem doh_overlaps_iff t1 t2 p q :
  pattern_new t1 = Ok p -> pattern_new t2 = Ok q ->
  overlaps p q = true <->
  exists path, is_Some (pattern_matches p path) /\ is_Some (pattern_matches q path).
Proof.
  intros [_ Hp]%pattern_new_ok [_ Hq]%pattern_new_ok. unfold overlaps.
  rewrite existsb_exists. setoid_rewrite existsb_exists.
  setoid_rewrite (matches_variants p); [|done]. setoid_rewrite (matches_variants q); [|done]. split.
  - intros (l & Hl%list_elem_of_In & r & Hr%list_elem_of_In & Hov).
    apply variants_overlap_spec in Hov as (vals & H1 & H2 & H3); [|exact (variants_clean p l Hp Hl)|exact (variants_clean q r Hq Hr)].
    exists (join [47] ([] :: vals)).
    rewrite split_join by first [done|by constructor; [set_solver|]].
    split; [exists l|exists r]; (split; [done|]); by constructor.
  - intros (path & (l & Hl & H1) & (r & Hr & H2)).
    pose proof (split_on_free 47 path) as Hfree.
    destruct (split_on 47 path) as [|v vals]; [by inversion H1|].
    inversion_clear H1. inversion_clear H2. inversion_clear Hfree.
    exists l. split; [by apply list_elem_of_In|]. exists r. split; [by apply list_elem_of_In|].
    apply variants_overlap_spec;
      [exact (variants_clean p l Hp Hl)|exact (variants_clean q r Hq Hr)|eauto].
Qed.

(** ** A concrete route table *)

Section DohWitness.

Definition client_route : DohPathPattern :=
  mk_pattern (lit "/dns-query/{client_id}") (Some (11%nat, 22%nat)).
Definition plain_route : DohPathPattern := mk_pattern (lit "/dns-query") None.

Lemma doh_matches_spec_witness :
  pattern_matches client_route (lit "/dns-query/tv") = Some (Some (lit "tv")).
Proof.
  apply (proj2 (doh_matches_spec (lit "/dns-query/{client_id}") client_route
    (lit "/dns-query/tv") (Some (lit "tv")) eq_refl)).
  exists (lit "/dns-query"), []. split; [by vm_compute|]. right. exists (lit "tv").
  split_and!; [|by vm_compute|done]. split_and!; [done|vm_compute; set_solver..].
Defined.

Lemma doh_overlaps_iff_witness : exists path,
  is_Some (pattern_matches client_route path) /\ is_Some (pattern_matches plain_route path).
Proof.
  apply (proj1 (doh_overlaps_iff (lit "/dns-query/{client_id}") (lit "/dns-query")
    client_route plain_route eq_refl eq_refl)). by vm_compute.
Defined.

End DohWitness.
