(* ===== verification/Plan.v ===== *)
(** * Routing and policy (src/backend/src/policy/route.rs, strategy.rs, plan.rs)

    From the resolved configuration to the plan of one request: the listener's
    route and strategy, the client, the cache pool, the strategy rules over hosts
    files and rule sets, the upstream and the ECS setting. *)

From S2P Require Import Prelude Text Net CacheModel Client Hosts Regex Rules Group DohRoute.

(** ** Resolved configuration (config/resolve.rs) *)

(** [ConfigId::new]: identifiers of the configuration are strings of 1 to 128
    letters, digits, [-], [_], [.] or [!]. *)
Abbreviation ConfigId := string (only parsing).
Definition config_id_ok (value : ConfigId) : bool :=
  negb ((str_len value =? 0) || (128 <? str_len value)) &&
  forallb (fun b => is_ascii_alphanumeric b || is_id_punct b || (byte_to_Z b =? 33))
    (str_bytes value).

(** Route identifiers are the route's template. *)
Abbreviation RouteId := (list Z) (only parsing).

Inductive ValueSource := VS_Default | VS_Global | VS_Upstream | VS_Client | VS_Strategy | VS_Rule.
#[global] Instance ValueSource_eq_dec : EqDecision ValueSource.
Proof. solve_decision. Defined.

Inductive EcsMode := EcsDisabled | EcsClient | EcsCustom.

Record ResolvedOptimistic := mk_optimistic {
  op_enabled : bool;
  op_answer_ttl : Duration;
  op_max_age : Duration;
  op_negative_max_age : Duration
}.

Record ResolvedCacheOverride := mk_cache_override {
  co_enabled : bool;
  co_optimistic : option ResolvedOptimistic;
  co_source : ValueSource
}.

(** The part of [ResolvedGlobalCache] that decides the pool of a request. *)
Record ResolvedGlobalCache := mk_global_cache {
  gc_enabled : bool;
  gc_optimistic : ResolvedOptimistic
}.

Record ResolvedTtlOverride := mk_ttl_override {
  to_enabled : bool;
  to_min : option Duration;
  to_max : option Duration;
  to_source : ValueSource
}.

Record ResolvedRuleSetRef := mk_rule_ref {
  rr_resource : ConfigId;
  rr_selector : option chars
}.

Section Config.
Context {IN : IpNetOps}.

Record ResolvedEcs := mk_ecs {
  ecs_mode : EcsMode;
  ecs_custom_ip : option IpNet;
  ecs_source : ValueSource
}.

Record ResolvedStrategyRule := mk_strategy_rule {
  sr_rule_set : option ResolvedRuleSetRef;
  sr_hosts : option ConfigId;
  sr_upstream : option ConfigId;
  sr_ecs : ResolvedEcs
}.

Record ResolvedStrategy := mk_strategy {
  st_id : ConfigId;
  st_rules : list ResolvedStrategyRule;
  st_default_upstream : ConfigId;
  st_cache : option ResolvedCacheOverride;
  st_ttl_override : ResolvedTtlOverride;
  st_ecs : ResolvedEcs
}.

Record ResolvedClient := mk_resolved_client {
  rc_name : ConfigId;
  rc_client_ids : list string;
  rc_ips : list IpNet;
  rc_strategy : option ConfigId;
  rc_cache : option ResolvedCacheOverride;
  rc_ttl_override : ResolvedTtlOverride;
  rc_ecs : ResolvedEcs
}.

Record ResolvedDohRoute := mk_doh_route {
  dr_path : chars;
  dr_strategy : ConfigId
}.

(** The addresses and endpoints a listener binds play no role in routing. *)
Inductive ResolvedListener :=
| Udp (id strategy : ConfigId) (hosts : option ConfigId)
| Tcp (id strategy : ConfigId) (hosts : option ConfigId)
| Doh (id : ConfigId) (routes : list ResolvedDohRoute).

(** [ClientRule::from_resolved]. *)
Definition ClientRule_from_resolved (c : ResolvedClient) : ClientRule :=
  mk_client (rc_name c) (rc_client_ids c) (rc_ips c).

(** ** Strategies (policy/strategy.rs) *)

Inductive StrategyBuildError := DuplicateStrategy (id : ConfigId).
Abbreviation StrategyIndex := (gmap string ResolvedStrategy).

Fixpoint strategy_loop (index : StrategyIndex) (l : list ResolvedStrategy) :
    result StrategyBuildError StrategyIndex :=
  match l with
  | [] => Ok index
  | s :: l' => if bool_decide (is_Some (index !! st_id s)) then Err (DuplicateStrategy (st_id s))
               else strategy_loop (<[st_id s := s]> index) l'
  end.

Definition StrategyIndex_build (l : list ResolvedStrategy) :
    result StrategyBuildError StrategyIndex := strategy_loop ∅ l.

(** ** Routes (policy/route.rs) *)

Inductive RouteBuildError :=
| RB_Strategy (e : StrategyBuildError)
| RB_DuplicateListener (id : ConfigId)
| RB_MissingStrategy (listener strategy : ConfigId)
| RB_DuplicateRoute (listener : ConfigId) (route : RouteId)
| RB_InvalidPath
| RB_InvalidPlaceholder.

Record RouteMatch := mk_route_match {
  rm_route_id : RouteId;
  rm_client_id : option chars
}.

Record RouteSelection := mk_selection {
  rs_listener_id : ConfigId;
  rs_route : option RouteMatch;
  rs_strategy : ResolvedStrategy;
  rs_listener_hosts : option ConfigId
}.

Inductive ListenerRoutes :=
| LR_Stream (strategy : ConfigId) (hosts : option ConfigId)
| LR_Doh (routes : gmap (list Z) string).

Record RouteIndex := mk_routes {
  ri_strategies : StrategyIndex;
  ri_listeners : gmap string ListenerRoutes
}.

Definition RoutePattern_new (template : chars) : result RouteBuildError DohPathPattern :=
  map_err (fun e => match e with
                    | InvalidPath => RB_InvalidPath
                    | InvalidPlaceholder => RB_InvalidPlaceholder
                    end) (pattern_new template).

Definition RoutePattern_matches (p : DohPathPattern) (path : chars) : option RouteMatch :=
  mk_route_match (template p) <$> pattern_matches p path.

Definition ensure_strategy (strategies : StrategyIndex) (listener strategy : ConfigId) :
    result RouteBuildError unit :=
  if bool_decide (is_Some (strategies !! strategy)) then Ok tt
  else Err (RB_MissingStrategy listener strategy).

Fixpoint compile_routes (strategies : StrategyIndex) (listener : ConfigId)
    (compiled : gmap (list Z) string) (routes : list ResolvedDohRoute) :
    result RouteBuildError (gmap (list Z) string) :=
  match routes with
  | [] => Ok compiled
  | r :: routes' =>
    _ ← ensure_strategy strategies listener (dr_strategy r);
    pattern ← RoutePattern_new (dr_path r);
    if bool_decide (is_Some (compiled !! template pattern))
    then Err (RB_DuplicateRoute listener (template pattern))
    else compile_routes strategies listener (<[template pattern := dr_strategy r]> compiled) routes'
  end.

Definition listener_routes (strategies : StrategyIndex) (l : ResolvedListener) :
    result RouteBuildError (ConfigId * ListenerRoutes) :=
  match l with
  | Udp id strategy hosts | Tcp id strategy hosts =>
    _ ← ensure_strategy strategies id strategy; Ok (id, LR_Stream strategy hosts)
  | Doh id routes =>
    compiled ← compile_routes strategies id ∅ routes; Ok (id, LR_Doh compiled)
  end.

Fixpoint listener_loop (strategies : StrategyIndex) (index : gmap string ListenerRoutes)
    (l : list ResolvedListener) : result RouteBuildError (gmap string ListenerRoutes) :=
  match l with
  | [] => Ok index
  | x :: l' =>
    '(id, routes) ← listener_routes strategies x;
    if bool_decide (is_Some (index !! id)) then Err (RB_DuplicateListener id)
    else listener_loop strategies (<[id := routes]> index) l'
  end.

Definition RouteIndex_build (listeners : list ResolvedListener)
    (strategies : list ResolvedStrategy) : result RouteBuildError RouteIndex :=
  strategies ← map_err RB_Strategy (StrategyIndex_build strategies);
  listeners ← listener_loop strategies ∅ listeners;
  Ok (mk_routes strategies listeners).

Definition select_stream (ri : RouteIndex) (listener : ConfigId) :
    result RouteBuildError RouteSelection :=
  match ri_listeners ri !! listener with
  | Some (LR_Stream strategy hosts) =>
    s ← ok_or (RB_MissingStrategy listener strategy) (ri_strategies ri !! strategy);
    Ok (mk_selection listener None s hosts)
  | _ => Err (RB_MissingStrategy listener listener)
  end.

Definition select_doh (ri : RouteIndex) (listener : ConfigId) (route : RouteId) :
    option RouteSelection :=
  match ri_listeners ri !! listener with
  | Some (LR_Doh routes) =>
    strategy ← routes !! route;
    s ← ri_strategies ri !! strategy;
    Some (mk_selection listener (Some (mk_route_match route None)) s None)
  | _ => None
  end.

End Config.

(** ** Policy (policy/plan.rs) *)

Section Policy.
Context {IN : IpNetOps} {HN : HickoryName} (sha256 : list byte -> list byte).

Inductive PolicyBuildError :=
| PB_Client (e : ClientRuleBuildError)
| PB_Routes (e : RouteBuildError)
| PB_DuplicateClient (id : ConfigId)
| PB_UnsupportedRuleSetSelector (resource : ConfigId) (selector : chars).

Inductive PolicyError :=
| PE_RouteNotFound (listener : ConfigId) (path : option chars)
| PE_ClientStrategyNotFound (client strategy : ConfigId)
| PE_CacheStrategyIdInvalid (id : ConfigId)
| PE_HostsResourceNotFound (id : ConfigId)
| PE_RuleSetNotFound (id : ConfigId)
| PE_UnsupportedRuleSetSelector (resource : ConfigId) (selector : chars).

Record PolicyRequest := mk_request {
  pr_listener_id : ConfigId;
  pr_doh_route_id : option RouteId;
  pr_client_id : option string;
  pr_client_addr : option IpAddr;
  pr_client_digest : option ClientCacheDigest;
  pr_qname : option CanonicalDomain
}.

Inductive MatchedRuleKind :=
| MK_ListenerHosts (resource : ConfigId)
| MK_Hosts (resource : ConfigId)
| MK_RuleSet (resource : ConfigId) (matcher : RuleMatch).

(** [ordinal] is [None] for [usize::MAX], the listener's hosts file. *)
Record MatchedRule := mk_matched {
  mr_strategy : ConfigId;
  mr_ordinal : option nat;
  mr_kind : MatchedRuleKind
}.

Inductive CacheDecision :=
| CacheDisabled
| CachePool (namespace : CacheNamespace) (answer_ttl max_age negative_max_age : option Duration).

(** [CacheDecision::pool]. *)
Definition pool (ns : CacheNamespace) (o : option ResolvedOptimistic) : CacheDecision :=
  let o := match o with Some v => if op_enabled v then Some v else None | None => None end in
  CachePool ns (op_answer_ttl <$> o) (op_max_age <$> o) (op_negative_max_age <$> o).

Definition decision_namespace (d : CacheDecision) : option CacheNamespace :=
  match d with CacheDisabled => None | CachePool ns _ _ _ => Some ns end.

Record PolicyContext := mk_context {
  pc_listener_id : ConfigId;
  pc_route : option RouteMatch;
  pc_client : ClientMatch;
  pc_strategy : ResolvedStrategy;
  pc_cache : CacheDecision;
  pc_ttl_override : ResolvedTtlOverride;
  pc_routing : RouteSelection;
  pc_client_config : option ResolvedClient
}.

Record RouteDecision := mk_decision {
  rd_upstream : ConfigId;
  rd_ecs : ResolvedEcs;
  rd_hosts : option ConfigId;
  rd_matched_rule : option MatchedRule
}.

Record ResolutionPlan := mk_plan {
  rp_listener_id : ConfigId;
  rp_route : option RouteMatch;
  rp_client : ClientMatch;
  rp_strategy : ResolvedStrategy;
  rp_upstream : ConfigId;
  rp_cache : CacheDecision;
  rp_ttl_override : ResolvedTtlOverride;
  rp_ecs : ResolvedEcs;
  rp_hosts : option ConfigId;
  rp_matched_rule : option MatchedRule
}.

Definition into_resolution_plan (c : PolicyContext) (d : RouteDecision) : ResolutionPlan :=
  mk_plan (pc_listener_id c) (pc_route c) (pc_client c) (pc_strategy c) (rd_upstream d)
    (pc_cache c) (pc_ttl_override c) (rd_ecs d) (rd_hosts d) (rd_matched_rule d).

Record PolicyIndex := mk_policy {
  pi_routes : RouteIndex;
  pi_clients : ClientIndex;
  pi_client_configs : gmap string ResolvedClient;
  pi_upstream_ecs : gmap string ResolvedEcs;
  pi_global_cache : ResolvedGlobalCache;
  pi_hosts : gmap string HostsIndex;
  pi_rule_sets : gmap string RuleResource
}.

(** *** Building *)

Fixpoint client_config_loop (m : gmap string ResolvedClient) (l : list ResolvedClient) :
    result PolicyBuildError (gmap string ResolvedClient) :=
  match l with
  | [] => Ok m
  | c :: l' => if bool_decide (is_Some (m !! rc_name c)) then Err (PB_DuplicateClient (rc_name c))
               else client_config_loop (<[rc_name c := c]> m) l'
  end.

Definition build_with_resources (listeners : list ResolvedListener)
    (strategies : list ResolvedStrategy) (clients : list ResolvedClient)
    (upstream_ecs : gmap string ResolvedEcs) (global : ResolvedGlobalCache)
    (hosts : gmap string HostsIndex) (rule_sets : gmap string RuleResource) :
    result PolicyBuildError PolicyIndex :=
  routes ← map_err PB_Routes (RouteIndex_build listeners strategies);
  configs ← client_config_loop ∅ clients;
  index ← map_err PB_Client (build (ClientRule_from_resolved <$> clients));
  Ok (mk_policy routes index configs upstream_ecs global hosts rule_sets).

(** The upstream kinds, with the ECS setting of direct DoH upstreams and the
    members of groups; how a direct upstream is reached is the registry's matter. *)
Inductive ResolvedUpstream :=
| UpstreamHosts (id : ConfigId)
| UpstreamDoh (id : ConfigId) (ecs : option ResolvedEcs)
| UpstreamGroup (id : ConfigId) (upstreams : list Member) (upstream_mode : UpstreamMode)
    (timeout : Duration) (fallbacks : list Member) (fallback_upstream_mode : option UpstreamMode)
    (fallback_timeout : option Duration).

Fixpoint collect_upstream_ecs (m : gmap string ResolvedEcs) (l : list ResolvedUpstream) :
    gmap string ResolvedEcs :=
  match l with
  | [] => m
  | UpstreamDoh id (Some ecs) :: l' => collect_upstream_ecs (<[id := ecs]> m) l'
  | _ :: l' => collect_upstream_ecs m l'
  end.

Definition is_selector_map (r : RuleResource) : bool :=
  match r with RR_Plain _ => false | RR_Selectors m _ _ => negb (bool_decide (m = ∅)) end.

Definition selector (r : RuleResource) (value : chars) : option RuleIndex :=
  match r with RR_Plain _ => None | RR_Selectors m _ _ => m !! value end.

(** The rules a resource holds itself, outside named selectors. *)
Definition own_rules (r : RuleResource) : RuleIndex :=
  match r with RR_Plain i => i | RR_Selectors _ _ _ => rules_empty end.

Definition missing_selector : chars := lit "<missing>".

Definition validate_rule_ref (indexes : gmap string RuleResource) (r : ResolvedRuleSetRef) :
    result PolicyBuildError unit :=
  match indexes !! rr_resource r with
  | None => Ok tt
  | Some index =>
    match rr_selector r, is_selector_map index with
    | Some s, true => if bool_decide (is_Some (selector index s)) then Ok tt
                      else Err (PB_UnsupportedRuleSetSelector (rr_resource r) s)
    | None, false => Ok tt
    | Some s, false => Err (PB_UnsupportedRuleSetSelector (rr_resource r) s)
    | None, true => Err (PB_UnsupportedRuleSetSelector (rr_resource r) missing_selector)
    end
  end.

Fixpoint validate_refs (indexes : gmap string RuleResource) (rules : list ResolvedStrategyRule) :
    result PolicyBuildError unit :=
  match rules with
  | [] => Ok tt
  | r :: rules' =>
    _ ← match sr_rule_set r with Some ref => validate_rule_ref indexes ref | None => Ok tt end;
    validate_refs indexes rules'
  end.

(** The loops over strategies and their rules. *)
Definition validate_rule_set_selectors (strategies : list ResolvedStrategy)
    (indexes : gmap string RuleResource) : result PolicyBuildError unit :=
  validate_refs indexes (strategies ≫= st_rules).

(** [PolicyIndex::from_config] once the resources are compiled. *)
Definition policy_from_indexes (listeners : list ResolvedListener)
    (strategies : list ResolvedStrategy) (clients : list ResolvedClient)
    (upstreams : list ResolvedUpstream) (global : ResolvedGlobalCache)
    (hosts : gmap string HostsIndex) (rule_sets : gmap string RuleResource) :
    result PolicyBuildError PolicyIndex :=
  _ ← validate_rule_set_selectors strategies rule_sets;
  build_with_resources listeners strategies clients (collect_upstream_ecs ∅ upstreams)
    global hosts rule_sets.

(** *** Hot replacement of resources *)

Definition replace_hosts_resource (p : PolicyIndex) (resource : ConfigId) (index : HostsIndex) :
    result PolicyError PolicyIndex :=
  if negb (bool_decide (is_Some (pi_hosts p !! resource)))
  then Err (PE_HostsResourceNotFound resource)
  else Ok (mk_policy (pi_routes p) (pi_clients p) (pi_client_configs p) (pi_upstream_ecs p)
             (pi_global_cache p) (<[resource := index]> (pi_hosts p)) (pi_rule_sets p)).

Definition replace_rule_set_resource (p : PolicyIndex) (resource : ConfigId)
    (index : RuleResource) : result PolicyError PolicyIndex :=
  if negb (bool_decide (is_Some (pi_rule_sets p !! resource)))
  then Err (PE_RuleSetNotFound resource)
  else Ok (mk_policy (pi_routes p) (pi_clients p) (pi_client_configs p) (pi_upstream_ecs p)
             (pi_global_cache p) (pi_hosts p) (<[resource := index]> (pi_rule_sets p))).

(** *** The cache pool *)

Definition strategy_namespace (s : ResolvedStrategy) : result PolicyError CacheStrategyId :=
  map_err (fun _ => PE_CacheStrategyIdInvalid (st_id s))
    (CacheStrategyId_from_validated_config_id (st_id s)).

Definition select_cache (p : PolicyIndex) (client : option ResolvedClient)
    (s : ResolvedStrategy) (digest : option ClientCacheDigest) : result PolicyError CacheDecision :=
  match client ≫= rc_cache with
  | Some cache =>
    if negb (co_enabled cache) then Ok CacheDisabled
    else match digest with
    | None => Ok CacheDisabled
    | Some d => ns ← strategy_namespace s; Ok (pool (NsClientStrategy d ns) (co_optimistic cache))
    end
  | None =>
    match st_cache s with
    | Some cache =>
      if negb (co_enabled cache) then Ok CacheDisabled
      else ns ← strategy_namespace s; Ok (pool (NsStrategy ns) (co_optimistic cache))
    | None =>
      if negb (gc_enabled (pi_global_cache p)) then Ok CacheDisabled
      else Ok (pool NsGlobal (Some (gc_optimistic (pi_global_cache p))))
    end
  end.

(** *** The request context *)

Definition select_routing (p : PolicyIndex) (r : PolicyRequest) : result PolicyError RouteSelection :=
  match pr_doh_route_id r with
  | Some route => ok_or (PE_RouteNotFound (pr_listener_id r) (Some route))
                    (select_doh (pi_routes p) (pr_listener_id r) route)
  | None => map_err (fun _ => PE_RouteNotFound (pr_listener_id r) None)
              (select_stream (pi_routes p) (pr_listener_id r))
  end.

Definition prepare_context (p : PolicyIndex) (r : PolicyRequest) : result PolicyError PolicyContext :=
  routing ← select_routing p r;
  let client := match_client (pi_clients p) (pr_client_id r) (pr_client_addr r) in
  let client_config := match client with
    | Matched c _ => pi_client_configs p !! client_name c
    | Unknown => None
    end in
  strategy ← match client_config with
    | Some c =>
      match rc_strategy c with
      | Some s => ok_or (PE_ClientStrategyNotFound (rc_name c) s) (ri_strategies (pi_routes p) !! s)
      | None => Ok (rs_strategy routing)
      end
    | None => Ok (rs_strategy routing)
    end;
  let digest := match pr_client_digest r with
    | Some d => Some d
    | None => cache_digest sha256 client (pr_client_id r) (pr_client_addr r)
    end in
  cache ← select_cache p client_config strategy digest;
  let ttl := match client_config with
    | Some c => if bool_decide (to_source (rc_ttl_override c) = VS_Client)
                then rc_ttl_override c else st_ttl_override strategy
    | None => st_ttl_override strategy
    end in
  Ok (mk_context (rs_listener_id routing) (rs_route routing) client strategy cache ttl routing
        client_config).

(** *** Strategy rules *)

Abbreviation RuleOutcome := (option string * option MatchedRule * string * ResolvedEcs)%type.

(** One round of the rule loop: an error, a hit or the next rule. *)
Definition try_rule (p : PolicyIndex) (s : ResolvedStrategy) (qname : CanonicalDomain)
    (ordinal : nat) (rule : ResolvedStrategyRule) : result PolicyError (option RuleOutcome) :=
  match sr_hosts rule with
  | Some resource =>
    index ← ok_or (PE_HostsResourceNotFound resource) (pi_hosts p !! resource);
    Ok (match lookup_hosts index qname with
        | Some _ => Some (Some resource,
            Some (mk_matched (st_id s) (Some ordinal) (MK_Hosts resource)),
            st_default_upstream s, sr_ecs rule)
        | None => None
        end)
  | None =>
    match sr_rule_set rule with
    | None => Ok None
    | Some ref =>
      resource ← ok_or (PE_RuleSetNotFound (rr_resource ref)) (pi_rule_sets p !! rr_resource ref);
      index ← match rr_selector ref with
        | Some v => ok_or (PE_UnsupportedRuleSetSelector (rr_resource ref) v) (selector resource v)
        | None => if is_selector_map resource
                  then Err (PE_UnsupportedRuleSetSelector (rr_resource ref) missing_selector)
                  else Ok (own_rules resource)
        end;
      Ok (match rule_matches index qname with
          | Some m => Some (None,
              Some (mk_matched (st_id s) (Some ordinal) (MK_RuleSet (rr_resource ref) m)),
              default (st_default_upstream s) (sr_upstream rule), sr_ecs rule)
          | None => None
          end)
    end
  end.

Fixpoint rule_loop (p : PolicyIndex) (s : ResolvedStrategy) (qname : CanonicalDomain)
    (ordinal : nat) (rules : list ResolvedStrategyRule) :
    result PolicyError (option RuleOutcome) :=
  match rules with
  | [] => Ok None
  | r :: rules' =>
    hit ← try_rule p s qname ordinal r;
    match hit with
    | Some o => Ok (Some o)
    | None => rule_loop p s qname (S ordinal) rules'
    end
  end.

Definition evaluate_rules (p : PolicyIndex) (routing : RouteSelection) (s : ResolvedStrategy)
    (qname : option CanonicalDomain) (inherited : ResolvedEcs) : result PolicyError RuleOutcome :=
  let dflt : RuleOutcome := (None, None, st_default_upstream s, inherited) in
  match qname with
  | None => Ok dflt
  | Some qname =>
    local ← match rs_listener_hosts routing with
      | Some resource =>
        index ← ok_or (PE_HostsResourceNotFound resource) (pi_hosts p !! resource);
        Ok (match lookup_hosts index qname with Some _ => Some resource | None => None end)
      | None => Ok None
      end;
    match local with
    | Some resource =>
      Ok (Some resource, Some (mk_matched (st_id s) None (MK_ListenerHosts resource)),
          st_default_upstream s, inherited)
    | None =>
      hit ← rule_loop p s qname 0 (st_rules s);
      Ok (default dflt hit)
    end
  end.

Definition select_ecs (strategy_ecs : ResolvedEcs) (client : option ResolvedClient)
    (upstream_ecs : option ResolvedEcs) : ResolvedEcs :=
  if bool_decide (ecs_source strategy_ecs = VS_Rule) ||
     bool_decide (ecs_source strategy_ecs = VS_Strategy) then strategy_ecs
  else match client with
  | Some c => if bool_decide (ecs_source (rc_ecs c) = VS_Client) then rc_ecs c
              else default strategy_ecs upstream_ecs
  | None => default strategy_ecs upstream_ecs
  end.

Definition evaluate_route (p : PolicyIndex) (c : PolicyContext) (qname : option CanonicalDomain) :
    result PolicyError RouteDecision :=
  '(hosts, matched, upstream, ecs) ←
    evaluate_rules p (pc_routing c) (pc_strategy c) qname (st_ecs (pc_strategy c));
  Ok (mk_decision upstream (select_ecs ecs (pc_client_config c) (pi_upstream_ecs p !! upstream))
        hosts matched).

Definition evaluate (p : PolicyIndex) (r : PolicyRequest) : result PolicyError ResolutionPlan :=
  c ← prepare_context p r;
  d ← evaluate_route p c (pr_qname r);
  Ok (into_resolution_plan c d).

End Policy.

(** ** The indexes mirror the configuration *)

Section PlanInv.
Context {IN : IpNetOps} {HN : HickoryName}.
Implicit Types (m : gmap string ResolvedStrategy).

(** Every strategy is stored under its own identifier. *)
Definition strategies_keyed m (l : list ResolvedStrategy) : Prop :=
  forall id s, m !! id = Some s -> st_id s = id /\ s ∈ l.

Lemma strategy_loop_keyed seen m l m' :
  strategies_keyed m seen -> strategy_loop m l = Ok m' ->
  strategies_keyed m' (seen ++ l) /\ (forall s, s ∈ l -> m' !! st_id s = Some s) /\ m ⊆ m'.
Proof.
  revert seen m. induction l as [|s l IH]; intros seen m Hm; cbn [strategy_loop].
  { intros [= <-]. rewrite app_nil_r. split_and!; [done|set_solver|done]. }
  case_bool_decide as Hd; [done|]. intros H. apply eq_None_not_Some in Hd.
  apply (IH (seen ++ [s])) in H as (Hk & Hin & Hsub).
  - rewrite <-app_assoc in Hk. split_and!; [done| |].
    + intros x [->|Hx]%elem_of_cons; [|by apply Hin].
      eapply lookup_weaken; [|done]. by rewrite lookup_insert_eq.
    + etrans; [|done]. by apply insert_subseteq.
  - intros id x. destruct (decide (id = st_id s)) as [->|Hne].
    + rewrite lookup_insert_eq. intros [= <-]. split; [done|set_solver].
    + rewrite lookup_insert_ne by done. intros [? ?]%Hm. split; [done|set_solver].
Qed.

Lemma StrategyIndex_build_keyed l m :
  StrategyIndex_build l = Ok m ->
  strategies_keyed m l /\ forall s, s ∈ l -> m !! st_id s = Some s.
Proof.
  intros H. destruct (strategy_loop_keyed [] ∅ l m) as (? & ? & _); [|done|done].
  intros id s. by rewrite lookup_empty.
Qed.

Lemma ensure_strategy_ok m listener s u :
  ensure_strategy m listener s = Ok u -> is_Some (m !! s).
Proof. unfold ensure_strategy. by case_bool_decide. Qed.

Lemma RoutePattern_new_template t p : RoutePattern_new t = Ok p -> template p = t.
Proof.
  unfold RoutePattern_new, map_err. destruct (pattern_new t) as [q|] eqn:E; [|done].
  intros [= ->]. by apply pattern_new_ok in E as [? _].
Qed.

(** The compiled routes are the configured ones, under their paths. *)
Lemma compile_routes_spec m listener compiled routes compiled' :
  compile_routes m listener compiled routes = Ok compiled' ->
  compiled ⊆ compiled' /\
  (forall r, r ∈ routes ->
     compiled' !! dr_path r = Some (dr_strategy r) /\ is_Some (m !! dr_strategy r)) /\
  (forall path s, compiled' !! path = Some s ->
     compiled !! path = Some s \/ exists r, r ∈ routes /\ dr_path r = path /\ dr_strategy r = s).
Proof.
  revert compiled. induction routes as [|r routes IH]; intros compiled; cbn [compile_routes].
  { intros [= <-]. split_and!; [done|set_solver|auto]. }
  intros H. inv_ok. apply ensure_strategy_ok in H0. apply RoutePattern_new_template in H1.
  rewrite H1 in H. case_bool_decide as Hd; [done|]. apply eq_None_not_Some in Hd.
  apply IH in H as (Hsub & Hin & Hout).
  split_and!.
  - etrans; [|done]. by apply insert_subseteq.
  - intros x [->|Hx]%elem_of_cons; [|by apply Hin]. split; [|done].
    eapply lookup_weaken; [|done]. by rewrite lookup_insert_eq.
  - intros path s [Hc|(x & ? & ? & ?)]%Hout; [|right; set_solver].
    apply lookup_insert_Some in Hc as [[<- <-]|[_ ?]]; [right|by left].
    exists r. set_solver.
Qed.

Lemma listener_loop_spec m index l index' :
  listener_loop m index l = Ok index' ->
  index ⊆ index' /\
  (forall x, x ∈ l -> exists id routes, listener_routes m x = Ok (id, routes) /\
     index' !! id = Some routes) /\
  (forall id routes, index' !! id = Some routes ->
     index !! id = Some routes \/ exists x, x ∈ l /\ listener_routes m x = Ok (id, routes)).
Proof.
  revert index. induction l as [|x l IH]; intros index; cbn [listener_loop].
  { intros [= <-]. split_and!; [done|set_solver|auto]. }
  intros H. inv_ok. destruct a as [id routes]. case_bool_decide as Hd; [done|].
  apply eq_None_not_Some in Hd. apply IH in H as (Hsub & Hin & Hout). split_and!.
  - etrans; [|done]. by apply insert_subseteq.
  - intros y [->|Hy]%elem_of_cons; [|by apply Hin]. exists id, routes. split; [done|].
    eapply lookup_weaken; [|done]. by rewrite lookup_insert_eq.
  - intros id' r' [Hc|(y & ? & ?)]%Hout; [|right; set_solver].
    apply lookup_insert_Some in Hc as [[<- <-]|[_ ?]]; [right|by left].
    exists x. set_solver.
Qed.

(** What the configuration says about the listener and route of a request. *)
Definition routed_to (l : ResolvedListener) (listener : string) (route : option (list Z))
    (strategy : string) (hosts : option string) : Prop :=
  match l, route with
  | Udp id s h, None | Tcp id s h, None => id = listener /\ s = strategy /\ h = hosts
  | Doh id routes, Some path =>
      id = listener /\ hosts = None /\
      exists r, r ∈ routes /\ dr_path r = path /\ dr_strategy r = strategy
  | _, _ => False
  end.

(** The compiled entry of a listener. *)
Lemma listener_routes_stream m x id s h :
  listener_routes m x = Ok (id, LR_Stream s h) <->
  routed_to x id None s h /\ is_Some (m !! s).
Proof.
  unfold listener_routes, ensure_strategy. destruct x as [i s' h'|i s' h'|i rs]; cbn.
  1, 2: case_bool_decide; cbn; naive_solver.
  destruct (compile_routes m i ∅ rs); cbn; naive_solver.
Qed.

Lemma listener_routes_doh m x id routes :
  listener_routes m x = Ok (id, LR_Doh routes) ->
  forall path s, routes !! path = Some s <-> routed_to x id (Some path) s None.
Proof.
  unfold listener_routes, ensure_strategy. destruct x as [i s' h'|i s' h'|i rs]; cbn.
  1, 2: by case_bool_decide.
  intros H path s. inv_ok. injection H as -> ->.
  apply compile_routes_spec in H0 as (_ & Hin & Hout). split.
  - intros [Hc|?]%Hout; [by rewrite lookup_empty in Hc|naive_solver].
  - intros (_ & _ & r & Hr & <- & <-). by apply Hin.
Qed.

Lemma listener_routes_doh_closed m x id routes path s :
  listener_routes m x = Ok (id, LR_Doh routes) -> routes !! path = Some s -> is_Some (m !! s).
Proof.
  unfold listener_routes, ensure_strategy. destruct x as [i s' h'|i s' h'|i rs]; cbn.
  1, 2: by case_bool_decide.
  intros H Hr. inv_ok. injection H as -> ->.
  apply compile_routes_spec in H0 as (_ & Hin & Hout).
  apply Hout in Hr as [Hc|(r & Hr & <- & <-)]; [by rewrite lookup_empty in Hc|by apply Hin].
Qed.

(** The route index of a configuration. *)
Record routes_inv (listeners : list ResolvedListener) (strategies : list ResolvedStrategy)
    (ri : RouteIndex) : Prop := {
  rv_keyed : strategies_keyed (ri_strategies ri) strategies;
  rv_all : forall s, s ∈ strategies -> ri_strategies ri !! st_id s = Some s;
  rv_stream : forall id s h, ri_listeners ri !! id = Some (LR_Stream s h) ->
    is_Some (ri_strategies ri !! s) /\ exists l, l ∈ listeners /\ routed_to l id None s h;
  rv_doh : forall id routes, ri_listeners ri !! id = Some (LR_Doh routes) ->
    exists l, l ∈ listeners /\ forall path s,
      (routes !! path = Some s <-> routed_to l id (Some path) s None) /\
      (routes !! path = Some s -> is_Some (ri_strategies ri !! s));
  rv_listener : forall l id route s h, l ∈ listeners -> routed_to l id route s h ->
    match route with
    | None => ri_listeners ri !! id = Some (LR_Stream s h)
    | Some path => exists routes, ri_listeners ri !! id = Some (LR_Doh routes) /\
        routes !! path = Some s
    end
}.

Lemma RouteIndex_build_inv listeners strategies ri :
  RouteIndex_build listeners strategies = Ok ri -> routes_inv listeners strategies ri.
Proof.
  unfold RouteIndex_build, map_err. destruct (StrategyIndex_build strategies) as [m|] eqn:Es; [|done].
  intros H. cbn in H. inv_ok. subst ri. apply StrategyIndex_build_keyed in Es as [Hk Hall].
  apply listener_loop_spec in H0 as (_ & Hin & Hout).
  assert (Hex : forall id routes, a !! id = Some routes ->
    exists x, x ∈ listeners /\ listener_routes m x = Ok (id, routes)).
  { intros id routes [Hc|?]%Hout; [by rewrite lookup_empty in Hc|done]. }
  split; cbn; [done|done| | |].
  - intros id s h (x & Hx & [? ?]%listener_routes_stream)%Hex. eauto.
  - intros id routes (x & Hx & Hr)%Hex. exists x. split; [done|]. intros path s.
    split; [by eapply listener_routes_doh|by eapply listener_routes_doh_closed].
  - intros l id route s h Hl Hr. destruct (Hin l Hl) as (id' & routes & Hlr & Hid).
    destruct routes as [s' h'|routes].
    + apply listener_routes_stream in Hlr as [Hrt _].
      destruct l, route; cbn in Hr, Hrt; naive_solver.
    + destruct route as [path|]; [|by destruct l; cbn in Hlr; inv_ok].
      assert (id' = id) as ->.
      { destruct l; cbn in Hr, Hlr; [done|done|]. inv_ok. naive_solver. }
      exists routes. split; [done|].
      destruct h; [by destruct l; cbn in Hr; naive_solver|].
      by apply (listener_routes_doh m l id).
Qed.

(** A route selection is what the configuration says, and succeeds whenever the
    configuration says something. *)
Lemma select_routing_ok listeners strategies p r sel :
  routes_inv listeners strategies (pi_routes p) -> select_routing p r = Ok sel ->
  rs_listener_id sel = pr_listener_id r /\ rs_strategy sel ∈ strategies /\
  exists l, l ∈ listeners /\
    routed_to l (pr_listener_id r) (pr_doh_route_id r) (st_id (rs_strategy sel))
      (rs_listener_hosts sel).
Proof.
  intros [Hk _ Hstream Hdoh _]. unfold select_routing, select_stream, select_doh.
  destruct (pr_doh_route_id r) as [path|];
    destruct (ri_listeners (pi_routes p) !! pr_listener_id r) as [[s h|routes]|] eqn:El; try done.
  - intros H. inv_ok. apply bind_Some in H as (s & Hs & (st & Hst & [= <-])%bind_Some). cbn.
    apply Hk in Hst as [Hid Hin]. destruct (Hdoh _ _ El) as (l & Hl & Hr). split_and!; [done|done|].
    exists l. split; [done|]. rewrite Hid. by apply Hr.
  - unfold map_err. destruct (ri_strategies (pi_routes p) !! s) as [st|] eqn:Est; cbn; [|done].
    intros [= <-]. cbn. apply Hk in Est as [Hid Hin]. apply Hstream in El as (_ & l & Hl & Hr).
    split_and!; [done|done|]. exists l. by rewrite Hid.
Qed.

Lemma select_routing_err listeners strategies p r e :
  routes_inv listeners strategies (pi_routes p) -> select_routing p r = Err e ->
  e = PE_RouteNotFound (pr_listener_id r) (pr_doh_route_id r) /\
  forall l s h, l ∈ listeners -> ~ routed_to l (pr_listener_id r) (pr_doh_route_id r) s h.
Proof.
  intros [Hk _ Hstream Hdoh Hl] H. split.
  { revert H. unfold select_routing, map_err, ok_or. destruct (pr_doh_route_id r).
    - by destruct (select_doh _ _ _); [|intros [= <-]].
    - by destruct (select_stream _ _); [|intros [= <-]]. }
  intros l s h Hin Hr. pose proof (Hl _ _ _ _ _ Hin Hr) as Hi. revert H.
  unfold select_routing, select_stream, select_doh. destruct (pr_doh_route_id r) as [path|].
  - destruct Hi as (routes & Hi & Hp). rewrite Hi. destruct (Hdoh _ _ Hi) as (l' & _ & Hr').
    destruct (proj2 (Hr' path s) Hp) as [st Hst]. rewrite Hp. cbn. by rewrite Hst.
  - rewrite Hi. apply Hstream in Hi as [[st Hst] _]. by rewrite Hst.
Qed.
End PlanInv.

(** ** Evaluation *)

Section PlanSpec.
Context {IN : IpNetOps} {HN : HickoryName} (sha256 : list byte -> list byte).

Lemma client_config_loop_spec m l m' :
  client_config_loop m l = Ok m' ->
  forall id c, m' !! id = Some c -> m !! id = Some c \/ (c ∈ l /\ rc_name c = id).
Proof.
  revert m. induction l as [|x l IH]; intros m; cbn [client_config_loop].
  { intros [= <-]. auto. }
  case_bool_decide as Hd; [done|]. intros H id c Hc. destruct (IH _ H id c Hc) as [Hi|[? ?]].
  - apply lookup_insert_Some in Hi as [[<- <-]|[_ ?]]; [right|by left]. set_solver.
  - right. set_solver.
Qed.

Lemma validate_refs_ok indexes rules rule ref :
  validate_refs indexes rules = Ok tt -> rule ∈ rules -> sr_rule_set rule = Some ref ->
  validate_rule_ref indexes ref = Ok tt.
Proof.
  induction rules as [|x rules IH]; cbn [validate_refs]; [set_solver|].
  intros H [<-|Hin]%elem_of_cons Hs; [|apply IH; try done].
  - rewrite Hs in H. inv_ok. by destruct a.
  - destruct (sr_rule_set x); cbn in H; inv_ok; by destruct a || done.
Qed.

(** References of the configuration that its validation checks (config/validate.rs,
    [validate_references]). *)
Record links_ok (listeners : list ResolvedListener) (strategies : list ResolvedStrategy)
    (clients : list ResolvedClient) (hosts : gmap string HostsIndex)
    (rule_sets : gmap string RuleResource) : Prop := {
  lk_listener : forall l id s h, l ∈ listeners -> routed_to l id None s (Some h) ->
    is_Some (hosts !! h);
  lk_hosts : forall s rule h, s ∈ strategies -> rule ∈ st_rules s -> sr_hosts rule = Some h ->
    is_Some (hosts !! h);
  lk_rule_set : forall s rule ref, s ∈ strategies -> rule ∈ st_rules s ->
    sr_rule_set rule = Some ref -> is_Some (rule_sets !! rr_resource ref);
  lk_client : forall c id, c ∈ clients -> rc_strategy c = Some id ->
    exists s, s ∈ strategies /\ st_id s = id
}.

(** The policy index of a configuration. *)
Record policy_inv (listeners : list ResolvedListener) (strategies : list ResolvedStrategy)
    (clients : list ResolvedClient) (p : PolicyIndex) : Prop := {
  pv_routes : routes_inv listeners strategies (pi_routes p);
  pv_clients : forall id c, pi_client_configs p !! id = Some c -> c ∈ clients /\ rc_name c = id;
  pv_refs : forall s rule ref, s ∈ strategies -> rule ∈ st_rules s ->
    sr_rule_set rule = Some ref -> validate_rule_ref (pi_rule_sets p) ref = Ok tt
}.

Lemma policy_from_indexes_inv listeners strategies clients upstreams global hosts rule_sets p :
  policy_from_indexes listeners strategies clients upstreams global hosts rule_sets = Ok p ->
  policy_inv listeners strategies clients p /\ pi_hosts p = hosts /\ pi_rule_sets p = rule_sets.
Proof.
  unfold policy_from_indexes, build_with_resources, map_err. intros H. inv_ok. destruct a.
  destruct (RouteIndex_build listeners strategies) as [ri|] eqn:Er; [|done]. cbn in H.
  inv_ok. destruct (build _) as [ci|]; [|done]. cbn in H. inv_ok. subst p. split; [|done].
  split; cbn.
  - subst. by apply RouteIndex_build_inv.
  - intros id c Hc. eapply client_config_loop_spec in H2 as [Hi|?]; [|done|done].
    by rewrite lookup_empty in Hi.
  - intros s rule ref Hs Hr. apply (validate_refs_ok _ _ rule ref H0).
    apply list_elem_of_bind. by exists s.
Qed.

(** The rules a reference denotes. *)
Definition rules_of (p : PolicyIndex) (ref : ResolvedRuleSetRef) : option RuleIndex :=
  resource ← pi_rule_sets p !! rr_resource ref;
  match rr_selector ref with
  | Some v => selector resource v
  | None => Some (own_rules resource)
  end.

(** A strategy rule that applies to a name, and what it reports. *)
Inductive applies (p : PolicyIndex) (q : CanonicalDomain) (rule : ResolvedStrategyRule) :
    MatchedRuleKind -> Prop :=
| applies_hosts h idx : sr_hosts rule = Some h -> pi_hosts p !! h = Some idx ->
    is_Some (lookup_hosts idx q) -> applies p q rule (MK_Hosts h)
| applies_rule_set ref idx m : sr_hosts rule = None -> sr_rule_set rule = Some ref ->
    rules_of p ref = Some idx -> rule_matches idx q = Some m ->
    applies p q rule (MK_RuleSet (rr_resource ref) m).

(** The outcome of the rule at [ordinal] when it applies. *)
Definition rule_outcome (s : ResolvedStrategy) (ordinal : nat) (rule : ResolvedStrategyRule)
    (kind : MatchedRuleKind) : option string * option MatchedRule * string * ResolvedEcs :=
  (match kind with MK_Hosts h => Some h | _ => None end,
   Some (mk_matched (st_id s) (Some ordinal) kind),
   match kind with
   | MK_RuleSet _ _ => default (st_default_upstream s) (sr_upstream rule)
   | _ => st_default_upstream s
   end,
   sr_ecs rule).

Lemma try_rule_hit p s q i rule o :
  try_rule p s q i rule = Ok (Some o) ->
  exists kind, applies p q rule kind /\ o = rule_outcome s i rule kind.
Proof.
  unfold try_rule. destruct (sr_hosts rule) as [h|] eqn:Eh.
  - intros H. inv_ok. destruct (lookup_hosts a q) eqn:El; [|done]. injection H as <-.
    exists (MK_Hosts h). split; [by eapply applies_hosts; eauto|done].
  - destruct (sr_rule_set rule) as [ref|] eqn:Er; [|done]. intros H. inv_ok.
    destruct (rule_matches a0 q) eqn:Em; [|done]. injection H as <-.
    exists (MK_RuleSet (rr_resource ref) r). split; [|done].
    eapply applies_rule_set; try done. unfold rules_of. rewrite H0. cbn.
    destruct (rr_selector ref); [by apply ok_or_ok in H1|]. destruct (is_selector_map a); [done|].
    by inv_ok; subst.
Qed.

Lemma try_rule_miss p s q i rule kind :
  try_rule p s q i rule = Ok None -> ~ applies p q rule kind.
Proof.
  unfold try_rule. intros H Ha. destruct Ha as [h idx Eh Ei [x Hx]|ref idx m Eh Er Ei Em];
    rewrite Eh in H.
  - rewrite Ei in H. cbn in H. by rewrite Hx in H.
  - rewrite Er in H. unfold rules_of in Ei. apply bind_Some in Ei as (res & Eres & Ei).
    rewrite Eres in H. cbn in H.
    destruct (rr_selector ref) as [v|].
    + rewrite Ei in H. cbn in H. by rewrite Em in H.
    + injection Ei as <-. destruct (is_selector_map res); [done|]. cbn in H. by rewrite Em in H.
Qed.

Lemma rule_loop_spec p s q n rules res :
  rule_loop p s q n rules = Ok res ->
  match res with
  | Some o => exists i rule kind, rules !! i = Some rule /\ applies p q rule kind /\
      o = rule_outcome s (n + i) rule kind /\
      forall j r k, (j < i)%nat -> rules !! j = Some r -> ~ applies p q r k
  | None => forall j r k, rules !! j = Some r -> ~ applies p q r k
  end.
Proof.
  revert n. induction rules as [|r rules IH]; intros n; cbn [rule_loop].
  { by intros [= <-]. }
  intros H. inv_ok. destruct a as [o|].
  - inv_ok. subst res. apply try_rule_hit in H0 as (kind & Ha & ->).
    exists 0%nat, r, kind. rewrite Nat.add_0_r. split_and!; [done..|lia].
  - apply IH in H. destruct res as [o|].
    + destruct H as (i & rule & kind & Hi & Ha & -> & Hmin). exists (S i), rule, kind.
      rewrite <-Nat.add_succ_comm. split_and!; [done..|].
      intros [|j] r' k Hj Hr; [injection Hr as <-; by eapply try_rule_miss|].
      eapply Hmin; [|done]. lia.
    + intros [|j] r' k Hr; [injection Hr as <-; by eapply try_rule_miss|by eapply H].
Qed.

(** ** The decision of a strategy, declaratively *)

Definition listener_hit (p : PolicyIndex) (sel : RouteSelection) (q : CanonicalDomain)
    (h : string) : Prop :=
  rs_listener_hosts sel = Some h /\
  exists idx, pi_hosts p !! h = Some idx /\ is_Some (lookup_hosts idx q).

Inductive decided (p : PolicyIndex) (sel : RouteSelection) (s : ResolvedStrategy)
    (q : CanonicalDomain) : option string * option MatchedRule * string * ResolvedEcs -> Prop :=
| decided_listener h : listener_hit p sel q h ->
    decided p sel s q (Some h, Some (mk_matched (st_id s) None (MK_ListenerHosts h)),
      st_default_upstream s, st_ecs s)
| decided_rule i rule kind :
    (forall h, ~ listener_hit p sel q h) -> st_rules s !! i = Some rule -> applies p q rule kind ->
    (forall j r k, (j < i)%nat -> st_rules s !! j = Some r -> ~ applies p q r k) ->
    decided p sel s q (rule_outcome s i rule kind)
| decided_default :
    (forall h, ~ listener_hit p sel q h) ->
    (forall j r k, st_rules s !! j = Some r -> ~ applies p q r k) ->
    decided p sel s q (None, None, st_default_upstream s, st_ecs s).

Lemma applies_functional p q rule k1 k2 : applies p q rule k1 -> applies p q rule k2 -> k1 = k2.
Proof. intros [] []; congruence. Qed.

Lemma decided_functional p sel s q o1 o2 :
  decided p sel s q o1 -> decided p sel s q o2 -> o1 = o2.
Proof.
  intros [h1 H1|i1 r1 k1 N1 E1 A1 M1|N1 M1] [h2 H2|i2 r2 k2 N2 E2 A2 M2|N2 M2];
    try done; try (by exfalso; naive_solver).
  - destruct H1 as [E1 _], H2 as [E2 _]. congruence.
  - assert (i1 = i2) as ->.
    { destruct (lt_eq_lt_dec i1 i2) as [[?|?]|?]; [|done|]; exfalso; naive_solver. }
    assert (r1 = r2) as -> by congruence. by rewrite (applies_functional _ _ _ _ _ A1 A2).
Qed.

Lemma evaluate_rules_decided p sel s q o :
  evaluate_rules p sel s (Some q) (st_ecs s) = Ok o -> decided p sel s q o.
Proof.
  unfold evaluate_rules. intros H. apply bind_ok in H as (local & Hl & H).
  assert (Hloc : match local with
    | Some h => listener_hit p sel q h
    | None => forall h, ~ listener_hit p sel q h end).
  { unfold listener_hit. destruct (rs_listener_hosts sel) as [h|] eqn:Eh.
    - inv_ok. destruct (lookup_hosts a q) eqn:El; inv_ok; subst local; [naive_solver|].
      intros h' ([= <-] & idx & Hi & [x Hx]). congruence.
    - inv_ok. subst local. by intros ? [? _]. }
  destruct local as [h|]; [apply Ok_inj in H as <-; by apply decided_listener|].
  apply bind_ok in H as (hit & Hr & H). apply Ok_inj in H as <-.
  apply rule_loop_spec in Hr. destruct hit as [o|]; cbn.
  - destruct Hr as (i & rule & kind & Hi & Ha & -> & Hmin). by apply decided_rule.
  - by apply decided_default.
Qed.

(** The configuration of a matched client. *)
Definition client_config_of (p : PolicyIndex) (m : ClientMatch) : option ResolvedClient :=
  match m with Matched c _ => pi_client_configs p !! client_name c | Unknown => None end.

Lemma prepare_context_ok p r c :
  prepare_context sha256 p r = Ok c ->
  exists sel, select_routing p r = Ok sel /\ pc_routing c = sel /\
    pc_listener_id c = rs_listener_id sel /\
    pc_client c = match_client (pi_clients p) (pr_client_id r) (pr_client_addr r) /\
    pc_client_config c = client_config_of p (pc_client c) /\
    match pc_client_config c ≫= rc_strategy with
    | Some id => ri_strategies (pi_routes p) !! id = Some (pc_strategy c)
    | None => pc_strategy c = rs_strategy sel
    end /\
    select_cache p (pc_client_config c) (pc_strategy c)
      (match pr_client_digest r with
       | Some d => Some d
       | None => cache_digest sha256 (pc_client c) (pr_client_id r) (pr_client_addr r)
       end) = Ok (pc_cache c).
Proof.
  unfold prepare_context. intros H. apply bind_ok in H as (sel & Hsel & H).
  fold (client_config_of p (match_client (pi_clients p) (pr_client_id r) (pr_client_addr r))) in H.
  set (m := match_client _ _ _) in *. set (cfg := client_config_of p m) in *.
  apply bind_ok in H as (s & Hs & H). apply bind_ok in H as (cache & Hc & H).
  apply Ok_inj in H as <-. cbn. exists sel. split_and!; try done.
  destruct cfg as [c|]; cbn; [|by inv_ok]. destruct (rc_strategy c); by inv_ok.
Qed.

(** The plan of a request is decided by the strategy in effect: the listener's
    hosts file first, then the first rule in configured order that applies to the
    name, otherwise the default upstream. The ECS setting comes from the deciding
    rule or the strategy if it is set there, else from the client, else from the
    chosen upstream. *)
Theorem evaluate_first_match p r q plan :
  pr_qname r = Some q -> evaluate sha256 p r = Ok plan ->
  exists sel ecs, select_routing p r = Ok sel /\
    (forall o, decided p sel (rp_strategy plan) q o <->
      o = (rp_hosts plan, rp_matched_rule plan, rp_upstream plan, ecs)) /\
    rp_ecs plan =
      (if bool_decide (ecs_source ecs ∈ [VS_Rule; VS_Strategy]) then ecs
       else match client_config_of p (rp_client plan) with
            | Some c => if bool_decide (ecs_source (rc_ecs c) = VS_Client) then rc_ecs c
                        else default ecs (pi_upstream_ecs p !! rp_upstream plan)
            | None => default ecs (pi_upstream_ecs p !! rp_upstream plan)
            end).
Proof.
  intros Hq H. unfold evaluate in H. apply bind_ok in H as (c & Hc & H).
  apply bind_ok in H as (d & Hd & H). apply Ok_inj in H as <-. cbn.
  apply prepare_context_ok in Hc as (sel & Hsel & Hrt & _ & _ & Hcfg & _).
  unfold evaluate_route in Hd. rewrite Hq, Hrt in Hd.
  apply bind_ok in Hd as ([[[hosts matched] upstream] ecs] & Ho & Hd). apply Ok_inj in Hd as <-.
  exists sel, ecs. split; [done|]. cbn. apply evaluate_rules_decided in Ho. split.
  - intros o. split; [by intros ?%(decided_functional _ _ _ _ _ _ Ho)|by intros ->].
  - unfold select_ecs. rewrite <-Hcfg.
    assert (bool_decide (ecs_source ecs = VS_Rule) || bool_decide (ecs_source ecs = VS_Strategy) =
      bool_decide (ecs_source ecs ∈ [VS_Rule; VS_Strategy])) as ->; [|done].
    destruct (ecs_source ecs); by vm_compute.
Qed.

(** ** Evaluation cannot fail on linked references *)

Lemma validate_rule_ref_selects p ref res :
  validate_rule_ref (pi_rule_sets p) ref = Ok tt -> pi_rule_sets p !! rr_resource ref = Some res ->
  match rr_selector ref with
  | Some v => is_Some (selector res v)
  | None => is_selector_map res = false
  end.
Proof.
  unfold validate_rule_ref. intros H Hr. rewrite Hr in H.
  destruct (rr_selector ref); destruct (is_selector_map res); try done. by case_bool_decide.
Qed.

Lemma try_rule_total p s q i rule :
  (forall h, sr_hosts rule = Some h -> is_Some (pi_hosts p !! h)) ->
  (forall ref, sr_rule_set rule = Some ref ->
     validate_rule_ref (pi_rule_sets p) ref = Ok tt /\ is_Some (pi_rule_sets p !! rr_resource ref)) ->
  is_ok (try_rule p s q i rule) = true.
Proof.
  intros Hh Hr. unfold try_rule. destruct (sr_hosts rule) as [h|].
  { destruct (Hh h eq_refl) as [idx ->]. done. }
  destruct (sr_rule_set rule) as [ref|]; [|done].
  destruct (Hr ref eq_refl) as [Hv [res Hres]]. pose proof (validate_rule_ref_selects _ _ _ Hv Hres).
  rewrite Hres. cbn. destruct (rr_selector ref) as [v|].
  - destruct H as [idx ->]. done.
  - by rewrite H.
Qed.

Lemma rule_loop_total p s q n rules :
  (forall i rule, rule ∈ rules -> is_ok (try_rule p s q i rule) = true) ->
  is_ok (rule_loop p s q n rules) = true.
Proof.
  revert n. induction rules as [|r rules IH]; intros n H; cbn [rule_loop]; [done|].
  pose proof (H n r ltac:(set_solver)) as Hr.
  destruct (try_rule p s q n r) as [[o|]|]; [done| |done]. apply IH. set_solver.
Qed.

Lemma is_ok_Ok {E A} (x : result E A) : is_ok x = true -> exists a, x = Ok a.
Proof. destruct x; [eauto|done]. Qed.

Lemma evaluate_rules_total p listeners strategies clients hosts rule_sets sel s q ecs :
  policy_inv listeners strategies clients p -> pi_hosts p = hosts -> pi_rule_sets p = rule_sets ->
  links_ok listeners strategies clients hosts rule_sets -> s ∈ strategies ->
  (forall h, rs_listener_hosts sel = Some h -> is_Some (hosts !! h)) ->
  is_ok (evaluate_rules p sel s q ecs) = true.
Proof.
  intros [_ _ Hrefs] <- <- [_ Hlh Hlr _] Hs Hsel. unfold evaluate_rules.
  destruct q as [q|]; [|done].
  destruct (is_ok_Ok (rule_loop p s q 0 (st_rules s))) as [hit Hhit].
  { apply rule_loop_total. intros i rule Hin. apply try_rule_total; eauto. }
  destruct (rs_listener_hosts sel) as [h|]; cbn.
  - destruct (Hsel h eq_refl) as [idx ->]. cbn. destruct (lookup_hosts idx q); [done|].
    by rewrite Hhit.
  - by rewrite Hhit.
Qed.

(** The only way to choose no cache pool for a request is an identifier that
    cannot name one. *)
Lemma select_cache_err p client s digest e :
  select_cache p client s digest = Err e ->
  e = PE_CacheStrategyIdInvalid (st_id s) /\
  is_ok (CacheStrategyId_from_validated_config_id (st_id s)) = false.
Proof.
  unfold select_cache, strategy_namespace, map_err.
  destruct (client ≫= rc_cache) as [cache|]; [|destruct (st_cache s) as [cache|]].
  - destruct (co_enabled cache); [|done]. destruct digest; [|done]. cbn.
    destruct (CacheStrategyId_from_validated_config_id (st_id s)); [done|]. by intros [= <-].
  - destruct (co_enabled cache); [|done]. cbn.
    destruct (CacheStrategyId_from_validated_config_id (st_id s)); [done|]. by intros [= <-].
  - by destruct (gc_enabled _).
Qed.

Lemma prepare_context_err listeners strategies clients p r e :
  policy_inv listeners strategies clients p ->
  (forall c id, c ∈ clients -> rc_strategy c = Some id -> exists s, s ∈ strategies /\ st_id s = id) ->
  prepare_context sha256 p r = Err e ->
  (e = PE_RouteNotFound (pr_listener_id r) (pr_doh_route_id r) /\
   forall l s h, l ∈ listeners -> ~ routed_to l (pr_listener_id r) (pr_doh_route_id r) s h) \/
  (exists s, s ∈ strategies /\ e = PE_CacheStrategyIdInvalid (st_id s) /\
   is_ok (CacheStrategyId_from_validated_config_id (st_id s)) = false).
Proof.
  intros Hp Hcl. unfold prepare_context. pose proof (pv_routes _ _ _ _ Hp) as Hr.
  destruct (select_routing p r) as [sel|e'] eqn:Esel; cbn.
  2:{ intros [= <-]. left. by eapply select_routing_err. }
  destruct (select_routing_ok _ _ _ _ _ Hr Esel) as (_ & Hsin & _).
  fold (client_config_of p (match_client (pi_clients p) (pr_client_id r) (pr_client_addr r))).
  set (m := match_client _ _ _). set (cfg := client_config_of p m).
  assert (Hs : exists s, s ∈ strategies /\
    match cfg with
    | Some c => match rc_strategy c with
        | Some s => ok_or (PE_ClientStrategyNotFound (rc_name c) s) (ri_strategies (pi_routes p) !! s)
        | None => Ok (rs_strategy sel)
        end
    | None => Ok (rs_strategy sel)
    end = Ok s).
  { destruct cfg as [c|] eqn:Ec; [|eauto]. destruct (rc_strategy c) as [id|] eqn:Eid; [|eauto].
    assert (c ∈ clients).
    { subst cfg. unfold client_config_of in Ec. destruct m; [|done].
      by apply (pv_clients _ _ _ _ Hp) in Ec as [? _]. }
    destruct (Hcl c id) as (s & Hin & <-); [done|done|]. exists s. split; [done|].
    by rewrite (rv_all _ _ _ Hr s Hin). }
  destruct Hs as (s & Hin & ->). cbn.
  destruct (select_cache _ _ _ _) as [|e'] eqn:Ec; [done|]. cbn. intros [= <-].
  apply select_cache_err in Ec as [-> ?]. right. eauto.
Qed.

(** Over a configuration whose references are linked, planning a request
    fails in two cases only: no listener (or DoH route) of the configuration has
    the request's identifiers, or the strategy in effect has an identifier that
    cannot name a cache pool. Every other request gets a plan under a configured
    strategy. *)
Theorem evaluate_total listeners strategies clients upstreams global hosts rule_sets p r :
  policy_from_indexes listeners strategies clients upstreams global hosts rule_sets = Ok p ->
  links_ok listeners strategies clients hosts rule_sets ->
  match evaluate sha256 p r with
  | Ok plan => rp_strategy plan ∈ strategies /\
      exists l s h, l ∈ listeners /\ routed_to l (pr_listener_id r) (pr_doh_route_id r) s h
  | Err e =>
      (e = PE_RouteNotFound (pr_listener_id r) (pr_doh_route_id r) /\
       forall l s h, l ∈ listeners -> ~ routed_to l (pr_listener_id r) (pr_doh_route_id r) s h) \/
      (exists s, s ∈ strategies /\ e = PE_CacheStrategyIdInvalid (st_id s) /\
       is_ok (CacheStrategyId_from_validated_config_id (st_id s)) = false)
  end.
Proof.
  intros (Hp & Hh & Hrs)%policy_from_indexes_inv Hlk. unfold evaluate.
  destruct (prepare_context sha256 p r) as [c|e] eqn:Ec; cbn.
  2:{ eapply prepare_context_err; [done| |done]. apply (lk_client _ _ _ _ _ Hlk). }
  apply prepare_context_ok in Ec as (sel & Hsel & Hrt & _ & Hm & Hcfg & Hst & _).
  destruct (select_routing_ok _ _ _ _ _ (pv_routes _ _ _ _ Hp) Hsel) as (_ & Hsin & l & Hl & Hrl).
  assert (Hin : pc_strategy c ∈ strategies).
  { destruct (pc_client_config c ≫= rc_strategy); [|by rewrite Hst].
    by apply (rv_keyed _ _ _ (pv_routes _ _ _ _ Hp)) in Hst as [_ ?]. }
  destruct (is_ok_Ok (evaluate_rules p (pc_routing c) (pc_strategy c) (pr_qname r)
    (st_ecs (pc_strategy c)))) as [[[[h m] u] ecs] Ho].
  { eapply evaluate_rules_total; try done. rewrite Hrt. intros h Hsh.
    rewrite Hsh in Hrl. destruct (pr_doh_route_id r) as [path|] eqn:Er.
    - destruct l; cbn in Hrl; naive_solver.
    - by eapply (lk_listener _ _ _ _ _ Hlk). }
  unfold evaluate_route. rewrite Ho. cbn. split; [done|]. by exists l, (st_id (rs_strategy sel)),
    (rs_listener_hosts sel).
Qed.

(** The setting that chose a pool. *)
Lemma select_cache_namespace p client s digest d ns :
  select_cache p client s digest = Ok d -> decision_namespace d = Some ns ->
  match ns with
  | NsGlobal => client ≫= rc_cache = None /\ st_cache s = None
  | NsStrategy id => client ≫= rc_cache = None /\ strategy_id_str id = st_id s
  | NsClientStrategy dg id =>
      is_Some (client ≫= rc_cache) /\ digest = Some dg /\ strategy_id_str id = st_id s
  end.
Proof.
  unfold select_cache, strategy_namespace, CacheStrategyId_from_validated_config_id, map_err.
  destruct (client ≫= rc_cache) as [cache|]; [|destruct (st_cache s) as [cache|]].
  - destruct (co_enabled cache); [|by intros [= <-]]. destruct digest; [|by intros [= <-]]. cbn.
    destruct (validate_namespace_id _ _ _); [|done]. intros [= <-] [= <-]. cbn. eauto.
  - destruct (co_enabled cache); [|by intros [= <-]]. cbn.
    destruct (validate_namespace_id _ _ _); [|done]. by intros [= <-] [= <-].
  - destruct (gc_enabled _); [|by intros [= <-]]. by intros [= <-] [= <-].
Qed.

Lemma context_strategy listeners strategies clients p r c :
  policy_inv listeners strategies clients p -> prepare_context sha256 p r = Ok c ->
  ri_strategies (pi_routes p) !! st_id (pc_strategy c) = Some (pc_strategy c).
Proof.
  intros Hp (sel & Hsel & _ & _ & _ & _ & Hst & _)%prepare_context_ok.
  pose proof (pv_routes _ _ _ _ Hp) as Hr.
  destruct (pc_client_config c ≫= rc_strategy) as [id|].
  - by destruct (rv_keyed _ _ _ Hr _ _ Hst) as [<- _].
  - rewrite Hst. apply (rv_all _ _ _ Hr).
    by destruct (select_routing_ok _ _ _ _ _ Hr Hsel) as (_ & ? & _).
Qed.

(** Requests share a cache pool only if nothing separates them: the global
    pool is used only when neither the client nor the strategy has a cache
    setting, and two requests in any other common pool run under the same
    strategy; a client with its own cache setting shares its pool only with
    requests that carry the same client digest. *)
Theorem cache_pool_isolation listeners strategies clients p r1 r2 c1 c2 ns :
  policy_inv listeners strategies clients p ->
  prepare_context sha256 p r1 = Ok c1 -> prepare_context sha256 p r2 = Ok c2 ->
  decision_namespace (pc_cache c1) = Some ns -> decision_namespace (pc_cache c2) = Some ns ->
  let own c := pc_client_config c ≫= rc_cache in
  let digest r c := match pr_client_digest r with
    | Some d => Some d
    | None => cache_digest sha256 (pc_client c) (pr_client_id r) (pr_client_addr r)
    end in
  match ns with
  | NsGlobal => own c1 = None /\ own c2 = None /\
      st_cache (pc_strategy c1) = None /\ st_cache (pc_strategy c2) = None
  | NsStrategy _ => own c1 = None /\ own c2 = None /\ pc_strategy c1 = pc_strategy c2
  | NsClientStrategy d _ => is_Some (own c1) /\ is_Some (own c2) /\
      pc_strategy c1 = pc_strategy c2 /\ digest r1 c1 = Some d /\ digest r2 c2 = Some d
  end.
Proof.
  intros Hp H1 H2 N1 N2 own digest.
  pose proof (context_strategy _ _ _ _ _ _ Hp H1) as S1.
  pose proof (context_strategy _ _ _ _ _ _ Hp H2) as S2.
  apply prepare_context_ok in H1 as (_ & _ & _ & _ & _ & _ & _ & C1).
  apply prepare_context_ok in H2 as (_ & _ & _ & _ & _ & _ & _ & C2).
  pose proof (select_cache_namespace _ _ _ _ _ _ C1 N1) as P1.
  pose proof (select_cache_namespace _ _ _ _ _ _ C2 N2) as P2.
  destruct ns as [|id|d id]; [naive_solver| |].
  - destruct P1 as [? E1], P2 as [? E2]. rewrite <-E1 in S1. rewrite <-E2 in S2.
    split_and!; [done|done|congruence].
  - destruct P1 as (? & ? & E1), P2 as (? & ? & E2). rewrite <-E1 in S1. rewrite <-E2 in S2.
    split_and!; [done|done|congruence|done|done].
Qed.

(** Among the identifiers the configuration accepts, those that can name a
    cache pool are exactly the ones of at most 64 bytes without an exclamation
    mark: an accepted strategy outside of these fails every cached request. *)
Theorem config_id_cacheable id :
  config_id_ok id = true ->
  is_ok (CacheStrategyId_from_validated_config_id id) = true <->
  str_len id <= 64 /\ Forall (fun b => byte_to_Z b <> 33) (str_bytes id).
Proof.
  unfold config_id_ok. intros [[Hne Hmax]%negb_true_iff%orb_false_iff Hall]%andb_true_iff.
  unfold CacheStrategyId_from_validated_config_id, validate_namespace_id.
  rewrite Hne. rewrite (proj2 (Z.ltb_ge (str_len id) 1)) by
    (apply Z.eqb_neq in Hne; unfold str_len, bytes_len in *; lia).
  destruct (Z.ltb_spec 64 (str_len id)) as [Hl|Hl]; cbn; [split; [done|lia]|].
  destruct (forallb (fun b => is_ascii_alphanumeric b || is_id_punct b) _) eqn:Hf; cbn.
  - split; [intros _|done]. split; [done|]. apply list.Forall_forall. intros b Hb E.
    rewrite forallb_forall in Hf. apply list_elem_of_In, Hf in Hb.
    unfold is_ascii_alphanumeric, is_id_punct in Hb. rewrite E in Hb. by vm_compute in Hb.
  - split; [done|]. intros [_ HF]. exfalso. apply not_true_iff_false in Hf. apply Hf.
    apply forallb_forall. intros b Hb. rewrite forallb_forall in Hall.
    specialize (Hall b Hb). apply orb_true_iff in Hall as [?|E]; [done|].
    apply list_elem_of_In in Hb. apply (proj1 (list.Forall_forall _ _) HF) in Hb. lia.
Qed.
End PlanSpec.

(** ** A concrete policy *)

Section PlanWitness.

Definition plan_sha (l : list byte) : list byte := l.
Definition plan_ecs : ResolvedEcs (IN := prefix_nets) :=
  mk_ecs (IN := prefix_nets) EcsDisabled None VS_Global.
Definition plan_ttl : ResolvedTtlOverride := mk_ttl_override false None None VS_Global.
Definition plan_optimistic : ResolvedOptimistic := mk_optimistic false 0 0 0.
Definition plan_strategies : list (ResolvedStrategy (IN := prefix_nets)) :=
  [mk_strategy "home" [mk_strategy_rule None (Some "local") None plan_ecs] "cf" None plan_ttl plan_ecs].
Definition plan_listeners : list ResolvedListener := [Udp "lan" "home" None].
(** One client, the network 10.1.0.0/16, with a cache of its own. *)
Definition plan_clients : list (ResolvedClient (IN := prefix_nets)) :=
  [mk_resolved_client (IN := prefix_nets) "kids" [] [(V4 0x0A010000, 16)] None
     (Some (mk_cache_override true None VS_Client)) plan_ttl plan_ecs].
Definition plan_hosts : gmap string HostsIndex := {[ "local" := sample_hosts ]}.
Definition plan_name : CanonicalDomain := mk_domain (lit "a.b.example").
Definition plan_request (addr : IpAddr) : PolicyRequest :=
  mk_request "lan" None None (Some addr) None (Some plan_name).

Definition plan_build : result PolicyBuildError (PolicyIndex (IN := prefix_nets)) :=
  policy_from_indexes plan_listeners plan_strategies plan_clients []
    (mk_global_cache true plan_optimistic) plan_hosts ∅.
Definition plan_index : PolicyIndex (IN := prefix_nets) :=
  match plan_build with
  | Ok p => p
  | Err _ => mk_policy (mk_routes ∅ ∅) empty_index ∅ ∅ (mk_global_cache true plan_optimistic) ∅ ∅
  end.

Lemma plan_build_ok : plan_build = Ok plan_index.
Proof. by vm_compute. Qed.

Lemma plan_links : links_ok plan_listeners plan_strategies plan_clients plan_hosts ∅.
Proof.
  split.
  - intros l id s h ->%list_elem_of_singleton (_ & _ & ?). done.
  - intros s rule h ->%list_elem_of_singleton ->%list_elem_of_singleton [= <-].
    exists sample_hosts. by vm_compute.
  - intros s rule ref ->%list_elem_of_singleton ->%list_elem_of_singleton ?. done.
  - intros c id ->%list_elem_of_singleton ?. done.
Qed.

Lemma evaluate_first_match_witness : exists plan,
  evaluate (HN := text_names) plan_sha plan_index (plan_request (V4 0x0A010203)) = Ok plan /\
  rp_hosts plan = Some "local" /\
  exists sel ecs, decided (HN := text_names) plan_index sel (rp_strategy plan) plan_name
    (rp_hosts plan, rp_matched_rule plan, rp_upstream plan, ecs).
Proof.
  destruct (evaluate (HN := text_names) plan_sha plan_index (plan_request (V4 0x0A010203)))
    as [plan|] eqn:E; [|by vm_compute in E].
  exists plan. split; [done|]. split.
  - assert (K : rp_hosts <$> evaluate (HN := text_names) plan_sha plan_index
      (plan_request (V4 0x0A010203)) = Ok (Some "local")) by (by vm_compute).
    rewrite E in K. by injection K.
  - destruct (evaluate_first_match (HN := text_names) plan_sha plan_index
      (plan_request (V4 0x0A010203)) plan_name plan eq_refl E) as (sel & ecs & _ & H & _).
    exists sel, ecs. by apply H.
Defined.

Lemma evaluate_total_witness :
  is_ok (evaluate (HN := text_names) plan_sha plan_index (plan_request (V4 0x0A010203))) = true /\
  exists l s h, l ∈ plan_listeners /\ routed_to l "lan" None s h.
Proof.
  pose proof (evaluate_total (HN := text_names) plan_sha plan_listeners plan_strategies plan_clients
    [] (mk_global_cache true plan_optimistic) plan_hosts ∅ plan_index
    (plan_request (V4 0x0A010203)) plan_build_ok plan_links) as H.
  assert (K : is_ok (evaluate (HN := text_names) plan_sha plan_index
    (plan_request (V4 0x0A010203))) = true) by (by vm_compute).
  split; [done|]. destruct (evaluate _ _ _); [|done]. by destruct H.
Defined.

Lemma cache_pool_isolation_witness : exists c1 c2 d,
  prepare_context plan_sha plan_index (plan_request (V4 0x0A010203)) = Ok c1 /\
  prepare_context plan_sha plan_index (plan_request (V6 0xFFFF0A010203)) = Ok c2 /\
  cache_digest plan_sha (pc_client c1) None (Some (V4 0x0A010203)) = Some d /\
  cache_digest plan_sha (pc_client c2) None (Some (V6 0xFFFF0A010203)) = Some d.
Proof.
  destruct (prepare_context plan_sha plan_index (plan_request (V4 0x0A010203))) as [c1|] eqn:E1;
    [|by vm_compute in E1].
  destruct (prepare_context plan_sha plan_index (plan_request (V6 0xFFFF0A010203)))
    as [c2|] eqn:E2; [|by vm_compute in E2].
  set (d := mk_digest (digest_prefix ++ (str_bytes "ipv4" ++ [x00]) ++ v4_octets 0x0A010203)).
  assert (N1 : decision_namespace (pc_cache c1) = Some (NsClientStrategy d (mk_strategy_id "home"))).
  { assert (K : (decision_namespace ∘ pc_cache) <$> prepare_context plan_sha plan_index
      (plan_request (V4 0x0A010203)) = Ok (Some (NsClientStrategy d (mk_strategy_id "home"))))
      by (by vm_compute).
    rewrite E1 in K. by injection K. }
  assert (N2 : decision_namespace (pc_cache c2) = Some (NsClientStrategy d (mk_strategy_id "home"))).
  { assert (K : (decision_namespace ∘ pc_cache) <$> prepare_context plan_sha plan_index
      (plan_request (V6 0xFFFF0A010203)) = Ok (Some (NsClientStrategy d (mk_strategy_id "home"))))
      by (by vm_compute).
    rewrite E2 in K. by injection K. }
  destruct (policy_from_indexes_inv _ _ _ _ _ _ _ _ plan_build_ok) as [Hp _].
  pose proof (cache_pool_isolation plan_sha plan_listeners plan_strategies plan_clients plan_index
    _ _ c1 c2 _ Hp E1 E2 N1 N2) as (_ & _ & _ & D1 & D2).
  exists c1, c2, d. by split_and!.
Defined.

Lemma config_id_cacheable_witness :
  config_id_ok "office!" = true /\
  is_ok (CacheStrategyId_from_validated_config_id "office!") = false.
Proof.
  split; [by vm_compute|]. apply not_true_iff_false. intros H.
  apply (config_id_cacheable "office!" eq_refl) in H as [_ H].
  apply (proj1 (list.Forall_forall _ _) H x21); [by vm_compute; set_solver|done].
Defined.

End PlanWitness.
