(* ===== verification/Executor.v ===== *)
(** * Execution of an upstream group (src/backend/src/upstream/executor.rs)

    Binding of connectors to the selector's members, the ordered and the parallel
    execution of a phase, and the fallback phase. What the network and the
    scheduler do is an argument of the definitions: the clock readings, the polls
    of each [select!] and the answers of the members. A future that is not ready
    at any of the polls supplied is [None]. *)

From S2P Require Import Prelude Message CacheModel Group Outcome.

(** [ConnectorId::new] (ports/exchange.rs). *)
Definition ConnectorId_new (value : string) : option ConnectorId :=
  if (str_len value =? 0) || (128 <? str_len value) then None
  else if negb (forallb (fun b => is_ascii_alphanumeric b || is_id_punct b) (str_bytes value))
  then None else Some (mk_connector value).

Inductive ExecutorBuildError :=
| EB_EmptyExchanges | EB_InvalidTimeout | EB_InvalidMemberId (index : nat)
| EB_DuplicateConnector (c : string) | EB_MissingConnector (c : string)
| EB_UnexpectedConnector (c : string).

(** A bound member: a connector, or a nested group under a connector name. *)
Inductive GroupMember := GM_Direct (c : ConnectorId) | GM_Nested (c : ConnectorId).

Definition connector_id (m : GroupMember) : ConnectorId :=
  match m with GM_Direct c | GM_Nested c => c end.

(** The phase without its selector, which is state. *)
Record ExecutionPhase := mk_phase {
  ph_exchanges : list GroupMember;
  ph_timeout : option Duration
}.

(** ** Binding *)

Fixpoint by_id_loop (m : gmap ConnectorId GroupMember) (members : list GroupMember) :
    result ExecutorBuildError (gmap ConnectorId GroupMember) :=
  match members with
  | [] => Ok m
  | x :: members' =>
    if bool_decide (is_Some (m !! connector_id x))
    then Err (EB_DuplicateConnector (connector_str (connector_id x)))
    else by_id_loop (<[connector_id x := x]> m) members'
  end.

(** The loop over the selector's members; returns the connectors left over. *)
Fixpoint bind_loop (by_id : gmap ConnectorId GroupMember) (index : nat) (members : list Member) :
    result ExecutorBuildError (list GroupMember * gmap ConnectorId GroupMember) :=
  match members with
  | [] => Ok ([], by_id)
  | m :: members' =>
    id ← ok_or (EB_InvalidMemberId index) (ConnectorId_new (member_name m));
    x ← ok_or (EB_MissingConnector (connector_str id)) (by_id !! id);
    '(ordered, rest) ← bind_loop (delete id by_id) (S index) members';
    Ok (x :: ordered, rest)
  end.

(** [ExecutionPhase::new_members]. *)
Definition new_members (g : GroupSelector) (members : list GroupMember) (timeout : option Duration) :
    result ExecutorBuildError ExecutionPhase :=
  if bool_decide (members = []) then Err EB_EmptyExchanges
  else if match timeout with Some t => is_zero t | None => false end then Err EB_InvalidTimeout
  else
    by_id ← by_id_loop ∅ members;
    '(ordered, rest) ← bind_loop by_id 0 (g_members g);
    match head (map_to_list rest) with
    | Some (id, _) => Err (EB_UnexpectedConnector (connector_str id))
    | None => Ok (mk_phase ordered timeout)
    end.

(** ** Request context *)

(** The deadline of a request and when it is cancelled, if it ever is; the reason
    is set before the token is cancelled. *)
Record Ctx := mk_ctx {
  cx_deadline : Deadline;
  cx_cancel : option (Instant * CancelReason)
}.

Definition phase_context (c : Ctx) (timeout : option Duration) (now : Instant) : Ctx :=
  match timeout with
  | Some t => match instant_checked_add now t with
              | Some d => mk_ctx (shortened_to (cx_deadline c) d) (cx_cancel c)
              | None => c
              end
  | None => c
  end.

Definition is_cancelled (c : Ctx) (now : Instant) : bool :=
  match cx_cancel c with Some (at_, _) => at_ <=? now | None => false end.

Section Executor.
Context {HH : Hickory}.

Inductive ExecutorError :=
| EE_Selector (e : GroupSelectorError) | EE_Aggregate (e : OutcomeError) | EE_TaskFailed.

Definition cancelled_outcome (c : Ctx) (now : Instant) : option UpstreamOutcome :=
  match cx_cancel c with
  | Some (at_, reason) => if at_ <=? now then Some (UO_Cancelled reason) else None
  | None => None
  end.

Definition timeout_failure (m : GroupMember) : UpstreamOutcome :=
  UO_TransportFailure (mk_failure (connector_id m) TF_Timeout true).

(** [GroupMember::exchange]: the answer of a connector, or the result of the
    nested group; a direct exchange always answers [Ok]. *)
Definition member_exchange (m : GroupMember) (answer : result ExecutorError UpstreamOutcome) :
    UpstreamOutcome :=
  match answer with
  | Ok o => o
  | Err _ => UO_TransportFailure (mk_failure (connector_id m) TF_Internal false)
  end.

(** When a member answers, if ever, and what. *)
Abbreviation Answer := (option (Instant * result ExecutorError UpstreamOutcome)).

(** One poll of the biased [select!] of [run_exchange]. *)
Definition select_poll (c : Ctx) (m : GroupMember) (until : Instant) (answer : Answer)
    (now : Instant) : option UpstreamOutcome :=
  match cancelled_outcome c now with
  | Some o => Some o
  | None =>
    if until <=? now then Some (timeout_failure m)
    else match answer with
         | Some (at_, a) => if at_ <=? now then Some (member_exchange m a) else None
         | None => None
         end
  end.

(** The first poll that is ready. *)
Fixpoint select_run (c : Ctx) (m : GroupMember) (until : Instant) (answer : Answer)
    (polls : list Instant) : option UpstreamOutcome :=
  match polls with
  | [] => None
  | t :: polls' => match select_poll c m until answer t with
                   | Some o => Some o
                   | None => select_run c m until answer polls'
                   end
  end.

(** The clock and the network during one attempt. *)
Record AttemptEnv := mk_env {
  ae_check : Instant;
  ae_start : Instant;
  ae_now : Instant;
  ae_polls : list Instant;
  ae_answer : Answer;
  ae_after : Instant
}.

Definition run_exchange (c : Ctx) (m : GroupMember) (e : AttemptEnv) : option UpstreamOutcome :=
  match cancelled_outcome c (ae_start e) with
  | Some o => Some o
  | None =>
    let left := CacheModel.remaining (cx_deadline c) (ae_now e) in
    if is_zero left then Some (timeout_failure m)
    else select_run c m (ae_now e + left) (ae_answer e) (ae_polls e)
  end.

(** ** Ordered execution *)

(** The attempt loop of [execute_ordered_members]. *)
Fixpoint attempt_loop (c : Ctx) (exchanges : list GroupMember) (attempt : Z) (indices : list nat)
    (envs : list AttemptEnv) : option (list UpstreamAttempt) :=
  match indices with
  | [] => Some []
  | i :: indices' =>
    match exchanges !! i, envs with
    | Some m, e :: envs' =>
      o ← match cancelled_outcome c (ae_check e) with
          | Some o => Some o
          | None => run_exchange c m e
          end;
      let a := mk_attempt attempt (connector_id m) o in
      if bool_decide ((assess o).2 = Stop) || is_expired (cx_deadline c) (ae_after e)
      then Some [a]
      else cons a <$> attempt_loop c exchanges (attempt + 1) indices' envs'
    | _, _ => None
    end
  end.

Definition execute_ordered_members (c : Ctx) (ph : ExecutionPhase) (g : GroupSelector)
    (primary : nat) (envs : list AttemptEnv) :
    option (result ExecutorError (list UpstreamAttempt)) :=
  match ordered_candidates g primary with
  | Err e => Some (Err (EE_Selector e))
  | Ok others => Ok <$> attempt_loop c (ph_exchanges ph) 0 (primary :: others) envs
  end.

(** [execute_ordered]; [others] is what concurrent requests do to the selector
    while the attempts run. The lease of a load balanced request is dropped when
    the attempts are over. *)
Definition execute_ordered (c : Ctx) (ph : ExecutionPhase) (g : GroupSelector)
    (others : GroupSelector -> GroupSelector) (envs : list AttemptEnv) :
    option (result ExecutorError (list UpstreamAttempt) * GroupSelector) :=
  match g_mode g with
  | LoadBalance =>
    match acquire_primary g with
    | (Err e, g1) => Some (Err (EE_Selector e), g1)
    | (Ok i, g1) =>
      res ← execute_ordered_members c ph g1 i envs;
      Some (res, drop_lease (others g1) i)
    end
  | RoundRobin | Failover =>
    match select_primary g with
    | (Err e, g1) => Some (Err (EE_Selector e), g1)
    | (Ok i, g1) => res ← execute_ordered_members c ph g1 i envs; Some (res, others g1)
    end
  | Sequential | Parallel => None
  end.

(** ** Parallel execution *)

(** What the join loop sees: the clock at a poll and the task that finished, with
    its outcome, or a task that panicked. *)
Inductive JoinEvent := Joined (index : nat) (o : UpstreamOutcome) | Panicked (index : nat).

Definition is_positive (o : UpstreamOutcome) : bool :=
  match o with
  | UO_Response r => bool_decide (resp_class r = RPositive)
  | _ => false
  end.

(** The end of a parallel phase: the attempts, and the tasks still running, which
    go to the late sink or are aborted. *)
Record ParallelEnd := mk_parallel_end {
  pe_attempts : list UpstreamAttempt;
  pe_running : list nat
}.

Definition cancelled_end (c : Ctx) (m : option GroupMember) (index : Z) (now : Instant) :
    option (result ExecutorError ParallelEnd) :=
  match m, cancelled_outcome c now with
  | Some m, Some o => Some (Ok (mk_parallel_end [mk_attempt index (connector_id m) o] []))
  | _, _ => None
  end.

Definition take_task (i : nat) (tasks : list nat) : list nat := filter (fun j => j <> i) tasks.

Fixpoint join_loop (c : Ctx) (exchanges : list GroupMember) (tasks : list nat)
    (attempts : list UpstreamAttempt) (events : list (Instant * JoinEvent)) :
    option (result ExecutorError ParallelEnd) :=
  match tasks, events with
  | [], _ => Some (Ok (mk_parallel_end attempts []))
  | _, [] => None
  | _, (now, ev) :: events' =>
    if is_cancelled c now
    then cancelled_end c (exchanges !! 0%nat) (Z.of_nat (length exchanges)) now
    else match ev with
    | Panicked i => if bool_decide (i ∈ tasks) then Some (Err EE_TaskFailed) else None
    | Joined i o =>
      match exchanges !! i with
      | Some m =>
        if bool_decide (i ∈ tasks) then
          let attempts := attempts ++ [mk_attempt (Z.of_nat i) (connector_id m) o] in
          let tasks := take_task i tasks in
          if is_positive o then Some (Ok (mk_parallel_end attempts tasks))
          else join_loop c exchanges tasks attempts events'
        else None
      | None => None
      end
    end
  end.

(** The spawn loop; [checks] are the clock readings before each spawn. The result
    says whether all tasks were spawned or the request was cancelled before. *)
Fixpoint spawn_loop (c : Ctx) (exchanges : list GroupMember) (indices : list nat)
    (checks : list Instant) : option (option (result ExecutorError ParallelEnd)) :=
  match indices, checks with
  | [], _ => Some None
  | i :: indices', t :: checks' =>
    if is_cancelled c t then Some <$> cancelled_end c (exchanges !! i) (Z.of_nat i) t
    else spawn_loop c exchanges indices' checks'
  | _ :: _, [] => None
  end.

Definition execute_parallel (c : Ctx) (ph : ExecutionPhase) (g : GroupSelector)
    (checks : list Instant) (events : list (Instant * JoinEvent)) :
    option (result ExecutorError ParallelEnd) :=
  spawned ← spawn_loop c (ph_exchanges ph) (parallel_order g) checks;
  match spawned with
  | Some r => Some r
  | None => join_loop c (ph_exchanges ph) (parallel_order g) [] events
  end.

(** [late_attempt_drain]: the attempts submitted to the late sink. *)
Fixpoint late_drain (exchanges : list GroupMember) (events : list JoinEvent) :
    list UpstreamAttempt :=
  match events with
  | [] => []
  | Panicked _ :: _ => []
  | Joined i o :: events' =>
    match exchanges !! i, o with
    | Some m, UO_Response _ =>
        mk_attempt (Z.of_nat i) (connector_id m) o :: late_drain exchanges events'
    | _, _ => late_drain exchanges events'
    end
  end.

(** ** Phases *)

Record PhaseResult := mk_phase_result {
  pr_result : AggregatedOutcome;
  pr_enter_fallback : bool
}.

(** The end of [execute_phase]. *)
Definition finish_phase (g : GroupSelector) (q : CanonicalQuery)
    (attempts : result ExecutorError (list UpstreamAttempt)) : result ExecutorError PhaseResult :=
  attempts ← attempts;
  out ← map_err EE_Aggregate (aggregate_with_connector (g_mode g) q attempts);
  Ok (mk_phase_result out (should_enter_fallback attempts)).

(** The environment of a phase. *)
Record PhaseEnv := mk_phase_env {
  pv_now : Instant;
  pv_others : GroupSelector -> GroupSelector;
  pv_attempts : list AttemptEnv;
  pv_checks : list Instant;
  pv_events : list (Instant * JoinEvent)
}.

Definition execute_phase (c : Ctx) (ph : ExecutionPhase) (g : GroupSelector) (q : CanonicalQuery)
    (e : PhaseEnv) : option (result ExecutorError PhaseResult * GroupSelector) :=
  let pc := phase_context c (ph_timeout ph) (pv_now e) in
  if bool_decide (g_mode g = Parallel) then
    r ← execute_parallel pc ph g (pv_checks e) (pv_events e);
    Some (finish_phase g q (pe_attempts <$> r), g)
  else
    '(r, g') ← execute_ordered pc ph g (pv_others e) (pv_attempts e);
    Some (finish_phase g q r, g').

(** [execute_inner]: the primary phase and, when it allows, the fallback phase. *)
Definition execute_inner (c : Ctx) (primary : ExecutionPhase * GroupSelector)
    (fallback : option (ExecutionPhase * GroupSelector)) (q : CanonicalQuery)
    (e1 : PhaseEnv) (between : Instant) (e2 : PhaseEnv) :
    option (result ExecutorError AggregatedOutcome) :=
  match execute_phase c primary.1 primary.2 q e1, fallback with
  | None, _ => None
  | Some (Err e, _), _ => Some (Err e)
  | Some (Ok r, _), None => Some (Ok (pr_result r))
  | Some (Ok r, _), Some (ph, g) =>
    if negb (pr_enter_fallback r) || is_cancelled c between || is_expired (cx_deadline c) between
    then Some (Ok (pr_result r))
    else match execute_phase c ph g q e2 with
         | Some (r2, _) => Some (pr_result <$> r2)
         | None => None
         end
  end.

End Executor.

(** ** Binding binds each member once *)

Section Binding.

Definition member_connector (m : Member) : ConnectorId := mk_connector (member_name m).

Lemma ConnectorId_new_some v c : ConnectorId_new v = Some c -> c = mk_connector v.
Proof. unfold ConnectorId_new. repeat case_match; naive_solver. Qed.

(** The table holds exactly the members, each under its connector. *)
Definition table (m : gmap ConnectorId GroupMember) (l : list GroupMember) : Prop :=
  NoDup (connector_id <$> l) /\ forall id x, m !! id = Some x <-> x ∈ l /\ connector_id x = id.

Lemma table_lookup_none m l x : table m l -> m !! connector_id x = None -> 
  connector_id x ∉ connector_id <$> l.
Proof.
  intros [_ Ht] Hn (y & Hy & Hin)%list_elem_of_fmap.
  assert (m !! connector_id y = Some y) by (by apply Ht). congruence.
Qed.

Lemma by_id_loop_ok m seen l m' :
  table m seen -> by_id_loop m l = Ok m' -> table m' (seen ++ l).
Proof.
  revert m seen. induction l as [|x l IH]; intros m seen Ht; cbn [by_id_loop].
  { intros [= <-]. by rewrite app_nil_r. }
  case_bool_decide as Hd; [done|]. apply eq_None_not_Some in Hd. intros H.
  rewrite cons_middle, app_assoc. eapply IH; [|done].
  pose proof (table_lookup_none _ _ _ Ht Hd) as Hfresh. destruct Ht as [Hnd Ht]. split.
  - rewrite fmap_app. apply list.NoDup_app. split_and!; [done| |apply NoDup_singleton].
    intros c Hc ->%list_elem_of_singleton. done.
  - intros id y. rewrite elem_of_app, list_elem_of_singleton.
    destruct (decide (id = connector_id x)) as [->|Hne].
    + rewrite lookup_insert_eq. split; [naive_solver|]. intros [[Hin| ->] E]; [|done].
      exfalso. apply Hfresh. rewrite <-E. by apply list_elem_of_fmap_2.
    + rewrite lookup_insert_ne by done. rewrite Ht. naive_solver.
Qed.

Lemma by_id_loop_total m seen l :
  table m seen -> NoDup (connector_id <$> (seen ++ l)) -> is_ok (by_id_loop m l) = true.
Proof.
  revert m seen. induction l as [|x l IH]; intros m seen Ht Hnd; cbn [by_id_loop]; [done|].
  rewrite cons_middle, app_assoc in Hnd.
  assert (Hn : m !! connector_id x = None).
  { destruct (m !! connector_id x) as [y|] eqn:E; [|done]. exfalso.
    apply (proj2 Ht) in E as [Hin E]. rewrite !fmap_app in Hnd.
    apply list.NoDup_app in Hnd as (Hnd & _ & _). apply list.NoDup_app in Hnd as (_ & Hd & _).
    apply (Hd (connector_id y)); [by apply list_elem_of_fmap_2|]. rewrite E. set_solver. }
  case_bool_decide as Hd; [rewrite Hn in Hd; by destruct Hd|].
  destruct (by_id_loop_ok m seen [x] (<[connector_id x := x]> m)) as [Hnd' Ht'].
  - done.
  - cbn. by rewrite bool_decide_false.
  - by eapply IH.
Qed.

Lemma table_delete m l1 x l2 :
  table m (l1 ++ x :: l2) -> table (delete (connector_id x) m) (l1 ++ l2).
Proof.
  intros [Hnd Ht].
  assert (Hp : l1 ++ x :: l2 ≡ₚ x :: l1 ++ l2) by (by rewrite Permutation_middle).
  rewrite Hp in Hnd. cbn in Hnd. apply list.NoDup_cons in Hnd as [Hx Hnd]. split; [done|].
  intros id y. destruct (decide (id = connector_id x)) as [->|Hne].
  - rewrite lookup_delete_eq. split; [done|]. intros [Hin E]. exfalso. apply Hx.
    rewrite <-E. by apply list_elem_of_fmap_2.
  - rewrite lookup_delete_ne by done. rewrite Ht, Hp, elem_of_cons. naive_solver.
Qed.

Lemma bind_loop_ok m l index members ordered rest :
  table m l -> bind_loop m index members = Ok (ordered, rest) ->
  connector_id <$> ordered = member_connector <$> members /\
  Forall (fun x => is_Some (ConnectorId_new (member_name x))) members /\
  exists l', l ≡ₚ ordered ++ l' /\ table rest l'.
Proof.
  revert m l index ordered rest. induction members as [|x members IH];
    intros m l index ordered rest Ht H; cbn [bind_loop] in H.
  { apply Ok_inj in H. injection H as <- <-. split_and!; [done|constructor|]. by exists l. }
  inv_ok. destruct a1 as [ordered' rest']. apply Ok_inj in H. injection H as <- <-.
  pose proof H0 as Hid. apply ConnectorId_new_some in Hid as ->.
  apply (proj2 Ht) in H1 as [Hin Hc].
  apply list_elem_of_split in Hin as (l1 & l2 & ->). pose proof (table_delete _ _ _ _ Ht) as Ht'.
  rewrite Hc in Ht'. destruct (IH _ _ _ _ _ Ht' H2) as (Ho & HF & l' & Hp & Hr).
  cbn. rewrite Ho, Hc. split_and!; [done|by constructor; [eexists|]|].
  exists l'. split; [|done]. by rewrite <-Permutation_middle, Hp.
Qed.

Lemma bind_loop_total m l index members :
  table m l -> Forall (fun x => is_Some (ConnectorId_new (member_name x))) members ->
  member_connector <$> members ⊆+ connector_id <$> l ->
  is_ok (bind_loop m index members) = true.
Proof.
  revert m l index. induction members as [|x members IH]; intros m l index Ht HF Hs; [done|].
  inversion_clear HF as [|? ? [id Hid] HF']. cbn [bind_loop]. rewrite Hid. cbn.
  apply ConnectorId_new_some in Hid as ->. fold (member_connector x).
  assert (Hin : member_connector x ∈ connector_id <$> l).
  { eapply elem_of_submseteq; [|done]. cbn. set_solver. }
  apply list_elem_of_fmap in Hin as (y & Hc & Hin).
  rewrite Hc, (proj2 (proj2 Ht (connector_id y) y)) by done. cbn.
  apply list_elem_of_split in Hin as (l1 & l2 & ->).
  pose proof (table_delete _ _ _ _ Ht) as Ht'.
  assert (Hs' : member_connector <$> members ⊆+ connector_id <$> (l1 ++ l2)).
  { rewrite <-Permutation_middle in Hs. cbn in Hs. rewrite Hc in Hs.
    by apply (submseteq_app_inv_l _ _ [connector_id y]) in Hs. }
  pose proof (IH _ _ (S index) Ht' HF' Hs') as Hok.
  by destruct (bind_loop _ _ _) as [[]|].
Qed.

Lemma table_empty : table ∅ [].
Proof. split; [constructor|]. intros id x. rewrite lookup_empty. set_solver. Qed.

Lemma table_leftover m l : table m l -> head (map_to_list m) = None <-> l = [].
Proof.
  intros [_ Ht]. split.
  - intros Hh. destruct (map_to_list m) eqn:E; [|done]. apply map_to_list_empty_iff in E as ->.
    destruct l as [|x l]; [done|]. specialize (Ht (connector_id x) x).
    rewrite lookup_empty in Ht. naive_solver set_solver.
  - intros ->. assert (m = ∅) as ->; [|by rewrite map_to_list_empty].
    apply map_empty. intros id. destruct (m !! id) eqn:E; [|done]. apply Ht in E. set_solver.
Qed.

(** The bound phase keeps the selector's order and uses every connector. *)
Lemma new_members_ok g members timeout ph :
  new_members g members timeout = Ok ph ->
  members <> [] /\ timeout <> Some 0 /\ NoDup (connector_id <$> members) /\
  Forall (fun m => is_Some (ConnectorId_new (member_name m))) (g_members g) /\
  connector_id <$> ph_exchanges ph = member_connector <$> g_members g /\
  ph_exchanges ph ≡ₚ members /\ ph_timeout ph = timeout.
Proof.
  unfold new_members. case_bool_decide as Hne; [done|].
  destruct (match timeout with Some t => is_zero t | None => false end) eqn:Hz; [done|]. intros H. apply bind_ok in H as (a & H0 & H).
  apply bind_ok in H as ([ordered rest] & H1 & H).
  pose proof (by_id_loop_ok ∅ [] members a table_empty H0) as Ht. cbn in Ht.
  destruct (bind_loop_ok _ _ _ _ _ _ Ht H1) as (Ho & HF & l' & Hp & Hr).
  pose proof (table_leftover _ _ Hr) as Hl. destruct (head (map_to_list rest)) as [[]|]; [done|].
  apply Ok_inj in H as <-. cbn. rewrite (proj1 Hl eq_refl), app_nil_r in Hp.
  split_and!; try done; [|apply Ht]. intros ->. by vm_compute in Hz.
Qed.

(** A phase is bound exactly when there is a connector, the timeout is not
    zero, and the connectors supplied are, without duplicates, the members of the
    group; the bound exchanges are in the order of the selector's members. *)
Theorem new_members_iff g members timeout :
  (is_ok (new_members g members timeout) = true <->
   members <> [] /\ timeout <> Some 0 /\ NoDup (connector_id <$> members) /\
   Forall (fun m => is_Some (ConnectorId_new (member_name m))) (g_members g) /\
   connector_id <$> members ≡ₚ member_connector <$> g_members g) /\
  forall ph, new_members g members timeout = Ok ph ->
    connector_id <$> ph_exchanges ph = member_connector <$> g_members g /\
    ph_exchanges ph ≡ₚ members /\ ph_timeout ph = timeout.
Proof.
  split; [|intros ph H; by apply new_members_ok in H as (_ & _ & _ & _ & H)]. split.
  - destruct (new_members g members timeout) as [ph|] eqn:E; [intros _|done].
    apply new_members_ok in E as (? & ? & ? & ? & Ho & Hp & _). split_and!; try done.
    by rewrite <-Ho, Hp.
  - intros (Hne & Hz & Hnd & HF & Hp). unfold new_members. rewrite bool_decide_false by done.
    assert (match timeout with Some t => is_zero t | None => false end = false) as ->.
    { destruct timeout as [t|]; [|done]. unfold is_zero. apply Z.eqb_neq. naive_solver. }
    pose proof (by_id_loop_total ∅ [] members table_empty Hnd) as Hok.
    destruct (by_id_loop ∅ members) as [m|] eqn:Em; [|done]. cbn.
    pose proof (by_id_loop_ok ∅ [] members m table_empty Em) as Ht. cbn in Ht.
    pose proof (bind_loop_total m members 0 (g_members g) Ht HF) as Hok2.
    rewrite Hp in Hok2. specialize (Hok2 ltac:(done)).
    destruct (bind_loop m 0 (g_members g)) as [[ordered rest]|] eqn:Eb; [|done]. cbn.
    destruct (bind_loop_ok _ _ _ _ _ _ Ht Eb) as (Ho & _ & l' & Hl & Hr).
    assert (l' = []) as ->.
    { apply (f_equal length) in Ho. apply Permutation_length in Hp, Hl.
      rewrite !length_fmap in *. rewrite length_app in Hl. apply length_zero_iff_nil. lia. }
    by rewrite (proj2 (table_leftover _ _ Hr) eq_refl).
Qed.
End Binding.

(** ** Ordered execution *)

Section Ordered.
Context {HH : Hickory}.

Lemma cancelled_is c now : is_Some (cancelled_outcome c now) <-> is_cancelled c now = true.
Proof.
  unfold cancelled_outcome, is_cancelled. destruct (cx_cancel c) as [[at_ r]|].
  - destruct (at_ <=? now); [split; [done|eauto]|]. split; [by intros []|done].
  - split; [by intros []|done].
Qed.

(** What the attempts of one run look like: they follow the order of the
    candidates, every attempt but the last asked for the next one, and the last
    one ended the search, met the deadline or exhausted the members. *)
Record attempts_run (c : Ctx) (exchanges : list GroupMember) (n : Z) (indices : list nat)
    (envs : list AttemptEnv) (attempts : list UpstreamAttempt) : Prop := {
  ar_order : forall j a, attempts !! j = Some a ->
    exists i m, indices !! j = Some i /\ exchanges !! i = Some m /\ connector a = connector_id m;
  ar_sorted : StronglySorted (key_lt attempt_index) attempts;
  ar_from : Forall (fun a => n <= attempt_index a) attempts;
  ar_continue : forall j a, attempts !! j = Some a -> (S j < length attempts)%nat ->
    (assess (outcome a)).2 = Continue /\
    exists e, envs !! j = Some e /\ is_expired (cx_deadline c) (ae_after e) = false;
  ar_last : indices <> [] -> exists l a, attempts = l ++ [a] /\
    ((assess (outcome a)).2 = Stop \/ length attempts = length indices \/
     exists e, envs !! length l = Some e /\ is_expired (cx_deadline c) (ae_after e) = true)
}.

Lemma attempt_loop_run c exchanges n indices envs attempts :
  attempt_loop c exchanges n indices envs = Some attempts ->
  attempts_run c exchanges n indices envs attempts.
Proof.
  revert n envs attempts. induction indices as [|i indices IH]; intros n envs attempts;
    cbn [attempt_loop].
  { intros [= <-]. split; try done; constructor. }
  destruct (exchanges !! i) as [m|] eqn:Em; [|done]. destruct envs as [|e envs]; [done|].
  intros (o & _ & H)%bind_Some. destruct (_ || _) eqn:Hstop.
  - injection H as <-. split.
    + intros [|j] a; [|done]. intros [= <-]. by exists i, m.
    + repeat constructor.
    + by repeat constructor.
    + cbn. lia.
    + intros _. exists [], (mk_attempt n (connector_id m) o). split; [done|].
      apply orb_true_iff in Hstop as [?%bool_decide_eq_true|Hx]; [by left|]. right. right.
      by exists e.
  - apply orb_false_iff in Hstop as [Hs%bool_decide_eq_false Hx].
    apply fmap_Some in H as (rest & Hr & ->). apply IH in Hr as [H1 H2 H3 H4 H5]. split.
    + intros [|j] a; [intros [= <-]; by exists i, m|]. cbn. apply H1.
    + constructor; [done|]. revert H3. apply Forall_impl. unfold key_lt. cbn. lia.
    + constructor; [cbn; lia|]. revert H3. apply Forall_impl. cbn. lia.
    + intros [|j] a; cbn [lookup list_lookup length].
      * intros [= <-] _. cbn. split; [by destruct (assess o).2|by exists e].
      * intros Ha Hj. apply H4; [done|lia].
    + intros _. destruct (decide (indices = [])) as [->|Hne].
      * destruct rest as [|x rest].
        { exists [], (mk_attempt n (connector_id m) o). split; [done|]. right. by left. }
        destruct (H1 0%nat x eq_refl) as (? & ? & ? & _). done.
      * destruct (H5 Hne) as (l & a & -> & Hl). exists (mk_attempt n (connector_id m) o :: l), a.
        split; [done|]. rewrite !length_cons. naive_solver.
Qed.

(** *** The outcome of an ordered run *)

Definition silent (a : UpstreamAttempt) : Prop := (assess (outcome a)).2 = Continue.

Lemma silent_step mode a st : silent a -> aggregate_step mode st a = st.
Proof.
  unfold silent, aggregate_step. destruct (outcome a) as [r|f|]; cbn.
  - destruct (fallback_blocked st); [done|]. by destruct (resp_class r).
  - destruct (fallback_blocked st); [done|]. by destruct (retryable f).
  - done.
Qed.

Lemma silent_fold mode l st : Forall silent l -> foldl (aggregate_step mode) st l = st.
Proof. intros H. revert st. induction H as [|a l Ha _ IH]; intros st; cbn; [done|]. by rewrite silent_step. Qed.

(** The outcome of a run whose last attempt is [a]. *)
Definition last_outcome (q : CanonicalQuery) (a : UpstreamAttempt) (out : AggregatedOutcome) : Prop :=
  match outcome a with
  | UO_Cancelled reason => out = mk_aggregated (Some (connector a)) (UO_Cancelled reason)
  | UO_Response r =>
    if decide ((assess (outcome a)).2 = Stop)
    then out = mk_aggregated (Some (connector a)) (UO_Response r)
    else exists r', empty_response q ServFail = Ok r' /\ resp_class r' = RServFail /\
           out = mk_aggregated None (UO_Response r')
  | UO_TransportFailure _ =>
    exists r', empty_response q ServFail = Ok r' /\ resp_class r' = RServFail /\
      out = mk_aggregated None (UO_Response r')
  end.

Lemma servfail_ok `{HL : !HickoryLaws HH} q :
  wf_query q -> exists r, empty_response q ServFail = Ok r /\ resp_class r = RServFail.
Proof.
  intros Hq. destruct (response_with_code_ok q ServFail [] Hq) as (r & Hr & _ & _ & _ & Hc).
  by exists r.
Qed.

Lemma aggregate_last `{HL : !HickoryLaws HH} mode q l a :
  wf_query q -> StronglySorted (key_lt attempt_index) (l ++ [a]) -> Forall silent l ->
  exists out, aggregate_with_connector mode q (l ++ [a]) = Ok out /\ last_outcome q a out.
Proof.
  intros Hq [Hs Hnd]%key_lt_sorted Hl. unfold aggregate_with_connector.
  rewrite sort_by_key_id, first_duplicate_none by done.
  rewrite foldl_app, (silent_fold mode l) by done. cbn [foldl].
  destruct (servfail_ok q Hq) as (r' & Hr' & Hc').
  assert (Hfin : forall b, finish_aggregate q (mk_agg None None b) =
    Ok (mk_aggregated None (UO_Response r'))).
  { intros b. unfold finish_aggregate. cbn [cancellation selected_response]. by rewrite Hr'. }
  unfold last_outcome, aggregate_step.
  destruct (outcome a) as [r|f|reason]; cbn -[finish_aggregate empty_response].
  - destruct (resp_class r) eqn:Hr; cbn -[finish_aggregate empty_response]; rewrite ?Hfin;
      (eexists; split; [done|]); case_decide; naive_solver.
  - destruct (retryable f); cbn -[finish_aggregate empty_response]; rewrite Hfin;
      eexists; (split; [done|]); eauto.
  - unfold finish_aggregate. cbn. destruct (_ <=? _); by eexists.
Qed.

(** *** Properties of ordered execution *)

Lemma candidate_order_perm n primary :
  (primary < n)%nat -> primary :: filter (fun i => i <> primary) (seq 0 n) ≡ₚ seq 0 n.
Proof.
  intros Hlt. apply NoDup_Permutation.
  - constructor; [|apply list.NoDup_filter, NoDup_seq]. rewrite list_elem_of_filter. naive_solver.
  - apply NoDup_seq.
  - intros i. rewrite elem_of_cons, list_elem_of_filter, elem_of_seq.
    destruct (decide (i = primary)); naive_solver lia.
Qed.

(** An ordered phase tries its members in the selected order, each at most
    once and only after every earlier attempt was retryable and in time; it stops
    at a terminal attempt, at the deadline or after the last member. Its outcome
    is decided by its last attempt alone: a terminal response or a cancellation is
    passed on with its connector, anything else becomes a SERVFAIL response, and
    the fallback opens exactly if that attempt was retryable. *)
Theorem ordered_phase_outcome `{HL : !HickoryLaws HH} c ph g primary envs q attempts :
  wf_query q -> (primary < length (g_members g))%nat ->
  execute_ordered_members c ph g primary envs = Some (Ok attempts) ->
  let order := primary :: filter (fun i => i <> primary) (seq 0 (length (g_members g))) in
  order ≡ₚ seq 0 (length (g_members g)) /\
  attempts_run c (ph_exchanges ph) 0 order envs attempts /\
  exists l a out, attempts = l ++ [a] /\ last_outcome q a out /\
    finish_phase g q (Ok attempts) =
      Ok (mk_phase_result out (bool_decide ((assess (outcome a)).2 = Continue))).
Proof.
  intros Hq Hp H order. unfold execute_ordered_members, ordered_candidates in H.
  rewrite (proj2 (Nat.leb_gt _ _)) in H by lia. apply fmap_Some in H as (at' & Hloop & [= ->]).
  fold order in Hloop. split; [by apply candidate_order_perm|].
  apply attempt_loop_run in Hloop. split; [done|]. destruct Hloop as [_ Hs _ Hc Hl].
  destruct Hl as (l & a & -> & _); [done|].
  assert (Hsil : Forall silent l).
  { apply list.Forall_forall. intros x (j & Hj)%list_elem_of_lookup. pose proof (lookup_lt_Some _ _ _ Hj).
    apply (Hc j); [by apply lookup_app_l_Some|]. rewrite length_app. cbn. lia. }
  destruct (aggregate_last (g_mode g) q l a) as (out & Ho & Hlast); [done..|].
  exists l, a, out. split_and!; [done|done|]. unfold finish_phase. cbn. rewrite Ho. cbn.
  do 2 f_equal. unfold should_enter_fallback.
  rewrite bool_decide_false by (rewrite length_app; cbn; lia). cbn.
  rewrite forallb_app. cbn. rewrite andb_true_r.
  assert (forallb (fun a => bool_decide ((assess (outcome a)).2 = Continue)) l = true) as ->; [|done].
  apply forallb_forall. intros x Hx%list_elem_of_In. apply bool_decide_eq_true.
  by apply (proj1 (list.Forall_forall _ _) Hsil).
Qed.

(** A selector in the states its operations reach. *)
Record selector_wf (g : GroupSelector) : Prop := {
  sw_weights : weights_ok (g_members g);
  sw_smooth : smooth_inv (g_members g) (g_current g);
  sw_total : g_total_weight g = Zsum (weight <$> g_members g);
  sw_load : length (g_in_flight g) = length (g_members g)
}.

Lemma select_primary_ok g :
  selector_wf g -> g_mode g ∈ [RoundRobin; LoadBalance; Failover] ->
  exists i g', select_primary g = (Ok i, g') /\ (i < length (g_members g))%nat /\
    g_members g' = g_members g /\ g_mode g' = g_mode g.
Proof.
  intros [Hw Hs Ht Hl] Hm. pose proof Hw as [Hne Hpos]. unfold select_primary.
  assert (Hn : (0 < length (g_members g))%nat) by (by destruct (g_members g); cbn; [|lia]).
  destruct (g_mode g) eqn:Em; try (by set_solver).
  - pose proof (smooth_select_spec _ _ Hw Hs) as Hsel. cbv zeta in Hsel. rewrite <-Ht in Hsel.
    destruct (smooth_select _ _ _) as [sel cur]. destruct Hsel as [? _]. eauto 10.
  - pose proof (load_balance_index_spec (g_members g) Hpos g Hne eq_refl) as [? _].
    destruct (load_balance_index g) as [i g'] eqn:E. exists i, g'. cbn in *.
    unfold load_balance_index in E. injection E as <- <-. done.
Qed.

Lemma acquire_primary_ok g :
  selector_wf g -> g_mode g = LoadBalance ->
  exists i g', acquire_primary g = (Ok i, g') /\ (i < length (g_members g))%nat /\
    g_members g' = g_members g /\
    g_in_flight g' = <[i := wrap64 (default 0 (g_in_flight g !! i) + 1)]> (g_in_flight g).
Proof.
  intros [[Hne Hpos] Hs Ht Hl] Hm. unfold acquire_primary. rewrite bool_decide_true by done.
  pose proof (load_balance_index_spec (g_members g) Hpos g Hne eq_refl) as [? _].
  destruct (load_balance_index g) as [i g'] eqn:E. unfold load_balance_index in E.
  injection E as <- <-. cbn in *. eauto 10.
Qed.

(** Releasing the lease just acquired restores the counters. *)
Lemma drop_acquired g g' i :
  (i < length (g_in_flight g))%nat -> Forall (fun v => 0 <= v < u64_max) (g_in_flight g) ->
  g_in_flight g' = <[i := wrap64 (default 0 (g_in_flight g !! i) + 1)]> (g_in_flight g) ->
  g_in_flight (drop_lease g' i) = g_in_flight g.
Proof.
  intros Hi HF Hg. unfold drop_lease. rewrite Hg. rewrite list_lookup_insert_eq by done.
  destruct (lookup_lt_is_Some_2 _ _ Hi) as [v Hv]. rewrite Hv. cbn.
  pose proof (proj1 (list.Forall_forall _ _) HF v (list_elem_of_lookup_2 _ _ _ Hv)) as Hb. cbn in Hb.
  rewrite wrap64_small by (unfold_ints; unfold u64_max in Hb; lia).
  rewrite (proj2 (Z.ltb_lt _ _)) by lia. cbn.
  rewrite list_insert_insert_eq, Z.add_simpl_r.
  by apply list_insert_id.
Qed.

Lemma select_run_ready c m until answer polls t :
  t ∈ polls -> until <= t -> is_Some (select_run c m until answer polls).
Proof.
  induction polls as [|p polls IH]; [set_solver|]. intros Hin Hle. cbn [select_run].
  destruct (select_poll c m until answer p) eqn:E; [by eexists|].
  apply elem_of_cons in Hin as [<-|Hin]; [|by apply IH]. exfalso. revert E.
  unfold select_poll. destruct (cancelled_outcome c t); [done|].
  by rewrite (proj2 (Z.leb_le _ _)).
Qed.

Lemma run_exchange_ready c m e t :
  t ∈ ae_polls e -> cx_deadline c <= t -> is_Some (run_exchange c m e).
Proof.
  intros Hin Hle. unfold run_exchange. destruct (cancelled_outcome c (ae_start e)); [by eexists|].
  destruct (is_zero _) eqn:Ez; [by eexists|]. eapply select_run_ready; [done|].
  unfold is_zero, remaining, duration_since, sat_sub in *. lia.
Qed.

Lemma attempt_loop_ready c exchanges n indices envs :
  (forall i, i ∈ indices -> is_Some (exchanges !! i)) ->
  (length indices <= length envs)%nat ->
  Forall (fun e => exists t, t ∈ ae_polls e /\ cx_deadline c <= t) envs ->
  is_Some (attempt_loop c exchanges n indices envs).
Proof.
  revert n envs. induction indices as [|i indices IH]; intros n envs Hi Hl HF; cbn; [by eexists|].
  destruct (Hi i ltac:(set_solver)) as [m ->]. destruct envs as [|e envs]; [cbn in Hl; lia|].
  inversion_clear HF as [|? ? (t & Ht & Hd) HF'].
  assert (Ho : is_Some (match cancelled_outcome c (ae_check e) with
    | Some o => Some o | None => run_exchange c m e end)).
  { destruct (cancelled_outcome c (ae_check e)); [by eexists|by eapply run_exchange_ready]. }
  destruct Ho as [o ->]. cbn. destruct (_ || _); [by eexists|].
  destruct (IH (n + 1) envs) as [rest ->]; [set_solver|cbn in Hl; lia|done|]. by eexists.
Qed.

(** An ordered phase always comes to an end: once every exchange has been
    polled at or after the phase's deadline, whatever the members answer or
    whether they answer at all, it returns attempts and no error; and a load
    balanced request returns the lease it took. *)
Theorem ordered_phase_terminates c ph g envs :
  selector_wf g -> g_mode g ∈ [RoundRobin; LoadBalance; Failover] ->
  length (ph_exchanges ph) = length (g_members g) ->
  (length (g_members g) <= length envs)%nat ->
  Forall (fun e => exists t, t ∈ ae_polls e /\ cx_deadline c <= t) envs ->
  exists attempts g', execute_ordered c ph g id envs = Some (Ok attempts, g') /\
    (g_mode g = LoadBalance -> Forall (fun v => 0 <= v < u64_max) (g_in_flight g) ->
     g_in_flight g' = g_in_flight g).
Proof.
  intros Hw Hm Hex Hlen HF.
  assert (Hrun : forall g1 i, g_members g1 = g_members g -> (i < length (g_members g))%nat ->
    exists attempts, execute_ordered_members c ph g1 i envs = Some (Ok attempts)).
  { intros g1 i Hg1 Hi. unfold execute_ordered_members, ordered_candidates. rewrite Hg1.
    rewrite (proj2 (Nat.leb_gt _ _)) by lia. pose proof (candidate_order_perm _ _ Hi) as Hp.
    destruct (attempt_loop_ready c (ph_exchanges ph) 0
      (i :: filter (fun j => j <> i) (seq 0 (length (g_members g)))) envs) as [l ->].
    - intros j. rewrite Hp, elem_of_seq. intros Hj. apply lookup_lt_is_Some_2. lia.
    - apply Permutation_length in Hp. rewrite length_seq in Hp. lia.
    - done.
    - by exists l. }
  unfold execute_ordered. destruct (decide (g_mode g = LoadBalance)) as [Em|Em].
  - rewrite Em. destruct (acquire_primary_ok g Hw Em) as (i & g1 & -> & Hi & Hg1 & Hf).
    destruct (Hrun g1 i Hg1 Hi) as [attempts ->]. cbn. do 2 eexists. split; [done|]. intros _ HL.
    apply drop_acquired; [by rewrite (sw_load _ Hw)|done|done].
  - destruct (select_primary_ok g Hw Hm) as (i & g1 & Hsel & Hi & Hg1 & _).
    destruct (Hrun g1 i Hg1 Hi) as [attempts Ha].
    assert (g_mode g = RoundRobin \/ g_mode g = Failover) as [E|E] by set_solver;
      rewrite E, Hsel, Ha; cbn; exists attempts, g1; by split.
Qed.
End Ordered.

(** ** Parallel execution *)

Section ParallelRun.
Context {HH : Hickory}.

Abbreviation index_of := (fun a : UpstreamAttempt => Z.to_nat (attempt_index a)).

(** Every task of the batch is accounted for: it was joined or still runs. *)
Record batch (exchanges : list GroupMember) (order tasks : list nat)
    (attempts : list UpstreamAttempt) : Prop := {
  b_all : (index_of <$> attempts) ++ tasks ≡ₚ order;
  b_bound : Forall (fun a => 0 <= attempt_index a /\ exists m,
    exchanges !! index_of a = Some m /\ connector a = connector_id m) attempts
}.

Lemma take_task_perm i tasks :
  NoDup tasks -> i ∈ tasks -> tasks ≡ₚ i :: take_task i tasks.
Proof.
  intros Hnd Hin. apply NoDup_Permutation; [done| |].
  - constructor; [|by apply list.NoDup_filter]. unfold take_task. rewrite list_elem_of_filter.
    naive_solver.
  - intros j. unfold take_task. rewrite elem_of_cons, list_elem_of_filter.
    destruct (decide (j = i)); naive_solver.
Qed.

Lemma batch_join exchanges order tasks attempts i m o :
  NoDup order -> batch exchanges order tasks attempts -> i ∈ tasks -> exchanges !! i = Some m ->
  batch exchanges order (take_task i tasks)
    (attempts ++ [mk_attempt (Z.of_nat i) (connector_id m) o]).
Proof.
  intros Hnd [Hall Hb] Hin Hm. split.
  - assert (Ht : NoDup tasks).
    { rewrite <-Hall in Hnd. by apply list.NoDup_app in Hnd as (_ & _ & ?). }
    rewrite <-Hall. rewrite fmap_app, <-app_assoc. cbn. rewrite Nat2Z.id.
    by rewrite (take_task_perm i tasks) at 2.
  - apply Forall_app. split; [done|]. constructor; [|constructor]. cbn. rewrite Nat2Z.id.
    split; [lia|]. by exists m.
Qed.

(** How the join loop ends without error. *)
Inductive joined (c : Ctx) (exchanges : list GroupMember) (order : list nat) :
    ParallelEnd -> Prop :=
| joined_cancelled a reason : cx_cancel c = Some reason -> outcome a = UO_Cancelled reason.2 ->
    joined c exchanges order (mk_parallel_end [a] [])
| joined_all attempts : batch exchanges order [] attempts ->
    Forall (fun a => is_positive (outcome a) = false) attempts ->
    joined c exchanges order (mk_parallel_end attempts [])
| joined_positive l a tasks : batch exchanges order tasks (l ++ [a]) ->
    Forall (fun a => is_positive (outcome a) = false) l -> is_positive (outcome a) = true ->
    joined c exchanges order (mk_parallel_end (l ++ [a]) tasks).

Lemma cancelled_end_joined c exchanges order m index now pe :
  cancelled_end c m index now = Some (Ok pe) -> joined c exchanges order pe.
Proof.
  unfold cancelled_end, cancelled_outcome. destruct m as [m|]; [|done].
  destruct (cx_cancel c) as [[at_ reason]|] eqn:Ec; [|done]. destruct (at_ <=? now); [|done].
  intros [= <-]. by eapply joined_cancelled.
Qed.

Lemma join_loop_joined c exchanges order tasks attempts events pe :
  NoDup order -> batch exchanges order tasks attempts ->
  Forall (fun a => is_positive (outcome a) = false) attempts ->
  join_loop c exchanges tasks attempts events = Some (Ok pe) -> joined c exchanges order pe.
Proof.
  intros Hnd. revert tasks attempts. induction events as [|[now ev] events IH];
    intros tasks attempts Hb Hneg; cbn [join_loop].
  { destruct tasks; [|done]. intros [= <-]. by apply joined_all. }
  destruct tasks as [|t tasks]; [intros [= <-]; by apply joined_all|].
  destruct (is_cancelled c now); [apply cancelled_end_joined|].
  destruct ev as [i o|i]; [|by case_bool_decide].
  destruct (exchanges !! i) as [m|] eqn:Em; [|done]. case_bool_decide as Hin; [|done].
  pose proof (batch_join _ _ _ _ i m o Hnd Hb Hin Em) as Hb'.
  destruct (is_positive o) eqn:Ep.
  - intros [= <-]. by apply joined_positive.
  - apply IH; [done|]. apply Forall_app. split; [done|]. by constructor; [|constructor].
Qed.

Lemma spawn_loop_joined c exchanges order indices checks pe :
  spawn_loop c exchanges indices checks = Some (Some (Ok pe)) -> joined c exchanges order pe.
Proof.
  revert checks. induction indices as [|i l IH]; intros checks; cbn; [done|].
  destruct checks as [|t checks]; [done|]. destruct (is_cancelled c t); [|apply IH].
  intros (r & Hr & [= <-])%fmap_Some. by eapply cancelled_end_joined.
Qed.

Lemma execute_parallel_joined c ph g checks events pe :
  execute_parallel c ph g checks events = Some (Ok pe) ->
  joined c (ph_exchanges ph) (parallel_order g) pe.
Proof.
  unfold execute_parallel. intros (sp & Hsp & H)%bind_Some. destruct sp as [r|].
  - injection H as ->. by eapply spawn_loop_joined.
  - eapply join_loop_joined in H; [done|apply NoDup_seq| |constructor].
    split; [done|constructor].
Qed.

Lemma index_of_inj exchanges order tasks attempts :
  NoDup order -> batch exchanges order tasks attempts -> NoDup (attempt_index <$> attempts).
Proof.
  intros Hnd [Hall Hb]. rewrite <-Hall in Hnd. apply list.NoDup_app in Hnd as (Hnd & _ & _).
  apply (NoDup_fmap_1 Z.to_nat). by rewrite <-list_fmap_compose.
Qed.

Lemma preference_positive cl : response_preference RPositive <= response_preference cl -> cl = RPositive.
Proof. by destruct cl. Qed.

(** A positive response beats every other answer of the batch. *)
Lemma aggregate_positive `{HL : !HickoryLaws HH} q attempts a :
  wf_query q -> NoDup (attempt_index <$> attempts) -> a ∈ attempts ->
  is_positive (outcome a) = true ->
  (forall x reason, x ∈ attempts -> outcome x = UO_Cancelled reason -> cancel_priority reason < 3) ->
  exists k r, aggregate_with_connector Parallel q attempts = Ok (mk_aggregated (Some k) (UO_Response r)) /\
    resp_class r = RPositive /\ should_enter_fallback attempts = false.
Proof.
  intros Hq Hnd Ha Hp Hweak. destruct (aggregate_cases Parallel q attempts Hq Hnd) as (out & Hout & H).
  cbv zeta in H. rewrite Hout.
  assert (Hperm : forall x, x ∈ sort_by_key attempt_index attempts <-> x ∈ attempts)
    by (intros x; by rewrite sort_by_key_perm).
  assert (Hra : exists r, terminal_response a = Some (connector a, r) /\ resp_class r = RPositive).
  { unfold is_positive, terminal_response in *. destruct (outcome a) as [r| |]; try done.
    apply bool_decide_eq_true in Hp. exists r. by rewrite Hp. }
  destruct Hra as (ra & Hra & Hca).
  assert (Hin : (connector a, ra) ∈ omap terminal_response
    (counted Parallel (sort_by_key attempt_index attempts))).
  { apply list_elem_of_omap. exists a. by rewrite Hperm. }
  assert (Hfb : should_enter_fallback attempts = false).
  { apply not_true_iff_false. intros [_ Hall]%should_enter_fallback_iff.
    destruct (Hall a Ha) as [Hn _]. congruence. }
  destruct H as [(x & Hx & H3 & _)|(_ & [(x & Hx & ->)|(Hnil & _)])].
  - exfalso. destruct Hx as (l1 & l2 & Hl & _).
    assert (Hxin : x ∈ omap cancel_of (sort_by_key attempt_index attempts)) by (rewrite Hl; set_solver).
    apply list_elem_of_omap in Hxin as (y & Hy & Hc). rewrite Hperm in Hy. unfold cancel_of in Hc.
    destruct (outcome y) as [| |reason] eqn:Ho; try done. injection Hc as <-.
    specialize (Hweak y reason Hy Ho). cbn in H3. lia.
  - exists x.1, x.2. split_and!; [done| |done]. apply preference_positive.
    unfold chosen in Hx. case_decide; [|done]. destruct Hx as (l1 & l2 & Hl & H1 & H2).
    rewrite Hl, elem_of_app, elem_of_cons in Hin. rewrite <-Hca.
    destruct Hin as [Hi|[<-|Hi]]; [specialize (H1 _ Hi)|done|specialize (H2 _ Hi)]; cbn in *; lia.
  - rewrite Hnil in Hin. set_solver.
Qed.

(** A parallel phase loses no task: unless the request is cancelled, every
    member's task was either joined as one attempt or is still running and is
    handed to the late collector, and the phase returns early only on a positive
    response. A positive response wins over all other answers and the fallback
    stays closed, unless an attempt was cancelled by shutdown, disconnect or
    deadline. *)
Theorem parallel_phase_outcome `{HL : !HickoryLaws HH} c ph g checks events pe q :
  wf_query q -> g_mode g = Parallel -> execute_parallel c ph g checks events = Some (Ok pe) ->
  (exists a at_ reason, pe = mk_parallel_end [a] [] /\ cx_cancel c = Some (at_, reason) /\
     outcome a = UO_Cancelled reason) \/
  (batch (ph_exchanges ph) (parallel_order g) (pe_running pe) (pe_attempts pe) /\
   (pe_running pe <> [] -> exists l a, pe_attempts pe = l ++ [a] /\ is_positive (outcome a) = true) /\
   ((exists a, a ∈ pe_attempts pe /\ is_positive (outcome a) = true) ->
    (forall x reason, x ∈ pe_attempts pe -> outcome x = UO_Cancelled reason ->
       cancel_priority reason < 3) ->
    exists k r, finish_phase g q (Ok (pe_attempts pe)) =
        Ok (mk_phase_result (mk_aggregated (Some k) (UO_Response r)) false) /\
      resp_class r = RPositive)).
Proof.
  intros Hq Hm H%execute_parallel_joined.
  assert (Hwin : forall attempts tasks, batch (ph_exchanges ph) (parallel_order g) tasks attempts ->
    (exists a, a ∈ attempts /\ is_positive (outcome a) = true) ->
    (forall x reason, x ∈ attempts -> outcome x = UO_Cancelled reason -> cancel_priority reason < 3) ->
    exists k r, finish_phase g q (Ok attempts) =
        Ok (mk_phase_result (mk_aggregated (Some k) (UO_Response r)) false) /\
      resp_class r = RPositive).
  { intros attempts tasks Hb (a & Ha & Hp) Hweak.
    pose proof (index_of_inj _ _ _ _ (NoDup_seq 0 _) Hb) as Hnd.
    destruct (aggregate_positive q attempts a Hq Hnd Ha Hp Hweak) as (k & r & Hagg & Hr & Hf).
    exists k, r. unfold finish_phase. cbn. by rewrite Hm, Hagg, Hf. }
  destruct H as [a [at_ reason] Hc Ho|attempts Hb Hneg|l a tasks Hb Hneg Hp].
  - left. by exists a, at_, reason.
  - right. cbn. split_and!; [done|done|]. eauto.
  - right. cbn. split_and!; [done|eauto|]. eauto.
Qed.

(** A phase that opens the fallback has only the SERVFAIL response to offer. *)
Lemma finish_phase_fallback `{HL : !HickoryLaws HH} g q attempts r :
  wf_query q -> finish_phase g q attempts = Ok r -> pr_enter_fallback r = true ->
  exists rs, pr_result r = mk_aggregated None (UO_Response rs) /\ resp_class rs = RServFail.
Proof.
  intros Hq H Hf. unfold finish_phase in H. apply bind_ok in H as (l & -> & H).
  apply bind_ok in H as (out & Ho & H). apply Ok_inj in H as <-. cbn in *.
  unfold map_err in Ho. destruct (aggregate_with_connector (g_mode g) q l) as [o|] eqn:Ea; [|done].
  apply Ok_inj in Ho as ->. unfold aggregate_with_connector in Ea.
  destruct (first_duplicate _); [done|]. rewrite silent_fold in Ea.
  - destruct (servfail_ok q Hq) as (rs & Hrs & Hc). unfold finish_aggregate in Ea.
    cbn [cancellation selected_response] in Ea. rewrite Hrs in Ea. apply Ok_inj in Ea as <-.
    by exists rs.
  - apply list.Forall_forall. intros x. rewrite sort_by_key_perm. intros Hx.
    unfold should_enter_fallback in Hf. apply andb_true_iff in Hf as [_ Hf].
    rewrite forallb_forall in Hf. apply list_elem_of_In, Hf, bool_decide_eq_true in Hx. done.
Qed.

Lemma execute_phase_finish c ph g q e r g' :
  execute_phase c ph g q e = Some (r, g') -> exists attempts, finish_phase g q attempts = r.
Proof.
  unfold execute_phase. case_bool_decide.
  - intros (p & _ & [= <- <-])%bind_Some. eauto.
  - intros ([p g1] & _ & [= <- <-])%bind_Some. eauto.
Qed.

(** The fallback replaces a failure only: whenever it is consulted, the
    primary phase had nothing but the synthesised SERVFAIL to offer, the request
    was neither cancelled nor past its deadline; an answer or a cancellation of
    the primary phase is returned as it is. *)
Theorem fallback_replaces_failure `{HL : !HickoryLaws HH} c primary fallback q e1 between e2 r g1 out :
  wf_query q ->
  execute_phase c primary.1 primary.2 q e1 = Some (Ok r, g1) ->
  execute_inner c primary fallback q e1 between e2 = Some (Ok out) ->
  (out = pr_result r /\
   (pr_enter_fallback r = false \/ fallback = None \/ is_cancelled c between = true \/
    is_expired (cx_deadline c) between = true)) \/
  (exists ph g r2 g2 rs, fallback = Some (ph, g) /\ execute_phase c ph g q e2 = Some (Ok r2, g2) /\
     out = pr_result r2 /\ is_cancelled c between = false /\
     is_expired (cx_deadline c) between = false /\
     pr_result r = mk_aggregated None (UO_Response rs) /\ resp_class rs = RServFail).
Proof.
  intros Hq H1 H. unfold execute_inner in H. rewrite H1 in H.
  destruct fallback as [[ph g]|]; [|injection H as <-; left; by auto].
  destruct (pr_enter_fallback r) eqn:Ef; cbn [negb orb] in H; [|injection H as <-; left; by auto].
  destruct (is_cancelled c between) eqn:Ec; cbn [orb] in H; [injection H as <-; left; by auto|].
  destruct (is_expired (cx_deadline c) between) eqn:Ed; [injection H as <-; left; by auto|].
  destruct (execute_phase c ph g q e2) as [[[r2|] g2]|] eqn:E2; try done.
  injection H as <-. right. apply execute_phase_finish in H1 as (attempts & H1).
  destruct (finish_phase_fallback _ _ _ _ Hq H1 Ef) as (rs & ? & ?).
  exists ph, g, r2, g2, rs. by split_and!.
Qed.
End ParallelRun.

(** ** Concrete runs *)

Section ExecutorWitness.
Import Sample.

Definition exec_group (mode : SelectionPolicy) : GroupSelector :=
  mk_selector mode [mk_member "a" 1; mk_member "b" 1] [0; 0] 2 [0; 0] 0.
Definition exec_phase : ExecutionPhase := mk_phase [GM_Direct (up "a"); GM_Nested (up "b")] (Some 100).
Definition exec_ctx : Ctx := mk_ctx 100 None.
Definition exec_failure : UpstreamOutcome :=
  UO_TransportFailure (mk_failure (up "a") TF_Connect true).
Definition exec_answer : UpstreamOutcome := UO_Response (Sample.response (positive_msg 0 300)).

(** The first member fails at 4, the second answers at 9. *)
Definition exec_envs : list AttemptEnv :=
  [mk_env 0 0 0 [5; 100] (Some (4, Ok exec_failure)) 5;
   mk_env 5 5 5 [9; 100] (Some (9, Ok exec_answer)) 9].
Definition exec_attempts : list UpstreamAttempt :=
  [mk_attempt 0 (up "a") exec_failure; mk_attempt 1 (up "b") exec_answer].

Example bind_members :
  match new_members (exec_group Failover) [GM_Nested (up "b"); GM_Direct (up "a")] (Some 100) with
  | Ok ph => ph = exec_phase
  | Err _ => False
  end.
Proof. by vm_compute. Qed.

Lemma ordered_phase_outcome_witness :
  exists l a out, exec_attempts = l ++ [a] /\ last_outcome query a out /\
    finish_phase (exec_group Failover) query (Ok exec_attempts) = Ok (mk_phase_result out false).
Proof.
  destruct (ordered_phase_outcome (HH := hickory) exec_ctx exec_phase (exec_group Failover) 0
    exec_envs query exec_attempts query_wf) as (_ & _ & l & a & out & Hl & Ho & Hf).
  - cbn. lia.
  - reflexivity.
  - exists l, a, out. split; [done|]. split; [done|]. rewrite Hf. do 2 f_equal.
    apply (f_equal list.last) in Hl. rewrite last_snoc in Hl. injection Hl as <-. reflexivity.
Defined.

Lemma exec_group_wf mode : selector_wf (exec_group mode).
Proof.
  assert (Hw : weights_ok (g_members (exec_group mode))).
  { split; [done|]. repeat constructor. }
  split; [done| |done|done]. by apply (smooth_inv_zeros [mk_member "a" 1; mk_member "b" 1]).
Qed.

(** Members that never answer: the deadline ends the phase. *)
Lemma ordered_phase_terminates_witness :
  exists attempts g', execute_ordered exec_ctx exec_phase (exec_group LoadBalance) id
    [mk_env 0 0 0 [50; 100] None 100; mk_env 0 0 0 [100] None 100] = Some (Ok attempts, g') /\
    g_in_flight g' = [0; 0].
Proof.
  destruct (ordered_phase_terminates (HH := hickory) exec_ctx exec_phase (exec_group LoadBalance)
    [mk_env 0 0 0 [50; 100] None 100; mk_env 0 0 0 [100] None 100]) as (at' & g' & H & Hf).
  - apply exec_group_wf.
  - cbn. set_solver.
  - done.
  - cbn. lia.
  - constructor; [|constructor; [|constructor]]; exists 100; cbn; (split; [set_solver|lia]).
  - exists at', g'. split; [done|]. rewrite Hf; [done|done|]. repeat constructor; done.
Defined.

Definition exec_end : ParallelEnd := mk_parallel_end [mk_attempt 1 (up "b") exec_answer] [0%nat].

Lemma parallel_phase_outcome_witness :
  exists k r, finish_phase (exec_group Parallel) query (Ok (pe_attempts exec_end)) =
      Ok (mk_phase_result (mk_aggregated (Some k) (UO_Response r)) false) /\
    resp_class r = RPositive.
Proof.
  destruct (parallel_phase_outcome (HH := hickory) exec_ctx exec_phase (exec_group Parallel)
    [0; 0] [(9, Joined 1 exec_answer)] exec_end query query_wf eq_refl eq_refl)
    as [(a & t & r & _ & Hc & _)|(_ & _ & H)]; [done|].
  apply H.
  - exists (mk_attempt 1 (up "b") exec_answer). split; [set_solver|reflexivity].
  - intros x reason ->%list_elem_of_singleton ?. done.
Defined.

Definition exec_phase_env (envs : list AttemptEnv) : PhaseEnv := mk_phase_env 0 id envs [] [].

Definition failing_env : PhaseEnv :=
  exec_phase_env [mk_env 0 0 0 [5] (Some (4, Ok exec_failure)) 5;
                  mk_env 5 5 5 [6] (Some (6, Ok exec_failure)) 6].

Definition phase_connector {HH : Hickory}
    (x : option (result ExecutorError PhaseResult * GroupSelector)) : option (option ConnectorId) :=
  match x with Some (Ok r, _) => Some (ag_connector (pr_result r)) | _ => None end.
Definition inner_connector {HH : Hickory} (x : option (result ExecutorError AggregatedOutcome)) :
    option (option ConnectorId) :=
  match x with Some (Ok r) => Some (ag_connector r) | _ => None end.

Lemma fallback_replaces_failure_witness : exists r g1 out rs,
  execute_phase exec_ctx exec_phase (exec_group Failover) query failing_env = Some (Ok r, g1) /\
  execute_inner exec_ctx (exec_phase, exec_group Failover) (Some (exec_phase, exec_group Failover))
    query failing_env 7 (exec_phase_env exec_envs) = Some (Ok out) /\
  pr_result r = mk_aggregated None (UO_Response rs) /\ ag_connector out = Some (up "b").
Proof.
  assert (K1 : phase_connector (execute_phase exec_ctx exec_phase (exec_group Failover) query
    failing_env) = Some None) by reflexivity.
  assert (K2 : inner_connector (execute_inner exec_ctx (exec_phase, exec_group Failover)
    (Some (exec_phase, exec_group Failover)) query failing_env 7 (exec_phase_env exec_envs)) =
    Some (Some (up "b"))) by reflexivity.
  destruct (execute_phase exec_ctx exec_phase (exec_group Failover) query failing_env)
    as [[[r|] g1]|] eqn:E1; try discriminate K1.
  destruct (execute_inner exec_ctx (exec_phase, exec_group Failover)
    (Some (exec_phase, exec_group Failover)) query failing_env 7 (exec_phase_env exec_envs))
    as [[out|]|] eqn:E2; try discriminate K2.
  cbn [phase_connector inner_connector] in K1, K2. injection K1 as K1. injection K2 as K2.
  destruct (fallback_replaces_failure (HH := hickory) exec_ctx (exec_phase, exec_group Failover)
    (Some (exec_phase, exec_group Failover)) query failing_env 7 (exec_phase_env exec_envs)
    r g1 out query_wf E1 E2) as [[-> _]|(ph & g & r2 & g2 & rs & _ & _ & _ & _ & _ & Hr & _)].
  - congruence.
  - exists r, g1, out, rs. by split_and!.
Defined.
End ExecutorWitness.
