(* ===== verification/Upstreams.v ===== *)
(** * The upstream runtime (src/backend/src/dns/policy.rs, upstream/registry.rs)

    From the configured upstreams to the connectors and group executors that
    answer queries: the connector table, the recursive construction of nested
    groups, and the ECS settings of the members a group can reach. *)

From S2P Require Import Prelude CacheModel Client Group Outcome Executor Plan.

Section Upstreams.
Context {IN : IpNetOps}.

Definition upstream_id (u : ResolvedUpstream) : string :=
  match u with
  | UpstreamHosts id | UpstreamDoh id _ | UpstreamGroup id _ _ _ _ _ _ => id
  end.

(** [matches!(upstream, ResolvedUpstream::Group { .. })]. *)
Definition is_group (u : ResolvedUpstream) : bool :=
  match u with UpstreamGroup _ _ _ _ _ _ _ => true | _ => false end.

Definition direct_upstreams (l : list ResolvedUpstream) : list ResolvedUpstream :=
  filter (fun u => is_group u = false) l.

(** ** The connector registry *)

Inductive RegistryError :=
| RE_InvalidConnectorId (upstream : string)
| RE_DuplicateConnector (connector : string)
| RE_MissingConnector (connector : string)
| RE_UnsupportedUpstream (upstream : string)
| RE_InvalidExchange (upstream : string).

(** [UpstreamRegistry]: the connectors, each an exchange under its own identifier. *)
Abbreviation UpstreamRegistry := (gset ConnectorId).

(** [build_connectors]; [make] builds the hosts or DoH exchange of an upstream. *)
Fixpoint build_connectors (make : ResolvedUpstream -> bool) (connectors : UpstreamRegistry)
    (l : list ResolvedUpstream) : result RegistryError UpstreamRegistry :=
  match l with
  | [] => Ok connectors
  | u :: l' =>
    c ← ok_or (RE_InvalidConnectorId (upstream_id u)) (ConnectorId_new (upstream_id u));
    if bool_decide (c ∈ connectors) then Err (RE_DuplicateConnector (connector_str c))
    else if is_group u then Err (RE_UnsupportedUpstream (upstream_id u))
    else if negb (make u) then Err (RE_InvalidExchange (upstream_id u))
    else build_connectors make ({[c]} ∪ connectors) l'
  end.

Definition registry_get_by_name (r : UpstreamRegistry) (name : string) : result RegistryError ConnectorId :=
  c ← ok_or (RE_InvalidConnectorId name) (ConnectorId_new name);
  if bool_decide (c ∈ r) then Ok c else Err (RE_MissingConnector (connector_str c)).

(** ** Building the runtime *)

(** The reasons of [UpstreamRuntimeBuildError]. [BR_Fuel] is the recursion bound of
    [build_group_executor] below. *)
Inductive BuildReason :=
| BR_DuplicateUpstream
| BR_Registry (e : RegistryError)
| BR_Cycle
| BR_MissingDefinition
| BR_Selector (e : GroupSelectorError)
| BR_FallbackModeMissing
| BR_FallbackTimeoutMissing
| BR_Executor (e : ExecutorBuildError)
| BR_InvalidConnector
| BR_NestedMissing
| BR_NestedInvalid
| BR_NotDirect (member : string)
| BR_Fuel.

Record UpstreamRuntimeBuildError := group_build_error {
  be_upstream : string;
  be_reason : BuildReason
}.

Definition registry_build_error (e : RegistryError) : UpstreamRuntimeBuildError :=
  group_build_error
    match e with
    | RE_InvalidConnectorId s | RE_DuplicateConnector s | RE_MissingConnector s
    | RE_UnsupportedUpstream s | RE_InvalidExchange s => s
    end (BR_Registry e).

(** [UpstreamGroupExecutor]: the phases with the selectors they start from. A nested
    member is the executor stored in the groups table under its name. *)
Record UpstreamGroupExecutor := mk_executor {
  ex_primary : ExecutionPhase * GroupSelector;
  ex_fallback : option (ExecutionPhase * GroupSelector)
}.

(** [UpstreamGroupExecutor::new_with_members] and [new_with_fallback_members]. *)
Definition new_with_members (g : GroupSelector) (members : list GroupMember) (timeout : Duration) :
    result ExecutorBuildError UpstreamGroupExecutor :=
  primary ← new_members g members (Some timeout);
  Ok (mk_executor (primary, g) None).

Definition new_with_fallback_members (g : GroupSelector) (members : list GroupMember)
    (timeout : Duration) (fg : GroupSelector) (fmembers : list GroupMember) (ftimeout : Duration) :
    result ExecutorBuildError UpstreamGroupExecutor :=
  fallback ← new_members fg fmembers (Some ftimeout);
  primary ← new_members g members (Some timeout);
  Ok (mk_executor (primary, g) (Some (fallback, fg))).

(** The exchanges by upstream name: a connector of the registry, or a group behind
    the exchange interface ([GroupExchange]). *)
Inductive NamedExchange := NE_Direct (c : ConnectorId) | NE_Group (c : ConnectorId).
Definition exchange_connector (x : NamedExchange) : ConnectorId :=
  match x with NE_Direct c | NE_Group c => c end.

Record BuildState := mk_build {
  bs_all : gmap string NamedExchange;
  bs_groups : gmap string UpstreamGroupExecutor
}.

Abbreviation BuildResult := (result UpstreamRuntimeBuildError).

(** One member of [group_member_exchanges]; [build] is [build_group_executor] with
    the groups under construction. *)
Definition member_exchange_of (build : string -> BuildState -> BuildResult BuildState)
    (defs : gmap string ResolvedUpstream) (group : string) (m : Member) (st : BuildState) :
    BuildResult (GroupMember * BuildState) :=
  if match defs !! member_name m with Some u => is_group u | None => false end then
    st' ← build (member_name m) st;
    _ ← ok_or (group_build_error group BR_NestedMissing) (bs_groups st' !! member_name m);
    c ← ok_or (group_build_error group BR_NestedInvalid) (ConnectorId_new (member_name m));
    Ok (GM_Nested c, st')
  else match bs_all st !! member_name m with
  | Some x => Ok (GM_Direct (exchange_connector x), st)
  | None => Err (group_build_error group (BR_NotDirect (member_name m)))
  end.

Fixpoint group_member_exchanges (build : string -> BuildState -> BuildResult BuildState)
    (defs : gmap string ResolvedUpstream) (group : string) (members : list Member)
    (st : BuildState) : BuildResult (list GroupMember * BuildState) :=
  match members with
  | [] => Ok ([], st)
  | m :: members' =>
    '(x, st1) ← member_exchange_of build defs group m st;
    '(xs, st2) ← group_member_exchanges build defs group members' st1;
    Ok (x :: xs, st2)
  end.

(** The fallback phase of a group and the executor. *)
Definition group_executor (build : string -> BuildState -> BuildResult BuildState)
    (defs : gmap string ResolvedUpstream) (id : string) (members : list Member)
    (mode : UpstreamMode) (timeout : Duration) (fallbacks : list Member)
    (fmode : option UpstreamMode) (ftimeout : option Duration) (st : BuildState) :
    BuildResult (UpstreamGroupExecutor * BuildState) :=
  let err r := group_build_error id r in
  selector ← map_err (fun e => err (BR_Selector e)) (new_selector (policy_of_mode mode) members);
  '(exchanges, st1) ← group_member_exchanges build defs id members st;
  if bool_decide (fallbacks = []) then
    ex ← map_err (fun e => err (BR_Executor e)) (new_with_members selector exchanges timeout);
    Ok (ex, st1)
  else
    fmode ← ok_or (err BR_FallbackModeMissing) fmode;
    ftimeout ← ok_or (err BR_FallbackTimeoutMissing) ftimeout;
    fselector ← map_err (fun e => err (BR_Selector e)) (new_selector (policy_of_mode fmode) fallbacks);
    '(fexchanges, st2) ← group_member_exchanges build defs id fallbacks st1;
    ex ← map_err (fun e => err (BR_Executor e))
           (new_with_fallback_members selector exchanges timeout fselector fexchanges ftimeout);
    Ok (ex, st2).

(** [build_group_executor]: [building] holds the groups whose construction is in
    progress; it is restored when the call returns. *)
Fixpoint build_group_executor (fuel : nat) (defs : gmap string ResolvedUpstream)
    (building : gset string) (id : string) (st : BuildState) : BuildResult BuildState :=
  match fuel with
  | O => Err (group_build_error id BR_Fuel)
  | S fuel' =>
    if bool_decide (is_Some (bs_groups st !! id)) then Ok st
    else if bool_decide (id ∈ building) then Err (group_build_error id BR_Cycle)
    else match defs !! id with
    | Some (UpstreamGroup _ members mode timeout fallbacks fmode ftimeout) =>
      '(ex, st') ← group_executor (build_group_executor fuel' defs ({[id]} ∪ building)) defs id
                     members mode timeout fallbacks fmode ftimeout st;
      c ← ok_or (group_build_error id BR_InvalidConnector) (ConnectorId_new id);
      Ok (mk_build (<[id := NE_Group c]> (bs_all st')) (<[id := ex]> (bs_groups st')))
    | _ => Err (group_build_error id BR_MissingDefinition)
    end
  end.

(** The loops of [UpstreamRuntime::from_registry]. *)
Fixpoint definition_loop (defs : gmap string ResolvedUpstream) (l : list ResolvedUpstream) :
    BuildResult (gmap string ResolvedUpstream) :=
  match l with
  | [] => Ok defs
  | u :: l' =>
    if bool_decide (is_Some (defs !! upstream_id u))
    then Err (group_build_error (upstream_id u) BR_DuplicateUpstream)
    else definition_loop (<[upstream_id u := u]> defs) l'
  end.

Fixpoint direct_loop (r : UpstreamRegistry) (direct : gmap string ConnectorId)
    (l : list ResolvedUpstream) : BuildResult (gmap string ConnectorId) :=
  match l with
  | [] => Ok direct
  | u :: l' =>
    c ← map_err registry_build_error (registry_get_by_name r (upstream_id u));
    if bool_decide (is_Some (direct !! upstream_id u))
    then Err (group_build_error (upstream_id u) BR_DuplicateUpstream)
    else direct_loop r (<[upstream_id u := c]> direct) l'
  end.

Fixpoint group_loop (fuel : nat) (defs : gmap string ResolvedUpstream)
    (l : list (string * ResolvedUpstream)) (st : BuildState) : BuildResult BuildState :=
  match l with
  | [] => Ok st
  | (id, u) :: l' =>
    st' ← (if is_group u then build_group_executor fuel defs ∅ id st else Ok st);
    group_loop fuel defs l' st'
  end.

(** ** ECS settings of group members *)

Definition explicit_member_ecs (l : list ResolvedUpstream) : gmap string ResolvedEcs :=
  foldl (fun m u => match u with
    | UpstreamDoh id (Some ecs) =>
        if bool_decide (ecs_source ecs = VS_Upstream) then <[id := ecs]> m else m
    | _ => m
    end) ∅ l.

(** [collect_group_member_ecs]: the visited groups and the direct members found,
    with their own setting or [None] to inherit the request's. *)
Abbreviation Collected := (gset string * gmap string (option ResolvedEcs))%type.

Definition collect_member (rec : string -> Collected -> Collected)
    (defs : gmap string ResolvedUpstream) (explicit : gmap string ResolvedEcs)
    (m : Member) (st : Collected) : Collected :=
  if match defs !! member_name m with Some u => is_group u | None => false end
  then rec (member_name m) st
  else (st.1, <[member_name m := explicit !! member_name m]> st.2).

Fixpoint collect_group_member_ecs (fuel : nat) (defs : gmap string ResolvedUpstream)
    (explicit : gmap string ResolvedEcs) (group : string) (st : Collected) : Collected :=
  match fuel with
  | O => st
  | S fuel' =>
    if bool_decide (group ∈ st.1) then st
    else
      let st := ({[group]} ∪ st.1, st.2) in
      match defs !! group with
      | Some (UpstreamGroup _ upstreams _ _ fallbacks _ _) =>
        foldl (fun st m =>
          collect_member (collect_group_member_ecs fuel' defs explicit) defs explicit m st)
          st (upstreams ++ fallbacks)
      | _ => st
      end
  end.

Record UpstreamRuntime := mk_runtime {
  ur_direct : gmap string ConnectorId;
  ur_groups : gmap string UpstreamGroupExecutor;
  ur_all : gmap string NamedExchange;
  ur_group_member_ecs : gmap string (gmap string (option ResolvedEcs))
}.

(** The recursion is bounded by the number of upstreams: every nested call is for a
    group that is not under construction (respectively not visited) yet. *)
Definition build_fuel (defs : gmap string ResolvedUpstream) : nat := S (S (size defs)).

Definition from_registry (upstreams : list ResolvedUpstream) (r : UpstreamRegistry) :
    BuildResult UpstreamRuntime :=
  defs ← definition_loop ∅ upstreams;
  direct ← direct_loop r ∅ (direct_upstreams upstreams);
  st ← group_loop (build_fuel defs) defs (btree_list defs) (mk_build (NE_Direct <$> direct) ∅);
  let explicit := explicit_member_ecs upstreams in
  Ok (mk_runtime direct (bs_groups st) (bs_all st)
        (map_imap (fun id _ =>
           Some (collect_group_member_ecs (build_fuel defs) defs explicit id (∅, ∅)).2)
           (bs_groups st))).

Definition has_member_specific_ecs (rt : UpstreamRuntime) (upstream : string) : bool :=
  match ur_group_member_ecs rt !! upstream with
  | Some members => existsb (fun e => bool_decide (is_Some e.2)) (map_to_list members)
  | None => false
  end.

End Upstreams.

(** ** The graph of groups *)

Section Graph.
Context {IN : IpNetOps} (defs : gmap string ResolvedUpstream) (direct : gmap string ConnectorId).

Definition group_name (name : string) : bool :=
  match defs !! name with Some u => is_group u | None => false end.

Definition members_of (u : ResolvedUpstream) : list string :=
  match u with
  | UpstreamGroup _ upstreams _ _ fallbacks _ _ => member_name <$> upstreams ++ fallbacks
  | _ => []
  end.

(** [h] is a member or fallback of the group [g]. *)
Definition member_edge (g h : string) : Prop :=
  exists u, defs !! g = Some u /\ h ∈ members_of u.
Definition group_edge (g h : string) : Prop := member_edge g h /\ group_name h = true.

(** ** What a built group is bound to *)

Definition member_bound (groups : gmap string UpstreamGroupExecutor) (m : Member)
    (x : GroupMember) : Prop :=
  connector_id x = member_connector m /\
  match x with
  | GM_Nested _ => group_name (member_name m) = true /\ is_Some (groups !! member_name m)
  | GM_Direct c => group_name (member_name m) = false /\ direct !! member_name m = Some c
  end.

Definition phase_bound (groups : gmap string UpstreamGroupExecutor) (members : list Member)
    (mode : UpstreamMode) (timeout : Duration) (ph : ExecutionPhase * GroupSelector) : Prop :=
  Forall2 (member_bound groups) members (ph_exchanges ph.1) /\
  ph_timeout ph.1 = Some timeout /\ new_selector (policy_of_mode mode) members = Ok ph.2.

Definition executor_bound (groups : gmap string UpstreamGroupExecutor) (u : ResolvedUpstream)
    (ex : UpstreamGroupExecutor) : Prop :=
  match u with
  | UpstreamGroup _ members mode timeout fallbacks fmode ftimeout =>
    phase_bound groups members mode timeout (ex_primary ex) /\
    match ex_fallback ex with
    | None => fallbacks = []
    | Some ph => fallbacks <> [] /\ exists fm ft, fmode = Some fm /\ ftimeout = Some ft /\
        phase_bound groups fallbacks fm ft ph
    end
  | _ => False
  end.

(** The groups table grows by executors whose nested members it already holds. *)
Inductive built : gmap string UpstreamGroupExecutor -> Prop :=
| built_empty : built ∅
| built_insert groups id u ex :
    built groups -> groups !! id = None -> defs !! id = Some u ->
    executor_bound groups u ex -> built (<[id := ex]> groups).

Record build_inv (st : BuildState) : Prop := {
  bi_built : built (bs_groups st);
  bi_all : forall name, bs_all st !! name =
    match bs_groups st !! name with
    | Some _ => Some (NE_Group (mk_connector name))
    | None => NE_Direct <$> direct !! name
    end
}.

Definition error_ok (e : UpstreamRuntimeBuildError) : Prop :=
  be_reason e <> BR_Fuel /\
  (be_reason e = BR_Cycle -> tc group_edge (be_upstream e) (be_upstream e)).

(** A step from [st] to [st'] while the groups of [B] are under construction. *)
Record build_step (B : gset string) (st st' : BuildState) : Prop := {
  bp_inv : build_inv st';
  bp_mono : bs_groups st ⊆ bs_groups st';
  bp_frame : forall b, b ∈ B -> bs_groups st !! b = None -> bs_groups st' !! b = None
}.

Definition build_post (B : gset string) (st : BuildState) (id : string)
    (r : result UpstreamRuntimeBuildError BuildState) : Prop :=
  match r with
  | Ok st' => build_step B st st' /\ is_Some (bs_groups st' !! id)
  | Err e => error_ok e
  end.

Lemma build_step_refl B st : build_inv st -> build_step B st st.
Proof. by split. Qed.

Lemma build_step_trans B st1 st2 st3 :
  build_step B st1 st2 -> build_step B st2 st3 -> build_step B st1 st3.
Proof. intros [] []. split; [done|by etrans|auto]. Qed.

Lemma member_bound_mono groups groups' m x :
  groups ⊆ groups' -> member_bound groups m x -> member_bound groups' m x.
Proof.
  intros Hsub [? Hx]. split; [done|]. destruct x as [c|c]; [done|].
  destruct Hx as [? [ex Hex]]. split; [done|]. exists ex. by eapply lookup_weaken.
Qed.

Lemma executor_bound_mono groups groups' u ex :
  groups ⊆ groups' -> executor_bound groups u ex -> executor_bound groups' u ex.
Proof.
  intros Hsub. assert (Hp : forall members mode timeout ph,
    phase_bound groups members mode timeout ph -> phase_bound groups' members mode timeout ph).
  { intros members mode timeout ph (HF & ? & ?). split_and!; [|done..].
    eapply list.Forall2_impl; [exact HF|]. intros m x. by apply member_bound_mono. }
  destruct u; cbn; [done..|]. intros [? Hf]. split; [by apply Hp|].
  destruct (ex_fallback ex); [|done]. naive_solver.
Qed.

Lemma built_lookup groups id ex :
  built groups -> groups !! id = Some ex ->
  exists u, defs !! id = Some u /\ is_group u = true /\ executor_bound groups u ex.
Proof.
  induction 1 as [|groups' id' u' ex' Hb IH Hn Hd He]; [by rewrite lookup_empty|].
  assert (Hsub : groups' ⊆ <[id' := ex']> groups') by (by apply insert_subseteq).
  intros [[<- <-]|[_ Hl]]%lookup_insert_Some.
  - exists u'. split; [done|]. split; [by destruct u'|by eapply executor_bound_mono].
  - destruct (IH Hl) as (u & ? & ? & ?). exists u. split_and!; [done..|].
    by eapply executor_bound_mono.
Qed.

(** Only configured groups are in the table. *)
Lemma built_group_name groups id : built groups -> is_Some (groups !! id) -> group_name id = true.
Proof.
  intros Hb [ex Hl]. destruct (built_lookup _ _ _ Hb Hl) as (u & Hd & Hg & _).
  unfold group_name. by rewrite Hd.
Qed.

(** ** Construction keeps the table bound *)

Context (direct_ok : forall name c, direct !! name = Some c -> c = mk_connector name).

Lemma member_exchange_of_spec build B group m st :
  (forall st, build_inv st -> group_name (member_name m) = true ->
     build_post B st (member_name m) (build (member_name m) st)) ->
  build_inv st ->
  match member_exchange_of build defs group m st with
  | Ok (x, st') => build_step B st st' /\ member_bound (bs_groups st') m x
  | Err e => error_ok e
  end.
Proof.
  intros Hb Hi. unfold member_exchange_of. fold (group_name (member_name m)).
  destruct (group_name (member_name m)) eqn:Hg.
  - pose proof (Hb st Hi eq_refl) as Hp. destruct (build (member_name m) st) as [st'|e]; [|done].
    destruct Hp as [Hs Hx]. cbn. pose proof Hx as [ex Hl]. rewrite Hl. cbn.
    destruct (ConnectorId_new (member_name m)) as [c|] eqn:Hc; cbn; [|by split].
    apply ConnectorId_new_some in Hc as ->. done.
  - rewrite (bi_all _ Hi).
    destruct (bs_groups st !! member_name m) eqn:Hl.
    { assert (group_name (member_name m) = true) by
        (eapply built_group_name; [apply Hi|by eexists]). congruence. }
    destruct (direct !! member_name m) as [c|] eqn:Hd; cbn; [|by split].
    split; [by apply build_step_refl|]. split; [by apply direct_ok|done].
Qed.

Lemma group_member_exchanges_spec build B group members st :
  (forall m st, m ∈ members -> build_inv st -> group_name (member_name m) = true ->
     build_post B st (member_name m) (build (member_name m) st)) ->
  build_inv st ->
  match group_member_exchanges build defs group members st with
  | Ok (xs, st') => build_step B st st' /\ Forall2 (member_bound (bs_groups st')) members xs
  | Err e => error_ok e
  end.
Proof.
  revert st. induction members as [|m members IH]; intros st Hb Hi; cbn [group_member_exchanges].
  { split; [by apply build_step_refl|constructor]. }
  pose proof (member_exchange_of_spec build B group m st) as Hm.
  destruct (member_exchange_of build defs group m st) as [[x st1]|e]; cbn.
  2: { apply Hm; [|done]. intros. apply Hb; [set_solver|done..]. }
  destruct Hm as [Hs1 Hx]; [intros; apply Hb; [set_solver|done..]|done|].
  specialize (IH st1). destruct (group_member_exchanges build defs group members st1) as [[xs st2]|e];
    cbn.
  2: { apply IH; [|apply Hs1]. intros. apply Hb; [set_solver|done..]. }
  destruct IH as [Hs2 HF]; [intros; apply Hb; [set_solver|done..]|apply Hs1|].
  split; [by eapply build_step_trans|]. constructor; [|done].
  eapply member_bound_mono; [|done]. apply Hs2.
Qed.

Lemma fmap_perm_eq {A B} (f : A -> B) (l k : list A) :
  NoDup (f <$> k) -> f <$> l = f <$> k -> l ≡ₚ k -> l = k.
Proof.
  revert k. induction l as [|x l IH]; intros [|y k] Hnd Hf Hp; try discriminate Hf; [done|].
  cbn in Hf. injection Hf as Hxy Hf. cbn in Hnd. apply list.NoDup_cons in Hnd as [Hy Hnd].
  assert (x = y) as ->.
  { assert (Hin : x ∈ y :: k) by (rewrite <-Hp; set_solver).
    apply elem_of_cons in Hin as [->|Hin]; [done|]. exfalso. apply Hy. rewrite <-Hxy.
    by apply list_elem_of_fmap_2. }
  f_equal. apply IH; [done|done|]. by apply (inj (cons y)) in Hp.
Qed.

Lemma new_selector_members mode members g : new_selector mode members = Ok g -> g_members g = members.
Proof. unfold new_selector. intros H. repeat case_bool_decide; try done. inv_ok. by subst. Qed.

Lemma phase_bound_new groups members mode timeout xs g ph :
  Forall2 (member_bound groups) members xs -> new_selector (policy_of_mode mode) members = Ok g ->
  new_members g xs (Some timeout) = Ok ph -> phase_bound groups members mode timeout (ph, g).
Proof.
  intros HF Hg Hn. pose proof (new_selector_members _ _ _ Hg) as Hm.
  apply new_members_ok in Hn as (_ & _ & Hnd & _ & Hc & Hp & Ht). rewrite Hm in Hc.
  assert (Hxs : connector_id <$> xs = member_connector <$> members).
  { clear -HF. induction HF as [|m x ms xs [Hx _] _ IH]; [done|]. cbn. by rewrite Hx, IH. }
  unfold phase_bound. cbn [fst snd]. rewrite (fmap_perm_eq connector_id (ph_exchanges ph) xs); [done|done| |done].
  by rewrite Hc, Hxs.
Qed.

Lemma group_executor_spec build B id members mode timeout fallbacks fmode ftimeout st :
  (forall m st, m ∈ members ++ fallbacks -> build_inv st -> group_name (member_name m) = true ->
     build_post B st (member_name m) (build (member_name m) st)) ->
  build_inv st ->
  match group_executor build defs id members mode timeout fallbacks fmode ftimeout st with
  | Ok (ex, st') => build_step B st st' /\ executor_bound (bs_groups st')
      (UpstreamGroup id members mode timeout fallbacks fmode ftimeout) ex
  | Err e => error_ok e
  end.
Proof.
  intros Hb Hi. unfold group_executor.
  destruct (new_selector (policy_of_mode mode) members) as [g|] eqn:Hg; cbn; [|by split].
  pose proof (group_member_exchanges_spec build B id members st) as Hm.
  destruct (group_member_exchanges build defs id members st) as [[xs st1]|e]; cbn.
  2: { apply Hm; [|done]. intros. apply Hb; [set_solver|done..]. }
  destruct Hm as [Hs1 HF1]; [intros; apply Hb; [set_solver|done..]|done|].
  case_bool_decide as Hfb.
  - unfold new_with_members. destruct (new_members g xs (Some timeout)) as [ph|] eqn:Hn; cbn; [|by split].
    split; [done|]. split; [by eapply phase_bound_new|done].
  - destruct fmode as [fm|]; cbn; [|by split]. destruct ftimeout as [ft|]; cbn; [|by split].
    destruct (new_selector (policy_of_mode fm) fallbacks) as [fg|] eqn:Hfg; cbn; [|by split].
    pose proof (group_member_exchanges_spec build B id fallbacks st1) as Hm.
    destruct (group_member_exchanges build defs id fallbacks st1) as [[fxs st2]|e]; cbn.
    2: { apply Hm; [|apply Hs1]. intros. apply Hb; [set_solver|done..]. }
    destruct Hm as [Hs2 HF2]; [intros; apply Hb; [set_solver|done..]|apply Hs1|].
    unfold new_with_fallback_members.
    destruct (new_members fg fxs (Some ft)) as [fph|] eqn:Hfn; cbn; [|by split].
    destruct (new_members g xs (Some timeout)) as [ph|] eqn:Hn; cbn; [|by split].
    split; [by eapply build_step_trans|]. split.
    + eapply phase_bound_new; [|done..]. eapply list.Forall2_impl; [exact HF1|].
      intros m x. apply member_bound_mono, Hs2.
    + split; [done|]. exists fm, ft. split_and!; [done..|]. by eapply phase_bound_new.
Qed.

(** [building] is the chain of groups that leads to [id], so a repeated name is a
    cycle of the configuration; each level takes a new name, which bounds the depth. *)
Lemma build_group_executor_spec fuel B id st :
  build_inv st -> B ⊆ dom defs -> (size defs < fuel + size B)%nat ->
  (forall b, b ∈ B -> tc group_edge b id) ->
  build_post B st id (build_group_executor fuel defs B id st).
Proof.
  revert B id st. induction fuel as [|fuel IH]; intros B id st Hi HB Hsz Hch.
  { exfalso. apply subseteq_size in HB. rewrite size_dom in HB. lia. }
  cbn [build_group_executor]. case_bool_decide as Hl.
  { split; [by apply build_step_refl|done]. }
  apply eq_None_not_Some in Hl. case_bool_decide as Hin.
  { split; [done|]. intros _. by apply Hch. }
  destruct (defs !! id) as [[| |gid members mode timeout fallbacks fmode ftimeout]|] eqn:Hd;
    try (by split).
  set (B' := {[id]} ∪ B).
  assert (Hedge : forall m, m ∈ members ++ fallbacks -> group_name (member_name m) = true ->
    group_edge id (member_name m)).
  { intros m Hm Hg. split; [|done]. eexists. split; [exact Hd|]. by apply list_elem_of_fmap_2. }
  assert (Hcb : forall m st, m ∈ members ++ fallbacks -> build_inv st ->
    group_name (member_name m) = true ->
    build_post B' st (member_name m) (build_group_executor fuel defs B' (member_name m) st)).
  { intros m st0 Hm Hi0 Hg. unfold B'. apply IH; [done|..].
    - apply elem_of_dom_2 in Hd. set_solver.
    - rewrite size_union by set_solver. rewrite size_singleton. lia.
    - intros b [->%elem_of_singleton|Hb]%elem_of_union; [by apply tc_once, Hedge|].
      eapply tc_r; [by apply Hch|by apply Hedge]. }
  pose proof (group_executor_spec _ B' id members mode timeout fallbacks fmode ftimeout st Hcb Hi)
    as Hx.
  destruct (group_executor _ defs id members mode timeout fallbacks fmode ftimeout st)
    as [[ex st']|e]; cbn; [|done].
  destruct Hx as [Hs He].
  destruct (ConnectorId_new id) as [c|] eqn:Hc; cbn; [|by split].
  apply ConnectorId_new_some in Hc as ->.
  assert (Hn : bs_groups st' !! id = None) by (apply Hs; [set_solver|done]).
  split; [|cbn; rewrite lookup_insert_eq; by eexists].
  destruct Hs as [Hi' Hmono Hframe]. split; cbn.
  - split; cbn.
    + eapply built_insert; [apply Hi'|done|done|done].
    + intros name. destruct (decide (name = id)) as [->|Hne].
      * by rewrite !lookup_insert_eq.
      * rewrite !lookup_insert_ne by done. apply Hi'.
  - etrans; [done|]. by apply insert_subseteq.
  - intros b Hb Hbn. rewrite lookup_insert_ne by set_solver. apply Hframe; [set_solver|done].
Qed.

Lemma group_loop_spec l st :
  (forall id u, (id, u) ∈ l -> defs !! id = Some u) -> build_inv st ->
  match group_loop (build_fuel defs) defs l st with
  | Ok st' => build_step ∅ st st' /\
      forall id u, (id, u) ∈ l -> is_group u = true -> is_Some (bs_groups st' !! id)
  | Err e => error_ok e
  end.
Proof.
  revert st. induction l as [|[id u] l IH]; intros st Hl Hi; cbn [group_loop].
  { split; [by apply build_step_refl|set_solver]. }
  assert (Hstep : build_post ∅ st id (build_group_executor (build_fuel defs) defs ∅ id st)).
  { apply build_group_executor_spec; [done|set_solver| |set_solver].
    unfold build_fuel. rewrite size_empty. lia. }
  destruct (is_group u) eqn:Hg.
  - destruct (build_group_executor _ _ _ _ _) as [st1|e]; cbn; [|done].
    destruct Hstep as [Hs1 Hx]. specialize (IH st1 ltac:(set_solver) ltac:(apply Hs1)).
    destruct (group_loop _ _ l st1) as [st2|e]; [|done]. destruct IH as [Hs2 Hall].
    split; [by eapply build_step_trans|].
    intros id' u' [[= -> ->]|Hin]%elem_of_cons Hg'; [|by eapply Hall].
    destruct Hx as [ex Hx]. exists ex. eapply lookup_weaken; [done|]. apply Hs2.
  - cbn. specialize (IH st ltac:(set_solver) Hi).
    destruct (group_loop _ _ l st) as [st2|e]; [|done]. destruct IH as [Hs2 Hall].
    split; [done|]. intros id' u' [[= -> ->]|Hin]%elem_of_cons Hg'; [congruence|by eapply Hall].
Qed.

End Graph.

(** ** Nested groups are well founded *)

Section Nesting.
Context {IN : IpNetOps} (defs : gmap string ResolvedUpstream) (direct : gmap string ConnectorId).

Lemma executor_bound_nested groups u ex h :
  executor_bound defs direct groups u ex -> h ∈ members_of u -> group_name defs h = true ->
  is_Some (groups !! h).
Proof.
  assert (Hp : forall members mode timeout ph m,
    phase_bound defs direct groups members mode timeout ph -> m ∈ members ->
    group_name defs (member_name m) = true -> is_Some (groups !! member_name m)).
  { intros members mode timeout ph m (HF & _ & _) Hm Hg.
    apply list_elem_of_lookup_1 in Hm as [i Hi].
    destruct (Forall2_lookup_l _ _ _ _ _ HF Hi) as (x & _ & _ & Hx).
    destruct x; [destruct Hx; congruence|apply Hx]. }
  destruct u as [| |gid members mode timeout fallbacks fmode ftimeout]; cbn; [done..|].
  intros [Hpr Hfb] (m & -> & Hm)%list_elem_of_fmap Hg. apply elem_of_app in Hm as [Hm|Hm].
  - by eapply Hp.
  - destruct (ex_fallback ex) as [ph|]; [|set_solver].
    destruct Hfb as (_ & fm & ft & _ & _ & Hph). by eapply Hp.
Qed.

(** The groups of the table nest only groups added before them. *)
Lemma built_acc groups id :
  built defs direct groups -> is_Some (groups !! id) ->
  Acc (fun h g => group_edge defs g h) id.
Proof.
  intros Hb. revert id.
  induction Hb as [|groups id' u ex Hb IH Hn Hd He]; intros id; [by rewrite lookup_empty; intros []|].
  destruct (decide (id = id')) as [->|Hne].
  - intros _. constructor. intros h [(u' & Hu & Hin) Hg].
    rewrite Hd in Hu. injection Hu as <-. apply IH. by eapply executor_bound_nested.
  - rewrite lookup_insert_ne by done. apply IH.
Qed.

(** ** Reachable members *)

Context (explicit : gmap string ResolvedEcs).

Record collect_step (P : string -> Prop) (st st' : gset string * gmap string (option ResolvedEcs)) :
    Prop := {
  cs_mono : st.1 ⊆ st'.1;
  cs_dom : st.1 ⊆ dom defs -> st'.1 ⊆ dom defs;
  cs_new : forall x, x ∈ st'.1 -> x ∉ st.1 -> P x /\ forall m, member_edge defs x m ->
    if group_name defs m then m ∈ st'.1 else is_Some (st'.2 !! m);
  cs_keep : forall m, is_Some (st.2 !! m) -> is_Some (st'.2 !! m);
  cs_value : forall m e, st'.2 !! m = Some e -> st.2 !! m = Some e \/ e = explicit !! m;
  cs_source : forall m, is_Some (st'.2 !! m) -> is_Some (st.2 !! m) \/
    group_name defs m = false /\ exists x, P x /\ member_edge defs x m
}.

Lemma collect_step_refl P st : collect_step P st st.
Proof. split; auto; done. Qed.

Lemma collect_step_trans P st1 st2 st3 :
  collect_step P st1 st2 -> collect_step P st2 st3 -> collect_step P st1 st3.
Proof.
  intros S1 S2. split.
  - etrans; [apply S1|apply S2].
  - intros H. apply S2, S1, H.
  - intros x Hx Hn. destruct (decide (x ∈ st2.1)) as [Hin|Hout].
    + destruct (cs_new _ _ _ S1 x Hin Hn) as [HP Hm]. split; [done|]. intros m He.
      specialize (Hm m He). destruct (group_name defs m); [by apply S2|by apply S2].
    + by apply (cs_new _ _ _ S2).
  - intros m Hm. apply S2, S1, Hm.
  - intros m e [H|H]%(cs_value _ _ _ S2); [by apply (cs_value _ _ _ S1)|by right].
  - intros m [H|H]%(cs_source _ _ _ S2); [by apply (cs_source _ _ _ S1)|by right].
Qed.

Lemma collect_step_weaken (P Q : string -> Prop) st st' :
  (forall x, P x -> Q x) -> collect_step P st st' -> collect_step Q st st'.
Proof.
  intros HPQ []. split; [done|done| |done|done|].
  - naive_solver.
  - intros m [?|(? & x & ? & ?)]%cs_source0; [by left|right; eauto].
Qed.

(** A group or direct member the traversal has dealt with. *)
Definition covered (st : gset string * gmap string (option ResolvedEcs)) (m : string) : Prop :=
  if group_name defs m then m ∈ st.1 else is_Some (st.2 !! m).

Lemma covered_step P st st' m : collect_step P st st' -> covered st m -> covered st' m.
Proof. unfold covered. intros S Hc. destruct (group_name defs m); by apply S. Qed.

Lemma collect_fold (rec : string -> gset string * gmap string (option ResolvedEcs) ->
    gset string * gmap string (option ResolvedEcs)) (P : string -> Prop) V members st :
  (forall m st, m ∈ members -> group_name defs (member_name m) = true -> V ⊆ st.1 ->
     st.1 ⊆ dom defs -> collect_step P st (rec (member_name m) st) /\
     member_name m ∈ (rec (member_name m) st).1) ->
  (forall m, m ∈ members -> exists x, P x /\ member_edge defs x (member_name m)) ->
  V ⊆ st.1 -> st.1 ⊆ dom defs ->
  let st' := foldl (fun st m => collect_member rec defs explicit m st) st members in
  collect_step P st st' /\ Forall (fun m => covered st' (member_name m)) members.
Proof.
  revert st. induction members as [|m members IH]; intros st Hrec Hsrc HV Hdom; cbn.
  { split; [apply collect_step_refl|constructor]. }
  set (st1 := collect_member rec defs explicit m st).
  assert (H1 : collect_step P st st1 /\ covered st1 (member_name m)).
  { unfold st1, collect_member, covered. fold (group_name defs (member_name m)).
    destruct (group_name defs (member_name m)) eqn:Hg.
    { apply Hrec; [set_solver|done..]. }
    cbn. split; [|rewrite lookup_insert_eq; by eexists]. split; cbn; [done|done|done| | |].
    - intros k Hk. destruct (decide (k = member_name m)) as [->|].
      + rewrite lookup_insert_eq. by eexists.
      + by rewrite lookup_insert_ne.
    - intros k e [[<- <-]|[_ ?]]%lookup_insert_Some; auto.
    - intros k [e [[<- <-]|[_ ?]]%lookup_insert_Some]; [right|left; by eexists].
      split; [done|]. apply Hsrc. set_solver. }
  destruct H1 as [S1 C1].
  destruct (IH st1) as [S2 C2].
  - intros m' st' Hm'. apply Hrec. set_solver.
  - intros m' Hm'. apply Hsrc. set_solver.
  - etrans; [done|apply S1].
  - by apply S1.
  - split; [by eapply collect_step_trans|]. constructor; [|done]. by eapply covered_step.
Qed.

Lemma collect_spec fuel g st :
  g ∈ dom defs -> st.1 ⊆ dom defs -> (size defs < fuel + size st.1)%nat ->
  let st' := collect_group_member_ecs fuel defs explicit g st in
  collect_step (rtc (group_edge defs) g) st st' /\ g ∈ st'.1.
Proof.
  revert g st. induction fuel as [|fuel IH]; intros g st Hg Hdom Hsz.
  { exfalso. apply subseteq_size in Hdom. rewrite size_dom in Hdom. lia. }
  cbn [collect_group_member_ecs]. case_bool_decide as Hin.
  { split; [apply collect_step_refl|done]. }
  set (st0 := ({[g]} ∪ st.1, st.2)).
  assert (Hdone : forall st', collect_step (rtc (group_edge defs) g) st0 st' ->
    (forall m, member_edge defs g m -> covered st' m) ->
    collect_step (rtc (group_edge defs) g) st st' /\ g ∈ st'.1).
  { intros st' S0 Hc. assert (Hgin : g ∈ st'.1) by (apply S0; set_solver). split; [|done]. split.
    - etrans; [|apply S0]. set_solver.
    - intros _. apply S0. set_solver.
    - intros x Hx Hn. destruct (decide (x = g)) as [->|Hne]; [by split|].
      apply (cs_new _ _ _ S0); set_solver.
    - apply (cs_keep _ _ _ S0).
    - apply (cs_value _ _ _ S0).
    - apply (cs_source _ _ _ S0). }
  destruct (defs !! g) as [[| |gid upstreams mode timeout fallbacks fmode ftimeout]|] eqn:Hd.
  1, 2, 4: apply Hdone; [apply collect_step_refl|]; intros m (u & Hu & Hm); rewrite Hd in Hu;
    simplify_eq; set_solver.
  assert (Hedge : forall m, m ∈ upstreams ++ fallbacks -> member_edge defs g (member_name m)).
  { intros m Hm. eexists. split; [exact Hd|]. by apply list_elem_of_fmap_2. }
  destruct (collect_fold (collect_group_member_ecs fuel defs explicit) (rtc (group_edge defs) g)
    ({[g]} ∪ st.1) (upstreams ++ fallbacks) st0) as [S C].
  - intros m st1 Hm Hgm HV Hd1. destruct (IH (member_name m) st1) as [S1 H1].
    + unfold group_name in Hgm. destruct (defs !! member_name m) eqn:E; [|done].
      by eapply elem_of_dom_2.
    + done.
    + apply subseteq_size in HV. rewrite size_union in HV by set_solver.
      rewrite size_singleton in HV. lia.
    + split; [|done]. eapply collect_step_weaken; [|done]. intros x Hx.
      eapply rtc_l; [|done]. split; [by apply Hedge|done].
  - intros m Hm. exists g. split; [done|by apply Hedge].
  - done.
  - set_solver.
  - apply Hdone; [done|]. intros h (u & Hu & Hh). rewrite Hd in Hu. injection Hu as <-.
    apply list_elem_of_fmap in Hh as (m & -> & Hm).
    rewrite list.Forall_forall in C. by apply C.
Qed.

(** The traversal finds exactly the direct members that a chain of groups reaches. *)
Lemma collect_reaches g m e :
  g ∈ dom defs ->
  (collect_group_member_ecs (build_fuel defs) defs explicit g (∅, ∅)).2 !! m = Some e <->
  e = explicit !! m /\ group_name defs m = false /\
  exists h, rtc (group_edge defs) g h /\ member_edge defs h m.
Proof.
  intros Hg. destruct (collect_spec (build_fuel defs) g (∅, ∅)) as [S Hin].
  { done. } { set_solver. } { unfold build_fuel. cbn. lia. }
  set (st' := collect_group_member_ecs _ _ _ _ _) in *. split.
  - intros Hl. split_and!.
    + apply (cs_value _ _ _ S) in Hl as [Hl|Hl]; [|done].
      cbn in Hl. by rewrite lookup_empty in Hl.
    + destruct (cs_source _ _ _ S m) as [Hk|[? _]]; [by eexists| |done].
      cbn in Hk. rewrite lookup_empty in Hk. by destruct Hk.
    + destruct (cs_source _ _ _ S m) as [Hk|[_ ?]]; [by eexists| |done].
      cbn in Hk. rewrite lookup_empty in Hk. by destruct Hk.
  - intros (-> & Hm & h & Hr & He).
    assert (Hh : h ∈ st'.1).
    { assert (Hcl : forall x y, x ∈ st'.1 -> group_edge defs x y -> y ∈ st'.1).
      { intros x y Hx [Hxy Hgy]. destruct (cs_new _ _ _ S x Hx) as [_ Hc]; [set_solver|].
        specialize (Hc y Hxy). by rewrite Hgy in Hc. }
      clear -Hcl Hr Hin. clearbody st'. induction Hr; eauto. }
    destruct (cs_new _ _ _ S h Hh) as [_ Hc]; [set_solver|].
    specialize (Hc m He). rewrite Hm in Hc. destruct Hc as [e Hl].
    destruct (cs_value _ _ _ S m e Hl) as [Hk| ->]; [|done].
    cbn in Hk. by rewrite lookup_empty in Hk.
Qed.

End Nesting.

(** ** The runtime of a configuration *)

Section RuntimeSpec.
Context {IN : IpNetOps}.
Implicit Types (l : list ResolvedUpstream).

(** The upstreams by name. *)
Definition definitions l : gmap string ResolvedUpstream :=
  list_to_map ((fun u => (upstream_id u, u)) <$> l).

Lemma definition_loop_spec defs l defs' :
  definition_loop defs l = Ok defs' ->
  NoDup (upstream_id <$> l) /\ (forall u, u ∈ l -> defs !! upstream_id u = None) /\
  defs' = definitions l ∪ defs.
Proof.
  revert defs. induction l as [|u l IH]; intros defs; cbn [definition_loop].
  { intros [= <-]. split_and!; [constructor|set_solver|].
    unfold definitions. cbn. by rewrite (left_id_L ∅ (∪)). }
  case_bool_decide as Hd; [done|]. apply eq_None_not_Some in Hd.
  intros (Hnd & Hn & ->)%IH.
  assert (Hu : upstream_id u ∉ upstream_id <$> l).
  { intros (v & Hv & Hin)%list_elem_of_fmap. apply Hn in Hin. rewrite <-Hv in Hin.
    by rewrite lookup_insert_eq in Hin. }
  split_and!.
  - by constructor.
  - intros v [->|Hv]%elem_of_cons; [done|]. apply Hn in Hv as Hv'.
    apply lookup_insert_None in Hv' as [? _]. done.
  - unfold definitions. cbn. rewrite <-insert_union_l, insert_union_r; [done|].
    apply not_elem_of_list_to_map_1. rewrite <-list_fmap_compose. done.
Qed.

Lemma definitions_lookup l id u :
  NoDup (upstream_id <$> l) -> definitions l !! id = Some u <-> u ∈ l /\ upstream_id u = id.
Proof.
  intros Hnd. unfold definitions. rewrite <-elem_of_list_to_map.
  - rewrite list_elem_of_fmap. split; [intros (v & [= -> ->] & ?); done|]. intros [? <-]. by exists u.
  - by rewrite <-list_fmap_compose.
Qed.

Lemma get_by_name_ok r name c : registry_get_by_name r name = Ok c -> c = mk_connector name /\ c ∈ r.
Proof.
  unfold registry_get_by_name. intros H. inv_ok. case_bool_decide; [|done]. inv_ok. subst.
  by apply ConnectorId_new_some in H0 as ->.
Qed.

Lemma direct_loop_spec r direct l direct' :
  direct_loop r direct l = Ok direct' ->
  direct ⊆ direct' /\
  (forall name c, direct' !! name = Some c -> direct !! name = Some c \/
     c = mk_connector name /\ exists u, u ∈ l /\ upstream_id u = name) /\
  (forall u, u ∈ l -> is_Some (direct' !! upstream_id u)).
Proof.
  revert direct. induction l as [|u l IH]; intros direct; cbn [direct_loop].
  { intros [= <-]. split_and!; [done|auto|set_solver]. }
  destruct (registry_get_by_name r (upstream_id u)) as [c|] eqn:Hc; cbn; [|done].
  apply get_by_name_ok in Hc as [-> _]. case_bool_decide as Hd; [done|].
  apply eq_None_not_Some in Hd. intros (Hsub & Hv & Hin)%IH. split_and!.
  - etrans; [|done]. by apply insert_subseteq.
  - intros name c Hl. destruct (Hv _ _ Hl) as [H|(-> & v & ? & <-)]; [|right; set_solver].
    apply lookup_insert_Some in H as [[<- <-]|[_ ?]]; [right|by left]. set_solver.
  - intros v [->|Hv']%elem_of_cons; [|by apply Hin].
    exists (mk_connector (upstream_id u)). eapply lookup_weaken; [|done]. by rewrite lookup_insert_eq.
Qed.

(** Everything [from_registry] establishes, or why it failed. *)
Lemma from_registry_cases l r :
  match from_registry l r with
  | Ok rt =>
    NoDup (upstream_id <$> l) /\
    (forall u, u ∈ l -> is_group u = false ->
       ur_direct rt !! upstream_id u = Some (mk_connector (upstream_id u))) /\
    built (definitions l) (ur_direct rt) (ur_groups rt) /\
    (forall u, u ∈ l -> is_group u = true -> is_Some (ur_groups rt !! upstream_id u)) /\
    (forall name, is_Some (ur_all rt !! name) <->
       is_Some (ur_groups rt !! name) \/ is_Some (ur_direct rt !! name)) /\
    (forall g, ur_group_member_ecs rt !! g = if decide (is_Some (ur_groups rt !! g))
       then Some (collect_group_member_ecs (build_fuel (definitions l)) (definitions l)
                    (explicit_member_ecs l) g (∅, ∅)).2 else None)
  | Err e => error_ok (definitions l) e
  end.
Proof.
  unfold from_registry. destruct (definition_loop ∅ l) as [defs|e] eqn:Hdef; cbn.
  2: { clear r. revert Hdef. generalize (∅ : gmap string ResolvedUpstream) at 1 as defs.
       generalize (definitions l). intros d. induction l as [|u l IH]; intros defs; cbn; [done|].
       case_bool_decide; [intros [= <-]; by split|]. apply IH. }
  apply definition_loop_spec in Hdef as (Hnd & _ & ->).
  rewrite (right_id_L ∅ (∪)).
  destruct (direct_loop r ∅ (direct_upstreams l)) as [direct|e] eqn:Hdir; cbn.
  2: { revert Hdir. generalize (∅ : gmap string ConnectorId). generalize (direct_upstreams l).
       induction l0 as [|u l0 IH]; intros d; cbn; [done|].
       destruct (registry_get_by_name r (upstream_id u)); cbn; [|intros [= <-]; by split].
       case_bool_decide; [intros [= <-]; by split|]. apply IH. }
  apply direct_loop_spec in Hdir as (_ & Hval & Hall).
  assert (Hdok : forall name c, direct !! name = Some c -> c = mk_connector name).
  { intros name c [H|[? _]]%Hval; [by rewrite lookup_empty in H|done]. }
  pose proof (group_loop_spec (definitions l) direct Hdok (btree_list (definitions l))
    (mk_build (NE_Direct <$> direct) ∅)) as Hg.
  destruct (group_loop _ _ _ _) as [st|e]; cbn.
  2: { apply Hg; [intros; by apply elem_of_btree_list|]. split; cbn; [constructor|].
       intros name. by rewrite lookup_empty, lookup_fmap. }
  destruct Hg as [[[Hb Hall'] _ _] Hgr].
  { intros; by apply elem_of_btree_list. }
  { split; cbn; [constructor|]. intros name. by rewrite lookup_empty, lookup_fmap. }
  split_and!; [done| |done| | |].
  - intros u Hu Hg. destruct (Hall u) as [c Hc]; [by apply list_elem_of_filter|].
    rewrite Hc. f_equal. by apply Hdok.
  - intros u Hu Hg. eapply Hgr; [|done]. apply elem_of_btree_list. by apply definitions_lookup.
  - intros name. rewrite Hall'. destruct (bs_groups st !! name) as [ex|]; [naive_solver|].
    rewrite fmap_is_Some. split; [by right|]. intros [[]|?]; done.
  - intros g. rewrite map_lookup_imap. destruct (bs_groups st !! g) as [ex|]; cbn.
    + by rewrite decide_True by eauto.
    + rewrite decide_False; [done|]. by intros [].
Qed.

(** C39: A runtime is only built for a configuration whose groups do not nest in a
    cycle: the nesting of groups is well founded, every configured group has an
    executor, its phases are bound to its members and fallbacks in their order,
    nested members to executors of the runtime and the others to connectors, and
    every exchange name is a connector or a group, so a query to a configured
    upstream always finds its target. *)
Theorem from_registry_acyclic l r rt :
  from_registry l r = Ok rt ->
  well_founded (fun h g => group_edge (definitions l) g h) /\
  (forall u, u ∈ l -> is_group u = true -> exists ex, ur_groups rt !! upstream_id u = Some ex /\
     executor_bound (definitions l) (ur_direct rt) (ur_groups rt) u ex) /\
  (forall u, u ∈ l -> is_group u = false ->
     ur_direct rt !! upstream_id u = Some (mk_connector (upstream_id u))) /\
  (forall name, is_Some (ur_all rt !! name) <->
     is_Some (ur_groups rt !! name) \/ is_Some (ur_direct rt !! name)).
Proof.
  intros Hok. pose proof (from_registry_cases l r) as Hc. rewrite Hok in Hc.
  destruct Hc as (Hnd & Hdir & Hb & Hall & Hkeys & _). split_and!; [| |done|done].
  - assert (Hacc : forall g, is_Some (definitions l !! g) -> group_name (definitions l) g = true ->
      Acc (fun h g => group_edge (definitions l) g h) g).
    { intros g [u Hu] Hg. eapply built_acc; [done|].
      unfold group_name in Hg. rewrite Hu in Hg.
      apply definitions_lookup in Hu as [Hin <-]; [|done]. by apply Hall. }
    intros g. constructor. intros h [_ Hg]. apply Hacc; [|done].
    unfold group_name in Hg. by destruct (definitions l !! h).
  - intros u Hu Hg. destruct (Hall u Hu Hg) as [ex Hex]. exists ex. split; [done|].
    destruct (built_lookup _ _ _ _ _ Hb Hex) as (u' & Hu' & _ & He).
    apply definitions_lookup in Hu' as [Hin Heq]; [|done].
    assert (u' = u) as ->; [|done]. by apply (NoDup_fmap_eq upstream_id l).
Qed.

(** Construction always ends with a result of its own: the recursion bound is
    never what stops it, and the error that reports a nesting cycle names a group
    that really contains itself. *)
Theorem from_registry_error l r e :
  from_registry l r = Err e ->
  be_reason e <> BR_Fuel /\
  (be_reason e = BR_Cycle -> tc (group_edge (definitions l)) (be_upstream e) (be_upstream e)).
Proof. intros He. pose proof (from_registry_cases l r) as Hc. by rewrite He in Hc. Qed.

(** The ECS table of a group lists exactly the direct upstreams a request to it
    can reach through members, fallbacks and nested groups, each with its own
    setting if it has one. *)
Theorem member_ecs_reachable l r rt g members :
  from_registry l r = Ok rt -> ur_group_member_ecs rt !! g = Some members ->
  forall m e, members !! m = Some e <->
    e = explicit_member_ecs l !! m /\ group_name (definitions l) m = false /\
    exists h, rtc (group_edge (definitions l)) g h /\ member_edge (definitions l) h m.
Proof.
  intros Hok Hg m e. pose proof (from_registry_cases l r) as Hc. rewrite Hok in Hc.
  destruct Hc as (Hnd & _ & Hb & _ & _ & Hecs). rewrite Hecs in Hg.
  case_decide as Hd; [|done]. injection Hg as <-. apply collect_reaches.
  destruct Hd as [ex Hex]. destruct (built_lookup _ _ _ _ _ Hb Hex) as (u & Hu & _).
  by eapply elem_of_dom_2.
Qed.

End RuntimeSpec.

Section RuntimeWitness.
#[local] Existing Instance prefix_nets.

Definition own_ecs : ResolvedEcs := mk_ecs EcsDisabled None VS_Upstream.
Definition group_of (id : string) (members fallbacks : list string) : ResolvedUpstream :=
  UpstreamGroup id ((fun n => mk_member n 1) <$> members) UM_Failover 1
    ((fun n => mk_member n 1) <$> fallbacks) (Some UM_Parallel) (Some 2).

(** [outer] holds [inner] and [b], [inner] holds [a] with the fallback [b]. *)
Definition nested_upstreams : list ResolvedUpstream :=
  [UpstreamDoh "a" None; UpstreamDoh "b" (Some own_ecs); group_of "outer" ["inner"; "b"] [];
   group_of "inner" ["a"] ["b"]].
Definition nested_registry : gset ConnectorId := {[mk_connector "a"; mk_connector "b"]}.

Definition nested_runtime : UpstreamRuntime :=
  match from_registry nested_upstreams nested_registry with
  | Ok rt => rt
  | Err _ => mk_runtime ∅ ∅ ∅ ∅
  end.

Lemma nested_runtime_ok : from_registry nested_upstreams nested_registry = Ok nested_runtime.
Proof. by vm_compute. Qed.

Lemma from_registry_acyclic_witness :
  well_founded (fun h g => group_edge (definitions nested_upstreams) g h) /\
  is_Some (ur_groups nested_runtime !! "outer").
Proof.
  destruct (from_registry_acyclic _ _ _ nested_runtime_ok) as (Hw & Hg & _).
  split; [done|]. destruct (Hg (group_of "outer" ["inner"; "b"] [])) as (ex & Hex & _).
  - right. right. left.
  - done.
  - by exists ex.
Defined.

Lemma from_registry_error_witness : exists e,
  from_registry [group_of "x" ["y"] []; group_of "y" ["x"] []] ∅ = Err e /\
  tc (group_edge (definitions [group_of "x" ["y"] []; group_of "y" ["x"] []]))
    (be_upstream e) (be_upstream e).
Proof.
  exists (group_build_error "x" BR_Cycle).
  assert (E : from_registry [group_of "x" ["y"] []; group_of "y" ["x"] []] ∅ =
    Err (group_build_error "x" BR_Cycle)) by (by vm_compute).
  split; [done|]. by apply (from_registry_error _ _ _ E).
Defined.

Lemma member_ecs_reachable_witness : exists members,
  ur_group_member_ecs nested_runtime !! "outer" = Some members /\
  members !! "a" = Some None /\ members !! "b" = Some (Some own_ecs) /\
  exists h, rtc (group_edge (definitions nested_upstreams)) "outer" h /\
    member_edge (definitions nested_upstreams) h "a".
Proof.
  destruct (ur_group_member_ecs nested_runtime !! "outer") as [members|] eqn:E;
    [|by vm_compute in E].
  exists members. split; [done|].
  assert (K : ur_group_member_ecs nested_runtime !! "outer" =
    Some (<["a" := None]> (<["b" := Some own_ecs]> ∅))) by (by vm_compute).
  rewrite E in K. injection K as ->.
  assert (A : (<["a" := None]> (<["b" := Some own_ecs]> ∅) : gmap string (option ResolvedEcs))
    !! "a" = Some None) by done.
  split_and!; [done|done|].
  by apply (member_ecs_reachable _ _ _ _ _ nested_runtime_ok E "a" None).
Defined.

End RuntimeWitness.
