(* ===== verification/QueryKey.v ===== *)
(** * Upstream queries and cache keys of a request (src/backend/src/dns/policy.rs)

    The ECS option a query is sent with, the semantics fingerprint of the policy
    state, and the two cache keys of a request: the Fast key, looked up before any
    rule is matched, and the Resolved key of the final upstream query. *)

From S2P Require Import Prelude Text Net Message CacheModel CacheKeyEnc Client Hosts Regex.
From S2P Require Import Rules Group Outcome Executor Plan Upstreams.

(** ** Third-party values *)

(** The ECS option of [hickory-proto]: an address and two prefix lengths. *)
Class SubnetOps (HH : Hickory) := {
  subnet_new : IpAddr -> Z -> Z -> ClientSubnet;
  subnet_addr : ClientSubnet -> IpAddr;
  subnet_source : ClientSubnet -> Z;
  subnet_scope : ClientSubnet -> Z
}.

Class SubnetLaws (HH : Hickory) {HS : SubnetOps HH} := {
  subnet_addr_new : forall a p s, subnet_addr (subnet_new a p s) = a;
  subnet_source_new : forall a p s, subnet_source (subnet_new a p s) = p;
  subnet_scope_new : forall a p s, subnet_scope (subnet_new a p s) = s;
  subnet_eta : forall x, subnet_new (subnet_addr x) (subnet_source x) (subnet_scope x) = x
}.

(** [IpNet::new] and [IpNet::network] of the ipnet crate. *)
Class IpNetBuild (IN : IpNetOps) := {
  net_new : IpAddr -> Z -> option IpNet;
  net_network : IpNet -> IpAddr
}.

Definition max_prefix (a : IpAddr) : Z := match a with V4 _ => 32 | V6 _ => 128 end.

(** The bits of an address after its first [p]. *)
Definition host_bits (a : IpAddr) (p : Z) : Z :=
  match a with V4 x => x mod 2 ^ (32 - p) | V6 x => x mod 2 ^ (128 - p) end.

(** An [IpNet] has a prefix length that fits its address family, and its network
    address has no host bits. *)
Class IpNetLaws (IN : IpNetOps) {IB : IpNetBuild IN} := {
  net_new_valid : forall a p, 0 <= p <= max_prefix a -> is_Some (net_new a p);
  net_new_fields : forall a p n, net_new a p = Some n ->
    prefix_len n = p /\ max_prefix (net_network n) = max_prefix a;
  net_prefix_fits : forall n, 0 <= prefix_len n <= max_prefix (net_network n);
  net_network_addr : forall n,
    valid_addr (net_network n) /\ host_bits (net_network n) (prefix_len n) = 0
}.

(** [Name::to_ascii]. *)
Class NameText (HH : Hickory) := { name_ascii : Name -> chars }.

Section QueryKey.
Context {HH : Hickory} {SO : SubnetOps HH} {NT : NameText HH}.
Context {IN : IpNetOps} {IB : IpNetBuild IN} {HN : HickoryName}.
Context (sha256 : list byte -> list byte).

(** ** Requests (dns/context.rs) *)

(** The fields of [DnsRequest] and its context the core reads; the deadline and the
    cancellation are a [Ctx]. *)
Record DnsRequest := mk_dns_request {
  dq_query : CanonicalQuery;
  dq_ctx : Ctx;
  dq_listener_id : string;
  dq_route_id : option (list Z);
  dq_client_id : option string;
  dq_client_addr : option IpAddr;
  dq_cache_compatibility : Z;
  dq_runtime_revision : Z
}.

(** The query name and the policy request both entry points build. *)
Definition request_qname (r : DnsRequest) : result HostsParseError CanonicalDomain :=
  CanonicalDomain_parse (name_ascii (cq_name (query_question (dq_query r)))).

Definition policy_request (r : DnsRequest) (qname : CanonicalDomain) : PolicyRequest :=
  Plan.mk_request (dq_listener_id r) (dq_route_id r) (dq_client_id r) (dq_client_addr r) None
    (Some qname).

(** ** ECS *)

(** A request's own ECS option is used only when its prefixes fit its address, and
    without host bits. *)
Definition normalize_client_subnet (s : ClientSubnet) : option ClientSubnet :=
  let max := max_prefix (subnet_addr s) in
  if (max <? subnet_source s) || (max <? subnet_scope s) then None
  else
    n ← net_new (subnet_addr s) (subnet_source s);
    Some (subnet_new (net_network n) (subnet_source s) (subnet_scope s)).

(** The fixed prefixes always fit, so [IpNet::new(..).expect(..)] does not panic. *)
Definition ecs_prefix (a : IpAddr) : Z := match a with V4 _ => 24 | V6 _ => 56 end.
Definition client_address_subnet (a : IpAddr) : option ClientSubnet :=
  n ← net_new a (ecs_prefix a); Some (subnet_new (net_network n) (ecs_prefix a) 0).

(** The subnet a client-derived ECS setting uses. *)
Definition client_subnet (q : CanonicalQuery) (addr : option IpAddr) : option ClientSubnet :=
  match edns_client_subnet q ≫= normalize_client_subnet with
  | Some s => Some s
  | None => addr ≫= client_address_subnet
  end.

Definition ecs_subnet (q : CanonicalQuery) (e : ResolvedEcs) (addr : option IpAddr) :
    option ClientSubnet :=
  match ecs_mode e with
  | EcsDisabled => None
  | EcsCustom => (fun n => subnet_new (net_network n) (prefix_len n) 0) <$> ecs_custom_ip e
  | EcsClient => client_subnet q addr
  end.

Definition effective_upstream_query (q : CanonicalQuery) (e : ResolvedEcs)
    (addr : option IpAddr) : CanonicalQuery :=
  with_edns_client_subnet q (ecs_subnet q e addr).

(** [PartialEq] of ECS options. *)
Definition subnet_eqb (a b : ClientSubnet) : bool :=
  bool_decide (subnet_addr a = subnet_addr b) && (subnet_source a =? subnet_source b) &&
  (subnet_scope a =? subnet_scope b).
Definition subnet_opt_eqb (a b : option ClientSubnet) : bool :=
  match a, b with
  | Some a, Some b => subnet_eqb a b
  | None, None => true
  | _, _ => false
  end.

(** The member queries are a hash map in the source; only which queries it holds
    matters here, so it is the list of its entries. *)
Record PreparedUpstreamQuery := mk_prepared {
  pq_query : CanonicalQuery;
  pq_member_queries : option (list (string * CanonicalQuery))
}.

(** [matches!(source, ValueSource::Default | ValueSource::Global)]. *)
Definition inherited_source (s : ValueSource) : bool :=
  match s with VS_Default | VS_Global => true | _ => false end.

Definition has_own_ecs (entries : list (string * option ResolvedEcs)) : bool :=
  existsb (fun e => bool_decide (is_Some e.2)) entries.

(** The query prepared for a member: its own setting, or the request's. *)
Definition member_query (q : CanonicalQuery) (selected : ResolvedEcs) (addr : option IpAddr)
    (own : option ResolvedEcs) : CanonicalQuery :=
  effective_upstream_query q (default selected own) addr.

Definition prepare_query (rt : UpstreamRuntime) (upstream : string) (original : CanonicalQuery)
    (selected : ResolvedEcs) (addr : option IpAddr) : PreparedUpstreamQuery :=
  let query := effective_upstream_query original selected addr in
  if negb (inherited_source (ecs_source selected)) then mk_prepared query None
  else match ur_group_member_ecs rt !! upstream with
  | None => mk_prepared query None
  | Some members =>
    if negb (has_own_ecs (btree_list members)) then mk_prepared query None
    else
      let queries := prod_map id (member_query original selected addr) <$> btree_list members in
      match queries with
      | first :: _ =>
        if forallb (fun m => subnet_opt_eqb (edns_client_subnet m.2) (edns_client_subnet first.2))
             queries
        then mk_prepared first.2 None
        else mk_prepared query (Some queries)
      | [] => mk_prepared query (Some queries)
      end
  end.

(** ** Fingerprints *)

(** [hasher.update(len.to_be_bytes()); hasher.update(component)]. *)
Definition fingerprint_component (c : list byte) : list byte :=
  be_bytes 8 (Z.min (bytes_len c) u64_max) ++ c.

Definition cache_fingerprint (input : list byte) : CacheFingerprint := mk_fingerprint (sha256 input).

Definition subnet_bytes (s : ClientSubnet) : list byte :=
  match subnet_addr s with
  | V4 a => x04 :: v4_octets a
  | V6 a => x06 :: v6_octets a
  end ++ be_bytes 1 (subnet_source s) ++ be_bytes 1 (subnet_scope s).
Definition subnet_cache_fingerprint (s : ClientSubnet) : CacheFingerprint :=
  cache_fingerprint (subnet_bytes s).

Definition ecs_cache_fingerprint (q : CanonicalQuery) : option CacheFingerprint :=
  subnet_cache_fingerprint <$> edns_client_subnet q.

Definition request_policy_fingerprint (r : DnsRequest) : option CacheFingerprint :=
  subnet_cache_fingerprint <$> client_subnet (dq_query r) (dq_client_addr r).

(** ** The policy state *)

(** [ResourceVersion] with its derived order. *)
Record ResourceVersion := mk_version { rv_epoch : Z; rv_revision : Z }.
Definition version_ltb (a b : ResourceVersion) : bool :=
  (rv_epoch a <? rv_epoch b) ||
  ((rv_epoch a =? rv_epoch b) && (rv_revision a <? rv_revision b)).

Record PolicyState := mk_policy_state {
  ps_index : PolicyIndex;
  ps_host_versions : gmap string ResourceVersion;
  ps_rule_set_versions : gmap string ResourceVersion;
  ps_semantics_base : list byte;
  ps_host_hashes : gmap string string;
  ps_rule_set_hashes : gmap string string;
  ps_fast_strategies : gmap string bool
}.

(** [b"fluxdns/cache-semantics/v2\0"]. *)
Definition semantics_tag : list byte := str_bytes "fluxdns/cache-semantics/v2" ++ [x00].

Definition hash_components (m : gmap string string) : list byte :=
  btree_list m ≫= fun e => fingerprint_component (str_bytes e.1) ++
                            fingerprint_component (str_bytes e.2).

(** What the hasher of [cache_semantics_fingerprint] is fed. *)
Definition semantics_input (ps : PolicyState) (c : PolicyContext) : list byte :=
  semantics_tag ++ ps_semantics_base ps ++
  fingerprint_component (str_bytes (pc_listener_id c)) ++
  fingerprint_component match pc_route c with
    | Some route => utf8_encode (rm_route_id route)
    | None => []
    end ++
  fingerprint_component (str_bytes (st_id (pc_strategy c))) ++
  fingerprint_component match pc_client c with
    | Matched client _ => str_bytes (client_name client)
    | Unknown => []
    end ++
  hash_components (ps_host_hashes ps) ++ hash_components (ps_rule_set_hashes ps).

Definition cache_semantics_fingerprint (ps : PolicyState) (c : PolicyContext) : CacheFingerprint :=
  cache_fingerprint (semantics_input ps c).

Definition cache_is_enabled (d : CacheDecision) : bool :=
  match d with CacheDisabled => false | CachePool _ _ _ _ => true end.

Definition fast_cache_eligible (ps : PolicyState) (c : PolicyContext) : bool :=
  cache_is_enabled (pc_cache c) && default false (ps_fast_strategies ps !! st_id (pc_strategy c)).

(** [fast_cache_strategies]: a strategy none of whose targets has members with ECS
    settings of their own. *)
Definition strategy_targets (s : ResolvedStrategy) : list string :=
  st_default_upstream s :: omap sr_upstream (st_rules s).
Definition fast_strategy (rt : UpstreamRuntime) (s : ResolvedStrategy) : bool :=
  forallb (fun t => negb (has_member_specific_ecs rt t)) (strategy_targets s).
Definition fast_cache_strategies (strategies : list ResolvedStrategy) (rt : UpstreamRuntime) :
    gmap string bool :=
  foldl (fun m s => <[st_id s := fast_strategy rt s]> m) ∅ strategies.

(** ** Keys *)

Definition ok {E A} (r : result E A) : option A := match r with Ok a => Some a | Err _ => None end.

Definition fast_cache_key (ps : PolicyState) (c : PolicyContext) (r : DnsRequest) : option CacheKey :=
  ns ← decision_namespace (pc_cache c);
  ok (build_cache_key ns (with_edns_client_subnet (dq_query r) None) (dq_cache_compatibility r)
        (mk_dimensions Fast (Some (cache_semantics_fingerprint ps c))
           (request_policy_fingerprint r) None None)).

Definition cache_key_for_query (semantics : CacheFingerprint) (plan : ResolutionPlan)
    (r : DnsRequest) (q : CanonicalQuery) : option CacheKey :=
  ns ← decision_namespace (rp_cache plan);
  ok (build_cache_key ns q (dq_cache_compatibility r)
        (mk_dimensions Resolved (Some semantics) None
           (Some (cache_fingerprint (str_bytes (rp_upstream plan)))) (ecs_cache_fingerprint q))).

(** [prepare_cache_query] *)
Record PreparedCacheQuery := mk_prepared_cache {
  pcq_key : CacheKey;
  pcq_query : CanonicalQuery;
  pcq_upstream : string;
  pcq_semantics : CacheFingerprint
}.

Definition prepare_cache_query (ps : PolicyState) (rt : UpstreamRuntime) (r : DnsRequest) :
    option PreparedCacheQuery :=
  if negb (config_id_ok (dq_listener_id r)) then None
  else
    qname ← ok (request_qname r);
    c ← ok (prepare_context sha256 (ps_index ps) (policy_request r qname));
    let semantics := cache_semantics_fingerprint ps c in
    let fast_key := if fast_cache_eligible ps c then fast_cache_key ps c r else None in
    d ← ok (evaluate_route (ps_index ps) c (Some qname));
    if bool_decide (is_Some (rd_hosts d)) then None
    else
      let plan := into_resolution_plan c d in
      let prepared := prepare_query rt (rp_upstream plan) (dq_query r) (rp_ecs plan)
                        (dq_client_addr r) in
      if bool_decide (is_Some (pq_member_queries prepared)) then None
      else
        key ← match fast_key with
              | Some k => Some k
              | None => cache_key_for_query semantics plan r (pq_query prepared)
              end;
        Some (mk_prepared_cache key (pq_query prepared) (rp_upstream plan) semantics).

End QueryKey.

(** ** Queries that differ only in ECS *)

Section EcsSpec.
Context {HH : Hickory} {HL : HickoryLaws HH} {SO : SubnetOps HH} {SL : SubnetLaws HH}.
Context {IN : IpNetOps} {IB : IpNetBuild IN}.

Lemma subnet_eqb_eq (a b : ClientSubnet) : subnet_eqb a b = true <-> a = b.
Proof.
  unfold subnet_eqb. rewrite !andb_true_iff, bool_decide_eq_true, !Z.eqb_eq. split; [|by intros ->].
  intros [[H1 H2] H3]. rewrite <-(subnet_eta a), <-(subnet_eta b). congruence.
Qed.

Lemma subnet_opt_eqb_eq (a b : option ClientSubnet) : subnet_opt_eqb a b = true <-> a = b.
Proof. destruct a, b; cbn; rewrite ?subnet_eqb_eq; naive_solver. Qed.

Lemma with_ecs_subnet q s : edns_client_subnet (with_edns_client_subnet q s) = s.
Proof.
  unfold edns_client_subnet, with_edns_client_subnet, with_edns. cbn.
  destruct s as [s|], (edns (query_message q)) as [e|]; cbn; [..|done].
  - apply edns_subnet_insert.
  - apply edns_subnet_insert_new.
  - apply edns_subnet_remove.
Qed.

(** Two queries that agree once their ECS option is removed agree with any option. *)
Lemma with_ecs_stripped q1 q2 s :
  with_edns_client_subnet q1 None = with_edns_client_subnet q2 None ->
  with_edns_client_subnet q1 s = with_edns_client_subnet q2 s.
Proof.
  unfold with_edns_client_subnet, with_edns. cbn. intros H. injection H as H1 H2 H3 H4 H5 H6 Hq.
  rewrite H1, H2, H3, H4, H5, H6, Hq. done.
Qed.

Lemma effective_query_eq (q : CanonicalQuery) e1 e2 addr :
  edns_client_subnet (effective_upstream_query q e1 addr) =
  edns_client_subnet (effective_upstream_query q e2 addr) ->
  effective_upstream_query q e1 addr = effective_upstream_query q e2 addr.
Proof. unfold effective_upstream_query. rewrite !with_ecs_subnet. by intros ->. Qed.

Lemma elem_of_member_queries (q : CanonicalQuery) selected addr
    (members : gmap string (option ResolvedEcs)) m mq :
  (m, mq) ∈ prod_map id (member_query q selected addr) <$> btree_list members <->
  exists own, members !! m = Some own /\ mq = member_query q selected addr own.
Proof.
  rewrite list_elem_of_fmap. split.
  - intros ([m' own] & [= -> ->] & Hm%elem_of_btree_list). eauto.
  - intros (own & Hm%elem_of_btree_list & ->). by exists (m, own).
Qed.

(** The prepared query is the request's with the option of one of the settings. *)
Lemma prepared_query_effective rt upstream (q : CanonicalQuery) selected addr :
  exists e, pq_query (prepare_query rt upstream q selected addr) = effective_upstream_query q e addr.
Proof.
  unfold prepare_query. destruct (inherited_source _); cbn; [|by eexists].
  destruct (ur_group_member_ecs rt !! upstream) as [members|]; cbn; [|by eexists].
  destruct (has_own_ecs _); cbn; [|by eexists].
  pose proof (elem_of_member_queries q selected addr members) as Hq.
  destruct (prod_map _ _ <$> btree_list members) as [|[m1 q1] queries]; [by eexists|].
  destruct (forallb _ _); cbn; [|by eexists].
  destruct (proj1 (Hq m1 q1) (list_elem_of_here _ _)) as (own & _ & ->). by eexists.
Qed.

Lemma prepared_question rt upstream (q : CanonicalQuery) selected addr :
  query_question (pq_query (prepare_query rt upstream q selected addr)) = query_question q.
Proof. by destruct (prepared_query_effective rt upstream q selected addr) as [e ->]. Qed.

(** A query whose option differs from that of [q1] is another query. *)
Lemma queries_differ (queries : list (string * CanonicalQuery)) q1 :
  forallb (fun m => subnet_opt_eqb (edns_client_subnet m.2) (edns_client_subnet q1)) queries = false ->
  exists m2 q2, (m2, q2) ∈ queries /\ q2 <> q1.
Proof.
  induction queries as [|[m q] queries IH]; [done|]. cbn.
  destruct (subnet_opt_eqb (edns_client_subnet q) (edns_client_subnet q1)) eqn:E; cbn.
  - intros (m2 & q2 & ? & ?)%IH. set_solver.
  - intros _. exists m, q. split; [set_solver|]. intros ->.
    by rewrite (proj2 (subnet_opt_eqb_eq _ _)) in E.
Qed.

(** A query is prepared for the whole group, which makes the answer cacheable,
    only if every member the group can reach would be sent that same query;
    otherwise each member gets its own. Settings of the rule, strategy or client
    override the members', and then all get the request's. *)
Theorem prepare_query_spec (rt : UpstreamRuntime) upstream (q : CanonicalQuery) selected addr :
  let p := prepare_query rt upstream q selected addr in
  let members := default ∅ (ur_group_member_ecs rt !! upstream) in
  let inherits := inherited_source (ecs_source selected) in
  match pq_member_queries p with
  | None => (inherits = false -> pq_query p = effective_upstream_query q selected addr) /\
      (inherits = true -> forall m own, members !! m = Some own ->
         member_query q selected addr own = pq_query p)
  | Some queries => inherits = true /\ pq_query p = effective_upstream_query q selected addr /\
      (forall m mq, (m, mq) ∈ queries <->
         exists own, members !! m = Some own /\ mq = member_query q selected addr own) /\
      exists m1 m2 q1 q2, (m1, q1) ∈ queries /\ (m2, q2) ∈ queries /\ q2 <> q1
  end.
Proof.
  cbn zeta. unfold prepare_query. destruct (inherited_source (ecs_source selected)); cbn; [|done].
  destruct (ur_group_member_ecs rt !! upstream) as [members|]; cbn;
    [|split; [done|]; intros _ m own; by rewrite lookup_empty].
  destruct (has_own_ecs (btree_list members)) eqn:Hex; cbn [negb].
  2: { split; [done|]. intros _ m own Hm%elem_of_btree_list. destruct own as [own|]; [|done].
       exfalso. apply not_true_iff_false in Hex. apply Hex, existsb_exists.
       exists (m, Some own). split; [by apply list_elem_of_In|done]. }
  pose proof (elem_of_member_queries q selected addr members) as Hq.
  destruct (prod_map _ _ <$> btree_list members) as [|[m1 q1] queries] eqn:Hqs.
  { apply existsb_exists in Hex as ([m own] & Hin%list_elem_of_In & _).
    apply elem_of_btree_list in Hin. exfalso.
    assert (H : (m, member_query q selected addr own) ∈ []) by (apply Hq; eauto). set_solver. }
  assert (H1 : (m1, q1) ∈ (m1, q1) :: queries) by (apply list_elem_of_here).
  destruct (forallb _ _) eqn:Hall; cbn [pq_member_queries pq_query].
  - split; [done|]. intros _ m own Hm. rewrite forallb_forall in Hall.
    apply Hq in H1 as (own1 & _ & Hq1). cbn [snd] in *.
    assert (Hin : (m, member_query q selected addr own) ∈ (m1, q1) :: queries) by (apply Hq; eauto).
    apply list_elem_of_In, Hall, subnet_opt_eqb_eq in Hin. cbn in Hin.
    rewrite Hq1 in Hin |- *. by apply effective_query_eq.
  - split_and!; [done|done|done|].
    destruct (queries_differ _ q1 Hall) as (m2 & q2 & ? & ?). by exists m1, m2, q1, q2.
Qed.

End EcsSpec.

(** ** Keys determine the upstream query *)

Section KeySound.
Context {HH : Hickory} {SO : SubnetOps HH} {SL : SubnetLaws HH} {NT : NameText HH}.
Context {IN : IpNetOps} {IB : IpNetBuild IN} {IL : IpNetLaws IN} {HN : HickoryName}.
Context (sha256 : list byte -> list byte).
Implicit Types (ps : PolicyState) (r : DnsRequest) (c : PolicyContext).

(** Lengths of Rust slices fit in 64 bits. *)
Definition fits (l : list byte) : Prop := bytes_len l <= u64_max.

Lemma component_inj_prefix a b x y :
  fits a -> fits b -> fingerprint_component a ++ x = fingerprint_component b ++ y -> a = b /\ x = y.
Proof.
  unfold fits, fingerprint_component, bytes_len, u64_max. intros Ha Hb H.
  rewrite <-!app_assoc, !Z.min_l in H by lia.
  apply (be_bytes_prefix_inj 8) in H as [Hl H]; [|change (256 ^ Z.of_nat 8) with (2 ^ 64); lia..].
  apply app_inj_1 in H; [done|lia].
Qed.

Definition route_bytes c : list byte :=
  match pc_route c with Some route => utf8_encode (rm_route_id route) | None => [] end.
Definition client_bytes c : list byte :=
  match pc_client c with Matched client _ => str_bytes (client_name client) | Unknown => [] end.

Definition context_fits c : Prop :=
  fits (str_bytes (pc_listener_id c)) /\ fits (route_bytes c) /\
  fits (str_bytes (st_id (pc_strategy c))) /\ fits (client_bytes c).

Lemma semantics_input_inj ps c1 c2 :
  context_fits c1 -> context_fits c2 -> semantics_input ps c1 = semantics_input ps c2 ->
  pc_listener_id c1 = pc_listener_id c2 /\ route_bytes c1 = route_bytes c2 /\
  st_id (pc_strategy c1) = st_id (pc_strategy c2) /\ client_bytes c1 = client_bytes c2.
Proof.
  intros (L1 & R1 & S1 & C1) (L2 & R2 & S2 & C2). unfold semantics_input.
  fold (route_bytes c1) (route_bytes c2) (client_bytes c1) (client_bytes c2).
  intros H. apply app_inv_head, app_inv_head in H.
  apply component_inj_prefix in H as [->%str_bytes_inj H]; [|done..].
  apply component_inj_prefix in H as [-> H]; [|done..].
  apply component_inj_prefix in H as [->%str_bytes_inj H]; [|done..].
  by apply component_inj_prefix in H as [-> _].
Qed.

(** The values a subnet can have. *)
Definition subnet_ok (s : ClientSubnet) : Prop :=
  valid_addr (subnet_addr s) /\ 0 <= subnet_source s <= 255 /\ 0 <= subnet_scope s <= 255.

Lemma subnet_bytes_inj (s1 s2 : ClientSubnet) :
  subnet_ok s1 -> subnet_ok s2 -> subnet_bytes s1 = subnet_bytes s2 -> s1 = s2.
Proof.
  intros (A1 & P1 & Q1) (A2 & P2 & Q2) H. rewrite <-(subnet_eta s1), <-(subnet_eta s2).
  unfold subnet_bytes, v4_octets, v6_octets in H.
  assert (Htail : forall x y, be_bytes 1 (subnet_source s1) ++ be_bytes 1 (subnet_scope s1) =
    be_bytes 1 (subnet_source s2) ++ be_bytes 1 (subnet_scope s2) -> x = y ->
    subnet_new x (subnet_source s1) (subnet_scope s1) =
    subnet_new y (subnet_source s2) (subnet_scope s2)).
  { intros x y Ht ->. apply (be_bytes_prefix_inj 1) in Ht as [-> Ht]; [|cbn; lia..].
    apply be_bytes_inj in Ht as ->; [done|cbn; lia..]. }
  destruct (subnet_addr s1) as [a1|a1], (subnet_addr s2) as [a2|a2]; cbn [app] in H; try done.
  all: apply (f_equal tail) in H; cbn [tail] in H; cbn [valid_addr] in A1, A2.
  - apply (be_bytes_prefix_inj 4) in H as [-> H]; [by apply Htail|..];
      change (256 ^ Z.of_nat 4) with (2 ^ 32); lia.
  - apply (be_bytes_prefix_inj 16) in H as [-> H]; [by apply Htail|..];
      change (256 ^ Z.of_nat 16) with (2 ^ 128); lia.
Qed.

(** The options RFC 7871 allows on the wire: prefixes that fit the address, and no
    address bits beyond the source prefix, which the encoding would drop. *)
Definition wire_subnet (s : ClientSubnet) : Prop :=
  valid_addr (subnet_addr s) /\ 0 <= subnet_source s <= max_prefix (subnet_addr s) /\
  0 <= subnet_scope s <= max_prefix (subnet_addr s) /\
  host_bits (subnet_addr s) (subnet_source s) = 0.
Definition wire_option (s : option ClientSubnet) : Prop := forall x, s = Some x -> wire_subnet x.

Lemma wire_none : wire_option None.
Proof. by intros x. Qed.

Lemma wire_subnet_ok s : wire_subnet s -> subnet_ok s.
Proof.
  intros (Ha & Hp & Hs & _). split; [done|]. destruct (subnet_addr s); cbn in *; lia.
Qed.

(** An option made from a network is one of them. *)
Lemma network_wire n scope :
  0 <= scope <= max_prefix (net_network n) -> wire_subnet (subnet_new (net_network n) (prefix_len n) scope).
Proof.
  intros Hs. unfold wire_subnet. rewrite subnet_addr_new, subnet_source_new, subnet_scope_new.
  destruct (net_network_addr n). pose proof (net_prefix_fits n). split_and!; done || lia.
Qed.

(** What the types of a request guarantee, and the message codec: the query can be
    read back from its encoding, with no ECS option or with one that RFC 7871
    allows. *)
Record request_ok r : Prop := {
  rq_query : wf_query (dq_query r);
  rq_codec : forall s w, wire_option s ->
    to_vec (query_message (with_edns_client_subnet (dq_query r) s)) = Some w ->
    from_vec w = Some (query_message (with_edns_client_subnet (dq_query r) s));
  rq_subnet : forall s, edns_client_subnet (dq_query r) = Some s -> subnet_ok s;
  rq_addr : forall a, dq_client_addr r = Some a -> valid_addr a;
  rq_compat : u64 (dq_cache_compatibility r);
  rq_route : forall p, dq_route_id r = Some p -> Forall (fun ch => is_scalar ch = true) p
}.

Lemma address_subnet_wire a s : client_address_subnet a = Some s -> wire_subnet s.
Proof.
  unfold client_address_subnet. intros (n & [Hp Hm]%net_new_fields & [= <-])%bind_Some.
  rewrite <-Hp. apply network_wire. rewrite Hm. by destruct a.
Qed.

Lemma normalize_subnet_wire s s' :
  subnet_ok s -> normalize_client_subnet s = Some s' -> wire_subnet s'.
Proof.
  intros (Ha & Hp & Hq). unfold normalize_client_subnet.
  destruct (_ || _) eqn:E; [done|]. apply orb_false_iff in E as [E1 E2].
  apply Z.ltb_ge in E1, E2. intros (n & [Hl Hm]%net_new_fields & [= <-])%bind_Some.
  rewrite <-Hl. apply network_wire. lia.
Qed.

Lemma client_subnet_wire r :
  request_ok r -> wire_option (client_subnet (dq_query r) (dq_client_addr r)).
Proof.
  intros Hr s. unfold client_subnet.
  destruct (edns_client_subnet (dq_query r) ≫= _) as [s'|] eqn:E.
  - intros [= <-]. apply bind_Some in E as (e & He & E).
    eapply normalize_subnet_wire; [by apply (rq_subnet _ Hr)|done].
  - intros (a & Ha & H)%bind_Some. by eapply address_subnet_wire.
Qed.

Lemma client_subnet_ok r s :
  request_ok r -> client_subnet (dq_query r) (dq_client_addr r) = Some s -> subnet_ok s.
Proof. intros Hr Hs. by eapply wire_subnet_ok, client_subnet_wire. Qed.

Lemma ecs_subnet_wire r e : request_ok r -> wire_option (ecs_subnet (dq_query r) e (dq_client_addr r)).
Proof.
  intros Hr s. unfold ecs_subnet. destruct (ecs_mode e); [done| |].
  all: first [by apply client_subnet_wire|intros (n & _ & ->)%fmap_Some].
  apply network_wire. pose proof (net_prefix_fits n). lia.
Qed.

(** *** The context *)

Lemma prepare_context_route p pr c :
  prepare_context sha256 p pr = Ok c -> pc_route c = rs_route (pc_routing c).
Proof.
  unfold prepare_context. intros H. apply bind_ok in H as (sel & _ & H).
  apply bind_ok in H as (st & _ & H). apply bind_ok in H as (cache & _ & H).
  by apply Ok_inj in H as <-.
Qed.

Lemma select_routing_inj p pr1 pr2 sel1 sel2 :
  select_routing p pr1 = Ok sel1 -> select_routing p pr2 = Ok sel2 ->
  pr_listener_id pr1 = pr_listener_id pr2 ->
  (forall x, pr_doh_route_id pr1 = Some x -> Forall (fun ch => is_scalar ch = true) x) ->
  (forall x, pr_doh_route_id pr2 = Some x -> Forall (fun ch => is_scalar ch = true) x) ->
  match rs_route sel1 with Some m => utf8_encode (rm_route_id m) | None => [] end =
  match rs_route sel2 with Some m => utf8_encode (rm_route_id m) | None => [] end ->
  sel1 = sel2.
Proof.
  unfold select_routing, select_stream, select_doh. intros H1 H2 Hl S1 S2 He. rewrite <-Hl in H2.
  destruct (ri_listeners (pi_routes p) !! pr_listener_id pr1) as [[st hosts|routes]|].
  - destruct (pr_doh_route_id pr1), (pr_doh_route_id pr2); cbn in H1, H2; try done. congruence.
  - destruct (pr_doh_route_id pr1) as [p1|], (pr_doh_route_id pr2) as [p2|]; cbn in H1, H2; try done.
    assert (p1 = p2) as ->; [|congruence].
    apply ok_or_ok, bind_Some in H1 as (s1 & _ & (t1 & _ & [= <-])%bind_Some).
    apply ok_or_ok, bind_Some in H2 as (s2 & _ & (t2 & _ & [= <-])%bind_Some). cbn in He.
    apply (f_equal utf8_decode) in He. rewrite !utf8_decode_encode in He by auto. congruence.
  - destruct (pr_doh_route_id pr1); done.
Qed.

(** Client names are identifiers, in particular not empty. *)
Definition clients_named (p : PolicyIndex) : Prop :=
  Forall (fun rule => client_name rule <> "") (ci_rules (pi_clients p)).

Lemma match_client_rule idx id addr rule kind :
  match_client idx id addr = Matched rule kind -> rule ∈ ci_rules idx.
Proof.
  unfold match_client, match_cidr, get_by_client_id.
  destruct (id ≫= _) as [rl|] eqn:E.
  - intros [= <- <-]. apply bind_Some in E as (x & _ & (i & _ & E)%bind_Some).
    by eapply list_elem_of_lookup_2.
  - destruct (normalize_client_addr <$> addr); [|done]. destruct (find _ _); [|done].
    destruct (ci_rules idx !! _) eqn:Hr; [|done]. intros [= <- <-]. by eapply list_elem_of_lookup_2.
Qed.

(** Everything a rule evaluation reads from two contexts with the same semantics. *)
Lemma same_semantics_context listeners strategies clients p r1 r2 qn1 qn2 c1 c2 ps :
  policy_inv listeners strategies clients p -> clients_named p ->
  request_ok r1 -> request_ok r2 ->
  prepare_context sha256 p (policy_request r1 qn1) = Ok c1 ->
  prepare_context sha256 p (policy_request r2 qn2) = Ok c2 ->
  context_fits c1 -> context_fits c2 -> semantics_input ps c1 = semantics_input ps c2 ->
  pc_routing c1 = pc_routing c2 /\ pc_strategy c1 = pc_strategy c2 /\
  pc_client_config c1 = pc_client_config c2.
Proof.
  intros Hp Hn Q1 Q2 P1 P2 F1 F2 Hs.
  destruct (semantics_input_inj ps c1 c2 F1 F2 Hs) as (Hl & Hr & Hst & Hc).
  pose proof (context_strategy _ _ _ _ _ _ _ Hp P1) as S1.
  pose proof (context_strategy _ _ _ _ _ _ _ Hp P2) as S2.
  unfold route_bytes in Hr. rewrite (prepare_context_route _ _ _ P1), (prepare_context_route _ _ _ P2) in Hr.
  apply prepare_context_ok in P1 as (sel1 & Hsel1 & R1 & L1 & M1 & G1 & _ & _).
  apply prepare_context_ok in P2 as (sel2 & Hsel2 & R2 & L2 & M2 & G2 & _ & _).
  rewrite R1, R2 in *. split_and!.
  - apply (select_routing_inj p (policy_request r1 qn1) (policy_request r2 qn2)); try done.
    + destruct (select_routing_ok _ _ _ _ _ (pv_routes _ _ _ _ Hp) Hsel1) as [E1 _].
      destruct (select_routing_ok _ _ _ _ _ (pv_routes _ _ _ _ Hp) Hsel2) as [E2 _]. congruence.
    + apply (rq_route _ Q1).
    + apply (rq_route _ Q2).
  - rewrite Hst in S1. congruence.
  - rewrite G1, G2. unfold client_bytes in Hc.
    assert (Hne : forall rl k c, pc_client c = Matched rl k ->
      pc_client c = match_client (pi_clients p) (pr_client_id (policy_request r1 qn1))
        (pr_client_addr (policy_request r1 qn1)) \/
      pc_client c = match_client (pi_clients p) (pr_client_id (policy_request r2 qn2))
        (pr_client_addr (policy_request r2 qn2)) -> str_bytes (client_name rl) <> []).
    { intros rl k c Hm Hc'.
      assert (Hin : rl ∈ ci_rules (pi_clients p))
        by (destruct Hc' as [E|E]; rewrite Hm in E; symmetry in E; by eapply match_client_rule).
      apply (proj1 (list.Forall_forall _ _) Hn) in Hin. intros E. apply Hin.
      by apply str_bytes_inj. }
    destruct (pc_client c1) as [rl1 k1|] eqn:E1, (pc_client c2) as [rl2 k2|] eqn:E2; cbn in *.
    + by apply str_bytes_inj in Hc as ->.
    + exfalso. eapply Hne; [exact E1|left; congruence|done].
    + exfalso. eapply Hne; [exact E2|right; congruence|done].
    + done.
Qed.

Lemma evaluate_route_eq p c1 c2 qn :
  pc_routing c1 = pc_routing c2 -> pc_strategy c1 = pc_strategy c2 ->
  pc_client_config c1 = pc_client_config c2 -> evaluate_route p c1 qn = evaluate_route p c2 qn.
Proof. unfold evaluate_route. by intros -> -> ->. Qed.

(** *** The query *)

(** Equal wire bytes are equal queries. *)
Lemma wire_eq r1 r2 s1 s2 w :
  request_ok r1 -> request_ok r2 -> wire_option s1 -> wire_option s2 ->
  to_vec (query_message (with_edns_client_subnet (dq_query r1) s1)) = Some w ->
  to_vec (query_message (with_edns_client_subnet (dq_query r2) s2)) = Some w ->
  with_edns_client_subnet (dq_query r1) s1 = with_edns_client_subnet (dq_query r2) s2.
Proof.
  intros Q1 Q2 S1 S2 H1%(rq_codec _ Q1) H2%(rq_codec _ Q2); [|done..]. rewrite H1 in H2.
  injection H2 as Hm Hqs Ha Hu Hd He.
  destruct (rq_query _ Q1) as (_ & _ & W1 & _), (rq_query _ Q2) as (_ & _ & W2 & _).
  assert (Hq : query_question (dq_query r1) = query_question (dq_query r2)).
  { rewrite W1, W2 in Hqs. destruct (query_question (dq_query r1)), (query_question (dq_query r2)).
    cbn in Hqs. unfold CanonicalQuestion_to_query in Hqs. cbn in Hqs. congruence. }
  unfold with_edns_client_subnet, with_edns. by rewrite Hq, Hm, Hqs, Ha, Hu, Hd, He.
Qed.

Lemma prepared_query_subnet rt upstream r selected :
  request_ok r -> exists s, wire_option s /\
    pq_query (prepare_query rt upstream (dq_query r) selected (dq_client_addr r)) =
    with_edns_client_subnet (dq_query r) s.
Proof.
  intros Hr. destruct (prepared_query_effective rt upstream (dq_query r) selected (dq_client_addr r))
    as [e ->]. eexists. split; [by apply (ecs_subnet_wire r e)|done].
Qed.

(** The same option gives the same prepared query to requests that agree otherwise. *)
Lemma prepare_query_eq rt upstream (q1 q2 : CanonicalQuery) selected addr1 addr2 :
  with_edns_client_subnet q1 None = with_edns_client_subnet q2 None ->
  client_subnet q1 addr1 = client_subnet q2 addr2 ->
  prepare_query rt upstream q1 selected addr1 = prepare_query rt upstream q2 selected addr2.
Proof.
  intros Hq Hs. assert (He : forall e, effective_upstream_query q1 e addr1 =
    effective_upstream_query q2 e addr2).
  { intros e. unfold effective_upstream_query, ecs_subnet. rewrite Hs. by apply with_ecs_stripped. }
  unfold prepare_query. rewrite He. destruct (inherited_source _); cbn; [|done].
  destruct (ur_group_member_ecs rt !! upstream) as [members|]; cbn; [|done].
  assert (prod_map id (member_query q1 selected addr1) <$> btree_list members =
    prod_map id (member_query q2 selected addr2) <$> btree_list members) as ->; [|done].
  apply list_fmap_ext. intros _ [m own] _. unfold prod_map, member_query. cbn. by rewrite He.
Qed.

(** *** The keys *)

Lemma ok_some {E A} (x : result E A) a : ok x = Some a <-> x = Ok a.
Proof. destruct x; cbn; naive_solver. Qed.

Lemma prepare_cache_query_inv ps rt r a :
  prepare_cache_query sha256 ps rt r = Some a ->
  exists qn c d, request_qname r = Ok qn /\
    prepare_context sha256 (ps_index ps) (policy_request r qn) = Ok c /\
    evaluate_route (ps_index ps) c (Some qn) = Ok d /\
    pcq_upstream a = rd_upstream d /\
    pcq_query a = pq_query (prepare_query rt (rd_upstream d) (dq_query r) (rd_ecs d)
                              (dq_client_addr r)) /\
    (fast_cache_key sha256 ps c r = Some (pcq_key a) \/
     cache_key_for_query sha256 (cache_semantics_fingerprint sha256 ps c)
       (into_resolution_plan c d) r (pcq_query a) = Some (pcq_key a)).
Proof.
  unfold prepare_cache_query. destruct (config_id_ok (dq_listener_id r)); [cbn|done].
  intros (qn & Hqn%ok_some & H)%bind_Some. apply bind_Some in H as (c & Hc%ok_some & H).
  apply bind_Some in H as (d & Hd%ok_some & H).
  case_bool_decide as Hh; [done|]. case_bool_decide as Hm; [done|].
  apply bind_Some in H as (k & Hk & [= <-]). exists qn, c, d. split_and!; try done.
  cbn [pcq_key pcq_query]. destruct (fast_cache_eligible ps c); [|by right].
  destruct (fast_cache_key sha256 ps c r) eqn:E; [left; congruence|by right].
Qed.

(** *** Eligible strategies *)

Lemma fast_strategies_spec (strategies : list ResolvedStrategy) rt id :
  fast_cache_strategies strategies rt !! id = Some true ->
  exists s, s ∈ strategies /\ st_id s = id /\
    forall t, t ∈ strategy_targets s -> has_member_specific_ecs rt t = false.
Proof.
  unfold fast_cache_strategies.
  assert (H : forall m : gmap string bool,
    foldl (fun m s => <[st_id s := fast_strategy rt s]> m) m strategies !! id =
      Some true ->
    m !! id = Some true \/ exists s, s ∈ strategies /\ st_id s = id /\ fast_strategy rt s = true).
  { induction strategies as [|s l IH]; intros m; cbn; [by left|].
    intros [H|(x & ? & ?)]%IH; [|right; exists x; set_solver].
    apply lookup_insert_Some in H as [[<- Ho]|[_ ?]]; [right; exists s; set_solver|by left]. }
  intros [Hm|(s & Hs & Hid & Ho)]%H; [by rewrite lookup_empty in Hm|].
  exists s. split_and!; [done..|]. intros t Ht. unfold fast_strategy in Ho. rewrite forallb_forall in Ho.
  apply list_elem_of_In, Ho in Ht. by apply negb_true_iff.
Qed.

Lemma decided_target p sel st q o :
  decided p sel st q o -> o.1.2 ∈ strategy_targets st.
Proof.
  unfold strategy_targets. intros [h _|i rule kind _ Hi _ _|_ _]; cbn; [set_solver| |set_solver].
  destruct kind; [set_solver..|]. destruct (sr_upstream rule) as [u|] eqn:Hu; cbn; [|set_solver].
  apply elem_of_cons. right. apply list_elem_of_omap. exists rule. split; [|done].
  by eapply list_elem_of_lookup_2.
Qed.

(** The Fast lookup is only tried for strategies none of whose targets has
    members with ECS settings of their own: whatever rule decides the request
    afterwards, one query is prepared for all members. *)
Theorem fast_eligible_uniform listeners strategies clients ps rt pr qn c d q addr :
  policy_inv listeners strategies clients (ps_index ps) ->
  ps_fast_strategies ps = fast_cache_strategies strategies rt ->
  prepare_context sha256 (ps_index ps) pr = Ok c -> fast_cache_eligible ps c = true ->
  evaluate_route (ps_index ps) c (Some qn) = Ok d ->
  prepare_query rt (rd_upstream d) q (rd_ecs d) addr =
  mk_prepared (effective_upstream_query q (rd_ecs d) addr) None.
Proof.
  intros Hp Hf Hc He Hd. unfold fast_cache_eligible in He. rewrite Hf in He.
  apply andb_true_iff in He as [_ He].
  destruct (fast_cache_strategies strategies rt !! _) as [[]|] eqn:E; [|done|done].
  apply fast_strategies_spec in E as (s & Hs & Hid & Ht).
  pose proof (context_strategy _ _ _ _ _ _ _ Hp Hc) as S.
  apply (rv_all _ _ _ (pv_routes _ _ _ _ Hp)) in Hs. rewrite Hid, S in Hs. injection Hs as <-.
  unfold evaluate_route in Hd. apply bind_ok in Hd as ([[[h m] u] e] & Hr & Hd).
  apply Ok_inj in Hd as <-. apply evaluate_rules_decided, decided_target in Hr. cbn in Hr.
  apply Ht in Hr. cbn [rd_upstream rd_ecs]. unfold prepare_query, has_member_specific_ecs in *.
  destruct (inherited_source _); cbn; [|done].
  destruct (ur_group_member_ecs rt !! u) as [members|]; cbn; [|done].
  replace (has_own_ecs (btree_list members)) with false; [done|]. symmetry.
  apply not_true_iff_false. apply not_true_iff_false in Hr. intros (x & Hx & Hs')%existsb_exists.
  apply Hr, existsb_exists. exists x. split; [|done]. destruct x as [k v].
  apply list_elem_of_In, elem_of_btree_list in Hx. by apply list_elem_of_In, elem_of_map_to_list.
Qed.

(** *** One key, one query *)

Context (sha_length : forall x, length (sha256 x) = 32%nat).

Lemma valid_context_namespace p r qn c ns :
  prepare_context sha256 p (policy_request r qn) = Ok c ->
  decision_namespace (pc_cache c) = Some ns -> valid_namespace ns.
Proof.
  intros (sel & _ & _ & _ & _ & _ & _ & Hc)%prepare_context_ok Hn. revert Hc. cbn.
  unfold select_cache, strategy_namespace, CacheStrategyId_from_validated_config_id, map_err.
  destruct (pc_client_config c ≫= rc_cache) as [cache|]; [|destruct (st_cache _) as [cache|]].
  - destruct (co_enabled cache); cbn; [|intros [= Hx]; by rewrite <-Hx in Hn].
    destruct (cache_digest _ _ _ _) as [dg|] eqn:Hd; [|intros [= Hx]; by rewrite <-Hx in Hn].
    destruct (validate_namespace_id _ _ _) as [[]|] eqn:Hv; cbn; [|done]. intros [= Hx].
    rewrite <-Hx in Hn. injection Hn as <-. split; [|done].
    unfold cache_digest in Hd. apply fmap_Some in Hd as (x & _ & ->). apply sha_length.
  - destruct (co_enabled cache); cbn; [|intros [= Hx]; by rewrite <-Hx in Hn].
    destruct (validate_namespace_id _ _ _) as [[]|] eqn:Hv; cbn; [|done]. intros [= Hx].
    rewrite <-Hx in Hn. by injection Hn as <-.
  - destruct (gc_enabled _); intros [= Hx]; rewrite <-Hx in Hn; [|done]. by injection Hn as <-.
Qed.

Lemma valid_fast_dims ps c r :
  valid_dimensions (mk_dimensions Fast (Some (cache_semantics_fingerprint sha256 ps c))
    (request_policy_fingerprint sha256 r) None None).
Proof.
  split; cbn; unfold valid_fingerprint; try done; intros fp.
  - intros [= <-]. apply sha_length.
  - intros (x & _ & ->)%fmap_Some. apply sha_length.
Qed.

Lemma valid_resolved_dims ps c t (q : CanonicalQuery) :
  valid_dimensions (mk_dimensions Resolved (Some (cache_semantics_fingerprint sha256 ps c)) None (Some (cache_fingerprint sha256 t))
    (ecs_cache_fingerprint sha256 q)).
Proof.
  split; cbn; unfold valid_fingerprint; try done; intros fp.
  - intros [= <-]. apply sha_length.
  - intros [= <-]. apply sha_length.
  - intros (x & _ & ->)%fmap_Some. apply sha_length.
Qed.

(** The byte strings hashed for a request. *)
Definition hash_inputs ps rt r : list (list byte) :=
  match ok (request_qname r) ≫= fun qn =>
        ok (prepare_context sha256 (ps_index ps) (policy_request r qn)) with
  | Some c => [semantics_input ps c]
  | None => []
  end ++
  option_list (subnet_bytes <$> client_subnet (dq_query r) (dq_client_addr r)) ++
  option_list (str_bytes ∘ pcq_upstream <$> prepare_cache_query sha256 ps rt r).

Definition no_collision ps rt r1 r2 : Prop :=
  forall x y, x ∈ hash_inputs ps rt r1 -> y ∈ hash_inputs ps rt r2 -> sha256 x = sha256 y -> x = y.

Definition contexts_fit ps r : Prop :=
  forall qn c, request_qname r = Ok qn ->
    prepare_context sha256 (ps_index ps) (policy_request r qn) = Ok c -> context_fits c.

Lemma fast_key_build ps c r k :
  fast_cache_key sha256 ps c r = Some k ->
  exists ns, decision_namespace (pc_cache c) = Some ns /\
    build_cache_key ns (with_edns_client_subnet (dq_query r) None) (dq_cache_compatibility r)
      (mk_dimensions Fast (Some (cache_semantics_fingerprint sha256 ps c))
         (request_policy_fingerprint sha256 r) None None) = Ok k.
Proof. intros (ns & Hn & Hk%ok_some)%bind_Some. eauto. Qed.

Lemma resolved_key_build sem plan r q k :
  cache_key_for_query sha256 sem plan r q = Some k ->
  exists ns, decision_namespace (rp_cache plan) = Some ns /\
    build_cache_key ns q (dq_cache_compatibility r)
      (mk_dimensions Resolved (Some sem) None
         (Some (cache_fingerprint sha256 (str_bytes (rp_upstream plan))))
         (ecs_cache_fingerprint sha256 q)) = Ok k.
Proof. intros (ns & Hn & Hk%ok_some)%bind_Some. eauto. Qed.

Lemma build_key_wire ns (q : CanonicalQuery) t dims k :
  build_cache_key ns q t dims = Ok k -> is_Some (to_vec (query_message q)).
Proof. unfold build_cache_key. intros H. inv_ok. by eexists. Qed.

(** Two requests whose Fast keys agree are evaluated and prepared alike. *)
Lemma fast_key_eq listeners strategies clients ps rt r1 r2 qn1 qn2 c1 c2 k1 k2 :
  policy_inv listeners strategies clients (ps_index ps) -> clients_named (ps_index ps) ->
  request_ok r1 -> request_ok r2 -> context_fits c1 -> context_fits c2 ->
  no_collision ps rt r1 r2 -> request_qname r1 = Ok qn1 -> request_qname r2 = Ok qn2 ->
  prepare_context sha256 (ps_index ps) (policy_request r1 qn1) = Ok c1 ->
  prepare_context sha256 (ps_index ps) (policy_request r2 qn2) = Ok c2 ->
  fast_cache_key sha256 ps c1 r1 = Some k1 -> fast_cache_key sha256 ps c2 r2 = Some k2 ->
  key_encoded k1 = key_encoded k2 ->
  evaluate_route (ps_index ps) c1 (Some qn1) = evaluate_route (ps_index ps) c2 (Some qn2) /\
  forall upstream selected, prepare_query rt upstream (dq_query r1) selected (dq_client_addr r1) =
    prepare_query rt upstream (dq_query r2) selected (dq_client_addr r2).
Proof.
  intros Hp Hn Q1 Q2 F1 F2 Hc N1 N2 P1 P2 K1 K2 Hk.
  apply fast_key_build in K1 as (ns1 & D1 & B1), K2 as (ns2 & D2 & B2).
  destruct (build_cache_key_inj _ _ _ _ _ _ _ _ _ _
    (valid_context_namespace _ _ _ _ _ P1 D1) (valid_context_namespace _ _ _ _ _ P2 D2)
    (rq_compat _ Q1) (rq_compat _ Q2) (valid_fast_dims _ _ _) (valid_fast_dims _ _ _) B1 B2 Hk)
    as (_ & _ & Hd & Hw & _).
  injection Hd as Hsem Hreq.
  assert (Hs : semantics_input ps c1 = semantics_input ps c2).
  { apply Hc; [..|done]; unfold hash_inputs; [rewrite N1|rewrite N2]; cbn;
      [rewrite P1|rewrite P2]; cbn; apply list_elem_of_here. }
  assert (Hsub : client_subnet (dq_query r1) (dq_client_addr r1) =
    client_subnet (dq_query r2) (dq_client_addr r2)).
  { unfold request_policy_fingerprint in Hreq.
    destruct (client_subnet (dq_query r1) _) as [s1|] eqn:E1,
      (client_subnet (dq_query r2) _) as [s2|] eqn:E2; try done.
    f_equal. injection Hreq as Hreq. apply subnet_bytes_inj.
    - by apply (client_subnet_ok r1).
    - by apply (client_subnet_ok r2).
    - apply Hc; [..|done]; unfold hash_inputs; [rewrite E1|rewrite E2]; cbn; set_solver. }
  destruct (build_key_wire _ _ _ _ _ B1) as [w W1].
  pose proof W1 as W2. rewrite Hw in W2.
  pose proof (wire_eq r1 r2 None None w Q1 Q2 wire_none wire_none W1 W2) as Hst.
  assert (Hq : query_question (dq_query r1) = query_question (dq_query r2))
    by exact (f_equal query_question Hst).
  destruct (same_semantics_context _ _ _ _ _ _ _ _ _ _ ps Hp Hn Q1 Q2 P1 P2 F1 F2 Hs)
    as (? & ? & ?).
  split.
  - assert (qn1 = qn2) as -> by (unfold request_qname in *; rewrite Hq in N1; congruence).
    by apply evaluate_route_eq.
  - intros upstream selected. by apply prepare_query_eq.
Qed.

(** C3: A cache key determines the upstream query. Two requests whose prepared
    cache queries have the same encoded key go to the same upstream with exactly
    the same DNS query, ECS option included, whatever their addresses, client ids
    and original options were; in particular an answer found under the Fast key,
    before any rule was matched, is the answer the rules would have led to. *)
Theorem cache_key_sound listeners strategies clients ps rt r1 r2 a b :
  policy_inv listeners strategies clients (ps_index ps) -> clients_named (ps_index ps) ->
  request_ok r1 -> request_ok r2 -> contexts_fit ps r1 -> contexts_fit ps r2 ->
  no_collision ps rt r1 r2 ->
  prepare_cache_query sha256 ps rt r1 = Some a -> prepare_cache_query sha256 ps rt r2 = Some b ->
  key_encoded (pcq_key a) = key_encoded (pcq_key b) ->
  pcq_upstream a = pcq_upstream b /\ pcq_query a = pcq_query b.
Proof.
  intros Hp Hn Q1 Q2 F1 F2 Hc Ha Hb Hk.
  pose proof (prepare_cache_query_inv _ _ _ _ Ha) as (qn1 & c1 & d1 & N1 & P1 & E1 & U1 & Y1 & K1).
  pose proof (prepare_cache_query_inv _ _ _ _ Hb) as (qn2 & c2 & d2 & N2 & P2 & E2 & U2 & Y2 & K2).
  destruct K1 as [K1|K1], K2 as [K2|K2].
  - destruct (fast_key_eq _ _ _ _ rt _ _ _ _ _ _ _ _ Hp Hn Q1 Q2 (F1 _ _ N1 P1) (F2 _ _ N2 P2) Hc
      N1 N2 P1 P2 K1 K2 Hk) as [He Hq].
    rewrite E1, E2 in He. injection He as ->. rewrite U1, U2, Y1, Y2. split; [done|].
    by rewrite Hq.
  - exfalso. apply fast_key_build in K1 as (ns1 & D1 & B1).
    apply resolved_key_build in K2 as (ns2 & D2 & B2).
    destruct (build_cache_key_inj _ _ _ _ _ _ _ _ _ _
      (valid_context_namespace _ _ _ _ _ P1 D1) (valid_context_namespace _ _ _ _ _ P2 D2)
      (rq_compat _ Q1) (rq_compat _ Q2) (valid_fast_dims _ _ _)
      (valid_resolved_dims _ _ _ _) B1 B2 Hk) as (_ & _ & Hd & _). done.
  - exfalso. apply resolved_key_build in K1 as (ns1 & D1 & B1).
    apply fast_key_build in K2 as (ns2 & D2 & B2).
    destruct (build_cache_key_inj _ _ _ _ _ _ _ _ _ _
      (valid_context_namespace _ _ _ _ _ P1 D1) (valid_context_namespace _ _ _ _ _ P2 D2)
      (rq_compat _ Q1) (rq_compat _ Q2) (valid_resolved_dims _ _ _ _)
      (valid_fast_dims _ _ _) B1 B2 Hk) as (_ & _ & Hd & _). done.
  - apply resolved_key_build in K1 as (ns1 & D1 & B1), K2 as (ns2 & D2 & B2).
    destruct (build_cache_key_inj _ _ _ _ _ _ _ _ _ _
      (valid_context_namespace _ _ _ _ _ P1 D1) (valid_context_namespace _ _ _ _ _ P2 D2)
      (rq_compat _ Q1) (rq_compat _ Q2) (valid_resolved_dims _ _ _ _)
      (valid_resolved_dims _ _ _ _) B1 B2 Hk) as (_ & _ & Hd & Hw & _).
    injection Hd as _ Htgt _. split.
    + apply str_bytes_inj, Hc; [unfold hash_inputs; rewrite Ha; set_solver
        |unfold hash_inputs; rewrite Hb; set_solver|]. rewrite U1, U2. exact Htgt.
    + destruct (prepared_query_subnet rt (rd_upstream d1) r1 (rd_ecs d1) Q1) as (s1 & O1 & S1).
      destruct (prepared_query_subnet rt (rd_upstream d2) r2 (rd_ecs d2) Q2) as (s2 & O2 & S2).
      destruct (build_key_wire _ _ _ _ _ B1) as [w W1]. pose proof W1 as W2. rewrite Hw in W2.
      rewrite Y1, S1 in W1 |- *. rewrite Y2, S2 in W2 |- *. by eapply (wire_eq r1 r2 s1 s2).
Qed.

End KeySound.

(** ** A concrete instance *)

Module EcsSample.

(** Names are their text, ECS options triples, networks an address and a prefix. The
    codec knows the query for "ex", with any ECS option, whose address bits beyond
    the source prefix it drops, and encodes every response alike. *)
Abbreviation SMessage := (HMessage (list Z) (option Z) (Z * option (IpAddr * Z * Z))).

#[export] Instance Metadata_eq_dec : EqDecision Metadata.
Proof. solve_decision. Defined.
#[export] Instance query_eq_dec : EqDecision (HQuery (list Z)).
Proof. solve_decision. Defined.
#[export] Instance record_eq_dec : EqDecision (HRecord (list Z) (option Z)).
Proof. solve_decision. Defined.
#[export] Instance message_eq_dec : EqDecision SMessage.
Proof. solve_decision. Defined.

Definition plain_message : SMessage :=
  {| metadata := {| md_id := 0; md_message_type := MT_Query; md_op_code := OP_Query;
       md_authoritative := false; md_truncation := false; md_recursion_desired := true;
       md_recursion_available := false; md_authentic_data := false;
       md_checking_disabled := false; md_response_code := NoError |};
     queries := [{| q_name := lit "ex"; q_type := 1; q_class := 1 |}];
     answers := []; authorities := []; additionals := []; edns := Some (0, None) |}.

Definition with_subnet (s : option (IpAddr * Z * Z)) : SMessage :=
  {| metadata := metadata plain_message; queries := queries plain_message; answers := [];
     authorities := []; additionals := []; edns := Some (0, s) |}.

(** An address without its bits after the first [p]. *)
Definition masked (a : IpAddr) (p : Z) : IpAddr :=
  match a with
  | V4 x => V4 (x mod 2 ^ 32 / 2 ^ (32 - p) * 2 ^ (32 - p))
  | V6 x => V6 (x mod 2 ^ 128 / 2 ^ (128 - p) * 2 ^ (128 - p))
  end.

Definition encode_subnet (s : IpAddr * Z * Z) : list byte :=
  be_bytes 1 s.1.2 ++ be_bytes 1 s.2 ++
  match masked s.1.1 s.1.2 with V4 a => v4_octets a | V6 a => v6_octets a end.
Definition decode_subnet (b : list byte) : IpAddr * Z * Z :=
  let address := drop 2 b in
  (if (length address =? 4)%nat then V4 (from_be address) else V6 (from_be address),
   from_be (take 1 b), from_be (take 1 (drop 1 b))).

Definition encode_message (m : SMessage) : option (list byte) :=
  match md_message_type (metadata m) with
  | MT_Response => Some [x02]
  | MT_Query =>
    let s := edns m ≫= snd in
    if bool_decide (m = with_subnet s)
    then Some (x01 :: match s with Some s => encode_subnet s | None => [] end) else None
  end.
Definition decode_message (b : list byte) : option SMessage :=
  match b with
  | x01 :: [] => Some (with_subnet None)
  | x01 :: s => Some (with_subnet (Some (decode_subnet s)))
  | _ => None
  end.

#[export] Instance hickory : Hickory := {|
  Name := list Z; RData := option Z; Edns := Z * option (IpAddr * Z * Z);
  ClientSubnet := IpAddr * Z * Z;
  name_to_lowercase n := to_ascii_lowercase n;
  name_set_fqdn n := n;
  name_eqb n m := bool_decide (n = m);
  rdata_soa_minimum d := d;
  edns_version e := e.1; edns_new := (0, None); edns_subnet e := e.2;
  edns_remove_subnet e := (e.1, None); edns_insert_subnet s e := (e.1, Some s);
  to_vec := encode_message;
  from_vec := decode_message
|}.

#[export] Instance hickory_laws : HickoryLaws hickory.
Proof.
  split; cbn; try done.
  - intros n. by apply bool_decide_eq_true.
  - intros n m. apply bool_decide_ext. split; congruence.
  - intros n m k H1%bool_decide_eq_true H2%bool_decide_eq_true.
    apply bool_decide_eq_true. congruence.
  - intros n. unfold to_ascii_lowercase. rewrite map_map. apply map_ext. apply ascii_lower_idem.
Qed.

#[export] Instance subnets : SubnetOps hickory := {|
  subnet_new a p s := (a, p, s);
  subnet_addr x := x.1.1; subnet_source x := x.1.2; subnet_scope x := x.2
|}.
#[export] Instance subnet_laws : SubnetLaws hickory.
Proof. split; try done. by intros [[? ?] ?]. Qed.

#[export] Existing Instance prefix_nets.
#[export] Instance nets : IpNetBuild prefix_nets := {|
  net_new a p := if (0 <=? p) && (p <=? max_prefix a) then Some (a, p) else None;
  net_network n := masked n.1 (prefix_clamp n)
|}.

Lemma mask_range x p n : 0 <= p -> 0 <= x < n -> 0 <= x / 2 ^ p * 2 ^ p < n.
Proof.
  intros Hp Hx. assert (0 < 2 ^ p) by (apply Z.pow_pos_nonneg; lia).
  pose proof (Z.div_pos x (2 ^ p)). pose proof (Z.mul_div_le x (2 ^ p)). nia.
Qed.

Lemma masked_family a p : max_prefix (masked a p) = max_prefix a.
Proof. by destruct a. Qed.

Lemma masked_addr a p :
  0 <= p <= max_prefix a -> valid_addr (masked a p) /\ host_bits (masked a p) p = 0.
Proof.
  destruct a as [x|x]; cbn [max_prefix masked valid_addr host_bits]; intros Hp.
  all: split; [apply mask_range; [lia|by apply Z.mod_pos_bound]|].
  all: apply Z.mod_mul, Z.pow_nonzero; lia.
Qed.

(** Masking a normalised address changes nothing. *)
Lemma masked_id a p : valid_addr a -> 0 <= p <= max_prefix a -> host_bits a p = 0 -> masked a p = a.
Proof.
  destruct a as [x|x]; cbn [max_prefix masked valid_addr host_bits]; intros Ha Hp Hh; f_equal.
  all: rewrite (Z.mod_small x) by done.
  - pose proof (Z.div_mod x (2 ^ (32 - p))). assert (2 ^ (32 - p) <> 0) by (apply Z.pow_nonzero; lia). lia.
  - pose proof (Z.div_mod x (2 ^ (128 - p))). assert (2 ^ (128 - p) <> 0) by (apply Z.pow_nonzero; lia). lia.
Qed.

#[export] Instance net_laws : IpNetLaws prefix_nets.
Proof.
  assert (Hc : forall n : IpAddr * Z, 0 <= prefix_clamp n <= max_prefix n.1)
    by (intros [[x|x] p]; unfold prefix_clamp; cbn; lia).
  split; cbn.
  - intros a p Hp. rewrite (proj2 (Z.leb_le 0 p)), (proj2 (Z.leb_le p _)) by lia. by eexists.
  - intros a p n. destruct (Z.leb_spec 0 p), (Z.leb_spec p (max_prefix a)); cbn; try done.
    intros [= <-]. rewrite masked_family. split; [|done].
    unfold prefix_clamp. destruct a; cbn in *; lia.
  - intros n. rewrite masked_family. apply Hc.
  - intros n. apply masked_addr, Hc.
Qed.

Lemma decode_encode_subnet s : wire_subnet s -> decode_subnet (encode_subnet s) = s.
Proof.
  destruct s as [[a p] q]. intros (Ha & Hp & Hq & Hh). cbn [subnet_addr subnet_source subnet_scope subnets
    fst snd] in *.
  assert (Hmax : max_prefix a <= 128) by (by destruct a).
  unfold encode_subnet, decode_subnet. cbn [fst snd]. rewrite (masked_id a p) by done.
  assert (Hc : forall z, exists b, be_bytes 1 z = [b]) by (intros; by eexists).
  pose proof (from_be_be_bytes_small 1 p) as Fp. pose proof (from_be_be_bytes_small 1 q) as Fq.
  destruct (Hc p) as [bp Ep], (Hc q) as [bq Eq]. rewrite Ep, Eq in *. cbn [app drop take firstn skipn].
  rewrite ?take_0, ?drop_0, Fp, Fq by (cbn; lia).
  destruct a as [x|x]; cbn [valid_addr] in Ha.
  - rewrite (length_be_bytes 4 x : length (v4_octets x) = 4%nat). cbn [Nat.eqb].
    unfold v4_octets. by rewrite from_be_be_bytes_small.
  - rewrite (length_be_bytes 16 x : length (v6_octets x) = 16%nat). cbn [Nat.eqb].
    unfold v6_octets. by rewrite from_be_be_bytes_small.
Qed.

(** The codec loses host bits, as RFC 7871 has it. *)
Example decode_encode_truncates :
  decode_subnet (encode_subnet (V4 0x0A010203, 24, 0)) = (V4 0x0A010200, 24, 0).
Proof. by vm_compute. Qed.

#[export] Instance names : NameText hickory := {| name_ascii n := n |}.
#[export] Existing Instance text_names.

(** Any function to 32 bytes will do; this one keeps the length and the first bytes. *)
Definition sha (l : list byte) : list byte :=
  take 32 (be_bytes 4 (bytes_len l) ++ l ++ replicate 32 x00).
Lemma sha_length l : length (sha l) = 32%nat.
Proof.
  unfold sha. rewrite length_take, !length_app, length_be_bytes, length_replicate. lia.
Qed.

(** One strategy that forwards the client's subnet to "cf", with the global cache. *)
Definition ecs : ResolvedEcs := mk_ecs EcsClient None VS_Global.
Definition strategies : list ResolvedStrategy := [mk_strategy "home" [] "cf" None plan_ttl ecs].
Definition listeners : list ResolvedListener := [Udp "lan" "home" None].
Definition build_index : result PolicyBuildError PolicyIndex :=
  policy_from_indexes listeners strategies [] [UpstreamDoh "cf" None]
    (mk_global_cache true plan_optimistic) ∅ ∅.
Definition index : PolicyIndex :=
  match build_index with
  | Ok p => p
  | Err _ => mk_policy (mk_routes ∅ ∅) empty_index ∅ ∅ (mk_global_cache true plan_optimistic) ∅ ∅
  end.
Lemma index_ok : build_index = Ok index.
Proof. by vm_compute. Qed.

Definition runtime : UpstreamRuntime :=
  match from_registry [UpstreamDoh "cf" None] {[mk_connector "cf"]} with
  | Ok rt => rt
  | Err _ => mk_runtime ∅ ∅ ∅ ∅
  end.
Definition state : PolicyState :=
  mk_policy_state index ∅ ∅ [] ∅ ∅ (fast_cache_strategies strategies runtime).

Definition query : CanonicalQuery :=
  {| query_message := plain_message;
     query_question := {| cq_name := lit "ex"; cq_query_type := 1; cq_query_class := 1 |} |}.
Definition request_from (a : IpAddr) : DnsRequest :=
  mk_dns_request query (mk_ctx 100 None) "lan" None None (Some a) 1 1.

Lemma decode_encode_message s w :
  wire_option s -> encode_message (with_subnet s) = Some w -> decode_message w = Some (with_subnet s).
Proof.
  intros Hs Hw. assert (He : encode_message (with_subnet s) =
    Some (x01 :: match s with Some s => encode_subnet s | None => [] end)).
  { unfold encode_message. cbn [metadata with_subnet md_message_type plain_message edns mbind option_bind snd].
    by rewrite bool_decide_true. }
  rewrite He in Hw. injection Hw as <-. destruct s as [s|]; [|done].
  pose proof (decode_encode_subnet s (Hs s eq_refl)) as Hd. revert Hd. unfold decode_message.
  destruct (encode_subnet s) as [|b l] eqn:E; [done|]. by intros ->.
Qed.

Lemma request_from_ok a : valid_addr a -> request_ok (request_from a).
Proof.
  intros Ha. split; try done.
  - split; [|done]. split_and!; try done. by intros e [= <-].
  - intros s w Hs. assert (Hm : query_message (with_edns_client_subnet (dq_query (request_from a)) s) =
      with_subnet s) by (by destruct s).
    rewrite Hm. by apply decode_encode_message.
  - by intros ? [= <-].
Qed.

Definition prepared (a : IpAddr) : option PreparedCacheQuery :=
  prepare_cache_query sha state runtime (request_from a).

End EcsSample.

Section KeyWitness.
Import EcsSample.

Lemma sample_no_collision :
  no_collision sha state runtime (request_from (V4 0x0A010203)) (request_from (V4 0x0A01024D)).
Proof.
  intros x y Hx Hy.
  assert (HF : Forall (fun x => Forall (fun y => sha x = sha y -> x = y)
    (hash_inputs sha state runtime (request_from (V4 0x0A01024D))))
    (hash_inputs sha state runtime (request_from (V4 0x0A010203)))).
  { apply (bool_decide_unpack _). by vm_compute. }
  rewrite list.Forall_forall in HF. specialize (HF x Hx). rewrite list.Forall_forall in HF. by apply HF.
Qed.

Lemma sample_request a : a = V4 0x0A010203 \/ a = V4 0x0A01024D -> request_ok (request_from a).
Proof. intros [->| ->]; apply request_from_ok; cbn; lia. Qed.

Lemma sample_fits a : a = V4 0x0A010203 \/ a = V4 0x0A01024D -> contexts_fit sha state (request_from a).
Proof.
  intros [->| ->] qn c Hq Hc; vm_compute in Hq; apply Ok_inj in Hq as <-;
    vm_compute in Hc; apply Ok_inj in Hc as <-; split_and!; by vm_compute.
Qed.

Lemma sample_policy : policy_inv listeners strategies [] (ps_index state).
Proof. by destruct (policy_from_indexes_inv _ _ _ _ _ _ _ _ index_ok) as [Hp _]. Qed.
Lemma sample_named : clients_named (ps_index state).
Proof. vm_compute. constructor. Qed.

(** "outer" reaches "a", which follows the request, and "b", which sends no option. *)
Lemma prepare_query_spec_witness : exists queries m1 m2 q1 q2,
  pq_member_queries (prepare_query nested_runtime "outer" query ecs (Some (V4 0x0A010203))) =
    Some queries /\ (m1, q1) ∈ queries /\ (m2, q2) ∈ queries /\ q2 <> q1.
Proof.
  pose proof (prepare_query_spec nested_runtime "outer" query ecs (Some (V4 0x0A010203))) as H.
  cbv zeta in H.
  assert (K : match pq_member_queries (prepare_query nested_runtime "outer" query ecs
    (Some (V4 0x0A010203))) with Some _ => true | None => false end = true)
    by (vm_compute; reflexivity).
  destruct (pq_member_queries _) as [qs|]; [|discriminate K].
  destruct H as (_ & _ & _ & m1 & m2 & q1 & q2 & H1 & H2 & Hne).
  exists qs, m1, m2, q1, q2. split; [reflexivity|]. split; [exact H1|]. split; [exact H2|exact Hne].
Defined.

(** 10.1.2.3 and 10.1.2.77 share a key, and with it the query to "cf" with the
    option 10.1.2.0/24. *)
Lemma cache_key_sound_witness : exists a b,
  prepared (V4 0x0A010203) = Some a /\ prepared (V4 0x0A01024D) = Some b /\
  pcq_upstream a = pcq_upstream b /\ pcq_query a = pcq_query b /\
  edns_client_subnet (pcq_query a) = Some (V4 0x0A010200, 24, 0).
Proof.
  assert (Ka : bool_decide (prepared (V4 0x0A010203) = None) = false) by (vm_compute; reflexivity).
  assert (Kb : bool_decide (prepared (V4 0x0A01024D) = None) = false) by (vm_compute; reflexivity).
  destruct (prepared (V4 0x0A010203)) as [a|] eqn:Ea; [clear Ka|discriminate Ka].
  destruct (prepared (V4 0x0A01024D)) as [b|] eqn:Eb; [clear Kb|discriminate Kb].
  assert (Hq : pcq_upstream a = pcq_upstream b /\ pcq_query a = pcq_query b).
  { apply (cache_key_sound sha sha_length listeners strategies [] state runtime
      (request_from (V4 0x0A010203)) (request_from (V4 0x0A01024D))).
    + exact sample_policy.
    + exact sample_named.
    + apply sample_request. by left.
    + apply sample_request. by right.
    + apply sample_fits. by left.
    + apply sample_fits. by right.
    + exact sample_no_collision.
    + exact Ea.
    + exact Eb.
    + assert (Hk : key_encoded ∘ pcq_key <$> prepared (V4 0x0A010203) =
        key_encoded ∘ pcq_key <$> prepared (V4 0x0A01024D)) by (by vm_compute).
      rewrite Ea, Eb in Hk. by injection Hk. }
  assert (K : edns_client_subnet ∘ pcq_query <$> prepared (V4 0x0A010203) =
    Some (Some (V4 0x0A010200, 24, 0))) by (by vm_compute).
  rewrite Ea in K. injection K as K. destruct Hq. exists a, b. by split_and!.
Defined.

Lemma fast_eligible_uniform_witness : exists c d,
  prepare_context sha index (policy_request (request_from (V4 0x0A010203)) (mk_domain (lit "ex"))) = Ok c /\
  fast_cache_eligible state c = true /\
  prepare_query runtime (rd_upstream d) query (rd_ecs d) (Some (V4 0x0A010203)) =
    mk_prepared (effective_upstream_query query (rd_ecs d) (Some (V4 0x0A010203))) None.
Proof.
  destruct (prepare_context sha index (policy_request (request_from (V4 0x0A010203))
    (mk_domain (lit "ex")))) as [c|] eqn:Ec; [|by vm_compute in Ec].
  destruct (evaluate_route index c (Some (mk_domain (lit "ex")))) as [d|] eqn:Ed.
  2: { vm_compute in Ec. apply Ok_inj in Ec. subst c. by vm_compute in Ed. }
  assert (He : fast_cache_eligible state c = true)
    by (vm_compute in Ec; apply Ok_inj in Ec; subst c; by vm_compute).
  exists c, d. split_and!; [done|done|].
  pose proof sample_policy as Hp.
  by apply (fast_eligible_uniform sha listeners strategies [] state runtime
    (policy_request (request_from (V4 0x0A010203)) (mk_domain (lit "ex"))) (mk_domain (lit "ex")) c d).
Defined.

End KeyWitness.
