(* ===== verification/Publish.v ===== *)
(** * Publishing refreshed resources (src/backend/src/dns/policy.rs)

    [publish_hosts_resource] and [publish_rule_set_resource] replace one resource
    of the policy state behind an [ArcSwap]: load the state, compare versions,
    build the next state, compare-and-swap, retry when another publisher was
    faster. The model runs any number of publishers under any interleaving of
    their loads and swaps. *)

From S2P Require Import Prelude Text Net Message CacheModel CacheAdmission CacheStore.
From S2P Require Import CacheFacade Client Hosts Regex Rules Group Outcome Executor Plan.
From S2P Require Import Upstreams QueryKey.

Section Publish.
Context {HH : Hickory} {IN : IpNetOps} {HN : HickoryName}.

(** ** One iteration *)

(** What publication reads of a [ResourceSnapshot]. *)
Record ResourceSnapshot (A : Type) := mk_snapshot {
  sn_resource : string;
  sn_version : ResourceVersion;
  sn_hash : string;
  sn_compiled : A
}.
Arguments mk_snapshot {A}. Arguments sn_resource {A}. Arguments sn_version {A}.
Arguments sn_hash {A}. Arguments sn_compiled {A}.

Inductive PolicyResourcePublishError :=
| UnknownResource (resource : string)
| StaleVersion (resource : string) (current candidate : ResourceVersion).

(** The state one loop iteration of [publish_hosts_resource] tries to store. *)
Definition next_hosts (cur : PolicyState) (s : ResourceSnapshot HostsIndex) :
    result PolicyResourcePublishError PolicyState :=
  let resource := sn_resource s in
  version ← ok_or (UnknownResource resource) (ps_host_versions cur !! resource);
  if negb (version_ltb version (sn_version s)) then
    Err (StaleVersion resource version (sn_version s))
  else
    index ← map_err (fun _ => UnknownResource resource)
              (replace_hosts_resource (ps_index cur) resource (sn_compiled s));
    Ok (mk_policy_state index (<[resource := sn_version s]> (ps_host_versions cur))
          (ps_rule_set_versions cur) (ps_semantics_base cur)
          (<[resource := sn_hash s]> (ps_host_hashes cur)) (ps_rule_set_hashes cur)
          (ps_fast_strategies cur)).

Definition next_rule_set (cur : PolicyState) (s : ResourceSnapshot RuleResource) :
    result PolicyResourcePublishError PolicyState :=
  let resource := sn_resource s in
  version ← ok_or (UnknownResource resource) (ps_rule_set_versions cur !! resource);
  if negb (version_ltb version (sn_version s)) then
    Err (StaleVersion resource version (sn_version s))
  else
    index ← map_err (fun _ => UnknownResource resource)
              (replace_rule_set_resource (ps_index cur) resource (sn_compiled s));
    Ok (mk_policy_state index (ps_host_versions cur)
          (<[resource := sn_version s]> (ps_rule_set_versions cur)) (ps_semantics_base cur)
          (ps_host_hashes cur) (<[resource := sn_hash s]> (ps_rule_set_hashes cur))
          (ps_fast_strategies cur)).

Inductive Snapshot :=
| Hosts_snapshot (s : ResourceSnapshot HostsIndex)
| Rule_snapshot (s : ResourceSnapshot RuleResource).

Definition publish_next (cur : PolicyState) (s : Snapshot) :
    result PolicyResourcePublishError PolicyState :=
  match s with
  | Hosts_snapshot s => next_hosts cur s
  | Rule_snapshot s => next_rule_set cur s
  end.

(** ** Interleaved publishers *)

(** A publisher at the top of its loop, between its load and its swap (with the
    pointer it loaded and the state it built), or returned. *)
Inductive Publisher :=
| Looping
| Swapping (ptr : nat) (next : PolicyState)
| Returned (res : result PolicyResourcePublishError unit).

(** The [ArcSwap] cell: the allocation it points to and its content. A loaded
    pointer is kept alive, so the allocation of a stored state is always new. *)
Record System := mk_system {
  sy_ptr : nat;
  sy_state : PolicyState;
  sy_publishers : list (Snapshot * Publisher)
}.

Definition publisher_step (y : System) (s : Snapshot) (p : Publisher) :
    option (Publisher * nat * PolicyState) :=
  match p with
  | Looping =>
      match publish_next (sy_state y) s with
      | Ok next => Some (Swapping (sy_ptr y) next, sy_ptr y, sy_state y)
      | Err e => Some (Returned (Err e), sy_ptr y, sy_state y)
      end
  | Swapping ptr next =>
      if bool_decide (ptr = sy_ptr y) then Some (Returned (Ok ()), S (sy_ptr y), next)
      else Some (Looping, sy_ptr y, sy_state y)
  | Returned _ => None
  end.

Inductive publish_step : System -> System -> Prop :=
| publisher_steps y l1 l2 s p p' ptr st :
    sy_publishers y = l1 ++ (s, p) :: l2 ->
    publisher_step y s p = Some (p', ptr, st) ->
    publish_step y (mk_system ptr st (l1 ++ (s, p') :: l2)).

Definition publish_init (ps : PolicyState) (ss : list Snapshot) : System :=
  mk_system 0 ps ((fun s => (s, Looping)) <$> ss).

Inductive publish_runs : nat -> System -> System -> Prop :=
| pr_refl y : publish_runs 0 y y
| pr_step n y1 y2 y3 : publish_runs n y1 y2 -> publish_step y2 y3 -> publish_runs (S n) y1 y3.

(** ** The order of versions *)

Definition version_le (a b : ResourceVersion) : Prop := version_ltb b a = false.

Lemma version_le_refl a : version_le a a.
Proof. unfold version_le, version_ltb. lia. Qed.

Lemma version_le_trans a b c : version_le a b -> version_le b c -> version_le a c.
Proof. unfold version_le, version_ltb. lia. Qed.

Lemma version_lt_le a b : version_ltb a b = true -> version_le a b.
Proof. unfold version_le, version_ltb. lia. Qed.

Lemma version_lt_irrefl a b : version_le a b -> version_ltb b a = true -> False.
Proof. unfold version_le. congruence. Qed.

(** ** The sequential specification *)

(** Where a snapshot belongs: the kind of resource and its name. *)
Definition slot (s : Snapshot) : bool * string :=
  match s with
  | Hosts_snapshot s => (true, sn_resource s)
  | Rule_snapshot s => (false, sn_resource s)
  end.
Definition snapshot_version (s : Snapshot) : ResourceVersion :=
  match s with Hosts_snapshot s => sn_version s | Rule_snapshot s => sn_version s end.

Definition slot_version (ps : PolicyState) (k : bool * string) : option ResourceVersion :=
  if k.1 then ps_host_versions ps !! k.2 else ps_rule_set_versions ps !! k.2.
Definition slot_hash (ps : PolicyState) (k : bool * string) : option string :=
  if k.1 then ps_host_hashes ps !! k.2 else ps_rule_set_hashes ps !! k.2.

(** The state holds the snapshot: index, version and hash. *)
Definition holds (ps : PolicyState) (s : Snapshot) : Prop :=
  match s with
  | Hosts_snapshot s =>
      pi_hosts (ps_index ps) !! sn_resource s = Some (sn_compiled s) /\
      ps_host_versions ps !! sn_resource s = Some (sn_version s) /\
      ps_host_hashes ps !! sn_resource s = Some (sn_hash s)
  | Rule_snapshot s =>
      pi_rule_sets (ps_index ps) !! sn_resource s = Some (sn_compiled s) /\
      ps_rule_set_versions ps !! sn_resource s = Some (sn_version s) /\
      ps_rule_set_hashes ps !! sn_resource s = Some (sn_hash s)
  end.

(** Everything but the resources. *)
Definition frame (ps : PolicyState) :=
  (pi_routes (ps_index ps), pi_clients (ps_index ps), pi_client_configs (ps_index ps),
   pi_upstream_ecs (ps_index ps), pi_global_cache (ps_index ps), ps_semantics_base ps,
   ps_fast_strategies ps).

(** Publishing in sequence. *)
Fixpoint publish_all (ps : PolicyState) (log : list Snapshot) :
    result PolicyResourcePublishError PolicyState :=
  match log with
  | [] => Ok ps
  | s :: log => ps' ← publish_next ps s; publish_all ps' log
  end.

Lemma publish_all_app ps log s ps1 ps2 :
  publish_all ps log = Ok ps1 -> publish_next ps1 s = Ok ps2 -> publish_all ps (log ++ [s]) = Ok ps2.
Proof.
  revert ps. induction log as [|x log IH]; cbn; intros ps.
  - intros [= ->] ->. done.
  - intros (ps' & Hx & Hl)%bind_ok Hs. rewrite Hx. cbn. by apply IH.
Qed.

(** One publication: the snapshot is newer and replaces its slot, nothing else. *)
Lemma publish_next_ok ps s ps' :
  publish_next ps s = Ok ps' ->
  (exists v, slot_version ps (slot s) = Some v /\ version_ltb v (snapshot_version s) = true) /\
  holds ps' s /\ frame ps' = frame ps /\
  (forall k, k <> slot s -> slot_version ps' k = slot_version ps k) /\
  (forall s', slot s' <> slot s -> holds ps s' -> holds ps' s').
Proof.
  destruct s as [s|s]; cbn; unfold next_hosts, next_rule_set, replace_hosts_resource,
    replace_rule_set_resource; intros (v & Hv%ok_or_ok & H)%bind_ok;
  destruct (version_ltb v (sn_version s)) eqn:Hlt; cbn in H; try done;
  case_bool_decide; cbn in H; try done; injection H as <-; cbn.
  all: split_and!; rewrite ?lookup_insert_eq; try done; [by exists v|..].
  1, 3: intros [[] k] Hk; unfold slot_version; cbn; rewrite ?lookup_insert_ne by congruence; done.
  all: intros [s'|s'] Hk; cbn in *; rewrite ?lookup_insert_ne by congruence; done.
Qed.

Lemma publish_next_version ps s ps' k v :
  publish_next ps s = Ok ps' -> slot_version ps k = Some v ->
  exists v', slot_version ps' k = Some v' /\ version_le v v'.
Proof.
  intros ([w [Hv Hlt]] & Hh & _ & Ho & _)%publish_next_ok Hk. destruct (decide (k = slot s)) as [->|].
  - exists (snapshot_version s). split.
    + destruct s; apply Hh.
    + rewrite Hk in Hv. injection Hv as ->. by apply version_lt_le.
  - exists v. rewrite Ho by done. split; [done|apply version_le_refl].
Qed.

(** Where a slot is registered: it has a version and an index. *)
Definition registered (ps : PolicyState) (k : bool * string) : Prop :=
  is_Some (slot_version ps k) /\
  (if k.1 then is_Some (pi_hosts (ps_index ps) !! k.2)
   else is_Some (pi_rule_sets (ps_index ps) !! k.2)).

Lemma publish_next_registered ps s ps' k :
  publish_next ps s = Ok ps' -> registered ps' k <-> registered ps k.
Proof.
  destruct s as [s|s], k as [[] k]; cbn; unfold next_hosts, next_rule_set, replace_hosts_resource,
    replace_rule_set_resource; intros (v & Hv%ok_or_ok & H)%bind_ok;
  destruct (version_ltb v (sn_version s)); cbn in H; try done;
  case_bool_decide; cbn in H; try done; injection H as <-; unfold registered, slot_version; cbn.
  all: rewrite ?lookup_insert_is_Some; try done.
  all: split; [intros [[<-|[]] [|[]]]; by eauto|]; intros [? ?];
    destruct (decide (sn_resource s = k)); auto.
Qed.

(** Why a publication is refused. *)
Definition refused (ps : PolicyState) (s : Snapshot) (e : PolicyResourcePublishError) : Prop :=
  match e with
  | UnknownResource r => r = (slot s).2 /\ ~ registered ps (slot s)
  | StaleVersion r _ candidate => r = (slot s).2 /\ candidate = snapshot_version s /\
      exists v, slot_version ps (slot s) = Some v /\ version_le candidate v
  end.

Lemma publish_next_err ps s e : publish_next ps s = Err e -> refused ps s e.
Proof.
  destruct s as [s|s]; unfold publish_next, next_hosts, next_rule_set, replace_hosts_resource,
    replace_rule_set_resource.
  1: destruct (ps_host_versions ps !! sn_resource s) as [v|] eqn:Hv.
  3: destruct (ps_rule_set_versions ps !! sn_resource s) as [v|] eqn:Hv.
  2, 4: cbn; intros [= <-]; split; [done|]; intros [[w Hw] _]; unfold slot_version in Hw; cbn in Hw;
    congruence.
  all: cbn; (destruct (version_ltb v (sn_version s)) eqn:Hlt; cbn;
    [|intros [= <-]; split_and!; try done; by exists v]).
  all: (case_bool_decide as Hi; cbn; [done|]); intros [= <-]; (split; [done|]); intros [_ Hw]; by apply Hi.
Qed.

Lemma publish_next_refused ps s ps' s' e :
  publish_next ps s = Ok ps' -> refused ps s' e -> refused ps' s' e.
Proof.
  intros Hn. destruct e as [r|r c n]; cbn.
  - intros [-> Hr]. split; [done|]. by rewrite (publish_next_registered _ _ _ _ Hn).
  - intros (-> & -> & v & Hv & Hle). split_and!; try done.
    destruct (publish_next_version _ _ _ _ _ Hn Hv) as (v' & Hv' & Hle').
    exists v'. split; [done|]. by eapply version_le_trans.
Qed.

(** After a sequence of publications a slot holds its newest snapshot. *)
Lemma publish_all_newest ps log ps' s :
  publish_all ps log = Ok ps' -> s ∈ log ->
  exists s', s' ∈ log /\ slot s' = slot s /\ version_le (snapshot_version s) (snapshot_version s') /\
    holds ps' s'.
Proof.
  revert ps. enough (Hg : forall ps, publish_all ps log = Ok ps' ->
    (forall s, s ∈ log -> exists s', s' ∈ log /\ slot s' = slot s /\
       version_le (snapshot_version s) (snapshot_version s') /\ holds ps' s') /\
    (forall s, holds ps s -> exists s', (s' = s \/ s' ∈ log) /\ slot s' = slot s /\
       version_le (snapshot_version s) (snapshot_version s') /\ holds ps' s')).
  { intros ps Hl Hs. by apply (Hg ps Hl). }
  induction log as [|x log IH]; cbn; intros ps.
  - intros [= ->]. split; [by intros s0 ?%elem_of_nil|]. intros s0 Hs. exists s0.
    split_and!; [by left|done|apply version_le_refl|done].
  - intros (ps1 & Hx & Hl)%bind_ok. destruct (IH _ Hl) as [IH1 IH2].
    apply publish_next_ok in Hx as ([v [Hv Hlt]] & Hh & _ & _ & Ho). split.
    + intros s0 [->|Hin]%elem_of_cons.
      * destruct (IH2 x Hh) as (s' & Hin & ? & ? & ?). exists s'. split_and!; try done.
        destruct Hin as [->|]; set_solver.
      * destruct (IH1 s0 Hin) as (s' & ? & ? & ? & ?). exists s'. split_and!; try done. by right.
    + intros s0 Hs. destruct (decide (slot s0 = slot x)) as [Hk|Hk].
      * destruct (IH2 x Hh) as (s' & Hin & Hk' & Hle & Hh'). exists s'. split_and!; [|congruence| |done].
        -- right. destruct Hin as [->|]; set_solver.
        -- eapply version_le_trans; [|exact Hle]. apply version_lt_le. rewrite <-Hk in Hv.
           assert (slot_version ps (slot s0) = Some (snapshot_version s0)) by (destruct s0; apply Hs).
           congruence.
      * destruct (IH2 s0 (Ho _ Hk Hs)) as (s' & Hin & ? & ? & ?). exists s'. split_and!; try done.
        destruct Hin; [by left|right; by right].
Qed.

(** Everything but the resources stays as it was, and so do the resources nobody published. *)
Definition untouched (ps ps' : PolicyState) (log : list Snapshot) : Prop :=
  frame ps' = frame ps /\
  forall k, (forall s, s ∈ log -> slot s <> k) ->
    slot_version ps' k = slot_version ps k /\ slot_hash ps' k = slot_hash ps k /\
    if k.1 then pi_hosts (ps_index ps') !! k.2 = pi_hosts (ps_index ps) !! k.2
    else pi_rule_sets (ps_index ps') !! k.2 = pi_rule_sets (ps_index ps) !! k.2.

Lemma publish_next_untouched ps s ps' : publish_next ps s = Ok ps' -> untouched ps ps' [s].
Proof.
  intros H. split; [by apply publish_next_ok in H as (_ & _ & ? & _)|]. intros k Hk.
  assert (Hne : slot s <> k) by (apply Hk; set_solver). revert H Hne. clear Hk.
  destruct s as [s|s]; cbn; unfold next_hosts, next_rule_set, replace_hosts_resource,
    replace_rule_set_resource; intros (v & _ & H)%bind_ok;
  destruct (version_ltb v (sn_version s)); cbn in H; try done;
  case_bool_decide; cbn in H; try done; injection H as <-; destruct k as [[] k]; intros Hne;
  unfold slot_version, slot_hash; cbn; rewrite ?lookup_insert_ne by congruence; done.
Qed.

Lemma publish_all_untouched ps log ps' : publish_all ps log = Ok ps' -> untouched ps ps' log.
Proof.
  revert ps. induction log as [|s log IH]; cbn; intros ps.
  - intros [= ->]. split; [done|]. intros [[] k] _; done.
  - intros (ps1 & [F1 U1]%publish_next_untouched & [F2 U2]%IH)%bind_ok. split; [congruence|].
    intros k Hk. destruct (U1 k) as (V1 & H1 & I1); [set_solver|].
    destruct (U2 k) as (V2 & H2 & I2); [set_solver|]. split_and!; [congruence..|].
    destruct (k.1); congruence.
Qed.

(** ** Linearizability *)

Definition published (y : System) : list Snapshot :=
  omap (fun x => match x.2 with Returned (Ok _) => Some x.1 | _ => None end) (sy_publishers y).

Definition publisher_ok (y : System) (x : Snapshot * Publisher) : Prop :=
  match x.2 with
  | Looping => True
  | Swapping ptr next => (ptr <= sy_ptr y)%nat /\
      (ptr = sy_ptr y -> publish_next (sy_state y) x.1 = Ok next)
  | Returned (Ok _) => True
  | Returned (Err e) => refused (sy_state y) x.1 e
  end.

Record linear (ps0 : PolicyState) (y : System) (log : list Snapshot) : Prop := {
  ln_state : publish_all ps0 log = Ok (sy_state y);
  ln_log : log ≡ₚ published y;
  ln_ok : Forall (publisher_ok y) (sy_publishers y)
}.

Lemma published_step l1 s p l2 (q : Publisher) ptr st ptr' st' :
  (forall u, p <> Returned (Ok u)) ->
  published (mk_system ptr st (l1 ++ (s, q) :: l2)) ≡ₚ
    match q with Returned (Ok _) => [s] | _ => [] end ++
    published (mk_system ptr' st' (l1 ++ (s, p) :: l2)).
Proof.
  intros Hp. unfold published. cbn. rewrite !omap_app. cbn.
  destruct p as [| |[u|]]; [..|by destruct (Hp u)|]; destruct q as [| |[|]]; cbn; try done;
    apply Permutation_sym, Permutation_middle.
Qed.

(** A successful swap leaves the other publishers in order. *)
Lemma publisher_ok_swap y s next pubs x :
  publish_next (sy_state y) s = Ok next -> publisher_ok y x ->
  publisher_ok (mk_system (S (sy_ptr y)) next pubs) x.
Proof.
  intros Hn. destruct x as [s' [|ptr n|[u|e]]]; cbn; try done.
  - intros [Hle _]. split; lia.
  - by apply (publish_next_refused _ s).
Qed.

Lemma linear_step ps0 y log y' :
  linear ps0 y log -> publish_step y y' -> exists log', linear ps0 y' log'.
Proof.
  intros [Hs Hl Ho] Hstep. destruct Hstep as [y l1 l2 s p p' ptr st Hpubs Hp].
  rewrite Hpubs in Ho. apply list.Forall_app in Ho as [O1 [Ox O2]%list.Forall_cons].
  assert (Hpub : published y = published (mk_system (sy_ptr y) (sy_state y) (l1 ++ (s, p) :: l2))).
  { unfold published. by rewrite Hpubs. }
  destruct p as [|q next|]; cbn in Hp; [| |done].
  - assert (exists p'', p' = p'' /\ ptr = sy_ptr y /\ st = sy_state y /\
      (forall u, p'' <> Returned (Ok u)) /\ publisher_ok y (s, p'')) as (? & <- & -> & -> & Hu & Hk).
    { destruct (publish_next (sy_state y) s) as [n|e] eqn:Hn; injection Hp as <- <- <-;
        eexists; split_and!; try done. by apply publish_next_err. }
    exists log. split; [done| |].
    + rewrite Hl, Hpub. symmetry. 
      rewrite (published_step l1 s Looping l2 p' _ _ (sy_ptr y) (sy_state y)) by done.
      destruct p' as [| |[u|]]; cbn; [done|done|by destruct (Hu u)|done].
    + apply list.Forall_app. split; [exact O1|]. apply list.Forall_cons. by split.
  - destruct Ox as [Hle Hnext]. case_bool_decide as Hq; injection Hp as <- <- <-.
    + specialize (Hnext Hq). exists (log ++ [s]). split.
      * by eapply publish_all_app.
      * rewrite Hl, Hpub. rewrite Permutation_app_comm. symmetry.
        by apply (published_step l1 s (Swapping q next) l2 (Returned (Ok ()))).
      * apply list.Forall_app. split; [|apply list.Forall_cons; split; [done|]];
          (eapply list.Forall_impl; [eassumption|]); intros x; by apply publisher_ok_swap with s.
    + exists log. split; [done| |].
      * rewrite Hl, Hpub. symmetry. by apply (published_step l1 s (Swapping q next) l2 Looping).
      * apply list.Forall_app. split; [exact O1|]. apply list.Forall_cons. by split.
Qed.

Lemma publish_runs_linear ps0 ss n y :
  publish_runs n (publish_init ps0 ss) y -> exists log, linear ps0 y log.
Proof.
  intros H. remember (publish_init ps0 ss) as y0 eqn:E. induction H as [y|n y1 y2 y3 _ IH Hst].
  - subst. exists []. split; [done| |].
    + unfold published, publish_init. cbn. by induction ss.
    + apply list.Forall_fmap, list.Forall_true. done.
  - destruct (IH E) as [log Hl]. by eapply linear_step.
Qed.

(** C14: Publication is linearizable. However the loads and swaps of any number
    of publishers interleave, the policy state is the one obtained by publishing
    the snapshots of the publishers that returned success one after the other;
    routing, clients, the global settings, the semantics base and every resource
    nobody published are what they were at the start; no success is lost: each
    published resource holds index, version and content hash of one and the same
    successful snapshot, at least as new as every other one for it; and a
    publisher that was refused named a resource that is not registered, or one
    whose published version is still at least as new. *)
Theorem publish_linearizable ps0 ss n y :
  publish_runs n (publish_init ps0 ss) y ->
  exists log, log ≡ₚ published y /\ publish_all ps0 log = Ok (sy_state y) /\
    untouched ps0 (sy_state y) log /\
    (forall s, s ∈ published y -> exists s', s' ∈ published y /\ slot s' = slot s /\
       version_le (snapshot_version s) (snapshot_version s') /\ holds (sy_state y) s') /\
    (forall s e, (s, Returned (Err e)) ∈ sy_publishers y -> refused (sy_state y) s e).
Proof.
  intros (log & [Hs Hl Ho])%publish_runs_linear. exists log. split_and!; [done|done|by apply publish_all_untouched| |].
  - intros s Hin. rewrite <-Hl in Hin.
    destruct (publish_all_newest _ _ _ _ Hs Hin) as (s' & ? & ? & ? & ?).
    exists s'. by rewrite <-Hl.
  - intros s e Hin. by apply (proj1 (list.Forall_forall _ _) Ho) in Hin.
Qed.

(** ** Lock freedom *)

Definition weight (y : nat) (p : Publisher) : nat :=
  match p with
  | Looping => 2
  | Swapping ptr _ => if bool_decide (ptr = y) then 1 else 3
  | Returned _ => 0
  end.
Definition active (p : Publisher) : nat := match p with Returned _ => 0 | _ => 1 end.

Definition publishers_weight (y : System) : nat :=
  sum_list_with (fun x => weight (sy_ptr y) x.2) (sy_publishers y).
Definition total_active (l : list (Snapshot * Publisher)) : nat := sum_list_with (fun x => active x.2) l.
Definition publish_measure (y : System) : nat :=
  (publishers_weight y + total_active (sy_publishers y) * total_active (sy_publishers y))%nat.

Lemma weight_swap ptr (l : list (Snapshot * Publisher)) :
  (sum_list_with (fun x => weight (S ptr) x.2) l <=
   sum_list_with (fun x => weight ptr x.2) l + 2 * total_active l)%nat.
Proof.
  unfold total_active. induction l as [|[s p] l IH]; cbn; [lia|].
  assert (weight (S ptr) p <= weight ptr p + 2 * active p)%nat; [|cbn in *; lia].
  destruct p as [|q ?|]; cbn; repeat case_bool_decide; lia.
Qed.

Lemma publish_step_decreases y y' :
  Forall (publisher_ok y) (sy_publishers y) -> publish_step y y' ->
  (publish_measure y' < publish_measure y)%nat.
Proof.
  intros Ho Hstep. destruct Hstep as [y l1 l2 s p p' ptr st Hpubs Hp].
  unfold publish_measure, publishers_weight, total_active. rewrite Hpubs in *. cbn [sy_publishers sy_ptr].
  rewrite !sum_list_with_app. cbn [sum_list_with snd].
  destruct p as [|q next|]; cbn in Hp; [| |done].
  - destruct (publish_next _ _); injection Hp as <- <- <-; cbn; rewrite ?bool_decide_eq_true_2 by done; nia.
  - case_bool_decide as Hq; injection Hp as <- <- <-; cbn.
    + rewrite bool_decide_eq_true_2 by done.
      pose proof (weight_swap (sy_ptr y) l1) as H1. pose proof (weight_swap (sy_ptr y) l2) as H2.
      unfold total_active in *. nia.
    + rewrite bool_decide_eq_false_2 by done. nia.
Qed.

Lemma publish_init_measure ps0 ss :
  publish_measure (publish_init ps0 ss) = (length ss * length ss + 2 * length ss)%nat.
Proof.
  unfold publish_measure, publishers_weight, total_active, publish_init. cbn.
  assert (Hk : forall (g : Snapshot * Publisher -> nat) k, (forall s, g (s, Looping) = k) ->
    sum_list_with g ((fun s => (s, Looping)) <$> ss) = (k * length ss)%nat).
  { intros g k Hg. induction ss as [|s ss IH]; cbn; [lia|]. rewrite IH, Hg. lia. }
  rewrite (Hk _ 2%nat), (Hk _ 1%nat) by done. lia.
Qed.

Lemma active_step y s p :
  (s, p) ∈ sy_publishers y -> (forall res, p <> Returned res) -> exists y', publish_step y y'.
Proof.
  intros (l1 & l2 & Hl)%list_elem_of_split Hp.
  assert (exists x, publisher_step y s p = Some x) as [[[p' ptr] st] Hx].
  { destruct p as [|q next|res]; cbn; [|case_bool_decide; by eexists|by destruct (Hp res)].
    destruct (publish_next _ _); by eexists. }
  eexists. by eapply publisher_steps.
Qed.

(** Publication is lock-free and terminates: [n] concurrent publishers take
    at most [n * n + 2 * n] loads and swaps together under any schedule, since a
    swap only fails when another publisher's succeeded; and as long as one of
    them has not returned, it can take its next step. *)
Theorem publish_terminates ps0 ss n y :
  publish_runs n (publish_init ps0 ss) y ->
  (n <= length ss * length ss + 2 * length ss)%nat /\
  ((forall y', ~ publish_step y y') ->
   forall s p, (s, p) ∈ sy_publishers y -> exists res, p = Returned res).
Proof.
  intros H. split.
  - rewrite <-(publish_init_measure ps0). enough (n + publish_measure y <= publish_measure
      (publish_init ps0 ss))%nat by lia.
    remember (publish_init ps0 ss) as y0 eqn:E. induction H as [y|n y1 y2 y3 Hr IH Hst]; [lia|].
    specialize (IH E). subst. destruct (publish_runs_linear _ _ _ _ Hr) as [log Hlin].
    pose proof (publish_step_decreases _ _ (ln_ok _ _ _ Hlin) Hst). lia.
  - intros Hno s p Hin. destruct p as [|q next|res]; [..|by eexists].
    all: destruct (active_step y s _ Hin) as [y' Hy]; [done|by destruct (Hno y')].
Qed.

End Publish.

(** ** Two publishers *)

Section PublishWitness.
#[local] Existing Instance prefix_nets.
Import EcsSample.

Definition published_state : PolicyState :=
  mk_policy_state plan_index {["local" := mk_version 1 1]} ∅ [] {["local" := "h1"]} ∅ ∅.
Definition snapshot_at (revision : Z) (hash : string) : Snapshot :=
  Hosts_snapshot (mk_snapshot _ "local" (mk_version 1 revision) hash sample_hosts).

(** The older snapshot loads first, loses the swap and is refused on its retry. *)
Definition older_snapshot : Snapshot := snapshot_at 2 "h2".
Definition newer_snapshot : Snapshot := snapshot_at 3 "h3".
Definition next_of (s : Snapshot) : PolicyState :=
  match publish_next published_state s with Ok ps => ps | Err _ => published_state end.
Definition final_system : System :=
  mk_system 1 (next_of newer_snapshot)
    [(older_snapshot, Returned (Err (StaleVersion "local" (mk_version 1 3) (mk_version 1 2))));
     (newer_snapshot, Returned (Ok ()))].

Lemma final_system_runs : publish_runs 5 (publish_init published_state [older_snapshot; newer_snapshot]) final_system.
Proof.
  eapply pr_step; [eapply pr_step; [eapply pr_step; [eapply pr_step; [eapply pr_step; [apply pr_refl|]|]|]|]|].
  - by eapply (publisher_steps _ [] _ older_snapshot Looping (Swapping 0 (next_of older_snapshot))).
  - by eapply (publisher_steps _ [_] [] newer_snapshot Looping (Swapping 0 (next_of newer_snapshot))).
  - by eapply (publisher_steps _ [_] [] newer_snapshot (Swapping 0 (next_of newer_snapshot)) (Returned (Ok ()))).
  - by eapply (publisher_steps _ [] _ older_snapshot (Swapping 0 (next_of older_snapshot)) Looping).
  - by eapply (publisher_steps _ [] _ older_snapshot Looping).
Qed.

Lemma publish_linearizable_witness : exists s',
  s' ∈ [newer_snapshot] /\ slot s' = slot newer_snapshot /\ holds (sy_state final_system) s' /\
  refused (sy_state final_system) older_snapshot (StaleVersion "local" (mk_version 1 3) (mk_version 1 2)).
Proof.
  destruct (publish_linearizable _ _ _ _ final_system_runs) as (log & _ & _ & _ & Hn & Hr).
  destruct (Hn newer_snapshot) as (s' & Hin & Hs & _ & Hh).
  - apply list_elem_of_here.
  - exists s'. split_and!; [exact Hin|exact Hs|exact Hh|]. apply Hr. apply list_elem_of_here.
Defined.

Lemma publish_terminates_witness : (5 <= 2 * 2 + 2 * 2)%nat.
Proof. exact (proj1 (publish_terminates _ _ _ _ final_system_runs)). Defined.

End PublishWitness.
