(* ===== verification/ResourceRefresh.v ===== *)
(** * Refreshing resources (src/backend/src/resource)

    The registry of published snapshots (snapshot.rs), the schedule of one resource
    (scheduler.rs), the coordinator that hands out one reservation per resource
    (refresh.rs), and the runtime and workers that tie them together
    (orchestrator.rs). Times are the caller's logical seconds, [u64]. *)

From S2P Require Import Prelude Text Net Message CacheModel CacheAdmission CacheStore.
From S2P Require Import CacheFacade Client Hosts Regex Rules Group Outcome Executor Plan.
From S2P Require Import Upstreams QueryKey Publish.

Definition sat_add32 (a b : Z) : Z := Z.min (a + b) u32_max.
Definition sat_mul64 (a b : Z) : Z := Z.min (a * b) u64_max.
(** [u64::checked_shl]: only the amount is checked, bits shifted out are lost. *)
Definition checked_shl64 (x n : Z) : option Z :=
  if n <? 64 then Some (wrap64 (Z.shiftl x n)) else None.

#[global] Instance ResourceVersion_eq_dec : EqDecision ResourceVersion.
Proof. solve_decision. Defined.

(** ** Backoff and schedule *)

Record RefreshBackoff := mk_backoff { base_delay : Z; max_delay : Z }.
Definition RefreshBackoff_new (base max : Z) : option RefreshBackoff :=
  if base <=? max then Some (mk_backoff base max) else None.
#[global] Instance RefreshBackoff_eq_dec : EqDecision RefreshBackoff.
Proof. solve_decision. Defined.

(** The delay after [failures] consecutive failures, as both [record_failure] and
    [fail] compute it. *)
Definition backoff_delay (b : RefreshBackoff) (failures : Z) : Z :=
  let shift := Z.min (sat_sub failures 1) 63 in
  Z.min (default u64_max (checked_shl64 (base_delay b) shift)) (max_delay b).

Record ResourceSchedulePolicy := mk_schedule_policy {
  update_interval : Z;
  stale_after_failures : Z;
  stale_after : Z;
  backoff : RefreshBackoff
}.
#[global] Instance ResourceSchedulePolicy_eq_dec : EqDecision ResourceSchedulePolicy.
Proof. solve_decision. Defined.

Definition ResourceSchedulePolicy_new (interval stale_after_intervals stale_after_failures : Z)
    (b : RefreshBackoff) : option ResourceSchedulePolicy :=
  if (interval =? 0) || (stale_after_intervals =? 0) || (stale_after_failures =? 0) then None
  else Some (mk_schedule_policy interval stale_after_failures
               (sat_mul64 interval stale_after_intervals) b).

Inductive ResourceScheduleStopReason := StopCancelled | StopShutdown.
Inductive ResourceScheduleDecision :=
| Due (due_at failures : Z) (stale : bool)
| Waiting (next_due failures : Z) (stale : bool)
| Stopped (reason : ResourceScheduleStopReason).
Definition is_due (d : ResourceScheduleDecision) : bool :=
  match d with Due _ _ _ => true | _ => false end.

Record ResourceSchedule := mk_schedule {
  sc_policy : ResourceSchedulePolicy;
  sc_initial_due : Z;
  sc_next_due : option Z;
  sc_last_success : option Z;
  sc_failures : Z;
  sc_stopped : option ResourceScheduleStopReason
}.

Definition ResourceSchedule_new (p : ResourceSchedulePolicy) (initial_due : Z) : ResourceSchedule :=
  mk_schedule p initial_due (Some initial_due) None 0 None.

Definition merge_stable_state_from (s incoming : ResourceSchedule) : ResourceSchedule :=
  if bool_decide (sc_policy s = sc_policy incoming)
  then mk_schedule (sc_policy s) (sc_initial_due incoming) (sc_next_due incoming)
         (sc_last_success incoming) (sc_failures incoming) (sc_stopped incoming)
  else s.

Definition is_stale_at (s : ResourceSchedule) (now : Z) : bool :=
  (stale_after_failures (sc_policy s) <=? sc_failures s) ||
  (stale_after (sc_policy s) <? sat_sub now (default (sc_initial_due s) (sc_last_success s))).

(** [decision]; [None] is the panic of an active schedule without a deadline. *)
Definition decision (s : ResourceSchedule) (now : Z) : option ResourceScheduleDecision :=
  match sc_stopped s with
  | Some reason => Some (Stopped reason)
  | None =>
    d ← sc_next_due s;
    Some (if d <=? now then Due d (sc_failures s) (is_stale_at s now)
          else Waiting d (sc_failures s) (is_stale_at s now))
  end.

(** The state after [record_success], [record_failure] and [stop]; they return the
    decision of that state. *)
Definition record_success (s : ResourceSchedule) (at_ : Z) : ResourceSchedule :=
  match sc_stopped s with
  | Some _ => s
  | None => mk_schedule (sc_policy s) (sc_initial_due s)
      (Some (sat_add64 at_ (update_interval (sc_policy s)))) (Some at_) 0 None
  end.

Definition record_failure (s : ResourceSchedule) (at_ : Z) : ResourceSchedule :=
  match sc_stopped s with
  | Some _ => s
  | None =>
    let failures := sat_add32 (sc_failures s) 1 in
    mk_schedule (sc_policy s) (sc_initial_due s)
      (Some (sat_add64 at_ (backoff_delay (backoff (sc_policy s)) failures)))
      (sc_last_success s) failures None
  end.

Definition stop (s : ResourceSchedule) (reason : ResourceScheduleStopReason) : ResourceSchedule :=
  match sc_stopped s with
  | Some _ => s
  | None => mk_schedule (sc_policy s) (sc_initial_due s) None (sc_last_success s) (sc_failures s)
              (Some reason)
  end.

Section Refresh.
Context {T : Type}.

(** ** The registry *)

Abbreviation Registry := (gmap string (ResourceSnapshot T)).
Definition epoch_of (s : ResourceSnapshot T) : Z := rv_epoch (sn_version _ s).

Inductive ResourcePublishError :=
| StaleEpoch (current candidate : ResourceVersion)
| CompareAndSwapFailed (expected actual : option ResourceVersion).

Definition current_version (r : Registry) (id : string) : option ResourceVersion :=
  sn_version _ <$> r !! id.

Definition publish_arc (r : Registry) (candidate : ResourceSnapshot T)
    (expected : option (option ResourceVersion)) : result ResourcePublishError Registry :=
  let id := sn_resource _ candidate in
  let actual := current_version r id in
  if match expected with Some e => negb (bool_decide (e = actual)) | None => false end
  then Err (CompareAndSwapFailed (default None expected) actual)
  else match r !! id with
  | Some cur => if epoch_of candidate <=? epoch_of cur
                then Err (StaleEpoch (sn_version _ cur) (sn_version _ candidate))
                else Ok (<[id := candidate]> r)
  | None => Ok (<[id := candidate]> r)
  end.

Definition registry_publish (r : Registry) (c : ResourceSnapshot T) :
    result ResourcePublishError Registry := publish_arc r c None.
Definition compare_and_publish (r : Registry) (expected : option ResourceVersion)
    (c : ResourceSnapshot T) : result ResourcePublishError Registry := publish_arc r c (Some expected).

(** [merge_newer_from]: one key at a time, so the loop is a merge of the maps. *)
Definition newer_of (allowed : bool) (cur incoming : option (ResourceSnapshot T)) :
    option (ResourceSnapshot T) :=
  match incoming with
  | None => cur
  | Some i =>
    if negb allowed then cur
    else match cur with
    | None => Some i
    | Some c => if version_ltb (sn_version _ c) (sn_version _ i) then Some i else Some c
    end
  end.
Definition merge_step (allowed : string -> bool) (r : Registry) (id : string)
    (i : ResourceSnapshot T) : Registry :=
  match newer_of (allowed id) (r !! id) (Some i) with
  | Some s => <[id := s]> r
  | None => r
  end.
Definition registry_merge_newer (allowed : string -> bool) (r incoming : Registry) : Registry :=
  foldl (fun r e => merge_step allowed r e.1 e.2) r (btree_list incoming).

(** ** The coordinator *)

Record RefreshPermit := mk_refresh_permit {
  rp_resource : string;
  rp_epoch : Z;
  rp_expected : option ResourceVersion;
  rp_token : Z
}.

Inductive RefreshBeginError :=
| AlreadyRefreshing (epoch : Z)
| InBackoff (retry_not_before failures : Z)
| EpochExhausted.

Inductive RefreshPublishError :=
| UnknownAttempt
| ResourceMismatch (expected actual : string)
| EpochMismatch (expected actual : Z)
| RegistryError_ (e : ResourcePublishError).

Record InFlight := mk_in_flight { if_epoch : Z; if_token : Z; if_expected : option ResourceVersion }.
Record ResourceState := mk_resource_state {
  rs_next_epoch : Z;
  rs_in_flight : option InFlight;
  rs_failures : Z;
  rs_retry_not_before : Z
}.
Definition default_state : ResourceState := mk_resource_state 0 None 0 0.

Record Coordinator := mk_coordinator {
  co_registry : Registry;
  co_resources : gmap string ResourceState;
  co_next_token : Z;
  co_backoff : RefreshBackoff
}.
Definition coordinator_new (r : Registry) (b : RefreshBackoff) : Coordinator := mk_coordinator r ∅ 0 b.

Definition resource_state (c : Coordinator) (id : string) : ResourceState :=
  default default_state (co_resources c !! id).
Definition set_resource (c : Coordinator) (id : string) (s : ResourceState) : Coordinator :=
  mk_coordinator (co_registry c) (<[id := s]> (co_resources c)) (co_next_token c) (co_backoff c).

Inductive ResourceRefreshPhase :=
| Idle | Refreshing (epoch : Z) | Backoff (retry_not_before failures : Z).
Definition refresh_status (c : Coordinator) (id : string) :
    option ResourceVersion * ResourceRefreshPhase :=
  (current_version (co_registry c) id,
   match co_resources c !! id with
   | None => Idle
   | Some r =>
     match rs_in_flight r with
     | Some f => Refreshing (if_epoch f)
     | None => if (0 <? rs_retry_not_before r) || (0 <? rs_failures r)
               then Backoff (rs_retry_not_before r) (rs_failures r) else Idle
     end
   end).

Definition refresh_begin (c : Coordinator) (id : string) (now : Z) :
    result RefreshBeginError RefreshPermit * Coordinator :=
  let current := current_version (co_registry c) id in
  let r := resource_state c id in
  match rs_in_flight r with
  | Some f => (Err (AlreadyRefreshing (if_epoch f)), c)
  | None =>
    if now <? rs_retry_not_before r then (Err (InBackoff (rs_retry_not_before r) (rs_failures r)), c)
    else
      let latest := Z.max (rs_next_epoch r) (match current with Some v => rv_epoch v | None => 0 end) in
      if latest =? u64_max then (Err EpochExhausted, c)
      else
        let epoch := latest + 1 in
        let token := co_next_token c in
        let next_token := if token =? u64_max then 0 else token + 1 in
        let r' := mk_resource_state epoch (Some (mk_in_flight epoch token current)) (rs_failures r)
                    (rs_retry_not_before r) in
        (Ok (mk_refresh_permit id epoch current token),
         mk_coordinator (co_registry c) (<[id := r']> (co_resources c)) next_token (co_backoff c))
  end.

(** The reservation of a permit, if it is still the live one. *)
Definition live_attempt (c : Coordinator) (p : RefreshPermit) : option InFlight :=
  r ← co_resources c !! rp_resource p;
  f ← rs_in_flight r;
  if if_token f =? rp_token p then Some f else None.

Definition refresh_publish (c : Coordinator) (p : RefreshPermit) (candidate : ResourceSnapshot T) :
    result RefreshPublishError unit * Coordinator :=
  if negb (bool_decide (sn_resource _ candidate = rp_resource p)) then
    (Err (ResourceMismatch (rp_resource p) (sn_resource _ candidate)), c)
  else if negb (epoch_of candidate =? rp_epoch p) then
    (Err (EpochMismatch (rp_epoch p) (epoch_of candidate)), c)
  else match live_attempt c p with
  | None => (Err UnknownAttempt, c)
  | Some f =>
    match compare_and_publish (co_registry c) (if_expected f) candidate with
    | Err e => (Err (RegistryError_ e), c)
    | Ok registry =>
      (Ok tt, mk_coordinator registry
         (<[rp_resource p := mk_resource_state (rs_next_epoch (resource_state c (rp_resource p)))
              None 0 0]> (co_resources c)) (co_next_token c) (co_backoff c))
    end
  end.

Definition refresh_fail (c : Coordinator) (p : RefreshPermit) (now : Z) :
    result RefreshPublishError (Z * Z) * Coordinator :=
  match live_attempt c p with
  | None => (Err UnknownAttempt, c)
  | Some _ =>
    let r := resource_state c (rp_resource p) in
    let failures := sat_add32 (rs_failures r) 1 in
    let retry := sat_add64 now (backoff_delay (co_backoff c) failures) in
    (Ok (retry, failures),
     set_resource c (rp_resource p) (mk_resource_state (rs_next_epoch r) None failures retry))
  end.

Definition clear_in_flight (r : ResourceState) : ResourceState :=
  mk_resource_state (rs_next_epoch r) None (rs_failures r) (rs_retry_not_before r).

Definition refresh_cancel (c : Coordinator) (id : string) (p : RefreshPermit) : bool * Coordinator :=
  if negb (bool_decide (rp_resource p = id)) then (false, c)
  else match live_attempt c p with
  | None => (false, c)
  | Some _ => (true, set_resource c id (clear_in_flight (resource_state c id)))
  end.

Definition cancel_resource (c : Coordinator) (id : string) : bool * Coordinator :=
  match co_resources c !! id with
  | None => (false, c)
  | Some r => (bool_decide (is_Some (rs_in_flight r)), set_resource c id (clear_in_flight r))
  end.

(** ** The runtime *)

Inductive RuntimeBeginError :=
| UnknownResource_
| NotDue (d : option ResourceScheduleDecision)
| BeginRefused (e : RefreshBeginError).

Record RefreshRuntime := mk_refresh_runtime {
  rr_coordinator : Coordinator;
  rr_schedules : gmap string ResourceSchedule;
  rr_policy : ResourceSchedulePolicy
}.

Definition refresh_runtime_new (r : Registry) (p : ResourceSchedulePolicy) (initial_due : Z) :
    RefreshRuntime :=
  mk_refresh_runtime (coordinator_new r (backoff p))
    ((fun _ => ResourceSchedule_new p initial_due) <$> r) p.

Definition set_coordinator (x : RefreshRuntime) (c : Coordinator) : RefreshRuntime :=
  mk_refresh_runtime c (rr_schedules x) (rr_policy x).
Definition on_schedule (x : RefreshRuntime) (id : string) (g : ResourceSchedule -> ResourceSchedule) :
    RefreshRuntime :=
  mk_refresh_runtime (rr_coordinator x) (alter g id (rr_schedules x)) (rr_policy x).

Definition merge_schedule (allowed : string -> bool) (id : string) (s : ResourceSchedule)
    (incoming : option ResourceSchedule) : ResourceSchedule :=
  match incoming with
  | Some i => if allowed id then merge_stable_state_from s i else s
  | None => s
  end.
Definition refresh_merge_state (x incoming : RefreshRuntime) (allowed : string -> bool) : RefreshRuntime :=
  let c := rr_coordinator x in
  mk_refresh_runtime
    (mk_coordinator (registry_merge_newer allowed (co_registry c) (co_registry (rr_coordinator incoming)))
       (co_resources c) (co_next_token c) (co_backoff c))
    (map_imap (fun id s => Some (merge_schedule allowed id s (rr_schedules incoming !! id)))
       (rr_schedules x)) (rr_policy x).

Definition refresh_register (x : RefreshRuntime) (id : string) (initial_due : Z) : bool * RefreshRuntime :=
  if bool_decide (is_Some (rr_schedules x !! id)) then (false, x)
  else (true, mk_refresh_runtime (rr_coordinator x)
                (<[id := ResourceSchedule_new (rr_policy x) initial_due]> (rr_schedules x)) (rr_policy x)).

Definition begin_due (x : RefreshRuntime) (id : string) (now : Z) :
    result RuntimeBeginError RefreshPermit * RefreshRuntime :=
  match rr_schedules x !! id with
  | None => (Err UnknownResource_, x)
  | Some s =>
    match decision s now with
    | Some (Due _ _ _) =>
      let '(res, c) := refresh_begin (rr_coordinator x) id now in
      (map_err BeginRefused res, set_coordinator x c)
    | d => (Err (NotDue d), x)
    end
  end.

Definition refresh_abandon (x : RefreshRuntime) (p : RefreshPermit) : bool * RefreshRuntime :=
  let '(b, c) := refresh_cancel (rr_coordinator x) (rp_resource p) p in (b, set_coordinator x c).

Definition runtime_publish (x : RefreshRuntime) (p : RefreshPermit) (candidate : ResourceSnapshot T)
    (completed_at : Z) : result RefreshPublishError unit * RefreshRuntime :=
  let '(res, c) := refresh_publish (rr_coordinator x) p candidate in
  match res with
  | Err e => (Err e, set_coordinator x c)
  | Ok _ => (Ok tt, on_schedule (set_coordinator x c) (rp_resource p)
                      (fun s => record_success s completed_at))
  end.

Definition runtime_fail (x : RefreshRuntime) (p : RefreshPermit) (failed_at : Z) :
    result RefreshPublishError (Z * Z) * RefreshRuntime :=
  let '(res, c) := refresh_fail (rr_coordinator x) p failed_at in
  match res with
  | Err e => (Err e, set_coordinator x c)
  | Ok f => (Ok f, on_schedule (set_coordinator x c) (rp_resource p)
                     (fun s => record_failure s failed_at))
  end.

Definition runtime_cancel (x : RefreshRuntime) (id : string) (p : RefreshPermit) :
    bool * RefreshRuntime :=
  let '(cancelled, c) := refresh_cancel (rr_coordinator x) id p in
  (cancelled, if cancelled then on_schedule (set_coordinator x c) id (fun s => stop s StopCancelled)
              else set_coordinator x c).

Definition refresh_shutdown (x : RefreshRuntime) : RefreshRuntime :=
  let schedules := (fun s => stop s StopShutdown) <$> rr_schedules x in
  mk_refresh_runtime
    (foldl (fun c e => (cancel_resource c e.1).2) (rr_coordinator x) (btree_list schedules))
    schedules (rr_policy x).

(** ** Workers *)

(** What a remote fetch gives: a snapshot (its epoch is replaced), a failure, or an
    interruption by a cancellation or the deadline. *)
Inductive LoadResult := Loaded (s : ResourceSnapshot T) | LoadFailed | LoadInterrupted.
Inductive WorkerError :=
| WorkerBegin (e : RuntimeBeginError)
| WorkerLoad
| WorkerPublish (e : RefreshPublishError)
| WorkerRelease (e : RefreshPublishError).

Definition with_epoch (s : ResourceSnapshot T) (epoch : Z) : ResourceSnapshot T :=
  mk_snapshot _ (sn_resource _ s) (mk_version epoch (rv_revision (sn_version _ s))) (sn_hash _ s)
    (sn_compiled _ s).

(** [hosts_snapshot] and [rule_set_snapshot]: a file has no revision of its own. *)
Definition file_snapshot (s : ResourceSnapshot T) (epoch : Z) : ResourceSnapshot T :=
  mk_snapshot _ (sn_resource _ s) (mk_version epoch 0) (sn_hash _ s) (sn_compiled _ s).

(** The tail of the workers: publish, or give the reservation back. *)
Definition publish_or_abandon (x : RefreshRuntime) (p : RefreshPermit) (candidate : ResourceSnapshot T)
    (now : Z) : result WorkerError (ResourceSnapshot T) * RefreshRuntime :=
  let '(res, x1) := runtime_publish x p candidate now in
  match res with
  | Ok _ => (Ok candidate, x1)
  | Err e =>
    let '(released, x2) := refresh_abandon x1 p in
    (Err (if released then WorkerPublish e else WorkerRelease e), x2)
  end.

(** [FileHostsRefreshWorker::refresh] and [FileRuleSetRefreshWorker::refresh]. [load]
    is the file as the loader compiled it, if it could; [others] is what other holders
    of the runtime do meanwhile. *)
Definition file_refresh (x : RefreshRuntime) (id : string) (now : Z)
    (load : option (ResourceSnapshot T)) (others : RefreshRuntime -> RefreshRuntime) :
    result WorkerError (ResourceSnapshot T) * RefreshRuntime :=
  let '(res, x1) := begin_due x id now in
  match res with
  | Err e => (Err (WorkerBegin e), x1)
  | Ok p =>
    let x2 := others x1 in
    match load with
    | Some s => publish_or_abandon x2 p (file_snapshot s (rp_epoch p)) now
    | None =>
      let '(released, x3) := runtime_fail x2 p now in
      (Err (match released with Err e => WorkerRelease e | Ok _ => WorkerLoad end), x3)
    end
  end.

(** [ResourceRefreshWorker::refresh_remote_rule_set]: an interrupted fetch is no
    failure of the source. *)
Definition remote_refresh (x : RefreshRuntime) (id : string) (now : Z) (load : LoadResult)
    (others : RefreshRuntime -> RefreshRuntime) :
    result WorkerError (ResourceSnapshot T) * RefreshRuntime :=
  let '(res, x1) := begin_due x id now in
  match res with
  | Err e => (Err (WorkerBegin e), x1)
  | Ok p =>
    let x2 := others x1 in
    match load with
    | Loaded s => publish_or_abandon x2 p (with_epoch s (rp_epoch p)) now
    | LoadInterrupted => (Err WorkerLoad, (refresh_abandon x2 p).2)
    | LoadFailed => (Err WorkerLoad, (runtime_fail x2 p now).2)
    end
  end.

(** ** Reachable states *)

(** The runtime with every permit it has issued so far. The backoff starts at one
    second, as the program configures it; state is taken over from an older runtime
    before the first reservation; tokens have not wrapped around. *)
Inductive refresh_reachable : RefreshRuntime -> list RefreshPermit -> Prop :=
| rf_new r p due : base_delay (backoff p) = 1 -> 0 <= update_interval p -> 0 <= max_delay (backoff p) ->
    0 <= due -> refresh_reachable (refresh_runtime_new r p due) []
| rf_merge x ps y qs allowed : refresh_reachable x ps -> refresh_reachable y qs ->
    co_resources (rr_coordinator x) = ∅ -> refresh_reachable (refresh_merge_state x y allowed) ps
| rf_register x ps id due : refresh_reachable x ps -> 0 <= due ->
    refresh_reachable (refresh_register x id due).2 ps
| rf_begin x ps id now p x' : refresh_reachable x ps -> 0 <= now ->
    co_next_token (rr_coordinator x) < u64_max -> begin_due x id now = (Ok p, x') ->
    refresh_reachable x' (p :: ps)
| rf_publish x ps p c now : refresh_reachable x ps -> p ∈ ps -> 0 <= now ->
    refresh_reachable (runtime_publish x p c now).2 ps
| rf_fail x ps p now : refresh_reachable x ps -> p ∈ ps -> 0 <= now ->
    refresh_reachable (runtime_fail x p now).2 ps
| rf_abandon x ps p : refresh_reachable x ps -> p ∈ ps -> refresh_reachable (refresh_abandon x p).2 ps
| rf_cancel x ps id p : refresh_reachable x ps -> p ∈ ps ->
    refresh_reachable (runtime_cancel x id p).2 ps
| rf_shutdown x ps : refresh_reachable x ps -> refresh_reachable (refresh_shutdown x) ps.

End Refresh.

(** ** Backoff *)

Lemma sat_add64_mono a b c : b <= c -> sat_add64 a b <= sat_add64 a c.
Proof. unfold sat_add64. lia. Qed.

Lemma backoff_delay_one b n :
  base_delay b = 1 -> 1 <= n -> backoff_delay b n = Z.min (2 ^ Z.min (n - 1) 63) (max_delay b).
Proof.
  intros Hb Hn. unfold backoff_delay, checked_shl64, sat_sub. rewrite Hb.
  rewrite (Z.max_r 0 (n - 1)) by lia. rewrite (proj2 (Z.ltb_lt (Z.min (n - 1) 63) 64)) by lia. cbn [default].
  rewrite Z.shiftl_1_l. unfold wrap64. rewrite Z.mod_small; [done|].
  split; [apply Z.pow_nonneg; lia|]. apply Z.pow_lt_mono_r; lia.
Qed.

Lemma backoff_delay_mono b m n :
  base_delay b = 1 -> 1 <= m <= n -> backoff_delay b m <= backoff_delay b n.
Proof.
  intros Hb Hmn. rewrite !backoff_delay_one by (done || lia).
  apply Z.min_le_compat_r, Z.pow_le_mono_r; lia.
Qed.

(** The delay after [n] consecutive failures doubles from one second up to the
    configured maximum when the base delay is 1, as the program has it. The shift
    does not check for overflow, though: with an even base delay the bits are
    shifted out and from the 64th failure on there is no delay at all. *)
Theorem backoff_delay_spec b n :
  1 <= n -> 0 <= max_delay b ->
  (base_delay b = 1 -> backoff_delay b n = Z.min (2 ^ Z.min (n - 1) 63) (max_delay b)) /\
  (Z.even (base_delay b) = true -> 64 <= n -> backoff_delay b n = 0).
Proof.
  intros Hn Hm. split; [intros Hb; by apply backoff_delay_one|]. intros He H64.
  unfold backoff_delay, checked_shl64, sat_sub.
  replace (Z.min (Z.max 0 (n - 1)) 63) with 63 by lia. cbn [Z.ltb]. change (63 <? 64) with true. cbn [default].
  apply Z.even_spec in He as [k ->]. rewrite Z.shiftl_mul_pow2 by lia. unfold wrap64.
  change (2 ^ 64) with (2 * 2 ^ 63). replace (2 * k * 2 ^ 63) with (k * (2 * 2 ^ 63)) by ring.
  rewrite Z.mod_mul by done. by apply Z.min_l.
Qed.

(** ** The invariant *)

Section RefreshInv.
Context {T : Type}.
Implicit Types (x : RefreshRuntime (T := T)) (c : Coordinator (T := T)) (p : RefreshPermit)
  (s : ResourceSchedule).

(** A schedule of the runtime: active with a deadline, or stopped without one. *)
Record schedule_ok (pol : ResourceSchedulePolicy) s : Prop := {
  so_policy : sc_policy s = pol;
  so_due : sc_stopped s = None -> exists d, sc_next_due s = Some d /\ 0 <= d;
  so_stopped : sc_stopped s <> None -> sc_next_due s = None;
  so_failures : 0 <= sc_failures s
}.

(** A schedule and the coordinator's state of the same resource. The coordinator never
    counts more failures nor asks for a later retry than the schedule. *)
Record agrees s (r : ResourceState) : Prop := {
  ag_failures : 0 <= rs_failures r <= sc_failures s;
  ag_retry : forall d, sc_next_due s = Some d -> rs_retry_not_before r <= d;
  ag_stopped : sc_stopped s <> None -> rs_in_flight r = None
}.

(** A reservation belongs to an issued permit and is newer than what it replaces. *)
Record flight_ok (ps : list RefreshPermit) (id : string) (r : ResourceState) (f : InFlight) : Prop := {
  fo_epoch : if_epoch f = rs_next_epoch r;
  fo_expected : forall v, if_expected f = Some v -> rv_epoch v < if_epoch f;
  fo_permit : mk_refresh_permit id (if_epoch f) (if_expected f) (if_token f) ∈ ps
}.

Record refresh_inv x (ps : list RefreshPermit) : Prop := {
  iv_base : base_delay (backoff (rr_policy x)) = 1 /\ 0 <= update_interval (rr_policy x) /\
    0 <= max_delay (backoff (rr_policy x));
  iv_backoff : co_backoff (rr_coordinator x) = backoff (rr_policy x);
  iv_schedule : forall id s, rr_schedules x !! id = Some s ->
    schedule_ok (rr_policy x) s /\ agrees s (resource_state (rr_coordinator x) id);
  iv_known : forall id, is_Some (co_resources (rr_coordinator x) !! id) -> is_Some (rr_schedules x !! id);
  iv_flight : forall id f, rs_in_flight (resource_state (rr_coordinator x) id) = Some f ->
    flight_ok ps id (resource_state (rr_coordinator x) id) f;
  iv_tokens : NoDup (rp_token <$> ps);
  iv_token : forall p, p ∈ ps -> rp_token p < co_next_token (rr_coordinator x);
  iv_epochs : NoDup ((fun p => (rp_resource p, rp_epoch p)) <$> ps);
  iv_epoch : forall p, p ∈ ps -> rp_epoch p <= rs_next_epoch (resource_state (rr_coordinator x) (rp_resource p))
}.

Lemma live_attempt_inv c p f :
  live_attempt c p = Some f ->
  rs_in_flight (resource_state c (rp_resource p)) = Some f /\ if_token f = rp_token p /\
  is_Some (co_resources c !! rp_resource p).
Proof.
  unfold live_attempt, resource_state. intros (r & Hr & H)%bind_Some.
  apply bind_Some in H as (g & Hg & H). destruct (Z.eqb_spec (if_token g) (rp_token p)); [|done].
  injection H as <-. rewrite Hr. by split_and!.
Qed.

(** The live reservation of an issued permit is the one it was issued for. *)
Lemma live_attempt_permit x ps p f :
  refresh_inv x ps -> p ∈ ps -> live_attempt (rr_coordinator x) p = Some f ->
  f = mk_in_flight (rp_epoch p) (rp_token p) (rp_expected p).
Proof.
  intros Hi Hp (Hf & Ht & _)%live_attempt_inv. destruct (iv_flight _ _ Hi _ _ Hf) as [_ _ Hin].
  assert (Heq : mk_refresh_permit (rp_resource p) (if_epoch f) (if_expected f) (if_token f) = p).
  { apply (NoDup_fmap_eq rp_token ps); [apply Hi|done|done|done]. }
  destruct f, p. cbn in *. congruence.
Qed.

Lemma resource_state_insert (reg : gmap string (ResourceSnapshot T)) m tok b id (r : ResourceState) id' :
  resource_state (mk_coordinator reg (<[id := r]> m) tok b) id' =
  if decide (id = id') then r else resource_state (mk_coordinator reg m tok b) id'.
Proof.
  unfold resource_state. cbn. destruct (decide (id = id')) as [->|].
  - by rewrite lookup_insert_eq.
  - by rewrite lookup_insert_ne.
Qed.

(** The permits are in order. *)
Record permits_ok c (ps : list RefreshPermit) : Prop := {
  po_tokens : NoDup (rp_token <$> ps);
  po_token : forall p, p ∈ ps -> rp_token p < co_next_token c;
  po_epochs : NoDup ((fun p => (rp_resource p, rp_epoch p)) <$> ps);
  po_epoch : forall p, p ∈ ps -> rp_epoch p <= rs_next_epoch (resource_state c (rp_resource p))
}.

Lemma inv_permits x ps : refresh_inv x ps -> permits_ok (rr_coordinator x) ps.
Proof. intros []. by split. Qed.

(** One resource changes: its state, its schedule and possibly the registry. *)
Lemma inv_update x ps ps' id (r : ResourceState) g reg tok s :
  refresh_inv x ps -> rr_schedules x !! id = Some s -> ps ⊆ ps' ->
  schedule_ok (rr_policy x) (g s) -> agrees (g s) r ->
  (forall f, rs_in_flight r = Some f -> flight_ok ps' id r f) ->
  let c := mk_coordinator reg (<[id := r]> (co_resources (rr_coordinator x))) tok
             (co_backoff (rr_coordinator x)) in
  permits_ok c ps' ->
  refresh_inv (mk_refresh_runtime c (alter g id (rr_schedules x)) (rr_policy x)) ps'.
Proof.
  intros Hi Hs Hsub Hok Hag Hf c [P1 P2 P3 P4].
  assert (Hr : forall id', resource_state c id' =
    if decide (id = id') then r else resource_state (rr_coordinator x) id').
  { intros id'. apply resource_state_insert. }
  split; cbn [rr_coordinator rr_schedules rr_policy]; try done; try apply Hi.
  - intros id' s'. rewrite Hr. destruct (decide (id = id')) as [<-|Hne].
    + rewrite lookup_alter_eq, Hs. intros [= <-]. by split.
    + rewrite lookup_alter_ne by done. apply Hi.
  - intros id' Hk. apply lookup_alter_is_Some. cbn in Hk. destruct (decide (id = id')) as [<-|Hne].
    + by exists s.
    + rewrite lookup_insert_ne in Hk by done. by apply Hi.
  - intros id' f. rewrite Hr. destruct (decide (id = id')) as [<-|Hne]; [apply Hf|].
    intros [F1 F2 F3]%(iv_flight _ _ Hi). split; [done|done|]. by apply Hsub.
Qed.

(** Changes that end a reservation leave the permits alone. *)
Lemma permits_keep c ps id (r : ResourceState) reg :
  permits_ok c ps -> rs_next_epoch (resource_state c id) = rs_next_epoch r ->
  permits_ok (mk_coordinator reg (<[id := r]> (co_resources c)) (co_next_token c) (co_backoff c)) ps.
Proof.
  intros [P1 P2 P3 P4] He. split; try done. intros p Hp. specialize (P4 p Hp).
  rewrite resource_state_insert.
  destruct (decide (id = rp_resource p)) as [->|]; [lia|done].
Qed.

Lemma alter_id_eq {A} (m : gmap string A) (id : string) : alter (fun v : A => v) id m = m.
Proof. apply map_eq. intros i. rewrite lookup_alter. case_decide; subst; by destruct (m !! _). Qed.

(** *** The operations *)

Lemma record_success_ok pol s at_ :
  schedule_ok pol s -> 0 <= update_interval pol -> 0 <= at_ -> schedule_ok pol (record_success s at_).
Proof.
  intros Hok Hu Ha. unfold record_success. destruct (sc_stopped s) eqn:E; [exact Hok|].
  destruct Hok as [<- _ _ _]. split; cbn; try done.
  intros _. eexists. split; [done|]. unfold_ints. lia.
Qed.

Lemma record_failure_ok pol s at_ :
  schedule_ok pol s -> 0 <= max_delay (backoff pol) -> base_delay (backoff pol) = 1 -> 0 <= at_ ->
  schedule_ok pol (record_failure s at_).
Proof.
  intros Hok Hm Hb Ha. unfold record_failure. destruct (sc_stopped s) eqn:E; [exact Hok|].
  destruct Hok as [<- _ _ H3].
  assert (1 <= sat_add32 (sc_failures s) 1) by (unfold sat_add32; unfold_ints; lia).
  split; cbn; try done; [|lia]. intros _. eexists. split; [done|].
  rewrite backoff_delay_one by done. unfold_ints.
  assert (0 <= 2 ^ Z.min (sat_add32 (sc_failures s) 1 - 1) 63) by (apply Z.pow_nonneg; lia). lia.
Qed.

Lemma stop_ok pol s reason : schedule_ok pol s -> schedule_ok pol (stop s reason).
Proof.
  intros Hok. unfold stop. destruct (sc_stopped s) eqn:E; [exact Hok|]. destruct Hok. by split.
Qed.

(** The resource of a live permit has an active schedule. *)
Lemma live_schedule x ps p f :
  refresh_inv x ps -> live_attempt (rr_coordinator x) p = Some f ->
  exists s d, rr_schedules x !! rp_resource p = Some s /\ sc_stopped s = None /\
    sc_next_due s = Some d /\ 0 <= d /\ schedule_ok (rr_policy x) s /\
    agrees s (resource_state (rr_coordinator x) (rp_resource p)).
Proof.
  intros Hi (Hf & _ & Hk)%live_attempt_inv. apply (iv_known _ _ Hi) in Hk as [s Hs].
  destruct (iv_schedule _ _ Hi _ _ Hs) as [Hok Hag].
  assert (Hst : sc_stopped s = None).
  { destruct (sc_stopped s) eqn:E; [|done]. rewrite (ag_stopped _ _ Hag) in Hf by congruence. done. }
  destruct (so_due _ _ Hok Hst) as (d & Hd & H0). exists s, d. by split_and!.
Qed.

Lemma set_coordinator_same x : set_coordinator x (rr_coordinator x) = x.
Proof. by destruct x. Qed.

Lemma refresh_publish_inv x ps p cand now :
  refresh_inv x ps -> 0 <= now -> refresh_inv (runtime_publish x p cand now).2 ps.
Proof.
  intros Hi Hn. unfold runtime_publish, refresh_publish.
  destruct (negb _); [by rewrite set_coordinator_same|].
  destruct (negb _); [by rewrite set_coordinator_same|].
  destruct (live_attempt _ p) as [f|] eqn:Hl; [|by rewrite set_coordinator_same].
  destruct (compare_and_publish _ _ _) as [reg|]; [|by rewrite set_coordinator_same]. cbn [snd].
  destruct (live_schedule _ _ _ _ Hi Hl) as (s & d & Hs & Hst & Hd & H0 & Hok & Hag).
  destruct (iv_base _ _ Hi) as (_ & Hu & _).
  unfold on_schedule, set_coordinator, set_resource; cbn [rr_coordinator rr_schedules rr_policy].
  eapply (inv_update _ ps); [done|exact Hs|done|by apply record_success_ok| |done|].
  - split; cbn.
    + pose proof (so_failures _ _ (record_success_ok _ _ _ Hok Hu Hn)). lia.
    + intros d' Hd'. destruct (so_due _ _ (record_success_ok _ _ _ Hok Hu Hn)) as (d'' & E & ?).
      { unfold record_success. by rewrite Hst. }
      rewrite Hd' in E. injection E as ->. done.
    + done.
  - apply permits_keep; [by apply inv_permits|done].
Qed.

Lemma fail_inv x ps p now :
  refresh_inv x ps -> 0 <= now -> refresh_inv (runtime_fail x p now).2 ps.
Proof.
  intros Hi Hn. unfold runtime_fail, refresh_fail.
  destruct (live_attempt _ p) as [f|] eqn:Hl; [|by rewrite set_coordinator_same]. cbn [snd].
  destruct (live_schedule _ _ _ _ Hi Hl) as (s & d & Hs & Hst & Hd & H0 & Hok & Hag).
  destruct (iv_base _ _ Hi) as (Hb & _ & Hm).
  unfold on_schedule, set_coordinator, set_resource; cbn [rr_coordinator rr_schedules rr_policy].
  eapply (inv_update _ ps); [done|exact Hs|done|by apply record_failure_ok| |done|].
  - destruct Hag as [Hf _ _]. unfold record_failure. rewrite Hst. split; cbn.
    + unfold sat_add32. unfold_ints. lia.
    + intros d' [= <-]. apply sat_add64_mono. rewrite (iv_backoff _ _ Hi), (so_policy _ _ Hok).
      apply backoff_delay_mono; [done|]. unfold sat_add32. unfold_ints. lia.
    + done.
  - apply permits_keep; [by apply inv_permits|done].
Qed.

(** Dropping a reservation, with or without stopping the schedule. *)
Lemma drop_flight_inv x ps id g s :
  refresh_inv x ps -> rr_schedules x !! id = Some s -> schedule_ok (rr_policy x) (g s) ->
  agrees (g s) (clear_in_flight (resource_state (rr_coordinator x) id)) ->
  refresh_inv (on_schedule (set_coordinator x (set_resource (rr_coordinator x) id
    (clear_in_flight (resource_state (rr_coordinator x) id)))) id g) ps.
Proof.
  intros Hi Hs Hok Hag. unfold on_schedule, set_coordinator, set_resource.
  cbn [rr_coordinator rr_schedules rr_policy]. eapply (inv_update _ ps); [done|exact Hs|done|done|done|done|].
  apply permits_keep; [by apply inv_permits|done].
Qed.

Lemma agrees_clear s (r : ResourceState) : agrees s r -> agrees s (clear_in_flight r).
Proof. intros []. by split. Qed.

Lemma agrees_stop s (r : ResourceState) reason :
  agrees s r -> rs_in_flight r = None -> agrees (stop s reason) r.
Proof. intros [] ?. unfold stop. destruct (sc_stopped s) eqn:E; split; cbn; try done. Qed.

Lemma abandon_inv x ps p : refresh_inv x ps -> refresh_inv (refresh_abandon x p).2 ps.
Proof.
  intros Hi. unfold refresh_abandon, refresh_cancel. destruct (negb _); [by rewrite set_coordinator_same|].
  destruct (live_attempt _ p) as [f|] eqn:Hl; [|by rewrite set_coordinator_same]. cbn [snd].
  destruct (live_schedule _ _ _ _ Hi Hl) as (s & d & Hs & _ & _ & _ & Hok & Hag).
  pose proof (drop_flight_inv x ps _ (fun s => s) s Hi Hs Hok (agrees_clear _ _ Hag)) as H.
  unfold on_schedule in H. by rewrite alter_id_eq in H.
Qed.

Lemma cancel_inv x ps id p : refresh_inv x ps -> refresh_inv (runtime_cancel x id p).2 ps.
Proof.
  intros Hi. unfold runtime_cancel, refresh_cancel.
  case_bool_decide as Hid; cbn; [subst id|by rewrite set_coordinator_same].
  destruct (live_attempt _ p) as [f|] eqn:Hl; [|by rewrite set_coordinator_same].
  destruct (live_schedule _ _ _ _ Hi Hl) as (s & d & Hs & _ & _ & _ & Hok & Hag).
  eapply drop_flight_inv; [done|exact Hs|by apply stop_ok|]. by apply agrees_stop; [apply agrees_clear|].
Qed.

Lemma register_inv x ps id due :
  refresh_inv x ps -> 0 <= due -> refresh_inv (refresh_register x id due).2 ps.
Proof.
  intros Hi Hd. unfold refresh_register. case_bool_decide as Hk; [done|].
  split; cbn; try apply Hi.
  - intros id' s'. destruct (decide (id = id')) as [<-|Hne].
    + rewrite lookup_insert_eq. intros [= <-].
      assert (Hn : co_resources (rr_coordinator x) !! id = None).
      { apply eq_None_not_Some. intros H. by apply Hk, Hi. }
      unfold resource_state. rewrite Hn. split; split; cbn; try done; try lia.
      * intros _. by exists due.
      * intros d [= <-]. done.
    + rewrite lookup_insert_ne by done. apply Hi.
  - intros id' H. apply lookup_insert_is_Some'. right. by apply Hi.
Qed.

Lemma default_agrees s :
  0 <= sc_failures s -> (forall d, sc_next_due s = Some d -> 0 <= d) -> agrees s default_state.
Proof. intros H1 H2. by split. Qed.

Lemma resource_state_empty c id : co_resources c = ∅ -> resource_state c id = default_state.
Proof. unfold resource_state. intros ->. by rewrite lookup_empty. Qed.

Lemma new_inv (r : gmap string (ResourceSnapshot T)) pol due :
  base_delay (backoff pol) = 1 -> 0 <= update_interval pol -> 0 <= max_delay (backoff pol) -> 0 <= due ->
  refresh_inv (refresh_runtime_new r pol due) [].
Proof.
  intros Hb Hu Hm Hd. split; try done; try apply NoDup_nil_2; unfold refresh_runtime_new;
    cbn [rr_coordinator rr_schedules rr_policy].
  - intros id s. rewrite lookup_fmap, fmap_Some. intros (v & _ & ->).
    rewrite resource_state_empty by done. split; [split|apply default_agrees]; cbn; try done.
    + intros _. by exists due.
    + by intros d [= <-].
  - intros id [? H]. discriminate H.
  - intros p ?%elem_of_nil. done.
  - intros p ?%elem_of_nil. done.
Qed.

Lemma merge_inv x ps y qs allowed :
  refresh_inv x ps -> refresh_inv y qs -> co_resources (rr_coordinator x) = ∅ ->
  refresh_inv (refresh_merge_state x y allowed) ps.
Proof.
  intros Hx Hy He.
  assert (Hr : forall id, resource_state (rr_coordinator x) id = default_state).
  { intros id. by apply resource_state_empty. }
  assert (Hr' : forall id, resource_state (rr_coordinator (refresh_merge_state x y allowed)) id =
    default_state) by exact Hr.
  destruct Hx as [X1 X2 X3 X4 X5 X6 X7 X8 X9]. split; try done.
  - intros id s. rewrite Hr'. cbn. rewrite map_lookup_imap. intros (s0 & Hs & [= <-])%bind_Some.
    destruct (X3 id s0 Hs) as [Hok Hag]. rewrite Hr in Hag. unfold merge_schedule.
    destruct (rr_schedules y !! id) as [i|] eqn:Hi; [|done]. destruct (allowed id); [|done].
    unfold merge_stable_state_from. case_bool_decide as Hp; [|done].
    destruct (iv_schedule _ _ Hy id i Hi) as [[O1 O2 O3 O4] _]. split.
    + split; cbn; try done. by apply so_policy.
    + apply default_agrees; cbn; [done|]. intros d Hd. destruct (sc_stopped i) as [r|] eqn:Hs'.
      * rewrite O3 in Hd by done. done.
      * destruct (O2 eq_refl) as (d' & E & ?). congruence.
  - intros id Hk. cbn in Hk. rewrite He, lookup_empty in Hk. by destruct Hk.
Qed.

(** A reservation is newer than everything before it. *)
Lemma begin_inv x ps id now p x' :
  refresh_inv x ps -> co_next_token (rr_coordinator x) < u64_max -> begin_due x id now = (Ok p, x') ->
  refresh_inv x' (p :: ps).
Proof.
  intros Hi Htok. unfold begin_due. destruct (rr_schedules x !! id) as [s|] eqn:Hs; [|done].
  destruct (iv_schedule _ _ Hi _ _ Hs) as [Hok Hag].
  destruct (decision s now) as [[d n st| |]|] eqn:Hdec; try done.
  assert (Hst : sc_stopped s = None) by (unfold decision in Hdec; by destruct (sc_stopped s)).
  unfold refresh_begin. destruct (rs_in_flight _) eqn:Hfl; [done|].
  destruct (now <? _); [done|]. destruct (_ =? u64_max) eqn:Hmax; [done|].
  rewrite (proj2 (Z.eqb_neq _ _)) by lia.
  set (v := match current_version _ _ with Some v => rv_epoch v | None => 0 end).
  set (latest := Z.max _ v). intros [= <- <-].
  unfold set_coordinator. rewrite <-(alter_id_eq (rr_schedules x) id). destruct Hag as [A1 A2 A3].
  assert (Hlt : rs_next_epoch (resource_state (rr_coordinator x) id) < latest + 1) by (unfold latest; lia).
  eapply (inv_update _ ps); [done|exact Hs|set_solver|done|split; cbn; try done|..].
  - intros f [= <-]. split; cbn; [done| |apply list_elem_of_here].
    intros w Hw. unfold latest, v. rewrite Hw. lia.
  - destruct (inv_permits _ _ Hi) as [P1 P2 P3 P4]. split; cbn.
    + apply list.NoDup_cons. split; [|done]. intros (q & Hq & Hin)%list_elem_of_fmap.
      specialize (P2 q Hin). cbn in Hq. lia.
    + intros q [->|Hin]%elem_of_cons; cbn; [lia|]. specialize (P2 q Hin). lia.
    + apply list.NoDup_cons. split; [|done]. intros (q & Hq & Hin)%list_elem_of_fmap.
      injection Hq as Hq1 Hq2. specialize (P4 q Hin). rewrite <-Hq1, <-Hq2 in P4. lia.
    + intros q Hq. rewrite resource_state_insert. apply elem_of_cons in Hq as [->|Hin]; cbn.
      * by rewrite decide_True.
      * specialize (P4 q Hin). destruct (decide (id = rp_resource q)) as [->|]; cbn; [lia|done].
Qed.

(** Clearing the reservations of a list of resources. *)
Lemma cancel_all_spec {A} (l : list (string * A)) c :
  let c' := foldl (fun c e => (cancel_resource c e.1).2) c l in
  co_registry c' = co_registry c /\ co_next_token c' = co_next_token c /\ co_backoff c' = co_backoff c /\
  (forall id, is_Some (co_resources c' !! id) <-> is_Some (co_resources c !! id)) /\
  forall id, resource_state c' id = if decide (id ∈ l.*1) then clear_in_flight (resource_state c id)
                                    else resource_state c id.
Proof.
  cbn zeta. revert c. induction l as [|[k a] l IH]; intros c; cbn [foldl].
  { by split_and!. }
  destruct (IH (cancel_resource c (k, a).1).2) as (H1 & H2 & H3 & H4 & H5). rewrite H1, H2, H3.
  assert (Hc : co_registry (cancel_resource c k).2 = co_registry c /\
    co_next_token (cancel_resource c k).2 = co_next_token c /\
    co_backoff (cancel_resource c k).2 = co_backoff c /\
    (forall id, is_Some (co_resources (cancel_resource c k).2 !! id) <-> is_Some (co_resources c !! id)) /\
    forall id, resource_state (cancel_resource c k).2 id =
      if decide (k = id) then clear_in_flight (resource_state c id) else resource_state c id).
  { unfold cancel_resource. destruct (co_resources c !! k) as [r|] eqn:E; cbn [snd]; unfold set_resource;
      cbn [co_registry co_resources co_next_token co_backoff].
    - split_and!; try done.
      + intros id. rewrite lookup_insert_is_Some. split; [|destruct (decide (k = id)); auto].
        intros [<-|[_ ?]]; [by exists r|done].
      + intros id. rewrite resource_state_insert. destruct (decide (k = id)) as [<-|]; [|done].
        unfold resource_state. by rewrite E.
    - split_and!; try done. intros id. destruct (decide (k = id)) as [<-|]; [|done].
      unfold resource_state. by rewrite E. }
  destruct Hc as (C1 & C2 & C3 & C4 & C5). cbn [fst] in *. split_and!; try done.
  - intros id. by rewrite H4, C4.
  - intros id. rewrite H5, C5. cbn [fmap list_fmap fst].
    pose proof (elem_of_cons l.*1 id k) as Hk.
    destruct (decide (id ∈ l.*1)), (decide (k = id)), (decide (id ∈ k :: l.*1)); try done; exfalso;
      naive_solver.
Qed.

Lemma refresh_shutdown_inv x ps : refresh_inv x ps -> refresh_inv (refresh_shutdown x) ps.
Proof.
  intros [X1 X2 X3 X4 X5 X6 X7 X8 X9]. unfold refresh_shutdown.
  set (sch := (fun s => stop s StopShutdown) <$> rr_schedules x).
  destruct (cancel_all_spec (btree_list sch) (rr_coordinator x)) as (H1 & H2 & H3 & H4 & H5).
  set (c' := foldl _ _ _) in *.
  assert (He : forall id, rs_next_epoch (resource_state c' id) =
    rs_next_epoch (resource_state (rr_coordinator x) id)).
  { intros id. rewrite H5. by destruct (decide _). }
  split; cbn [rr_coordinator rr_schedules rr_policy]; try done.
  - by rewrite H3.
  - intros id s Hs. unfold sch in Hs. rewrite lookup_fmap, fmap_Some in Hs. destruct Hs as (s0 & Hs & ->).
    destruct (X3 _ _ Hs) as [Hok Hag]. split; [by apply stop_ok|]. rewrite H5, decide_True.
    + by apply agrees_stop; [apply agrees_clear|].
    + apply list_elem_of_fmap. exists (id, stop s0 StopShutdown). split; [done|].
      apply elem_of_btree_list. unfold sch. by rewrite lookup_fmap, Hs.
  - intros id [s Hs]%H4%X4. unfold sch. rewrite lookup_fmap, Hs. by eexists.
  - intros id f. rewrite H5. destruct (decide _); [done|]. intros Hf. by apply X5.
  - intros p Hp. rewrite H2. by apply X7.
  - intros p Hp. rewrite He. by apply X9.
Qed.

Lemma refresh_reachable_inv x ps : refresh_reachable x ps -> refresh_inv x ps.
Proof.
  induction 1.
  - by apply new_inv.
  - by eapply merge_inv.
  - by apply register_inv.
  - by eapply begin_inv.
  - by apply refresh_publish_inv.
  - by apply fail_inv.
  - by apply abandon_inv.
  - by apply cancel_inv.
  - by apply refresh_shutdown_inv.
Qed.

(** ** Properties *)

(** At most one refresh of a resource is in flight, and epochs are never reused:
    of all permits ever issued for a resource, also after failures, cancellations and
    the takeover of an older runtime's state, at most one can still publish, and no
    two carry the same epoch. *)
Theorem refresh_single_flight x ps p q :
  refresh_reachable x ps -> p ∈ ps -> q ∈ ps -> rp_resource p = rp_resource q ->
  (is_Some (live_attempt (rr_coordinator x) p) -> is_Some (live_attempt (rr_coordinator x) q) -> p = q) /\
  (rp_epoch p = rp_epoch q -> p = q).
Proof.
  intros Hi%refresh_reachable_inv Hp Hq Hr. split.
  - intros [f Hf] [g Hg]. apply live_attempt_inv in Hf as (F1 & F2 & _), Hg as (G1 & G2 & _).
    rewrite Hr, G1 in F1. injection F1 as ->.
    apply (NoDup_fmap_eq rp_token ps); [apply Hi|done|done|congruence].
  - intros He. apply (NoDup_fmap_eq (fun p => (rp_resource p, rp_epoch p)) ps); [apply Hi|done|done|].
    congruence.
Qed.

(** A candidate is published exactly when it is for the permit's resource and
    epoch, the permit is the live one and the registry still holds the version the
    permit was issued against; the resource's version then strictly increases and
    the failure count is reset. Otherwise nothing changes, and the registry's own
    epoch check never fires. *)
Theorem refresh_publish_spec x ps p cand :
  refresh_reachable x ps -> p ∈ ps ->
  let c := rr_coordinator x in
  match refresh_publish c p cand with
  | (Ok _, c') =>
      sn_resource _ cand = rp_resource p /\ epoch_of cand = rp_epoch p /\
      is_Some (live_attempt c p) /\ current_version (co_registry c) (rp_resource p) = rp_expected p /\
      co_registry c' = <[rp_resource p := cand]> (co_registry c) /\
      (forall v, current_version (co_registry c) (rp_resource p) = Some v ->
         version_ltb v (sn_version _ cand) = true) /\
      resource_state c' (rp_resource p) =
        mk_resource_state (rs_next_epoch (resource_state c (rp_resource p))) None 0 0
  | (Err e, c') => c' = c /\
      match e with
      | ResourceMismatch _ _ => sn_resource _ cand <> rp_resource p
      | EpochMismatch _ _ => epoch_of cand <> rp_epoch p
      | UnknownAttempt => live_attempt c p = None
      | RegistryError_ (CompareAndSwapFailed _ _) =>
          current_version (co_registry c) (rp_resource p) <> rp_expected p
      | RegistryError_ (StaleEpoch _ _) => False
      end
  end.
Proof.
  intros Hi%refresh_reachable_inv Hp. cbn zeta. unfold refresh_publish.
  case_bool_decide as Hr; cbn [negb]; [|done].
  destruct (Z.eqb_spec (epoch_of cand) (rp_epoch p)) as [He|]; cbn [negb]; [|done].
  destruct (live_attempt (rr_coordinator x) p) as [f|] eqn:Hl; [|done].
  pose proof (live_attempt_permit _ _ _ _ Hi Hp Hl) as ->.
  pose proof (live_attempt_inv _ _ _ Hl) as (Hf & _ & _).
  destruct (iv_flight _ _ Hi _ _ Hf) as [_ Hexp _]. cbn [if_expected if_epoch] in *.
  unfold compare_and_publish, publish_arc. rewrite Hr.
  case_bool_decide as Hv; cbn [negb]; [|split; [done|]; congruence].
  assert (Hnew : forall v, current_version (co_registry (rr_coordinator x)) (rp_resource p) = Some v ->
    rv_epoch v < epoch_of cand).
  { intros v Hc. rewrite He. apply Hexp. congruence. }
  unfold current_version in Hnew. destruct (co_registry _ !! rp_resource p) as [cur|] eqn:Hcur.
  - specialize (Hnew _ eq_refl). cbn in Hnew. destruct (Z.leb_spec (epoch_of cand) (epoch_of cur)).
    + unfold epoch_of in *. lia.
    + split_and!; try done.
      * intros v. unfold current_version. rewrite Hcur. intros [= <-]. unfold version_ltb, epoch_of in *. lia.
      * rewrite resource_state_insert. by rewrite decide_True.
  - split_and!; try done.
    + intros v. unfold current_version. by rewrite Hcur.
    + rewrite resource_state_insert. by rewrite decide_True.
Qed.

(** A resource that is due is refreshed: an active schedule always has a next
    deadline, and from then on a reservation is granted unless one is in flight or
    the epochs are used up. The schedule's backoff is the only one that delays: the
    coordinator's own never refuses a resource that is due. *)
Theorem due_begins x ps id s now :
  refresh_reachable x ps -> rr_schedules x !! id = Some s -> sc_stopped s = None ->
  exists d, sc_next_due s = Some d /\
    (d <= now -> match (begin_due x id now).1 with
     | Ok p => rp_resource p = id /\ live_attempt (rr_coordinator (begin_due x id now).2) p =
         Some (mk_in_flight (rp_epoch p) (rp_token p) (rp_expected p))
     | Err (BeginRefused (AlreadyRefreshing e)) => exists f,
         rs_in_flight (resource_state (rr_coordinator x) id) = Some f /\ if_epoch f = e
     | Err (BeginRefused EpochExhausted) => True
     | Err _ => False
     end).
Proof.
  intros Hi%refresh_reachable_inv Hs Hst. destruct (iv_schedule _ _ Hi _ _ Hs) as [Hok Hag].
  destruct (so_due _ _ Hok Hst) as (d & Hd & _). exists d. split; [done|]. intros Hn.
  unfold begin_due. rewrite Hs. unfold decision. rewrite Hst, Hd. cbn.
  rewrite (proj2 (Z.leb_le _ _) Hn). unfold refresh_begin.
  destruct (rs_in_flight _) as [f|] eqn:Hf; [by exists f|].
  pose proof (ag_retry _ _ Hag d Hd) as Hr. rewrite (proj2 (Z.ltb_ge _ _)) by lia.
  destruct (_ =? u64_max); [done|]. cbn. split; [done|].
  unfold live_attempt. cbn. rewrite lookup_insert_eq. cbn. by rewrite Z.eqb_refl.
Qed.

(** A permit that is no longer the live one cannot become it again by being used. *)
Lemma publish_or_abandon_released x p cand now :
  live_attempt (rr_coordinator (publish_or_abandon x p cand now).2) p = None.
Proof.
  assert (Hdel : forall (reg : gmap string (ResourceSnapshot T)) m tok b (r : ResourceState),
    rs_in_flight r = None -> live_attempt (mk_coordinator reg (<[rp_resource p := r]> m) tok b) p = None).
  { intros reg m tok b r Hr. unfold live_attempt. cbn. rewrite lookup_insert_eq. cbn. by rewrite Hr. }
  assert (Hab : live_attempt (rr_coordinator (refresh_abandon x p).2) p = None).
  { unfold refresh_abandon, refresh_cancel. rewrite bool_decide_eq_true_2 by done. cbn.
    destruct (live_attempt (rr_coordinator x) p) eqn:Hl; [by apply Hdel|done]. }
  unfold publish_or_abandon, runtime_publish, refresh_publish.
  destruct (negb _).
  { rewrite set_coordinator_same. by destruct (refresh_abandon x p) as [[] ?]. }
  destruct (negb _).
  { rewrite set_coordinator_same. by destruct (refresh_abandon x p) as [[] ?]. }
  destruct (live_attempt (rr_coordinator x) p) as [f|] eqn:Hl.
  2: { rewrite set_coordinator_same. by destruct (refresh_abandon x p) as [[] ?]. }
  destruct (compare_and_publish _ _ _).
  - by apply Hdel.
  - rewrite set_coordinator_same. by destruct (refresh_abandon x p) as [[] ?].
Qed.

Lemma fail_released x p now : live_attempt (rr_coordinator (runtime_fail x p now).2) p = None.
Proof.
  unfold runtime_fail, refresh_fail. destruct (live_attempt (rr_coordinator x) p) eqn:Hl; [|done].
  cbn. unfold live_attempt. cbn. by rewrite lookup_insert_eq.
Qed.

Lemma abandon_released x p : live_attempt (rr_coordinator (refresh_abandon x p).2) p = None.
Proof.
  unfold refresh_abandon, refresh_cancel. rewrite bool_decide_eq_true_2 by done. cbn.
  destruct (live_attempt (rr_coordinator x) p) eqn:Hl; [|done].
  cbn. unfold live_attempt. cbn. by rewrite lookup_insert_eq.
Qed.

(** A worker never keeps its reservation: whatever the source gave, whether the
    candidate was published or rejected, and whatever other tasks did meanwhile, the
    permit a worker began with is not the live one when it returns, so the next
    refresh of the resource can begin. *)
Theorem refresh_released x id now load file others p x1 :
  begin_due x id now = (Ok p, x1) ->
  live_attempt (rr_coordinator (remote_refresh x id now load others).2) p = None /\
  live_attempt (rr_coordinator (file_refresh x id now file others).2) p = None.
Proof.
  intros Hb. unfold remote_refresh, file_refresh. rewrite Hb. split.
  - destruct load; cbn; [apply publish_or_abandon_released|apply fail_released|apply abandon_released].
  - destruct file; [apply publish_or_abandon_released|].
    pose proof (fail_released (others x1) p now) as H. by destruct (runtime_fail _ _ _).
Qed.

End RefreshInv.

(** ** A concrete runtime *)

Section RefreshWitness.

Definition sample_snapshot (epoch : Z) : ResourceSnapshot unit :=
  mk_snapshot _ "hosts" (mk_version epoch 1) "h" tt.
Definition sample_schedule_policy : ResourceSchedulePolicy := mk_schedule_policy 60 3 180 (mk_backoff 1 300).
Definition sample_runtime : RefreshRuntime :=
  refresh_runtime_new {["hosts" := sample_snapshot 1]} sample_schedule_policy 100.

(** Reserved, failed, and reserved again a second later. *)
Definition first_permit : RefreshPermit := mk_refresh_permit "hosts" 2 (Some (mk_version 1 1)) 0.
Definition second_permit : RefreshPermit := mk_refresh_permit "hosts" 3 (Some (mk_version 1 1)) 1.
Definition reserved_runtime : RefreshRuntime := (begin_due sample_runtime "hosts" 100).2.
Definition failed_runtime : RefreshRuntime := (runtime_fail reserved_runtime first_permit 100).2.
Definition again_runtime : RefreshRuntime := (begin_due failed_runtime "hosts" 101).2.

Lemma sample_runtime_reachable : refresh_reachable sample_runtime [].
Proof. by apply rf_new. Qed.

Lemma begins (x : RefreshRuntime) now p :
  (begin_due (T := unit) x "hosts" now).1 = Ok p ->
  begin_due x "hosts" now = (Ok p, (begin_due x "hosts" now).2).
Proof. by destruct (begin_due x "hosts" now) as [? ?]; intros [= ->]. Qed.

Lemma failed_runtime_reachable : refresh_reachable failed_runtime [first_permit].
Proof.
  apply rf_fail; [|apply list_elem_of_here|done].
  eapply (rf_begin _ _ "hosts" 100); [exact sample_runtime_reachable|done|done|]. apply begins. by vm_compute.
Qed.

Lemma again_runtime_reachable : refresh_reachable again_runtime [second_permit; first_permit].
Proof.
  eapply (rf_begin _ _ "hosts" 101); [exact failed_runtime_reachable|done|by vm_compute|]. apply begins. by vm_compute.
Qed.

Lemma refresh_single_flight_witness :
  is_Some (live_attempt (rr_coordinator again_runtime) second_permit) /\
  live_attempt (rr_coordinator again_runtime) first_permit = None.
Proof.
  assert (H2 : is_Some (live_attempt (rr_coordinator again_runtime) second_permit))
    by (eexists; vm_compute; reflexivity).
  split; [exact H2|].
  destruct (live_attempt (rr_coordinator again_runtime) first_permit) as [f|] eqn:E; [|reflexivity].
  exfalso. destruct (refresh_single_flight again_runtime [second_permit; first_permit] first_permit
    second_permit) as [H _].
  - exact again_runtime_reachable.
  - apply list_elem_of_further, list_elem_of_here.
  - apply list_elem_of_here.
  - reflexivity.
  - rewrite E in H. discriminate (H (ex_intro _ f eq_refl) H2).
Defined.

Lemma refresh_publish_spec_witness :
  co_registry (refresh_publish (rr_coordinator again_runtime) second_permit (sample_snapshot 3)).2 =
    <["hosts" := sample_snapshot 3]> (co_registry (rr_coordinator again_runtime)).
Proof.
  pose proof (refresh_publish_spec again_runtime [second_permit; first_permit] second_permit
    (sample_snapshot 3) again_runtime_reachable (list_elem_of_here _ _)) as H. cbv zeta in H.
  assert (K : is_ok (refresh_publish (rr_coordinator again_runtime) second_permit (sample_snapshot 3)).1 = true)
    by (vm_compute; reflexivity).
  destruct (refresh_publish (rr_coordinator again_runtime) second_permit (sample_snapshot 3)) as [[u|e] c'].
  - apply H.
  - discriminate K.
Defined.

Lemma due_begins_witness : exists s d,
  rr_schedules failed_runtime !! "hosts" = Some s /\ sc_next_due s = Some d /\ d <= 101.
Proof.
  destruct (rr_schedules failed_runtime !! "hosts") as [s|] eqn:E; [|by vm_compute in E].
  assert (K : (fun s => (sc_stopped s, sc_next_due s)) <$> rr_schedules failed_runtime !! "hosts" =
    Some (None, Some 101)) by (vm_compute; reflexivity).
  rewrite E in K. injection K as K1 K2.
  destruct (due_begins failed_runtime [first_permit] "hosts" s 101 failed_runtime_reachable E K1)
    as (d & Hd & _).
  exists s, d. split; [reflexivity|]. split; [exact Hd|]. rewrite Hd in K2. injection K2 as ->. reflexivity.
Defined.

Lemma refresh_released_witness :
  live_attempt (rr_coordinator (file_refresh sample_runtime "hosts" 100 None id).2) first_permit = None.
Proof.
  apply (refresh_released sample_runtime "hosts" 100 LoadFailed None id first_permit reserved_runtime).
  apply begins. vm_compute. reflexivity.
Defined.

Lemma backoff_delay_spec_witness :
  backoff_delay (mk_backoff 1 300) 5 = 16 /\ backoff_delay (mk_backoff 2 300) 64 = 0.
Proof.
  split.
  - exact (proj1 (backoff_delay_spec (mk_backoff 1 300) 5 ltac:(lia) ltac:(cbn; lia)) eq_refl).
  - exact (proj2 (backoff_delay_spec (mk_backoff 2 300) 64 ltac:(lia) ltac:(cbn; lia)) eq_refl ltac:(lia)).
Defined.

End RefreshWitness.
