(* ===== verification/Resolve.v ===== *)
(** * Resolving a request (src/backend/src/dns/policy.rs, dns/handler.rs)

    [PolicyDnsCore::resolve_with_metadata]: the Fast lookup, rule evaluation, local
    answers from hosts files, the Resolved lookup, the single-flight reservation,
    the upstream exchange and the commit candidate handed to the cache worker.

    The cache is the facade over any store. Each [await] point of the code is a
    place where other tasks run: what they do to the facade is an argument of the
    model, as are the clock readings and the answers of the network. *)

From S2P Require Import Prelude Text Net Message CacheModel CacheKeyEnc CacheAdmission.
From S2P Require Import CacheStore CacheFacade Client Hosts Regex Rules Group Outcome Executor.
From S2P Require Import Plan Upstreams QueryKey.

(** ** Types (dns/handler.rs) *)

Inductive CoreError := ResponseConstruction (e : CanonicalMessageError).
Inductive MatchedRuleSource := MS_ListenerHosts | MS_StrategyHosts | MS_RuleSet.

Record MatchedRuleObservation := mk_rule_observation {
  mo_source : MatchedRuleSource;
  mo_resource_id : string;
  mo_resource_version : option ResourceVersion;
  mo_ordinal : option nat
}.

Record DnsResolutionObservation := mk_observation {
  ob_client_match : option (ClientMatchSource * string);
  ob_client_bucket : option string;
  ob_strategy_id : option string;
  ob_matched_rule : option MatchedRuleObservation;
  ob_upstream_id : option string;
  ob_upstream_member_id : option string;
  ob_upstream_used_id : option string;
  ob_source : StatsSource;
  ob_cache_status : CacheStatus
}.

(** Record construction of [hickory-proto]; the type codes are those of the RFCs. *)
Class HickoryRecords (HH : Hickory) := {
  rdata_a : Z -> RData;
  rdata_aaaa : Z -> RData;
  rdata_cname : Name -> RData;
  name_from_ascii : chars -> option Name
}.
Definition RT_A : Z := 1.
Definition RT_CNAME : Z := 5.
Definition RT_AAAA : Z := 28.

Section Resolve.
Context {HH : Hickory} {SO : SubnetOps HH} {NT : NameText HH} {HR : HickoryRecords HH}.
Context {IN : IpNetOps} {IB : IpNetBuild IN} {HN : HickoryName}.
Context (sha256 : list byte -> list byte).

Inductive CoreOutcome := CO_Response (r : CanonicalResponse) | CO_NoResponse.

(** ** Local answers *)

Definition from_rdata (name : Name) (ttl : Z) (d : RData) : Record_ :=
  {| rr_name := name; rr_class := 1; rr_ttl := ttl; rr_data := d |}.

Definition host_answer (query_type : Z) (name : Name) (ttl : Z) (r : HostsRecord) : option Record_ :=
  match r with
  | Address (V4 a) =>
      if query_type =? RT_A then Some (from_rdata name ttl (rdata_a a)) else None
  | Address (V6 a) =>
      if query_type =? RT_AAAA then Some (from_rdata name ttl (rdata_aaaa a)) else None
  | Cname d =>
      if query_type =? RT_CNAME
      then (fun t => from_rdata name ttl (rdata_cname t)) <$> name_from_ascii (as_str d) else None
  end.

(** The answers of the hosts files that know the name, and whether one does. *)
Definition resource_answers (indexes : list HostsIndex) (name : Name) (query_type ttl : Z) :
    list Record_ * bool :=
  match CanonicalDomain_parse (name_ascii name) with
  | Err _ => ([], false)
  | Ok domain =>
    let has_exact := existsb (fun i => bool_decide (is_Some (hosts_records i domain))) indexes in
    let found := omap (fun i => if has_exact then hosts_records i domain
                                else lookup_hosts i domain) indexes in
    (found ≫= omap (host_answer query_type name ttl), negb (bool_decide (found = [])))
  end.

Definition apply_ttl_override (r : CanonicalResponse) (o : ResolvedTtlOverride) :
    CanonicalResponse :=
  if to_enabled o then clamp_ttl r (to_min o) (to_max o) else r.

Definition hosts_result (q : CanonicalQuery) (index : HostsIndex) (ttl : Z)
    (o : ResolvedTtlOverride) : result CoreError CoreOutcome :=
  let '(records, known) := resource_answers [index] (cq_name (query_question q))
                             (cq_query_type (query_question q)) ttl in
  let code := if bool_decide (records = []) && negb known then NXDomain else NoError in
  let response := if bool_decide (code = NoError) && negb (bool_decide (records = []))
                  then response_with_answers q records
                  else response_with_code q code records in
  map_err ResponseConstruction
    ((fun r => CO_Response (apply_ttl_override r o)) <$> response).

Definition servfail (r : DnsRequest) : result CoreError CoreOutcome :=
  map_err ResponseConstruction (CO_Response <$> empty_response (dq_query r) ServFail).

(** ** Answers from the cache *)

(** [negative_ttl_max]: a zero limit is no limit. *)
Definition fresh_cache_response (rec : CacheRecord) (negative_max : option Duration)
    (now : Instant) : CanonicalResponse :=
  let response := age_ttl (response (entry rec)) (duration_since now (inserted_at (entry rec))) in
  if is_negative response then
    let remaining := duration_since (expires_at (entry rec)) now in
    cap_negative_ttl response (match negative_max with
      | Some max => Z.min remaining max
      | None => remaining
      end)
  else response.

Definition optimistic_answer_ttl (d : CacheDecision) : option Duration :=
  match d with CacheDisabled => None | CachePool _ t _ _ => t end.
Definition optimistic_max_age (d : CacheDecision) : option Duration :=
  match d with CacheDisabled => None | CachePool _ _ m _ => m end.
Definition optimistic_negative_max_age (d : CacheDecision) : option Duration :=
  match d with CacheDisabled => None | CachePool _ _ _ m => m end.

Definition stale_answer_ttl (d : CacheDecision) (e : CacheEntry) (now : Instant) : option Duration :=
  answer_ttl ← optimistic_answer_ttl d;
  max_age ← match quality e with
    | Q_Complete => optimistic_max_age d
    | Q_Negative => optimistic_negative_max_age d
    | Q_Failure => None
    end;
  if is_zero max_age then None
  else match instant_checked_add (expires_at e) max_age with
  | Some stale_until => if now <? stale_until then Some answer_ttl else None
  | None => None
  end.

(** ** Matched rules *)

Definition matched_rule_observation (ps : PolicyState) (m : option MatchedRule) :
    option MatchedRuleObservation :=
  m ← m;
  Some match mr_kind m with
  | MK_ListenerHosts resource =>
      mk_rule_observation MS_ListenerHosts resource (ps_host_versions ps !! resource) None
  | MK_Hosts resource =>
      mk_rule_observation MS_StrategyHosts resource (ps_host_versions ps !! resource) (mr_ordinal m)
  | MK_RuleSet resource _ =>
      mk_rule_observation MS_RuleSet resource (ps_rule_set_versions ps !! resource) (mr_ordinal m)
  end.

Definition client_bucket (m : ClientMatch) : option string :=
  match m with Matched client _ => Some (client_name client) | Unknown => None end.

(** The member that answered, when it is not the target itself. *)
Definition member_id (target used : option string) : option string :=
  u ← used; if bool_decide (target = Some u) then None else Some u.

(** ** The upstream exchange *)

Record UpstreamExecutionResult := mk_execution {
  xr_outcome : UpstreamOutcome;
  xr_target_id : string;
  xr_used_id : option string
}.

(** What the network answers: direct connectors, and groups with the queries of
    their members. *)
Record Network := mk_network {
  nt_direct : ConnectorId -> CanonicalQuery -> UpstreamOutcome;
  nt_group : string -> CanonicalQuery -> option (list (string * CanonicalQuery)) ->
    result ExecutorError AggregatedOutcome
}.

(** [GroupExchange::exchange]. *)
Definition group_exchange (n : Network) (c : ConnectorId) (q : CanonicalQuery) : UpstreamOutcome :=
  match nt_group n (connector_str c) q None with
  | Ok a => ag_outcome a
  | Err _ => UO_TransportFailure (mk_failure c TF_Internal false)
  end.

Definition exchange (rt : UpstreamRuntime) (n : Network) (upstream : string) (q : CanonicalQuery)
    (members : option (list (string * CanonicalQuery))) : option UpstreamExecutionResult :=
  match ur_direct rt !! upstream with
  | Some c => Some (mk_execution (nt_direct n c q) upstream (Some (connector_str c)))
  | None =>
    match ur_groups rt !! upstream with
    | Some _ =>
      match nt_group n upstream q members with
      | Ok a => Some (mk_execution (ag_outcome a) upstream (connector_str <$> ag_connector a))
      | Err _ => None
      end
    | None =>
      match ur_all rt !! upstream with
      | Some x =>
        let c := exchange_connector x in
        Some (mk_execution match x with
            | NE_Direct c => nt_direct n c q
            | NE_Group c => group_exchange n c q
            end upstream (Some (connector_str c)))
      | None => None
      end
    end
  end.

(** [CacheUpstreamId::from_validated_config_id(..).expect(..)]: every identifier of
    the configuration passes, so the value is the identifier itself. *)
Definition expect_upstream_id (id : string) : CacheUpstreamId := mk_upstream_id id.
Definition cache_upstream_provenance (target : string) (used : option string) :
    CacheUpstreamProvenance :=
  mk_provenance (expect_upstream_id target) (expect_upstream_id <$> used).

(** ** Cache access *)

Inductive CacheLookupMiss := MissAbsent | MissExpired (version : Z).
Definition miss_status (m : CacheLookupMiss) : CacheStatus :=
  match m with MissAbsent => CS_Miss | MissExpired _ => CS_Expired end.
Definition miss_condition (m : CacheLookupMiss) : CacheCondition :=
  match m with MissAbsent => Absent | MissExpired v => IfVersion v end.

Inductive PolicyUpstreamOutcome :=
| PU_Response (r : CanonicalResponse) | PU_TransportFailure | PU_Cancelled (reason : CancelReason).
Definition policy_upstream_outcome (o : UpstreamOutcome) : PolicyUpstreamOutcome :=
  match o with
  | UO_Response r => PU_Response r
  | UO_TransportFailure _ => PU_TransportFailure
  | UO_Cancelled reason => PU_Cancelled reason
  end.

(** [CacheCommitCandidate]: the write and the generation of the lease it owns. *)
Record CacheCommitCandidate := mk_candidate {
  cc_request : CacheWriteRequest;
  cc_generation : Z
}.

Record PolicyUpstreamResult := mk_upstream_result {
  pu_outcome : PolicyUpstreamOutcome;
  pu_target_id : option string;
  pu_used_id : option string;
  pu_source : StatsSource;
  pu_status : CacheStatus;
  pu_commit : option CacheCommitCandidate
}.

Definition result_upstream (x : UpstreamExecutionResult) (s : CacheStatus) : PolicyUpstreamResult :=
  mk_upstream_result (policy_upstream_outcome (xr_outcome x)) (Some (xr_target_id x))
    (xr_used_id x) SrcUpstream s None.
Definition result_upstream_outcome (o : UpstreamOutcome) (target : string) (used : option string)
    (s : CacheStatus) : PolicyUpstreamResult :=
  mk_upstream_result (policy_upstream_outcome o) (Some target) used SrcUpstream s None.
Definition result_cache (r : CanonicalResponse) (rec : CacheRecord) (s : CacheStatus) :
    PolicyUpstreamResult :=
  mk_upstream_result (PU_Response r) (Some (upstream_id_str (target_id (upstream (entry rec)))))
    (upstream_id_str <$> used_id (upstream (entry rec))) SrcCache s None.

Section Store.
Context {S : Type} {HS : CacheStoreOps S}.
Abbreviation F := (CacheFacade S).

Definition core_negative_ttl_max (f : F) : option Duration :=
  CacheAdmission.non_zero (CacheAdmission.negative_ttl_max (admission (fc_options f))).

(** Dropping a permit returns its admission slot. *)
Definition drop_permit (f : F) (p : CacheRefreshPermit) : F :=
  if admitted p then mk_facade (fc_store f) (fc_options f) (release_refresh (fc_refresh f)) else f.

(** Dropping an armed lease. *)
Definition drop_load_lease (f : F) (key : CacheKey) (gen : Z) : F :=
  set_store f (cs_abandon (fc_store f) key gen).2.

(** The environment of one lookup: what other tasks did before it, the facade's and
    the store's clock readings, and the clock when the record is used. *)
Record LookupEnv := mk_lookup_env {
  le_others : F -> F;
  le_now : Instant;
  le_t0 : Instant;
  le_t1 : Instant;
  le_after : Instant
}.

Inductive LookupUse :=
| LU_Answer (rec : CacheRecord) (response : CanonicalResponse) (status : CacheStatus)
| LU_Miss (miss : CacheLookupMiss).

(** A lookup and what its result is good for; the last component is the refresh to
    schedule. *)
Definition consult (f : F) (d : CacheDecision) (key : CacheKey) (deadline : Deadline)
    (e : LookupEnv) : LookupUse * F * option (CacheKey * Z) :=
  let '(res, f1) := lookup_at (le_others e f) key deadline (le_now e) (le_t0 e) (le_t1 e) in
  match res with
  | Ok (LkFresh rec) =>
      (LU_Answer rec (fresh_cache_response rec (core_negative_ttl_max f1) (le_after e)) CS_Fresh, f1, None)
  | Ok (LkStale rec permit) =>
    match stale_answer_ttl d (entry rec) (le_after e) with
    | Some ttl =>
      let '(won, permit') := try_consume permit in
      (LU_Answer rec (set_ttl (response (entry rec)) ttl) CS_Stale, drop_permit f1 permit',
       if won then Some (key, permit_version permit') else None)
    | None => (LU_Miss (MissExpired (version rec)), drop_permit f1 permit, None)
    end
  | Ok (LkExpired rec) => (LU_Miss (MissExpired (version rec)), f1, None)
  | Ok LkDisabled | Ok LkMiss | Ok LkStoreUnavailable | Err _ => (LU_Miss MissAbsent, f1, None)
  end.

(** The rest of the environment of a request. [rv_completion] is what the follower
    of another load is told. *)
Record ResolveEnv := mk_resolve_env {
  rv_start : Instant;
  rv_fast : LookupEnv;
  rv_lookup : LookupEnv;
  rv_before_reserve : F -> F;
  rv_reserve_t0 : Instant;
  rv_completion : result CacheFacadeError CacheLoadCompletion;
  rv_completion_now : Instant;
  rv_network : Network;
  rv_during_exchange : F -> F;
  rv_write_now : Instant
}.

Abbreviation Effects := (F * option (CacheKey * Z))%type.

(** After a reservation as leader: exchange, then hand the lease to a commit
    candidate or drop it. *)
Definition lead (f : F) (rt : UpstreamRuntime) (r : DnsRequest) (upstream : string)
    (q : CanonicalQuery) (key : CacheKey) (gen : Z) (miss : CacheLookupMiss) (e : ResolveEnv) :
    option PolicyUpstreamResult * F :=
  let status := miss_status miss in
  let f1 := rv_during_exchange e f in
  match exchange rt (rv_network e) upstream q None with
  | None => (None, drop_load_lease f1 key gen)
  | Some x =>
    match xr_outcome x with
    | UO_Response response =>
      if negb (matches_query response q) then
        (Some (result_upstream_outcome (UO_Response response) (xr_target_id x) (xr_used_id x) status),
         drop_load_lease f1 key gen)
      else
        let write := CacheFacade.mk_request key (miss_condition miss) response
          (cache_upstream_provenance (xr_target_id x) (xr_used_id x)) (rv_write_now e)
          (dq_runtime_revision r) (cx_deadline (dq_ctx r)) in
        (Some (mk_upstream_result (PU_Response response) (Some (xr_target_id x)) (xr_used_id x)
                 SrcUpstream status (Some (mk_candidate write gen))), f1)
    | UO_Cancelled reason =>
        (Some (result_upstream_outcome (UO_Cancelled reason) (xr_target_id x) (xr_used_id x) status),
         drop_load_lease f1 key gen)
    | UO_TransportFailure failure =>
        (Some (result_upstream_outcome (UO_TransportFailure failure) (xr_target_id x) (xr_used_id x)
                 status), drop_load_lease f1 key gen)
    end
  end.

(** After a miss under [key]. *)
Definition load (f : F) (rt : UpstreamRuntime) (r : DnsRequest) (upstream : string)
    (q : CanonicalQuery) (key : CacheKey) (miss : CacheLookupMiss) (e : ResolveEnv) :
    option PolicyUpstreamResult * F :=
  let '(res, f1) := facade_reserve_load (rv_before_reserve e f) key (cx_deadline (dq_ctx r))
                      (rv_reserve_t0 e) in
  match res with
  | Err _ =>
      ((fun x => result_upstream x CS_StoreUnavailable) <$>
         exchange rt (rv_network e) upstream q None, f1)
  | Ok (Leader gen) => lead f1 rt r upstream q key gen miss e
  | Ok (Follower _) =>
    match rv_completion e with
    | Ok (LC_Ready rec) =>
        (Some (result_cache (fresh_cache_response rec (core_negative_ttl_max f1) (rv_completion_now e))
                 rec CS_Fresh), f1)
    | Ok (LC_Failed (LF_Cancelled reason)) =>
        (Some (result_upstream_outcome (UO_Cancelled reason) upstream None (miss_status miss)), f1)
    | Ok LC_Miss | Ok (LC_Failed _) | Err _ =>
        ((fun x => result_upstream x (miss_status miss)) <$>
           exchange rt (rv_network e) upstream q None, f1)
    end
  end.

(** The key of the request: none when the members are sent different queries. *)
Definition upstream_key (prepared : PreparedUpstreamQuery) (prepared_key : option CacheKey)
    (semantics : CacheFingerprint) (plan : ResolutionPlan) (r : DnsRequest) : option CacheKey :=
  match pq_member_queries prepared, prepared_key with
  | Some _, _ => None
  | None, Some k => Some k
  | None, None => cache_key_for_query sha256 semantics plan r (pq_query prepared)
  end.

(** The lookup of the Resolved key, unless the Fast lookup already missed. *)
Definition second_lookup (f : F) (d : CacheDecision) (key : CacheKey) (deadline : Deadline)
    (fast_miss : option CacheLookupMiss) (e : LookupEnv) : LookupUse * F * option (CacheKey * Z) :=
  match fast_miss with
  | Some miss => (LU_Miss miss, f, None)
  | None => consult f d key deadline e
  end.

Definition resolve_upstream (f : F) (rt : UpstreamRuntime) (r : DnsRequest) (plan : ResolutionPlan)
    (semantics : CacheFingerprint) (prepared_key : option CacheKey)
    (fast_miss : option CacheLookupMiss) (e : ResolveEnv) :
    option PolicyUpstreamResult * Effects :=
  let prepared := prepare_query rt (rp_upstream plan) (dq_query r) (rp_ecs plan) (dq_client_addr r) in
  match upstream_key prepared prepared_key semantics plan r with
  | None =>
      ((fun x => result_upstream x CS_Disabled) <$>
         exchange rt (rv_network e) (rp_upstream plan) (pq_query prepared)
           (pq_member_queries prepared), (f, None))
  | Some key =>
    let '(use, f1, refresh) :=
      second_lookup f (rp_cache plan) key (cx_deadline (dq_ctx r)) fast_miss (rv_lookup e) in
    match use with
    | LU_Answer rec response status => (Some (result_cache response rec status), (f1, refresh))
    | LU_Miss miss =>
      let '(res, f2) := load f1 rt r (rp_upstream plan) (pq_query prepared) key miss e in
      (res, (f2, refresh))
    end
  end.

(** ** The request *)

Record DnsCoreCompletion := mk_completion {
  cp_result : result CoreError CoreOutcome;
  cp_observation : option DnsResolutionObservation;
  cp_cancellation : option CancelReason;
  cp_commit : option CacheCommitCandidate
}.

Definition failed (r : DnsRequest) : DnsCoreCompletion := mk_completion (servfail r) None None None.

Definition cached_completion (r : DnsRequest) (c : PolicyContext) (rec : CacheRecord)
    (response : CanonicalResponse) (status : CacheStatus) : DnsCoreCompletion :=
  let target := upstream_id_str (target_id (upstream (entry rec))) in
  let used := upstream_id_str <$> used_id (upstream (entry rec)) in
  mk_completion
    (if matches_query response (dq_query r)
     then Ok (CO_Response (apply_ttl_override response (pc_ttl_override c))) else servfail r)
    (Some (mk_observation (observation (pc_client c) (dq_client_id r)) (client_bucket (pc_client c))
       (Some (st_id (pc_strategy c))) None (Some target) (member_id (Some target) used) used
       SrcCache status)) None None.

(** The client-visible answer of an upstream result. *)
Definition upstream_completion (f : F) (r : DnsRequest) (plan : ResolutionPlan)
    (rule : option MatchedRuleObservation) (x : PolicyUpstreamResult) : DnsCoreCompletion :=
  let result := match pu_outcome x with
    | PU_Response response =>
      if matches_query response (dq_query r) then
        let response := match core_negative_ttl_max f with
          | Some max => if is_negative response then cap_negative_ttl response max else response
          | None => response
          end in
        Ok (CO_Response (apply_ttl_override response (rp_ttl_override plan)))
      else servfail r
    | PU_Cancelled _ => Ok CO_NoResponse
    | PU_TransportFailure => servfail r
    end in
  mk_completion result
    (Some (mk_observation (observation (rp_client plan) (dq_client_id r))
       (client_bucket (rp_client plan)) (Some (st_id (rp_strategy plan))) rule (pu_target_id x)
       (member_id (pu_target_id x) (pu_used_id x)) (pu_used_id x) (pu_source x) (pu_status x)))
    match pu_outcome x with PU_Cancelled reason => Some reason | _ => None end
    (pu_commit x).

(** From the decision on; [miss] is the outcome of the Fast lookup. *)
Definition resolve_decided (f : F) (ps : PolicyState) (rt : UpstreamRuntime) (ttl : Z)
    (r : DnsRequest) (c : PolicyContext) (d : RouteDecision) (fast_key : option CacheKey)
    (miss : option CacheLookupMiss) (e : ResolveEnv) : DnsCoreCompletion * Effects :=
  let plan := into_resolution_plan c d in
  let rule := matched_rule_observation ps (rp_matched_rule plan) in
  let obs target source status :=
    mk_observation (observation (pc_client c) (dq_client_id r)) (client_bucket (pc_client c))
      (Some (st_id (pc_strategy c))) rule target None None source status in
  match rp_hosts plan with
  | Some resource =>
    match pi_hosts (ps_index ps) !! resource with
    | None => (failed r, (f, None))
    | Some index =>
      (mk_completion (hosts_result (dq_query r) index ttl (rp_ttl_override plan))
         (Some (obs None SrcHosts CS_Disabled)) None None, (f, None))
    end
  | None =>
    let '(res, fx) := resolve_upstream f rt r plan (cache_semantics_fingerprint sha256 ps c)
                        fast_key miss e in
    match res with
    | None => (mk_completion (servfail r)
        (Some (obs (Some (rp_upstream plan)) SrcUpstream CS_StoreUnavailable)) None None, fx)
    | Some x => (upstream_completion fx.1 r plan rule x, fx)
    end
  end.

(** The Fast key, when the strategy is eligible. *)
Definition eligible_fast_key (ps : PolicyState) (c : PolicyContext) (r : DnsRequest) :
    option CacheKey :=
  if fast_cache_eligible ps c then fast_cache_key sha256 ps c r else None.

(** Rule evaluation and what follows it. *)
Definition resolve_context (f : F) (ps : PolicyState) (rt : UpstreamRuntime) (ttl : Z)
    (r : DnsRequest) (qname : CanonicalDomain) (c : PolicyContext) (miss : option CacheLookupMiss)
    (refresh : option (CacheKey * Z)) (e : ResolveEnv) : DnsCoreCompletion * Effects :=
  match evaluate_route (ps_index ps) c (Some qname) with
  | Err _ => (failed r, (f, refresh))
  | Ok d => resolve_decided f ps rt ttl r c d (eligible_fast_key ps c r) miss e
  end.

Definition resolve_with_metadata (f : F) (ps : PolicyState) (rt : UpstreamRuntime) (ttl : Z)
    (r : DnsRequest) (e : ResolveEnv) : DnsCoreCompletion * Effects :=
  let ctx := dq_ctx r in
  if is_cancelled ctx (rv_start e) || is_expired (cx_deadline ctx) (rv_start e) then
    (mk_completion (Ok CO_NoResponse) None
       match cx_cancel ctx with
       | Some (at_, reason) => if at_ <=? rv_start e then Some reason else None
       | None => None
       end None, (f, None))
  else if negb (config_id_ok (dq_listener_id r)) then (failed r, (f, None))
  else match request_qname r with
  | Err _ => (failed r, (f, None))
  | Ok qname =>
    match prepare_context sha256 (ps_index ps) (policy_request r qname) with
    | Err _ => (failed r, (f, None))
    | Ok c =>
      match eligible_fast_key ps c r with
      | None => resolve_context f ps rt ttl r qname c None None e
      | Some key =>
        let '(use, f1, refresh) := consult f (pc_cache c) key (cx_deadline ctx) (rv_fast e) in
        match use with
        | LU_Answer rec response status => (cached_completion r c rec response status, (f1, refresh))
        | LU_Miss miss => resolve_context f1 ps rt ttl r qname c (Some miss) refresh e
        end
      end
    end
  end.

End Store.
End Resolve.
