(* ===== verification/ResolveSpec.v ===== *)
(** * Correctness of request resolution

    Theorems about Resolve.v: every request is answered, and only with a response
    to its own question; the cache stays coherent; the lease of a single-flight
    load is always settled; stale answers stay within their window. *)

From S2P Require Import Prelude Text Net Message CacheModel CacheKeyEnc CacheAdmission.
From S2P Require Import CacheStore CacheFacade Client Hosts Regex Rules Group Outcome Executor.
From S2P Require Import Plan Upstreams QueryKey Resolve.

(** ** Every answer belongs to its question *)

Section Answers.
Context {HH : Hickory} {HL : HickoryLaws HH} {SO : SubnetOps HH} {NT : NameText HH}
  {HR : HickoryRecords HH}.
Context {IN : IpNetOps} {IB : IpNetBuild IN} {HN : HickoryName}.
Context (sha256 : list byte -> list byte).
Context {S : Type} {HS : CacheStoreOps S}.

(** TTL rewriting leaves the question alone. *)
Lemma matches_override (r : CanonicalResponse) o q :
  matches_query (apply_ttl_override r o) q = matches_query r q.
Proof. unfold apply_ttl_override. by destruct (to_enabled o). Qed.

Lemma matches_cap (r : CanonicalResponse) d q :
  matches_query (cap_negative_ttl r d) q = matches_query r q.
Proof. unfold cap_negative_ttl. by destruct (is_negative r). Qed.

Lemma matches_fresh rec max now q :
  matches_query (fresh_cache_response rec max now) q = matches_query (response (entry rec)) q.
Proof. unfold fresh_cache_response. destruct (is_negative _); [|done]. by rewrite matches_cap. Qed.

Lemma matches_set_ttl (r : CanonicalResponse) d q :
  matches_query (set_ttl r d) q = matches_query r q.
Proof. done. Qed.

(** Two responses that differ in TTLs at most. *)
Definition same_but_ttl (a b : CanonicalResponse) : Prop := set_ttl a 0 = set_ttl b 0.

Lemma same_answers a b (q : CanonicalQuery) :
  same_but_ttl a b -> matches_query b q = true -> same_but_ttl a b /\ matches_query a q = true.
Proof.
  intros Hs Hm. split; [done|]. apply (f_equal (fun x => matches_query x q)) in Hs.
  by rewrite !matches_set_ttl, Hm in Hs.
Qed.

Lemma same_map_ttl g a b : same_but_ttl a b -> same_but_ttl (map_ttl g a) b.
Proof. unfold same_but_ttl, set_ttl. by rewrite map_ttl_compose. Qed.

Lemma same_fresh rec max now : same_but_ttl (fresh_cache_response rec max now) (response (entry rec)).
Proof.
  unfold fresh_cache_response, cap_negative_ttl, age_ttl.
  destruct (is_negative _); [destruct (negb _)|]; by repeat apply same_map_ttl.
Qed.

Lemma same_override a b o : same_but_ttl a b -> same_but_ttl (apply_ttl_override a o) b.
Proof.
  intros H. unfold apply_ttl_override, clamp_ttl. destruct (to_enabled o); [|done].
  by apply same_map_ttl.
Qed.

Lemma same_cap a b d : same_but_ttl a b -> same_but_ttl (cap_negative_ttl a d) b.
Proof. intros H. unfold cap_negative_ttl. destruct (negb _); [done|]. by apply same_map_ttl. Qed.

(** A response to the request's own question. *)
Definition answers_request (r : DnsRequest) (res : result CoreError CoreOutcome) : Prop :=
  exists resp, res = Ok (CO_Response resp) /\ matches_query resp (dq_query r) = true.

(** An empty SERVFAIL response to the request's question. *)
Definition server_failure (r : DnsRequest) (res : result CoreError CoreOutcome) : Prop :=
  exists resp, res = Ok (CO_Response resp) /\ matches_query resp (dq_query r) = true /\
    md_response_code (metadata (resp_message resp)) = ServFail /\ answers (resp_message resp) = [].

Lemma failure_answers r res : server_failure r res -> answers_request r res.
Proof. intros (resp & ? & ? & _). by exists resp. Qed.

Lemma servfail_fails r : wf_query (dq_query r) -> server_failure r (servfail r).
Proof.
  intros Hq. destruct (response_with_code_ok (dq_query r) ServFail [] Hq)
    as (resp & Hr & Hw & Hm & Ha & Hc). exists resp. unfold servfail, empty_response. rewrite Hr.
  split_and!; [done|done| |done]. destruct Hw as (_ & _ & _ & Hcl & _). rewrite Hc in Hcl. cbn in Hcl.
  unfold classify_response in Hcl. destruct (md_truncation _); [done|].
  destruct (md_response_code _); try done. by destruct (answers _).
Qed.

Lemma servfail_answers r : wf_query (dq_query r) -> answers_request r (servfail r).
Proof. intros. by apply failure_answers, servfail_fails. Qed.

Lemma hosts_result_answers r index ttl o :
  wf_query (dq_query r) -> answers_request r (hosts_result (dq_query r) index ttl o).
Proof.
  intros Hq. unfold hosts_result. destruct (resource_answers _ _ _ _) as [records known].
  assert (H : forall code, answers_request r (map_err ResponseConstruction
    ((fun x => CO_Response (apply_ttl_override x o)) <$> response_with_code (dq_query r) code records))).
  { intros code. destruct (response_with_code_ok (dq_query r) code records Hq)
      as (resp & Hr & _ & Hm & _).
    rewrite Hr. exists (apply_ttl_override resp o). split; [done|]. by rewrite matches_override. }
  unfold response_with_answers. destruct (_ && _); apply H.
Qed.

(** *** The route of a request *)

(** The listener, client and strategy of the request are known. *)
Definition placed (ps : PolicyState) (r : DnsRequest) (qn : CanonicalDomain) (c : PolicyContext) : Prop :=
  config_id_ok (dq_listener_id r) = true /\ request_qname r = Ok qn /\
  prepare_context sha256 (ps_index ps) (policy_request r qn) = Ok c.

(** The strategy's rules lead to a hosts resource that exists, or to an upstream. *)
Definition routed (ps : PolicyState) (r : DnsRequest) (c : PolicyContext) (d : RouteDecision) : Prop :=
  exists qn, placed ps r qn c /\ evaluate_route (ps_index ps) c (Some qn) = Ok d /\
    forall h, rd_hosts d = Some h -> is_Some (pi_hosts (ps_index ps) !! h).

(** What the client is told of an exchange: the response when it answers the
    question, SERVFAIL when it does not or when there is none, silence when the
    exchange was cancelled. *)
Definition told (r : DnsRequest) (x : option UpstreamOutcome) (cp : DnsCoreCompletion) : Prop :=
  match x with
  | Some (UO_Response resp) =>
    if matches_query resp (dq_query r) then
      exists resp', cp_result cp = Ok (CO_Response resp') /\ same_but_ttl resp' resp /\
        matches_query resp' (dq_query r) = true
    else server_failure r (cp_result cp) /\ cp_commit cp = None
  | Some (UO_Cancelled reason) =>
    cp_result cp = Ok CO_NoResponse /\ cp_cancellation cp = Some reason /\ cp_commit cp = None
  | Some (UO_TransportFailure _) | None => server_failure r (cp_result cp) /\ cp_commit cp = None
  end.

(** The exchange of a routed request. *)
Definition exchanged (rt : UpstreamRuntime) (r : DnsRequest) (d : RouteDecision)
    (e : ResolveEnv (S := S)) : option UpstreamOutcome :=
  let p := prepare_query rt (rd_upstream d) (dq_query r) (rd_ecs d) (dq_client_addr r) in
  xr_outcome <$> exchange rt (rv_network e) (rd_upstream d) (pq_query p) (pq_member_queries p).

(** Its own exchange, or the cancelled one of the load it followed. *)
Definition told_by_upstream rt r d (e : ResolveEnv (S := S)) (cp : DnsCoreCompletion) : Prop :=
  told r (exchanged rt r d e) cp \/
  exists reason, rv_completion e = Ok (LC_Failed (LF_Cancelled reason)) /\
    told r (Some (UO_Cancelled reason)) cp.

Definition accepting (r : DnsRequest) (e : ResolveEnv (S := S)) : bool :=
  negb (is_cancelled (dq_ctx r) (rv_start e) || is_expired (cx_deadline (dq_ctx r)) (rv_start e)).

(** How a request ends, by where its answer comes from. *)
Definition settlement (ps : PolicyState) rt ttl r (e : ResolveEnv (S := S)) (cp : DnsCoreCompletion) : Prop :=
  match ob_source <$> cp_observation cp with
  | None => server_failure r (cp_result cp) /\ cp_commit cp = None /\
      forall c d, ~ routed ps r c d
  | Some SrcCache => answers_request r (cp_result cp) /\ cp_commit cp = None /\
      exists qn c, placed ps r qn c
  | Some SrcHosts => answers_request r (cp_result cp) /\ cp_commit cp = None /\
      exists c d h index, routed ps r c d /\ rd_hosts d = Some h /\
        pi_hosts (ps_index ps) !! h = Some index /\
        cp_result cp = hosts_result (dq_query r) index ttl (pc_ttl_override c)
  | Some SrcUpstream => exists c d, routed ps r c d /\ rd_hosts d = None /\ told_by_upstream rt r d e cp
  | Some SrcRuleSet => False
  end.

(** *** Upstream results *)

(** An upstream result is an answer from the cache, or what an exchange gave. *)
Definition result_told rt r d (e : ResolveEnv (S := S)) (res : option PolicyUpstreamResult) : Prop :=
  match res with
  | None => exchanged rt r d e = None
  | Some x => match pu_source x with
    | SrcCache => (exists resp, pu_outcome x = PU_Response resp) /\ pu_commit x = None
    | SrcUpstream => exists o, (exchanged rt r d e = Some o \/ exists reason,
         o = UO_Cancelled reason /\ rv_completion e = Ok (LC_Failed (LF_Cancelled reason))) /\
         pu_outcome x = policy_upstream_outcome o /\
         (is_Some (pu_commit x) -> exists resp, o = UO_Response resp /\ matches_query resp (dq_query r) = true)
    | _ => False
    end
  end.

Lemma told_exchange rt r d e (o : option UpstreamExecutionResult) s :
  exchanged rt r d e = xr_outcome <$> o ->
  result_told rt r d e ((fun x => result_upstream x s) <$> o).
Proof.
  destruct o as [x|]; cbn; [|done]. intros Hx. exists (xr_outcome x).
  split_and!; [by left|done|by intros [? ?]].
Qed.

Lemma load_told (f : CacheFacade S) rt r d key miss e :
  let p := prepare_query rt (rd_upstream d) (dq_query r) (rd_ecs d) (dq_client_addr r) in
  pq_member_queries p = None ->
  result_told rt r d e (load f rt r (rd_upstream d) (pq_query p) key miss e).1.
Proof.
  intros p Hm. assert (Hx : exchanged rt r d e =
    xr_outcome <$> exchange rt (rv_network e) (rd_upstream d) (pq_query p) None)
    by (unfold exchanged; fold p; by rewrite Hm).
  unfold load. destruct (facade_reserve_load _ _ _ _) as [[[gen|gen]|err] f1]; cbn [fst].
  - unfold lead. destruct (exchange _ _ _ _ _) as [z|]; [|done]. cbn in Hx.
    assert (Hq : forall resp, matches_query resp (pq_query p) = matches_query resp (dq_query r))
      by (intros resp; unfold matches_query, p; by rewrite prepared_question).
    destruct (xr_outcome z) as [resp|fl|reason] eqn:Ez.
    2, 3: cbn; eexists; split_and!; [by left|done|by intros [? ?]].
    destruct (matches_query resp (pq_query p)) eqn:E; cbn;
      (eexists; split_and!; [by left|done|]); [|by intros [? ?]].
    intros _. exists resp. by rewrite <-Hq.
  - destruct (rv_completion e) as [[rec| |[]]|] eqn:Ec; cbn [fst]; try by apply told_exchange.
    + cbn. split; [by eexists|done].
    + cbn. eexists. split_and!; [right; by eexists|done|by intros [? ?]].
  - by apply told_exchange.
Qed.

Lemma resolve_upstream_told (f : CacheFacade S) rt r c d sem key miss e :
  result_told rt r d e (resolve_upstream sha256 f rt r (into_resolution_plan c d) sem key miss e).1.
Proof.
  unfold resolve_upstream. cbn [rp_upstream rp_ecs into_resolution_plan].
  destruct (upstream_key _ _ _ _ _ _) as [k|] eqn:Ek; [|by apply told_exchange].
  destruct (second_lookup _ _ _ _ _ _) as [[[rec resp st|m] f1] refresh]; cbn [fst].
  { split; [by eexists|done]. }
  pose proof (load_told f1 rt r d k m e) as Hl. cbv zeta in Hl.
  destruct (load _ _ _ _ _ _ _ _) as [res f2]. apply Hl. unfold upstream_key in Ek.
  by destruct (pq_member_queries _).
Qed.

Lemma upstream_completion_told (f : CacheFacade S) rt r c d rule e x :
  wf_query (dq_query r) -> result_told rt r d e (Some x) -> pu_source x = SrcUpstream ->
  told_by_upstream rt r d e (upstream_completion f r (into_resolution_plan c d) rule x).
Proof.
  intros Hq. cbn. intros Hx Hs. rewrite Hs in Hx. destruct Hx as (o & Ho & Hp & Hc).
  assert (Hn : (forall resp, o = UO_Response resp -> matches_query resp (dq_query r) = false) ->
    pu_commit x = None).
  { intros Hno. destruct (pu_commit x) eqn:E; [|done].
    destruct Hc as (resp & -> & Hm); [by eexists|]. by rewrite (Hno resp) in Hm. }
  assert (Ht : told r (Some o) (upstream_completion f r (into_resolution_plan c d) rule x)).
  { unfold told, upstream_completion. cbn [cp_result cp_commit cp_cancellation]. rewrite Hp.
    destruct o as [resp|fl|reason]; cbn.
    - destruct (matches_query resp (dq_query r)) eqn:E.
      + eexists. split; [done|]. apply same_answers; [|done]. apply same_override.
        destruct (core_negative_ttl_max f); [|done]. destruct (is_negative resp); [|done].
        by apply same_cap.
      + split; [by apply servfail_fails|]. apply Hn. by intros ? [= <-].
    - split; [by apply servfail_fails|]. by apply Hn.
    - split_and!; [done|done|]. by apply Hn. }
  destruct Ho as [Ho|(reason & -> & Ho)]; [left; by rewrite Ho|right; eauto].
Qed.

Lemma upstream_completion_cached (f : CacheFacade S) r plan rule x resp :
  wf_query (dq_query r) -> pu_outcome x = PU_Response resp ->
  answers_request r (cp_result (upstream_completion f r plan rule x)).
Proof.
  intros Hq Hx. unfold upstream_completion, cp_result. rewrite Hx.
  destruct (matches_query resp (dq_query r)) eqn:E; [|by apply servfail_answers].
  eexists. split; [done|]. rewrite matches_override.
  destruct (core_negative_ttl_max f); [|done]. destruct (is_negative resp); [|done].
  by rewrite matches_cap.
Qed.

(** *** The whole request *)

Lemma placed_unique ps r qn1 qn2 c1 c2 : placed ps r qn1 c1 -> placed ps r qn2 c2 -> qn1 = qn2 /\ c1 = c2.
Proof. intros (_ & H1 & P1) (_ & H2 & P2). simplify_eq. split; congruence. Qed.

Lemma failed_settled ps rt ttl r e :
  wf_query (dq_query r) -> (forall c d, ~ routed ps r c d) -> settlement ps rt ttl r e (failed r).
Proof. intros. split_and!; [by apply servfail_fails|done|done]. Qed.

Lemma cached_settled ps rt ttl r e qn c rec resp status :
  wf_query (dq_query r) -> placed ps r qn c ->
  settlement ps rt ttl r e (cached_completion r c rec resp status).
Proof.
  intros Hq Hp. split_and!; [|done|by exists qn, c]. unfold cached_completion, cp_result.
  destruct (matches_query resp (dq_query r)) eqn:E; [|by apply servfail_answers].
  eexists. split; [done|]. by rewrite matches_override.
Qed.

Lemma decided_settled (f : CacheFacade S) ps rt ttl r e qn c d key miss :
  wf_query (dq_query r) -> placed ps r qn c -> evaluate_route (ps_index ps) c (Some qn) = Ok d ->
  settlement ps rt ttl r e (resolve_decided sha256 f ps rt ttl r c d key miss e).1.
Proof.
  intros Hq Hp Hd. unfold resolve_decided. cbn [rp_hosts rp_upstream into_resolution_plan].
  destruct (rd_hosts d) as [h|] eqn:Hh.
  - destruct (pi_hosts _ !! h) as [index|] eqn:Hi; cbn [fst].
    + split_and!; [by apply hosts_result_answers|done|]. exists c, d, h, index.
      split_and!; [|done..]. exists qn. split_and!; [done|done|]. intros h' Hh'. exists index. congruence.
    + apply failed_settled; [done|]. intros c' d' (qn' & Hp' & Hd' & Hx).
      destruct (placed_unique _ _ _ _ _ _ Hp Hp') as [<- <-]. rewrite Hd in Hd'. injection Hd' as <-.
      destruct (Hx h Hh). congruence.
  - assert (Hr : routed ps r c d) by (exists qn; split_and!; [done|done|congruence]).
    match goal with |- context [resolve_upstream ?a ?b ?cc ?dd ?ee ?ff ?g ?h ?i] =>
      pose proof (resolve_upstream_told b cc dd c d ff g h i) as Hu;
      destruct (resolve_upstream a b cc dd ee ff g h i) as [[x|] fx] end; cbn [fst] in *.
    + destruct (pu_source x) eqn:Hs; try by (cbn in Hu; rewrite Hs in Hu).
      * unfold settlement. cbn [cp_observation upstream_completion fmap option_fmap option_map ob_source].
        rewrite Hs. cbn in Hu. rewrite Hs in Hu. destruct Hu as [[resp Hx] Hc].
        split; [by eapply upstream_completion_cached|]. split; [done|by exists qn, c].
      * unfold settlement. cbn [cp_observation upstream_completion fmap option_fmap option_map ob_source].
        rewrite Hs. exists c, d. split_and!; [done|done|]. by apply upstream_completion_told.
    + exists c, d. split_and!; [done|done|]. left. cbn in Hu. rewrite Hu.
      split; [by apply servfail_fails|done].
Qed.

(** C12: Every request is settled, and how is determined by its route. A request
    that was cancelled or past its deadline when it arrived gets no response. Any
    other request is answered with SERVFAIL if it has no listener, client, name or
    rule decision, or if the decision names a hosts resource that does not exist;
    from the cache or the decided hosts resource with a response to its own
    question; or with what its exchange with the decided upstream gave: the
    upstream's own response, TTLs apart, if it answers the question, SERVFAIL if it
    does not, if the transport failed or if the upstream is unknown, and silence
    only if that exchange, or the one of the load it waited for, was cancelled,
    with that reason. Only a response to the question leaves a commit behind, and
    no path fails to construct a response. *)
Theorem resolve_settles (f : CacheFacade S) ps rt ttl r e cp fx :
  wf_query (dq_query r) -> resolve_with_metadata sha256 f ps rt ttl r e = (cp, fx) ->
  if accepting r e then settlement ps rt ttl r e cp
  else cp_result cp = Ok CO_NoResponse /\ cp_commit cp = None /\
    (is_Some (cp_cancellation cp) \/ is_expired (cx_deadline (dq_ctx r)) (rv_start e) = true).
Proof.
  intros Hq. unfold resolve_with_metadata, accepting. destruct (_ || _) eqn:Hdead; cbn [negb].
  { intros [= <- <-]. split_and!; [done|done|]. cbn. apply orb_true_iff in Hdead as [Hc|]; [left|by right].
    unfold is_cancelled in Hc. destruct (cx_cancel (dq_ctx r)) as [[at_ reason]|]; [|done].
    rewrite Hc. by eexists. }
  clear Hdead.
  assert (Hf : (forall c d, ~ routed ps r c d) -> failed r = cp -> settlement ps rt ttl r e cp)
    by (intros ? <-; by apply failed_settled).
  destruct (config_id_ok _) eqn:Hid; cbn [negb].
  2: { intros [= H _]. apply Hf; [|done]. intros c d (qn & (? & _) & _). congruence. }
  destruct (request_qname r) as [qn|] eqn:Hqn.
  2: { intros [= H _]. apply Hf; [|done]. intros c d (qn & (_ & ? & _) & _). congruence. }
  destruct (prepare_context _ _ _) as [c|] eqn:Hc.
  2: { intros [= H _]. apply Hf; [|done]. intros c d (qn' & (_ & ? & ?) & _). congruence. }
  assert (Hp : placed ps r qn c) by done.
  assert (Hd : forall f' miss refresh,
    resolve_context sha256 f' ps rt ttl r qn c miss refresh e = (cp, fx) -> settlement ps rt ttl r e cp).
  { intros f' miss refresh. unfold resolve_context. destruct (evaluate_route _ _ _) as [d|] eqn:Hd.
    - intros H. pose proof (decided_settled f' ps rt ttl r e qn c d (eligible_fast_key sha256 ps c r) miss
        Hq Hp Hd) as Hs. by rewrite H in Hs.
    - intros [= H _]. apply Hf; [|done]. intros c' d' (qn' & Hp' & Hd' & _).
      destruct (placed_unique _ _ _ _ _ _ Hp Hp') as [<- <-]. congruence. }
  destruct (eligible_fast_key _ _ _ _) as [k|]; [|apply Hd].
  destruct (consult _ _ _ _ _) as [[[rec resp st|m] f1] refresh]; [|apply Hd].
  intros [= <- _]. by eapply cached_settled.
Qed.

End Answers.

(** ** The cache stays coherent *)

Section Coherence.
Context {HH : Hickory} {HL : HickoryLaws HH} {SO : SubnetOps HH} {SL : SubnetLaws HH}
  {NT : NameText HH} {HR : HickoryRecords HH}.
Context {IN : IpNetOps} {IB : IpNetBuild IN} {IL : IpNetLaws IN} {HN : HickoryName}.
Context (sha256 : list byte -> list byte) (sha_length : forall x, length (sha256 x) = 32%nat).
Context {S : Type} {HS : CacheStoreOps S} {HSL : CacheStoreLaws S}.
Abbreviation F := (CacheFacade S).

(** A key of the request: built from its query, without ECS option or with one that
    may be sent. *)
Definition keyed (r : DnsRequest) (k : CacheKey) : Prop :=
  exists ns s t dims, valid_namespace ns /\ wire_option s /\ u64 t /\ valid_dimensions dims /\
    build_cache_key ns (with_edns_client_subnet (dq_query r) s) t dims = Ok k.

(** The key contains the question. *)
Lemma keyed_question r1 r2 k :
  request_ok r1 -> request_ok r2 -> keyed r1 k -> keyed r2 k ->
  query_question (dq_query r1) = query_question (dq_query r2).
Proof.
  intros Q1 Q2 (ns1 & s1 & t1 & d1 & N1 & O1 & T1 & D1 & B1) (ns2 & s2 & t2 & d2 & N2 & O2 & T2 & D2 & B2).
  destruct (build_cache_key_inj _ _ _ _ _ _ _ _ _ _ N1 N2 T1 T2 D1 D2 B1 B2 eq_refl)
    as (_ & _ & _ & Hw & _).
  destruct (build_key_wire _ _ _ _ _ B1) as [w W1]. pose proof W1 as W2. rewrite Hw in W2.
  exact (f_equal query_question (wire_eq r1 r2 s1 s2 w Q1 Q2 O1 O2 W1 W2)).
Qed.

(** A response that answers the question of a key. *)
Definition answers_key (k : CacheKey) (resp : CanonicalResponse) : Prop :=
  exists r, request_ok r /\ keyed r k /\ matches_query resp (dq_query r) = true.

Lemma answers_key_matches r k resp :
  request_ok r -> keyed r k -> answers_key k resp -> matches_query resp (dq_query r) = true.
Proof.
  intros Q K (r' & Q' & K' & Hm). unfold matches_query in *.
  by rewrite (keyed_question r r' k).
Qed.

Definition coherent (f : F) : Prop :=
  cs_ok (fc_store f) /\
  forall k rec, cs_stored (fc_store f) k = Some rec -> answers_key k (response (entry rec)).

Lemma coherent_subset (f f' : F) :
  coherent f -> cs_ok (fc_store f') ->
  (forall k rec, cs_stored (fc_store f') k = Some rec -> cs_stored (fc_store f) k = Some rec) ->
  coherent f'.
Proof. intros [_ H] Hok Hsub. split; [done|]. intros k rec Hk. by apply H, Hsub. Qed.

Lemma drop_permit_coherent f p : coherent f -> coherent (drop_permit f p).
Proof. unfold drop_permit. by destruct (admitted p). Qed.

Lemma drop_lease_coherent f k g : coherent f -> coherent (drop_load_lease f k g).
Proof.
  intros [Hok H]. destruct (cs_abandon_law (fc_store f) k g Hok) as [Hok' Hst].
  split; [done|]. intros k' rec. cbn. rewrite Hst. apply H.
Qed.

Lemma reserve_coherent f k d t0 res f' :
  coherent f -> facade_reserve_load f k d t0 = (res, f') -> coherent f'.
Proof.
  intros [Hok H]. unfold facade_reserve_load. destruct (negb _); [by intros [= _ <-]|].
  destruct (cs_reserve _ _ _ _) as [x s'] eqn:E. apply cs_reserve_law in E as [Hok' Hst]; [|done].
  intros [= _ <-]. split; [done|]. intros k' rec. cbn. rewrite Hst. apply H.
Qed.

(** The record a lookup finds under [k] in what the cache has become by then. *)
Definition held (e : LookupEnv (S := S)) (f : F) (k : CacheKey) (rec : CacheRecord) : Prop :=
  retained (le_t1 e) (cs_stored (fc_store (le_others e f)) k) = Some rec.

(** A usable lookup result is a record of the key, TTLs apart. *)
Lemma consult_coherent f d key deadline (e : LookupEnv) use f' refresh :
  coherent f -> (forall g, coherent g -> coherent (le_others e g)) ->
  consult f d key deadline e = (use, f', refresh) ->
  coherent f' /\ forall rec resp st, use = LU_Answer rec resp st ->
    held e f key rec /\ answers_key key (response (entry rec)) /\
    same_but_ttl resp (response (entry rec)).
Proof.
  intros Hf He. unfold consult, held. apply He in Hf. revert Hf. generalize (le_others e f) as g.
  clear f He. intros f Hf. unfold lookup_at. destruct (negb _).
  { intros [= <- <- <-]. split; [done|by intros]. }
  destruct (cs_get (fc_store f) key deadline (le_t0 e) (le_t1 e)) as [res s'] eqn:Hg.
  apply cs_get_law in Hg as (Hok & Hsub & Hres); [|apply Hf].
  assert (Hc : coherent (set_store f s')) by (eapply coherent_subset; eauto).
  destruct res as [[rec|]|err].
  2: { intros [= <- <- <-]. split; [done|by intros]. }
  2: { destruct (pe_class err); intros [= <- <- <-]; (split; [done|by intros]). }
  assert (Hrec : retained (le_t1 e) (cs_stored (fc_store f) key) = Some rec /\
    answers_key key (response (entry rec))).
  { specialize (Hres _ eq_refl). split; [done|]. unfold retained in Hres. symmetry in Hres.
    apply bind_Some in Hres as (x & Hx & Hr). destruct (_ <? _); [|done]. injection Hr as <-.
    by apply Hf. }
  destruct (_ <? expires_at _).
  { intros [= <- <- <-]. split; [done|]. intros ? ? ? [= <- <- <-]. split_and!; [apply Hrec..|apply same_fresh]. }
  destruct (_ && _).
  - destruct (try_acquire _) as [got a'] eqn:Ha.
    assert (Hc' : coherent (mk_facade s' (fc_options f) a')) by done.
    destruct (stale_answer_ttl _ _ _) as [ttl|].
    + destruct (try_consume _) as [won p'].
      intros [= <- <- <-]. split; [by apply drop_permit_coherent|].
      intros ? ? ? [= <- <- <-]. split_and!; [apply Hrec..|]. by apply same_map_ttl.
    + intros [= <- <- <-]. split; [by apply drop_permit_coherent|by intros].
  - intros [= <- <- <-]. split; [done|by intros].
Qed.

(** *** The key of a request *)

Definition fast_key_of (ps : PolicyState) (r : DnsRequest) (k : CacheKey) : Prop :=
  exists qn c, placed sha256 ps r qn c /\ eligible_fast_key sha256 ps c r = Some k.

Definition resolved_key_of (ps : PolicyState) (rt : UpstreamRuntime) (r : DnsRequest) (k : CacheKey) : Prop :=
  exists qn c d, placed sha256 ps r qn c /\ eligible_fast_key sha256 ps c r = None /\
    evaluate_route (ps_index ps) c (Some qn) = Ok d /\
    let p := prepare_query rt (rd_upstream d) (dq_query r) (rd_ecs d) (dq_client_addr r) in
    pq_member_queries p = None /\
    cache_key_for_query sha256 (cache_semantics_fingerprint sha256 ps c)
      (into_resolution_plan c d) r (pq_query p) = Some k.

Definition key_of ps rt r k : Prop := fast_key_of ps r k \/ resolved_key_of ps rt r k.

Lemma key_of_keyed ps rt r k : request_ok r -> key_of ps rt r k -> keyed r k.
Proof.
  intros Q [(qn & c & (_ & _ & Hc) & Hk)|(qn & c & d & (_ & _ & Hc) & _ & _ & _ & Hk)].
  - unfold eligible_fast_key in Hk. destruct (fast_cache_eligible ps c); [|done].
    apply fast_key_build in Hk as (ns & Hn & B). exists ns, None. eexists _, _.
    split_and!; [..|exact B].
    + by eapply valid_context_namespace.
    + apply wire_none.
    + apply Q.
    + by apply valid_fast_dims.
  - apply resolved_key_build in Hk as (ns & Hn & B).
    destruct (prepared_query_subnet rt (rd_upstream d) r (rd_ecs d) Q) as (s & Ho & Hs).
    rewrite Hs in B. exists ns, s. eexists _, _. split_and!; [..|exact B].
    + by eapply valid_context_namespace.
    + done.
    + apply Q.
    + by apply valid_resolved_dims.
Qed.

(** The key the upstream is asked under. *)
Lemma upstream_key_of ps rt r qn c d k :
  placed sha256 ps r qn c -> evaluate_route (ps_index ps) c (Some qn) = Ok d ->
  upstream_key sha256 (prepare_query rt (rd_upstream d) (dq_query r) (rd_ecs d) (dq_client_addr r))
    (eligible_fast_key sha256 ps c r) (cache_semantics_fingerprint sha256 ps c)
    (into_resolution_plan c d) r = Some k ->
  match eligible_fast_key sha256 ps c r with
  | Some _ => fast_key_of ps r k
  | None => resolved_key_of ps rt r k
  end.
Proof.
  intros Hp Hd. unfold upstream_key. destruct (pq_member_queries _) eqn:Hm; [done|].
  destruct (eligible_fast_key sha256 ps c r) eqn:Ek.
  - intros [= <-]. by exists qn, c.
  - intros Hk. exists qn, c, d. by split_and!.
Qed.

(** What other tasks do keeps the cache coherent, and the completion a follower gets
    is one for the key it waits on. *)
Record env_ok ps rt (r : DnsRequest) (e : ResolveEnv (S := S)) : Prop := {
  eo_fast : forall g, coherent g -> coherent (le_others (rv_fast e) g);
  eo_lookup : forall g, coherent g -> coherent (le_others (rv_lookup e) g);
  eo_reserve : forall g, coherent g -> coherent (rv_before_reserve e g);
  eo_exchange : forall g, coherent g -> coherent (rv_during_exchange e g);
  eo_completion : forall k rec, key_of ps rt r k -> rv_completion e = Ok (LC_Ready rec) ->
    answers_key k (response (entry rec))
}.

(** The record an answer from the cache is made of: the one the Fast lookup found in
    the cache under the request's Fast key; for a request without such a key, the one
    the second lookup found under its Resolved key; or the one the load it waited for,
    under either key, completed with. *)
Inductive cached_record ps rt r (e : ResolveEnv (S := S)) (f : F) : CacheKey -> CacheRecord -> Prop :=
| found_fast k rec :
    fast_key_of ps r k -> held (rv_fast e) f k rec -> cached_record ps rt r e f k rec
| found_resolved k rec :
    resolved_key_of ps rt r k -> held (rv_lookup e) f k rec -> cached_record ps rt r e f k rec
| handed_over k rec :
    key_of ps rt r k -> rv_completion e = Ok (LC_Ready rec) -> cached_record ps rt r e f k rec.

Lemma cached_record_key ps rt r e f k rec : cached_record ps rt r e f k rec -> key_of ps rt r k.
Proof. intros []; [by left|by right|done]. Qed.

(** A cached answer as it is given to the client. *)
Definition cached_answer ps rt (r : DnsRequest) e f (resp : CanonicalResponse) : Prop :=
  exists k rec, cached_record ps rt r e f k rec /\ answers_key k (response (entry rec)) /\
    same_but_ttl resp (response (entry rec)).

Definition commits_coherently (c : option CacheCommitCandidate) : Prop :=
  forall cand, c = Some cand ->
    answers_key (req_key (cc_request cand)) (req_response (cc_request cand)).

(** What an upstream result is worth: a cache result is a cached answer, a commit
    candidate answers its key. *)
Definition result_coherent ps rt (r : DnsRequest) e f0 (x : PolicyUpstreamResult) : Prop :=
  (pu_source x = SrcCache -> exists resp, pu_outcome x = PU_Response resp /\
     cached_answer ps rt r e f0 resp) /\
  commits_coherently (pu_commit x).

Lemma load_coherent f0 f ps rt r upstream q key miss e res f' :
  coherent f -> request_ok r -> env_ok ps rt r e -> key_of ps rt r key ->
  query_question q = query_question (dq_query r) ->
  load f rt r upstream q key miss e = (res, f') ->
  coherent f' /\ forall x, res = Some x -> result_coherent ps rt r e f0 x.
Proof.
  intros Hf Q E K Hq.
  assert (Hu : forall s o y, (fun z => result_upstream z s) <$> o = Some y ->
    result_coherent ps rt r e f0 y).
  { intros s o y (z & _ & ->)%fmap_Some. by split. }
  unfold load. destruct (facade_reserve_load _ _ _ _) as [lr f1] eqn:Er.
  apply reserve_coherent in Er; [|by apply (eo_reserve _ _ _ _ E)].
  destruct lr as [[gen|gen]|err].
  - pose proof (eo_exchange _ _ _ _ E f1 Er) as Hx. unfold lead.
    destruct (exchange _ _ _ _ _) as [x|]; [|intros [= <- <-]; split; [by apply drop_lease_coherent|done]].
    destruct (xr_outcome x) as [resp|fl|reason].
    2, 3: intros [= <- <-]; split; [by apply drop_lease_coherent|]; intros y [= <-]; by split.
    destruct (matches_query resp q) eqn:Hm; cbn [negb].
    2: { intros [= <- <-]. split; [by apply drop_lease_coherent|]. intros y [= <-]. by split. }
    intros [= <- <-]. split; [done|]. intros y [= <-]. split; [done|]. intros cand [= <-]. cbn.
    exists r. split_and!; [done|by eapply key_of_keyed|]. unfold matches_query in *. by rewrite <-Hq.
  - destruct (rv_completion e) as [[rec| |fl]|err] eqn:Ec.
    + intros [= <- <-]. split; [done|]. intros y [= <-]. split; [|done]. intros _.
      eexists. split; [done|]. exists key, rec.
      split_and!; [by apply handed_over|by eapply (eo_completion _ _ _ _ E)|apply same_fresh].
    + intros [= <- <-]. split; [done|]. apply Hu.
    + destruct fl; intros [= <- <-]; (split; [done|]); try apply Hu. intros y [= <-]. by split.
    + intros [= <- <-]. split; [done|]. apply Hu.
  - intros [= <- <-]. split; [done|]. apply Hu.
Qed.

Lemma second_lookup_coherent f ps rt r d key deadline miss e use f' refresh :
  coherent f -> env_ok ps rt r e ->
  second_lookup f d key deadline miss (rv_lookup e) = (use, f', refresh) ->
  coherent f' /\ forall rec resp st, use = LU_Answer rec resp st ->
    miss = None /\ held (rv_lookup e) f key rec /\ answers_key key (response (entry rec)) /\
    same_but_ttl resp (response (entry rec)).
Proof.
  intros Hf E. unfold second_lookup. destruct miss as [m|].
  - intros [= <- <- <-]. split; [done|by intros].
  - intros [Hc Hu]%consult_coherent; [|done|apply E]. split; [done|]. intros rec resp st H.
    split; [done|]. by eapply Hu.
Qed.

(** The completion given for an upstream result. *)
Definition completion_coherent ps rt (r : DnsRequest) e f0 (cp : DnsCoreCompletion) : Prop :=
  (forall o, cp_observation cp = Some o -> ob_source o = SrcCache ->
     exists resp, cp_result cp = Ok (CO_Response resp) /\ cached_answer ps rt r e f0 resp) /\
  commits_coherently (cp_commit cp).

Lemma cached_answer_matches ps rt r e f resp :
  request_ok r -> cached_answer ps rt r e f resp -> matches_query resp (dq_query r) = true.
Proof.
  intros Q (k & rec & K & A & Hs). apply cached_record_key, key_of_keyed in K; [|done].
  pose proof (answers_key_matches r k _ Q K A) as Hm. by apply (same_answers _ _ _ Hs).
Qed.

Lemma upstream_completion_coherent (f f0 : F) ps rt r e plan rule x :
  request_ok r -> result_coherent ps rt r e f0 x ->
  completion_coherent ps rt r e f0 (upstream_completion f r plan rule x).
Proof.
  intros Q [Hc Hp]. split; [|done]. intros o [= <-] Ho. cbn in Ho.
  destruct (Hc Ho) as (resp & Hx & Ha). unfold upstream_completion, cp_result. rewrite Hx.
  rewrite (cached_answer_matches _ _ _ _ _ _ Q Ha). eexists. split; [done|].
  destruct Ha as (k & rec & K & A & Hs). exists k, rec. split_and!; [done|done|].
  apply same_override. destruct (core_negative_ttl_max f); [|done].
  destruct (is_negative resp); [|done]. by apply same_cap.
Qed.

(** The second lookup is only made without a Fast key, and then nothing has been done
    to the cache yet. *)
Lemma resolve_decided_coherent f0 f ps rt ttl r qn c d miss e cp f' refresh :
  request_ok r -> coherent f -> env_ok ps rt r e ->
  placed sha256 ps r qn c -> evaluate_route (ps_index ps) c (Some qn) = Ok d ->
  (miss = None -> eligible_fast_key sha256 ps c r = None /\ f = f0) ->
  resolve_decided sha256 f ps rt ttl r c d (eligible_fast_key sha256 ps c r) miss e = (cp, (f', refresh)) ->
  coherent f' /\ completion_coherent ps rt r e f0 cp.
Proof.
  intros Q Hf E Hp Hd Hmiss. unfold resolve_decided. cbn [rp_hosts into_resolution_plan].
  destruct (rd_hosts d) as [h|].
  { destruct (pi_hosts _ !! h); intros [= <- <- <-]; (split; [done|]); by split; [intros o [= <-]|]. }
  unfold resolve_upstream. cbn [rp_upstream rp_ecs into_resolution_plan].
  destruct (upstream_key _ _ _ _ _ _) as [k|] eqn:Ek.
  - pose proof (upstream_key_of ps rt r qn c d k Hp Hd Ek) as Hk.
    assert (K : key_of ps rt r k) by (destruct (eligible_fast_key sha256 ps c r); [by left|by right]).
    destruct (second_lookup _ _ _ _ _ _) as [[use f1] rf] eqn:El.
    eapply second_lookup_coherent in El as [Hf1 Hu]; [|done..]. destruct use as [rec resp st|m].
    + intros [= <- <- <-]. split; [done|]. apply upstream_completion_coherent; [done|].
      split; [|done]. intros _. exists resp. split; [done|].
      destruct (Hu _ _ _ eq_refl) as (Hn & Hh & ? & ?). destruct (Hmiss Hn) as [He <-]. rewrite He in Hk.
      exists k, rec. split_and!; [by apply found_resolved|done..].
    + destruct (load _ _ _ _ _ _ _ _) as [res f2] eqn:Elo.
      eapply (load_coherent f0 _ ps) in Elo as [Hf2 Hr]; [|done..|by apply prepared_question].
      destruct res as [x|]; intros [= <- <- <-]; (split; [done|]).
      * apply upstream_completion_coherent; [done|]. by apply Hr.
      * by split; [intros o [= <-]|].
  - destruct (_ <$> _) as [x|] eqn:Ex; intros [= <- <- <-]; (split; [done|]).
    + apply upstream_completion_coherent; [done|]. apply fmap_Some in Ex as (z & _ & ->). by split.
    + by split; [intros o [= <-]|].
Qed.

(** *** Commits *)

Lemma write_coherent f q t0 t1 res f' :
  coherent f -> answers_key (req_key q) (req_response q) ->
  write_response f q t0 t1 = (res, f') -> coherent f'.
Proof.
  intros Hf Ha. unfold write_response. destruct (negb _); [by intros [= _ <-]|].
  destruct (admit_response _ _ _ _ _) as [[e|rej]|err] eqn:Hadm; [|by intros [= _ <-]..].
  destruct (cs_cas _ _ _ _ _ _ _) as [r s'] eqn:Hc.
  apply cs_cas_law in Hc as (Hok & Hst & _); [|apply Hf].
  assert (Hc : coherent (set_store f s')).
  { split; [done|]. intros k rec Hk. apply Hst in Hk as [Hk|(-> & v & -> & _)]; [by apply Hf|]. cbn.
    by apply admit_accepted in Hadm as (ttl & _ & _ & _ & _ & _ & _ & -> & _). }
  destruct r; by intros [= _ <-].
Qed.

Lemma commit_write_coherent f q ck w f' :
  coherent f -> answers_key (req_key q) (req_response q) ->
  commit_write f q ck = (w, f') -> coherent f'.
Proof.
  intros Hf Ha. unfold commit_write. destruct (write_response f _ _ _) as [w1 f1] eqn:E1.
  apply write_coherent in E1 as Hf1; [|done|done]. intros H.
  repeat case_match; simplify_eq; try done. by eapply write_coherent in H.
Qed.

Lemma commit_coherent f q gen timeout ck o woken f' :
  coherent f -> answers_key (req_key q) (req_response q) ->
  commit f q gen timeout ck = (o, woken, f') -> coherent f'.
Proof.
  intros Hf Ha. unfold commit. destruct (commit_write f _ ck) as [w f2] eqn:E2.
  apply commit_write_coherent in E2 as Hf2; [|done|done].
  destruct (commit_completion w _) as [o1 c1].
  unfold facade_publish_load. destruct (cs_publish _ _ _ _) as [[r wk] s'] eqn:E3.
  apply cs_publish_law in E3 as [Hok Hst]; [|apply Hf2].
  assert (Hc : coherent (set_store f2 s')).
  { split; [done|]. intros k rec. cbn. rewrite Hst. apply Hf2. }
  destruct r; by intros [= _ _ <-].
Qed.

Lemma resolve_completion_coherent f ps rt ttl r e cp f' refresh :
  request_ok r -> coherent f -> env_ok ps rt r e ->
  resolve_with_metadata sha256 f ps rt ttl r e = (cp, (f', refresh)) ->
  coherent f' /\ completion_coherent ps rt r e f cp.
Proof.
  intros Q Hf E H. revert H. assert (Hfail : completion_coherent ps rt r e f (failed r)) by (by split).
  unfold resolve_with_metadata. destruct (_ || _); [intros [= <- <- <-]; by split_and!|].
  destruct (config_id_ok _) eqn:Hid; cbn [negb]; [|intros [= <- <- <-]; by split_and!].
  destruct (request_qname r) as [qn|] eqn:Hqn; [|intros [= <- <- <-]; by split_and!].
  destruct (prepare_context _ _ _) as [c|] eqn:Hc; [|intros [= <- <- <-]; by split_and!].
  assert (Hp : placed sha256 ps r qn c) by done.
  assert (Hx : forall g miss rf, coherent g ->
    (miss = None -> eligible_fast_key sha256 ps c r = None /\ g = f) ->
    resolve_context sha256 g ps rt ttl r qn c miss rf e = (cp, (f', refresh)) ->
    coherent f' /\ completion_coherent ps rt r e f cp).
  { intros g miss rf Hg Hmiss. unfold resolve_context.
    destruct (evaluate_route _ _ _) as [d|] eqn:Hd; [|intros [= <- <- <-]; by split_and!].
    by apply (resolve_decided_coherent f _ _ _ _ _ qn). }
  destruct (eligible_fast_key _ _ _ _) as [k|] eqn:Ek; [|by apply Hx].
  assert (Hk : fast_key_of ps r k) by (by exists qn, c).
  destruct (consult _ _ _ _ _) as [[use f1] rf] eqn:El.
  apply consult_coherent in El as [Hf1 Hu]; [|done|apply E]. destruct use as [rec resp st|m].
  2: by apply Hx.
  intros [= <- <- <-]. split; [done|]. split; [|done]. intros o _ _.
  destruct (Hu _ _ _ eq_refl) as (Hh & Ha & Hs).
  assert (Hca : cached_answer ps rt r e f resp) by (exists k, rec; split_and!; [by apply found_fast|done..]).
  unfold cached_completion, cp_result. rewrite (cached_answer_matches _ _ _ _ _ _ Q Hca).
  eexists. split; [done|]. exists k, rec. split_and!; [by apply found_fast|done|]. by apply same_override.
Qed.

(** C1: The cache only ever holds, under a key, responses to the question in that
    key, and only such responses come out of it. Whatever other tasks do to a
    coherent cache in the meantime, resolving a request leaves it coherent, and so
    does committing the candidate it hands over at any later time. An answer taken
    from the cache is, TTLs apart, the response of the record that the lookup found
    stored under the request's own key, or of the record that the load it waited for
    under that key completed with; it is never a SERVFAIL for a mismatched question. *)
Theorem resolve_coherent f ps rt ttl r e cp f' refresh :
  request_ok r -> coherent f -> env_ok ps rt r e ->
  resolve_with_metadata sha256 f ps rt ttl r e = (cp, (f', refresh)) ->
  coherent f' /\
  (forall o, cp_observation cp = Some o -> ob_source o = SrcCache ->
     exists resp k rec, cp_result cp = Ok (CO_Response resp) /\
       cached_record ps rt r e f k rec /\ answers_key k (response (entry rec)) /\
       same_but_ttl resp (response (entry rec)) /\ matches_query resp (dq_query r) = true) /\
  (forall cand g timeout ck o woken g', cp_commit cp = Some cand -> coherent g ->
     commit g (cc_request cand) (cc_generation cand) timeout ck = (o, woken, g') -> coherent g').
Proof.
  intros Q Hf E H. destruct (resolve_completion_coherent _ _ _ _ _ _ _ _ _ Q Hf E H) as [Hf' [Ho Hp]].
  split_and!; [done| |].
  { intros o Hob Hs. destruct (Ho o Hob Hs) as (resp & Hr & Ha).
    pose proof (cached_answer_matches _ _ _ _ _ _ Q Ha). destruct Ha as (k & rec & ? & ? & ?).
    by exists resp, k, rec. }
  intros cand g timeout ck o woken g' Hc Hg. apply commit_coherent; [done|]. by apply Hp.
Qed.

End Coherence.

(** ** Leases and permits *)

Section Settlement.
Context {HH : Hickory} {SO : SubnetOps HH} {NT : NameText HH} {HR : HickoryRecords HH}.
Context {IN : IpNetOps} {IB : IpNetBuild IN} {HN : HickoryName}.
Abbreviation F := (CacheFacade MemoryCacheStore).

(** The load of [key] with generation [gen] is running. *)
Definition running (f : F) (key : CacheKey) (gen : Z) (l : MemoryLoad) : Prop :=
  loads (state (fc_store f)) !! key = Some l /\ generation l = gen /\ completion l = None.

(** The load is over: gone, or failed for the followers that still have to read it. *)
Definition abandoned (f : F) (key : CacheKey) (gen : Z) (l : MemoryLoad) : Prop :=
  loads (state (fc_store f)) !! key =
    if followers l =? 0 then None
    else Some (mk_load gen (Some (LC_Failed LF_Abandoned)) (followers l) []).

Lemma drop_lease_abandons f key gen l :
  running f key gen l -> abandoned (drop_load_lease f key gen) key gen l.
Proof.
  intros (Hl & Hg & Hc). unfold abandoned, drop_load_lease. cbn. unfold abandon, complete_load.
  rewrite Hl, Hg, Z.eqb_refl, Hc. cbn.
  destruct (followers l =? 0); [by rewrite lookup_delete_eq|by rewrite lookup_insert_eq].
Qed.

(** C35: A leader never leaves its load hanging. When the request that reserved it
    returns, it hands over exactly one commit candidate for that key and
    generation, with the load untouched, or it hands over none and the load has
    already failed for its followers: on an upstream failure, a cancellation, an
    unknown upstream and a response to another question alike. *)
Theorem load_settles_lease f rt r upstream q key miss e gen f1 l res f' :
  facade_reserve_load (rv_before_reserve e f) key (cx_deadline (dq_ctx r)) (rv_reserve_t0 e) =
    (Ok (Leader gen), f1) ->
  running (rv_during_exchange e f1) key gen l ->
  load f rt r upstream q key miss e = (res, f') ->
  (exists x cand, res = Some x /\ pu_commit x = Some cand /\ cc_generation cand = gen /\
     req_key (cc_request cand) = key /\ matches_query (req_response (cc_request cand)) q = true /\
     running f' key gen l) \/
  ((forall x, res = Some x -> pu_commit x = None) /\ abandoned f' key gen l).
Proof.
  intros Hres Hrun. unfold load. rewrite Hres. unfold lead.
  destruct (exchange _ _ _ _ _) as [x|].
  2: { intros [= <- <-]. right. split; [done|]. by apply drop_lease_abandons. }
  destruct (xr_outcome x) as [resp|fl|reason]; [destruct (matches_query resp q) eqn:Hm; cbn [negb]|..].
  - intros [= <- <-]. left. eexists _, _. split_and!; [done|done|done|done|done|done].
  - intros [= <- <-]. right. split; [by intros y [= <-]|]. by apply drop_lease_abandons.
  - intros [= <- <-]. right. split; [by intros y [= <-]|]. by apply drop_lease_abandons.
  - intros [= <- <-]. right. split; [by intros y [= <-]|]. by apply drop_lease_abandons.
Qed.

End Settlement.

Section StaleAnswers.
Context {HH : Hickory}.
Context {S : Type} {HS : CacheStoreOps S} {HSL : CacheStoreLaws S}.
Abbreviation F := (CacheFacade S).

(** How long after its expiry the pool serves a record of this quality. *)
Definition pool_window (d : CacheDecision) (q : CacheQuality) : option Duration :=
  match q with
  | Q_Complete => optimistic_max_age d
  | Q_Negative => optimistic_negative_max_age d
  | Q_Failure => None
  end.

Lemma stale_answer_ttl_some d e now ttl :
  stale_answer_ttl d e now = Some ttl ->
  optimistic_answer_ttl d = Some ttl /\
  exists window, pool_window d (quality e) = Some window /\ window <> 0 /\
    now < expires_at e + window.
Proof.
  unfold stale_answer_ttl. intros (t & Ht & H)%bind_Some. apply bind_Some in H as (w & Hw & H).
  destruct (Z.eqb_spec w 0) as [->|Hz]; [done|]. unfold is_zero in H.
  rewrite (proj2 (Z.eqb_neq w 0) Hz) in H. destruct (instant_checked_add _ _) as [u|] eqn:Hu; [|done].
  apply checked_add_some in Hu as ->. destruct (Z.ltb_spec now (expires_at e + w)); [|done].
  injection H as <-. split; [done|]. by exists w.
Qed.

(** C2: What a lookup may answer with. A fresh answer is a retained record that has
    not expired, aged by its time in the cache. A stale answer is one that has, of
    a pool with optimistic answers, never a failure, still within the pool's window
    for its quality, with the pool's answer TTL on every record. A refresh is
    scheduled for a stale answer only, for its key and version, and always when the
    admission has a free slot; the slot is free again when the lookup is over. *)
Theorem consult_spec (f : F) d key deadline (e : LookupEnv) use f' refresh :
  cs_ok (fc_store (le_others e f)) -> consult f d key deadline e = (use, f', refresh) ->
  let g := le_others e f in
  fc_refresh f' = fc_refresh g /\ fc_options f' = fc_options g /\
  match use with
  | LU_Answer rec resp status =>
      retained (le_t1 e) (cs_stored (fc_store g) key) = Some rec /\
      if le_now e <? expires_at (entry rec) then
        status = CS_Fresh /\ refresh = None /\
        resp = fresh_cache_response rec (core_negative_ttl_max g) (le_after e)
      else
        status = CS_Stale /\ optimistic_enabled (fc_options g) = true /\
        (exists ttl window, optimistic_answer_ttl d = Some ttl /\
           pool_window d (quality (entry rec)) = Some window /\
           le_after e < expires_at (entry rec) + window /\
           resp = set_ttl (response (entry rec)) ttl) /\
        (forall k v, refresh = Some (k, v) -> k = key /\ v = version rec) /\
        ((try_acquire (fc_refresh g)).1 = true -> refresh = Some (key, version rec))
  | LU_Miss _ => refresh = None
  end.
Proof.
  cbn zeta. unfold consult. generalize (le_others e f) as g. clear f. intros f Hok.
  unfold lookup_at. destruct (negb _); [by intros [= <- <- <-]|].
  destruct (cs_get (fc_store f) key deadline (le_t0 e) (le_t1 e)) as [res s'] eqn:Hg.
  apply cs_get_law in Hg as (_ & _ & Hres); [|done]. destruct res as [[rec|]|err].
  2: by intros [= <- <- <-].
  2: destruct (pe_class err); by intros [= <- <- <-].
  specialize (Hres _ eq_refl). destruct (_ <? expires_at _) eqn:He.
  { intros [= <- <- <-]. split_and!; try done. by rewrite He. }
  destruct (optimistic_enabled (fc_options f)) eqn:Ho; cbn [andb]; [|by intros [= <- <- <-]].
  destruct (match stale_until (entry rec) with Some s => le_now e <? s | None => false end);
    [|by intros [= <- <- <-]].
  assert (Hslot : fc_refresh (drop_permit (mk_facade s' (fc_options f) (try_acquire (fc_refresh f)).2)
    (mk_permit key (version rec) false (try_acquire (fc_refresh f)).1)) = fc_refresh f /\
    fc_refresh (drop_permit (mk_facade s' (fc_options f) (try_acquire (fc_refresh f)).2)
    (mk_permit key (version rec) true (try_acquire (fc_refresh f)).1)) = fc_refresh f).
  { unfold try_acquire, drop_permit, release_refresh. destruct (_ || _); cbn; [done|].
    destruct (fc_refresh f) as [m n]. cbn. split; f_equal; lia. }
  destruct (try_acquire (fc_refresh f)) as [got a']. cbn in Hslot.
  assert (Hopt : forall p, fc_options (drop_permit (mk_facade s' (fc_options f) a') p) = fc_options f).
  { intros p. unfold drop_permit. by destruct (admitted p). }
  destruct (stale_answer_ttl _ _ _) as [ttl|] eqn:Ht.
  2: { intros [= <- <- <-]. split_and!; [apply Hslot|apply Hopt|done]. }
  apply stale_answer_ttl_some in Ht as (Ht & w & Hw & _ & Hlt).
  destruct got; cbn; intros [= <- <- <-];
    (split; [apply Hslot|]); (split; [done|]); (split; [done|]); rewrite He; split_and!; try done.
  - by exists ttl, w.
  - by intros k v [= <- <-].
  - by exists ttl, w.
Qed.

End StaleAnswers.

(** ** A request, its commit and a second request *)

Module ResolveSample.
Import EcsSample.

#[export] Instance records : HickoryRecords hickory := {|
  rdata_a _ := None; rdata_aaaa _ := None; rdata_cname _ := None;
  name_from_ascii s := Some s
|}.

Definition answer : CanonicalResponse :=
  match response_with_answers query [from_rdata (lit "ex") 300 None] with
  | Ok r => r
  | Err _ => Build_CanonicalResponse plain_message RServFail
               {| min_ttl := None; negative_ttl := None |}
  end.

Abbreviation F := (CacheFacade MemoryCacheStore).
Definition options : CacheFacadeOptions :=
  mk_options true true (CacheAdmissionPolicy_new (from_secs 5) (Some (from_secs 60))).
Definition empty_facade : F := mk_facade (with_limit None) options (mk_refresh usize_max 0).

Definition network : Network := mk_network (fun _ _ => UO_Response answer) (fun _ _ _ => Err EE_TaskFailed).
Definition quiet (now : Instant) : LookupEnv := mk_lookup_env (S := MemoryCacheStore) id now now now now.
Definition env : ResolveEnv :=
  mk_resolve_env 0 (quiet 1) (quiet 1) id 2 (Ok LC_Miss) 3 network id 4.
Definition client : IpAddr := V4 0x0A010203.

Definition resolve_on (f : F) := resolve_with_metadata sha f state runtime 60 (request_from client) env.
Definition after_first : F := (resolve_on empty_facade).2.1.

(** The cache worker commits the candidate of the first request. *)
Definition clock : CommitClock := mk_clock 5 (5, 5) (6, 6) 6.
Definition committed : F :=
  match cp_commit (resolve_on empty_facade).1 with
  | Some c => (commit after_first (cc_request c) (cc_generation c) (from_secs 1) clock).2
  | None => empty_facade
  end.

Lemma resolve_on_eq f :
  resolve_with_metadata sha f state runtime 60 (request_from client) env =
  ((resolve_on f).1, ((resolve_on f).2.1, (resolve_on f).2.2)).
Proof. unfold resolve_on. by destruct (resolve_with_metadata _ _ _ _ _ _ _) as [? [? ?]]. Qed.

Lemma held_quiet (f : F) k rec : held (quiet 1) f k rec -> cs_stored (fc_store f) k = Some rec.
Proof.
  unfold held. cbn [quiet le_t1 le_others id]. intros (x & -> & H)%bind_Some.
  by destruct (_ <? _); [injection H as ->|].
Qed.

(** The network has one answer. *)
Lemma answered_by rt r d resp : exchanged rt r d env = Some (UO_Response resp) -> resp = answer.
Proof.
  unfold exchanged. intros (x & Hx & Ho)%fmap_Some. revert Hx. unfold exchange.
  destruct (ur_direct rt !! _); [intros [= <-]; by injection Ho|].
  destruct (ur_groups rt !! _); [done|]. destruct (ur_all rt !! _) as [[c|c]|]; [..|done].
  - intros [= <-]. by injection Ho.
  - by intros [= <-].
Qed.

Lemma client_request_ok : request_ok (request_from client).
Proof. apply request_from_ok. cbn. lia. Qed.

Lemma empty_coherent : coherent empty_facade.
Proof. split; [|done]. by intros l ?. Qed.

Lemma quiet_env_ok : env_ok sha state runtime (request_from client) env.
Proof. by split. Qed.

Lemma committed_coherent : coherent committed.
Proof.
  destruct (resolve_completion_coherent sha sha_length empty_facade state runtime 60
    (request_from client) env _ _ _ client_request_ok empty_coherent quiet_env_ok
    (resolve_on_eq empty_facade)) as (H1 & _ & H3).
  unfold committed. destruct (cp_commit (resolve_on empty_facade).1) as [c|]; [|exact empty_coherent].
  destruct (commit after_first (cc_request c) (cc_generation c) (from_secs 1) clock) as [[o w] g] eqn:E.
  exact (commit_coherent _ _ _ _ _ _ _ _ H1 (H3 c eq_refl) E).
Qed.

(** The key of the request. *)
Definition the_key : CacheKey :=
  match prepared client with Some p => pcq_key p | None => sample_key x00 end.

End ResolveSample.

Section ResolveWitness.
Import EcsSample ResolveSample.

(** The first request is answered by the upstream. *)
Lemma resolve_settles_witness : exists resp,
  cp_result (resolve_on empty_facade).1 = Ok (CO_Response resp) /\ same_but_ttl resp answer /\
  matches_query resp query = true /\ is_Some (cp_commit (resolve_on empty_facade).1).
Proof.
  pose proof (resolve_settles sha empty_facade state runtime 60 (request_from client) env _ _
    (rq_query _ client_request_ok) (resolve_on_eq empty_facade)) as H.
  change (accepting (request_from client) env) with true in H. cbv iota in H. unfold settlement in H.
  assert (Ks : ob_source <$> cp_observation (resolve_on empty_facade).1 = Some SrcUpstream)
    by (vm_compute; reflexivity).
  rewrite Ks in H. destruct H as (c & d & _ & _ & [H|(reason & K & _)]); [|discriminate K].
  assert (Kc : match cp_commit (resolve_on empty_facade).1 with Some _ => true | None => false end = true)
    by (vm_compute; reflexivity).
  destruct (exchanged runtime (request_from client) d env) as [[resp|fl|reason]|] eqn:Ex.
  2, 4: destruct H as [_ H]; rewrite H in Kc; discriminate Kc.
  2: destruct H as (_ & _ & H); rewrite H in Kc; discriminate Kc.
  unfold told in H. change (dq_query (request_from client)) with query in H.
  destruct (matches_query resp query).
  2: destruct H as [_ H]; rewrite H in Kc; discriminate Kc.
  destruct H as (resp' & Hr & Hs & Hm). exists resp'. split; [exact Hr|].
  split; [|split; [exact Hm|]].
  2: { destruct (cp_commit (resolve_on empty_facade).1) as [x|]; [by exists x|discriminate Kc]. }
  apply answered_by in Ex. rewrite <-Ex. exact Hs.
Defined.

(** The second request is answered from the cache, under its Fast key. *)
Lemma resolve_coherent_witness : coherent committed /\
  exists resp k rec, cp_result (resolve_on committed).1 = Ok (CO_Response resp) /\
    cs_stored (fc_store committed) k = Some rec /\ same_but_ttl resp (response (entry rec)).
Proof.
  pose proof committed_coherent as Hc.
  split; [exact Hc|].
  destruct (resolve_coherent sha sha_length committed state runtime 60 (request_from client) env
    _ _ _ client_request_ok Hc quiet_env_ok (resolve_on_eq committed)) as (_ & H2 & _).
  assert (K : match cp_observation (resolve_on committed).1 with
    | Some o => match ob_source o with SrcCache => true | _ => false end | None => false end = true)
    by (vm_compute; reflexivity).
  destruct (cp_observation (resolve_on committed).1) as [o|]; [|discriminate K].
  destruct (H2 o) as (resp & k & rec & Hr & Hrec & _ & Hs & _);
    [reflexivity|destruct (ob_source o); [reflexivity|discriminate K..]|].
  exists resp, k, rec. split; [exact Hr|]. split; [|exact Hs].
  destruct Hrec as [k rec Hk Hh|k rec Hk Hh|k rec Hk Hh];
    [exact (held_quiet _ _ _ Hh)|exact (held_quiet _ _ _ Hh)|discriminate Hh].
Defined.

Definition reserved : F := (facade_reserve_load empty_facade the_key 100 2).2.

Lemma load_settles_lease_witness : exists x cand f',
  load empty_facade runtime (request_from client) "cf" query the_key MissAbsent env = (Some x, f') /\
  pu_commit x = Some cand /\ running f' the_key 1 (mk_load 1 None 0 []).
Proof.
  destruct (load empty_facade runtime (request_from client) "cf" query the_key MissAbsent env)
    as [res f'] eqn:E.
  destruct (load_settles_lease empty_facade runtime (request_from client) "cf" query the_key MissAbsent env
    1 reserved (mk_load 1 None 0 []) res f') as [(x & cand & -> & Hc & _ & _ & _ & Hr)|[Hn _]].
  - rewrite (surjective_pairing (facade_reserve_load _ _ _ _)). f_equal; vm_compute; reflexivity.
  - split; [|split; reflexivity]. change (rv_during_exchange env reserved) with reserved.
    assert (K : match loads (CacheStore.state (fc_store reserved)) !! the_key with
      | Some (mk_load g None n []) => (g =? 1) && (n =? 0) | _ => false end = true)
      by (vm_compute; reflexivity).
    destruct (loads (CacheStore.state (fc_store reserved)) !! the_key) as [[g [c|] n [|w ws]]|]; try discriminate K.
    apply andb_true_iff in K as [->%Z.eqb_eq ->%Z.eqb_eq]. reflexivity.
  - exact E.
  - exists x, cand, f'. split; [reflexivity|]. split; [exact Hc|exact Hr].
  - exfalso. assert (K : match (load empty_facade runtime (request_from client) "cf" query the_key
      MissAbsent env).1 with Some x => match pu_commit x with Some _ => true | None => false end
      | None => false end = true) by (vm_compute; reflexivity).
    rewrite E in K. cbn in K. destruct res as [x|]; [|discriminate K].
    rewrite (Hn x eq_refl) in K. discriminate K.
Defined.

(** 310 seconds later the record is stale, and a pool with an hour of optimistic
    answers serves it and schedules the refresh. *)
Definition pool_decision : CacheDecision :=
  CachePool NsGlobal (Some (from_secs 5)) (Some (from_secs 3600)) None.
Definition later_env : LookupEnv := quiet (from_secs 310).

Lemma consult_spec_witness : exists rec resp f',
  consult committed pool_decision the_key (from_secs 400) later_env =
    (LU_Answer rec resp CS_Stale, f', Some (the_key, version rec)) /\
  resp = set_ttl (response (entry rec)) (from_secs 5) /\ fc_refresh f' = fc_refresh committed.
Proof.
  destruct (consult committed pool_decision the_key (from_secs 400) later_env) as [[use f'] refresh] eqn:E.
  pose proof (proj1 committed_coherent) as Hok.
  destruct (consult_spec committed pool_decision the_key (from_secs 400) later_env use f' refresh Hok E)
    as (Hr & _ & Hu).
  assert (K : match consult committed pool_decision the_key (from_secs 400) later_env with
    | (LU_Answer rec _ _, _, _) => negb (le_now later_env <? expires_at (entry rec)) | _ => false end = true)
    by (vm_compute; reflexivity).
  rewrite E in K. destruct use as [rec resp st|m]; [|discriminate K].
  destruct Hu as [_ Hu]. destruct (le_now later_env <? expires_at (entry rec)); [discriminate K|].
  destruct Hu as (-> & _ & (ttl & w & Ht & _ & _ & ->) & _ & Hs).
  exists rec, (set_ttl (response (entry rec)) ttl), f'. rewrite Hs by (vm_compute; reflexivity).
  injection Ht as <-. split; [reflexivity|]. split; [reflexivity|exact Hr].
Defined.

End ResolveWitness.
