(* ===== verification/Background.v ===== *)
(** * Background cache work (src/backend/src/dns/policy.rs)

    What runs after the client has its answer: the optimistic refresh of a stale
    entry ([schedule_optimistic_refresh]) and the write-back of late responses
    ([PolicyLateResultSink]). Both recompute the whole decision for the request
    under the policy of that moment, and again right before the write. *)

From S2P Require Import Prelude Text Net Message CacheModel CacheKeyEnc CacheAdmission.
From S2P Require Import CacheStore CacheFacade Client Hosts Regex Rules Group Outcome Executor.
From S2P Require Import Plan Upstreams QueryKey Resolve ResolveSpec.

Section Background.
Context {HH : Hickory} {SO : SubnetOps HH} {NT : NameText HH}.
Context {IN : IpNetOps} {IB : IpNetBuild IN} {HN : HickoryName}.
Context (sha256 : list byte -> list byte).
Context {S : Type} {HS : CacheStoreOps S}.
Abbreviation F := (CacheFacade S).

Definition OPTIMISTIC_REFRESH_TIMEOUT_SECS : Z := 2.

(** [optimistic_refresh_context]: a deadline of its own and a fresh cancellation. *)
Definition optimistic_refresh_context (now : Instant) : Ctx :=
  mk_ctx (now + from_secs OPTIMISTIC_REFRESH_TIMEOUT_SECS) None.

Definition refresh_request (r : DnsRequest) (now : Instant) (revision : Z) : DnsRequest :=
  mk_dns_request (dq_query r) (optimistic_refresh_context now) (dq_listener_id r) (dq_route_id r)
    (dq_client_id r) (dq_client_addr r) (dq_cache_compatibility r) revision.

(** The environment of a background write: the policy at each of the two decisions,
    the lookup, the network, what other tasks do before the write, and the clocks. *)
Record TaskEnv := mk_task_env {
  te_policy : PolicyState;
  te_lookup : LookupEnv (S := S);
  te_network : Network;
  te_policy_after : PolicyState;
  te_before_write : F -> F;
  te_write_now : Instant;
  te_write_t : Instant * Instant
}.

(** Whether the request still has the same key and semantics. *)
Definition still_current (ps : PolicyState) (rt : UpstreamRuntime) (r : DnsRequest)
    (p : PreparedCacheQuery) : bool :=
  match prepare_cache_query sha256 ps rt r with
  | Some q => bool_decide (pcq_key q = pcq_key p) && bool_decide (pcq_semantics q = pcq_semantics p)
  | None => false
  end.

(** ** Optimistic refresh *)

(** The condition of the write: the stale version itself, or what the target store
    holds now; [inr] is the outcome when there is nothing to do. *)
Definition refresh_condition (f : F) (same : bool) (stale_version : Z) (key : CacheKey)
    (deadline : Deadline) (e : LookupEnv) : (CacheCondition + CacheActivityOutcome) * F :=
  if same then (inl (IfVersion stale_version), f)
  else
    let '(res, f1) := lookup_at (le_others e f) key deadline (le_now e) (le_t0 e) (le_t1 e) in
    match res with
    | Ok LkMiss => (inl Absent, f1)
    | Ok (LkStale rec permit) => (inl (IfVersion (version rec)), drop_permit f1 permit)
    | Ok (LkExpired rec) => (inl (IfVersion (version rec)), f1)
    | Ok (LkFresh _) => (inr ASkipped, f1)
    | Ok LkDisabled | Ok LkStoreUnavailable | Err _ => (inr AFailed, f1)
    end.

(** The task; [f] is the facade of the target core, [same_store] whether it shares
    the store of the core that found the stale entry. *)
Definition refresh_task (f : F) (rt : UpstreamRuntime) (r : DnsRequest) (same_store : bool)
    (stale_key : CacheKey) (stale_version : Z) (e : TaskEnv) : CacheActivityOutcome * F :=
  match prepare_cache_query sha256 (te_policy e) rt r with
  | None => (ASkipped, f)
  | Some p =>
    let '(c, f1) := refresh_condition f (same_store && bool_decide (pcq_key p = stale_key))
                      stale_version (pcq_key p) (cx_deadline (dq_ctx r)) (te_lookup e) in
    match c with
    | inr outcome => (outcome, f1)
    | inl condition =>
      match exchange rt (te_network e) (pcq_upstream p) (pcq_query p) None with
      | Some (mk_execution (UO_Response response) target used) =>
        if negb (matches_query response (pcq_query p)) then (ARejected, f1)
        else if negb (still_current (te_policy_after e) rt r p) then (ASkipped, f1)
        else
          let '(w, f2) := write_response (te_before_write e f1)
            (CacheFacade.mk_request (pcq_key p) condition response
               (cache_upstream_provenance target used) (te_write_now e) (dq_runtime_revision r)
               (cx_deadline (dq_ctx r))) (te_write_t e).1 (te_write_t e).2 in
          (cache_activity_outcome w, f2)
      | _ => (AFailed, f1)
      end
    end
  end.

(** ** Late responses *)

Record PolicyLateResultSink := mk_sink {
  ls_request : DnsRequest;
  ls_semantics : option CacheFingerprint;
  ls_key : CacheKey;
  ls_target : CacheUpstreamId;
  ls_revision : Z;
  ls_deadline : Deadline
}.

(** [late_result_sink]: the semantics are recorded only for the request's own key
    and target. *)
Definition late_result_sink (ps : PolicyState) (rt : UpstreamRuntime) (r : DnsRequest)
    (key : CacheKey) (upstream : string) (now : Instant) : PolicyLateResultSink :=
  mk_sink r
    (p ← prepare_cache_query sha256 ps rt r;
     if bool_decide (pcq_key p = key) && bool_decide (pcq_upstream p = upstream)
     then Some (pcq_semantics p) else None)
    key (expect_upstream_id upstream) (dq_runtime_revision r)
    (now + from_secs OPTIMISTIC_REFRESH_TIMEOUT_SECS).

Definition late_response_preference (c : ResponseClass) : CacheQuality :=
  match c with
  | RPositive => Q_Complete
  | RNoData | RNxDomain => Q_Negative
  | RRefused | RServFail | RTruncated | ROther _ => Q_Failure
  end.

(** The condition under which a late response may be written; [None] keeps the
    current entry. *)
Definition late_condition (f : F) (key : CacheKey) (deadline : Deadline) (response : CanonicalResponse)
    (e : LookupEnv) : option CacheCondition * F :=
  let '(res, f1) := lookup_at (le_others e f) key deadline (le_now e) (le_t0 e) (le_t1 e) in
  let better rec := if quality_rank (quality (entry rec)) <?
                       quality_rank (late_response_preference (resp_class response))
                    then Some (IfVersion (version rec)) else None in
  match res with
  | Ok (LkFresh rec) => (better rec, f1)
  | Ok (LkStale rec permit) => (better rec, drop_permit f1 permit)
  | Ok (LkExpired rec) => (Some (IfVersion (version rec)), f1)
  | Ok LkMiss => (Some Absent, f1)
  | Ok LkDisabled | Ok LkStoreUnavailable | Err _ => (None, f1)
  end.

(** [submit] and the task it spawns. [query] is the query the member was sent. *)
Definition late_submit (f : F) (rt : UpstreamRuntime) (revision : Z) (s : PolicyLateResultSink)
    (query : CanonicalQuery) (connector : ConnectorId) (outcome : UpstreamOutcome) (e : TaskEnv) :
    option CacheActivityOutcome * F :=
  match outcome with
  | UO_Response response =>
    if negb (matches_query response query) then (None, f)
    else match prepare_cache_query sha256 (te_policy e) rt (ls_request s) with
    | None => (None, f)
    | Some p =>
      if negb (bool_decide (Some (pcq_semantics p) = ls_semantics s)) ||
         negb (bool_decide (pcq_key p = ls_key s)) ||
         negb (bool_decide (ecs_cache_fingerprint sha256 (pcq_query p) =
                            ecs_cache_fingerprint sha256 query))
      then (None, f)
      else
        let '(c, f1) := late_condition f (pcq_key p) (ls_deadline s) response (te_lookup e) in
        match c with
        | None => (None, f1)
        | Some condition =>
          if negb (still_current (te_policy_after e) rt (ls_request s) p) then (None, f1)
          else
            let '(w, f2) := write_response (te_before_write e f1)
              (CacheFacade.mk_request (pcq_key p) condition response
                 (mk_provenance (ls_target s) (Some (expect_upstream_id (connector_str connector))))
                 (te_write_now e) revision (ls_deadline s)) (te_write_t e).1 (te_write_t e).2 in
            (Some (cache_activity_outcome w), f2)
        end
    end
  | UO_TransportFailure _ | UO_Cancelled _ => (None, f)
  end.

End Background.

(** ** What background work may write *)

Section BackgroundSpec.
Context {HH : Hickory} {HL : HickoryLaws HH} {SO : SubnetOps HH} {SL : SubnetLaws HH} {NT : NameText HH}.
Context {IN : IpNetOps} {IB : IpNetBuild IN} {IL : IpNetLaws IN} {HN : HickoryName}.
Context (sha256 : list byte -> list byte) (sha_length : forall x, length (sha256 x) = 32%nat).
Context {S : Type} {HS : CacheStoreOps S} {HSL : CacheStoreLaws S}.
Abbreviation F := (CacheFacade S).

Lemma prepared_keyed ps rt r p :
  request_ok r -> prepare_cache_query sha256 ps rt r = Some p ->
  keyed r (pcq_key p) /\ query_question (pcq_query p) = query_question (dq_query r).
Proof.
  intros Q (qn & c & d & _ & Hc & _ & _ & Hq & Hk)%prepare_cache_query_inv.
  destruct (prepared_query_subnet rt (rd_upstream d) r (rd_ecs d) Q) as (s & Ho & Hs).
  rewrite Hs in Hq. split; [|by rewrite Hq].
  destruct Hk as [(ns & Hn & B)%fast_key_build|(ns & Hn & B)%resolved_key_build].
  - exists ns, None. eexists _, _.
    split_and!; [by eapply valid_context_namespace|apply wire_none|apply Q| |exact B].
    by apply valid_fast_dims.
  - rewrite Hq in B. exists ns, s. eexists _, _.
    split_and!; [by eapply valid_context_namespace|done|apply Q| |exact B]. by apply valid_resolved_dims.
Qed.

Lemma still_current_prepared ps rt r p :
  still_current sha256 ps rt r p = true ->
  exists q, prepare_cache_query sha256 ps rt r = Some q /\ pcq_key q = pcq_key p /\
    pcq_semantics q = pcq_semantics p.
Proof.
  unfold still_current. destruct (prepare_cache_query sha256 ps rt r) as [q|]; [|done].
  intros [Hk%bool_decide_eq_true Hs%bool_decide_eq_true]%andb_true_iff. by exists q.
Qed.

(** [f'] holds what [f] holds, less evictions, and records with [P]. *)
Definition adds (f f' : F) (P : CacheKey -> CacheRecord -> Prop) : Prop :=
  forall k rec, cs_stored (fc_store f') k = Some rec -> cs_stored (fc_store f) k = Some rec \/ P k rec.

Definition adds_none (f f' : F) : Prop :=
  forall k rec, cs_stored (fc_store f') k = Some rec -> cs_stored (fc_store f) k = Some rec.

Lemma lookup_coherent (f : F) key deadline now t0 t1 res f' :
  coherent f -> lookup_at f key deadline now t0 t1 = (res, f') ->
  coherent f' /\ adds_none f f' /\ forall rec,
    (res = Ok (LkFresh rec) \/ (exists p, res = Ok (LkStale rec p)) \/ res = Ok (LkExpired rec)) ->
    retained t1 (cs_stored (fc_store f) key) = Some rec /\
    (res <> Ok (LkFresh rec) -> expires_at (entry rec) <= now).
Proof.
  intros Hf. unfold lookup_at, adds_none. destruct (negb _); [intros [= <- <-]; split_and!; [done|done|naive_solver]|].
  destruct (cs_get _ _ _ _ _) as [o s'] eqn:Hg.
  apply cs_get_law in Hg as (Hok & Hsub & Hres); [|apply Hf].
  assert (Hc : coherent (set_store f s')) by (eapply coherent_subset; eauto).
  destruct o as [[rec|]|err].
  2: intros [= <- <-]; split_and!; [done|done|naive_solver].
  2: destruct (pe_class err); intros [= <- <-]; (split_and!; [done|done|naive_solver]).
  specialize (Hres _ eq_refl). destruct (_ <? expires_at _) eqn:He; [|destruct (_ && _)].
  - intros [= <- <-]. split_and!; [done|done|]. intros rec' H. naive_solver.
  - destruct (try_acquire _) as [got a']. intros [= <- <-]. split_and!; [done|done|].
    intros rec' H. assert (rec' = rec) as -> by naive_solver. split; [done|]. lia.
  - intros [= <- <-]. split_and!; [done|done|]. intros rec' H. assert (rec' = rec) as -> by naive_solver.
    split; [done|]. lia.
Qed.

Lemma drop_permit_store (f : F) p : fc_store (drop_permit f p) = fc_store f.
Proof. unfold drop_permit. by destruct (admitted p). Qed.

(** The effect of one conditional write: the record is new, it answers the key, and
    it took a free slot or the place of the version named by the condition. *)
Definition replaces (f : F) (now : Instant) (k : CacheKey) (ok_version : CacheRecord -> Prop) : Prop :=
  forall old, retained now (cs_stored (fc_store f) k) = Some old -> ok_version old.

Definition stored_outcome (o : CacheActivityOutcome) : Prop := o = AInserted \/ o = AUpdated.

Lemma write_replaces (f : F) q t0 t1 res f' k rec :
  coherent f -> write_response f q t0 t1 = (res, f') -> cs_stored (fc_store f') k = Some rec ->
  cs_stored (fc_store f) k = Some rec \/
  (stored_outcome (cache_activity_outcome res) /\
   k = req_key q /\ response (entry rec) = req_response q /\
   replaces f t1 k (fun old => req_condition q = IfVersion (version old))).
Proof.
  intros Hf. unfold write_response. destruct (negb _); [intros [= _ <-]; by left|].
  destruct (admit_response _ _ _ _ _) as [[e|rej]|err] eqn:Hadm; [|by intros [= _ <-]; left..].
  destruct (cs_cas _ _ _ _ _ _ _) as [r s'] eqn:Hc.
  apply cs_cas_law in Hc as (_ & Hst & Hr); [|apply Hf].
  apply admit_accepted in Hadm as (ttl & _ & _ & _ & _ & Hq & _ & He & _).
  assert (Hk : cs_stored s' k = Some rec -> cs_stored (fc_store f) k = Some rec \/
    (((exists v, r = Ok (Inserted v)) \/ (exists v, r = Ok (Replaced v))) /\
     k = req_key q /\ response (entry rec) = req_response q /\
     replaces f t1 k (fun old => req_condition q = IfVersion (version old)))).
  { intros [?|(-> & v & -> & Hv)]%Hst; [by left|right]. cbn. split_and!; [|done|done|].
    - destruct Hv as [->| ->]; [left|right]; by eexists.
    - intros old Hold. destruct Hv as [-> | ->]; [by rewrite Hr in Hold|].
      destruct Hr as (old' & Hr & Hc). congruence. }
  destruct r as [[]|]; intros [= <- <-] [?|[[[v Hv]|[v Hv]] ?]]%Hk; try done; try by left.
  - right. split; [by left|done].
  - right. split; [by right|done].
Qed.

(** What other tasks do keeps the cache coherent. *)
Record task_env_ok (e : TaskEnv (S := S)) : Prop := {
  to_lookup : forall g, coherent g -> coherent (le_others (te_lookup e) g);
  to_write : forall g, coherent g -> coherent (te_before_write e g)
}.

(** The request still has the key and the semantics of [p] under the policy [ps]. *)
Definition in_force (ps : PolicyState) (rt : UpstreamRuntime) (r : DnsRequest)
    (p : PreparedCacheQuery) : Prop :=
  exists q, prepare_cache_query sha256 ps rt r = Some q /\ pcq_key q = pcq_key p /\
    pcq_semantics q = pcq_semantics p.

(** The cache a refresh decides its condition on. *)
Definition looked_at (same : bool) (e : LookupEnv (S := S)) (f : F) : F :=
  if same then f else le_others e f.

(** The versions it may replace: the stale one, or one that it saw and that had
    expired. *)
Definition replaceable (same : bool) (stale_version : Z) (key : CacheKey) (e : LookupEnv (S := S)) (f : F)
    (old : CacheRecord) : Prop :=
  if same then version old = stale_version
  else exists seen, held e f key seen /\ version old = version seen /\
    expires_at (entry seen) <= le_now e.

Lemma refresh_condition_spec (f : F) same sv key deadline e c f' :
  coherent f -> (forall g, coherent g -> coherent (le_others e g)) ->
  refresh_condition f same sv key deadline e = (c, f') ->
  coherent f' /\ adds_none (looked_at same e f) f' /\
  match c with
  | inl c => forall old, c = IfVersion (version old) -> replaceable same sv key e f old
  | inr o => ~ stored_outcome o
  end.
Proof.
  intros Hf He. unfold refresh_condition, looked_at, replaceable, stored_outcome, adds_none. destruct same.
  { intros [= <- <-]. split_and!; [done|done|]. congruence. }
  destruct (lookup_at _ _ _ _ _ _) as [res f1] eqn:Hl.
  apply lookup_coherent in Hl as (Hf1 & Hn & Hr); [|by apply He].
  destruct res as [[| |rec|rec p|rec|]|]; intros [= <- <-]; split_and!;
    try done; try by intros [].
  - by apply drop_permit_coherent.
  - intros k rec'. rewrite drop_permit_store. apply Hn.
  - intros old [= Ho]. destruct (Hr rec) as [H1 H2]; [right; left; by eexists|].
    exists rec. split_and!; [done|done|]. by apply H2.
  - intros old [= Ho]. destruct (Hr rec) as [H1 H2]; [by right; right|].
    exists rec. split_and!; [done|done|]. by apply H2.
Qed.

(** C36: An optimistic refresh keeps the cache coherent and never loses a newer
    entry. If the request has no key under the policy it starts with, nothing
    happens. Otherwise the cache it found loses at most evicted records, and either
    nothing else happens and the outcome says so, or the task writes at most one
    record to the cache as other tasks have left it: the response its own exchange
    with the request's upstream gave, to the request's question, under a key that
    is still the request's, with the same semantics, under the policy in force at
    the write. The record takes a free slot or the place of one exact version: of
    the stale answer, if the task runs against the store and key it came from, and
    else of a record its lookup saw there and that had expired. *)
Theorem refresh_task_sound (f : F) rt r same_store stale_key stale_version e o f' :
  request_ok r -> coherent f -> task_env_ok e ->
  refresh_task sha256 f rt r same_store stale_key stale_version e = (o, f') ->
  coherent f' /\
  match prepare_cache_query sha256 (te_policy e) rt r with
  | None => o = ASkipped /\ f' = f
  | Some p =>
    let same := same_store && bool_decide (pcq_key p = stale_key) in
    let f1 := (refresh_condition f same stale_version (pcq_key p) (cx_deadline (dq_ctx r)) (te_lookup e)).2 in
    let before := te_before_write e f1 in
    adds_none (looked_at same (te_lookup e) f) f1 /\
    ((f' = f1 /\ ~ stored_outcome o) \/
     adds before f' (fun k rec => stored_outcome o /\ k = pcq_key p /\
       in_force (te_policy_after e) rt r p /\
       (exists x, exchange rt (te_network e) (pcq_upstream p) (pcq_query p) None = Some x /\
          xr_outcome x = UO_Response (response (entry rec))) /\
       matches_query (response (entry rec)) (dq_query r) = true /\
       replaces before (te_write_t e).2 k (replaceable same stale_version k (te_lookup e) f)))
  end.
Proof.
  intros Q Hf E. unfold refresh_task.
  destruct (prepare_cache_query sha256 (te_policy e) rt r) as [p|] eqn:Hp; [|by intros [= <- <-]].
  apply prepared_keyed in Hp as [K Hq]; [|done]. cbv zeta.
  set (same := same_store && bool_decide (pcq_key p = stale_key)).
  destruct (refresh_condition f same _ _ _ _) as [c f1] eqn:Hc. cbn [snd].
  apply refresh_condition_spec in Hc as (Hf1 & Hn & Hv); [|done|apply E].
  destruct c as [c|o']; [|intros [= <- <-]; split_and!; [done|done|by left]].
  assert (Hidle : forall o', ~ stored_outcome o' -> (o', f1) = (o, f') -> coherent f' /\
    adds_none (looked_at same (te_lookup e) f) f1 /\ f' = f1 /\ ~ stored_outcome o)
    by (intros o' Ho [= <- <-]; done).
  assert (Hi : ~ stored_outcome AFailed /\ ~ stored_outcome ARejected /\ ~ stored_outcome ASkipped)
    by (split_and!; by intros []).
  destruct (exchange _ _ _ _ _) as [[[resp|fl|reason] target used]|] eqn:Hx;
    try (intros H; destruct (Hidle AFailed) as (? & ? & ?); [apply Hi|done|]; split_and!; by try left).
  destruct (matches_query resp (pcq_query p)) eqn:Hm; cbn [negb].
  2: { intros H. destruct (Hidle ARejected) as (? & ? & ?); [apply Hi|done|]. split_and!; by try left. }
  destruct (still_current _ _ _ _ _) eqn:Hs; cbn [negb].
  2: { intros H. destruct (Hidle ASkipped) as (? & ? & ?); [apply Hi|done|]. split_and!; by try left. }
  apply still_current_prepared in Hs.
  assert (Ha : matches_query resp (dq_query r) = true) by (unfold matches_query in *; by rewrite <-Hq).
  destruct (write_response _ _ _ _) as [w f2] eqn:Hw. intros [= <- <-].
  apply (to_write _ E) in Hf1. split_and!; [|done|right].
  { eapply write_coherent; [exact Hf1| |exact Hw]. by exists r. }
  intros k rec Hst.
  eapply write_replaces in Hst as [?|(Hso & -> & Hr & Hrep)]; [by left|right|exact Hf1|exact Hw].
  cbn [req_key req_response req_condition] in *. split_and!; [done|done|done| |by rewrite Hr|].
  - eexists. split; [done|]. by rewrite Hr.
  - intros old Hold. by apply Hv, Hrep.
Qed.

(** A late response is an improvement on the record: better, or past its lifetime. *)
Definition improves (rec : CacheRecord) (response : CanonicalResponse) (now : Instant) : Prop :=
  quality_rank (quality (entry rec)) < quality_rank (quality_of_class (resp_class response)) \/
  expires_at (entry rec) <= now.

Lemma late_condition_spec (f : F) key deadline resp e c f' :
  coherent f -> (forall g, coherent g -> coherent (le_others e g)) ->
  late_condition f key deadline resp e = (c, f') ->
  coherent f' /\ adds_none (le_others e f) f' /\
  forall v, c = Some (IfVersion v) -> exists rec, version rec = v /\
    held e f key rec /\ improves rec resp (le_now e).
Proof.
  intros Hf He. unfold late_condition. destruct (lookup_at _ _ _ _ _ _) as [res f1] eqn:Hl.
  apply lookup_coherent in Hl as (Hf1 & Hn & Hr); [|by apply He].
  assert (Hb : forall rec v, (if quality_rank (quality (entry rec)) <?
      quality_rank (late_response_preference (resp_class resp)) then Some (IfVersion (version rec))
      else None) = Some (IfVersion v) -> version rec = v /\ improves rec resp (le_now e)).
  { intros rec v. destruct (Z.ltb_spec (quality_rank (quality (entry rec)))
      (quality_rank (late_response_preference (resp_class resp)))); [|done].
    intros [= <-]. split; [done|left]. by destruct (resp_class resp). }
  destruct res as [[| |rec|rec p|rec|]|]; intros [= <- <-].
  all: split; [try done; by apply drop_permit_coherent|].
  all: split; [try done; intros k rec'; rewrite drop_permit_store; by apply Hn|].
  all: intros v Hv; try done.
  - apply Hb in Hv as [<- ?]. exists rec. split_and!; [done| |done]. apply Hr. by left.
  - apply Hb in Hv as [<- ?]. exists rec. split_and!; [done| |done]. apply Hr. right. left. by eexists.
  - injection Hv as <-. destruct (Hr rec) as [H1 H2]; [by right; right|].
    exists rec. split_and!; [done|done|]. right. by apply H2.
Qed.

(** A late response keeps the cache coherent and never makes it worse. Either it
    only looked, or it writes at most one record to the cache as other tasks have
    left it: that response, under the key the request had when it was sent and still
    has under the policy in force at the write, in a free slot or in place of the
    very version of a record that was of lower quality or already expired. *)
Theorem late_submit_sound (f : F) rt revision s query connector outcome e o f' :
  request_ok (ls_request s) -> coherent f -> task_env_ok e ->
  query_question query = query_question (dq_query (ls_request s)) ->
  late_submit sha256 f rt revision s query connector outcome e = (o, f') ->
  coherent f' /\
  ((o = None /\ (f' = f \/ adds_none (le_others (te_lookup e) f) f')) \/
   exists p resp, prepare_cache_query sha256 (te_policy e) rt (ls_request s) = Some p /\
     outcome = UO_Response resp /\
     let f1 := (late_condition f (pcq_key p) (ls_deadline s) resp (te_lookup e)).2 in
     let before := te_before_write e f1 in
     adds_none (le_others (te_lookup e) f) f1 /\
     adds before f' (fun k rec => k = ls_key s /\ in_force (te_policy_after e) rt (ls_request s) p /\
       response (entry rec) = resp /\ matches_query resp (dq_query (ls_request s)) = true /\
       replaces before (te_write_t e).2 k (fun old => exists seen, version seen = version old /\
         held (te_lookup e) f k seen /\ improves seen resp (le_now (te_lookup e))))).
Proof.
  intros Q Hf E Hqq. unfold late_submit.
  destruct outcome as [resp|fl|reason]; [|intros [= <- <-]; split; [done|left; auto]..].
  destruct (matches_query resp query) eqn:Hm; cbn [negb]; [|intros [= <- <-]; split; [done|left; auto]].
  destruct (prepare_cache_query sha256 (te_policy e) rt (ls_request s)) as [p|] eqn:Hp;
    [|intros [= <- <-]; split; [done|left; auto]].
  pose proof Hp as Hpk. apply prepared_keyed in Hpk as [K Hq]; [|done].
  destruct (_ || _) eqn:Hg; [intros [= <- <-]; split; [done|left; auto]|].
  apply orb_false_iff in Hg as [[_ Hkey%negb_false_iff%bool_decide_eq_true]%orb_false_iff _].
  destruct (late_condition _ _ _ _ _) as [c f1] eqn:Hc. pose proof Hc as Hc1.
  apply late_condition_spec in Hc as (Hf1 & Hn & Hv); [|done|apply E].
  destruct c as [c|]; [|intros [= <- <-]; split; [done|left; auto]].
  destruct (still_current _ _ _ _ _) eqn:Hs; cbn [negb]; [|intros [= <- <-]; split; [done|left; auto]].
  apply still_current_prepared in Hs.
  assert (Ha : matches_query resp (dq_query (ls_request s)) = true)
    by (unfold matches_query in *; by rewrite <-Hqq).
  destruct (write_response _ _ _ _) as [w f2] eqn:Hw. intros [= <- <-].
  apply (to_write _ E) in Hf1. split.
  { eapply write_coherent; [exact Hf1| |exact Hw]. by exists (ls_request s). }
  right. exists p, resp. rewrite Hc1. split_and!; [done|done|done|]. intros k rec Hst.
  eapply write_replaces in Hst as [?|(_ & -> & Hr & Hrep)]; [by left|right|exact Hf1|exact Hw].
  cbn [req_key req_response req_condition] in *. split_and!; [done|done|done|done|].
  intros old Hold. apply Hv. by rewrite <-(Hrep _ Hold).
Qed.

End BackgroundSpec.

(** ** A refresh and a late response *)

Section BackgroundWitness.
Import EcsSample ResolveSample.

Definition task_env : TaskEnv :=
  mk_task_env state (quiet (from_secs 310)) network state id (from_secs 310)
    (from_secs 310, from_secs 310).
Lemma task_env_quiet : task_env_ok task_env.
Proof. by split. Qed.

Definition refreshing : DnsRequest := refresh_request (request_from client) (from_secs 310) 2.
Lemma refreshing_ok : request_ok refreshing.
Proof. destruct client_request_ok. by split. Qed.

(** The stale record of version 1 is replaced. *)
Lemma refresh_task_sound_witness : exists f',
  refresh_task sha committed runtime refreshing true the_key 1 task_env = (AUpdated, f') /\
  coherent f' /\ adds committed f' (fun k rec => k = the_key /\ matches_query (response (entry rec)) query = true).
Proof.
  destruct (refresh_task sha committed runtime refreshing true the_key 1 task_env) as [o f'] eqn:E.
  destruct (refresh_task_sound sha sha_length committed runtime refreshing true the_key 1 task_env o f'
    refreshing_ok committed_coherent task_env_quiet E) as [Hc Hw].
  assert (K : (refresh_task sha committed runtime refreshing true the_key 1 task_env).1 = AUpdated)
    by (vm_compute; reflexivity).
  rewrite E in K. cbn [fst] in K. subst o. exists f'. split; [reflexivity|]. split; [exact Hc|].
  assert (Kp : match prepare_cache_query sha state runtime refreshing with
    | Some p => bool_decide (pcq_key p = the_key) | None => false end = true) by (vm_compute; reflexivity).
  change (te_policy task_env) with state in Hw.
  destruct (prepare_cache_query sha state runtime refreshing) as [p|]; [|discriminate Kp].
  rewrite Kp in Hw. cbv zeta in Hw. destruct Hw as [_ [[_ Hn]|Hw]]; [exfalso; apply Hn; by right|].
  intros k rec Hk. destruct (Hw k rec Hk) as [H|(_ & -> & _ & _ & Hm & _)]; [left; exact H|right].
  split; [exact (bool_decide_eq_true_1 _ Kp)|exact Hm].
Defined.

(** A late answer after the record was evicted. *)
Definition sink : PolicyLateResultSink :=
  late_result_sink sha state runtime (request_from client) the_key "cf" (from_secs 310).
Definition sent : CanonicalQuery :=
  match prepared client with Some p => pcq_query p | None => query end.
Lemma late_submit_sound_witness : exists o f',
  late_submit sha empty_facade runtime 2 sink sent (mk_connector "cf") (UO_Response answer) task_env =
    (Some o, f') /\ o = AInserted /\ coherent f'.
Proof.
  destruct (late_submit sha empty_facade runtime 2 sink sent (mk_connector "cf") (UO_Response answer)
    task_env) as [o f'] eqn:E.
  destruct (late_submit_sound sha sha_length empty_facade runtime 2 sink sent (mk_connector "cf")
    (UO_Response answer) task_env o f') as [Hc _].
  - exact client_request_ok.
  - exact empty_coherent.
  - exact task_env_quiet.
  - unfold sent. destruct (prepared client) as [p|] eqn:Ep; [|reflexivity].
    exact (proj2 (prepared_keyed sha sha_length _ _ _ _ client_request_ok Ep)).
  - exact E.
  - assert (K : (late_submit sha empty_facade runtime 2 sink sent (mk_connector "cf")
      (UO_Response answer) task_env).1 = Some AInserted) by (vm_compute; reflexivity).
    rewrite E in K. cbn in K. subst o. exists AInserted, f'. split; [reflexivity|].
    split; [reflexivity|exact Hc].
Defined.

End BackgroundWitness.
