(* ===== verification/CoreBuild.v ===== *)
(** * Options of the shared cache (src/backend/src/dns/policy.rs)

    All pools share one store. [cache_runtime_options] gives the facade the widest
    optimistic windows of all enabled pools; at lookup time the pool of the request
    narrows them again. *)

From S2P Require Import Prelude Text Net Message CacheModel CacheAdmission CacheStore.
From S2P Require Import CacheFacade Client Hosts Regex Rules Group Outcome Executor Plan.
From S2P Require Import Upstreams QueryKey Resolve ResolveSpec.

Section CoreBuild.
Context {HH : Hickory} {IN : IpNetOps} {HN : HickoryName}.

(** [global_optimistic]. *)
Definition global_optimistic (g : ResolvedGlobalCache) : option ResolvedOptimistic :=
  if gc_enabled g && op_enabled (gc_optimistic g) then Some (gc_optimistic g) else None.

Definition widen (current : option Duration) (d : Duration) : option Duration :=
  Some match current with Some c => Z.max c d | None => d end.

(** The accumulators of the loop: [enabled] and the two windows. *)
Record PoolSummary := mk_summary {
  sm_enabled : bool;
  sm_max_age : option Duration;
  sm_negative_max_age : option Duration
}.

(** One iteration, for an enabled override. *)
Definition add_pool (s : PoolSummary) (cache : ResolvedCacheOverride) : PoolSummary :=
  match co_optimistic cache with
  | Some o =>
    if op_enabled o then
      mk_summary true (widen (sm_max_age s) (op_max_age o))
        (widen (sm_negative_max_age s) (op_negative_max_age o))
    else mk_summary true (sm_max_age s) (sm_negative_max_age s)
  | None => mk_summary true (sm_max_age s) (sm_negative_max_age s)
  end.

Definition cache_overrides (strategies : list ResolvedStrategy) (clients : list ResolvedClient) :
    list ResolvedCacheOverride :=
  filter (fun c => co_enabled c = true) (omap st_cache strategies ++ omap rc_cache clients).

Definition cache_runtime_options (global : ResolvedGlobalCache) (failure negative_max : Duration)
    (strategies : list ResolvedStrategy) (clients : list ResolvedClient) : CacheFacadeOptions :=
  let o := global_optimistic global in
  let s := foldl add_pool (mk_summary (gc_enabled global) (op_max_age <$> o)
             (op_negative_max_age <$> o)) (cache_overrides strategies clients) in
  mk_options (sm_enabled s) (bool_decide (is_Some (sm_max_age s)))
    (with_negative (CacheAdmissionPolicy_new failure (sm_max_age s)) (Some negative_max)
       (sm_negative_max_age s)).

(** ** Every pool is covered *)

(** The summary is at least as wide as the pool. *)
Definition covers (s : PoolSummary) (o : option ResolvedOptimistic) : Prop :=
  sm_enabled s = true /\
  forall v, o = Some v -> op_enabled v = true ->
    exists w n, sm_max_age s = Some w /\ op_max_age v <= w /\
      sm_negative_max_age s = Some n /\ op_negative_max_age v <= n.

Lemma widen_le c d : exists w, widen c d = Some w /\ d <= w /\ forall x, c = Some x -> x <= w.
Proof.
  destruct c as [c|]; cbn; eexists; (split; [done|]).
  - split; [lia|]. intros x [= ->]. lia.
  - split; [lia|]. done.
Qed.

Lemma add_pool_covers s cache o : covers s o -> covers (add_pool s cache) o.
Proof.
  intros [He Hc]. unfold add_pool. destruct (co_optimistic cache) as [x|]; [|by split].
  destruct (op_enabled x); [|by split]. split; [done|]. intros v Hv Hen. cbn.
  destruct (Hc v Hv Hen) as (w & n & Hw & Hlw & Hn & Hln).
  destruct (widen_le (sm_max_age s) (op_max_age x)) as (w' & -> & _ & H1).
  destruct (widen_le (sm_negative_max_age s) (op_negative_max_age x)) as (n' & -> & _ & H2).
  exists w', n'. split_and!; try done; [by specialize (H1 _ Hw); lia|by specialize (H2 _ Hn); lia].
Qed.

Lemma add_pool_own s cache : covers (add_pool s cache) (co_optimistic cache).
Proof.
  unfold add_pool. destruct (co_optimistic cache) as [x|]; [|by split].
  destruct (op_enabled x) eqn:Hx; split; try done; cbn; [|by intros ? [= <-] ?; congruence].
  intros v [= <-] _. destruct (widen_le (sm_max_age s) (op_max_age x)) as (w' & -> & ? & _).
  destruct (widen_le (sm_negative_max_age s) (op_negative_max_age x)) as (n' & -> & ? & _).
  by exists w', n'.
Qed.

Lemma fold_covers s l o : covers s o -> covers (foldl add_pool s l) o.
Proof. revert s. induction l as [|c l IH]; cbn; intros s H; [done|]. by apply IH, add_pool_covers. Qed.

Lemma fold_own s l cache : cache ∈ l -> covers (foldl add_pool s l) (co_optimistic cache).
Proof.
  intros (l1 & l2 & ->)%list_elem_of_split. rewrite foldl_app. cbn. apply fold_covers, add_pool_own.
Qed.

(** The setting behind a pool: an override of the configuration or the global one. *)
Lemma select_cache_covered strategies clients p global client s digest d :
  pi_global_cache p = global ->
  (forall c, client = Some c -> c ∈ clients) -> s ∈ strategies ->
  select_cache p client s digest = Ok d -> d <> CacheDisabled ->
  exists ns o, d = pool ns o /\
    covers (foldl add_pool (mk_summary (gc_enabled global) (op_max_age <$> global_optimistic global)
      (op_negative_max_age <$> global_optimistic global)) (cache_overrides strategies clients)) o.
Proof.
  intros Hg Hc Hs. unfold select_cache.
  destruct (client ≫= rc_cache) as [cache|] eqn:Ec; [|destruct (st_cache s) as [cache|] eqn:Es].
  - destruct (co_enabled cache) eqn:He; [|by intros [= <-]]. destruct digest; [|by intros [= <-]].
    cbn. intros (ns & _ & [= <-])%bind_ok _. eexists _, _. split; [done|]. apply fold_own.
    apply bind_Some in Ec as (x & -> & Hr). apply list_elem_of_filter. split; [done|].
    apply elem_of_app. right. apply list_elem_of_omap. exists x. split; [by apply Hc|done].
  - destruct (co_enabled cache) eqn:He; [|by intros [= <-]].
    cbn. intros (ns & _ & [= <-])%bind_ok _. eexists _, _. split; [done|]. apply fold_own.
    apply list_elem_of_filter. split; [done|]. apply elem_of_app. left. apply list_elem_of_omap. by exists s.
  - rewrite Hg. destruct (gc_enabled global) eqn:He; [|by intros [= <-]]. intros [= <-] _.
    eexists _, _. split; [done|]. apply fold_covers. split; [done|]. intros v [= <-] Hen.
    unfold global_optimistic. rewrite He, Hen. cbn. eexists _, _. split_and!; done || lia.
Qed.

Lemma policy_global_cache listeners strategies clients upstreams global hosts rule_sets p :
  policy_from_indexes listeners strategies clients upstreams global hosts rule_sets = Ok p ->
  pi_global_cache p = global.
Proof.
  unfold policy_from_indexes, build_with_resources, map_err. intros Hp. inv_ok. destruct a.
  destruct (RouteIndex_build listeners strategies); [|done]. cbn in Hp. inv_ok.
  destruct (build _); [|done]. cbn in Hp. inv_ok. by subst p.
Qed.

(** The pool of a request is covered. *)
Lemma context_covered sha256 listeners strategies clients upstreams global hosts rule_sets p r c :
  policy_from_indexes listeners strategies clients upstreams global hosts rule_sets = Ok p ->
  prepare_context sha256 p r = Ok c -> pc_cache c <> CacheDisabled ->
  exists ns o, pc_cache c = pool ns o /\
    covers (foldl add_pool (mk_summary (gc_enabled global) (op_max_age <$> global_optimistic global)
      (op_negative_max_age <$> global_optimistic global)) (cache_overrides strategies clients)) o.
Proof.
  intros Hp Hc Hdis. destruct (policy_from_indexes_inv _ _ _ _ _ _ _ _ Hp) as (Hpv & _).
  destruct (prepare_context_ok _ _ _ _ Hc) as (sel & _ & _ & _ & _ & Hcc & _ & Hd).
  eapply select_cache_covered; [by eapply policy_global_cache| | |exact Hd|done].
  - rewrite Hcc. unfold client_config_of. destruct (pc_client c); [|done].
    intros x Hx. by apply (pv_clients _ _ _ _ Hpv) in Hx as [? _].
  - pose proof (context_strategy _ _ _ _ _ _ _ Hpv Hc) as Hk.
    by apply (rv_keyed _ _ _ (pv_routes _ _ _ _ Hpv)) in Hk as [_ ?].
Qed.

(** The shared cache never cuts a pool's optimistic window short. Under the
    options computed from the configuration the cache is enabled for every pool a
    request can be given, and an entry admitted with them is still offered as a
    stale answer for as long as the pool's own window says, provided the configured
    windows do not overflow the clock. *)
Theorem pool_window_honoured sha256 listeners strategies clients upstreams global failure negative_max
    hosts rule_sets p r c resp up now rev e t ttl :
  policy_from_indexes listeners strategies clients upstreams global hosts rule_sets = Ok p ->
  prepare_context sha256 p r = Ok c ->
  let options := cache_runtime_options global failure negative_max strategies clients in
  admit_response (admission options) resp up now rev = Ok (Accepted e) ->
  (forall w, CacheAdmission.stale_window (admission options) (quality e) = Some w ->
     expires_at e + w <= instant_max) ->
  (forall w, pool_window (pc_cache c) (quality e) = Some w -> 0 <= w) ->
  stale_answer_ttl (pc_cache c) e t = Some ttl ->
  enabled options = true /\ optimistic_enabled options = true /\
  exists u, stale_until e = Some u /\ t < u.
Proof.
  intros Hp Hc options Hadm Hfit Hnn Ht.
  apply stale_answer_ttl_some in Ht as (Hot & w & Hw & Hz & Hlt).
  assert (Hdis : pc_cache c <> CacheDisabled) by (intros E; by rewrite E in Hot).
  destruct (context_covered _ _ _ _ _ _ _ _ _ _ _ Hp Hc Hdis) as (ns & o & Hpool & Hen & Hcov).
  rewrite Hpool in Hot, Hw, Hnn. unfold pool in Hot, Hw, Hnn. cbn in Hot.
  destruct o as [v|]; [|done]. destruct (op_enabled v) eqn:Hv; [|done].
  destruct (Hcov v eq_refl Hv) as (wm & wn & Hm & Hlm & Hn & Hln).
  split; [exact Hen|]. split; [cbn; by rewrite Hm, bool_decide_eq_true_2|].
  destruct (admit_accepted _ _ _ _ _ _ Hadm) as (life & _ & _ & _ & Hsu & _).
  assert (exists W, CacheAdmission.stale_window (admission options) (quality e) = Some W /\ w <= W /\ 0 < W)
    as (W & HW & HwW & HW0).
  { unfold CacheAdmission.stale_window, pool_window in *. cbn in Hw |- *. rewrite Hm, Hn.
    specialize (Hnn w). destruct (quality e); cbn in Hw, Hnn; [done|..]; injection Hw as <-;
      specialize (Hnn eq_refl); eexists; (split; [done|]); lia. }
  rewrite HW in Hsu. unfold CacheAdmission.non_zero, is_zero in Hsu.
  rewrite (proj2 (Z.eqb_neq W 0)) in Hsu by lia. cbn in Hsu.
  unfold instant_checked_add in Hsu. rewrite (proj2 (Z.leb_le _ _) (Hfit W HW)) in Hsu.
  exists (expires_at e + W). split; [done|lia].
Qed.

End CoreBuild.

(** ** A strategy with a wider window than the global pool *)

Section CoreBuildWitness.
Import EcsSample ResolveSample.

Definition wide : ResolvedOptimistic := mk_optimistic true (from_secs 5) (from_secs 3600) (from_secs 60).
Definition wide_strategies : list ResolvedStrategy :=
  [mk_strategy "home" [] "cf" (Some (mk_cache_override true (Some wide) VS_Strategy)) plan_ttl ecs].
Definition no_global : ResolvedGlobalCache := mk_global_cache false plan_optimistic.
Definition wide_options : CacheFacadeOptions :=
  cache_runtime_options no_global (from_secs 5) (from_secs 30) wide_strategies [].
Definition wide_request : PolicyRequest :=
  policy_request (request_from client) (mk_domain (lit "ex")).

Definition wide_build : result PolicyBuildError PolicyIndex :=
  policy_from_indexes listeners wide_strategies [] [UpstreamDoh "cf" None] no_global ∅ ∅.
Definition wide_cache : option CacheDecision :=
  match wide_build with
  | Ok p => match prepare_context sha p wide_request with Ok c => Some (pc_cache c) | Err _ => None end
  | Err _ => None
  end.
Definition wide_entry : option CacheEntry :=
  match admit_response (admission wide_options) answer sample_upstream 0 1 with
  | Ok (Accepted e) => Some e
  | _ => None
  end.

Lemma pool_window_honoured_witness :
  enabled wide_options = true /\ optimistic_enabled wide_options = true.
Proof.
  assert (Hd : wide_cache = Some (pool (NsStrategy (mk_strategy_id "home")) (Some wide)))
    by (vm_compute; reflexivity).
  assert (Hx : (fun e => (quality e, expires_at e)) <$> wide_entry = Some (Q_Complete, from_secs 300))
    by (vm_compute; reflexivity).
  unfold wide_cache in Hd. unfold wide_entry in Hx.
  destruct wide_build as [p|] eqn:Hp; [|discriminate Hd].
  destruct (prepare_context sha p wide_request) as [c|] eqn:Hc; [|discriminate Hd].
  destruct (admit_response (admission wide_options) answer sample_upstream 0 1) as [[e|]|] eqn:He;
    [|discriminate Hx..].
  injection Hd as Hd. injection Hx as Hq Hx.
  destruct (pool_window_honoured sha listeners wide_strategies [] [UpstreamDoh "cf" None] no_global
    (from_secs 5) (from_secs 30) ∅ ∅ p wide_request c answer sample_upstream 0 1 e (from_secs 310)
    (from_secs 5)) as (H1 & H2 & _).
  - exact Hp.
  - exact Hc.
  - exact He.
  - intros w. rewrite Hq, Hx. intros Hw.
    assert (E : CacheAdmission.stale_window (admission wide_options) Q_Complete = Some (from_secs 3600))
      by (vm_compute; reflexivity).
    unfold wide_options in E. rewrite Hw in E. injection E as ->.
    apply Z.leb_le. vm_compute. reflexivity.
  - intros w. rewrite Hd, Hq. intros [= <-]. apply Z.leb_le. vm_compute. reflexivity.
  - unfold stale_answer_ttl. rewrite Hd, Hq, Hx. vm_compute. reflexivity.
  - split; [exact H1|exact H2].
Defined.

End CoreBuildWitness.
