(* ===== verification/Stats.v ===== *)
(** * Aggregated request statistics (src/backend/src/ports/storage.rs,
    ports/telemetry.rs, ports/observation.rs, storage/statistics.rs, storage/ledger.rs)

    The dimensions and events of the statistics, the sharded in-memory accumulator
    with its epochs, and the ledger of batches that wait to be persisted. The locks of
    the accumulator are atomic sections: an event is put into a shard of the active
    epoch, and an epoch is swapped, in one step each; allocating a sequence number
    is a step of its own. The shard of an event and the fingerprint of a batch come
    from the standard library's default hasher, whose algorithm is unspecified and
    therefore a parameter. *)

From stdpp Require Import pretty.
From S2P Require Import Prelude Message CacheModel.

(** ** Dimensions *)

Inductive TransportClass := Datagram | Stream | Multiplexed.
Inductive OutcomeClass :=
| OC_Success | OC_Failure | OC_Timeout | OC_Cancelled | OC_Rejected | OC_Dropped.
Inductive ConfiguredIdKind := CK_ClientBucket | CK_Strategy | CK_Upstream | CK_Listener | CK_Route.
Inductive StatsDimensionKind :=
| DK_ClientBucket | DK_Transport | DK_Strategy | DK_Source | DK_Upstream | DK_Rcode
| DK_CacheStatus | DK_AttemptOutcome.

#[global] Instance TransportClass_eq_dec : EqDecision TransportClass.
Proof. solve_decision. Defined.
#[global] Instance OutcomeClass_eq_dec : EqDecision OutcomeClass.
Proof. solve_decision. Defined.
#[global] Instance ConfiguredIdKind_eq_dec : EqDecision ConfiguredIdKind.
Proof. solve_decision. Defined.
#[global] Instance StatsDimensionKind_eq_dec : EqDecision StatsDimensionKind.
Proof. solve_decision. Defined.

Record ConfiguredId := mk_configured_id { cid_kind : ConfiguredIdKind; cid_value : string }.
#[global] Instance ConfiguredId_eq_dec : EqDecision ConfiguredId.
Proof. solve_decision. Defined.

Inductive StatsDimensionValue :=
| DV_ConfiguredId (id : ConfiguredId)
| DV_Transport (t : TransportClass)
| DV_Source (s : StatsSource)
| DV_Rcode (code : Z)
| DV_CacheStatus (s : CacheStatus)
| DV_AttemptOutcome (o : OutcomeClass).
#[global] Instance StatsDimensionValue_eq_dec : EqDecision StatsDimensionValue.
Proof. solve_decision. Defined.

Record StatsDimension := mk_dimension { sd_kind : StatsDimensionKind; sd_value : StatsDimensionValue }.
#[global] Instance StatsDimension_eq_dec : EqDecision StatsDimension.
Proof. solve_decision. Defined.

Inductive StatsEventError :=
| InvalidDimension | ConfiguredIdKindMismatch | DuplicateDimension | TooManyDimensions.

(** [validate_bounded_identifier], [configured_id_from_validated] *)
Definition validate_bounded_identifier (value : string) : bool :=
  negb ((str_len value =? 0) || (128 <? str_len value)) &&
  forallb (fun b => is_ascii_alphanumeric b || is_id_punct b) (str_bytes value).

Definition configured_id_from_validated (kind : ConfiguredIdKind) (value : string) : option ConfiguredId :=
  if validate_bounded_identifier value then Some (mk_configured_id kind value) else None.

Definition configured_id_kind_matches (d : StatsDimensionKind) (c : ConfiguredIdKind) : bool :=
  match d, c with
  | DK_ClientBucket, CK_ClientBucket | DK_Strategy, CK_Strategy | DK_Upstream, CK_Upstream => true
  | _, _ => false
  end.

(** The constructors of [StatsDimension]. *)
Definition dim_transport (t : TransportClass) := mk_dimension DK_Transport (DV_Transport t).
Definition dim_source (s : StatsSource) := mk_dimension DK_Source (DV_Source s).
Definition dim_rcode (c : Z) := mk_dimension DK_Rcode (DV_Rcode c).
Definition dim_cache_status (s : CacheStatus) := mk_dimension DK_CacheStatus (DV_CacheStatus s).
Definition dim_attempt_outcome (o : OutcomeClass) :=
  mk_dimension DK_AttemptOutcome (DV_AttemptOutcome o).
Definition dim_configured (kind : StatsDimensionKind) (id : ConfiguredId) :
    result StatsEventError StatsDimension :=
  if negb (configured_id_kind_matches kind (cid_kind id)) then Err ConfiguredIdKindMismatch
  else Ok (mk_dimension kind (DV_ConfiguredId id)).
Definition dim_client_bucket := dim_configured DK_ClientBucket.
Definition dim_strategy := dim_configured DK_Strategy.
Definition dim_upstream := dim_configured DK_Upstream.

(** [StatsDimensionKind::index] *)
Definition kind_index (k : StatsDimensionKind) : Z :=
  match k with
  | DK_ClientBucket => 0 | DK_Transport => 1 | DK_Strategy => 2 | DK_Source => 3
  | DK_Upstream => 4 | DK_Rcode => 5 | DK_CacheStatus => 6 | DK_AttemptOutcome => 7
  end.

(** [StatsDimension::validate] *)
Definition dim_validate (d : StatsDimension) : result StatsEventError unit :=
  match sd_value d with
  | DV_ConfiguredId id =>
      if configured_id_kind_matches (sd_kind d) (cid_kind id) then Ok tt else Err ConfiguredIdKindMismatch
  | DV_Transport _ => if bool_decide (sd_kind d = DK_Transport) then Ok tt else Err InvalidDimension
  | DV_Source _ => if bool_decide (sd_kind d = DK_Source) then Ok tt else Err InvalidDimension
  | DV_Rcode _ => if bool_decide (sd_kind d = DK_Rcode) then Ok tt else Err InvalidDimension
  | DV_CacheStatus _ => if bool_decide (sd_kind d = DK_CacheStatus) then Ok tt else Err InvalidDimension
  | DV_AttemptOutcome _ =>
      if bool_decide (sd_kind d = DK_AttemptOutcome) then Ok tt else Err InvalidDimension
  end.

(** [StatsDimension::database_parts]: the columns a dimension is stored under. *)
Definition kind_column (k : StatsDimensionKind) : string :=
  match k with
  | DK_ClientBucket => "client_bucket" | DK_Transport => "transport" | DK_Strategy => "strategy"
  | DK_Source => "source" | DK_Upstream => "upstream" | DK_Rcode => "rcode"
  | DK_CacheStatus => "cache_status" | DK_AttemptOutcome => "attempt_outcome"
  end.

Definition value_column (v : StatsDimensionValue) : string :=
  match v with
  | DV_ConfiguredId id => cid_value id
  | DV_Transport t =>
      match t with Datagram => "datagram" | Stream => "stream" | Multiplexed => "multiplexed" end
  | DV_Source s =>
      match s with
      | SrcCache => "cache" | SrcHosts => "hosts" | SrcRuleSet => "rule_set" | SrcUpstream => "upstream"
      end
  | DV_Rcode c => pretty c
  | DV_CacheStatus s =>
      match s with
      | CS_Disabled => "disabled" | CS_Miss => "miss" | CS_Fresh => "fresh" | CS_Stale => "stale"
      | CS_Expired => "expired" | CS_StoreUnavailable => "store_unavailable"
      | CS_WriteRejected => "write_rejected"
      end
  | DV_AttemptOutcome o =>
      match o with
      | OC_Success => "success" | OC_Failure => "failure" | OC_Timeout => "timeout"
      | OC_Cancelled => "cancelled" | OC_Rejected => "rejected" | OC_Dropped => "dropped"
      end
  end.

Definition database_parts (d : StatsDimension) : string * string :=
  (kind_column (sd_kind d), value_column (sd_value d)).

(** ** Events *)

Record StatsEvent := mk_event {
  ev_sequence : Z;
  ev_day : Z;
  ev_dimensions : list StatsDimension
}.
#[global] Instance StatsEvent_eq_dec : EqDecision StatsEvent.
Proof. solve_decision. Defined.

Definition MAX_STATS_DIMENSIONS : Z := 8.

(** The loop over the dimensions of [StatsEvent::new]; [seen] holds the indexes set
    in the array of flags. *)
Fixpoint check_dimensions (seen : list Z) (ds : list StatsDimension) : result StatsEventError unit :=
  match ds with
  | [] => Ok tt
  | d :: ds' =>
    _ ← dim_validate d;
    if bool_decide (kind_index (sd_kind d) ∈ seen) then Err DuplicateDimension
    else check_dimensions (kind_index (sd_kind d) :: seen) ds'
  end.

Definition StatsEvent_new (sequence day : Z) (dimensions : list StatsDimension) :
    result StatsEventError StatsEvent :=
  if MAX_STATS_DIMENSIONS <? Z.of_nat (length dimensions) then Err TooManyDimensions
  else
    _ ← check_dimensions [] dimensions;
    Ok (mk_event sequence day dimensions).

Record StatsBatch := mk_batch {
  sb_id : Z;
  sb_max_sequence : Z;
  sb_epoch : Z;
  sb_events : list StatsEvent
}.
#[global] Instance StatsBatch_eq_dec : EqDecision StatsBatch.
Proof. solve_decision. Defined.

(** ** Accumulator (storage/statistics.rs) *)

Definition SECONDS_PER_DAY : Z := 86400.
Definition DEFAULT_SHARD_COUNT : Z := 16.

Inductive StatsAccumulatorError :=
| InvalidEvent (e : StatsEventError) | InvalidShardCount | CounterOverflow | SequenceExhausted
| DayOutOfRange
(** An index out of the range of the shards, where the program would panic. *)
| ShardPanic.

(** A [SystemTime] is its distance from the Unix epoch in nanoseconds. *)
Definition day_utc (occurred_at : Z) : result StatsAccumulatorError Z :=
  let day :=
    if 0 <=? occurred_at then as_secs occurred_at / SECONDS_PER_DAY
    else - ((as_secs (- occurred_at) + SECONDS_PER_DAY - 1) / SECONDS_PER_DAY) in
  if (- 2 ^ 31 <=? day) && (day <? 2 ^ 31) then Ok day else Err DayOutOfRange.

(** The key types of the counters. *)
Definition value_code (v : StatsDimensionValue) : Z * Z * string :=
  match v with
  | DV_ConfiguredId id =>
      (0, match cid_kind id with
          | CK_ClientBucket => 0 | CK_Strategy => 1 | CK_Upstream => 2 | CK_Listener => 3 | CK_Route => 4
          end, cid_value id)
  | DV_Transport t => (1, match t with Datagram => 0 | Stream => 1 | Multiplexed => 2 end, "")
  | DV_Source s =>
      (2, match s with SrcCache => 0 | SrcHosts => 1 | SrcRuleSet => 2 | SrcUpstream => 3 end, "")
  | DV_Rcode c => (3, c, "")
  | DV_CacheStatus s =>
      (4, match s with
          | CS_Disabled => 0 | CS_Miss => 1 | CS_Fresh => 2 | CS_Stale => 3 | CS_Expired => 4
          | CS_StoreUnavailable => 5 | CS_WriteRejected => 6
          end, "")
  | DV_AttemptOutcome o =>
      (5, match o with
          | OC_Success => 0 | OC_Failure => 1 | OC_Timeout => 2 | OC_Cancelled => 3
          | OC_Rejected => 4 | OC_Dropped => 5
          end, "")
  end.

Definition value_decode (c : Z * Z * string) : option StatsDimensionValue :=
  let '(tag, n, s) := c in
  let i := Z.to_nat n in
  match tag with
  | 0 => (fun k => DV_ConfiguredId (mk_configured_id k s)) <$>
           [CK_ClientBucket; CK_Strategy; CK_Upstream; CK_Listener; CK_Route] !! i
  | 1 => DV_Transport <$> [Datagram; Stream; Multiplexed] !! i
  | 2 => DV_Source <$> [SrcCache; SrcHosts; SrcRuleSet; SrcUpstream] !! i
  | 3 => Some (DV_Rcode n)
  | 4 => DV_CacheStatus <$> [CS_Disabled; CS_Miss; CS_Fresh; CS_Stale; CS_Expired;
                             CS_StoreUnavailable; CS_WriteRejected] !! i
  | 5 => DV_AttemptOutcome <$> [OC_Success; OC_Failure; OC_Timeout; OC_Cancelled; OC_Rejected;
                                OC_Dropped] !! i
  | _ => None
  end.

Lemma value_decode_code v : value_decode (value_code v) = Some v.
Proof. by destruct v as [[[] s]|[]|[]|c|[]|[]]. Qed.

Definition dimension_code (d : StatsDimension) : Z * (Z * Z * string) :=
  (kind_index (sd_kind d), value_code (sd_value d)).
Definition dimension_decode (c : Z * (Z * Z * string)) : option StatsDimension :=
  k ← [DK_ClientBucket; DK_Transport; DK_Strategy; DK_Source; DK_Upstream; DK_Rcode; DK_CacheStatus;
       DK_AttemptOutcome] !! Z.to_nat c.1;
  mk_dimension k <$> value_decode c.2.

#[global] Instance StatsDimension_countable : Countable StatsDimension.
Proof.
  refine (inj_countable dimension_code dimension_decode _). intros [k v].
  unfold dimension_decode, dimension_code. cbn [fst snd sd_kind sd_value].
  rewrite value_decode_code. by destruct k.
Defined.

Record Shard := mk_shard {
  sh_totals : gmap Z Z;
  sh_dimensions : gmap (Z * StatsDimension) Z;
  sh_events : list StatsEvent;
  sh_max_sequence : Z
}.
Definition Shard_new : Shard := mk_shard ∅ ∅ [] 0.

Record EpochCounters := mk_epoch { ep_epoch : Z; ep_shards : list Shard }.
Definition EpochCounters_new (epoch shard_count : Z) : EpochCounters :=
  mk_epoch epoch (replicate (Z.to_nat shard_count) Shard_new).

Record StatsAccumulator := mk_accumulator {
  ac_next : Z;
  ac_active : EpochCounters;
  ac_shard_count : Z
}.

Definition StatsAccumulator_new (shard_count : Z) : result StatsAccumulatorError StatsAccumulator :=
  if shard_count =? 0 then Err InvalidShardCount
  else Ok (mk_accumulator 1 (EpochCounters_new 0 shard_count) shard_count).
Definition with_default_shards : StatsAccumulator :=
  mk_accumulator 1 (EpochCounters_new 0 DEFAULT_SHARD_COUNT) DEFAULT_SHARD_COUNT.

(** The increments of one event in its shard: checked for all counters first. *)
Definition counter {K} `{Countable K} (m : gmap K Z) (k : K) : Z := default 0 (m !! k).
Definition bump {K} `{Countable K} (m : gmap K Z) (k : K) : gmap K Z := <[k := counter m k + 1]> m.
Definition full {K} `{Countable K} (m : gmap K Z) (k : K) : bool :=
  match checked_add64 (counter m k) 1 with Some _ => false | None => true end.

Definition shard_record (s : Shard) (e : StatsEvent) : result StatsAccumulatorError Shard :=
  let day := ev_day e in
  if full (sh_totals s) day then Err CounterOverflow
  else if existsb (fun d => full (sh_dimensions s) (day, d)) (ev_dimensions e) then Err CounterOverflow
  else Ok (mk_shard (bump (sh_totals s) day)
             (foldl (fun m d => bump m (day, d)) (sh_dimensions s) (ev_dimensions e))
             (sh_events s ++ [e]) (Z.max (sh_max_sequence s) (ev_sequence e))).

(** The snapshot of an epoch. *)
Record DimensionCount := mk_dim_count { dc_day : Z; dc_dimension : StatsDimension; dc_count : Z }.

Record StatsSnapshot := mk_stats_snapshot {
  ss_epoch : Z;
  ss_max_sequence : Z;
  ss_event_count : Z;
  ss_totals : list (Z * Z);
  ss_dimensions : list DimensionCount;
  ss_events : list StatsEvent
}.

Definition total_for_day (s : StatsSnapshot) (day : Z) : Z :=
  match list_find (fun x => x.1 = day) (ss_totals s) with Some (_, x) => x.2 | None => 0 end.
Definition into_batch (s : StatsSnapshot) (batch_id : Z) : StatsBatch :=
  mk_batch batch_id (ss_max_sequence s) (ss_epoch s) (ss_events s).

(** [*entry.or_insert(0) += count] for every entry of a shard's map. *)
Definition merge_counts {K} `{Countable K} (m n : gmap K Z) : gmap K Z :=
  union_with (fun a b => Some (wrap64 (a + b))) m n.

Definition snapshot_epoch (e : EpochCounters) : StatsSnapshot :=
  let totals := foldl (fun m s => merge_counts m (sh_totals s)) ∅ (ep_shards e) in
  let dimensions := foldl (fun m s => merge_counts m (sh_dimensions s)) ∅ (ep_shards e) in
  let events := sort_by_key ev_sequence (concat (sh_events <$> ep_shards e)) in
  mk_stats_snapshot (ep_epoch e) (foldl (fun m s => Z.max m (sh_max_sequence s)) 0 (ep_shards e))
    (Z.of_nat (length events)) (sort_by_key fst (map_to_list totals))
    (sort_by_key dc_day ((fun '((day, d), n) => mk_dim_count day d n) <$> map_to_list dimensions))
    events.

Definition epoch_event_count (e : EpochCounters) : Z :=
  Zsum_with (fun s => Z.of_nat (length (sh_events s))) (ep_shards e).
Definition active_event_count (a : StatsAccumulator) : Z := epoch_event_count (ac_active a).

(** [try_swap_epoch], [swap_epoch]: the number of events of an epoch that is too
    big, or the panic of an exhausted epoch counter. *)
Inductive SwapError := TooManyEvents (event_count : Z) | EpochsExhausted.

Definition swap_epoch (a : StatsAccumulator) : result SwapError (StatsSnapshot * StatsAccumulator) :=
  next ← ok_or EpochsExhausted (checked_add64 (ep_epoch (ac_active a)) 1);
  Ok (snapshot_epoch (ac_active a),
      mk_accumulator (ac_next a) (EpochCounters_new next (ac_shard_count a)) (ac_shard_count a)).

Definition try_swap_epoch (a : StatsAccumulator) (max_event_count : Z) :
    result SwapError (StatsSnapshot * StatsAccumulator) :=
  if max_event_count <? active_event_count a then Err (TooManyEvents (active_event_count a))
  else swap_epoch a.

Section Hasher.
(** [DefaultHasher] on a day and dimensions. *)
Context (shard_hash : Z -> list StatsDimension -> Z).

Definition shard_index (e : EpochCounters) (day : Z) (dimensions : list StatsDimension) : Z :=
  shard_hash day dimensions mod Z.of_nat (length (ep_shards e)).

Definition record_event_inner (a : StatsAccumulator) (e : StatsEvent) :
    result StatsAccumulatorError unit * StatsAccumulator :=
  if MAX_STATS_DIMENSIONS <? Z.of_nat (length (ev_dimensions e)) then
    (Err (InvalidEvent TooManyDimensions), a)
  else
    let active := ac_active a in
    let i := Z.to_nat (shard_index active (ev_day e) (ev_dimensions e)) in
    match ep_shards active !! i with
    | None => (Err ShardPanic, a)
    | Some s =>
      match shard_record s e with
      | Err x => (Err x, a)
      | Ok s' =>
        (Ok tt, mk_accumulator (ac_next a) (mk_epoch (ep_epoch active) (<[i := s']> (ep_shards active)))
                  (ac_shard_count a))
      end
    end.

(** [record_event]: raises the lower bound of the sequence numbers first. *)
Definition record_event (a : StatsAccumulator) (e : StatsEvent) :
    result StatsAccumulatorError unit * StatsAccumulator :=
  match checked_add64 (ev_sequence e) 1 with
  | None => (Err SequenceExhausted, a)
  | Some next =>
    record_event_inner (mk_accumulator (Z.max (ac_next a) next) (ac_active a) (ac_shard_count a)) e
  end.

(** The first step of [record]: an event with a fresh sequence number. *)
Definition allocate_event (a : StatsAccumulator) (day : Z) (dimensions : list StatsDimension) :
    result StatsAccumulatorError StatsEvent * StatsAccumulator :=
  match checked_add64 (ac_next a) 1 with
  | None => (Err SequenceExhausted, a)
  | Some next =>
    (map_err InvalidEvent (StatsEvent_new (ac_next a) day dimensions),
     mk_accumulator next (ac_active a) (ac_shard_count a))
  end.

Definition record (a : StatsAccumulator) (day : Z) (dimensions : list StatsDimension) :
    result StatsAccumulatorError Z * StatsAccumulator :=
  match allocate_event a day dimensions with
  | (Err e, a1) => (Err e, a1)
  | (Ok e, a1) =>
    match record_event a1 e with
    | (Ok _, a2) => (Ok (ev_sequence e), a2)
    | (Err x, a2) => (Err x, a2)
    end
  end.

End Hasher.

(** ** What a completed request is counted under (resolution.rs) *)

Inductive ResolutionTerminal :=
| RT_Response (class : ResponseClass) (rcode : Z) | RT_NoResponse (reason : option CancelReason) | RT_CoreFailure.

(** The fields the statistics read. *)
Record ResolutionEvent := mk_resolution_event {
  re_occurred_at : Z;
  re_matched_client_id : option string;
  re_strategy_id : option string;
  re_upstream_id : option string;
  re_upstream_member_id : option string;
  re_upstream_used_id : option string;
  re_transport : TransportClass;
  re_terminal : ResolutionTerminal;
  re_outcome : OutcomeClass;
  re_source : StatsSource;
  re_cache_lookup_status : CacheStatus
}.

Definition configured_dimension (kind : ConfiguredIdKind)
    (make : ConfiguredId -> result StatsEventError StatsDimension) (id : option string) :
    list StatsDimension :=
  match id ≫= configured_id_from_validated kind with
  | Some c => match make c with Ok d => [d] | Err _ => [] end
  | None => []
  end.

Definition first_of {A} (a b : option A) : option A := match a with Some _ => a | None => b end.

Definition stats_dimensions (e : ResolutionEvent) : list StatsDimension :=
  [dim_transport (re_transport e); dim_attempt_outcome (re_outcome e); dim_source (re_source e);
   dim_cache_status (re_cache_lookup_status e)] ++
  match re_terminal e with RT_Response _ rcode => [dim_rcode rcode] | _ => [] end ++
  configured_dimension CK_ClientBucket dim_client_bucket (re_matched_client_id e) ++
  configured_dimension CK_Strategy dim_strategy (re_strategy_id e) ++
  configured_dimension CK_Upstream dim_upstream
    (first_of (first_of (re_upstream_used_id e) (re_upstream_member_id e)) (re_upstream_id e)).

(** ** Ledger (storage/ledger.rs) *)

Record PendingStatsBatch := mk_pending { pb_batch : StatsBatch; pb_attempts : Z }.

Record BatchReceipt := mk_receipt {
  br_batch_id : Z;
  br_max_sequence : Z;
  br_epoch : Z;
  br_committed_at : Z
}.

Inductive BatchDecision :=
| BD_New | BD_RetryPending (attempts : Z) | BD_AlreadyCommitted | BD_PayloadConflict.
Inductive BatchLedgerError := EmptySnapshot | BatchIdExhausted | UnknownBatch | PayloadConflict.

Record LedgerEntry := mk_ledger_entry { le_fingerprint : Z; le_receipt : BatchReceipt }.

Record BatchLedger := mk_ledger {
  bl_next : Z;
  bl_pending : gmap Z PendingStatsBatch;
  bl_committed : gmap Z LedgerEntry
}.

Definition with_next_batch_id (next : Z) : BatchLedger := mk_ledger next ∅ ∅.
Definition BatchLedger_new : BatchLedger := with_next_batch_id 1.

Definition ledger_enqueue (l : BatchLedger) (s : StatsSnapshot) : result BatchLedgerError Z * BatchLedger :=
  if ss_event_count s =? 0 then (Err EmptySnapshot, l)
  else
    let id := bl_next l in
    match checked_add64 id 1 with
    | None => (Err BatchIdExhausted, l)
    | Some next =>
      (Ok id, mk_ledger next (<[id := mk_pending (into_batch s id) 0]> (bl_pending l)) (bl_committed l))
    end.

Definition next_pending_batch (l : BatchLedger) : option StatsBatch :=
  (fun x => pb_batch x.2) <$> zmap_first (bl_pending l).

Definition ledger_mark_failed (l : BatchLedger) (id : Z) : result BatchLedgerError unit * BatchLedger :=
  match bl_pending l !! id with
  | None => (Err UnknownBatch, l)
  | Some p =>
    (Ok tt, mk_ledger (bl_next l)
              (<[id := mk_pending (pb_batch p) (Z.min (pb_attempts p + 1) u32_max)]> (bl_pending l))
              (bl_committed l))
  end.

Definition pending_count (l : BatchLedger) : Z := Z.of_nat (size (bl_pending l)).
Definition pending_events (l : BatchLedger) : list StatsEvent :=
  concat ((fun x => sb_events (pb_batch x.2)) <$> map_to_list (bl_pending l)).
Definition pending_event_count (l : BatchLedger) : Z :=
  Zsum_with (fun x => Z.of_nat (length (sb_events (pb_batch x.2)))) (map_to_list (bl_pending l)).

Definition replay_floor_batch_id (l : BatchLedger) : Z :=
  match zmap_first (bl_pending l) with Some (id, _) => id | None => bl_next l end.
Definition reclaim_committed_before (l : BatchLedger) (floor : Z) : BatchLedger :=
  mk_ledger (bl_next l) (bl_pending l) (filter (fun x => floor <= x.1) (bl_committed l)).

Section Fingerprint.
(** [DefaultHasher] on the fields of a batch, in the order they are hashed. *)
Context (batch_hash : Z * Z * Z * list (Z * Z * list StatsDimension) -> Z).

Definition fingerprint (b : StatsBatch) : Z :=
  batch_hash (sb_id b, sb_max_sequence b, sb_epoch b,
              (fun e => (ev_sequence e, ev_day e, ev_dimensions e)) <$> sb_events b).

Definition ledger_decision (l : BatchLedger) (b : StatsBatch) : BatchDecision :=
  match bl_committed l !! sb_id b with
  | Some e => if le_fingerprint e =? fingerprint b then BD_AlreadyCommitted else BD_PayloadConflict
  | None =>
    match bl_pending l !! sb_id b with
    | Some p => if fingerprint (pb_batch p) =? fingerprint b then BD_RetryPending (pb_attempts p)
                else BD_PayloadConflict
    | None => BD_New
    end
  end.

Definition ledger_commit (l : BatchLedger) (id committed_at : Z) :
    result BatchLedgerError BatchDecision * BatchLedger :=
  match bl_committed l !! id with
  | Some _ => (Ok BD_AlreadyCommitted, l)
  | None =>
    match bl_pending l !! id with
    | None => (Err UnknownBatch, l)
    | Some p =>
      let receipt := mk_receipt id (sb_max_sequence (pb_batch p)) (sb_epoch (pb_batch p)) committed_at in
      (Ok BD_New, mk_ledger (bl_next l) (delete id (bl_pending l))
                    (<[id := mk_ledger_entry (fingerprint (pb_batch p)) receipt]> (bl_committed l)))
    end
  end.

End Fingerprint.

(** [StatsAccumulator::persistence_gap] *)
Inductive PersistenceGapState :=
| Clear
| ActiveEpoch (epoch event_count : Z)
| PendingBatches (batch_count event_count : Z)
| ActiveAndPending (epoch active_event_count batch_count pending_event_count : Z).

Definition persistence_gap (a : StatsAccumulator) (l : BatchLedger) : PersistenceGapState :=
  let active := active_event_count a in
  match active =? 0, pending_count l =? 0 with
  | true, true => Clear
  | false, true => ActiveEpoch (ep_epoch (ac_active a)) active
  | true, false => PendingBatches (pending_count l) (pending_event_count l)
  | false, false =>
      ActiveAndPending (ep_epoch (ac_active a)) active (pending_count l) (pending_event_count l)
  end.

(** ** Counting events *)

(** How many of the events are of a day, and how often a column pair occurs in them. *)
Definition on_day (day : Z) (e : StatsEvent) : Z := if decide (ev_day e = day) then 1 else 0.
Definition has_dimension (day : Z) (d : StatsDimension) (e : StatsEvent) : Z :=
  if decide (ev_day e = day) then Zsum_with (fun x => if decide (x = d) then 1 else 0) (ev_dimensions e)
  else 0.
Definition max_sequence (l : list StatsEvent) : Z := foldr (fun e m => Z.max (ev_sequence e) m) 0 l.

Lemma on_day_nonneg day l : 0 <= Zsum_with (on_day day) l.
Proof. apply Zsum_with_nonneg. intros e _. unfold on_day. case_decide; lia. Qed.

Lemma max_sequence_nonneg l : 0 <= max_sequence l.
Proof. induction l as [|e l IH]; cbn; [lia|]. fold (max_sequence l). lia. Qed.

Lemma max_sequence_app l1 l2 : max_sequence (l1 ++ l2) = Z.max (max_sequence l1) (max_sequence l2).
Proof.
  induction l1 as [|e l IH]; cbn [app max_sequence foldr].
  - fold (max_sequence l2). pose proof (max_sequence_nonneg l2). lia.
  - fold (max_sequence (l ++ l2)) (max_sequence l). lia.
Qed.

Lemma max_sequence_perm l1 l2 : l1 ≡ₚ l2 -> max_sequence l1 = max_sequence l2.
Proof. induction 1; cbn in *; unfold max_sequence in *; lia. Qed.
#[global] Instance max_sequence_proper : Proper ((≡ₚ) ==> (=)) max_sequence := max_sequence_perm.

Lemma counter_bump {K} `{Countable K} (m : gmap K Z) k k' :
  counter (bump m k) k' = counter m k' + (if decide (k = k') then 1 else 0).
Proof.
  unfold counter, bump. case_decide as E; [subst; by rewrite lookup_insert_eq|].
  rewrite lookup_insert_ne by done. lia.
Qed.

Lemma counter_bumps (day : Z) (ds : list StatsDimension) m (d : StatsDimension) (day' : Z) :
  counter (foldl (fun m d => bump m (day, d)) m ds) (day', d) =
  counter m (day', d) + (if decide (day = day') then
    Zsum_with (fun x => if decide (x = d) then 1 else 0) ds else 0).
Proof.
  revert m. induction ds as [|x ds IH]; intros m; cbn [foldl Zsum_with foldr].
  - case_decide; lia.
  - fold (Zsum_with (fun x => if decide (x = d) then 1 else 0) ds). rewrite IH, counter_bump.
    destruct (decide ((day, x) = (day', d))) as [[= <- <-]|E].
    + by rewrite !decide_True by done; lia.
    + destruct (decide (day = day')) as [->|]; [|lia]. rewrite (decide_False (P := x = d)); [lia|].
      intros ->. done.
Qed.

(** ** Shards *)

Record shard_ok (s : Shard) : Prop := {
  so_totals : forall day, counter (sh_totals s) day = Zsum_with (on_day day) (sh_events s);
  so_dimensions : forall day d,
    counter (sh_dimensions s) (day, d) = Zsum_with (has_dimension day d) (sh_events s);
  so_max : sh_max_sequence s = max_sequence (sh_events s);
  so_few : Forall (fun e => Z.of_nat (length (ev_dimensions e)) <= MAX_STATS_DIMENSIONS) (sh_events s)
}.

Lemma Shard_new_ok : shard_ok Shard_new.
Proof. by split; intros; unfold counter; cbn; rewrite ?lookup_empty. Qed.

Lemma shard_record_ok s e s' :
  shard_ok s -> 0 <= ev_sequence e -> Z.of_nat (length (ev_dimensions e)) <= MAX_STATS_DIMENSIONS ->
  shard_record s e = Ok s' ->
  shard_ok s' /\ sh_events s' = sh_events s ++ [e].
Proof.
  intros [Ht Hd Hm Hf] He Hl H. unfold shard_record in H.
  destruct (full _ _); [done|]. destruct (existsb _ _); [done|]. injection H as <-.
  split; [|done]. split; cbn [sh_totals sh_dimensions sh_events sh_max_sequence].
  - intros day. rewrite counter_bump, Ht, Zsum_with_app. cbn. unfold on_day at 3. lia.
  - intros day d. rewrite counter_bumps, Hd, Zsum_with_app. cbn. unfold has_dimension at 3. lia.
  - rewrite max_sequence_app, Hm. cbn. lia.
  - apply list.Forall_app. split; [done|]. by repeat constructor.
Qed.

(** ** The accumulator's invariant *)

Definition active_events (a : StatsAccumulator) : list StatsEvent :=
  concat (sh_events <$> ep_shards (ac_active a)).

Record acc_ok (a : StatsAccumulator) : Prop := {
  ao_shards : Z.of_nat (length (ep_shards (ac_active a))) = ac_shard_count a;
  ao_some : 0 < ac_shard_count a;
  ao_shard : Forall shard_ok (ep_shards (ac_active a));
  ao_next : 1 <= ac_next a <= u64_max;
  ao_epoch : 0 <= ep_epoch (ac_active a) <= u64_max
}.

Lemma concat_insert {A} (ls : list (list A)) i l x :
  ls !! i = Some l -> concat (<[i := l ++ [x]]> ls) ≡ₚ x :: concat ls.
Proof.
  revert i. induction ls as [|l0 ls IH]; intros [|i] H; simplify_eq/=.
  - rewrite <-app_assoc. cbn. by rewrite Permutation_middle.
  - rewrite IH by done. by rewrite Permutation_middle.
Qed.

Lemma epoch_event_count_length e :
  epoch_event_count e = Z.of_nat (length (concat (sh_events <$> ep_shards e))).
Proof.
  unfold epoch_event_count. induction (ep_shards e) as [|s l IH]; [done|]. cbn.
  rewrite length_app. unfold Zsum_with in IH. lia.
Qed.

Lemma empty_epoch_events epoch n : concat (sh_events <$> ep_shards (EpochCounters_new epoch n)) = [].
Proof. cbn. induction (Z.to_nat n) as [|k IH]; [done|]. cbn. exact IH. Qed.

Lemma new_epoch_ok next epoch n :
  0 < n -> 1 <= next <= u64_max -> 0 <= epoch <= u64_max ->
  acc_ok (mk_accumulator next (EpochCounters_new epoch n) n).
Proof.
  intros. split; cbn; try done.
  - rewrite length_replicate. lia.
  - apply list.Forall_forall. intros s Hs. apply elem_of_replicate in Hs as [-> _]. apply Shard_new_ok.
Qed.

Lemma with_default_shards_ok : acc_ok with_default_shards.
Proof. by apply new_epoch_ok. Qed.

Section Recording.
Context (shard_hash : Z -> list StatsDimension -> Z).

Lemma shard_index_lookup a day ds :
  acc_ok a -> is_Some (ep_shards (ac_active a) !! Z.to_nat (shard_index shard_hash (ac_active a) day ds)).
Proof.
  intros Ha. apply lookup_lt_is_Some_2. unfold shard_index.
  pose proof (ao_shards a Ha). pose proof (ao_some a Ha).
  pose proof (Z.mod_pos_bound (shard_hash day ds) (Z.of_nat (length (ep_shards (ac_active a)))) ltac:(lia)).
  lia.
Qed.

Lemma record_event_inner_spec a e res a' :
  acc_ok a -> 0 <= ev_sequence e -> record_event_inner shard_hash a e = (res, a') ->
  acc_ok a' /\ ac_next a' = ac_next a /\ ep_epoch (ac_active a') = ep_epoch (ac_active a) /\
  ac_shard_count a' = ac_shard_count a /\ res <> Err ShardPanic /\
  match res with
  | Ok _ => active_events a' ≡ₚ e :: active_events a
  | Err _ => a' = a
  end.
Proof.
  intros Ha He H. unfold record_event_inner in H.
  destruct (Z.ltb_spec MAX_STATS_DIMENSIONS (Z.of_nat (length (ev_dimensions e)))) as [|Hl];
    [by injection H as <- <-|].
  destruct (shard_index_lookup a (ev_day e) (ev_dimensions e) Ha) as [s Hs]. rewrite Hs in H.
  destruct (shard_record s e) as [s'|x] eqn:E.
  2: { injection H as <- <-. unfold shard_record in E. repeat split; try done; try apply Ha.
       all: destruct (full _ _); [|destruct (existsb _ _)]; congruence. }
  injection H as <- <-.
  destruct (shard_record_ok s e s') as [Hok Hev]; [|done..|].
  { apply (proj1 (list.Forall_lookup _ _) (ao_shard a Ha) _ _ Hs). }
  split; [|repeat split; try done].
  - destruct Ha. split; cbn; try done.
    + by rewrite length_insert.
    + by apply list.Forall_insert.
  - unfold active_events. cbn. rewrite list_fmap_insert, Hev. apply concat_insert.
    by rewrite list_lookup_fmap, Hs.
Qed.

Lemma try_swap_spec a n s a' :
  acc_ok a -> try_swap_epoch a n = Ok (s, a') ->
  acc_ok a' /\ s = snapshot_epoch (ac_active a) /\ active_events a' = [] /\ ac_next a' = ac_next a /\
  ss_event_count s <= n.
Proof.
  intros Ha H. unfold try_swap_epoch in H. destruct (Z.ltb_spec n (active_event_count a)) as [|Hn]; [done|].
  unfold swap_epoch in H. inv_ok. apply checked_add64_some in H0 as [-> Hu]. simplify_eq.
  pose proof (ao_epoch a Ha). split; [|split; [done|split; [|split; [done|]]]].
  - apply new_epoch_ok; [apply (ao_some a Ha)|apply (ao_next a Ha)|lia].
  - apply empty_epoch_events.
  - cbn. unfold active_event_count in Hn. rewrite epoch_event_count_length in Hn.
    by rewrite sort_by_key_perm.
Qed.

End Recording.

(** ** Snapshots *)

Lemma counter_merge {K} `{Countable K} (m n : gmap K Z) k :
  0 <= counter m k -> 0 <= counter n k -> counter m k + counter n k <= u64_max ->
  counter (merge_counts m n) k = counter m k + counter n k.
Proof.
  unfold counter, merge_counts. rewrite lookup_union_with.
  destruct (m !! k), (n !! k); cbn; intros; try lia. apply wrap64_small. unfold u64. lia.
Qed.

Lemma counter_fold_merge {K} `{Countable K} (f : Shard -> gmap K Z) (l : list Shard) m k :
  0 <= counter m k -> (forall s, s ∈ l -> 0 <= counter (f s) k) ->
  counter m k + Zsum_with (fun s => counter (f s) k) l <= u64_max ->
  counter (foldl (fun m s => merge_counts m (f s)) m l) k =
  counter m k + Zsum_with (fun s => counter (f s) k) l.
Proof.
  revert m. induction l as [|s l IH]; intros m Hm Hl Hs; cbn in *; [lia|].
  fold (Zsum_with (fun s => counter (f s) k) l) in *.
  pose proof (Hl s ltac:(left)).
  assert (0 <= Zsum_with (fun s => counter (f s) k) l)
    by (apply Zsum_with_nonneg; intros x Hx; apply Hl; by right).
  assert (E : counter (merge_counts m (f s)) k = counter m k + counter (f s) k)
    by (apply counter_merge; lia).
  rewrite IH; rewrite ?E; try lia. intros x Hx. apply Hl. by right.
Qed.

(** Summing over the shards is summing over the events. *)
Lemma Zsum_shards (w : StatsEvent -> Z) (f : Shard -> Z) l :
  (forall s, s ∈ l -> f s = Zsum_with w (sh_events s)) ->
  Zsum_with f l = Zsum_with w (concat (sh_events <$> l)).
Proof.
  induction l as [|s l IH]; intros H; [done|].
  change (f s + Zsum_with f l = Zsum_with w (sh_events s ++ concat (sh_events <$> l))).
  rewrite Zsum_with_app, (H s) by left. rewrite IH; [done|]. intros x Hx. apply H. by right.
Qed.

Lemma Zsum_with_le {A} (f : A -> Z) c l : (forall x, x ∈ l -> f x <= c) -> Zsum_with f l <= c * Z.of_nat (length l).
Proof.
  induction l as [|x l IH]; intros H; cbn; [lia|]. fold (Zsum_with f l).
  pose proof (H x ltac:(left)). specialize (IH ltac:(intros y Hy; apply H; by right)). lia.
Qed.

Lemma has_dimension_bounds day d e :
  Z.of_nat (length (ev_dimensions e)) <= MAX_STATS_DIMENSIONS -> 0 <= has_dimension day d e <= 8.
Proof.
  unfold has_dimension, MAX_STATS_DIMENSIONS. intros H. case_decide; [|lia].
  pose proof (Zsum_with_le (fun x => if decide (x = d) then 1 else 0) 1 (ev_dimensions e)
                ltac:(intros; cbv beta; case_decide; lia)).
  pose proof (Zsum_with_nonneg (fun x => if decide (x = d) then 1 else 0) (ev_dimensions e)
                ltac:(intros; cbv beta; case_decide; lia)). lia.
Qed.

Lemma active_few a :
  acc_ok a -> Forall (fun e => Z.of_nat (length (ev_dimensions e)) <= MAX_STATS_DIMENSIONS) (active_events a).
Proof.
  intros Ha. unfold active_events. pose proof (ao_shard a Ha) as H.
  induction (ep_shards (ac_active a)) as [|s l IH]; [constructor|]. cbn.
  inversion_clear H as [|? ? Hs Hl]. apply list.Forall_app. split; [apply (so_few s Hs)|by apply IH].
Qed.

(** The merged counters of the shards count the events of the epoch. *)
Lemma merged_totals a day :
  acc_ok a -> 8 * Z.of_nat (length (active_events a)) <= u64_max ->
  counter (foldl (fun m s => merge_counts m (sh_totals s)) ∅ (ep_shards (ac_active a))) day =
  Zsum_with (on_day day) (active_events a).
Proof.
  intros Ha Hn. pose proof (ao_shard a Ha) as Hs. rewrite list.Forall_forall in Hs.
  assert (E : Zsum_with (fun s => counter (sh_totals s) day) (ep_shards (ac_active a)) =
              Zsum_with (on_day day) (active_events a)).
  { apply Zsum_shards. intros s H. apply (so_totals s (Hs s H)). }
  rewrite counter_fold_merge.
  - unfold counter at 1. rewrite lookup_empty. cbn. exact E.
  - unfold counter. by rewrite lookup_empty.
  - intros s H. rewrite (so_totals s (Hs s H)). apply on_day_nonneg.
  - unfold counter at 1. rewrite lookup_empty. cbn [default]. rewrite E.
    pose proof (Zsum_with_le (on_day day) 1 (active_events a)
                  ltac:(intros; unfold on_day; case_decide; lia)). cbn. lia.
Qed.

Lemma merged_dimensions a day d :
  acc_ok a -> 8 * Z.of_nat (length (active_events a)) <= u64_max ->
  counter (foldl (fun m s => merge_counts m (sh_dimensions s)) ∅ (ep_shards (ac_active a))) (day, d) =
  Zsum_with (has_dimension day d) (active_events a).
Proof.
  intros Ha Hn. pose proof (ao_shard a Ha) as Hs. rewrite list.Forall_forall in Hs.
  pose proof (active_few a Ha) as Hf. rewrite list.Forall_forall in Hf.
  assert (E : Zsum_with (fun s => counter (sh_dimensions s) (day, d)) (ep_shards (ac_active a)) =
              Zsum_with (has_dimension day d) (active_events a)).
  { apply Zsum_shards. intros s H. apply (so_dimensions s (Hs s H)). }
  rewrite counter_fold_merge.
  - unfold counter at 1. rewrite lookup_empty. cbn. exact E.
  - unfold counter. by rewrite lookup_empty.
  - intros s H. rewrite (so_dimensions s (Hs s H)). apply Zsum_with_nonneg. intros e He.
    apply (has_dimension_bounds day d e).
    apply (proj1 (list.Forall_forall _ _) (so_few s (Hs s H)) e He).
  - unfold counter at 1. rewrite lookup_empty. cbn [default]. rewrite E.
    pose proof (Zsum_with_le (has_dimension day d) 8 (active_events a)
                  ltac:(intros e He; apply has_dimension_bounds, Hf, He)). cbn. lia.
Qed.

Lemma snapshot_max a :
  acc_ok a -> ss_max_sequence (snapshot_epoch (ac_active a)) = max_sequence (active_events a).
Proof.
  intros Ha. cbn. unfold active_events. pose proof (ao_shard a Ha) as H.
  enough (E : forall m l, 0 <= m -> Forall shard_ok l ->
    foldl (fun m s => Z.max m (sh_max_sequence s)) m l =
    Z.max m (max_sequence (concat (sh_events <$> l)))).
  { rewrite E by done. pose proof (max_sequence_nonneg (concat (sh_events <$> ep_shards (ac_active a)))).
    lia. }
  clear a Ha H. intros m l. revert m. induction l as [|s l IH]; intros m Hm Hl; cbn; [lia|].
  inversion_clear Hl as [|? ? Hs Hl']. rewrite IH, max_sequence_app, (so_max s Hs) by (done || lia). lia.
Qed.

Lemma counter_find (m : gmap Z Z) day l :
  l ≡ₚ map_to_list m ->
  match list_find (fun x => x.1 = day) l with Some (_, x) => x.2 | None => 0 end = counter m day.
Proof.
  intros Hp. unfold counter. destruct (list_find _ l) as [[i [k v]]|] eqn:E.
  - apply list_find_Some in E as (Hl & Hk & _). cbn in Hk. subst k.
    apply list_elem_of_lookup_2 in Hl. rewrite Hp in Hl. apply elem_of_map_to_list in Hl. by rewrite Hl.
  - apply list_find_None in E. destruct (m !! day) as [v|] eqn:Hv; [|done].
    apply elem_of_map_to_list in Hv. rewrite <-Hp in Hv.
    by apply (proj1 (list.Forall_forall _ _) E) in Hv.
Qed.

(** The snapshot of an epoch lists every event recorded in it, in the order of the
    sequence numbers, and its totals and dimension counts are the numbers of those
    events, whatever shards the events were put into; up to an eighth of [u64::MAX]
    events, far beyond what fits in memory, the counters do not wrap. *)
Theorem snapshot_counts a :
  acc_ok a -> 8 * Z.of_nat (length (active_events a)) <= u64_max ->
  let s := snapshot_epoch (ac_active a) in
  ss_events s ≡ₚ active_events a /\ StronglySorted (key_le ev_sequence) (ss_events s) /\
  ss_max_sequence s = max_sequence (active_events a) /\
  ss_event_count s = active_event_count a /\
  (forall day, total_for_day s day = Zsum_with (on_day day) (active_events a)) /\
  (forall day d n, mk_dim_count day d n ∈ ss_dimensions s ->
     n = Zsum_with (has_dimension day d) (active_events a)) /\
  (forall day d, 0 < Zsum_with (has_dimension day d) (active_events a) ->
     mk_dim_count day d (Zsum_with (has_dimension day d) (active_events a)) ∈ ss_dimensions s).
Proof.
  intros Ha Hn s. pose proof (sort_by_key_perm ev_sequence (active_events a)) as Hp.
  split; [exact Hp|]. split; [apply sort_by_key_sorted|]. split; [by apply snapshot_max|].
  split; [|split; [|split]].
  - unfold active_event_count. rewrite epoch_event_count_length. cbn. by rewrite sort_by_key_perm.
  - intros day. rewrite <-(merged_totals a day) by done. apply counter_find. apply sort_by_key_perm.
  - intros day d n H. cbn in H. rewrite sort_by_key_perm in H.
    apply list_elem_of_fmap in H as ([[day' d'] n'] & [= <- <- <-] & H).
    rewrite <-merged_dimensions by done. apply elem_of_map_to_list in H. unfold counter. by rewrite H.
  - intros day d H. cbn. rewrite sort_by_key_perm. apply list_elem_of_fmap.
    exists ((day, d), Zsum_with (has_dimension day d) (active_events a)). split; [done|].
    apply elem_of_map_to_list. revert H. rewrite <-merged_dimensions by done. unfold counter.
    destruct (_ !! _); cbn; [done|lia].
Qed.

(** ** Dimensions of requests *)

(** [check_dimensions] accepts exactly valid dimensions of distinct kinds. *)
Lemma check_dimensions_ok seen ds :
  check_dimensions seen ds = Ok tt <->
  Forall (fun d => dim_validate d = Ok tt) ds /\
  NoDup ((fun d => kind_index (sd_kind d)) <$> ds) /\
  (forall d, d ∈ ds -> kind_index (sd_kind d) ∉ seen).
Proof.
  revert seen. induction ds as [|d ds IH]; intros seen; cbn.
  - split; [|done]. intros _. split; [constructor|]. split; [constructor|]. by intros d ?%not_elem_of_nil.
  - split.
    + intros H. inv_ok. destruct a. case_bool_decide as E; [done|].
      apply IH in H as (Hv & Hnd & Hs). split; [by constructor|]. split.
      * constructor; [|done]. intros (x & Hx & Hin)%list_elem_of_fmap. apply (Hs x Hin). rewrite <-Hx. left.
      * intros x [->|Hx]%elem_of_cons; [done|]. intros Hin. apply (Hs x Hx). by right.
    + intros (Hv & Hnd & Hs). inversion_clear Hv as [|? ? Hd Hv']. apply list.NoDup_cons in Hnd as [Hn Hnd].
      rewrite Hd. cbn. rewrite bool_decide_false by (apply Hs; left). apply IH.
      split; [done|]. split; [done|]. intros x Hx [E|Hin]%elem_of_cons.
      * apply Hn. apply list_elem_of_fmap. by exists x.
      * apply (Hs x); [by right|done].
Qed.

Lemma configured_dimension_cases kind dk id :
  configured_dimension kind (dim_configured dk) id = [] \/
  exists v, configured_dimension kind (dim_configured dk) id =
    [mk_dimension dk (DV_ConfiguredId (mk_configured_id kind v))].
Proof.
  unfold configured_dimension, dim_configured. destruct (id ≫= _) as [c|] eqn:E; [|by left].
  destruct (negb _); [by left|]. right. destruct id as [s|]; [|done]. cbn in E. exists s.
  unfold configured_id_from_validated in E. destruct (validate_bounded_identifier s); [|done].
  by injection E as <-.
Qed.

(** A request is always counted under well-formed dimensions: building its event
    never fails, whatever identifiers the request carried. *)
Theorem request_event_valid sequence day e :
  exists ev, StatsEvent_new sequence day (stats_dimensions e) = Ok ev /\
    ev_dimensions ev = stats_dimensions e.
Proof.
  assert (H : Forall (fun d => dim_validate d = Ok tt) (stats_dimensions e) /\
              NoDup ((fun d => kind_index (sd_kind d)) <$> stats_dimensions e) /\
              Z.of_nat (length (stats_dimensions e)) <= MAX_STATS_DIMENSIONS).
  { unfold stats_dimensions, dim_client_bucket, dim_strategy, dim_upstream.
    destruct (configured_dimension_cases CK_ClientBucket DK_ClientBucket (re_matched_client_id e))
        as [->|[v1 ->]],
      (configured_dimension_cases CK_Strategy DK_Strategy (re_strategy_id e)) as [->|[v2 ->]],
      (configured_dimension_cases CK_Upstream DK_Upstream
         (first_of (first_of (re_upstream_used_id e) (re_upstream_member_id e)) (re_upstream_id e)))
        as [->|[v3 ->]], (re_terminal e); cbn;
      (split; [repeat (apply list.Forall_cons; split; [reflexivity|]); apply list.Forall_nil; exact I|]);
      (split; [apply (bool_decide_unpack _); vm_compute; exact I|done]). }
  destruct H as (Hv & Hnd & Hl). exists (mk_event sequence day (stats_dimensions e)). split; [|done].
  unfold StatsEvent_new. destruct (Z.ltb_spec MAX_STATS_DIMENSIONS (Z.of_nat (length (stats_dimensions e))));
    [lia|].
  rewrite (proj2 (check_dimensions_ok [] (stats_dimensions e))); [done|].
  split; [done|]. split; [done|]. by intros d _ ?%not_elem_of_nil.
Qed.

(** The stored columns identify a dimension: different valid dimensions are counted
    in different rows. *)
Theorem database_parts_inj d1 d2 :
  dim_validate d1 = Ok tt -> dim_validate d2 = Ok tt -> database_parts d1 = database_parts d2 -> d1 = d2.
Proof.
  destruct d1 as [k1 v1], d2 as [k2 v2]. unfold database_parts. cbn. intros H1 H2 H.
  injection H as Hk Hv.
  assert (k1 = k2) as -> by (clear -Hk; by destruct k1, k2). f_equal. clear Hk.
  destruct v1 as [[c1 s1]|t1|s1|c1|s1|o1], v2 as [[c2 s2]|t2|s2|c2|s2|o2]; cbn in *;
    repeat case_bool_decide; try congruence;
    try (destruct k2; discriminate).
  - f_equal. destruct k2, c1, c2; try discriminate; by subst.
  - f_equal. by destruct t1, t2.
  - f_equal. by destruct s1, s2.
  - f_equal. by apply (inj pretty) in Hv.
  - f_equal. by destruct s1, s2.
  - f_equal. by destruct o1, o2.
Qed.

(** ** Samples *)

Definition sample_event : StatsEvent := mk_event 1 20000 [dim_transport Datagram; dim_rcode 3].
Definition sample_accumulator : StatsAccumulator :=
  (record (fun _ _ => 5) with_default_shards 20000 (ev_dimensions sample_event)).2.

Lemma sample_accumulator_ok : acc_ok sample_accumulator /\ active_events sample_accumulator = [sample_event].
Proof.
  split; [|by vm_compute].
  destruct (record_event_inner_spec (fun _ _ => 5)
    (mk_accumulator 2 (ac_active with_default_shards) DEFAULT_SHARD_COUNT) sample_event (Ok tt) sample_accumulator)
    as [Hok _]; [|done|done|exact Hok].
  by apply new_epoch_ok.
Qed.

Lemma snapshot_counts_witness :
  let s := snapshot_epoch (ac_active sample_accumulator) in
  ss_events s ≡ₚ [sample_event] /\ total_for_day s 20000 = 1.
Proof.
  destruct sample_accumulator_ok as [Hok Hact].
  destruct (snapshot_counts sample_accumulator Hok) as (Hp & _ & _ & _ & Ht & _).
  - rewrite Hact. by vm_compute.
  - split; [by rewrite Hp, Hact|]. by rewrite Ht, Hact.
Defined.

Lemma database_parts_inj_witness :
  database_parts (dim_rcode 3) <> database_parts (dim_rcode 30).
Proof.
  intros H. by apply (database_parts_inj (dim_rcode 3) (dim_rcode 30) eq_refl eq_refl) in H.
Defined.
