(* ===== verification/StatsStore.v ===== *)
(** * Storage of the statistics (src/backend/src/storage/sqlite.rs, storage/writer.rs,
    storage/retention.rs)

    The tables of the statistics database as maps, the transaction that applies a
    batch, and retention: the plan, the monotone watermark and the removal of what
    lies below it. A transaction is atomic; whether its statements and its commit
    succeed, when the clock is read, and whether a timeout hides a commit that took
    effect is the environment's choice ([TxEnv]). [StatsBackend] is what the
    statistics worker relies on; the SQLite and the in-memory backend implement it. *)

From S2P Require Import Prelude Message CacheModel Stats.

Inductive StorageHealth := Healthy | Degraded | Failed | Stopping.
#[global] Instance StorageHealth_eq_dec : EqDecision StorageHealth.
Proof. solve_decision. Defined.

(** ** Retention policy (storage/retention.rs) *)

Definition MAX_RETENTION_DAYS : Z := 3650.
Definition MAX_RETENTION_REFERENCE_SIZE_BYTES : Z := 2 ^ 40.

Record RetentionPolicy := mk_policy { rp_days : Z; rp_grace_days : Z; rp_reference_size : Z }.
#[global] Instance RetentionPolicy_eq_dec : EqDecision RetentionPolicy.
Proof. solve_decision. Defined.
Inductive RetentionPolicyError := RPE_Invalid | RPE_DayOutOfRange | RPE_SampleTooLarge.

Definition RetentionPolicy_new (days grace_days reference_size : Z) :
    result RetentionPolicyError RetentionPolicy :=
  if (days =? 0) || (MAX_RETENTION_DAYS <? days) ||
     ((u32_max <? days + grace_days) || (MAX_RETENTION_DAYS <? days + grace_days)) ||
     negb ((1 <=? reference_size) && (reference_size <=? MAX_RETENTION_REFERENCE_SIZE_BYTES))
  then Err RPE_Invalid
  else Ok (mk_policy days grace_days reference_size).

Record RetentionPlan := mk_plan {
  pl_policy : RetentionPolicy;
  pl_reference_day : Z;
  pl_sampled_bytes : Z;
  pl_target_days : Z;
  pl_keep_from : Z
}.
#[global] Instance RetentionPlan_eq_dec : EqDecision RetentionPlan.
Proof. solve_decision. Defined.

Definition i32_min : Z := - 2 ^ 31.
Definition i32_max : Z := 2 ^ 31 - 1.

Record RetentionState := mk_retention {
  rt_revision : Z;
  rt_watermark_revision : Z;
  rt_retired_before : Z;
  rt_reference_day : Z;
  rt_target_days : Z;
  rt_sampled_bytes : Z;
  rt_reference_size : Z;
  rt_replay_floor : Z;
  rt_published_at : Z
}.

Inductive RetentionManifestState := MF_Pending | MF_Reclaimed | MF_Failed.
#[global] Instance RetentionManifestState_eq_dec : EqDecision RetentionManifestState.
Proof. solve_decision. Defined.

Record RetentionManifestEntry := mk_manifest {
  mf_retired_revision : Z;
  mf_state : RetentionManifestState;
  mf_attempts : Z;
  mf_last_error : option string;
  mf_updated_at : Z
}.

(** ** The database *)

Record LedgerRow := mk_row {
  lr_max_sequence : Z;
  lr_epoch : Z;
  lr_committed_at : Z;
  lr_payload_hash : list byte
}.

Record StatsDb := mk_db {
  db_totals : gmap Z Z;
  db_dimensions : gmap (Z * (string * string)) Z;
  db_ledger : gmap Z LedgerRow;
  db_retention : option RetentionState;
  db_manifest : gmap Z RetentionManifestEntry
}.

(** [system_time_utc_millis]: a time before the epoch counts as the epoch. *)
Definition system_time_utc_millis (time : Z) : option Z := i64_of (Z.max 0 time / 1000000).

Definition retired (db : StatsDb) (day : Z) : bool :=
  match db_retention db with Some r => day <? rt_retired_before r | None => false end.

(** The upserts of one event. *)
Definition insert_event (t : gmap Z Z * gmap (Z * (string * string)) Z) (e : StatsEvent) :
    gmap Z Z * gmap (Z * (string * string)) Z :=
  (bump t.1 (ev_day e),
   foldl (fun m d => bump m (ev_day e, database_parts d)) t.2 (ev_dimensions e)).

Section Backend.
Context (batch_hash : Z * Z * Z * list (Z * Z * list StatsDimension) -> Z).
Abbreviation fp := (fingerprint batch_hash).

Definition apply_stats_batch (db : StatsDb) (b : StatsBatch) (now : Z) : result PortErrorClass StatsDb :=
  if (sb_id b =? 0) || bool_decide (sb_events b = []) then Err PE_InvalidInput
  else
    let hash := be_bytes 8 (fp b) in
    id ← ok_or PE_ResourceExhausted (i64_of (sb_id b));
    match db_ledger db !! id with
    | Some row =>
      if (lr_max_sequence row =? default i64_max (i64_of (sb_max_sequence b))) &&
         (lr_epoch row =? default i64_max (i64_of (sb_epoch b))) &&
         bool_decide (lr_payload_hash row = hash)
      then Ok db else Err PE_CorruptData
    | None =>
      if negb (max_sequence (sb_events b) =? sb_max_sequence b) ||
         negb (bool_decide (NoDup (ev_sequence <$> sb_events b)))
      then Err PE_InvalidInput
      else
        let t := foldl insert_event (db_totals db, db_dimensions db)
                   (filter (fun e => retired db (ev_day e) = false) (sb_events b)) in
        max ← ok_or PE_ResourceExhausted (i64_of (sb_max_sequence b));
        epoch ← ok_or PE_ResourceExhausted (i64_of (sb_epoch b));
        at_ ← ok_or PE_InvalidInput (system_time_utc_millis now);
        Ok (mk_db t.1 t.2 (<[id := mk_row max epoch at_ hash]> (db_ledger db)) (db_retention db)
              (db_manifest db))
    end.

(** ** The SQLite backend *)

Inductive SqlxError := Sqlx_Io | Sqlx_Database | Sqlx_PoolClosed | Sqlx_Other.

Record SqliteBackend := mk_sqlite { sq_health : StorageHealth; sq_db : StatsDb }.

Definition available (h : StorageHealth) : result PortErrorClass unit :=
  match h with Healthy | Degraded => Ok tt | Failed | Stopping => Err PE_Unavailable end.
Definition mark_degraded (h : StorageHealth) : StorageHealth :=
  match h with Healthy | Degraded => Degraded | _ => h end.
Definition mark_failed (h : StorageHealth) : StorageHealth :=
  match h with Stopping => Stopping | _ => Failed end.
Definition mark_healthy (h : StorageHealth) : StorageHealth :=
  match h with Degraded => Healthy | _ => h end.

Definition database_error (h : StorageHealth) (e : SqlxError) : PortErrorClass * StorageHealth :=
  match e with
  | Sqlx_Io | Sqlx_Database => (PE_Unavailable, mark_degraded h)
  | Sqlx_PoolClosed => (PE_Unavailable, mark_failed h)
  | Sqlx_Other => (PE_Internal, mark_failed h)
  end.

(** What happens around one transaction: the clock at the checks of the deadline,
    whether the operation lock is got in time, the failures of [BEGIN], of a statement
    and of [COMMIT] (which may have taken effect all the same), the wall clock, and
    whether the deadline of the whole operation cuts it off, and when. *)
Record TxEnv := mk_tx_env {
  tx_start : Instant;
  tx_check : Instant;
  tx_locked : bool;
  tx_begin : option SqlxError;
  tx_statement : option SqlxError;
  tx_before_commit : Instant;
  tx_commit : option (SqlxError * bool);
  tx_wall : Z;
  tx_cut : option (bool * bool)
}.

(** A transaction around [body]. How the failure of a statement is reported, and what
    an error of the body does to the health, differs between the operations. *)
Definition transaction (s : SqliteBackend) (deadline : Deadline)
    (on_statement : StorageHealth -> SqlxError -> PortErrorClass * StorageHealth)
    (body : StatsDb -> result PortErrorClass StatsDb) (e : TxEnv) :
    result PortErrorClass unit * SqliteBackend :=
  let h := sq_health s in
  let failed x := (Err x.1, mk_sqlite x.2 (sq_db s)) in
  match available h with
  | Err x => (Err x, s)
  | Ok _ =>
    if negb (tx_locked e) then (Err PE_Timeout, s)
    else match tx_begin e with
    | Some x => failed (database_error h x)
    | None =>
      match tx_statement e with
      | Some x => failed (on_statement h x)
      | None =>
        match body (sq_db s) with
        | Err c => (Err c, s)
        | Ok db =>
          if is_expired deadline (tx_before_commit e) then (Err PE_Timeout, s)
          else match tx_commit e with
          | Some (x, applied) =>
              let '(c, h') := database_error h x in
              (Err c, mk_sqlite h' (if applied then db else sq_db s))
          | None => (Ok tt, mk_sqlite (mark_healthy h) db)
          end
        end
      end
    end
  end.

(** [run_with_deadline]: cut off before or after the commit, with or without the
    health already updated. *)
Definition run_with_deadline (s : SqliteBackend) (deadline : Deadline) (e : TxEnv)
    (inner : result PortErrorClass unit * SqliteBackend) : result PortErrorClass unit * SqliteBackend :=
  if is_expired deadline (tx_start e) then (Err PE_Timeout, s)
  else match tx_cut e with
  | None => inner
  | Some (committed, marked) =>
      (Err PE_Timeout, mk_sqlite (if marked then sq_health inner.2 else sq_health s)
                         (if committed then sq_db inner.2 else sq_db s))
  end.

Definition sqlite_execute (s : SqliteBackend) (b : StatsBatch) (deadline : Deadline) (e : TxEnv) :
    result PortErrorClass unit * SqliteBackend :=
  run_with_deadline s deadline e
    (if is_expired deadline (tx_check e) then (Err PE_Timeout, s)
     else transaction s deadline (fun h _ => (PE_Unavailable, mark_degraded h))
            (fun db => apply_stats_batch db b (tx_wall e)) e).

(** ** Retention *)

(** The name of a day's detail file, or none for a day outside the calendar. *)
Context (shard_file_name : Z -> option string).
Definition supported_day (day : Z) : bool := match shard_file_name day with Some _ => true | None => false end.

Definition calculate (policy : RetentionPolicy) (reference_day sampled_bytes : Z) :
    result RetentionPolicyError RetentionPlan :=
  policy ← RetentionPolicy_new (rp_days policy) (rp_grace_days policy) (rp_reference_size policy);
  _ ← ok_or RPE_SampleTooLarge (i64_of sampled_bytes);
  target ← (if rp_reference_size policy <? sampled_bytes then Ok (rp_days policy)
            else if u32_max <? rp_days policy + rp_grace_days policy then Err RPE_Invalid
            else Ok (rp_days policy + rp_grace_days policy));
  before ← (if i32_max <? sat_sub target 1 then Err RPE_DayOutOfRange else Ok (sat_sub target 1));
  if reference_day - before <? i32_min then Err RPE_DayOutOfRange
  else
    let keep_from := reference_day - before in
    if negb (supported_day reference_day) || negb (supported_day keep_from) then Err RPE_DayOutOfRange
    else Ok (mk_plan policy reference_day sampled_bytes target keep_from).

Definition plan_is_valid (p : RetentionPlan) : bool :=
  match calculate (pl_policy p) (pl_reference_day p) (pl_sampled_bytes p) with
  | Ok expected => bool_decide (expected = p)
  | Err _ => false
  end.

(** [INSERT INTO retention_detail_manifest … ON CONFLICT …] *)
Definition upsert_manifest (revision at_ : Z) (m : gmap Z RetentionManifestEntry) (day : Z) :
    gmap Z RetentionManifestEntry :=
  <[day := match m !! day with
           | None => mk_manifest revision MF_Pending 0 None at_
           | Some e =>
             if bool_decide (mf_state e = MF_Reclaimed) then mk_manifest revision MF_Pending 0 None at_
             else mk_manifest revision (mf_state e) (mf_attempts e) (mf_last_error e) at_
           end]> m.

(** The transaction of [publish_retention]; the days of the manifest are inserted in
    order and without repetitions. *)
Definition retention_body (plan : RetentionPlan) (manifest_days : list Z) (replay_floor now : Z)
    (db : StatsDb) : result PortErrorClass StatsDb :=
  let current := db_retention db in
  revision ← ok_or PE_ResourceExhausted
    (match current with None => Some 1 | Some r => checked_add64 (rt_revision r) 1 end);
  let retired_before :=
    match current with None => pl_keep_from plan | Some r => Z.max (rt_retired_before r) (pl_keep_from plan) end in
  watermark ← ok_or PE_ResourceExhausted
    (match current with
     | None => Some 1
     | Some r => if rt_retired_before r <? retired_before then checked_add64 (rt_watermark_revision r) 1
                 else Some (rt_watermark_revision r)
     end);
  _ ← ok_or PE_ResourceExhausted (i64_of revision);
  _ ← ok_or PE_ResourceExhausted (i64_of watermark);
  let floor :=
    match current with None => replay_floor | Some r => Z.max (rt_replay_floor r) replay_floor end in
  at_ ← ok_or PE_InvalidInput (system_time_utc_millis now);
  let days := filter (fun day => day < retired_before)
                (elements (list_to_set manifest_days : gset Z)) in
  if existsb (fun day => negb (supported_day day)) days then Err PE_InvalidInput
  else
    _ ← ok_or PE_ResourceExhausted (i64_of (pl_sampled_bytes plan));
    _ ← ok_or PE_ResourceExhausted (i64_of (rp_reference_size (pl_policy plan)));
    Ok (mk_db (filter (fun x => retired_before <= x.1) (db_totals db))
          (filter (fun x => retired_before <= x.1.1) (db_dimensions db))
          (filter (fun x => floor <= x.1) (db_ledger db))
          (Some (mk_retention revision watermark retired_before (pl_reference_day plan)
                   (pl_target_days plan) (pl_sampled_bytes plan) (rp_reference_size (pl_policy plan))
                   floor at_))
          (foldl (upsert_manifest watermark at_) (db_manifest db) days)).

Definition publish_retention (s : SqliteBackend) (plan : RetentionPlan) (manifest_days : list Z)
    (replay_floor : Z) (deadline : Deadline) (e : TxEnv) : result PortErrorClass unit * SqliteBackend :=
  run_with_deadline s deadline e
    (match available (sq_health s) with
     | Err x => (Err x, s)
     | Ok _ =>
       if (replay_floor =? 0) || bool_decide (i64_of replay_floor = None) || negb (plan_is_valid plan)
       then (Err PE_InvalidInput, s)
       else transaction s deadline database_error
              (retention_body plan manifest_days replay_floor (tx_wall e)) e
     end).

(** [retention_bootstrap]: the first batch id of a new process. *)
Definition next_stats_batch_id (db : StatsDb) : result PortErrorClass Z :=
  let max_id := map_fold (fun id _ m => match m with Some x => Some (Z.max x id) | None => Some id end)
                  None (db_ledger db) in
  ledger_next ← match max_id with
    | Some v => if 0 <? v then ok_or PE_ResourceExhausted (checked_add64 v 1) else Err PE_CorruptData
    | None => Ok 1
    end;
  let next := match db_retention db with Some r => Z.max ledger_next (rt_replay_floor r) | None => ledger_next end in
  if (next =? 0) || bool_decide (i64_of next = None) then Err PE_ResourceExhausted else Ok next.

(** ** The in-memory backend (storage/writer.rs) *)

Record CommittedBatch := mk_committed {
  cb_fingerprint : Z;
  cb_max_sequence : Z;
  cb_epoch : Z;
  cb_committed_at : Z
}.

Record MemoryBackend := mk_memory {
  me_migrated : bool;
  me_health : StorageHealth;
  me_totals : gmap Z Z;
  me_dimensions : gmap (Z * StatsDimension) Z;
  me_committed : gmap Z CommittedBatch
}.

Definition ensure_ready (s : MemoryBackend) : result PortErrorClass unit :=
  match me_health s with
  | Healthy => if me_migrated s then Ok tt else Err PE_Unavailable
  | _ => Err PE_Unavailable
  end.

Definition increment_counter {K} `{Countable K} (m : gmap K Z) (k : K) : result PortErrorClass (gmap K Z) :=
  n ← ok_or PE_ResourceExhausted (checked_add64 (counter m k) 1);
  Ok (<[k := n]> m).

Fixpoint increment_dimensions (m : gmap (Z * StatsDimension) Z) (day : Z) (ds : list StatsDimension) :
    result PortErrorClass (gmap (Z * StatsDimension) Z) :=
  match ds with
  | [] => Ok m
  | d :: ds' => m' ← increment_counter m (day, d); increment_dimensions m' day ds'
  end.

Fixpoint increment_events (t : gmap Z Z) (m : gmap (Z * StatsDimension) Z) (es : list StatsEvent) :
    result PortErrorClass (gmap Z Z * gmap (Z * StatsDimension) Z) :=
  match es with
  | [] => Ok (t, m)
  | e :: es' =>
    t' ← increment_counter t (ev_day e);
    m' ← increment_dimensions m (ev_day e) (ev_dimensions e);
    increment_events t' m' es'
  end.

Definition memory_apply (s : MemoryBackend) (b : StatsBatch) (now : Z) : result PortErrorClass MemoryBackend :=
  if (sb_id b =? 0) || bool_decide (sb_events b = []) then Err PE_InvalidInput
  else match me_committed s !! sb_id b with
  | Some c => if cb_fingerprint c =? fp b then Ok s else Err PE_CorruptData
  | None =>
    if negb (max_sequence (sb_events b) =? sb_max_sequence b) ||
       negb (bool_decide (NoDup (ev_sequence <$> sb_events b)))
    then Err PE_InvalidInput
    else
      t ← increment_events (me_totals s) (me_dimensions s) (sb_events b);
      Ok (mk_memory (me_migrated s) (me_health s) t.1 t.2
            (<[sb_id b := mk_committed (fp b) (sb_max_sequence b) (sb_epoch b) now]> (me_committed s)))
  end.

(** [execute_now] applies to a copy of the state; [e] is the clock at the deadline
    check and the wall clock. *)
Definition memory_execute (s : MemoryBackend) (b : StatsBatch) (deadline : Deadline) (e : Instant * Z) :
    result PortErrorClass unit * MemoryBackend :=
  if is_expired deadline e.1 then (Err PE_Timeout, s)
  else match ensure_ready s with
  | Err x => (Err x, s)
  | Ok _ =>
    match memory_apply s b e.2 with
    | Ok s' => (Ok tt, s')
    | Err x => (Err x, s)
    end
  end.

End Backend.

(** ** What the statistics worker relies on *)

(** A batch as the ledger builds it. *)
Record batch_ok (b : StatsBatch) : Prop := {
  bo_id : 1 <= sb_id b;
  bo_events : sb_events b <> [];
  bo_sequences : NoDup (ev_sequence <$> sb_events b);
  bo_max : sb_max_sequence b = max_sequence (sb_events b);
  bo_valid : Forall (fun e => Forall (fun d => dim_validate d = Ok tt) (ev_dimensions e)) (sb_events b)
}.

(** The numbers of a batch fit the columns of the database. *)
Definition batch_fits (b : StatsBatch) : Prop :=
  sb_id b <= i64_max /\ sb_max_sequence b <= i64_max /\ sb_epoch b <= i64_max.

Class StatsBackend (B E : Type) := {
  be_execute : B -> StatsBatch -> Deadline -> E -> result PortErrorClass unit * B;
  be_total : B -> Z -> Z;
  be_dimension : B -> Z -> StatsDimension -> Z;
  (** Days that retention has not removed. *)
  be_visible : B -> Z -> bool;
  (** Batches that are recorded as applied, and the record of this very batch. *)
  be_known : B -> Z -> bool;
  be_holds : B -> StatsBatch -> Prop;
  (** The lowest id that a batch may still be submitted with. *)
  be_floor : B -> Z;
  (** Retention down to a floor, and the first id of a process that opens the store. *)
  be_maintain : B -> Z -> B -> Prop;
  be_boot : B -> Z -> Prop;
  (** The store is available for this batch. *)
  be_good : B -> StatsBatch -> Deadline -> E -> Prop
}.

Section Contract.
Context {B E : Type} `{StatsBackend B E}.

Definition be_same (s s' : B) : Prop :=
  (forall day, be_total s' day = be_total s day) /\
  (forall day d, be_dimension s' day d = be_dimension s day d) /\
  (forall day, be_visible s' day = be_visible s day) /\
  (forall id, be_known s' id = be_known s id) /\
  (forall b, be_holds s b -> be_holds s' b) /\ be_floor s' = be_floor s.

Definition be_added (s : B) (b : StatsBatch) (s' : B) : Prop :=
  be_known s (sb_id b) = false /\
  (forall day, be_visible s day = true ->
     be_total s' day = be_total s day + Zsum_with (on_day day) (sb_events b)) /\
  (forall day d, be_visible s day = true -> dim_validate d = Ok tt ->
     be_dimension s' day d = be_dimension s day d + Zsum_with (has_dimension day d) (sb_events b)) /\
  (forall day, be_visible s' day = be_visible s day) /\
  (forall id, be_known s' id = bool_decide (id = sb_id b) || be_known s id) /\
  be_holds s' b /\ (forall b', be_holds s b' -> be_holds s' b') /\ be_floor s' = be_floor s.

End Contract.

Class StatsBackendLaws (B E : Type) `{StatsBackend B E} : Prop := {
  (** A batch is applied as a whole and once, or not at all; success means it is applied. *)
  be_execute_law (s : B) b deadline (e : E) res s' :
    batch_ok b -> be_execute s b deadline e = (res, s') ->
    be_same s s' /\ (res = Ok tt -> be_known s (sb_id b) = true) \/ be_added s b s';
  (** A store that is available takes a new batch and one it has applied before. *)
  be_good_law (s : B) b deadline (e : E) :
    batch_ok b -> batch_fits b -> be_good s b deadline e ->
    be_known s (sb_id b) = false \/ be_holds s b -> (be_execute s b deadline e).1 = Ok tt;
  (** Retention keeps the days that stay visible and the records from the floor on. *)
  be_maintain_law (s s' : B) floor :
    be_maintain s floor s' ->
    (forall day, be_visible s' day = true -> be_visible s day = true /\
       be_total s' day = be_total s day /\ forall d, be_dimension s' day d = be_dimension s day d) /\
    (forall id, be_known s' id = true -> be_known s id = true) /\
    (forall id, Z.max (be_floor s) floor <= id -> be_known s' id = be_known s id) /\
    (forall b, be_holds s b -> Z.max (be_floor s) floor <= sb_id b -> be_holds s' b) /\
    be_floor s' <= Z.max (be_floor s) floor;
  be_boot_law (s : B) n :
    be_boot s n -> 1 <= n /\ be_floor s <= n /\ forall id, n <= id -> be_known s id = false;
  be_known_holds (s : B) b : be_holds s b -> be_known s (sb_id b) = true
}.

(** ** The SQLite backend keeps the contract *)

Section Sqlite.
Context (batch_hash : Z * Z * Z * list (Z * Z * list StatsDimension) -> Z).
Context (shard_file_name : Z -> option string).
Abbreviation fp := (fingerprint batch_hash).

#[export, refine] Instance sqlite_backend : StatsBackend SqliteBackend TxEnv := {
  be_execute := sqlite_execute batch_hash;
  be_total s day := counter (db_totals (sq_db s)) day;
  be_dimension s day d := counter (db_dimensions (sq_db s)) (day, database_parts d);
  be_visible s day := negb (retired (sq_db s) day);
  be_known s id := bool_decide (is_Some (db_ledger (sq_db s) !! id));
  be_holds s b := exists at_,
    db_ledger (sq_db s) !! sb_id b = Some (mk_row (sb_max_sequence b) (sb_epoch b) at_ (be_bytes 8 (fp b)));
  be_floor s := match db_retention (sq_db s) with Some r => rt_replay_floor r | None => 0 end;
  be_maintain s floor s' := exists plan days deadline e res,
    publish_retention shard_file_name s plan days floor deadline e = (res, s');
  be_boot s n := next_stats_batch_id (sq_db s) = Ok n;
  be_good s b deadline e :=
    is_ok (available (sq_health s)) = true /\ tx_start e < deadline /\ tx_check e < deadline /\
    tx_before_commit e < deadline /\ tx_locked e = true /\ tx_begin e = None /\ tx_statement e = None /\
    tx_commit e = None /\ tx_cut e = None /\ is_Some (system_time_utc_millis (tx_wall e))
}.
Proof. Defined.

(** An operation changes the database as its transaction says or not at all, and not
    at all only if it reports an error. *)
Definition tx_outcome (body : StatsDb -> result PortErrorClass StatsDb) (s : SqliteBackend)
    (o : result PortErrorClass unit * SqliteBackend) : Prop :=
  sq_db o.2 = sq_db s /\ o.1 <> Ok tt \/ body (sq_db s) = Ok (sq_db o.2).

Lemma transaction_outcome s deadline on_statement body e :
  tx_outcome body s (transaction s deadline on_statement body e).
Proof.
  unfold transaction, tx_outcome. destruct (available _); [|by left].
  destruct (tx_locked e); cbn [negb]; [|by left]. destruct (tx_begin e); [by left|].
  destruct (tx_statement e); [by left|]. destruct (body (sq_db s)) as [db|] eqn:Hb; [|by left].
  destruct (is_expired _ _); [by left|]. destruct (tx_commit e) as [[x [|]]|].
  - destruct (database_error _ _). by right.
  - destruct (database_error _ _). by left.
  - by right.
Qed.

Lemma run_outcome s deadline e body inner :
  tx_outcome body s inner -> tx_outcome body s (run_with_deadline s deadline e inner).
Proof.
  intros H. unfold run_with_deadline. destruct (is_expired _ _); [by left|].
  destruct (tx_cut e) as [[[|] marked]|]; [|by left|done].
  destruct H as [[H _]|H]; [by left|by right].
Qed.

Lemma execute_outcome s b deadline e :
  tx_outcome (fun db => apply_stats_batch batch_hash db b (tx_wall e)) s
    (sqlite_execute batch_hash s b deadline e).
Proof.
  apply run_outcome. destruct (is_expired _ _); [by left|]. apply transaction_outcome.
Qed.

Lemma publish_outcome s plan days floor deadline e :
  tx_outcome (retention_body shard_file_name plan days floor (tx_wall e)) s
    (publish_retention shard_file_name s plan days floor deadline e).
Proof.
  apply run_outcome. destruct (available _); [|by left]. destruct (_ || _); [by left|].
  apply transaction_outcome.
Qed.

(** The upserts of a list of events. *)
Lemma insert_events_totals l t day :
  counter (foldl insert_event t l).1 day = counter t.1 day + Zsum_with (on_day day) l.
Proof.
  revert t. induction l as [|e l IH]; intros t; cbn [foldl].
  - cbn. lia.
  - rewrite IH. cbn [insert_event fst]. rewrite counter_bump. cbn. fold (Zsum_with (on_day day) l).
    unfold on_day at 2. lia.
Qed.

Lemma parts_bumps (day : Z) ds m d (day' : Z) :
  Forall (fun x => dim_validate x = Ok tt) ds -> dim_validate d = Ok tt ->
  counter (foldl (fun m x => bump m (day, database_parts x)) m ds) (day', database_parts d) =
  counter m (day', database_parts d) + (if decide (day = day') then
    Zsum_with (fun x => if decide (x = d) then 1 else 0) ds else 0).
Proof.
  intros Hds Hd. revert m. induction Hds as [|x ds Hx Hds IH]; intros m; cbn [foldl Zsum_with foldr].
  - case_decide; lia.
  - fold (Zsum_with (fun x => if decide (x = d) then 1 else 0) ds). rewrite IH, counter_bump.
    destruct (decide ((day, database_parts x) = (day', database_parts d))) as [E|E].
    + injection E as <- E1 E2.
      assert (x = d) as -> by (apply database_parts_inj; [done..|]; unfold database_parts; congruence).
      rewrite !decide_True by done. lia.
    + destruct (decide (day = day')) as [->|]; [|lia]. rewrite (decide_False (P := x = d)); [lia|].
      intros ->. done.
Qed.

Lemma insert_events_dimensions l t day d :
  Forall (fun e => Forall (fun x => dim_validate x = Ok tt) (ev_dimensions e)) l -> dim_validate d = Ok tt ->
  counter (foldl insert_event t l).2 (day, database_parts d) =
  counter t.2 (day, database_parts d) + Zsum_with (has_dimension day d) l.
Proof.
  intros Hl Hd. revert t. induction Hl as [|e l He Hl IH]; intros t; cbn [foldl].
  - cbn. lia.
  - rewrite IH. cbn [insert_event snd]. rewrite parts_bumps by done. cbn.
    fold (Zsum_with (has_dimension day d) l). unfold has_dimension at 2. lia.
Qed.

(** The events of retired days do not matter to a visible one. *)
Lemma Zsum_visible (w : StatsEvent -> Z) (P : StatsEvent -> Prop) `{forall e, Decision (P e)} l :
  (forall e, ~ P e -> w e = 0) -> Zsum_with w (filter P l) = Zsum_with w l.
Proof.
  intros Hw. induction l as [|e l IH]; [done|]. rewrite filter_cons.
  case_decide; cbn; fold (Zsum_with w l); [|rewrite (Hw e) by done; lia].
  fold (Zsum_with w (filter P l)). lia.
Qed.

Lemma apply_batch_cases db b now db' :
  batch_ok b -> apply_stats_batch batch_hash db b now = Ok db' ->
  db' = db /\ is_Some (db_ledger db !! sb_id b) \/
  db_ledger db !! sb_id b = None /\
  (exists at_, db_ledger db' = <[sb_id b := mk_row (sb_max_sequence b) (sb_epoch b) at_ (be_bytes 8 (fp b))]>
                                (db_ledger db)) /\
  db_retention db' = db_retention db /\
  (db_totals db', db_dimensions db') = foldl insert_event (db_totals db, db_dimensions db)
    (filter (fun e => retired db (ev_day e) = false) (sb_events b)).
Proof.
  intros Hb H. unfold apply_stats_batch in H. destruct (_ || _); [done|].
  apply bind_ok in H as (id & Hid & H). apply ok_or_ok, i64_of_some in Hid as [-> _].
  destruct (db_ledger db !! sb_id b) as [row|] eqn:Hrow.
  - left. destruct (_ && _); [|done]. injection H as <-. split; [done|by eexists].
  - right. split; [done|]. destruct (_ || _); [done|].
    apply bind_ok in H as (mx & Hm & H). apply ok_or_ok, i64_of_some in Hm as [-> _].
    apply bind_ok in H as (ep & He & H). apply ok_or_ok, i64_of_some in He as [-> _].
    apply bind_ok in H as (at_ & _ & H). injection H as <-. cbn. split; [by exists at_|]. split; [done|].
    symmetry. apply surjective_pairing.
Qed.

Lemma sqlite_execute_law (s : SqliteBackend) b deadline e res s' :
  batch_ok b -> be_execute s b deadline e = (res, s') ->
  be_same s s' /\ (res = Ok tt -> be_known s (sb_id b) = true) \/ be_added s b s'.
Proof.
  intros Hb H. pose proof (execute_outcome s b deadline e) as Ho. cbn in H. rewrite H in Ho.
  destruct Ho as [[Hdb Hres]|Hbody]; cbn [fst snd] in *.
  - left. split; [|by intros ->]. unfold be_same. cbn. rewrite Hdb. done.
  - apply apply_batch_cases in Hbody as [[Hdb Hk]|(Hn & [at_ Hl] & Hr & Ht)]; [..|done].
    + left. split; [unfold be_same; cbn; rewrite Hdb; done|]. intros _. by apply bool_decide_true.
    + right. unfold be_added. cbn.
      assert (Hret : forall day, retired (sq_db s') day = retired (sq_db s) day)
        by (intros; unfold retired; by rewrite Hr).
      assert (Hsum : forall w : StatsEvent -> Z, forall day, retired (sq_db s) day = false ->
        (forall x, ev_day x <> day -> w x = 0) ->
        Zsum_with w (filter (fun x => retired (sq_db s) (ev_day x) = false) (sb_events b)) =
        Zsum_with w (sb_events b)).
      { intros w day Hv Hw. apply Zsum_visible. intros x Hx. apply Hw. intros E. apply Hx. by rewrite E. }
      pose proof (f_equal fst Ht) as Ht1. pose proof (f_equal snd Ht) as Hd. cbn [fst snd] in Ht1, Hd.
      repeat split.
      * apply bool_decide_false. rewrite Hn. by intros [? ?].
      * intros day Hv. apply negb_true_iff in Hv. rewrite Ht1, insert_events_totals, (Hsum _ day Hv); [done|].
        intros x Hx. unfold on_day. by rewrite decide_False.
      * intros day d Hv Hvd. apply negb_true_iff in Hv.
        rewrite Hd, insert_events_dimensions, (Hsum _ day Hv); [done|..|done].
        -- intros x Hx. unfold has_dimension. by rewrite decide_False.
        -- apply list.Forall_forall. intros x [_ Hx]%list_elem_of_filter.
           apply (proj1 (list.Forall_forall _ _) (bo_valid b Hb) x Hx).
      * intros day. by rewrite Hret.
      * intros id. rewrite Hl. destruct (decide (id = sb_id b)) as [->|E].
        -- rewrite lookup_insert_eq, (bool_decide_true (_ = _)) by done. done.
        -- rewrite lookup_insert_ne by done. by rewrite (bool_decide_false (id = _)).
      * exists at_. by rewrite Hl, lookup_insert_eq.
      * intros b' [a Ha]. exists a. rewrite Hl, lookup_insert_ne; [done|]. intros E. rewrite <-E, Hn in Ha. done.
      * by rewrite Hr.
Qed.

Lemma sqlite_good_law (s : SqliteBackend) b deadline e :
  batch_ok b -> batch_fits b -> be_good s b deadline e ->
  be_known s (sb_id b) = false \/ be_holds s b -> (be_execute s b deadline e).1 = Ok tt.
Proof.
  intros Hb (Hi & Hm & Hp) (Ha & H1 & H2 & H3 & Hl & Hg & Hs & Hc & Hu & [w Hw]) Hk.
  cbn. unfold sqlite_execute, run_with_deadline, transaction, is_expired.
  rewrite (proj2 (Z.leb_gt deadline (tx_start e))), (proj2 (Z.leb_gt deadline (tx_check e))) by done.
  rewrite Hu. destruct (available (sq_health s)) as [[]|]; [|done].
  rewrite Hl, Hg, Hs, Hc, (proj2 (Z.leb_gt deadline (tx_before_commit e))) by done. cbn [negb].
  enough (exists db, apply_stats_batch batch_hash (sq_db s) b (tx_wall e) = Ok db) as [db ->] by done.
  destruct Hb as [Hid Hev Hnd Hmax _]. unfold apply_stats_batch, i64_of.
  rewrite (proj2 (Z.eqb_neq (sb_id b) 0)), bool_decide_false by (done || lia). cbn [orb].
  rewrite (proj2 (Z.leb_le (sb_id b) i64_max)) by done. cbn.
  rewrite (proj2 (Z.leb_le (sb_max_sequence b) i64_max)), (proj2 (Z.leb_le (sb_epoch b) i64_max)) by done.
  destruct Hk as [Hk|[at_ Hk]].
  - cbn in Hk. apply bool_decide_eq_false, eq_None_not_Some in Hk. rewrite Hk.
    rewrite <-Hmax, Z.eqb_refl, bool_decide_true by done. cbn. rewrite Hw. by eexists.
  - rewrite Hk. cbn. rewrite !Z.eqb_refl, bool_decide_true by done. by eexists.
Qed.

Lemma counter_filter {K} `{Countable K} (P : K * Z -> Prop) `{forall x, Decision (P x)} (m : gmap K Z) k :
  (forall v, P (k, v)) -> counter (filter P m) k = counter m k.
Proof.
  intros Hp. unfold counter. destruct (m !! k) as [v|] eqn:E.
  - by rewrite (proj2 (map_lookup_filter_Some P m k v)).
  - rewrite (proj2 (map_lookup_filter_None P m k)); [done|]. by left.
Qed.

Lemma retention_body_spec plan days floor now db db' :
  retention_body shard_file_name plan days floor now db = Ok db' ->
  exists r, db_retention db' = Some r /\
    rt_retired_before r = match db_retention db with
      | Some c => Z.max (rt_retired_before c) (pl_keep_from plan) | None => pl_keep_from plan end /\
    rt_replay_floor r = match db_retention db with
      | Some c => Z.max (rt_replay_floor c) floor | None => floor end /\
    rt_revision r = match db_retention db with Some c => rt_revision c + 1 | None => 1 end /\
    db_totals db' = filter (fun x => rt_retired_before r <= x.1) (db_totals db) /\
    db_dimensions db' = filter (fun x => rt_retired_before r <= x.1.1) (db_dimensions db) /\
    db_ledger db' = filter (fun x => rt_replay_floor r <= x.1) (db_ledger db).
Proof.
  intros H. unfold retention_body in H.
  apply bind_ok in H as (rev & Hrev & H). apply bind_ok in H as (wm & _ & H).
  apply bind_ok in H as (? & _ & H).
  apply bind_ok in H as (? & _ & H). apply bind_ok in H as (at_ & _ & H).
  destruct (existsb _ _); [done|]. apply bind_ok in H as (? & _ & H). apply bind_ok in H as (? & _ & H).
  injection H as <-. eexists. cbn. split; [reflexivity|]. cbn. repeat split.
  apply ok_or_ok in Hrev. destruct (db_retention db); [|by injection Hrev].
  by apply checked_add64_some in Hrev as [-> _].
Qed.

Lemma sqlite_maintain_law (s s' : SqliteBackend) floor :
  be_maintain s floor s' ->
  (forall day, be_visible s' day = true -> be_visible s day = true /\
     be_total s' day = be_total s day /\ forall d, be_dimension s' day d = be_dimension s day d) /\
  (forall id, be_known s' id = true -> be_known s id = true) /\
  (forall id, Z.max (be_floor s) floor <= id -> be_known s' id = be_known s id) /\
  (forall b, be_holds s b -> Z.max (be_floor s) floor <= sb_id b -> be_holds s' b) /\
  be_floor s' <= Z.max (be_floor s) floor.
Proof.
  cbn. intros (plan & days & deadline & e & res & H).
  pose proof (publish_outcome s plan days floor deadline e) as Ho. rewrite H in Ho.
  destruct Ho as [[Hdb _]|Hb]; cbn [snd] in *.
  - rewrite Hdb. repeat split; try done. lia.
  - apply retention_body_spec in Hb as (r & Hr & Hret & Hfl & _ & Ht & Hd & Hl).
    assert (Hkeep : forall id row, Z.max (be_floor s) floor <= id -> db_ledger (sq_db s) !! id = Some row ->
      db_ledger (sq_db s') !! id = Some row).
    { intros id row Hid E. rewrite Hl. apply map_lookup_filter_Some. split; [done|]. cbn in *. rewrite Hfl.
      destruct (db_retention (sq_db s)); lia. }
    assert (Hsub : forall id, is_Some (db_ledger (sq_db s') !! id) -> is_Some (db_ledger (sq_db s) !! id)).
    { intros id [row E]. rewrite Hl in E. apply map_lookup_filter_Some in E as [E _]. by exists row. }
    unfold retired. rewrite Hr. split; [|split; [|split; [|split]]].
    + intros day Hv. apply negb_true_iff, Z.ltb_ge in Hv. split; [|split].
      * apply negb_true_iff. destruct (db_retention (sq_db s)) as [c|]; [|done]. apply Z.ltb_ge. lia.
      * rewrite Ht. by apply counter_filter.
      * intros d. rewrite Hd. by apply counter_filter.
    + intros id Hk%bool_decide_eq_true. apply bool_decide_eq_true. by apply Hsub.
    + intros id Hid. apply bool_decide_ext. split; [apply Hsub|]. intros [row E]. exists row. by apply Hkeep.
    + intros b [at_ E] Hid. exists at_. by apply Hkeep.
    + rewrite Hfl. cbn in *. destruct (db_retention (sq_db s)); lia.
Qed.

Lemma next_batch_id_spec db n :
  next_stats_batch_id db = Ok n ->
  1 <= n /\ (forall r, db_retention db = Some r -> rt_replay_floor r <= n) /\
  forall id, n <= id -> db_ledger db !! id = None.
Proof.
  unfold next_stats_batch_id. set (f := fun id (_ : LedgerRow) m => _).
  assert (Hf : forall id, match map_fold f None (db_ledger db) with
    | Some m => is_Some (db_ledger db !! id) -> id <= m | None => db_ledger db !! id = None end).
  { apply (map_fold_weak_ind (fun acc l => forall id, match acc with
      | Some m => is_Some (l !! id) -> id <= m | None => l !! id = None end)).
    - intros id. apply lookup_empty.
    - intros i row l acc Hi IH id. unfold f. destruct acc as [m|]; intros [r Hr].
      + destruct (decide (id = i)) as [->|E]; [lia|]. rewrite lookup_insert_ne in Hr by done.
        specialize (IH id ltac:(by exists r)). lia.
      + destruct (decide (id = i)) as [->|E]; [lia|]. rewrite lookup_insert_ne, IH in Hr by done. done. }
  intros H. apply bind_ok in H as (ln & Hln & H).
  set (next := match db_retention db with Some r => _ | None => _ end) in H.
  destruct (_ || _); [done|]. injection H as <-.
  assert (Hl : ln <= next) by (unfold next; destruct (db_retention db); lia).
  destruct (map_fold f None (db_ledger db)) as [m|].
  - destruct (Z.ltb_spec 0 m); [|done]. apply ok_or_ok, checked_add64_some in Hln as [-> _].
    split; [lia|]. split.
    + intros r Hr. unfold next. rewrite Hr. lia.
    + intros id Hid. destruct (db_ledger db !! id) as [row|] eqn:E; [|done].
      specialize (Hf id ltac:(rewrite E; by eexists)). lia.
  - injection Hln as <-. split; [lia|]. split; [|by intros; apply Hf].
    intros r Hr. unfold next. rewrite Hr. lia.
Qed.

#[export] Instance sqlite_laws : StatsBackendLaws SqliteBackend TxEnv.
Proof.
  split.
  - apply sqlite_execute_law.
  - apply sqlite_good_law.
  - apply sqlite_maintain_law.
  - intros s n Hn. apply next_batch_id_spec in Hn as (H1 & H2 & H3). split; [done|]. split.
    + cbn. destruct (db_retention (sq_db s)) as [r|]; [by apply H2|lia].
    + intros id Hid. apply bool_decide_eq_false. rewrite H3 by done. by intros [? ?].
  - intros s b [at_ Hb]. apply bool_decide_eq_true. by eexists.
Qed.

End Sqlite.

(** ** The in-memory backend keeps the contract *)

Section Memory.
Context (batch_hash : Z * Z * Z * list (Z * Z * list StatsDimension) -> Z).
Abbreviation fp := (fingerprint batch_hash).

#[export, refine] Instance memory_backend : StatsBackend MemoryBackend (Instant * Z) := {
  be_execute := memory_execute batch_hash;
  be_total s day := counter (me_totals s) day;
  be_dimension s day d := counter (me_dimensions s) (day, d);
  be_visible _ _ := true;
  be_known s id := bool_decide (is_Some (me_committed s !! id));
  be_holds s b := exists c, me_committed s !! sb_id b = Some c /\ cb_fingerprint c = fp b;
  be_floor _ := 0;
  be_maintain s _ s' := s' = s;
  be_boot s n := n = 1 /\ me_committed s = ∅;
  be_good s b deadline e :=
    e.1 < deadline /\ ensure_ready s = Ok tt /\
    is_ok (increment_events (me_totals s) (me_dimensions s) (sb_events b)) = true
}.
Proof. Defined.

Lemma increment_counter_ok {K} `{Countable K} (m : gmap K Z) k m' :
  increment_counter m k = Ok m' -> m' = bump m k.
Proof.
  unfold increment_counter. intros H1. apply bind_ok in H1 as (n & Hn & H1).
  apply ok_or_ok, checked_add64_some in Hn as [-> _]. by injection H1.
Qed.

Lemma increment_dimensions_ok m day ds m' :
  increment_dimensions m day ds = Ok m' -> m' = foldl (fun m d => bump m (day, d)) m ds.
Proof.
  revert m. induction ds as [|d ds IH]; intros m H; cbn in *; [by injection H|].
  apply bind_ok in H as (m1 & H1 & H). apply increment_counter_ok in H1 as ->. by apply IH.
Qed.

Lemma increment_events_ok t m es t' m' day d :
  increment_events t m es = Ok (t', m') ->
  counter t' day = counter t day + Zsum_with (on_day day) es /\
  counter m' (day, d) = counter m (day, d) + Zsum_with (has_dimension day d) es.
Proof.
  revert t m. induction es as [|e es IH]; intros t m H; cbn in *.
  - injection H as -> ->. lia.
  - apply bind_ok in H as (t1 & H1 & H). apply bind_ok in H as (m1 & H2 & H).
    apply increment_counter_ok in H1 as ->. apply increment_dimensions_ok in H2 as ->.
    apply IH in H as [-> ->]. rewrite counter_bump, counter_bumps.
    fold (Zsum_with (on_day day) es) (Zsum_with (has_dimension day d) es).
    unfold on_day at 2, has_dimension at 2. lia.
Qed.

Lemma memory_execute_law (s : MemoryBackend) b deadline e res s' :
  batch_ok b -> be_execute s b deadline e = (res, s') ->
  be_same s s' /\ (res = Ok tt -> be_known s (sb_id b) = true) \/ be_added s b s'.
Proof.
  intros Hb H. cbn in H. unfold memory_execute in H.
  assert (Hsame : be_same s s) by done.
  destruct (is_expired _ _); [injection H as <- <-; by left|].
  destruct (ensure_ready s); [|injection H as <- <-; by left].
  destruct (memory_apply batch_hash s b e.2) as [s1|] eqn:Ha; injection H as <- <-; [|by left].
  unfold memory_apply in Ha. destruct (_ || _); [done|].
  destruct (me_committed s !! sb_id b) as [c|] eqn:Hc.
  - destruct (_ =? _); [|done]. injection Ha as <-. left. split; [done|]. intros _.
    apply bool_decide_eq_true. by eexists.
  - destruct (_ || _); [done|]. apply bind_ok in Ha as ([t m] & Ht & Ha). injection Ha as <-.
    right. unfold be_added. cbn. repeat split.
    + apply bool_decide_eq_false. rewrite Hc. by intros [? ?].
    + intros day _. apply (increment_events_ok _ _ _ _ _ day (dim_rcode 0)) in Ht. apply Ht.
    + intros day d _ _. apply (increment_events_ok _ _ _ _ _ day d) in Ht. apply Ht.
    + intros id. destruct (decide (id = sb_id b)) as [->|E].
      * by rewrite lookup_insert_eq, (bool_decide_true (_ = _)).
      * by rewrite lookup_insert_ne, (bool_decide_false (id = _)).
    + eexists. split; [by rewrite lookup_insert_eq|done].
    + intros b' (c & Hc' & Hfp). exists c. split; [|done]. rewrite lookup_insert_ne; [done|].
      intros E. by rewrite <-E, Hc in Hc'.
Qed.

Lemma memory_good_law (s : MemoryBackend) b deadline e :
  batch_ok b -> batch_fits b -> be_good s b deadline e ->
  be_known s (sb_id b) = false \/ be_holds s b -> (be_execute s b deadline e).1 = Ok tt.
Proof.
  intros [Hid Hev Hnd Hmax _] _ (He & Hr & Hi) Hk. cbn. unfold memory_execute, is_expired.
  rewrite (proj2 (Z.leb_gt deadline e.1)), Hr by done. unfold memory_apply.
  rewrite (proj2 (Z.eqb_neq (sb_id b) 0)), bool_decide_false by (done || lia). cbn [orb].
  destruct Hk as [Hk|(c & Hc & Hfp)].
  - apply bool_decide_eq_false, eq_None_not_Some in Hk. rewrite Hk.
    rewrite <-Hmax, Z.eqb_refl, bool_decide_true by done. cbn.
    by destruct (increment_events _ _ _).
  - by rewrite Hc, Hfp, Z.eqb_refl.
Qed.

#[export] Instance memory_laws : StatsBackendLaws MemoryBackend (Instant * Z).
Proof.
  split.
  - apply memory_execute_law.
  - apply memory_good_law.
  - intros s s' floor ->. split; [|split; [|split; [|split]]]; cbn; naive_solver lia.
  - intros s n [-> Hc]. split; [lia|]. split; [cbn; lia|]. intros id _. cbn.
    apply bool_decide_eq_false. rewrite Hc, lookup_empty. by intros [? ?].
  - intros s b (c & Hc & _). apply bool_decide_eq_true. by eexists.
Qed.

End Memory.

(** ** Retention plans *)

(** A plan keeps the configured number of days, the reference day included, and the
    grace days as well unless the detail files have outgrown the reference size; the
    days are within the range of the calendar and the arithmetic does not overflow. *)
Theorem calculate_spec shard_file_name policy reference sampled plan :
  0 <= rp_days policy -> 0 <= rp_grace_days policy -> i32_min <= reference <= i32_max ->
  calculate shard_file_name policy reference sampled = Ok plan ->
  pl_target_days plan =
    rp_days policy + (if rp_reference_size policy <? sampled then 0 else rp_grace_days policy) /\
  1 <= pl_target_days plan <= MAX_RETENTION_DAYS /\
  pl_keep_from plan = reference - pl_target_days plan + 1 /\
  i32_min <= pl_keep_from plan <= reference /\
  is_Some (shard_file_name (pl_keep_from plan)) /\ plan_is_valid shard_file_name plan = true.
Proof.
  intros Hd Hg Hr H. pose proof H as Hcalc. unfold calculate in H.
  apply bind_ok in H as (p & Hp & H). unfold RetentionPolicy_new in Hp.
  match type of Hp with (if ?c then _ else _) = _ => destruct c eqn:Ep end; [done|]. injection Hp as <-. cbn in H.
  apply bind_ok in H as (? & _ & H). apply bind_ok in H as (target & Ht & H).
  apply bind_ok in H as (before & Hb & H).
  destruct (Z.ltb_spec i32_max (sat_sub target 1)); [done|]. injection Hb as <-.
  destruct (Z.ltb_spec (reference - sat_sub target 1) i32_min); [done|].
  match type of H with (if ?c then _ else _) = _ => destruct c eqn:Es end; [done|]. injection H as <-. cbn [pl_target_days pl_keep_from].
  rewrite !orb_false_iff in Ep. destruct Ep as [[[E1 E2] [E3 E4]] E5].
  apply Z.eqb_neq in E1. apply Z.ltb_ge in E2, E3, E4.
  assert (Htd : target = rp_days policy + (if rp_reference_size policy <? sampled then 0 else rp_grace_days policy)).
  { destruct (_ <? _); [injection Ht as <-; lia|].
    destruct (Z.ltb_spec u32_max (rp_days policy + rp_grace_days policy)); [done|]. by injection Ht. }
  assert (1 <= target <= MAX_RETENTION_DAYS) by (destruct (_ <? sampled); lia).
  unfold sat_sub in *. apply orb_false_iff in Es as [_ Es]. apply negb_false_iff in Es. unfold supported_day in Es.
  repeat split; try done; try lia.
  - destruct (shard_file_name _); [by eexists|done].
  - unfold plan_is_valid. cbn [pl_policy pl_reference_day pl_sampled_bytes]. destruct policy. cbn in *.
    rewrite Hcalc. by apply bool_decide_true.
Qed.

Lemma calculate_spec_witness :
  exists plan, calculate (fun _ => Some "day") (mk_policy 7 3 1000) 20000 500 = Ok plan /\
    pl_target_days plan = 10 /\ pl_keep_from plan = 19991.
Proof.
  destruct (calculate (fun _ => Some "day") (mk_policy 7 3 1000) 20000 500) as [plan|] eqn:E;
    [|vm_compute in E; discriminate].
  exists plan. split; [done|].
  destruct (calculate_spec (fun _ => Some "day") (mk_policy 7 3 1000) 20000 500 plan) as (H1 & _ & H2 & _);
    [cbn; lia|cbn; lia|unfold i32_min, i32_max; lia|exact E|].
  cbn in H1. split; lia.
Defined.

(** Retention never goes back: each publication has the next revision, and neither
    the watermark nor the replay floor decreases; counts of the days that stay and the
    records of batches at or above the floor are untouched. *)
Theorem publish_retention_monotone shard_file_name s plan days floor deadline e res s' r :
  publish_retention shard_file_name s plan days floor deadline e = (res, s') ->
  db_retention (sq_db s) = Some r ->
  exists r', db_retention (sq_db s') = Some r' /\
    rt_retired_before r <= rt_retired_before r' /\ rt_replay_floor r <= rt_replay_floor r' /\
    (res = Ok tt -> rt_revision r' = rt_revision r + 1 /\ pl_keep_from plan <= rt_retired_before r') /\
    (forall day, rt_retired_before r' <= day ->
       counter (db_totals (sq_db s')) day = counter (db_totals (sq_db s)) day) /\
    (forall id, rt_replay_floor r' <= id -> db_ledger (sq_db s') !! id = db_ledger (sq_db s) !! id).
Proof.
  intros H Hr. pose proof (publish_outcome shard_file_name s plan days floor deadline e) as Ho.
  rewrite H in Ho. destruct Ho as [[Hdb Hres]|Hb]; cbn [fst snd] in *.
  - exists r. rewrite Hdb, Hr. repeat split; try done; lia.
  - apply retention_body_spec in Hb as (r' & Hr' & Hret & Hfl & Hrev & Ht & _ & Hl). rewrite Hr in *.
    exists r'. split; [done|]. split; [lia|]. split; [lia|]. split; [intros _; lia|]. split.
    + intros day Hday. rewrite Ht. by apply counter_filter.
    + intros id Hid. rewrite Hl. destruct (db_ledger (sq_db s) !! id) as [row|] eqn:E.
      * by apply map_lookup_filter_Some.
      * apply map_lookup_filter_None. by left.
Qed.

Lemma publish_retention_monotone_witness :
  let r := mk_retention 4 2 19980 20000 10 0 1000 3 0 in
  let s := mk_sqlite Healthy (mk_db (<[19985 := 7]> (<[19995 := 9]> ∅)) ∅ ∅ (Some r) ∅) in
  let env := mk_tx_env 0 0 true None None 0 None 1000000 None in
  let out := publish_retention (fun _ => Some "day") s (mk_plan (mk_policy 7 3 1000) 20000 500 10 19991) [] 5 10 env in
  out.1 = Ok tt /\
  exists r', db_retention (sq_db out.2) = Some r' /\ rt_revision r' = 5 /\ 19991 <= rt_retired_before r' /\
    3 <= rt_replay_floor r'.
Proof.
  intros r s env out. assert (Hok : out.1 = Ok tt) by by vm_compute. split; [exact Hok|].
  destruct (publish_retention_monotone (fun _ => Some "day") s
    (mk_plan (mk_policy 7 3 1000) 20000 500 10 19991) [] 5 10 env out.1 out.2 r (surjective_pairing out) eq_refl)
    as (r' & Hr & _ & Hf & Hrev & _).
  exists r'. destruct (Hrev Hok) as [H1 H2]. split; [exact Hr|]. split; [exact H1|]. split; [exact H2|exact Hf].
Defined.
