(* ===== verification/StatsPipeline.v ===== *)
(** * Persistence of the statistics (src/backend/src/storage/stats.rs)

    The worker that swaps the epochs of the accumulator, queues them in the ledger and
    submits the batches to the store, and the system it forms with the requests that
    record events, with retention, and with restarts of the process. Flushes and
    retention exclude each other by the flush lock; requests record at any time. The
    theorems are proved for every store that keeps the contract of [StatsBackend]. *)

From S2P Require Import Prelude Message CacheModel Stats StatsStore.

Definition MAX_PENDING_STATS_BATCHES : Z := 64.
Definition MAX_PENDING_STATS_EVENTS : Z := 65536.

Record StatsPendingLimit := mk_limit {
  li_pending_batches : Z;
  li_pending_events : Z;
  li_active_events : Z;
  li_max_batches : Z;
  li_max_events : Z
}.

Inductive StatsPersistenceError :=
| SPE_Ledger (e : BatchLedgerError)
| SPE_Backend (e : PortErrorClass)
| SPE_PendingLimit (l : StatsPendingLimit)
(** The panic of an exhausted epoch counter. *)
| SPE_Panic.

Record FlushSummary := mk_flush_summary {
  fs_batches_committed : Z;
  fs_events_committed : Z;
  fs_pending_batches : Z;
  fs_persistence_gap : bool
}.

(** The first half of [flush]: the limits, the swap of the epoch and the new batch. *)
Definition flush_checkpoint (a : StatsAccumulator) (l : BatchLedger) :
    result StatsPersistenceError unit * StatsAccumulator * BatchLedger :=
  let limit active :=
    SPE_PendingLimit (mk_limit (pending_count l) (pending_event_count l) active
                        MAX_PENDING_STATS_BATCHES MAX_PENDING_STATS_EVENTS) in
  if (MAX_PENDING_STATS_BATCHES <=? pending_count l) || (MAX_PENDING_STATS_EVENTS <=? pending_event_count l)
  then (Err (limit (active_event_count a)), a, l)
  else match try_swap_epoch a (sat_sub MAX_PENDING_STATS_EVENTS (pending_event_count l)) with
  | Err (TooManyEvents n) => (Err (limit n), a, l)
  | Err EpochsExhausted => (Err SPE_Panic, a, l)
  | Ok (s, a') =>
    if 0 <? ss_event_count s then
      match ledger_enqueue l s with
      | (Ok _, l') => (Ok tt, a', l')
      | (Err e, l') => (Err (SPE_Ledger e), a', l')
      end
    else (Ok tt, a', l)
  end.

Section Worker.
Context (batch_hash : Z * Z * Z * list (Z * Z * list StatsDimension) -> Z).
Context (shard_hash : Z -> list StatsDimension -> Z).
Context {B E : Type} `{!StatsBackend B E}.

(** One round of the loop of [flush]. *)
Definition flush_batch (l : BatchLedger) (s : B) (b : StatsBatch) (deadline : Deadline) (e : E) (now : Z) :
    result StatsPersistenceError unit * BatchLedger * B :=
  match be_execute s b deadline e with
  | (Err x, s') =>
    match ledger_mark_failed l (sb_id b) with
    | (Ok _, l') => (Err (SPE_Backend x), l', s')
    | (Err y, l') => (Err (SPE_Ledger y), l', s')
    end
  | (Ok _, s') =>
    match ledger_commit batch_hash l (sb_id b) now with
    | (Ok _, l') => (Ok tt, l', s')
    | (Err y, l') => (Err (SPE_Ledger y), l', s')
    end
  end.

(** The loop: [n] numbers its rounds, which the environment sees; [None] is lack of
    fuel. *)
Fixpoint flush_loop (fuel n : nat) (l : BatchLedger) (s : B) (deadline : Deadline) (e : nat -> E)
    (now : nat -> Z) (sum : Z * Z) : option (result StatsPersistenceError (Z * Z) * BatchLedger * B) :=
  match fuel with
  | O => None
  | S fuel' =>
    match next_pending_batch l with
    | None => Some (Ok sum, l, s)
    | Some b =>
      match flush_batch l s b deadline (e n) (now n) with
      | (Err x, l', s') => Some (Err x, l', s')
      | (Ok _, l', s') =>
        flush_loop fuel' (S n) l' s' deadline e now
          (sat_add64 sum.1 1, sat_add64 sum.2 (Z.of_nat (length (sb_events b))))
      end
    end
  end.

(** [flush]: whether the flush lock is got in time, the store's environment per batch,
    the wall clock, and what requests do to the accumulator meanwhile. *)
Record FlushEnv := mk_flush_env {
  fl_locked : bool;
  fl_tx : nat -> E;
  fl_now : nat -> Z;
  fl_others : StatsAccumulator -> StatsAccumulator
}.

Definition flush (a : StatsAccumulator) (l : BatchLedger) (s : B) (deadline : Deadline) (e : FlushEnv) :
    option (result StatsPersistenceError FlushSummary * StatsAccumulator * BatchLedger * B) :=
  if negb (fl_locked e) then Some (Err (SPE_Backend PE_Timeout), a, l, s)
  else
    let '(res, a1, l1) := flush_checkpoint a l in
    match res with
    | Err x => Some (Err x, a1, l1, s)
    | Ok _ =>
      '(res, l2, s2) ← flush_loop (S (size (bl_pending l1))) 0 l1 s deadline (fl_tx e) (fl_now e) (0, 0);
      let a2 := fl_others e a1 in
      Some (match res with
            | Err x => Err x
            | Ok sum =>
                Ok (mk_flush_summary sum.1 sum.2 (pending_count l2)
                      (match persistence_gap a2 l2 with Clear => false | _ => true end))
            end, a2, l2, s2)
    end.

(** ** The system *)

Record StatsSystem := mk_system {
  st_acc : StatsAccumulator;
  st_ledger : BatchLedger;
  st_store : B;
  (** Events whose sequence number is allocated and that are not in a shard yet. *)
  st_inflight : list StatsEvent;
  (** The flush lock is held by a flush. *)
  st_flushing : bool;
  (** All events ever recorded, and those lost: with the memory of a process that
      ended, or with a batch that got no id. *)
  st_log : list StatsEvent;
  st_lost : list StatsEvent
}.

(** Events of the queued batches that the store has not applied. *)
Definition waiting (s : B) (l : BatchLedger) : list StatsEvent :=
  concat ((fun x => if be_known s x.1 then [] else sb_events (pb_batch x.2)) <$> map_to_list (bl_pending l)).

Inductive stats_step : StatsSystem -> StatsSystem -> Prop :=
| Step_allocate a l s fl f log lost day ds res a' :
    allocate_event a day ds = (res, a') ->
    stats_step (mk_system a l s fl f log lost)
      (mk_system a' l s (match res with Ok e => e :: fl | Err _ => fl end) f log lost)
| Step_record a l s fl1 e fl2 f log lost res a' :
    record_event shard_hash a e = (res, a') ->
    stats_step (mk_system a l s (fl1 ++ e :: fl2) f log lost)
      (mk_system a' l s (fl1 ++ fl2) f (match res with Ok _ => e :: log | Err _ => log end) lost)
| Step_checkpoint a l s fl log lost res a' l' :
    flush_checkpoint a l = (res, a', l') ->
    stats_step (mk_system a l s fl false log lost)
      (mk_system a' l' s fl (is_ok res) log
         (match res with Err (SPE_Ledger _) => active_events a ++ lost | _ => lost end))
| Step_batch a l s fl log lost b deadline e now res l' s' :
    next_pending_batch l = Some b -> flush_batch l s b deadline e now = (res, l', s') ->
    stats_step (mk_system a l s fl true log lost) (mk_system a l' s' fl (is_ok res) log lost)
| Step_done a l s fl log lost :
    next_pending_batch l = None ->
    stats_step (mk_system a l s fl true log lost) (mk_system a l s fl false log lost)
(** The future of a flush is dropped while a batch is being executed. *)
| Step_dropped a l s fl log lost b deadline e res s' :
    next_pending_batch l = Some b -> be_execute s b deadline e = (res, s') ->
    stats_step (mk_system a l s fl true log lost) (mk_system a l s' fl false log lost)
(** Retention holds the flush lock; the ledger is reclaimed only if it succeeds. *)
| Step_retention a l s fl log lost s' reclaimed :
    be_maintain s (replay_floor_batch_id l) s' ->
    stats_step (mk_system a l s fl false log lost)
      (mk_system a (if reclaimed : bool then reclaim_committed_before l (replay_floor_batch_id l) else l)
         s' fl false log lost)
(** The process ends, at any point, and a new one opens the store. *)
| Step_restart a l s fl f log lost n :
    be_boot s n ->
    stats_step (mk_system a l s fl f log lost)
      (mk_system with_default_shards (with_next_batch_id n) s [] false log
         (waiting s l ++ active_events a ++ lost)).

Definition stats_init (s : B) (n : Z) : StatsSystem :=
  mk_system with_default_shards (with_next_batch_id n) s [] false [] [].

(** ** Batches in a map *)

Section Gather.
Context (f : Z * PendingStatsBatch -> list StatsEvent).
Definition gather (m : gmap Z PendingStatsBatch) : list StatsEvent := concat (f <$> map_to_list m).

Lemma gather_perm l1 l2 : l1 ≡ₚ l2 -> concat (f <$> l1) ≡ₚ concat (f <$> l2).
Proof. intros H. induction H; cbn; [done|by f_equiv| |by etrans]. rewrite !app_assoc. f_equiv. apply Permutation_app_comm. Qed.

Lemma gather_insert m k x : m !! k = None -> gather (<[k := x]> m) ≡ₚ f (k, x) ++ gather m.
Proof. intros H. unfold gather. by rewrite (gather_perm _ _ (map_to_list_insert m k x H)). Qed.

Lemma gather_delete m k x : m !! k = Some x -> gather m ≡ₚ f (k, x) ++ gather (delete k m).
Proof.
  intros H. rewrite <-(insert_delete_id m k x) at 1 by done.
  rewrite gather_insert by apply lookup_delete_eq. done.
Qed.

End Gather.

Lemma gather_ext f g m :
  (forall k x, m !! k = Some x -> f (k, x) = g (k, x)) -> gather f m = gather g m.
Proof.
  intros H. unfold gather. f_equal. apply list_fmap_ext. intros i [k x] Hi.
  apply H, elem_of_map_to_list. by apply list_elem_of_lookup_2 with i.
Qed.

Lemma length_gather m :
  Zsum_with (fun x => Z.of_nat (length (sb_events (pb_batch x.2)))) (map_to_list m) =
  Z.of_nat (length (gather (fun x => sb_events (pb_batch x.2)) m)).
Proof.
  unfold gather. induction (map_to_list m) as [|x l IH]; [done|]. cbn. rewrite length_app.
  fold (Zsum_with (fun x => Z.of_nat (length (sb_events (pb_batch (snd x : PendingStatsBatch))))) l). lia.
Qed.

(** ** The invariant *)

Definition event_valid (e : StatsEvent) : Prop := Forall (fun d => dim_validate d = Ok tt) (ev_dimensions e).

(** What is true of the accumulator and the events on their way into it. *)
Record recording_inv (a : StatsAccumulator) (inflight : list StatsEvent) : Prop := {
  ri_acc : acc_ok a;
  ri_sequences : NoDup (ev_sequence <$> inflight ++ active_events a);
  ri_range : Forall (fun e => 1 <= ev_sequence e < ac_next a) (inflight ++ active_events a);
  ri_valid : Forall event_valid (inflight ++ active_events a)
}.

(** What is true of the ledger and the store. *)
Record ledger_inv (l : BatchLedger) (s : B) : Prop := {
  li_next : 1 <= bl_next l;
  li_floor : be_floor s <= bl_next l;
  li_fresh : forall id, bl_next l <= id -> be_known s id = false;
  li_committed : forall id, is_Some (bl_committed l !! id) -> id < bl_next l /\ bl_pending l !! id = None;
  li_pending : forall id p, bl_pending l !! id = Some p ->
    sb_id (pb_batch p) = id /\ id < bl_next l /\ be_floor s <= id /\ batch_ok (pb_batch p) /\
    (be_known s id = true -> be_holds s (pb_batch p))
}.

Definition within_limits (l : BatchLedger) : Prop :=
  pending_count l <= MAX_PENDING_STATS_BATCHES /\ pending_event_count l <= MAX_PENDING_STATS_EVENTS.

(** [committed] are the events the store counts on top of what it held in the
    beginning. *)
Definition counts (s0 s : B) (committed : list StatsEvent) : Prop :=
  forall day, be_visible s day = true -> be_visible s0 day = true /\
    be_total s day = be_total s0 day + Zsum_with (on_day day) committed /\
    forall d, dim_validate d = Ok tt ->
      be_dimension s day d = be_dimension s0 day d + Zsum_with (has_dimension day d) committed.

Record system_inv (s0 : B) (y : StatsSystem) (committed : list StatsEvent) : Prop := {
  yi_recording : recording_inv (st_acc y) (st_inflight y);
  yi_ledger : ledger_inv (st_ledger y) (st_store y);
  yi_limits : within_limits (st_ledger y);
  yi_log : st_log y ≡ₚ committed ++ waiting (st_store y) (st_ledger y) ++ active_events (st_acc y) ++ st_lost y;
  yi_counts : counts s0 (st_store y) committed
}.

Context `{!StatsBackendLaws B E}.

Lemma default_active : active_events with_default_shards = [].
Proof. apply empty_epoch_events. Qed.

Lemma default_recording : recording_inv with_default_shards [].
Proof.
  split; [apply with_default_shards_ok|..]; rewrite default_active; constructor.
Qed.

Lemma init_inv s n : be_boot s n -> system_inv s (stats_init s n) [].
Proof.
  intros Hn. apply (be_boot_law s n) in Hn as (H1 & H2 & H3). unfold stats_init.
  split; cbn [st_acc st_ledger st_store st_inflight st_log st_lost].
  - apply default_recording.
  - split; cbn [with_next_batch_id bl_next bl_pending bl_committed]; try done.
    intros id [? Hc]. by rewrite lookup_empty in Hc.
  - done.
  - by rewrite default_active.
  - intros day Hv. cbn [Zsum_with foldr]. split; [done|]. split; [lia|]. intros. lia.
Qed.

(** *** Recording *)

Lemma NoDup_range (l : list StatsEvent) n e :
  Forall (fun x => 1 <= ev_sequence x < n) l -> n <= ev_sequence e -> ev_sequence e ∉ (ev_sequence <$> l).
Proof.
  intros H Hn (x & Hx & Hin)%list_elem_of_fmap. apply (proj1 (list.Forall_forall _ _) H) in Hin. lia.
Qed.

Lemma allocate_inv a fl day ds res a' :
  recording_inv a fl -> allocate_event a day ds = (res, a') ->
  recording_inv a' (match res with Ok e => e :: fl | Err _ => fl end) /\ active_events a' = active_events a.
Proof.
  intros [Ha Hs Hr Hv] H. unfold allocate_event in H.
  destruct (checked_add64 (ac_next a) 1) as [next|] eqn:En; injection H as <- <-; [|done].
  apply checked_add64_some in En as [-> Hu]. split; [|done].
  assert (Ha' : acc_ok (mk_accumulator (ac_next a + 1) (ac_active a) (ac_shard_count a))).
  { destruct Ha. split; try done. cbn. lia. }
  assert (Hr' : Forall (fun e => 1 <= ev_sequence e < ac_next a + 1) (fl ++ active_events a)).
  { eapply list.Forall_impl; [exact Hr|]. cbn. lia. }
  destruct (StatsEvent_new (ac_next a) day ds) as [e|] eqn:Ee; cbn; [|by split].
  unfold StatsEvent_new in Ee. destruct (_ <? _); [done|].
  apply bind_ok in Ee as ([] & Hc & Ee). injection Ee as <-. apply check_dimensions_ok in Hc as (Hd & _).
  split; cbn; [done|..].
  - constructor; [|done]. apply (NoDup_range _ (ac_next a) (mk_event (ac_next a) day ds)); [done|cbn; lia].
  - constructor; [|done]. cbn. pose proof (ao_next a Ha). lia.
  - by constructor.
Qed.

Lemma record_inv a fl1 e fl2 res a' :
  recording_inv a (fl1 ++ e :: fl2) -> record_event shard_hash a e = (res, a') ->
  recording_inv a' (fl1 ++ fl2) /\
  active_events a' ≡ₚ match res with Ok _ => e :: active_events a | Err _ => active_events a end.
Proof.
  intros [Ha Hs Hr Hv] H. unfold record_event in H.
  assert (Hp : (fl1 ++ e :: fl2) ++ active_events a ≡ₚ e :: ((fl1 ++ fl2) ++ active_events a)).
  { rewrite <-!app_assoc. symmetry. apply Permutation_middle. }
  rewrite Hp in Hs, Hr, Hv. cbn in Hs. apply list.NoDup_cons in Hs as [Hes Hs].
  inversion_clear Hr as [|? ? Her Hr']. inversion_clear Hv as [|? ? Hev Hv'].
  destruct (checked_add64 (ev_sequence e) 1) as [next|] eqn:En; [|injection H as <- <-; split; [by split|done]].
  apply checked_add64_some in En as [-> Hu].
  assert (Hmax : Z.max (ac_next a) (ev_sequence e + 1) = ac_next a) by lia. rewrite Hmax in H.
  assert (Heta : mk_accumulator (ac_next a) (ac_active a) (ac_shard_count a) = a) by by destruct a.
  rewrite Heta in H.
  destruct (record_event_inner_spec shard_hash a e res a') as (Ha' & Hn & _ & _ & _ & Hact); [done|lia|done|].
  destruct res as [[]|x]; [|rewrite Hact; split; [by split|done]].
  split; [|done].
  assert (Hp' : (fl1 ++ fl2) ++ active_events a' ≡ₚ e :: ((fl1 ++ fl2) ++ active_events a)).
  { rewrite Hact. symmetry. apply Permutation_middle. }
  split; [done|..]; rewrite Hp'.
  - cbn. by constructor.
  - rewrite Hn. by constructor.
  - by constructor.
Qed.

(** *** Checkpoints *)

Abbreviation unapplied s := (fun x => if be_known s x.1 then [] else sb_events (pb_batch x.2)).

Lemma waiting_gather s l : waiting s l = gather (unapplied s) (bl_pending l).
Proof. done. Qed.

Lemma waiting_ext s s' l :
  (forall id p, bl_pending l !! id = Some p -> be_known s' id = be_known s id) -> waiting s' l = waiting s l.
Proof.
  intros H. rewrite !waiting_gather. apply gather_ext. intros k x Hk. cbn. by rewrite (H k x Hk).
Qed.

Lemma swapped_recording a fl n s a' :
  recording_inv a fl -> try_swap_epoch a n = Ok (s, a') -> recording_inv a' fl.
Proof.
  intros [Ha Hs Hr Hv] H. apply try_swap_spec in H as (Ha' & _ & He & Hn & _); [|done].
  rewrite fmap_app in Hs. apply list.NoDup_app in Hs as (Hs & _ & _).
  apply list.Forall_app in Hr as [Hr _]. apply list.Forall_app in Hv as [Hv _].
  split; [done|..]; rewrite He, app_nil_r; [done| |done]. by rewrite Hn.
Qed.

Lemma snapshot_batch_ok a fl id :
  recording_inv a fl -> 1 <= id -> 0 < ss_event_count (snapshot_epoch (ac_active a)) ->
  batch_ok (into_batch (snapshot_epoch (ac_active a)) id).
Proof.
  intros [Ha Hs Hr Hv] Hid Hc. pose proof (sort_by_key_perm ev_sequence (active_events a)) as Hp.
  fold (active_events a) in Hc. cbn in Hc. split; cbn [into_batch sb_id sb_events sb_max_sequence]; [done|..].
  - intros Hnil. change (ss_events _) with (sort_by_key ev_sequence (active_events a)) in Hnil.
    fold (active_events a) in Hc. rewrite Hnil in Hc. done.
  - change (ss_events _) with (sort_by_key ev_sequence (active_events a)). rewrite Hp.
    rewrite fmap_app in Hs. by apply list.NoDup_app in Hs as (_ & _ & Hs).
  - rewrite snapshot_max by done. symmetry. by apply max_sequence_perm.
  - change (ss_events _) with (sort_by_key ev_sequence (active_events a)). rewrite Hp.
    by apply list.Forall_app in Hv as [_ Hv].
Qed.

Lemma enqueue_inv l s sn id l' :
  ledger_inv l s -> batch_ok (into_batch sn (bl_next l)) -> ledger_enqueue l sn = (Ok id, l') ->
  ledger_inv l' s /\ waiting s l' ≡ₚ ss_events sn ++ waiting s l /\ pending_count l' = pending_count l + 1 /\
  pending_event_count l' = Z.of_nat (length (ss_events sn)) + pending_event_count l.
Proof.
  intros [Hn Hf Hk Hc Hp] Hb H. unfold ledger_enqueue in H. destruct (_ =? 0); [done|].
  destruct (checked_add64 (bl_next l) 1) as [next|] eqn:En; [|done]. injection H as <- <-.
  apply checked_add64_some in En as [-> _].
  assert (Hfree : bl_pending l !! bl_next l = None).
  { destruct (bl_pending l !! bl_next l) as [p|] eqn:Ep; [|done]. apply Hp in Ep. lia. }
  split; [|split; [|split]].
  - split; cbn [bl_next bl_pending bl_committed]; try lia.
    + intros i Hi. apply Hk. lia.
    + intros i Hi. destruct (Hc i Hi). rewrite lookup_insert_ne by lia. split; [lia|done].
    + intros i p. destruct (decide (i = bl_next l)) as [->|Ei].
      * rewrite lookup_insert_eq. intros [= <-]. cbn. rewrite Hk by lia. repeat split; try done; try lia.
        all: apply Hb.
      * rewrite lookup_insert_ne by done. intros (H1 & H2 & H3 & H4 & H5)%Hp. repeat split; try done; try lia.
        all: apply H4.
  - rewrite !waiting_gather. cbn [bl_pending]. rewrite gather_insert by done. cbn [fst snd].
    by rewrite Hk by lia.
  - unfold pending_count. cbn. rewrite map_size_insert_None by done. lia.
  - unfold pending_event_count. cbn [bl_pending]. rewrite !length_gather, gather_insert by done.
    rewrite length_app. cbn. lia.
Qed.

Lemma checkpoint_inv a fl l s res a' l' :
  recording_inv a fl -> ledger_inv l s -> within_limits l -> flush_checkpoint a l = (res, a', l') ->
  recording_inv a' fl /\ ledger_inv l' s /\ within_limits l' /\
  waiting s l' ++ active_events a' ++ (match res with Err (SPE_Ledger _) => active_events a | _ => [] end)
    ≡ₚ waiting s l ++ active_events a.
Proof.
  intros Hr Hl Hw H. unfold flush_checkpoint in H.
  destruct (_ || _) eqn:Elim; [injection H as <- <- <-; rewrite app_nil_r; done|].
  apply orb_false_iff in Elim as [Eb Ee]. apply Z.leb_gt in Eb, Ee.
  destruct (try_swap_epoch _ _) as [[sn a1]|[n|]] eqn:Es;
    [|injection H as <- <- <-; rewrite app_nil_r; done|injection H as <- <- <-; rewrite app_nil_r; done].
  pose proof (swapped_recording a fl _ _ _ Hr Es) as Hr1.
  apply try_swap_spec in Es as (_ & -> & Hact & _ & Hcount); [|apply Hr].
  assert (Hperm : ss_events (snapshot_epoch (ac_active a)) ≡ₚ active_events a) by apply sort_by_key_perm.
  destruct (Z.ltb_spec 0 (ss_event_count (snapshot_epoch (ac_active a)))) as [Hpos|Hzero].
  - pose proof (snapshot_batch_ok a fl (bl_next l) Hr (li_next l s Hl) Hpos) as Hb.
    destruct (ledger_enqueue l _) as [[id|x] l1] eqn:Eq; injection H as <- <- <-.
    + apply (enqueue_inv l s) in Eq as (Hl1 & Hwait & Hc & He); [|done..].
      split; [done|]. split; [done|]. split.
      * unfold within_limits. rewrite Hc, He. change (ss_event_count _) with (Z.of_nat (length (ss_events (snapshot_epoch (ac_active a))))) in Hcount.
        unfold sat_sub in Hcount. lia.
      * rewrite Hact. cbn [app]. rewrite app_nil_r, Hwait, Hperm. apply Permutation_app_comm.
    + unfold ledger_enqueue in Eq. destruct (_ =? 0); [by injection Eq as <- <-; rewrite Hact|].
      destruct (checked_add64 _ _); [done|]. injection Eq as <- <-. by rewrite Hact.
  - injection H as <- <- <-. split; [done|]. split; [done|]. split; [done|]. rewrite Hact, !app_nil_r.
    assert (active_events a = []) as ->; [|by rewrite app_nil_r].
    apply Permutation_nil_r. rewrite <-Hperm.
    change (ss_event_count _) with (Z.of_nat (length (ss_events (snapshot_epoch (ac_active a))))) in Hzero.
    destruct (ss_events _); [done|]. cbn in Hzero. lia.
Qed.

(** *** Batches *)

Lemma next_pending_some l b :
  next_pending_batch l = Some b -> exists id p, bl_pending l !! id = Some p /\ b = pb_batch p.
Proof.
  unfold next_pending_batch. destruct (zmap_first (bl_pending l)) as [[id p]|] eqn:Ez; [|done].
  intros [= <-]. apply zmap_first_some in Ez as [Ez _]. by exists id, p.
Qed.

(** Executing a queued batch, whatever is reported of it. *)
Lemma execute_inv s0 C l s id p deadline e res s' :
  ledger_inv l s -> counts s0 s C -> bl_pending l !! id = Some p ->
  be_execute s (pb_batch p) deadline e = (res, s') ->
  ledger_inv l s' /\ (res = Ok tt -> be_known s' id = true) /\
  exists new, counts s0 s' (new ++ C) /\ waiting s l ≡ₚ new ++ waiting s' l.
Proof.
  intros [Hn Hf Hk Hc Hp] Hcount Hid Hx. destruct (Hp id p Hid) as (Hsb & Hlt & Hfl & Hb & _).
  apply be_execute_law in Hx as [[(Ht & Hd & Hv & Hkn & Hh & Hfloor) Hok]|
    (Hnew & Ht & Hd & Hv & Hkn & Hh & Hhold & Hfloor)]; [..|done].
  - rewrite Hsb in Hok. split; [|split].
    + split; try done.
      * by rewrite Hfloor.
      * intros i Hi. by rewrite Hkn, Hk.
      * intros i q Hq. rewrite Hkn, Hfloor. destruct (Hp i q Hq) as (H1 & H2 & H3 & H4 & H5).
        repeat split; try done; try apply H4. intros Hi. by apply Hh, H5.
    + intros E1. rewrite Hkn. by apply Hok.
    + exists []. split; [|by rewrite (waiting_ext s s') by (intros; apply Hkn)].
      intros day Hday. rewrite Hv in Hday. destruct (Hcount day Hday) as (H1 & H2 & H3).
      rewrite Ht. split; [done|]. split; [done|]. intros d Hdv. rewrite Hd. by apply H3.
  - rewrite Hsb in Hnew, Hkn. assert (Hmine : be_known s' id = true) by (rewrite Hkn, bool_decide_true; done).
    assert (Hother : forall i, i <> id -> be_known s' i = be_known s i)
      by (intros i Hi; rewrite Hkn, bool_decide_false; done).
    split; [|split; [done|]].
    + split; try done.
      * by rewrite Hfloor.
      * intros i Hi. rewrite Hother by lia. by apply Hk.
      * intros i q Hq. rewrite Hfloor. destruct (Hp i q Hq) as (H1 & H2 & H3 & H4 & H5).
        split; [done|]. split; [done|]. split; [done|]. split; [done|].
        destruct (decide (i = id)) as [->|Hi].
        -- intros _. assert (q = p) as -> by congruence. done.
        -- rewrite Hother by done. intros Hi'. by apply Hhold, H5.
    + exists (sb_events (pb_batch p)). split.
      * intros day Hday. rewrite Hv in Hday. destruct (Hcount day Hday) as (H1 & H2 & H3).
        split; [done|]. split; [rewrite Ht by done; rewrite Zsum_with_app; lia|].
        intros d Hdv. rewrite Hd, Zsum_with_app, H3 by done. lia.
      * rewrite !waiting_gather, (gather_delete _ _ id p Hid), (gather_delete (unapplied s') _ id p Hid).
        cbn [fst snd]. rewrite Hnew, Hmine. cbn [app]. f_equiv.
        enough (Heq : gather (unapplied s') (delete id (bl_pending l)) = gather (unapplied s) (delete id (bl_pending l)))
          by by rewrite Heq.
        apply gather_ext. intros k x Hx. cbn. rewrite Hother; [done|]. intros ->. by rewrite lookup_delete_eq in Hx.
Qed.

Lemma mark_failed_inv l s id p res l' :
  ledger_inv l s -> bl_pending l !! id = Some p -> ledger_mark_failed l id = (res, l') ->
  ledger_inv l' s /\ waiting s l' ≡ₚ waiting s l /\ pending_count l' = pending_count l /\
  pending_event_count l' = pending_event_count l /\ res = Ok tt.
Proof.
  intros [Hn Hf Hk Hc Hp] Hid H. unfold ledger_mark_failed in H. rewrite Hid in H. injection H as <- <-.
  assert (Hg : forall f : Z * PendingStatsBatch -> list StatsEvent,
    (forall k n, f (k, mk_pending (pb_batch p) n) = f (k, p)) ->
    gather f (<[id := mk_pending (pb_batch p) (Z.min (pb_attempts p + 1) u32_max)]> (bl_pending l)) ≡ₚ
    gather f (bl_pending l)).
  { intros f Hfk. rewrite (gather_delete f (bl_pending l) id p Hid), <-insert_delete_eq, gather_insert
      by apply lookup_delete_eq. by rewrite Hfk. }
  split; [|split; [|split; [|split]]].
  - split; cbn [bl_next bl_pending bl_committed]; try done.
    + intros i Hi. destruct (Hc i Hi) as [H1 H2]. split; [done|]. rewrite lookup_insert_ne; [done|].
      intros ->. by rewrite Hid in H2.
    + intros i q. destruct (decide (i = id)) as [->|Hi].
      * rewrite lookup_insert_eq. intros [= <-]. exact (Hp id p Hid).
      * rewrite lookup_insert_ne by done. by apply Hp.
  - rewrite !waiting_gather. by apply Hg.
  - unfold pending_count. cbn. by rewrite map_size_insert_Some.
  - unfold pending_event_count. cbn [bl_pending]. rewrite !length_gather. f_equal.
    apply Permutation_length. by apply Hg.
  - done.
Qed.

Lemma commit_inv l s id p now res l' :
  ledger_inv l s -> be_known s id = true -> bl_pending l !! id = Some p ->
  ledger_commit batch_hash l id now = (res, l') ->
  ledger_inv l' s /\ waiting s l' ≡ₚ waiting s l /\ pending_count l' = pending_count l - 1 /\
  pending_event_count l = Z.of_nat (length (sb_events (pb_batch p))) + pending_event_count l' /\
  bl_pending l' = delete id (bl_pending l) /\ is_ok res = true.
Proof.
  intros [Hn Hf Hk Hc Hp] Hkn Hid H. unfold ledger_commit in H.
  destruct (bl_committed l !! id) as [x|] eqn:Hcom.
  { destruct (Hc id) as [_ H1]; [by eexists|]. by rewrite Hid in H1. }
  rewrite Hid in H. injection H as <- <-. split; [|split; [|split; [|split]]].
  - split; cbn [bl_next bl_pending bl_committed]; try done.
    + intros i. destruct (decide (i = id)) as [->|Hi].
      * intros _. split; [by apply (Hp id p)|]. apply lookup_delete_eq.
      * rewrite lookup_insert_ne by done. intros Hi'. destruct (Hc i Hi') as [H1 H2]. split; [done|].
        by rewrite lookup_delete_ne.
    + intros i q Hq. apply lookup_delete_Some in Hq as [_ Hq]. by apply Hp.
  - rewrite !waiting_gather. cbn [bl_pending]. rewrite (gather_delete _ (bl_pending l) id p Hid). cbn [fst snd].
    by rewrite Hkn.
  - unfold pending_count. cbn [bl_pending]. rewrite map_size_delete_Some by (by eexists).
    assert (size (bl_pending l) <> 0%nat); [|lia]. apply map_size_ne_0_lookup. exists id, p. done.
  - unfold pending_event_count. cbn [bl_pending].
    rewrite !length_gather, (gather_delete _ (bl_pending l) id p Hid), length_app. cbn. lia.
  - done.
Qed.

Lemma flush_batch_inv s0 C l s b deadline e now res l' s' :
  ledger_inv l s -> within_limits l -> counts s0 s C -> next_pending_batch l = Some b ->
  flush_batch l s b deadline e now = (res, l', s') ->
  ledger_inv l' s' /\ within_limits l' /\
  (exists new, counts s0 s' (new ++ C) /\ waiting s l ≡ₚ new ++ waiting s' l') /\
  (is_ok res = true -> pending_count l' = pending_count l - 1 /\
     pending_event_count l = Z.of_nat (length (sb_events b)) + pending_event_count l') /\
  (forall x, res = Err x -> exists y, x = SPE_Backend y /\ (be_execute s b deadline e).1 = Err y).
Proof.
  intros Hl Hw Hcount (id & p & Hid & ->)%next_pending_some H. unfold flush_batch in H.
  pose proof (li_pending l s Hl id p Hid) as (Hsb & _). rewrite Hsb in H.
  destruct (be_execute s (pb_batch p) deadline e) as [r s1] eqn:Hx.
  destruct (execute_inv s0 C l s id p deadline e r s1) as (Hl1 & Hok & new & Hc1 & Hwait); [done..|].
  destruct r as [[]|x].
  - destruct (ledger_commit batch_hash l id now) as [r l1] eqn:Hcm.
    destruct (commit_inv l s1 id p now r l1 Hl1 (Hok eq_refl) Hid Hcm) as (Hl2 & Hwait2 & Hn & Hev & Hpend & Hr).
    destruct r; [|done]. injection H as <- <- <-. split; [done|]. split.
    + unfold within_limits in *. lia.
    + split; [|split; [|done]].
      * exists new. by rewrite Hwait2.
      * done.
  - destruct (ledger_mark_failed l id) as [r l1] eqn:Hmf.
    destruct (mark_failed_inv l s1 id p r l1 Hl1 Hid Hmf) as (Hl2 & Hwait2 & Hn & Hev & ->).
    injection H as <- <- <-. split; [done|]. split; [unfold within_limits in *; lia|].
    split; [|split; [done|]].
    + exists new. by rewrite Hwait2.
    + intros y [= <-]. by exists x.
Qed.

(** *** Retention *)

Lemma retention_inv s0 C l s s' (reclaimed : bool) :
  ledger_inv l s -> within_limits l -> counts s0 s C -> be_maintain s (replay_floor_batch_id l) s' ->
  let l' := if reclaimed then reclaim_committed_before l (replay_floor_batch_id l) else l in
  ledger_inv l' s' /\ within_limits l' /\ counts s0 s' C /\ waiting s' l' = waiting s l.
Proof.
  intros Hl Hw Hcount Hm l'. destruct Hl as [Hn Hf Hk Hc Hp].
  assert (Hpend : bl_pending l' = bl_pending l) by (unfold l'; by destruct reclaimed).
  assert (Hnext : bl_next l' = bl_next l) by (unfold l'; by destruct reclaimed).
  assert (Hcom : forall id, is_Some (bl_committed l' !! id) -> is_Some (bl_committed l !! id)).
  { unfold l'. destruct reclaimed; [|done]. cbn. intros id [x Hx]. apply map_lookup_filter_Some in Hx as [Hx _].
    by eexists. }
  assert (Hfl : forall id p, bl_pending l !! id = Some p -> Z.max (be_floor s) (replay_floor_batch_id l) <= id).
  { intros id p Hid. unfold replay_floor_batch_id. destruct (Hp id p Hid) as (_ & Hlt & Hfl & _).
    destruct (zmap_first (bl_pending l)) as [[i q]|] eqn:Ez.
    - apply zmap_first_some in Ez as [_ Hmin]. specialize (Hmin id ltac:(by eexists)). lia.
    - apply zmap_first_none in Ez. rewrite Ez in Hid. by rewrite lookup_empty in Hid. }
  assert (Hfn : Z.max (be_floor s) (replay_floor_batch_id l) <= bl_next l).
  { unfold replay_floor_batch_id. destruct (zmap_first (bl_pending l)) as [[i q]|] eqn:Ez; [|lia].
    apply zmap_first_some in Ez as [Ez _]. apply Hp in Ez. lia. }
  apply be_maintain_law in Hm as (Hv & Hsub & Hkeep & Hhold & Hfloor).
  split; [|split; [|split]].
  - split; rewrite ?Hpend, ?Hnext; try done; try lia.
    + intros id Hid. rewrite Hkeep by lia. by apply Hk.
    + intros id Hid. by apply Hc, Hcom.
    + intros id p Hid. pose proof (Hfl id p Hid). destruct (Hp id p Hid) as (H1 & H2 & H3 & H4 & H5).
      split; [done|]. split; [done|]. split; [lia|]. split; [done|]. rewrite Hkeep by done. intros Hkn.
      apply Hhold; [by apply H5|]. by rewrite H1.
  - unfold within_limits, pending_count, pending_event_count. by rewrite Hpend.
  - intros day Hday. destruct (Hv day Hday) as (H1 & H2 & H3). destruct (Hcount day H1) as (H4 & H5 & H6).
    split; [done|]. split; [by rewrite H2|]. intros d Hd. rewrite H3. by apply H6.
  - unfold waiting. rewrite Hpend. apply (waiting_ext s s' l). intros id p Hid. apply Hkeep. by apply Hfl with p.
Qed.

(** *** Steps *)

Lemma stats_step_inv s0 y y' C : system_inv s0 y C -> stats_step y y' -> exists C', system_inv s0 y' C'.
Proof.
  intros [Hr Hl Hw Hlog Hc] Hstep.
  destruct Hstep as [a l s fl f log lost day ds res a' H|a l s fl1 e fl2 f log lost res a' H|
    a l s fl log lost res a' l' H|a l s fl log lost b dl e now res l' s' Hb H|a l s fl log lost Hb|
    a l s fl log lost b dl e res s' Hb H|a l s fl log lost s' rc H|a l s fl f log lost n H];
    cbn [st_acc st_ledger st_store st_inflight st_log st_lost] in *.
  - apply (allocate_inv a fl) in H as [Hr' Ha]; [|done]. exists C. split; cbn; try done. by rewrite Ha.
  - apply (record_inv a fl1 e fl2) in H as [Hr' Ha]; [|done]. exists C. split; cbn; try done.
    destruct res; rewrite Ha, Hlog; [|done]. cbn [app].
    by rewrite (Permutation_middle C), (Permutation_middle (waiting s l)).
  - destruct (checkpoint_inv a fl l s res a' l') as (Hr' & Hl' & Hw' & Hp); [done..|].
    exists C. split; cbn; try done. rewrite Hlog. f_equiv.
    rewrite (app_assoc (waiting s l)), <-Hp, <-!app_assoc. f_equiv. f_equiv. by destruct res as [|[]].
  - destruct (flush_batch_inv s0 C l s b dl e now res l' s') as (Hl' & Hw' & (new & Hc' & Hp) & _); [done..|].
    exists (new ++ C). split; cbn; try done. rewrite Hlog, Hp, <-!app_assoc.
    rewrite app_assoc, (Permutation_app_comm C new), <-app_assoc. done.
  - by exists C.
  - apply next_pending_some in Hb as (id & p & Hid & ->).
    destruct (execute_inv s0 C l s id p dl e res s') as (Hl' & _ & new & Hc' & Hp); [done..|].
    exists (new ++ C). split; cbn; try done. rewrite Hlog, Hp, <-!app_assoc.
    rewrite app_assoc, (Permutation_app_comm C new), <-app_assoc. done.
  - destruct (retention_inv s0 C l s s' rc) as (Hl' & Hw' & Hc' & Hwait); [done..|].
    exists C. split; cbn; try done. by rewrite Hwait.
  - destruct (init_inv s n H) as [Hr' Hl' Hw' _ _]. exists C. split; cbn; try done.
Qed.

Lemma stats_reachable_inv s0 n y :
  be_boot s0 n -> rtc stats_step (stats_init s0 n) y -> exists C, system_inv s0 y C.
Proof.
  intros Hn Hrun. apply init_inv in Hn. revert Hn. generalize (@nil StatsEvent) as C.
  induction Hrun as [y|y1 y2 y3 Hstep _ IH]; intros C Hy; [by exists C|].
  destruct (stats_step_inv s0 y1 y2 C Hy Hstep) as [C' Hy']. by apply (IH C').
Qed.

(** C4: Every recorded event is counted exactly once. Whatever the store does (failing
    before or after a commit took effect, timing out, being retired or reopened by a new
    process), and however requests, flushes and retention interleave, the events
    recorded since the store was opened are those the store has counted, those of
    queued batches it has not applied, those of the active epoch, and those lost with
    the memory of a process; the counters of each visible day have grown by exactly the
    events counted, and the queue stays within its limits. *)
Theorem stats_exactly_once s0 n y :
  be_boot s0 n -> rtc stats_step (stats_init s0 n) y ->
  exists counted,
    st_log y ≡ₚ counted ++ waiting (st_store y) (st_ledger y) ++ active_events (st_acc y) ++ st_lost y /\
    counts s0 (st_store y) counted /\ within_limits (st_ledger y).
Proof.
  intros Hn Hrun. destruct (stats_reachable_inv s0 n y Hn Hrun) as [C [_ _ Hw Hlog Hc]]. by exists C.
Qed.

(** ** Flushes *)

Lemma pending_count_zero l : bl_pending l = ∅ <-> pending_count l = 0.
Proof.
  unfold pending_count. split; [intros ->; by rewrite map_size_empty|].
  intros H. apply map_size_empty_inv. lia.
Qed.

Lemma pending_events_nonneg l : 0 <= pending_event_count l.
Proof. unfold pending_event_count. rewrite length_gather. lia. Qed.

(** The loop ends within a round per queued batch and one more; it succeeds with the
    queue empty, or stops at a batch the store refuses. *)
Lemma flush_loop_spec s0 C fuel k l s deadline e now sum :
  ledger_inv l s -> within_limits l -> counts s0 s C -> (size (bl_pending l) < fuel)%nat ->
  0 <= sum.1 -> 0 <= sum.2 -> sum.1 + pending_count l <= u64_max -> sum.2 + pending_event_count l <= u64_max ->
  exists res l' s', flush_loop fuel k l s deadline e now sum = Some (res, l', s') /\
    match res with
    | Ok out => bl_pending l' = ∅ /\ out = (sum.1 + pending_count l, sum.2 + pending_event_count l)
    | Err x => exists m s1 b y, x = SPE_Backend y /\ (be_execute s1 b deadline (e m)).1 = Err y
    end.
Proof.
  revert k l s C sum. induction fuel as [|fuel IH]; intros k l s C sum Hl Hw Hc Hf H1 H2 H3 H4; [lia|].
  cbn [flush_loop]. destruct (next_pending_batch l) as [b|] eqn:Hb.
  - destruct (flush_batch l s b deadline (e k) (now k)) as [[res l1] s1] eqn:Hx.
    destruct (flush_batch_inv s0 C l s b deadline (e k) (now k) res l1 s1) as
      (Hl1 & Hw1 & (new & Hc1 & _) & Hok & Herr); [done..|].
    destruct res as [[]|x].
    + destruct (Hok eq_refl) as [Hcn Hce]. pose proof (pending_events_nonneg l1).
      assert (Hcn0 : 0 <= pending_count l1) by (unfold pending_count; lia).
      assert (Hs1 : sat_add64 sum.1 1 = sum.1 + 1) by (unfold sat_add64; lia).
      assert (Hs2 : sat_add64 sum.2 (Z.of_nat (length (sb_events b))) =
                    sum.2 + Z.of_nat (length (sb_events b))) by (unfold sat_add64; lia).
      rewrite Hs1, Hs2.
      destruct (IH (S k) l1 s1 (new ++ C) (sum.1 + 1, sum.2 + Z.of_nat (length (sb_events b))))
        as (res & l2 & s2 & Hrun & Hres); cbn [fst snd]; try done; try lia.
      { unfold pending_count in *. lia. }
      exists res, l2, s2. split; [exact Hrun|]. destruct res; [|done]. destruct Hres as [He ->].
      split; [done|]. cbn [fst snd]. rewrite Hcn, Hce. f_equal; lia.
    + exists (Err x), l1, s1. split; [done|]. destruct (Herr x eq_refl) as (y & -> & Hy).
      by exists k, s, b, y.
  - unfold next_pending_batch in Hb. destruct (zmap_first (bl_pending l)) eqn:Ez; [done|].
    apply zmap_first_none in Ez. exists (Ok sum), l, s. split; [done|]. split; [done|].
    destruct sum. unfold pending_event_count.
    rewrite (proj1 (pending_count_zero l) Ez), Ez, map_to_list_empty.
    cbn [fst snd Zsum_with foldr]. f_equal; lia.
Qed.

(** What the checkpoint of a flush does, case by case. *)
Lemma checkpoint_outcome a fl l s res a' l' :
  recording_inv a fl -> ledger_inv l s -> flush_checkpoint a l = (res, a', l') ->
  match res with
  | Ok _ => pending_count l' = pending_count l + (if active_event_count a =? 0 then 0 else 1) /\
      pending_event_count l' = pending_event_count l + active_event_count a
  | Err (SPE_PendingLimit _) => a' = a /\ l' = l /\
      (MAX_PENDING_STATS_BATCHES <= pending_count l \/
       MAX_PENDING_STATS_EVENTS <= pending_event_count l \/
       MAX_PENDING_STATS_EVENTS < pending_event_count l + active_event_count a)
  | Err SPE_Panic => ep_epoch (ac_active a) = u64_max
  | Err (SPE_Ledger x) => x = BatchIdExhausted /\ u64_max <= bl_next l
  | Err (SPE_Backend _) => False
  end.
Proof.
  intros Hr Hl H. unfold flush_checkpoint in H. destruct (_ || _) eqn:Elim.
  { injection H as <- <- <-. apply orb_true_iff in Elim as [Eb%Z.leb_le|Ee%Z.leb_le]; tauto. }
  apply orb_false_iff in Elim as [Eb%Z.leb_gt Ee%Z.leb_gt].
  destruct (try_swap_epoch _ _) as [[sn a1]|x] eqn:Es.
  2: { unfold try_swap_epoch in Es.
       destruct (Z.ltb_spec (sat_sub MAX_PENDING_STATS_EVENTS (pending_event_count l)) (active_event_count a)).
       - injection Es as <-. injection H as <- <- <-. unfold sat_sub in *. split; [done|]. split; [done|]. lia.
       - unfold swap_epoch, checked_add64 in Es. pose proof (ao_epoch a (ri_acc a fl Hr)).
         destruct (Z.leb_spec (ep_epoch (ac_active a) + 1) u64_max); [done|].
         injection Es as <-. injection H as <- <- <-. lia. }
  apply try_swap_spec in Es as (_ & -> & _ & _ & _); [|apply Hr].
  assert (Hcount : ss_event_count (snapshot_epoch (ac_active a)) = active_event_count a).
  { unfold active_event_count. rewrite epoch_event_count_length. cbn. by rewrite sort_by_key_perm. }
  destruct (Z.ltb_spec 0 (ss_event_count (snapshot_epoch (ac_active a)))) as [Hpos|Hzero]; rewrite Hcount in *.
  - rewrite (proj2 (Z.eqb_neq _ 0)) by lia.
    destruct (ledger_enqueue l (snapshot_epoch (ac_active a))) as [[id|x] l2] eqn:Eq; injection H as <- <- <-.
    + apply (enqueue_inv l s) in Eq as (_ & _ & Hn & Hev); [|done|].
      2: { apply (snapshot_batch_ok a fl); [done|apply (li_next l s Hl)|by rewrite Hcount]. }
      split; [done|]. rewrite Hev, <-Hcount. cbn. lia.
    + unfold ledger_enqueue in Eq. rewrite Hcount, (proj2 (Z.eqb_neq _ 0)) in Eq by lia.
      unfold checked_add64 in Eq. destruct (Z.leb_spec (bl_next l + 1) u64_max); [done|].
      injection Eq as <- _. split; [done|]. lia.
  - injection H as <- <- <-. assert (active_event_count a = 0) as ->; [|cbn; lia].
    revert Hzero. unfold active_event_count. rewrite epoch_event_count_length. lia.
Qed.

(** A flush always returns, and says what it did. It succeeds with the queue empty
    and reports what it committed, or it stops at an error of the store, which keeps the
    batch queued, or it refuses to take a new batch: exactly when 64 batches or 65,536
    events are queued or the queue and the active epoch together exceed 65,536 events.
    The last limit does not ask whether the store works: one epoch of more than 65,536
    requests is refused by every flush from then on, with nothing queued at all. *)
Theorem flush_outcome s0 C a fl l s deadline e :
  recording_inv a fl -> ledger_inv l s -> within_limits l -> counts s0 s C ->
  exists res a' l' s', flush a l s deadline e = Some (res, a', l', s') /\
  match res with
  | Ok sum => bl_pending l' = ∅ /\ fs_pending_batches sum = 0 /\
      fs_batches_committed sum = pending_count l + (if active_event_count a =? 0 then 0 else 1) /\
      fs_events_committed sum = pending_event_count l + active_event_count a /\
      fs_persistence_gap sum = negb (active_event_count a' =? 0)
  | Err (SPE_Backend y) => fl_locked e = false \/
      exists m s1 b, (be_execute s1 b deadline (fl_tx e m)).1 = Err y
  | Err (SPE_PendingLimit _) => fl_locked e = true /\ a' = a /\ l' = l /\ s' = s /\
      (MAX_PENDING_STATS_BATCHES <= pending_count l \/
       MAX_PENDING_STATS_EVENTS <= pending_event_count l \/
       MAX_PENDING_STATS_EVENTS < pending_event_count l + active_event_count a)
  | Err SPE_Panic => ep_epoch (ac_active a) = u64_max
  | Err (SPE_Ledger x) => x = BatchIdExhausted /\ u64_max <= bl_next l
  end.
Proof.
  intros Hr Hl Hw Hc. unfold flush. destruct (fl_locked e) eqn:Hlock; cbn [negb].
  2: { eexists _, _, _, _. split; [done|]. cbn. by left. }
  destruct (flush_checkpoint a l) as [[res a1] l1] eqn:Hcp.
  pose proof (checkpoint_outcome a fl l s res a1 l1 Hr Hl Hcp) as Hout.
  destruct (checkpoint_inv a fl l s res a1 l1 Hr Hl Hw Hcp) as (_ & Hl1 & Hw1 & _).
  destruct res as [[]|x].
  2: { eexists _, _, _, _. split; [done|]. destruct x; cbn in *; tauto. }
  destruct Hout as [Hn Hev]. pose proof (pending_events_nonneg l1).
  destruct (flush_loop_spec s0 C (S (size (bl_pending l1))) 0 l1 s deadline (fl_tx e) (fl_now e) (0, 0))
    as (res & l2 & s2 & Hrun & Hres); [done|done|done|lia|cbn; lia|cbn; lia| | |].
  1-2: destruct Hw1; unfold pending_count, MAX_PENDING_STATS_BATCHES, MAX_PENDING_STATS_EVENTS in *; cbn;
    unfold u64_max; lia.
  rewrite Hrun. eexists _, _, _, _. split; [done|]. destruct res as [out|x].
  - destruct Hres as [He ->]. cbn. rewrite (proj1 (pending_count_zero l2) He). split; [done|]. split; [done|].
    split; [lia|]. split; [lia|]. unfold persistence_gap.
    rewrite (proj1 (pending_count_zero l2) He), Z.eqb_refl. by destruct (active_event_count (fl_others e a1) =? 0).
  - destruct Hres as (m & s1 & b & y & -> & Hy). right. by exists m, s1, b.
Qed.

(** A store that is available takes every queued batch: the one a flush submits next
    is committed and leaves the queue. *)
Theorem available_store_commits l s b deadline e now :
  ledger_inv l s -> within_limits l -> next_pending_batch l = Some b -> batch_fits b ->
  be_good s b deadline e ->
  exists l' s', flush_batch l s b deadline e now = (Ok tt, l', s') /\
    pending_count l' = pending_count l - 1 /\ be_known s' (sb_id b) = true.
Proof.
  intros Hl Hw Hb Hfit Hg. pose proof (next_pending_some l b Hb) as (id & p & Hid & Hp). subst b.
  destruct (li_pending l s Hl id p Hid) as (Hsb & _ & _ & Hok & Hh).
  assert (Hres : (be_execute s (pb_batch p) deadline e).1 = Ok tt).
  { apply be_good_law; [done..|]. rewrite Hsb. destruct (be_known s id); [right; by apply Hh|by left]. }
  destruct (be_execute s (pb_batch p) deadline e) as [r s1] eqn:Hx. cbn in Hres. subst r.
  assert (Hc : counts s s []) by (intros day Hday; cbn [Zsum_with foldr]; split; [done|]; split; intros; lia).
  destruct (execute_inv s [] l s id p deadline e (Ok tt) s1 Hl Hc Hid Hx) as (Hl1 & Hk & _).
  unfold flush_batch. rewrite Hx, Hsb.
  destruct (ledger_commit batch_hash l id now) as [r l1] eqn:Hcm.
  destruct (commit_inv l s1 id p now r l1 Hl1 (Hk eq_refl) Hid Hcm) as (_ & _ & Hn & _ & _ & Hr).
  destruct r; [|done]. exists l1, s1. split; [done|]. split; [done|]. by apply Hk.
Qed.

End Worker.

(** ** A run with a lost acknowledgement *)

Module StatsSample.

Definition hash (_ : Z * Z * Z * list (Z * Z * list StatsDimension)) : Z := 7.
Definition place (_ : Z) (_ : list StatsDimension) : Z := 5.
Definition file_name (_ : Z) : option string := Some "2024-10-04.sqlite3".
#[export] Instance store : StatsBackend SqliteBackend TxEnv := sqlite_backend hash file_name.

Definition empty_store : SqliteBackend := mk_sqlite Healthy (mk_db ∅ ∅ ∅ None ∅).
Definition dimensions : list StatsDimension := [dim_transport Datagram; dim_rcode 3].
Definition event : StatsEvent := mk_event 1 20000 dimensions.

(** The environment of a transaction without faults, and one whose commit takes
    effect after the caller has stopped waiting. *)
Definition calm : TxEnv := mk_tx_env 0 0 true None None 0 None 1000000 None.
Definition cut_late : TxEnv := mk_tx_env 0 0 true None None 0 None 1000000 (Some (true, false)).

Definition acc1 := (allocate_event with_default_shards 20000 dimensions).2.
Definition acc2 := (record_event place acc1 event).2.
Definition acc3 := (flush_checkpoint acc2 (with_next_batch_id 1)).1.2.
Definition ledger3 := (flush_checkpoint acc2 (with_next_batch_id 1)).2.
Definition batch : StatsBatch := mk_batch 1 1 0 [event].
Definition out4 := flush_batch hash ledger3 empty_store batch 10 cut_late 0.
Definition ledger4 := out4.1.2.
Definition store4 := out4.2.
Definition acc5 := (flush_checkpoint acc3 ledger4).1.2.
Definition ledger5 := (flush_checkpoint acc3 ledger4).2.
Definition out6 := flush_batch hash ledger5 store4 batch 10 calm 0.
Definition ledger6 := out6.1.2.
Definition store6 := out6.2.

Definition final : StatsSystem :=
  mk_system acc5 ledger6 store6 [] true [event] [].

Lemma triple {A B C} (x : A * B * C) a : x.1.1 = a -> x = (a, x.1.2, x.2).
Proof. destruct x as [[? ?] ?]. cbn. by intros ->. Qed.

Lemma final_reachable : rtc (stats_step hash place) (stats_init empty_store 1) final.
Proof.
  eapply rtc_l.
  { eapply (Step_allocate hash place _ _ _ _ _ _ _ 20000 dimensions (Ok event) acc1).
    by rewrite (surjective_pairing (allocate_event _ _ _)). }
  eapply rtc_l.
  { eapply (Step_record hash place acc1 _ _ [] event [] false [] [] (Ok tt) acc2).
    by rewrite (surjective_pairing (record_event _ _ _)). }
  eapply rtc_l.
  { eapply (Step_checkpoint hash place acc2 _ _ _ _ _ (Ok tt) acc3 ledger3). apply triple. by vm_compute. }
  eapply rtc_l.
  { eapply (Step_batch hash place acc3 ledger3 _ _ _ _ batch 10 cut_late 0 (Err (SPE_Backend PE_Timeout))
              ledger4 store4); [by vm_compute|]. apply triple. by vm_compute. }
  eapply rtc_l.
  { eapply (Step_checkpoint hash place acc3 ledger4 _ _ _ _ (Ok tt) acc5 ledger5). apply triple. by vm_compute. }
  eapply rtc_l.
  { eapply (Step_batch hash place acc5 ledger5 _ _ _ _ batch 10 calm 0 (Ok tt) ledger6 store6); [by vm_compute|].
    apply triple. by vm_compute. }
  apply rtc_refl.
Qed.

Lemma empty_boots : be_boot empty_store 1.
Proof. by vm_compute. Qed.

End StatsSample.

Import StatsSample.

(** The batch was submitted twice, the first time with its success lost, and its event
    is counted once. *)
Lemma stats_exactly_once_witness :
  st_log final = [event] /\ be_total (st_store final) 20000 = 1 /\
  exists counted,
    st_log final ≡ₚ counted ++ waiting (st_store final) (st_ledger final) ++
                    active_events (st_acc final) ++ st_lost final /\
    counts empty_store (st_store final) counted /\ within_limits (st_ledger final).
Proof.
  split; [done|]. split; [by vm_compute|].
  exact (stats_exactly_once hash place (StatsBackendLaws0 := sqlite_laws hash file_name)
           empty_store 1 final empty_boots final_reachable).
Defined.

Lemma recorded_inv : recording_inv acc2 [] /\ ledger_inv (with_next_batch_id 1) empty_store /\
  within_limits (with_next_batch_id 1) /\ counts empty_store empty_store [].
Proof.
  destruct (init_inv (StatsBackendLaws0 := sqlite_laws hash file_name) empty_store 1 empty_boots)
    as [Hr Hl Hw _ Hc]. split; [|by repeat split; try apply Hl; try apply Hw].
  destruct (allocate_inv with_default_shards [] 20000 dimensions (Ok event) acc1) as [Hr1 _]; [apply Hr|done|].
  by destruct (record_inv place acc1 [] event [] (Ok tt) acc2) as [Hr2 _].
Qed.

Definition calm_flush : FlushEnv := mk_flush_env true (fun _ => calm) (fun _ => 0) id.

Lemma flush_outcome_witness :
  exists res a' l' s',
    flush hash acc2 (with_next_batch_id 1) empty_store 10 calm_flush = Some (res, a', l', s') /\
    match res with Ok sum => fs_batches_committed sum = 1 /\ bl_pending l' = ∅ | Err _ => False end.
Proof.
  destruct recorded_inv as (Hr & Hl & Hw & Hc).
  destruct (flush_outcome hash place (StatsBackendLaws0 := sqlite_laws hash file_name) empty_store [] acc2 []
              (with_next_batch_id 1) empty_store 10 calm_flush Hr Hl Hw Hc)
    as (res & a' & l' & s' & Hf & Hres).
  exists res, a', l', s'. split; [exact Hf|].
  destruct res as [sum|x]; [destruct Hres as (He & _ & Hb & _); split; [rewrite Hb; by vm_compute|exact He]|].
  assert (Hok : option_map (fun o => is_ok o.1.1.1) (Some (Err x : result _ FlushSummary, a', l', s')) = Some true).
  { rewrite <-Hf. by vm_compute. }
  discriminate Hok.
Defined.

Lemma available_store_commits_witness :
  exists l' s', flush_batch hash ledger3 empty_store batch 10 calm 0 = (Ok tt, l', s') /\
    pending_count l' = pending_count ledger3 - 1 /\ be_known s' 1 = true.
Proof.
  destruct recorded_inv as (Hr & Hl & Hw & _).
  destruct (checkpoint_inv acc2 [] (with_next_batch_id 1) empty_store (Ok tt) acc3 ledger3) as (_ & Hl3 & Hw3 & _);
    [exact Hr|exact Hl|exact Hw|apply triple; by vm_compute|].
  apply (available_store_commits hash (StatsBackendLaws0 := sqlite_laws hash file_name)
           ledger3 empty_store batch 10 calm 0 Hl3 Hw3).
  - by vm_compute.
  - unfold batch_fits, i64_max. cbn. lia.
  - repeat split; try (vm_compute; reflexivity). by exists 1.
Defined.
