(* ===== verification/Session.v ===== *)
(** * Sessions of the web interface (src/backend/src/management/session.rs)

    The in-memory store of sessions, access tokens and WebSocket tickets: every
    operation of [SessionStore], with the clock readings, the random tokens, the
    iteration order of the hash map and the RFC 3339 formatter as arguments. The mutex
    makes each operation atomic; lock poisoning is left out, since no operation panics
    while it holds the lock. Clocks are read before the lock is taken, so the readings
    of successive operations need not be ordered, and none of the theorems asks it. *)

From S2P Require Import Prelude.

(** ** Data *)

Definition SESSION_ABSOLUTE_TTL : Duration := from_secs (30 * 24 * 60 * 60).
Definition SESSION_IDLE_TTL : Duration := from_secs (24 * 60 * 60).
Definition SESSION_GLOBAL_CAPACITY : nat := 4096.
Definition SESSION_PER_USER_CAPACITY : nat := 16.
Definition ACCESS_TOKEN_TTL : Duration := from_secs (60 * 60).
Definition ACCESS_RENEW_WINDOW : Duration := from_secs (10 * 60).
Definition WS_TICKET_TTL : Duration := from_secs 30.
Definition WS_TICKET_GLOBAL_CAPACITY : nat := 128.
Definition WS_TICKET_PER_SESSION_CAPACITY : nat := 4.

Inductive SessionError := RandomSource | Unavailable | TimeFormat | Capacity.
#[global] Instance SessionError_eq_dec : EqDecision SessionError.
Proof. solve_decision. Defined.

Record SessionView := mk_view { sv_user : string; sv_expires_at : string }.

Record SessionRecord := mk_session {
  sr_username : string;
  sr_created_at : Instant;
  sr_last_seen : Instant;
  sr_expires_at : Instant;
  sr_expires_at_utc : Z;
  sr_access_token : string;
  sr_access_expires_at : Instant;
  sr_access_expires_at_utc : Z
}.

Record AuthSession := mk_auth_session {
  as_session : SessionView;
  as_access_token : string;
  as_token_type : string;
  as_access_expires_at_ms : Z
}.

Record IssuedSession := mk_issued { is_token : string; is_view : AuthSession }.

Record AccessRecord := mk_access { ar_session : string; ar_expires_at : Instant }.

Record WebSocketTicketRecord := mk_ticket_record { tk_session : string; tk_expires_at : Instant }.

Record WebSocketTicket := mk_ticket { wt_ticket : string; wt_expires_at_ms : Z }.

Record SessionData := mk_data {
  sd_sessions : gmap string SessionRecord;
  sd_accesses : gmap string AccessRecord;
  sd_tickets : gmap string WebSocketTicketRecord
}.

Record SessionStore := mk_sessions {
  st_data : SessionData;
  st_secure : bool;
  st_changes : Z
}.

Definition SessionStore_new (secure : bool) : SessionStore := mk_sessions (mk_data ∅ ∅ ∅) secure 0.

Definition set_data (s : SessionStore) (d : SessionData) : SessionStore :=
  mk_sessions d (st_secure s) (st_changes s).

(** [notify_change] *)
Definition notify_change (s : SessionStore) : SessionStore :=
  mk_sessions (st_data s) (st_secure s) (sat_add64 (st_changes s) 1).

Definition HTTPS_COOKIE_NAME : string := "__Host-fluxdns_session".
Definition HTTP_COOKIE_NAME : string := "fluxdns_session".
Definition cookie_name (s : SessionStore) : string :=
  if st_secure s then HTTPS_COOKIE_NAME else HTTP_COOKIE_NAME.

(** [valid_token] *)
Definition token_byte (b : byte) : bool :=
  let c := byte_to_Z b in
  ((48 <=? c) && (c <=? 57)) || ((65 <=? c) && (c <=? 90)) || ((97 <=? c) && (c <=? 122)) ||
  (c =? 45) || (c =? 95).
Definition valid_token (token : string) : bool :=
  (str_len token =? 43) && forallb token_byte (str_bytes token).

(** ** Maintenance *)

Definition session_live (now : Instant) (r : SessionRecord) : Prop :=
  now < sr_expires_at r /\ duration_since now (sr_last_seen r) < SESSION_IDLE_TTL.
#[global] Instance session_live_dec now r : Decision (session_live now r).
Proof. unfold session_live. apply _. Defined.

Definition purge_expired (d : SessionData) (now : Instant) : SessionData :=
  let sessions := filter (fun x => session_live now x.2) (sd_sessions d) in
  mk_data sessions
    (filter (fun x => now < ar_expires_at x.2 /\ is_Some (sessions !! ar_session x.2)) (sd_accesses d))
    (filter (fun x => now < tk_expires_at x.2 /\ is_Some (sessions !! tk_session x.2)) (sd_tickets d)).

Definition remove_session (d : SessionData) (token : string) : SessionData :=
  mk_data (delete token (sd_sessions d))
    (filter (fun x => ar_session x.2 <> token) (sd_accesses d))
    (filter (fun x => tk_session x.2 <> token) (sd_tickets d)).

Definition user_sessions (d : SessionData) (user : string) : gmap string SessionRecord :=
  filter (fun x => sr_username x.2 = user) (sd_sessions d).

(** [Iterator::min_by_key]: the first of the least elements. *)
Definition min_by_key {A} (key : A -> Z) (l : list A) : option A :=
  foldl (fun best x => match best with
                       | Some b => if key x <? key b then Some x else Some b
                       | None => Some x
                       end) None l.

Section Order.
(** The order in which a hash map yields its entries. *)
Context (order : gmap string SessionRecord -> list (string * SessionRecord)).

Definition over_capacity (d : SessionData) (user : string) : bool :=
  (SESSION_GLOBAL_CAPACITY <=? size (sd_sessions d))%nat ||
  (SESSION_PER_USER_CAPACITY <=? size (user_sessions d user))%nat.

Definition eviction_candidate (d : SessionData) (user : string) : option string :=
  fst <$> min_by_key (fun x => sr_created_at x.2)
            (filter (fun x => (SESSION_GLOBAL_CAPACITY <=? size (sd_sessions d))%nat = true \/
                              sr_username x.2 = user) (order (sd_sessions d))).

Fixpoint evict (fuel : nat) (d : SessionData) (user : string) : SessionData :=
  match fuel with
  | O => d
  | S fuel =>
    if over_capacity d user then
      match eviction_candidate d user with
      | Some token => evict fuel (remove_session d token) user
      | None => d
      end
    else d
  end.

(** [enforce_session_capacity]: a session is removed in every round of its loop. *)
Definition enforce_session_capacity (d : SessionData) (user : string) : SessionData :=
  evict (S (size (sd_sessions d))) d user.

(** ** Operations *)

Context (rfc3339 : Z -> option string).

Definition millis_of (utc : Z) : Z := utc / 1000000.

Definition session_view (user : string) (expires_at_utc : Z) : result SessionError SessionView :=
  text ← ok_or TimeFormat (rfc3339 expires_at_utc);
  Ok (mk_view user text).

Definition auth_session (r : SessionRecord) : result SessionError AuthSession :=
  if sr_access_expires_at_utc r <? 0 then Err TimeFormat
  else
    let millis := millis_of (sr_access_expires_at_utc r) in
    if 9007199254740991 <? millis then Err TimeFormat
    else
      view ← session_view (sr_username r) (sr_expires_at_utc r);
      Ok (mk_auth_session view (sr_access_token r) "Bearer" millis).

(** A random token; [None] is a failure of the system's random source. *)
Definition random_token (r : option string) : result SessionError string := ok_or RandomSource r.

Definition new_record (user token_access : string) (now : Instant) (utc : Z) : SessionRecord :=
  mk_session user now now (now + SESSION_ABSOLUTE_TTL) (utc + SESSION_ABSOLUTE_TTL)
    token_access (now + ACCESS_TOKEN_TTL) (utc + ACCESS_TOKEN_TTL).

Definition issue (d : SessionData) (user : string) (now : Instant) (utc : Z)
    (r1 r2 : option string) : result SessionError IssuedSession * SessionData :=
  match random_token r1, random_token r2 with
  | Err e, _ | Ok _, Err e => (Err e, d)
  | Ok token, Ok access =>
    if bool_decide (token = access) || bool_decide (is_Some (sd_sessions d !! token)) ||
       bool_decide (is_Some (sd_accesses d !! access)) || bool_decide (is_Some (sd_sessions d !! access)) ||
       bool_decide (is_Some (sd_accesses d !! token))
    then (Err RandomSource, d)
    else
      let record := new_record user access now utc in
      match auth_session record with
      | Err e => (Err e, d)
      | Ok view =>
        let d := enforce_session_capacity (purge_expired d now) user in
        (Ok (mk_issued token view),
         mk_data (<[token := record]> (sd_sessions d))
           (<[access := mk_access token (sr_access_expires_at record)]> (sd_accesses d)) (sd_tickets d))
      end
  end.

Definition touch (r : SessionRecord) (now : Instant) : SessionRecord :=
  mk_session (sr_username r) (sr_created_at r) now (sr_expires_at r) (sr_expires_at_utc r)
    (sr_access_token r) (sr_access_expires_at r) (sr_access_expires_at_utc r).

Definition put_session (d : SessionData) (token : string) (r : SessionRecord) : SessionData :=
  mk_data (<[token := r]> (sd_sessions d)) (sd_accesses d) (sd_tickets d).

Definition lookup_session (d : SessionData) (token : string) (now : Instant) :
    result SessionError (option SessionView) * SessionData :=
  let d := purge_expired d now in
  match sd_accesses d !! token with
  | None => (Ok None, d)
  | Some a =>
    match sd_sessions d !! ar_session a with
    | None => (Ok None, d)
    | Some r => (Some <$> session_view (sr_username r) (sr_expires_at_utc r),
                 put_session d (ar_session a) (touch r now))
    end
  end.

(** The renewal of the access token of a session. *)
Definition must_renew (r : SessionRecord) (now : Instant) : bool :=
  (sr_access_expires_at r <? sr_expires_at r) &&
  (duration_since (sr_access_expires_at r) now <=? ACCESS_RENEW_WINDOW).

Definition renewed (r : SessionRecord) (token : string) (now : Instant) (utc : Z) : SessionRecord :=
  let ttl := Z.min ACCESS_TOKEN_TTL (duration_since (sr_expires_at r) now) in
  mk_session (sr_username r) (sr_created_at r) (sr_last_seen r) (sr_expires_at r) (sr_expires_at_utc r)
    token (now + ttl) (utc + ttl).

Definition replacement_token (d : SessionData) (r : SessionRecord) (now : Instant) (rnd : option string) :
    result SessionError (option string) :=
  if must_renew r now then
    value ← random_token rnd;
    if bool_decide (is_Some (sd_accesses d !! value)) || bool_decide (is_Some (sd_sessions d !! value))
    then Err RandomSource else Ok (Some value)
  else Ok None.

Definition refresh_at (d : SessionData) (token : string) (now : Instant) (utc : Z) (rnd : option string) :
    result SessionError (option AuthSession) * SessionData :=
  let d := purge_expired d now in
  match sd_sessions d !! token with
  | None => (Ok None, d)
  | Some r =>
    match replacement_token d r now rnd with
    | Err e => (Err e, d)
    | Ok replacement =>
      let r := match replacement with Some value => renewed r value now utc | None => r end in
      match auth_session r with
      | Err e => (Err e, put_session d token r)
      | Ok view =>
        let d := put_session d token (touch r now) in
        (Ok (Some view),
         mk_data (sd_sessions d)
           (<[as_access_token view := mk_access token (sr_access_expires_at r)]> (sd_accesses d)) (sd_tickets d))
      end
    end
  end.

Definition revoke (s : SessionStore) (token : string) (now : Instant) : SessionStore :=
  let d := purge_expired (st_data s) now in
  match sd_accesses d !! token with
  | Some a => notify_change (set_data s (remove_session d (ar_session a)))
  | None => set_data s d
  end.

Definition revoke_all (s : SessionStore) : SessionStore :=
  let changed := negb (size (sd_sessions (st_data s)) =? 0)%nat || negb (size (sd_tickets (st_data s)) =? 0)%nat in
  let s := set_data s (mk_data ∅ ∅ ∅) in
  if changed then notify_change s else s.

Definition session_tickets (d : SessionData) (token : string) : gmap string WebSocketTicketRecord :=
  filter (fun x => tk_session x.2 = token) (sd_tickets d).

Definition issue_websocket_ticket (d : SessionData) (access : string) (now : Instant) (utc : Z)
    (rnd : option string) : result SessionError (option WebSocketTicket) * SessionData :=
  let d := purge_expired d now in
  match sd_accesses d !! access with
  | None => (Ok None, d)
  | Some a =>
    let token := ar_session a in
    match sd_sessions d !! token with
    | None => (Ok None, d)
    | Some r =>
      let d := put_session d token (touch r now) in
      if (WS_TICKET_GLOBAL_CAPACITY <=? size (sd_tickets d))%nat ||
         (WS_TICKET_PER_SESSION_CAPACITY <=? size (session_tickets d token))%nat
      then (Err Capacity, d)
      else match random_token rnd with
      | Err e => (Err e, d)
      | Ok ticket =>
        if bool_decide (is_Some (sd_sessions d !! ticket)) || bool_decide (is_Some (sd_accesses d !! ticket)) ||
           bool_decide (is_Some (sd_tickets d !! ticket))
        then (Err RandomSource, d)
        else
          let at_ := utc + WS_TICKET_TTL in
          if (at_ <? 0) || (u64_max <? millis_of at_) then (Err TimeFormat, d)
          else (Ok (Some (mk_ticket ticket (millis_of at_))),
                mk_data (sd_sessions d) (sd_accesses d)
                  (<[ticket := mk_ticket_record token (now + WS_TICKET_TTL)]> (sd_tickets d)))
      end
    end
  end.

Definition consume_websocket_ticket (d : SessionData) (ticket : string) (now : Instant) :
    result SessionError (option string) * SessionData :=
  let d := purge_expired d now in
  match sd_tickets d !! ticket with
  | None => (Ok None, d)
  | Some k =>
    let d := mk_data (sd_sessions d) (sd_accesses d) (delete ticket (sd_tickets d)) in
    match sd_sessions d !! tk_session k with
    | None => (Ok None, d)
    | Some r => (Ok (Some (tk_session k)), put_session d (tk_session k) (touch r now))
    end
  end.

Definition validate_websocket_session (d : SessionData) (session : string) (now : Instant) :
    result SessionError bool * SessionData :=
  let d := purge_expired d now in
  match sd_sessions d !! session with
  | None => (Ok false, d)
  | Some r => (Ok true, put_session d session (touch r now))
  end.

(** ** Runs *)

(** One call of the store, with the readings and draws it makes. *)
Inductive SessionOp :=
| OIssue (user : string) (now : Instant) (utc : Z) (r1 r2 : option string)
| OLookup (token : string) (now : Instant)
| ORefresh (token : string) (now : Instant) (utc : Z) (rnd : option string)
| ORevoke (token : string) (now : Instant)
| ORevokeAll
| OTicket (access : string) (now : Instant) (utc : Z) (rnd : option string)
| OConsume (ticket : string) (now : Instant)
| OValidate (session : string) (now : Instant).

Definition session_exec (op : SessionOp) (s : SessionStore) : SessionStore :=
  match op with
  | OIssue user now utc r1 r2 => set_data s (issue (st_data s) user now utc r1 r2).2
  | OLookup token now => set_data s (lookup_session (st_data s) token now).2
  | ORefresh token now utc rnd => set_data s (refresh_at (st_data s) token now utc rnd).2
  | ORevoke token now => revoke s token now
  | ORevokeAll => revoke_all s
  | OTicket access now utc rnd => set_data s (issue_websocket_ticket (st_data s) access now utc rnd).2
  | OConsume ticket now => set_data s (consume_websocket_ticket (st_data s) ticket now).2
  | OValidate session now => set_data s (validate_websocket_session (st_data s) session now).2
  end.

Definition op_draws (op : SessionOp) : list string :=
  match op with
  | OIssue _ _ _ r1 r2 => omap id [r1; r2]
  | ORefresh _ _ _ rnd | OTicket _ _ _ rnd => omap id [rnd]
  | _ => []
  end.

(** The store and the tokens drawn so far, those that were never stored included. A run
    is ideal: 256 random bits never repeat. *)
Inductive session_step : SessionStore * gset string -> SessionStore * gset string -> Prop :=
| session_step_op op s drawn :
    NoDup (op_draws op) -> (forall t, t ∈ op_draws op -> t ∉ drawn) ->
    session_step (s, drawn) (session_exec op s, list_to_set (op_draws op) ∪ drawn)
| session_step_unused l s drawn :
    session_step (s, drawn) (s, list_to_set (l : list string) ∪ drawn).

(** ** The invariant *)

Definition access_ok (t : string) (a : AccessRecord) (r : SessionRecord) : Prop :=
  ar_expires_at a <= sr_expires_at r /\
  (t = sr_access_token r -> ar_expires_at a = sr_access_expires_at r) /\
  (t <> sr_access_token r ->
     ar_expires_at a + (ACCESS_TOKEN_TTL - ACCESS_RENEW_WINDOW) <= sr_access_expires_at r \/
     sr_access_expires_at r = sr_expires_at r).

Record record_ok (drawn : gset string) (d : SessionData) (s : string) (r : SessionRecord) : Prop := {
  ro_lifetime : sr_expires_at r = sr_created_at r + SESSION_ABSOLUTE_TTL;
  ro_access : sr_access_expires_at r <= sr_expires_at r;
  ro_drawn : s ∈ drawn /\ sr_access_token r ∈ drawn;
  ro_kind : sd_sessions d !! sr_access_token r = None /\ sd_tickets d !! sr_access_token r = None /\
            sd_accesses d !! s = None /\ sd_tickets d !! s = None;
  ro_current : forall a, sd_accesses d !! sr_access_token r = Some a -> ar_session a = s
}.

(** Capacities, links from credentials to live sessions, one role per token, and at
    most one older access token beside the current one. *)
Record session_inv (drawn : gset string) (d : SessionData) : Prop := {
  si_global : (size (sd_sessions d) <= SESSION_GLOBAL_CAPACITY)%nat;
  si_user u : (size (user_sessions d u) <= SESSION_PER_USER_CAPACITY)%nat;
  si_tickets : (size (sd_tickets d) <= WS_TICKET_GLOBAL_CAPACITY)%nat;
  si_per_session s : (size (session_tickets d s) <= WS_TICKET_PER_SESSION_CAPACITY)%nat;
  si_record s r : sd_sessions d !! s = Some r -> record_ok drawn d s r;
  si_inj s1 s2 r1 r2 : sd_sessions d !! s1 = Some r1 -> sd_sessions d !! s2 = Some r2 ->
    sr_access_token r1 = sr_access_token r2 -> s1 = s2;
  si_access t a : sd_accesses d !! t = Some a ->
    t ∈ drawn /\ sd_tickets d !! t = None /\
    exists r, sd_sessions d !! ar_session a = Some r /\ access_ok t a r;
  si_older t1 t2 a1 a2 r : sd_accesses d !! t1 = Some a1 -> sd_accesses d !! t2 = Some a2 ->
    ar_session a1 = ar_session a2 -> sd_sessions d !! ar_session a1 = Some r ->
    t1 <> sr_access_token r -> t2 <> sr_access_token r -> t1 = t2;
  si_ticket t k : sd_tickets d !! t = Some k -> t ∈ drawn /\ is_Some (sd_sessions d !! tk_session k)
}.

Lemma size_mono {A} (m1 m2 : gmap string A) (n : nat) : m1 ⊆ m2 -> (size m2 <= n)%nat -> (size m1 <= n)%nat.
Proof. intros H Hn. apply map_subseteq_size in H. lia. Qed.

(** Removing sessions, with the credentials that point to them, keeps the invariant. *)
Definition shrinks (d d' : SessionData) : Prop :=
  sd_sessions d' ⊆ sd_sessions d /\ sd_accesses d' ⊆ sd_accesses d /\ sd_tickets d' ⊆ sd_tickets d /\
  (forall t a, sd_accesses d' !! t = Some a -> is_Some (sd_sessions d' !! ar_session a)) /\
  (forall t k, sd_tickets d' !! t = Some k -> is_Some (sd_sessions d' !! tk_session k)).

Lemma none_weaken {A} (m1 m2 : gmap string A) i : m1 ⊆ m2 -> m2 !! i = None -> m1 !! i = None.
Proof. intros H Hn. by apply (lookup_weaken_None m1 m2). Qed.

Lemma shrinks_inv drawn d d' : shrinks d d' -> session_inv drawn d -> session_inv drawn d'.
Proof.
  intros (Hs & Ha & Ht & Hla & Hlt) I. split.
  - eapply size_mono; [exact Hs|]. apply I.
  - intros u. eapply size_mono; [|apply (si_user _ _ I u)]. by apply map_filter_subseteq_mono.
  - eapply size_mono; [exact Ht|]. apply I.
  - intros s. eapply size_mono; [|apply (si_per_session _ _ I s)]. by apply map_filter_subseteq_mono.
  - intros s r Hr. destruct (si_record _ _ I s r) as [? ? ? (K1 & K2 & K3 & K4) Hc]; [by eapply lookup_weaken|].
    split; try done.
    + split; [|split; [|split]]; by eapply none_weaken.
    + intros a Hx. apply Hc. by eapply lookup_weaken.
  - intros s1 s2 r1 r2 H1 H2. apply (si_inj _ _ I); by eapply lookup_weaken.
  - intros t a Hx. destruct (si_access _ _ I t a) as (? & ? & r & Hr & Hok); [by eapply lookup_weaken|].
    split; [done|]. split; [by eapply none_weaken|]. destruct (Hla t a Hx) as [r' Hr']. exists r'. split; [done|].
    assert (r' = r) as -> by (apply (lookup_weaken _ _ _ _ Hr') in Hs; congruence). done.
  - intros t1 t2 a1 a2 r H1 H2 He Hr. apply (si_older _ _ I t1 t2 a1 a2 r); [by eapply lookup_weaken..|done|by eapply lookup_weaken].
  - intros t k Hx. split; [|by eapply Hlt]. apply (si_ticket _ _ I t k). by eapply lookup_weaken.
Qed.

Lemma purge_shrinks d now : shrinks d (purge_expired d now).
Proof.
  split; [apply map_filter_subseteq|]. split; [apply map_filter_subseteq|]. split; [apply map_filter_subseteq|].
  split; intros t x H; apply map_lookup_filter_Some in H as [_ [_ H]]; exact H.
Qed.

Lemma linked_not d s s' : s' <> s -> is_Some (sd_sessions d !! s') -> is_Some (sd_sessions (remove_session d s) !! s').
Proof. intros Hne [r Hr]. exists r. cbn. by rewrite lookup_delete_ne. Qed.

Lemma remove_shrinks drawn d s : session_inv drawn d -> shrinks d (remove_session d s).
Proof.
  intros I. split; [apply delete_subseteq|]. split; [apply map_filter_subseteq|]. split; [apply map_filter_subseteq|].
  split; intros t x H; apply map_lookup_filter_Some in H as [H Hne]; apply linked_not; try done.
  - destruct (si_access _ _ I t x H) as (_ & _ & r & Hr & _). by exists r.
  - by apply (si_ticket _ _ I t x).
Qed.

(** ** Capacity *)

Lemma min_by_key_some {A} (key : A -> Z) (l : list A) :
  l <> [] -> exists x, min_by_key key l = Some x /\ x ∈ l /\ forall y, y ∈ l -> key x <= key y.
Proof.
  assert (G : forall l b, exists x,
    foldl (fun best x => match best with Some b => if key x <? key b then Some x else Some b | None => Some x end)
      (Some b) l = Some x /\ (x = b \/ x ∈ l) /\ key x <= key b /\ forall y, y ∈ l -> key x <= key y).
  { clear l. induction l as [|c l IH]; intros b; cbn.
    - exists b. split; [done|]. split; [by left|]. split; [lia|]. intros y Hy. by apply not_elem_of_nil in Hy.
    - destruct (Z.ltb_spec (key c) (key b)).
      + destruct (IH c) as (x & -> & Hin & Hle & Hall). exists x. split; [done|].
        split; [right; apply elem_of_cons; destruct Hin; auto|]. split; [lia|].
        intros y [->|Hy]%elem_of_cons; [lia|by apply Hall].
      + destruct (IH b) as (x & -> & Hin & Hle & Hall). exists x. split; [done|].
        split; [destruct Hin; [by left|right; by right]|]. split; [lia|].
        intros y [->|Hy]%elem_of_cons; [lia|by apply Hall]. }
  destruct l as [|c l]; [done|]. intros _. destruct (G l c) as (x & Hx & Hin & Hle & Hall).
  exists x. split; [exact Hx|]. split; [apply elem_of_cons; destruct Hin; auto|].
  intros y [->|Hy]%elem_of_cons; [lia|by apply Hall].
Qed.

Context (order_perm : forall m, order m ≡ₚ map_to_list m).

(** A store over its capacity has a session to evict: the oldest of those the limit
    concerns. *)
Lemma candidate_some d user :
  over_capacity d user = true ->
  exists s r, eviction_candidate d user = Some s /\ sd_sessions d !! s = Some r /\
    ((SESSION_GLOBAL_CAPACITY <= size (sd_sessions d))%nat \/ sr_username r = user) /\
    forall s' r', sd_sessions d !! s' = Some r' ->
      (SESSION_GLOBAL_CAPACITY <= size (sd_sessions d))%nat \/ sr_username r' = user ->
      sr_created_at r <= sr_created_at r'.
Proof.
  intros Ho. unfold eviction_candidate.
  match goal with |- context [min_by_key ?k ?l] => set (lst := l); set (key := k) end.
  assert (Hel : forall x, x ∈ lst <-> sd_sessions d !! x.1 = Some x.2 /\
     ((SESSION_GLOBAL_CAPACITY <= size (sd_sessions d))%nat \/ sr_username x.2 = user)).
  { intros [s r]. unfold lst. rewrite list_elem_of_filter, order_perm, elem_of_map_to_list, Nat.leb_le. tauto. }
  assert (Hne : lst <> []).
  { unfold over_capacity in Ho. apply orb_true_iff in Ho as [Hg|Hu].
    - apply Nat.leb_le in Hg. destruct (decide (sd_sessions d = ∅)) as [E|E].
      { rewrite E, map_size_empty in Hg. unfold SESSION_GLOBAL_CAPACITY in Hg. lia. }
      apply map_choose in E as (s & r & Hr). intros E. assert (Hin : (s, r) ∈ lst) by (apply Hel; auto).
      rewrite E in Hin. by apply not_elem_of_nil in Hin.
    - apply Nat.leb_le in Hu. destruct (decide (user_sessions d user = ∅)) as [E|E].
      { rewrite E, map_size_empty in Hu. unfold SESSION_PER_USER_CAPACITY in Hu. lia. }
      apply map_choose in E as (s & r & Hr). apply map_lookup_filter_Some in Hr as [Hr Hu'].
      intros E. assert (Hin : (s, r) ∈ lst) by (apply Hel; auto). rewrite E in Hin. by apply not_elem_of_nil in Hin. }
  destruct (min_by_key_some key lst Hne) as ([s r] & -> & Hin & Hmin). exists s, r.
  apply Hel in Hin as [H1 H2]. split; [done|]. split; [done|]. split; [done|].
  intros s' r' H3 H4. apply (Hmin (s', r')). apply Hel. auto.
Qed.

Lemma evict_spec drawn user fuel d :
  session_inv drawn d -> (size (sd_sessions d) < fuel)%nat ->
  session_inv drawn (evict fuel d user) /\ over_capacity (evict fuel d user) user = false /\
  sd_sessions (evict fuel d user) ⊆ sd_sessions d.
Proof.
  revert d. induction fuel as [|fuel IH]; intros d I Hf; [lia|]. cbn.
  destruct (over_capacity d user) eqn:Ho; [|by auto].
  destruct (candidate_some d user Ho) as (s & r & -> & Hr & _ & _).
  destruct (IH (remove_session d s)) as (H1 & H2 & H3).
  - eapply shrinks_inv; [by eapply remove_shrinks|done].
  - cbn. rewrite map_size_delete_Some by eauto. assert (size (sd_sessions d) <> 0)%nat; [|lia].
    intros E. apply map_size_empty_inv in E. by rewrite E, lookup_empty in Hr.
  - split; [done|]. split; [done|]. etrans; [exact H3|]. apply delete_subseteq.
Qed.

(** ** Primitive updates *)

Lemma count_put d s r r' u :
  sd_sessions d !! s = Some r -> sr_username r' = sr_username r ->
  size (user_sessions (put_session d s r') u) = size (user_sessions d u).
Proof.
  intros Hr Hu. unfold user_sessions, put_session. cbn. destruct (decide (sr_username r = u)) as [E|E].
  - rewrite map_filter_insert_True by (cbn; congruence). apply map_size_insert_Some.
    exists r. by apply map_lookup_filter_Some.
  - rewrite map_filter_insert_False by (cbn; congruence).
    f_equal. apply map_eq. intros i. apply option_eq. intros x. rewrite !map_lookup_filter_Some.
    destruct (decide (i = s)) as [->|Hne].
    + rewrite lookup_delete_eq, Hr. split; [by intros [? _]|]. intros [[= ->] ?]. cbn in *. congruence.
    + by rewrite lookup_delete_ne.
Qed.

Lemma fresh_absent drawn d t :
  session_inv drawn d -> t ∉ drawn ->
  sd_sessions d !! t = None /\ sd_accesses d !! t = None /\ sd_tickets d !! t = None.
Proof.
  intros I Ht. split; [|split]; apply eq_None_not_Some; intros [x Hx]; apply Ht.
  - apply (si_record _ _ I t x Hx).
  - apply (si_access _ _ I t x Hx).
  - apply (si_ticket _ _ I t x Hx).
Qed.

Lemma session_inv_weaken drawn drawn' d : drawn ⊆ drawn' -> session_inv drawn d -> session_inv drawn' d.
Proof.
  intros Hd I. split; try apply I.
  - intros s r Hr. destruct (si_record _ _ I s r Hr) as [? ? [? ?] ? ?]. split; try done. split; set_solver.
  - intros t a Ha. destruct (si_access _ _ I t a Ha) as (? & ? & ?). split; [set_solver|done].
  - intros t k Hk. destruct (si_ticket _ _ I t k Hk). split; [set_solver|done].
Qed.

(** A session record is replaced by one of the same session. *)
Lemma put_inv drawn d s r r' :
  session_inv drawn d -> sd_sessions d !! s = Some r ->
  sr_username r' = sr_username r -> sr_created_at r' = sr_created_at r -> sr_expires_at r' = sr_expires_at r ->
  sr_access_expires_at r' <= sr_expires_at r ->
  sr_access_token r' ∈ drawn ->
  sr_access_token r' = sr_access_token r \/
    (sd_sessions d !! sr_access_token r' = None /\ sd_accesses d !! sr_access_token r' = None /\
     sd_tickets d !! sr_access_token r' = None /\
     forall s0 r0, sd_sessions d !! s0 = Some r0 -> sr_access_token r0 <> sr_access_token r') ->
  (forall t a, sd_accesses d !! t = Some a -> ar_session a = s -> access_ok t a r') ->
  (forall t1 t2 a1 a2, sd_accesses d !! t1 = Some a1 -> sd_accesses d !! t2 = Some a2 ->
     ar_session a1 = s -> ar_session a2 = s ->
     t1 <> sr_access_token r' -> t2 <> sr_access_token r' -> t1 = t2) ->
  session_inv drawn (put_session d s r').
Proof.
  intros I Hr Hu Hc He Hx Hdr Htok Hok Hold. split.
  - cbn. rewrite map_size_insert_Some by eauto. apply I.
  - intros u. erewrite count_put by done. apply I.
  - apply I.
  - intros s0. apply (si_per_session _ _ I s0).
  - intros s0 r0 H0. cbn in H0. destruct (decide (s0 = s)) as [->|Hne].
    + rewrite lookup_insert_eq in H0. injection H0 as <-.
      destruct (si_record _ _ I s r Hr) as [L A [D1 D2] (K1 & K2 & K3 & K4) C].
      split; [congruence|congruence|by split| |].
      * cbn. split; [|destruct Htok as [->|(_ & _ & ? & _)]; by auto].
        destruct Htok as [->|(Hs & _)]; rewrite lookup_insert_ne; congruence.
      * cbn. intros a Ha. destruct Htok as [E|(_ & E & _)]; [apply C; congruence|congruence].
    + rewrite lookup_insert_ne in H0 by done.
      destruct (si_record _ _ I s0 r0 H0) as [L A D (K1 & K2 & K3 & K4) C].
      split; try done. cbn. split; [|done]. rewrite lookup_insert_ne; congruence.
  - intros s1 s2 r1 r2 H1 H2 Ht. cbn in H1, H2.
    destruct (decide (s1 = s)) as [->|N1], (decide (s2 = s)) as [->|N2]; [done|..];
      rewrite ?lookup_insert_eq, ?lookup_insert_ne in H1 by done;
      rewrite ?lookup_insert_eq, ?lookup_insert_ne in H2 by done.
    + injection H1 as <-. destruct Htok as [E|(_ & _ & _ & E)].
      * eapply (si_inj _ _ I); eauto. congruence.
      * exfalso. eapply E; [exact H2|done].
    + injection H2 as <-. destruct Htok as [E|(_ & _ & _ & E)].
      * eapply (si_inj _ _ I); eauto. congruence.
      * exfalso. eapply E; [exact H1|done].
    + by eapply (si_inj _ _ I).
  - intros t a Ha. cbn in Ha. destruct (si_access _ _ I t a Ha) as (D & K & r0 & H0 & Ho).
    split; [done|]. split; [done|]. cbn. destruct (decide (ar_session a = s)) as [E|E].
    + exists r'. rewrite E, lookup_insert_eq. split; [done|]. by apply Hok.
    + exists r0. by rewrite lookup_insert_ne.
  - intros t1 t2 a1 a2 r0 H1 H2 E H0 N1 N2. cbn in *. destruct (decide (ar_session a1 = s)) as [Es|Es].
    + rewrite Es, lookup_insert_eq in H0. injection H0 as <-. eapply Hold; eauto. congruence.
    + rewrite lookup_insert_ne in H0 by done. by eapply (si_older _ _ I t1 t2 a1 a2 r0).
  - intros t k Hk. destruct (si_ticket _ _ I t k Hk) as [D [r0 H0]]. split; [done|]. cbn.
    destruct (decide (tk_session k = s)) as [->|E]; [rewrite lookup_insert_eq; by eexists|].
    rewrite lookup_insert_ne by done. by exists r0.
Qed.

Lemma touch_inv drawn d s r now :
  session_inv drawn d -> sd_sessions d !! s = Some r -> session_inv drawn (put_session d s (touch r now)).
Proof.
  intros I Hr. destruct (si_record _ _ I s r Hr) as [L A [D1 D2] K C].
  eapply put_inv; eauto.
  - intros t a Ha Hs. destruct (si_access _ _ I t a Ha) as (_ & _ & r0 & H0 & Ho). rewrite Hs in H0.
    assert (r0 = r) as -> by congruence. done.
  - cbn. intros t1 t2 a1 a2 H1 H2 E1 E2. eapply (si_older _ _ I t1 t2 a1 a2 r); eauto; congruence.
Qed.

(** Renewal: the older token has expired by then, so that only the one that was current
    is left beside the new one. *)
Lemma renewed_inv drawn d s r value now utc :
  session_inv drawn (purge_expired d now) -> sd_sessions (purge_expired d now) !! s = Some r ->
  must_renew r now = true -> value ∉ drawn ->
  session_inv ({[value]} ∪ drawn) (put_session (purge_expired d now) s (renewed r value now utc)).
Proof.
  intros I Hr Hm Hv. pose proof (fresh_absent _ _ _ I Hv) as (F1 & F2 & F3).
  assert (Hlive : session_live now r) by (apply map_lookup_filter_Some in Hr as [_ Hr]; exact Hr).
  destruct Hlive as [Hexp _]. apply andb_true_iff in Hm as [Hm1 Hm2].
  apply Z.ltb_lt in Hm1. apply Z.leb_le in Hm2. unfold duration_since, sat_sub in Hm2.
  assert (Hex : sr_access_expires_at (renewed r value now utc) =
                Z.min (now + ACCESS_TOKEN_TTL) (sr_expires_at r)).
  { cbn [renewed sr_access_expires_at]. unfold duration_since, sat_sub. lia. }
  assert (Honly : forall t a, sd_accesses (purge_expired d now) !! t = Some a -> ar_session a = s ->
            t = sr_access_token r /\ access_ok t a (renewed r value now utc)).
  { intros t a Ha Es. pose proof (si_access _ _ I t a Ha) as (Da & _ & r0 & H0 & O1 & O2 & O3).
    rewrite Es in H0. assert (r0 = r) as -> by congruence.
    pose proof Ha as Hnow. apply map_lookup_filter_Some in Hnow as [_ [Hnow _]]. cbn in Hnow.
    unfold ACCESS_TOKEN_TTL, ACCESS_RENEW_WINDOW, from_secs, nanos_per_sec in *.
    destruct (decide (t = sr_access_token r)) as [Et|Et].
    - split; [done|]. specialize (O2 Et). split; [exact O1|]. rewrite Hex. cbn [sr_access_token renewed].
      split; [intros ->; by rewrite (proj1 (proj2 (fresh_absent _ _ _ I Hv))) in Ha|]. intros _.
      cbn [sr_expires_at renewed]. unfold ACCESS_TOKEN_TTL, ACCESS_RENEW_WINDOW, from_secs, nanos_per_sec in *. lia.
    - exfalso. destruct (O3 Et); lia. }
  eapply put_inv; [eapply session_inv_weaken; [|exact I]; set_solver|exact Hr|done..| | | | |].
  - rewrite Hex. lia.
  - cbn. set_solver.
  - right. split; [done|]. split; [done|]. split; [done|]. intros s0 r0 H0 Et. cbn in Et.
    apply Hv. rewrite <-Et. apply (si_record _ _ I s0 r0 H0).
  - intros t a Ha Es. by apply Honly.
  - intros t1 t2 a1 a2 H1 H2 E1 E2 _ _. destruct (Honly t1 a1), (Honly t2 a2); congruence.
Qed.

Definition put_access (d : SessionData) (t : string) (a : AccessRecord) : SessionData :=
  mk_data (sd_sessions d) (<[t := a]> (sd_accesses d)) (sd_tickets d).

(** The current access token of a session is entered into the index. *)
Lemma put_access_inv drawn d s r :
  session_inv drawn d -> sd_sessions d !! s = Some r ->
  session_inv drawn (put_access d (sr_access_token r) (mk_access s (sr_access_expires_at r))).
Proof.
  intros I Hr. pose proof (si_record _ _ I s r Hr) as [L A [D1 D2] (K1 & K2 & K3 & K4) C].
  split; try apply I.
  - intros s0 r0 H0. cbn in H0. destruct (si_record _ _ I s0 r0 H0) as [L0 A0 D0 (Q1 & Q2 & Q3 & Q4) C0].
    split; try done.
    + cbn. split; [done|]. split; [done|]. split; [|done]. rewrite lookup_insert_ne; congruence.
    + cbn. intros a Ha. destruct (decide (sr_access_token r = sr_access_token r0)) as [E|E].
      * rewrite E, lookup_insert_eq in Ha. injection Ha as <-. cbn. by eapply (si_inj _ _ I).
      * rewrite lookup_insert_ne in Ha by done. by apply C0.
  - cbn. intros t a Ha. destruct (decide (sr_access_token r = t)) as [<-|E].
    + rewrite lookup_insert_eq in Ha. injection Ha as <-. split; [done|]. split; [done|]. exists r.
      split; [done|]. split; [done|]. split; [done|]. by intros [].
    + rewrite lookup_insert_ne in Ha by done. by apply (si_access _ _ I).
  - cbn. intros t1 t2 a1 a2 r0 H1 H2 Es H0 N1 N2.
    assert (Hold : forall t a, <[sr_access_token r := mk_access s (sr_access_expires_at r)]> (sd_accesses d) !! t = Some a ->
              sd_sessions d !! ar_session a = Some r0 -> t <> sr_access_token r0 -> sd_accesses d !! t = Some a).
    { intros t a Ha Hs Ht. destruct (decide (sr_access_token r = t)) as [<-|E].
      - rewrite lookup_insert_eq in Ha. injection Ha as <-. cbn in Hs. congruence.
      - by rewrite lookup_insert_ne in Ha. }
    apply (si_older _ _ I t1 t2 a1 a2 r0); try done; apply Hold; congruence.
Qed.

Definition put_ticket (d : SessionData) (t : string) (k : WebSocketTicketRecord) : SessionData :=
  mk_data (sd_sessions d) (sd_accesses d) (<[t := k]> (sd_tickets d)).

Lemma put_ticket_inv drawn d s t at_ :
  session_inv drawn d -> is_Some (sd_sessions d !! s) -> t ∉ drawn ->
  (size (sd_tickets d) < WS_TICKET_GLOBAL_CAPACITY)%nat ->
  (size (session_tickets d s) < WS_TICKET_PER_SESSION_CAPACITY)%nat ->
  session_inv ({[t]} ∪ drawn) (put_ticket d t (mk_ticket_record s at_)).
Proof.
  intros I Hs Ht Hg Hp. pose proof (fresh_absent _ _ _ I Ht) as (F1 & F2 & F3).
  pose proof (session_inv_weaken drawn ({[t]} ∪ drawn) d ltac:(set_solver) I) as I'.
  split; try apply I.
  - cbn. rewrite map_size_insert_None by done. lia.
  - intros s0. unfold session_tickets in *. cbn. destruct (decide (s = s0)) as [<-|E].
    + rewrite map_filter_insert_True by done. rewrite map_size_insert_None; [lia|].
      apply eq_None_not_Some. intros [k Hk]. apply map_lookup_filter_Some in Hk as [Hk _]. congruence.
    + rewrite map_filter_insert_False by done. rewrite delete_id by done. apply (si_per_session _ _ I s0).
  - intros s0 r0 H0. cbn in H0. destruct (si_record _ _ I' s0 r0 H0) as [L0 A0 D0 (Q1 & Q2 & Q3 & Q4) C0].
    split; try done. cbn. split; [done|]. split; [|split; [done|]].
    + rewrite lookup_insert_ne; [done|]. intros ->. apply Ht. apply (si_record _ _ I s0 r0 H0).
    + rewrite lookup_insert_ne; [done|]. intros ->. congruence.
  - cbn. intros t0 a Ha. destruct (si_access _ _ I' t0 a Ha) as (D & K & Hx). split; [done|]. split; [|done].
    rewrite lookup_insert_ne; [done|]. intros ->. congruence.
  - cbn. intros t0 k Hk. destruct (decide (t = t0)) as [<-|E].
    + rewrite lookup_insert_eq in Hk. injection Hk as <-. split; [set_solver|done].
    + rewrite lookup_insert_ne in Hk by done. by apply (si_ticket _ _ I').
Qed.

(** A new session, with room for it, and its first access token. *)
Lemma new_session_inv drawn d user token access now utc :
  session_inv drawn d -> over_capacity d user = false -> token ∉ drawn -> access ∉ drawn -> token <> access ->
  session_inv ({[token; access]} ∪ drawn)
    (put_access (put_session d token (new_record user access now utc)) access
       (mk_access token (now + ACCESS_TOKEN_TTL))).
Proof.
  intros I Ho Ht Ha Hne. pose proof (fresh_absent _ _ _ I Ht) as (F1 & F2 & F3).
  pose proof (fresh_absent _ _ _ I Ha) as (G1 & G2 & G3).
  apply orb_false_iff in Ho as [Ho1 Ho2]. apply Nat.leb_gt in Ho1, Ho2.
  set (r := new_record user access now utc). set (drawn' := {[token; access]} ∪ drawn).
  assert (Hsub : drawn ⊆ drawn') by set_solver.
  pose proof (session_inv_weaken drawn drawn' d Hsub I) as I'.
  change (session_inv drawn' (put_access (put_session d token r) (sr_access_token r)
            (mk_access token (sr_access_expires_at r)))).
  apply put_access_inv; [|cbn; apply lookup_insert_eq]. split; try apply I.
  - cbn. rewrite map_size_insert_None by done. lia.
  - intros u. unfold user_sessions in *. cbn. destruct (decide (user = u)) as [<-|E].
    + rewrite map_filter_insert_True by done. rewrite map_size_insert_None; [lia|].
      apply eq_None_not_Some. intros [k Hk]. apply map_lookup_filter_Some in Hk as [Hk _]. congruence.
    + rewrite map_filter_insert_False by done. rewrite delete_id by done. apply (si_user _ _ I u).
  - intros s0 r0 H0. cbn in H0. destruct (decide (token = s0)) as [<-|E].
    + rewrite lookup_insert_eq in H0. injection H0 as <-.
      split; [done|cbn; unfold ACCESS_TOKEN_TTL, SESSION_ABSOLUTE_TTL, from_secs, nanos_per_sec; lia| | |].
      * cbn. set_solver.
      * cbn. split; [by rewrite lookup_insert_ne|]. done.
      * cbn. congruence.
    + rewrite lookup_insert_ne in H0 by done.
      destruct (si_record _ _ I' s0 r0 H0) as [L A D (K1 & K2 & K3 & K4) C].
      split; try done. cbn. split; [|done]. rewrite lookup_insert_ne; [done|]. intros ->.
      apply Ht. apply (si_record _ _ I s0 r0 H0).
  - assert (Hfr : forall s0 r0, sd_sessions d !! s0 = Some r0 -> sr_access_token r0 <> access).
    { intros s0 r0 H0 E. apply Ha. rewrite <-E. apply (si_record _ _ I s0 r0 H0). }
    intros s1 s2 r1 r2 H1 H2 Et. cbn in H1, H2.
    destruct (decide (token = s1)) as [<-|N1], (decide (token = s2)) as [<-|N2]; [done|..];
      rewrite ?lookup_insert_eq, ?lookup_insert_ne in H1 by done;
      rewrite ?lookup_insert_eq, ?lookup_insert_ne in H2 by done.
    + injection H1 as <-. by destruct (Hfr s2 r2 H2).
    + injection H2 as <-. by destruct (Hfr s1 r1 H1).
    + by eapply (si_inj _ _ I).
  - intros t a Hx. cbn in Hx. destruct (si_access _ _ I' t a Hx) as (D & K & r0 & H0 & Hok).
    split; [done|]. split; [done|]. exists r0. cbn. rewrite lookup_insert_ne; [done|]. congruence.
  - intros t1 t2 a1 a2 r0 H1 H2 Es H0. cbn in *. rewrite lookup_insert_ne in H0.
    + by apply (si_older _ _ I t1 t2 a1 a2 r0).
    + destruct (si_access _ _ I t1 a1 H1) as (_ & _ & r1 & Hr1 & _). congruence.
  - intros t k Hk. cbn in Hk. destruct (si_ticket _ _ I' t k Hk) as [D [r0 H0]]. split; [done|].
    exists r0. cbn. rewrite lookup_insert_ne; [done|]. congruence.
Qed.

Lemma drop_ticket_inv drawn d t :
  session_inv drawn d -> session_inv drawn (mk_data (sd_sessions d) (sd_accesses d) (delete t (sd_tickets d))).
Proof.
  intros I. apply (shrinks_inv drawn d); [|done]. split; [done|]. split; [done|]. split; [apply delete_subseteq|].
  split.
  - intros t0 a Ha. destruct (si_access _ _ I t0 a Ha) as (_ & _ & r & Hr & _). by exists r.
  - intros t0 k Hk. cbn in Hk. apply lookup_delete_Some in Hk as [_ Hk]. by apply (si_ticket _ _ I t0 k).
Qed.

(** ** Operations preserve the invariant *)

Lemma auth_session_token r v : auth_session r = Ok v -> as_access_token v = sr_access_token r.
Proof.
  unfold auth_session. destruct (_ <? 0); [done|]. destruct (_ <? _); [done|]. intros H.
  apply bind_ok in H as (view & _ & H). by injection H as <-.
Qed.

Lemma session_purge_inv drawn d now : session_inv drawn d -> session_inv drawn (purge_expired d now).
Proof. apply shrinks_inv, purge_shrinks. Qed.

Definition fresh_for (drawn : gset string) (l : list string) : Prop := NoDup l /\ forall t, t ∈ l -> t ∉ drawn.

Lemma issue_inv drawn d user now utc r1 r2 :
  session_inv drawn d -> fresh_for drawn (omap id [r1; r2]) ->
  session_inv (list_to_set (omap id [r1; r2]) ∪ drawn) (issue d user now utc r1 r2).2.
Proof.
  intros I [Hnd Hfr]. assert (Hw : session_inv (list_to_set (omap id [r1; r2]) ∪ drawn) d)
    by (eapply session_inv_weaken; [|exact I]; set_solver).
  unfold issue. destruct r1 as [token|]; [|done]. destruct r2 as [access|]; [|done].
  cbn [random_token ok_or]. match goal with |- context [if ?c then _ else _] => destruct c end; [done|].
  destruct (auth_session _) as [view|e]; [|done]. cbn [snd].
  pose proof (session_purge_inv drawn d now I) as Ip.
  destruct (evict_spec drawn user (S (size (sd_sessions (purge_expired d now)))) (purge_expired d now)) as (He & Ho & _);
    [done|lia|]. cbn in Hnd. apply list.NoDup_cons in Hnd as [Hne _].
  replace (list_to_set (omap id [Some token; Some access]) ∪ drawn) with ({[token; access]} ∪ drawn)
    by (cbn; set_solver).
  apply (new_session_inv drawn _ user token access now utc He Ho).
  - apply Hfr. cbn. set_solver.
  - apply Hfr. cbn. set_solver.
  - set_solver.
Qed.

Lemma session_refresh_inv drawn d token now utc rnd :
  session_inv drawn d -> fresh_for drawn (omap id [rnd]) ->
  session_inv (list_to_set (omap id [rnd]) ∪ drawn) (refresh_at d token now utc rnd).2.
Proof.
  intros I [_ Hfr]. pose proof (session_purge_inv drawn d now I) as Ip. unfold refresh_at.
  set (drawn' := list_to_set (omap id [rnd]) ∪ drawn).
  assert (Hw : session_inv drawn' (purge_expired d now))
    by (eapply session_inv_weaken; [|exact Ip]; set_solver).
  destruct (sd_sessions (purge_expired d now) !! token) as [r|] eqn:Hr; [|done].
  destruct (replacement_token _ r now rnd) as [rep|e] eqn:Hrep; [|done].
  set (r' := match rep with Some value => renewed r value now utc | None => r end).
  assert (Ir : session_inv drawn' (put_session (purge_expired d now) token r')).
  { unfold replacement_token in Hrep. destruct (must_renew r now) eqn:Hm.
    - apply bind_ok in Hrep as (value & Hv & Hrep). destruct rnd as [v|]; [|done]. injection Hv as ->.
      match type of Hrep with (if ?c then _ else _) = _ => destruct c end; [done|]. injection Hrep as <-.
      assert (drawn' = {[value]} ∪ drawn) as -> by (unfold drawn'; cbn; set_solver).
      apply renewed_inv; try done. apply Hfr. cbn. set_solver.
    - injection Hrep as <-. unfold r', put_session. rewrite insert_id by done. destruct (purge_expired d now); done. }
  destruct (auth_session r') as [view|e] eqn:Hv; [|done]. cbn [snd].
  rewrite (auth_session_token r' view Hv).
  pose proof (touch_inv drawn' _ token r' now Ir) as It. cbn in It. rewrite lookup_insert_eq in It.
  specialize (It eq_refl). unfold put_session in It. cbn in It. rewrite insert_insert_eq in It.
  refine (put_access_inv drawn' (put_session (purge_expired d now) token (touch r' now)) token (touch r' now) It _).
  cbn. by rewrite lookup_insert_eq.
Qed.

Lemma ticket_inv drawn d access now utc rnd :
  session_inv drawn d -> fresh_for drawn (omap id [rnd]) ->
  session_inv (list_to_set (omap id [rnd]) ∪ drawn) (issue_websocket_ticket d access now utc rnd).2.
Proof.
  intros I [_ Hfr]. pose proof (session_purge_inv drawn d now I) as Ip. unfold issue_websocket_ticket.
  assert (Hw : forall d', session_inv drawn d' -> session_inv (list_to_set (omap id [rnd]) ∪ drawn) d')
    by (intros d' I'; eapply session_inv_weaken; [|exact I']; set_solver).
  destruct (sd_accesses _ !! access) as [a|]; [|by apply Hw].
  destruct (sd_sessions _ !! ar_session a) as [r|] eqn:Hr; [|by apply Hw].
  pose proof (touch_inv drawn _ _ r now Ip Hr) as It.
  match goal with |- context [if ?c then _ else _] => destruct c eqn:Hcap end; [by apply Hw|].
  destruct rnd as [ticket|]; [|by apply Hw]. cbn [random_token ok_or].
  match goal with |- context [if ?c then _ else _] => destruct c end; [by apply Hw|].
  match goal with |- context [if ?c then _ else _] => destruct c end; [by apply Hw|]. cbn [snd].
  apply orb_false_iff in Hcap as [C1 C2]. apply Nat.leb_gt in C1, C2.
  replace (list_to_set (omap id [Some ticket]) ∪ drawn) with ({[ticket]} ∪ drawn) by (cbn; set_solver).
  apply (put_ticket_inv drawn _ (ar_session a) ticket (now + WS_TICKET_TTL) It); try done.
  - cbn. rewrite lookup_insert_eq. by eexists.
  - apply Hfr. cbn. set_solver.
Qed.

Lemma session_exec_inv drawn op s :
  session_inv drawn (st_data s) -> fresh_for drawn (op_draws op) ->
  session_inv (list_to_set (op_draws op) ∪ drawn) (st_data (session_exec op s)).
Proof.
  intros I Hfr. destruct op; cbn [session_exec st_data set_data op_draws] in *.
  - by apply issue_inv.
  - cbn [list_to_set]. rewrite (left_id_L ∅ (∪)). unfold lookup_session. pose proof (session_purge_inv drawn _ now I) as Ip.
    destruct (sd_accesses _ !! token) as [a|]; [|done].
    destruct (sd_sessions _ !! ar_session a) as [r|] eqn:Hr; [|done]. by apply touch_inv.
  - by apply session_refresh_inv.
  - cbn [list_to_set]. rewrite (left_id_L ∅ (∪)). unfold revoke. pose proof (session_purge_inv drawn _ now I) as Ip.
    destruct (sd_accesses _ !! token) as [a|]; [|done]. cbn. eapply shrinks_inv; [by eapply remove_shrinks|done].
  - cbn [list_to_set]. rewrite (left_id_L ∅ (∪)). unfold revoke_all.
    destruct (_ || _); cbn; (eapply shrinks_inv; [|exact I]); repeat split; try apply map_empty_subseteq;
      intros t x H; cbn in H; by rewrite lookup_empty in H.
  - by apply ticket_inv.
  - cbn [list_to_set]. rewrite (left_id_L ∅ (∪)). unfold consume_websocket_ticket. pose proof (session_purge_inv drawn _ now I) as Ip.
    destruct (sd_tickets _ !! ticket) as [k|] eqn:Hk; [|done].
    pose proof (drop_ticket_inv drawn _ ticket Ip) as Id. cbn [sd_sessions].
    destruct (sd_sessions _ !! tk_session k) as [r|] eqn:Hr; [|done]. by apply touch_inv.
  - cbn [list_to_set]. rewrite (left_id_L ∅ (∪)). unfold validate_websocket_session. pose proof (session_purge_inv drawn _ now I) as Ip.
    destruct (sd_sessions _ !! session) as [r|] eqn:Hr; [|done]. by apply touch_inv.
Qed.

Lemma session_inv_new drawn secure : session_inv drawn (st_data (SessionStore_new secure)).
Proof.
  assert (E : forall {A} (P : string * A -> Prop) `{forall x, Decision (P x)}, size (filter P (∅ : gmap string A)) = 0%nat)
    by (intros; rewrite map_filter_empty; apply map_size_empty).
  split; cbn; try (rewrite map_size_empty; lia).
  - intros u. unfold user_sessions. cbn. rewrite E. lia.
  - intros u. unfold session_tickets. cbn. rewrite E. lia.
  - intros s r H. by rewrite lookup_empty in H.
  - intros s1 s2 r1 r2 H. by rewrite lookup_empty in H.
  - intros t a H. by rewrite lookup_empty in H.
  - intros t1 t2 a1 a2 r H. by rewrite lookup_empty in H.
  - intros t k H. by rewrite lookup_empty in H.
Qed.

Lemma session_run_inv y z :
  rtc session_step y z -> session_inv y.2 (st_data y.1) -> session_inv z.2 (st_data z.1).
Proof.
  induction 1 as [|x y z Hstep _ IH]; [done|]. intros I. apply IH. destruct Hstep as [op s drawn Hnd Hfr|l s drawn].
  - by apply session_exec_inv.
  - eapply session_inv_weaken; [|exact I]. set_solver.
Qed.

(** ** Where credentials come from *)

Definition subdata (d' d : SessionData) : Prop :=
  sd_sessions d' ⊆ sd_sessions d /\ sd_accesses d' ⊆ sd_accesses d /\ sd_tickets d' ⊆ sd_tickets d.

(** What an update of the data can add: tokens that were drawn, and the access token
    a session already had. *)
Record origin (l : list string) (d d' : SessionData) : Prop := {
  og_session s r' : sd_sessions d' !! s = Some r' ->
    (s ∈ l /\ sr_access_token r' ∈ l) \/
    exists r, sd_sessions d !! s = Some r /\ (sr_access_token r' = sr_access_token r \/ sr_access_token r' ∈ l);
  og_access t a : sd_accesses d' !! t = Some a ->
    t ∈ l \/ sd_accesses d !! t = Some a \/
    exists r, sd_sessions d !! ar_session a = Some r /\ sr_access_token r = t;
  og_ticket t k : sd_tickets d' !! t = Some k -> t ∈ l \/ sd_tickets d !! t = Some k
}.

Lemma origin_sub l d d' : subdata d' d -> origin l d d'.
Proof.
  intros (Hs & Ha & Ht). split.
  - intros s r H. right. exists r. split; [by eapply lookup_weaken|by left].
  - intros t a H. right. left. by eapply lookup_weaken.
  - intros t k H. right. by eapply lookup_weaken.
Qed.

Lemma origin_trans l d1 d2 d3 : origin l d1 d2 -> origin l d2 d3 -> origin l d1 d3.
Proof.
  intros [S1 A1 T1] [S2 A2 T2]. split.
  - intros s r H. destruct (S2 s r H) as [?|(r2 & H2 & E)]; [by left|].
    destruct (S1 s r2 H2) as [[? ?]|(r1 & H1 & E1)].
    + left. split; [done|]. destruct E as [->|?]; done.
    + right. exists r1. split; [done|]. destruct E as [->|?]; [done|by right].
  - intros t a H. destruct (A2 t a H) as [?|[H2|(r2 & H2 & E)]]; [by left|by apply A1|].
    destruct (S1 _ r2 H2) as [[_ ?]|(r1 & H1 & E1)]; [left; congruence|].
    destruct E1 as [E1|?]; [|left; congruence]. right. right. exists r1. split; [done|congruence].
  - intros t k H. destruct (T2 t k H) as [?|H2]; [by left|by apply T1].
Qed.

Lemma origin_put l d s r r' :
  sd_sessions d !! s = Some r -> sr_access_token r' = sr_access_token r \/ sr_access_token r' ∈ l ->
  origin l d (put_session d s r').
Proof.
  intros Hr Ht. split; cbn; [|by auto..]. intros s0 r0 H0. right. destruct (decide (s = s0)) as [<-|E].
  - rewrite lookup_insert_eq in H0. injection H0 as <-. by exists r.
  - rewrite lookup_insert_ne in H0 by done. exists r0. split; [done|by left].
Qed.

Lemma origin_put_access l d s r at_ :
  sd_sessions d !! s = Some r -> origin l d (put_access d (sr_access_token r) (mk_access s at_)).
Proof.
  intros Hr. split; cbn; [eauto| |by auto]. intros t a H. destruct (decide (sr_access_token r = t)) as [<-|E].
  - rewrite lookup_insert_eq in H. injection H as <-. right. right. by exists r.
  - rewrite lookup_insert_ne in H by done. auto.
Qed.

Lemma subdata_purge d now : subdata (purge_expired d now) d.
Proof. repeat split; apply map_filter_subseteq. Qed.

Lemma subdata_remove d s : subdata (remove_session d s) d.
Proof. split; [apply delete_subseteq|split; apply map_filter_subseteq]. Qed.

Lemma subdata_drop_ticket d t : subdata (mk_data (sd_sessions d) (sd_accesses d) (delete t (sd_tickets d))) d.
Proof. split; [done|split; [done|apply delete_subseteq]]. Qed.

Lemma subdata_trans d1 d2 d3 : subdata d1 d2 -> subdata d2 d3 -> subdata d1 d3.
Proof. intros (? & ? & ?) (? & ? & ?). repeat split; by etrans. Qed.

Lemma subdata_evict fuel d user : subdata (evict fuel d user) d.
Proof.
  revert d. induction fuel as [|fuel IH]; intros d; cbn; [done|]. destruct (over_capacity d user); [|done].
  destruct (eviction_candidate d user) as [s|]; [|done]. eapply subdata_trans; [apply IH|apply subdata_remove].
Qed.

Lemma origin_new l d user token access now utc :
  token ∈ l -> access ∈ l ->
  origin l d (put_access (put_session d token (new_record user access now utc)) access
                (mk_access token (now + ACCESS_TOKEN_TTL))).
Proof.
  intros Ht Ha. split; cbn; [| |by auto].
  - intros s r H. destruct (decide (token = s)) as [<-|E].
    + rewrite lookup_insert_eq in H. injection H as <-. by left.
    + rewrite lookup_insert_ne in H by done. right. exists r. split; [done|by left].
  - intros t a H. destruct (decide (access = t)) as [<-|E]; [by left|]. rewrite lookup_insert_ne in H by done. auto.
Qed.

Lemma issue_origin d user now utc r1 r2 : origin (omap id [r1; r2]) d (issue d user now utc r1 r2).2.
Proof.
  unfold issue. destruct r1 as [token|]; [|by apply origin_sub]. destruct r2 as [access|]; [|by apply origin_sub].
  cbn [random_token ok_or]. match goal with |- context [if ?c then _ else _] => destruct c end; [by apply origin_sub|].
  destruct (auth_session _) as [view|e]; [|by apply origin_sub]. cbn [snd].
  eapply origin_trans; [apply origin_sub; eapply subdata_trans; [apply subdata_evict|apply subdata_purge]|].
  apply (origin_new _ (enforce_session_capacity (purge_expired d now) user) user token access now utc); cbn; set_solver.
Qed.

Lemma refresh_origin d token now utc rnd : origin (omap id [rnd]) d (refresh_at d token now utc rnd).2.
Proof.
  unfold refresh_at. eapply origin_trans; [apply origin_sub, (subdata_purge d now)|].
  destruct (sd_sessions (purge_expired d now) !! token) as [r|] eqn:Hr; [|by apply origin_sub].
  destruct (replacement_token _ r now rnd) as [rep|e] eqn:Hrep; [|by apply origin_sub].
  set (r' := match rep with Some value => renewed r value now utc | None => r end).
  assert (Htok : sr_access_token r' = sr_access_token r \/ sr_access_token r' ∈ omap id [rnd]).
  { unfold replacement_token in Hrep. destruct (must_renew r now); [|injection Hrep as <-; by left].
    apply bind_ok in Hrep as (value & Hv & Hrep). destruct rnd as [v|]; [|done]. injection Hv as ->.
    match type of Hrep with (if ?c then _ else _) = _ => destruct c end; [done|]. injection Hrep as <-.
    right. cbn. set_solver. }
  destruct (auth_session r') as [view|e] eqn:Hv; cbn [snd]; [|by eapply origin_put].
  rewrite (auth_session_token r' view Hv).
  eapply origin_trans; [apply (origin_put _ _ token r (touch r' now) Hr Htok)|].
  apply (origin_put_access _ (put_session (purge_expired d now) token (touch r' now)) token (touch r' now)).
  cbn. by rewrite lookup_insert_eq.
Qed.

Lemma session_exec_origin op s : origin (op_draws op) (st_data s) (st_data (session_exec op s)).
Proof.
  destruct op; cbn [session_exec st_data set_data op_draws].
  - apply issue_origin.
  - unfold lookup_session. eapply origin_trans; [apply origin_sub, (subdata_purge _ now)|].
    destruct (sd_accesses _ !! token) as [a|]; [|by apply origin_sub].
    destruct (sd_sessions _ !! ar_session a) as [r|] eqn:Hr; [|by apply origin_sub]. eapply origin_put; eauto.
  - apply refresh_origin.
  - unfold revoke. eapply origin_trans; [apply origin_sub, (subdata_purge _ now)|].
    destruct (sd_accesses _ !! token) as [a|]; [|by apply origin_sub]. apply origin_sub, subdata_remove.
  - unfold revoke_all. apply origin_sub. destruct (_ || _); repeat split; apply map_empty_subseteq.
  - unfold issue_websocket_ticket. eapply origin_trans; [apply origin_sub, (subdata_purge _ now)|].
    destruct (sd_accesses _ !! access) as [a|]; [|by apply origin_sub].
    destruct (sd_sessions _ !! ar_session a) as [r|] eqn:Hr; [|by apply origin_sub].
    eapply origin_trans; [eapply (origin_put _ _ _ r (touch r now)); eauto|].
    match goal with |- context [if ?c then _ else _] => destruct c end; [by apply origin_sub|].
    destruct rnd as [ticket|]; [|by apply origin_sub]. cbn [random_token ok_or].
    match goal with |- context [if ?c then _ else _] => destruct c end; [by apply origin_sub|].
    match goal with |- context [if ?c then _ else _] => destruct c end; [by apply origin_sub|].
    split; cbn; [eauto..|]. intros t k H. destruct (decide (ticket = t)) as [<-|E]; [left; set_solver|].
    rewrite lookup_insert_ne in H by done. auto.
  - unfold consume_websocket_ticket. eapply origin_trans; [apply origin_sub, (subdata_purge _ now)|].
    destruct (sd_tickets _ !! ticket) as [k|]; [|by apply origin_sub].
    eapply origin_trans; [apply origin_sub, (subdata_drop_ticket _ ticket)|].
    destruct (sd_sessions _ !! tk_session k) as [r|] eqn:Hr; [|by apply origin_sub]. eapply origin_put; eauto.
  - unfold validate_websocket_session. eapply origin_trans; [apply origin_sub, (subdata_purge _ now)|].
    destruct (sd_sessions _ !! session) as [r|] eqn:Hr; [|by apply origin_sub]. eapply origin_put; eauto.
Qed.

(** Operations do not change whose session a session is; only [issue] adds one. *)
Definition all_users (P : string -> Prop) (d : SessionData) : Prop :=
  forall x r, sd_sessions d !! x = Some r -> P (sr_username r).

Lemma all_users_sub P d d' : subdata d' d -> all_users P d -> all_users P d'.
Proof. intros (H & _) Ha x r Hr. apply (Ha x). by eapply lookup_weaken. Qed.

Lemma all_users_put P d s r' : P (sr_username r') -> all_users P d -> all_users P (put_session d s r').
Proof.
  intros Hp Ha x r H. cbn in H. destruct (decide (s = x)) as [<-|E].
  - rewrite lookup_insert_eq in H. by injection H as <-.
  - rewrite lookup_insert_ne in H by done. by apply (Ha x).
Qed.

Lemma session_exec_users P op s :
  (forall user now utc r1 r2, op = OIssue user now utc r1 r2 -> P user) ->
  all_users P (st_data s) -> all_users P (st_data (session_exec op s)).
Proof.
  intros Hop Ha. assert (Hp : forall now, all_users P (purge_expired (st_data s) now))
    by (intros now; eapply all_users_sub; [apply subdata_purge|done]).
  destruct op; cbn [session_exec st_data set_data].
  - specialize (Hp now). unfold issue. destruct r1 as [token|]; [|done]. destruct r2 as [access|]; [|done]. cbn [random_token ok_or].
    match goal with |- context [if ?c then _ else _] => destruct c end; [done|].
    destruct (auth_session _) as [view|e]; [|done]. cbn [snd].
    apply (all_users_put P (enforce_session_capacity (purge_expired (st_data s) now) user)); [by eapply Hop|].
    eapply all_users_sub; [apply subdata_evict|done].
  - specialize (Hp now). unfold lookup_session. destruct (sd_accesses _ !! token) as [a|]; [|done].
    destruct (sd_sessions _ !! ar_session a) as [r|] eqn:Hr; [|done]. apply all_users_put; [|done]. exact (Hp _ r Hr).
  - specialize (Hp now). unfold refresh_at. destruct (sd_sessions _ !! token) as [r|] eqn:Hr; [|done].
    destruct (replacement_token _ r now rnd) as [rep|e]; [|done].
    assert (Hu : P (sr_username (match rep with Some value => renewed r value now utc | None => r end)))
      by (destruct rep; exact (Hp _ r Hr)).
    destruct (auth_session _) as [view|e]; cbn [snd]; [|by apply all_users_put].
    intros x r0 H. eapply all_users_put; [|exact Hp|exact H]. done.
  - specialize (Hp now). unfold revoke. destruct (sd_accesses _ !! token) as [a|]; [|done].
    eapply all_users_sub; [apply subdata_remove|done].
  - unfold revoke_all. eapply all_users_sub; [|exact Ha]. destruct (_ || _); repeat split; apply map_empty_subseteq.
  - specialize (Hp now). unfold issue_websocket_ticket. destruct (sd_accesses _ !! access) as [a|]; [|done].
    destruct (sd_sessions _ !! ar_session a) as [r|] eqn:Hr; [|done].
    assert (Ht : all_users P (put_session (purge_expired (st_data s) now) (ar_session a) (touch r now)))
      by (apply all_users_put; [exact (Hp _ r Hr)|done]).
    match goal with |- context [if ?c then _ else _] => destruct c end; [done|].
    destruct (random_token rnd); [|done].
    match goal with |- context [if ?c then _ else _] => destruct c end; [done|].
    match goal with |- context [if ?c then _ else _] => destruct c end; done.
  - specialize (Hp now). unfold consume_websocket_ticket. destruct (sd_tickets _ !! ticket) as [k|]; [|done]. cbn [sd_sessions].
    destruct (sd_sessions _ !! tk_session k) as [r|] eqn:Hr; [|done].
    apply all_users_put; [exact (Hp _ r Hr)|done].
  - specialize (Hp now). unfold validate_websocket_session. destruct (sd_sessions _ !! session) as [r|] eqn:Hr; [|done].
    apply all_users_put; [exact (Hp _ r Hr)|done].
Qed.

(** ** Ended sessions *)

(** The token plays no part in the store any more. *)
Definition gone (d : SessionData) (t : string) : Prop :=
  sd_sessions d !! t = None /\ sd_accesses d !! t = None /\ sd_tickets d !! t = None /\
  forall s r, sd_sessions d !! s = Some r -> sr_access_token r <> t.

(** Every operation refuses the token. *)
Definition token_refused (d : SessionData) (t : string) : Prop :=
  forall now utc rnd,
    (lookup_session d t now).1 = Ok None /\ (refresh_at d t now utc rnd).1 = Ok None /\
    (issue_websocket_ticket d t now utc rnd).1 = Ok None /\
    (consume_websocket_ticket d t now).1 = Ok None /\ (validate_websocket_session d t now).1 = Ok false.

(** [t] is a credential of session [s]. *)
Definition credential (d : SessionData) (s t : string) : Prop :=
  t = s \/ (exists a, sd_accesses d !! t = Some a /\ ar_session a = s) \/
  (exists k, sd_tickets d !! t = Some k /\ tk_session k = s) \/
  (exists r, sd_sessions d !! s = Some r /\ sr_access_token r = t).

Lemma gone_refused d t : gone d t -> token_refused d t.
Proof.
  intros (Hs & Ha & Ht & _) now utc rnd.
  destruct (subdata_purge d now) as (Ps & Pa & Pt).
  unfold lookup_session, refresh_at, issue_websocket_ticket, consume_websocket_ticket, validate_websocket_session.
  rewrite (none_weaken _ _ _ Ps Hs), (none_weaken _ _ _ Pa Ha), (none_weaken _ _ _ Pt Ht). done.
Qed.

Lemma gone_origin l d d' t : origin l d d' -> t ∉ l -> gone d t -> gone d' t.
Proof.
  intros [S A T] Hl (Gs & Ga & Gt & Gr). split; [|split; [|split]].
  - apply eq_None_not_Some. intros [r H]. destruct (S t r H) as [[? _]|(r0 & ? & _)]; [done|congruence].
  - apply eq_None_not_Some. intros [a H]. destruct (A t a H) as [?|[?|(r0 & H0 & E)]]; [done|congruence|].
    by destruct (Gr _ r0 H0).
  - apply eq_None_not_Some. intros [k H]. destruct (T t k H); [done|congruence].
  - intros s r H E. destruct (S s r H) as [[_ ?]|(r0 & H0 & [E0|?])]; [congruence| |congruence].
    destruct (Gr s r0 H0). congruence.
Qed.

Lemma gone_run y z t :
  rtc session_step y z -> t ∈ y.2 -> gone (st_data y.1) t -> gone (st_data z.1) t.
Proof.
  induction 1 as [|x y z Hstep _ IH]; [done|]. intros Ht Hg. destruct Hstep as [op s drawn Hnd Hfr|l s drawn].
  2: { apply IH; cbn in *; [set_solver|done]. }
  apply IH; cbn in *; [set_solver|]. eapply gone_origin; [apply session_exec_origin| |exact Hg].
  intros Hin. by apply (Hfr t Hin).
Qed.

Lemma credential_drawn drawn d s t : session_inv drawn d -> is_Some (sd_sessions d !! s) -> credential d s t -> t ∈ drawn.
Proof.
  intros I [r Hr] [->|[(a & Ha & _)|[(k & Hk & _)|(r0 & H0 & <-)]]].
  - apply (si_record _ _ I s r Hr).
  - apply (si_access _ _ I t a Ha).
  - apply (si_ticket _ _ I t k Hk).
  - apply (si_record _ _ I s r0 H0).
Qed.

(** A token has one owner. *)
Lemma credential_owner drawn d s1 s2 t :
  session_inv drawn d -> is_Some (sd_sessions d !! s1) -> is_Some (sd_sessions d !! s2) ->
  credential d s1 t -> credential d s2 t -> s1 = s2.
Proof.
  intros I. assert (G : forall s s', is_Some (sd_sessions d !! s) -> is_Some (sd_sessions d !! s') ->
    (t = s \/ exists r, sd_sessions d !! s = Some r /\ sr_access_token r = t) -> credential d s' t -> s = s').
  { intros s s' [r Hr] [r' Hr'] Hc Hc'. destruct (si_record _ _ I s r Hr) as [_ _ _ (K1 & K2 & K3 & K4) C].
    destruct (si_record _ _ I s' r' Hr') as [_ _ _ (Q1 & Q2 & Q3 & Q4) C'].
    destruct Hc as [->|(r0 & H0 & <-)].
    - destruct Hc' as [->|[(a & Ha & _)|[(k & Hk & _)|(r1 & H1 & E)]]]; [done|congruence..].
    - assert (r0 = r) as -> by congruence.
      destruct Hc' as [E|[(a & Ha & <-)|[(k & Hk & _)|(r1 & H1 & E)]]].
      + congruence.
      + symmetry. by apply C.
      + congruence.
      + by eapply (si_inj _ _ I). }
  intros H1 H2 [E1|[(a1 & A1 & E1)|[(k1 & T1 & E1)|E1]]] Hc.
  - apply (G s1 s2); auto.
  - destruct Hc as [E2|[(a2 & A2 & E2)|[(k2 & T2 & E2)|E2]]].
    + symmetry. apply (G s2 s1); auto. right. left. by exists a1.
    + congruence.
    + destruct (si_access _ _ I t a1 A1) as (_ & ? & _). congruence.
    + symmetry. apply (G s2 s1); auto. right. left. by exists a1.
  - destruct Hc as [E2|[(a2 & A2 & E2)|[(k2 & T2 & E2)|E2]]].
    + symmetry. apply (G s2 s1); auto. right. right. left. by exists k1.
    + destruct (si_access _ _ I t a2 A2) as (_ & ? & _). congruence.
    + congruence.
    + symmetry. apply (G s2 s1); auto. right. right. left. by exists k1.
  - apply (G s1 s2); auto.
Qed.

Lemma ended_gone drawn drawn' l d d' s t :
  session_inv drawn d -> session_inv drawn' d' -> origin l d d' -> t ∉ l ->
  is_Some (sd_sessions d !! s) -> sd_sessions d' !! s = None -> credential d s t -> gone d' t.
Proof.
  intros I I' [S A T] Hl Hs Hs' Hc.
  assert (Hown : forall s0, is_Some (sd_sessions d !! s0) -> credential d s0 t -> s0 = s)
    by (intros s0 H0 Hc0; exact (credential_owner drawn d s0 s t I H0 Hs Hc0 Hc)).
  split; [|split; [|split]].
  - apply eq_None_not_Some. intros [r H]. destruct (S t r H) as [[? _]|(r0 & H0 & _)]; [done|].
    rewrite (Hown t) in H; [congruence|by exists r0|by left].
  - apply eq_None_not_Some. intros [a H]. destruct (si_access _ _ I' t a H) as (_ & _ & r' & Hr' & _).
    destruct (A t a H) as [?|[H0|(r0 & H0 & E)]]; [done|..].
    + destruct (si_access _ _ I t a H0) as (_ & _ & r0 & Hr0 & _).
      rewrite (Hown (ar_session a)) in Hr'; [congruence|by exists r0|]. right. left. by exists a.
    + rewrite (Hown (ar_session a)) in Hr'; [congruence|by exists r0|]. right. right. right. by exists r0.
  - apply eq_None_not_Some. intros [k H]. destruct (si_ticket _ _ I' t k H) as [_ [r' Hr']].
    destruct (T t k H) as [?|H0]; [done|].
    rewrite (Hown (tk_session k)) in Hr'; [congruence|by apply (si_ticket _ _ I t k)|]. right. right. left. by exists k.
  - intros s0 r0 H E. destruct (S s0 r0 H) as [[_ ?]|(r1 & H1 & [E1|?])]; [congruence| |congruence].
    rewrite (Hown s0) in H; [congruence|by exists r1|]. right. right. right. exists r1. split; [done|congruence].
Qed.

(** ** What the store promises *)

Definition session_accesses (d : SessionData) (s : string) : gmap string AccessRecord :=
  filter (fun x => ar_session x.2 = s) (sd_accesses d).

Lemma size_le_two {A} (m : gmap string A) (c : string) :
  (forall x y, is_Some (m !! x) -> is_Some (m !! y) -> x <> c -> y <> c -> x = y) -> (size m <= 2)%nat.
Proof.
  intros H. assert (Hd : (size (delete c m) <= 1)%nat).
  { destruct (decide (delete c m = ∅)) as [->|E]; [rewrite map_size_empty; lia|].
    apply map_choose in E as (x & v & Hx). assert (size (delete c m) = 1)%nat as ->; [|lia].
    replace (delete c m) with ({[x := v]} : gmap string A); [apply map_size_singleton|].
    apply map_eq. intros y. destruct (decide (y = x)) as [->|N]; [by rewrite lookup_singleton_eq|].
    rewrite lookup_singleton_ne by done. symmetry. apply eq_None_not_Some. intros [w Hw].
    apply lookup_delete_Some in Hx as [N1 Hx]. apply lookup_delete_Some in Hw as [N2 Hw].
    apply N, H; eauto. }
  destruct (m !! c) as [v|] eqn:E.
  - rewrite map_size_delete_Some in Hd by eauto. lia.
  - rewrite delete_id in Hd by done. lia.
Qed.

Lemma accesses_le_two drawn d s : session_inv drawn d -> (size (session_accesses d s) <= 2)%nat.
Proof.
  intros I. unfold session_accesses. destruct (sd_sessions d !! s) as [r|] eqn:Hr.
  - apply (size_le_two _ (sr_access_token r)). intros x y [a Ha] [b Hb].
    apply map_lookup_filter_Some in Ha as [Ha Ea]. apply map_lookup_filter_Some in Hb as [Hb Eb]. cbn in *.
    apply (si_older _ _ I x y a b r); congruence.
  - rewrite map_empty_filter_2; [rewrite map_size_empty; lia|]. intros t a Ha E. cbn in E.
    destruct (si_access _ _ I t a Ha) as (_ & _ & r & Hr' & _). congruence.
Qed.

(** C29: In every run of the store its capacities hold: 4,096 sessions, 16 of one user,
    128 tickets, 4 of one session and, as the comment in [refresh_at] says, two access
    tokens of one session; every access token and ticket belongs to a live session, and
    no token has two roles. *)
Theorem session_store_bounded secure s drawn :
  rtc session_step (SessionStore_new secure, ∅) (s, drawn) ->
  let d := st_data s in
  (size (sd_sessions d) <= 4096)%nat /\ (forall u, (size (user_sessions d u) <= 16)%nat) /\
  (size (sd_tickets d) <= 128)%nat /\ (forall x, (size (session_tickets d x) <= 4)%nat) /\
  (forall x, (size (session_accesses d x) <= 2)%nat) /\
  (forall t a, sd_accesses d !! t = Some a -> is_Some (sd_sessions d !! ar_session a)) /\
  (forall t k, sd_tickets d !! t = Some k -> is_Some (sd_sessions d !! tk_session k)) /\
  dom (sd_sessions d) ## dom (sd_accesses d) /\ dom (sd_sessions d) ## dom (sd_tickets d) /\
  dom (sd_accesses d) ## dom (sd_tickets d).
Proof.
  intros Hrun. pose proof (session_run_inv _ _ Hrun (session_inv_new ∅ secure)) as I. cbn in I.
  split; [apply I|]. split; [apply I|]. split; [apply I|]. split; [apply I|].
  split; [intros x; by apply (accesses_le_two drawn)|]. split.
  { intros t a Ha. destruct (si_access _ _ I t a Ha) as (_ & _ & r & Hr & _). by exists r. }
  split; [intros t k Hk; by apply (si_ticket _ _ I t k)|].
  split; [|split]; intros t H1 H2; apply elem_of_dom in H1 as [x H1], H2 as [y H2].
  - destruct (si_record _ _ I t x H1) as [_ _ _ (_ & _ & ? & _) _]. congruence.
  - destruct (si_record _ _ I t x H1) as [_ _ _ (_ & _ & _ & ?) _]. congruence.
  - destruct (si_access _ _ I t x H1) as (_ & ? & _). congruence.
Qed.

(** A session that has ended stays ended: once an operation has removed a session, by
    logout, a change of the users, expiry or eviction, each of its credentials (its own
    token, its access tokens and its tickets) is refused by every operation in every
    later state. *)
Theorem ended_session_refused secure s drawn op x t z :
  rtc session_step (SessionStore_new secure, ∅) (s, drawn) ->
  fresh_for drawn (op_draws op) ->
  is_Some (sd_sessions (st_data s) !! x) -> sd_sessions (st_data (session_exec op s)) !! x = None ->
  credential (st_data s) x t ->
  rtc session_step (session_exec op s, list_to_set (op_draws op) ∪ drawn) z ->
  token_refused (st_data z.1) t.
Proof.
  intros Hrun Hfr Hx Hx' Hc Hz. pose proof (session_run_inv _ _ Hrun (session_inv_new ∅ secure)) as I. cbn in I.
  pose proof (credential_drawn drawn _ x t I Hx Hc) as Ht.
  apply gone_refused. eapply gone_run; [exact Hz|cbn; set_solver|]. cbn.
  eapply (ended_gone drawn); [exact I|by apply session_exec_inv|apply session_exec_origin| |done..].
  intros Hin. by apply (proj2 Hfr t Hin).
Qed.

(** A WebSocket ticket is used at most once: once it has been redeemed, every later
    state refuses it. *)
Theorem ticket_single_use secure s drawn ticket now x z :
  rtc session_step (SessionStore_new secure, ∅) (s, drawn) ->
  (consume_websocket_ticket (st_data s) ticket now).1 = Ok (Some x) ->
  rtc session_step (session_exec (OConsume ticket now) s, drawn) z ->
  is_Some (sd_sessions (st_data s) !! x) /\ token_refused (st_data z.1) ticket.
Proof.
  intros Hrun Hok Hz. pose proof (session_run_inv _ _ Hrun (session_inv_new ∅ secure)) as I. cbn in I.
  pose proof (session_purge_inv drawn _ now I) as Ip. cbn [session_exec] in Hz. unfold consume_websocket_ticket in *.
  destruct (sd_tickets (purge_expired (st_data s) now) !! ticket) as [k|] eqn:Hk; [|done].
  cbn [sd_sessions] in *. destruct (sd_sessions (purge_expired (st_data s) now) !! tk_session k) as [r|] eqn:Hr; [|done].
  injection Hok as <-. cbn [snd fst] in Hz. split.
  { exists r. eapply lookup_weaken; [exact Hr|]. apply subdata_purge. }
  pose proof (si_ticket _ _ Ip ticket k Hk) as [Hdr _].
  apply gone_refused. eapply gone_run; [exact Hz|cbn; done|].
  cbn [fst st_data set_data].
  eapply (gone_origin []); [eapply (origin_put [] _ _ r (touch r now)); [exact Hr|by left]|apply not_elem_of_nil|].
  assert (Hrole : forall t0 r0, sd_sessions (purge_expired (st_data s) now) !! t0 = Some r0 ->
            sr_access_token r0 <> ticket /\ t0 <> ticket).
  { intros t0 r0 H0. destruct (si_record _ _ Ip t0 r0 H0) as [_ _ _ (_ & ? & _ & ?) _]. split; congruence. }
  split; [|split; [|split]]; cbn [sd_sessions sd_accesses sd_tickets].
  - apply eq_None_not_Some. intros [r0 H0]. by destruct (Hrole ticket r0 H0).
  - apply eq_None_not_Some. intros [a Ha]. destruct (si_access _ _ Ip ticket a Ha) as (_ & ? & _). congruence.
  - apply lookup_delete_eq.
  - intros t0 r0 H0. by apply (Hrole t0 r0).
Qed.

(** A bearer token is accepted exactly while it has not expired, its session is within
    30 days of the login and the session was last used less than a day ago. *)
Theorem lookup_accepts secure s drawn t now :
  rtc session_step (SessionStore_new secure, ∅) (s, drawn) ->
  forall v, (lookup_session (st_data s) t now).1 = Ok (Some v) <->
  exists a r text,
    sd_accesses (st_data s) !! t = Some a /\ now < ar_expires_at a /\
    sd_sessions (st_data s) !! ar_session a = Some r /\
    now < sr_created_at r + SESSION_ABSOLUTE_TTL /\ now - sr_last_seen r < SESSION_IDLE_TTL /\
    rfc3339 (sr_expires_at_utc r) = Some text /\ v = mk_view (sr_username r) text.
Proof.
  intros Hrun v. pose proof (session_run_inv _ _ Hrun (session_inv_new ∅ secure)) as I. cbn in I.
  assert (Hlive : forall r, sr_expires_at r = sr_created_at r + SESSION_ABSOLUTE_TTL ->
            session_live now r <-> now < sr_created_at r + SESSION_ABSOLUTE_TTL /\ now - sr_last_seen r < SESSION_IDLE_TTL).
  { intros r E. unfold session_live, duration_since, sat_sub, SESSION_IDLE_TTL, from_secs, nanos_per_sec. rewrite E. lia. }
  unfold lookup_session. split.
  - destruct (sd_accesses (purge_expired (st_data s) now) !! t) as [a|] eqn:Ha; [|done].
    destruct (sd_sessions (purge_expired (st_data s) now) !! ar_session a) as [r|] eqn:Hr; [|done].
    apply map_lookup_filter_Some in Ha as [Ha [Hn _]]. apply map_lookup_filter_Some in Hr as [Hr Hl].
    cbn [fst snd] in *. unfold session_view. destruct (rfc3339 (sr_expires_at_utc r)) as [text|] eqn:Hf; [|done].
    intros [= <-]. exists a, r, text. apply Hlive in Hl as [H1 H2]; [|apply (si_record _ _ I _ r Hr)]. done.
  - intros (a & r & text & Ha & Hn & Hr & H1 & H2 & Hf & ->).
    assert (Hr' : sd_sessions (purge_expired (st_data s) now) !! ar_session a = Some r).
    { apply map_lookup_filter_Some. split; [done|]. apply Hlive; [apply (si_record _ _ I _ r Hr)|done]. }
    assert (sd_accesses (purge_expired (st_data s) now) !! t = Some a) as ->.
    { apply map_lookup_filter_Some. split; [done|]. split; [done|]. by exists r. }
    rewrite Hr'. unfold session_view. by rewrite Hf.
Qed.

End Order.

(** ** A run *)

Module Examples.

Definition text (_ : Z) : option string := Some "2030-01-01T00:00:00Z".
Abbreviation run_op := (session_exec map_to_list text).

Definition login : SessionOp := OIssue "admin" 0 0 (Some "session-1") (Some "access-1").
Definition s0 : SessionStore := SessionStore_new false.
Definition s1 : SessionStore := run_op login s0.
(** A ticket, and the renewal of the access token 55 minutes after the login. *)
Definition ask_ticket : SessionOp := OTicket "access-1" (from_secs 5) 0 (Some "ticket-1").
Definition s2 : SessionStore := run_op ask_ticket s1.
Definition renew : SessionOp := ORefresh "session-1" (from_secs 3300) 0 (Some "access-2").
Definition s3 : SessionStore := run_op renew s1.

Lemma step_fresh op s drawn :
  fresh_for drawn (op_draws op) ->
  session_step map_to_list text (s, drawn) (run_op op s, list_to_set (op_draws op) ∪ drawn).
Proof. intros [H1 H2]. by constructor. Qed.

Ltac solve_fresh := split; [vm_compute; repeat constructor; set_solver|intros t; vm_compute; set_solver].

Lemma run_login : rtc (session_step map_to_list text) (s0, ∅) (s1, {["session-1"; "access-1"]}).
Proof.
  eapply rtc_l; [apply (step_fresh login s0 ∅); solve_fresh|].
  replace (list_to_set (op_draws login) ∪ ∅ : gset string) with ({["session-1"; "access-1"]} : gset string)
    by (vm_compute; reflexivity). apply rtc_refl.
Qed.

Lemma run_ticket : rtc (session_step map_to_list text) (s0, ∅) (s2, {["session-1"; "access-1"; "ticket-1"]}).
Proof.
  eapply rtc_r; [exact run_login|].
  replace ({["session-1"; "access-1"; "ticket-1"]} : gset string)
    with (list_to_set (op_draws ask_ticket) ∪ {["session-1"; "access-1"]} : gset string) by (vm_compute; reflexivity).
  apply step_fresh. solve_fresh.
Qed.

Lemma run_renew : rtc (session_step map_to_list text) (s0, ∅) (s3, {["session-1"; "access-1"; "access-2"]}).
Proof.
  eapply rtc_r; [exact run_login|].
  replace ({["session-1"; "access-1"; "access-2"]} : gset string)
    with (list_to_set (op_draws renew) ∪ {["session-1"; "access-1"]} : gset string) by (vm_compute; reflexivity).
  apply step_fresh. solve_fresh.
Qed.

(** After the renewal the session has two access tokens. *)
Lemma session_store_bounded_witness :
  size (session_accesses (st_data s3) "session-1") = 2%nat /\ (size (sd_sessions (st_data s3)) <= 4096)%nat.
Proof.
  split; [vm_compute; reflexivity|].
  exact (proj1 (session_store_bounded map_to_list text (fun m => reflexivity _) false s3 _ run_renew)).
Defined.

(** Logging out with the new access token ends the old one as well. *)
Lemma ended_session_refused_witness :
  (lookup_session text (st_data s3) "access-1" (from_secs 3400)).1 = Ok (Some (mk_view "admin" "2030-01-01T00:00:00Z")) /\
  token_refused text (st_data (revoke s3 "access-2" (from_secs 3400))) "access-1".
Proof.
  split; [vm_compute; reflexivity|].
  eapply (ended_session_refused map_to_list text (fun m => reflexivity _) false s3 _
    (ORevoke "access-2" (from_secs 3400)) "session-1" "access-1" (_, _) run_renew).
  - solve_fresh.
  - vm_compute. by eexists.
  - vm_compute. reflexivity.
  - right. left. eexists. split; vm_compute; reflexivity.
  - apply rtc_refl.
Defined.

Lemma ticket_single_use_witness :
  token_refused text (st_data (run_op (OConsume "ticket-1" (from_secs 10)) s2)) "ticket-1".
Proof.
  eapply (ticket_single_use map_to_list text (fun m => reflexivity _) false s2 _ "ticket-1" (from_secs 10) "session-1"
    (_, _) run_ticket).
  - vm_compute. reflexivity.
  - apply rtc_refl.
Defined.

(** The first access token is accepted in the hour after the login and not later. *)
Lemma lookup_accepts_witness :
  (lookup_session text (st_data s1) "access-1" (from_secs 3599)).1 = Ok (Some (mk_view "admin" "2030-01-01T00:00:00Z")) /\
  ~ exists v, (lookup_session text (st_data s1) "access-1" (from_secs 3600)).1 = Ok (Some v).
Proof.
  pose proof (lookup_accepts map_to_list text (fun m => reflexivity _) false s1 _ "access-1" (from_secs 3599) run_login) as H.
  split.
  - apply H. exists (mk_access "session-1" (from_secs 3600)), (new_record "admin" "access-1" 0 0), "2030-01-01T00:00:00Z".
    repeat split; vm_compute; reflexivity.
  - intros [v Hv]. apply (lookup_accepts map_to_list text (fun m => reflexivity _) false s1 _ "access-1" (from_secs 3600) run_login)
      in Hv as (a & r & x & Ha & Hn & _). vm_compute in Ha. injection Ha as <-. vm_compute in Hn. discriminate.
Defined.

End Examples.
