(* ===== verification/SourceEdit.v ===== *)
(** * Editing the configuration source (src/backend/src/config/source_edit.rs)

    [create_initial_webui_user]: adding the first user of the web interface to the YAML
    text, in place of an empty [users] list or as a new field, with everything else
    left as it is. The document tree of the yaml-edit crate, with the byte ranges of
    its nodes, is an argument. *)

From S2P Require Import Prelude Text.

(** The yaml-edit crate: documents, the entries of mappings, and byte ranges. *)
Class YamlEdit := {
  YDocument : Type;
  YMapping : Type;
  YSequence : Type;
  y_document : list byte -> option YDocument;
  y_as_mapping : YDocument -> option YMapping;
  y_count : YMapping -> string -> nat;
  y_get_mapping : YMapping -> string -> option YMapping;
  y_get_sequence : YMapping -> string -> option YSequence;
  y_contains_key : YMapping -> string -> bool;
  y_is_empty : YSequence -> bool;
  y_mapping_range : YMapping -> nat * nat;
  y_sequence_range : YSequence -> nat * nat
}.

Inductive SourceEditError :=
| UnsupportedSyntax | InvalidDocument | RootMustBeMapping | AmbiguousWebUi | WebUiMustBeMapping
| AmbiguousUsers | UsersMustBeSequence | AlreadyInitialized.

(** ** Text *)

Definition char_is (c : Z) (b : byte) : bool := byte_to_Z b =? c.
Definition is_blank (b : byte) : bool := char_is 32 b || char_is 9 b.
Definition is_newline (b : byte) : bool := char_is 13 b || char_is 10 b.

Fixpoint leading (p : byte -> bool) (l : list byte) : list byte :=
  match l with b :: l' => if p b then b :: leading p l' else [] | [] => [] end.

(** [source[start..end]] *)
Definition slice (source : list byte) (start finish : nat) : list byte := drop start (take finish source).

(** The position after the last newline of [source[..index]], or 0. *)
Definition line_start (source : list byte) (index : nat) : nat :=
  (index - length (leading (fun b => negb (char_is 10 b)) (reverse (take index source))))%nat.

(** [source.contains("\r\n")] *)
Fixpoint contains_crlf (l : list byte) : bool :=
  match l with
  | b :: l' => (char_is 13 b && match l' with c :: _ => char_is 10 c | [] => false end) || contains_crlf l'
  | [] => false
  end.
Definition preferred_newline (source : list byte) : list byte :=
  if contains_crlf source then [byte_of_Z 13; byte_of_Z 10] else [byte_of_Z 10].

(** Single quotes around the value, those inside doubled. *)
Definition quote_yaml_string (value : string) : list byte :=
  let quote := byte_of_Z 39 in
  [quote] ++ (str_bytes value ≫= fun b => if char_is 39 b then [b; b] else [b]) ++ [quote].

Definition render_users_value (indent newline : list byte) (name password_hash : string) : list byte :=
  newline ++ indent ++ str_bytes "  - name: " ++ quote_yaml_string name ++
  newline ++ indent ++ str_bytes "    password_hash: " ++ quote_yaml_string password_hash.

(** [trim_end_matches([' ', '\t'])] *)
Definition trim_blanks (l : list byte) : list byte :=
  take (length l - length (leading is_blank (reverse l)))%nat l.

Definition replace_range (source : list byte) (start finish : nat) (text : list byte) : list byte :=
  take start source ++ text ++ drop finish source.

(** ** The edit *)

Section Edit.
Context (name password_hash : string).

(** [trim_start().starts_with('#')]: a comment sign is not white space. *)
Definition has_inline_comment (rest : list byte) : bool :=
  bool_decide (head (trim (default [] (utf8_decode rest))) = Some 35).

Definition replace_empty_users_sequence (source : list byte) (sequence_start sequence_end : nat) : list byte :=
  let line := line_start source sequence_start in
  let before := slice source line sequence_start in
  let indent := leading is_blank before in
  let value_start := (length (trim_blanks before) + line)%nat in
  let line_end := (sequence_end + length (leading (fun b => negb (is_newline b)) (drop sequence_end source)))%nat in
  let newline := preferred_newline source in
  let replacement := render_users_value indent newline name password_hash ++
    (if has_inline_comment (slice source sequence_end line_end) then newline ++ indent else []) in
  replace_range source value_start sequence_end replacement.

Definition insert_missing_users (source : list byte) (mapping_start mapping_end : nat) : list byte :=
  let line := line_start source mapping_start in
  let indent := leading is_blank (slice source line mapping_start) in
  let newline := preferred_newline source in
  let ends_line := match list.last (take mapping_end source) with Some b => is_newline b | None => false end in
  let starts_line := match head (drop mapping_end source) with Some b => is_newline b | None => false end in
  let insertion := (if ends_line then [] else newline) ++ indent ++ str_bytes "users:" ++
    render_users_value indent newline name password_hash ++ (if starts_line then [] else newline) in
  replace_range source mapping_end mapping_end insertion.

Context {YE : YamlEdit}.

Definition create_initial_webui_user (source : list byte) : result SourceEditError (list byte) :=
  document ← ok_or InvalidDocument (y_document source);
  root ← ok_or RootMustBeMapping (y_as_mapping document);
  if negb (y_count root "webui" =? 1)%nat then Err AmbiguousWebUi
  else
    webui ← ok_or WebUiMustBeMapping (y_get_mapping root "webui");
    if (1 <? y_count webui "users")%nat then Err AmbiguousUsers
    else match y_get_sequence webui "users" with
    | Some users =>
      if negb (y_is_empty users) then Err AlreadyInitialized
      else let '(start, finish) := y_sequence_range users in
        Ok (replace_empty_users_sequence source start finish)
    | None =>
      if y_contains_key webui "users" then Err UsersMustBeSequence
      else let '(start, finish) := y_mapping_range webui in
        Ok (insert_missing_users source start finish)
    end.
End Edit.

(** ** What an edit changes *)

Section EditSpec.
Context {YE : YamlEdit}.

(** The byte ranges of the nodes lie within the text. *)
Definition ranges_ok (source : list byte) : Prop :=
  forall document root webui, y_document source = Some document -> y_as_mapping document = Some root ->
    y_get_mapping root "webui" = Some webui ->
    ((y_mapping_range webui).2 <= length source)%nat /\
    forall users, y_get_sequence webui "users" = Some users ->
      ((y_sequence_range users).1 <= (y_sequence_range users).2 <= length source)%nat.

(** A [users] field that is there is not an empty list. *)
Definition has_users (source : list byte) : Prop :=
  forall document root webui, y_document source = Some document -> y_as_mapping document = Some root ->
    y_get_mapping root "webui" = Some webui ->
    match y_get_sequence webui "users" with
    | Some users => y_is_empty users = false
    | None => y_contains_key webui "users" = true
    end.

(** The first user is not added to a source that has users. *)
Lemma edit_refuses_users source name hash updated :
  has_users source -> create_initial_webui_user name hash source <> Ok updated.
Proof.
  intros Hu H. unfold create_initial_webui_user in H.
  apply bind_ok in H as (document & Hd%ok_or_ok & H). apply bind_ok in H as (root & Hr%ok_or_ok & H).
  destruct (negb _); [done|]. apply bind_ok in H as (webui & Hw%ok_or_ok & H).
  destruct (1 <? _)%nat; [done|]. specialize (Hu document root webui Hd Hr Hw).
  destruct (y_get_sequence webui "users") as [users|]; rewrite Hu in H; done.
Qed.

Lemma length_leading p l : (length (leading p l) <= length l)%nat.
Proof. induction l as [|b l IH]; cbn; [done|]. destruct (p b); cbn; lia. Qed.

Lemma leading_spec p l : l = leading p l ++ drop (length (leading p l)) l /\ Forall (fun b => p b = true) (leading p l).
Proof.
  induction l as [|b l [IH1 IH2]]; [done|]. cbn. destruct (p b) eqn:E; cbn; [|done].
  split; [by f_equal|by constructor].
Qed.

(** What [trim_blanks] leaves out are blanks. *)
Lemma trim_blanks_spec l : exists blanks, l = trim_blanks l ++ blanks /\ Forall (fun b => is_blank b = true) blanks.
Proof.
  destruct (leading_spec is_blank (reverse l)) as [H1 H2]. set (n := length (leading is_blank (reverse l))) in *.
  exists (reverse (leading is_blank (reverse l))). split; [|by apply Forall_reverse].
  apply (f_equal reverse) in H1. rewrite reverse_involutive, reverse_app in H1.
  assert (Hl : (length l - n)%nat = length (reverse (drop n (reverse l))))
    by (rewrite length_reverse, length_drop, length_reverse; done).
  unfold trim_blanks. fold n. rewrite Hl. revert H1. generalize (reverse (drop n (reverse l))) as a.
  intros a H1. rewrite H1 at 1. f_equal. rewrite H1. symmetry. apply take_app_length.
Qed.

(** The edit replaces at most the empty list, with the blanks before it, and keeps the
    rest of the text. *)
Theorem edit_keeps_text source name hash updated :
  ranges_ok source -> create_initial_webui_user name hash source = Ok updated ->
  exists before removed after inserted, source = before ++ removed ++ after /\
    updated = before ++ inserted ++ after /\
    (removed = [] \/ exists blanks document root webui users,
       y_document source = Some document /\ y_as_mapping document = Some root /\
       y_get_mapping root "webui" = Some webui /\ y_get_sequence webui "users" = Some users /\
       y_is_empty users = true /\ Forall (fun b => is_blank b = true) blanks /\
       removed = blanks ++ slice source (y_sequence_range users).1 (y_sequence_range users).2).
Proof.
  intros Hok H. unfold create_initial_webui_user in H.
  apply bind_ok in H as (document & Hd%ok_or_ok & H). apply bind_ok in H as (root & Hr%ok_or_ok & H).
  destruct (negb _); [done|]. apply bind_ok in H as (webui & Hw%ok_or_ok & H).
  destruct (1 <? _)%nat; [done|]. destruct (Hok document root webui Hd Hr Hw) as [Hm Hs].
  destruct (y_get_sequence webui "users") as [users|] eqn:Eu.
  - destruct (y_is_empty users) eqn:Ee; [|done]. cbn [negb] in H. specialize (Hs users eq_refl).
    destruct (y_sequence_range users) as [start finish] eqn:Er. cbn [fst snd] in Hs. injection H as <-.
    unfold replace_empty_users_sequence, replace_range. cbv zeta. set (line := line_start source start).
    assert (Hline : (line <= start)%nat) by (unfold line, line_start; lia).
    destruct (trim_blanks_spec (slice source line start)) as (blanks & Hb & Hf).
    set (before := trim_blanks (slice source line start)) in *.
    assert (Hpre : take start source = take (length before + line) source ++ blanks).
    { rewrite <-(take_drop line (take start source)). fold (slice source line start). rewrite Hb.
      rewrite take_take, Nat.min_l by lia. rewrite app_assoc. f_equal.
      assert (take (length before) (drop line source) = before) as Hx.
      { assert (before ++ blanks = take (start - line) (drop line source)) as Hy.
        { rewrite <-Hb. unfold slice. by rewrite skipn_firstn_comm. }
        apply (f_equal (take (length before))) in Hy. rewrite take_app_length, take_take in Hy.
        assert (Hlen : (length before <= start - line)%nat).
        { apply (f_equal length) in Hb. rewrite length_app in Hb. unfold slice in Hb.
          rewrite length_drop, length_take in Hb. lia. }
        by rewrite Nat.min_l in Hy by lia. }
      by rewrite Nat.add_comm, <-take_take_drop, Hx. }
    eexists _, (blanks ++ slice source start finish), (drop finish source), _. split; [|split; [reflexivity|]].
    + rewrite <-app_assoc, app_assoc, <-Hpre. unfold slice.
      rewrite <-(take_drop finish source) at 1. rewrite <-(take_drop start (take finish source)) at 1.
      rewrite take_take, Nat.min_l, <-app_assoc by lia. done.
    + right. exists blanks, document, root, webui, users. rewrite Er. by split_and!.
  - destruct (y_contains_key webui "users"); [done|]. destruct (y_mapping_range webui) as [start finish].
    injection H as <-. unfold insert_missing_users, replace_range. cbv zeta.
    eexists _, [], (drop finish source), _. split; [|split; [reflexivity|by left]].
    cbn. by rewrite take_drop.
Qed.

End EditSpec.

(** ** Examples *)

Section EditExamples.

(** The texts that appear here: the [users] list is at bytes 16 to 18. *)
Definition empty_users : list byte :=
  str_bytes "webui:" ++ [byte_of_Z 10] ++ str_bytes "  users: [] # none" ++ [byte_of_Z 10].

Example replace_users :
  replace_empty_users_sequence "ann" "it's" empty_users 16 18 =
  str_bytes "webui:" ++ [byte_of_Z 10] ++ str_bytes "  users:" ++ [byte_of_Z 10] ++
  str_bytes "    - name: 'ann'" ++ [byte_of_Z 10] ++ str_bytes "      password_hash: 'it''s'" ++ [byte_of_Z 10] ++
  str_bytes "   # none" ++ [byte_of_Z 10].
Proof. by vm_compute. Qed.

End EditExamples.
