(* ===== verification/WebAuth.v ===== *)
(** * Authentication of the web interface (src/backend/src/management/)

    [auth.rs]: the users and their passwords. [router.rs]: the attempt limiter, the
    checks on request headers and the handlers of setup, login, refresh, logout and of
    protected routes. [events.rs]: WebSocket tickets, connection permits and the inbound
    message limit. [mod.rs]: the reconciliation of users after a reload. Password
    hashing, SHA-256 and cookie parsing are arguments, as is the outcome of a
    configuration commit. A login and a setup are two steps each, before and after the
    blocking task they wait for, so that a reload can come between. *)

From S2P Require Import Prelude Text Session SourceEdit.

(** ** Users and passwords *)

Definition SETUP_PASSWORD_MIN_BYTES : Z := 12.
Definition PASSWORD_MAX_BYTES : Z := 1024.

Inductive AuthError := InvalidCredentials | InvalidUsername | InvalidPasswordPolicy | HashFailure.
#[global] Instance AuthError_eq_dec : EqDecision AuthError.
Proof. solve_decision. Defined.

Record UserCredential := mk_user { uc_name : string; uc_password_hash : string }.
#[global] Instance UserCredential_eq_dec : EqDecision UserCredential.
Proof. solve_decision. Defined.

Definition name_byte (b : byte) : bool :=
  let c := byte_to_Z b in
  ((48 <=? c) && (c <=? 57)) || ((65 <=? c) && (c <=? 90)) || ((97 <=? c) && (c <=? 122)) ||
  (c =? 45) || (c =? 95) || (c =? 46) || (c =? 33).

Definition normalize_webui_username (value : chars) : option string :=
  let bytes := utf8_encode (trim value) in
  if bool_decide (bytes = []) || (128 <? bytes_len bytes) then None
  else if forallb name_byte bytes then Some (String.string_of_list_byte bytes) else None.

(** [sort_by] on the names: a stable insertion sort. *)
Fixpoint insert_user (u : UserCredential) (l : list UserCredential) : list UserCredential :=
  match l with
  | [] => [u]
  | v :: l' => if bool_decide (String.le (uc_name u) (uc_name v)) then u :: l else v :: insert_user u l'
  end.
Definition project_users (users : list UserCredential) : list UserCredential := foldr insert_user [] users.

Record AuthState := mk_auth { au_users : list UserCredential; au_dummy_hash : string }.

Definition setup_required (a : AuthState) : bool := bool_decide (au_users a = []).

(** [AuthState::replace]: whether the users changed, and the new state. *)
Definition auth_replace (a : AuthState) (users : list UserCredential) : bool * AuthState :=
  let next := project_users users in
  if bool_decide (au_users a = next) then (false, a) else (true, mk_auth next (au_dummy_hash a)).

(** The argon2 and bcrypt crates: whether an encoded hash parses, and verification. *)
Class PasswordCrypto := {
  argon2_parses : string -> bool;
  argon2_verify : string -> list byte -> bool;
  bcrypt_verify : string -> list byte -> option bool
}.

Section Passwords.
Context {PC : PasswordCrypto}.

Definition has_prefix (p s : string) : bool := starts_with (lit p) (lit s).

Definition verify_password (hash : string) (password : list byte) : result AuthError bool :=
  if has_prefix "$argon2id$" hash then
    if argon2_parses hash then Ok (argon2_verify hash password) else Err HashFailure
  else if has_prefix "$2a$" hash || has_prefix "$2b$" hash || has_prefix "$2y$" hash then
    ok_or HashFailure (bcrypt_verify hash password)
  else Err HashFailure.

Definition authenticate (a : AuthState) (username : chars) (password : list byte) : result AuthError string :=
  name ← ok_or InvalidCredentials (normalize_webui_username username);
  if bool_decide (password = []) || (PASSWORD_MAX_BYTES <? bytes_len password) then Err InvalidCredentials
  else
    let credential := list_find (fun u => uc_name u = name) (au_users a) in
    let hash := match credential with Some (_, u) => uc_password_hash u | None => au_dummy_hash a end in
    verified ← verify_password hash password;
    match credential, verified with
    | Some (_, u), true => Ok (uc_name u)
    | _, _ => Err InvalidCredentials
    end.

Definition validate_setup_credentials (username : chars) (password : list byte) : result AuthError string :=
  name ← ok_or InvalidUsername (normalize_webui_username username);
  if (SETUP_PASSWORD_MIN_BYTES <=? bytes_len password) && (bytes_len password <=? PASSWORD_MAX_BYTES)
  then Ok name else Err InvalidPasswordPolicy.

End Passwords.

(** ** Attempts *)

Definition ATTEMPT_WINDOW : Duration := from_secs 60.
Definition LOGIN_ATTEMPTS_PER_WINDOW : nat := 10.
Definition SETUP_ATTEMPTS_PER_WINDOW : nat := 5.
Definition MAX_ATTEMPT_KEYS : nat := 4096.

Abbreviation Attempts := (gmap string (list Instant)).

Definition retain_attempts (now : Instant) (m : Attempts) : Attempts :=
  omap (fun values => match filter (fun v => duration_since now v < ATTEMPT_WINDOW) values with
                      | [] => None
                      | l => Some l
                      end) m.

(** [AttemptLimiter::allow] once the key is formed. *)
Definition allow (m : Attempts) (key : string) (now : Instant) (limit : nat) : bool * Attempts :=
  let m := retain_attempts now m in
  if (MAX_ATTEMPT_KEYS <=? size m)%nat && negb (bool_decide (is_Some (m !! key))) then (false, m)
  else
    let values := default [] (m !! key) in
    if (limit <=? length values)%nat then (false, <[key := values]> m)
    else (true, <[key := values ++ [now]]> m).

Section Key.
(** SHA-256 in hexadecimal. *)
Context (sha256_hex : list byte -> string).
Definition attempt_key (kind peer : string) (username : chars) : string :=
  (kind +:+ ":" +:+ peer +:+ ":" +:+ sha256_hex (utf8_encode (trim username)))%string.
End Key.

(** ** Request headers *)

(** Names in lower case, in order; a value that is not text is [None]. *)
Abbreviation HeaderMap := (list (string * option string)).

Definition get_all (headers : HeaderMap) (name : string) : list (option string) :=
  snd <$> filter (fun h => h.1 = name) headers.

Definition eq_ignore_ascii_case (a b : string) : bool :=
  bool_decide (to_ascii_lowercase (lit a) = to_ascii_lowercase (lit b)).

Definition origin_is_allowed (headers : HeaderMap) (public_origin : string) : bool :=
  match get_all headers "origin" with
  | [Some origin] =>
    bool_decide (origin = public_origin) &&
    match get_all headers "sec-fetch-site" with
    | [] => true
    | [Some site] => negb (eq_ignore_ascii_case site "cross-site")
    | [None] => true
    | _ => false
    end
  | _ => false
  end.

(** [str::split_once] at a space. *)
Fixpoint split_once (s : string) : option (string * string) :=
  match s with
  | EmptyString => None
  | String c rest =>
    if Ascii.eqb c Ascii.Space then Some (EmptyString, rest)
    else match split_once rest with Some (a, b) => Some (String c a, b) | None => None end
  end.

(** [router::session_token]: the bearer token of a request. *)
Definition session_token (headers : HeaderMap) : option string :=
  match get_all headers "authorization" with
  | [Some value] =>
    '(scheme, token) ← split_once value;
    if negb (eq_ignore_ascii_case scheme "Bearer") || negb (valid_token token) then None else Some token
  | _ => None
  end.

Section Cookies.
(** [Cookie::split_parse]: names and values; [None] is a part that does not parse. *)
Context (split_parse : string -> list (option (string * string))).

Definition token_from_header (s : SessionStore) (header : string) : option string :=
  match filter (fun c => c.1 = cookie_name s) (omap id (split_parse header)) with
  | [(_, token)] => if valid_token token then Some token else None
  | _ => None
  end.

(** [router::refresh_token] *)
Definition refresh_token (headers : HeaderMap) (s : SessionStore) : option string :=
  match get_all headers "cookie" with
  | [Some value] => token_from_header s value
  | _ => None
  end.
End Cookies.

Definition clear_cookie (s : SessionStore) : string :=
  (cookie_name s +:+ "=; Path=/; HttpOnly; SameSite=Strict; Max-Age=0" +:+
   (if st_secure s then "; Secure" else ""))%string.

Definition WS_SUBPROTOCOL : string := "fluxdns.v1".
Definition WS_TICKET_PROTOCOL_PREFIX : string := "fluxdns.ticket.".

Fixpoint drop_prefix (p s : string) : option string :=
  match p, s with
  | EmptyString, _ => Some s
  | String a p', String b s' => if bool_decide (a = b) then drop_prefix p' s' else None
  | _, _ => None
  end.

(** [ticket_from_protocols]: the loop over the requested protocols. *)
Fixpoint protocols_loop (values : list (option string)) (protocol : bool) (ticket : option string) : option string :=
  match values with
  | [] => if protocol then ticket else None
  | None :: _ => None
  | Some value :: rest =>
    if bool_decide (value = WS_SUBPROTOCOL) then
      if protocol then None else protocols_loop rest true ticket
    else match drop_prefix WS_TICKET_PROTOCOL_PREFIX value with
    | None => None
    | Some v =>
      if bool_decide (is_Some ticket) || negb (valid_token v) then None
      else protocols_loop rest protocol (Some v)
    end
  end.
Definition ticket_from_protocols (values : list (option string)) : option string := protocols_loop values false None.

(** ** Connections *)

Definition WS_CONNECTION_CAPACITY : Z := 32.
Definition WS_CONNECTIONS_PER_SESSION : Z := 4.
Definition WS_INBOUND_MESSAGES_PER_MINUTE : nat := 64.

Record ConnectionState := mk_conns { cn_total : Z; cn_per_session : gmap string Z }.

(** [EventHub::try_acquire_connection]: whether a permit was given. *)
Definition try_acquire_connection (c : ConnectionState) (session : string) : bool * ConnectionState :=
  let count := default 0 (cn_per_session c !! session) in
  if (WS_CONNECTION_CAPACITY <=? cn_total c) || (WS_CONNECTIONS_PER_SESSION <=? count) then (false, c)
  else (true, mk_conns (cn_total c + 1) (<[session := count + 1]> (cn_per_session c))).

(** [Drop for ConnectionPermit] *)
Definition release_permit (c : ConnectionState) (session : string) : ConnectionState :=
  mk_conns (sat_sub (cn_total c) 1)
    (match cn_per_session c !! session with
     | Some v => let v := sat_sub v 1 in
                 if v =? 0 then delete session (cn_per_session c) else <[session := v]> (cn_per_session c)
     | None => cn_per_session c
     end).

(** [allow_inbound]: the times of the messages of the last minute. *)
Fixpoint pop_expired (now : Instant) (messages : list Instant) : list Instant :=
  match messages with
  | seen :: rest => if from_secs 60 <=? duration_since now seen then pop_expired now rest else messages
  | [] => []
  end.
Definition allow_inbound (messages : list Instant) (now : Instant) : bool * list Instant :=
  let messages := pop_expired now messages in
  if (WS_INBOUND_MESSAGES_PER_MINUTE <=? length messages)%nat then (false, messages)
  else (true, messages ++ [now]).

(** ** Fingerprints of the configuration *)

Definition hex_digit (z : Z) : Ascii.ascii :=
  Ascii.ascii_of_N (Z.to_N (if z <? 10 then 48 + z else 87 + z)).
Fixpoint hex (digits : nat) (z : Z) : string :=
  match digits with
  | O => EmptyString
  | S n => (hex n (z / 16) +:+ String (hex_digit (z mod 16)) EmptyString)%string
  end.

(** [config::hash::deterministic_hash]: FNV-1a, 16 hexadecimal digits. *)
Definition fnv1a_hash (input : list byte) : Z :=
  foldl (fun h b => wrap64 (Z.lxor h (byte_to_Z b) * 0x100000001b3)) 0xcbf29ce484222325 input.
Definition deterministic_hash (input : list byte) : string := hex 16 (fnv1a_hash input).
Arguments deterministic_hash : simpl never.

(** ** State and replies *)

Inductive ConfigStoreError := CS_Conflict | CS_AlreadyInitialized | CS_Busy | CS_UnsupportedSource | CS_CandidateRejected | CS_Other.

(** The active source of the configuration store and the fingerprint of its own write. *)
Record ConfigState := mk_config { cf_source : list byte; cf_self_written : option string }.

Inductive ErrorCode :=
| EC_InternalError | EC_SetupAlreadyCompleted | EC_AuthInvalidCredentials | EC_OriginRejected | EC_ConfigConflict
| EC_InvalidArgument | EC_AuthRequired | EC_Forbidden | EC_RateLimited | EC_ServiceUnavailable.

Definition http_status (c : ErrorCode) : Z :=
  match c with
  | EC_InternalError => 500 | EC_SetupAlreadyCompleted | EC_ConfigConflict => 409
  | EC_AuthInvalidCredentials | EC_AuthRequired => 401 | EC_OriginRejected | EC_InvalidArgument => 400
  | EC_Forbidden => 403 | EC_RateLimited => 429 | EC_ServiceUnavailable => 503
  end.

Inductive Reply :=
| RError (code : ErrorCode)
| RSetup (state : string)
| RIssued (status : Z) (view : AuthSession) (cookie : string)
| RRefreshed (view : AuthSession)
| RLoggedOut (cookie : string)
| RTicket (t : WebSocketTicket)
| RUpgrade (session : string)
| RNext (view : SessionView).

Record Web := mk_web {
  w_auth : AuthState;
  w_sessions : SessionStore;
  w_attempts : Attempts;
  w_conns : ConnectionState;
  w_config : ConfigState;
  w_origin : string
}.

Definition with_sessions (w : Web) (s : SessionStore) : Web :=
  mk_web (w_auth w) s (w_attempts w) (w_conns w) (w_config w) (w_origin w).
Definition with_session_data (w : Web) (d : SessionData) : Web := with_sessions w (set_data (w_sessions w) d).
Definition with_attempts (w : Web) (m : Attempts) : Web :=
  mk_web (w_auth w) (w_sessions w) m (w_conns w) (w_config w) (w_origin w).
Definition with_conns (w : Web) (c : ConnectionState) : Web :=
  mk_web (w_auth w) (w_sessions w) (w_attempts w) c (w_config w) (w_origin w).
Definition with_config (w : Web) (c : ConfigState) : Web :=
  mk_web (w_auth w) (w_sessions w) (w_attempts w) (w_conns w) c (w_origin w).
Definition with_auth (w : Web) (a : AuthState) : Web :=
  mk_web a (w_sessions w) (w_attempts w) (w_conns w) (w_config w) (w_origin w).

Section Handlers.
Context {PC : PasswordCrypto}.
Context (sha256_hex : list byte -> string).
Context (split_parse : string -> list (option (string * string))).
(** The [Set-Cookie] header of a session; [None] if it is not a legal header value. *)
Context (set_cookie : SessionStore -> string -> option string).
Context (order : gmap string SessionRecord -> list (string * SessionRecord)).
Context (rfc3339 : Z -> option string).
(** The users of a configuration source, [None] if it is not valid, and the YAML
    library of the source editor. *)
Context (resolve_users : list byte -> option (list UserCredential)).
Context {YE : YamlEdit}.

(** [ConfigStore::create_initial_user_v2]; [file] is what the source file holds, [busy]
    that another transaction or operation is running, [committed] the outcome of replacing
    the two files and reading them back. *)
Definition create_initial_user_v2 (c : ConfigState) (file : list byte) (busy : bool)
    (committed : result ConfigStoreError unit) (name password_hash : string) : result ConfigStoreError (list UserCredential) * ConfigState :=
  if busy then (Err CS_Busy, c)
  else if negb (bool_decide (file = cf_source c)) then (Err CS_Conflict, c)
  else match create_initial_webui_user name password_hash file with
  | Err AlreadyInitialized => (Err CS_AlreadyInitialized, c)
  | Err _ => (Err CS_UnsupportedSource, c)
  | Ok candidate =>
    match resolve_users candidate with
    | Some [u] =>
      if negb (bool_decide (uc_name u = name)) then (Err CS_CandidateRejected, c)
      else match committed with
      | Err e => (Err e, c)
      | Ok _ => (Ok [u], mk_config candidate (Some (sha256_hex candidate)))
      end
    | _ => (Err CS_CandidateRejected, c)
    end
  end.

(** [ConfigStore::observe_reload] *)
Definition observe_reload (c : ConfigState) (fingerprint : string) : bool * ConfigState :=
  (bool_decide (cf_self_written c = Some fingerprint), mk_config (cf_source c) None).

(** [router::issue_session] *)
Definition issue_session (w : Web) (username : string) (status now utc : Z) (r1 r2 : option string) : Reply * Web :=
  let '(res, d) := issue order rfc3339 (st_data (w_sessions w)) username now utc r1 r2 in
  let w := with_session_data w d in
  match res with
  | Err _ => (RError EC_InternalError, w)
  | Ok issued =>
    match set_cookie (w_sessions w) (is_token issued) with
    | None => (RError EC_InternalError, w)
    | Some cookie => (RIssued status (is_view issued) cookie, w)
    end
  end.

Definition Payload : Type := option (chars * list byte).

(** The part of [post_login] before the session is issued: a reply, or the user. *)
Definition login_check (w : Web) (headers : HeaderMap) (payload : Payload) (peer : string) (now : Instant) :
    (Reply + string) * Web :=
  if negb (origin_is_allowed headers (w_origin w)) then (inl (RError EC_OriginRejected), w)
  else match payload with
  | None => (inl (RError EC_InvalidArgument), w)
  | Some (username, password) =>
    let '(allowed, m) := allow (w_attempts w) (attempt_key sha256_hex "login" peer username) now
                           LOGIN_ATTEMPTS_PER_WINDOW in
    let w := with_attempts w m in
    if negb allowed then (inl (RError EC_RateLimited), w)
    else if setup_required (w_auth w) then (inl (RError EC_AuthInvalidCredentials), w)
    else match authenticate (w_auth w) username password with
    | Ok name => (inr name, w)
    | Err InvalidCredentials => (inl (RError EC_AuthInvalidCredentials), w)
    | Err _ => (inl (RError EC_InternalError), w)
    end
  end.

(** [post_setup] before the password is hashed, up to the commit, and after it. *)
Definition setup_check (w : Web) (headers : HeaderMap) (payload : Payload) (peer : string) (now : Instant) :
    (Reply + string) * Web :=
  if negb (origin_is_allowed headers (w_origin w)) then (inl (RError EC_OriginRejected), w)
  else match payload with
  | None => (inl (RError EC_InvalidArgument), w)
  | Some (username, password) =>
    let '(allowed, m) := allow (w_attempts w) (attempt_key sha256_hex "setup" peer username) now
                           SETUP_ATTEMPTS_PER_WINDOW in
    let w := with_attempts w m in
    if negb allowed then (inl (RError EC_RateLimited), w)
    else match validate_setup_credentials username password with
    | Err _ => (inl (RError EC_InvalidArgument), w)
    | Ok name =>
      if negb (setup_required (w_auth w)) then (inl (RError EC_SetupAlreadyCompleted), w)
      else (inr name, w)
    end
  end.

Definition config_store_error (e : ConfigStoreError) : Reply :=
  match e with
  | CS_AlreadyInitialized => RError EC_SetupAlreadyCompleted
  | CS_Conflict | CS_Busy => RError EC_ConfigConflict
  | _ => RError EC_InternalError
  end.

(** [hash] is the Argon2 hash of the password, [None] if hashing failed. *)
Definition setup_commit (w : Web) (name : string) (hash : option string) (file : list byte) (busy : bool)
    (committed : result ConfigStoreError unit) : (Reply + list UserCredential) * Web :=
  match hash with
  | None => (inl (RError EC_InternalError), w)
  | Some h =>
    let '(res, c) := create_initial_user_v2 (w_config w) file busy committed name h in
    match res with
    | Err e => (inl (config_store_error e), with_config w c)
    | Ok users => (inr users, with_config w c)
    end
  end.

Definition setup_finish (w : Web) (users : list UserCredential) (name : string) (now utc : Z)
    (r1 r2 : option string) : Reply * Web :=
  issue_session (with_auth w (auth_replace (w_auth w) users).2) name 201 now utc r1 r2.

Definition get_setup (w : Web) : Reply :=
  RSetup (if setup_required (w_auth w) then "required" else "ready").

Definition post_logout (w : Web) (headers : HeaderMap) (now : Instant) : Reply * Web :=
  if negb (origin_is_allowed headers (w_origin w)) then (RError EC_OriginRejected, w)
  else
    let w := match session_token headers with
             | Some token => with_sessions w (revoke (w_sessions w) token now)
             | None => w
             end in
    (RLoggedOut (clear_cookie (w_sessions w)), w).

Definition post_refresh (w : Web) (headers : HeaderMap) (now utc : Z) (rnd : option string) : Reply * Web :=
  if negb (origin_is_allowed headers (w_origin w)) then (RError EC_OriginRejected, w)
  else match refresh_token split_parse headers (w_sessions w) with
  | None => (RError EC_AuthRequired, w)
  | Some token =>
    let '(res, d) := refresh_at rfc3339 (st_data (w_sessions w)) token now utc rnd in
    (match res with
     | Ok (Some view) => RRefreshed view
     | Ok None => RError EC_AuthRequired
     | Err _ => RError EC_InternalError
     end, with_session_data w d)
  end.

(** [require_session]: [RNext] runs the protected handler with the session. *)
Definition require_session (w : Web) (headers : HeaderMap) (now : Instant) : Reply * Web :=
  match session_token headers with
  | None => (RError EC_AuthRequired, w)
  | Some token =>
    let '(res, d) := lookup_session rfc3339 (st_data (w_sessions w)) token now in
    (match res with
     | Ok (Some view) => RNext view
     | Ok None => RError EC_AuthRequired
     | Err _ => RError EC_InternalError
     end, with_session_data w d)
  end.

(** [events::issue_ticket], behind [require_session]. *)
Definition issue_ticket (w : Web) (headers : HeaderMap) (now utc : Z) (rnd : option string) : Reply * Web :=
  if negb (origin_is_allowed headers (w_origin w)) then (RError EC_Forbidden, w)
  else match session_token headers with
  | None => (RError EC_AuthRequired, w)
  | Some access =>
    let '(res, d) := issue_websocket_ticket (st_data (w_sessions w)) access now utc rnd in
    (match res with
     | Ok (Some t) => RTicket t
     | Ok None => RError EC_AuthRequired
     | Err Capacity => RError EC_RateLimited
     | Err _ => RError EC_ServiceUnavailable
     end, with_session_data w d)
  end.

(** [events::upgrade] with a configured event hub; [RUpgrade] starts the connection of
    the session, which holds a permit. *)
Definition upgrade (w : Web) (query : option string) (headers : HeaderMap) (protocols : list (option string))
    (now : Instant) : Reply * Web :=
  if bool_decide (is_Some query) || negb (bool_decide (get_all headers "authorization" = [])) ||
     negb (origin_is_allowed headers (w_origin w)) then (RError EC_Forbidden, w)
  else match ticket_from_protocols protocols with
  | None => (RError EC_AuthRequired, w)
  | Some ticket =>
    let '(res, d) := consume_websocket_ticket (st_data (w_sessions w)) ticket now in
    let w := with_session_data w d in
    match res with
    | Ok None => (RError EC_AuthRequired, w)
    | Err _ => (RError EC_ServiceUnavailable, w)
    | Ok (Some session) =>
      let '(ok, c) := try_acquire_connection (w_conns w) session in
      if ok then (RUpgrade session, with_conns w c) else (RError EC_RateLimited, w)
    end
  end.

(** [EventHub::session_is_valid], at each heartbeat and change notification. *)
Definition session_is_valid (w : Web) (session : string) (now : Instant) : bool * Web :=
  let '(res, d) := validate_websocket_session (st_data (w_sessions w)) session now in
  (match res with Ok b => b | Err _ => false end, with_session_data w d).

(** [ManagementRuntime::reconcile_users] *)
Definition reconcile_users (w : Web) (users : list UserCredential) (fingerprint : string) : Web :=
  let '(self_written, c) := observe_reload (w_config w) fingerprint in
  let w := with_config w c in
  let '(changed, a) := auth_replace (w_auth w) users in
  let w := with_auth w a in
  if changed && negb self_written then with_sessions w (revoke_all (w_sessions w)) else w.

(** ** Runs *)

(** Requests between their two steps. *)
Inductive Inflight :=
| FLogin (user : string)
| FHash (user : string)
| FSetup (users : list UserCredential) (user : string).

Record System := mk_system { sy_web : Web; sy_inflight : list Inflight; sy_drawn : gset string }.

Definition overlaps_reload (f : Inflight) : bool := match f with FHash _ => false | _ => true end.

(** One step of the management service; with [strict], users are not changed between
    the check of a login and the issue of its session, nor between the commit of a setup
    and its session. *)
Inductive web_step (strict : bool) : System -> System -> Prop :=
| ws_login_refused w fl U headers payload peer now reply w' :
    login_check w headers payload peer now = (inl reply, w') ->
    web_step strict (mk_system w fl U) (mk_system w' fl U)
| ws_login_checked w fl U headers payload peer now user w' :
    login_check w headers payload peer now = (inr user, w') ->
    web_step strict (mk_system w fl U) (mk_system w' (FLogin user :: fl) U)
| ws_login_finish w f1 f2 U user now utc r1 r2 reply w' :
    fresh_for U (omap id [r1; r2]) ->
    issue_session w user 200 now utc r1 r2 = (reply, w') ->
    web_step strict (mk_system w (f1 ++ FLogin user :: f2) U)
      (mk_system w' (f1 ++ f2) (list_to_set (omap id [r1; r2]) ∪ U))
| ws_setup_refused w fl U headers payload peer now reply w' :
    setup_check w headers payload peer now = (inl reply, w') ->
    web_step strict (mk_system w fl U) (mk_system w' fl U)
| ws_setup_checked w fl U headers payload peer now user w' :
    setup_check w headers payload peer now = (inr user, w') ->
    web_step strict (mk_system w fl U) (mk_system w' (FHash user :: fl) U)
| ws_setup_failed w f1 f2 U user hash file busy committed reply w' :
    setup_commit w user hash file busy committed = (inl reply, w') ->
    web_step strict (mk_system w (f1 ++ FHash user :: f2) U) (mk_system w' (f1 ++ f2) U)
| ws_setup_committed w f1 f2 U user hash file busy committed users w' :
    setup_commit w user hash file busy committed = (inr users, w') ->
    web_step strict (mk_system w (f1 ++ FHash user :: f2) U) (mk_system w' (FSetup users user :: f1 ++ f2) U)
| ws_setup_finish w f1 f2 U users user now utc r1 r2 reply w' :
    fresh_for U (omap id [r1; r2]) ->
    setup_finish w users user now utc r1 r2 = (reply, w') ->
    web_step strict (mk_system w (f1 ++ FSetup users user :: f2) U)
      (mk_system w' (f1 ++ f2) (list_to_set (omap id [r1; r2]) ∪ U))
| ws_logout w fl U headers now :
    web_step strict (mk_system w fl U) (mk_system (post_logout w headers now).2 fl U)
| ws_refresh w fl U headers now utc rnd :
    fresh_for U (omap id [rnd]) ->
    web_step strict (mk_system w fl U)
      (mk_system (post_refresh w headers now utc rnd).2 fl (list_to_set (omap id [rnd]) ∪ U))
| ws_protected w fl U headers now :
    web_step strict (mk_system w fl U) (mk_system (require_session w headers now).2 fl U)
| ws_ticket w fl U headers now utc rnd :
    fresh_for U (omap id [rnd]) ->
    web_step strict (mk_system w fl U)
      (mk_system (issue_ticket w headers now utc rnd).2 fl (list_to_set (omap id [rnd]) ∪ U))
| ws_upgrade w fl U query headers protocols now :
    web_step strict (mk_system w fl U) (mk_system (upgrade w query headers protocols now).2 fl U)
| ws_disconnect w fl U session :
    web_step strict (mk_system w fl U) (mk_system (with_conns w (release_permit (w_conns w) session)) fl U)
| ws_heartbeat w fl U session now :
    web_step strict (mk_system w fl U) (mk_system (session_is_valid w session now).2 fl U)
| ws_reload w fl U source users :
    (strict = true -> forallb (fun f => negb (overlaps_reload f)) fl = true) ->
    resolve_users source = Some users ->
    web_step strict (mk_system w fl U)
      (mk_system (reconcile_users (with_config w (mk_config source (cf_self_written (w_config w)))) users
                    (deterministic_hash source)) fl U)
| ws_shutdown w fl U :
    web_step strict (mk_system w fl U) (mk_system (with_sessions w (revoke_all (w_sessions w))) fl U).

(** ** The session store within the service *)

Abbreviation store_run := (rtc (session_step order rfc3339)).

Lemma issue_session_store w user status now utc r1 r2 reply w' :
  issue_session w user status now utc r1 r2 = (reply, w') ->
  w_sessions w' = session_exec order rfc3339 (OIssue user now utc r1 r2) (w_sessions w) /\
  w_auth w' = w_auth w /\ w_config w' = w_config w.
Proof.
  unfold issue_session. cbn [session_exec].
  destruct (issue order rfc3339 (st_data (w_sessions w)) user now utc r1 r2) as [res d].
  destruct res as [i|e]; [destruct (set_cookie _ _)|]; intros [= <- <-]; done.
Qed.

Lemma login_check_store w headers payload peer now r w' :
  login_check w headers payload peer now = (r, w') ->
  w_sessions w' = w_sessions w /\ w_auth w' = w_auth w /\ w_config w' = w_config w.
Proof.
  unfold login_check. destruct (origin_is_allowed _ _); cbn [negb]; [|by intros [= _ <-]].
  destruct payload as [[username password]|]; [|by intros [= _ <-]].
  destruct (allow _ _ _ _) as [[|] m]; cbn [negb]; [|by intros [= _ <-]].
  destruct (setup_required _); [by intros [= _ <-]|].
  destruct (authenticate _ _ _) as [name|[]]; by intros [= _ <-].
Qed.

Lemma setup_check_store w headers payload peer now r w' :
  setup_check w headers payload peer now = (r, w') ->
  w_sessions w' = w_sessions w /\ w_auth w' = w_auth w /\ w_config w' = w_config w.
Proof.
  unfold setup_check. destruct (origin_is_allowed _ _); cbn [negb]; [|by intros [= _ <-]].
  destruct payload as [[username password]|]; [|by intros [= _ <-]].
  destruct (allow _ _ _ _) as [[|] m]; cbn [negb]; [|by intros [= _ <-]].
  destruct (validate_setup_credentials _ _) as [name|e]; [|by intros [= _ <-]].
  destruct (setup_required _); cbn [negb]; by intros [= _ <-].
Qed.

Lemma setup_commit_store w user hash file busy committed r w' :
  setup_commit w user hash file busy committed = (r, w') ->
  w_sessions w' = w_sessions w /\ w_auth w' = w_auth w.
Proof.
  unfold setup_commit. destruct hash as [h|]; [|by intros [= _ <-]].
  destruct (create_initial_user_v2 _ _ _ _ _ _) as [[users|e] c]; by intros [= _ <-].
Qed.

Lemma reconcile_store w users fingerprint :
  w_sessions (reconcile_users w users fingerprint) = w_sessions w \/
  w_sessions (reconcile_users w users fingerprint) = revoke_all (w_sessions w).
Proof.
  unfold reconcile_users. destruct (observe_reload _ _) as [sw c]. destruct (auth_replace _ _) as [changed a].
  destruct (changed && negb sw); [by right|by left].
Qed.

(** A step of the service leaves the session store alone or is one operation of it; a
    session is issued to the user of a request in flight. *)
Lemma web_step_op strict y z :
  web_step strict y z ->
  (w_sessions (sy_web z) = w_sessions (sy_web y) /\ exists l : list string, sy_drawn z = list_to_set l ∪ sy_drawn y) \/
  exists op, w_sessions (sy_web z) = session_exec order rfc3339 op (w_sessions (sy_web y)) /\
    fresh_for (sy_drawn y) (op_draws op) /\ sy_drawn z = list_to_set (op_draws op) ∪ sy_drawn y /\
    forall user now utc r1 r2, op = OIssue user now utc r1 r2 ->
      FLogin user ∈ sy_inflight y \/ exists users, FSetup users user ∈ sy_inflight y.
Proof.
  assert (Hq : forall (U : gset string), exists l : list string, U = list_to_set l ∪ U) by (intros U; exists []; set_solver).
  assert (Hn : forall (U : gset string), U = list_to_set ([] : list string) ∪ U) by set_solver.
  assert (Hf0 : forall U, fresh_for U []) by (intros U; split; [constructor|intros t Ht; by apply not_elem_of_nil in Ht]).
  destruct 1 as [w fl U headers payload peer now reply w' H|w fl U headers payload peer now user w' H
    |w f1 f2 U user now utc r1 r2 reply w' Hf H|w fl U headers payload peer now reply w' H
    |w fl U headers payload peer now user w' H|w f1 f2 U user hash file busy committed reply w' H
    |w f1 f2 U user hash file busy committed users w' H|w f1 f2 U users user now utc r1 r2 reply w' Hf H
    |w fl U headers now|w fl U headers now utc rnd Hf|w fl U headers now|w fl U headers now utc rnd Hf
    |w fl U query headers protocols now|w fl U session|w fl U session now|w fl U source users Hs Hu|w fl U];
    cbn [sy_web sy_drawn sy_inflight].
  - left. apply login_check_store in H as (-> & _). auto.
  - left. apply login_check_store in H as (-> & _). auto.
  - right. apply issue_session_store in H as (-> & _). eexists. split; [done|]. split; [done|]. split; [done|].
    intros ? ? ? ? ? [= <- _ _ _ _]. left. set_solver.
  - left. apply setup_check_store in H as (-> & _). auto.
  - left. apply setup_check_store in H as (-> & _). auto.
  - left. apply setup_commit_store in H as (-> & _). auto.
  - left. apply setup_commit_store in H as (-> & _). auto.
  - right. apply issue_session_store in H as (-> & _). exists (OIssue user now utc r1 r2).
    split; [done|]. split; [done|]. split; [done|]. intros ? ? ? ? ? [= <- _ _ _ _]. right. exists users. set_solver.
  - unfold post_logout. destruct (origin_is_allowed _ _); cbn [negb]; [|by left; auto].
    destruct (session_token headers) as [token|]; [|by left; auto].
    right. exists (ORevoke token now). by split; [|split; [|split]].
  - unfold post_refresh. destruct (origin_is_allowed _ _); cbn [negb]; [|left; eauto].
    destruct (refresh_token _ _ _) as [token|]; [|left; eauto].
    destruct (refresh_at _ _ _ _ _ _) as [res d] eqn:E.
    right. exists (ORefresh token now utc rnd). cbn [session_exec]. rewrite E. by split; [|split; [|split]].
  - unfold require_session. destruct (session_token headers) as [token|]; [|by left; auto].
    destruct (lookup_session _ _ _ _) as [res d] eqn:E.
    right. exists (OLookup token now). cbn [session_exec]. rewrite E. by split; [|split; [|split]].
  - unfold issue_ticket. destruct (origin_is_allowed _ _); cbn [negb]; [|left; eauto].
    destruct (session_token headers) as [access|]; [|left; eauto].
    destruct (issue_websocket_ticket _ _ _ _ _) as [res d] eqn:E.
    right. exists (OTicket access now utc rnd). cbn [session_exec]. rewrite E. by split; [|split; [|split]].
  - unfold upgrade. destruct (_ || _); [by left; auto|]. destruct (ticket_from_protocols protocols) as [ticket|]; [|by left; auto].
    destruct (consume_websocket_ticket _ _ _) as [res d] eqn:E.
    right. exists (OConsume ticket now). cbn [session_exec]. rewrite E.
    split; [|by split; [|split]]. destruct res as [[session|]|e]; [|done..]. destruct (try_acquire_connection _ _) as [[|] c]; done.
  - by left; auto.
  - unfold session_is_valid. destruct (validate_websocket_session _ _ _) as [res d] eqn:E.
    right. exists (OValidate session now). cbn [session_exec]. rewrite E. by split; [|split; [|split]].
  - destruct (reconcile_store (with_config w (mk_config source (cf_self_written (w_config w)))) users (deterministic_hash source))
      as [-> | ->]; [by left; auto|]. right. exists ORevokeAll. by split; [|split; [|split]].
  - right. exists ORevokeAll. by split; [|split; [|split]].
Qed.

(** Each step of the service is a run of the session store. *)
Lemma web_step_store strict y z :
  web_step strict y z ->
  store_run (w_sessions (sy_web y), sy_drawn y) (w_sessions (sy_web z), sy_drawn z).
Proof.
  intros H. apply web_step_op in H as [[-> [l ->]]|(op & -> & [H1 H2] & -> & _)]; apply rtc_once; by constructor.
Qed.

Lemma web_run_store strict y z :
  rtc (web_step strict) y z ->
  store_run (w_sessions (sy_web y), sy_drawn y) (w_sessions (sy_web z), sy_drawn z).
Proof. induction 1 as [|x y z H _ IH]; [done|]. etrans; [by eapply web_step_store|done]. Qed.

Definition web_init (auth : AuthState) (config : ConfigState) (origin : string) (secure : bool) : System :=
  mk_system (mk_web auth (SessionStore_new secure) ∅ (mk_conns 0 ∅) config origin) [] ∅.

(** ** Sessions belong to users *)

Definition user_names (a : AuthState) : list string := uc_name <$> au_users a.

Lemma authenticate_member a username password name :
  authenticate a username password = Ok name -> name ∈ user_names a.
Proof.
  unfold authenticate. intros H. apply bind_ok in H as (n & _ & H). destruct (_ || _); [done|].
  apply bind_ok in H as (v & _ & H). destruct (list_find _ _) as [[i u]|] eqn:Hf; [|done].
  destruct v; [|done]. injection H as <-. apply list_find_Some in Hf as (Hu & _).
  apply list_elem_of_fmap. exists u. split; [done|]. by eapply list_elem_of_lookup_2.
Qed.

Lemma login_check_member w headers payload peer now user w' :
  login_check w headers payload peer now = (inr user, w') -> user ∈ user_names (w_auth w).
Proof.
  unfold login_check. destruct (origin_is_allowed _ _); cbn [negb]; [|done].
  destruct payload as [[username password]|]; [|done].
  destruct (allow _ _ _ _) as [[|] m]; cbn [negb]; [|done].
  destruct (setup_required _); [done|].
  destruct (authenticate _ _ _) as [name|[]] eqn:Ha; try done. intros [= <- _]. by apply authenticate_member in Ha.
Qed.

Lemma hex_length n z : String.length (hex n z) = n.
Proof.
  assert (Ha : forall a b, String.length (a +:+ b) = (String.length a + String.length b)%nat)
    by (induction a as [|c a IH]; intros b; [done|]; exact (f_equal S (IH b))).
  revert z. induction n as [|n IH]; intros z; [done|]. cbn [hex]. rewrite Ha, IH. cbn. lia.
Qed.

Lemma deterministic_hash_length l : String.length (deterministic_hash l) = 16%nat.
Proof. apply hex_length. Qed.

Section Users.
(** SHA-256 digests have 64 hexadecimal digits; where the configuration loader finds
    users, the document tree of the editor's YAML library has a [users] field that is
    not an empty list. *)
Context (sha256_length : forall l, String.length (sha256_hex l) = 64%nat).
Context (yaml_agrees : forall source users,
  resolve_users source = Some users -> users <> [] -> has_users source).

Definition logins (fl : list Inflight) : list string :=
  omap (fun f => match f with FLogin u => Some u | _ => None end) fl.
Definition setups (fl : list Inflight) : list (list UserCredential * string) :=
  omap (fun f => match f with FSetup users u => Some (users, u) | _ => None end) fl.

Arguments logins : simpl never.
Arguments setups : simpl never.

Lemma logins_cons f fl : logins (f :: fl) = match f with FLogin u => [u] | _ => [] end ++ logins fl.
Proof. by destruct f. Qed.
Lemma setups_cons f fl : setups (f :: fl) = match f with FSetup users u => [(users, u)] | _ => [] end ++ setups fl.
Proof. by destruct f. Qed.
Lemma logins_app f1 f2 : logins (f1 ++ f2) = logins f1 ++ logins f2.
Proof. apply omap_app. Qed.
Lemma setups_app f1 f2 : setups (f1 ++ f2) = setups f1 ++ setups f2.
Proof. apply omap_app. Qed.

Record users_inv (y : System) : Prop := {
  ui_sessions : all_users (fun u => u ∈ user_names (w_auth (sy_web y))) (st_data (w_sessions (sy_web y)));
  ui_login u : u ∈ logins (sy_inflight y) -> u ∈ user_names (w_auth (sy_web y));
  ui_setup : exists us, resolve_users (cf_source (w_config (sy_web y))) = Some us /\
    match setups (sy_inflight y) with
    | [] => au_users (w_auth (sy_web y)) = project_users us
    | [(users, u)] => au_users (w_auth (sy_web y)) = [] /\ us = users /\ exists h, users = [mk_user u h]
    | _ => False
    end;
  ui_self fp : cf_self_written (w_config (sy_web y)) = Some fp -> exists l, fp = sha256_hex l
}.

Lemma users_inv_frame w fl U w' fl' U' :
  users_inv (mk_system w fl U) -> w_auth w' = w_auth w -> w_config w' = w_config w ->
  all_users (fun u => u ∈ user_names (w_auth w)) (st_data (w_sessions w')) ->
  (forall u, u ∈ logins fl' -> u ∈ logins fl \/ u ∈ user_names (w_auth w)) -> setups fl' = setups fl ->
  users_inv (mk_system w' fl' U').
Proof.
  intros [S L P F] Ea Ec Hs Hl Hset. cbn in *. split; cbn; rewrite ?Ea, ?Ec, ?Hset; [exact Hs| |exact P|exact F].
  intros u Hu. destruct (Hl u Hu); auto.
Qed.

Lemma issue_users w user status now utc r1 r2 reply w' P :
  issue_session w user status now utc r1 r2 = (reply, w') -> P user ->
  all_users P (st_data (w_sessions w)) -> all_users P (st_data (w_sessions w')).
Proof.
  intros H Hu Ha. apply issue_session_store in H as (-> & _). apply session_exec_users; [|done].
  by intros ? ? ? ? ? [= <- _ _ _ _].
Qed.

Lemma revoke_all_users P s : all_users P (st_data (revoke_all s)).
Proof.
  intros x r H. unfold revoke_all in H.
  destruct (negb (size (sd_sessions (st_data s)) =? 0)%nat || _); cbn in H; by rewrite lookup_empty in H.
Qed.

(** A commit adds the first user to a source that had none. *)
Lemma setup_commit_some w user hash file busy committed users w' us :
  setup_commit w user hash file busy committed = (inr users, w') ->
  resolve_users (cf_source (w_config w)) = Some us ->
  us = [] /\ w_auth w' = w_auth w /\ w_sessions w' = w_sessions w /\ (exists h, users = [mk_user user h]) /\
  resolve_users (cf_source (w_config w')) = Some users /\
  exists l, cf_self_written (w_config w') = Some (sha256_hex l).
Proof.
  unfold setup_commit. intros H Hr. destruct hash as [h|]; [|done].
  destruct (create_initial_user_v2 (w_config w) file busy committed user h) as [res c] eqn:Hc.
  destruct res as [users0|e]; [|done]. injection H as <- <-. cbn.
  unfold create_initial_user_v2 in Hc. destruct busy; [done|].
  destruct (bool_decide (file = cf_source (w_config w))) eqn:Ef; cbn [negb] in Hc; [|done].
  apply bool_decide_eq_true in Ef as ->.
  destruct (create_initial_webui_user user h (cf_source (w_config w))) as [candidate|[]] eqn:Ed; [|done..].
  destruct (resolve_users candidate) as [[|u [|]]|] eqn:Ec; [done| |done..].
  destruct (bool_decide (uc_name u = user)) eqn:Eu; cbn [negb] in Hc; [|done]. apply bool_decide_eq_true in Eu.
  destruct committed; [|done]. injection Hc as <- <-. cbn.
  split. { destruct us as [|x us]; [done|]. exfalso. revert Ed. eapply edit_refuses_users, yaml_agrees; [exact Hr|done]. }
  split; [done|]. split; [done|]. split; [exists (uc_password_hash u); destruct u; cbn in *; by subst|].
  split; [done|]. by exists candidate.
Qed.

Lemma setup_commit_none w user hash file busy committed reply w' :
  setup_commit w user hash file busy committed = (inl reply, w') ->
  w_auth w' = w_auth w /\ w_sessions w' = w_sessions w /\ w_config w' = w_config w.
Proof.
  unfold setup_commit. destruct hash as [h|]; [|by intros [= _ <-]].
  unfold create_initial_user_v2. destruct busy; [by intros [= _ <-]|].
  destruct (negb (bool_decide (file = _))); [by intros [= _ <-]|].
  destruct (create_initial_webui_user _ _ _) as [cand|[]]; [|by intros [= _ <-]..].
  destruct (resolve_users cand) as [[|u [|]]|]; [by intros [= _ <-]| |by intros [= _ <-]..].
  destruct (negb _); [by intros [= _ <-]|]. destruct committed; by intros [= _ <-].
Qed.

(** Operations on sessions other than a login. *)
Lemma users_inv_quiet w fl U w' U' :
  users_inv (mk_system w fl U) -> w_auth w' = w_auth w -> w_config w' = w_config w ->
  (w_sessions w' = w_sessions w \/
   exists op, w_sessions w' = session_exec order rfc3339 op (w_sessions w) /\ forall u n t a b, op <> OIssue u n t a b) ->
  users_inv (mk_system w' fl U').
Proof.
  intros I Ea Ec Hs. apply (users_inv_frame w fl U); auto. pose proof (ui_sessions _ I) as Ha. cbn in Ha.
  destruct Hs as [->|(op & -> & Hop)]; [done|]. apply session_exec_users; [|done]. intros ? ? ? ? ? E. by destruct (Hop _ _ _ _ _ E).
Qed.

Lemma no_overlap fl :
  forallb (fun f => negb (overlaps_reload f)) fl = true -> logins fl = [] /\ setups fl = [].
Proof.
  induction fl as [|f fl IH]; [done|]. cbn. intros [H1 H2]%andb_true_iff. destruct (IH H2) as [E1 E2].
  rewrite logins_cons, setups_cons, E1, E2. by destruct f.
Qed.

Lemma revoke_all_data s : st_data (revoke_all s) = mk_data ∅ ∅ ∅.
Proof. unfold revoke_all. by destruct (_ || _). Qed.

(** A reload revokes all sessions if the users have changed, and no session otherwise. *)
Lemma reconcile_sessions y source users :
  users_inv y ->
  let w := reconcile_users (with_config (sy_web y) (mk_config source (cf_self_written (w_config (sy_web y))))) users
             (deterministic_hash source) in
  au_users (w_auth w) = project_users users /\
  st_data (w_sessions w) = (if decide (au_users (w_auth (sy_web y)) = project_users users)
                            then st_data (w_sessions (sy_web y)) else mk_data ∅ ∅ ∅).
Proof.
  intros I w. unfold w, reconcile_users, observe_reload. cbn [with_config w_config cf_self_written cf_source].
  rewrite bool_decide_eq_false_2.
  2: { intros E. destruct (ui_self _ I _ E) as [l El']. apply (f_equal String.length) in El'. revert El'.
       rewrite sha256_length, deterministic_hash_length. lia. }
  unfold auth_replace. cbn [w_auth with_config].
  case_bool_decide as Eu; cbn [andb negb]; destruct (decide _) as [Ed|Ed]; try done.
  split; [done|]. apply revoke_all_data.
Qed.

Lemma reload_inv w fl U source users :
  users_inv (mk_system w fl U) -> (true = true -> forallb (fun f => negb (overlaps_reload f)) fl = true) ->
  resolve_users source = Some users ->
  users_inv (mk_system (reconcile_users (with_config w (mk_config source (cf_self_written (w_config w)))) users
                          (deterministic_hash source)) fl U).
Proof.
  intros [S L (us & R & Y) F] Hs Hu. cbn in *. destruct (no_overlap fl (Hs eq_refl)) as [El Es].
  unfold reconcile_users, observe_reload. cbn [with_config w_config cf_self_written cf_source].
  rewrite bool_decide_eq_false_2.
  2: { intros E. destruct (F _ E) as [l El']. apply (f_equal String.length) in El'. revert El'.
       rewrite sha256_length, deterministic_hash_length. lia. }
  assert (Hl : forall (P : string -> Prop) u, u ∈ logins fl -> P u)
    by (intros P u H; rewrite El in H; by apply not_elem_of_nil in H).
  unfold auth_replace. cbn [w_auth with_config]. case_bool_decide as Eu; cbn [andb negb]; split; cbn; try apply Hl.
  - exact S.
  - exists users. by rewrite Es.
  - done.
  - apply revoke_all_users.
  - exists users. by rewrite Es.
  - done.
Qed.

Lemma users_step y z : users_inv y -> web_step true y z -> users_inv z.
Proof.
  intros I Hstep. destruct Hstep as [w fl U headers payload peer now reply w' H|w fl U headers payload peer now user w' H
    |w f1 f2 U user now utc r1 r2 reply w' Hf H|w fl U headers payload peer now reply w' H
    |w fl U headers payload peer now user w' H|w f1 f2 U user hash file busy committed reply w' H
    |w f1 f2 U user hash file busy committed users w' H|w f1 f2 U users user now utc r1 r2 reply w' Hf H
    |w fl U headers now|w fl U headers now utc rnd Hf|w fl U headers now|w fl U headers now utc rnd Hf
    |w fl U query headers protocols now|w fl U session|w fl U session now|w fl U source users Hs Hu|w fl U].
  - apply login_check_store in H as (Hs & Ha & Hc). apply (users_inv_quiet w fl U); auto.
  - pose proof (login_check_member _ _ _ _ _ _ _ H) as Hm. apply login_check_store in H as (Hs & Ha & Hc).
    apply (users_inv_frame w fl U); auto; [rewrite Hs; apply (ui_sessions _ I)|].
    intros u. rewrite logins_cons. set_solver.
  - pose proof (issue_session_store _ _ _ _ _ _ _ _ _ H) as (_ & Ha & Hc).
    apply (users_inv_frame w (f1 ++ FLogin user :: f2) U); auto.
    + eapply issue_users; [exact H| |apply (ui_sessions _ I)]. apply (ui_login _ I). cbn. rewrite logins_app, logins_cons. set_solver.
    + intros u. rewrite !logins_app, logins_cons. set_solver.
    + by rewrite !setups_app, setups_cons.
  - apply setup_check_store in H as (Hs & Ha & Hc). apply (users_inv_quiet w fl U); auto.
  - apply setup_check_store in H as (Hs & Ha & Hc). apply (users_inv_frame w fl U); auto.
    rewrite Hs. apply (ui_sessions _ I).
  - apply setup_commit_none in H as (Ha & Hs & Hc). apply (users_inv_frame w (f1 ++ FHash user :: f2) U); auto.
    + rewrite Hs. apply (ui_sessions _ I).
    + intros u. rewrite !logins_app, logins_cons. auto.
    + by rewrite !setups_app, setups_cons.
  - destruct I as [S L (us & R & Y) F]. cbn in *. pose proof (setup_commit_some _ _ _ _ _ _ _ _ us H R)
      as (-> & Ha & Hs & (h & ->) & R' & (l & Hsw)).
    rewrite setups_app, setups_cons in Y. cbn [app] in Y. rewrite <-setups_app in Y.
    destruct (setups (f1 ++ f2)) as [|[us' u'] [|]] eqn:Es; [|destruct Y as (_ & <- & h' & E); done|done].
    split; cbn; rewrite ?Ha, ?Hs; try done.
    + intros u. rewrite logins_cons. intros Hx. apply L. rewrite logins_app, logins_cons. cbn in *. by rewrite logins_app in Hx.
    + exists [mk_user user h]. split; [done|]. rewrite setups_cons, Es.
      split; [done|]. split; [done|]. by exists h.
    + intros fp E. exists l. congruence.
  - destruct I as [S L (us & R & Y) F]. cbn in *. rewrite setups_app, setups_cons in Y.
    destruct (setups f1) as [|x l1] eqn:E1; cbn in Y; [|destruct x; destruct l1; done].
    destruct (setups f2) as [|x l2] eqn:E2; cbn in Y; [|done].
    destruct Y as (Hno & -> & h & ->). pose proof (issue_session_store _ _ _ _ _ _ _ _ _ H) as (_ & Ha & Hc).
    assert (Hau : au_users (w_auth w') = [mk_user user h]).
    { rewrite Ha. unfold with_auth, auth_replace, project_users. cbn. rewrite Hno. by destruct (bool_decide _) eqn:E; [apply bool_decide_eq_true in E|]. }
    unfold user_names in L, S. rewrite Hno in L, S. split; cbn.
    + unfold user_names. rewrite Hau. eapply issue_users; [exact H|cbn; set_solver|]. intros x r Hr. cbn in Hr.
      destruct (not_elem_of_nil (sr_username r)). by apply (S x r).
    + intros u Hx. destruct (not_elem_of_nil u). apply L. rewrite logins_app, logins_cons. rewrite logins_app in Hx. set_solver.
    + exists [mk_user user h]. rewrite Hc. split; [done|]. rewrite setups_app, E1, E2. done.
    + rewrite Hc. apply F.
  - apply (users_inv_quiet w fl U); auto; unfold post_logout; destruct (origin_is_allowed _ _); cbn [negb]; auto;
      destruct (session_token headers) as [token|]; auto. right. by exists (ORevoke token now).
  - apply (users_inv_quiet w fl U); auto; unfold post_refresh; destruct (origin_is_allowed _ _); cbn [negb]; auto;
      destruct (refresh_token _ _ _) as [token|]; auto; destruct (refresh_at _ _ _ _ _ _) as [res d] eqn:E; auto.
    right. exists (ORefresh token now utc rnd). cbn [session_exec]. by rewrite E.
  - apply (users_inv_quiet w fl U); auto; unfold require_session; destruct (session_token headers) as [token|]; auto;
      destruct (lookup_session _ _ _ _) as [res d] eqn:E; auto.
    right. exists (OLookup token now). cbn [session_exec]. by rewrite E.
  - apply (users_inv_quiet w fl U); auto; unfold issue_ticket; destruct (origin_is_allowed _ _); cbn [negb]; auto;
      destruct (session_token headers) as [token|]; auto; destruct (issue_websocket_ticket _ _ _ _ _) as [res d] eqn:E; auto.
    right. exists (OTicket token now utc rnd). cbn [session_exec]. by rewrite E.
  - assert (G : let w' := (upgrade w query headers protocols now).2 in
       w_auth w' = w_auth w /\ w_config w' = w_config w /\ (w_sessions w' = w_sessions w \/
         exists t, w_sessions w' = session_exec order rfc3339 (OConsume t now) (w_sessions w))).
    { unfold upgrade. destruct (_ || _); [auto|]. destruct (ticket_from_protocols protocols) as [ticket|]; [|auto].
      destruct (consume_websocket_ticket _ _ _) as [res d] eqn:E.
      assert (Hx : set_data (w_sessions w) d = session_exec order rfc3339 (OConsume ticket now) (w_sessions w))
        by (cbn [session_exec]; by rewrite E).
      destruct res as [[session|]|e]; [destruct (try_acquire_connection _ _) as [[|] c]|..]; cbn; eauto. }
    destruct G as (Ha & Hc & Hs). apply (users_inv_quiet w fl U); auto.
    destruct Hs as [Hs|[t Hs]]; [by left|]. right. by exists (OConsume t now).
  - apply (users_inv_quiet w fl U); auto.
  - apply (users_inv_quiet w fl U); auto; unfold session_is_valid;
      destruct (validate_websocket_session _ _ _) as [res d] eqn:E; auto.
    right. exists (OValidate session now). cbn [session_exec]. by rewrite E.
  - by apply reload_inv.
  - apply (users_inv_frame w fl U); auto. apply revoke_all_users.
Qed.

Lemma users_run y z : rtc (web_step true) y z -> users_inv y -> users_inv z.
Proof. induction 1 as [|x y z H _ IH]; [done|]. intros I. by apply IH, (users_step x). Qed.

(** C17: No session outlives its user: as long as no user change falls between the password
    check of a login, or the commit of a setup, and the issue of its session, every
    session belongs to a user the service knows. A reload that changes the users, their
    names or password hashes, ends every session, with its access tokens and tickets; one
    that does not, in particular the reload after the service's own first write, ends
    none. The documentation says that this write is recognised by its fingerprint; the
    code never recognises it, since it compares digests of different kinds, and the
    session of the setup survives because the users are already in force. *)
Theorem sessions_of_current_users auth config origin secure users z :
  resolve_users (cf_source config) = Some users -> au_users auth = project_users users ->
  cf_self_written config = None ->
  rtc (web_step true) (web_init auth config origin secure) z ->
  (forall x r, sd_sessions (st_data (w_sessions (sy_web z))) !! x = Some r ->
     sr_username r ∈ user_names (w_auth (sy_web z))) /\
  forall source users', resolve_users source = Some users' ->
    let w := reconcile_users (with_config (sy_web z) (mk_config source (cf_self_written (w_config (sy_web z)))))
               users' (deterministic_hash source) in
    au_users (w_auth w) = project_users users' /\
    st_data (w_sessions w) = (if decide (au_users (w_auth (sy_web z)) = project_users users')
                              then st_data (w_sessions (sy_web z)) else mk_data ∅ ∅ ∅).
Proof.
  intros Hr Ha Hw Hrun. assert (I : users_inv z).
  2: { split; [apply (ui_sessions z I)|]. intros source users' _. by apply reconcile_sessions. }
  apply (users_run _ z Hrun). split; cbn.
  - intros x r H. cbn in H. by rewrite lookup_empty in H.
  - intros u H. by apply not_elem_of_nil in H.
  - by exists users.
  - congruence.
Qed.

End Users.

(** ** Logout *)

Context (order_perm : forall m, order m ≡ₚ map_to_list m).

Lemma web_run_gone strict y z t :
  rtc (web_step strict) y z -> t ∈ sy_drawn y -> gone (st_data (w_sessions (sy_web y))) t ->
  gone (st_data (w_sessions (sy_web z))) t.
Proof. intros H. exact (gone_run order rfc3339 order_perm _ _ t (web_run_store strict y z H)). Qed.

(** C18: A logout is final: after a logout with a bearer token the service accepts, no
    credential of that session is accepted again, whatever logins, refreshes and reloads
    follow; a protected request that carries one of them is answered 401. *)
Theorem logout_final strict auth config origin secure y headers token view now z t :
  rtc (web_step strict) (web_init auth config origin secure) y ->
  origin_is_allowed headers (w_origin (sy_web y)) = true -> session_token headers = Some token ->
  (require_session (sy_web y) headers now).1 = RNext view ->
  rtc (web_step strict) (mk_system (post_logout (sy_web y) headers now).2 (sy_inflight y) (sy_drawn y)) z ->
  forall a, sd_accesses (st_data (w_sessions (sy_web y))) !! token = Some a ->
  credential (st_data (w_sessions (sy_web y))) (ar_session a) t ->
  token_refused rfc3339 (st_data (w_sessions (sy_web z))) t /\
  forall headers' now', session_token headers' = Some t ->
    (require_session (sy_web z) headers' now').1 = RError EC_AuthRequired.
Proof.
  intros Hrun Ho Ht Hreq Hz a Ha Hc. set (s := w_sessions (sy_web y)) in *.
  pose proof (session_run_inv order rfc3339 order_perm _ _ (web_run_store strict _ _ Hrun) (session_inv_new ∅ secure)) as I.
  cbn in I. fold s in I.
  unfold require_session in Hreq. rewrite Ht in Hreq. unfold lookup_session in Hreq.
  destruct (sd_accesses (purge_expired (st_data s) now) !! token) as [a'|] eqn:Ea; [|by fold s in Hreq; rewrite Ea in Hreq].
  assert (a' = a) as ->.
  { apply map_lookup_filter_Some in Ea as [Ea _]. fold s in Ha. congruence. }
  destruct (si_access _ _ I token a Ha) as (_ & _ & r & Hr & _).
  assert (Hg : gone (st_data (w_sessions (post_logout (sy_web y) headers now).2)) t).
  { apply (ended_gone (sy_drawn y) (sy_drawn y) [] (st_data s) _ (ar_session a) t I); [| |apply not_elem_of_nil|by exists r| |done];
      unfold post_logout; rewrite Ho, Ht; cbn [negb snd with_sessions w_sessions]; fold s.
    - pose proof (session_exec_inv order rfc3339 order_perm (sy_drawn y) (ORevoke token now) s I) as H. cbn [op_draws list_to_set] in H.
      rewrite (left_id_L ∅ (∪)) in H. apply H. split; [constructor|]. intros x Hx. by apply not_elem_of_nil in Hx.
    - apply (session_exec_origin order rfc3339 order_perm (ORevoke token now) s).
    - unfold revoke. rewrite Ea. cbn. apply lookup_delete_eq. }
  pose proof (credential_drawn (sy_drawn y) _ _ t I (ex_intro _ r Hr) Hc) as Hd.
  pose proof (web_run_gone strict _ z t Hz Hd Hg) as Hgz.
  pose proof (gone_refused rfc3339 _ t Hgz) as Hrf. split; [done|].
  intros headers' now' Ht'. unfold require_session. rewrite Ht'.
  destruct (Hrf now' 0 None) as (Hl & _). by destruct (lookup_session _ _ _ _) as [res d]; cbn in Hl; subst res.
Qed.

End Handlers.

(** ** Attempts are limited *)

Section Limiter.
Context (limits : string -> nat).

(** A call of the limiter; the log holds the attempts that were allowed. *)
Definition attempt_call (st : Attempts * list (string * Instant)) (call : string * Instant) :
    Attempts * list (string * Instant) :=
  let '(ok, m) := allow st.1 call.1 call.2 (limits call.1) in
  (m, if ok then st.2 ++ [call] else st.2).
Definition attempt_run (calls : list (string * Instant)) : Attempts * list (string * Instant) :=
  foldl attempt_call (∅, []) calls.

Definition times (k : string) (log : list (string * Instant)) : list Instant := snd <$> filter (fun c => c.1 = k) log.
Definition recent (n : Instant) (l : list Instant) : list Instant := filter (fun t => n - t < ATTEMPT_WINDOW) l.
Definition values_of (m : Attempts) (k : string) : list Instant := default [] (m !! k).

Record limiter_inv (n : Instant) (st : Attempts * list (string * Instant)) : Prop := {
  li_keys : (size st.1 <= MAX_ATTEMPT_KEYS)%nat;
  li_bound k : (length (values_of st.1 k) <= limits k)%nat;
  li_log k : recent n (times k st.2) = recent n (values_of st.1 k);
  li_past c : c ∈ st.2 -> c.2 <= n
}.

Lemma retained_values now m k : values_of (retain_attempts now m) k = recent now (values_of m k).
Proof.
  unfold values_of, retain_attempts. rewrite lookup_omap. destruct (m !! k) as [l|]; [|done].
  cbn [mbind option_bind default from_option id].
  assert (E : filter (fun v => duration_since now v < ATTEMPT_WINDOW) l = recent now l).
  { apply list_filter_iff. intros v. unfold duration_since, sat_sub, ATTEMPT_WINDOW, from_secs, nanos_per_sec. lia. }
  rewrite E. by destruct (recent now l).
Qed.

Lemma recent_recent n n' l : n <= n' -> recent n' (recent n l) = recent n' l.
Proof.
  intros H. unfold recent. rewrite list_filter_filter. apply list_filter_iff. intros t. lia.
Qed.

Lemma retained_size now m : (size (retain_attempts now m) <= size m)%nat.
Proof.
  rewrite <-!(size_dom (D := gset string)). apply subseteq_size. intros k. rewrite !elem_of_dom.
  unfold retain_attempts. rewrite lookup_omap. destruct (m !! k); [by eexists|by intros [? ?]].
Qed.

Lemma values_insert m k k' l : values_of (<[k := l]> m) k' = if decide (k = k') then l else values_of m k'.
Proof.
  unfold values_of. destruct (decide (k = k')) as [<-|E]; [by rewrite lookup_insert_eq|by rewrite lookup_insert_ne].
Qed.

Lemma length_recent n l : (length (recent n l) <= length l)%nat.
Proof. apply length_filter. Qed.

Lemma attempt_inv n st call : limiter_inv n st -> n <= call.2 -> limiter_inv call.2 (attempt_call st call).
Proof.
  intros [K B L P] Hn. destruct call as [key now]. cbn in Hn. unfold attempt_call, allow. cbn [fst snd].
  set (m := retain_attempts now st.1).
  assert (Hv : forall k, values_of m k = recent now (values_of st.1 k)) by (intros k; apply retained_values).
  assert (Hs : (size m <= MAX_ATTEMPT_KEYS)%nat) by (pose proof (retained_size now st.1); unfold m; lia).
  assert (Hb : forall k, (length (values_of m k) <= limits k)%nat).
  { intros k. rewrite Hv. pose proof (length_recent now (values_of st.1 k)). specialize (B k). lia. }
  assert (Hl : forall k, recent now (times k st.2) = recent now (values_of m k)).
  { intros k. rewrite Hv, <-(recent_recent n now (times k st.2)), L, !recent_recent by lia. done. }
  assert (Hp : forall c, c ∈ st.2 -> c.2 <= now) by (intros c Hc; specialize (P c Hc); lia).
  destruct ((MAX_ATTEMPT_KEYS <=? size m)%nat && negb (bool_decide (is_Some (m !! key)))) eqn:Hfull; [by split|].
  assert (Hsi : forall l, (size (<[key := l]> m) <= MAX_ATTEMPT_KEYS)%nat).
  { intros l. destruct (m !! key) as [v|] eqn:E; [by rewrite map_size_insert_Some by eauto|].
    rewrite map_size_insert_None by done. apply andb_false_iff in Hfull as [H|H]; [apply Nat.leb_gt in H; lia|].
    rewrite bool_decide_eq_false_2 in H by (by intros [? ?]). done. }
  fold (values_of m key). destruct (Nat.leb_spec (limits key) (length (values_of m key))) as [Hle|Hlt].
  - split; cbn [fst snd]; [apply Hsi| | |exact Hp]; intros k; rewrite values_insert;
      (destruct (decide (key = k)) as [<-|]; [|by auto]); [apply Hb|apply Hl].
  - split; cbn [fst snd]; [apply Hsi|..].
    + intros k. rewrite values_insert. destruct (decide (key = k)) as [<-|]; [|done]. rewrite length_app. cbn. lia.
    + intros k. rewrite values_insert. unfold times. rewrite list.filter_app, fmap_app. fold (times k st.2).
      destruct (decide (key = k)) as [<-|E].
      * rewrite filter_cons_True by done. unfold recent. rewrite !list.filter_app. fold (recent now (times key st.2)). by rewrite Hl.
      * rewrite filter_cons_False by done. cbn. by rewrite app_nil_r.
    + intros c [Hc|Hc]%elem_of_app; [by apply Hp|]. apply list_elem_of_singleton in Hc as ->. cbn. lia.
Qed.

Lemma limiter_window n st k T :
  limiter_inv n st -> n <= T ->
  (length (filter (fun t => (T - ATTEMPT_WINDOW < t <= T)%Z) (times k st.2)) <= limits k)%nat.
Proof.
  intros [K B L P] Hn.
  replace (filter (fun t => T - ATTEMPT_WINDOW < t <= T) (times k st.2)) with (recent T (times k st.2)).
  - rewrite <-(recent_recent n T), L, recent_recent by done. pose proof (length_recent T (values_of st.1 k)).
    specialize (B k). lia.
  - assert (Hall : forall t, t ∈ times k st.2 -> t <= T).
    { intros t Ht. apply list_elem_of_fmap in Ht as (c & -> & Hc). apply list_elem_of_filter in Hc as [_ Hc].
      specialize (P c Hc). lia. }
    unfold recent. induction (times k st.2) as [|t l IH]; [done|].
    rewrite !filter_cons. rewrite IH by (intros; apply Hall; by apply elem_of_cons; right).
    specialize (Hall t ltac:(apply elem_of_cons; by left)).
    destruct (decide (T - t < ATTEMPT_WINDOW)), (decide (T - ATTEMPT_WINDOW < t <= T)); done || lia.
Qed.

(** At most [limits k] attempts of a key (10 logins or 5 setups of one address and user
    name) are allowed in any minute, however calls for other keys come between, and the
    limiter keeps at most 4,096 keys. *)
Theorem attempts_limited calls k T :
  StronglySorted Z.le (snd <$> calls) ->
  (length (filter (fun t => (T - ATTEMPT_WINDOW < t <= T)%Z) (times k (attempt_run calls).2)) <= limits k)%nat /\
  (size (attempt_run calls).1 <= MAX_ATTEMPT_KEYS)%nat.
Proof.
  assert (G : forall calls, StronglySorted Z.le (snd <$> calls) ->
    (forall n, (forall c, c ∈ calls -> c.2 <= n) -> limiter_inv n (attempt_run calls)) /\
    forall k T, (length (filter (fun t => (T - ATTEMPT_WINDOW < t <= T)%Z) (times k (attempt_run calls).2)) <= limits k)%nat).
  { clear calls k T. intros calls. induction calls as [|call calls IH] using rev_ind; intros Hs.
    - assert (I : forall n, limiter_inv n (attempt_run [])).
      { intros n. split; cbn [fst snd attempt_run foldl].
        - rewrite map_size_empty. lia.
        - intros k. unfold values_of. rewrite lookup_empty. cbn. lia.
        - intros k. unfold values_of. by rewrite lookup_empty.
        - intros c Hc. by apply not_elem_of_nil in Hc. }
      split; [by intros n _|]. intros k T. apply (limiter_window T); [apply I|lia].
    - rewrite fmap_app in Hs. apply StronglySorted_app in Hs as (Hle & H1 & _).
      destruct (IH H1) as [IHi IHw]. unfold attempt_run. rewrite foldl_app. cbn [foldl]. fold (attempt_run calls).
      assert (Hc : forall c, c ∈ calls -> c.2 <= call.2).
      { intros c Hin. apply Hle; [by apply list_elem_of_fmap_2|cbn; set_solver]. }
      assert (I : limiter_inv call.2 (attempt_call (attempt_run calls) call)) by (eapply attempt_inv; [by apply IHi|lia]).
      split.
      + intros n Hn. assert (Hcn : call.2 <= n) by (apply Hn; set_solver). destruct I as [K B L P]. split; [done|done| |].
        * intros k. rewrite <-(recent_recent call.2 n), L, recent_recent by done. done.
        * intros c Hin. specialize (P c Hin). lia.
      + intros k T. destruct (Z.le_gt_cases call.2 T) as [H|H]; [by apply (limiter_window call.2)|].
        unfold attempt_call. destruct (allow _ _ _ _) as [ok m']. destruct ok; [|apply IHw].
        unfold times. cbn [snd]. rewrite list.filter_app, fmap_app, list.filter_app, length_app. specialize (IHw k T).
        unfold times in IHw. assert (length (filter (fun t => (T - ATTEMPT_WINDOW < t <= T)%Z)
          (snd <$> filter (fun c => c.1 = k) [call])) = 0%nat); [|lia].
        rewrite filter_cons. destruct (decide (call.1 = k)); [|done]. cbn [fmap list_fmap filter].
        rewrite filter_cons_False by lia. done. }
  intros Hs. destruct (G calls Hs) as [Gi Gw]. split; [apply Gw|].
  apply (li_keys (foldr Z.max 0 (snd <$> calls))). apply Gi. clear. induction calls as [|c l IH]; intros x Hx.
  - by apply not_elem_of_nil in Hx.
  - cbn. apply elem_of_cons in Hx as [->|Hx]; [lia|]. specialize (IH x Hx). cbn in IH. lia.
Qed.

End Limiter.

(** ** Connections are limited *)

(** Permits given and not yet dropped, by session. *)
Inductive permit_step : ConnectionState * list string -> ConnectionState * list string -> Prop :=
| ps_acquire c ps session c' :
    try_acquire_connection c session = (true, c') -> permit_step (c, ps) (c', session :: ps)
| ps_refuse c ps session c' :
    try_acquire_connection c session = (false, c') -> permit_step (c, ps) (c', ps)
| ps_release c p1 p2 session :
    permit_step (c, p1 ++ session :: p2) (release_permit c session, p1 ++ p2).

Definition permits_of (session : string) (ps : list string) : Z := Z.of_nat (length (filter (fun p => p = session) ps)).

Record permit_inv (x : ConnectionState * list string) : Prop := {
  pi_total : cn_total x.1 = Z.of_nat (length x.2);
  pi_session s : default 0 (cn_per_session x.1 !! s) = permits_of s x.2;
  pi_positive s v : cn_per_session x.1 !! s = Some v -> 0 < v;
  pi_bound : cn_total x.1 <= WS_CONNECTION_CAPACITY;
  pi_bound_session s : permits_of s x.2 <= WS_CONNECTIONS_PER_SESSION
}.

Lemma permits_cons s p ps : permits_of s (p :: ps) = (if decide (p = s) then 1 else 0) + permits_of s ps.
Proof. unfold permits_of. rewrite filter_cons. destruct (decide (p = s)); cbn [length]; lia. Qed.

Lemma permits_app s p1 p2 : permits_of s (p1 ++ p2) = permits_of s p1 + permits_of s p2.
Proof. unfold permits_of. rewrite list.filter_app, length_app. lia. Qed.

Lemma permits_nonneg s ps : 0 <= permits_of s ps.
Proof. unfold permits_of. lia. Qed.

Lemma permit_step_inv x y : permit_inv x -> permit_step x y -> permit_inv y.
Proof.
  intros I Hstep. destruct Hstep as [c ps session c' H|c ps session c' H|c p1 p2 session]; destruct I as [T S P B Bs]; cbn [fst snd] in *.
  - unfold try_acquire_connection in H. destruct (_ || _) eqn:E; [done|]. injection H as <-.
    apply orb_false_iff in E as [E1 E2]. apply Z.leb_gt in E1, E2. rewrite S in E2. split; cbn [fst snd cn_total cn_per_session].
    + cbn [length]. lia.
    + intros s. rewrite permits_cons. destruct (decide (session = s)) as [<-|N].
      * rewrite lookup_insert_eq. cbn. rewrite S. lia.
      * rewrite lookup_insert_ne by done. rewrite S. lia.
    + intros s v. destruct (decide (session = s)) as [<-|N].
      * rewrite lookup_insert_eq, S. intros [= <-]. pose proof (permits_nonneg session ps). lia.
      * rewrite lookup_insert_ne by done. apply P.
    + lia.
    + intros s. rewrite permits_cons. specialize (Bs s). destruct (decide (session = s)) as [<-|N]; lia.
  - unfold try_acquire_connection in H. destruct (_ || _); [|done]. injection H as <-. by split.
  - assert (Hp : forall s, permits_of s (p1 ++ session :: p2) = (if decide (session = s) then 1 else 0) + permits_of s (p1 ++ p2))
      by (intros s; rewrite !permits_app, permits_cons; lia).
    assert (Hpos : exists v, cn_per_session c !! session = Some v /\ v = 1 + permits_of session (p1 ++ p2)).
    { pose proof (S session) as E. rewrite Hp, decide_True in E by done. pose proof (permits_nonneg session (p1 ++ p2)).
      destruct (cn_per_session c !! session) as [v|]; cbn in E; [by exists v|lia]. }
    destruct Hpos as (v & Hv & Ev). rewrite !length_app in T. cbn [length] in T. unfold release_permit. rewrite Hv.
    pose proof (permits_nonneg session (p1 ++ p2)) as Hnn. assert (sat_sub v 1 = v - 1) as -> by (unfold sat_sub; lia).
    assert (Et : sat_sub (cn_total c) 1 = Z.of_nat (length (p1 ++ p2))) by (unfold sat_sub; rewrite length_app; lia).
    split; cbn [fst snd cn_total cn_per_session].
    + exact Et.
    + intros s. specialize (S s). rewrite Hp in S. destruct (Z.eqb_spec (v - 1) 0) as [E0|E0], (decide (session = s)) as [<-|N].
      * rewrite lookup_delete_eq. cbn. lia.
      * rewrite lookup_delete_ne by done. lia.
      * rewrite lookup_insert_eq. cbn. lia.
      * rewrite lookup_insert_ne by done. lia.
    + intros s w. destruct (Z.eqb_spec (v - 1) 0) as [E0|E0].
      * intros Hw%lookup_delete_Some. by apply (P s), Hw.
      * destruct (decide (session = s)) as [<-|N]; [rewrite lookup_insert_eq; intros [= <-]; lia|].
        rewrite lookup_insert_ne by done. apply P.
    + rewrite Et, length_app. lia.
    + intros s. specialize (Bs s). rewrite Hp in Bs. destruct (decide (session = s)); lia.
Qed.

(** The permit counters are the numbers of open connections: never more than 32, nor
    more than 4 of one session, and all of them come back when connections close. *)
Theorem connections_bounded c ps :
  rtc permit_step (mk_conns 0 ∅, []) (c, ps) ->
  cn_total c = Z.of_nat (length ps) /\ (forall s, default 0 (cn_per_session c !! s) = permits_of s ps) /\
  Z.of_nat (length ps) <= 32 /\ (forall s, permits_of s ps <= 4) /\ (ps = [] -> c = mk_conns 0 ∅).
Proof.
  intros H. assert (I : permit_inv (c, ps)).
  { revert H. apply (rtc_ind_r (fun x => permit_inv x)).
    - by split.
    - intros x y _ Hs I. by eapply permit_step_inv. }
  destruct I as [T S P B Bs]. cbn [fst snd] in *. split; [done|]. split; [done|]. split; [rewrite <-T; exact B|].
  split; [exact Bs|]. intros ->. destruct c as [total per]. cbn in *. f_equal; [done|].
  apply map_eq. intros s. rewrite lookup_empty. destruct (per !! s) as [v|] eqn:E; [|done].
  specialize (S s). specialize (P s v E). rewrite E in S. cbn in S. unfold permits_of in S. cbn in S. lia.
Qed.

(** ** Runs *)

Module WebExamples.

(** A password verifies when the hash ends with it. *)
#[local] Instance crypto : PasswordCrypto := {
  argon2_parses := fun _ => true;
  argon2_verify := fun hash password => bool_decide (str_bytes hash = str_bytes "$argon2id$" ++ password);
  bcrypt_verify := fun _ _ => None
}.
Definition digest (_ : list byte) : string := String.string_of_list_byte (repeat Byte.x30 64).
Definition no_cookies (_ : string) : list (option (string * string)) := [].
Definition plain_cookie (_ : SessionStore) (t : string) : option string := Some t.
Definition text (_ : Z) : option string := Some "2030-01-01T00:00:00Z".
Definition alice : UserCredential := mk_user "alice" "$argon2id$secret".
Definition bob : UserCredential := mk_user "bob" "$argon2id$hidden".
(** Sources: [empty_users] without users, "a" with Alice, "b" with Bob, "c" with Alice
    under another password. *)
Definition users_in (source : list byte) : option (list UserCredential) :=
  if bool_decide (source = empty_users) then Some []
  else if bool_decide (source = str_bytes "a") then Some [alice]
  else if bool_decide (source = str_bytes "b") then Some [bob]
  else if bool_decide (source = str_bytes "c") then Some [mk_user "alice" "$argon2id$changed"] else None.
(** One document, whose [users] list is empty in [empty_users] only. *)
#[local] Instance yaml : YamlEdit := {
  YDocument := list byte; YMapping := list byte; YSequence := list byte;
  y_document := Some; y_as_mapping := Some; y_count := fun _ _ => 1%nat;
  y_get_mapping := fun s _ => Some s; y_get_sequence := fun s _ => Some s; y_contains_key := fun _ _ => true;
  y_is_empty := fun s => bool_decide (s = empty_users);
  y_mapping_range := fun s => (0%nat, length s); y_sequence_range := fun _ => (16%nat, 18%nat)
}.

Lemma edit_agrees source users : users_in source = Some users -> users <> [] -> has_users source.
Proof.
  intros H Hne document root webui [= <-] [= <-] [= <-]. cbn [y_get_sequence yaml y_is_empty].
  apply bool_decide_eq_false_2. intros ->. unfold users_in in H. rewrite bool_decide_eq_true_2 in H by done.
  by injection H as <-.
Qed.

Abbreviation step strict := (web_step digest no_cookies plain_cookie map_to_list text users_in strict).

Definition token (b : byte) : string := String.string_of_list_byte (repeat b 43).
Definition session_1 : string := token Byte.x61.
Definition access_1 : string := token Byte.x62.
Definition headers : HeaderMap :=
  [("origin", Some "https://dns.example"); ("authorization", Some (String.append "Bearer " access_1))].

Definition start : System :=
  web_init (mk_auth [alice] "$argon2id$dummy") (mk_config (str_bytes "a") None) "https://dns.example" true.
Definition credentials : Payload := Some (lit "alice", str_bytes "secret").
Definition checked : Web := (login_check digest (sy_web start) headers credentials "192.0.2.1" 0).2.
Definition logged_in : Web :=
  (issue_session plain_cookie map_to_list text checked "alice" 200 0 0 (Some session_1) (Some access_1)).2.
Definition drawn : gset string := list_to_set [session_1; access_1] ∪ ∅.

Lemma login_steps strict : rtc (step strict) start (mk_system logged_in [] drawn).
Proof.
  eapply rtc_l; [apply (ws_login_checked _ _ _ _ _ _ strict (sy_web start) [] ∅ headers credentials "192.0.2.1" 0 "alice" checked);
                 vm_compute; reflexivity|].
  eapply rtc_l; [|apply rtc_refl].
  eapply (ws_login_finish _ _ _ _ _ _ strict checked [] [] ∅ "alice" 0 0 (Some session_1) (Some access_1)).
  - split; [apply (bool_decide_unpack _); vm_compute; exact I|]. intros t _. set_solver.
  - apply surjective_pairing.
Qed.

(** Alice is logged in, then her password is changed. *)
Definition alice_in : System := mk_system logged_in [] drawn.
Definition changed_users : list UserCredential := [mk_user "alice" "$argon2id$changed"].

Lemma sessions_of_current_users_witness :
  (exists r, sd_sessions (st_data (w_sessions (sy_web alice_in))) !! session_1 = Some r /\
     sr_username r ∈ user_names (w_auth (sy_web alice_in))) /\
  st_data (w_sessions (reconcile_users (with_config (sy_web alice_in)
    (mk_config (str_bytes "c") (cf_self_written (w_config (sy_web alice_in)))))
    changed_users (deterministic_hash (str_bytes "c")))) = mk_data ∅ ∅ ∅.
Proof.
  destruct (sessions_of_current_users digest no_cookies plain_cookie map_to_list text users_in
    (fun l => eq_refl) edit_agrees (mk_auth [alice] "$argon2id$dummy") (mk_config (str_bytes "a") None)
    "https://dns.example" true [alice] alice_in eq_refl eq_refl eq_refl
    (login_steps true)) as [H1 H2].
  split.
  - eexists. split; [vm_compute; reflexivity|]. apply (H1 session_1). vm_compute. reflexivity.
  - assert (Hu : users_in (str_bytes "c") = Some changed_users) by (vm_compute; reflexivity).
    assert (Hd : au_users (w_auth (sy_web alice_in)) <> project_users changed_users) by (vm_compute; discriminate).
    destruct (H2 (str_bytes "c") changed_users Hu) as [_ H3].
    rewrite (decide_False _ _ Hd) in H3. exact H3.
Defined.

Definition after_logout : System :=
  mk_system (post_logout (sy_web alice_in) headers (from_secs 60)).2 (sy_inflight alice_in) (sy_drawn alice_in).

Lemma logout_final_witness :
  (require_session text (sy_web alice_in) headers (from_secs 60)).1 = RNext (mk_view "alice" "2030-01-01T00:00:00Z") /\
  token_refused text (st_data (w_sessions (sy_web after_logout))) session_1.
Proof.
  assert (Ho : origin_is_allowed headers (w_origin (sy_web alice_in)) = true) by (vm_compute; reflexivity).
  assert (Ht : session_token headers = Some access_1) by (vm_compute; reflexivity).
  assert (Hr : (require_session text (sy_web alice_in) headers (from_secs 60)).1 =
    RNext (mk_view "alice" "2030-01-01T00:00:00Z")) by (vm_compute; reflexivity).
  assert (Ha : sd_accesses (st_data (w_sessions (sy_web alice_in))) !! access_1 =
    Some (mk_access session_1 (from_secs 3600))) by (vm_compute; reflexivity).
  split; [exact Hr|].
  exact (proj1 (logout_final digest no_cookies plain_cookie map_to_list text users_in (fun m => reflexivity _)
    true (mk_auth [alice] "$argon2id$dummy") (mk_config (str_bytes "a") None) "https://dns.example" true
    alice_in headers access_1 (mk_view "alice" "2030-01-01T00:00:00Z") (from_secs 60)
    after_logout session_1 (login_steps true) Ho Ht Hr (rtc_refl _ _) _ Ha (or_introl eq_refl))).
Defined.

(** A login whose password check comes before a change of the users, and whose session is
    issued after it, leaves a session of a user who is gone. *)
Definition replaced : Web :=
  reconcile_users (with_config checked (mk_config (str_bytes "b") None)) [bob] (deterministic_hash (str_bytes "b")).
Definition stale : Web :=
  (issue_session plain_cookie map_to_list text replaced "alice" 200 0 0 (Some session_1) (Some access_1)).2.

Lemma stale_login_survives :
  rtc (step false) start (mk_system stale [] drawn) /\
  exists r, sd_sessions (st_data (w_sessions stale)) !! session_1 = Some r /\
    sr_username r = "alice" /\ user_names (w_auth stale) = ["bob"].
Proof.
  split; [|eexists; split; [vm_compute; reflexivity|]; by vm_compute].
  eapply rtc_l; [apply (ws_login_checked _ _ _ _ _ _ false (sy_web start) [] ∅ headers credentials "192.0.2.1" 0 "alice" checked);
                 vm_compute; reflexivity|].
  eapply rtc_l; [apply (ws_reload _ _ _ _ _ _ false checked [FLogin "alice"] ∅ (str_bytes "b") [bob]); [done|reflexivity]|].
  eapply rtc_l; [|apply rtc_refl].
  eapply (ws_login_finish _ _ _ _ _ _ false replaced [] [] ∅ "alice" 0 0 (Some session_1) (Some access_1)).
  - split; [apply (bool_decide_unpack _); vm_compute; exact I|]. intros t _. set_solver.
  - apply surjective_pairing.
Qed.

(** Eleven logins in a second: the last is refused, and allowed again a minute later. *)
Definition hammer : list (string * Instant) := repeat ("login:192.0.2.1:0", 0) 11 ++ [("login:192.0.2.1:0", from_secs 60)].

Lemma attempts_limited_witness :
  length (times "login:192.0.2.1:0" (attempt_run (fun _ => 10%nat) hammer).2) = 11%nat /\
  (length (filter (fun t => (from_secs 30 - ATTEMPT_WINDOW < t <= from_secs 30)%Z)
     (times "login:192.0.2.1:0" (attempt_run (fun _ => 10%nat) hammer).2)) <= 10)%nat.
Proof.
  split; [vm_compute; reflexivity|].
  apply (attempts_limited (fun _ => 10%nat) hammer "login:192.0.2.1:0" (from_secs 30)).
  unfold hammer. cbn [repeat app fmap list_fmap snd]. repeat constructor; unfold from_secs, nanos_per_sec; lia.
Defined.

Lemma connections_bounded_witness :
  cn_total (release_permit (try_acquire_connection (mk_conns 0 ∅) "s").2 "s") = 0.
Proof.
  refine (proj1 (connections_bounded _ [] _)).
  eapply rtc_l; [apply (ps_acquire _ [] "s"); apply surjective_pairing|].
  eapply rtc_l; [apply (ps_release _ [] [] "s")|]. apply rtc_refl.
Defined.

End WebExamples.
