(* ===== verification/Wire.v ===== *)
(** * DNS on the wire (src/backend/src/transport/wire.rs, tcp.rs, udp.rs)

    Decoding of queries, error responses built from the header of a malformed query,
    encoding of responses with the limits of the transport, TCP framing, the sequence of
    requests of a TCP connection and the datagrams of a UDP listener. A connection is the
    sequence of chunks that reads return; [read_exact] is the one of
    runtime/system_socket.rs. The encoder of hickory with a size limit is an argument. *)

From S2P Require Import Prelude Message CacheModel Text Net.

Abbreviation SocketAddr := (IpAddr * Z)%type.

(** ** Byte streams *)

(** What successive reads of a socket return; the end of the list is the end of the
    stream. *)
Inductive Chunk :=
| Data (bytes : list byte)
| ReadError (e : PortError).
Abbreviation Stream := (list Chunk).

Inductive TcpReadResult :=
| Complete (bytes : list byte)
| CleanEof.

(** The loop of [SystemTcpConnection::read_exact]: [acc] are the bytes read so far,
    [need] how many are missing. A read of no bytes is the end of the stream. *)
Fixpoint read_loop (s : Stream) (acc : list byte) (need : nat) : result PortError TcpReadResult * Stream :=
  match need with
  | O => (Ok (Complete acc), s)
  | _ =>
    let at_end := if bool_decide (acc = []) then Ok CleanEof
                  else Err (port_error PE_ProtocolViolation "system_socket.tcp_read_exact") in
    match s with
    | [] => (at_end, [])
    | ReadError e :: rest => (Err e, rest)
    | Data [] :: rest => (at_end, rest)
    | Data bytes :: rest =>
      if (length bytes <=? need)%nat then read_loop rest (acc ++ bytes) (need - length bytes)
      else (Ok (Complete (acc ++ take need bytes)), Data (drop need bytes) :: rest)
    end
  end.

Definition read_exact (s : Stream) (length : Z) : result PortError TcpReadResult * Stream :=
  if u16_max <? length then (Err (port_error PE_ResourceExhausted "system_socket.tcp_read_exact"), s)
  else read_loop s [] (Z.to_nat length).

(** ** Messages *)

Definition MAX_DNS_WIRE_BYTES : Z := u16_max.
Definition DNS_HEADER_BYTES : Z := 12.
Definition DNS_RESPONSE_FLAG : Z := 0x8000.
Definition DNS_SAFE_ERROR_FLAG_MASK : Z := 0x7910.
Definition DNS_RCODE_FORMERR : Z := 1.
Definition DNS_RCODE_NOTIMP : Z := 4.

Inductive WireError :=
| WE_Empty
| WE_TooLarge (limit : Z)
| WE_Decode
| WE_InvalidQuery (e : CanonicalMessageError)
| WE_Encode.

(** hickory: [Message::emit] into an encoder with a maximal size, and
    [Message::max_payload]. *)
Inductive EmitError := MaxBufferSizeExceeded | EmitOther.
Class WireOps `{Hickory} := {
  emit : Z -> Message -> result EmitError (list byte);
  max_payload : Message -> Z
}.

Section Wire.
Context {HH : Hickory} {WO : WireOps}.

Record ParsedQuery := mk_parsed { pq_id : Z; pq_query : CanonicalQuery }.

Definition decode_query (bytes : list byte) (max_bytes : Z) : result WireError ParsedQuery :=
  let limit := Z.min max_bytes MAX_DNS_WIRE_BYTES in
  if bool_decide (bytes = []) then Err WE_Empty
  else if limit <? bytes_len bytes then Err (WE_TooLarge limit)
  else
    message ← ok_or WE_Decode (from_vec bytes);
    query ← map_err WE_InvalidQuery (CanonicalQuery_from_message message);
    Ok (mk_parsed (md_id (metadata message)) query).

Definition error_code (e : WireError) : option Z :=
  match e with
  | WE_Decode | WE_InvalidQuery (QuestionCount _) => Some DNS_RCODE_FORMERR
  | WE_InvalidQuery (UnsupportedOpCode _) => Some DNS_RCODE_NOTIMP
  | _ => None
  end.

Definition encode_query_error_response (bytes : list byte) (e : WireError) : option (list byte) :=
  if bytes_len bytes <? DNS_HEADER_BYTES then None
  else
    let request_flags := from_be (take 2 (drop 2 bytes)) in
    if negb (Z.land request_flags DNS_RESPONSE_FLAG =? 0) then None
    else
      response_code ← error_code e;
      let response_flags :=
        Z.lor (Z.lor DNS_RESPONSE_FLAG (Z.land request_flags DNS_SAFE_ERROR_FLAG_MASK)) response_code in
      Some (take 2 bytes ++ be_bytes 2 response_flags ++ repeat Byte.x00 8).

Definition response_message (r : CanonicalResponse) (id : Z) : Message :=
  with_metadata (resp_message r) (md_with_id (metadata (resp_message r)) id).

Definition encode_response (r : CanonicalResponse) (id max_bytes : Z) : result WireError (list byte) :=
  let limit := Z.min max_bytes MAX_DNS_WIRE_BYTES in
  bytes ← ok_or WE_Encode (to_vec (response_message r id));
  if limit <? bytes_len bytes then Err (WE_TooLarge limit) else Ok bytes.

Definition encode_response_truncated (r : CanonicalResponse) (id max_bytes : Z) : result WireError (list byte) :=
  let limit := Z.min max_bytes MAX_DNS_WIRE_BYTES in
  if limit =? 0 then Err (WE_TooLarge limit)
  else
    bytes ← map_err (fun e => match e with MaxBufferSizeExceeded => WE_TooLarge limit | EmitOther => WE_Encode end)
              (emit limit (response_message r id));
    if limit <? bytes_len bytes then Err (WE_TooLarge limit) else Ok bytes.

(** ** TCP *)

Definition TCP_FRAME_PREFIX_BYTES : Z := 2.

Inductive TcpFrameError := FE_Empty | FE_TooLarge (limit : Z).

Definition decode_frame_length (prefix : list byte) : result TcpFrameError Z :=
  let length := from_be prefix in
  if length =? 0 then Err FE_Empty else Ok length.

Definition encode_frame (payload : list byte) (max_bytes : Z) : result TcpFrameError (list byte) :=
  let limit := Z.min max_bytes MAX_DNS_WIRE_BYTES in
  if bool_decide (payload = []) then Err FE_Empty
  else if limit <? bytes_len payload then Err (FE_TooLarge limit)
  else if u16_max <? bytes_len payload then Err (FE_TooLarge MAX_DNS_WIRE_BYTES)
  else Ok (be_bytes 2 (bytes_len payload) ++ payload).

Definition map_frame_error (e : TcpFrameError) : PortError :=
  port_error (match e with FE_Empty => PE_ProtocolViolation | FE_TooLarge _ => PE_ResourceExhausted end)
    "transport.tcp.frame".

Definition wire_error_class (e : WireError) : PortErrorClass :=
  match e with
  | WE_TooLarge _ => PE_ResourceExhausted
  | WE_Empty | WE_Decode | WE_InvalidQuery _ => PE_ProtocolViolation
  | WE_Encode => PE_Internal
  end.

(** [tcp::read_frame] *)
Definition read_frame (s : Stream) : result PortError (option (list byte)) * Stream :=
  match read_exact s TCP_FRAME_PREFIX_BYTES with
  | (Err e, s) => (Err e, s)
  | (Ok CleanEof, s) => (Ok None, s)
  | (Ok (Complete prefix), s) =>
    if negb (bytes_len prefix =? TCP_FRAME_PREFIX_BYTES)
    then (Err (port_error PE_ProtocolViolation "transport.tcp.read_prefix"), s)
    else match map_err map_frame_error (decode_frame_length prefix) with
    | Err e => (Err e, s)
    | Ok frame_length =>
      match read_exact s frame_length with
      | (Err e, s) => (Err e, s)
      | (Ok (Complete payload), s) => (Ok (Some payload), s)
      | (Ok CleanEof, s) => (Err (port_error PE_ProtocolViolation "transport.tcp.read_frame"), s)
      end
    end
  end.

(** A connection: what is still to be read, the frames written, the number of its last
    request and the request counter it shares with the other connections. *)
Record TcpSession := mk_session {
  tc_stream : Stream;
  tc_written : list (list byte);
  tc_stream_id : Z;
  tc_request_ids : Z
}.

Record InboundRequest := mk_inbound {
  ir_query : CanonicalQuery;
  ir_dns_id : Z;
  ir_stream_id : Z;
  ir_request_id : Z
}.

(** [TcpSession::receive]; [written] is the outcome of writing the error response. *)
Definition tcp_receive (t : TcpSession) (cancelled : bool) (written : result PortError unit) :
    result PortError (option InboundRequest) * TcpSession :=
  if cancelled then (Ok None, t)
  else match read_frame (tc_stream t) with
  | (Err e, s) => (Err e, mk_session s (tc_written t) (tc_stream_id t) (tc_request_ids t))
  | (Ok None, s) => (Ok None, mk_session s (tc_written t) (tc_stream_id t) (tc_request_ids t))
  | (Ok (Some payload), s) =>
    match decode_query payload MAX_DNS_WIRE_BYTES with
    | Err e =>
      let failed := port_error PE_ProtocolViolation "transport.tcp.decode" in
      match encode_query_error_response payload e with
      | None => (Err failed, mk_session s (tc_written t) (tc_stream_id t) (tc_request_ids t))
      | Some response =>
        match encode_frame response MAX_DNS_WIRE_BYTES with
        | Err f => (Err (map_frame_error f), mk_session s (tc_written t) (tc_stream_id t) (tc_request_ids t))
        | Ok frame =>
          let t := mk_session s (tc_written t ++ [frame]) (tc_stream_id t) (tc_request_ids t) in
          match written with Err e => (Err e, t) | Ok _ => (Err failed, t) end
        end
      end
    | Ok parsed =>
      let stream_id := Z.max (wrap64 (tc_stream_id t + 1)) 1 in
      let request_id := wrap64 (tc_request_ids t + 1) in
      (Ok (Some (mk_inbound (pq_query parsed) (pq_id parsed) stream_id request_id)),
       mk_session s (tc_written t) stream_id request_id)
    end
  end.

(** [TcpResponseEncoder::encode]: the frame it writes. *)
Definition tcp_encode (original_dns_id : option Z) (r : CanonicalResponse) : result PortError (list byte) :=
  id ← ok_or (port_error PE_ProtocolViolation "transport.tcp.encode") original_dns_id;
  payload ← map_err (fun e => port_error (wire_error_class e) "transport.tcp.encode")
              (encode_response r id MAX_DNS_WIRE_BYTES);
  map_err map_frame_error (encode_frame payload MAX_DNS_WIRE_BYTES).

(** ** UDP *)

(** What one turn of the receive loop meets: whether the listener is cancelled, the
    datagram or error the socket returns, and how sending an answer ends. *)
Record UdpTurn := mk_turn {
  ut_cancelled : bool;
  ut_received : result PortError (list byte * SocketAddr);
  ut_sent : result PortError unit
}.

Record UdpRequest := mk_udp_request {
  ur_query : CanonicalQuery;
  ur_dns_id : Z;
  ur_request_id : Z;
  ur_peer : SocketAddr
}.

(** [UdpAdapter::receive]: a datagram that does not decode is answered if it can be, and
    the loop goes on. The result is [None] while no turn ends the loop; with it come the
    turns that are left, the request counter and the datagrams sent. *)
Fixpoint udp_receive (turns : list UdpTurn) (request_ids : Z) :
    option (result PortError (option UdpRequest)) * list UdpTurn * Z * list (list byte * SocketAddr) :=
  match turns with
  | [] => (None, [], request_ids, [])
  | turn :: rest =>
    if ut_cancelled turn then (Some (Ok None), rest, request_ids, [])
    else match ut_received turn with
    | Err e =>
      (Some (match pe_class e with PE_Cancelled _ => Ok None | _ => Err e end), rest, request_ids, [])
    | Ok (payload, peer) =>
      match decode_query payload MAX_DNS_WIRE_BYTES with
      | Ok parsed =>
        let request_id := wrap64 (request_ids + 1) in
        (Some (Ok (Some (mk_udp_request (pq_query parsed) (pq_id parsed) request_id peer))), rest, request_id, [])
      | Err e =>
        match encode_query_error_response payload e with
        | None => udp_receive rest request_ids
        | Some response =>
          match ut_sent turn with
          | Err e => (Some (Err e), rest, request_ids, [(response, peer)])
          | Ok _ =>
            let '(res, rest, ids, sent) := udp_receive rest request_ids in
            (res, rest, ids, (response, peer) :: sent)
          end
        end
      end
    end
  end.

(** [UdpResponseEncoder::encode]: the datagram it sends. *)
Definition udp_encode (q : CanonicalQuery) (original_dns_id : option Z) (r : CanonicalResponse) :
    result PortError (list byte) :=
  id ← ok_or (port_error PE_ProtocolViolation "transport.udp.encode") original_dns_id;
  map_err (fun e => port_error (wire_error_class e) "transport.udp.encode")
    (encode_response_truncated r id (max_payload (query_message q))).

(** ** Error responses *)

Lemma be2_take (bytes : list byte) : (4 <= length bytes)%nat ->
  exists a b c d rest, bytes = a :: b :: c :: d :: rest.
Proof. destruct bytes as [|a [|b [|c [|d rest]]]]; cbn; try lia. by repeat eexists. Qed.

Lemma error_flags_bits flags code n :
  (code = 1 \/ code = 4) -> 0 <= n < 16 ->
  Z.testbit (from_be (be_bytes 2 (Z.lor (Z.lor DNS_RESPONSE_FLAG (Z.land flags DNS_SAFE_ERROR_FLAG_MASK)) code))) n =
  (n =? 15) || (Z.testbit flags n && existsb (Z.eqb n) [4; 8; 11; 12; 13; 14]) || Z.testbit code n.
Proof.
  intros Hc Hn. rewrite from_be_be_bytes. change (256 ^ Z.of_nat 2) with (2 ^ 16).
  rewrite Z.mod_pow2_bits_low by lia. rewrite !Z.lor_spec, Z.land_spec.
  assert (Hmask : forallb (fun i => eqb (Z.testbit DNS_RESPONSE_FLAG i) (i =? 15) &&
    eqb (Z.testbit DNS_SAFE_ERROR_FLAG_MASK i) (existsb (Z.eqb i) [4; 8; 11; 12; 13; 14])) (seqZ 0 16) = true) by (vm_compute; reflexivity).
  rewrite forallb_forall in Hmask. specialize (Hmask n). rewrite <-list_elem_of_In, elem_of_seqZ in Hmask.
  apply andb_true_iff in Hmask as [->%eqb_prop ->%eqb_prop]; [done|lia].
Qed.

(** The second word of a header. *)
Definition header_flags (bytes : list byte) : Z := from_be (take 2 (drop 2 bytes)).

(** C34: An error response is the bare header of the query: its id, the response bit, of the
    flags only the opcode (bits 11 to 14), RD (8) and CD (4), FORMERR or NOTIMP, and
    empty sections. Responses are not answered, so that two servers cannot answer each
    other's errors. *)
Theorem error_response_spec bytes e r :
  encode_query_error_response bytes e = Some r ->
  12 <= bytes_len bytes /\ bytes_len r = 12 /\ take 2 r = take 2 bytes /\ drop 4 r = repeat Byte.x00 8 /\
  Z.testbit (header_flags bytes) 15 = false /\
  (exists code, error_code e = Some code /\ (code = 1 \/ code = 4) /\
    forall n, 0 <= n < 16 -> Z.testbit (header_flags r) n =
      (n =? 15) || (Z.testbit (header_flags bytes) n && existsb (Z.eqb n) [4; 8; 11; 12; 13; 14]) || Z.testbit code n) /\
  forall e', encode_query_error_response r e' = None.
Proof.
  unfold encode_query_error_response. unfold bytes_len, DNS_HEADER_BYTES. cbv zeta. intros H.
  destruct (Z.ltb_spec (Z.of_nat (length bytes)) 12) as [?|Hlen]; [done|].
  destruct (be2_take bytes) as (a & b & c & d & rest & ->); [lia|]. cbn [take drop] in *. rewrite ?take_0 in *.
  destruct (Z.land (from_be [c; d]) DNS_RESPONSE_FLAG =? 0) eqn:Hq; cbn [negb] in H; [|done]. apply Z.eqb_eq in Hq.
  destruct (error_code e) as [code|] eqn:He; [|done]. cbn [mbind option_bind] in H. apply (inj Some) in H. subst r.
  assert (Hcode : code = 1 \/ code = 4).
  { destruct e as [| | |[]|]; cbn in He; try done; injection He as <-; auto. }
  set (f := Z.lor (Z.lor DNS_RESPONSE_FLAG (Z.land (from_be [c; d]) DNS_SAFE_ERROR_FLAG_MASK)) code).
  pose proof (length_be_bytes 2 f) as Hl. destruct (be_bytes 2 f) as [|x [|y [|]]] eqn:Hf; try done. clear Hl.
  unfold header_flags. cbn [app take drop]. rewrite ?take_0. split; [lia|]. split; [done|]. split; [done|]. split; [done|].
  assert (H15 : Z.testbit (from_be [c; d]) 15 = false).
  { apply (f_equal (fun z => Z.testbit z 15)) in Hq. rewrite Z.land_spec, Z.bits_0 in Hq.
    by rewrite (andb_true_r _ : Z.testbit _ 15 && Z.testbit DNS_RESPONSE_FLAG 15 = _) in Hq. }
  assert (Hbits : forall n, 0 <= n < 16 -> Z.testbit (from_be [x; y]) n =
      (n =? 15) || (Z.testbit (from_be [c; d]) n && existsb (Z.eqb n) [4; 8; 11; 12; 13; 14]) || Z.testbit code n).
  { intros n Hn. rewrite <-Hf. unfold f. by apply error_flags_bits. }
  split; [done|]. split; [exists code; split; [done|split; [done|exact Hbits]]|].
  intros e'. cbn [length take drop app repeat]. rewrite ?take_0, Z.ltb_irrefl.
  destruct (Z.land (from_be [x; y]) DNS_RESPONSE_FLAG =? 0) eqn:E; [|done].
  apply Z.eqb_eq, (f_equal (fun z => Z.testbit z 15)) in E. rewrite Z.land_spec, Z.bits_0, Hbits in E by lia.
  change (Z.testbit DNS_RESPONSE_FLAG 15) with true in E. change (15 =? 15) with true in E. done.
Qed.

(** ** Frames *)

Definition bytes_of (s : Stream) : list byte := s ≫= fun c => match c with Data b => b | ReadError _ => [] end.
(** A stream that delivers its bytes, in whatever pieces, and then ends. *)
Definition delivers (s : Stream) : Prop := Forall (fun c => exists b, c = Data b /\ b <> []) s.

Lemma read_loop_ok s : forall acc need,
  delivers s -> (need <= length (bytes_of s))%nat ->
  exists s', read_loop s acc need = (Ok (Complete (acc ++ take need (bytes_of s))), s') /\
    delivers s' /\ bytes_of s' = drop need (bytes_of s).
Proof.
  induction s as [|c s IH]; intros acc need Hs Hn.
  - cbn in Hn. assert (need = 0%nat) as -> by lia. exists []. cbn. by rewrite app_nil_r.
  - apply list.Forall_cons in Hs as [(b & -> & Hb) Hs]. change (bytes_of (Data b :: s)) with (b ++ bytes_of s) in *.
    rewrite length_app in Hn. destruct need as [|need].
    { exists (Data b :: s). cbn [read_loop take drop]. rewrite app_nil_r. split; [done|]. split; [|done].
      constructor; eauto. }
    destruct b as [|x b]; [done|]. cbn [read_loop].
    destruct (Nat.leb_spec (length (x :: b)) (S need)) as [Hle|Hgt].
    + destruct (IH (acc ++ x :: b) (S need - length (x :: b))%nat) as (s' & Hr & Hd & Hb').
      { done. } { lia. }
      exists s'. rewrite Hr. split; [|split; [done|]].
      * by rewrite take_app_ge, <-app_assoc by done.
      * by rewrite drop_app_ge.
    + exists (Data (drop (S need) (x :: b)) :: s). split; [|split].
      * by rewrite take_app_le by lia.
      * constructor; [|done]. eexists. split; [done|]. intros E. apply (f_equal length) in E. rewrite length_drop in E. cbn in *. lia.
      * rewrite drop_app_le by lia. done.
Qed.

Lemma read_loop_end s : forall acc need,
  delivers s -> (length (bytes_of s) < need)%nat ->
  read_loop s acc need =
    (if bool_decide (acc ++ bytes_of s = []) then Ok CleanEof
     else Err (port_error PE_ProtocolViolation "system_socket.tcp_read_exact"), []).
Proof.
  induction s as [|c s IH]; intros acc need Hs Hn.
  - destruct need; [cbn in Hn; lia|]. cbn [read_loop bytes_of mbind list_bind]. by rewrite app_nil_r.
  - apply list.Forall_cons in Hs as [(b & -> & Hb) Hs]. change (bytes_of (Data b :: s)) with (b ++ bytes_of s) in *.
    rewrite length_app in Hn. destruct need as [|need]; [lia|]. destruct b as [|x b]; [done|]. cbn [read_loop].
    destruct (Nat.leb_spec (length (x :: b)) (S need)) as [Hle|Hgt]; [|lia].
    rewrite IH by (done || lia). by rewrite <-app_assoc.
Qed.

(** The framing is self-delimiting: reading a frame returns its payload and leaves the
    bytes after it, however the connection cuts them. *)
Lemma read_frame_ok s payload frame rest :
  delivers s -> encode_frame payload MAX_DNS_WIRE_BYTES = Ok frame -> bytes_of s = frame ++ rest ->
  exists s', read_frame s = (Ok (Some payload), s') /\ delivers s' /\ bytes_of s' = rest.
Proof.
  intros Hs He Hb. unfold encode_frame in He. case_bool_decide as Hne; [done|].
  destruct (Z.ltb_spec (Z.min MAX_DNS_WIRE_BYTES MAX_DNS_WIRE_BYTES) (bytes_len payload)) as [?|Hle]; [done|].
  destruct (Z.ltb_spec u16_max (bytes_len payload)) as [?|Hle']; [done|]. apply Ok_inj in He. subst frame.
  unfold read_frame, read_exact, TCP_FRAME_PREFIX_BYTES. change (u16_max <? 2) with false. change (Z.to_nat 2) with 2%nat.
  cbv beta iota.
  assert (Hlen : length (be_bytes 2 (bytes_len payload)) = 2%nat) by apply length_be_bytes.
  destruct (read_loop_ok s [] 2) as (s1 & -> & Hd1 & Hb1); [done|rewrite Hb, !length_app; lia|].
  cbn [app]. rewrite Hb, <-app_assoc, take_app_le, take_ge in * by lia.
  assert (Hpos : 0 < bytes_len payload) by (unfold bytes_len; destruct payload; cbn; lia || done).
  unfold bytes_len at 1. rewrite Hlen. change (Z.of_nat 2 =? 2) with true. cbn [negb].
  unfold decode_frame_length. rewrite from_be_be_bytes_small by (change (256 ^ Z.of_nat 2) with 65536; unfold u16_max in *; lia).
  destruct (Z.eqb_spec (bytes_len payload) 0) as [?|_]; [lia|]. cbn [map_err].
  destruct (Z.ltb_spec u16_max (bytes_len payload)) as [?|_]; [lia|].
  rewrite drop_app_ge, Hlen, Nat.sub_diag, drop_0 in Hb1 by lia.
  destruct (read_loop_ok s1 [] (Z.to_nat (bytes_len payload))) as (s2 & -> & Hd2 & Hb2);
    [done|rewrite Hb1, length_app; unfold bytes_len; lia|].
  exists s2. unfold bytes_len in *. rewrite Nat2Z.id, Hb1 in *. cbn [app].
  rewrite take_app_le, take_ge by lia. split; [done|]. split; [done|].
  rewrite Hb2, drop_app_ge, Nat.sub_diag by lia. done.
Qed.

(** A connection that ends within a frame is a protocol violation, one that ends between
    frames is not. *)
Lemma read_frame_cut s payload frame tail more :
  delivers s -> encode_frame payload MAX_DNS_WIRE_BYTES = Ok frame -> frame = tail ++ more -> more <> [] ->
  bytes_of s = tail ->
  exists res s', read_frame s = (res, s') /\
    match res with
    | Ok None => tail = []
    | Ok (Some _) => False
    | Err e => tail <> [] /\ pe_class e = PE_ProtocolViolation
    end.
Proof.
  intros Hs He Hf Hm Hb. unfold encode_frame in He. case_bool_decide as Hne; [done|].
  destruct (Z.ltb_spec (Z.min MAX_DNS_WIRE_BYTES MAX_DNS_WIRE_BYTES) (bytes_len payload)) as [?|Hle]; [done|].
  destruct (Z.ltb_spec u16_max (bytes_len payload)) as [?|Hle']; [done|]. apply Ok_inj in He. subst frame.
  assert (Hlen : length (be_bytes 2 (bytes_len payload)) = 2%nat) by apply length_be_bytes.
  assert (Htot : (length tail + length more = 2 + length payload)%nat)
    by (rewrite <-length_app, <-Hf, length_app; lia).
  assert (Hmore : (0 < length more)%nat) by (destruct more; cbn; lia || done).
  unfold read_frame, read_exact, TCP_FRAME_PREFIX_BYTES. change (u16_max <? 2) with false. change (Z.to_nat 2) with 2%nat.
  cbv beta iota. destruct (Nat.lt_ge_cases (length tail) 2) as [Hshort|Hlong].
  - rewrite (read_loop_end s [] 2) by (done || by rewrite Hb). cbn [app]. rewrite Hb.
    case_bool_decide as E; eexists _, _; (split; [reflexivity|]); done.
  - destruct (read_loop_ok s [] 2) as (s1 & -> & Hd1 & Hb1); [done|by rewrite Hb|]. cbn [app]. rewrite Hb in *.
    assert (Hpre : take 2 tail = be_bytes 2 (bytes_len payload)).
    { apply (f_equal (take 2)) in Hf. rewrite take_app_le, take_ge in Hf by lia. rewrite take_app_le in Hf by lia. done. }
    rewrite Hpre. unfold bytes_len at 1. rewrite Hlen. change (Z.of_nat 2 =? 2) with true. cbn [negb].
    unfold decode_frame_length. rewrite from_be_be_bytes_small
      by (change (256 ^ Z.of_nat 2) with 65536; unfold u16_max in *; unfold bytes_len in *; lia).
    assert (0 < bytes_len payload) by (unfold bytes_len; destruct payload; cbn; lia || done).
    destruct (Z.eqb_spec (bytes_len payload) 0) as [?|_]; [lia|]. cbn [map_err].
    destruct (Z.ltb_spec u16_max (bytes_len payload)) as [?|_]; [lia|].
    rewrite (read_loop_end s1 [] (Z.to_nat (bytes_len payload)));
      [|done|rewrite Hb1, length_drop; unfold bytes_len; lia].
    case_bool_decide; eexists _, _; (split; [reflexivity|]); (split; [by intros ->|done]).
Qed.

(** The requests of a connection, up to its end or an error; [None] is lack of fuel. *)
Fixpoint tcp_serve (fuel : nat) (t : TcpSession) :
    list InboundRequest * option (result PortError unit) * TcpSession :=
  match fuel with
  | O => ([], None, t)
  | S fuel =>
    match tcp_receive t false (Ok tt) with
    | (Ok (Some r), t) => let '(rs, res, t) := tcp_serve fuel t in (r :: rs, res, t)
    | (Ok None, t) => ([], Some (Ok tt), t)
    | (Err e, t) => ([], Some (Err e), t)
    end
  end.

(** C31: A connection hands over its queries in the order they were sent, each once, with
    ascending numbers, however the network cuts the stream; when the peer closes it
    within a frame, the queries before are still handed over and the rest is reported as
    a protocol violation. *)
Theorem tcp_requests_in_order t payloads frames queries last tail more :
  Forall2 (fun p f => encode_frame p MAX_DNS_WIRE_BYTES = Ok f) payloads frames ->
  Forall2 (fun p q => decode_query p MAX_DNS_WIRE_BYTES = Ok q) payloads queries ->
  encode_frame last MAX_DNS_WIRE_BYTES = Ok (tail ++ more) -> more <> [] ->
  delivers (tc_stream t) -> bytes_of (tc_stream t) = concat frames ++ tail ->
  0 <= tc_stream_id t -> tc_stream_id t + Z.of_nat (length payloads) <= u64_max ->
  exists rs res t', tcp_serve (S (length payloads)) t = (rs, Some res, t') /\
    ir_query <$> rs = pq_query <$> queries /\ ir_dns_id <$> rs = pq_id <$> queries /\
    ir_stream_id <$> rs = seqZ (tc_stream_id t + 1) (Z.of_nat (length payloads)) /\
    match res with
    | Ok _ => tail = []
    | Err e => tail <> [] /\ pe_class e = PE_ProtocolViolation
    end.
Proof.
  intros Hf. revert t queries. induction Hf as [|p f payloads frames He Hf IH]; intros t queries Hq Hl Hm Hd Hb H0 Hmax.
  - apply Forall2_nil_inv_l in Hq as ->. cbn [concat app length] in *.
    destruct (read_frame_cut (tc_stream t) last (tail ++ more) tail more Hd Hl eq_refl Hm Hb) as (res & s' & Hr & Hres).
    cbn [tcp_serve]. unfold tcp_receive. rewrite Hr. destruct res as [[x|]|e]; [done| |].
    + eexists [], (Ok tt), _. split; [done|]. by rewrite Hres.
    + eexists [], (Err e), _. split; [done|]. done.
  - apply Forall2_cons_inv_l in Hq as (q & qs & Hdq & Hq & ->). cbn [concat] in Hb. rewrite <-app_assoc in Hb.
    destruct (read_frame_ok (tc_stream t) p f (concat frames ++ tail) Hd He Hb) as (s' & Hr & Hd' & Hb').
    cbn [length] in *. change (S (S (length payloads))) with (S (S (length payloads))).
    set (n := S (length payloads)) in *. cbn [tcp_serve]. unfold tcp_receive at 1. rewrite Hr, Hdq.
    assert (Hid : Z.max (wrap64 (tc_stream_id t + 1)) 1 = tc_stream_id t + 1).
    { rewrite wrap64_small by (unfold u64, n in *; lia). lia. }
    rewrite Hid.
    destruct (IH (mk_session s' (tc_written t) (tc_stream_id t + 1) (wrap64 (tc_request_ids t + 1))) qs)
      as (rs & res & t' & Hrun & H1 & H2 & H3 & H4); cbn [tc_stream tc_stream_id]; try done; [lia|unfold n in *; lia|].
    fold n in Hrun. rewrite Hrun. eexists _, res, t'. split; [reflexivity|]. cbn [fmap list_fmap].
    cbn [tc_stream_id] in H3. split; [f_equal; exact H1|]. split; [f_equal; exact H2|]. split; [|done].
    rewrite (seqZ_cons (tc_stream_id t + 1)) by (unfold n; lia). f_equal. rewrite H3. f_equal; unfold n; lia.
Qed.

(** ** Datagrams *)

(** A turn of the receive loop on a malformed datagram, whose answer can be sent. *)
Definition malformed (turn : UdpTurn) (payload : list byte) (peer : SocketAddr) (e : WireError) : Prop :=
  ut_cancelled turn = false /\ ut_received turn = Ok (payload, peer) /\
  decode_query payload MAX_DNS_WIRE_BYTES = Err e /\ ut_sent turn = Ok tt.

(** The listener hands over the first query that decodes, with the peer that sent it,
    whatever came before; each datagram that did not decode has then been answered at
    most once, to its own sender, with the error its header allows. *)
Theorem udp_first_query turns good rest payload peer parsed ids :
  Forall (fun turn => exists payload peer e, malformed turn payload peer e) turns ->
  ut_cancelled good = false -> ut_received good = Ok (payload, peer) ->
  decode_query payload MAX_DNS_WIRE_BYTES = Ok parsed ->
  exists sent, udp_receive (turns ++ good :: rest) ids =
      (Some (Ok (Some (mk_udp_request (pq_query parsed) (pq_id parsed) (wrap64 (ids + 1)) peer))), rest, wrap64 (ids + 1), sent) /\
    forall response to, (response, to) ∈ sent <->
      exists turn p e, turn ∈ turns /\ malformed turn p to e /\ encode_query_error_response p e = Some response.
Proof.
  intros Hbad Hc Hr Hd. induction Hbad as [|turn turns (p & from & e & Hm) Hbad IH].
  - exists []. cbn [app udp_receive]. rewrite Hc, Hr, Hd. split; [done|]. intros response to. split; [by intros ?%elem_of_nil|].
    by intros (? & ? & ? & ?%elem_of_nil & _).
  - destruct IH as (sent & IH & Hsent). cbn [app udp_receive]. pose proof Hm as (-> & Hre & He & Hs). rewrite Hre, He, IH, Hs.
    assert (Hhd : forall q to e', malformed turn q to e' -> q = p /\ to = from /\ e' = e).
    { intros q to e' (_ & Hre' & He' & _). rewrite Hre in Hre'. injection Hre' as <- <-. rewrite He in He'. by injection He' as <-. }
    destruct (encode_query_error_response p e) as [answer|] eqn:Ha.
    + exists ((answer, from) :: sent). split; [done|]. intros response to. rewrite elem_of_cons, Hsent. split.
      * intros [[= -> ->]|(t & q & e' & Ht & H)]; [exists turn, p, e; split; [by left|done]|].
        exists t, q, e'. split; [by right|done].
      * intros (t & q & e' & [->|Ht]%elem_of_cons & Hq & Hans); [left|right; by exists t, q, e'].
        apply Hhd in Hq as (-> & -> & ->). rewrite Ha in Hans. by injection Hans as ->.
    + exists sent. split; [done|]. intros response to. rewrite Hsent. split.
      * intros (t & q & e' & Ht & H). exists t, q, e'. split; [by right|done].
      * intros (t & q & e' & [->|Ht]%elem_of_cons & Hq & Hans); [|by exists t, q, e'].
        apply Hhd in Hq as (-> & -> & ->). by rewrite Ha in Hans.
Qed.

(** ** Sizes *)

(** What is sent fits the transport: a TCP frame holds at most 65,535 bytes of message
    and carries its length, a datagram is no larger than what the client announced. *)
Theorem responses_fit q id r :
  (forall frame, tcp_encode id r = Ok frame ->
     exists i payload, id = Some i /\ to_vec (response_message r i) = Some payload /\
       frame = be_bytes 2 (bytes_len payload) ++ payload /\ 0 < bytes_len payload <= u16_max) /\
  (forall bytes, udp_encode q id r = Ok bytes ->
     exists i, id = Some i /\ bytes_len bytes <= Z.min (max_payload (query_message q)) u16_max /\
       emit (Z.min (max_payload (query_message q)) u16_max) (response_message r i) = Ok bytes).
Proof.
  split.
  - intros frame H. unfold tcp_encode in H. apply bind_ok in H as (i & Hi & H). apply ok_or_ok in Hi.
    apply bind_ok in H as (payload & Hp & H). unfold encode_response in Hp.
    destruct (to_vec (response_message r i)) as [b|] eqn:Hv; [|done]. cbn [ok_or mbind result_bind] in Hp.
    destruct (_ <? _); [done|]. injection Hp as <-.
    exists i, b. split; [done|]. split; [done|]. unfold encode_frame in H. cbv zeta in H. case_bool_decide as Hne; [done|].
    destruct (Z.ltb_spec (Z.min MAX_DNS_WIRE_BYTES MAX_DNS_WIRE_BYTES) (bytes_len b)); [done|].
    destruct (Z.ltb_spec u16_max (bytes_len b)); [done|]. cbn [map_err] in H. apply Ok_inj in H. subst frame.
    split; [done|]. split; [unfold bytes_len; destruct b; cbn; lia || done|done].
  - intros bytes H. unfold udp_encode in H. apply bind_ok in H as (i & Hi & H). apply ok_or_ok in Hi.
    exists i. split; [done|]. unfold encode_response_truncated, MAX_DNS_WIRE_BYTES in H. cbv zeta in H.
    destruct (_ =? 0); [done|]. destruct (emit _ _) as [b|[]] eqn:He; [|done..]. cbn [map_err mbind result_bind] in H.
    destruct (Z.ltb_spec (Z.min (max_payload (query_message q)) u16_max) (bytes_len b)); [done|]. injection H as <-.
    split; [lia|done].
Qed.

End Wire.

(** ** Runs *)

Module WireExamples.
Import Sample.

(** The sample library, decoding the sample query. *)
#[local] Instance net : Hickory := {|
  Name := SName; RData := option Z; Edns := Z * option Z; ClientSubnet := Z;
  name_to_lowercase n := (map lower n.1, n.2);
  name_set_fqdn n := (n.1, true);
  name_eqb n m := bool_decide (n = m);
  rdata_soa_minimum d := d;
  edns_version e := e.1; edns_new := (0, None); edns_subnet e := e.2;
  edns_remove_subnet e := (e.1, None); edns_insert_subnet s e := (e.1, Some s);
  to_vec m := Some (wire m);
  from_vec b := if bool_decide (b = wire query_msg) then Some query_msg else None
|}.

Definition payload : list byte := wire query_msg.
Definition query_frame : list byte := be_bytes 2 6 ++ payload.
Definition parsed : ParsedQuery (HH := net) :=
  match decode_query (HH := net) payload MAX_DNS_WIRE_BYTES with
  | Ok p => p
  | Err _ => {| pq_id := 0; pq_query := {| query_message := query_msg;
                                           query_question := CanonicalQuestion_from_query (HH := net) question |} |}
  end.

(** Two queries and the start of a third, in three pieces. *)
Definition pieces : Stream :=
  let bytes := query_frame ++ query_frame ++ take 3 query_frame in
  [Data (take 1 bytes); Data (take 12 (drop 1 bytes)); Data (drop 13 bytes)].

Lemma tcp_requests_in_order_witness :
  exists rs e t', tcp_serve (HH := net) 3 (mk_session pieces [] 0 0) = (rs, Some (Err e), t') /\
    ir_stream_id <$> rs = [1; 2] /\ pe_class e = PE_ProtocolViolation.
Proof.
  destruct (tcp_requests_in_order (HH := net) (mk_session pieces [] 0 0) [payload; payload] [query_frame; query_frame] [parsed; parsed]
    payload (take 3 query_frame) (drop 3 query_frame)) as (rs & res & t' & Hrun & _ & _ & Hids & Hres).
  - repeat constructor.
  - repeat constructor.
  - rewrite take_drop. reflexivity.
  - vm_compute. discriminate.
  - repeat constructor; eexists; (split; [reflexivity|vm_compute; discriminate]).
  - vm_compute. reflexivity.
  - cbn. lia.
  - cbn. unfold u64_max. lia.
  - destruct res as [[]|e]; [by vm_compute in Hres|]. exists rs, e, t'. split; [exact Hrun|].
    split; [rewrite Hids; reflexivity|apply Hres].
Defined.

(** A query with an unknown opcode (status, RD and AD set) gets NOTIMP with RD kept. *)
Definition status_query : list byte := be_bytes 2 0x1234 ++ be_bytes 2 0x1120 ++ repeat Byte.x00 8.

Lemma error_response_spec_witness :
  encode_query_error_response status_query (WE_InvalidQuery (UnsupportedOpCode (OP_Other 2))) =
    Some (be_bytes 2 0x1234 ++ be_bytes 2 0x9104 ++ repeat Byte.x00 8) /\
  encode_query_error_response (be_bytes 2 0x1234 ++ be_bytes 2 0x9104 ++ repeat Byte.x00 8) WE_Decode = None.
Proof.
  split; [vm_compute; reflexivity|].
  destruct (error_response_spec status_query (WE_InvalidQuery (UnsupportedOpCode (OP_Other 2)))
    (be_bytes 2 0x1234 ++ be_bytes 2 0x9104 ++ repeat Byte.x00 8)) as (_ & _ & _ & _ & _ & _ & H); [vm_compute; reflexivity|].
  exact (H WE_Decode).
Defined.

(** A datagram with the wrong operation code, then a query, from two peers. *)
Definition malformed_turn : UdpTurn := mk_turn false (Ok (status_query, (V4 1, 53))) (Ok tt).
Definition query_turn : UdpTurn := mk_turn false (Ok (payload, (V4 2, 53))) (Err (port_error PE_Internal "unused")).

Lemma udp_first_query_witness :
  exists sent, udp_receive (HH := net) [malformed_turn; query_turn] 0 =
    (Some (Ok (Some (mk_udp_request (HH := net) (pq_query parsed) (pq_id parsed) 1 (V4 2, 53)))), [], 1, sent).
Proof.
  destruct (udp_first_query (HH := net) [malformed_turn] query_turn [] payload (V4 2, 53) parsed 0) as (sent & H & _).
  - repeat constructor. exists status_query, (V4 1, 53), WE_Decode. repeat split; vm_compute; reflexivity.
  - reflexivity.
  - reflexivity.
  - reflexivity.
  - exists sent. exact H.
Defined.

End WireExamples.
