(* ===== verification/Socks5.v ===== *)
(** * SOCKS5 (src/backend/src/upstream/socks5.rs)

    The frames of the client side of the protocol and the handshake on a connected
    stream. Reads follow [read_exact] of upstream/tokio_outbound.rs on the chunks the
    stream delivers; each write returns the outcome the environment gives it. *)

From S2P Require Import Prelude CacheModel Text Net Wire.

Definition SOCKS5_VERSION : Z := 5.
Definition USERPASS_VERSION : Z := 1.
Definition NO_AUTHENTICATION : Z := 0.
Definition USERNAME_PASSWORD : Z := 2.
Definition NO_ACCEPTABLE_METHODS : Z := 255.
Definition CONNECT_COMMAND : Z := 1.

Inductive Socks5AuthMethod := NoAuthentication | UsernamePassword.

Inductive Socks5ProtocolError :=
| SP_Truncated | SP_TrailingBytes | SP_InvalidVersion (expected actual : Z) | SP_UnsupportedMethod
| SP_NoAcceptableMethods | SP_AuthenticationRejected | SP_InvalidCredentialLength | SP_InvalidPort
| SP_InvalidDomain | SP_InvalidReservedField | SP_UnsupportedAddressType.

Abbreviation b8 := byte_of_Z.

(** ** Frames *)

Definition encode_method_request (has_credentials : bool) : list byte :=
  if has_credentials then [b8 SOCKS5_VERSION; b8 2; b8 NO_AUTHENTICATION; b8 USERNAME_PASSWORD]
  else [b8 SOCKS5_VERSION; b8 1; b8 NO_AUTHENTICATION].

Definition parse_method_response (frame : list byte) : result Socks5ProtocolError Socks5AuthMethod :=
  match frame with
  | [] | [_] => Err SP_Truncated
  | [version; method] =>
    if negb (byte_to_Z version =? SOCKS5_VERSION) then Err (SP_InvalidVersion SOCKS5_VERSION (byte_to_Z version))
    else if byte_to_Z method =? NO_AUTHENTICATION then Ok NoAuthentication
    else if byte_to_Z method =? USERNAME_PASSWORD then Ok UsernamePassword
    else if byte_to_Z method =? NO_ACCEPTABLE_METHODS then Err SP_NoAcceptableMethods
    else Err SP_UnsupportedMethod
  | _ => Err SP_TrailingBytes
  end.

Definition validate_credential (value : list byte) : result Socks5ProtocolError unit :=
  if bool_decide (value = []) || (u8_max <? bytes_len value) then Err SP_InvalidCredentialLength else Ok tt.

Definition encode_userpass_request (username password : list byte) : result Socks5ProtocolError (list byte) :=
  _ ← validate_credential username;
  _ ← validate_credential password;
  Ok ([b8 USERPASS_VERSION; b8 (bytes_len username)] ++ username ++ [b8 (bytes_len password)] ++ password).

Definition parse_userpass_response (frame : list byte) : result Socks5ProtocolError unit :=
  match frame with
  | [] | [_] => Err SP_Truncated
  | [version; status] =>
    if negb (byte_to_Z version =? USERPASS_VERSION) then Err (SP_InvalidVersion USERPASS_VERSION (byte_to_Z version))
    else if negb (byte_to_Z status =? 0) then Err SP_AuthenticationRejected
    else Ok tt
  | _ => Err SP_TrailingBytes
  end.

Inductive Socks5Address :=
| SIp (a : IpAddr)
| SDomain (d : list byte).

(** [Socks5Address::domain] *)
Definition socks5_domain (bytes : list byte) : result Socks5ProtocolError Socks5Address :=
  if bool_decide (bytes = []) || (u8_max <? bytes_len bytes) then Err SP_InvalidDomain else Ok (SDomain bytes).

Inductive NameResolution := NR_Local | NR_Remote | NR_Bypass.
Record OutboundTarget := mk_target {
  ot_host : list byte;
  ot_port : Z;
  ot_connect_ip : option IpAddr;
  ot_bootstrap : option string;
  ot_name_resolution : NameResolution
}.
Inductive Socks5TargetError := ST_InvalidDomain | ST_ResolvedAddressRequired.

Definition address_for_target (target : OutboundTarget) (resolved_ip : option IpAddr) :
    result Socks5TargetError Socks5Address :=
  match ot_name_resolution target with
  | NR_Remote =>
    if bool_decide (ot_host target = []) || (u8_max <? bytes_len (ot_host target)) then Err ST_InvalidDomain
    else Ok (SDomain (ot_host target))
  | NR_Local | NR_Bypass =>
    ok_or ST_ResolvedAddressRequired
      (SIp <$> match ot_connect_ip target with Some a => Some a | None => resolved_ip end)
  end.

(** The address part of a frame: its type, and what follows. *)
Definition encode_address (address : Socks5Address) : result Socks5ProtocolError (list byte) :=
  match address with
  | SIp (V4 a) => Ok (b8 1 :: v4_octets a)
  | SIp (V6 a) => Ok (b8 4 :: v6_octets a)
  | SDomain domain =>
    if bool_decide (domain = []) || (u8_max <? bytes_len domain) then Err SP_InvalidDomain
    else Ok (b8 3 :: b8 (bytes_len domain) :: domain)
  end.

Definition encode_connect_request (address : Socks5Address) (port : Z) : result Socks5ProtocolError (list byte) :=
  if port =? 0 then Err SP_InvalidPort
  else
    body ← encode_address address;
    Ok ([b8 SOCKS5_VERSION; b8 CONNECT_COMMAND; b8 0] ++ body ++ be_bytes 2 port).

Inductive Socks5Reply :=
| Succeeded | GeneralFailure | ConnectionNotAllowed | NetworkUnreachable | HostUnreachable | ConnectionRefused
| TtlExpired | CommandNotSupported | AddressTypeNotSupported | OtherReply (value : Z).

Definition reply_from_wire (value : Z) : Socks5Reply :=
  if value =? 0 then Succeeded else if value =? 1 then GeneralFailure
  else if value =? 2 then ConnectionNotAllowed else if value =? 3 then NetworkUnreachable
  else if value =? 4 then HostUnreachable else if value =? 5 then ConnectionRefused
  else if value =? 6 then TtlExpired else if value =? 7 then CommandNotSupported
  else if value =? 8 then AddressTypeNotSupported else OtherReply value.

Definition is_success (r : Socks5Reply) : bool := match r with Succeeded => true | _ => false end.

Record Socks5ConnectResponse := mk_connect_response {
  cr_reply : Socks5Reply;
  cr_bound_address : Socks5Address;
  cr_bound_port : Z
}.

(** [frame.get(start..end)] *)
Definition slice (frame : list byte) (start stop : nat) : option (list byte) :=
  if (stop <=? length frame)%nat && (start <=? stop)%nat then Some (take (stop - start) (drop start frame)) else None.

Definition decode_address (frame : list byte) (offset : nat) : result Socks5ProtocolError (Socks5Address * nat) :=
  address_type ← ok_or SP_Truncated (frame !! offset);
  let t := byte_to_Z address_type in
  if t =? 1 then
    let stop := (offset + 5)%nat in
    bytes ← ok_or SP_Truncated (slice frame (offset + 1) stop);
    Ok (SIp (V4 (from_be bytes)), stop)
  else if t =? 3 then
    length_byte ← ok_or SP_Truncated (frame !! (offset + 1)%nat);
    let start := (offset + 2)%nat in
    let stop := (start + Z.to_nat (byte_to_Z length_byte))%nat in
    bytes ← ok_or SP_Truncated (slice frame start stop);
    address ← socks5_domain bytes;
    Ok (address, stop)
  else if t =? 4 then
    let stop := (offset + 17)%nat in
    bytes ← ok_or SP_Truncated (slice frame (offset + 1) stop);
    Ok (SIp (V6 (from_be bytes)), stop)
  else Err SP_UnsupportedAddressType.

Definition parse_connect_response (frame : list byte) : result Socks5ProtocolError Socks5ConnectResponse :=
  match frame with
  | version :: reply :: reserved :: _ :: _ =>
    if negb (byte_to_Z version =? SOCKS5_VERSION) then Err (SP_InvalidVersion SOCKS5_VERSION (byte_to_Z version))
    else if negb (byte_to_Z reserved =? 0) then Err SP_InvalidReservedField
    else
      '(bound, address_end) ← decode_address frame 3;
      let port_end := (address_end + 2)%nat in
      if (length frame <? port_end)%nat then Err SP_Truncated
      else if (port_end <? length frame)%nat then Err SP_TrailingBytes
      else Ok (mk_connect_response (reply_from_wire (byte_to_Z reply)) bound
                 (from_be (take 2 (drop address_end frame))))
  | _ => Err SP_Truncated
  end.

(** ** The handshake *)

(** [TokioOutboundStream::read_exact]: the end of the stream is clean even within a
    frame. *)
Fixpoint outbound_loop (s : Stream) (acc : list byte) (need : nat) : result PortError TcpReadResult * Stream :=
  match need with
  | O => (Ok (Complete acc), s)
  | _ =>
    match s with
    | [] => (Ok CleanEof, [])
    | ReadError e :: rest => (Err e, rest)
    | Data [] :: rest => (Ok CleanEof, rest)
    | Data bytes :: rest =>
      if (length bytes <=? need)%nat then outbound_loop rest (acc ++ bytes) (need - length bytes)
      else (Ok (Complete (acc ++ take need bytes)), Data (drop need bytes) :: rest)
    end
  end.
Definition outbound_read_exact (s : Stream) (length : nat) : result PortError TcpReadResult * Stream :=
  outbound_loop s [] length.

Inductive Socks5HandshakeError :=
| HE_Protocol (e : Socks5ProtocolError)
| HE_Transport (e : PortError)
| HE_CredentialsRequired
| HE_ProxyRejected (r : Socks5Reply).

(** The connection: what can be read, what was written, and how later writes end. *)
Record Conn := mk_conn { co_in : Stream; co_out : list (list byte); co_writes : list (result PortError unit) }.

(** A computation on the connection that can fail. *)
Definition IO (A : Type) : Type := Conn -> result Socks5HandshakeError A * Conn.
Definition io_ret {A} (a : A) : IO A := fun c => (Ok a, c).
Definition io_fail {A} (e : Socks5HandshakeError) : IO A := fun c => (Err e, c).
Definition io_bind {A B} (x : IO A) (f : A -> IO B) : IO B := fun c =>
  match x c with (Ok a, c') => f a c' | (Err e, c') => (Err e, c') end.
Definition io_result {A} (r : result Socks5ProtocolError A) : IO A := fun c => (map_err HE_Protocol r, c).
Notation "x <-- m ;; k" := (io_bind m (fun x => k)) (at level 100, m at next level, right associativity).

Definition write_frame (frame : list byte) : IO unit := fun c =>
  match co_writes c with
  | Err e :: w => (Err (HE_Transport e), mk_conn (co_in c) (co_out c) w)
  | Ok _ :: w => (Ok tt, mk_conn (co_in c) (co_out c ++ [frame]) w)
  | [] => (Ok tt, mk_conn (co_in c) (co_out c ++ [frame]) [])
  end.

Definition read_frame_exact (length_ : nat) (operation : string) : IO (list byte) := fun c =>
  let '(res, s) := outbound_read_exact (co_in c) length_ in
  let c := mk_conn s (co_out c) (co_writes c) in
  match res with
  | Err e => (Err (HE_Transport e), c)
  | Ok (Complete frame) =>
    if (length frame =? length_)%nat then (Ok frame, c)
    else (Err (HE_Transport (port_error PE_ProtocolViolation operation)), c)
  | Ok CleanEof => (Err (HE_Transport (port_error PE_ProtocolViolation operation)), c)
  end.

(** The length byte of a domain that is still to be read, and how many bytes follow. *)
Definition read_connect_response : IO (list byte) :=
  header <-- read_frame_exact 4 "socks5.connect";;
  let address_type := byte_to_Z (default Byte.x00 (header !! 3%nat)) in
  if address_type =? 1 then
    rest <-- read_frame_exact 6 "socks5.connect";; io_ret (header ++ rest)
  else if address_type =? 4 then
    rest <-- read_frame_exact 18 "socks5.connect";; io_ret (header ++ rest)
  else if address_type =? 3 then
    length_frame <-- read_frame_exact 1 "socks5.connect";;
    let length_ := Z.to_nat (byte_to_Z (default Byte.x00 (length_frame !! 0%nat))) in
    if (length_ =? 0)%nat then io_fail (HE_Protocol SP_InvalidDomain)
    else rest <-- read_frame_exact (length_ + 2) "socks5.connect";; io_ret (header ++ length_frame ++ rest)
  else io_fail (HE_Protocol SP_UnsupportedAddressType).

Definition authenticate_userpass (credentials : option (list byte * list byte)) : IO unit :=
  match credentials with
  | None => io_fail HE_CredentialsRequired
  | Some (username, password) =>
    request <-- io_result (encode_userpass_request username password);;
    _ <-- write_frame request;;
    answer <-- read_frame_exact 2 "socks5.userpass";;
    io_result (parse_userpass_response answer)
  end.

Definition perform_handshake (address : Socks5Address) (port : Z) (credentials : option (list byte * list byte))
    (cancelled : option CancelReason) : IO unit :=
  match cancelled with
  | Some reason => io_fail (HE_Transport (port_error (PE_Cancelled reason) "socks5.handshake"))
  | None =>
    _ <-- write_frame (encode_method_request (bool_decide (is_Some credentials)));;
    answer <-- read_frame_exact 2 "socks5.method";;
    method <-- io_result (parse_method_response answer);;
    _ <-- match method with UsernamePassword => authenticate_userpass credentials | NoAuthentication => io_ret tt end;;
    request <-- io_result (encode_connect_request address port);;
    _ <-- write_frame request;;
    frame <-- read_connect_response;;
    response <-- io_result (parse_connect_response frame);;
    if is_success (cr_reply response) then io_ret tt else io_fail (HE_ProxyRejected (cr_reply response))
  end.

(** ** Frames round trip *)

(** An address a frame can carry. *)
Definition address_fits (a : Socks5Address) : Prop :=
  match a with
  | SIp a => valid_addr a
  | SDomain d => d <> [] /\ bytes_len d <= u8_max
  end.

Lemma encode_address_fits a : address_fits a -> exists body, encode_address a = Ok body.
Proof.
  destruct a as [[a|a]|d]; cbn; [by eexists..|]. intros [Hne Hl].
  rewrite bool_decide_eq_false_2 by done. destruct (Z.ltb_spec u8_max (bytes_len d)); [lia|]. by eexists.
Qed.

Lemma byte_b8 z : 0 <= z < 256 -> byte_to_Z (b8 z) = z.
Proof. apply byte_of_Z_to. Qed.

Lemma b8_byte b : b8 (byte_to_Z b) = b.
Proof. apply byte_of_to_Z. Qed.

(** [decode_address] reads what [encode_address] writes, and what follows is left. *)
Lemma decode_encode_address pre a body rest :
  address_fits a -> encode_address a = Ok body ->
  decode_address (pre ++ body ++ rest) (length pre) = Ok (a, (length pre + length body)%nat).
Proof.
  intros Hfit He. unfold decode_address.
  assert (Hsl : forall k b r, slice (pre ++ k ++ b ++ r) (length pre + length k) (length pre + length k + length b) = Some b).
  { intros k b r. unfold slice.
    rewrite !length_app, (proj2 (Nat.leb_le _ _)), (proj2 (Nat.leb_le _ _)) by lia. cbn [andb]. f_equal.
    replace (pre ++ k ++ b ++ r) with ((pre ++ k) ++ b ++ r) by by rewrite <-app_assoc.
    rewrite <-length_app, drop_app_length. replace (length (pre ++ k) + length b - length (pre ++ k))%nat with (length b) by lia.
    apply take_app_length. }
  assert (Hhd : forall b l, (pre ++ b :: l) !! length pre = Some b) by (intros b l; by apply list_lookup_middle).
  destruct a as [[a|a]|d]; cbn [encode_address] in He.
  - injection He as <-. change ((b8 1 :: v4_octets a) ++ rest) with (b8 1 :: v4_octets a ++ rest). rewrite Hhd.
    change (b8 1 :: v4_octets a ++ rest) with ([b8 1] ++ v4_octets a ++ rest). cbn [ok_or mbind result_bind]. rewrite byte_b8 by lia. cbn [Z.eqb].
    replace (length pre + 5)%nat with (length pre + length [b8 1] + length (v4_octets a))%nat
      by (unfold v4_octets; rewrite length_be_bytes; cbn; lia).
    replace (length pre + 1)%nat with (length pre + length [b8 1])%nat by done.
    rewrite Hsl. cbn [ok_or mbind result_bind]. unfold v4_octets. rewrite from_be_be_bytes_small by (cbn in *; lia).
    rewrite length_be_bytes. cbn [length]. rewrite length_be_bytes. do 2 f_equal. lia.
  - injection He as <-. change ((b8 4 :: v6_octets a) ++ rest) with (b8 4 :: v6_octets a ++ rest). rewrite Hhd.
    change (b8 4 :: v6_octets a ++ rest) with ([b8 4] ++ v6_octets a ++ rest). cbn [ok_or mbind result_bind]. rewrite byte_b8 by lia. cbn [Z.eqb Pos.eqb].
    replace (length pre + 17)%nat with (length pre + length [b8 4] + length (v6_octets a))%nat
      by (unfold v6_octets; rewrite length_be_bytes; cbn; lia).
    replace (length pre + 1)%nat with (length pre + length [b8 4])%nat by done.
    rewrite Hsl. cbn [ok_or mbind result_bind]. unfold v6_octets. rewrite from_be_be_bytes_small by (cbn in *; lia).
    rewrite length_be_bytes. cbn [length]. rewrite length_be_bytes. do 2 f_equal. lia.
  - destruct Hfit as [Hne Hl]. rewrite bool_decide_eq_false_2 in He by done.
    destruct (Z.ltb_spec u8_max (bytes_len d)) as [?|_]; [lia|]. cbn [orb] in He. injection He as <-.
    change ((b8 3 :: b8 (bytes_len d) :: d) ++ rest) with (b8 3 :: b8 (bytes_len d) :: d ++ rest). rewrite Hhd.
    change (b8 3 :: b8 (bytes_len d) :: d ++ rest) with ([b8 3; b8 (bytes_len d)] ++ d ++ rest). cbn [ok_or mbind result_bind]. rewrite byte_b8 by lia. cbn [Z.eqb Pos.eqb].
    assert ((pre ++ [b8 3; b8 (bytes_len d)] ++ d ++ rest) !! (length pre + 1)%nat = Some (b8 (bytes_len d))) as ->.
    { rewrite lookup_app_r by lia. by replace (length pre + 1 - length pre)%nat with 1%nat by lia. }
    cbn [ok_or mbind result_bind]. unfold u8_max in Hl. rewrite byte_b8 by (unfold bytes_len in *; lia).
    replace (Z.to_nat (bytes_len d)) with (length d) by (unfold bytes_len; lia).
    replace (length pre + 2)%nat with (length pre + length [b8 3; b8 (bytes_len d)])%nat by done.
    rewrite Hsl. cbn [ok_or mbind result_bind]. unfold socks5_domain. rewrite bool_decide_eq_false_2 by done.
    destruct (Z.ltb_spec u8_max (bytes_len d)) as [?|_]; [unfold u8_max in *; lia|]. cbn [orb mbind result_bind length].
    do 2 f_equal. lia.
Qed.

Lemma slice_some f i j x :
  slice f i j = Some x -> (i <= j <= length f)%nat /\ length x = (j - i)%nat /\ drop i f = x ++ drop j f.
Proof.
  unfold slice. destruct (Nat.leb_spec j (length f)), (Nat.leb_spec i j); cbn [andb]; try done.
  intros [= <-]. split; [lia|]. split; [rewrite length_take, length_drop; lia|].
  rewrite <-(take_drop (j - i) (drop i f)) at 1. f_equal. rewrite drop_drop. f_equal. lia.
Qed.

Lemma drop_lookup {A} (l : list A) i x : l !! i = Some x -> drop i l = x :: drop (S i) l.
Proof. intros H. by rewrite (drop_S l x i). Qed.

Lemma be_bytes_of n l : length l = n -> be_bytes n (from_be l) = l.
Proof. intros <-. apply be_bytes_from_be. Qed.

(** And every address that is read is one that can be written. *)
Lemma encode_decode_address frame offset a stop :
  decode_address frame offset = Ok (a, stop) ->
  exists body, encode_address a = Ok body /\ address_fits a /\ stop = (offset + length body)%nat /\
    drop offset frame = body ++ drop stop frame /\ (stop <= length frame)%nat.
Proof.
  unfold decode_address. intros H. apply bind_ok in H as (t & Ht & H). apply ok_or_ok in Ht.
  apply drop_lookup in Ht. assert (Etb : t = b8 (byte_to_Z t)) by (by rewrite b8_byte).
  destruct (Z.eqb_spec (byte_to_Z t) 1) as [E1|_]; [|destruct (Z.eqb_spec (byte_to_Z t) 3) as [E3|_];
    [|destruct (Z.eqb_spec (byte_to_Z t) 4) as [E4|_]; [|done]]].
  - apply bind_ok in H as (bytes & Hb & H). apply ok_or_ok, slice_some in Hb as (Hle & Hlen & Hd). injection H as <- <-.
    assert (Hl : length bytes = 4%nat) by lia. exists (b8 1 :: be_bytes 4 (from_be bytes)). split; [done|].
    split; [cbn; pose proof (from_be_range bytes) as Hr; rewrite Hl in Hr; exact Hr|].
    split; [cbn; rewrite ?length_be_bytes; lia|]. split; [|lia].
    rewrite Ht, Etb, E1, be_bytes_of by done. cbn [app]. f_equal. rewrite <-Hd. f_equal. lia.
  - apply bind_ok in H as (lb & Hlb & H). apply ok_or_ok, drop_lookup in Hlb.
    apply bind_ok in H as (bytes & Hb & H). apply ok_or_ok, slice_some in Hb as (Hle & Hlen & Hd).
    apply bind_ok in H as (adr & Hadr & H). injection H as <- <-. unfold socks5_domain in Hadr.
    destruct (bool_decide (bytes = [])) eqn:Hne; [done|]. apply bool_decide_eq_false in Hne. cbn [orb] in Hadr.
    destruct (Z.ltb_spec u8_max (bytes_len bytes)) as [?|Hl8]; [done|]. injection Hadr as <-.
    pose proof (byte_to_Z_range lb) as Hr.
    assert (Hbl : bytes_len bytes = byte_to_Z lb) by (unfold bytes_len; rewrite Hlen; lia).
    exists (b8 3 :: b8 (bytes_len bytes) :: bytes). split.
    { cbn. rewrite bool_decide_eq_false_2 by done. destruct (Z.ltb_spec u8_max (bytes_len bytes)); [lia|done]. }
    split; [done|]. split; [cbn; lia|]. split; [|lia].
    rewrite Ht, Etb, E3, Hbl, b8_byte. cbn [app]. f_equal. replace (S offset) with (offset + 1)%nat by lia.
    rewrite Hlb. f_equal. rewrite <-Hd. f_equal. lia.
  - apply bind_ok in H as (bytes & Hb & H). apply ok_or_ok, slice_some in Hb as (Hle & Hlen & Hd). injection H as <- <-.
    assert (Hl : length bytes = 16%nat) by lia. exists (b8 4 :: be_bytes 16 (from_be bytes)). split; [done|].
    split; [cbn; pose proof (from_be_range bytes) as Hr; rewrite Hl in Hr; exact Hr|].
    split; [cbn; rewrite ?length_be_bytes; lia|]. split; [|lia].
    rewrite Ht, Etb, E4, be_bytes_of by done. cbn [app]. f_equal. rewrite <-Hd. f_equal. lia.
Qed.

(** The reply of a proxy to CONNECT. *)
Definition connect_reply (code : Z) (bound : Socks5Address) (port : Z) (frame : list byte) : Prop :=
  exists body, encode_address bound = Ok body /\ address_fits bound /\ 0 <= code < 256 /\ 0 <= port <= u16_max /\
    frame = [b8 SOCKS5_VERSION; b8 code; b8 0] ++ body ++ be_bytes 2 port.

(** The parser accepts exactly the replies the protocol defines, with the fields they
    were made of. *)
Lemma parse_connect_response_eq frame r :
  parse_connect_response frame = Ok r <->
  exists code, connect_reply code (cr_bound_address r) (cr_bound_port r) frame /\ cr_reply r = reply_from_wire code.
Proof.
  split.
  - intros H. destruct frame as [|v [|c [|z [|t rest]]]]; try done. cbn [parse_connect_response] in H.
    destruct (Z.eqb_spec (byte_to_Z v) SOCKS5_VERSION) as [Ev|]; cbn [negb] in H; [|done].
    destruct (Z.eqb_spec (byte_to_Z z) 0) as [Ez|]; cbn [negb] in H; [|done].
    apply bind_ok in H as ([bound stop] & Hd & H). apply encode_decode_address in Hd as (body & He & Hfit & Es & Hd & Hle).
    destruct (Nat.ltb_spec (length (v :: c :: z :: t :: rest)) (stop + 2)) as [?|H1]; [done|].
    destruct (Nat.ltb_spec (stop + 2) (length (v :: c :: z :: t :: rest))) as [?|H2]; [done|]. injection H as <-. cbn [cr_bound_address cr_bound_port cr_reply].
    exists (byte_to_Z c). split; [|done]. exists body. split; [done|]. split; [done|]. split; [apply byte_to_Z_range|].
    set (tail := drop stop (v :: c :: z :: t :: rest)) in *.
    assert (Hl : length tail = 2%nat) by (unfold tail; rewrite length_drop; lia).
    assert (take 2 tail = tail) as -> by (apply take_ge; lia).
    pose proof (from_be_range tail) as Hr. rewrite Hl in Hr. split; [cbn in Hr; unfold u16_max; lia|].
    rewrite be_bytes_of by done. rewrite <-Hd. cbn [drop app].
    rewrite <-Ev, <-Ez, !b8_byte. done.
  - intros (code & (body & He & Hfit & Hc & Hp & ->) & Hr). destruct r as [reply bound port]. cbn [cr_reply cr_bound_address cr_bound_port] in *. subst reply.
    assert (Hne : exists x b', body = x :: b').
    { destruct bound as [[a|a]|d]; cbn in He; [injection He as <-; by eexists _, _..|]. destruct (_ || _); [done|]. injection He as <-. by eexists _, _. }
    destruct Hne as (x & b' & Eb).
    pose proof (decode_encode_address [b8 SOCKS5_VERSION; b8 code; b8 0] bound body (be_bytes 2 port) Hfit He) as HD.
    rewrite Eb in HD |- *. cbn [app] in HD |- *. cbn [parse_connect_response].
    rewrite !byte_b8 by (unfold SOCKS5_VERSION; lia). rewrite Z.eqb_refl. cbn [negb]. cbn [length] in HD.
    change (0 =? 0) with true. cbn [negb]. rewrite HD. cbn [mbind result_bind].
    change (3 + S (length b'))%nat with (3 + length (x :: b'))%nat. rewrite <-Eb.
    assert (Hlen : length (b8 SOCKS5_VERSION :: b8 code :: b8 0 :: x :: b' ++ be_bytes 2 port) = (3 + length body + 2)%nat).
    { rewrite Eb. cbn [length]. rewrite length_app, length_be_bytes. lia. }
    rewrite Hlen. cbn [length]. rewrite Nat.ltb_irrefl. f_equal. f_equal.
    change (b8 SOCKS5_VERSION :: b8 code :: b8 0 :: x :: b' ++ be_bytes 2 port)
      with ([b8 SOCKS5_VERSION; b8 code; b8 0] ++ (x :: b') ++ be_bytes 2 port). rewrite <-Eb.
    replace (drop (3 + length body) ([b8 SOCKS5_VERSION; b8 code; b8 0] ++ body ++ be_bytes 2 port)) with (be_bytes 2 port)
      by (cbn [app drop Nat.add]; by rewrite drop_app_length).
    rewrite take_ge by by rewrite length_be_bytes. apply from_be_be_bytes_small. unfold u16_max in Hp. cbn. lia.
Qed.

(** ** The handshake succeeds exactly with a willing proxy *)

Lemma outbound_loop_eq s : forall acc need,
  delivers s -> (need <= length (bytes_of s))%nat -> outbound_loop s acc need = read_loop s acc need.
Proof.
  induction s as [|c s IH]; intros acc need Hs Hn.
  - cbn in Hn. by assert (need = 0%nat) as -> by lia.
  - apply list.Forall_cons in Hs as [(b & -> & Hb) Hs]. change (bytes_of (Data b :: s)) with (b ++ bytes_of s) in *.
    rewrite length_app in Hn. destruct need as [|need]; [done|]. destruct b as [|x b]; [done|]. cbn [outbound_loop read_loop].
    destruct (Nat.leb_spec (length (x :: b)) (S need)); [|done]. apply IH; [done|lia].
Qed.

Lemma outbound_loop_end s : forall acc need,
  delivers s -> (length (bytes_of s) < need)%nat -> outbound_loop s acc need = (Ok CleanEof, []).
Proof.
  induction s as [|c s IH]; intros acc need Hs Hn.
  - destruct need; [cbn in Hn; lia|done].
  - apply list.Forall_cons in Hs as [(b & -> & Hb) Hs]. change (bytes_of (Data b :: s)) with (b ++ bytes_of s) in *.
    rewrite length_app in Hn. destruct need as [|need]; [lia|]. destruct b as [|x b]; [done|]. cbn [outbound_loop].
    destruct (Nat.leb_spec (length (x :: b)) (S need)) as [Hle|Hgt]; [|lia]. apply IH; [done|lia].
Qed.

(** A connection whose stream delivers and whose writes succeed. *)
Definition ready (c : Conn) : Prop := delivers (co_in c) /\ co_writes c = [].

(** [c'] is [c] after reading [bytes] and writing [frames]. *)
Definition advanced (c c' : Conn) (bytes : list byte) (frames : list (list byte)) : Prop :=
  ready c' /\ bytes_of (co_in c) = bytes ++ bytes_of (co_in c') /\ co_out c' = co_out c ++ frames.

Lemma advanced_refl c : ready c -> advanced c c [] [].
Proof. intros H. split; [done|]. by rewrite app_nil_r. Qed.

Lemma advanced_trans c1 c2 c3 b1 b2 f1 f2 :
  advanced c1 c2 b1 f1 -> advanced c2 c3 b2 f2 -> advanced c1 c3 (b1 ++ b2) (f1 ++ f2).
Proof.
  intros (_ & H1 & O1) (R & H2 & O2). split; [done|]. rewrite H1, H2, O2, O1. by rewrite <-!app_assoc.
Qed.

Lemma read_ok c n op f rest :
  ready c -> bytes_of (co_in c) = f ++ rest -> length f = n ->
  exists c', read_frame_exact n op c = (Ok f, c') /\ advanced c c' f [].
Proof.
  intros [Hd Hw] Hb Hn. unfold read_frame_exact, outbound_read_exact.
  rewrite outbound_loop_eq by (done || (rewrite Hb, length_app; lia)).
  destruct (read_loop_ok (co_in c) [] n) as (s' & -> & Hd' & Hb'); [done|rewrite Hb, length_app; lia|].
  rewrite Hb in *. assert (Et : take n (f ++ rest) = f) by (rewrite <-Hn; apply take_app_length).
  assert (Ed : drop n (f ++ rest) = rest) by (rewrite <-Hn; apply drop_app_length).
  rewrite Et in *. rewrite Ed in *. cbn [app]. rewrite Hn, Nat.eqb_refl. eexists. split; [done|].
  split; [split; done|]. cbn [co_in co_out]. by rewrite Hb, Hb', app_nil_r.
Qed.

Lemma read_inv c n op f c' :
  ready c -> read_frame_exact n op c = (Ok f, c') -> length f = n /\ advanced c c' f [].
Proof.
  intros Hr H. pose proof Hr as [Hd Hw]. destruct (Nat.le_gt_cases n (length (bytes_of (co_in c)))) as [Hle|Hgt].
  - destruct (read_ok c n op (take n (bytes_of (co_in c))) (drop n (bytes_of (co_in c)))) as (c2 & H2 & Ha);
      [done|by rewrite take_drop|rewrite length_take; lia|].
    rewrite H in H2. injection H2 as -> ->. split; [rewrite length_take; lia|done].
  - unfold read_frame_exact, outbound_read_exact in H. by rewrite outbound_loop_end in H by done.
Qed.

Lemma write_ok c f : ready c -> exists c', write_frame f c = (Ok tt, c') /\ advanced c c' [] [f].
Proof.
  intros [Hd Hw]. unfold write_frame. rewrite Hw. eexists. split; [done|]. split; [done|]. done.
Qed.

Lemma io_bind_inv {A B} (x : IO A) (f : A -> IO B) c b c2 :
  io_bind x f c = (Ok b, c2) -> exists a c1, x c = (Ok a, c1) /\ f a c1 = (Ok b, c2).
Proof. unfold io_bind. destruct (x c) as [[a|e] c1]; [|done]. intros H. by exists a, c1. Qed.

Lemma io_result_inv {A} (r : result Socks5ProtocolError A) c a c' : io_result r c = (Ok a, c') -> r = Ok a /\ c' = c.
Proof. unfold io_result. destruct r; [|done]. by intros [= -> ->]. Qed.

Lemma io_result_ok {A} (r : result Socks5ProtocolError A) a c : r = Ok a -> io_result r c = (Ok a, c).
Proof. by intros ->. Qed.

Lemma io_bind_ok {A B} (x : IO A) (f : A -> IO B) c a c1 : x c = (Ok a, c1) -> io_bind x f c = f a c1.
Proof. unfold io_bind. by intros ->. Qed.

Lemma frame_write_inv c f u c' : ready c -> write_frame f c = (Ok u, c') -> advanced c c' [] [f].
Proof. intros Hr H. destruct (write_ok c f Hr) as (c2 & H2 & Ha). rewrite H in H2. by injection H2 as _ ->. Qed.

Lemma connect_inv c frame c' :
  ready c -> read_connect_response c = (Ok frame, c') -> advanced c c' frame [].
Proof.
  intros Hr H. unfold read_connect_response in H. apply io_bind_inv in H as (h & c1 & H1 & H).
  apply read_inv in H1 as [L1 A1]; [|done]. pose proof (proj1 A1) as R1.
  assert (Hone : forall n, (rest <-- read_frame_exact n "socks5.connect";; io_ret (h ++ rest)) c1 = (Ok frame, c') ->
            advanced c c' frame []).
  { intros n H2. apply io_bind_inv in H2 as (r & c2 & H2 & E). apply read_inv in H2 as [_ A2]; [|done].
    injection E as <- <-. exact (advanced_trans _ _ _ _ _ _ _ A1 A2). }
  destruct (_ =? 1); [by apply (Hone 6%nat)|]. destruct (_ =? 4); [by apply (Hone 18%nat)|]. destruct (_ =? 3); [|done].
  apply io_bind_inv in H as (l & c2 & H2 & H). apply read_inv in H2 as [_ A2]; [|done]. pose proof (proj1 A2) as R2.
  destruct (_ =? 0)%nat; [done|]. apply io_bind_inv in H as (r & c3 & H3 & E). apply read_inv in H3 as [_ A3]; [|done].
  injection E as <- <-. exact (advanced_trans _ _ _ _ _ _ _ A1 (advanced_trans _ _ _ _ _ _ _ A2 A3)).
Qed.

Lemma connect_ok c code bound port frame rest :
  ready c -> connect_reply code bound port frame -> bytes_of (co_in c) = frame ++ rest ->
  exists c', read_connect_response c = (Ok frame, c') /\ advanced c c' frame [].
Proof.
  intros Hr (body & He & Hfit & Hc & Hp & ->) Hb. unfold read_connect_response.
  set (h := [b8 SOCKS5_VERSION; b8 code; b8 0]) in *.
  assert (G : forall t tl, body = t :: tl -> forall n, length (tl ++ be_bytes 2 port) = n ->
     exists c1, read_frame_exact 4 "socks5.connect" c = (Ok (h ++ [t]), c1) /\ advanced c c1 (h ++ [t]) [] /\
       bytes_of (co_in c1) = (tl ++ be_bytes 2 port) ++ rest).
  { intros t tl Eb n Hn. destruct (read_ok c 4 "socks5.connect" (h ++ [t]) ((tl ++ be_bytes 2 port) ++ rest)) as (c1 & H1 & A1);
      [done|rewrite Hb, Eb; unfold h; cbn [app]; by rewrite <-!app_assoc|done|]. exists c1. split; [done|]. split; [done|].
    destruct A1 as (_ & E & _). rewrite Hb, Eb in E. apply (app_inv_head (h ++ [t])). rewrite <-E. unfold h. cbn [app]. by rewrite <-!app_assoc. }
  destruct bound as [[a|a]|d]; cbn [encode_address] in He.
  - injection He as <-. destruct (G (b8 1) (v4_octets a) eq_refl _ eq_refl) as (c1 & H1 & A1 & B1).
    rewrite (io_bind_ok _ _ _ _ _ H1). change (byte_to_Z (default Byte.x00 ((h ++ [b8 1]) !! 3%nat))) with 1. cbv zeta. cbn [Z.eqb Pos.eqb].
    destruct (read_ok c1 6 "socks5.connect" (v4_octets a ++ be_bytes 2 port) rest) as (c2 & H2 & A2);
      [apply A1|done|rewrite length_app; unfold v4_octets; by rewrite !length_be_bytes|].
    rewrite (io_bind_ok _ _ _ _ _ H2). exists c2. split; [reflexivity|]. exact (advanced_trans _ _ _ _ _ _ _ A1 A2).
  - injection He as <-. destruct (G (b8 4) (v6_octets a) eq_refl _ eq_refl) as (c1 & H1 & A1 & B1).
    rewrite (io_bind_ok _ _ _ _ _ H1). change (byte_to_Z (default Byte.x00 ((h ++ [b8 4]) !! 3%nat))) with 4. cbv zeta. cbn [Z.eqb Pos.eqb].
    destruct (read_ok c1 18 "socks5.connect" (v6_octets a ++ be_bytes 2 port) rest) as (c2 & H2 & A2);
      [apply A1|done|rewrite length_app; unfold v6_octets; by rewrite !length_be_bytes|].
    rewrite (io_bind_ok _ _ _ _ _ H2). exists c2. split; [reflexivity|]. exact (advanced_trans _ _ _ _ _ _ _ A1 A2).
  - destruct Hfit as [Hne Hl]. rewrite bool_decide_eq_false_2 in He by done.
    destruct (Z.ltb_spec u8_max (bytes_len d)) as [?|_]; [lia|]. cbn [orb] in He. injection He as <-.
    destruct (G (b8 3) (b8 (bytes_len d) :: d) eq_refl _ eq_refl) as (c1 & H1 & A1 & B1).
    rewrite (io_bind_ok _ _ _ _ _ H1). change (byte_to_Z (default Byte.x00 ((h ++ [b8 3]) !! 3%nat))) with 3. cbv zeta. cbn [Z.eqb Pos.eqb].
    destruct (read_ok c1 1 "socks5.connect" [b8 (bytes_len d)] ((d ++ be_bytes 2 port) ++ rest)) as (c2 & H2 & A2); [apply A1|done|done|].
    rewrite (io_bind_ok _ _ _ _ _ H2). change (default Byte.x00 ([b8 (bytes_len d)] !! 0%nat)) with (b8 (bytes_len d)). cbv zeta.
    assert (0 < bytes_len d) by (unfold bytes_len; destruct d; cbn; lia || done).
    unfold u8_max in Hl. rewrite byte_b8 by lia.
    replace (Z.to_nat (bytes_len d)) with (length d) by (unfold bytes_len; lia).
    destruct (Nat.eqb_spec (length d) 0) as [E0|_]; [unfold bytes_len in *; lia|].
    destruct A2 as (R2 & E2 & O2). destruct (read_ok c2 (length d + 2) "socks5.connect" (d ++ be_bytes 2 port) rest) as (c3 & H3 & A3);
      [done|rewrite B1 in E2; cbn in E2; by injection E2 as E2|by rewrite length_app, length_be_bytes|].
    rewrite (io_bind_ok _ _ _ _ _ H3). exists c3. split; [reflexivity|].
    refine (advanced_trans _ _ _ (h ++ [b8 3]) _ [] [] A1 (advanced_trans _ _ _ [b8 (bytes_len d)] _ [] [] _ A3)). done.
Qed.

(** A proxy that lets the client through: what it sends, and the frames it is sent. It
    asks for a password only a client that offered one. *)
Inductive proxy_accepts (address : Socks5Address) (port : Z) :
    option (list byte * list byte) -> list byte -> list (list byte) -> Prop :=
| PA_open credentials request bound bport reply :
    encode_connect_request address port = Ok request -> connect_reply 0 bound bport reply ->
    proxy_accepts address port credentials ([b8 SOCKS5_VERSION; b8 NO_AUTHENTICATION] ++ reply)
      [encode_method_request (bool_decide (is_Some credentials)); request]
| PA_userpass username password login request bound bport reply :
    encode_userpass_request username password = Ok login ->
    encode_connect_request address port = Ok request -> connect_reply 0 bound bport reply ->
    proxy_accepts address port (Some (username, password))
      ([b8 SOCKS5_VERSION; b8 USERNAME_PASSWORD] ++ [b8 USERPASS_VERSION; b8 0] ++ reply)
      [encode_method_request true; login; request].

Lemma b8_eq x z : byte_to_Z x = z -> x = b8 z.
Proof. intros <-. by rewrite b8_byte. Qed.

Lemma method_inv frame m :
  parse_method_response frame = Ok m ->
  frame = [b8 SOCKS5_VERSION; b8 match m with NoAuthentication => NO_AUTHENTICATION | UsernamePassword => USERNAME_PASSWORD end].
Proof.
  destruct frame as [|v [|x [|]]]; try done. unfold parse_method_response.
  destruct (Z.eqb_spec (byte_to_Z v) SOCKS5_VERSION) as [->%b8_eq|]; [|done]. cbn [negb].
  destruct (Z.eqb_spec (byte_to_Z x) NO_AUTHENTICATION) as [->%b8_eq|]; [by intros [= <-]|].
  destruct (Z.eqb_spec (byte_to_Z x) USERNAME_PASSWORD) as [->%b8_eq|]; [by intros [= <-]|]. by destruct (_ =? _).
Qed.

Lemma userpass_inv frame u : parse_userpass_response frame = Ok u -> frame = [b8 USERPASS_VERSION; b8 0].
Proof.
  destruct frame as [|v [|x [|]]]; try done. unfold parse_userpass_response.
  destruct (Z.eqb_spec (byte_to_Z v) USERPASS_VERSION) as [->%b8_eq|]; [|done].
  destruct (Z.eqb_spec (byte_to_Z x) 0) as [->%b8_eq|]; done.
Qed.

(** The last part: the request, and a reply that grants it. *)
Definition connect_part (address : Socks5Address) (port : Z) : IO unit :=
  request <-- io_result (encode_connect_request address port);;
  _ <-- write_frame request;;
  frame <-- read_connect_response;;
  response <-- io_result (parse_connect_response frame);;
  if is_success (cr_reply response) then io_ret tt else io_fail (HE_ProxyRejected (cr_reply response)).

Lemma success_code code : 0 <= code < 256 -> is_success (reply_from_wire code) = true -> code = 0.
Proof.
  intros _. unfold reply_from_wire. destruct (Z.eqb_spec code 0); [done|]. by repeat destruct (_ =? _).
Qed.

Lemma connect_part_inv address port c c' :
  ready c -> connect_part address port c = (Ok tt, c') ->
  exists request bound bport reply, encode_connect_request address port = Ok request /\
    connect_reply 0 bound bport reply /\ advanced c c' reply [request].
Proof.
  intros Hr H. unfold connect_part in H. apply io_bind_inv in H as (request & c1 & [He ->]%io_result_inv & H).
  apply io_bind_inv in H as (u & c1 & Hw & H). apply frame_write_inv in Hw; [|done]. pose proof (proj1 Hw) as R1.
  apply io_bind_inv in H as (frame & c2 & Hf & H). apply connect_inv in Hf; [|done].
  apply io_bind_inv in H as (resp & c3 & [Hp ->]%io_result_inv & H).
  apply parse_connect_response_eq in Hp as (code & Hrep & Hc). rewrite Hc in H.
  destruct (is_success (reply_from_wire code)) eqn:Hs; [|done]. injection H as <-.
  apply success_code in Hs; [|by destruct Hrep as (? & _ & _ & ? & _)]. subst code.
  exists request, (cr_bound_address resp), (cr_bound_port resp), frame. split; [done|]. split; [done|].
  exact (advanced_trans _ _ _ _ _ _ _ Hw Hf).
Qed.

Lemma connect_part_ok address port c request bound bport reply rest :
  ready c -> encode_connect_request address port = Ok request -> connect_reply 0 bound bport reply ->
  bytes_of (co_in c) = reply ++ rest ->
  exists c', connect_part address port c = (Ok tt, c') /\ advanced c c' reply [request].
Proof.
  intros Hr He Hrep Hb. unfold connect_part. rewrite (io_bind_ok _ _ _ _ _ (io_result_ok _ _ c He)).
  destruct (write_ok c request Hr) as (c1 & H1 & A1). rewrite (io_bind_ok _ _ _ _ _ H1). destruct A1 as (R1 & B1 & O1).
  destruct (connect_ok c1 0 bound bport reply rest R1 Hrep) as (c2 & H2 & A2); [by rewrite <-Hb, B1|].
  rewrite (io_bind_ok _ _ _ _ _ H2).
  assert (Hp : parse_connect_response reply = Ok (mk_connect_response Succeeded bound bport))
    by (apply parse_connect_response_eq; by exists 0).
  rewrite (io_bind_ok _ _ _ _ _ (io_result_ok _ _ c2 Hp)). exists c2. split; [done|].
  by apply (advanced_trans c c1 c2 [] reply [request] []).
Qed.

Lemma perform_handshake_eq address port credentials :
  perform_handshake address port credentials None =
  (_ <-- write_frame (encode_method_request (bool_decide (is_Some credentials)));;
   answer <-- read_frame_exact 2 "socks5.method";;
   method <-- io_result (parse_method_response answer);;
   _ <-- match method with UsernamePassword => authenticate_userpass credentials | NoAuthentication => io_ret tt end;;
   connect_part address port).
Proof. done. Qed.

Lemma authenticate_inv credentials c c' :
  ready c -> authenticate_userpass credentials c = (Ok tt, c') ->
  exists username password login, credentials = Some (username, password) /\
    encode_userpass_request username password = Ok login /\ advanced c c' [b8 USERPASS_VERSION; b8 0] [login].
Proof.
  intros Hr H. destruct credentials as [[username password]|]; [|done]. cbn [authenticate_userpass] in H.
  apply io_bind_inv in H as (login & c1 & [He ->]%io_result_inv & H). apply io_bind_inv in H as (u & c1 & Hw & H).
  apply frame_write_inv in Hw; [|done]. pose proof (proj1 Hw) as R1. apply io_bind_inv in H as (answer & c2 & Ha & H).
  apply read_inv in Ha as [_ Ha]; [|done]. apply io_result_inv in H as [->%userpass_inv ->].
  exists username, password, login. split; [done|]. split; [done|]. exact (advanced_trans _ _ _ _ _ _ _ Hw Ha).
Qed.

Lemma authenticate_ok username password login c rest :
  ready c -> encode_userpass_request username password = Ok login ->
  bytes_of (co_in c) = [b8 USERPASS_VERSION; b8 0] ++ rest ->
  exists c', authenticate_userpass (Some (username, password)) c = (Ok tt, c') /\
    advanced c c' [b8 USERPASS_VERSION; b8 0] [login].
Proof.
  intros Hr He Hb. cbn [authenticate_userpass]. rewrite (io_bind_ok _ _ _ _ _ (io_result_ok _ _ c He)).
  destruct (write_ok c login Hr) as (c1 & H1 & R1 & B1 & O1). rewrite (io_bind_ok _ _ _ _ _ H1).
  destruct (read_ok c1 2 "socks5.userpass" [b8 USERPASS_VERSION; b8 0] rest R1) as (c2 & H2 & A2); [by rewrite <-Hb, B1|done|].
  rewrite (io_bind_ok _ _ _ _ _ H2). exists c2. split; [done|]. by apply (advanced_trans c c1 c2 [] _ [login] []).
Qed.

Lemma handshake_inv address port credentials c c' :
  ready c -> perform_handshake address port credentials None c = (Ok tt, c') ->
  exists bytes frames, proxy_accepts address port credentials bytes frames /\ advanced c c' bytes frames.
Proof.
  intros Hr. rewrite perform_handshake_eq.
  intros H. apply io_bind_inv in H as (u & c1 & Hw & H). apply frame_write_inv in Hw; [|done]. pose proof (proj1 Hw) as R1.
  apply io_bind_inv in H as (answer & c2 & Ha & H). apply read_inv in Ha as [_ Ha]; [|done]. pose proof (proj1 Ha) as R2.
  pose proof (advanced_trans _ _ _ _ _ _ _ Hw Ha) as A2.
  apply io_bind_inv in H as (method & c3 & [->%method_inv ->]%io_result_inv & H).
  apply io_bind_inv in H as ([] & c3 & Hm & H). destruct method.
  - injection Hm as <-. apply connect_part_inv in H as (request & bound & bport & reply & He & Hrep & A3); [|done].
    eexists _, _. split; [by econstructor|]. exact (advanced_trans _ _ _ _ _ _ _ A2 A3).
  - apply authenticate_inv in Hm as (username & password & login & -> & Hl & A3); [|done].
    apply connect_part_inv in H as (request & bound & bport & reply & He & Hrep & A4); [|by destruct A3].
    eexists _, _. split; [by eapply PA_userpass|].
    exact (advanced_trans _ _ _ _ _ _ _ A2 (advanced_trans _ _ _ _ _ _ _ A3 A4)).
Qed.

Lemma handshake_ok address port credentials c bytes frames rest :
  ready c -> proxy_accepts address port credentials bytes frames -> bytes_of (co_in c) = bytes ++ rest ->
  exists c', perform_handshake address port credentials None c = (Ok tt, c') /\ advanced c c' bytes frames.
Proof.
  intros Hr Hacc Hb. rewrite perform_handshake_eq.
  destruct (write_ok c (encode_method_request (bool_decide (is_Some credentials))) Hr) as (c1 & H1 & A1).
  rewrite (io_bind_ok _ _ _ _ _ H1). pose proof A1 as (R1 & B1 & _). rewrite Hb in B1. cbn [app] in B1.
  destruct Hacc as [credentials request bound bport reply He Hrep|username password login request bound bport reply Hl He Hrep];
    rewrite <-!app_assoc in B1; symmetry in B1.
  - destruct (read_ok c1 2 "socks5.method" _ _ R1 B1 eq_refl) as (c2 & H2 & A2). rewrite (io_bind_ok _ _ _ _ _ H2).
    pose proof A2 as (R2 & B2 & _). rewrite B1 in B2. apply app_inv_head in B2. symmetry in B2.
    destruct (connect_part_ok address port c2 request bound bport reply rest R2 He Hrep B2) as (c3 & H3 & A3).
    exists c3. split; [exact H3|]. exact (advanced_trans _ _ _ _ _ _ _ (advanced_trans _ _ _ _ _ _ _ A1 A2) A3).
  - destruct (read_ok c1 2 "socks5.method" _ _ R1 B1 eq_refl) as (c2 & H2 & A2). rewrite (io_bind_ok _ _ _ _ _ H2).
    pose proof A2 as (R2 & B2 & _). rewrite B1 in B2. apply app_inv_head in B2. symmetry in B2.
    destruct (authenticate_ok username password login c2 _ R2 Hl B2) as (c3 & H3 & A3).
    pose proof A3 as (R3 & B3 & _). rewrite B2 in B3. apply app_inv_head in B3. symmetry in B3.
    destruct (connect_part_ok address port c3 request bound bport reply rest R3 He Hrep B3) as (c4 & H4 & A4).
    exists c4. split; [|exact (advanced_trans _ _ _ _ _ _ _ (advanced_trans _ _ _ _ _ _ _ A1 A2) (advanced_trans _ _ _ _ _ _ _ A3 A4))].
    rewrite (io_bind_ok _ _ _ _ _ (io_result_ok (parse_method_response [b8 SOCKS5_VERSION; b8 USERNAME_PASSWORD]) UsernamePassword c2 eq_refl)).
    by rewrite (io_bind_ok _ _ _ _ _ H3).
Qed.

(** The handshake succeeds with a proxy that lets the client through and with no other:
    it has then sent the frames the protocol asks for, in order, and has read the
    proxy's answers and not a byte more, in whatever pieces they came. *)
Theorem handshake_spec address port credentials c :
  ready c ->
  (forall c', perform_handshake address port credentials None c = (Ok tt, c') ->
     exists bytes frames, proxy_accepts address port credentials bytes frames /\ advanced c c' bytes frames) /\
  (forall bytes frames rest, proxy_accepts address port credentials bytes frames ->
     bytes_of (co_in c) = bytes ++ rest ->
     exists c', perform_handshake address port credentials None c = (Ok tt, c') /\ advanced c c' bytes frames).
Proof.
  intros Hr. split; [intros c'; by apply handshake_inv|intros bytes frames rest; by apply handshake_ok].
Qed.

(** ** Examples *)

Module SocksExamples.

Definition pass_login : list byte * list byte := ([b8 117], [b8 112]).
Definition target : Socks5Address := SDomain [b8 97; b8 98].

(** The proxy asks for the password and grants the request; the first byte of the
    tunnelled protocol follows. *)
Definition grant_frame : list byte := [b8 5; b8 0; b8 0] ++ (b8 1 :: v4_octets 2130706433) ++ be_bytes 2 1080.
Definition answers : list byte := [b8 5; b8 2] ++ [b8 1; b8 0] ++ grant_frame.
Definition reply_pieces : Stream :=
  [Data (take 3 answers); Data (take 6 (drop 3 answers)); Data (drop 9 answers ++ [b8 22])].
Definition conn : Conn := mk_conn reply_pieces [] [].

Lemma conn_ready : ready conn.
Proof. split; [|done]. repeat constructor; eexists; (split; [reflexivity|vm_compute; discriminate]). Qed.

Lemma handshake_spec_witness :
  exists c', perform_handshake target 443 (Some pass_login) None conn = (Ok tt, c') /\
    bytes_of (co_in c') = [b8 22] /\ length (co_out c') = 3%nat.
Proof.
  destruct (proj2 (handshake_spec target 443 (Some pass_login) conn conn_ready) answers
    [encode_method_request true; [b8 1; b8 1; b8 117; b8 1; b8 112];
     [b8 5; b8 1; b8 0] ++ (b8 3 :: b8 2 :: [b8 97; b8 98]) ++ be_bytes 2 443] [b8 22]) as (c' & H & A).
  - apply (PA_userpass target 443 (fst pass_login) (snd pass_login) _ _ (SIp (V4 2130706433)) 1080 grant_frame); [reflexivity..|].
    eexists. split; [reflexivity|]. split; [vm_compute; done|]. repeat split; vm_compute; discriminate || done.
  - reflexivity.
  - exists c'. split; [exact H|]. destruct A as (_ & B & O). split.
    + apply (app_inv_head answers). rewrite <-B. reflexivity.
    + by rewrite O.
Defined.

(** A proxy that wants a password the client does not have. *)
Example no_credentials :
  fst (perform_handshake target 443 None None (mk_conn [Data [b8 5; b8 2]] [] [])) = Err HE_CredentialsRequired.
Proof. reflexivity. Qed.

(** The end of the stream within the last frame. *)
Example cut_short :
  fst (perform_handshake target 443 None None (mk_conn [Data [b8 5; b8 0]; Data [b8 5; b8 0]] [] [])) =
  Err (HE_Transport (port_error PE_ProtocolViolation "socks5.connect")).
Proof. reflexivity. Qed.

End SocksExamples.
