(* ===== verification/Bootstrap.v ===== *)
(** * Addresses of DoH servers (src/backend/src/upstream/bootstrap.rs, http.rs)

    The answers of bootstrap queries, the resolver that asks for A and AAAA, the cache of
    addresses with its lifetimes, and the address resolver of the DoH transport on top of
    them. The exchange, the clock readings, how each wait ends and what other requests do
    to the shared cache meanwhile are arguments. *)

From S2P Require Import Prelude Message CacheModel Text Net Group Outcome Wire.

Definition DEFAULT_BOOTSTRAP_MIN_TTL : Duration := from_secs 5.
Definition DEFAULT_BOOTSTRAP_MAX_TTL : Duration := from_secs 3600.

(** ** Policy *)

Record AddressCachePolicy := mk_address_policy { ap_min_ttl : Duration; ap_max_ttl : Duration }.

(** [AddressCachePolicy::new] *)
Definition address_policy_new (min_ttl max_ttl : Duration) : option AddressCachePolicy :=
  if is_zero max_ttl || (max_ttl <? min_ttl) then None else Some (mk_address_policy min_ttl max_ttl).
Definition address_policy_defaults : AddressCachePolicy :=
  mk_address_policy DEFAULT_BOOTSTRAP_MIN_TTL DEFAULT_BOOTSTRAP_MAX_TTL.
Definition bound (p : AddressCachePolicy) (ttl : Duration) : Duration :=
  Z.min (Z.max ttl (ap_min_ttl p)) (ap_max_ttl p).

(** ** Answers *)

Inductive AnswerError := AE_Empty | AE_UnusableAddress | AE_MissingTtl.

Record BootstrapAnswer := mk_bootstrap_answer {
  ba_addresses : list IpAddr;
  ba_ttl : Duration;
  ba_valid_until : option Instant
}.

Definition is_unspecified (a : IpAddr) : bool := match a with V4 z | V6 z => z =? 0 end.

(** The loop of [normalize_addresses]. *)
Fixpoint normalize_loop (normalized addresses : list IpAddr) : result AnswerError (list IpAddr) :=
  match addresses with
  | [] => Ok normalized
  | a :: rest =>
    if is_unspecified a then Err AE_UnusableAddress
    else normalize_loop (if bool_decide (a ∈ normalized) then normalized else normalized ++ [a]) rest
  end.
Definition normalize_addresses (addresses : list IpAddr) : result AnswerError (list IpAddr) :=
  normalized ← normalize_loop [] addresses;
  if bool_decide (normalized = []) then Err AE_Empty else Ok normalized.

(** [BootstrapAnswer::new] *)
Definition bootstrap_answer_new (addresses : list IpAddr) (ttl : Duration) : result AnswerError BootstrapAnswer :=
  addresses ← normalize_addresses addresses;
  Ok (mk_bootstrap_answer addresses ttl None).

Definition min_list (l : list Z) : option Z :=
  match l with [] => None | x :: l' => Some (foldr Z.min x l') end.

(** hickory: [RData::A]/[RData::AAAA] and [Name::from_str]. *)
Class AddressOps (HH : Hickory) := {
  rdata_address : RData -> option IpAddr;
  name_from_str : chars -> option Name
}.

Section Bootstrap.
Context {HH : Hickory} {AO : AddressOps HH}.

Inductive BootstrapResponseError := BR_NonPositive (class : ResponseClass) | BR_Answer (e : AnswerError).

(** A response has one question; the records of its name with an address. *)
Definition address_records (r : CanonicalResponse) : list (IpAddr * Z) :=
  match queries (resp_message r) with
  | [] => []
  | q :: _ =>
    omap (fun rr => (fun a => (a, rr_ttl rr)) <$> rdata_address (rr_data rr))
      (filter (fun rr => name_eqb (rr_name rr) (q_name q)) (answers (resp_message r)))
  end.

Definition bootstrap_answer_from_response (r : CanonicalResponse) : result BootstrapResponseError BootstrapAnswer :=
  if negb (bool_decide (resp_class r = RPositive)) then Err (BR_NonPositive (resp_class r))
  else
    let records := address_records r in
    ttl ← ok_or (BR_Answer AE_Empty) (min_list (snd <$> records));
    map_err BR_Answer (bootstrap_answer_new (fst <$> records) (from_secs ttl)).

(** ** The resolver *)

Inductive BootstrapResolverError :=
| BE_InvalidName | BE_QueryBuild | BE_Cancelled (reason : CancelReason)
| BE_Transport (class : TransportFailureClass) | BE_NoAddress.

Definition BOOT_A : Z := 1.
Definition BOOT_AAAA : Z := 28.

Definition bootstrap_query (host : chars) (record_type : Z) : result BootstrapResolverError CanonicalQuery :=
  name ← ok_or BE_InvalidName (name_from_str host);
  let base := message_new 0 MT_Query OP_Query in
  let md := metadata base in
  let message :=
    {| metadata := {| md_id := md_id md; md_message_type := md_message_type md; md_op_code := md_op_code md;
         md_authoritative := md_authoritative md; md_truncation := md_truncation md; md_recursion_desired := true;
         md_recursion_available := md_recursion_available md; md_authentic_data := md_authentic_data md;
         md_checking_disabled := md_checking_disabled md; md_response_code := md_response_code md |};
       queries := [{| q_name := name; q_type := record_type; q_class := 1 |}];
       answers := []; authorities := []; additionals := []; edns := None |} in
  map_err (fun _ => BE_QueryBuild) (CanonicalQuery_from_message message).

(** The loop over the two queries: the answers with the time they were received, and the
    class of the first transport failure. *)
Fixpoint query_loop (exchange : CanonicalQuery -> UpstreamOutcome * Instant) (queries : list CanonicalQuery)
    (answers : list (BootstrapAnswer * Instant)) (failure : option TransportFailureClass) :
    result BootstrapResolverError (list (BootstrapAnswer * Instant) * option TransportFailureClass) :=
  match queries with
  | [] => Ok (answers, failure)
  | query :: rest =>
    match exchange query with
    | (UO_Response response, received_at) =>
      query_loop exchange rest
        (match bootstrap_answer_from_response response with Ok answer => answers ++ [(answer, received_at)] | Err _ => answers end)
        failure
    | (UO_TransportFailure f, _) =>
      query_loop exchange rest answers (match failure with None => Some (tf_class f) | Some _ => failure end)
    | (UO_Cancelled reason, _) => Err (BE_Cancelled reason)
    end
  end.

(** When an answer received at [received_at] runs out. *)
Definition answer_until (a : BootstrapAnswer * Instant) : Instant :=
  default a.2 (instant_checked_add a.2 (ba_ttl a.1)).

(** [BootstrapResolver::resolve_with_clock] *)
Definition resolve_with_clock (host : chars) (exchange : CanonicalQuery -> UpstreamOutcome * Instant) :
    result BootstrapResolverError BootstrapAnswer :=
  a ← bootstrap_query host BOOT_A;
  aaaa ← bootstrap_query host BOOT_AAAA;
  '(answers, failure) ← query_loop exchange [a; aaaa] [] None;
  match min_list ((fun x => ba_ttl x.1) <$> answers) with
  | Some ttl =>
    answer ← map_err (fun _ => BE_NoAddress) (bootstrap_answer_new (answers ≫= fun x => ba_addresses x.1) ttl);
    Ok (mk_bootstrap_answer (ba_addresses answer) (ba_ttl answer) (min_list (answer_until <$> answers)))
  | None =>
    match failure with Some class => Err (BE_Transport class) | None => Err BE_NoAddress end
  end.

(** ** The cache *)

Inductive BootstrapResolution := R_NotAttempted | R_Answer (a : BootstrapAnswer) | R_Failed.
Inductive SystemResolverResolution := S_Answer (addresses : list IpAddr) | S_Failed.

(** [SystemResolverAnswer::new] *)
Definition system_answer_new (addresses : list IpAddr) : result AnswerError (list IpAddr) :=
  normalize_addresses addresses.

Record AddressResolutionRequest := mk_address_request {
  ar_upstream_id : string;
  ar_connect_ip : option IpAddr;
  ar_bootstrap : option string
}.

Inductive AddressSource := ExplicitConnectIp | FromBootstrap (id : string) | SystemResolver.

Record ResolvedAddresses := mk_resolved {
  ra_addresses : list IpAddr;
  ra_source : AddressSource;
  ra_expires_at : option Instant;
  ra_degraded : bool
}.

Record CachedAddresses := mk_cached { ca_addresses : list IpAddr; ca_expires_at : Instant }.

Record AddressResolutionState := mk_state {
  as_policy : AddressCachePolicy;
  as_cache : gmap string CachedAddresses
}.
Definition address_state_new (p : AddressCachePolicy) : AddressResolutionState := mk_state p ∅.

Inductive NoAddressReason := BootstrapUnavailable | BootstrapExpired | SystemResolverUnavailable.
Record AddressResolutionError := no_address { na_upstream : string; na_reason : NoAddressReason }.

Definition set_cache (s : AddressResolutionState) (c : gmap string CachedAddresses) : AddressResolutionState :=
  mk_state (as_policy s) c.

Definition cached_or_error (s : AddressResolutionState) (request : AddressResolutionRequest) (bootstrap_id : string)
    (now : Instant) (degraded : bool) : result AddressResolutionError ResolvedAddresses * AddressResolutionState :=
  let upstream := ar_upstream_id request in
  match as_cache s !! upstream with
  | None => (Err (no_address upstream BootstrapUnavailable), s)
  | Some entry =>
    if ca_expires_at entry <=? now
    then (Err (no_address upstream BootstrapExpired), set_cache s (delete upstream (as_cache s)))
    else (Ok (mk_resolved (ca_addresses entry) (FromBootstrap bootstrap_id) (Some (ca_expires_at entry)) degraded), s)
  end.

(** When an answer that is stored at [now] expires. *)
Definition stored_until (p : AddressCachePolicy) (answer : BootstrapAnswer) (now : Instant) : Instant :=
  let bounded := default now (instant_checked_add now (bound p (ba_ttl answer))) in
  match ba_valid_until answer with None => bounded | Some expiry => Z.min expiry bounded end.

Definition resolve_bootstrap (s : AddressResolutionState) (request : AddressResolutionRequest) (bootstrap_id : string)
    (resolution : BootstrapResolution) (now : Instant) :
    result AddressResolutionError ResolvedAddresses * AddressResolutionState :=
  let upstream := ar_upstream_id request in
  match resolution with
  | R_Answer answer =>
    let expires_at := stored_until (as_policy s) answer now in
    (Ok (mk_resolved (ba_addresses answer) (FromBootstrap bootstrap_id) (Some expires_at) false),
     set_cache s (if now <? expires_at then <[upstream := mk_cached (ba_addresses answer) expires_at]> (as_cache s)
                  else delete upstream (as_cache s)))
  | R_NotAttempted => cached_or_error s request bootstrap_id now false
  | R_Failed => cached_or_error s request bootstrap_id now true
  end.

(** [AddressResolutionState::resolve] *)
Definition address_resolve (s : AddressResolutionState) (request : AddressResolutionRequest)
    (bootstrap : BootstrapResolution) (system : SystemResolverResolution) (now : Instant) :
    result AddressResolutionError ResolvedAddresses * AddressResolutionState :=
  match ar_connect_ip request, ar_bootstrap request with
  | Some ip, _ => (Ok (mk_resolved [ip] ExplicitConnectIp None false), s)
  | None, Some bootstrap_id => resolve_bootstrap s request bootstrap_id bootstrap now
  | None, None =>
    match system with
    | S_Answer addresses => (Ok (mk_resolved addresses SystemResolver None false), s)
    | S_Failed => (Err (no_address (ar_upstream_id request) SystemResolverUnavailable), s)
    end
  end.

Definition address_clear (s : AddressResolutionState) (upstream : string) : AddressResolutionState :=
  set_cache s (delete upstream (as_cache s)).
Definition address_purge (s : AddressResolutionState) (now : Instant) : AddressResolutionState :=
  set_cache s (filter (fun kv => now < ca_expires_at kv.2) (as_cache s)).

(** ** The address resolver of the DoH transport *)

Record DohAddressRequest := mk_doh_address { dr_host : chars; dr_port : Z; dr_bootstrap : option string }.
#[global] Instance DohAddressRequest_eq_dec : EqDecision DohAddressRequest.
Proof. solve_decision. Defined.

Record BoundAddressCache := mk_bound_cache { bc_expected : DohAddressRequest; bc_request : AddressResolutionRequest }.

(** [BoundAddressCache::cached] *)
Definition bound_cached (b : BoundAddressCache) (s : AddressResolutionState) (now : Instant) (failed : bool) :
    option (list SocketAddr) * AddressResolutionState :=
  match address_resolve s (bc_request b) (if failed then R_Failed else R_NotAttempted) S_Failed now with
  | (Ok answer, s) => (Some ((fun ip => (ip, dr_port (bc_expected b))) <$> ra_addresses answer), s)
  | (Err _, s) => (None, s)
  end.

Abbreviation resolve_error class := (port_error class "doh_http_transport.resolve").

(** [TokioDohAddressResolver::for_upstream] on a DoH upstream: the URL's host and port, and
    the fields of its configuration. *)
Definition resolver_for_upstream (host : option chars) (port : option Z) (id : string) (bootstrap : option string)
    (connect_ip : option IpAddr) : result PortError (BoundAddressCache * AddressResolutionState) :=
  let invalid := port_error PE_InvalidInput "doh_http_transport.bind_resolver" in
  host ← ok_or invalid host;
  port ← ok_or invalid port;
  Ok (mk_bound_cache (mk_doh_address host port bootstrap) (mk_address_request id connect_ip bootstrap),
      address_state_new (mk_address_policy 0 DEFAULT_BOOTSTRAP_MAX_TTL)).

(** [check_budget]: the reason of a cancellation, and the clock. *)
Definition resolver_budget (deadline : Deadline) (at_ : option CancelReason * Instant) : result PortError unit :=
  match at_.1 with
  | Some reason => Err (resolve_error (PE_Cancelled reason))
  | None => if is_expired deadline at_.2 then Err (resolve_error PE_Timeout) else Ok tt
  end.

(** How a wait with a cancellation and a deadline ends. *)
Inductive Wait (A : Type) := W_Cancelled (reason : option CancelReason) | W_Expired | W_Ready (a : A).
#[local] Arguments W_Cancelled {A} _. #[local] Arguments W_Expired {A}. #[local] Arguments W_Ready {A} _.

Definition wait_result {A} (w : Wait A) : result PortError A :=
  match w with
  | W_Cancelled reason => Err (resolve_error (PE_Cancelled (default UpstreamCancelled reason)))
  | W_Expired => Err (resolve_error PE_Timeout)
  | W_Ready a => Ok a
  end.

Definition map_bootstrap_error (e : BootstrapResolverError) : PortError :=
  match e with
  | BE_InvalidName | BE_QueryBuild => resolve_error PE_InvalidInput
  | BE_Cancelled reason => resolve_error (PE_Cancelled reason)
  | BE_Transport class =>
    resolve_error (match class with
      | TF_Timeout => PE_Timeout
      | TF_ResourceExhausted => PE_ResourceExhausted
      | TF_ProtocolViolation => PE_ProtocolViolation
      | _ => PE_Unavailable
      end)
  | BE_NoAddress => resolve_error PE_Unavailable
  end.

(** One call: the readings of the clock and of the cancellation at each point, how its
    waits end (the permit is refused when the semaphore is closed), the answers of the
    bootstrap connector, and what other calls do to the cache during the waits. *)
Record AddressEnv := mk_address_env {
  rv_start : option CancelReason * Instant;
  rv_first : Instant;
  rv_hit : option CancelReason * Instant;
  rv_permit : Wait bool;
  rv_waiting : AddressResolutionState -> AddressResolutionState;
  rv_permitted : option CancelReason * Instant;
  rv_second : Instant;
  rv_exchange : Wait (CanonicalQuery -> UpstreamOutcome * Instant);
  rv_meanwhile : AddressResolutionState -> AddressResolutionState;
  rv_after : option CancelReason * Instant;
  rv_failed : Instant;
  rv_store : Instant;
  rv_system : result PortError (list SocketAddr)
}.

(** The end of the bootstrap query: the answer is stored, a failure falls back on the cache. *)
Definition settle_query (binding : option BoundAddressCache) (s : AddressResolutionState) (port : Z) (v : AddressEnv)
    (res : result PortError BootstrapAnswer) : result PortError (list SocketAddr) * AddressResolutionState :=
  match res, binding with
  | Err e, Some b =>
    match pe_class e with
    | PE_Timeout | PE_Cancelled _ => (Err e, s)
    | _ => match bound_cached b s (rv_failed v) true with
           | (Some addresses, s) => (Ok addresses, s)
           | (None, s) => (Err e, s)
           end
    end
  | Err e, None => (Err e, s)
  | Ok answer, Some b =>
    match address_resolve s (bc_request b) (R_Answer answer) S_Failed (rv_store v) with
    | (Ok a, s) => (Ok ((fun ip => (ip, port)) <$> ra_addresses a), s)
    | (Err _, s) => (Err (resolve_error PE_Unavailable), s)
    end
  | Ok answer, None => (Ok ((fun ip => (ip, port)) <$> ba_addresses answer), s)
  end.

(** The query, with the permit if there is a cache. *)
Definition fill_addresses (registry : option (gset string)) (binding : option BoundAddressCache)
    (s : AddressResolutionState) (request : DohAddressRequest) (bootstrap_id : string) (deadline : Deadline)
    (v : AddressEnv) : result PortError (list SocketAddr) * AddressResolutionState :=
  match registry with
  | None => (Err (resolve_error PE_Unavailable), s)
  | Some registry =>
    if bool_decide (bootstrap_id ∈ registry) then
      match wait_result (rv_exchange v) with
      | Err e => (Err e, rv_meanwhile v s)
      | Ok exchange =>
        let res := map_err map_bootstrap_error (resolve_with_clock (dr_host request) exchange) in
        match resolver_budget deadline (rv_after v) with
        | Err e => (Err e, rv_meanwhile v s)
        | Ok _ => settle_query binding (rv_meanwhile v s) (dr_port request) v res
        end
      end
    else (Err (resolve_error PE_Unavailable), s)
  end.

Definition resolve_by_bootstrap (registry : option (gset string)) (binding : option BoundAddressCache)
    (s : AddressResolutionState) (request : DohAddressRequest) (bootstrap_id : string) (deadline : Deadline)
    (v : AddressEnv) : result PortError (list SocketAddr) * AddressResolutionState :=
  match binding with
  | None => fill_addresses registry None s request bootstrap_id deadline v
  | Some b =>
    match bound_cached b s (rv_first v) false with
    | (Some addresses, s) => (_ ← resolver_budget deadline (rv_hit v); Ok addresses, s)
    | (None, s) =>
      let s := rv_waiting v s in
      match wait_result (rv_permit v) with
      | Err e => (Err e, s)
      | Ok false => (Err (resolve_error PE_Unavailable), s)
      | Ok true =>
        match resolver_budget deadline (rv_permitted v) with
        | Err e => (Err e, s)
        | Ok _ =>
          match bound_cached b s (rv_second v) false with
          | (Some addresses, s) => (Ok addresses, s)
          | (None, s) => fill_addresses registry binding s request bootstrap_id deadline v
          end
        end
      end
    end
  end.

(** [TokioDohAddressResolver::resolve] *)
Definition doh_address_resolve (registry : option (gset string)) (binding : option BoundAddressCache)
    (s : AddressResolutionState) (request : DohAddressRequest) (deadline : Deadline) (v : AddressEnv) :
    result PortError (list SocketAddr) * AddressResolutionState :=
  match resolver_budget deadline (rv_start v) with
  | Err e => (Err e, s)
  | Ok _ =>
    if match binding with Some b => negb (bool_decide (bc_expected b = request)) | None => false end
    then (Err (resolve_error PE_InvalidInput), s)
    else match dr_bootstrap request with
    | Some bootstrap_id => resolve_by_bootstrap registry binding s request bootstrap_id deadline v
    | None =>
      (addresses ← rv_system v;
       if bool_decide (addresses = []) then Err (resolve_error PE_Unavailable) else Ok addresses, s)
    end
  end.

(** ** What an answer says *)

Lemma min_list_le l m x : min_list l = Some m -> x ∈ l -> m <= x.
Proof.
  destruct l as [|y l]; [done|]. cbn [min_list]. intros [= <-] Hx. assert (H : forall z, z = y \/ z ∈ l -> foldr Z.min y l <= z).
  { clear Hx. induction l as [|w l IH]; intros z Hz; cbn.
    - destruct Hz as [->|Hz]; [lia|by apply elem_of_nil in Hz].
    - destruct Hz as [->|Hz]; [pose proof (IH y (or_introl eq_refl)); lia|].
      apply elem_of_cons in Hz as [->|Hz]; [lia|]. pose proof (IH z (or_intror Hz)). lia. }
  apply H. apply elem_of_cons in Hx. tauto.
Qed.

Lemma min_list_some {A} (f : A -> Z) l : min_list (f <$> l) = None -> l = [].
Proof. by destruct l. Qed.

Definition usable (l : list IpAddr) : Prop := NoDup l /\ Forall (fun a => is_unspecified a = false) l.

Lemma normalize_loop_spec addresses : forall acc out,
  usable acc -> normalize_loop acc addresses = Ok out ->
  usable out /\ forall a, a ∈ out <-> a ∈ acc \/ a ∈ addresses.
Proof.
  induction addresses as [|a rest IH]; intros acc out Hu H; cbn [normalize_loop] in H.
  - injection H as <-. split; [done|]. intros x. rewrite elem_of_nil. tauto.
  - destruct (is_unspecified a) eqn:Ha; [done|]. apply IH in H as [Ho Hin].
    + split; [done|]. intros x. rewrite Hin, elem_of_cons. case_bool_decide as Hm; [|rewrite elem_of_app, list_elem_of_singleton; tauto].
      split; [tauto|]. intros [?|[->|?]]; tauto.
    + case_bool_decide as Hm; [done|]. destruct Hu as [Hnd Hf]. split.
      * apply list.NoDup_app. split; [done|]. split; [|apply list.NoDup_singleton]. intros x Hx ->%list_elem_of_singleton. done.
      * apply list.Forall_app. split; [done|]. by constructor.
Qed.

Lemma bootstrap_answer_new_spec addresses ttl a :
  bootstrap_answer_new addresses ttl = Ok a ->
  usable (ba_addresses a) /\ ba_addresses a <> [] /\ ba_ttl a = ttl /\ forall x, x ∈ ba_addresses a <-> x ∈ addresses.
Proof.
  unfold bootstrap_answer_new, normalize_addresses. intros H. apply bind_ok in H as (l & H & E). injection E as <-.
  apply bind_ok in H as (n & Hn & H). case_bool_decide as Hne; [done|]. injection H as <-.
  apply normalize_loop_spec in Hn as [Hu Hin]; [|split; constructor]. split; [done|]. split; [done|]. split; [done|].
  intros x. rewrite Hin, elem_of_nil. tauto.
Qed.

(** The addresses of an answer are those of the records of its response, and its lifetime
    is no longer than theirs. *)
Lemma answer_from_response_spec r a :
  bootstrap_answer_from_response r = Ok a ->
  resp_class r = RPositive /\ (forall ip, ip ∈ ba_addresses a -> exists ttl, (ip, ttl) ∈ address_records r) /\
  forall ip ttl, (ip, ttl) ∈ address_records r -> ba_ttl a <= from_secs ttl.
Proof.
  unfold bootstrap_answer_from_response. intros H. case_bool_decide as Hc; [|done]. cbn [negb] in H.
  apply bind_ok in H as (ttl & Ht & H). apply ok_or_ok in Ht.
  destruct (bootstrap_answer_new _ _) as [a'|] eqn:Hn; [|done]. injection H as ->.
  apply bootstrap_answer_new_spec in Hn as (_ & _ & Et & Hin). split; [done|]. split.
  - intros ip Hip. apply Hin in Hip. apply list_elem_of_fmap in Hip as ([x t] & -> & Hx). by exists t.
  - intros ip t Hx. rewrite Et. assert (ttl <= t) by (apply (min_list_le _ _ _ Ht), list_elem_of_fmap; by exists (ip, t)).
    unfold from_secs, nanos_per_sec. lia.
Qed.

(** An answer the connector gave: to one of the queries, with the time of its arrival. *)
Definition answered (exchange : CanonicalQuery -> UpstreamOutcome * Instant) (qs : list CanonicalQuery)
    (x : BootstrapAnswer * Instant) : Prop :=
  exists q r, q ∈ qs /\ exchange q = (UO_Response r, x.2) /\ bootstrap_answer_from_response r = Ok x.1.

Lemma answered_mono exchange qs qs' x : (forall q, q ∈ qs -> q ∈ qs') -> answered exchange qs x -> answered exchange qs' x.
Proof. intros Hs (q & r & Hq & H). exists q, r. auto. Qed.

Lemma query_loop_spec exchange qs : forall acc failure answers failure',
  query_loop exchange qs acc failure = Ok (answers, failure') ->
  forall x, x ∈ answers -> x ∈ acc \/ answered exchange qs x.
Proof.
  induction qs as [|q qs IH]; intros acc failure answers failure' H x Hx; cbn [query_loop] in H.
  - injection H as <- <-. by left.
  - assert (Hmono : answered exchange qs x -> answered exchange (q :: qs) x) by (apply answered_mono; intros; by right).
    destruct (exchange q) as [[r|f|reason] t] eqn:Hq; [| |done].
    + destruct (IH _ _ _ _ H x Hx) as [Hin|]; [|tauto]. destruct (bootstrap_answer_from_response r) as [a|] eqn:Ha; [|tauto].
      apply elem_of_app in Hin as [| ->%list_elem_of_singleton]; [tauto|]. right. exists q, r. split; [by left|]. by rewrite Hq.
    + destruct (IH _ _ _ _ H x Hx); tauto.
Qed.

Lemma answer_until_le x ip ttl r :
  bootstrap_answer_from_response r = Ok x.1 -> (ip, ttl) ∈ address_records r -> 0 <= ttl -> answer_until x <= x.2 + from_secs ttl.
Proof.
  intros Ha Hin Ht. apply answer_from_response_spec in Ha as (_ & _ & Hle). specialize (Hle _ _ Hin).
  unfold answer_until, instant_checked_add. destruct (_ <=? _); cbn [default from_option id]; unfold from_secs, nanos_per_sec in *; lia.
Qed.

(** The TTLs of the records the connector returns are not negative. *)
Definition ttls_ok (exchange : CanonicalQuery -> UpstreamOutcome * Instant) : Prop :=
  forall q r t, exchange q = (UO_Response r, t) -> Forall (fun rr => 0 <= rr_ttl rr) (answers (resp_message r)).

Lemma address_records_ttl r ip ttl :
  Forall (fun rr => 0 <= rr_ttl rr) (answers (resp_message r)) -> (ip, ttl) ∈ address_records r -> 0 <= ttl.
Proof.
  unfold address_records. intros Hf H. destruct (queries (resp_message r)) as [|q qs]; [by apply elem_of_nil in H|].
  apply list_elem_of_omap in H as (rr & Hrr & E). apply list_elem_of_filter in Hrr as [_ Hrr].
  destruct (rdata_address (rr_data rr)); [|done]. injection E as <- <-.
  rewrite list.Forall_forall in Hf. by apply Hf.
Qed.

(** [a] was said by the connector: each address is usable and in a
    record of the queried name of a positive answer to one of the two queries, and the
    answer is not kept longer than any of these records is valid. *)
Definition said (host : chars) (exchange : CanonicalQuery -> UpstreamOutcome * Instant) (a : BootstrapAnswer) : Prop :=
  ba_addresses a <> [] /\ usable (ba_addresses a) /\ exists until, ba_valid_until a = Some until /\
    forall ip, ip ∈ ba_addresses a -> exists q r received ttl,
      (bootstrap_query host BOOT_A = Ok q \/ bootstrap_query host BOOT_AAAA = Ok q) /\
      exchange q = (UO_Response r, received) /\ resp_class r = RPositive /\
      (ip, ttl) ∈ address_records r /\ until <= received + from_secs ttl.

Lemma resolver_answer_spec host exchange a :
  ttls_ok exchange -> resolve_with_clock host exchange = Ok a -> said host exchange a.
Proof.
  intros Hok H. unfold resolve_with_clock in H. apply bind_ok in H as (qa & Ha & H). apply bind_ok in H as (qaaaa & Haaaa & H).
  apply bind_ok in H as ([answers failure] & Hl & H). cbv beta iota in H.
  destruct (min_list ((fun x => ba_ttl x.1) <$> answers)) as [ttl|] eqn:Hmin; [|by destruct failure].
  apply bind_ok in H as (b & Hb & H). injection H as <-. cbn [ba_addresses ba_valid_until].
  destruct (bootstrap_answer_new _ _) as [b'|] eqn:Hn; [|done]. injection Hb as ->.
  apply bootstrap_answer_new_spec in Hn as (Hu & Hne & _ & Hin). split; [done|]. split; [done|].
  destruct (min_list (answer_until <$> answers)) as [until|] eqn:Hun; [|by apply min_list_some in Hun as ->].
  exists until. split; [done|]. intros ip Hip. apply Hin, list_elem_of_bind in Hip as (x & Hip & Hx).
  destruct (query_loop_spec _ _ _ _ _ _ Hl x Hx) as [?%elem_of_nil|(q & r & Hq & Hex & Hr)]; [done|].
  pose proof (answer_from_response_spec r x.1 Hr) as (Hc & Hrec & _). destruct (Hrec ip Hip) as [t Ht].
  exists q, r, x.2, t. split; [|split; [done|split; [done|split; [done|]]]].
  - apply elem_of_cons in Hq as [->|Hq]; [by left|]. apply list_elem_of_singleton in Hq as ->. by right.
  - etransitivity; [|apply (answer_until_le x ip t r Hr Ht), (address_records_ttl r ip t); [by eapply Hok|done]].
    apply (min_list_le _ _ _ Hun), list_elem_of_fmap. by exists x.
Qed.

(** ** Addresses are used while they are valid *)

(** What the bootstrap upstream has answered so far, and when each answer arrived. *)
Context (heard : CanonicalQuery -> CanonicalResponse -> Instant -> Prop).

(** A positive answer for the A or AAAA query of [host], with the address in a record
    of that name with this TTL. *)
Definition named (host : chars) (ip : IpAddr) (q : CanonicalQuery) (r : CanonicalResponse) (ttl : Z) : Prop :=
  (bootstrap_query host BOOT_A = Ok q \/ bootstrap_query host BOOT_AAAA = Ok q) /\
  resp_class r = RPositive /\ (ip, ttl) ∈ address_records r.

(** The upstream has given this address, in a record that runs until [until] at least. *)
Definition offered (host : chars) (until : Instant) (ip : IpAddr) : Prop :=
  exists q r received ttl, named host ip q r ttl /\ heard q r received /\ until <= received + from_secs ttl.

(** The entry of the cache was given by the upstream and expires before its records do. *)
Definition backed (host : chars) (id : string) (s : AddressResolutionState) : Prop :=
  forall e, as_cache s !! id = Some e -> ca_addresses e <> [] /\ usable (ca_addresses e) /\
    forall ip, ip ∈ ca_addresses e -> offered host (ca_expires_at e) ip.

(** Usable addresses with the port of the server, all of them given by the upstream in
    records that are still valid at [now]. *)
Definition valid_addresses (host : chars) (port : Z) (now : Instant) (l : list SocketAddr) : Prop :=
  exists addresses, l = (fun ip => (ip, port)) <$> addresses /\ addresses <> [] /\ usable addresses /\
    forall ip, ip ∈ addresses -> exists q r received ttl,
      named host ip q r ttl /\ heard q r received /\ now < received + from_secs ttl.

(** Usable addresses from this call's own exchange. *)
Definition fresh_addresses (host : chars) (port : Z) (exchange : CanonicalQuery -> UpstreamOutcome * Instant)
    (l : list SocketAddr) : Prop :=
  exists addresses, l = (fun ip => (ip, port)) <$> addresses /\ addresses <> [] /\ usable addresses /\
    forall ip, ip ∈ addresses -> exists q r received ttl,
      named host ip q r ttl /\ exchange q = (UO_Response r, received).

Section Binding.
Context (b : BoundAddressCache) (boot : string).
Context (no_ip : ar_connect_ip (bc_request b) = None) (has_boot : ar_bootstrap (bc_request b) = Some boot).
#[local] Abbreviation host := (dr_host (bc_expected b)).
#[local] Abbreviation port := (dr_port (bc_expected b)).
#[local] Abbreviation id := (ar_upstream_id (bc_request b)).

Lemma bound_cached_spec s now failed res s' :
  backed host id s -> bound_cached b s now failed = (res, s') ->
  backed host id s' /\ forall l, res = Some l -> valid_addresses host port now l.
Proof.
  intros Hb. unfold bound_cached, address_resolve. rewrite no_ip, has_boot.
  assert (H : forall degraded, cached_or_error s (bc_request b) boot now degraded =
    resolve_bootstrap s (bc_request b) boot (if degraded then R_Failed else R_NotAttempted) now) by by intros [].
  rewrite <-H. unfold cached_or_error. destruct (as_cache s !! id) as [e|] eqn:He; [|intros [= <- <-]; by split].
  destruct (Z.leb_spec (ca_expires_at e) now) as [Hle|Hlt]; intros [= <- <-].
  - split; [|done]. intros e'. cbn. by rewrite lookup_delete_eq.
  - split; [done|]. intros l [= <-]. destruct (Hb e He) as (Hne & Hu & Ho).
    exists (ca_addresses e). split_and!; [done|done|apply Hu..|]. intros ip Hip.
    destruct (Ho ip Hip) as (q & r & t & ttl & ? & ? & ?). exists q, r, t, ttl. split_and!; try done. lia.
Qed.

Lemma store_answer_spec s exchange a now res s' :
  backed host id s -> said host exchange a ->
  (forall q r t, exchange q = (UO_Response r, t) -> heard q r t) ->
  address_resolve s (bc_request b) (R_Answer a) S_Failed now = (res, s') ->
  backed host id s' /\ exists r, res = Ok r /\ ra_addresses r = ba_addresses a.
Proof.
  intros Hb Hs Hh. unfold address_resolve. rewrite no_ip, has_boot. cbn [resolve_bootstrap]. intros [= <- <-].
  split; [|by eexists]. intros e He. cbn [as_cache set_cache] in He. destruct (_ <? _); [|by rewrite lookup_delete_eq in He].
  rewrite lookup_insert_eq in He. injection He as <-. destruct Hs as (Hne & Hus & until & Hu & Hs).
  split_and!; [done|apply Hus..|]. intros ip (q & r & t & ttl & ? & Hx & ? & ? & Hle)%Hs.
  exists q, r, t, ttl. split; [done|]. split; [by apply Hh|]. cbn. unfold stored_until. rewrite Hu. cbv zeta. lia.
Qed.

Context (v : AddressEnv).
Context (waiting_ok : forall s, backed host id s -> backed host id (rv_waiting v s)).
Context (meanwhile_ok : forall s, backed host id s -> backed host id (rv_meanwhile v s)).
Context (exchange_ok : forall exchange, rv_exchange v = W_Ready exchange -> ttls_ok exchange).
Context (exchange_heard : forall exchange q r t, rv_exchange v = W_Ready exchange ->
  exchange q = (UO_Response r, t) -> heard q r t).

(** What a call may return. *)
Definition acceptable_answer (l : list SocketAddr) : Prop :=
  (exists exchange, rv_exchange v = W_Ready exchange /\ fresh_addresses host port exchange l) \/
  (exists now, now ∈ [rv_first v; rv_second v; rv_failed v] /\ valid_addresses host port now l).

Lemma fill_addresses_spec registry s deadline res s' :
  backed host id s -> fill_addresses registry (Some b) s (bc_expected b) boot deadline v = (res, s') ->
  backed host id s' /\ forall l, res = Ok l -> acceptable_answer l.
Proof.
  intros Hb. unfold fill_addresses. destruct registry as [r|]; [|by intros [= <- <-]].
  case_bool_decide as Hreg; [|by intros [= <- <-]]. pose proof (meanwhile_ok s Hb) as Hm.
  destruct (rv_exchange v) as [reason| |exchange] eqn:Hex; cbn [wait_result]; [by intros [= <- <-]..|].
  destruct (resolver_budget deadline (rv_after v)) as [[]|?]; [|by intros [= <- <-]].
  destruct (resolve_with_clock host exchange) as [a|e] eqn:Hres; cbn [map_err settle_query].
  - apply resolver_answer_spec in Hres; [|by apply exchange_ok].
    destruct (address_resolve _ _ _ _ _) as [r1 s1] eqn:Hst.
    apply (store_answer_spec _ exchange) in Hst as [Hb1 (x & -> & Hx)]; [|done|done|by intros; eapply exchange_heard].
    intros [= <- <-]. split; [done|]. intros l [= <-]. left. exists exchange. split; [done|].
    exists (ra_addresses x). rewrite Hx. destruct Hres as (Hne & Hus & until & _ & Hs).
    split_and!; [done|done|apply Hus..|]. intros ip (q & rr & t & ttl & ? & ? & ? & ? & _)%Hs.
    by exists q, rr, t, ttl.
  - intros H. assert (Hcached : forall s1, (match bound_cached b (rv_meanwhile v s) (rv_failed v) true with
        | (Some addresses, s) => (Ok addresses, s) | (None, s) => (Err (map_bootstrap_error e), s) end) = (res, s1) ->
        backed host id s1 /\ forall l, res = Ok l -> acceptable_answer l).
    { intros s1 H1. destruct (bound_cached b (rv_meanwhile v s) (rv_failed v) true) as [hit s2] eqn:Hc.
      apply bound_cached_spec in Hc as [Hb2 Hhit]; [|done]. destruct hit as [l|]; injection H1 as <- <-; [|by split].
      split; [done|]. intros l' [= <-]. right. exists (rv_failed v). split; [set_solver|]. by apply Hhit. }
    destruct (pe_class (map_bootstrap_error e)); try (by apply Hcached in H); by injection H as <- <-.
Qed.

(** C30: A DoH server whose name is resolved by a bootstrap upstream is contacted only at
    addresses that this upstream has given for its name: in an answer to this very call, or
    kept from an earlier answer, and then each address is in a record whose TTL, counted
    from when the answer arrived, has not run out at the time the call read the clock. The
    system resolver is not consulted, and the cache never keeps an address longer than its
    record. This holds whatever other requests store meanwhile under the same rules. *)
Theorem doh_addresses_valid registry s deadline res s' :
  dr_bootstrap (bc_expected b) = Some boot -> backed host id s ->
  doh_address_resolve registry (Some b) s (bc_expected b) deadline v = (res, s') ->
  backed host id s' /\ forall l, res = Ok l -> acceptable_answer l.
Proof.
  intros Hboot Hb. unfold doh_address_resolve. destruct (resolver_budget deadline (rv_start v)) as [[]|?]; [|by intros [= <- <-]].
  rewrite bool_decide_eq_true_2 by done. cbn [negb]. rewrite Hboot. unfold resolve_by_bootstrap.
  destruct (bound_cached b s (rv_first v) false) as [hit s1] eqn:H1. apply bound_cached_spec in H1 as [Hb1 Hhit]; [|done].
  destruct hit as [l|].
  - intros [= <- <-]. split; [done|]. intros l' Hl. apply bind_ok in Hl as (_ & _ & [= <-]). right.
    exists (rv_first v). split; [set_solver|]. by apply Hhit.
  - pose proof (waiting_ok _ Hb1) as Hw. cbv zeta.
    destruct (wait_result (rv_permit v)) as [[]|e]; [|by intros [= <- <-]..].
    destruct (resolver_budget deadline (rv_permitted v)) as [[]|?]; [|by intros [= <- <-]].
    destruct (bound_cached b (rv_waiting v s1) (rv_second v) false) as [hit s2] eqn:H2.
    apply bound_cached_spec in H2 as [Hb2 Hhit2]; [|done]. destruct hit as [l|].
    + intros [= <- <-]. split; [done|]. intros l' [= <-]. right. exists (rv_second v). split; [set_solver|]. by apply Hhit2.
    + by apply fill_addresses_spec.
Qed.

End Binding.

End Bootstrap.
#[global] Arguments W_Cancelled {A} _. #[global] Arguments W_Expired {A}. #[global] Arguments W_Ready {A} _.

(** ** Examples *)

Module BootstrapExamples.
Import Sample.

(** An answer record without an SOA minimum is an A record of 0.0.0.42. *)
#[local] Instance sample_addresses : AddressOps hickory := {|
  rdata_address d := match d with None => Some (V4 42) | Some _ => None end;
  name_from_str _ := Some ([69; 88], false)
|}.

(** A is answered after ten seconds with a lifetime of 300, AAAA fails. *)
Definition sample_exchange (q : CanonicalQuery) : UpstreamOutcome * Instant :=
  if cq_query_type (query_question q) =? BOOT_A then (UO_Response (response (positive_msg 7 300)), from_secs 10)
  else (UO_TransportFailure (mk_failure (mk_connector "boot") TF_Timeout true), from_secs 11).

Definition sample_binding : BoundAddressCache :=
  mk_bound_cache (mk_doh_address (lit "ex") 443 (Some "boot")) (mk_address_request "doh" None (Some "boot")).
Definition empty_cache : AddressResolutionState :=
  address_state_new (mk_address_policy 0 DEFAULT_BOOTSTRAP_MAX_TTL).
Definition sample_env (at_ : Instant) : AddressEnv :=
  mk_address_env (None, at_) at_ (None, at_) (W_Ready true) (fun s => s) (None, at_) at_ (W_Ready sample_exchange)
    (fun s => s) (None, from_secs 12) (from_secs 12) (from_secs 12) (Ok [(V4 99, 443)]).

Definition filled : AddressResolutionState :=
  snd (doh_address_resolve (Some {["boot"]}) (Some sample_binding) empty_cache (bc_expected sample_binding) (from_secs 60)
    (sample_env 0)).

(** The lifetime runs from the answer, not from when it was stored. *)
Example filled_cache :
  as_cache filled !! "doh" = Some (mk_cached [V4 42] (from_secs 310)) /\
  fst (bound_cached sample_binding filled (from_secs 310 - 1) false) = Some [(V4 42, 443)] /\
  fst (bound_cached sample_binding filled (from_secs 310) false) = None.
Proof. repeat split; vm_compute; reflexivity. Qed.

Definition sample_heard (q : CanonicalQuery) (r : CanonicalResponse) (t : Instant) : Prop :=
  sample_exchange q = (UO_Response r, t).
Definition cached_hit : result PortError (list SocketAddr) :=
  fst (doh_address_resolve (Some {["boot"]}) (Some sample_binding) filled (bc_expected sample_binding) (from_secs 200)
    (sample_env (from_secs 100))).

(** A first call asks the upstream, a second one 90 seconds later uses the cache. *)
Lemma doh_addresses_valid_witness :
  acceptable_answer sample_heard sample_binding (sample_env 0) [(V4 42, 443)] /\
  cached_hit = Ok [(V4 42, 443)] /\
  acceptable_answer sample_heard sample_binding (sample_env (from_secs 100)) [(V4 42, 443)].
Proof.
  assert (Hx : forall at_ exchange, rv_exchange (sample_env at_) = W_Ready exchange -> ttls_ok exchange).
  { intros at_ exchange [= <-] q r t. unfold sample_exchange. destruct (_ =? _); [|discriminate]. intros [= <- <-].
    vm_compute. repeat constructor. discriminate. }
  assert (Hh : forall at_ exchange q r t, rv_exchange (sample_env at_) = W_Ready exchange ->
    exchange q = (UO_Response r, t) -> sample_heard q r t) by (intros at_ exchange q r t [= <-] H; exact H).
  destruct (doh_addresses_valid sample_heard sample_binding "boot" eq_refl eq_refl (sample_env 0) (fun _ H => H) (fun _ H => H)
    (Hx 0) (Hh 0) (Some {["boot"]}) empty_cache (from_secs 60) (Ok [(V4 42, 443)]) filled eq_refl) as [Hb H1].
  - intros e He. vm_compute in He. discriminate.
  - vm_compute. reflexivity.
  - split; [exact (H1 _ eq_refl)|]. split; [vm_compute; reflexivity|].
    refine (proj2 (doh_addresses_valid sample_heard sample_binding "boot" eq_refl eq_refl (sample_env (from_secs 100))
      (fun _ H => H) (fun _ H => H) (Hx _) (Hh _) (Some {["boot"]}) filled (from_secs 200) (Ok [(V4 42, 443)]) filled
      eq_refl Hb _) _ eq_refl).
    vm_compute. reflexivity.
Defined.

(** Without a bootstrap connector the call fails; the system resolver is not asked. *)
Example no_connector :
  fst (doh_address_resolve (Some ∅) (Some sample_binding) empty_cache (bc_expected sample_binding) (from_secs 60) (sample_env 0)) =
  Err (port_error PE_Unavailable "doh_http_transport.resolve").
Proof. vm_compute. reflexivity. Qed.

End BootstrapExamples.
