(* ===== verification/DohClient.v ===== *)
(** * DNS over HTTPS upstreams (src/backend/src/upstream/doh.rs, http.rs)

    The HTTP/1.1 request of a DoH exchange, the reading of the response from a stream that
    delivers it in pieces, directly or through a SOCKS5 proxy, its validation and the
    exchange around them. Dialling and address resolution are arguments. *)

From stdpp Require Import pretty.
From S2P Require Import Prelude Message CacheModel Text Net Group Outcome Wire Socks5 Outbound Bootstrap.

Definition MAX_DOH_RESPONSE_BODY_BYTES : Z := u16_max.
Definition DOH_MEDIA_TYPE : string := "application/dns-message".
Definition MAX_HTTP_HEADER_BYTES : Z := 32 * 1024.
Definition READ_CHUNK_BYTES : nat := N.to_nat 8192.

Definition crlf : list byte := [b8 13; b8 10].

(** ** Reading header lines *)

Definition eq_ascii_case (a b : chars) : bool := bool_decide (to_ascii_lowercase a = to_ascii_lowercase b).

(** [str::split("\r\n")] *)
Fixpoint split_crlf (s : chars) : list chars :=
  match s with
  | [] => [[]]
  | c :: s' =>
    match (if c =? 13 then match s' with 10 :: s'' => Some s'' | _ => None end else None) with
    | Some s'' => match s' with _ :: s'' => [] :: split_crlf s'' | [] => [[]] end
    | None => match split_crlf s' with l :: ls => (c :: l) :: ls | [] => [[c]] end
    end
  end.

(** [str::split_once(':')] *)
Fixpoint split_colon (s : chars) : option (chars * chars) :=
  match s with
  | [] => None
  | c :: s' => if c =? 58 then Some ([], s') else '(a, b) ← split_colon s'; Some (c :: a, b)
  end.

(** [str::parse] of an unsigned integer of at most [limit]: digits, with a plus sign before
    them if any. *)
Definition parse_uint (limit : Z) (s : chars) : option Z :=
  let digits := match s with 43 :: s' => s' | _ => s end in
  let '(v, count, rest) := read_digits 10 digits 0 0 in
  if (count =? 0)%nat || negb (bool_decide (rest = [])) || (limit <? v) then None else Some v.

Definition header_error : PortError := port_error PE_ProtocolViolation "doh_http_transport.headers".

(** The loop of [parse_headers]: the length found so far. *)
Fixpoint header_lines (lines : list chars) (content_length : option Z) : result PortError (option Z) :=
  match lines with
  | [] => Ok content_length
  | line :: rest =>
    '(name, value) ← ok_or header_error (split_colon line);
    if eq_ascii_case name (lit "content-length") then
      length ← ok_or header_error (parse_uint usize_max (trim value));
      if bool_decide (is_Some content_length) then Err header_error else header_lines rest (Some length)
    else if eq_ascii_case name (lit "transfer-encoding") && negb (bool_decide (trim value = [])) then Err header_error
    else header_lines rest content_length
  end.

Definition parse_headers (header : list byte) : result PortError Z :=
  text ← ok_or header_error (utf8_decode header);
  content_length ← header_lines (tail (split_crlf text)) None;
  ok_or header_error content_length.

(** [str::split_ascii_whitespace] *)
Definition ascii_space (c : Z) : bool := existsb (Z.eqb c) [32; 9; 10; 12; 13].
Fixpoint ascii_words (word s : chars) : list chars :=
  match s with
  | [] => if bool_decide (word = []) then [] else [word]
  | c :: s' =>
    if ascii_space c then (if bool_decide (word = []) then [] else [word]) ++ ascii_words [] s'
    else ascii_words (word ++ [c]) s'
  end.

Definition content_type_line (line : chars) : option chars :=
  '(name, value) ← split_colon line;
  if eq_ascii_case name (lit "content-type") then Some (trim value) else None.

Definition status_error : PortError := port_error PE_ProtocolViolation "doh_http_transport.status".

Definition parse_status_and_content_type (header : list byte) : result PortError (Z * option chars) :=
  text ← ok_or status_error (utf8_decode header);
  match split_crlf text with
  | [] => Err status_error
  | status_line :: lines =>
    let parts := ascii_words [] status_line in
    let status := parts !! 1%nat ≫= parse_uint u16_max in
    match status with
    | Some status =>
      if negb (bool_decide (head parts = Some (lit "HTTP/1.0")) || bool_decide (head parts = Some (lit "HTTP/1.1")))
      then Err status_error
      else if negb ((100 <=? status) && (status <=? 599)) then Err status_error
      else Ok (status, head (omap content_type_line lines))
    | None => Err status_error
    end
  end.

(** [bytes.windows(needle.len()).position(|window| window == needle)] *)
Fixpoint find_subslice (needle bytes : list byte) : option nat :=
  match bytes with
  | [] => None
  | _ :: rest => if bool_decide (take (length needle) bytes = needle) then Some 0%nat else S <$> find_subslice needle rest
  end.
Definition find_header_end : list byte -> option nat := find_subslice (crlf ++ crlf).

(** ** Reading the response *)

Record DohHttpResponse := mk_doh_response {
  dh_status : Z;
  dh_content_type : option chars;
  dh_body : list byte
}.

(** The pieces of at most [n] bytes in which reads return a chunk. *)
Fixpoint cut (fuel n : nat) (bytes : list byte) : Stream :=
  match fuel with
  | O => []
  | S fuel => if (length bytes <=? n)%nat then [Data bytes] else Data (take n bytes) :: cut fuel n (drop n bytes)
  end.
(** What successive calls of [read_chunk] return. *)
Definition reads (s : Stream) : Stream :=
  s ≫= fun c => match c with
    | Data bytes => cut (S (length bytes)) READ_CHUNK_BYTES bytes
    | ReadError e => [ReadError e]
    end.

Definition read_error (class : PortErrorClass) : PortError := port_error class "doh_http_transport.read".

(** The loop that reads the headers: the bytes read, the end of the headers, the length of
    the body and the reads that are left. *)
Fixpoint header_loop (s : Stream) (bytes : list byte) : result PortError (list byte * nat * Z * Stream) :=
  if MAX_HTTP_HEADER_BYTES <? bytes_len bytes then Err (read_error PE_ResourceExhausted)
  else match s with
  | [] | Data [] :: _ => Err (read_error PE_ProtocolViolation)
  | ReadError e :: _ => Err e
  | Data data :: rest =>
    let bytes := bytes ++ data in
    match find_header_end bytes with
    | None => header_loop rest bytes
    | Some header_end =>
      content_length ← parse_headers (take header_end bytes);
      Ok (bytes, (header_end + 4)%nat, content_length, rest)
    end
  end.

(** The loop that reads the rest of the body. *)
Fixpoint body_loop (s : Stream) (bytes : list byte) (total : Z) : result PortError (list byte) :=
  if total <=? bytes_len bytes then Ok bytes
  else match s with
  | [] | Data [] :: _ => Err (read_error PE_ProtocolViolation)
  | ReadError e :: _ => Err e
  | Data data :: rest =>
    if total <? bytes_len bytes + bytes_len data then Err (read_error PE_ProtocolViolation)
    else body_loop rest (bytes ++ data) total
  end.

(** [read_response_stream]; [read_response] does the same without [check_surplus], the
    comparison of what came with the headers with the length of the response. *)
Definition read_http_response (check_surplus : bool) (s : Stream) : result PortError DohHttpResponse :=
  '(bytes, header_end, content_length, rest) ← header_loop (reads s) [];
  if MAX_DOH_RESPONSE_BODY_BYTES <? content_length then Err (read_error PE_ResourceExhausted)
  else
    let total := Z.of_nat header_end + content_length in
    if usize_max <? total then Err (read_error PE_ResourceExhausted)
    else if check_surplus && (total <? bytes_len bytes) then Err (read_error PE_ProtocolViolation)
    else
      bytes ← body_loop rest bytes total;
      '(status, content_type) ← parse_status_and_content_type (take (header_end - 4) bytes);
      Ok (mk_doh_response status content_type (take (Z.to_nat content_length) (drop header_end bytes))).
Definition read_response_stream : Stream -> result PortError DohHttpResponse := read_http_response true.
Definition read_response : Stream -> result PortError DohHttpResponse := read_http_response false.

(** ** Requests *)

Record DohHttpRequest := mk_doh_request {
  hr_endpoint : Url;
  hr_host : list byte;
  hr_connect_ip : option IpAddr;
  hr_bootstrap : option string;
  hr_body : list byte
}.
(** [DohHttpRequest::new_with_bootstrap]; the endpoint was validated, it has a host. *)
Definition doh_request_new (endpoint : Url) (connect_ip : option IpAddr) (bootstrap : option string) (body : list byte) :
    DohHttpRequest :=
  mk_doh_request endpoint (default [] (url_host_str endpoint)) connect_ip bootstrap body.

Definition decimal (n : Z) : list byte := str_bytes (pretty n).

Definition request_path (endpoint : Url) : list byte :=
  let path := if bool_decide (url_path endpoint = []) then str_bytes "/" else url_path endpoint in
  match url_query endpoint with None => path | Some query => path ++ str_bytes "?" ++ query end.

Definition host_header (endpoint : Url) (host : list byte) : list byte :=
  let host := if existsb (fun b => byte_to_Z b =? 58) host && negb (bool_decide (head host = Some (b8 91)))
              then b8 91 :: host ++ [b8 93] else host in
  match url_port endpoint with None => host | Some port => host ++ str_bytes ":" ++ decimal port end.

Definition http_head (r : DohHttpRequest) : list byte :=
  str_bytes "POST " ++ request_path (hr_endpoint r) ++ str_bytes " HTTP/1.1" ++ crlf ++
  str_bytes "Host: " ++ host_header (hr_endpoint r) (hr_host r) ++ crlf ++
  str_bytes "Content-Type: " ++ str_bytes DOH_MEDIA_TYPE ++ crlf ++
  str_bytes "Accept: " ++ str_bytes DOH_MEDIA_TYPE ++ crlf ++
  str_bytes "Content-Length: " ++ decimal (bytes_len (hr_body r)) ++ crlf ++
  str_bytes "Connection: close" ++ crlf ++ crlf.

Definition post_error (class : PortErrorClass) : PortError := port_error class "doh_http_transport.post".

Definition bad_host (host : list byte) : bool :=
  bool_decide (host = []) || existsb (fun b => (byte_to_Z b =? 13) || (byte_to_Z b =? 10)) host.

(** [check_budget]: whether the request is cancelled, with the reason if it is known. *)
Definition http_budget (cancelled : option (option CancelReason)) (expired : bool) (operation : string) : result PortError unit :=
  match cancelled with
  | Some reason => Err (port_error (PE_Cancelled (default UpstreamCancelled reason)) operation)
  | None => if expired then Err (port_error PE_Timeout operation) else Ok tt
  end.

(** A write on the connection, and its shutdown, which takes the next outcome too. *)
Definition conn_write (bytes : list byte) (c : Conn) : result PortError unit * Conn :=
  match co_writes c with
  | Err e :: w => (Err e, mk_conn (co_in c) (co_out c) w)
  | Ok _ :: w => (Ok tt, mk_conn (co_in c) (co_out c ++ [bytes]) w)
  | [] => (Ok tt, mk_conn (co_in c) (co_out c ++ [bytes]) [])
  end.
Definition conn_shutdown (c : Conn) : result PortError unit * Conn :=
  match co_writes c with
  | Err e :: w => (Err e, mk_conn (co_in c) (co_out c) w)
  | Ok _ :: w => (Ok tt, mk_conn (co_in c) (co_out c) w)
  | [] => (Ok tt, c)
  end.

(** Head, body and shutdown, in this order, up to the first failure. *)
Definition send_request (r : DohHttpRequest) (c : Conn) : result PortError unit * Conn :=
  match conn_write (http_head r) c with
  | (Err e, c) => (Err e, c)
  | (Ok _, c) =>
    match conn_write (hr_body r) c with
    | (Err e, c) => (Err e, c)
    | (Ok _, c) => conn_shutdown c
    end
  end.

Section DohHttp.
Context (dial : SocketAddr -> result PortError Conn).
Context (resolve_address : DohAddressRequest -> result PortError (list SocketAddr)).

Definition address_request (r : DohHttpRequest) (port : Z) : DohAddressRequest :=
  mk_doh_address (byte_to_Z <$> hr_host r) port (hr_bootstrap r).

Definition resolve_target (r : DohHttpRequest) (port : Z) : result PortError SocketAddr :=
  match hr_connect_ip r with
  | Some address => Ok (address, port)
  | None =>
    addresses ← resolve_address (address_request r port);
    ok_or (port_error PE_Unavailable "doh_http_transport.resolve") (head addresses)
  end.

Definition post_http (r : DohHttpRequest) (cancelled : option (option CancelReason)) (expired : bool) :
    result PortError DohHttpResponse :=
  if negb (String.eqb (url_scheme (hr_endpoint r)) "http") then Err (post_error PE_Unavailable)
  else if bad_host (hr_host r) then Err (post_error PE_InvalidInput)
  else
    _ ← http_budget cancelled expired "doh_http_transport.post";
    let port := default 80 (url_port (hr_endpoint r)) in
    target ← resolve_target r port;
    stream ← dial target;
    match send_request r stream with
    | (Err e, _) => Err e
    | (Ok _, stream) => read_response (co_in stream)
    end.

(** [map_socks5_connect_error]; [remap_port_error] keeps the class. *)
Definition map_socks5_connect_error (e : Socks5ConnectError) : PortError :=
  match e with
  | CE_Target _ => port_error PE_InvalidInput "doh_http_transport.proxy_target"
  | CE_ProxyResolve e | CE_Dial e | CE_Handshake (HE_Transport e) => port_error (pe_class e) "doh_http_transport.proxy"
  | CE_Handshake (HE_Protocol _) => port_error PE_ProtocolViolation "doh_http_transport.proxy"
  | CE_Handshake HE_CredentialsRequired => port_error PE_InvalidInput "doh_http_transport.proxy"
  | CE_Handshake (HE_ProxyRejected _) => port_error PE_Unavailable "doh_http_transport.proxy"
  end.

Context (proxy : OutboundProfile) (proxy_resolver : list byte -> Z -> result PortError (list SocketAddr)).

(** The address of the target, when the proxy does not resolve its name. *)
Definition resolve_for_proxy (r : DohHttpRequest) (port : Z) (target : OutboundTarget) : result PortError (option IpAddr) :=
  match ot_name_resolution target with
  | NR_Local =>
    addresses ← resolve_address (address_request r port);
    address ← ok_or (port_error PE_Unavailable "doh_http_transport.target_resolve") (head addresses);
    Ok (Some address.1)
  | _ => Ok None
  end.

Definition post_http_via_socks (r : DohHttpRequest) (cancelled : option (option CancelReason)) (expired : bool)
    (cancelled_handshake : option CancelReason) : result PortError DohHttpResponse :=
  if negb (String.eqb (url_scheme (hr_endpoint r)) "http") then Err (post_error PE_Unavailable)
  else if bad_host (hr_host r) then Err (post_error PE_InvalidInput)
  else
    _ ← http_budget cancelled expired "doh_http_transport.post";
    let port := default 80 (url_port (hr_endpoint r)) in
    target ← map_err (fun _ => port_error PE_InvalidInput "doh_http_transport.proxy_target")
               (profile_target proxy (hr_host r) port (hr_connect_ip r) (hr_bootstrap r));
    resolved_ip ← resolve_for_proxy r port target;
    stream ← map_err map_socks5_connect_error
               (connect_profile_with_resolver dial proxy_resolver proxy target resolved_ip cancelled_handshake);
    match send_request r stream with
    | (Err e, _) => Err e
    | (Ok _, stream) => read_response_stream (co_in stream)
    end.
End DohHttp.

(** ** The exchange *)

Section DohExchange.
Context {HH : Hickory}.

Inductive DohEndpointError := DE_UnsupportedScheme | DE_MissingHost | DE_Credentials | DE_Fragment.

Definition validate_endpoint (endpoint : Url) : result DohEndpointError unit :=
  if negb (String.eqb (url_scheme endpoint) "http" || String.eqb (url_scheme endpoint) "https") then Err DE_UnsupportedScheme
  else if bool_decide (url_host_str endpoint = None) then Err DE_MissingHost
  else if negb (bool_decide (url_username endpoint = [])) || bool_decide (is_Some (url_password endpoint)) then Err DE_Credentials
  else if bool_decide (is_Some (url_fragment endpoint)) then Err DE_Fragment
  else Ok tt.

Record DohExchange := mk_doh_exchange {
  de_connector : ConnectorId;
  de_endpoint : Url;
  de_connect_ip : option IpAddr;
  de_bootstrap : option string;
  de_next_id : Z
}.
(** [DohExchange::new_with_bootstrap] *)
Definition doh_exchange_new (c : ConnectorId) (endpoint : Url) (connect_ip : option IpAddr) (bootstrap : option string) :
    result DohEndpointError DohExchange :=
  _ ← validate_endpoint endpoint;
  Ok (mk_doh_exchange c endpoint connect_ip bootstrap 1).

Definition allocate_id (e : DohExchange) : Z * DohExchange :=
  (if de_next_id e =? 0 then 1 else de_next_id e,
   mk_doh_exchange (de_connector e) (de_endpoint e) (de_connect_ip e) (de_bootstrap e) ((de_next_id e + 1) mod 2 ^ 16)).

Definition doh_failure (c : ConnectorId) (class : TransportFailureClass) (retryable : bool) : UpstreamOutcome :=
  UO_TransportFailure (mk_failure c class retryable).

Definition map_port_error (c : ConnectorId) (e : PortError) : UpstreamOutcome :=
  match pe_class e with
  | PE_Cancelled reason => UO_Cancelled reason
  | PE_Timeout => doh_failure c TF_Timeout true
  | PE_Unavailable => doh_failure c TF_Connect true
  | PE_ResourceExhausted => doh_failure c TF_ResourceExhausted true
  | PE_ProtocolViolation | PE_CorruptData => doh_failure c TF_ProtocolViolation false
  | PE_InvalidInput | PE_PermissionDenied | PE_Internal => doh_failure c TF_Internal false
  end.

Definition is_dns_message_content_type (content_type : option chars) : bool :=
  match content_type ≫= (fun value => head (split_on 59 value)) with
  | Some value => eq_ascii_case (trim value) (lit DOH_MEDIA_TYPE)
  | None => false
  end.

Definition is_retryable_status (status : Z) : bool :=
  existsb (Z.eqb status) [408; 425; 429] || ((500 <=? status) && (status <? 600)).

Definition classify_canonical_error (e : CanonicalMessageError) : TransportFailureClass :=
  match e with QuestionMismatch => TF_QuestionMismatch | _ => TF_ProtocolViolation end.

Definition validate_response (c : ConnectorId) (query : CanonicalQuery) (expected_id : Z) (r : DohHttpResponse)
    (cancelled : option (option CancelReason)) : UpstreamOutcome :=
  match cancelled with
  | Some reason => UO_Cancelled (default UpstreamCancelled reason)
  | None =>
    if negb ((200 <=? dh_status r) && (dh_status r <? 300)) then doh_failure c TF_HttpStatus (is_retryable_status (dh_status r))
    else if negb (is_dns_message_content_type (dh_content_type r)) then doh_failure c TF_MediaType false
    else if MAX_DOH_RESPONSE_BODY_BYTES <? bytes_len (dh_body r) then doh_failure c TF_BodyLimit false
    else match from_vec (dh_body r) with
    | None => doh_failure c TF_Wire false
    | Some message =>
      match CanonicalResponse_from_message message query expected_id with
      | Ok response => UO_Response response
      | Err e => doh_failure c (classify_canonical_error e) false
      end
    end
  end.

(** [DohExchange::exchange]: [post] is the transport, [cancelled] whether the request is
    cancelled before it and when the response is validated. *)
Definition doh_exchange (post : DohHttpRequest -> result PortError DohHttpResponse) (e : DohExchange) (query : CanonicalQuery)
    (cancelled cancelled_after : option (option CancelReason)) : UpstreamOutcome * DohExchange :=
  match cancelled with
  | Some reason => (UO_Cancelled (default UpstreamCancelled reason), e)
  | None =>
    let '(id, e) := allocate_id e in
    (match to_vec (message_with_id query id) with
     | None => doh_failure (de_connector e) TF_ProtocolViolation false
     | Some body =>
       if MAX_DOH_RESPONSE_BODY_BYTES <? bytes_len body then doh_failure (de_connector e) TF_BodyLimit false
       else match post (doh_request_new (de_endpoint e) (de_connect_ip e) (de_bootstrap e) body) with
       | Ok response => validate_response (de_connector e) query id response cancelled_after
       | Err error => map_port_error (de_connector e) error
       end
     end, e)
  end.
End DohExchange.

(** ** Framing *)

Abbreviation blank_line := (crlf ++ crlf).

Section Find.
Context (needle : list byte) (needle_ne : needle <> []).
#[local] Abbreviation n := (length needle).

Lemma find_subslice_spec bytes i :
  find_subslice needle bytes = Some i <->
  take n (drop i bytes) = needle /\ forall m, (m < i)%nat -> take n (drop m bytes) <> needle.
Proof.
  revert i. induction bytes as [|b rest IH]; intros i; cbn [find_subslice].
  - split; [done|]. rewrite drop_nil, take_nil. by intros [<- _].
  - case_bool_decide as Hb.
    + split; [intros [= <-]; split; [done|lia]|]. intros [_ Hm]. destruct i; [done|]. exfalso. apply (Hm 0%nat); [lia|done].
    + destruct i as [|i].
      * split; [by destruct (find_subslice needle rest)|]. by intros [? _].
      * rewrite fmap_Some. split.
        -- intros (k & Hk & [= <-]). apply IH in Hk as [H1 H2]. split; [done|]. intros [|m] Hm; [done|]. apply H2. lia.
        -- intros [H1 H2]. exists i. split; [|done]. apply IH. split; [done|]. intros m Hm. apply (H2 (S m)). lia.
Qed.

Lemma window_app (l x : list byte) m : (m + n <= length l)%nat -> take n (drop m (l ++ x)) = take n (drop m l).
Proof. intros H. rewrite drop_app_le by lia. apply take_app_le. rewrite length_drop. lia. Qed.

Lemma window_length l m : take n (drop m l) = needle -> (m + n <= length l)%nat.
Proof.
  intros H. apply (f_equal length) in H. rewrite length_take, length_drop in H.
  assert (0 < n)%nat by (destruct needle; [done|cbn; lia]). lia.
Qed.

(** The occurrence at the end of [h ++ needle] is found there whatever follows, and in no
    proper prefix. *)
Lemma find_complete h x :
  find_subslice needle (h ++ needle) = Some (length h) -> find_subslice needle (h ++ needle ++ x) = Some (length h).
Proof.
  intros H. apply find_subslice_spec in H as [H1 H2]. apply find_subslice_spec. rewrite app_assoc. split.
  - rewrite window_app; [done|]. rewrite length_app. lia.
  - intros m Hm. rewrite window_app; [by apply H2|]. rewrite length_app. lia.
Qed.

Lemma find_partial h p x :
  find_subslice needle (h ++ needle) = Some (length h) -> p ++ x = h ++ needle -> x <> [] -> find_subslice needle p = None.
Proof.
  intros H E Hx. apply find_subslice_spec in H as [_ H2].
  destruct (find_subslice needle p) as [i|] eqn:Hi; [|done]. apply find_subslice_spec in Hi as [H3 _]. exfalso.
  pose proof (window_length _ _ H3) as Hl.
  assert (length p + length x = length h + n)%nat as Hlen by (rewrite <-!length_app, E; done).
  assert (0 < length x)%nat by (destruct x; [done|cbn; lia]).
  apply (H2 i); [lia|]. rewrite <-E, window_app; done.
Qed.

Lemma find_split bytes e :
  find_subslice needle bytes = Some e ->
  exists tail, bytes = take e bytes ++ needle ++ tail /\ length (take e bytes) = e /\
    find_subslice needle (take e bytes ++ needle) = Some (length (take e bytes)).
Proof.
  intros H. apply find_subslice_spec in H as [H1 H2]. pose proof (window_length _ _ H1) as Hl.
  assert (He : length (take e bytes) = e) by (rewrite length_take; lia).
  assert (Hs : bytes = (take e bytes ++ needle) ++ drop (e + n) bytes).
  { rewrite <-(take_drop e bytes) at 1. rewrite <-app_assoc. f_equal. rewrite <-(take_drop n (drop e bytes)), H1, drop_drop. done. }
  exists (drop (e + n) bytes). rewrite app_assoc. split; [done|]. split; [done|]. rewrite He. apply find_subslice_spec. split.
  - rewrite <-(window_app _ (drop (e + n) bytes)), <-Hs by (rewrite length_app; lia). done.
  - intros m Hm. rewrite <-(window_app _ (drop (e + n) bytes)), <-Hs by (rewrite length_app; lia). by apply H2.
Qed.
End Find.

Lemma blank_line_ne : blank_line <> [].
Proof. done. Qed.

Lemma bytes_of_cons b s : bytes_of (Data b :: s) = b ++ bytes_of s.
Proof. done. Qed.

Lemma bytes_of_app s1 s2 : bytes_of (s1 ++ s2) = bytes_of s1 ++ bytes_of s2.
Proof. unfold bytes_of. by rewrite bind_app. Qed.

Lemma cut_spec n : (0 < n)%nat -> forall fuel b, (length b < fuel)%nat ->
  bytes_of (cut fuel n b) = b /\ (b <> [] -> delivers (cut fuel n b)).
Proof.
  intros Hn. induction fuel as [|fuel IH]; intros b Hb; [lia|]. cbn [cut]. destruct (Nat.leb_spec (length b) n).
  - split; [rewrite bytes_of_cons; apply app_nil_r|]. intros Hne. constructor; [by exists b|constructor].
  - destruct (IH (drop n b)) as [H1 H2]; [rewrite length_drop; lia|]. rewrite bytes_of_cons, H1, take_drop. split; [done|].
    intros _. constructor; [exists (take n b); split; [done|]|apply H2].
    + intros E%(f_equal length). rewrite length_take in E. cbn in E. lia.
    + intros E%(f_equal length). rewrite length_drop in E. cbn in E. lia.
Qed.

Lemma read_chunk_pos : (0 < READ_CHUNK_BYTES)%nat.
Proof. unfold READ_CHUNK_BYTES. lia. Qed.

Lemma reads_bytes s : bytes_of (reads s) = bytes_of s.
Proof.
  induction s as [|[b|e] s IH]; [done| |done]. unfold reads in *. rewrite bind_cons, bytes_of_app, IH, bytes_of_cons.
  f_equal. apply cut_spec; [apply read_chunk_pos|lia].
Qed.

Lemma reads_delivers s : delivers s -> delivers (reads s).
Proof.
  induction s as [|c s IH]; intros Hs; [constructor|]. apply list.Forall_cons in Hs as [(b & -> & Hb) Hs].
  unfold reads in *. rewrite bind_cons. apply list.Forall_app. split; [|by apply IH].
  apply cut_spec; [apply read_chunk_pos|lia|done].
Qed.

(** ** A response that is read is one the server sent *)

Lemma header_loop_inv s : forall bytes bytes' he len rest,
  header_loop s bytes = Ok (bytes', he, len, rest) ->
  bytes ++ bytes_of s = bytes' ++ bytes_of rest /\
  exists e, find_header_end bytes' = Some e /\ he = (e + 4)%nat /\ parse_headers (take e bytes') = Ok len.
Proof.
  induction s as [|[[|b data]|e] s IH]; intros bytes bytes' he len rest; cbn [header_loop];
    (destruct (MAX_HTTP_HEADER_BYTES <? bytes_len bytes); [done|]); try done.
  destruct (find_header_end (bytes ++ b :: data)) as [e|] eqn:He.
  - intros H. apply bind_ok in H as (n & Hn & [= <- <- <- <-]). rewrite bytes_of_cons, app_assoc. split; [done|]. by exists e.
  - intros H. apply IH in H as [Hb H]. split; [|done]. by rewrite bytes_of_cons, app_assoc.
Qed.

Lemma body_loop_inv s : forall bytes total out,
  body_loop s bytes total = Ok out ->
  total <= bytes_len out /\ exists read rest, out = bytes ++ read /\ bytes_of s = read ++ rest.
Proof.
  induction s as [|[[|b data]|e] s IH]; intros bytes total out; cbn [body_loop];
    (destruct (Z.leb_spec total (bytes_len bytes)); [intros [= <-]; split; [done|]; eexists [], _; by rewrite app_nil_r|]); try done.
  destruct (total <? _); [done|]. intros H'. apply IH in H' as (Hl & read & rest & -> & Hr). split; [done|].
  exists (b :: data ++ read), rest. rewrite <-app_assoc. split; [done|]. rewrite bytes_of_cons, Hr. cbn [app]. by rewrite <-app_assoc.
Qed.

(** The response in the bytes [all]: its header, a blank line and its body. *)
Definition http_response_in (all : list byte) (r : DohHttpResponse) : Prop :=
  exists header trailing, all = header ++ blank_line ++ dh_body r ++ trailing /\
    find_header_end (header ++ blank_line) = Some (length header) /\
    parse_headers header = Ok (bytes_len (dh_body r)) /\
    parse_status_and_content_type header = Ok (dh_status r, dh_content_type r) /\
    bytes_len (dh_body r) <= MAX_DOH_RESPONSE_BODY_BYTES.

Lemma to_digit_nonneg radix c d : to_digit radix c = Some d -> 0 <= d.
Proof.
  unfold to_digit. intros H. destruct (_ && _) eqn:H1 in H; [|destruct (_ && _) eqn:H2 in H; [|destruct (_ && _) eqn:H3 in H; [|done]]];
    (destruct (_ <? _); [|done]); injection H as <-; apply andb_true_iff in H1 || apply andb_true_iff in H2 || apply andb_true_iff in H3; lia.
Qed.

Lemma read_digits_nonneg radix s : forall acc count v n rest,
  0 <= radix -> 0 <= acc -> read_digits radix s acc count = (v, n, rest) -> 0 <= v.
Proof.
  induction s as [|c s IH]; intros acc count v n rest Hr Ha; cbn [read_digits]; [by intros [= <- <- <-]|].
  destruct (to_digit radix c) as [d|] eqn:Hd; [|by intros [= <- <- <-]]. apply IH; [done|]. apply to_digit_nonneg in Hd. nia.
Qed.

Lemma parse_uint_range limit s v : parse_uint limit s = Some v -> 0 <= v <= limit.
Proof.
  unfold parse_uint. destruct (read_digits 10 _ 0 0) as [[v' n] rest] eqn:Hd. apply read_digits_nonneg in Hd; [|lia..].
  destruct (n =? 0)%nat; [done|]. destruct (bool_decide (rest = [])); [|done]. cbn [negb orb].
  destruct (Z.ltb_spec limit v'); [done|]. intros [= <-]. lia.
Qed.

Lemma header_lines_range lines : forall cl cl',
  (forall n, cl = Some n -> 0 <= n) -> header_lines lines cl = Ok cl' -> forall n, cl' = Some n -> 0 <= n.
Proof.
  induction lines as [|line lines IH]; intros cl cl' Hcl H; cbn [header_lines] in H; [by injection H as <-|].
  apply bind_ok in H as ([name value] & _ & H). destruct (eq_ascii_case name _).
  - apply bind_ok in H as (n & Hn%ok_or_ok & H). apply parse_uint_range in Hn. destruct (bool_decide _); [done|].
    refine (IH _ _ _ H). intros m [= <-]. lia.
  - destruct (_ && _); [done|]. by refine (IH _ _ _ H).
Qed.

Lemma parse_headers_nonneg header n : parse_headers header = Ok n -> 0 <= n.
Proof.
  unfold parse_headers. intros H. apply bind_ok in H as (text & _ & H). apply bind_ok in H as (cl & Hl & H%ok_or_ok).
  eapply header_lines_range; [|exact Hl|exact H]. done.
Qed.

Lemma read_http_response_inv check s r : read_http_response check s = Ok r -> http_response_in (bytes_of s) r.
Proof.
  unfold read_http_response. intros H. apply bind_ok in H as ([[[bytes he] len] rest] & Hh & H). cbv beta iota in H.
  apply header_loop_inv in Hh as (Hall & e & He & -> & Hp). cbn [app] in Hall. rewrite reads_bytes in Hall.
  destruct (Z.ltb_spec MAX_DOH_RESPONSE_BODY_BYTES len) as [?|Hmax]; [done|]. cbv zeta in H.
  destruct (usize_max <? _); [done|]. destruct (check && _); [done|].
  apply bind_ok in H as (out & Hb & H). apply body_loop_inv in Hb as (Hlen & read & left & -> & Hleft).
  apply bind_ok in H as ([status ct] & Hst & [= <-]). cbn [dh_status dh_content_type dh_body].
  apply (find_split _ blank_line_ne) in He as (tl & Ebytes & Ee & Hfind). set (h := take e bytes) in *.
  pose proof (parse_headers_nonneg _ _ Hp) as Hnn.
  assert (Edrop : drop (e + 4) (bytes ++ read) = tl ++ read).
  { rewrite Ebytes, <-!app_assoc. replace (h ++ crlf ++ crlf ++ tl ++ read) with ((h ++ blank_line) ++ tl ++ read) by by rewrite <-!app_assoc.
    apply drop_app_length'. rewrite length_app, Ee. reflexivity. }
  assert (Hlb : Z.of_nat (length (tl ++ read)) >= len).
  { unfold bytes_len in Hlen. rewrite Ebytes, !length_app, Ee in Hlen. rewrite length_app. cbn in Hlen. lia. }
  rewrite Edrop. set (body := take (Z.to_nat len) (tl ++ read)).
  assert (Eb : bytes_len body = len) by (unfold bytes_len, body; rewrite length_take; lia).
  exists h, (drop (Z.to_nat len) (tl ++ read) ++ left). cbn [dh_status dh_content_type dh_body]. fold body. rewrite Eb.
  split; [|split; [done|split; [done|split; [|done]]]].
  - rewrite Hall, Hleft, Ebytes. unfold body. rewrite <-!app_assoc. do 2 f_equal. cbn [app]. f_equal.
    rewrite (app_assoc (take _ _)), take_drop, <-app_assoc. done.
  - replace (e + 4 - 4)%nat with e in Hst by lia. rewrite take_app_le in Hst; [done|]. unfold h in Ee. rewrite length_take in Ee. lia.
Qed.

(** ** A response that is sent is read *)

Section Sent.
Context (h body : list byte) (h_end : find_header_end (h ++ blank_line) = Some (length h)).
Context (h_small : bytes_len h + 4 <= MAX_HTTP_HEADER_BYTES).
#[local] Abbreviation whole := (h ++ blank_line ++ body).

Lemma header_loop_ok s : forall bytes len,
  delivers s -> parse_headers h = Ok len -> (length bytes < length h + 4)%nat -> bytes ++ bytes_of s = whole ->
  exists bytes' rest, header_loop s bytes = Ok (bytes', (length h + 4)%nat, len, rest) /\
    delivers rest /\ bytes' ++ bytes_of rest = whole.
Proof.
  induction s as [|c s IH]; intros bytes len Hs Hp Hl E.
  { exfalso. cbn in E. rewrite app_nil_r in E. subst bytes. rewrite !length_app in Hl. cbn in Hl. lia. }
  apply list.Forall_cons in Hs as [(b & -> & Hb) Hs]. cbn [header_loop].
  destruct (Z.ltb_spec MAX_HTTP_HEADER_BYTES (bytes_len bytes)) as [?|_]; [unfold bytes_len in *; lia|].
  destruct b as [|x b]; [done|]. rewrite bytes_of_cons, app_assoc in E.
  replace whole with ((h ++ blank_line) ++ body) in E by by rewrite <-!app_assoc.
  assert (Hfound : forall y, bytes ++ x :: b = h ++ blank_line ++ y -> exists bytes' rest,
    (match find_header_end (bytes ++ x :: b) with
     | None => header_loop s (bytes ++ x :: b)
     | Some e => n ← parse_headers (take e (bytes ++ x :: b)); Ok (bytes ++ x :: b, (e + 4)%nat, n, s)
     end) = Ok (bytes', (length h + 4)%nat, len, rest) /\ delivers rest /\ bytes' ++ bytes_of rest = whole).
  { intros y Ey. rewrite Ey. unfold find_header_end. rewrite (find_complete blank_line blank_line_ne h _ h_end), take_app_length, Hp. eexists _, s. split; [done|]. split; [done|].
    rewrite <-Ey, E. by rewrite <-!app_assoc. }
  apply app_eq_inv in E as [(y & Ey & _)|(y & Ey & Es)]; [apply (Hfound y); by rewrite Ey, <-app_assoc|].
  destruct (decide (y = [])) as [->|Hy]; [apply (Hfound []); rewrite !app_nil_r in *; done|].
  unfold find_header_end. rewrite (find_partial blank_line blank_line_ne h _ y h_end (eq_sym Ey) Hy). apply IH; [done|done| |].
  - apply (f_equal length) in Ey. rewrite !length_app in Ey. rewrite length_app. cbn in *. destruct y; [done|cbn in *; lia].
  - rewrite Es, app_assoc, <-Ey. by rewrite <-app_assoc.
Qed.

Lemma body_loop_ok s : forall bytes total,
  delivers s -> bytes_len (bytes ++ bytes_of s) = total -> body_loop s bytes total = Ok (bytes ++ bytes_of s).
Proof.
  induction s as [|c s IH]; intros bytes total Hs Ht.
  - cbn [body_loop]. cbn in *. rewrite app_nil_r in *. by rewrite Ht, Z.leb_refl.
  - apply list.Forall_cons in Hs as [(b & -> & Hb) Hs]. rewrite bytes_of_cons in *. cbn [body_loop].
    destruct b as [|x b]; [done|]. unfold bytes_len in *. rewrite !length_app in Ht.
    destruct (Z.leb_spec total (Z.of_nat (length bytes))) as [?|_]; [cbn in Ht; lia|].
    destruct (Z.ltb_spec total (Z.of_nat (length bytes) + Z.of_nat (length (x :: b)))) as [?|_]; [lia|].
    rewrite IH; [by rewrite <-app_assoc|done|]. rewrite !length_app. lia.
Qed.

Lemma read_http_response_ok check s status ct :
  delivers s -> bytes_of s = whole -> parse_headers h = Ok (bytes_len body) ->
  parse_status_and_content_type h = Ok (status, ct) -> bytes_len body <= MAX_DOH_RESPONSE_BODY_BYTES ->
  read_http_response check s = Ok (mk_doh_response status ct body).
Proof.
  intros Hs Hb Hp Hst Hmax. unfold read_http_response.
  destruct (header_loop_ok (reads s) [] (bytes_len body)) as (bytes & rest & -> & Hr & E);
    [by apply reads_delivers|done|cbn; lia|by rewrite reads_bytes|]. cbn [mbind result_bind]. cbv zeta.
  destruct (Z.ltb_spec MAX_DOH_RESPONSE_BODY_BYTES (bytes_len body)) as [?|_]; [lia|].
  assert (Ht : Z.of_nat (length h + 4) + bytes_len body = bytes_len whole).
  { unfold bytes_len. rewrite !length_app. cbn. lia. }
  rewrite Ht. destruct (Z.ltb_spec usize_max (bytes_len whole)) as [Hbig|_].
  { exfalso. rewrite <-Ht in Hbig. unfold bytes_len, MAX_HTTP_HEADER_BYTES, MAX_DOH_RESPONSE_BODY_BYTES, usize_max, u64_max, u16_max in *. lia. }
  assert (Hle : bytes_len bytes <= bytes_len whole) by (rewrite <-E; unfold bytes_len; rewrite length_app; lia).
  replace (check && (bytes_len whole <? bytes_len bytes)) with false
    by (destruct (Z.ltb_spec (bytes_len whole) (bytes_len bytes)); [lia|by rewrite andb_false_r]).
  rewrite body_loop_ok by (done || by rewrite E). rewrite E. cbn [mbind result_bind].
  replace (length h + 4 - 4)%nat with (length h) by lia. rewrite take_app_length, Hst. cbn [mbind result_bind].
  do 2 f_equal. rewrite app_assoc, drop_app_length' by (rewrite length_app; done).
  unfold bytes_len. rewrite Nat2Z.id. apply take_ge. lia.
Qed.
End Sent.

(** The response of a server is read however the network cuts it into pieces, and what is
    read is the response the server sent: its status, its media type and a body of exactly
    the announced length. *)
Theorem http_response_read check s :
  (forall r, read_http_response check s = Ok r -> http_response_in (bytes_of s) r) /\
  (forall header r, delivers s -> bytes_of s = header ++ blank_line ++ dh_body r ->
     find_header_end (header ++ blank_line) = Some (length header) ->
     bytes_len header + 4 <= MAX_HTTP_HEADER_BYTES ->
     parse_headers header = Ok (bytes_len (dh_body r)) ->
     parse_status_and_content_type header = Ok (dh_status r, dh_content_type r) ->
     bytes_len (dh_body r) <= MAX_DOH_RESPONSE_BODY_BYTES -> read_http_response check s = Ok r).
Proof.
  split; [by apply read_http_response_inv|]. intros header [status ct body] Hs Hb Hf Hl Hp Hst Hm.
  by apply (read_http_response_ok header body).
Qed.

(** ** What an exchange accepts *)

(** A written request is on the connection, head and body, and nothing was read. *)
Lemma send_request_ok r c c' :
  send_request r c = (Ok tt, c') ->
  co_out c' = co_out c ++ [http_head r; hr_body r] /\ co_in c' = co_in c.
Proof.
  unfold send_request, conn_write, conn_shutdown. destruct c as [i o w].
  destruct w as [|[[]|?] [|[[]|?] [|[[]|?] ?]]]; cbn; intros [= <-]; cbn; by rewrite <-app_assoc.
Qed.

(** The outbound proxy of an upstream, if it has one: its profile, the resolver of the
    proxy's own name, and whether the handshake is cancelled. *)
Abbreviation Proxy := (option (OutboundProfile * (list byte -> Z -> result PortError (list SocketAddr)) * option CancelReason)).

Section Transport.
Context (dial : SocketAddr -> result PortError Conn).
Context (resolve_address : DohAddressRequest -> result PortError (list SocketAddr)).

(** The two transports. *)
Definition doh_post (via : Proxy) (cancelled : option (option CancelReason)) (expired : bool) (r : DohHttpRequest) :
    result PortError DohHttpResponse :=
  match via with
  | None => post_http dial resolve_address r cancelled expired
  | Some (proxy, resolver, handshake) =>
    post_http_via_socks dial resolve_address proxy resolver r cancelled expired handshake
  end.

(** The connection a request goes over: to the configured address or the first one its
    name resolves to, or the one the proxy has connected to the target. *)
Definition connected (via : Proxy) (r : DohHttpRequest) (conn : Conn) : Prop :=
  let port := default 80 (url_port (hr_endpoint r)) in
  match via with
  | None => exists target, dial target = Ok conn /\
      match hr_connect_ip r with
      | Some ip => target = (ip, port)
      | None => exists rest, resolve_address (address_request r port) = Ok (target :: rest)
      end
  | Some (proxy, resolver, handshake) => exists target ip,
      profile_target proxy (hr_host r) port (hr_connect_ip r) (hr_bootstrap r) = Ok target /\
      resolve_for_proxy resolve_address r port target = Ok ip /\
      connect_profile_with_resolver dial resolver proxy target ip handshake = Ok conn
  end.

(** Requests the transports send at all. *)
Definition sendable (r : DohHttpRequest) : bool :=
  String.eqb (url_scheme (hr_endpoint r)) "http" && negb (bad_host (hr_host r)).

(** A response of the transport was read off the connection the request was written to. *)
Lemma doh_post_inv via cancelled expired r resp :
  doh_post via cancelled expired r = Ok resp ->
  exists conn conn', connected via r conn /\ send_request r conn = (Ok tt, conn') /\
    http_response_in (bytes_of (co_in conn)) resp.
Proof.
  destruct via as [[[proxy resolver] handshake]|]; cbn [doh_post]; unfold post_http_via_socks, post_http;
    (destruct (negb _); [done|]); (destruct (bad_host _); [done|]); intros H; apply bind_ok in H as (_ & _ & H); cbv zeta in H.
  - apply bind_ok in H as (target & Ht & H). apply bind_ok in H as (ip & Hip & H). apply bind_ok in H as (stream & Hc & H).
    destruct (profile_target _ _ _ _ _) as [t|] eqn:Et; [|done]. injection Ht as ->.
    destruct (connect_profile_with_resolver _ _ _ _ _ _) as [c|] eqn:Ec; [|done]. injection Hc as ->.
    destruct (send_request r stream) as [[[]|err] c'] eqn:Es; [|done]. exists stream, c'.
    apply read_http_response_inv in H. apply send_request_ok in Es as Hs. destruct Hs as [_ Hi]. rewrite Hi in H.
    split_and!; [|done|done]. by exists target, ip.
  - apply bind_ok in H as (target & Ht & H). apply bind_ok in H as (stream & Hc & H).
    destruct (send_request r stream) as [[[]|err] c'] eqn:Es; [|done]. exists stream, c'.
    apply read_http_response_inv in H. apply send_request_ok in Es as Hs. destruct Hs as [_ Hi]. rewrite Hi in H.
    split_and!; [|done|done]. exists target. split; [done|]. unfold resolve_target in Ht.
    destruct (hr_connect_ip r); [by injection Ht|]. apply bind_ok in Ht as (l & Hl & Hh%ok_or_ok).
    destruct l as [|x l]; [done|]. injection Hh as ->. by exists l.
Qed.

(** A complete response on that connection is read. *)
Lemma doh_post_ok via r conn conn' header resp :
  sendable r = true -> connected via r conn -> send_request r conn = (Ok tt, conn') ->
  delivers (co_in conn) -> bytes_of (co_in conn) = header ++ blank_line ++ dh_body resp ->
  find_header_end (header ++ blank_line) = Some (length header) ->
  bytes_len header + 4 <= MAX_HTTP_HEADER_BYTES ->
  parse_headers header = Ok (bytes_len (dh_body resp)) ->
  parse_status_and_content_type header = Ok (dh_status resp, dh_content_type resp) ->
  bytes_len (dh_body resp) <= MAX_DOH_RESPONSE_BODY_BYTES ->
  doh_post via None false r = Ok resp.
Proof.
  intros [Hsch Hbad%negb_true_iff]%andb_true_iff Hc Hs Hd Hb Hf Hl Hp Hst Hm.
  assert (Hr : forall check, read_http_response check (co_in conn') = Ok resp).
  { intros check. apply send_request_ok in Hs as [_ ->]. destruct resp as [status ct body].
    by apply (read_http_response_ok header body). }
  destruct via as [[[proxy resolver] handshake]|]; cbn [doh_post connected] in *; unfold post_http_via_socks, post_http;
    rewrite Hsch, Hbad; cbn [negb http_budget mbind result_bind].
  - destruct Hc as (target & ip & -> & Hip & Hconn). cbn [map_err mbind result_bind]. rewrite Hip. cbn [mbind result_bind].
    rewrite Hconn. cbn [map_err mbind result_bind]. rewrite Hs. apply Hr.
  - destruct Hc as (target & Hconn & Ht). unfold resolve_target.
    destruct (hr_connect_ip r) as [ip|].
    + subst target. cbn [mbind result_bind]. rewrite Hconn. cbn [mbind result_bind]. rewrite Hs. apply Hr.
    + destruct Ht as [rest ->]. cbn [mbind result_bind head ok_or]. rewrite Hconn. cbn [mbind result_bind].
      rewrite Hs. apply Hr.
Qed.
End Transport.

Section Exchange.
Context {HH : Hickory} {HL : HickoryLaws HH}.

(** The message of a response that answers the query sent with [id]. *)
Definition answers_query (q : CanonicalQuery) (id : Z) (resp : DohHttpResponse) (m : Message) : Prop :=
  200 <= dh_status resp < 300 /\ is_dns_message_content_type (dh_content_type resp) = true /\
  bytes_len (dh_body resp) <= MAX_DOH_RESPONSE_BODY_BYTES /\ from_vec (dh_body resp) = Some m /\ response_accepted m q id.

Lemma validate_response_inv c q id resp cancelled r :
  validate_response c q id resp cancelled = UO_Response r ->
  cancelled = None /\ exists m, answers_query q id resp m /\ CanonicalResponse_from_message m q id = Ok r.
Proof.
  unfold validate_response. destruct cancelled; [done|].
  destruct (Z.leb_spec 200 (dh_status resp)), (Z.ltb_spec (dh_status resp) 300); cbn [andb negb]; try done.
  destruct (is_dns_message_content_type _) eqn:Hct; [|done]. cbn [negb].
  destruct (Z.ltb_spec MAX_DOH_RESPONSE_BODY_BYTES (bytes_len (dh_body resp))); [done|].
  destruct (from_vec _) as [m|] eqn:Hm; [|done].
  destruct (CanonicalResponse_from_message m q id) as [r'|] eqn:Hr; [|done]. intros [= <-]. split; [done|].
  exists m. split; [|done]. repeat split; try done; try lia; by eapply response_from_message_inv.
Qed.

Lemma validate_response_ok c q id resp m :
  answers_query q id resp m -> exists r, validate_response c q id resp None = UO_Response r /\ CanonicalResponse_from_message m q id = Ok r.
Proof.
  intros ([Hlo Hhi] & Hct & Hl & Hm & Hacc). destruct (response_from_message_complete _ _ _ Hacc) as [r Hr].
  exists r. split; [|done]. unfold validate_response. rewrite Hct, Hm, Hr.
  destruct (Z.leb_spec 200 (dh_status resp)); [|lia]. destruct (Z.ltb_spec (dh_status resp) 300); [|lia]. cbn [andb negb].
  by destruct (Z.ltb_spec MAX_DOH_RESPONSE_BODY_BYTES (bytes_len (dh_body resp))); [lia|].
Qed.

Lemma doh_exchange_eq post e q cancelled_after wire :
  to_vec (message_with_id q (allocate_id e).1) = Some wire -> bytes_len wire <= MAX_DOH_RESPONSE_BODY_BYTES ->
  doh_exchange post e q None cancelled_after =
  (match post (doh_request_new (de_endpoint e) (de_connect_ip e) (de_bootstrap e) wire) with
   | Ok resp => validate_response (de_connector e) q (allocate_id e).1 resp cancelled_after
   | Err er => map_port_error (de_connector e) er
   end, (allocate_id e).2).
Proof.
  intros Hw Hl. unfold doh_exchange. destruct (allocate_id e) as [id e'] eqn:Ha. cbn [fst snd] in *. rewrite Hw.
  destruct (Z.ltb_spec MAX_DOH_RESPONSE_BODY_BYTES (bytes_len wire)); [lia|]. unfold allocate_id in Ha. by injection Ha as <- <-.
Qed.

End Exchange.

(** ** Examples *)

Module DohExamples.
Import Sample.

Definition response_header : list byte :=
  str_bytes "HTTP/1.1 200 OK" ++ crlf ++ str_bytes "content-type: Application/DNS-Message; q=1" ++ crlf ++
  str_bytes "Content-Length: 6".
(** The sample library, which decodes the answer with identifier 1. *)
#[local] Instance doh_library : Hickory := {|
  Name := SName; RData := option Z; Edns := Z * option Z; ClientSubnet := Z;
  name_to_lowercase n := (map lower n.1, n.2);
  name_set_fqdn n := (n.1, true);
  name_eqb n m := bool_decide (n = m);
  rdata_soa_minimum d := d;
  edns_version e := e.1; edns_new := (0, None); edns_subnet e := e.2;
  edns_remove_subnet e := (e.1, None); edns_insert_subnet s e := (e.1, Some s);
  to_vec m := Some (wire m);
  from_vec b := if bool_decide (b = wire (positive_msg 1 300)) then Some (positive_msg 1 300) else None
|}.
#[local] Instance doh_library_laws : HickoryLaws doh_library.
Proof. destruct hickory_laws as [h1 h2 h3 h4 h5 h6 h7 h8 h9 h10]. by constructor. Qed.
Definition body : list byte := wire (positive_msg 1 300).
Definition sent_query : CanonicalQuery (HH := doh_library) :=
  {| query_message := query_msg; query_question := CanonicalQuestion_from_query (HH := doh_library) question |}.
Definition sent_response : list byte := response_header ++ blank_line ++ body.
Definition received : DohHttpResponse := mk_doh_response 200 (Some (lit "Application/DNS-Message; q=1")) body.

(** In pieces that cut the status line, the blank line and the body. *)
Definition in_pieces : Stream := [Data (take 5 sent_response); Data (take 74 (drop 5 sent_response)); Data (take 4 (drop 79 sent_response)); Data (drop 83 sent_response)].

Lemma http_response_read_witness : read_http_response true in_pieces = Ok received /\ http_response_in (bytes_of in_pieces) received.
Proof.
  destruct (http_response_read true in_pieces) as [H1 H2].
  assert (H : read_http_response true in_pieces = Ok received).
  { apply (H2 response_header received).
    - repeat constructor; eexists; (split; [reflexivity|vm_compute; discriminate]).
    - vm_compute. reflexivity.
    - vm_compute. reflexivity.
    - vm_compute. discriminate.
    - vm_compute. reflexivity.
    - vm_compute. reflexivity.
    - vm_compute. discriminate. }
  split; [exact H|]. exact (H1 received H).
Defined.

(** A byte after the response is dropped when it comes with the headers and refused when it
    comes later; [read_response_stream] refuses it in both cases. *)
Example surplus_depends_on_pieces :
  read_response [Data (sent_response ++ [Byte.x00])] = Ok received /\
  read_response [Data (take 84 sent_response); Data (drop 84 sent_response ++ [Byte.x00])] = Err (read_error PE_ProtocolViolation) /\
  read_response_stream [Data (sent_response ++ [Byte.x00])] = Err (read_error PE_ProtocolViolation) /\
  read_response_stream [Data (take 84 sent_response); Data (drop 84 sent_response ++ [Byte.x00])] = Err (read_error PE_ProtocolViolation).
Proof. repeat split; vm_compute; reflexivity. Qed.

Definition endpoint : Url := mk_url "http" [] None (Some (str_bytes "ex")) None (str_bytes "/dns-query") None None.
Definition exchange0 : DohExchange := mk_doh_exchange (mk_connector "doh") endpoint (Some (V4 1)) None 0.

(** The request on the wire. *)
Example request_on_the_wire :
  http_head (doh_request_new endpoint None None (repeat Byte.x00 33)) =
  str_bytes "POST /dns-query HTTP/1.1" ++ crlf ++ str_bytes "Host: ex" ++ crlf ++
  str_bytes "Content-Type: application/dns-message" ++ crlf ++ str_bytes "Accept: application/dns-message" ++ crlf ++
  str_bytes "Content-Length: 33" ++ crlf ++ str_bytes "Connection: close" ++ crlf ++ crlf.
Proof. vm_compute. reflexivity. Qed.

Definition server (_ : SocketAddr) : result PortError Conn := Ok (mk_conn in_pieces [] []).
Definition post : DohHttpRequest -> result PortError DohHttpResponse := doh_post server (fun _ => Ok []) None None false.


(** The next exchange uses the same identifier again: the counter has passed zero. *)
Example id_after_wrap : (allocate_id exchange0).1 = 1 /\ (allocate_id (allocate_id exchange0).2).1 = 1.
Proof. split; reflexivity. Qed.

End DohExamples.
