(* ===== verification/ClientIp.v ===== *)
(** * Client addresses behind proxies (src/backend/src/transport/doh.rs)

    The PROXY protocol header, the forwarding headers of HTTP and the policy that decides
    which of them is believed. The networks of ipnet are the class [IpNetOps]. *)

From S2P Require Import Prelude Text DohRoute Net Client Wire Bootstrap DohClient.

Definition MAX_PROXY_V1_BYTES : Z := 107.
Definition MAX_PROXY_V2_BYTES : Z := 536.
Definition PROXY_V1_PREFIX : list byte := str_bytes "PROXY ".
Definition PROXY_V2_SIGNATURE : list byte :=
  byte_of_Z <$> [13; 10; 13; 10; 0; 13; 10; 81; 85; 73; 84; 10].

(** ** Addresses in text *)

Definition parse_single_ip (value : chars) : option IpAddr :=
  let value := trim value in
  if bool_decide (value = []) || existsb ascii_space value then None else parse_ip value.

(** [str::split(',')] mapped to addresses, all of which must parse. *)
Definition parse_ip_chain (value : chars) : option (list IpAddr) := mapM parse_single_ip (split_on 44 value).

(** [str::split_once('=')] *)
Fixpoint split_equals (s : chars) : option (chars * chars) :=
  match s with
  | [] => None
  | c :: s' => if c =? 61 then Some ([], s') else '(a, b) ← split_equals s'; Some (c :: a, b)
  end.

(** The text between quotes, if the value starts with one. *)
Definition unquote (value : chars) : option chars :=
  match value with
  | 34 :: rest =>
    if bool_decide (head (reverse rest) = Some 34) then
      let inner := take (length rest - 1) rest in
      if bool_decide (34 ∈ inner) || bool_decide (92 ∈ inner) then None else Some inner
    else None
  | _ => Some value
  end.

(** [str::split_once] at a closing bracket. *)
Fixpoint split_bracket (s : chars) : option (chars * chars) :=
  match s with
  | [] => None
  | c :: s' => if c =? 93 then Some ([], s') else '(a, b) ← split_bracket s'; Some (c :: a, b)
  end.

Definition parse_forwarded_ip (value : chars) : option IpAddr :=
  value ← unquote value;
  match value with
  | 91 :: value =>
    '(address, suffix) ← split_bracket value;
    if match suffix with
       | [] => true
       | 58 :: port => bool_decide (is_Some (parse_uint u16_max port))
       | _ => false
       end
    then parse_ip address else None
  | _ => parse_single_ip value
  end.

(** The parameters of one element: its address is in its only [for]. *)
Fixpoint forwarded_params (parameters : list chars) (address : option IpAddr) : option (option IpAddr) :=
  match parameters with
  | [] => Some address
  | parameter :: rest =>
    '(name, value) ← split_equals (trim parameter);
    if eq_ascii_case (trim name) (lit "for") then
      match address with
      | Some _ => None
      | None => a ← parse_forwarded_ip (trim value); forwarded_params rest (Some a)
      end
    else forwarded_params rest address
  end.
Definition forwarded_element (element : chars) : option IpAddr :=
  address ← forwarded_params (split_on 59 element) None; address.
Definition parse_forwarded_chain (value : chars) : option (list IpAddr) := mapM forwarded_element (split_on 44 value).

(** ** The PROXY protocol *)

Inductive ProxyHeaderParse := PH_Incomplete | PH_Complete (consumed : nat) (client : IpAddr).

Definition starts_with_bytes (pre bytes : list byte) : bool := bool_decide (take (length pre) bytes = pre).

Definition is_v4 (a : IpAddr) : bool := match a with V4 _ => true | V6 _ => false end.

(** The line of version 1, without its end. *)
Definition proxy_line (line : list byte) : option IpAddr :=
  text ← utf8_decode line;
  match ascii_words [] text with
  | [keyword; protocol; source; destination; source_port; destination_port] =>
    if negb (bool_decide (keyword = lit "PROXY")) then None
    else if negb (bool_decide (protocol = lit "TCP4") || bool_decide (protocol = lit "TCP6")) then None
    else
      source ← parse_single_ip source;
      destination ← parse_single_ip destination;
      source_port ← parse_uint u16_max source_port;
      destination_port ← parse_uint u16_max destination_port;
      let v4 := bool_decide (protocol = lit "TCP4") in
      if negb (Bool.eqb (is_v4 source) v4) || negb (Bool.eqb (is_v4 destination) v4) ||
         (source_port =? 0) || (destination_port =? 0) then None
      else Some source
  | _ => None
  end.

Definition byte_at (bytes : list byte) (i : nat) : Z := byte_to_Z (default Byte.x00 (bytes !! i)).
Definition be_at (bytes : list byte) (i n : nat) : Z := from_be (take n (drop i bytes)).

(** The addresses of version 2: source address, source and destination port. *)
Definition proxy_addresses (family_protocol payload_length : Z) (buffer : list byte) : option (IpAddr * Z * Z) :=
  if (family_protocol =? 0x11) && (12 <=? payload_length) then
    Some (V4 (be_at buffer 16 4), be_at buffer 24 2, be_at buffer 26 2)
  else if (family_protocol =? 0x21) && (36 <=? payload_length) then
    Some (V6 (be_at buffer 16 16), be_at buffer 48 2, be_at buffer 50 2)
  else None.

(** [parse_proxy_header]; [None] is an error. *)
Definition parse_proxy_header (buffer : list byte) : option ProxyHeaderParse :=
  if starts_with_bytes buffer PROXY_V1_PREFIX then Some PH_Incomplete
  else if starts_with_bytes PROXY_V1_PREFIX buffer then
    match find_subslice crlf buffer with
    | None => if bytes_len buffer <? MAX_PROXY_V1_BYTES then Some PH_Incomplete else None
    | Some line_end =>
      let consumed := (line_end + 2)%nat in
      if MAX_PROXY_V1_BYTES <? Z.of_nat consumed then None
      else source ← proxy_line (take line_end buffer); Some (PH_Complete consumed source)
    end
  else if starts_with_bytes buffer PROXY_V2_SIGNATURE then Some PH_Incomplete
  else if negb (starts_with_bytes PROXY_V2_SIGNATURE buffer) then None
  else if bytes_len buffer <? 16 then Some PH_Incomplete
  else if negb (Z.shiftr (byte_at buffer 12) 4 =? 2) || negb (Z.land (byte_at buffer 12) 0xf =? 1) then None
  else
    let payload_length := be_at buffer 14 2 in
    let consumed := 16 + payload_length in
    if MAX_PROXY_V2_BYTES <? consumed then None
    else if bytes_len buffer <? consumed then Some PH_Incomplete
    else
      '(source, source_port, destination_port) ← proxy_addresses (byte_at buffer 13) payload_length buffer;
      if (source_port =? 0) || (destination_port =? 0) then None
      else Some (PH_Complete (Z.to_nat consumed) source).

(** ** The policy *)

Inductive ClientIpSource := CIS_Peer | CIS_ForwardedHeader | CIS_ProxyProtocol.
#[global] Instance ClientIpSource_eq_dec : EqDecision ClientIpSource.
Proof. solve_decision. Defined.
Inductive ForwardedHeader := XForwardedFor | XRealIp | Forwarded.
Inductive ForwardedDisposition := FD_Reject | FD_UsePeer.

Record ParsedForwardedHeaders := mk_forwarded {
  x_forwarded_for : option chars;
  x_real_ip : option chars;
  forwarded : option chars
}.

Inductive ClientIpResolutionError := UntrustedPeer | MissingAddress | InvalidAddresses.

Section ClientIp.
Context {IN : IpNetOps}.

Record DohClientIpPolicy := mk_client_ip {
  ip_source : ClientIpSource;
  ip_header : option ForwardedHeader;
  trusted_proxies : list IpNet;
  on_missing : ForwardedDisposition;
  on_invalid : ForwardedDisposition
}.
(** [DohClientIpPolicy::default] *)
Definition client_ip_default : DohClientIpPolicy := mk_client_ip CIS_Peer None [] FD_Reject FD_Reject.
(** [DohClientIpPolicy::from_resolved] on the fields of the configuration. *)
Definition client_ip_from_resolved (source : ClientIpSource) (header : option ForwardedHeader)
    (proxies : option (list IpNet)) (missing invalid : option ForwardedDisposition) : DohClientIpPolicy :=
  mk_client_ip source header (default [] proxies) (default FD_Reject missing) (default FD_Reject invalid).

Definition trusted (networks : list IpNet) (a : IpAddr) : bool := existsb (fun n => net_contains n a) networks.

Definition select_forwarded_client (chain : list IpAddr) (networks : list IpNet) : option IpAddr :=
  match List.find (fun a => negb (trusted networks a)) (reverse chain) with
  | Some a => Some a
  | None => head chain
  end.

Definition header_value (header : ForwardedHeader) (headers : ParsedForwardedHeaders) : option chars :=
  match header with
  | XForwardedFor => x_forwarded_for headers
  | XRealIp => x_real_ip headers
  | Forwarded => forwarded headers
  end.
Definition header_chain (header : ForwardedHeader) (value : chars) : option (list IpAddr) :=
  match header with
  | XForwardedFor => parse_ip_chain value
  | XRealIp => (fun a => [a]) <$> parse_single_ip value
  | Forwarded => parse_forwarded_chain value
  end.

(** [DohClientIpPolicy::resolve] *)
Definition resolve_client_ip (p : DohClientIpPolicy) (peer : SocketAddr) (headers : ParsedForwardedHeaders)
    (proxy_client : option IpAddr) : result ClientIpResolutionError IpAddr :=
  let disposition d e := match d with FD_Reject => Err e | FD_UsePeer => Ok peer.1 end in
  if bool_decide (ip_source p = CIS_Peer) then Ok peer.1
  else if negb (trusted (trusted_proxies p) peer.1) then Err UntrustedPeer
  else if bool_decide (ip_source p = CIS_ProxyProtocol) then ok_or InvalidAddresses proxy_client
  else match ip_header p with
  | None => Err MissingAddress
  | Some header =>
    match header_value header headers with
    | None => disposition (on_missing p) MissingAddress
    | Some value =>
      match header_chain header value with
      | None => disposition (on_invalid p) InvalidAddresses
      | Some chain => ok_or InvalidAddresses (select_forwarded_client chain (trusted_proxies p))
      end
    end
  end.

Definition peer_is_trusted (p : DohClientIpPolicy) (peer : IpAddr) : bool :=
  bool_decide (ip_source p = CIS_Peer) || trusted (trusted_proxies p) peer.

(** ** Forwarded addresses cannot be forged *)

Lemma mapM_app_option {A B} (f : A -> option B) l k :
  mapM f (l ++ k) = x ← mapM f l; y ← mapM f k; Some (x ++ y).
Proof.
  induction l as [|a l IH]; cbn.
  - by destruct (mapM f k).
  - destruct (f a); [|done]. cbn. rewrite IH. destruct (mapM f l); [|done]. cbn. by destruct (mapM f k).
Qed.

(** A list of addresses that ends in [text] is read as the addresses before it and those
    of [text]. *)
Lemma header_chain_app header pre text chain :
  header <> XRealIp -> header_chain header text = Some chain ->
  header_chain header (pre ++ 44 :: text) = (fun before => before ++ chain) <$> header_chain header pre.
Proof.
  intros Hh Hc. destruct header; [|done|]; unfold header_chain, parse_ip_chain, parse_forwarded_chain in *;
    rewrite split_on_app, mapM_app_option, Hc; by destruct (mapM _ (split_on 44 pre)).
Qed.

Lemma select_last_untrusted before a hops networks :
  trusted networks a = false -> Forall (fun h => trusted networks h = true) hops ->
  select_forwarded_client (before ++ a :: hops) networks = Some a.
Proof.
  intros Ha Hh. unfold select_forwarded_client. rewrite reverse_app, reverse_cons.
  assert (List.find (fun x => negb (trusted networks x)) ((reverse hops ++ [a]) ++ reverse before) = Some a) as ->; [|done].
  rewrite <-app_assoc. apply Forall_reverse in Hh. induction Hh as [|h l Hh _ IH]; cbn [app List.find]; [by rewrite Ha|].
  by rewrite Hh.
Qed.

(** C19: A client cannot choose the address it is taken for. Without trust in the peer no
    header and no PROXY line counts; and of a list of forwarded addresses, whatever the
    client wrote in front, the address is the one the outermost trusted proxy has seen,
    unless the client's part is malformed, which is treated as the policy says. *)
Theorem client_address_unforgeable p peer headers proxy_client :
  (ip_source p = CIS_Peer -> resolve_client_ip p peer headers proxy_client = Ok peer.1) /\
  (ip_source p <> CIS_Peer -> trusted (trusted_proxies p) peer.1 = false ->
     resolve_client_ip p peer headers proxy_client = Err UntrustedPeer) /\
  (forall header forged text seen hops,
     ip_source p = CIS_ForwardedHeader -> ip_header p = Some header -> header <> XRealIp ->
     trusted (trusted_proxies p) peer.1 = true ->
     header_value header headers = Some (forged ++ 44 :: text) ->
     header_chain header text = Some (seen :: hops) -> trusted (trusted_proxies p) seen = false ->
     Forall (fun h => trusted (trusted_proxies p) h = true) hops ->
     resolve_client_ip p peer headers proxy_client =
     match header_chain header forged with
     | Some _ => Ok seen
     | None => match on_invalid p with FD_Reject => Err InvalidAddresses | FD_UsePeer => Ok peer.1 end
     end).
Proof.
  unfold resolve_client_ip. split; [|split].
  - intros ->. done.
  - intros Hs Ht. rewrite bool_decide_eq_false_2 by done. by rewrite Ht.
  - intros header forged text seen hops -> -> Hh Ht Hv Hc Hseen Hhops. rewrite Ht, Hv. cbn [negb].
    rewrite (header_chain_app header forged text _ Hh Hc). rewrite !bool_decide_eq_false_2 by done.
    destruct (header_chain header forged) as [before|]; [|done]. cbn [fmap option_fmap option_map].
    by rewrite select_last_untrusted.
Qed.
End ClientIp.

(** ** The PROXY header ends where it ends *)

Lemma starts_with_bytes_spec pre bytes : starts_with_bytes pre bytes = true <-> exists rest, bytes = pre ++ rest.
Proof.
  unfold starts_with_bytes. rewrite bool_decide_eq_true. split.
  - intros H. exists (drop (length pre) bytes). by rewrite <-H at 1; rewrite take_drop.
  - intros [rest ->]. apply take_app_length.
Qed.

Lemma starts_of_prefix pre bytes k :
  starts_with_bytes pre bytes = true -> (k <= length pre)%nat -> starts_with_bytes (take k bytes) pre = true.
Proof.
  intros [rest ->]%starts_with_bytes_spec Hk. apply starts_with_bytes_spec. exists (drop k pre).
  rewrite take_app_le by lia. by rewrite take_drop.
Qed.

Lemma starts_take pre bytes k :
  starts_with_bytes pre bytes = true -> (length pre <= k)%nat -> starts_with_bytes pre (take k bytes) = true.
Proof.
  intros [rest ->]%starts_with_bytes_spec Hk. apply starts_with_bytes_spec. rewrite take_app_ge by lia. by eexists.
Qed.

Lemma starts_app pre bytes x : starts_with_bytes pre bytes = true -> starts_with_bytes pre (bytes ++ x) = true.
Proof. intros [rest ->]%starts_with_bytes_spec. apply starts_with_bytes_spec. rewrite <-app_assoc. by eexists. Qed.

Lemma starts_longer pre bytes : (length pre < length bytes)%nat -> starts_with_bytes bytes pre = false.
Proof.
  intros H. apply not_true_iff_false. intros [rest E]%starts_with_bytes_spec. apply (f_equal length) in E. rewrite length_app in E. lia.
Qed.

(** The two versions, once their mark is complete. *)
Definition parse_v1 (buffer : list byte) : option ProxyHeaderParse :=
  match find_subslice crlf buffer with
  | None => if bytes_len buffer <? MAX_PROXY_V1_BYTES then Some PH_Incomplete else None
  | Some line_end =>
    if MAX_PROXY_V1_BYTES <? Z.of_nat (line_end + 2) then None
    else source ← proxy_line (take line_end buffer); Some (PH_Complete (line_end + 2) source)
  end.
Definition parse_v2 (buffer : list byte) : option ProxyHeaderParse :=
  if bytes_len buffer <? 16 then Some PH_Incomplete
  else if negb (Z.shiftr (byte_at buffer 12) 4 =? 2) || negb (Z.land (byte_at buffer 12) 0xf =? 1) then None
  else
    let consumed := 16 + be_at buffer 14 2 in
    if MAX_PROXY_V2_BYTES <? consumed then None
    else if bytes_len buffer <? consumed then Some PH_Incomplete
    else
      '(source, source_port, destination_port) ← proxy_addresses (byte_at buffer 13) (be_at buffer 14 2) buffer;
      if (source_port =? 0) || (destination_port =? 0) then None
      else Some (PH_Complete (Z.to_nat consumed) source).

Lemma parse_proxy_header_v1 buffer :
  starts_with_bytes PROXY_V1_PREFIX buffer = true -> (6 < length buffer)%nat -> parse_proxy_header buffer = parse_v1 buffer.
Proof. intros Hs Hl. unfold parse_proxy_header. by rewrite starts_longer, Hs by (cbn; lia). Qed.

Lemma v2_not_v1 buffer : starts_with_bytes PROXY_V2_SIGNATURE buffer = true -> starts_with_bytes PROXY_V1_PREFIX buffer = false.
Proof. intros [rest ->]%starts_with_bytes_spec. done. Qed.

Lemma parse_proxy_header_v2 buffer :
  starts_with_bytes PROXY_V2_SIGNATURE buffer = true -> (12 < length buffer)%nat -> parse_proxy_header buffer = parse_v2 buffer.
Proof.
  intros Hs Hl. unfold parse_proxy_header. rewrite starts_longer by (cbn; lia). rewrite (v2_not_v1 _ Hs).
  rewrite starts_longer by (cbn; lia). by rewrite Hs.
Qed.

Lemma parse_proxy_header_inv buffer n a :
  parse_proxy_header buffer = Some (PH_Complete n a) ->
  (starts_with_bytes PROXY_V1_PREFIX buffer = true /\ parse_v1 buffer = Some (PH_Complete n a)) \/
  (starts_with_bytes PROXY_V2_SIGNATURE buffer = true /\ parse_v2 buffer = Some (PH_Complete n a)).
Proof.
  unfold parse_proxy_header. destruct (starts_with_bytes buffer PROXY_V1_PREFIX); [done|].
  destruct (starts_with_bytes PROXY_V1_PREFIX buffer); [by left|].
  destruct (starts_with_bytes buffer PROXY_V2_SIGNATURE); [done|].
  destruct (starts_with_bytes PROXY_V2_SIGNATURE buffer); [by right|done].
Qed.

Lemma crlf_ne : crlf <> [].
Proof. done. Qed.

(** Version 1: a line of at most 107 bytes. *)
Lemma v1_framing buffer n a :
  starts_with_bytes PROXY_V1_PREFIX buffer = true -> parse_v1 buffer = Some (PH_Complete n a) ->
  (n <= length buffer)%nat /\ Z.of_nat n <= MAX_PROXY_V2_BYTES /\
  (forall k, (k < n)%nat -> parse_proxy_header (take k buffer) = Some PH_Incomplete) /\
  (forall x, parse_proxy_header (take n buffer ++ x) = Some (PH_Complete n a)).
Proof.
  intros Hs H. unfold parse_v1 in H. destruct (find_subslice crlf buffer) as [e|] eqn:He; [|by destruct (_ <? _)].
  destruct (Z.ltb_spec MAX_PROXY_V1_BYTES (Z.of_nat (e + 2))) as [?|Hmax]; [done|].
  destruct (proxy_line (take e buffer)) as [src|] eqn:Hl; [|done]. injection H as <- <-.
  apply (find_split crlf crlf_ne) in He as (tail & E & Ee & Hf). set (line := take e buffer) in *.
  assert (Hn : take (e + 2) buffer = line ++ crlf).
  { rewrite E, app_assoc. rewrite take_app_length'; [done|]. rewrite length_app, Ee. done. }
  assert (Hlen : (e + 2 <= length buffer)%nat) by (rewrite E, !length_app, Ee; cbn; lia).
  assert (H6 : (6 < e + 2)%nat).
  { pose proof (starts_take PROXY_V1_PREFIX buffer 6 Hs ltac:(cbn; lia)) as H6. apply Nat.nle_gt. intros Hle.
    assert (line = take e PROXY_V1_PREFIX) as Eline.
    { apply starts_with_bytes_spec in Hs as [rest Hr]. unfold line. rewrite Hr. apply take_app_le. cbn. lia. }
    assert (Hl4 : (e <= 4)%nat) by lia. rewrite Eline in Hl. do 5 (destruct e as [|e]; [by vm_compute in Hl|]). lia. }
  split; [done|]. split; [unfold MAX_PROXY_V1_BYTES, MAX_PROXY_V2_BYTES in *; lia|]. split.
  - intros k Hk. destruct (Nat.le_gt_cases k 6) as [Hk6|Hk6].
    { unfold parse_proxy_header. rewrite (starts_of_prefix _ _ k Hs); [done|cbn; lia]. }
    rewrite parse_proxy_header_v1; [|apply starts_take; [done|cbn; lia]|rewrite length_take; lia]. unfold parse_v1.
    assert (Hp : take k buffer ++ drop k (take (e + 2) buffer) = line ++ crlf).
    { rewrite <-Hn. rewrite <-(take_drop k (take (e + 2) buffer)) at 2. f_equal. rewrite take_take. f_equal. lia. }
    rewrite (find_partial crlf crlf_ne line _ _ Hf Hp).
    + destruct (Z.ltb_spec (bytes_len (take k buffer)) MAX_PROXY_V1_BYTES) as [|Hge]; [done|].
      unfold bytes_len in Hge. rewrite length_take in Hge. lia.
    + intros E0%(f_equal length). rewrite length_drop, length_take in E0. cbn in E0. lia.
  - intros x. rewrite Hn. rewrite parse_proxy_header_v1.
    + unfold parse_v1. rewrite <-app_assoc, (find_complete crlf crlf_ne line _ Hf). rewrite Ee.
      destruct (Z.ltb_spec MAX_PROXY_V1_BYTES (Z.of_nat (e + 2))); [lia|]. rewrite take_app_length' by done. by rewrite Hl.
    + apply starts_app. rewrite <-Hn. apply starts_take; [done|cbn; lia].
    + rewrite !length_app, Ee. cbn. lia.
Qed.

Lemma be_at_app l x i m : (i + m <= length l)%nat -> be_at (l ++ x) i m = be_at l i m.
Proof. intros H. unfold be_at. rewrite drop_app_le by lia. rewrite take_app_le; [done|]. rewrite length_drop. lia. Qed.

Lemma byte_at_app l x i : (i < length l)%nat -> byte_at (l ++ x) i = byte_at l i.
Proof. intros H. unfold byte_at. by rewrite lookup_app_l. Qed.

Lemma be_at_take k l i m : (i + m <= k)%nat -> (k <= length l)%nat -> be_at (take k l) i m = be_at l i m.
Proof. intros H Hk. rewrite <-(take_drop k l) at 2. rewrite be_at_app; [done|]. rewrite length_take. lia. Qed.

Lemma byte_at_take k l i : (i < k)%nat -> (k <= length l)%nat -> byte_at (take k l) i = byte_at l i.
Proof. intros H Hk. rewrite <-(take_drop k l) at 2. rewrite byte_at_app; [done|]. rewrite length_take. lia. Qed.

Lemma proxy_addresses_app f p l x : 16 + p <= bytes_len l -> proxy_addresses f p (l ++ x) = proxy_addresses f p l.
Proof.
  intros H. unfold proxy_addresses, bytes_len in *. destruct (f =? 17), (Z.leb_spec 12 p); cbn [andb];
    try (by rewrite !be_at_app by lia); destruct (f =? 33), (Z.leb_spec 36 p); cbn [andb]; try done; by rewrite !be_at_app by lia.
Qed.

(** Version 2: the length is in the header. *)
Lemma v2_framing buffer n a :
  starts_with_bytes PROXY_V2_SIGNATURE buffer = true -> parse_v2 buffer = Some (PH_Complete n a) ->
  (n <= length buffer)%nat /\ Z.of_nat n <= MAX_PROXY_V2_BYTES /\
  (forall k, (k < n)%nat -> parse_proxy_header (take k buffer) = Some PH_Incomplete) /\
  (forall x, parse_proxy_header (take n buffer ++ x) = Some (PH_Complete n a)).
Proof.
  intros Hs H. unfold parse_v2 in H. destruct (Z.ltb_spec (bytes_len buffer) 16) as [?|H16]; [done|].
  destruct (negb _ || negb _) eqn:Hv; [done|]. cbv zeta in H.
  destruct (Z.ltb_spec MAX_PROXY_V2_BYTES (16 + be_at buffer 14 2)) as [?|Hmax]; [done|].
  destruct (Z.ltb_spec (bytes_len buffer) (16 + be_at buffer 14 2)) as [?|Hlen]; [done|].
  destruct (proxy_addresses _ _ _) as [[[src sp] dp]|] eqn:Ha; [|done]. cbn [mbind option_bind] in H.
  destruct ((sp =? 0) || (dp =? 0)) eqn:Hp; [done|]. injection H as <- <-.
  assert (Hpl : 0 <= be_at buffer 14 2) by apply from_be_range. unfold bytes_len in *.
  assert (Hfits : (Z.to_nat (16 + be_at buffer 14 2) <= length buffer)%nat) by lia.
  split; [done|]. split; [lia|]. set (n := Z.to_nat (16 + be_at buffer 14 2)) in *. split.
  - intros k Hk. destruct (Nat.le_gt_cases k 12) as [Hk12|Hk12].
    { unfold parse_proxy_header. destruct (starts_with_bytes (take k buffer) PROXY_V1_PREFIX); [done|].
      assert (starts_with_bytes PROXY_V1_PREFIX (take k buffer) = false) as ->.
      { apply not_true_iff_false. intros [rest Hr]%starts_with_bytes_spec.
        pose proof (v2_not_v1 _ Hs) as Hn. rewrite <-(take_drop k buffer), Hr in Hn. by rewrite starts_app in Hn by (apply starts_with_bytes_spec; by eexists). }
      rewrite (starts_of_prefix _ _ k Hs); [done|cbn; lia]. }
    rewrite parse_proxy_header_v2; [|apply starts_take; [done|cbn; lia]|rewrite length_take; lia]. unfold parse_v2, bytes_len.
    rewrite length_take. destruct (Z.ltb_spec (Z.of_nat (k `min` length buffer)) 16) as [|Hk16]; [done|].
    rewrite byte_at_take, be_at_take, Hv by lia. cbv zeta.
    destruct (Z.ltb_spec MAX_PROXY_V2_BYTES (16 + be_at buffer 14 2)); [lia|].
    by destruct (Z.ltb_spec (Z.of_nat (k `min` length buffer)) (16 + be_at buffer 14 2)); [|lia].
  - intros x. set (l := take n buffer).
    assert (Hll : length l = n) by (unfold l; rewrite length_take; lia).
    rewrite parse_proxy_header_v2; [|apply starts_app, starts_take; [done|cbn; lia]|rewrite length_app; lia].
    unfold parse_v2, bytes_len. rewrite length_app.
    destruct (Z.ltb_spec (Z.of_nat (length l + length x)) 16) as [|_]; [lia|].
    rewrite !byte_at_app, be_at_app by lia. unfold l. rewrite !byte_at_take, be_at_take by lia. rewrite Hv. cbv zeta.
    destruct (Z.ltb_spec MAX_PROXY_V2_BYTES (16 + be_at buffer 14 2)); [lia|]. fold l.
    destruct (Z.ltb_spec (Z.of_nat (length l + length x)) (16 + be_at buffer 14 2)); [lia|].
    rewrite proxy_addresses_app by (unfold bytes_len; lia).
    assert (Ha' : proxy_addresses (byte_at buffer 13) (be_at buffer 14 2) l = Some (src, sp, dp)).
    { rewrite <-Ha. symmetry. transitivity (proxy_addresses (byte_at buffer 13) (be_at buffer 14 2) (l ++ drop n buffer));
        [by unfold l; rewrite take_drop|]. apply proxy_addresses_app. unfold bytes_len. lia. }
    rewrite Ha'. cbn. by rewrite Hp.
Qed.

(** The PROXY header is recognised at its last byte and not before, and nothing of what
    follows it is taken: read one byte at a time, exactly the header is consumed before
    the TLS or HTTP bytes behind it. It is never longer than 536 bytes. *)
Theorem proxy_header_framing buffer n a :
  parse_proxy_header buffer = Some (PH_Complete n a) ->
  (n <= length buffer)%nat /\ Z.of_nat n <= MAX_PROXY_V2_BYTES /\
  (forall k, (k < n)%nat -> parse_proxy_header (take k buffer) = Some PH_Incomplete) /\
  (forall x, parse_proxy_header (take n buffer ++ x) = Some (PH_Complete n a)).
Proof. intros [[Hs H]|[Hs H]]%parse_proxy_header_inv; [by apply v1_framing|by apply v2_framing]. Qed.

(** ** Examples *)

Module ClientIpExamples.

Definition v1_header : list byte := str_bytes "PROXY TCP4 192.0.2.1 198.51.100.2 40000 443" ++ crlf.
Definition v2_header : list byte :=
  PROXY_V2_SIGNATURE ++ (byte_of_Z <$> [0x21; 0x11; 0; 12; 192; 0; 2; 1; 198; 51; 100; 2; 156; 64; 1; 187]).

Example v1_parsed : parse_proxy_header (v1_header ++ str_bytes "GET") = Some (PH_Complete 45 (V4 0xC0000201)).
Proof. vm_compute. reflexivity. Qed.

Lemma proxy_header_framing_witness :
  parse_proxy_header v2_header = Some (PH_Complete 28 (V4 0xC0000201)) /\
  parse_proxy_header (take 27 v2_header) = Some PH_Incomplete.
Proof.
  destruct (proxy_header_framing v2_header 28 (V4 0xC0000201)) as (_ & _ & Hk & _); [vm_compute; reflexivity|].
  split; [vm_compute; reflexivity|]. apply Hk. lia.
Defined.

(** Networks are lists of addresses; 0.0.0.1 and 0.0.0.2 are proxies. *)
#[local] Instance sample_net : IpNetOps := {|
  IpNet := list IpAddr; net_contains n a := bool_decide (a ∈ n); prefix_len _ := 32
|}.
Definition proxies : DohClientIpPolicy := mk_client_ip CIS_ForwardedHeader (Some XForwardedFor) [[V4 1; V4 2]] FD_Reject FD_UsePeer.
Definition forged_headers : ParsedForwardedHeaders :=
  mk_forwarded (Some (lit "10.0.0.1" ++ 44 :: lit "0.0.0.9, 0.0.0.2")) None None.

Lemma client_address_unforgeable_witness : resolve_client_ip proxies (V4 1, 443) forged_headers None = Ok (V4 9).
Proof.
  destruct (client_address_unforgeable proxies (V4 1, 443) forged_headers None) as (_ & _ & H).
  rewrite (H XForwardedFor (lit "10.0.0.1") (lit "0.0.0.9, 0.0.0.2") (V4 9) [V4 2]).
  - vm_compute. reflexivity.
  - reflexivity.
  - reflexivity.
  - discriminate.
  - vm_compute. reflexivity.
  - reflexivity.
  - vm_compute. reflexivity.
  - vm_compute. reflexivity.
  - repeat constructor.
Defined.

Example forwarded_chain :
  parse_forwarded_chain (lit "for=192.0.2.60;proto=http, For=[2001:db8::1]:443") = Some [V4 0xC000023C; V6 0x20010db8000000000000000000000001].
Proof. vm_compute. reflexivity. Qed.

End ClientIpExamples.
