(* ===== verification/DohServer.v ===== *)
(** * HTTP of the DoH listener (src/backend/src/transport/doh.rs)

    The parser of one HTTP/1.x request from the start of a buffer, base64url, and the
    responses of the listener. The url crate is an argument of the check of the Host
    header. *)

From stdpp Require Import pretty.
From S2P Require Import Prelude Message CacheModel Text DohRoute Net Client Wire Socks5 Outbound Bootstrap DohClient ClientIp.

Definition MAX_DOH_POST_BODY_BYTES : Z := Wire.MAX_DNS_WIRE_BYTES.
Definition MAX_DOH_GET_DNS_CHARS : Z := 87380.
Definition MAX_DOH_HEADER_BYTES : Z := 16 * 1024.
Definition MAX_DOH_REQUEST_TARGET_BYTES : Z := 131072.
Definition MAX_HEADER_COUNT : Z := 64.
Definition MAX_DOH_REQUEST_LINE_BYTES : Z := MAX_DOH_REQUEST_TARGET_BYTES + 32.
Definition MAX_DOH_REQUEST_HEAD_BYTES : Z := MAX_DOH_REQUEST_LINE_BYTES + MAX_DOH_HEADER_BYTES.
Definition MAX_DOH_BUFFER_BYTES : Z := MAX_DOH_REQUEST_HEAD_BYTES + MAX_DOH_POST_BODY_BYTES.

Inductive DohHttpMethod := Get | Post.

Inductive DohHttpError :=
| DH_Incomplete | DH_Malformed | DH_MethodNotAllowed | DH_NotFound | DH_MissingDnsParameter | DH_DuplicateDnsParameter
| DH_InvalidDnsParameter | DH_UriTooLong | DH_PayloadTooLarge | DH_UnsupportedMediaType | DH_UnsupportedExpectation
| DH_InvalidDnsWire | DH_UnsupportedTransferEncoding | DH_MissingContentLength | DH_InvalidHost.
#[global] Instance DohHttpError_eq_dec : EqDecision DohHttpError.
Proof. solve_decision. Defined.

Inductive DohHttpStatus :=
| HS_Ok | HS_BadRequest | HS_NotFound | HS_MethodNotAllowed | HS_PayloadTooLarge | HS_UriTooLong | HS_UnsupportedMediaType
| HS_ExpectationFailed | HS_InternalServerError.

Definition status_code (s : DohHttpStatus) : Z :=
  match s with
  | HS_Ok => 200 | HS_BadRequest => 400 | HS_NotFound => 404 | HS_MethodNotAllowed => 405 | HS_PayloadTooLarge => 413
  | HS_UriTooLong => 414 | HS_UnsupportedMediaType => 415 | HS_ExpectationFailed => 417 | HS_InternalServerError => 500
  end.
Definition status_reason (s : DohHttpStatus) : string :=
  match s with
  | HS_Ok => "OK" | HS_BadRequest => "Bad Request" | HS_NotFound => "Not Found"
  | HS_MethodNotAllowed => "Method Not Allowed" | HS_PayloadTooLarge => "Payload Too Large" | HS_UriTooLong => "URI Too Long"
  | HS_UnsupportedMediaType => "Unsupported Media Type" | HS_ExpectationFailed => "Expectation Failed"
  | HS_InternalServerError => "Internal Server Error"
  end.

Definition error_status (e : DohHttpError) : DohHttpStatus :=
  match e with
  | DH_UriTooLong => HS_UriTooLong
  | DH_PayloadTooLarge => HS_PayloadTooLarge
  | DH_UnsupportedMediaType => HS_UnsupportedMediaType
  | DH_UnsupportedExpectation => HS_ExpectationFailed
  | DH_MethodNotAllowed => HS_MethodNotAllowed
  | DH_NotFound => HS_NotFound
  | _ => HS_BadRequest
  end.
Definition error_should_close (e : DohHttpError) : bool :=
  match e with
  | DH_Incomplete | DH_Malformed | DH_UriTooLong | DH_PayloadTooLarge | DH_UnsupportedTransferEncoding
  | DH_UnsupportedExpectation | DH_InvalidHost => true
  | _ => false
  end.

(** ** base64url *)

Definition sextet (c : Z) : option Z :=
  if (65 <=? c) && (c <=? 90) then Some (c - 65)
  else if (97 <=? c) && (c <=? 122) then Some (c - 97 + 26)
  else if (48 <=? c) && (c <=? 57) then Some (c - 48 + 52)
  else if c =? 45 then Some 62
  else if c =? 95 then Some 63
  else None.

(** The loop: [accumulator] holds the [bits] bits that are not yet in [output]. *)
Fixpoint base64_loop (value : chars) (accumulator bits : Z) (output : list byte) : option (Z * Z * list byte) :=
  match value with
  | [] => Some (accumulator, bits, output)
  | c :: rest =>
    s ← sextet c;
    let accumulator := Z.lor (Z.shiftl accumulator 6 mod 2 ^ 32) s in
    let bits := bits + 6 in
    if 8 <=? bits then
      let bits := bits - 8 in
      let output := output ++ [byte_of_Z (Z.shiftr accumulator bits mod 256)] in
      let accumulator := Z.land accumulator (sat_sub (Z.shiftl 1 bits) 1) in
      if Wire.MAX_DNS_WIRE_BYTES <? bytes_len output then None else base64_loop rest accumulator bits output
    else base64_loop rest accumulator bits output
  end.

Definition decode_base64url (value : chars) : option (list byte) :=
  if bool_decide (value = []) || bool_decide (61 ∈ value) || (text_len value mod 4 =? 1) then None
  else
    '(accumulator, bits, output) ← base64_loop value 0 0 [];
    if (0 <? bits) && negb (accumulator =? 0) then None else Some output.

(** ** Requests *)

(** [percent_decode]: the same loop as [percent_decode_userinfo]. *)
Definition percent_decode (value : chars) : option (list byte) := percent_decode_userinfo (utf8_encode value).

(** [str::split_once('?')] *)
Fixpoint split_question (s : chars) : option (chars * chars) :=
  match s with
  | [] => None
  | c :: s' => if c =? 63 then Some ([], s') else '(a, b) ← split_question s'; Some (c :: a, b)
  end.

Definition split_target (target : chars) : result DohHttpError (chars * chars) :=
  if negb (starts_with (lit "/") target) || bool_decide (35 ∈ target) then Err DH_Malformed
  else match split_question target with
  | Some (path, query) => if bool_decide (path = []) then Err DH_Malformed else Ok (path, query)
  | None => Ok (target, [])
  end.

Fixpoint dns_parameter (fields : list chars) (found : option (list byte)) : result DohHttpError (option (list byte)) :=
  match fields with
  | [] => Ok found
  | field :: rest =>
    '(key, value) ← ok_or DH_Malformed (split_equals field);
    key ← ok_or DH_Malformed (percent_decode key);
    if negb (bool_decide (key = str_bytes "dns")) then dns_parameter rest found
    else if bool_decide (is_Some found) then Err DH_DuplicateDnsParameter
    else value ← ok_or DH_InvalidDnsParameter (percent_decode value); dns_parameter rest (Some value)
  end.
Definition get_dns_parameter (query : chars) : result DohHttpError (list byte) :=
  found ← dns_parameter (filter (fun field => field <> []) (split_on 38 query)) None;
  ok_or DH_MissingDnsParameter found.

Definition is_digit_char (c : Z) : bool := (48 <=? c) && (c <=? 57).
Definition parse_content_length (value : chars) : result DohHttpError Z :=
  if bool_decide (value = []) || negb (forallb is_digit_char value) then Err DH_Malformed
  else ok_or DH_Malformed (parse_uint usize_max value).

(** The bytes of a method or header name. *)
Definition is_token_char (c : Z) : bool :=
  is_digit_char c || ((65 <=? c) && (c <=? 90)) || ((97 <=? c) && (c <=? 122)) ||
  existsb (Z.eqb c) [33; 35; 36; 37; 38; 39; 42; 43; 45; 46; 94; 95; 96; 124; 126].
(** [is_ascii_graphic] *)
Definition is_graphic (c : Z) : bool := (33 <=? c) && (c <=? 126).
(** What a header value may not contain. *)
Definition is_bad_value_char (c : Z) : bool := (c <? 32) && negb (c =? 9) || (c =? 127).

Section DohServer.
Context (Url_parse : chars -> option Url).

Definition is_valid_host_header (value : chars) : bool :=
  if bool_decide (value = []) || existsb ascii_space value then false
  else match Url_parse (lit "http://" ++ value ++ lit "/") with
  | None => false
  | Some url =>
    bool_decide (is_Some (url_host_str url)) && bool_decide (url_username url = []) && bool_decide (url_password url = None) &&
    bool_decide (url_path url = str_bytes "/") && bool_decide (url_query url = None) && bool_decide (url_fragment url = None)
  end.

(** What the header lines have given so far. *)
Record RequestHead := mk_head {
  rh_content_length : option Z;
  rh_content_type : option chars;
  rh_host_present : bool;
  rh_connection_close : bool;
  rh_forwarded : ParsedForwardedHeaders
}.

Definition set_length (h : RequestHead) (n : Z) : RequestHead :=
  mk_head (Some n) (rh_content_type h) (rh_host_present h) (rh_connection_close h) (rh_forwarded h).
Definition set_type (h : RequestHead) (v : chars) : RequestHead :=
  mk_head (rh_content_length h) (Some v) (rh_host_present h) (rh_connection_close h) (rh_forwarded h).
Definition set_host (h : RequestHead) : RequestHead :=
  mk_head (rh_content_length h) (rh_content_type h) true (rh_connection_close h) (rh_forwarded h).
Definition set_close (h : RequestHead) : RequestHead :=
  mk_head (rh_content_length h) (rh_content_type h) (rh_host_present h) true (rh_forwarded h).
Definition set_forwarded (h : RequestHead) (f : ParsedForwardedHeaders) : RequestHead :=
  mk_head (rh_content_length h) (rh_content_type h) (rh_host_present h) (rh_connection_close h) f.

(** [Option::replace]: a second value is an error. *)
Definition once {A} (old : option A) (h : RequestHead) : result DohHttpError RequestHead :=
  if bool_decide (is_Some old) then Err DH_Malformed else Ok h.

(** The body of the [match] on the name of a header. *)
Definition apply_header (h : RequestHead) (name value : chars) : result DohHttpError RequestHead :=
  let f := rh_forwarded h in
  if bool_decide (name = lit "content-length") then
    if bool_decide (is_Some (rh_content_length h)) then Err DH_Malformed
    else n ← parse_content_length value; Ok (set_length h n)
  else if bool_decide (name = lit "content-type") then once (rh_content_type h) (set_type h value)
  else if bool_decide (name = lit "transfer-encoding") then Err DH_UnsupportedTransferEncoding
  else if bool_decide (name = lit "expect") then Err DH_UnsupportedExpectation
  else if bool_decide (name = lit "host") then
    if rh_host_present h || negb (is_valid_host_header value) then Err DH_InvalidHost else Ok (set_host h)
  else if bool_decide (name = lit "connection") && existsb (fun token => eq_ascii_case (trim token) (lit "close")) (split_on 44 value)
  then Ok (set_close h)
  else if bool_decide (name = lit "x-forwarded-for") then
    once (x_forwarded_for f) (set_forwarded h (mk_forwarded (Some value) (x_real_ip f) (forwarded f)))
  else if bool_decide (name = lit "x-real-ip") then
    once (x_real_ip f) (set_forwarded h (mk_forwarded (x_forwarded_for f) (Some value) (forwarded f)))
  else if bool_decide (name = lit "forwarded") then
    once (forwarded f) (set_forwarded h (mk_forwarded (x_forwarded_for f) (x_real_ip f) (Some value)))
  else Ok h.

Definition header_line (h : RequestHead) (line : chars) : result DohHttpError RequestHead :=
  if bool_decide (line = []) then Err DH_Malformed
  else
    '(name, value) ← ok_or DH_Malformed (split_colon line);
    if bool_decide (name = []) || negb (forallb is_token_char name) then Err DH_Malformed
    else if existsb is_bad_value_char value then Err DH_Malformed
    else apply_header h (to_ascii_lowercase name) (trim value).

(** The loop over the header lines; [count] are those before. *)
Fixpoint request_headers (h : RequestHead) (count : Z) (lines : list chars) : result DohHttpError RequestHead :=
  match lines with
  | [] => Ok h
  | line :: rest =>
    if bool_decide (line = []) then Err DH_Malformed
    else if MAX_HEADER_COUNT <? count + 1 then Err DH_Malformed
    else h ← header_line h line; request_headers h (count + 1) rest
  end.

(** The request line: the method, the target and whether the version is 1.1. *)
Definition request_line (line : chars) : result DohHttpError (DohHttpMethod * chars * bool) :=
  match split_on 32 line with
  | [name; target; version] =>
    if bool_decide (name = []) || bool_decide (target = []) || bool_decide (version = []) then Err DH_Malformed
    else if negb (forallb is_token_char name) || negb (forallb is_graphic target) then Err DH_Malformed
    else
      method ← (if bool_decide (name = lit "GET") then Ok Get
                else if bool_decide (name = lit "POST") then Ok Post else Err DH_MethodNotAllowed);
      if negb (bool_decide (version = lit "HTTP/1.1")) && negb (bool_decide (version = lit "HTTP/1.0")) then Err DH_Malformed
      else if MAX_DOH_REQUEST_TARGET_BYTES <? text_len target then Err DH_UriTooLong
      else Ok (method, target, bool_decide (version = lit "HTTP/1.1"))
  | _ => Err DH_Malformed
  end.

Context {HH : Hickory}.

Record ParsedDohRequest := mk_doh_parsed {
  dp_method : DohHttpMethod;
  dp_path : chars;
  dp_query : ParsedQuery;
  dp_wire : list byte;
  dp_connection_close : bool;
  dp_consumed_bytes : nat;
  dp_forwarded_headers : ParsedForwardedHeaders
}.

(** The DNS message of a request: the parameter of a GET, the body of a POST. *)
Definition request_wire (method : DohHttpMethod) (h : RequestHead) (query : chars) (body : list byte) :
    result DohHttpError (list byte) :=
  match method with
  | Get =>
    if negb (bool_decide (body = [])) then Err DH_Malformed
    else
      value ← get_dns_parameter query;
      if MAX_DOH_GET_DNS_CHARS <? bytes_len value then Err DH_UriTooLong
      else
        text ← ok_or DH_InvalidDnsParameter (utf8_decode value);
        ok_or DH_InvalidDnsParameter (decode_base64url text)
  | Post =>
    if bool_decide (rh_content_length h = None) then Err DH_MissingContentLength
    else if negb (match rh_content_type h with Some value => eq_ascii_case value (lit "application/dns-message") | None => false end)
    then Err DH_UnsupportedMediaType
    else if bool_decide (body = []) then Err DH_InvalidDnsWire
    else Ok body
  end.

(** The head of a request, without the blank line: what the request line and the headers
    say. *)
Definition request_head (header : list byte) : result DohHttpError (DohHttpMethod * chars * RequestHead) :=
  if existsb (fun b => 0x80 <=? byte_to_Z b) header then Err DH_Malformed
  else
    text ← ok_or DH_Malformed (utf8_decode header);
    match split_crlf text with
    | [] => Err DH_Malformed
    | line :: lines =>
      if bytes_len header <? text_len line then Err DH_Malformed
      else if MAX_DOH_HEADER_BYTES <? sat_sub (bytes_len header - text_len line) 2 then Err DH_Malformed
      else
        '(method, target, http11) ← request_line line;
        h ← request_headers (mk_head None None false (negb http11) (mk_forwarded None None None)) 0 lines;
        if http11 && negb (rh_host_present h) then Err DH_InvalidHost
        else if MAX_DOH_POST_BODY_BYTES <? default 0 (rh_content_length h) then Err DH_PayloadTooLarge
        else Ok (method, target, h)
    end.

(** What is made of a complete request. *)
Definition finish_request (method : DohHttpMethod) (target : chars) (h : RequestHead) (body : list byte) (consumed : nat) :
    result DohHttpError ParsedDohRequest :=
  '(path, query_string) ← split_target target;
  wire ← request_wire method h query_string body;
  query ← map_err (fun e => match e with WE_TooLarge _ => DH_PayloadTooLarge | _ => DH_InvalidDnsWire end)
            (decode_query wire Wire.MAX_DNS_WIRE_BYTES);
  Ok (mk_doh_parsed method path query wire (rh_connection_close h) consumed (rh_forwarded h)).

Definition try_parse_request (buffer : list byte) : result DohHttpError (option ParsedDohRequest) :=
  match find_header_end buffer with
  | None => if MAX_DOH_REQUEST_HEAD_BYTES <? bytes_len buffer then Err DH_Malformed else Ok None
  | Some header_end =>
    if MAX_DOH_REQUEST_HEAD_BYTES <? Z.of_nat header_end then Err DH_Malformed
    else
      '(method, target, h) ← request_head (take header_end buffer);
      let body_start := (header_end + 4)%nat in
      let body_length := Z.to_nat (default 0 (rh_content_length h)) in
      let body_end := (body_start + body_length)%nat in
      if (length buffer <? body_end)%nat then Ok None
      else p ← finish_request method target h (take body_length (drop body_start buffer)) body_end; Ok (Some p)
  end.

(** ** Responses *)

Definition encode_http_response_with_allow (status : DohHttpStatus) (body : list byte) (content_type : option string)
    (close : bool) (allow : option string) : list byte :=
  str_bytes "HTTP/1.1 " ++ decimal (status_code status) ++ str_bytes " " ++ str_bytes (status_reason status) ++ crlf ++
  match allow with Some a => str_bytes "Allow: " ++ str_bytes a ++ crlf | None => [] end ++
  match content_type with Some t => str_bytes "Content-Type: " ++ str_bytes t ++ crlf | None => [] end ++
  str_bytes "Cache-Control: no-store" ++ crlf ++
  str_bytes "Content-Length: " ++ decimal (bytes_len body) ++ crlf ++
  (if close then str_bytes "Connection: close" ++ crlf else []) ++ crlf ++ body.

Definition encode_http_error_with_close (e : DohHttpError) (close : bool) : list byte :=
  encode_http_response_with_allow (error_status e) [] None close
    (if bool_decide (e = DH_MethodNotAllowed) then Some "GET, POST" else None).
Definition encode_dns_response (body : list byte) (close : bool) : list byte :=
  encode_http_response_with_allow HS_Ok body (Some "application/dns-message") close None.

(** [DohResponseEncoder::encode]: the bytes it writes. *)
Definition doh_encode (close : bool) (original_dns_id : option Z) (r : CanonicalResponse) : result PortError (list byte) :=
  id ← ok_or (port_error PE_ProtocolViolation "transport.doh.encode") original_dns_id;
  dns ← map_err (fun e => port_error (wire_error_class e) "transport.doh.encode") (encode_response r id Wire.MAX_DNS_WIRE_BYTES);
  Ok (encode_dns_response dns close).

(** ** Framing of requests *)

Lemma text_len_app a b : text_len (a ++ b) = text_len a + text_len b.
Proof. unfold text_len, utf8_encode, bytes_len. rewrite bind_app, length_app. lia. Qed.

Lemma request_line_len line method target http11 : request_line line = Ok (method, target, http11) -> text_len line <= 131086.
Proof.
  unfold request_line. intros H. destruct (split_on 32 line) as [|name [|target' [|version [|]]]] eqn:Hs; try done.
  rewrite <-(join_split 32 line), Hs. cbn [join]. rewrite !text_len_app.
  destruct (bool_decide (name = []) || _ || _); [done|]. destruct (negb (forallb is_token_char name) || _); [done|].
  apply bind_ok in H as (m & Hm & H).
  assert (Hn : text_len name <= 4).
  { destruct (decide (name = lit "GET")) as [->|Hg]; [by vm_compute|]. rewrite bool_decide_eq_false_2 in Hm by done.
    destruct (decide (name = lit "POST")) as [->|Hp]; [by vm_compute|]. by rewrite bool_decide_eq_false_2 in Hm by done. }
  destruct (negb (bool_decide (version = lit "HTTP/1.1")) && negb (bool_decide (version = lit "HTTP/1.0"))) eqn:Hv; [done|].
  assert (Hvl : text_len version <= 8).
  { destruct (decide (version = lit "HTTP/1.1")) as [->|H1]; [by vm_compute|].
    destruct (decide (version = lit "HTTP/1.0")) as [->|H0]; [by vm_compute|]. by rewrite !bool_decide_eq_false_2 in Hv by done. }
  destruct (Z.ltb_spec MAX_DOH_REQUEST_TARGET_BYTES (text_len target')) as [?|Ht]; [done|].
  change (text_len [32]) with 1. unfold MAX_DOH_REQUEST_TARGET_BYTES in Ht. lia.
Qed.

(** A head that is accepted stays below the limit with the blank line. *)
Lemma request_head_len header r : request_head header = Ok r -> bytes_len header + 4 <= MAX_DOH_REQUEST_HEAD_BYTES.
Proof.
  unfold request_head. intros H. destruct (existsb _ header); [done|]. apply bind_ok in H as (text & _ & H).
  destruct (split_crlf text) as [|line lines]; [done|]. destruct (Z.ltb_spec (bytes_len header) (text_len line)); [done|].
  destruct (Z.ltb_spec MAX_DOH_HEADER_BYTES (sat_sub (bytes_len header - text_len line) 2)) as [|Hf]; [done|].
  apply bind_ok in H as ([[m t] v] & Hl & _). apply request_line_len in Hl. unfold sat_sub in Hf.
  unfold MAX_DOH_REQUEST_HEAD_BYTES, MAX_DOH_REQUEST_LINE_BYTES, MAX_DOH_REQUEST_TARGET_BYTES, MAX_DOH_HEADER_BYTES in *. lia.
Qed.

(** The parser on a buffer that has the whole head. *)
Lemma try_parse_with_head header rest :
  find_header_end (header ++ blank_line) = Some (length header) ->
  try_parse_request (header ++ blank_line ++ rest) =
  if MAX_DOH_REQUEST_HEAD_BYTES <? bytes_len header then Err DH_Malformed
  else
    '(method, target, h) ← request_head header;
    let n := Z.to_nat (default 0 (rh_content_length h)) in
    if (length rest <? n)%nat then Ok None
    else p ← finish_request method target h (take n rest) (length header + 4 + n); Ok (Some p).
Proof.
  intros Hf. unfold try_parse_request, find_header_end. rewrite (find_complete blank_line blank_line_ne header rest Hf).
  rewrite take_app_length. unfold bytes_len. destruct (_ <? _); [done|].
  destruct (request_head header) as [[[method target] h]|e]; [|done]. cbn [mbind result_bind]. cbv zeta.
  set (n := Z.to_nat (default 0 (rh_content_length h))). rewrite !length_app.
  replace (drop (length header + 4) (header ++ blank_line ++ rest)) with rest
    by (rewrite app_assoc, drop_app_length'; [done|rewrite length_app; done]).
  change (length crlf) with 2%nat.
  destruct (Nat.ltb_spec (length rest) n) as [Hl|Hl]; [rewrite (proj2 (Nat.ltb_lt _ _)) by lia|rewrite (proj2 (Nat.ltb_ge _ _)) by lia]; done.
Qed.

(** A request ends where its head and its Content-Length say: the parser waits for its
    last byte, accepts it then, and takes nothing of what follows. What is read off the
    connection first can therefore not shift the boundary of a request. *)
Theorem request_framing buffer p :
  try_parse_request buffer = Ok (Some p) ->
  let n := dp_consumed_bytes p in
  (n <= length buffer)%nat /\
  (forall k, (k < n)%nat -> try_parse_request (take k buffer) = Ok None) /\
  (forall x, try_parse_request (take n buffer ++ x) = Ok (Some p)).
Proof.
  intros H n. destruct (find_header_end buffer) as [e|] eqn:He; [|unfold try_parse_request in H; rewrite He in H; by destruct (_ <? _)].
  apply (find_split _ blank_line_ne) in He as (rest & E & Ee & Hf). set (header := take e buffer) in *.
  rewrite E, (try_parse_with_head header rest Hf) in H.
  destruct (Z.ltb_spec MAX_DOH_REQUEST_HEAD_BYTES (bytes_len header)) as [|Hmax]; [done|].
  apply bind_ok in H as ([[method target] h] & Hh & H). cbv zeta in H. pose proof (request_head_len _ _ Hh) as Hlen.
  set (bl := Z.to_nat (default 0 (rh_content_length h))) in *. destruct (Nat.ltb_spec (length rest) bl) as [|Hbl]; [done|].
  apply bind_ok in H as (p' & Hp & H). injection H as ->.
  assert (En : n = (length header + 4 + bl)%nat).
  { unfold n, finish_request in *. apply bind_ok in Hp as ([path q] & _ & Hp). apply bind_ok in Hp as (w & _ & Hp).
    apply bind_ok in Hp as (qq & _ & Hp). by injection Hp as <-. }
  assert (Hparse : forall r, try_parse_request (header ++ blank_line ++ r) =
     if (length r <? bl)%nat then Ok None else p ← finish_request method target h (take bl r) (length header + 4 + bl); Ok (Some p)).
  { intros r. rewrite (try_parse_with_head header r Hf), Hh.
    destruct (Z.ltb_spec MAX_DOH_REQUEST_HEAD_BYTES (bytes_len header)); [lia|]. done. }
  assert (Htake : forall k, (length header + 4 <= k)%nat -> take k buffer = header ++ blank_line ++ take (k - (length header + 4)) rest).
  { intros k Hk. rewrite E at 1. rewrite app_assoc, take_app_ge by (rewrite length_app; cbn; lia). rewrite length_app, <-app_assoc. done. }
  split; [rewrite E, En, !length_app; cbn; lia|]. split.
  - intros k Hk. destruct (Nat.le_gt_cases (length header + 4) k) as [Hge|Hlt].
    + rewrite Htake, Hparse by done. destruct (Nat.ltb_spec (length (take (k - (length header + 4)) rest)) bl) as [|Hl]; [done|].
      rewrite length_take in Hl. lia.
    + unfold try_parse_request, find_header_end.
      rewrite (find_partial blank_line blank_line_ne header (take k buffer) (drop k (header ++ blank_line)) Hf).
      * destruct (Z.ltb_spec MAX_DOH_REQUEST_HEAD_BYTES (bytes_len (take k buffer))) as [Hb|]; [|done].
        unfold bytes_len in *. rewrite length_take in Hb. lia.
      * rewrite E at 1. rewrite app_assoc, take_app_le by (rewrite length_app; cbn; lia). apply take_drop.
      * intros E0%(f_equal length). rewrite length_drop, length_app in E0. cbn in E0. lia.
  - intros x. rewrite Htake by lia. replace (n - (length header + 4))%nat with bl by lia.
    replace ((header ++ blank_line ++ take bl rest) ++ x) with (header ++ blank_line ++ (take bl rest ++ x)) by by rewrite <-!app_assoc.
    rewrite Hparse.
    destruct (Nat.ltb_spec (length (take bl rest ++ x)) bl) as [Hl|_]; [rewrite length_app, length_take in Hl; lia|].
    rewrite take_app_le, take_take by (rewrite length_take; lia). rewrite Nat.min_id, Hp. done.
Qed.
End DohServer.

(** ** base64url is read back exactly *)

(** The digit of a number below 64. *)
Definition base64_char (v : Z) : Z :=
  if v <? 26 then v + 65 else if v <? 52 then v - 26 + 97 else if v <? 62 then v - 52 + 48 else if v =? 62 then 45 else 95.

(** The encoding without padding (RFC 4648, section 5). *)
Fixpoint encode_base64url (l : list byte) : chars :=
  match l with
  | [] => []
  | [a] => let a := byte_to_Z a in [base64_char (a / 4); base64_char (a mod 4 * 16)]
  | [a; b] =>
    let a := byte_to_Z a in let b := byte_to_Z b in
    [base64_char (a / 4); base64_char (a mod 4 * 16 + b / 16); base64_char (b mod 16 * 4)]
  | a :: b :: c :: rest =>
    let a := byte_to_Z a in let b := byte_to_Z b in let c := byte_to_Z c in
    base64_char (a / 4) :: base64_char (a mod 4 * 16 + b / 16) :: base64_char (b mod 16 * 4 + c / 64) ::
    base64_char (c mod 64) :: encode_base64url rest
  end.

Lemma sextet_char v : 0 <= v < 64 -> sextet (base64_char v) = Some v.
Proof.
  intros Hv. assert (Hall : forallb (fun v => bool_decide (sextet (base64_char v) = Some v)) (seqZ 0 64) = true) by (vm_compute; reflexivity).
  rewrite forallb_forall in Hall. specialize (Hall v). rewrite <-list_elem_of_In, elem_of_seqZ in Hall.
  apply bool_decide_eq_true in Hall; [done|lia].
Qed.

Lemma sextet_spec c s : sextet c = Some s -> 0 <= s < 64 /\ c = base64_char s /\ 45 <= c <= 122 /\ c <> 61.
Proof.
  intros H. unfold sextet in H. unfold base64_char.
  destruct (Z.leb_spec 65 c), (Z.leb_spec c 90), (Z.leb_spec 97 c), (Z.leb_spec c 122), (Z.leb_spec 48 c), (Z.leb_spec c 57),
    (Z.eqb_spec c 45), (Z.eqb_spec c 95); cbn [andb] in H; try lia; try done; injection H as <-;
    repeat match goal with |- context [?a <? ?b] => destruct (Z.ltb_spec a b) | |- context [?a =? ?b] => destruct (Z.eqb_spec a b) end; lia.
Qed.

Lemma low_bits x n : 0 <= n -> Z.land x (sat_sub (Z.shiftl 1 n) 1) = x mod 2 ^ n.
Proof.
  intros Hn. rewrite Z.shiftl_1_l. unfold sat_sub. rewrite Z.max_r by (pose proof (Z.pow_pos_nonneg 2 n); lia).
  replace (2 ^ n - 1) with (Z.ones n) by (rewrite Z.ones_equiv; lia). by apply Z.land_ones.
Qed.

Lemma push_sextet acc s : 0 <= acc < 64 -> 0 <= s < 64 -> Z.lor (Z.shiftl acc 6 mod 2 ^ 32) s = acc * 64 + s.
Proof.
  intros Ha Hs. rewrite Z.shiftl_mul_pow2, Z.mod_small by lia. change (2 ^ 6) with 64.
  apply Z.bits_inj'. intros n Hn.
  assert (Hdisj : Z.land (acc * 64) s = 0).
  { apply Z.bits_inj'. intros i Hi. rewrite Z.land_spec, Z.bits_0. change 64 with (2 ^ 6). rewrite Z.mul_pow2_bits by lia.
    destruct (Z.lt_ge_cases i 6); [by rewrite Z.testbit_neg_r by lia|].
    rewrite (Z.bits_above_log2 s i), andb_false_r; [done|lia|]. destruct (Z.eq_dec s 0) as [->|]; [cbn; lia|].
    apply Z.lt_le_trans with 6; [apply Z.log2_lt_pow2; lia|lia]. }
  by rewrite (Z.add_nocarry_lxor _ _ Hdisj), Z.lxor_lor.
Qed.

(** One digit, by the number of bits that wait. *)
Lemma base64_step c s rest acc bits out :
  sextet c = Some s -> (bits = 0 \/ bits = 2 \/ bits = 4 \/ bits = 6) -> 0 <= acc < 2 ^ bits ->
  base64_loop (c :: rest) acc bits out =
  if bits =? 0 then base64_loop rest s 6 out
  else if Wire.MAX_DNS_WIRE_BYTES <? bytes_len out + 1 then None
  else base64_loop rest ((acc * 64 + s) mod 2 ^ (bits - 2)) (bits - 2) (out ++ [byte_of_Z ((acc * 64 + s) / 2 ^ (bits - 2))]).
Proof.
  intros Hc Hbits Hacc. pose proof (sextet_spec _ _ Hc) as (Hs & _). cbn [base64_loop]. rewrite Hc. cbn [mbind option_bind].
  assert (Ha64 : 0 <= acc < 64).
  { destruct Hbits as [->|[->|[->| ->]]]; cbn in Hacc; lia. }
  cbv zeta. rewrite (push_sextet acc s Ha64 Hs). destruct Hbits as [->|Hb].
  - assert (acc = 0) as -> by (cbn in Hacc; lia). done.
  - assert (Hlen : bytes_len (out ++ [byte_of_Z (Z.shiftr (acc * 64 + s) (bits + 6 - 8) mod 256)]) = bytes_len out + 1)
      by (unfold bytes_len; rewrite length_app; cbn; lia).
    assert (Hv : Z.shiftr (acc * 64 + s) (bits + 6 - 8) mod 256 = (acc * 64 + s) / 2 ^ (bits - 2)).
    { rewrite Z.shiftr_div_pow2 by lia. replace (bits + 6 - 8) with (bits - 2) by lia. apply Z.mod_small.
      destruct Hb as [->|[->| ->]]; cbn in Hacc |- *; split; try (apply Z.div_pos; lia); apply Z.div_lt_upper_bound; lia. }
    destruct (Z.leb_spec 8 (bits + 6)); [|lia]. destruct (Z.eqb_spec bits 0); [lia|].
    rewrite Hlen, Hv, low_bits by lia. by replace (bits + 6 - 8) with (bits - 2) by lia.
Qed.

Lemma base64_step_none c rest acc bits out : sextet c = None -> base64_loop (c :: rest) acc bits out = None.
Proof. intros H. cbn [base64_loop]. by rewrite H. Qed.

Ltac zdiv := Z.to_euclidean_division_equations; lia.

Lemma pack1 a b : 0 <= a < 256 -> 0 <= b < 16 ->
  (a / 4 * 64 + (a mod 4 * 16 + b)) / 2 ^ (6 - 2) = a /\ (a / 4 * 64 + (a mod 4 * 16 + b)) mod 2 ^ (6 - 2) = b.
Proof. intros Ha Hb. change (2 ^ (6 - 2)) with 16. split; zdiv. Qed.
Lemma pack2 b c : 0 <= b < 256 -> 0 <= c < 4 ->
  (b / 16 * 64 + (b mod 16 * 4 + c)) / 2 ^ (4 - 2) = b /\ (b / 16 * 64 + (b mod 16 * 4 + c)) mod 2 ^ (4 - 2) = c.
Proof. intros Ha Hb. change (2 ^ (4 - 2)) with 4. split; zdiv. Qed.
Lemma pack3 c : 0 <= c < 256 -> (c / 64 * 64 + c mod 64) / 2 ^ (2 - 2) = c /\ (c / 64 * 64 + c mod 64) mod 2 ^ (2 - 2) = 0.
Proof. intros Ha. change (2 ^ (2 - 2)) with 1. split; zdiv. Qed.

(** The first two digits of a group give its first byte, and so on. *)
Lemma base64_two rest a b out :
  0 <= b < 16 -> bytes_len out + 1 <= Wire.MAX_DNS_WIRE_BYTES ->
  base64_loop (base64_char (byte_to_Z a / 4) :: base64_char (byte_to_Z a mod 4 * 16 + b) :: rest) 0 0 out =
  base64_loop rest b 4 (out ++ [a]).
Proof.
  intros Hb Hl. pose proof (byte_to_Z_range a) as Ha.
  rewrite (base64_step _ (byte_to_Z a / 4)); [|apply sextet_char; zdiv|by left|cbn; lia]. cbn [Z.eqb].
  rewrite (base64_step _ (byte_to_Z a mod 4 * 16 + b)); [|apply sextet_char; zdiv|lia|cbn; zdiv]. cbn [Z.eqb].
  destruct (Z.ltb_spec Wire.MAX_DNS_WIRE_BYTES (bytes_len out + 1)); [lia|].
  destruct (pack1 (byte_to_Z a) b Ha Hb) as [-> ->]. by rewrite byte_of_to_Z.
Qed.

Lemma base64_third rest b c out :
  0 <= c < 4 -> bytes_len out + 1 <= Wire.MAX_DNS_WIRE_BYTES ->
  base64_loop (base64_char (byte_to_Z b mod 16 * 4 + c) :: rest) (byte_to_Z b / 16) 4 out = base64_loop rest c 2 (out ++ [b]).
Proof.
  intros Hc Hl. pose proof (byte_to_Z_range b) as Hb.
  rewrite (base64_step _ (byte_to_Z b mod 16 * 4 + c)); [|apply sextet_char; zdiv|lia|cbn; zdiv]. cbn [Z.eqb].
  destruct (Z.ltb_spec Wire.MAX_DNS_WIRE_BYTES (bytes_len out + 1)); [lia|].
  destruct (pack2 (byte_to_Z b) c Hb Hc) as [-> ->]. by rewrite byte_of_to_Z.
Qed.

Lemma base64_fourth rest c out :
  bytes_len out + 1 <= Wire.MAX_DNS_WIRE_BYTES ->
  base64_loop (base64_char (byte_to_Z c mod 64) :: rest) (byte_to_Z c / 64) 2 out = base64_loop rest 0 0 (out ++ [c]).
Proof.
  intros Hl. pose proof (byte_to_Z_range c) as Hc.
  rewrite (base64_step _ (byte_to_Z c mod 64)); [|apply sextet_char; zdiv|lia|cbn; zdiv]. cbn [Z.eqb].
  destruct (Z.ltb_spec Wire.MAX_DNS_WIRE_BYTES (bytes_len out + 1)); [lia|].
  destruct (pack3 (byte_to_Z c) Hc) as [-> ->]. by rewrite byte_of_to_Z.
Qed.

Lemma bytes_len_snoc l x : bytes_len (l ++ [x]) = bytes_len l + 1.
Proof. unfold bytes_len. rewrite length_app. cbn. lia. Qed.
Lemma bytes_len_cons x l : bytes_len (x :: l) = 1 + bytes_len l.
Proof. unfold bytes_len. cbn [length]. lia. Qed.

Lemma base64_loop_encode n : forall l out,
  (length l <= n)%nat -> bytes_len out + bytes_len l <= Wire.MAX_DNS_WIRE_BYTES ->
  exists bits, base64_loop (encode_base64url l) 0 0 out = Some (0, bits, out ++ l).
Proof.
  induction n as [|n IH]; intros l out Hn Hl.
  { destruct l; [|cbn in Hn; lia]. exists 0. by rewrite app_nil_r. }
  assert (Hrange : forall x, 0 <= byte_to_Z x < 256) by apply byte_to_Z_range.
  destruct l as [|a [|b [|c rest]]]; cbn [encode_base64url]; rewrite ?bytes_len_cons in Hl; assert (0 <= bytes_len (@nil byte)) by done.
  - exists 0. by rewrite app_nil_r.
  - exists 4. rewrite <-(Z.add_0_r (_ mod 4 * 16)), base64_two by (unfold bytes_len in *; cbn in *; lia). done.
  - exists 2. pose proof (Hrange b). rewrite base64_two by (zdiv || (unfold bytes_len in *; cbn in *; lia)).
    rewrite <-(Z.add_0_r (_ mod 16 * 4)), base64_third by (rewrite ?bytes_len_snoc; unfold bytes_len in *; cbn in *; lia).
    by rewrite <-app_assoc.
  - assert (0 <= bytes_len rest) by (unfold bytes_len; lia). pose proof (Hrange b). pose proof (Hrange c).
    rewrite base64_two by (zdiv || lia). rewrite base64_third by (zdiv || (rewrite ?bytes_len_snoc; lia)).
    rewrite base64_fourth by (rewrite ?bytes_len_snoc; lia).
    destruct (IH rest (((out ++ [a]) ++ [b]) ++ [c])) as [bits Hbits]; [cbn in Hn; lia|rewrite !bytes_len_snoc; lia|].
    exists bits. rewrite Hbits. by rewrite <-!app_assoc.
Qed.

(** What the loop accepts. *)
Lemma base64_two_inv c0 c1 rest out r :
  base64_loop (c0 :: c1 :: rest) 0 0 out = Some r ->
  exists a b, c0 = base64_char (byte_to_Z a / 4) /\ c1 = base64_char (byte_to_Z a mod 4 * 16 + b) /\ 0 <= b < 16 /\
    bytes_len out + 1 <= Wire.MAX_DNS_WIRE_BYTES /\ base64_loop rest b 4 (out ++ [a]) = Some r.
Proof.
  intros H. destruct (sextet c0) as [s0|] eqn:H0; [|by rewrite base64_step_none in H].
  rewrite (base64_step _ s0) in H; [|done|by left|cbn; lia]. cbn [Z.eqb] in H.
  destruct (sextet c1) as [s1|] eqn:H1; [|by rewrite base64_step_none in H].
  apply sextet_spec in H0 as (R0 & -> & _). pose proof (sextet_spec _ _ H1) as (R1 & E1 & _).
  rewrite (base64_step _ s1) in H; [|done|lia|cbn; lia]. cbn [Z.eqb] in H.
  destruct (Z.ltb_spec Wire.MAX_DNS_WIRE_BYTES (bytes_len out + 1)); [done|]. change (2 ^ (6 - 2)) with 16 in H.
  exists (byte_of_Z ((s0 * 64 + s1) / 16)), ((s0 * 64 + s1) mod 16). rewrite byte_of_Z_to by zdiv.
  assert ((s0 * 64 + s1) / 16 / 4 = s0) as -> by zdiv.
  assert ((s0 * 64 + s1) / 16 mod 4 * 16 + (s0 * 64 + s1) mod 16 = s1) as -> by zdiv.
  split; [done|]. split; [done|]. split; [zdiv|]. done.
Qed.

Lemma base64_third_inv c rest b0 out r :
  0 <= b0 < 16 -> base64_loop (c :: rest) b0 4 out = Some r ->
  exists b d, b0 = byte_to_Z b / 16 /\ c = base64_char (byte_to_Z b mod 16 * 4 + d) /\ 0 <= d < 4 /\
    bytes_len out + 1 <= Wire.MAX_DNS_WIRE_BYTES /\ base64_loop rest d 2 (out ++ [b]) = Some r.
Proof.
  intros Hb H. destruct (sextet c) as [s|] eqn:Hs; [|by rewrite base64_step_none in H].
  pose proof (sextet_spec _ _ Hs) as (R & E & _). rewrite (base64_step _ s) in H; [|done|lia|cbn; lia]. cbn [Z.eqb] in H.
  destruct (Z.ltb_spec Wire.MAX_DNS_WIRE_BYTES (bytes_len out + 1)); [done|]. change (2 ^ (4 - 2)) with 4 in H.
  exists (byte_of_Z ((b0 * 64 + s) / 4)), ((b0 * 64 + s) mod 4). rewrite byte_of_Z_to by zdiv.
  assert ((b0 * 64 + s) / 4 mod 16 * 4 + (b0 * 64 + s) mod 4 = s) as -> by zdiv. split; [zdiv|]. split; [done|]. split; [zdiv|]. done.
Qed.

Lemma base64_fourth_inv c rest b0 out r :
  0 <= b0 < 4 -> base64_loop (c :: rest) b0 2 out = Some r ->
  exists b, b0 = byte_to_Z b / 64 /\ c = base64_char (byte_to_Z b mod 64) /\
    bytes_len out + 1 <= Wire.MAX_DNS_WIRE_BYTES /\ base64_loop rest 0 0 (out ++ [b]) = Some r.
Proof.
  intros Hb H. destruct (sextet c) as [s|] eqn:Hs; [|by rewrite base64_step_none in H].
  pose proof (sextet_spec _ _ Hs) as (R & E & _). rewrite (base64_step _ s) in H; [|done|lia|cbn; lia]. cbn [Z.eqb] in H.
  destruct (Z.ltb_spec Wire.MAX_DNS_WIRE_BYTES (bytes_len out + 1)); [done|]. change (2 ^ (2 - 2)) with 1 in H.
  rewrite Z.div_1_r, Z.mod_1_r in H. exists (byte_of_Z (b0 * 64 + s)). rewrite byte_of_Z_to by lia.
  assert ((b0 * 64 + s) mod 64 = s) as -> by zdiv. split; [zdiv|]. done.
Qed.

Lemma base64_loop_digits s : forall acc bits out r, base64_loop s acc bits out = Some r -> Forall (fun c => is_Some (sextet c)) s.
Proof.
  induction s as [|c s IH]; intros acc bits out r H; [constructor|]. cbn [base64_loop] in H.
  destruct (sextet c) as [v|] eqn:Hc; [|done]. cbn [mbind option_bind] in H. cbv zeta in H. constructor; [by rewrite Hc|].
  destruct (8 <=? bits + 6); [destruct (_ <? _); [done|]|]; by eapply IH.
Qed.

Lemma digits_text s : Forall (fun c => is_Some (sextet c)) s -> text_len s = Z.of_nat (length s) /\ 61 ∉ s.
Proof.
  induction 1 as [|c s [v Hc] Hs [IH1 IH2]]; [split; [done|by intros ?%elem_of_nil]|]. apply sextet_spec in Hc as (_ & _ & Hr & Hn).
  split.
  - change (c :: s) with ([c] ++ s). rewrite text_len_app, IH1. rewrite length_app, Nat2Z.inj_add. f_equal.
    unfold text_len, utf8_encode. cbn [mbind list_bind]. rewrite app_nil_r. unfold utf8_char. by destruct (Z.ltb_spec c 0x80); [|lia].
  - intros [E|?]%elem_of_cons; [lia|done].
Qed.

Lemma mod4_group n : (S (S (S (S n))) mod 4 = n mod 4)%nat.
Proof. replace (S (S (S (S n)))) with (n + 1 * 4)%nat by lia. by rewrite Nat.Div0.mod_add. Qed.

(** What the loop accepts with nothing left over is the encoding of what it gives. *)
Lemma base64_loop_inv n : forall s out acc bits r,
  (length s <= n)%nat -> base64_loop s 0 0 out = Some (acc, bits, r) -> (length s mod 4 <> 1)%nat ->
  (0 <? bits) && negb (acc =? 0) = false -> bytes_len out <= Wire.MAX_DNS_WIRE_BYTES ->
  exists l, r = out ++ l /\ bytes_len r <= Wire.MAX_DNS_WIRE_BYTES /\ s = encode_base64url l.
Proof.
  induction n as [|n IH]; intros s out acc bits r Hn H Hm Hz Ho.
  { destruct s; [|cbn in Hn; lia]. injection H as <- <- <-. exists []. by rewrite app_nil_r. }
  destruct s as [|c0 [|c1 s]]; [injection H as <- <- <-; exists []; by rewrite app_nil_r|done|].
  apply base64_two_inv in H as (a & b & -> & -> & Hb & Hl1 & H). destruct s as [|c2 s].
  { injection H as <- <- <-. cbn [Z.ltb] in Hz. apply negb_false_iff, Z.eqb_eq in Hz as ->. exists [a].
    cbn [encode_base64url]. rewrite bytes_len_snoc, Z.add_0_r. done. }
  apply base64_third_inv in H as (b' & d & -> & -> & Hd & Hl2 & H); [|done]. rewrite bytes_len_snoc in Hl2. destruct s as [|c3 s].
  { injection H as <- <- <-. cbn [Z.ltb] in Hz. apply negb_false_iff, Z.eqb_eq in Hz as ->. exists [a; b'].
    cbn [encode_base64url]. rewrite !bytes_len_snoc, Z.add_0_r, <-app_assoc. done. }
  apply base64_fourth_inv in H as (c & -> & -> & Hl3 & H); [|done]. rewrite !bytes_len_snoc in Hl3.
  apply IH in H as (l & -> & Hr & ->); [|cbn in Hn; lia| |done|rewrite !bytes_len_snoc; lia].
  - exists (a :: b' :: c :: l). split; [by rewrite <-!app_assoc|done].
  - intros E. apply Hm. cbn [length]. by rewrite mod4_group.
Qed.

Lemma encode_base64url_len n : forall l, (length l <= n)%nat ->
  (length (encode_base64url l) mod 4 <> 1)%nat /\ (l <> [] -> encode_base64url l <> []).
Proof.
  induction n as [|n IH]; intros l Hn; [destruct l; [done|cbn in Hn; lia]|].
  destruct l as [|a [|b [|c l]]]; try done. split; [|done]. cbn [encode_base64url length].
  destruct (IH l) as [H _]; [cbn in Hn; lia|]. by rewrite mod4_group.
Qed.

(** The value of the dns parameter is read as base64url without padding (RFC 4648), and
    nothing else is: a text is accepted exactly when it is the encoding of a message that
    is not empty and not longer than a DNS message may be, and gives that message. In
    particular two texts never give the same message. *)
Theorem decode_base64url_spec s l :
  decode_base64url s = Some l <->
  l <> [] /\ bytes_len l <= Wire.MAX_DNS_WIRE_BYTES /\ s = encode_base64url l.
Proof.
  unfold decode_base64url. split.
  - intros H. destruct (bool_decide_reflect (s = [])) as [|Hs]; [done|]. cbn [orb] in H.
    destruct (bool_decide (61 ∈ s)); [done|]. cbn [orb] in H. destruct (Z.eqb_spec (text_len s mod 4) 1) as [|Hm]; [done|].
    destruct (base64_loop s 0 0 []) as [[[acc bits] out]|] eqn:Hl; [|done]. cbn [mbind option_bind] in H.
    destruct (_ && _) eqn:Hz; [done|]. injection H as ->.
    destruct (digits_text s (base64_loop_digits _ _ _ _ _ Hl)) as [Ht _]. rewrite Ht in Hm.
    destruct (base64_loop_inv (length s) s [] acc bits l) as (l' & -> & Hb & Es); [done|done| |done|done|].
    { intros E. apply Hm. change 4 with (Z.of_nat 4). rewrite <-Nat2Z.inj_mod, E. done. }
    cbn [app] in *. split; [|done]. intros ->. by subst s.
  - intros (Hne & Hl & ->). destruct (encode_base64url_len (length l) l) as [Hm Hs]; [done|].
    destruct (base64_loop_encode (length l) l []) as [bits Hbits]; [done|done|].
    destruct (digits_text _ (base64_loop_digits _ _ _ _ _ Hbits)) as [Ht Hp].
    rewrite (bool_decide_eq_false_2 (_ = [])) by auto. rewrite (bool_decide_eq_false_2 (61 ∈ _)) by done. cbn [orb].
    destruct (Z.eqb_spec (text_len (encode_base64url l) mod 4) 1) as [E|].
    { destruct Hm. rewrite Ht in E. change 4 with (Z.of_nat 4) in E. rewrite <-Nat2Z.inj_mod in E. lia. }
    rewrite Hbits. cbn [mbind option_bind Z.eqb negb]. by rewrite andb_false_r.
Qed.
