(* ===== verification/Inbound.v ===== *)
(** * Answering a request once (src/backend/src/ports/inbound.rs, src/backend/src/dns/trace.rs)

    The response handle that all clones of a request share, the observation of a request
    until its response is written, and [dispatch_inbound] of dns/handler.rs. The clones act
    concurrently; their actions are the atomic ones of the code (the compare-and-swap of
    [claim], the start and the end of the encoder), in any order. Clocks are arguments. *)

From S2P Require Import Prelude Message CacheModel CacheFacade Resolve.

(** ** Cancellation (dns/context.rs) *)

(** The token and the reason, which is set once. *)
Record Cancellation := mk_cancellation { cn_cancelled : bool; cn_reason : option CancelReason }.
Definition cancellation_new : Cancellation := mk_cancellation false None.
Definition cancel (c : Cancellation) (reason : CancelReason) : Cancellation :=
  mk_cancellation true (Some (default reason (cn_reason c))).

(** ** Observation of a request (dns/trace.rs) *)

Inductive ResponseDelivery := RD_Unrecorded | RD_Pending | RD_Sent | RD_Failed | RD_Cancelled.
#[global] Instance ResponseDelivery_eq_dec : EqDecision ResponseDelivery.
Proof. solve_decision. Defined.
#[global] Instance CacheActivityOutcome_eq_dec : EqDecision CacheActivityOutcome.
Proof. solve_decision. Defined.
Inductive CacheActivityKind := AK_Write | AK_Refresh.
Inductive CacheActivityResponseClass :=
| AC_Positive | AC_Nodata | AC_Nxdomain | AC_Servfail | AC_Truncated | AC_Refused | AC_Other.

Definition activity_class (c : ResponseClass) : CacheActivityResponseClass :=
  match c with
  | RPositive => AC_Positive | RNoData => AC_Nodata | RNxDomain => AC_Nxdomain | RServFail => AC_Servfail
  | RTruncated => AC_Truncated | RRefused => AC_Refused | ROther _ => AC_Other
  end.

Record CacheActivity := mk_activity {
  act_kind : CacheActivityKind;
  act_outcome : CacheActivityOutcome;
  act_target : option string;
  act_used : option string;
  act_class : option CacheActivityResponseClass;
  act_ttl_secs : option Z
}.
Record RequestTraceSnapshot := mk_snapshot {
  response_status : ResponseDelivery;
  response_duration_us : option Z;
  cache_activity : option CacheActivity
}.
Definition snapshot_default : RequestTraceSnapshot := mk_snapshot RD_Unrecorded None None.

(** A trace: the value of its channel ([None] when disabled) and when the request came. *)
Record RequestTrace := mk_trace { rt_value : option RequestTraceSnapshot; rt_received : option Instant }.
Definition trace_new (received_at : Instant) : RequestTrace :=
  mk_trace (Some (mk_snapshot RD_Pending None None)) (Some received_at).
Definition trace_disabled : RequestTrace := mk_trace None None.

(** [send_modify] *)
Definition modify (f : RequestTraceSnapshot -> RequestTraceSnapshot) (t : RequestTrace) : RequestTrace :=
  mk_trace (f <$> rt_value t) (rt_received t).

Definition finish_response (status : ResponseDelivery) (started now : Instant) (t : RequestTrace) : RequestTrace :=
  modify (fun v =>
    if bool_decide (response_status v = RD_Pending) then
      mk_snapshot status
        (if bool_decide (status = RD_Sent)
         then Some (Z.min (duration_since now (default started (rt_received t)) / 1000) u64_max) else None)
        (cache_activity v)
    else v) t.

Definition set_activity (f : CacheActivity -> CacheActivity) (t : RequestTrace) : RequestTrace :=
  modify (fun v => mk_snapshot (response_status v) (response_duration_us v) (f <$> cache_activity v)) t.
Definition begin_cache (kind : CacheActivityKind) (t : RequestTrace) : RequestTrace :=
  modify (fun v => mk_snapshot (response_status v) (response_duration_us v) (Some (mk_activity kind APending None None None None))) t.
(** [CacheActivityGuard::route], [result], [set_outcome]; [finish] is the last with the
    outcome of the task, and dropping the guard before is [ADropped]. *)
Definition guard_route (target used : option string) : RequestTrace -> RequestTrace :=
  set_activity (fun a => mk_activity (act_kind a) (act_outcome a) target used (act_class a) (act_ttl_secs a)).
Definition guard_result (class : CacheActivityResponseClass) (ttl_secs : option Z) : RequestTrace -> RequestTrace :=
  set_activity (fun a => mk_activity (act_kind a) (act_outcome a) (act_target a) (act_used a) (Some class) ttl_secs).
Definition set_outcome (o : CacheActivityOutcome) : RequestTrace -> RequestTrace :=
  set_activity (fun a => mk_activity (act_kind a) o (act_target a) (act_used a) (act_class a) (act_ttl_secs a)).
Definition guard_drop (finished : bool) (t : RequestTrace) : RequestTrace := if finished then t else set_outcome ADropped t.

(** [settled]: the values the receiver sees until the budget of six seconds ends; the
    channel outlives the wait. [last] is the value at the end of the budget. *)
Definition is_settled (v : RequestTraceSnapshot) : bool :=
  negb (bool_decide (response_status v = RD_Pending)) &&
  match cache_activity v with Some a => negb (bool_decide (act_outcome a = APending)) | None => true end.
Definition give_up_waiting (v : RequestTraceSnapshot) : RequestTraceSnapshot :=
  mk_snapshot (if bool_decide (response_status v = RD_Pending) then RD_Unrecorded else response_status v)
    (response_duration_us v)
    ((fun a => if bool_decide (act_outcome a = APending)
               then mk_activity (act_kind a) AUnrecorded (act_target a) (act_used a) (act_class a) (act_ttl_secs a) else a)
     <$> cache_activity v).
Definition trace_settled (enabled : bool) (seen : list RequestTraceSnapshot) (last : RequestTraceSnapshot) : RequestTraceSnapshot :=
  if negb enabled then snapshot_default
  else match list_find (fun v => is_settled v = true) seen with
  | Some (_, v) => v
  | None => give_up_waiting last
  end.

(** ** The response handle (ports/inbound.rs) *)

Inductive ResponseState := RS_Pending | RS_Responded | RS_ClientGone | RS_Cancelled.
#[global] Instance ResponseState_eq_dec : EqDecision ResponseState.
Proof. solve_decision. Defined.
Inductive EncodeErrorClass := EC_AlreadyResponded | EC_ClientGone | EC_Cancelled | EC_QuestionMismatch | EC_EncoderFailure.
Record EncodeError := mk_encode_error { ee_class : EncodeErrorClass; ee_source : option PortError }.

(** [EncodeError::completed]; it is called on a state that is not [Pending]. *)
Definition completed (s : ResponseState) : EncodeError :=
  mk_encode_error match s with
    | RS_Responded => EC_AlreadyResponded | RS_ClientGone => EC_ClientGone | RS_Cancelled | RS_Pending => EC_Cancelled
    end None.
Definition encoder_failure (e : PortError) : EncodeError := mk_encode_error EC_EncoderFailure (Some e).
Definition question_mismatch : EncodeError := mk_encode_error EC_QuestionMismatch None.

Section Inbound.
Context {HH : Hickory}.

(** What the clones of a handle share: its state, the cancellation and the trace of the
    request, the responses given to the encoder, whether the encoder is running, and
    whether the last clone is gone. *)
Record ResponseHandle := mk_handle {
  hd_query : CanonicalQuery;
  hd_received_at : Instant;
  hd_state : ResponseState;
  hd_cancellation : Cancellation;
  hd_trace : RequestTrace;
  hd_entered : list CanonicalResponse;
  hd_encoding : bool;
  hd_dropped : bool
}.
Definition handle_new (q : CanonicalQuery) (received_at : Instant) : ResponseHandle :=
  mk_handle q received_at RS_Pending cancellation_new (trace_new received_at) [] false false.

Definition with_state (h : ResponseHandle) (s : ResponseState) : ResponseHandle :=
  mk_handle (hd_query h) (hd_received_at h) s (hd_cancellation h) (hd_trace h) (hd_entered h) (hd_encoding h) (hd_dropped h).
Definition with_cancellation (h : ResponseHandle) (c : Cancellation) : ResponseHandle :=
  mk_handle (hd_query h) (hd_received_at h) (hd_state h) c (hd_trace h) (hd_entered h) (hd_encoding h) (hd_dropped h).

(** [compare_exchange] from [Pending]. *)
Definition claim (h : ResponseHandle) (terminal : ResponseState) : result EncodeError unit * ResponseHandle :=
  if bool_decide (hd_state h = RS_Pending) then (Ok tt, with_state h terminal) else (Err (completed (hd_state h)), h).

(** [respond] up to the call of the encoder. *)
Definition respond_start (h : ResponseHandle) (r : CanonicalResponse) : result EncodeError unit * ResponseHandle :=
  if negb (matches_query r (hd_query h)) then (Err question_mismatch, h)
  else match claim h RS_Responded with
  | (Err e, h) => (Err e, h)
  | (Ok _, h) =>
    (Ok tt, mk_handle (hd_query h) (hd_received_at h) (hd_state h) (hd_cancellation h) (hd_trace h) (hd_entered h ++ [r]) true (hd_dropped h))
  end.
(** [respond] after the encoder. *)
Definition respond_finish (h : ResponseHandle) (encoded : result PortError unit) (now : Instant) : result EncodeError unit * ResponseHandle :=
  (map_err encoder_failure encoded,
   mk_handle (hd_query h) (hd_received_at h) (hd_state h) (hd_cancellation h)
     (finish_response (match encoded with Ok _ => RD_Sent | Err _ => RD_Failed end) (hd_received_at h) now (hd_trace h))
     (hd_entered h) false (hd_dropped h)).

Definition handle_cancel (h : ResponseHandle) (reason : CancelReason) : result EncodeError unit * ResponseHandle :=
  let '(res, h) := claim h RS_Cancelled in (res, with_cancellation h (cancel (hd_cancellation h) reason)).
Definition mark_client_gone (h : ResponseHandle) : result EncodeError unit * ResponseHandle :=
  let '(res, h) := claim h RS_ClientGone in (res, with_cancellation h (cancel (hd_cancellation h) ClientDisconnected)).

(** [drop] of the shared part: the future of an encoder that runs goes with it. *)
Definition handle_drop (h : ResponseHandle) (now : Instant) : ResponseHandle :=
  mk_handle (hd_query h) (hd_received_at h) (hd_state h) (hd_cancellation h)
    (finish_response RD_Cancelled (hd_received_at h) now (hd_trace h)) (hd_entered h) false true.

(** ** Dispatch (dns/handler.rs) *)

Inductive DispatchOutcome := DO_Responded | DO_NoResponse.
Inductive DispatchError := DE_Core (e : CoreError) | DE_Encode (class : EncodeErrorClass).

(** [dispatch_inbound] with the answer of the core and what the encoder returns. *)
Definition dispatch_inbound (core : result CoreError CoreOutcome) (encoder : CanonicalResponse -> result PortError unit)
    (now : Instant) (h : ResponseHandle) : result DispatchError DispatchOutcome * ResponseHandle :=
  match core with
  | Err e => (Err (DE_Core e), h)
  | Ok CO_NoResponse => (Ok DO_NoResponse, h)
  | Ok (CO_Response r) =>
    match respond_start h r with
    | (Err e, h) => (Err (DE_Encode (ee_class e)), h)
    | (Ok _, h) =>
      match respond_finish h (encoder r) now with
      | (Err e, h) => (Err (DE_Encode (ee_class e)), h)
      | (Ok _, h) => (Ok DO_Responded, h)
      end
    end
  end.

(** ** Runs *)

(** What the clones may do. *)
Inductive HandleAction :=
| HA_Respond (r : CanonicalResponse)
| HA_Encoded (encoded : result PortError unit) (now : Instant)
| HA_ClientGone
| HA_Cancel (reason : CancelReason)
| HA_Drop (now : Instant).

(** An action with what it returned; the encoder ends only while it runs, and nothing
    happens after the drop. *)
Inductive handle_step : ResponseHandle -> HandleAction -> result EncodeError unit -> ResponseHandle -> Prop :=
| step_respond h r res h' : hd_dropped h = false -> respond_start h r = (res, h') -> handle_step h (HA_Respond r) res h'
| step_encoded h encoded now res h' :
    hd_dropped h = false -> hd_encoding h = true -> respond_finish h encoded now = (res, h') ->
    handle_step h (HA_Encoded encoded now) res h'
| step_gone h res h' : hd_dropped h = false -> mark_client_gone h = (res, h') -> handle_step h HA_ClientGone res h'
| step_cancel h reason res h' :
    hd_dropped h = false -> handle_cancel h reason = (res, h') -> handle_step h (HA_Cancel reason) res h'
| step_drop h now : hd_dropped h = false -> handle_step h (HA_Drop now) (Ok tt) (handle_drop h now).

Inductive handle_run : ResponseHandle -> list (HandleAction * result EncodeError unit) -> ResponseHandle -> Prop :=
| run_nil h : handle_run h [] h
| run_cons h a res h1 log h2 : handle_step h a res h1 -> handle_run h1 log h2 -> handle_run h ((a, res) :: log) h2.

(** The actions that decide what becomes of the request. *)
Definition is_claim (a : HandleAction) : bool := match a with HA_Respond _ | HA_ClientGone | HA_Cancel _ => true | _ => false end.
Definition won (log : list (HandleAction * result EncodeError unit)) : list HandleAction :=
  omap (fun '(a, res) => match res with Ok _ => if is_claim a then Some a else None | Err _ => None end) log.
Definition claimed_state (a : HandleAction) : ResponseState :=
  match a with HA_Respond _ => RS_Responded | HA_ClientGone => RS_ClientGone | _ => RS_Cancelled end.

Definition responses_of (l : list HandleAction) : list CanonicalResponse :=
  omap (fun a => match a with HA_Respond r => Some r | _ => None end) l.
Definition signals_cancel (a : HandleAction) : bool := match a with HA_ClientGone | HA_Cancel _ => true | _ => false end.
Definition encoded_ok (x : HandleAction * result EncodeError unit) : bool :=
  match x.1 with HA_Encoded (Ok _) _ => true | _ => false end.

Definition delivery (h : ResponseHandle) : option ResponseDelivery := response_status <$> rt_value (hd_trace h).

(** The invariant of a handle after [log]. *)
Record handle_inv (log : list (HandleAction * result EncodeError unit)) (h : ResponseHandle) : Prop := {
  hi_winner : (won log = [] /\ hd_state h = RS_Pending) \/ (exists w, won log = [w] /\ is_claim w = true /\ hd_state h = claimed_state w);
  hi_entered : hd_entered h = responses_of (won log);
  hi_match : Forall (fun r => matches_query r (hd_query h) = true) (hd_entered h);
  hi_losers : forall a e, (a, Err e) ∈ log -> is_claim a = true ->
    e = question_mismatch \/ (exists w, won log = [w] /\ e = completed (claimed_state w));
  hi_cancel : existsb (fun x => signals_cancel x.1) log = true -> cn_cancelled (hd_cancellation h) = true;
  hi_encoding : hd_encoding h = true -> hd_state h <> RS_Pending;
  hi_delivery : exists s, delivery h = Some s /\ (s = RD_Sent <-> existsb encoded_ok log = true) /\
    (hd_encoding h = true -> s = RD_Pending) /\ (hd_dropped h = true -> s <> RD_Pending) /\
    (hd_state h = RS_Pending -> hd_dropped h = false -> s = RD_Pending)
}.

Lemma won_snoc log a res :
  won (log ++ [(a, res)]) = won log ++ match res with Ok _ => if is_claim a then [a] else [] | Err _ => [] end.
Proof. unfold won. rewrite omap_app. f_equal. cbn. destruct res; [destruct (is_claim a)|]; done. Qed.

Lemma finish_delivery status started now t :
  response_status <$> rt_value (finish_response status started now t) =
  (fun s => if bool_decide (s = RD_Pending) then status else s) <$> (response_status <$> rt_value t).
Proof. unfold finish_response, modify. cbn. destruct (rt_value t) as [v|]; [|done]. cbn. by case_bool_decide. Qed.

Lemma existsb_snoc {A} (f : A -> bool) l x : existsb f (l ++ [x]) = existsb f l || f x.
Proof. rewrite existsb_app. cbn. by rewrite orb_false_r. Qed.

Lemma claim_not_encoded a res : is_claim a = true -> encoded_ok (a, res) = false.
Proof. by destruct a. Qed.

Lemma with_same_cancellation h : with_cancellation h (hd_cancellation h) = h.
Proof. by destruct h. Qed.

(** A claim that is lost, or an answer to another question. *)
Lemma lost_claim log h a e c :
  handle_inv log h -> is_claim a = true ->
  (e = question_mismatch \/ (hd_state h <> RS_Pending /\ e = completed (hd_state h))) ->
  (cn_cancelled (hd_cancellation h) = true -> cn_cancelled c = true) -> (signals_cancel a = true -> cn_cancelled c = true) ->
  handle_inv (log ++ [(a, Err e)]) (with_cancellation h c).
Proof.
  intros [Hw He Hm Hl Hc Hen Hd] Ha Herr Hc1 Hc2.
  assert (Hwon : won (log ++ [(a, Err e)]) = won log) by (rewrite won_snoc; apply app_nil_r).
  split; cbn; rewrite ?Hwon; try done.
  - intros a' e' [Hin|Hin]%elem_of_app Hcl; [by eapply Hl|]. apply list_elem_of_singleton in Hin. injection Hin as -> ->.
    destruct Herr as [->|[Hn ->]]; [by left|]. right. destruct Hw as [[_ ?]|(w & Hw & _ & Hs)]; [done|]. exists w. by rewrite Hs.
  - rewrite existsb_snoc. cbn. intros [H|H]%orb_true_iff; auto.
  - destruct Hd as (s & Hs & H1 & H2). exists s. rewrite existsb_snoc, claim_not_encoded, orb_false_r by done. done.
Qed.

Lemma lost_respond log h r e :
  handle_inv log h -> (e = question_mismatch \/ (hd_state h <> RS_Pending /\ e = completed (hd_state h))) ->
  handle_inv (log ++ [(HA_Respond r, Err e)]) h.
Proof.
  intros Hi He. pose proof (lost_claim log h (HA_Respond r) e (hd_cancellation h) Hi eq_refl He) as H.
  rewrite with_same_cancellation in H. by apply H.
Qed.

(** The first claim. *)
Lemma first_claim log h a c encoding :
  handle_inv log h -> is_claim a = true -> hd_state h = RS_Pending -> hd_dropped h = false ->
  Forall (fun r => matches_query r (hd_query h) = true) (responses_of [a]) ->
  (cn_cancelled (hd_cancellation h) = true -> cn_cancelled c = true) -> (signals_cancel a = true -> cn_cancelled c = true) ->
  handle_inv (log ++ [(a, Ok tt)])
    (mk_handle (hd_query h) (hd_received_at h) (claimed_state a) c (hd_trace h) (hd_entered h ++ responses_of [a]) encoding false).
Proof.
  intros [Hw He Hm Hl Hc Hen Hd] Ha Hp Hdrop Hr Hc1 Hc2.
  assert (Hnil : won log = []).
  { destruct Hw as [[? _]|(w & _ & Hcl & Hs)]; [done|]. rewrite Hp in Hs. by destruct w. }
  assert (Hwon : won (log ++ [(a, Ok tt)]) = [a]) by (rewrite won_snoc, Hnil, Ha; done).
  split; cbn [hd_state hd_entered hd_query hd_cancellation hd_dropped hd_encoding].
  - right. exists a. done.
  - rewrite He, Hnil, Hwon. done.
  - apply list.Forall_app. done.
  - intros a' e' [Hin|Hin]%elem_of_app Hcl; [|apply list_elem_of_singleton in Hin; done].
    destruct (Hl a' e' Hin Hcl) as [?|(w & E & _)]; [by left|]. by rewrite Hnil in E.
  - rewrite existsb_snoc. cbn. intros [H|H]%orb_true_iff; auto.
  - intros _. by destruct a.
  - destruct Hd as (s & Hs & H1 & H2 & H3 & H4). exists s. unfold delivery in *. cbn [hd_trace]. rewrite existsb_snoc, claim_not_encoded, orb_false_r by done.
    repeat split; try done; [by apply H1|by apply H1|by auto|]. by destruct a.
Qed.

Lemma cancel_cancelled c reason : cn_cancelled (cancel c reason) = true.
Proof. done. Qed.

Lemma claim_cancel_inv log h a reason :
  handle_inv log h -> hd_dropped h = false -> signals_cancel a = true ->
  let '(res, h') := claim h (claimed_state a) in
  handle_inv (log ++ [(a, res)]) (with_cancellation h' (cancel (hd_cancellation h') reason)).
Proof.
  intros Hi Hd Ha. unfold claim. assert (Hcl : is_claim a = true) by by destruct a. case_bool_decide as Hp.
  - assert (Hr : responses_of [a] = []) by by destruct a.
    pose proof (first_claim log h a (cancel (hd_cancellation h) reason) (hd_encoding h) Hi Hcl Hp Hd) as H. rewrite Hr, app_nil_r in H.
    unfold with_cancellation. cbn. rewrite Hd. apply H; [by constructor|done|done].
  - apply lost_claim; [done|done|by right|done|done].
Qed.

(** The end of the encoder and the drop, which claim nothing. *)
Lemma other_step log h a res trace dropped s' :
  handle_inv log h -> is_claim a = false ->
  response_status <$> rt_value trace = Some s' ->
  (s' = RD_Sent <-> existsb encoded_ok (log ++ [(a, res)]) = true) -> (dropped = true -> s' <> RD_Pending) ->
  (hd_state h = RS_Pending -> dropped = false -> s' = RD_Pending) ->
  handle_inv (log ++ [(a, res)])
    (mk_handle (hd_query h) (hd_received_at h) (hd_state h) (hd_cancellation h) trace (hd_entered h) false dropped).
Proof.
  intros [Hw He Hm Hl Hc Hen Hd] Ha Ht Hs Hdr Hp.
  assert (Hwon : won (log ++ [(a, res)]) = won log) by (rewrite won_snoc, Ha; destruct res; apply app_nil_r).
  split; cbn [hd_state hd_entered hd_query hd_cancellation hd_dropped hd_encoding]; rewrite ?Hwon; try done.
  - intros a' e' [Hin|Hin]%elem_of_app Hcl; [by eapply Hl|]. apply list_elem_of_singleton in Hin. injection Hin as -> _. by rewrite Ha in Hcl.
  - rewrite existsb_snoc. intros [H|H]%orb_true_iff; [auto|]. by destruct a.
  - exists s'. done.
Qed.

Lemma handle_step_inv log h a res h' :
  handle_inv log h -> handle_step h a res h' -> handle_inv (log ++ [(a, res)]) h' /\ hd_query h' = hd_query h.
Proof.
  intros Hi Hstep. revert Hi. destruct Hstep as [h0 r res0 h1 Hd H|h0 encoded now res0 h1 Hd Hen H|h0 res0 h1 Hd H|h0 reason res0 h1 Hd H|h0 now Hd]; intros Hi.
  - unfold respond_start in H. destruct (matches_query r (hd_query h0)) eqn:Hm; cbn [negb] in H.
    2:{ injection H as <- <-. split; [apply lost_respond; [exact Hi|by left]|done]. }
    unfold claim in H. case_bool_decide as Hp; injection H as <- <-; (split; [|done]).
    + cbn. rewrite Hd. apply (first_claim log h0 (HA_Respond r) (hd_cancellation h0) true); try done. by repeat constructor.
    + apply lost_respond; auto.
  - injection H as <- <-. split; [|done]. pose proof (hi_encoding _ _ Hi Hen) as Hn.
    destruct (hi_delivery _ _ Hi) as (s & Hs & H1 & H2 & _). specialize (H2 Hen) as ->.
    unfold delivery in Hs. eapply other_step; [done|done|rewrite finish_delivery, Hs; reflexivity| |by destruct encoded|done].
    rewrite existsb_snoc. assert (existsb encoded_ok log = false) as -> by (apply not_true_iff_false; by intros ?%H1).
    by destruct encoded.
  - pose proof (claim_cancel_inv log h0 HA_ClientGone ClientDisconnected Hi Hd eq_refl) as Hc. unfold mark_client_gone in H. cbn [claimed_state] in Hc.
    unfold claim in *. case_bool_decide; by injection H as <- <-.
  - pose proof (claim_cancel_inv log h0 (HA_Cancel reason) reason Hi Hd eq_refl) as Hc. unfold handle_cancel in H. cbn [claimed_state] in Hc.
    unfold claim in *. case_bool_decide; by injection H as <- <-.
  - split; [|done]. destruct (hi_delivery _ _ Hi) as (s & Hs & H1 & _).
    unfold delivery in Hs. eapply other_step; [done|done|rewrite finish_delivery, Hs; reflexivity| | |done].
    + rewrite existsb_snoc. cbn. rewrite orb_false_r. case_bool_decide as Hp; [|done]. subst s. split; [done|]. intros H%H1. done.
    + intros _. by case_bool_decide.
Qed.

Lemma handle_run_inv log0 h log h' :
  handle_inv log0 h -> handle_run h log h' -> handle_inv (log0 ++ log) h' /\ hd_query h' = hd_query h.
Proof.
  intros Hi Hr. revert log0 Hi. induction Hr as [h|h a res h1 log h2 Hs Hr IH]; intros log0 Hi; [by rewrite app_nil_r|].
  destruct (handle_step_inv _ _ _ _ _ Hi Hs) as [Hi1 E]. destruct (IH _ Hi1) as [Hi2 E2]. rewrite <-app_assoc in Hi2. split; [done|congruence].
Qed.

Lemma handle_new_inv q t0 : handle_inv [] (handle_new q t0).
Proof.
  split; cbn; try done; [by left|by intros a e ?%elem_of_nil|]. exists RD_Pending. done.
Qed.

(** C6: However the clones of a response handle race - the core answering, the client going
    away, deadlines and shutdown cancelling, the task being dropped - at most one of them
    decides the request. The encoder is entered at most once, with the response that won
    and answers the question; whoever loses is told who won. The request is reported as
    sent exactly when its encoder succeeded, never stays pending once the handle is gone,
    and a cancellation reaches the request even when it comes too late. *)
Theorem answered_once q t0 log h :
  handle_run (handle_new q t0) log h ->
  (length (won log) <= 1)%nat /\
  hd_entered h = responses_of (won log) /\
  Forall (fun r => matches_query r q = true) (hd_entered h) /\
  (forall a e, (a, Err e) ∈ log -> is_claim a = true ->
     e = question_mismatch \/ exists w, won log = [w] /\ e = completed (claimed_state w)) /\
  (existsb (fun x => signals_cancel x.1) log = true -> cn_cancelled (hd_cancellation h) = true) /\
  (delivery h = Some RD_Sent <-> existsb encoded_ok log = true) /\
  (hd_dropped h = true -> delivery h <> Some RD_Pending).
Proof.
  intros Hr. destruct (handle_run_inv [] _ _ _ (handle_new_inv q t0) Hr) as [[Hw He Hm Hl Hc Hen Hd] Eq]. cbn [app] in *.
  cbn [hd_query handle_new] in Eq. rewrite Eq in Hm. destruct Hd as (s & -> & Hs & _ & Hdr & _).
  split; [destruct Hw as [[-> _]|(w & -> & _)]; cbn; lia|]. repeat split; try done.
  - intros [= ->]. by apply Hs.
  - intros H. f_equal. by apply Hs.
  - intros H [= ->]. by apply Hdr.
Qed.

(** What [dispatch_inbound] does to a handle are actions of its own. *)
Lemma dispatch_inbound_run core encoder now h :
  hd_dropped h = false -> exists log, handle_run h log (dispatch_inbound core encoder now h).2.
Proof.
  intros Hd. unfold dispatch_inbound. destruct core as [[r|]|e]; [|exists []; constructor..].
  destruct (respond_start h r) as [res h1] eqn:Hs. pose proof (step_respond _ _ _ _ Hd Hs) as H1. destruct res as [u|e].
  2:{ exists [(HA_Respond r, Err e)]. by repeat econstructor. }
  assert (Hh1 : hd_dropped h1 = false /\ hd_encoding h1 = true).
  { unfold respond_start, claim in Hs. destruct (negb _); [done|]. case_bool_decide; [|done]. by injection Hs as _ <-. }
  destruct Hh1 as [Hd1 He1]. destruct (respond_finish h1 (encoder r) now) as [res h2] eqn:Hf.
  pose proof (step_encoded _ _ _ _ _ Hd1 He1 Hf) as H2.
  exists [(HA_Respond r, Ok u); (HA_Encoded (encoder r) now, res)]. by destruct res; repeat econstructor.
Qed.

(** A fresh handle hands an answer to its question to the encoder. *)
Lemma dispatch_inbound_ok r encoder now q t0 :
  matches_query r q = true -> encoder r = Ok tt ->
  exists h, dispatch_inbound (Ok (CO_Response r)) encoder now (handle_new q t0) = (Ok DO_Responded, h) /\ hd_entered h = [r].
Proof.
  intros Hm He. unfold dispatch_inbound, respond_start, claim. cbn [hd_query hd_state handle_new]. rewrite Hm. cbn [negb].
  rewrite bool_decide_eq_true_2 by done. cbv iota. unfold respond_finish. rewrite He. eexists. split; reflexivity.
Qed.

(** A request is never reported as pending, whatever was seen of it. *)
Lemma trace_settled_done enabled seen last : is_settled (trace_settled enabled seen last) = true.
Proof.
  unfold trace_settled. destruct enabled; [|done]. cbn [negb]. destruct (list_find _ seen) as [[i v]|] eqn:Hf.
  - by apply list_find_Some in Hf as (_ & ? & _).
  - unfold is_settled, give_up_waiting. cbn. apply andb_true_iff. split.
    + apply negb_true_iff, bool_decide_eq_false_2. by case_bool_decide.
    + destruct (cache_activity last) as [a|]; [|done]. cbn. apply negb_true_iff, bool_decide_eq_false_2. by case_bool_decide.
Qed.

End Inbound.

(** ** Examples *)

Module InboundExamples.
Import Sample.

Definition query0 : CanonicalQuery :=
  {| query_message := query_msg; query_question := CanonicalQuestion_from_query question |}.
Definition answer0 : CanonicalResponse := {| resp_message := positive_msg 1 300; resp_class := RPositive; resp_ttl := extract_ttl_metadata (positive_msg 1 300) RPositive |}.

(** Shutdown cancels a request while its answer is being written. *)
Definition race : list (HandleAction * result EncodeError unit) :=
  [(HA_Respond answer0, Ok tt); (HA_Cancel CR_Shutdown, Err (completed RS_Responded)); (HA_Encoded (Ok tt) 5000, Ok tt); (HA_Drop 6000, Ok tt)].

Lemma answered_once_witness :
  exists h, handle_run (handle_new query0 1000) race h /\ hd_entered h = [answer0] /\ delivery h = Some RD_Sent /\
    cn_cancelled (hd_cancellation h) = true.
Proof.
  pose (h1 := (respond_start (handle_new query0 1000) answer0).2). pose (h2 := (handle_cancel h1 CR_Shutdown).2).
  pose (h3 := (respond_finish h2 (Ok tt) 5000).2).
  assert (Hr : handle_run (handle_new query0 1000) race (handle_drop h3 6000)).
  { apply (run_cons _ _ _ h1); [apply step_respond; [reflexivity|reflexivity]|].
    apply (run_cons _ _ _ h2); [apply step_cancel; [reflexivity|reflexivity]|].
    apply (run_cons _ _ _ h3); [apply step_encoded; [reflexivity|reflexivity|reflexivity]|].
    apply (run_cons _ _ _ (handle_drop h3 6000)); [apply step_drop; reflexivity|apply run_nil]. }
  exists (handle_drop h3 6000). destruct (answered_once query0 1000 race _ Hr) as (_ & He & _ & _ & Hc & Hs & _).
  split; [exact Hr|]. split; [rewrite He; reflexivity|]. split; [apply Hs; reflexivity|apply Hc; reflexivity].
Defined.

End InboundExamples.
