(* ===== verification/Admission.v ===== *)
(** * Admission and draining of a runtime (src/backend/src/runtime/coordinator.rs)

    [ActiveRuntime]: admission of requests, the guards that count them, draining, and the
    two waits for it. The threads interleave at every access to an atomic variable and at
    every call of a [Notify]; a schedule says which thread moves next, whether a weak
    compare-and-swap fails for no reason, and whether the timeout of a wait fires.

    The interleavings are sequentially consistent: a step sees every step before it. The
    source accesses [active] and [draining] with AcqRel exchanges and Acquire loads, which
    order less: [try_acquire] writes [active] and then reads [draining], a drain writes
    [draining] and then reads [active], and Rust's memory model lets both reads miss the
    other's write. The theorems speak of the executions in which that does not happen. *)

From S2P Require Import Prelude CacheModel.

Inductive AdmissionError := AdmissionDraining | AdmissionCapacity.

(** The atomic variables of [AdmissionState]; a [Notify] is the number of its
    [notify_waiters], of which a waiter sees those after it was made. *)
Record AdmissionState := mk_admission {
  ad_draining : bool;
  ad_active : Z;
  ad_drained : nat;
  ad_retiring : nat
}.
Definition admission_default : AdmissionState := mk_admission false 0 0 0.

(** Where a thread is. *)
Inductive Pc :=
(* [try_acquire]: before its first load, at the head of the loop, before the exchange, after it *)
| Acq_Load
| Acq_Check (active : Z)
| Acq_Cas (active : Z)
| Acq_Recheck
(* a guard that is dropped at once, because the runtime drains *)
| Acq_Refused
| Acq_Error (e : AdmissionError)
(* a request with its guard *)
| Holding
(* the drop of a guard after the subtraction, when it was the last *)
| Guard_Notify (refused : bool)
| Released
(* [begin_drain] *)
| Drain_Start
| Drain_Notify
| Drain_Done (changed : bool)
(* [wait_for_drain] *)
| Wait_Check
| Wait_Subscribe
| Wait_Recheck (seen : nat)
| Wait_Sleep (seen : nat)
| Wait_Done (drained : bool)
(* [wait_for_retirement] *)
| Retire_Subscribe
| Retire_Check (seen : nat)
| Retire_Sleep (seen : nat)
| Retire_Done.
#[global] Instance AdmissionError_eq_dec : EqDecision AdmissionError.
Proof. solve_decision. Defined.
#[global] Instance Pc_eq_dec : EqDecision Pc.
Proof. solve_decision. Defined.

Definition set_active (a : AdmissionState) (n : Z) : AdmissionState := mk_admission (ad_draining a) n (ad_drained a) (ad_retiring a).

(** [RequestGuard::drop]: [fetch_sub], and a notification when it was the last guard. *)
Definition guard_release (refused : bool) (a : AdmissionState) : AdmissionState * Pc :=
  let previous := ad_active a in
  (set_active a (wrap64 (previous - 1)),
   if previous =? 1 then Guard_Notify refused else if refused then Acq_Error AdmissionDraining else Released).

(** One step of a thread; [oops] is a spurious failure of the weak exchange or a timeout.
    [None]: the thread is done, or sleeps. *)
Definition thread_step (oops : bool) (a : AdmissionState) (p : Pc) : option (AdmissionState * Pc) :=
  match p with
  | Acq_Load => Some (a, Acq_Check (ad_active a))
  | Acq_Check active =>
    Some (a, if ad_draining a then Acq_Error AdmissionDraining
             else if active =? usize_max then Acq_Error AdmissionCapacity else Acq_Cas active)
  | Acq_Cas active =>
    if (ad_active a =? active) && negb oops then Some (set_active a (active + 1), Acq_Recheck)
    else Some (a, Acq_Check (ad_active a))
  | Acq_Recheck => Some (a, if ad_draining a then Acq_Refused else Holding)
  | Acq_Refused => Some (guard_release true a)
  | Holding => Some (guard_release false a)
  | Guard_Notify refused =>
    Some (mk_admission (ad_draining a) (ad_active a) (S (ad_drained a)) (ad_retiring a),
          if refused then Acq_Error AdmissionDraining else Released)
  | Drain_Start =>
    if ad_draining a then Some (a, Drain_Done false)
    else Some (mk_admission true (ad_active a) (ad_drained a) (ad_retiring a), Drain_Notify)
  | Drain_Notify => Some (mk_admission (ad_draining a) (ad_active a) (ad_drained a) (S (ad_retiring a)), Drain_Done true)
  | Wait_Check => Some (a, if ad_active a =? 0 then Wait_Done true else Wait_Subscribe)
  | Wait_Subscribe => Some (a, Wait_Recheck (ad_drained a))
  | Wait_Recheck seen =>
    Some (a, if ad_active a =? 0 then Wait_Done true else if oops then Wait_Done false else Wait_Sleep seen)
  | Wait_Sleep seen =>
    if negb (seen =? ad_drained a)%nat then Some (a, Wait_Check) else if oops then Some (a, Wait_Done false) else None
  | Retire_Subscribe => Some (a, Retire_Check (ad_retiring a))
  | Retire_Check seen => Some (a, if ad_draining a then Retire_Done else Retire_Sleep seen)
  | Retire_Sleep seen => if negb (seen =? ad_retiring a)%nat then Some (a, Retire_Done) else None
  | Acq_Error _ | Released | Drain_Done _ | Wait_Done _ | Retire_Done => None
  end.

(** A runtime: its admission state and the threads that have called it. *)
Record Runtime := mk_runtime { rt_admission : AdmissionState; rt_threads : list Pc }.
Definition runtime_new : Runtime := mk_runtime admission_default [].

(** What a schedule does next: a call, or a step of a thread. *)
Inductive Call := Try_Acquire | Begin_Drain | Wait_For_Drain | Wait_For_Retirement.
Definition entry (c : Call) : Pc :=
  match c with Try_Acquire => Acq_Load | Begin_Drain => Drain_Start | Wait_For_Drain => Wait_Check | Wait_For_Retirement => Retire_Subscribe end.
Inductive Move := Spawn (c : Call) | Run (thread : nat) (oops : bool).

Definition move (r : Runtime) (m : Move) : Runtime :=
  match m with
  | Spawn c => mk_runtime (rt_admission r) (rt_threads r ++ [entry c])
  | Run i oops =>
    match rt_threads r !! i with
    | None => r
    | Some p =>
      match thread_step oops (rt_admission r) p with
      | None => r
      | Some (a, p) => mk_runtime a (<[i:=p]> (rt_threads r))
      end
    end
  end.
Definition run (schedule : list Move) (r : Runtime) : Runtime := foldl move r schedule.

(** ** The count of the guards *)

Definition guard_of (p : Pc) : Z := match p with Acq_Recheck | Acq_Refused | Holding => 1 | _ => 0 end.

Record runtime_inv (r : Runtime) : Prop := {
  ri_count : ad_active (rt_admission r) = Zsum_with guard_of (rt_threads r);
  ri_bound : ad_active (rt_admission r) <= usize_max;
  ri_cas : forall i active, rt_threads r !! i = Some (Acq_Cas active) -> active <> usize_max
}.

Lemma Zsum_with_insert {A} (f : A -> Z) l i x y : l !! i = Some x -> Zsum_with f (<[i:=y]> l) = Zsum_with f l - f x + f y.
Proof.
  intros H. rewrite <-(take_drop_middle l i x H) at 2. rewrite insert_take_drop by by eapply lookup_lt_Some.
  rewrite !Zsum_with_app. unfold Zsum_with. cbn. lia.
Qed.
Lemma Zsum_le {A} (f : A -> Z) l x : (forall y, 0 <= f y) -> x ∈ l -> f x <= Zsum_with f l.
Proof.
  intros Hf. induction l as [|z l IH]; intros H; [by apply elem_of_nil in H|]. cbn. fold (Zsum_with f l).
  assert (0 <= Zsum_with f l) by (apply Zsum_with_nonneg; auto). pose proof (Hf z).
  apply elem_of_cons in H as [->|H]; [lia|]. specialize (IH H). lia.
Qed.
Lemma guard_of_nonneg p : 0 <= guard_of p.
Proof. destruct p; cbn; lia. Qed.

(** A guard that goes is counted off. *)
Lemma release_count refused a :
  1 <= ad_active a <= usize_max ->
  ad_active (guard_release refused a).1 = ad_active a - 1 /\ guard_of (guard_release refused a).2 = 0 /\
  (forall n, (guard_release refused a).2 <> Acq_Cas n).
Proof.
  intros H. unfold guard_release, usize_max in *. cbv zeta. cbn [fst snd set_active ad_active].
  rewrite wrap64_small by (unfold u64; lia). split; [done|]. by destruct (_ =? 1), refused.
Qed.

(** What a step of a thread does to the count. *)
Lemma step_count oops a p a' p' :
  thread_step oops a p = Some (a', p') -> guard_of p <= ad_active a <= usize_max -> (forall n, p = Acq_Cas n -> n <> usize_max) ->
  ad_active a' = ad_active a - guard_of p + guard_of p' /\ ad_active a' <= usize_max /\ (forall n, p' = Acq_Cas n -> n <> usize_max).
Proof.
  intros H Hg Hc. assert (Hsame : forall q, a' = a -> p' = q -> guard_of q = guard_of p -> (forall n, q = Acq_Cas n -> n <> usize_max) ->
    ad_active a' = ad_active a - guard_of p + guard_of p' /\ ad_active a' <= usize_max /\ (forall n, p' = Acq_Cas n -> n <> usize_max)).
  { intros q -> -> -> Hq. split; [lia|]. split; [lia|done]. }
  assert (Hrel : forall refused, guard_of p = 1 -> Some (guard_release refused a) = Some (a', p') ->
    ad_active a' = ad_active a - guard_of p + guard_of p' /\ ad_active a' <= usize_max /\ (forall n, p' = Acq_Cas n -> n <> usize_max)).
  { intros refused Hp E0. assert (E : guard_release refused a = (a', p')) by congruence. destruct (release_count refused a) as (E1 & E2 & E3); [lia|]. rewrite E in E1, E2, E3. cbn in E1, E2, E3.
    rewrite E1, E2, Hp. split; [lia|]. split; [lia|]. intros n ->. by destruct (E3 n). }
  destruct p; cbn [thread_step] in H; try (exact (Hrel _ eq_refl H)); try done.
  - injection H as <- <-. by apply (Hsame _ eq_refl eq_refl).
  - injection H as <- <-. apply (Hsame _ eq_refl eq_refl); (destruct (ad_draining a); [done|]); (destruct (Z.eqb_spec active usize_max); [done|]); [done|]. by intros n' [= <-].
  - destruct ((ad_active a =? active) && negb oops) eqn:E; [|injection H as <- <-; by apply (Hsame _ eq_refl eq_refl)].
    apply andb_true_iff in E as [E%Z.eqb_eq _]. injection H as <- <-. cbn. specialize (Hc active eq_refl).
    split; [lia|]. split; [lia|done].
  - injection H as <- <-. apply (Hsame _ eq_refl eq_refl); by destruct (ad_draining a).
  - injection H as <- <-. cbn. split; [by destruct refused; cbn; lia|]. split; [lia|]. by destruct refused.
  - destruct (ad_draining a); injection H as <- <-; cbn; (split; [lia|]); (split; [lia|done]).
  - injection H as <- <-. cbn. split; [lia|]. split; [lia|done].
  - injection H as <- <-. apply (Hsame _ eq_refl eq_refl); by destruct (_ =? 0).
  - injection H as <- <-. by apply (Hsame _ eq_refl eq_refl).
  - injection H as <- <-. apply (Hsame _ eq_refl eq_refl); (destruct (_ =? 0); [done|]); by destruct oops.
  - destruct (negb _); [|destruct oops; [|done]]; injection H as <- <-; by apply (Hsame _ eq_refl eq_refl).
  - injection H as <- <-. by apply (Hsame _ eq_refl eq_refl).
  - injection H as <- <-. apply (Hsame _ eq_refl eq_refl); by destruct (ad_draining a).
  - destruct (negb _); [|done]. injection H as <- <-. by apply (Hsame _ eq_refl eq_refl).
Qed.

Lemma move_inv r m : runtime_inv r -> runtime_inv (move r m).
Proof.
  intros [Hc Hb Hcas]. destruct m as [c|i oops]; cbn [move].
  - split; cbn [rt_admission rt_threads]; [rewrite Zsum_with_app, Hc; destruct c; cbn; lia|done|].
    intros i active [H|[_ H]]%lookup_app_Some; [by eapply Hcas|]. destruct (i - length (rt_threads r))%nat as [|k]; [|done]. by destruct c.
  - destruct (rt_threads r !! i) as [p|] eqn:Hp; [|done]. destruct (thread_step oops (rt_admission r) p) as [[a p']|] eqn:Hs; [|done].
    assert (Hg : guard_of p <= ad_active (rt_admission r)).
    { rewrite Hc. apply Zsum_le; [apply guard_of_nonneg|]. by eapply list_elem_of_lookup_2. }
    destruct (step_count _ _ _ _ _ Hs) as (E & Hb' & Hn); [done|intros n ->; by eapply Hcas|].
    split; cbn [rt_admission rt_threads]; [rewrite (Zsum_with_insert _ _ _ _ _ Hp), E, Hc; lia|done|].
    intros j active Hj. destruct (decide (i = j)) as [<-|Hne].
    + rewrite list_lookup_insert_eq in Hj by by eapply lookup_lt_Some. injection Hj as ->. by apply Hn.
    + rewrite list_lookup_insert_ne in Hj by done. by eapply Hcas.
Qed.

Lemma run_inv schedule r : runtime_inv r -> runtime_inv (run schedule r).
Proof. revert r. induction schedule as [|m l IH]; intros r H; [done|]. apply (IH (move r m)). by apply move_inv. Qed.
Lemma runtime_new_inv : runtime_inv runtime_new.
Proof. by split; cbn; [|unfold usize_max, u64_max; lia|]. Qed.

(** ** After the drain *)

Lemma step_draining oops a p a' p' :
  thread_step oops a p = Some (a', p') -> ad_draining a = true -> ad_draining a' = true /\ p' <> Holding.
Proof.
  intros H Hd. destruct p; cbn [thread_step] in H; rewrite ?Hd in H; try done;
    repeat (case_match || simplify_eq); try done; unfold guard_release in *; repeat (case_match || simplify_eq); cbn; try done;
    by repeat case_match.
Qed.

Lemma elem_of_insert_list {A} (l : list A) i x y q : l !! i = Some x -> q ∈ <[i:=y]> l <-> q = y \/ exists j, j <> i /\ l !! j = Some q.
Proof.
  intros Hx. assert (Hi : (i < length l)%nat) by by eapply lookup_lt_Some. rewrite list_elem_of_lookup. split.
  - intros [j Hj]. destruct (decide (j = i)) as [->|Hne]; [rewrite list_lookup_insert_eq in Hj by done; left; congruence|].
    rewrite list_lookup_insert_ne in Hj by done. right. by exists j.
  - intros [->|(j & Hne & Hj)]; [exists i; by apply list_lookup_insert_eq|]. exists j. by rewrite list_lookup_insert_ne.
Qed.

(** The moves of a runtime: a new thread, a step of one, or nothing. *)
Lemma move_cases r m :
  move r m = r \/ (exists c, move r m = mk_runtime (rt_admission r) (rt_threads r ++ [entry c])) \/
  exists i oops p a p', rt_threads r !! i = Some p /\ thread_step oops (rt_admission r) p = Some (a, p') /\
    move r m = mk_runtime a (<[i:=p']> (rt_threads r)).
Proof.
  destruct m as [c|i oops]; cbn [move]; [right; left; by exists c|]. destruct (rt_threads r !! i) as [p|] eqn:Hp; [|by left].
  destruct (thread_step oops (rt_admission r) p) as [[a p']|] eqn:Hs; [|by left]. right. right. by exists i, oops, p, a, p'.
Qed.

(** Draining, and no request with a guard. *)
Definition no_guards (r : Runtime) : Prop := ad_draining (rt_admission r) = true /\ Holding ∉ rt_threads r.

Lemma move_no_guards r m : no_guards r -> no_guards (move r m).
Proof.
  intros [Hd Hh]. destruct (move_cases r m) as [->|[[c ->]|(i & oops & p & a & p' & Hp & Hs & ->)]]; [done| |].
  - split; [done|]. cbn. intros [?|H]%elem_of_app; [done|]. apply list_elem_of_singleton in H. by destruct c.
  - destruct (step_draining _ _ _ _ _ Hs Hd) as [Hd' Hp']. split; [done|]. cbn. rewrite (elem_of_insert_list _ _ _ _ _ Hp).
    intros [?|(j & _ & Hj)]; [congruence|]. apply Hh. by eapply list_elem_of_lookup_2.
Qed.
Lemma run_no_guards schedule r : no_guards r -> no_guards (run schedule r).
Proof. revert r. induction schedule as [|m l IH]; intros r H; [done|]. apply (IH (move r m)). by apply move_no_guards. Qed.

Lemma idle_no_guards r : runtime_inv r -> ad_draining (rt_admission r) = true -> ad_active (rt_admission r) = 0 -> no_guards r.
Proof.
  intros [Hc _ _] Hd Ha. split; [done|]. intros H. pose proof (Zsum_le guard_of _ _ guard_of_nonneg H) as Hle. cbn in Hle. lia.
Qed.

Lemma run_draining schedule r : ad_draining (rt_admission r) = true -> ad_draining (rt_admission (run schedule r)) = true.
Proof.
  revert r. induction schedule as [|m l IH]; intros r H; [done|]. apply (IH (move r m)).
  destruct (move_cases r m) as [->|[[c ->]|(i & oops & p & a & p' & Hp & Hs & ->)]]; [done|done|]. by apply (step_draining _ _ _ _ _ Hs).
Qed.

(** A wait of a runtime that drains has seen that no guard was left. *)
Definition waits_sound (n : nat) (r : Runtime) : Prop :=
  forall i, (n <= i)%nat -> rt_threads r !! i = Some (Wait_Done true) -> no_guards r.

Lemma move_waits n r m : runtime_inv r -> ad_draining (rt_admission r) = true -> waits_sound n r -> waits_sound n (move r m).
Proof.
  intros Hi Hd Hw k Hk H. destruct (decide (rt_threads r !! k = Some (Wait_Done true))) as [He|He]; [by apply move_no_guards, (Hw k)|].
  destruct (move_cases r m) as [E|[[c E]|(i & oops & p & a & p' & Hp & Hs & E)]]; rewrite E in H |- *; [done| |].
  - cbn in H. apply lookup_app_Some in H as [?|[_ H]]; [done|]. destruct (k - _)%nat; [|done]. by destruct c.
  - cbn in H. destruct (decide (k = i)) as [->|Hne]; [|by rewrite list_lookup_insert_ne in H].
    rewrite list_lookup_insert_eq in H by by eapply lookup_lt_Some. injection H as ->. rewrite <-E. apply move_no_guards, idle_no_guards; [done|done|].
    destruct p; cbn [thread_step] in Hs; unfold guard_release in Hs; repeat (case_match || simplify_eq); by apply Z.eqb_eq.
Qed.
Lemma run_waits n schedule r : runtime_inv r -> ad_draining (rt_admission r) = true -> waits_sound n r -> waits_sound n (run schedule r).
Proof.
  revert r. induction schedule as [|m l IH]; intros r Hi Hd Hw; [done|]. apply (IH (move r m)); [by apply move_inv| |by apply move_waits].
  by apply (run_draining [m]).
Qed.

Lemma run_app s1 s2 r : run (s1 ++ s2) r = run s2 (run s1 r).
Proof. apply foldl_app. Qed.

(** C11: Once a runtime drains, no request is admitted any more; and when a wait for the drain
    that began after it says that the runtime has drained, no request holds a guard then
    or ever after - however admissions, releases, drains and waits interleave, and
    although an admission that is refused has counted itself for a moment. The count
    never leaves its range. (The interleavings are sequentially consistent, which is more
    than the AcqRel and Acquire accesses of the source promise.) *)
Theorem drain_is_final before during after i :
  let r0 := run before runtime_new in
  let r1 := run during r0 in
  let r2 := run after r1 in
  (0 <= ad_active (rt_admission r2) <= usize_max) /\
  (ad_draining (rt_admission r0) = true ->
   (forall j, rt_threads r2 !! j = Some Holding -> rt_threads r0 !! j = Some Holding) /\
   ((length (rt_threads r0) <= i)%nat -> rt_threads r1 !! i = Some (Wait_Done true) -> Holding ∉ rt_threads r2)).
Proof.
  intros r0 r1 r2. assert (Hi0 : runtime_inv r0) by apply run_inv, runtime_new_inv.
  assert (Hi2 : runtime_inv r2) by by apply run_inv, run_inv. split; [|intros Hd; split].
  - destruct Hi2 as [Hc Hb _]. split; [|done]. rewrite Hc. apply Zsum_with_nonneg. intros; apply guard_of_nonneg.
  - assert (Hkeep : forall l r, ad_draining (rt_admission r) = true -> forall j, rt_threads (run l r) !! j = Some Holding -> rt_threads r !! j = Some Holding).
    { induction l as [|m l IH]; intros r Hr j Hj; [done|]. apply (IH (move r m)) in Hj; [|by apply (run_draining [m])].
      destruct (move_cases r m) as [E|[[c E]|(k & oops & p & a & p' & Hp & Hs & E)]]; rewrite E in Hj; [done| |].
      - cbn in Hj. apply lookup_app_Some in Hj as [?|[_ Hj]]; [done|]. destruct (j - _)%nat; [|done]. by destruct c.
      - cbn in Hj. destruct (decide (j = k)) as [->|Hne]; [|by rewrite list_lookup_insert_ne in Hj].
        rewrite list_lookup_insert_eq in Hj by by eapply lookup_lt_Some. destruct (step_draining _ _ _ _ _ Hs Hr). congruence. }
    intros j Hj. unfold r2, r1 in Hj. rewrite <-run_app in Hj. by eapply Hkeep.
  - intros Hlen Hw. assert (Hq : no_guards r1); [|by apply (run_no_guards after r1 Hq)].
    apply (run_waits (length (rt_threads r0)) during r0 Hi0 Hd) with (i := i); [|done|done].
    intros j Hj H. apply lookup_lt_Some in H. lia.
Qed.

(** ** Waits are woken *)

(** What a step does to the notifications. *)
Lemma step_notifies oops a p a' p' :
  thread_step oops a p = Some (a', p') -> guard_of p <= ad_active a <= usize_max -> (forall n, p = Acq_Cas n -> n <> usize_max) ->
  (ad_drained a <= ad_drained a')%nat /\ (ad_retiring a <= ad_retiring a')%nat /\
  (ad_active a <> 0 -> ad_active a' = 0 -> exists b, p' = Guard_Notify b) /\
  (forall b, p = Guard_Notify b -> (ad_drained a < ad_drained a')%nat) /\
  (ad_draining a = false -> ad_draining a' = true -> p' = Drain_Notify) /\
  (p = Drain_Notify -> (ad_retiring a < ad_retiring a')%nat).
Proof.
  intros H Hg Hc.
  assert (Hrel : forall refused, guard_of p = 1 -> Some (guard_release refused a) = Some (a', p') ->
    ad_drained a' = ad_drained a /\ ad_retiring a' = ad_retiring a /\ ad_draining a' = ad_draining a /\
    (ad_active a' = 0 -> exists b, p' = Guard_Notify b)).
  { intros refused Hp E0. assert (E : guard_release refused a = (a', p')) by congruence.
    destruct (release_count refused a) as (E1 & _); [lia|]. rewrite E in E1. cbn in E1. unfold guard_release in E. injection E as <- <-.
    split; [done|]. split; [done|]. split; [done|]. intros H0. cbn in E1, H0. rewrite (proj2 (Z.eqb_eq (ad_active a) 1)) by lia. by exists refused. }
  assert (Hold : guard_of p = 1 -> (exists refused, Some (guard_release refused a) = Some (a', p')) ->
    (forall b, p <> Guard_Notify b) -> p <> Drain_Notify -> (ad_drained a <= ad_drained a')%nat /\ (ad_retiring a <= ad_retiring a')%nat /\
    (ad_active a <> 0 -> ad_active a' = 0 -> exists b, p' = Guard_Notify b) /\ (forall b, p = Guard_Notify b -> (ad_drained a < ad_drained a')%nat) /\
    (ad_draining a = false -> ad_draining a' = true -> p' = Drain_Notify) /\ (p = Drain_Notify -> (ad_retiring a < ad_retiring a')%nat)).
  { intros Hp [refused E] Hn1 Hn2. destruct (Hrel refused Hp E) as (E1 & E2 & E3 & Hn). rewrite E1, E2, E3.
    split; [lia|]. split; [lia|]. split; [auto|]. split; [intros b Hb; by destruct (Hn1 b)|]. split; [congruence|done]. }
  destruct p; cbn [thread_step] in H; try (apply Hold; [done|eexists; exact H|done|done]); clear Hrel Hold;
    repeat (case_match || simplify_eq); cbn; repeat split; try done; try lia; try congruence; try (intros; lia).
  apply andb_true_iff in H0 as [H0 _]. apply Z.eqb_eq in H0. cbn in Hg. intros; lia.
Qed.

(** A waiter that sleeps and has not been notified sleeps for a reason, or there is a
    thread about to notify it. *)
Definition wake_ok (r : Runtime) (p : Pc) : Prop :=
  let a := rt_admission r in
  match p with
  | Wait_Recheck seen => (seen <= ad_drained a)%nat
  | Wait_Sleep seen => (seen <= ad_drained a)%nat /\
    (seen = ad_drained a -> ad_active a <> 0 \/ exists b, Guard_Notify b ∈ rt_threads r)
  | Retire_Check seen => (seen <= ad_retiring a)%nat
  | Retire_Sleep seen => (seen <= ad_retiring a)%nat /\ (seen = ad_retiring a -> ad_draining a = false \/ Drain_Notify ∈ rt_threads r)
  | _ => True
  end.
Definition wake_inv (r : Runtime) : Prop := forall p, p ∈ rt_threads r -> wake_ok r p.

(** A thread that enters a wait is right to. *)
Lemma step_enters oops a p a' p' seen :
  thread_step oops a p = Some (a', p') ->
  (p' = Wait_Recheck seen -> a' = a /\ seen = ad_drained a) /\ (p' = Wait_Sleep seen -> a' = a /\ p = Wait_Recheck seen /\ ad_active a <> 0) /\
  (p' = Retire_Check seen -> a' = a /\ seen = ad_retiring a) /\ (p' = Retire_Sleep seen -> a' = a /\ p = Retire_Check seen /\ ad_draining a = false).
Proof.
  intros H. destruct p; cbn [thread_step] in H; unfold guard_release in H; repeat (case_match || simplify_eq); repeat split; intros; simplify_eq; try done;
    by apply Z.eqb_neq.
Qed.

Lemma notifier_stays (r : Runtime) i p a p' q : rt_threads r !! i = Some p -> q ∈ rt_threads r -> q <> p ->
  q ∈ rt_threads (mk_runtime a (<[i:=p']> (rt_threads r))).
Proof.
  intros Hp [j Hj]%list_elem_of_lookup Hne. cbn. rewrite (elem_of_insert_list _ _ _ _ _ Hp). right. exists j. split; [|done]. intros ->. congruence.
Qed.

(** What was right for a waiter stays right when another thread moves. *)
Lemma wake_other r i oops p a p' q :
  runtime_inv r -> rt_threads r !! i = Some p -> thread_step oops (rt_admission r) p = Some (a, p') ->
  wake_ok r q -> wake_ok (mk_runtime a (<[i:=p']> (rt_threads r))) q.
Proof.
  intros [Hc Hb Hcas] Hp Hs Hq. set (r' := mk_runtime a (<[i:=p']> (rt_threads r))).
  assert (Hg : guard_of p <= ad_active (rt_admission r)).
  { rewrite Hc. apply Zsum_le; [apply guard_of_nonneg|]. by eapply list_elem_of_lookup_2. }
  destruct (step_notifies _ _ _ _ _ Hs) as (H1 & H2 & H3 & H4 & H5 & H6); [done|intros n ->; by eapply Hcas|].
  assert (Hnew : p' ∈ rt_threads r') by (cbn; rewrite (elem_of_insert_list _ _ _ _ _ Hp); by left).
  destruct q; try done; cbn in Hq |- *; [lia| |lia|].
  - destruct Hq as [Hle Hq]. split; [lia|]. intros E. destruct Hq as [Hne|[b Hb']]; [lia| |].
    + destruct (Z.eq_dec (ad_active a) 0) as [H0|H0]; [|by left]. right. destruct (H3 Hne H0) as [b ->]. by exists b.
    + destruct (decide (Guard_Notify b = p)) as [Eb|Hnb]; [specialize (H4 b (eq_sym Eb)); lia|].
      right. exists b. by apply (notifier_stays r i p a p').
  - destruct Hq as [Hle Hq]. split; [lia|]. intros E. destruct Hq as [Hne|Hb']; [lia| |].
    + destruct (ad_draining a) eqn:Hd; [|by left]. right. by rewrite <-(H5 Hne eq_refl).
    + destruct (decide (Drain_Notify = p)) as [Eb|Hnb]; [specialize (H6 (eq_sym Eb)); lia|].
      right. by apply (notifier_stays r i p a p').
Qed.

Lemma move_wake r m : runtime_inv r -> wake_inv r -> wake_inv (move r m).
Proof.
  intros Hi Hw. destruct (move_cases r m) as [->|[[c ->]|(i & oops & p & a & p' & Hp & Hs & ->)]]; [done| |].
  - intros q [H|H]%elem_of_app; [|apply list_elem_of_singleton in H as ->; by destruct c]. specialize (Hw q H).
    destruct q; try done; cbn in Hw |- *; try done; (split; [lia|]); intros E; destruct (proj2 Hw E) as [?|Hn]; try (by left); right.
    + destruct Hn as [b Hb]. exists b. apply elem_of_app. by left.
    + apply elem_of_app. by left.
  - intros q Hq. pose proof Hq as Hq0. cbn in Hq. rewrite (elem_of_insert_list _ _ _ _ _ Hp) in Hq. destruct Hq as [->|(j & Hne & Hj)].
    2:{ eapply wake_other; [done|done|done|]. apply Hw. by eapply list_elem_of_lookup_2. }
    assert (Hwp : wake_ok r p) by (apply Hw; by eapply list_elem_of_lookup_2).
    destruct p'; try done; cbn; (destruct (step_enters _ _ _ _ _ seen Hs) as (E1 & E2 & E3 & E4)).
    + destruct (E1 eq_refl) as [-> ->]. lia.
    + destruct (E2 eq_refl) as (-> & -> & Ha). cbn in Hwp. split; [lia|]. by left.
    + destruct (E3 eq_refl) as [-> ->]. lia.
    + destruct (E4 eq_refl) as (-> & -> & Ha). cbn in Hwp. split; [lia|]. by left.
Qed.

Lemma run_wake schedule r : runtime_inv r -> wake_inv r -> wake_inv (run schedule r).
Proof.
  revert r. induction schedule as [|m l IH]; intros r Hi Hw; [done|]. apply (IH (move r m)); [by apply move_inv|by apply move_wake].
Qed.

(** C32: No wake-up is lost. Whoever waits for the drain sleeps only while a guard is counted,
    or a thread that has dropped the last one is about to notify, or it has been notified
    already and can go on; whoever waits for the retirement, only while the runtime does
    not drain, or the drain is about to notify. *)
Theorem drain_waits_woken schedule :
  let r := run schedule runtime_new in
  let a := rt_admission r in
  (forall i seen, rt_threads r !! i = Some (Wait_Sleep seen) ->
     ad_active a <> 0 \/ (exists b, Guard_Notify b ∈ rt_threads r) \/ thread_step false a (Wait_Sleep seen) = Some (a, Wait_Check)) /\
  (forall i seen, rt_threads r !! i = Some (Retire_Sleep seen) ->
     ad_draining a = false \/ Drain_Notify ∈ rt_threads r \/ thread_step false a (Retire_Sleep seen) = Some (a, Retire_Done)).
Proof.
  intros r a. assert (Hw : wake_inv r) by (apply run_wake; [apply runtime_new_inv|by intros p ?%elem_of_nil]).
  split; intros i seen Hi.
  - assert (Hs : wake_ok r (Wait_Sleep seen)) by by apply Hw, (list_elem_of_lookup_2 _ i). destruct Hs as [_ Hs]. fold a in Hs.
    destruct (Nat.eq_dec seen (ad_drained a)) as [E|Hne]; [destruct (Hs E) as [?|?]; auto|].
    right. right. cbn [thread_step]. by rewrite (proj2 (Nat.eqb_neq _ _) Hne).
  - assert (Hs : wake_ok r (Retire_Sleep seen)) by by apply Hw, (list_elem_of_lookup_2 _ i). destruct Hs as [_ Hs]. fold a in Hs.
    destruct (Nat.eq_dec seen (ad_retiring a)) as [E|Hne]; [destruct (Hs E) as [?|?]; auto|].
    right. right. cbn [thread_step]. by rewrite (proj2 (Nat.eqb_neq _ _) Hne).
Qed.

(** ** Examples *)

Module AdmissionExamples.

(** Two requests pass the first check; one is admitted, the drain begins, and the other
    has counted itself before it is refused. The wait sees the count go to two, sleeps,
    and is woken when the last guard is gone. *)
Definition race_before : list Move :=
  [Spawn Try_Acquire; Spawn Try_Acquire; Run 0 false; Run 0 false; Run 0 false; Run 0 false; Run 1 false; Run 1 false; Spawn Begin_Drain; Run 2 false].
Definition race_during : list Move :=
  [Spawn Wait_For_Drain; Run 3 false; Run 3 false; Run 1 false; Run 3 false; Run 1 false; Run 1 false; Run 0 false; Run 3 false; Run 0 false;
   Run 3 false; Run 3 false].
Definition race_after : list Move := [Spawn Try_Acquire; Run 4 false; Run 4 false; Run 2 false].

Lemma drain_is_final_witness :
  rt_threads (run race_during (run race_before runtime_new)) = [Released; Acq_Error AdmissionDraining; Drain_Notify; Wait_Done true] /\
  Holding ∉ rt_threads (run race_after (run race_during (run race_before runtime_new))).
Proof.
  destruct (drain_is_final race_before race_during race_after 3) as (_ & H).
  split; [reflexivity|]. apply H; [reflexivity|apply Nat.leb_le; reflexivity|reflexivity].
Defined.

Lemma drain_waits_woken_witness :
  rt_threads (run (take 8 race_during) (run race_before runtime_new)) !! 3%nat = Some (Wait_Sleep 0) /\
  ad_active (rt_admission (run (take 8 race_during) (run race_before runtime_new))) = 0 /\
  exists b, Guard_Notify b ∈ rt_threads (run (take 8 race_during) (run race_before runtime_new)).
Proof.
  split; [reflexivity|]. split; [reflexivity|].
  destruct (drain_waits_woken (race_before ++ take 8 race_during)) as (H & _).
  destruct (H 3%nat 0%nat) as [Hn|[Hn|Hn]]; [reflexivity|exfalso; apply Hn; reflexivity| |discriminate Hn].
  rewrite run_app in Hn. exact Hn.
Defined.

End AdmissionExamples.
