(* ===== verification/Coordinator.v ===== *)
(** * Publication of runtimes (src/backend/src/runtime/coordinator.rs)

    [RuntimeCoordinator]: the active runtime, its replacement under the mutation gate, the
    registers of the runtimes and cache finalizers that are still alive, and shutdown.
    Requests come and go between any two steps of a replacement; their admission is the
    atomic one that Admission.v justifies. An [Arc] is its index in the list of all the
    runtimes that were published. What is prepared is an argument. *)

From S2P Require Import Prelude Admission.

Section Coordinator.
(** A prepared runtime: its revision, bind plan, whether it has a policy core, and the
    finalizer of that core; [merge_state_from] takes over the state of resources. *)
Context {Prepared BindPlan Finalizer : Type} `{!EqDecision BindPlan} `{!EqDecision Finalizer}.
Context (revision_of : Prepared -> Z) (bind_plan : Prepared -> BindPlan) (finalizer_owner : Prepared -> option Finalizer).
Context (has_core : Prepared -> bool) (merge_state_from : Prepared -> Prepared -> Prepared).

Record ActiveRuntime := mk_active { ar_prepared : Prepared; ar_draining : bool; ar_active : Z }.

(** What remains to be done of a replacement that has been published. *)
Inductive Task := T_Finalizer (i : nat) | T_Core (i : nat) | T_Owner (i : nat) | T_Drain (i : nat) | T_Prune.

Record RuntimeCoordinator := mk_coordinator {
  co_runtimes : list ActiveRuntime;
  co_active : nat;
  co_finalizers : list Finalizer;
  co_owners : list nat;
  co_core : option nat;
  co_todo : list Task
}.

Definition from_candidate (p : Prepared) : ActiveRuntime := mk_active p false 0.
(** [RuntimeCoordinator::new] *)
Definition runtime_coordinator_new (p : Prepared) : RuntimeCoordinator :=
  mk_coordinator [from_candidate p] 0 (option_list (finalizer_owner p)) [0%nat] (if has_core p then Some 0%nat else None) [].

Definition with_runtimes (c : RuntimeCoordinator) (l : list ActiveRuntime) : RuntimeCoordinator :=
  mk_coordinator l (co_active c) (co_finalizers c) (co_owners c) (co_core c) (co_todo c).
Definition with_owners (c : RuntimeCoordinator) (l : list nat) : RuntimeCoordinator :=
  mk_coordinator (co_runtimes c) (co_active c) (co_finalizers c) l (co_core c) (co_todo c).
Definition with_finalizers (c : RuntimeCoordinator) (l : list Finalizer) : RuntimeCoordinator :=
  mk_coordinator (co_runtimes c) (co_active c) l (co_owners c) (co_core c) (co_todo c).
Definition with_core (c : RuntimeCoordinator) (t : option nat) : RuntimeCoordinator :=
  mk_coordinator (co_runtimes c) (co_active c) (co_finalizers c) (co_owners c) t (co_todo c).
Definition with_todo (c : RuntimeCoordinator) (l : list Task) : RuntimeCoordinator :=
  mk_coordinator (co_runtimes c) (co_active c) (co_finalizers c) (co_owners c) (co_core c) l.

(** ** Requests *)

Definition update (c : RuntimeCoordinator) (i : nat) (f : ActiveRuntime -> ActiveRuntime) : RuntimeCoordinator :=
  with_runtimes c (alter f i (co_runtimes c)).

(** [try_acquire] of a runtime. *)
Definition runtime_try_acquire (c : RuntimeCoordinator) (i : nat) : result AdmissionError RuntimeCoordinator :=
  match co_runtimes c !! i with
  | None => Err AdmissionDraining
  | Some r =>
    if ar_draining r then Err AdmissionDraining
    else if ar_active r =? usize_max then Err AdmissionCapacity
    else Ok (update c i (fun r => mk_active (ar_prepared r) (ar_draining r) (ar_active r + 1)))
  end.
Definition release (c : RuntimeCoordinator) (i : nat) : RuntimeCoordinator :=
  update c i (fun r => mk_active (ar_prepared r) (ar_draining r) (wrap64 (ar_active r - 1))).
(** [RuntimeCoordinator::acquire], of the runtime that is loaded. *)
Definition acquire (c : RuntimeCoordinator) : result AdmissionError (nat * RuntimeCoordinator) :=
  c' ← runtime_try_acquire c (co_active c); Ok (co_active c, c').

(** ** Registers *)

Definition drain (c : RuntimeCoordinator) (i : nat) : RuntimeCoordinator :=
  update c i (fun r => mk_active (ar_prepared r) true (ar_active r)).
(** A runtime that is kept in the register. *)
Definition alive (c : RuntimeCoordinator) (i : nat) : bool :=
  match co_runtimes c !! i with Some r => negb (ar_draining r) || (0 <? ar_active r) | None => false end.
Definition finalizer_of (c : RuntimeCoordinator) (i : nat) : option Finalizer :=
  r ← co_runtimes c !! i; finalizer_owner (ar_prepared r).

Definition register_finalizer_owner (c : RuntimeCoordinator) (i : nat) : RuntimeCoordinator :=
  match finalizer_of c i with
  | None => c
  | Some f => if bool_decide (f ∈ co_finalizers c) then c else with_finalizers c (co_finalizers c ++ [f])
  end.
Definition register_runtime_core (c : RuntimeCoordinator) (i : nat) : RuntimeCoordinator :=
  with_core c (match co_runtimes c !! i with Some r => if has_core (ar_prepared r) then Some i else None | None => None end).
Definition register_runtime_owner (c : RuntimeCoordinator) (i : nat) : RuntimeCoordinator :=
  let owners := filter (fun j => alive c j = true) (co_owners c) in
  with_owners c (if bool_decide (i ∈ owners) then owners else owners ++ [i]).
(** [busy] are the finalizers with tasks. *)
Definition prune_finalizer_owners (busy : Finalizer -> bool) (c : RuntimeCoordinator) : RuntimeCoordinator :=
  let active_finalizers := omap (finalizer_of c) (co_owners c) in
  with_finalizers c (filter (fun f => busy f = true \/ f ∈ active_finalizers) (co_finalizers c)).
Definition prune_drained_runtime_owners (busy : Finalizer -> bool) (c : RuntimeCoordinator) : RuntimeCoordinator :=
  prune_finalizer_owners busy (with_owners c (filter (fun j => alive c j = true) (co_owners c))).

(** ** Replacement *)

Inductive ActivationFailure := AF_Revision (expected actual : Z) | AF_BindPlanChanged.

(** The publication: [compare_and_swap] of the active runtime, after which the rest
    remains to be done. *)
Definition publish (c : RuntimeCoordinator) (next : Prepared) : RuntimeCoordinator :=
  let i := length (co_runtimes c) in
  mk_coordinator (co_runtimes c ++ [from_candidate next]) i (co_finalizers c) (co_owners c) (co_core c)
    [T_Finalizer i; T_Core i; T_Owner i; T_Owner (co_active c); T_Drain (co_active c); T_Prune].

(** [compare_and_activate] and the commit of a prepared service activation, up to the
    publication. *)
Definition begin_activation (c : RuntimeCoordinator) (expected : Z) (candidate : Prepared) :
    result ActivationFailure RuntimeCoordinator :=
  match co_runtimes c !! co_active c with
  | None => Ok c
  | Some current =>
    if negb (revision_of (ar_prepared current) =? expected) then Err (AF_Revision expected (revision_of (ar_prepared current)))
    else Ok (publish c (merge_state_from candidate (ar_prepared current)))
  end.
(** [activate_prepared_reusing_listeners] *)
Definition begin_reuse (c : RuntimeCoordinator) (expected : Z) (prepared : Prepared) : result ActivationFailure RuntimeCoordinator :=
  match co_runtimes c !! co_active c with
  | None => Ok c
  | Some current =>
    if negb (revision_of (ar_prepared current) =? expected) then Err (AF_Revision expected (revision_of (ar_prepared current)))
    else if negb (bool_decide (bind_plan (ar_prepared current) = bind_plan prepared)) then Err AF_BindPlanChanged
    else Ok (publish c (merge_state_from prepared (ar_prepared current)))
  end.

Definition do_task (busy : Finalizer -> bool) (t : Task) (c : RuntimeCoordinator) : RuntimeCoordinator :=
  match t with
  | T_Finalizer i => register_finalizer_owner c i
  | T_Core i => register_runtime_core c i
  | T_Owner i => register_runtime_owner c i
  | T_Drain i => drain c i
  | T_Prune => prune_finalizer_owners busy c
  end.
(** The next step of the replacement under way. *)
Definition next_task (busy : Finalizer -> bool) (c : RuntimeCoordinator) : RuntimeCoordinator :=
  match co_todo c with
  | [] => c
  | t :: todo => with_todo (do_task busy t c) todo
  end.
Fixpoint finish_tasks (busy : Finalizer -> bool) (n : nat) (c : RuntimeCoordinator) : RuntimeCoordinator :=
  match n with O => c | S n => finish_tasks busy n (next_task busy c) end.

(** [compare_and_activate] that nothing interrupts. *)
Definition compare_and_activate (busy : Finalizer -> bool) (expected : Z) (candidate : Prepared) (c : RuntimeCoordinator) :
    result ActivationFailure RuntimeCoordinator :=
  c' ← begin_activation c expected candidate; Ok (finish_tasks busy (length (co_todo c')) c').

(** ** Shutdown *)

(** [RuntimeCoordinator::begin_drain] *)
Definition coordinator_drain (c : RuntimeCoordinator) : RuntimeCoordinator := foldl drain c (co_owners c).
(** [RuntimeCoordinator::wait_for_drain] of runtimes that have all drained. *)
Definition drained (c : RuntimeCoordinator) : bool :=
  forallb (fun i => match co_runtimes c !! i with Some r => ar_active r =? 0 | None => true end) (co_owners c).

(** ** Runs *)

Inductive CoMove :=
| CM_Acquire (i : nat)
| CM_Release (i : nat)
| CM_Activate (expected : Z) (candidate : Prepared)
| CM_Reuse (expected : Z) (prepared : Prepared)
| CM_Task (busy : Finalizer -> bool)
| CM_Prune (busy : Finalizer -> bool)
| CM_Drain.

(** A request may still hold the runtime it has loaded before; a replacement begins when
    the gate is free; a guard is released once. *)
Definition co_move (c : RuntimeCoordinator) (m : CoMove) : RuntimeCoordinator :=
  match m with
  | CM_Acquire i => match runtime_try_acquire c i with Ok c' => c' | Err _ => c end
  | CM_Release i => match co_runtimes c !! i with Some r => if 0 <? ar_active r then release c i else c | None => c end
  | CM_Activate expected candidate =>
    if bool_decide (co_todo c = []) then match begin_activation c expected candidate with Ok c' => c' | Err _ => c end else c
  | CM_Reuse expected prepared =>
    if bool_decide (co_todo c = []) then match begin_reuse c expected prepared with Ok c' => c' | Err _ => c end else c
  | CM_Task busy => next_task busy c
  | CM_Prune busy => prune_drained_runtime_owners busy c
  | CM_Drain => coordinator_drain c
  end.
Definition co_run (moves : list CoMove) (c : RuntimeCoordinator) : RuntimeCoordinator := foldl co_move c moves.

(** ** Every runtime that can have requests is accounted for *)

Definition alive_runtime (r : ActiveRuntime) : bool := negb (ar_draining r) || (0 <? ar_active r).
Definition in_range (r : ActiveRuntime) : Prop := 0 <= ar_active r <= usize_max.

(** A step that neither revives a runtime nor ends its draining. *)
Definition fades (l l' : list ActiveRuntime) : Prop :=
  Forall2 (fun r r' => ar_prepared r' = ar_prepared r /\ (ar_draining r = true -> ar_draining r' = true) /\
    (in_range r -> in_range r') /\ (alive_runtime r' = true -> alive_runtime r = true)) l l'.

Lemma fades_refl l : fades l l.
Proof. apply Forall_Forall2_diag, list.Forall_forall. done. Qed.
Lemma fades_trans l1 l2 l3 : fades l1 l2 -> fades l2 l3 -> fades l1 l3.
Proof.
  intros H1. revert l3. induction H1 as [|x y l1 l2 Hxy H1 IH]; intros l3 H2; inversion H2; subst; constructor; [|by apply IH].
  destruct Hxy as (E1 & D1 & C1 & A1). match goal with H : ar_prepared _ = ar_prepared y /\ _ |- _ => destruct H as (E2 & D2 & C2 & A2) end.
  split; [congruence|auto].
Qed.
Lemma fades_alter f l i :
  (forall r, l !! i = Some r -> ar_prepared (f r) = ar_prepared r /\ (ar_draining r = true -> ar_draining (f r) = true) /\
     (in_range r -> in_range (f r)) /\ (alive_runtime (f r) = true -> alive_runtime r = true)) -> fades l (alter f i l).
Proof.
  revert i. induction l as [|x l IH]; intros i H; [constructor|]. destruct i as [|i].
  - constructor; [by apply H|apply fades_refl].
  - constructor; [done|]. apply IH. intros r Hr. by apply H.
Qed.

Lemma acquire_fades c i c' : runtime_try_acquire c i = Ok c' -> fades (co_runtimes c) (co_runtimes c') /\ c' = with_runtimes c (co_runtimes c').
Proof.
  unfold runtime_try_acquire. destruct (co_runtimes c !! i) as [r|] eqn:Hr; [|done]. destruct (ar_draining r) eqn:Hd; [done|].
  destruct (Z.eqb_spec (ar_active r) usize_max); [done|]. intros [= <-]. split; [|done]. apply fades_alter. intros r0 H0.
  assert (r0 = r) as -> by congruence. unfold alive_runtime, in_range. cbn. rewrite Hd. repeat split; try done; lia.
Qed.
Lemma release_fades c i r : co_runtimes c !! i = Some r -> 0 < ar_active r -> fades (co_runtimes c) (co_runtimes (release c i)).
Proof.
  intros Hr Ha. apply fades_alter. intros r0 H0. assert (r0 = r) as -> by congruence.
  unfold alive_runtime, in_range, usize_max. cbn. split; [done|]. split; [done|]. split.
  - intros Hc. rewrite wrap64_small by (unfold u64; lia). lia.
  - intros [H|_]%orb_true_iff; [by rewrite H|]. apply orb_true_iff. right. by apply Z.ltb_lt.
Qed.
Lemma drain_fades c i : fades (co_runtimes c) (co_runtimes (drain c i)).
Proof. apply fades_alter. intros r _. unfold alive_runtime. cbn. split; [done|]. split; [done|]. split; [done|]. intros ->. apply orb_true_r. Qed.

Lemma fades_lookup l l' i r' : fades l l' -> l' !! i = Some r' ->
  exists r, l !! i = Some r /\ ar_prepared r' = ar_prepared r /\ (ar_draining r = true -> ar_draining r' = true) /\
    (in_range r -> in_range r') /\ (alive_runtime r' = true -> alive_runtime r = true).
Proof. intros H Hr. destruct (Forall2_lookup_r _ _ _ _ _ H Hr) as (r & ? & ?). by exists r. Qed.

Lemma alive_spec c i : alive c i = true <-> exists r, co_runtimes c !! i = Some r /\ alive_runtime r = true.
Proof. unfold alive, alive_runtime. destruct (co_runtimes c !! i) as [r|]; naive_solver. Qed.

(** The invariant of a coordinator. *)
Record co_inv (c : RuntimeCoordinator) : Prop := {
  ci_active : (co_active c < length (co_runtimes c))%nat;
  ci_counted : Forall in_range (co_runtimes c);
  ci_owned : forall i, alive c i = true -> i ∈ co_owners c \/ T_Owner i ∈ co_todo c;
  ci_retired : forall i r, co_runtimes c !! i = Some r -> i <> co_active c -> ar_draining r = true \/ T_Drain i ∈ co_todo c;
  ci_core_task : forall i, T_Core i ∈ co_todo c -> i = co_active c;
  ci_core : T_Core (co_active c) ∈ co_todo c \/
    co_core c = match co_runtimes c !! co_active c with Some r => if has_core (ar_prepared r) then Some (co_active c) else None | None => None end
}.

Lemma runtime_coordinator_new_inv p : co_inv (runtime_coordinator_new p).
Proof.
  split; cbn.
  - lia.
  - repeat constructor; cbn; unfold usize_max, u64_max; lia.
  - intros i (r & Hr & _)%alive_spec. destruct i; [left; by constructor|done].
  - intros [|i] r Hr Hne; done.
  - by intros i ?%elem_of_nil.
  - by right.
Qed.

(** A step that only lets runtimes fade. *)
Lemma co_inv_fades c c' :
  co_inv c -> fades (co_runtimes c) (co_runtimes c') -> co_active c' = co_active c -> co_todo c' = co_todo c -> co_core c' = co_core c ->
  (forall i, alive c' i = true -> i ∈ co_owners c -> i ∈ co_owners c') -> co_inv c'.
Proof.
  intros [H1 H2 H3 H4 H5 H6] Hf Ea Et Ec Ho. assert (Hlen : length (co_runtimes c) = length (co_runtimes c')) by exact (Forall2_length Hf). split; rewrite ?Ea, ?Et, ?Ec.
  - lia.
  - apply list.Forall_forall. intros r' [i Hi]%list_elem_of_lookup. destruct (fades_lookup _ _ _ _ Hf Hi) as (r & Hr & _ & _ & Hc & _).
    apply Hc. by apply (Forall_lookup_1 _ _ _ _ H2 Hr).
  - intros i Hal. pose proof Hal as (r' & Hr' & Ha)%alive_spec. destruct (fades_lookup _ _ _ _ Hf Hr') as (r & Hr & _ & _ & _ & Hlive).
    destruct (H3 i) as [?|?]; [apply alive_spec; eauto|left; auto|by right].
  - intros i r' Hr' Hne. destruct (fades_lookup _ _ _ _ Hf Hr') as (r & Hr & _ & Hd & _). destruct (H4 i r Hr Hne); auto.
  - exact H5.
  - destruct H6 as [?|H6]; [by left|right]. rewrite H6. destruct (co_runtimes c' !! co_active c) as [r'|] eqn:Hr'.
    + destruct (fades_lookup _ _ _ _ Hf Hr') as (r & Hr & Hp & _). by rewrite Hr, Hp.
    + apply lookup_ge_None in Hr'. lia.
Qed.

Lemma activation_publish_inv c next : co_inv c -> co_todo c = [] -> co_inv (publish c next).
Proof.
  intros [H1 H2 H3 H4 H5 H6] Ht. set (i := length (co_runtimes c)).
  assert (Hold : forall j r, (co_runtimes c ++ [from_candidate next]) !! j = Some r -> (co_runtimes c !! j = Some r /\ j <> i) \/ (j = i /\ r = from_candidate next)).
  { intros j r [H|[Hle H]]%lookup_app_Some; [left; split; [done|]; intros ->; apply lookup_lt_Some in H; unfold i in *; lia|right].
    destruct (j - length (co_runtimes c))%nat as [|k] eqn:Hk; [|done]. split; [unfold i; lia|by injection H]. }
  split; cbn [publish co_active co_runtimes co_owners co_todo co_core].
  - rewrite length_app. cbn. lia.
  - apply list.Forall_app. split; [done|]. repeat constructor; cbn; unfold usize_max, u64_max; lia.
  - intros j (r & Hr & Ha)%alive_spec. destruct (Hold j r Hr) as [[Hr0 _]|[-> _]].
    + destruct (H3 j) as [?|Hj]; [apply alive_spec; eauto|by left|]. rewrite Ht in Hj. by apply elem_of_nil in Hj.
    + right. do 2 right. left.
  - intros j r Hr Hne. destruct (Hold j r Hr) as [[Hr0 _]|[-> _]]; [|done].
    destruct (decide (j = co_active c)) as [->|Hj]; [right; do 4 right; left|].
    destruct (H4 j r Hr0 Hj) as [?|Hx]; [by left|]. rewrite Ht in Hx. by apply elem_of_nil in Hx.
  - intros j Hj. rewrite !elem_of_cons in Hj. destruct Hj as [[=]|[[= ->]|[[=]|[[=]|[[=]|[[=]|Hj]]]]]]; [done|by apply elem_of_nil in Hj].
  - left. right. left.
Qed.

(** One task less to do. *)
Lemma co_inv_done c t todo :
  co_inv c -> co_todo c = t :: todo ->
  (forall i, t = T_Owner i -> alive c i = true -> i ∈ co_owners c) ->
  (forall i r, t = T_Drain i -> co_runtimes c !! i = Some r -> i <> co_active c -> ar_draining r = true) ->
  (t = T_Core (co_active c) ->
    co_core c = match co_runtimes c !! co_active c with Some r => if has_core (ar_prepared r) then Some (co_active c) else None | None => None end) ->
  co_inv (with_todo c todo).
Proof.
  intros [H1 H2 H3 H4 H5 H6] Et Ho Hd Hc. rewrite Et in *. split; cbn [with_todo co_active co_runtimes co_owners co_todo co_core].
  - done.
  - done.
  - intros i Ha. destruct (H3 i Ha) as [?|[E|?]%elem_of_cons]; [by left|left; by apply Ho|by right].
  - intros i r Hr Hne. destruct (H4 i r Hr Hne) as [?|[E|?]%elem_of_cons]; [by left|left; by eapply Hd|by right].
  - intros i Hi. apply H5. by right.
  - destruct H6 as [[E|?]%elem_of_cons|?]; [right; by apply Hc|by left|by right].
Qed.

Lemma register_owner_keeps c i j : alive c j = true -> j ∈ co_owners c -> j ∈ co_owners (register_runtime_owner c i).
Proof.
  intros Ha Hj. cbn. assert (Hf : j ∈ filter (fun j => alive c j = true) (co_owners c)) by by apply list_elem_of_filter.
  case_bool_decide; [done|]. apply elem_of_app. by left.
Qed.
Lemma register_owner_adds c i : i ∈ co_owners (register_runtime_owner c i).
Proof. cbn. case_bool_decide; [done|]. apply elem_of_app. right. by apply list_elem_of_singleton. Qed.

Lemma do_task_inv busy c t todo : co_inv c -> co_todo c = t :: todo -> co_inv (with_todo (do_task busy t c) todo).
Proof.
  intros Hi Et. apply (co_inv_done _ t); destruct t as [i|i|i|i|]; cbn [do_task]; try done;
    try (unfold register_finalizer_owner; destruct (finalizer_of c i); [case_bool_decide|]; done).
  - unfold register_finalizer_owner. destruct (finalizer_of c i); [case_bool_decide; [done|]|done]. apply (co_inv_fades c); try done. apply fades_refl.
  - destruct Hi as [H1 H2 H3 H4 H5 H6]. assert (i = co_active c) as -> by (apply H5; rewrite Et; by left).
    split; try done. right. done.
  - apply (co_inv_fades c); try done; [apply fades_refl|]. intros j Ha Hj. by apply register_owner_keeps.
  - apply (co_inv_fades c); try done. apply drain_fades.
  - apply (co_inv_fades c); try done. apply fades_refl.
  - intros j [= <-] _. apply register_owner_adds.
  - intros j r [= <-] Hr _. cbn in Hr. rewrite list_lookup_alter, decide_True in Hr by done. by apply fmap_Some in Hr as (r0 & _ & ->).
  - intros [= ->]. done.
Qed.

Lemma foldl_drain_fades l c : fades (co_runtimes c) (co_runtimes (foldl drain c l)) /\
  foldl drain c l = with_runtimes c (co_runtimes (foldl drain c l)).
Proof.
  revert c. induction l as [|i l IH]; intros c; [split; [apply fades_refl|by destruct c]|]. destruct (IH (drain c i)) as [Hf E].
  split; [eapply fades_trans; [apply (drain_fades c i)|exact Hf]|exact E].
Qed.

Lemma co_move_inv c m : co_inv c -> co_inv (co_move c m).
Proof.
  intros Hi. destruct m as [i|i|e p|e p|busy|busy|]; cbn [co_move].
  - destruct (runtime_try_acquire c i) as [c'|] eqn:Ha; [|done]. destruct (acquire_fades _ _ _ Ha) as [Hf ->]. by apply (co_inv_fades c).
  - destruct (co_runtimes c !! i) as [r|] eqn:Hr; [|done]. destruct (Z.ltb_spec 0 (ar_active r)); [|done].
    apply (co_inv_fades c); try done. by eapply release_fades.
  - case_bool_decide as Ht; [|done]. unfold begin_activation. destruct (co_runtimes c !! co_active c) as [r|]; [|done].
    destruct (negb _); [done|]. by apply activation_publish_inv.
  - case_bool_decide as Ht; [|done]. unfold begin_reuse. destruct (co_runtimes c !! co_active c) as [r|]; [|done].
    destruct (negb _); [done|]. destruct (negb _); [done|]. by apply activation_publish_inv.
  - unfold next_task. destruct (co_todo c) as [|t todo] eqn:Et; [done|]. by apply do_task_inv.
  - apply (co_inv_fades c); try done; [apply fades_refl|]. intros i Ha Hin. cbn. by apply list_elem_of_filter.
  - unfold coordinator_drain. destruct (foldl_drain_fades (co_owners c) c) as [Hf ->]. by apply (co_inv_fades c).
Qed.
Lemma co_run_inv moves c : co_inv c -> co_inv (co_run moves c).
Proof. revert c. induction moves as [|m l IH]; intros c H; [done|]. apply (IH (co_move c m)). by apply co_move_inv. Qed.

(** ** Shutdown *)

Definition no_activation (m : CoMove) : bool := match m with CM_Activate _ _ | CM_Reuse _ _ => false | _ => true end.

Lemma co_move_fades c m : no_activation m = true -> fades (co_runtimes c) (co_runtimes (co_move c m)).
Proof.
  intros Hm. destruct m as [i|i|e p|e p|busy|busy|]; try done; cbn [co_move].
  - destruct (runtime_try_acquire c i) as [c'|] eqn:Ha; [|apply fades_refl]. by apply (acquire_fades _ i).
  - destruct (co_runtimes c !! i) as [r|] eqn:Hr; [|apply fades_refl]. destruct (Z.ltb_spec 0 (ar_active r)); [|apply fades_refl].
    by eapply release_fades.
  - unfold next_task. destruct (co_todo c) as [|t todo]; [apply fades_refl|]. destruct t as [i|i|i|i|]; cbn [do_task with_todo co_runtimes]; try apply fades_refl.
    + unfold register_finalizer_owner. destruct (finalizer_of c i); [case_bool_decide|]; apply fades_refl.
    + apply drain_fades.
  - apply fades_refl.
  - apply foldl_drain_fades.
Qed.
Lemma co_run_fades moves c : forallb no_activation moves = true -> fades (co_runtimes c) (co_runtimes (co_run moves c)).
Proof.
  revert c. induction moves as [|m l IH]; intros c H; [apply fades_refl|]. apply andb_true_iff in H as [Hm Hl].
  eapply fades_trans; [by apply co_move_fades|]. by apply (IH (co_move c m)).
Qed.

Lemma co_run_todo moves c : forallb no_activation moves = true -> co_todo c = [] -> co_todo (co_run moves c) = [].
Proof.
  revert c. induction moves as [|m l IH]; intros c H Ht; [done|]. apply andb_true_iff in H as [Hm Hl]. apply (IH (co_move c m) Hl).
  destruct m as [i|i|e p|e p|busy|busy|]; try done; cbn [co_move].
  - destruct (runtime_try_acquire c i) as [c'|] eqn:Ha; [|done]. by destruct (acquire_fades _ _ _ Ha) as [_ ->].
  - destruct (co_runtimes c !! i) as [r|]; [|done]. by destruct (0 <? ar_active r).
  - unfold next_task. by rewrite Ht.
  - unfold coordinator_drain. by rewrite (proj2 (foldl_drain_fades (co_owners c) c)).
Qed.

Lemma foldl_drain_drains l c i r : co_runtimes (foldl drain c l) !! i = Some r -> i ∈ l -> ar_draining r = true.
Proof.
  revert c. induction l as [|j l IH]; intros c Hr Hi; [by apply elem_of_nil in Hi|].
  apply elem_of_cons in Hi as [->|Hi]; [|by apply (IH (drain c j))]. cbn in Hr.
  destruct (fades_lookup _ _ _ _ (proj1 (foldl_drain_fades l (drain c j))) Hr) as (r0 & Hr0 & _ & Hd & _). apply Hd.
  cbn in Hr0. rewrite list_lookup_alter, decide_True in Hr0 by done. by apply fmap_Some in Hr0 as (r1 & _ & ->).
Qed.

(** After the drain of the coordinator every runtime drains. *)
Lemma coordinator_drain_all c i r : co_inv c -> co_todo c = [] -> co_runtimes (coordinator_drain c) !! i = Some r -> ar_draining r = true.
Proof.
  intros Hi Ht Hr. unfold coordinator_drain in Hr. destruct (decide (i ∈ co_owners c)) as [Hin|Hout]; [by eapply foldl_drain_drains|].
  destruct (fades_lookup _ _ _ _ (proj1 (foldl_drain_fades (co_owners c) c)) Hr) as (r0 & Hr0 & _ & Hd & _). apply Hd.
  destruct (ar_draining r0) eqn:E; [done|]. exfalso. destruct (ci_owned _ Hi i) as [?|Hx]; [|done|].
  - apply alive_spec. exists r0. split; [done|]. unfold alive_runtime. by rewrite E.
  - rewrite Ht in Hx. by apply elem_of_nil in Hx.
Qed.

(** C20: Whatever requests do between the steps of a replacement, the coordinator never loses a
    runtime: one that admits requests, or still has some, is in its register or is the
    one the replacement under way is about to register. When no replacement is under way,
    all but the active one drain and the core the others see is the active one's. So when
    the coordinator drains at shutdown and its runtimes have drained, no request is left
    in any runtime that was ever published, and none will be admitted. *)
Theorem runtimes_accounted moves p later :
  let c := co_run moves (runtime_coordinator_new p) in
  (forall i, alive c i = true -> i ∈ co_owners c \/ T_Owner i ∈ co_todo c) /\
  (co_todo c = [] ->
   (forall i r, co_runtimes c !! i = Some r -> i <> co_active c -> ar_draining r = true) /\
   (exists r, co_runtimes c !! co_active c = Some r /\ co_core c = if has_core (ar_prepared r) then Some (co_active c) else None) /\
   (forallb no_activation later = true ->
    let c' := co_run later (coordinator_drain c) in
    drained c' = true -> forall i r, co_runtimes c' !! i = Some r -> ar_draining r = true /\ ar_active r = 0)).
Proof.
  intros c. assert (Hi : co_inv c) by apply co_run_inv, runtime_coordinator_new_inv. split; [apply Hi|]. intros Ht. split; [|split].
  - intros i r Hr Hne. destruct (ci_retired _ Hi i r Hr Hne) as [?|Hx]; [done|]. rewrite Ht in Hx. by apply elem_of_nil in Hx.
  - destruct (lookup_lt_is_Some_2 (co_runtimes c) (co_active c) (ci_active _ Hi)) as [r Hr]. exists r. split; [done|].
    destruct (ci_core _ Hi) as [Hx|Hx]; [rewrite Ht in Hx; by apply elem_of_nil in Hx|]. by rewrite Hr in Hx.
  - intros Hl c' Hd i r' Hr'. pose proof (co_move_inv c CM_Drain Hi) as Hi1. cbn [co_move] in Hi1.
    assert (Ht1 : co_todo (coordinator_drain c) = []) by exact (co_run_todo [CM_Drain] c eq_refl Ht).
    assert (Hi' : co_inv c') by by apply co_run_inv. assert (Ht' : co_todo c' = []) by by apply co_run_todo.
    destruct (fades_lookup _ _ _ _ (co_run_fades later _ Hl) Hr') as (r1 & Hr1 & _ & Hdr & _).
    assert (Hdr' : ar_draining r' = true) by (apply Hdr; exact (coordinator_drain_all c i r1 Hi Ht Hr1)). split; [done|].
    pose proof (Forall_lookup_1 _ _ _ _ (ci_counted _ Hi') Hr') as [Hc _]. destruct (decide (i ∈ co_owners c')) as [Hin|Hout].
    + unfold drained in Hd. rewrite forallb_forall in Hd. specialize (Hd i). rewrite Hr' in Hd. apply Z.eqb_eq, Hd. by apply list_elem_of_In.
    + destruct (Z.eq_dec (ar_active r') 0) as [?|Hne]; [done|]. exfalso. destruct (ci_owned _ Hi' i) as [?|Hx]; [|done|].
      * apply alive_spec. exists r'. split; [done|]. unfold alive_runtime. rewrite Hdr'. apply Z.ltb_lt. lia.
      * rewrite Ht' in Hx. by apply elem_of_nil in Hx.
Qed.

End Coordinator.

(** ** Examples *)

Module CoordinatorExamples.

(** Prepared runtimes are their revisions; odd ones have no core. *)
Abbreviation sample_run := (co_run (Prepared := Z) (BindPlan := unit) (Finalizer := Z) id (fun _ => tt) (fun r => Some r) Z.even (fun c _ => c)).
Definition idle : Z -> bool := fun _ => false.

(** A request holds the first runtime over two replacements, between whose steps another
    request is admitted to the second; at shutdown both are waited for. *)
Definition busy_reload : list (CoMove (Prepared := Z) (Finalizer := Z)) :=
  [CM_Acquire 0; CM_Activate 2 4; CM_Task idle; CM_Task idle; CM_Acquire 1; CM_Task idle; CM_Task idle; CM_Task idle; CM_Task idle;
   CM_Activate 4 6; CM_Task idle; CM_Task idle; CM_Task idle; CM_Task idle; CM_Task idle; CM_Task idle].
Definition wind_down : list (CoMove (Prepared := Z) (Finalizer := Z)) := [CM_Acquire 2; CM_Release 0; CM_Prune idle; CM_Release 1].

Lemma runtimes_accounted_witness :
  let c := sample_run busy_reload (runtime_coordinator_new (fun r => Some r) Z.even 2) in
  co_owners c = [0; 1; 2]%nat /\ co_core c = Some 2%nat /\
  let c' := sample_run wind_down (coordinator_drain c) in
  co_owners c' = [1]%nat /\ forall i r, co_runtimes c' !! i = Some r -> ar_draining r = true /\ ar_active r = 0.
Proof.
  destruct (runtimes_accounted (Prepared := Z) (BindPlan := unit) (Finalizer := Z) id (fun _ => tt) (fun r => Some r) Z.even (fun c _ => c)
    busy_reload 2 wind_down) as (_ & H).
  split; [vm_compute; reflexivity|]. split; [vm_compute; reflexivity|]. split; [vm_compute; reflexivity|].
  destruct H as (_ & _ & H); [vm_compute; reflexivity|]. apply H; [reflexivity|vm_compute; reflexivity].
Defined.

End CoordinatorExamples.
