(* ===== verification/DohSession.v ===== *)
(** * Connections of the DoH listener (src/backend/src/transport/doh.rs, src/backend/src/service.rs)

    [DohSession::receive], which turns the bytes of a connection into requests - the
    PROXY header, the start of TLS, the requests and their limits - and
    [run_doh_connection], the task that serves a connection. The sockets are those of
    runtime/system_socket.rs. TLS is an argument: what the rest of the connection says once it has
    started. So are the answers of the core. Retirement of the runtime, cancellation,
    deadlines and admission are inputs of each turn of the task. *)

From S2P Require Import Prelude Admission Message CacheModel Text DohRoute Net Client Resolve Inbound Wire Socks5 Outbound Bootstrap DohClient ClientIp DohServer.

Definition DOH_READ_CHUNK_BYTES : nat := N.to_nat 8192.

(** [SystemTcpConnection::read_chunk]: some of the bytes that have arrived, at most
    [max_bytes]; [None] is the end of the stream. *)
Definition read_chunk (max_bytes : nat) (s : Stream) : result PortError (option (list byte)) * Stream :=
  if (max_bytes =? 0)%nat then (Err (port_error PE_InvalidInput "system_socket.tcp_read_chunk"), s)
  else match s with
  | [] => (Ok None, [])
  | ReadError e :: rest => (Err e, rest)
  | Data [] :: rest => (Ok None, rest)
  | Data bytes :: rest =>
    if (length bytes <=? max_bytes)%nat then (Ok (Some bytes), rest)
    else (Ok (Some (take max_bytes bytes)), Data (drop max_bytes bytes) :: rest)
  end.

(** ** Routes *)

Inductive DohRouteError := RE_InvalidPath | RE_InvalidPlaceholder | RE_EmptyStrategy.
Record DohRoutePattern := mk_doh_route { dr_path : DohPathPattern; dr_strategy : chars }.
Record DohRouteMatch := mk_route_match { rm_template : chars; rm_strategy : chars; rm_client_id : option chars }.

Definition doh_route_new (template strategy : chars) : result DohRouteError DohRoutePattern :=
  path ← map_err (fun e => match e with InvalidPath => RE_InvalidPath | InvalidPlaceholder => RE_InvalidPlaceholder end)
           (pattern_new template);
  if bool_decide (trim strategy = []) then Err RE_EmptyStrategy else Ok (mk_doh_route path strategy).
Definition doh_route_matches (path : chars) (r : DohRoutePattern) : option DohRouteMatch :=
  client_id ← pattern_matches (dr_path r) path; Some (mk_route_match (template (dr_path r)) (dr_strategy r) client_id).
(** [find_map] over the routes of the listener. *)
Fixpoint match_route (routes : list DohRoutePattern) (path : chars) : option DohRouteMatch :=
  match routes with
  | [] => None
  | r :: rest => match doh_route_matches path r with Some m => Some m | None => match_route rest path end
  end.

Section DohSession.
Context (Url_parse : chars -> option Url) {HH : Hickory} {IN : IpNetOps}.
(** What can be read once TLS has started on a connection. *)
Context (start_tls : Stream -> result PortError Stream).

(** ** The adapter *)

Inductive DohAdapterError := AE_InvalidTimeout | AE_InvalidTransportClass | AE_InvalidRoute (e : DohRouteError).
Record DohAdapter := mk_doh_adapter {
  da_routes : list DohRoutePattern;
  da_client_ip : DohClientIpPolicy;
  da_tls : bool
}.
(** [new_with_tls]; [multiplexed] is the class of the transport. *)
Definition doh_adapter_new (routes : list DohRoutePattern) (multiplexed : bool) (request_timeout : Duration)
    (client_ip : DohClientIpPolicy) (tls : bool) : result DohAdapterError DohAdapter :=
  if is_zero request_timeout then Err AE_InvalidTimeout
  else if negb multiplexed then Err AE_InvalidTransportClass
  else if bool_decide (routes = []) then Err (AE_InvalidRoute RE_InvalidPath)
  else Ok (mk_doh_adapter routes client_ip tls).

(** ** Sessions *)

Record DohRequest := mk_doh_inbound {
  di_query : CanonicalQuery;
  di_dns_id : Z;
  di_stream_id : Z;
  di_request_id : Z;
  di_route : DohRouteMatch;
  di_client_addr : IpAddr;
  di_close : bool
}.
Inductive DohSessionEvent := SE_Request (r : DohRequest) | SE_HttpError (e : DohHttpError) (close : bool) | SE_CleanEof.

Record DohSession := mk_doh_session {
  ds_conn : Conn;
  ds_buffer : list byte;
  ds_stream_id : Z;
  ds_request_ids : Z;
  ds_tls_started : bool;
  ds_proxy_client : option IpAddr;
  ds_proxy_header_done : bool;
  ds_pending_close : bool
}.

Context (a : DohAdapter) (peer : SocketAddr).

(** The session of [accept_session]. *)
Definition session_new (c : Conn) (request_ids : Z) : DohSession :=
  mk_doh_session c [] 0 request_ids false None (negb (bool_decide (ip_source (da_client_ip a) = CIS_ProxyProtocol))) false.

Definition with_stream (s : DohSession) (st : Stream) : DohSession :=
  mk_doh_session (mk_conn st (co_out (ds_conn s)) (co_writes (ds_conn s))) (ds_buffer s) (ds_stream_id s) (ds_request_ids s)
    (ds_tls_started s) (ds_proxy_client s) (ds_proxy_header_done s) (ds_pending_close s).
Definition with_buffer (s : DohSession) (b : list byte) : DohSession :=
  mk_doh_session (ds_conn s) b (ds_stream_id s) (ds_request_ids s)
    (ds_tls_started s) (ds_proxy_client s) (ds_proxy_header_done s) (ds_pending_close s).
Definition set_pending (s : DohSession) (close : bool) : DohSession :=
  mk_doh_session (ds_conn s) (ds_buffer s) (ds_stream_id s) (ds_request_ids s)
    (ds_tls_started s) (ds_proxy_client s) (ds_proxy_header_done s) close.
Definition set_tls_started (s : DohSession) : DohSession :=
  mk_doh_session (ds_conn s) (ds_buffer s) (ds_stream_id s) (ds_request_ids s)
    true (ds_proxy_client s) (ds_proxy_header_done s) (ds_pending_close s).
Definition set_proxy_client (s : DohSession) (client : IpAddr) : DohSession :=
  mk_doh_session (ds_conn s) (ds_buffer s) (ds_stream_id s) (ds_request_ids s)
    (ds_tls_started s) (Some client) true (ds_pending_close s).
Definition next_ids (s : DohSession) : DohSession :=
  mk_doh_session (ds_conn s) (ds_buffer s) (Z.max (wrap64 (ds_stream_id s + 1)) 1) (wrap64 (ds_request_ids s + 1))
    (ds_tls_started s) (ds_proxy_client s) (ds_proxy_header_done s) (ds_pending_close s).

(** The outcome of a turn of the loop: [None] goes on. *)
Abbreviation Turn := (option (result PortError DohSessionEvent) * DohSession)%type.
(** [read_buffer.clear()], [pending_close = true] and an error that closes. *)
Definition refuse (s : DohSession) (e : DohHttpError) : Turn :=
  (Some (Ok (SE_HttpError e true)), set_pending (with_buffer s []) true).

(** The turn while the PROXY header is awaited. *)
Definition proxy_turn (s : DohSession) : Turn :=
  match parse_proxy_header (ds_buffer s) with
  | Some (PH_Complete consumed client) => (None, set_proxy_client (with_buffer s (drop consumed (ds_buffer s))) client)
  | Some PH_Incomplete =>
    if MAX_PROXY_V2_BYTES <=? bytes_len (ds_buffer s) then refuse s DH_Malformed
    else match read_chunk 1 (co_in (ds_conn s)) with
    | (Err e, st) => (Some (Err e), with_stream s st)
    | (Ok (Some bytes), st) =>
      let s := with_stream s st in
      if negb (bool_decide (bytes = [])) && (length bytes <=? DOH_READ_CHUNK_BYTES)%nat &&
         (bytes_len (ds_buffer s) + bytes_len bytes <=? MAX_PROXY_V2_BYTES)
      then (None, with_buffer s (ds_buffer s ++ bytes)) else refuse s DH_Malformed
    | (Ok None, st) => refuse (with_stream s st) DH_Malformed
    end
  | None => refuse s DH_Malformed
  end.

(** What becomes of a parsed request, whose bytes are no longer in the buffer. *)
Definition handle_parsed (s : DohSession) (p : ParsedDohRequest) : DohSessionEvent * DohSession :=
  match match_route (da_routes a) (dp_path p) with
  | None => (SE_HttpError DH_NotFound (dp_connection_close p), set_pending s (dp_connection_close p))
  | Some route =>
    match resolve_client_ip (da_client_ip a) peer (dp_forwarded_headers p) (ds_proxy_client s) with
    | Err _ => (SE_HttpError DH_Malformed true, set_pending s true)
    | Ok client_addr =>
      let s := next_ids (set_pending s (dp_connection_close p)) in
      (SE_Request (mk_doh_inbound (pq_query (dp_query p)) (pq_id (dp_query p)) (ds_stream_id s) (ds_request_ids s) route client_addr
         (dp_connection_close p)), s)
    end
  end.

(** The turn while a request is awaited. *)
Definition request_turn (s : DohSession) : Turn :=
  match try_parse_request Url_parse (ds_buffer s) with
  | Ok (Some p) =>
    let '(event, s) := handle_parsed (with_buffer s (drop (dp_consumed_bytes p) (ds_buffer s))) p in (Some (Ok event), s)
  | Ok None =>
    if MAX_DOH_BUFFER_BYTES <=? bytes_len (ds_buffer s) then refuse s DH_PayloadTooLarge
    else match read_chunk DOH_READ_CHUNK_BYTES (co_in (ds_conn s)) with
    | (Err e, st) => (Some (Err e), with_stream s st)
    | (Ok (Some bytes), st) =>
      let s := with_stream s st in
      if bool_decide (bytes = []) || (DOH_READ_CHUNK_BYTES <? length bytes)%nat ||
         (MAX_DOH_BUFFER_BYTES <? bytes_len (ds_buffer s) + bytes_len bytes)
      then refuse s DH_PayloadTooLarge
      else (None, with_buffer s (ds_buffer s ++ bytes))
    | (Ok None, st) =>
      let s := with_stream s st in
      if bool_decide (ds_buffer s = []) then (Some (Ok SE_CleanEof), s)
      else (Some (Err (port_error PE_ProtocolViolation "transport.doh.eof")), s)
    end
  | Err e => refuse s e
  end.

(** The body of the loop of [receive]. *)
Definition receive_turn (s : DohSession) : Turn :=
  if negb (peer_is_trusted (da_client_ip a) peer.1) then refuse s DH_Malformed
  else if negb (ds_tls_started s) && ds_proxy_header_done s && da_tls a then
    match start_tls (co_in (ds_conn s)) with
    | Err e => (Some (Err e), s)
    | Ok st => (None, set_tls_started (with_stream s st))
    end
  else if negb (ds_proxy_header_done s) then proxy_turn s
  else request_turn s.

(** The loop; [None] is lack of fuel. *)
Fixpoint receive_loop (fuel : nat) (s : DohSession) : option (result PortError DohSessionEvent * DohSession) :=
  match fuel with
  | O => None
  | S fuel =>
    match receive_turn s with
    | (Some r, s) => Some (r, s)
    | (None, s) => receive_loop fuel s
    end
  end.
Definition doh_receive (fuel : nat) (cancelled : bool) (s : DohSession) : option (result PortError DohSessionEvent * DohSession) :=
  if cancelled then Some (Err (port_error (PE_Cancelled CR_Shutdown) "transport.doh.receive"), s) else receive_loop fuel s.

Definition on_conn (f : Conn -> result PortError unit * Conn) (s : DohSession) : result PortError unit * DohSession :=
  let '(res, c) := f (ds_conn s) in
  (res, mk_doh_session c (ds_buffer s) (ds_stream_id s) (ds_request_ids s)
          (ds_tls_started s) (ds_proxy_client s) (ds_proxy_header_done s) (ds_pending_close s)).
Definition write_http_error (e : DohHttpError) (close : bool) : DohSession -> result PortError unit * DohSession :=
  on_conn (conn_write (encode_http_error_with_close e (close || error_should_close e))).
Definition session_close (s : DohSession) : DohSession := (on_conn conn_shutdown s).2.

(** ** The task of a connection (service.rs) *)

Inductive TaskError := TE_Transient | TE_Fatal | TE_Cancelled | TE_Panicked.
(** How the wait for the core ends. A write that the deadline or a shutdown cuts off is
    not shown: the connection is closed then. *)
Inductive DispatchWait := DW_Deadline | DW_Cancelled | DW_Done (now : Instant).

Record DohTurn := mk_doh_turn {
  tn_retired : bool;
  tn_cancelled : bool;
  tn_received_at : Instant;
  tn_admission : option AdmissionError;
  tn_dispatch : DispatchWait
}.

Context (core : DohRequest -> result CoreError CoreOutcome).

(** [is_cancelled_error] *)
Definition is_cancelled_error (e : PortError) (cancelled : bool) : bool :=
  cancelled || match pe_class e with PE_Cancelled _ => true | _ => false end.

(** [DohResponseEncoder::encode] on the connection. *)
Definition encode_on (r : DohRequest) (response : CanonicalResponse) (s : DohSession) : result PortError unit * DohSession :=
  match doh_encode (di_close r) (Some (di_dns_id r)) response with
  | Err e => (Err e, s)
  | Ok payload => on_conn (conn_write payload) s
  end.

(** [dispatch_inbound] of a request; the connection is what the encoder, if it was
    entered, leaves. *)
Definition dispatch_on (r : DohRequest) (received_at now : Instant) (s : DohSession) :
    result DispatchError DispatchOutcome * DohSession :=
  let '(res, h) := dispatch_inbound (core r) (fun response => (encode_on r response s).1) now (handle_new (di_query r) received_at) in
  (res, match hd_entered h with response :: _ => (encode_on r response s).2 | [] => s end).

Fixpoint run_doh_connection (fuel : nat) (turns : list DohTurn) (s : DohSession) : option (result TaskError unit) * DohSession :=
  match turns with
  | [] => (None, s)
  | t :: turns =>
    let ended cancelled s := (Some (if cancelled : bool then Err TE_Cancelled else Ok tt), session_close s) in
    if tn_retired t then ended false s
    else match doh_receive fuel (tn_cancelled t) s with
    | None => (None, s)
    | Some (Err e, s) => ended (is_cancelled_error e (tn_cancelled t)) s
    | Some (Ok SE_CleanEof, s) => ended (tn_cancelled t) s
    | Some (Ok (SE_HttpError e close), s) =>
      match write_http_error e close s with
      | (Err w, s) => ended (is_cancelled_error w (tn_cancelled t)) s
      | (Ok _, s) => if close then ended false s else run_doh_connection fuel turns s
      end
    | Some (Ok (SE_Request r), s) =>
      let close_after_response := ds_pending_close s in
      match tn_admission t with
      | Some _ => ended false s
      | None =>
        match tn_dispatch t with
        | DW_Deadline => ended false s
        | DW_Cancelled => ended true s
        | DW_Done now =>
          match dispatch_on r (tn_received_at t) now s with
          | (Err _, s) => ended (tn_cancelled t) s
          | (Ok _, s) => if close_after_response then ended false s else run_doh_connection fuel turns s
          end
        end
      end
    end
  end.

(** ** Receiving ends *)

(** The bytes and pieces still to be read. *)
Fixpoint stream_size (st : Stream) : nat :=
  match st with
  | [] => 0
  | Data b :: st => S (length b + stream_size st)
  | ReadError _ :: st => S (stream_size st)
  end.

Lemma read_chunk_smaller max st b st' : read_chunk max st = (Ok (Some b), st') -> (stream_size st' < stream_size st)%nat.
Proof.
  unfold read_chunk. destruct max as [|m]; [done|]. cbn [Nat.eqb]. destruct st as [|[[|x bytes]|e] st]; try done.
  destruct (Nat.leb_spec (length (x :: bytes)) (S m)); intros [= <- <-]; cbn [stream_size length drop]; rewrite ?length_drop; lia.
Qed.

Definition receives (s : DohSession) (r : result PortError DohSessionEvent) (s' : DohSession) : Prop :=
  exists n, forall fuel, (n <= fuel)%nat -> receive_loop fuel s = Some (r, s').

Lemma receives_done s r s' : receive_turn s = (Some r, s') -> receives s r s'.
Proof. intros H. exists 1%nat. intros [|fuel] Hf; [lia|]. cbn [receive_loop]. by rewrite H. Qed.
Lemma receives_turn s s1 r s' : receive_turn s = (None, s1) -> receives s1 r s' -> receives s r s'.
Proof. intros H [n Hn]. exists (S n). intros [|fuel] Hf; [lia|]. cbn [receive_loop]. rewrite H. apply Hn. lia. Qed.

(** What the loop still has to do before it has read everything. *)
Definition work (s : DohSession) : nat := (2 * stream_size (co_in (ds_conn s)) + if ds_proxy_header_done s then 0 else 1)%nat.
Definition tls_pending (s : DohSession) : bool := negb (ds_tls_started s) && da_tls a.

Lemma turn_progress s s1 : receive_turn s = (None, s1) ->
  (tls_pending s = true /\ tls_pending s1 = false) \/ (tls_pending s1 = tls_pending s /\ (work s1 < work s)%nat).
Proof.
  unfold receive_turn, tls_pending. destruct (negb (peer_is_trusted _ _)); [done|].
  destruct (negb (ds_tls_started s) && ds_proxy_header_done s && da_tls a) eqn:Ht.
  - destruct (start_tls _); [|done]. intros [= <-]. left. cbn. apply andb_true_iff in Ht as [[-> _]%andb_true_iff ->]. done.
  - destruct (ds_proxy_header_done s) eqn:Hp; cbn [negb].
    + unfold request_turn. destruct (try_parse_request _ _) as [[p|]|e]; [by destruct (handle_parsed _ _)| |done].
      destruct (_ <=? _); [done|]. destruct (read_chunk _ _) as [[[b|]|e] st] eqn:Hr; [| |done].
      * apply read_chunk_smaller in Hr. destruct (_ || _); [done|]. intros [= <-]. right. unfold work. cbn. rewrite Hp. split; [done|lia].
      * cbn. by case_bool_decide.
    + unfold proxy_turn. destruct (parse_proxy_header _) as [[|n c]|]; [| |done].
      * destruct (_ <=? _); [done|]. destruct (read_chunk _ _) as [[[b|]|e] st] eqn:Hr; [|done|done].
        apply read_chunk_smaller in Hr. cbv zeta. destruct (negb (bool_decide (b = [])) && _ && _); [|done]. intros [= <-]. right. unfold work. cbn. rewrite Hp. split; [done|lia].
      * intros [= <-]. right. unfold work. cbn. rewrite Hp. split; [done|lia].
Qed.

(** C33: Whatever a peer sends, however it is cut and however the connection ends, and
    whatever TLS makes of it, [receive] comes to an event or an error: every turn of its
    loop that goes on has started TLS, taken the PROXY header or read something. *)
Theorem doh_receive_returns s : exists r s', receives s r s'.
Proof.
  enough (H : forall k m s, (if tls_pending s then 1 else 0)%nat = k -> work s = m -> exists r s', receives s r s') by (eapply H; reflexivity).
  induction k as [k IHk] using lt_wf_ind. induction m as [m IHm] using lt_wf_ind. intros s0 Hk Hm.
  destruct (receive_turn s0) as [[r|] s1] eqn:Ht; [exists r, s1; by apply receives_done|].
  destruct (turn_progress _ _ Ht) as [[H0 H1]|[H0 H1]].
  - destruct (IHk 0%nat) with (m := work s1) (s := s1) as (r & s' & H); [rewrite H0 in Hk; lia|by rewrite H1|done|].
    exists r, s'. by eapply receives_turn.
  - destruct (IHm (work s1)) with (s := s1) as (r & s' & H); [lia|by rewrite H0|done|]. exists r, s'. by eapply receives_turn.
Qed.

(** ** Requests in order *)

Lemma read_chunk_data max st :
  (0 < max)%nat -> delivers st -> bytes_of st <> [] ->
  exists b st', read_chunk max st = (Ok (Some b), st') /\ b <> [] /\ (length b <= max)%nat /\ delivers st' /\
    bytes_of st = b ++ bytes_of st'.
Proof.
  intros Hm Hd Hb. unfold read_chunk. destruct (Nat.eqb_spec max 0); [lia|]. destruct Hd as [|c st (b & -> & Hne) Hd]; [done|].
  rewrite bytes_of_cons. destruct b as [|x b]; [done|]. destruct (Nat.leb_spec (length (x :: b)) max) as [Hl|Hl].
  - exists (x :: b), st. done.
  - exists (take max (x :: b)), (Data (drop max (x :: b)) :: st). split; [done|].
    split; [intros E%(f_equal length); rewrite length_take in E; cbn [length] in *; lia|]. split; [rewrite length_take; lia|].
    rewrite bytes_of_cons, app_assoc, take_drop. split; [|done]. constructor; [|done]. eexists. split; [done|].
    intros E%(f_equal length). rewrite length_drop in E. cbn [length] in *. lia.
Qed.
Lemma read_chunk_end max st : (0 < max)%nat -> delivers st -> bytes_of st = [] -> read_chunk max st = (Ok None, []).
Proof.
  intros Hm Hd Hb. unfold read_chunk. destruct (Nat.eqb_spec max 0); [lia|]. destruct Hd as [|c st (b & -> & Hne) Hd]; [done|].
  rewrite bytes_of_cons in Hb. by apply app_nil in Hb as [? _].
Qed.

(** A connection that awaits requests, with [bytes] to come. *)
Record awaiting (s : DohSession) (bytes : list byte) : Prop := {
  aw_trusted : peer_is_trusted (da_client_ip a) peer.1 = true;
  aw_tls : tls_pending s = false;
  aw_proxy : ds_proxy_header_done s = true;
  aw_delivers : delivers (co_in (ds_conn s));
  aw_bytes : ds_buffer s ++ bytes_of (co_in (ds_conn s)) = bytes
}.

Lemma awaiting_turn s bytes : awaiting s bytes -> receive_turn s = request_turn s.
Proof.
  intros [Ht Hl Hp _ _]. unfold receive_turn. rewrite Ht, Hp. unfold tls_pending in Hl. rewrite andb_true_r, Hl. done.
Qed.

(** A request as a client sends it: its bytes are one request and no more, and it stays a
    read below the limit of the buffer. *)
Definition whole_request (w : list byte) (p : ParsedDohRequest) : Prop :=
  try_parse_request Url_parse w = Ok (Some p) /\ dp_consumed_bytes p = length w /\
  Z.of_nat (length w + DOH_READ_CHUNK_BYTES) <= MAX_DOH_BUFFER_BYTES.

(** The session when a request is handed over: nothing of it but the bytes that follow is
    left. *)
Definition at_request (s s1 : DohSession) : Prop :=
  co_out (ds_conn s1) = co_out (ds_conn s) /\ co_writes (ds_conn s1) = co_writes (ds_conn s) /\
  ds_stream_id s1 = ds_stream_id s /\ ds_request_ids s1 = ds_request_ids s /\ ds_proxy_client s1 = ds_proxy_client s.

Lemma receives_request s w p rest :
  whole_request w p -> awaiting s (w ++ rest) ->
  exists s1, awaiting s1 rest /\ at_request s s1 /\ receives s (Ok (handle_parsed s1 p).1) (handle_parsed s1 p).2.
Proof.
  intros (Hp & Hn & Hmax). remember (stream_size (co_in (ds_conn s))) as m eqn:Hm. revert s Hm.
  induction m as [m IH] using lt_wf_ind. intros s Hm Ha. pose proof (awaiting_turn _ _ Ha) as Ht. unfold request_turn in Ht.
  destruct Ha as [Htr Htls Hpr Hd Hb]. destruct (request_framing Url_parse w p Hp) as (_ & Hpre & Hext). rewrite Hn in *.
  rewrite take_ge in Hext by lia. destruct (Nat.le_gt_cases (length w) (length (ds_buffer s))) as [Hge|Hlt].
  - assert (Eb : ds_buffer s = w ++ drop (length w) (ds_buffer s)).
    { rewrite <-(take_drop (length w) (ds_buffer s)) at 1. f_equal. apply (f_equal (take (length w))) in Hb.
      by rewrite take_app_le, take_app_length in Hb. }
    rewrite Eb, Hext, <-Eb, Hn in Ht. exists (with_buffer s (drop (length w) (ds_buffer s))). split; [|split; [done|]].
    + split; try done. cbn. apply (f_equal (drop (length w))) in Hb. by rewrite drop_app_le, drop_app_length in Hb by done.
    + apply receives_done. rewrite Ht. by destruct (handle_parsed _ p).
  - assert (Eb : ds_buffer s = take (length (ds_buffer s)) w).
    { apply (f_equal (take (length (ds_buffer s)))) in Hb. by rewrite take_app_length, take_app_le in Hb by lia. }
    rewrite Eb, Hpre, <-Eb in Ht by done. unfold bytes_len in Ht. destruct (Z.leb_spec MAX_DOH_BUFFER_BYTES (Z.of_nat (length (ds_buffer s)))); [lia|].
    destruct (read_chunk_data DOH_READ_CHUNK_BYTES (co_in (ds_conn s))) as (b & st & Hr & Hne & Hlen & Hd' & Hb').
    { unfold DOH_READ_CHUNK_BYTES. lia. } { done. }
    { intros E. rewrite E, app_nil_r in Hb. rewrite Hb, length_app in Hlt. lia. }
    rewrite Hr in Ht. cbv zeta in Ht. rewrite bool_decide_eq_false_2 in Ht by done. cbn [with_stream ds_buffer] in Ht.
    rewrite (proj2 (Nat.ltb_ge _ _) Hlen) in Ht. cbn [orb] in Ht.
    destruct (Z.ltb_spec MAX_DOH_BUFFER_BYTES (Z.of_nat (length (ds_buffer s)) + Z.of_nat (length b))); [lia|].
    apply read_chunk_smaller in Hr. destruct (IH (stream_size st)) with (s := with_buffer (with_stream s st) (ds_buffer s ++ b)) as (s1 & H1 & H2 & H3);
      [lia|done|split; try done; cbn [ds_buffer ds_conn co_in with_buffer with_stream]; by rewrite <-app_assoc, <-Hb'|].
    exists s1. split; [done|]. split; [done|]. by eapply receives_turn.
Qed.

Lemma receives_eof s : awaiting s [] -> exists s', receives s (Ok SE_CleanEof) s' /\ co_out (ds_conn s') = co_out (ds_conn s).
Proof.
  intros Ha. pose proof (awaiting_turn _ _ Ha) as Ht. destruct Ha as [_ _ _ Hd Hb]. apply app_nil in Hb as [Hb0 Hb].
  unfold request_turn in Ht. rewrite Hb0 in Ht.
  change (try_parse_request Url_parse []) with (@Ok DohHttpError (option ParsedDohRequest) None) in Ht.
  rewrite read_chunk_end in Ht by (done || (unfold DOH_READ_CHUNK_BYTES; lia)). cbn [with_stream ds_buffer] in Ht. rewrite Hb0 in Ht.
  exists (with_stream s []). split; [apply receives_done; exact Ht|done].
Qed.

(** ** The start of a connection *)

Definition leads_to (s s1 : DohSession) : Prop := forall r s', receives s1 r s' -> receives s r s'.

(** The PROXY header is taken, and not a byte more. *)
Lemma takes_proxy_header hdr client rest s :
  peer_is_trusted (da_client_ip a) peer.1 = true -> parse_proxy_header hdr = Some (PH_Complete (length hdr) client) ->
  ds_proxy_header_done s = false -> delivers (co_in (ds_conn s)) -> (length (ds_buffer s) <= length hdr)%nat ->
  ds_buffer s ++ bytes_of (co_in (ds_conn s)) = hdr ++ rest ->
  exists st, leads_to s (set_proxy_client (with_buffer (with_stream s st) []) client) /\ delivers st /\ bytes_of st = rest.
Proof.
  intros Htr Hparse. destruct (proxy_header_framing hdr (length hdr) client Hparse) as (_ & Hmax & Hpre & _).
  remember (length hdr - length (ds_buffer s))%nat as m eqn:Hm. revert s Hm. induction m as [|m IH]; intros s Hm Hpr Hd Hle Hb;
    (assert (Ht : receive_turn s = proxy_turn s) by (unfold receive_turn; rewrite Htr, Hpr, andb_false_r; done)); unfold proxy_turn in Ht.
  - assert (Eb : ds_buffer s = hdr).
    { apply (f_equal (take (length hdr))) in Hb. by rewrite take_app_length, take_app_le, take_ge in Hb by lia. }
    rewrite Eb, Hparse, drop_all in Ht. exists (co_in (ds_conn s)). split; [|split; [done|rewrite Eb in Hb; by apply app_inv_head in Hb]].
    intros r s' Hr. eapply receives_turn; [exact Ht|]. destruct s as [[] ? ? ? ? ? ? ?]. exact Hr.
  - assert (Eb : ds_buffer s = take (length (ds_buffer s)) hdr).
    { apply (f_equal (take (length (ds_buffer s)))) in Hb. by rewrite take_app_length, take_app_le in Hb by lia. }
    rewrite Eb, Hpre, <-Eb in Ht by lia. unfold bytes_len in Ht.
    destruct (Z.leb_spec MAX_PROXY_V2_BYTES (Z.of_nat (length (ds_buffer s)))); [lia|].
    destruct (read_chunk_data 1 (co_in (ds_conn s))) as (b & st & Hr & Hne & Hlen & Hd' & Hb'); [lia|done| |].
    { intros E. rewrite E, app_nil_r in Hb. apply (f_equal length) in Hb. rewrite length_app in Hb. lia. }
    assert (Hb1 : length b = 1%nat) by (destruct b; [done|cbn in *; lia]).
    rewrite Hr, (bool_decide_eq_false_2 (b = [])), Hb1 in Ht by done. cbv zeta in Ht. cbn [with_stream ds_buffer negb andb] in Ht.
    change (1 <=? DOH_READ_CHUNK_BYTES)%nat with true in Ht.
    destruct (Z.leb_spec (Z.of_nat (length (ds_buffer s)) + Z.of_nat 1) MAX_PROXY_V2_BYTES) as [_|]; [|lia]. cbn [andb] in Ht.
    destruct (IH (with_buffer (with_stream s st) (ds_buffer s ++ b))) as (st' & Hl & Hst);
      cbn [ds_buffer ds_conn co_in with_buffer with_stream ds_proxy_header_done]; rewrite ?length_app, ?Hb1; try done; try lia.
    { by rewrite <-app_assoc, <-Hb'. }
    exists st'. split; [|done]. intros r s' H1. eapply receives_turn; [exact Ht|]. by apply Hl.
Qed.

(** What the stream of a new connection says: the client its PROXY header names, if there
    is to be one, and the bytes of the requests, behind TLS when the endpoint ends it. *)
Definition connection_says (st : Stream) (proxy : option IpAddr) (plain : list byte) : Prop :=
  exists hdr tail, delivers st /\ bytes_of st = hdr ++ tail /\
  (if bool_decide (ip_source (da_client_ip a) = CIS_ProxyProtocol)
   then exists client, proxy = Some client /\ parse_proxy_header hdr = Some (PH_Complete (length hdr) client)
   else hdr = [] /\ proxy = None) /\
  (if da_tls a
   then forall st, delivers st -> bytes_of st = tail -> exists st', start_tls st = Ok st' /\ delivers st' /\ bytes_of st' = plain
   else tail = plain).

Lemma tls_starts s tail plain :
  peer_is_trusted (da_client_ip a) peer.1 = true -> ds_proxy_header_done s = true -> ds_tls_started s = false -> ds_buffer s = [] ->
  delivers (co_in (ds_conn s)) -> bytes_of (co_in (ds_conn s)) = tail ->
  (if da_tls a
   then forall st, delivers st -> bytes_of st = tail -> exists st', start_tls st = Ok st' /\ delivers st' /\ bytes_of st' = plain
   else tail = plain) ->
  exists s1, awaiting s1 plain /\ at_request s s1 /\ leads_to s s1.
Proof.
  intros Htr Hpr Htls Hbuf Hd Hb Hs. destruct (da_tls a) eqn:Ha.
  - destruct (Hs _ Hd Hb) as (st' & Hst & Hd' & Hb'). exists (set_tls_started (with_stream s st')). split.
    + split; try done; cbn; by rewrite ?Hbuf.
    + split; [done|]. intros r s' Hr. eapply receives_turn; [|exact Hr]. unfold receive_turn. rewrite Htr, Htls, Hpr, Ha. cbn [negb andb].
      by rewrite Hst.
  - exists s. split; [|split; [done|by intros r s']]. split; try done; [unfold tls_pending; by rewrite Ha, andb_false_r|by rewrite Hbuf, Hb].
Qed.

Lemma connection_starts c rid proxy plain :
  peer_is_trusted (da_client_ip a) peer.1 = true -> connection_says (co_in c) proxy plain ->
  exists s1, awaiting s1 plain /\ leads_to (session_new c rid) s1 /\ co_out (ds_conn s1) = co_out c /\ co_writes (ds_conn s1) = co_writes c /\
    ds_stream_id s1 = 0 /\ ds_request_ids s1 = rid /\ ds_proxy_client s1 = proxy.
Proof.
  intros Htr (hdr & tail & Hd & Hb & Hp & Ht). unfold session_new. case_bool_decide as Hs; cbn [negb].
  - destruct Hp as (client & -> & Hparse).
    destruct (takes_proxy_header hdr client tail (mk_doh_session c [] 0 rid false None false false)) as (st & Hl & Hst & Hbt); try done; [cbn; lia|].
    match type of Hl with leads_to _ ?x => destruct (tls_starts x tail plain) as (s1 & Ha & Hat & Hl1) end; try done.
    exists s1. split; [done|]. split; [intros r s' H; by apply Hl, Hl1|]. by destruct Hat as (-> & -> & -> & -> & ->).
  - destruct Hp as [-> ->].
    destruct (tls_starts (mk_doh_session c [] 0 rid false None true false) tail plain) as (s1 & Ha & Hat & Hl1); try done.
    exists s1. split; [done|]. split; [done|]. by destruct Hat as (-> & -> & -> & -> & ->).
Qed.

(** ** Serving a connection *)

(** The request a parsed one becomes, with the numbers it is given. *)
Definition inbound_of (proxy : option IpAddr) (stream_id request_id : Z) (p : ParsedDohRequest) : option DohRequest :=
  match match_route (da_routes a) (dp_path p), resolve_client_ip (da_client_ip a) peer (dp_forwarded_headers p) proxy with
  | Some route, Ok client_addr =>
    Some (mk_doh_inbound (pq_query (dp_query p)) (pq_id (dp_query p)) stream_id request_id route client_addr (dp_connection_close p))
  | _, _ => None
  end.
(** The HTTP response to a request that the core answers. *)
Definition reply_to (r : DohRequest) : option (list byte) :=
  match core r with
  | Ok (CO_Response response) =>
    if matches_query response (di_query r)
    then match doh_encode (di_close r) (Some (di_dns_id r)) response with Ok b => Some b | Err _ => None end
    else None
  | _ => None
  end.
(** The responses to the requests of a connection, up to the first that ends it. *)
Fixpoint replies (proxy : option IpAddr) (stream_id request_id : Z) (ps : list ParsedDohRequest) : option (list (list byte)) :=
  match ps with
  | [] => Some []
  | p :: ps =>
    let stream_id := Z.max (wrap64 (stream_id + 1)) 1 in
    let request_id := wrap64 (request_id + 1) in
    r ← inbound_of proxy stream_id request_id p;
    b ← reply_to r;
    if dp_connection_close p then Some [b] else cons b <$> replies proxy stream_id request_id ps
  end.

(** A turn of the task that nothing interrupts. *)
Definition calm_turn (t : DohTurn) : Prop :=
  tn_retired t = false /\ tn_cancelled t = false /\ tn_admission t = None /\ exists now, tn_dispatch t = DW_Done now.

Lemma dispatch_replies r b received_at now s :
  reply_to r = Some b -> co_writes (ds_conn s) = [] ->
  dispatch_on r received_at now s = (Ok DO_Responded, (on_conn (conn_write b) s).2).
Proof.
  unfold reply_to, dispatch_on. intros Hr Hw. destruct (core r) as [[response|]|]; try done.
  destruct (matches_query response (di_query r)) eqn:Hm; [|done]. destruct (doh_encode _ _ response) as [b'|] eqn:He; [|done].
  injection Hr as ->. assert (Henc : encode_on r response s = (Ok tt, (on_conn (conn_write b) s).2)).
  { unfold encode_on, on_conn, conn_write. by rewrite He, Hw. }
  destruct (dispatch_inbound_ok response (fun x => (encode_on r x s).1) now (di_query r) received_at) as (h & -> & ->);
    [done|by rewrite Henc|by rewrite Henc].
Qed.

Lemma awaiting_same s s' bytes :
  awaiting s bytes -> co_in (ds_conn s') = co_in (ds_conn s) -> ds_buffer s' = ds_buffer s ->
  ds_tls_started s' = ds_tls_started s -> ds_proxy_header_done s' = ds_proxy_header_done s -> awaiting s' bytes.
Proof. intros [H1 H2 H3 H4 H5] E1 E2 E3 E4. unfold tls_pending in *. split; unfold tls_pending; congruence. Qed.

Lemma receives_fuel s0 s r s' : leads_to s0 s -> receives s r s' -> exists n, forall fuel, (n <= fuel)%nat -> receive_loop fuel s0 = Some (r, s').
Proof. intros Hl Hr. exact (Hl r s' Hr). Qed.

Lemma serves_requests ws ps : Forall2 whole_request ws ps -> forall turns s0 s outs,
  leads_to s0 s -> awaiting s (concat ws) -> co_writes (ds_conn s) = [] ->
  replies (ds_proxy_client s) (ds_stream_id s) (ds_request_ids s) ps = Some outs ->
  Forall calm_turn turns -> (length ps < length turns)%nat ->
  exists n, forall fuel, (n <= fuel)%nat -> exists s',
    run_doh_connection fuel turns s0 = (Some (Ok tt), s') /\ co_out (ds_conn s') = co_out (ds_conn s) ++ outs.
Proof.
  induction 1 as [|w p ws ps Hw Hws IH]; intros turns s0 s outs Hl Ha Hcw Hre Ht Hlen;
    (destruct Ht as [|t turns (Hret & Hcan & Hadm & now & Hdis) Ht]; [cbn in Hlen; lia|]); cbn [run_doh_connection]; rewrite Hret, Hcan.
  - injection Hre as <-. destruct (receives_eof s Ha) as (s' & Hr & Hout). destruct (receives_fuel _ _ _ _ Hl Hr) as [n Hn].
    exists n. intros fuel Hf. unfold doh_receive. rewrite (Hn fuel Hf). eexists. split; [reflexivity|].
    rewrite app_nil_r, <-Hout. unfold session_close, on_conn, conn_shutdown. by destruct (co_writes (ds_conn s')) as [|[]].
  - cbn [concat] in Ha. destruct (receives_request s w p (concat ws) Hw Ha) as (s1 & Ha1 & (Eo & Ew & Es & Er & Ep) & Hr).
    cbn [replies] in Hre. unfold handle_parsed, inbound_of in *.
    destruct (match_route (da_routes a) (dp_path p)) as [route|]; [|done]. rewrite Ep in Hr.
    destruct (resolve_client_ip _ peer _ (ds_proxy_client s)) as [addr|]; [|done]. cbn [mbind option_bind] in Hre. cbn [fst snd] in Hr.
    cbn [next_ids set_pending ds_stream_id ds_request_ids] in Hr. rewrite Es, Er in Hr.
    destruct (reply_to _) as [b|] eqn:Hb; [|done]. cbn [mbind option_bind] in Hre.
    destruct (receives_fuel _ _ _ _ Hl Hr) as [n Hn]. set (s2 := next_ids (set_pending s1 (dp_connection_close p))) in *.
    assert (Hcw2 : co_writes (ds_conn s2) = []) by (cbn; congruence).
    pose proof (dispatch_replies _ b (tn_received_at t) now s2 Hb Hcw2) as Hd. unfold doh_receive.
    set (s3 := (on_conn (conn_write b) s2).2) in *.
    assert (Hs3 : ds_conn s3 = mk_conn (co_in (ds_conn s1)) (co_out (ds_conn s) ++ [b]) []).
    { unfold s3, on_conn, conn_write. rewrite Hcw2. cbn. congruence. }
    assert (Hpc : ds_pending_close s2 = dp_connection_close p) by done.
    destruct (dp_connection_close p) eqn:Hclose.
    + injection Hre as <-. exists n. intros fuel Hf. rewrite (Hn fuel Hf), Hadm, Hdis, Hd, Hpc. eexists. split; [reflexivity|].
      unfold session_close, on_conn, conn_shutdown. by rewrite Hs3.
    + destruct (replies _ _ _ ps) as [outs'|] eqn:Hrest; [|done]. injection Hre as <-.
      destruct (IH turns s3 s3 outs') as [n' Hn']; [by intros ? ?| |by rewrite Hs3| |done|cbn in Hlen; lia|].
      * apply (awaiting_same s1); [done|by rewrite Hs3|unfold s3, on_conn; by destruct (conn_write _ _)..].
      * rewrite <-Hrest. unfold s3, on_conn. destruct (conn_write b _). cbn. by rewrite Ep, Es, Er.
      * exists (n `max` n')%nat. intros fuel Hf. rewrite (Hn fuel) by lia. rewrite Hadm, Hdis, Hd, Hpc.
        destruct (Hn' fuel) as (s' & Hrun & Hout); [lia|]. exists s'. split; [done|]. rewrite Hout, Hs3. cbn [co_out]. by rewrite <-app_assoc.
Qed.

(** C5: A connection of a trusted peer is served to its end, as long as nothing
    interrupts it. The connection brings a PROXY header if the endpoint wants one, TLS
    if it wants that, and then requests, one behind the other or one by one and cut into
    pieces anywhere, each of which leaves a read of 8 KiB below the limit of the buffer
    (a request closer to the limit can be refused when another follows it at once); no
    turn is cancelled, retired, refused admission or expired, no write fails, and every
    request has a route, a client the policy accepts and a response of the core that
    can be encoded. Then each request is answered with the response of the core to that
    request, for the client the policy names, in the order in which they were sent, up
    to the first one that asks to close; and the task ends without an error. *)
Theorem doh_connection_in_order c rid proxy ws ps outs turns :
  peer_is_trusted (da_client_ip a) peer.1 = true -> connection_says (co_in c) proxy (concat ws) ->
  Forall2 whole_request ws ps -> co_writes c = [] -> replies proxy 0 rid ps = Some outs ->
  Forall calm_turn turns -> (length ps < length turns)%nat ->
  exists n, forall fuel, (n <= fuel)%nat -> exists s',
    run_doh_connection fuel turns (session_new c rid) = (Some (Ok tt), s') /\ co_out (ds_conn s') = co_out c ++ outs.
Proof.
  intros Htr Hsay Hws Hcw Hre Ht Hlen.
  destruct (connection_starts c rid proxy (concat ws) Htr Hsay) as (s1 & Ha & Hl & Eo & Ew & Es & Er & Ep).
  rewrite <-Eo. apply (serves_requests ws ps Hws turns _ s1); [done|done|congruence|by rewrite Ep, Es, Er|done|done].
Qed.

End DohSession.

(** ** Examples *)

Module DohSessionExamples.
Import Sample.
#[local] Existing Instance WireExamples.net.
#[local] Existing Instance ClientIpExamples.sample_net.

(** A URL library that finds the host ex in every Host header. *)
Definition url_library (_ : chars) : option Url :=
  Some (mk_url "http" [] None (Some (str_bytes "ex")) None (str_bytes "/") None None).
(** TLS as a complement of all bits. *)
Definition flip (b : byte) : byte := byte_of_Z (255 - byte_to_Z b).
Definition complement (st : Stream) : result PortError Stream := Ok [Data (flip <$> bytes_of st)].

(** An endpoint behind a proxy that sends the PROXY header, with TLS. *)
Definition proxied : DohAdapter :=
  mk_doh_adapter [mk_doh_route plain_route (lit "default")] (mk_client_ip CIS_ProxyProtocol None [[V4 7]] FD_Reject FD_Reject) true.

Definition get_request : list byte :=
  str_bytes "GET /dns-query?dns=" ++ utf8_encode (encode_base64url (wire query_msg)) ++ str_bytes " HTTP/1.1" ++ crlf ++
  str_bytes "Host: ex" ++ crlf ++ crlf.
Definition post_request : list byte :=
  str_bytes "POST /dns-query HTTP/1.1" ++ crlf ++ str_bytes "Host: ex" ++ crlf ++ str_bytes "Connection: close" ++ crlf ++
  str_bytes "Content-Type: application/dns-message" ++ crlf ++ str_bytes "Content-Length: 6" ++ crlf ++ crlf ++ wire query_msg.

Definition sample_parsed (w : list byte) : ParsedDohRequest :=
  match try_parse_request url_library w with
  | Ok (Some p) => p
  | _ => mk_doh_parsed Get [] WireExamples.parsed [] false 0 (mk_forwarded None None None)
  end.
Definition parses_request (w : list byte) : bool := match try_parse_request url_library w with Ok (Some _) => true | _ => false end.
Lemma parses_request_spec w : parses_request w = true -> try_parse_request url_library w = Ok (Some (sample_parsed w)).
Proof. unfold parses_request, sample_parsed. by destruct (try_parse_request url_library w) as [[p|]|]. Qed.

Definition answer_all (_ : DohRequest) : result CoreError CoreOutcome :=
  Ok (CO_Response {| resp_message := positive_msg 1 300; resp_class := RPositive;
                     resp_ttl := extract_ttl_metadata (positive_msg 1 300) RPositive |}).
(** The header, then two requests of the client 192.0.2.1 in one piece; the second closes. *)
Definition proxied_stream : Stream :=
  [Data (take 20 ClientIpExamples.v1_header);
   Data (drop 20 ClientIpExamples.v1_header ++ (flip <$> (get_request ++ take 30 post_request))); Data (flip <$> drop 30 post_request)].
Definition calm_turn0 : DohTurn := mk_doh_turn false false 0 None (DW_Done 1).

Lemma doh_connection_in_order_witness :
  exists n, forall fuel, (n <= fuel)%nat -> exists s',
    run_doh_connection url_library complement proxied (V4 7, 443) answer_all fuel [calm_turn0; calm_turn0; calm_turn0]
      (session_new proxied (mk_conn proxied_stream [] []) 5) = (Some (Ok tt), s') /\
    co_out (ds_conn s') = [encode_dns_response (wire (positive_msg 7 300)) false; encode_dns_response (wire (positive_msg 7 300)) true].
Proof.
  destruct (doh_connection_in_order url_library complement proxied (V4 7, 443) answer_all (mk_conn proxied_stream [] []) 5
    (Some (V4 0xC0000201)) [get_request; post_request] [sample_parsed get_request; sample_parsed post_request]
    [encode_dns_response (wire (positive_msg 7 300)) false; encode_dns_response (wire (positive_msg 7 300)) true] [calm_turn0; calm_turn0; calm_turn0]) as [n Hn].
  - vm_compute. reflexivity.
  - exists ClientIpExamples.v1_header, (flip <$> (get_request ++ post_request)).
    split; [repeat constructor; eexists; (split; [reflexivity|vm_compute; discriminate])|]. split; [vm_compute; reflexivity|].
    split; [exists (V4 0xC0000201); split; [reflexivity|vm_compute; reflexivity]|].
    intros st _ Hb. eexists. split; [unfold complement; rewrite Hb; reflexivity|].
    split; [repeat constructor; eexists; (split; [reflexivity|vm_compute; discriminate])|vm_compute; reflexivity].
  - constructor; [|constructor; [|constructor]].
    + split; [apply parses_request_spec; vm_compute; reflexivity|]. split; [vm_compute; reflexivity|vm_compute; discriminate].
    + split; [apply parses_request_spec; vm_compute; reflexivity|]. split; [vm_compute; reflexivity|vm_compute; discriminate].
  - reflexivity.
  - vm_compute. reflexivity.
  - repeat constructor; eexists; reflexivity.
  - cbn. lia.
  - exists n. exact Hn.
Defined.

End DohSessionExamples.
