(* ===== verification/MokaStore.v ===== *)
(** * The production cache store (src/backend/src/cache/moka.rs)

    [MokaCacheStore] keeps its records in a cache of the moka library, its
    version counters in atomics, its statistics in a mutex, and hands loads to a
    [MemoryCacheStore]. The library is a parameter: the class [Moka] lists the
    calls the code makes, [MokaLaws] what its documentation promises of them (a
    value read was the last one written; entries may vanish at any time, and do
    so on invalidation and expiry). Every reading of the clock, the library's own
    included, is the next value of a clock [nat -> Instant] given to the
    operation. An operation is one atomic step: [get] reads the library before it
    takes the mutex, which lets another operation run in between; what it then
    does depends only on the record it has read. *)

From S2P Require Import Prelude Message CacheModel CacheAdmission CacheStore.

(** The clock from its [n]-th reading on. *)
Definition clock_from (c : nat -> Instant) (n : nat) : nat -> Instant := fun i => c (n + i)%nat.

Section MokaStore.
Context {HH : Hickory}.

(** ** The library *)

(** [moka::notification::RemovalCause]. *)
Inductive RemovalCause := RC_Expired | RC_Explicit | RC_Replaced | RC_Size.
#[global] Instance RemovalCause_eq_dec : EqDecision RemovalCause.
Proof. solve_decision. Defined.

(** [moka::policy::Expiry]: the lifetime of an entry from its creation, and from
    a replacement of its value given the lifetime it has left. *)
Record Expiry := mk_expiry {
  expire_after_create : CacheKey -> CacheRecord -> Instant -> option Duration;
  expire_after_update : CacheKey -> CacheRecord -> Instant -> option Duration -> option Duration
}.

Class Moka := {
  moka : Type;
  moka_build : (CacheKey -> CacheRecord -> Z) -> Expiry -> option Z -> moka;
  moka_run_pending_tasks : Instant -> moka -> moka;
  moka_get : Instant -> CacheKey -> moka -> option CacheRecord * moka;
  moka_insert : Instant -> CacheKey -> CacheRecord -> moka -> moka;
  moka_invalidate : Instant -> CacheKey -> moka -> moka;
  moka_invalidate_all : Instant -> moka -> moka;
  moka_iter : Instant -> moka -> list (CacheKey * CacheRecord);
  moka_entry_count : moka -> Z;
  moka_weighted_size : moka -> Z;
  (** the causes given to the eviction listener so far *)
  moka_notifications : moka -> list RemovalCause
}.

(** [held t m]: what can be read from [m] at [t]. *)
Class MokaLaws (M : Moka) := {
  held : Instant -> moka -> gmap CacheKey CacheRecord;
  held_later t t' m : t <= t' -> held t' m ⊆ held t m;
  held_build t w e cap : held t (moka_build w e cap) = ∅;
  held_run t m : held t (moka_run_pending_tasks t m) ⊆ held t m;
  get_held t k m : (moka_get t k m).1 = held t m !! k;
  held_get t k m : held t (moka_get t k m).2 ⊆ held t m;
  held_insert t k r m : held t (moka_insert t k r m) ⊆ <[k := r]> (held t m);
  held_invalidate t k m : held t (moka_invalidate t k m) ⊆ delete k (held t m);
  held_invalidate_all t m : held t (moka_invalidate_all t m) = ∅;
  iter_held t m k r : (k, r) ∈ moka_iter t m <-> held t m !! k = Some r
}.

Context {M : Moka}.

(** ** The store *)

Record MokaState := mk_moka_state {
  mk_hits : Z;
  mk_misses : Z;
  mk_conflicts : Z;
  mk_shutting_down : bool
}.

Record MokaCacheStore := mk_moka_store {
  mk_cache : moka;
  load_store : MemoryCacheStore;
  mk_state : MokaState;
  mk_next_version : Z;
  snapshot_reset_generation : Z;
  mk_max_weight : option Z
}.

Inductive MokaCacheStoreBuildError := MokaZeroMaxWeight.

(** The provided [expire_after_update] of the trait keeps the lifetime left. *)
Definition MokaExpiry : Expiry := {|
  expire_after_create := fun _ value created_at =>
    Some (duration_since (retention_deadline (entry value)) created_at);
  expire_after_update := fun _ _ _ duration_until_expiry => duration_until_expiry
|}.

Definition record_weight (key : CacheKey) (r : CacheRecord) : Z :=
  let response_size := match to_vec (resp_message (response (entry r))) with
    | Some bytes => bytes_len bytes
    | None => 0
    end in
  sat_add64 (sat_add64 (bytes_len (key_encoded key)) 64) response_size.

Definition moka_weight (key : CacheKey) (r : CacheRecord) : Z := Z.min (record_weight key r) u32_max.

Definition moka_is_visible (r : CacheRecord) (now : Instant) : bool :=
  now <? retention_deadline (entry r).

Definition moka_is_answerable (r : CacheRecord) (now : Instant) : bool :=
  (now <? expires_at (entry r)) ||
  match stale_until (entry r) with Some s => now <? s | None => false end.

Definition moka_is_fresh (r : CacheRecord) (now : Instant) : bool := now <? expires_at (entry r).

Definition moka_with_limit (limit : option Z) : MokaCacheStore :=
  mk_moka_store (moka_build moka_weight MokaExpiry limit) (CacheStore.with_limit None)
    (mk_moka_state 0 0 0 false) 0 0 limit.

Definition moka_with_max_weight (limit : Z) : result MokaCacheStoreBuildError MokaCacheStore :=
  if limit =? 0 then Err MokaZeroMaxWeight else Ok (moka_with_limit (Some limit)).

Definition set_moka (s : MokaCacheStore) (m : moka) : MokaCacheStore :=
  mk_moka_store m (load_store s) (mk_state s) (mk_next_version s) (snapshot_reset_generation s)
    (mk_max_weight s).
Definition set_moka_state (s : MokaCacheStore) (st : MokaState) : MokaCacheStore :=
  mk_moka_store (mk_cache s) (load_store s) st (mk_next_version s) (snapshot_reset_generation s)
    (mk_max_weight s).
Definition set_load_store (s : MokaCacheStore) (l : MemoryCacheStore) : MokaCacheStore :=
  mk_moka_store (mk_cache s) l (mk_state s) (mk_next_version s) (snapshot_reset_generation s)
    (mk_max_weight s).

(** Reads the clock twice. *)
Definition get_record (c : nat -> Instant) (m : moka) (key : CacheKey) : option CacheRecord * moka :=
  moka_get (c 1%nat) key (moka_run_pending_tasks (c 0%nat) m).

(** Reads the clock at most four times. *)
Definition visible_record (c : nat -> Instant) (m : moka) (key : CacheKey) (now : Instant) :
    option CacheRecord * moka :=
  match get_record c m key with
  | (None, m1) => (None, m1)
  | (Some r, m1) =>
    if moka_is_visible r now then (Some r, m1)
    else (None, moka_run_pending_tasks (c 3%nat) (moka_invalidate (c 2%nat) key m1))
  end.

(** ** The operations *)

Definition moka_store_get (s : MokaCacheStore) (key : CacheKey) (deadline : Deadline)
    (c : nat -> Instant) : result PortError (option CacheRecord) * MokaCacheStore :=
  if is_expired deadline (c 0%nat) then (Err (port_error PE_Timeout "moka_cache.get"), s)
  else
    let now := c 1%nat in
    let '(record, m) := visible_record (clock_from c 2) (mk_cache s) key now in
    let s1 := set_moka s m in
    let st := mk_state s1 in
    if mk_shutting_down st then (Err (port_error PE_Unavailable "moka_cache.get"), s1)
    else
      let hit := match record with Some r => moka_is_answerable r now | None => false end in
      let st' := if hit
        then mk_moka_state (sat_add64 (mk_hits st) 1) (mk_misses st) (mk_conflicts st) false
        else mk_moka_state (mk_hits st) (sat_add64 (mk_misses st) 1) (mk_conflicts st) false in
      (Ok record, set_moka_state s1 st').

Definition moka_condition_matches (cond : CacheCondition) (current : option Z) : bool :=
  match cond with
  | Absent => bool_decide (current = None)
  | IfVersion expected => bool_decide (current = Some expected)
  end.

Definition moka_compare_and_swap (s : MokaCacheStore) (key : CacheKey) (cond : CacheCondition)
    (e : CacheEntry) (deadline : Deadline) (c : nat -> Instant) :
    result PortError CacheWriteOutcome * MokaCacheStore :=
  if is_expired deadline (c 0%nat) then
    (Err (port_error PE_Timeout "moka_cache.compare_and_swap"), s)
  else
    let st := mk_state s in
    if mk_shutting_down st then
      (Err (port_error PE_Unavailable "moka_cache.compare_and_swap"), s)
    else
      let now := c 1%nat in
      let '(current_record, m) := visible_record (clock_from c 2) (mk_cache s) key now in
      let s1 := set_moka s m in
      let current := version <$> current_record in
      if negb (moka_condition_matches cond current) then
        (Ok (Conflict current),
          set_moka_state s1 (mk_moka_state (mk_hits st) (mk_misses st)
            (sat_add64 (mk_conflicts st) 1) (mk_shutting_down st)))
      else if match current_record with
           | Some r => (quality_rank (quality e) <? quality_rank (quality (entry r))) &&
                       moka_is_fresh r now
           | None => false
           end then (Ok RejectedQuality, s1)
      else if match mk_max_weight s with
           | Some limit => limit <? record_weight key (mk_record 0 e)
           | None => false
           end then
        (Err (port_error PE_ResourceExhausted "moka_cache.compare_and_swap"), s1)
      else
        let v := wrap64 (mk_next_version s + 1) in
        let outcome := match current with Some _ => Replaced v | None => Inserted v end in
        let m' := moka_run_pending_tasks (c 7%nat) (moka_insert (c 6%nat) key (mk_record v e) m) in
        (Ok outcome,
          mk_moka_store m' (load_store s) st v (snapshot_reset_generation s) (mk_max_weight s)).

(** Loads go to the memory store. *)
Definition moka_reserve_load (s : MokaCacheStore) (key : CacheKey) (deadline : Deadline)
    (t0 : Instant) : result PortError CacheLoadReservation * MokaCacheStore :=
  let '(r, l) := CacheStore.reserve_load (load_store s) key deadline t0 in (r, set_load_store s l).

Definition moka_publish_load (s : MokaCacheStore) (key : CacheKey) (gen : Z)
    (completion : CacheLoadCompletion) : result PortError unit * list nat * MokaCacheStore :=
  let '(r, woken, l) := CacheStore.publish_load (load_store s) key gen completion in
  (r, woken, set_load_store s l).

Definition moka_abandon_load (s : MokaCacheStore) (key : CacheKey) (gen : Z)
    (failure : CacheLoadFailure) : result PortError unit * list nat * MokaCacheStore :=
  let '(r, woken, l) := CacheStore.abandon_load (load_store s) key gen failure in
  (r, woken, set_load_store s l).

(** One poll of [wait_load]. *)
Definition moka_poll_load (s : MokaCacheStore) (key : CacheKey) (gen : Z) (deadline : Deadline)
    (now : Instant) (waker : nat) : Poll (result PortError CacheLoadCompletion) * MokaCacheStore :=
  let '(p, l) := CacheStore.poll_load (load_store s) key gen deadline now waker in
  (p, set_load_store s l).

Fixpoint invalidate_keys (c : nat -> Instant) (keys : list CacheKey) (m : moka) : moka :=
  match keys with
  | [] => m
  | k :: rest => invalidate_keys (clock_from c 1) rest (moka_invalidate (c 0%nat) k m)
  end.

Definition moka_store_invalidate (s : MokaCacheStore) (scope : CacheInvalidation)
    (deadline : Deadline) (c : nat -> Instant) : result PortError Z * MokaCacheStore :=
  if is_expired deadline (c 0%nat) then
    (Err (port_error PE_Timeout "moka_cache.invalidate"), s)
  else if mk_shutting_down (mk_state s) then
    (Err (port_error PE_Unavailable "moka_cache.invalidate"), s)
  else
    let m0 := moka_run_pending_tasks (c 1%nat) (mk_cache s) in
    let keys := (filter (fun kr => CacheInvalidation_matches scope kr.1 (entry kr.2) = true)
                   (moka_iter (c 2%nat) m0)).*1 in
    let m1 := invalidate_keys (clock_from c 3) keys m0 in
    let bump (z : Z) := if bool_decide (keys = []) then z else wrap64 (z + 1) in
    let m2 := moka_run_pending_tasks (c (3 + length keys)%nat) m1 in
    (Ok (Z.of_nat (length keys)),
      mk_moka_store m2 (load_store s) (mk_state s) (bump (mk_next_version s))
        (bump (snapshot_reset_generation s)) (mk_max_weight s)).

(** The eviction listener counts the removals for size. *)
Definition eviction_count (m : moka) : Z :=
  wrap64 (Z.of_nat (length (filter (fun cause => cause = RC_Size) (moka_notifications m)))).

Definition moka_stats (s : MokaCacheStore) (c : nat -> Instant) : CacheStoreStats * MokaCacheStore :=
  let m := moka_run_pending_tasks (c 0%nat) (mk_cache s) in
  let st := mk_state s in
  (mk_stats (moka_entry_count m) (moka_weighted_size m) (mk_hits st) (mk_misses st)
     (mk_conflicts st) (eviction_count m), set_moka s m).

Definition moka_shutdown (s : MokaCacheStore) (c : nat -> Instant) :
    result PortError unit * list nat * MokaCacheStore :=
  let st := mk_state s in
  let st' := mk_moka_state (mk_hits st) (mk_misses st) (mk_conflicts st) true in
  let m := moka_run_pending_tasks (c 1%nat) (moka_invalidate_all (c 0%nat) (mk_cache s)) in
  let '(r, woken, l) := CacheStore.shutdown (load_store s) in
  (r, woken, mk_moka_store m l st' (mk_next_version s) (snapshot_reset_generation s) (mk_max_weight s)).

(** ** Visiting the records for a snapshot *)

Inductive SnapshotVisitError (E : Type) :=
| ZeroBatchSize | VisitTimeout | VisitUnavailable | VisitVisitor (e : E).
Arguments ZeroBatchSize {E}.
Arguments VisitTimeout {E}.
Arguments VisitUnavailable {E}.
Arguments VisitVisitor {E} _.

Section Visit.
Context {W E : Type} (tick : W -> Instant * W).
Context (visit : list (CacheKey * CacheRecord) -> W -> result E unit * W).

(** The loop over the iterator; [w] is the state of the visitor and the clock. *)
Fixpoint visit_loop (batch_size : nat) (deadline : Deadline) (now : Instant)
    (items batch : list (CacheKey * CacheRecord)) (visited : Z) (w : W) :
    result (SnapshotVisitError E) Z * W :=
  match items with
  | [] =>
    if bool_decide (batch = []) then (Ok visited, w)
    else match visit batch w with
      | (Ok _, w') => (Ok visited, w')
      | (Err e, w') => (Err (VisitVisitor e), w')
      end
  | (k, r) :: rest =>
    let '(t, w1) := tick w in
    if is_expired deadline t then (Err VisitTimeout, w1)
    else if negb (moka_is_visible r now) then
      visit_loop batch_size deadline now rest batch visited w1
    else
      let batch' := batch ++ [(k, r)] in
      let visited' := sat_add64 visited 1 in
      if (length batch' =? batch_size)%nat then
        match visit batch' w1 with
        | (Ok _, w2) => visit_loop batch_size deadline now rest [] visited' w2
        | (Err e, w2) => (Err (VisitVisitor e), w2)
        end
      else visit_loop batch_size deadline now rest batch' visited' w1
  end.

Definition visit_snapshot_batches (s : MokaCacheStore) (batch_size : nat) (deadline : Deadline)
    (w : W) : result (SnapshotVisitError E) Z * MokaCacheStore * W :=
  if (batch_size =? 0)%nat then (Err ZeroBatchSize, s, w)
  else if mk_shutting_down (mk_state s) then (Err VisitUnavailable, s, w)
  else
    let '(t1, w1) := tick w in
    let m := moka_run_pending_tasks t1 (mk_cache s) in
    let '(now, w2) := tick w1 in
    let '(t2, w3) := tick w2 in
    let '(r, w4) := visit_loop batch_size deadline now (moka_iter t2 m) [] 0 w3 in
    (r, set_moka s m, w4).
End Visit.

Definition snapshot_generation (s : MokaCacheStore) : Z := mk_next_version s.

End MokaStore.

Arguments ZeroBatchSize {E}.
Arguments VisitTimeout {E}.
Arguments VisitUnavailable {E}.
Arguments VisitVisitor {E} _.

(** ** What the records of the library can be *)

Definition monotone_clock (c : nat -> Instant) : Prop := forall i j, (i <= j)%nat -> c i <= c j.

Lemma clock_from_monotone c n : monotone_clock c -> monotone_clock (clock_from c n).
Proof. intros H i j Hij. apply H. lia. Qed.

Section Held.
Context {HH : Hickory} {M : Moka} {ML : MokaLaws M}.
Implicit Types (m : moka) (s : MokaCacheStore) (c : nat -> Instant) (k : CacheKey).

(** Whatever is read from [m] at [t] or later is in [X]. *)
Definition within (t : Instant) m (X : gmap CacheKey CacheRecord) : Prop := held t m ⊆ X.

Lemma within_later t t' m X : t <= t' -> within t m X -> within t' m X.
Proof. intros Ht H. unfold within. etransitivity; [by apply held_later|done]. Qed.
Lemma within_run t m X : within t m X -> within t (moka_run_pending_tasks t m) X.
Proof. intros H. unfold within. etransitivity; [apply held_run|done]. Qed.
Lemma within_get t k m X : within t m X -> within t (moka_get t k m).2 X.
Proof. intros H. unfold within. etransitivity; [apply held_get|done]. Qed.
Lemma within_insert t k r m X : within t m X -> within t (moka_insert t k r m) (<[k := r]> X).
Proof. intros H. unfold within. etransitivity; [apply held_insert|by apply insert_mono]. Qed.
Lemma within_invalidate t k m X : within t m X -> within t (moka_invalidate t k m) (delete k X).
Proof. intros H. unfold within. etransitivity; [apply held_invalidate|by apply delete_mono]. Qed.
Lemma within_weaken t m X Y : within t m X -> X ⊆ Y -> within t m Y.
Proof. intros. unfold within. by etransitivity. Qed.

Lemma get_within t k m X r : within t m X -> (moka_get t k m).1 = Some r -> X !! k = Some r.
Proof. rewrite get_held. intros H Hr. by eapply lookup_weaken. Qed.

(** A reading of the store returns a visible record that was written there, and
    leaves nothing that was not there. *)
Lemma visible_record_within c m k now X o m' :
  monotone_clock c -> within (c 0%nat) m X -> visible_record c m k now = (o, m') ->
  within (c 3%nat) m' X /\
  (forall r, o = Some r -> X !! k = Some r /\ now < retention_deadline (entry r)).
Proof.
  intros Hc HX. unfold visible_record, get_record.
  assert (H1 : within (c 1%nat) (moka_run_pending_tasks (c 0%nat) m) X)
    by (apply (within_later (c 0%nat)); [apply Hc; lia|by apply within_run]).
  destruct (moka_get _ _ _) as [[r|] m1] eqn:E.
  - pose proof (within_get (c 1%nat) k _ _ H1) as H2. rewrite E in H2. cbn [snd] in H2.
    assert (Hr : X !! k = Some r) by (eapply get_within; [exact H1|by rewrite E]).
    unfold moka_is_visible. destruct (Z.ltb_spec now (retention_deadline (entry r))); intros [= <- <-].
    + split; [by apply (within_later (c 1%nat)); [apply Hc; lia|]|]. by intros ? [= <-].
    + split; [|done]. apply within_run, (within_later (c 2%nat)); [apply Hc; lia|].
      apply (within_weaken _ _ (delete k X)); [|apply delete_subseteq].
      apply within_invalidate, (within_later (c 1%nat)); [apply Hc; lia|done].
  - intros [= <- <-]. split; [|done]. apply (within_later (c 1%nat)); [apply Hc; lia|].
    pose proof (within_get (c 1%nat) k _ _ H1) as H2. by rewrite E in H2.
Qed.

Lemma invalidate_keys_within c keys m X :
  monotone_clock c -> within (c 0%nat) m X ->
  within (c (length keys)) (invalidate_keys c keys m) (foldr delete X keys).
Proof.
  revert c m X. induction keys as [|k keys IH]; intros c m X Hc HX; [done|].
  cbn [invalidate_keys length foldr].
  assert (H : within (clock_from c 1 (length keys))
    (invalidate_keys (clock_from c 1) keys (moka_invalidate (c 0%nat) k m)) (foldr delete (delete k X) keys)).
  { apply IH; [by apply clock_from_monotone|]. unfold clock_from. cbn [Nat.add].
    apply (within_later (c 0%nat)); [apply Hc; lia|by apply within_invalidate]. }
  unfold clock_from in H at 1. cbn [Nat.add] in H. eapply within_weaken; [exact H|].
  clear. assert (E : foldr delete (delete k X) keys = delete k (foldr delete X keys)); [|by rewrite E].
  induction keys as [|k' keys IH]; [done|]. cbn. by rewrite IH, delete_delete.
Qed.

Lemma lookup_foldr_delete (X : gmap CacheKey CacheRecord) keys k r :
  foldr delete X keys !! k = Some r <-> X !! k = Some r /\ k ∉ keys.
Proof.
  induction keys as [|k' keys IH]; cbn [foldr]; [split; [intros H; split; [done|apply not_elem_of_nil]|by intros []]|].
  rewrite lookup_delete_Some, IH, not_elem_of_cons. naive_solver.
Qed.

End Held.

(** ** The specification: a versioned map that may lose entries *)

Section Lossy.
Context {HH : Hickory}.

Record Lossy := mk_lossy {
  written : gmap CacheKey CacheRecord;
  counter : Z;
  resets : Z
}.

Inductive MokaOp :=
| MoGet (k : CacheKey) (deadline : Deadline)
| MoCas (k : CacheKey) (cond : CacheCondition) (e : CacheEntry) (deadline : Deadline)
| MoInvalidate (scope : CacheInvalidation) (deadline : Deadline)
| MoStats
| MoShutdown.

Inductive MokaResult :=
| MrGet (r : result PortError (option CacheRecord))
| MrCas (r : result PortError CacheWriteOutcome)
| MrInvalidate (r : result PortError Z)
| MrStats (st : CacheStoreStats)
| MrShutdown (r : result PortError unit).

Definition outranked (e : CacheEntry) (r : CacheRecord) (now : Instant) : Prop :=
  quality_rank (quality e) < quality_rank (quality (entry r)) /\ now < expires_at (entry r).

(** The answers a client of a lossy versioned map may see at [now]. *)
Inductive lossy_step (now : Instant) (L : Lossy) : MokaOp -> MokaResult -> Lossy -> Prop :=
| LsGetNone k d : lossy_step now L (MoGet k d) (MrGet (Ok None)) L
| LsGetSome k d r :
    written L !! k = Some r -> now < retention_deadline (entry r) ->
    lossy_step now L (MoGet k d) (MrGet (Ok (Some r))) L
| LsGetErr k d e : lossy_step now L (MoGet k d) (MrGet (Err e)) L
| LsInserted k e d v :
    v = wrap64 (counter L + 1) ->
    lossy_step now L (MoCas k Absent e d) (MrCas (Ok (Inserted v)))
      (mk_lossy (<[k := mk_record v e]> (written L)) v (resets L))
| LsReplaced k e d r v :
    written L !! k = Some r -> now < retention_deadline (entry r) -> ~ outranked e r now ->
    v = wrap64 (counter L + 1) ->
    lossy_step now L (MoCas k (IfVersion (version r)) e d) (MrCas (Ok (Replaced v)))
      (mk_lossy (<[k := mk_record v e]> (written L)) v (resets L))
| LsConflictNone k x e d :
    lossy_step now L (MoCas k (IfVersion x) e d) (MrCas (Ok (Conflict None))) L
| LsConflictSome k cond e d r :
    written L !! k = Some r -> cond <> IfVersion (version r) ->
    lossy_step now L (MoCas k cond e d) (MrCas (Ok (Conflict (Some (version r))))) L
| LsRejected k e d r :
    written L !! k = Some r -> outranked e r now ->
    lossy_step now L (MoCas k (IfVersion (version r)) e d) (MrCas (Ok RejectedQuality)) L
| LsCasErr k cond e d err : lossy_step now L (MoCas k cond e d) (MrCas (Err err)) L
| LsInvalidate scope d n :
    0 <= n ->
    lossy_step now L (MoInvalidate scope d) (MrInvalidate (Ok n))
      (mk_lossy (filter (fun kr => CacheInvalidation_matches scope kr.1 (entry kr.2) = false) (written L))
        (if n =? 0 then counter L else wrap64 (counter L + 1))
        (if n =? 0 then resets L else wrap64 (resets L + 1)))
| LsInvalidateErr scope d e : lossy_step now L (MoInvalidate scope d) (MrInvalidate (Err e)) L
| LsStats st : lossy_step now L MoStats (MrStats st) L
| LsShutdown r : lossy_step now L MoShutdown (MrShutdown r) (mk_lossy ∅ (counter L) (resets L)).

Inductive lossy_run (L : Lossy) : list (Instant * MokaOp * MokaResult) -> Lossy -> Prop :=
| LrNil : lossy_run L [] L
| LrCons now op res L1 rest L2 :
    lossy_step now L op res L1 -> lossy_run L1 rest L2 -> lossy_run L ((now, op, res) :: rest) L2.

Context {M : Moka} {ML : MokaLaws M}.
Implicit Types (s : MokaCacheStore) (c : nat -> Instant).

(** One operation, with its moka_readings of the clock. *)
Definition moka_exec (s : MokaCacheStore) (op : MokaOp) (c : nat -> Instant) : MokaResult * MokaCacheStore :=
  match op with
  | MoGet k d => let '(r, s') := moka_store_get s k d c in (MrGet r, s')
  | MoCas k cond e d => let '(r, s') := moka_compare_and_swap s k cond e d c in (MrCas r, s')
  | MoInvalidate scope d => let '(r, s') := moka_store_invalidate s scope d c in (MrInvalidate r, s')
  | MoStats => let '(st, s') := moka_stats s c in (MrStats st, s')
  | MoShutdown => let '(r, _, s') := moka_shutdown s c in (MrShutdown r, s')
  end.

(** The last reading of the clock an operation makes. *)
Definition moka_readings (s : MokaCacheStore) (op : MokaOp) (c : nat -> Instant) : nat :=
  match op with
  | MoInvalidate scope d =>
    match (moka_store_invalidate s scope d c).1 with Ok n => 3 + Z.to_nat n | Err _ => 3 end
  | _ => 7
  end%nat.

(** Operations one after the other; a call is an operation and its clock. *)
Fixpoint moka_run (s : MokaCacheStore) (calls : list (MokaOp * (nat -> Instant))) :
    list (Instant * MokaOp * MokaResult) * MokaCacheStore :=
  match calls with
  | [] => ([], s)
  | (op, c) :: rest =>
    let '(res, s1) := moka_exec s op c in
    let '(out, s2) := moka_run s1 rest in
    ((c 1%nat, op, res) :: out, s2)
  end.

(** The clocks go forward, within a call and from call to call. *)
Fixpoint clocks_ok (t : Instant) (s : MokaCacheStore) (calls : list (MokaOp * (nat -> Instant))) : Prop :=
  match calls with
  | [] => True
  | (op, c) :: rest =>
    t <= c 0%nat /\ monotone_clock c /\ clocks_ok (c (moka_readings s op c)) (moka_exec s op c).2 rest
  end.

Record refines (t : Instant) (s : MokaCacheStore) (L : Lossy) : Prop := {
  rf_within : within t (mk_cache s) (written L);
  rf_counter : mk_next_version s = counter L;
  rf_resets : snapshot_reset_generation s = resets L
}.

Lemma refines_later t t' s L : t <= t' -> refines t s L -> refines t' s L.
Proof. intros Ht []. split; [by eapply within_later|done..]. Qed.

Lemma refines_cache t s L m : refines t s L -> within t m (written L) -> refines t (set_moka s m) L.
Proof. intros [] ?. by split. Qed.

Lemma refines_state t s L st : refines t s L -> refines t (set_moka_state s st) L.
Proof. intros []. by split. Qed.

Lemma moka_exec_get t s L k d c r s' :
  refines t s L -> t <= c 0%nat -> monotone_clock c -> moka_store_get s k d c = (r, s') ->
  lossy_step (c 1%nat) L (MoGet k d) (MrGet r) L /\ refines (c 7%nat) s' L.
Proof.
  intros Hr Ht Hc. unfold moka_store_get.
  destruct (is_expired d (c 0%nat)).
  { intros [= <- <-]. split; [constructor|]. eapply refines_later; [|exact Hr].
    transitivity (c 0%nat); [done|apply Hc; lia]. }
  destruct (visible_record _ _ _ _) as [o m] eqn:E.
  apply (visible_record_within _ _ _ _ (written L)) in E as [Hm Ho]; [|by apply clock_from_monotone|].
  2: { eapply within_later; [|apply Hr]. transitivity (c 0%nat); [done|apply Hc; lia]. }
  assert (Hs : refines (c 7%nat) (set_moka s m) L).
  { split; [|apply Hr..]. eapply within_later; [|exact Hm]. apply Hc; lia. }
  cbn [mk_state set_moka]. destruct (mk_shutting_down (mk_state s)).
  - intros [= <- <-]. split; [constructor|done].
  - intros [= <- <-]. split; [|by apply refines_state].
    destruct o as [r|]; [|constructor]. destruct (Ho r eq_refl). by constructor.
Qed.

Lemma condition_some cond r :
  moka_condition_matches cond (Some (version r)) = true -> cond = IfVersion (version r).
Proof. destruct cond; unfold moka_condition_matches; intros H%bool_decide_eq_true; naive_solver. Qed.

Lemma condition_none cond : moka_condition_matches cond None = true -> cond = Absent.
Proof. destruct cond; unfold moka_condition_matches; intros H%bool_decide_eq_true; naive_solver. Qed.

Lemma condition_conflict cond r :
  moka_condition_matches cond (Some (version r)) = false -> cond <> IfVersion (version r).
Proof. intros H ->. cbn in H. by rewrite bool_decide_true in H. Qed.

Lemma moka_exec_cas t s L k cond e d c r s' :
  refines t s L -> t <= c 0%nat -> monotone_clock c -> moka_compare_and_swap s k cond e d c = (r, s') ->
  exists L', lossy_step (c 1%nat) L (MoCas k cond e d) (MrCas r) L' /\ refines (c 7%nat) s' L'.
Proof.
  intros Hr Ht Hc. unfold moka_compare_and_swap.
  assert (H7 : refines (c 7%nat) s L).
  { eapply refines_later; [|exact Hr]. transitivity (c 0%nat); [done|apply Hc; lia]. }
  destruct (is_expired d (c 0%nat)); [intros [= <- <-]; exists L; split; [constructor|done]|].
  destruct (mk_shutting_down (mk_state s)); [intros [= <- <-]; exists L; split; [constructor|done]|].
  destruct (visible_record _ _ _ _) as [o m] eqn:E.
  apply (visible_record_within _ _ _ _ (written L)) in E as [Hm Ho]; [|by apply clock_from_monotone|].
  2: { eapply within_later; [|apply Hr]. transitivity (c 0%nat); [done|apply Hc; lia]. }
  change (clock_from c 2 3) with (c 5%nat) in Hm.
  assert (Hs : refines (c 7%nat) (set_moka s m) L).
  { split; [|apply Hr..]. eapply within_later; [|exact Hm]. apply Hc; lia. }
  destruct (moka_condition_matches cond (version <$> o)) eqn:Hcond; cbn [negb].
  2: { intros [= <- <-]. exists L. split; [|by apply refines_state].
       destruct o as [r0|]; cbn in *.
       - eapply LsConflictSome; [by apply Ho|by apply condition_conflict].
       - destruct cond; [done|constructor]. }
  assert (Hins : forall v, refines (c 7%nat) (mk_moka_store (moka_run_pending_tasks (c 7%nat)
      (moka_insert (c 6%nat) k (mk_record v e) m)) (load_store s) (mk_state s) v
      (snapshot_reset_generation s) (mk_max_weight s))
    (mk_lossy (<[k := mk_record v e]> (written L)) v (resets L))).
  { intros v. split; [|done|apply Hr]. cbn. apply within_run.
    apply (within_later (c 6%nat)); [apply Hc; lia|]. apply within_insert.
    eapply within_later; [|exact Hm]. apply Hc; lia. }
  rewrite (rf_counter _ _ _ Hr).
  destruct o as [r0|]; cbn [fmap option_fmap option_map] in *.
  - apply condition_some in Hcond as ->. destruct (Ho r0 eq_refl) as [Hw Hv]. unfold moka_is_fresh.
    destruct (Z.ltb_spec (quality_rank (quality e)) (quality_rank (quality (entry r0)))),
      (Z.ltb_spec (c 1%nat) (expires_at (entry r0))); cbn [andb].
    1: { intros [= <- <-]. exists L. split; [by constructor|done]. }
    all: destruct (mk_max_weight s) as [l|]; [destruct (l <? _)|];
      intros [= <- <-]; first [exists L; split; [by constructor|done] |
        eexists; split; [apply (LsReplaced _ _ _ _ _ r0); [done|done|unfold outranked; lia|done]|apply Hins]].
  - apply condition_none in Hcond as ->.
    destruct (mk_max_weight s) as [l|]; [destruct (l <? _)|];
      intros [= <- <-]; first [exists L; split; [by constructor|done] |
        eexists; split; [by apply LsInserted|apply Hins]].
Qed.

Lemma moka_exec_invalidate t s L scope d c r s' :
  refines t s L -> t <= c 0%nat -> monotone_clock c -> moka_store_invalidate s scope d c = (r, s') ->
  exists L', lossy_step (c 1%nat) L (MoInvalidate scope d) (MrInvalidate r) L' /\
    refines (c (moka_readings s (MoInvalidate scope d) c)) s' L'.
Proof.
  intros Hr Ht Hc E. unfold moka_readings. rewrite E. cbn [fst]. revert E. unfold moka_store_invalidate.
  assert (Hlater : forall n, refines (c n) s L).
  { intros n. eapply refines_later; [|exact Hr]. transitivity (c 0%nat); [done|apply Hc; lia]. }
  destruct (is_expired d (c 0%nat)); [intros [= <- <-]; exists L; split; [constructor|apply Hlater]|].
  destruct (mk_shutting_down (mk_state s)); [intros [= <- <-]; exists L; split; [constructor|apply Hlater]|].
  set (m0 := moka_run_pending_tasks (c 1%nat) (mk_cache s)).
  set (keys := (filter _ (moka_iter (c 2%nat) m0)).*1). intros [= <- <-].
  eexists. split; [apply LsInvalidate; lia|]. rewrite Nat2Z.id.
  assert (Hn : (Z.of_nat (length keys) =? 0) = bool_decide (keys = [])).
  { destruct keys; [done|]. by rewrite bool_decide_false. }
  split; cbn [mk_cache mk_next_version snapshot_reset_generation written counter resets].
  - apply within_run.
    assert (Hi : within (clock_from c 3 (length keys)) (invalidate_keys (clock_from c 3) keys m0)
      (foldr delete (held (c 2%nat) m0) keys)).
    { apply invalidate_keys_within; [by apply clock_from_monotone|].
      apply (within_later (c 2%nat)); [apply Hc; lia|]. unfold within. reflexivity. }
    eapply within_weaken; [exact Hi|]. apply map_subseteq_spec. intros k r.
    rewrite lookup_foldr_delete, map_lookup_filter_Some. intros [Hh Hk].
    assert (H0 : within (c 2%nat) m0 (written L)).
    { eapply within_later; [|apply within_run; apply (Hlater 1%nat)]. apply Hc. lia. }
    split; [by eapply lookup_weaken|]. cbn. destruct (CacheInvalidation_matches scope k (entry r)) eqn:Em; [|done].
    exfalso. apply Hk. apply list_elem_of_fmap. exists (k, r). split; [done|].
    apply list_elem_of_filter. split; [done|by apply iter_held].
  - rewrite Hn, (rf_counter _ _ _ Hr). done.
  - rewrite Hn, (rf_resets _ _ _ Hr). done.
Qed.

Lemma moka_exec_refines t s L op c :
  refines t s L -> t <= c 0%nat -> monotone_clock c ->
  exists L', lossy_step (c 1%nat) L op (moka_exec s op c).1 L' /\
    refines (c (moka_readings s op c)) (moka_exec s op c).2 L'.
Proof.
  intros Hr Ht Hc. destruct op as [k d|k cond e d|scope d| |]; cbn [moka_exec].
  - destruct (moka_store_get s k d c) as [r s'] eqn:E. exists L. by eapply moka_exec_get.
  - destruct (moka_compare_and_swap s k cond e d c) as [r s'] eqn:E. by eapply moka_exec_cas.
  - destruct (moka_store_invalidate s scope d c) as [r s'] eqn:E. by eapply moka_exec_invalidate.
  - exists L. cbn. split; [constructor|]. apply (refines_later (c 0%nat)); [apply Hc; lia|].
    apply refines_cache; [by eapply refines_later|]. apply within_run. eapply within_later; [exact Ht|apply Hr].
  - unfold moka_shutdown. destruct (CacheStore.shutdown (load_store s)) as [[r w] l]. cbn.
    eexists. split; [constructor|]. split; [|apply Hr..]. cbn.
    apply (within_later (c 1%nat)); [apply Hc; lia|]. apply within_run.
    apply (within_later (c 0%nat)); [apply Hc; lia|]. unfold within. by rewrite held_invalidate_all.
Qed.

Lemma run_refines calls t s L :
  refines t s L -> clocks_ok t s calls -> exists L', lossy_run L (moka_run s calls).1 L'.
Proof.
  revert t s L. induction calls as [|[op c] calls IH]; intros t s L Hr Hok; [exists L; constructor|].
  destruct Hok as (Ht & Hc & Hok). destruct (moka_exec_refines t s L op c Hr Ht Hc) as (L1 & Hstep & Hr1).
  cbn [moka_run]. destruct (moka_exec s op c) as [res s1]. cbn [fst snd] in *.
  destruct (IH _ _ _ Hr1 Hok) as [L2 Hrun]. destruct (moka_run s1 calls) as [out s2]. cbn [fst] in *.
  exists L2. by econstructor.
Qed.

Lemma refines_initial t limit : refines t (moka_with_limit limit) (mk_lossy ∅ 0 0).
Proof. split; [|done..]. cbn. unfold within. by rewrite held_build. Qed.

(** ** Versions *)

Definition versions_bounded (L : Lossy) : Prop :=
  0 <= counter L /\ forall k r, written L !! k = Some r -> version r <= counter L.

Lemma lossy_step_versions now L op res L' :
  lossy_step now L op res L' -> versions_bounded L -> counter L < u64_max ->
  versions_bounded L' /\ counter L <= counter L' <= counter L + 1.
Proof.
  assert (Hw : versions_bounded L -> counter L < u64_max -> wrap64 (counter L + 1) = counter L + 1).
  { intros [? _] ?. apply wrap64_small. unfold u64. lia. }
  assert (Hi : forall k e, versions_bounded L -> counter L < u64_max ->
    versions_bounded (mk_lossy (<[k := mk_record (wrap64 (counter L + 1)) e]> (written L))
      (wrap64 (counter L + 1)) (resets L))).
  { intros k e Hv Hm. rewrite Hw by done. destruct Hv as [H0 Hv]. split; [cbn; lia|]. cbn. intros k' r.
    rewrite lookup_insert_Some. intros [[_ <-]|[_ Hr]]; [cbn; lia|]. specialize (Hv _ _ Hr). lia. }
  intros Hs Hv Hm.
  destruct Hs as [| | | ? ? ? v Hev | ? ? ? ? v ? ? ? Hev | | | | | ? ? n Hn | | |]; subst; cbn [counter];
    try (split; [done|lia]).
  - split; [by apply Hi|]. rewrite Hw by done. lia.
  - split; [by apply Hi|]. rewrite Hw by done. lia.
  - assert (Hle : counter L <= (if n =? 0 then counter L else wrap64 (counter L + 1)) <= counter L + 1).
    { destruct (n =? 0); [lia|]. rewrite Hw by done. lia. }
    split; [|done]. destruct Hv as [H0 Hv]. split; [cbn; lia|]. cbn. intros k' r'.
    rewrite map_lookup_filter_Some. intros [Hr _]. specialize (Hv _ _ Hr). lia.
  - destruct Hv as [H0 Hv]. split; [|lia]. split; [done|]. cbn. intros k' r'. by rewrite lookup_empty.
Qed.

(** [u] is spent for [k]: no record of [k] has it, now or later. *)
Definition spent (k : CacheKey) (u : Z) (L : Lossy) : Prop :=
  u <= counter L /\ forall r, written L !! k = Some r -> u < version r.

Lemma spent_step now L op res L' k u :
  lossy_step now L op res L' -> versions_bounded L -> counter L < u64_max ->
  spent k u L -> spent k u L'.
Proof.
  intros Hs Hv Hm [Hu Hk]. destruct (lossy_step_versions now L op res L' Hs Hv Hm) as [_ Hle].
  split; [lia|]. assert (Hw : wrap64 (counter L + 1) = counter L + 1).
  { destruct Hv. apply wrap64_small. unfold u64. lia. }
  destruct Hs as [| | | ? ? ? v Hev | ? ? ? ? v ? ? ? Hev | | | | | ? ? n Hn | | |]; subst;
    try exact Hk; cbn [written]; intros r'; rewrite ?lookup_insert_Some, ?map_lookup_filter_Some, ?lookup_empty.
  - intros [[_ <-]|[_ Hr]]; [cbn; lia|by apply Hk].
  - intros [[_ <-]|[_ Hr]]; [cbn; lia|by apply Hk].
  - intros [Hr _]. by apply Hk.
  - done.
Qed.

Definition replaces_version (k : CacheKey) (u : Z) (x : Instant * MokaOp * MokaResult) : Prop :=
  exists now e d v, x = (now, MoCas k (IfVersion u) e d, MrCas (Ok (Replaced v))).

Lemma replaced_spent now L k u e d v L' :
  lossy_step now L (MoCas k (IfVersion u) e d) (MrCas (Ok (Replaced v))) L' ->
  versions_bounded L -> counter L < u64_max -> ~ spent k u L /\ spent k u L'.
Proof.
  intros Hs Hv Hm. assert (Hw : wrap64 (counter L + 1) = counter L + 1).
  { destruct Hv. apply wrap64_small. unfold u64. lia. }
  inversion Hs as [| | | |? ? ? r ? Hr Hvis Hq Hev| | | | | | | |]; subst.
  destruct Hv as [_ Hv]. pose proof (Hv _ _ Hr).
  split; [intros [_ Hk]; specialize (Hk _ Hr); lia|]. split; [cbn; lia|]. cbn. intros r'.
  rewrite lookup_insert_Some. intros [[_ <-]|[? _]]; [cbn; lia|done].
Qed.

Lemma spent_run L out L' k u :
  lossy_run L out L' -> versions_bounded L -> counter L + Z.of_nat (length out) <= u64_max ->
  spent k u L -> Forall (fun x => ~ replaces_version k u x) out.
Proof.
  induction 1 as [|L now op res L1 rest L2 Hs Hrun IH]; intros Hv Hm Hk; [constructor|].
  cbn [length] in Hm. destruct (lossy_step_versions _ _ _ _ _ Hs Hv) as [Hv1 Hle]; [lia|].
  constructor.
  - intros (n & e & d & v & [= -> -> ->]). eapply replaced_spent in Hs as [Hn _]; [done|done|lia].
  - apply IH; [done|lia|]. eapply spent_step; [done|done|lia|done].
Qed.

Lemma replaces_once L out L' k u i j x y :
  lossy_run L out L' -> versions_bounded L -> counter L + Z.of_nat (length out) <= u64_max ->
  out !! i = Some x -> out !! j = Some y -> replaces_version k u x -> replaces_version k u y -> i = j.
Proof.
  intros Hrun. revert i j. induction Hrun as [|L now op res L1 rest L2 Hs Hrun IH]; intros i j Hv Hm Hi Hj Hx Hy;
    [done|].
  cbn [length] in Hm. destruct (lossy_step_versions _ _ _ _ _ Hs Hv) as [Hv1 Hle]; [lia|].
  assert (Hhead : forall z, replaces_version k u (now, op, res) -> z ∈ rest -> ~ replaces_version k u z).
  { intros z (n & e & d & v & [= -> -> ->]) Hz. eapply replaced_spent in Hs as [_ Hs1]; [|done|lia].
    assert (Hf : Forall (fun x => ~ replaces_version k u x) rest) by (eapply spent_run; [done|done|lia|done]).
    rewrite List.Forall_forall in Hf. apply Hf. by apply list_elem_of_In. }
  destruct i as [|i], j as [|j]; cbn in Hi, Hj; [done|..].
  - injection Hi as <-. apply list_elem_of_lookup_2 in Hj. exfalso. by apply (Hhead y).
  - injection Hj as <-. apply list_elem_of_lookup_2 in Hi. exfalso. by apply (Hhead x).
  - f_equal. apply IH; [done|lia|done..].
Qed.

(** ** Properties *)


(** No update is lost: of all the calls ever made on a store (fewer than 2^64),
    at most one replaces the record with a given version of a key. *)
Theorem moka_no_lost_update limit t calls k u i j x y :
  clocks_ok t (moka_with_limit limit) calls -> Z.of_nat (length calls) <= u64_max ->
  (moka_run (moka_with_limit limit) calls).1 !! i = Some x ->
  (moka_run (moka_with_limit limit) calls).1 !! j = Some y ->
  replaces_version k u x -> replaces_version k u y -> i = j.
Proof.
  intros Hok Hlen. destruct (run_refines calls t _ _ (refines_initial t limit) Hok) as [L Hrun].
  apply (replaces_once _ _ _ k u i j x y Hrun).
  - split; [done|]. cbn. intros k' r. by rewrite lookup_empty.
  - cbn [counter]. rewrite Z.add_0_l. etransitivity; [|exact Hlen]. apply Nat2Z.inj_le, Nat.eq_le_incl.
    clear. generalize (moka_with_limit limit). induction calls as [|[op c] calls IH]; intros s; [done|].
    cbn. destruct (moka_exec s op c) as [res s1]. specialize (IH s1). destruct (moka_run s1 calls). cbn in *. by rewrite IH.
Qed.

End Lossy.

(** ** The library without a size limit *)

(** An implementation of the calls as documented: an entry is created with the
    lifetime [expire_after_create] gives it, a replacement of a live entry takes
    the lifetime [expire_after_update] makes of what is left, a reading past the
    lifetime finds nothing. *)
Module MapMoka.
Section MapMoka.
Context {HH : Hickory}.

Record map_moka := mk_map_moka {
  mm_policy : Expiry;
  mm_entries : gmap CacheKey (CacheRecord * option Instant)
}.

Definition live (t : Instant) (x : CacheRecord * option Instant) : option CacheRecord :=
  match x.2 with
  | Some until => if t <? until then Some x.1 else None
  | None => Some x.1
  end.

Definition map_held (t : Instant) (m : map_moka) : gmap CacheKey CacheRecord :=
  omap (live t) (mm_entries m).

Definition with_entries (m : map_moka) (es : gmap CacheKey (CacheRecord * option Instant)) : map_moka :=
  mk_map_moka (mm_policy m) es.

Definition map_insert (t : Instant) (k : CacheKey) (r : CacheRecord) (m : map_moka) : map_moka :=
  let lifetime := match mm_entries m !! k with
    | Some x =>
      match live t x with
      | Some _ => expire_after_update (mm_policy m) k r t ((fun u => duration_since u t) <$> x.2)
      | None => expire_after_create (mm_policy m) k r t
      end
    | None => expire_after_create (mm_policy m) k r t
    end in
  with_entries m (<[k := (r, (fun d => t + d) <$> lifetime)]> (mm_entries m)).

#[global] Instance map_moka_calls : Moka := {|
  moka := map_moka;
  moka_build := fun _ policy _ => mk_map_moka policy ∅;
  moka_run_pending_tasks := fun t m =>
    with_entries m (filter (fun kx => is_Some (live t kx.2)) (mm_entries m));
  moka_get := fun t k m => (map_held t m !! k, m);
  moka_insert := map_insert;
  moka_invalidate := fun _ k m => with_entries m (delete k (mm_entries m));
  moka_invalidate_all := fun _ m => with_entries m ∅;
  moka_iter := fun t m => map_to_list (map_held t m);
  moka_entry_count := fun m => Z.of_nat (size (mm_entries m));
  moka_weighted_size := fun _ => 0;
  moka_notifications := fun _ => []
|}.

Lemma lookup_map_held t (m : map_moka) k r :
  map_held t m !! k = Some r <-> exists x, mm_entries m !! k = Some x /\ live t x = Some r.
Proof. unfold map_held. rewrite lookup_omap, bind_Some. done. Qed.

#[global] Instance map_moka_laws : MokaLaws map_moka_calls.
Proof.
  refine {| held := map_held |}; cbn [moka moka_build moka_run_pending_tasks moka_get moka_insert
    moka_invalidate moka_invalidate_all moka_iter map_moka_calls fst snd]; intros.
  - apply map_subseteq_spec. intros k r. rewrite !lookup_map_held. intros (x & Hx & Hl). exists x.
    split; [done|]. unfold live in *. destruct x as [r0 [u|]]; cbn in *; [|done].
    destruct (Z.ltb_spec t' u); [|done]. by rewrite (proj2 (Z.ltb_lt _ _)) by lia.
  - unfold map_held. apply omap_empty.
  - apply map_subseteq_spec. intros k r. rewrite !lookup_map_held. intros (x & Hx & Hl). exists x.
    split; [|done]. cbn in Hx. by apply map_lookup_filter_Some in Hx as [? _].
  - done.
  - done.
  - apply map_subseteq_spec. intros k' r'. rewrite lookup_map_held. unfold map_insert, with_entries.
    cbn [mm_entries]. intros (x & Hx & Hl). apply lookup_insert_Some in Hx as [[-> <-]|[Hne Hx]].
    + rewrite lookup_insert_eq. unfold live in Hl. cbn [fst snd] in Hl.
      destruct (_ <$> _) as [u|]; [destruct (t <? u); [|done]|]; by injection Hl as <-.
    + rewrite lookup_insert_ne by done. apply lookup_map_held. by exists x.
  - apply map_subseteq_spec. intros k' r'. rewrite lookup_delete_Some, !lookup_map_held. cbn.
    intros (x & Hx & Hl). apply lookup_delete_Some in Hx as [? ?]. split; [done|by exists x].
  - unfold map_held. cbn. apply omap_empty.
  - apply elem_of_map_to_list.
Defined.

End MapMoka.
End MapMoka.

Section MokaWitness.
Import Sample MapMoka.

Definition moka_key : CacheKey := mk_key NsGlobal [x01] 2.
Definition steady (t : Instant) : nat -> Instant := fun _ => t.

(** A lookup, an insertion, a replacement, a second replacement of the same
    version, a lookup, an invalidation of everything and a lookup. *)
Definition moka_calls : list (MokaOp * (nat -> Instant)) :=
  let far := sample_now + from_secs 5000 in
  [(MoGet moka_key far, steady sample_now);
   (MoCas moka_key Absent sample_entry far, steady sample_now);
   (MoCas moka_key (IfVersion 1) sample_entry far, steady (sample_now + from_secs 1));
   (MoCas moka_key (IfVersion 1) sample_entry far, steady (sample_now + from_secs 2));
   (MoGet moka_key far, steady (sample_now + from_secs 3));
   (MoInvalidate InvAll far, steady (sample_now + from_secs 4));
   (MoGet moka_key far, steady (sample_now + from_secs 5))].

(** The version a result speaks of. *)
Definition version_of (x : Instant * MokaOp * MokaResult) : option Z :=
  match x.2 with
  | MrGet (Ok (Some r)) => Some (version r)
  | MrCas (Ok (Inserted v)) | MrCas (Ok (Replaced v)) => Some v
  | MrCas (Ok (Conflict (Some v))) => Some v
  | MrInvalidate (Ok n) => Some n
  | _ => None
  end.

Example moka_calls_answers :
  version_of <$> (moka_run (moka_with_limit (HH := hickory) None) moka_calls).1 =
  [None; Some 1; Some 2; Some 2; Some 2; Some 1; None].
Proof. vm_compute. reflexivity. Qed.

Lemma steady_monotone t : monotone_clock (steady t).
Proof. intros i j _. unfold steady. lia. Qed.

Lemma moka_calls_clocks : clocks_ok sample_now (moka_with_limit (HH := hickory) None) moka_calls.
Proof.
  unfold moka_calls. cbn [clocks_ok]. unfold steady at 1 3 5 7 9 11 13.
  split_and!; try apply steady_monotone; try done; unfold steady, from_secs, nanos_per_sec; lia.
Qed.


(** The third call replaces version 1; it is the only one. *)
Lemma moka_no_lost_update_witness :
  exists x, (moka_run (moka_with_limit (HH := hickory) None) moka_calls).1 !! 2%nat = Some x /\
    forall i y, (moka_run (moka_with_limit (HH := hickory) None) moka_calls).1 !! i = Some y ->
      replaces_version moka_key 1 y -> i = 2%nat.
Proof.
  assert (Hx : exists x, (moka_run (moka_with_limit (HH := hickory) None) moka_calls).1 !! 2%nat = Some x /\
    replaces_version moka_key 1 x).
  { eexists. split; [reflexivity|]. by eexists _, _, _, _. }
  destruct Hx as (x & Hx & Hr). exists x. split; [exact Hx|]. intros i y Hy Hry.
  refine (moka_no_lost_update (HH := hickory) None sample_now moka_calls moka_key 1 i 2 y x
    moka_calls_clocks _ Hy Hx Hry Hr). by vm_compute.
Defined.

(** ** A replacement keeps the lifetime of the record it replaces *)

(** The sample entry with another expiry. *)
Definition entry_until (t : Instant) : CacheEntry :=
  mk_entry (CacheModel.response sample_entry) sample_upstream sample_now t None C_NoError 1 Q_Complete 0 2.

Definition refresh_calls : list (MokaOp * (nat -> Instant)) :=
  let far := sample_now + from_secs 50000 in
  [(MoCas moka_key Absent (entry_until (sample_now + from_secs 30)) far, steady sample_now);
   (MoCas moka_key (IfVersion 1) (entry_until (sample_now + from_secs 3600)) far,
      steady (sample_now + from_secs 29));
   (MoGet moka_key far, steady (sample_now + from_secs 89));
   (MoGet moka_key far, steady (sample_now + from_secs 91))].

(** A record that lives 30 s is refreshed after 29 s with one that lives an hour.
    [MokaExpiry] leaves [expire_after_update] at its default, so the new record
    goes at the retention deadline of the old one: it is found 89 s after the
    first insertion and gone at 91 s. The in-memory store, given the same calls,
    still has it. *)
Theorem refreshed_record_is_lost :
  version_of <$> (moka_run (moka_with_limit (HH := hickory) None) refresh_calls).1 =
    [Some 1; Some 2; Some 2; None] /\
  (let far := sample_now + from_secs 50000 in
   let s0 := CacheStore.with_limit (HH := hickory) None in
   let s1 := (compare_and_swap s0 moka_key Absent (entry_until (sample_now + from_secs 30)) far
                sample_now sample_now).2 in
   let s2 := (compare_and_swap s1 moka_key (IfVersion 1) (entry_until (sample_now + from_secs 3600)) far
                (sample_now + from_secs 29) (sample_now + from_secs 29)).2 in
   match (get s2 moka_key far (sample_now + from_secs 91) (sample_now + from_secs 91)).1 with
   | Ok (Some r) => Some (version r)
   | _ => None
   end = Some 2).
Proof. split; vm_compute; reflexivity. Qed.

End MokaWitness.
