(* ===== verification/Snapshot.v ===== *)
(** * Cache snapshot files (src/backend/src/cache/snapshot.rs)

    A snapshot is a 60-byte header and a body of length-prefixed records; the
    header carries a SHA-256 of body and metadata. The writer fills a temporary
    file beside the target and renames it over the target; the reader checks
    length and checksum before it hands out records in batches.

    The disk is a map from paths to nodes. Every call that can fail asks an oracle
    first, and a failed write leaves a prefix of its bytes; the disk states a run
    goes through are logged, so that a crash at any point can be spoken of. The
    clocks are oracles too. SHA-256 is a parameter, as is the resolution of
    symbolic links by the operating system; the records come from
    [MokaStore.visit_snapshot_batches]. The Windows variants of [replace_file] and
    [sync_directory] are left out. *)

From stdpp Require Import pretty.
From S2P Require Import Prelude Text Message CacheModel CacheKeyEnc CacheAdmission CacheCodec MokaStore.

Definition SNAPSHOT_MAGIC : list byte := str_bytes "FDCS".
Definition SNAPSHOT_FORMAT_VERSION : Z := 1.
Definition HEADER_BYTES : Z := 60.
Definition MAX_RECORDS : Z := 100000.
Definition MAX_RECORD_BYTES : Z := 2 * 1024 * 1024.
Definition CHECKSUM_BYTES : nat := 32.
Definition VERIFY_BUFFER_BYTES : Z := 64 * 1024.

Inductive IoError := NotFound | AlreadyExists | UnexpectedEof | IoOther (code : Z).

Inductive CacheSnapshotError :=
| SnTimeout | SnUnavailable | SnSuperseded | SnCorrupt | SnIncompatible | SnResourceExhausted
| SnIo (e : IoError).

Record CacheSnapshotWriteSummary := mk_write_summary {
  ws_generated_at_utc_millis : Z;
  ws_records : Z;
  ws_bytes : Z
}.

Record CacheRecoverySummary := mk_recovery {
  rs_loaded : Z;
  rs_expired : Z;
  rs_corrupt : Z;
  rs_incompatible : Z
}.

(** ** The header *)

Record Header := mk_header {
  hd_generated_at_utc_millis : Z;
  hd_record_count : Z;
  hd_body_bytes : Z;
  hd_checksum : list byte
}.

Definition encode_header (h : Header) : list byte :=
  SNAPSHOT_MAGIC ++ be_bytes 2 SNAPSHOT_FORMAT_VERSION ++ be_bytes 2 HEADER_BYTES ++
  be_bytes 8 (hd_generated_at_utc_millis h) ++ be_bytes 4 (hd_record_count h) ++
  be_bytes 8 (hd_body_bytes h) ++ hd_checksum h.

Definition byte_slice (l : list byte) (from to : nat) : list byte := take (to - from) (drop from l).

Definition decode_header (bytes : list byte) : result CacheSnapshotError Header :=
  if negb (bool_decide (byte_slice bytes 0 4 = SNAPSHOT_MAGIC)) then Err SnCorrupt
  else if negb (from_be (byte_slice bytes 4 6) =? SNAPSHOT_FORMAT_VERSION) then Err SnIncompatible
  else if negb (from_be (byte_slice bytes 6 8) =? HEADER_BYTES) then Err SnCorrupt
  else Ok (mk_header (from_be (byte_slice bytes 8 16)) (from_be (byte_slice bytes 16 20))
             (from_be (byte_slice bytes 20 28)) (byte_slice bytes 28 60)).

(** The bytes [update_metadata_checksum] feeds to the hasher. *)
Definition metadata_bytes (h : Header) : list byte :=
  be_bytes 8 (hd_generated_at_utc_millis h) ++ be_bytes 4 (hd_record_count h) ++
  be_bytes 8 (hd_body_bytes h).

Definition map_codec_error (e : CodecError) : CacheSnapshotError :=
  match e with
  | Corrupt => SnCorrupt
  | Incompatible => SnIncompatible
  | CodecResourceExhausted => SnResourceExhausted
  end.

(** ** The disk *)

(** A path: absolute or not, and its components. *)
Record Path := mk_path { p_absolute : bool; p_components : list string }.
#[global] Instance Path_eq_dec : EqDecision Path.
Proof. solve_decision. Defined.
#[global] Instance Path_countable : Countable Path.
Proof.
  apply (inj_countable' (fun p => (p_absolute p, p_components p)) (fun x => mk_path x.1 x.2)).
  by intros [].
Defined.

(** [Path::file_name], for components that are names. *)
Definition path_file_name (p : Path) : option string := head (reverse (p_components p)).
(** [Path::parent]. *)
Definition parent (p : Path) : option Path :=
  match p_components p with
  | [] => None
  | _ :: _ => Some (mk_path (p_absolute p) (removelast (p_components p)))
  end.
Definition path_is_empty (p : Path) : bool := negb (p_absolute p) && bool_decide (p_components p = []).
Definition with_file_name (p : Path) (name : string) : Path :=
  mk_path (p_absolute p) (removelast (p_components p) ++ [name]).

(** [path.parent().filter(|value| !value.as_os_str().is_empty())]. *)
Definition parent_dir (p : Path) : option Path :=
  match parent p with
  | Some d => if path_is_empty d then None else Some d
  | None => None
  end.

Inductive Node := Regular (content : list byte) | SymLink | Directory.
#[global] Instance Node_eq_dec : EqDecision Node.
Proof. solve_decision. Defined.

Abbreviation Disk := (gmap Path Node).

(** [w_log] holds the states the disk has been in, the present one first. *)
Record World := mk_world {
  w_disk : Disk;
  w_ticks : nat;
  w_next_temp_file : Z;
  w_log : list Disk
}.

(** ** Computations with state and errors *)

Definition ST (S A : Type) : Type := S -> result CacheSnapshotError A * S.
#[global] Instance st_ret S : MRet (ST S) := fun _ a s => (Ok a, s).
#[global] Instance st_bind S : MBind (ST S) := fun _ _ f m s =>
  match m s with (Ok a, s') => f a s' | (Err e, s') => (Err e, s') end.

Definition st_fail {S A} (e : CacheSnapshotError) : ST S A := fun s => (Err e, s).
Definition st_lift {S A} (r : result CacheSnapshotError A) : ST S A := fun s => (r, s).
Definition st_get {S} : ST S S := fun s => (Ok s, s).
Definition st_put {S} (s : S) : ST S unit := fun _ => (Ok tt, s).

Section Effects.
Context {HH : Hickory} {M : Moka}.
(** SHA-256. *)
Context (sha256 : list byte -> list byte).
(** Readings of the monotonic clock and of the wall clock (nanoseconds since the
    epoch); the failure of a call, if it fails, and how much of a failed write
    reached the disk. *)
Context (clock : nat -> Instant) (wall : nat -> Z).
Context (fault : nat -> option IoError) (partial : nat -> nat).
(** [std::process::id] and the resolution of links on opening. *)
Context (process_id : Z) (resolve : Disk -> Path -> Path).

Abbreviation IO := (ST World).

Definition next_tick : IO nat := fun w =>
  (Ok (w_ticks w), mk_world (w_disk w) (S (w_ticks w)) (w_next_temp_file w) (w_log w)).
Definition instant_now : IO Instant := n ← next_tick; mret (clock n).
(** What [system_time_nanos] makes of the reading [n] of the wall clock. *)
Definition wall_nanos (n : nat) : Z := if wall n <? 0 then 0 else Z.min (wall n) u64_max.
Definition system_time_nanos : IO Z := n ← next_tick; mret (wall_nanos n).
Definition system_time_millis : IO Z :=
  n ← next_tick; mret (if wall n <? 0 then 0 else Z.min (wall n / 1000000) u64_max).

Definition set_disk (d : Disk) : IO unit := fun w =>
  (Ok tt, mk_world d (w_ticks w) (w_next_temp_file w) (d :: w_log w)).
Definition get_disk : IO Disk := fun w => (Ok (w_disk w), w).

(** A call to the operating system that may fail. *)
Definition io_call : IO unit :=
  n ← next_tick; match fault n with Some e => st_fail (SnIo e) | None => mret tt end.

Definition ensure_deadline (deadline : Deadline) : IO unit :=
  t ← instant_now; if is_expired deadline t then st_fail SnTimeout else mret tt.

(** ** Calls on files *)

(** [data] written at [pos] into a file that is [pos] bytes long or longer. *)
Definition splice (content : list byte) (pos : nat) (data : list byte) : list byte :=
  take pos content ++ data ++ drop (pos + length data) content.

Definition write_all (p : Path) (pos : nat) (data : list byte) : IO unit :=
  n ← next_tick;
  d ← get_disk;
  match d !! p with
  | Some (Regular content) =>
    match fault n with
    | Some e =>
      _ ← set_disk (<[p := Regular (splice content pos (take (partial n) data))]> d);
      st_fail (SnIo e)
    | None => set_disk (<[p := Regular (splice content pos data)]> d)
    end
  | _ => st_fail (SnIo NotFound)
  end.

(** [OpenOptions::create_new(true)]. *)
Definition create_new (p : Path) : IO unit :=
  _ ← io_call;
  d ← get_disk;
  match d !! p with
  | Some _ => st_fail (SnIo AlreadyExists)
  | None => set_disk (<[p := Regular []]> d)
  end.

(** [fs::rename]: a directory is not replaced. *)
Definition replace_file (source target : Path) : IO unit :=
  _ ← io_call;
  d ← get_disk;
  match d !! source, d !! target with
  | None, _ => st_fail (SnIo NotFound)
  | Some _, Some Directory => st_fail (SnIo (IoOther 21))
  | Some node, _ => set_disk (<[target := node]> (delete source d))
  end.

Definition sync_directory (p : Path) : IO unit := _ ← io_call; io_call.

(** [let _ = fs::remove_file(..)]. *)
Definition remove_file (p : Path) : IO unit := fun w =>
  match (_ ← io_call; d ← get_disk; set_disk (delete p d)) w with (_, w') => (Ok tt, w') end.

(** The missing directories of [fs::create_dir_all], outermost first. *)
Fixpoint create_dirs (absolute : bool) (done todo : list string) : IO unit :=
  match todo with
  | [] => mret tt
  | name :: rest =>
    let p := mk_path absolute (done ++ [name]) in
    d ← get_disk;
    _ ← match d !! p with
        | None => _ ← io_call; set_disk (<[p := Directory]> d)
        | Some (Regular _) => st_fail (SnIo AlreadyExists)
        | Some _ => mret tt
        end;
    create_dirs absolute (done ++ [name]) rest
  end.
Definition create_dir_all (p : Path) : IO unit :=
  _ ← io_call; create_dirs (p_absolute p) [] (p_components p).

Definition reject_non_regular_target (p : Path) : IO unit :=
  n ← next_tick;
  match fault n with
  | Some NotFound => mret tt
  | Some e => st_fail (SnIo e)
  | None =>
    d ← get_disk;
    match d !! p with
    | Some (Regular _) | None => mret tt
    | Some _ => st_fail SnUnavailable
    end
  end.

Definition temporary_path (p : Path) : IO Path := fun w =>
  let id := w_next_temp_file w in
  let name := match path_file_name p with
    | Some n => if bool_decide (is_Some (utf8_decode (str_bytes n))) then n else "cache.snapshot"%string
    | None => "cache.snapshot"%string
    end in
  (Ok (with_file_name p ("." ++ name ++ ".tmp-" ++ pretty process_id ++ "-" ++ pretty id)%string),
   mk_world (w_disk w) (w_ticks w) (wrap64 (id + 1)) (w_log w)).

(** ** Writing *)

(** What the closure given to the store updates; the world with it. *)
Record Visitor := mk_visitor {
  vs_world : World;
  vs_hashed : list byte;
  vs_body_bytes : Z;
  vs_record_count : Z;
  vs_seen : gset (list byte);
  vs_pos : nat
}.

Definition on_world {A} (m : IO A) : ST Visitor A := fun v =>
  let '(r, w) := m (vs_world v) in
  (r, mk_visitor w (vs_hashed v) (vs_body_bytes v) (vs_record_count v) (vs_seen v) (vs_pos v)).

Definition digest_of (key : CacheKey) : result CacheSnapshotError (list byte) :=
  sha256 <$> map_err map_codec_error (encode_storage_key key).

(** [record_count.checked_add(1).filter(|count| *count <= MAX_RECORDS)]. *)
Definition next_count (count : Z) : option Z :=
  if (count + 1 <=? u32_max) && (count + 1 <=? MAX_RECORDS) then Some (count + 1) else None.

(** [u32::try_from(len).ok().filter(|length| *length <= MAX_RECORD_BYTES)]. *)
Definition record_length (payload : list byte) : option Z :=
  if (bytes_len payload <=? u32_max) && (bytes_len payload <=? MAX_RECORD_BYTES)
  then Some (bytes_len payload) else None.

(** The writes at the position of the file handle, which a write advances. *)
Definition append (temp : Path) (data : list byte) : ST Visitor unit :=
  v ← st_get;
  _ ← on_world (write_all temp (vs_pos v) data);
  v ← st_get;
  st_put (mk_visitor (vs_world v) (vs_hashed v) (vs_body_bytes v) (vs_record_count v) (vs_seen v)
    (vs_pos v + length data)).

(** The length and the payload, to the file and to the hasher. *)
Definition store_payload (temp : Path) (payload : list byte) : ST Visitor unit :=
  length ← st_lift (ok_or SnResourceExhausted (record_length payload));
  let length_bytes := be_bytes 4 length in
  _ ← append temp length_bytes;
  _ ← append temp payload;
  v ← st_get;
  _ ← st_put (mk_visitor (vs_world v) (vs_hashed v ++ length_bytes ++ payload) (vs_body_bytes v)
        (vs_record_count v) (vs_seen v) (vs_pos v));
  body ← st_lift (ok_or SnResourceExhausted (checked_add64 (vs_body_bytes v) (4 + length)));
  v ← st_get;
  st_put (mk_visitor (vs_world v) (vs_hashed v) body (vs_record_count v) (vs_seen v) (vs_pos v)).

Definition write_record (temp : Path) (now : Instant) (deadline : Deadline)
    (key : CacheKey) (r : CacheRecord) : ST Visitor unit :=
  _ ← on_world (ensure_deadline deadline);
  digest ← st_lift (digest_of key);
  v ← st_get;
  if bool_decide (digest ∈ vs_seen v) then mret tt
  else
    _ ← st_put (mk_visitor (vs_world v) (vs_hashed v) (vs_body_bytes v) (vs_record_count v)
          ({[digest]} ∪ vs_seen v) (vs_pos v));
    count ← st_lift (ok_or SnResourceExhausted (next_count (vs_record_count v)));
    v ← st_get;
    _ ← st_put (mk_visitor (vs_world v) (vs_hashed v) (vs_body_bytes v) count (vs_seen v) (vs_pos v));
    w1 ← on_world system_time_nanos;
    w2 ← on_world system_time_nanos;
    payload ← st_lift (map_err map_codec_error (encode_record key r now w1 w2));
    store_payload temp payload.

Fixpoint write_records (temp : Path) (now : Instant) (deadline : Deadline)
    (batch : list (CacheKey * CacheRecord)) : ST Visitor unit :=
  match batch with
  | [] => mret tt
  | (key, r) :: rest =>
    _ ← write_record temp now deadline key r; write_records temp now deadline rest
  end.

Definition visitor_tick (v : Visitor) : Instant * Visitor :=
  (clock (w_ticks (vs_world v)), (on_world instant_now v).2).

Definition visit_error (e : SnapshotVisitError CacheSnapshotError) : CacheSnapshotError :=
  match e with
  | ZeroBatchSize => SnResourceExhausted
  | VisitTimeout => SnTimeout
  | VisitUnavailable => SnUnavailable
  | VisitVisitor e => e
  end.

(** The visit of the store with fresh counters, after the header. *)
Definition visit_store (temp : Path) (now : Instant) (store : MokaCacheStore) (batch_size : nat)
    (deadline : Deadline) :
    IO (result (SnapshotVisitError CacheSnapshotError) Z * MokaCacheStore * Visitor) := fun w =>
  let '(r, store', v) := visit_snapshot_batches visitor_tick (write_records temp now deadline)
    store batch_size deadline (mk_visitor w [] 0 0 ∅ (Z.to_nat HEADER_BYTES)) in
  (Ok (r, store', v), vs_world v).

(** The store is left as [visit_snapshot_batches] leaves it. *)
Definition write_temporary_snapshot (store : MokaCacheStore) (temp : Path) (batch_size : nat)
    (deadline : Deadline) : IO (CacheSnapshotWriteSummary * MokaCacheStore) :=
  generated ← system_time_millis;
  _ ← create_new temp;
  _ ← write_all temp 0 (replicate (Z.to_nat HEADER_BYTES) x00);
  now ← instant_now;
  '(visited, store', v) ← visit_store temp now store batch_size deadline;
  match visited with
  | Err e => st_fail (visit_error e)
  | Ok _ =>
    let without := mk_header generated (vs_record_count v) (vs_body_bytes v) (replicate CHECKSUM_BYTES x00) in
    let checksum := sha256 (vs_hashed v ++ metadata_bytes without) in
    let header := encode_header (mk_header generated (vs_record_count v) (vs_body_bytes v) checksum) in
    _ ← io_call;
    _ ← write_all temp 0 header;
    _ ← io_call;
    mret (mk_write_summary generated (vs_record_count v) (HEADER_BYTES + vs_body_bytes v), store')
  end.

(** The temporary file does not outlive a failure. *)
Definition or_remove {A} (temp : Path) (m : IO A) : IO A := fun w =>
  match m w with
  | (Err e, w') => (Err e, (remove_file temp w').2)
  | ok => ok
  end.

(** [publish_current] is asked once the temporary file is complete. *)
Definition write_cache_snapshot_if_current (store : MokaCacheStore) (path : Path) (batch_size : nat)
    (deadline : Deadline) (publish_current : IO bool) : IO (CacheSnapshotWriteSummary * MokaCacheStore) :=
  _ ← ensure_deadline deadline;
  _ ← match parent_dir path with Some d => create_dir_all d | None => mret tt end;
  _ ← reject_non_regular_target path;
  temp ← temporary_path path;
  or_remove temp (
    out ← write_temporary_snapshot store temp batch_size deadline;
    _ ← ensure_deadline deadline;
    current ← publish_current;
    if negb (current : bool) then st_fail SnSuperseded
    else
      _ ← replace_file temp path;
      _ ← match parent_dir path with Some d => sync_directory d | None => mret tt end;
      mret out).

Definition write_cache_snapshot (store : MokaCacheStore) (path : Path) (batch_size : nat)
    (deadline : Deadline) : IO (CacheSnapshotWriteSummary * MokaCacheStore) :=
  write_cache_snapshot_if_current store path batch_size deadline (mret true).

(** ** Reading *)

(** The open file is what is left to read of it. *)
Record CacheSnapshotReader := mk_reader {
  rd_file : list byte;
  rd_generated_at_utc_millis : Z;
  rd_snapshot_bytes : Z;
  rd_remaining : Z;
  rd_now : Instant;
  rd_summary : CacheRecoverySummary;
  rd_seen : gset (list byte)
}.

(** [Read::read_exact] on the rest of a file. *)
Definition file_read_exact (n : nat) (file : list byte) : IO (list byte * list byte) :=
  _ ← io_call;
  if (n <=? length file)%nat then mret (take n file, drop n file) else st_fail (SnIo UnexpectedEof).

Definition snapshot_is_answerable (r : CacheRecord) (now : Instant) : bool :=
  (now <? expires_at (entry r)) ||
  match stale_until (entry r) with Some s => now <? s | None => false end.

(** The reading loop of [open_cache_snapshot]; a round takes at least a byte. *)
Fixpoint verify_loop (fuel : nat) (deadline : Deadline) (remaining : Z) (file hashed : list byte) :
    IO (list byte) :=
  if remaining <=? 0 then mret hashed
  else match fuel with
  | O => mret hashed
  | S fuel' =>
    _ ← ensure_deadline deadline;
    let length := Z.min remaining VERIFY_BUFFER_BYTES in
    '(buffer, rest) ← file_read_exact (Z.to_nat length) file;
    verify_loop fuel' deadline (remaining - length) rest (hashed ++ buffer)
  end.

Definition open_cache_snapshot (path : Path) (max_file_bytes : Z) (deadline : Deadline) :
    IO (option CacheSnapshotReader) :=
  _ ← ensure_deadline deadline;
  n ← next_tick;
  d ← get_disk;
  match fault n, d !! resolve d path with
  | Some NotFound, _ | None, None => mret None
  | Some e, _ => st_fail (SnIo e)
  | None, Some node =>
    _ ← io_call;
    match node with
    | Regular file =>
      if bytes_len file <? HEADER_BYTES then st_fail SnCorrupt
      else if max_file_bytes <? bytes_len file then st_fail SnResourceExhausted
      else
        '(header_bytes, body) ← file_read_exact (Z.to_nat HEADER_BYTES) file;
        header ← st_lift (decode_header header_bytes);
        if (MAX_RECORDS <? hd_record_count header) ||
           negb (bool_decide (checked_add64 HEADER_BYTES (hd_body_bytes header) = Some (bytes_len file)))
        then st_fail SnCorrupt
        else
          hashed ← verify_loop (length body) deadline (hd_body_bytes header) body [];
          if negb (bool_decide (sha256 (hashed ++ metadata_bytes header) = hd_checksum header))
          then st_fail SnCorrupt
          else
            _ ← io_call;
            now ← instant_now;
            mret (Some (mk_reader body (hd_generated_at_utc_millis header) (bytes_len file)
              (hd_record_count header) now (mk_recovery 0 0 0 0) ∅))
    | _ => st_fail SnCorrupt
    end
  end.

(** ** Batches *)

Definition bump_loaded (s : CacheRecoverySummary) : CacheRecoverySummary :=
  mk_recovery (sat_add64 (rs_loaded s) 1) (rs_expired s) (rs_corrupt s) (rs_incompatible s).
Definition bump_expired (s : CacheRecoverySummary) : CacheRecoverySummary :=
  mk_recovery (rs_loaded s) (sat_add64 (rs_expired s) 1) (rs_corrupt s) (rs_incompatible s).
Definition bump_corrupt (s : CacheRecoverySummary) : CacheRecoverySummary :=
  mk_recovery (rs_loaded s) (rs_expired s) (sat_add64 (rs_corrupt s) 1) (rs_incompatible s).
Definition bump_incompatible (s : CacheRecoverySummary) : CacheRecoverySummary :=
  mk_recovery (rs_loaded s) (rs_expired s) (rs_corrupt s) (sat_add64 (rs_incompatible s) 1).

Definition with_summary (rd : CacheSnapshotReader) (s : CacheRecoverySummary) : CacheSnapshotReader :=
  mk_reader (rd_file rd) (rd_generated_at_utc_millis rd) (rd_snapshot_bytes rd) (rd_remaining rd)
    (rd_now rd) s (rd_seen rd).
Definition with_file (rd : CacheSnapshotReader) (file : list byte) (remaining : Z) : CacheSnapshotReader :=
  mk_reader file (rd_generated_at_utc_millis rd) (rd_snapshot_bytes rd) remaining
    (rd_now rd) (rd_summary rd) (rd_seen rd).
Definition see (rd : CacheSnapshotReader) (digest : list byte) : CacheSnapshotReader :=
  mk_reader (rd_file rd) (rd_generated_at_utc_millis rd) (rd_snapshot_bytes rd) (rd_remaining rd)
    (rd_now rd) (rd_summary rd) ({[digest]} ∪ rd_seen rd).

(** The state of the loop: the reader, which a failure leaves where it is, and
    the world. *)
Abbreviation RIO := (ST (CacheSnapshotReader * World)).
Definition in_world {A} (m : IO A) : RIO A := fun s => let '(r, w) := m s.2 in (r, (s.1, w)).
Definition get_reader : RIO CacheSnapshotReader := fun s => (Ok s.1, s).
Definition put_reader (rd : CacheSnapshotReader) : RIO unit := fun s => (Ok tt, (rd, s.2)).

(** One round of [next_batch]: the record to add to the batch, if any. *)
Definition next_record (deadline : Deadline) : RIO (option (CacheKey * CacheRecord)) :=
  _ ← in_world (ensure_deadline deadline);
  rd ← get_reader;
  '(length_bytes, rest) ← in_world (file_read_exact 4 (rd_file rd));
  let length := from_be length_bytes in
  _ ← put_reader (with_file rd rest (rd_remaining rd - 1));
  if MAX_RECORD_BYTES <? length then st_fail SnCorrupt
  else
    '(payload, rest) ← in_world (file_read_exact (Z.to_nat length) rest);
    rd ← get_reader;
    let rd := with_file rd rest (rd_remaining rd) in
    _ ← put_reader rd;
    w1 ← in_world system_time_nanos;
    w2 ← in_world system_time_nanos;
    match decode_record (rd_now rd) w1 w2 payload with
    | Ok ((key, r), _) =>
      digest ← st_lift (digest_of key);
      if bool_decide (digest ∈ rd_seen rd) then
        _ ← put_reader (with_summary rd (bump_corrupt (rd_summary rd))); mret None
      else
        let rd := see rd digest in
        if snapshot_is_answerable r (rd_now rd) then
          _ ← put_reader (with_summary rd (bump_loaded (rd_summary rd))); mret (Some (key, r))
        else
          _ ← put_reader (with_summary rd (bump_expired (rd_summary rd))); mret None
    | Err Incompatible =>
      _ ← put_reader (with_summary rd (bump_incompatible (rd_summary rd))); mret None
    | Err _ =>
      _ ← put_reader (with_summary rd (bump_corrupt (rd_summary rd))); mret None
    end.

(** Each round takes one of the remaining records. *)
Fixpoint batch_loop (fuel : nat) (batch_size : nat) (deadline : Deadline)
    (batch : list (CacheKey * CacheRecord)) : RIO (list (CacheKey * CacheRecord)) :=
  rd ← get_reader;
  if (rd_remaining rd <=? 0) || (batch_size <=? length batch)%nat then mret batch
  else match fuel with
  | O => mret batch
  | S fuel' =>
    o ← next_record deadline;
    batch_loop fuel' batch_size deadline (batch ++ match o with Some kr => [kr] | None => [] end)
  end.

Definition next_batch (batch_size : nat) (deadline : Deadline) : RIO (list (CacheKey * CacheRecord)) :=
  if (batch_size =? 0)%nat then st_fail SnResourceExhausted
  else rd ← get_reader; batch_loop (Z.to_nat (rd_remaining rd)) batch_size deadline [].

Definition is_complete (rd : CacheSnapshotReader) : bool := rd_remaining rd =? 0.

(** ** The header reads back *)

Definition header_ok (h : Header) : Prop :=
  u64 (hd_generated_at_utc_millis h) /\ 0 <= hd_record_count h <= MAX_RECORDS /\
  0 <= hd_body_bytes h /\ HEADER_BYTES + hd_body_bytes h <= u64_max /\
  length (hd_checksum h) = CHECKSUM_BYTES.

Lemma length_encode_header h : length (hd_checksum h) = CHECKSUM_BYTES -> length (encode_header h) = 60%nat.
Proof. intros H. unfold encode_header. rewrite !length_app, !length_be_bytes, H. done. Qed.

Lemma slice_skip l1 l2 from to :
  (length l1 <= from)%nat -> byte_slice (l1 ++ l2) from to = byte_slice l2 (from - length l1) (to - length l1).
Proof.
  intros H. unfold byte_slice. rewrite drop_app_ge by done. f_equal. lia.
Qed.

Lemma slice_head l1 l2 to : length l1 = to -> byte_slice (l1 ++ l2) 0 to = l1.
Proof. intros <-. unfold byte_slice. rewrite drop_0, Nat.sub_0_r. by rewrite take_app_length. Qed.

Lemma decode_encode_header h : header_ok h -> decode_header (encode_header h) = Ok h.
Proof.
  intros (Hg & Hc & Hb & Hb' & Hs). unfold MAX_RECORDS, HEADER_BYTES in *. unfold decode_header, encode_header.
  assert (Hm : length SNAPSHOT_MAGIC = 4%nat) by done.
  repeat first [rewrite slice_head by (done || apply length_be_bytes) |
    rewrite slice_skip by (rewrite ?Hm, ?length_be_bytes; lia); rewrite ?Hm, ?length_be_bytes; cbn [Nat.sub]].
  rewrite bool_decide_true, !from_be_be_bytes_small by (done || unfold_ints; cbn; lia). cbn [negb Z.eqb].
  change (HEADER_BYTES =? HEADER_BYTES) with true. cbn [negb].
  unfold byte_slice. rewrite drop_0, Nat.sub_0_r, take_ge by (rewrite Hs; done). by destruct h.
Qed.

(** ** Postconditions of computations *)

(** [m] run from [s] ends in [Q] when it succeeds and in [F] when it fails. *)
Definition outcome {S A} (m : ST S A) (s : S) (Q : A -> S -> Prop) (F : S -> Prop) : Prop :=
  match m s with (Ok a, s') => Q a s' | (Err _, s') => F s' end.

Lemma outcome_ret {S A} (a : A) (s : S) (Q : A -> S -> Prop) F : Q a s -> outcome (mret a) s Q F.
Proof. done. Qed.
Lemma outcome_fail {S A} e (s : S) (Q : A -> S -> Prop) (F : S -> Prop) : F s -> outcome (st_fail e) s Q F.
Proof. done. Qed.
Lemma outcome_bind {S A B} (m : ST S A) (f : A -> ST S B) s (R : A -> S -> Prop) Q F :
  outcome m s R F -> (forall a s', R a s' -> outcome (f a) s' Q F) -> outcome (m ≫= f) s Q F.
Proof.
  unfold outcome, mbind, st_bind. intros Hm Hf. destruct (m s) as [[a|e] s']; [by apply Hf|done].
Qed.
Lemma outcome_weaken {S A} (m : ST S A) s (Q Q' : A -> S -> Prop) (F F' : S -> Prop) :
  outcome m s Q F -> (forall a s', Q a s' -> Q' a s') -> (forall s', F s' -> F' s') -> outcome m s Q' F'.
Proof. unfold outcome. destruct (m s) as [[a|e] s']; auto. Qed.
Lemma bind_lift {S A B} (r : result CacheSnapshotError A) (f : A -> ST S B) (s : S) Q (F : S -> Prop) :
  (forall a, r = Ok a -> outcome (f a) s Q F) -> (forall e, r = Err e -> F s) ->
  outcome (st_lift r ≫= f) s Q F.
Proof. intros HQ HF. unfold outcome, st_lift, mbind, st_bind. destruct r; [by apply HQ|by eapply HF]. Qed.
Lemma bind_get {S B} (f : S -> ST S B) (s : S) Q F : outcome (f s) s Q F -> outcome (st_get ≫= f) s Q F.
Proof. done. Qed.
Lemma bind_put {S B} (f : unit -> ST S B) (s0 s : S) Q F :
  outcome (f tt) s0 Q F -> outcome (st_put s0 ≫= f) s Q F.
Proof. done. Qed.

Lemma outcome_put {S} (s0 s : S) (Q : unit -> S -> Prop) F : Q tt s0 -> outcome (st_put s0) s Q F.
Proof. done. Qed.

(** No call fails and the deadline is not reached. *)
Definition healthy (deadline : Deadline) : Prop :=
  (forall n, fault n = None) /\ (forall n, clock n < deadline).

(** The same disk, with the same past. *)
Definition same_disk (w w' : World) : Prop := w_disk w' = w_disk w /\ w_log w' = w_log w.

(** The same disk, later or at the same time. *)
Definition later (w w' : World) : Prop :=
  w_disk w' = w_disk w /\ w_log w' = w_log w /\ (w_ticks w <= w_ticks w')%nat.

Lemma later_trans w w' w'' : later w w' -> later w' w'' -> later w w''.
Proof. intros (?&?&?) (?&?&?). split_and!; [congruence..|lia]. Qed.

(** The clock reading [n] was taken between [w] and [w']. *)
Definition read_between (w w' : World) (n : nat) : Prop := (w_ticks w <= n < w_ticks w')%nat.

Lemma later_tick w : later w (mk_world (w_disk w) (S (w_ticks w)) (w_next_temp_file w) (w_log w)).
Proof. split_and!; [done..|cbn; lia]. Qed.
Lemma later_refl w : later w w.
Proof. split_and!; [done..|lia]. Qed.
Lemma wall_nanos_range n : u64 (wall_nanos n).
Proof. unfold wall_nanos. destruct (Z.ltb_spec (wall n) 0); unfold_ints; lia. Qed.
Hint Resolve later_tick later_refl wall_nanos_range : core.

Lemma tick_outcome w : outcome next_tick w (fun _ w' => later w w') (fun _ => False).
Proof. cbn. auto. Qed.

Lemma now_outcome w F :
  outcome instant_now w (fun t w' => (exists n, read_between w w' n /\ t = clock n) /\ later w w') F.
Proof. cbn. split; [|auto]. exists (w_ticks w). split; [|done]. unfold read_between. cbn. lia. Qed.

Lemma nanos_outcome w F :
  outcome system_time_nanos w (fun x w' => (exists n, read_between w w' n /\ x = wall_nanos n) /\ later w w') F.
Proof. cbn. split; [|auto]. exists (w_ticks w). split; [|done]. unfold read_between. cbn. lia. Qed.

Lemma millis_outcome w F : outcome system_time_millis w (fun x w' => u64 x /\ later w w') F.
Proof.
  cbn. split; [|auto]. destruct (Z.ltb_spec (wall (w_ticks w)) 0); [unfold_ints; lia|].
  pose proof (Z.div_pos (wall (w_ticks w)) 1000000). unfold_ints. lia.
Qed.

Lemma call_outcome w d : outcome io_call w (fun _ w' => later w w') (fun w' => later w w' /\ ~ healthy d).
Proof.
  unfold outcome, io_call, mbind, st_bind, next_tick. destruct (fault (w_ticks w)) eqn:E; cbn; [|auto].
  split; [auto|]. intros [H _]. by rewrite H in E.
Qed.

Lemma deadline_outcome w d :
  outcome (ensure_deadline d) w (fun _ w' => later w w') (fun w' => later w w' /\ ~ healthy d).
Proof.
  unfold outcome, ensure_deadline, instant_now, mbind, st_bind, next_tick. cbn.
  destruct (is_expired d (clock (w_ticks w))) eqn:E; cbn; [|auto].
  split; [auto|]. intros [_ H]. specialize (H (w_ticks w)). unfold is_expired in E. lia.
Qed.

(** The disk after a step that changed [p] only. *)
Definition rewritten (p : Path) (node : Node) (w w' : World) : Prop :=
  w_disk w' = <[p := node]> (w_disk w) /\ w_log w' = w_disk w' :: w_log w /\ (w_ticks w <= w_ticks w')%nat.

Lemma write_outcome w d p pos data content :
  w_disk w !! p = Some (Regular content) ->
  outcome (write_all p pos data) w (fun _ w' => rewritten p (Regular (splice content pos data)) w w')
    (fun w' => (exists content', rewritten p (Regular content') w w') /\ ~ healthy d).
Proof.
  intros Hp. unfold outcome, write_all, mbind, st_bind, next_tick, get_disk, set_disk. cbn. rewrite Hp.
  destruct (fault (w_ticks w)) eqn:E; cbn; [|split_and!; cbn; [done..|lia]].
  split; [eexists; split_and!; cbn; [done..|lia]|]. intros [H _]. by rewrite H in E.
Qed.

(** [q] has been the same all along. *)
Definition untouched (q : Path) (old : option Node) (w : World) : Prop :=
  w_disk w !! q = old /\ Forall (fun d : Disk => d !! q = old) (w_log w).

Lemma untouched_disk q old w w' : same_disk w w' -> untouched q old w -> untouched q old w'.
Proof. unfold untouched. by intros [-> ->]. Qed.
Lemma untouched_same q old w w' : later w w' -> untouched q old w -> untouched q old w'.
Proof. intros (Hd & Hl & _). by apply untouched_disk. Qed.

Lemma untouched_rewritten q old p node w w' :
  p <> q -> rewritten p node w w' -> untouched q old w -> untouched q old w'.
Proof.
  intros Hne (Hd & Hl & _) [H1 H2]. assert (Hq : w_disk w' !! q = old) by (by rewrite Hd, lookup_insert_ne).
  split; [done|]. rewrite Hl. by constructor.
Qed.

(** ** What the writer writes *)

Definition record_frame (payload : list byte) : list byte := be_bytes 4 (bytes_len payload) ++ payload.
Definition frames (payloads : list (list byte)) : list byte := payloads ≫= record_frame.

Lemma frames_snoc ps p : frames (ps ++ [p]) = frames ps ++ record_frame p.
Proof. unfold frames. rewrite bind_app. cbn. by rewrite app_nil_r. Qed.

Definition key_digest (k : CacheKey) : list byte :=
  match digest_of k with Ok d => d | Err _ => [] end.

(** The records a snapshot of [items] keeps: the first of each key digest. *)
Fixpoint first_of_each (seen : gset (list byte)) (items : list (CacheKey * CacheRecord)) :
    list (CacheKey * CacheRecord) :=
  match items with
  | [] => []
  | kr :: rest =>
    if bool_decide (key_digest kr.1 ∈ seen) then first_of_each seen rest
    else kr :: first_of_each ({[key_digest kr.1]} ∪ seen) rest
  end.

Definition digests (items : list (CacheKey * CacheRecord)) : gset (list byte) :=
  list_to_set (key_digest <$> items.*1).

Lemma digests_snoc items kr : digests (items ++ [kr]) = {[key_digest kr.1]} ∪ digests items.
Proof. unfold digests. rewrite !fmap_app, list_to_set_app_L. cbn. set_solver. Qed.

Lemma first_of_each_snoc seen items kr :
  first_of_each seen (items ++ [kr]) = first_of_each seen items ++
    (if bool_decide (key_digest kr.1 ∈ seen ∪ digests items) then [] else [kr]).
Proof.
  revert seen. induction items as [|x items IH]; intros seen; cbn [app first_of_each].
  - assert (E : seen ∪ digests [] = seen) by (unfold digests; cbn; set_solver). rewrite E. by case_bool_decide.
  - assert (E : digests (x :: items) = {[key_digest x.1]} ∪ digests items) by done.
    case_bool_decide as Hx; rewrite IH, E.
    + by replace (seen ∪ ({[key_digest x.1]} ∪ digests items)) with (seen ∪ digests items) by set_solver.
    + cbn [app]. by replace (seen ∪ ({[key_digest x.1]} ∪ digests items))
        with ({[key_digest x.1]} ∪ seen ∪ digests items) by set_solver.
Qed.

Lemma length_first_of_each seen items : (length (first_of_each seen items) <= length items)%nat.
Proof.
  revert seen. induction items as [|x l IH]; intros seen; cbn; [done|].
  case_bool_decide; cbn; [rewrite IH; lia|]. specialize (IH ({[key_digest x.1]} ∪ seen)). lia.
Qed.

(** [kr] encoded at [now] with readings of the wall clock from the window [from],
    [to]. *)
Definition encoded (from to : nat) (now : Instant) (kr : CacheKey * CacheRecord) (payload : list byte) : Prop :=
  exists n1 n2, (from <= n1 < to)%nat /\ (from <= n2 < to)%nat /\
    encode_record kr.1 kr.2 now (wall_nanos n1) (wall_nanos n2) = Ok payload /\
    bytes_len payload <= MAX_RECORD_BYTES.

Lemma encoded_later from to to' now krs ps :
  (to <= to')%nat -> Forall2 (encoded from to now) krs ps -> Forall2 (encoded from to' now) krs ps.
Proof.
  intros Hle. apply Forall2_impl. intros kr p (n1 & n2 & H1 & H2 & H). exists n1, n2.
  split; [lia|split; [lia|done]].
Qed.

(** The records can all be written. *)
Definition records_fit (now : Instant) (items : list (CacheKey * CacheRecord)) : Prop :=
  (forall kr, kr ∈ items -> (exists d, digest_of kr.1 = Ok d) /\
    forall w1 w2, u64 w1 -> u64 w2 ->
      exists payload, encode_record kr.1 kr.2 now w1 w2 = Ok payload /\ bytes_len payload <= MAX_RECORD_BYTES) /\
  Z.of_nat (length items) <= MAX_RECORDS.

Section Writer.
Context (temp path : Path) (old : option Node) (from start : nat) (now : Instant) (deadline : Deadline).
Context (from_start : (from <= start)%nat).
Context (total : list (CacheKey * CacheRecord)) (temp_ne : temp <> path).

Definition zeros : list byte := replicate (Z.to_nat HEADER_BYTES) x00.

(** After the records [items]. *)
Record writing (items : list (CacheKey * CacheRecord)) (v : Visitor) : Prop := {
  wr_started : (start <= w_ticks (vs_world v))%nat;
  wr_untouched : untouched path old (vs_world v);
  wr_file : w_disk (vs_world v) !! temp = Some (Regular (zeros ++ vs_hashed v));
  wr_payloads : exists ps, Forall2 (encoded from (w_ticks (vs_world v)) now) (first_of_each ∅ items) ps /\
    vs_hashed v = frames ps /\ vs_record_count v = Z.of_nat (length ps);
  wr_bytes : vs_body_bytes v = bytes_len (vs_hashed v);
  wr_bytes_max : vs_body_bytes v <= vs_record_count v * (4 + MAX_RECORD_BYTES);
  wr_count : vs_record_count v <= MAX_RECORDS;
  wr_seen : vs_seen v = digests items;
  wr_pos : vs_pos v = (length zeros + length (vs_hashed v))%nat
}.

(** A failure leaves the target as it was, and has a cause. *)
Definition visit_failed (v : Visitor) : Prop :=
  untouched path old (vs_world v) /\ ~ (healthy deadline /\ records_fit now total).

Definition set_world (v : Visitor) (w : World) : Visitor :=
  mk_visitor w (vs_hashed v) (vs_body_bytes v) (vs_record_count v) (vs_seen v) (vs_pos v).

Lemma outcome_on_world {A} (m : IO A) v (Q : A -> Visitor -> Prop) F :
  outcome m (vs_world v) (fun a w => Q a (set_world v w)) (fun w => F (set_world v w)) ->
  outcome (on_world m) v Q F.
Proof. unfold outcome, on_world. by destruct (m (vs_world v)) as [[a|e] w]. Qed.

Lemma splice_end content data : splice content (length content) data = content ++ data.
Proof.
  unfold splice. rewrite take_ge by done. rewrite drop_ge by lia. by rewrite app_nil_r.
Qed.

Lemma bind_world {A B} (m : IO A) (f : A -> ST Visitor B) v (R : A -> World -> Prop) Q F :
  outcome m (vs_world v) R (fun w => F (set_world v w)) ->
  (forall a w, R a w -> outcome (f a) (set_world v w) Q F) -> outcome (on_world m ≫= f) v Q F.
Proof.
  unfold outcome, on_world, mbind, st_bind. intros Hm Hf.
  destruct (m (vs_world v)) as [[a|e] w]; [by apply Hf|done].
Qed.

(** Appending at the end of the temporary file. *)
Lemma append_outcome v data content B (f : unit -> ST Visitor B) Q :
  untouched path old (vs_world v) -> w_disk (vs_world v) !! temp = Some (Regular content) ->
  vs_pos v = length content ->
  (forall w, untouched path old w -> w_disk w !! temp = Some (Regular (content ++ data)) ->
     (w_ticks (vs_world v) <= w_ticks w)%nat ->
     outcome (f tt) (mk_visitor w (vs_hashed v) (vs_body_bytes v) (vs_record_count v) (vs_seen v)
       (length (content ++ data))) Q visit_failed) ->
  outcome (append temp data ≫= f) v Q visit_failed.
Proof.
  intros Hu Hf Hp Hk.
  assert (Ha : outcome (append temp data) v (fun _ v' => exists w, untouched path old w /\
    w_disk w !! temp = Some (Regular (content ++ data)) /\ (w_ticks (vs_world v) <= w_ticks w)%nat /\
    v' = mk_visitor w (vs_hashed v) (vs_body_bytes v) (vs_record_count v) (vs_seen v) (length (content ++ data)))
    visit_failed).
  { unfold append. apply bind_get. eapply bind_world.
    - eapply outcome_weaken; [by apply (write_outcome _ deadline)|intros a w H; exact H|].
      intros w [[c' Hw] Hh]. split; [by eapply untouched_rewritten|naive_solver].
    - intros [] w Hw. apply bind_get, outcome_put. exists w. split; [by eapply untouched_rewritten|].
      destruct Hw as (Hd & _ & Ht). rewrite Hd, lookup_insert_eq, Hp, splice_end. split_and!; [done..|].
      cbn. by rewrite length_app, Hp. }
  eapply outcome_bind; [exact Ha|]. intros [] v' (w & ? & ? & ? & ->). by apply Hk.
Qed.

Lemma failed_same v w :
  untouched path old (vs_world v) -> later (vs_world v) w /\ ~ healthy deadline -> visit_failed (set_world v w).
Proof. intros Hu [Hs Hh]. split; [by eapply untouched_same|naive_solver]. Qed.

Lemma writing_same items v w : later (vs_world v) w -> writing items v -> writing items (set_world v w).
Proof.
  intros Hs [? ? ? (ps & Hps & ?)]. pose proof Hs as (Hd & _ & Ht).
  split; try done; cbn; [lia|by eapply untouched_same|by rewrite Hd|]. exists ps. split; [by eapply encoded_later|done].
Qed.

(** A payload is stored whole, unless it is too long or a call fails. *)
Lemma store_payload_outcome v p ps :
  untouched path old (vs_world v) -> w_disk (vs_world v) !! temp = Some (Regular (zeros ++ vs_hashed v)) ->
  vs_pos v = (length zeros + length (vs_hashed v))%nat -> vs_hashed v = frames ps ->
  vs_body_bytes v <= MAX_RECORDS * (4 + MAX_RECORD_BYTES) ->
  (MAX_RECORD_BYTES < bytes_len p -> ~ records_fit now total) ->
  outcome (store_payload temp p) v (fun _ v' => (w_ticks (vs_world v) <= w_ticks (vs_world v'))%nat /\
    untouched path old (vs_world v') /\
    w_disk (vs_world v') !! temp = Some (Regular (zeros ++ frames (ps ++ [p]))) /\
    vs_hashed v' = frames (ps ++ [p]) /\ vs_record_count v' = vs_record_count v /\
    vs_body_bytes v' = vs_body_bytes v + (4 + bytes_len p) /\ vs_seen v' = vs_seen v /\
    vs_pos v' = (length zeros + length (frames (ps ++ [p])))%nat /\ bytes_len p <= MAX_RECORD_BYTES) visit_failed.
Proof.
  intros Hu Hf Hpos Hh Hbm Hfit. unfold store_payload. apply bind_lift.
  2: { intros e He. split; [done|]. intros [_ Hfits]. revert Hfits. apply Hfit.
       unfold record_length, MAX_RECORD_BYTES in *. destruct (_ && _) eqn:E; [done|]. unfold_ints. lia. }
  intros len Hl. unfold record_length in Hl. destruct (_ && _) eqn:El; [|done]. injection Hl as <-.
  assert (Hmax : bytes_len p <= MAX_RECORD_BYTES) by lia. clear El.
  eapply append_outcome; [done|exact Hf|by rewrite length_app|].
  intros wc Huc Hfc Htc. eapply append_outcome; [done|exact Hfc|done|].
  intros wd Hud Hfd Htd. apply bind_get, bind_put. cbn [vs_world vs_hashed vs_body_bytes vs_record_count vs_seen vs_pos].
  rewrite (proj2 (checked_add64_some _ _ (vs_body_bytes v + (4 + bytes_len p)))).
  2: { split; [done|]. unfold MAX_RECORDS, MAX_RECORD_BYTES in *. unfold_ints. lia. }
  apply bind_lift; [|done]. intros body [= <-]. apply bind_get, outcome_put.
  assert (Hfr : vs_hashed v ++ be_bytes 4 (bytes_len p) ++ p = frames (ps ++ [p]))
    by (by rewrite frames_snoc, Hh).
  cbn [vs_world vs_hashed vs_body_bytes vs_record_count vs_seen vs_pos]. rewrite <-Hfr.
  cbn [vs_world] in Htd.
  split_and!; try done; [lia|by rewrite Hfd, <-!app_assoc|rewrite !length_app; lia].
Qed.

Lemma write_record_outcome items k r v :
  writing items v -> (k, r) ∈ total -> (length items < length total)%nat ->
  outcome (write_record temp now deadline k r) v (fun _ => writing (items ++ [(k, r)])) visit_failed.
Proof.
  intros Hw Hin Hlen. unfold write_record. eapply bind_world.
  { eapply outcome_weaken; [by apply deadline_outcome|intros a w H; exact H|].
    intros w. apply failed_same, Hw. }
  intros [] w Hs. apply (writing_same _ _ w) in Hw; [|done]. revert Hw. generalize (set_world v w).
  clear v w Hs. intros v Hw.
  assert (Hfail : ~ records_fit now total -> visit_failed v) by (intros; split; [apply Hw|naive_solver]).
  apply bind_lift.
  2: { intros e He. apply Hfail. intros [Hf _]. destruct (Hf _ Hin) as [[d Hd] _]. cbn in Hd. congruence. }
  intros d Hd. apply bind_get.
  assert (Hkd : key_digest k = d) by (unfold key_digest; by rewrite Hd).
  destruct Hw as [Hst Hu Hf (ps & Hps & Hh & Hc) Hb Hbm Hcm Hse Hpos].
  assert (Hfe : first_of_each ∅ (items ++ [(k, r)]) = first_of_each ∅ items ++
    (if bool_decide (d ∈ vs_seen v) then [] else [(k, r)])).
  { rewrite first_of_each_snoc. cbn [fst]. rewrite Hkd, Hse.
    by replace (∅ ∪ digests items) with (digests items) by set_solver. }
  case_bool_decide as Hd2.
  { apply outcome_ret. split; try done.
    - exists ps. by rewrite Hfe, app_nil_r.
    - rewrite digests_snoc, Hse. cbn [fst]. rewrite Hkd. set_solver. }
  apply bind_put. apply bind_lift.
  2: { intros e He. apply Hfail. intros [_ Hm]. unfold next_count in He. destruct (_ && _) eqn:Ec; [done|].
       pose proof (length_first_of_each ∅ items) as Hle. rewrite (Forall2_length Hps) in Hle.
       unfold MAX_RECORDS in *. unfold_ints. lia. }
  intros count Hcount. apply bind_get, bind_put. cbn [vs_world vs_hashed vs_body_bytes vs_record_count vs_seen vs_pos].
  eapply bind_world; [apply nanos_outcome|]. intros w1 wa [(n1 & Hn1 & ->) Hsa].
  eapply bind_world; [apply nanos_outcome|]. intros w2 wb [(n2 & Hn2 & ->) Hsb].
  unfold set_world, read_between in *. cbn [vs_world vs_hashed vs_body_bytes vs_record_count vs_seen vs_pos] in *.
  pose proof (later_trans _ _ _ Hsa Hsb) as Hsame.
  assert (Hr1 : (from <= n1 < w_ticks wb)%nat) by (destruct Hsa as (_&_&?), Hsb as (_&_&?); lia).
  assert (Hr2 : (from <= n2 < w_ticks wb)%nat) by (destruct Hsa as (_&_&?), Hsb as (_&_&?); lia).
  pose proof (wall_nanos_range n1) as Hw1. pose proof (wall_nanos_range n2) as Hw2.
  set (w1 := wall_nanos n1) in *. set (w2 := wall_nanos n2) in *.
  assert (Hub : untouched path old wb) by (by eapply untouched_same).
  assert (Hfb : w_disk wb !! temp = Some (Regular (zeros ++ vs_hashed v))) by (by rewrite (proj1 Hsame)).
  assert (Henc : ~ (exists p, encode_record k r now w1 w2 = Ok p /\ bytes_len p <= MAX_RECORD_BYTES) ->
    ~ records_fit now total) by (intros Hn [Hfit _]; exact (Hn (proj2 (Hfit _ Hin) w1 w2 Hw1 Hw2))).
  apply bind_lift.
  2: { intros e He. split; [done|]. intros [_ Hfit]. revert Hfit. apply Henc. intros (p & Hp & _). by rewrite Hp in He. }
  intros p Hp. destruct (encode_record k r now w1 w2) as [p'|] eqn:Ep; [|done]. injection Hp as ->.
  unfold next_count in Hcount. destruct (_ && _) eqn:Ec; [|done]. injection Hcount as <-.
  eapply outcome_weaken; [eapply (store_payload_outcome _ p ps)|..]; cbn [vs_world vs_hashed vs_body_bytes vs_record_count vs_seen vs_pos]; try done.
  - unfold MAX_RECORDS, MAX_RECORD_BYTES in *. lia.
  - intros Hl. apply Henc. intros (p' & [= <-] & Hl'). lia.
  - destruct Hsame as (_ & _ & Htb).
    intros [] v' (Ht' & Hu' & Hf' & Hh' & Hc' & Hb' & Hse' & Hpos' & Hl). split; try done.
    + lia.
    + by rewrite Hf', Hh'.
    + exists (ps ++ [p]). split; [|split; [done|rewrite Hc', length_app, Hc; cbn; lia]].
      rewrite Hfe. apply Forall2_app; [eapply encoded_later; [|done]; lia|]. constructor; [|done].
      exists n1, n2. split; [lia|split; [lia|done]].
    + rewrite Hb', Hb, Hh', Hh, frames_snoc. unfold record_frame, bytes_len. rewrite !length_app, length_be_bytes. lia.
    + rewrite Hb', Hc'. lia.
    + rewrite Hc'. lia.
    + rewrite Hse', digests_snoc, Hse. cbn [fst]. by rewrite Hkd.
    + by rewrite Hpos', Hh'.
Qed.

Lemma write_records_outcome batch items v :
  writing items v -> (forall kr, kr ∈ batch -> kr ∈ total) ->
  (length items + length batch <= length total)%nat ->
  outcome (write_records temp now deadline batch) v (fun _ => writing (items ++ batch)) visit_failed.
Proof.
  revert items v. induction batch as [|[k r] batch IH]; intros items v Hw Hin Hlen; cbn [write_records].
  - apply outcome_ret. by rewrite app_nil_r.
  - cbn [length] in Hlen. eapply outcome_bind.
    + apply (write_record_outcome items); [done|apply Hin; by left|lia].
    + intros [] v' Hw'. cbn. replace (items ++ (k, r) :: batch) with ((items ++ [(k, r)]) ++ batch)
        by (by rewrite <-app_assoc).
      apply IH; [done|intros kr Hkr; apply Hin; by right|rewrite length_app; cbn; lia].
Qed.

Definition visible_at (t : Instant) (items : list (CacheKey * CacheRecord)) : list (CacheKey * CacheRecord) :=
  filter (fun kr => moka_is_visible kr.2 t = true) items.

Definition ticked (w : World) : World := mk_world (w_disk w) (S (w_ticks w)) (w_next_temp_file w) (w_log w).
Lemma visitor_tick_eq v :
  visitor_tick v = (clock (w_ticks (vs_world v)), set_world v (ticked (vs_world v))).
Proof. done. Qed.

(** The loop hands every visible record to the writer, once and in order. *)
Lemma visit_loop_outcome size t items batch visited v before :
  writing before v -> total = before ++ batch ++ visible_at t items ->
  match visit_loop visitor_tick (write_records temp now deadline) size deadline t items batch visited v with
  | (Ok _, v') => writing total v'
  | (Err _, v') => visit_failed v'
  end.
Proof.
  assert (Hvisit : forall before batch rest v, writing before v -> total = before ++ batch ++ rest ->
    outcome (write_records temp now deadline batch) v (fun _ => writing (before ++ batch)) visit_failed).
  { intros b1 b2 rest v0 Hv0 Ht. apply write_records_outcome; [done|..].
    - intros kr Hkr. rewrite Ht, !elem_of_app. auto.
    - rewrite Ht, !length_app. lia. }
  revert batch visited v before. induction items as [|[k r] items IH]; intros batch visited v before Hw Ht;
    cbn [visit_loop].
  - cbn in Ht. rewrite app_nil_r in Ht. case_bool_decide as Hb.
    + subst batch. by rewrite Ht, app_nil_r.
    + pose proof (Hvisit before batch [] v Hw) as Hv. unfold outcome in Hv. rewrite app_nil_r in Hv.
      destruct (write_records temp now deadline batch v) as [[[]|e] v']; [rewrite Ht|]; by apply Hv.
  - rewrite visitor_tick_eq. set (w1 := ticked (vs_world v)).
    assert (Hs : later (vs_world v) w1) by apply later_tick.
    pose proof (writing_same before v w1 Hs Hw) as Hw1.
    destruct (is_expired deadline (clock (w_ticks (vs_world v)))) eqn:Ex.
    { apply failed_same; [apply Hw|]. split; [done|]. intros [_ H]. specialize (H (w_ticks (vs_world v))).
      unfold is_expired in Ex. lia. }
    unfold visible_at in Ht. rewrite filter_cons in Ht. cbn [snd] in Ht.
    destruct (moka_is_visible r t) eqn:Ev; cbn [negb].
    + rewrite decide_True in Ht by done. destruct (_ =? _)%nat.
      * assert (Ht' : total = before ++ (batch ++ [(k, r)]) ++ visible_at t items)
          by (by rewrite Ht, <-app_assoc).
        pose proof (Hvisit before _ _ (set_world v w1) Hw1 Ht') as Hv. unfold outcome in Hv.
        destruct (write_records temp now deadline _ _) as [[[]|e] v']; [|done].
        eapply IH; [exact Hv|]. rewrite Ht'. cbn. by rewrite app_assoc.
      * eapply IH; [exact Hw1|]. by rewrite Ht, <-app_assoc.
    + rewrite decide_False in Ht by done. eapply IH; [exact Hw1|done].
Qed.
End Writer.

(** ** Complete snapshot files *)

(** [content] is a snapshot of the records [items] taken at [now], with the clocks
    read in the window [from], [to]. *)
Definition snapshot_of (from to : nat) (now : Instant) (items : list (CacheKey * CacheRecord)) (h : Header)
    (content : list byte) : Prop :=
  (exists m, (from <= m < to)%nat /\ now = clock m) /\
  exists ps, Forall2 (encoded from to now) (first_of_each ∅ items) ps /\
    content = encode_header h ++ frames ps /\ hd_record_count h = Z.of_nat (length ps) /\
    hd_body_bytes h = bytes_len (frames ps) /\ hd_checksum h = sha256 (frames ps ++ metadata_bytes h) /\
    header_ok h.

Definition summary_of (h : Header) : CacheSnapshotWriteSummary :=
  mk_write_summary (hd_generated_at_utc_millis h) (hd_record_count h) (HEADER_BYTES + hd_body_bytes h).

(** What the store shows: its records at a reading of the clock that are visible
    at another. *)
Definition shown (store : MokaCacheStore) (items : list (CacheKey * CacheRecord)) : Prop :=
  exists t0 t1 t2, items = visible_at t1 (moka_iter t2 (moka_run_pending_tasks t0 (mk_cache store))).

(** Nothing in the store, the arguments or the machine stands in the way. *)
Definition writable (store : MokaCacheStore) (batch_size : nat) (deadline : Deadline) : Prop :=
  healthy deadline /\ batch_size <> 0%nat /\ mk_shutting_down (mk_state store) = false /\
  forall now items, shown store items -> records_fit now items.

Section Publish.
Context (sha_length : forall x, length (sha256 x) = CHECKSUM_BYTES).
Context (store : MokaCacheStore) (batch_size : nat) (deadline : Deadline) (from : nat).

(** The visit of the store leaves in the temporary file every record shown. *)
Lemma visit_store_outcome temp path old now w :
  temp <> path -> (from <= w_ticks w)%nat -> untouched path old w -> w_disk w !! temp = Some (Regular zeros) ->
  outcome (visit_store temp now store batch_size deadline) w
    (fun out w' => match out with
      | (Ok _, _, v) => w' = vs_world v /\
          exists items, shown store items /\ writing temp path old from (w_ticks w) now items v
      | (Err _, _, v) => untouched path old w' /\ ~ writable store batch_size deadline
      end) (fun _ => False).
Proof.
  intros Hne Hfrom Hu Hf. unfold outcome, visit_store, visit_snapshot_batches.
  destruct (Nat.eqb_spec batch_size 0) as [Hz|Hz]; [split; [done|]; intros (_ & ? & _); done|].
  destruct (mk_shutting_down (mk_state store)) eqn:Hsd; [split; [done|]; intros (_ & _ & ? & _); congruence|].
  rewrite !visitor_tick_eq.
  match goal with |- context [visit_loop _ _ _ _ ?a ?b [] 0 ?c] => set (t := a); set (items := b); set (v := c) end.
  assert (Hsh : shown store (visible_at t items)) by (by eexists _, _, _).
  pose proof (visit_loop_outcome temp path old from (w_ticks w) now deadline Hfrom (visible_at t items) Hne batch_size
    t items [] 0 v []) as H.
  assert (Hw : writing temp path old from (w_ticks w) now [] v).
  { split; cbn; try done; [lia|]. exists []. split; [constructor|done]. }
  specialize (H Hw eq_refl). destruct (visit_loop _ _ _ _ _ _ _ _ _) as [[n|e] v']; cbv beta iota.
  - split; [done|]. by exists (visible_at t items).
  - destruct H as [Hu' Hn]. split; [done|]. intros (Hh & _ & _ & Hs). apply Hn. split; [done|by apply Hs].
Qed.

Lemma create_outcome w p d :
  outcome (create_new p) w (fun _ w' => rewritten p (Regular []) w w')
    (fun w' => later w w' /\ ~ (healthy d /\ w_disk w !! p = None)).
Proof.
  unfold create_new. eapply outcome_bind.
  - eapply outcome_weaken; [apply (call_outcome w d)|intros a w' H; exact H|]. naive_solver.
  - intros [] w1 (Hd & Hl & Ht). unfold outcome, mbind, st_bind, get_disk. rewrite Hd.
    destruct (w_disk w !! p) eqn:E; cbn; [split; [done|naive_solver]|]. unfold rewritten. cbn. by rewrite Hl.
Qed.

Lemma splice_header h b :
  length (hd_checksum h) = CHECKSUM_BYTES -> splice (zeros ++ b) 0 (encode_header h) = encode_header h ++ b.
Proof.
  intros H. unfold splice. rewrite take_0, length_encode_header by done. cbn [app Nat.add].
  by rewrite drop_app_length' by done.
Qed.

(** The file is ready, and was since the tick [to]. *)
Definition file_ready (temp path : Path) (old : option Node) (to : nat) (summary : CacheSnapshotWriteSummary)
    (w : World) : Prop :=
  untouched path old w /\ exists now items h content, shown store items /\ snapshot_of from to now items h content /\
    w_disk w !! temp = Some (Regular content) /\ summary = summary_of h.

(** The checksum and the header, over a file that holds the records. *)
Lemma finish_outcome temp path old m start items generated v w :
  temp <> path -> (from <= m < start)%nat -> shown store items ->
  writing temp path old from start (clock m) items v -> u64 generated ->
  later (vs_world v) w ->
  let h := mk_header generated (vs_record_count v) (vs_body_bytes v)
    (sha256 (vs_hashed v ++ metadata_bytes (mk_header generated (vs_record_count v) (vs_body_bytes v)
       (replicate CHECKSUM_BYTES x00)))) in
  outcome (write_all temp 0 (encode_header h)) w
    (fun _ w' => (w_ticks w <= w_ticks w')%nat /\ file_ready temp path old (w_ticks w) (summary_of h) w')
    (fun w' => untouched path old w' /\ ~ healthy deadline).
Proof.
  intros Hne Hm Hsh [Hstart Hu Hf (ps & Hps & Hh & Hc) Hb Hbm Hcm Hse Hpos] Hg Hs h.
  assert (Hhl : length (hd_checksum h) = CHECKSUM_BYTES) by apply sha_length.
  eapply outcome_weaken; [apply (write_outcome w deadline temp 0 (encode_header h) (zeros ++ vs_hashed v))|..].
  - by rewrite (proj1 Hs).
  - intros [] w' Hw. pose proof Hs as (_ & _ & Ht). split; [apply Hw|].
    split; [eapply untouched_rewritten; [done|done|by eapply untouched_same]|].
    exists (clock m), items, h, (encode_header h ++ frames ps).
    split_and!; [done| |by rewrite (proj1 Hw), lookup_insert_eq, splice_header, Hh|done].
    split; [exists m; split; [lia|done]|]. exists ps. split_and!; try done.
    + by eapply encoded_later.
    + cbn. by rewrite Hb, Hh.
    + cbn [h hd_checksum]. by rewrite Hh.
    + cbn [h hd_record_count hd_generated_at_utc_millis hd_body_bytes].
      pose proof (CacheStore.bytes_len_nonneg (vs_hashed v)). unfold header_ok, HEADER_BYTES, MAX_RECORDS, MAX_RECORD_BYTES in *.
      cbn [h hd_record_count hd_generated_at_utc_millis hd_body_bytes]. unfold_ints. split_and!; try done; lia.
  - intros w' [[c Hw] Hn]. split; [|done]. eapply untouched_rewritten; [done|done|by eapply untouched_same].
Qed.

Lemma write_temporary_outcome temp path old w :
  temp <> path -> (from <= w_ticks w)%nat -> untouched path old w ->
  outcome (write_temporary_snapshot store temp batch_size deadline) w
    (fun out w' => exists to, (to <= w_ticks w')%nat /\ file_ready temp path old to out.1 w')
    (fun w' => untouched path old w' /\ ~ (writable store batch_size deadline /\ w_disk w !! temp = None)).
Proof.
  intros Hne Hfrom Hu. unfold write_temporary_snapshot.
  eapply outcome_bind; [apply millis_outcome|]. intros generated w1 [Hg Hs1].
  assert (Hu1 : untouched path old w1) by (by eapply untouched_same).
  eapply outcome_bind.
  { eapply outcome_weaken; [apply (create_outcome w1 temp deadline)|intros a w' H; exact H|].
    intros w' [Hs' Hn]. split; [by eapply untouched_same|]. rewrite <-(proj1 Hs1). unfold writable. naive_solver. }
  intros [] w2 Hw2. assert (Hu2 : untouched path old w2) by (by eapply untouched_rewritten).
  assert (Hbad : forall w', untouched path old w' -> ~ healthy deadline -> untouched path old w' /\
    ~ (writable store batch_size deadline /\ w_disk w !! temp = None)) by (unfold writable; naive_solver).
  eapply outcome_bind.
  { eapply outcome_weaken; [apply (write_outcome w2 deadline temp 0 _ [])|intros a w' H; exact H|].
    - by rewrite (proj1 Hw2), lookup_insert_eq.
    - intros w' [[c Hw'] Hn]. apply Hbad; [by eapply untouched_rewritten|done]. }
  intros [] w3 Hw3. assert (Hu3 : untouched path old w3) by (by eapply untouched_rewritten).
  eapply outcome_bind; [apply now_outcome|]. intros now w4 [(m & Hm & ->) Hs4]. unfold read_between in Hm.
  assert (Hfrom3 : (from <= w_ticks w3)%nat)
    by (destruct Hs1 as (_&_&?), Hw2 as (_&_&?), Hw3 as (_&_&?); lia).
  eapply outcome_bind.
  { eapply outcome_weaken; [apply (visit_store_outcome temp path old (clock m) w4); [done|lia|by apply (untouched_same _ _ w3)|]
      |intros a w' H; exact H|done].
    rewrite (proj1 Hs4), (proj1 Hw3), lookup_insert_eq. unfold splice. cbn [take app]. by rewrite drop_nil, app_nil_r. }
  intros [[[n|e] store'] v] w5.
  2: { intros [Hu5 Hn]. apply outcome_fail. split; [done|]. naive_solver. }
  intros [-> (items & Hsh & Hw)]. eapply outcome_bind.
  { eapply outcome_weaken; [apply (call_outcome _ deadline)|intros a w' H; exact H|].
    intros w' [Hs' Hn]. apply Hbad; [eapply untouched_same; [done|apply Hw]|done]. }
  intros [] w6 Hs6. eapply outcome_bind.
  { eapply outcome_weaken; [refine (finish_outcome temp path old m _ items generated v w6 Hne _ Hsh Hw Hg Hs6); lia
      |intros a w' H; exact H|].
    intros w' [Hu' Hn]. by apply Hbad. }
  intros [] w7 [Ht7 [Hu7 Hr7]]. eapply outcome_bind.
  { eapply outcome_weaken; [apply (call_outcome _ deadline)|intros a w' H; exact H|].
    intros w' [Hs' Hn]. apply Hbad; [by eapply untouched_same|done]. }
  intros [] w8 Hs8. apply outcome_ret. exists (w_ticks w6). pose proof Hs8 as (_ & _ & Ht8).
  split; [lia|]. split; [by eapply untouched_same|].
  destruct Hr7 as (now' & items' & h & content & H1 & H2 & H3 & H4). exists now', items', h, content.
  split_and!; try done. by rewrite (proj1 Hs8).
Qed.

(** ** Publication *)

(** The target has a name that is text. *)
Definition named (path : Path) : Prop :=
  exists dir name, p_components path = dir ++ [name] /\ is_Some (utf8_decode (str_bytes name)).

Definition temp_name (path : Path) (id : Z) : Path :=
  match path_file_name path with
  | Some n => with_file_name path ("." ++ n ++ ".tmp-" ++ pretty process_id ++ "-" ++ pretty id)%string
  | None => path
  end.

Lemma file_name_named path dir name : p_components path = dir ++ [name] -> path_file_name path = Some name.
Proof. intros H. unfold path_file_name. by rewrite H, reverse_snoc. Qed.

Lemma temporary_path_named path w :
  named path -> (temporary_path path w).1 = Ok (temp_name path (w_next_temp_file w)).
Proof.
  intros (dir & name & Hp & Hn). unfold temporary_path, temp_name. cbn [fst].
  by rewrite (file_name_named path dir name Hp), bool_decide_true.
Qed.

Lemma string_length_app s1 s2 : String.length (String.append s1 s2) = (String.length s1 + String.length s2)%nat.
Proof. induction s1 as [|c s1 IH]; [done|]. exact (f_equal S IH). Qed.

Lemma temp_name_components path id :
  named path -> length (p_components (temp_name path id)) = length (p_components path) /\ temp_name path id <> path.
Proof.
  intros (dir & name & Hp & _). unfold temp_name. rewrite (file_name_named path dir name Hp).
  unfold with_file_name. rewrite Hp, removelast_last. cbn [p_components]. split; [by rewrite !length_app|].
  destruct path as [a comps]. cbn in *. subst comps. intros [= H%app_inj_tail].
  destruct H as [_ H]. apply (f_equal String.length) in H.
  cbn in H. rewrite !string_length_app in H. change (String.length ".") with 1%nat in H. lia.
Qed.

(** Directories are made above the target only. *)
Lemma create_dirs_outcome absolute before todo path old w :
  (length (before ++ todo) < length (p_components path))%nat -> untouched path old w ->
  outcome (create_dirs absolute before todo) w
    (fun _ w' => untouched path old w' /\ (w_ticks w <= w_ticks w')%nat /\
       forall q, (length (before ++ todo) < length (p_components q))%nat -> w_disk w' !! q = w_disk w !! q)
    (fun w' => untouched path old w' /\
       ~ (healthy deadline /\ forall q c, (length (p_components q) <= length (before ++ todo))%nat ->
            w_disk w !! q <> Some (Regular c))).
Proof.
  revert before w. induction todo as [|name todo IH]; intros before w Hlen Hu; cbn [create_dirs]; [by split_and!|].
  set (p := mk_path absolute (before ++ [name])).
  assert (Hp : (length (p_components p) <= length (before ++ name :: todo))%nat)
    by (cbn; rewrite !length_app; cbn; lia).
  assert (Hne : p <> path) by (intros <-; lia).
  assert (Hgo : forall w1, untouched path old w1 -> (w_ticks w <= w_ticks w1)%nat ->
    (forall q c, w_disk w1 !! q = Some (Regular c) -> w_disk w !! q = Some (Regular c)) ->
    (forall q, (length (before ++ name :: todo) < length (p_components q))%nat -> w_disk w1 !! q = w_disk w !! q) ->
    outcome (create_dirs absolute (before ++ [name]) todo) w1
    (fun _ w' => untouched path old w' /\ (w_ticks w <= w_ticks w')%nat /\
       forall q, (length (before ++ name :: todo) < length (p_components q))%nat -> w_disk w' !! q = w_disk w !! q)
    (fun w' => untouched path old w' /\
       ~ (healthy deadline /\ forall q c, (length (p_components q) <= length (before ++ name :: todo))%nat ->
            w_disk w !! q <> Some (Regular c)))).
  { intros w1 Hu1 Ht1 Hr1 Hq1. eapply outcome_weaken; [apply (IH (before ++ [name]) w1)|..].
    - by rewrite <-app_assoc.
    - done.
    - rewrite <-app_assoc. intros _ w' (? & ? & Hq). split_and!; [done|lia|]. intros q Hl. rewrite Hq by done. by apply Hq1.
    - rewrite <-app_assoc. intros w' [? Hn]. split; [done|]. intros [Hh Hf]. apply Hn. split; [done|].
      intros q c Hl Hc. by apply (Hf q c Hl), Hr1. }
  eapply (outcome_bind get_disk _ w (fun d w' => d = w_disk w /\ w' = w)); [done|]. intros d w0 [-> ->].
  destruct (w_disk w !! p) as [[c| |]|] eqn:E.
  - cbn. split; [done|]. intros [_ Hf]. by apply (Hf p c).
  - by apply Hgo.
  - by apply Hgo.
  - eapply (outcome_bind _ _ w (fun _ w1 => untouched path old w1 /\ (w_ticks w <= w_ticks w1)%nat /\
      (forall q c, w_disk w1 !! q = Some (Regular c) -> w_disk w !! q = Some (Regular c)) /\
      (forall q, (length (before ++ name :: todo) < length (p_components q))%nat -> w_disk w1 !! q = w_disk w !! q)));
      [|intros [] w1 (H1 & H2 & H3 & H4); by apply Hgo].
    eapply outcome_bind.
    { eapply outcome_weaken; [apply (call_outcome w deadline)|intros a w' H; exact H|].
      intros w' [Hs Hn]. split; [by eapply untouched_same|naive_solver]. }
    intros [] w1 (Hd & Hl & Ht). unfold outcome, set_disk. cbn. rewrite Hl.
    assert (Hq : forall q, q <> p -> <[p := Directory]> (w_disk w) !! q = w_disk w !! q)
      by (intros; by rewrite lookup_insert_ne).
    destruct Hu as [Hu1 Hu2]. split_and!.
    + split; cbn; [by rewrite Hq|]. constructor; [by rewrite Hq|done].
    + cbn. lia.
    + intros q c'. destruct (decide (q = p)) as [->|]; [by rewrite lookup_insert_eq|by rewrite Hq].
    + intros q Hl'. apply Hq. intros ->. lia.
Qed.

(** A whole snapshot of the store. *)
Definition complete (content : list byte) : Prop :=
  exists to now items h, shown store items /\ snapshot_of from to now items h content.

Section Target.
Context (path : Path) (old : option Node) (path_named : named path).
(** What the caller's check is for: it answers yes only when [allowed], and does
    not touch the disk. *)
Context (publish : IO bool) (allowed : Prop).
Context (publish_keeps : forall w, same_disk w (publish w).2).
Context (publish_allowed : forall w w', publish w = (Ok true, w') -> allowed).

Definition old_or_complete (d : Disk) : Prop :=
  d !! path = old \/ exists content, complete content /\ d !! path = Some (Regular content).

(** The caller's check does not turn the clock back. *)
Definition steady : Prop := forall w, (w_ticks w <= w_ticks (publish w).2)%nat.

(** The target replaced, and never anything but old or complete. *)
Definition target_replaced (summary : CacheSnapshotWriteSummary) (w : World) : Prop :=
  allowed /\ Forall old_or_complete (w_log w) /\
  exists to now items h content, (steady -> (to <= w_ticks w)%nat) /\
    shown store items /\ snapshot_of from to now items h content /\
    w_disk w !! path = Some (Regular content) /\ summary = summary_of h.

Definition target_settled (w : World) : Prop := untouched path old w \/ exists summary, target_replaced summary w.

Lemma replaced_same summary w w' : later w w' -> target_replaced summary w -> target_replaced summary w'.
Proof.
  intros (Hd & Hl & Ht) (Ha & Hlog & to & now & items & h & content & Hto & H). split; [done|]. rewrite Hl, Hd.
  split; [done|]. exists to, now, items, h, content. split; [|done]. intros Hst. specialize (Hto Hst). lia.
Qed.

(** Nothing on the disk is in the way. *)
Definition clear_way (w : World) : Prop :=
  (forall q c, (length (p_components q) < length (p_components path))%nat -> w_disk w !! q <> Some (Regular c)) /\
  (forall id, w_disk w !! temp_name path id = None) /\
  (w_disk w !! path = None \/ exists c, w_disk w !! path = Some (Regular c)).

Lemma rename_outcome temp summary to w :
  temp <> path -> file_ready temp path old to summary w -> (steady -> (to <= w_ticks w)%nat) -> allowed ->
  outcome (replace_file temp path) w (fun _ => target_replaced summary)
    (fun w' => untouched path old w' /\ ~ (healthy deadline /\ old <> Some Directory)).
Proof.
  intros Hne [Hu (now & items & h & content & Hsh & Hsn & Hf & Hsum)] Hto Ha. unfold replace_file. eapply outcome_bind.
  { eapply outcome_weaken; [apply (call_outcome w deadline)|intros a w' H; exact H|].
    intros w' [Hs Hn]. split; [by eapply untouched_same|naive_solver]. }
  intros [] w1 Hs. pose proof (untouched_same _ _ _ _ Hs Hu) as [Hu1 Hu2].
  eapply (outcome_bind get_disk _ w1 (fun d w' => d = w_disk w1 /\ w' = w1)); [done|]. intros d w0 [-> ->].
  rewrite (proj1 Hs), Hf. rewrite (proj1 Hs) in Hu1. rewrite Hu1.
  assert (Hdone : outcome (set_disk (<[path := Regular content]> (delete temp (w_disk w)))) w1
    (fun _ => target_replaced summary) (fun w' => untouched path old w' /\ ~ (healthy deadline /\ old <> Some Directory))).
  { unfold outcome, set_disk. split; [done|]. cbn. split.
    - constructor; [right; exists content; split; [by exists to, now, items, h|by rewrite lookup_insert_eq]|].
      eapply List.Forall_impl; [|exact Hu2]. intros d Hd. by left.
    - exists to, now, items, h, content. rewrite lookup_insert_eq. split; [|done]. intros Hst. specialize (Hto Hst).
      destruct Hs as (_ & _ & ?). cbn. lia. }
  destruct old as [[c| |]|]; try exact Hdone.
  apply outcome_fail. split; [split; [by rewrite (proj1 Hs)|done]|naive_solver].
Qed.

Lemma remove_settled temp w : temp <> path -> target_settled w -> target_settled (remove_file temp w).2.
Proof.
  intros Hne Hw. unfold remove_file, io_call, mbind, st_bind, next_tick. destruct (fault (w_ticks w)).
  { destruct Hw as [Hw|[sm Hw]]; [left; eapply (untouched_same _ _ w); auto|right; exists sm; eapply (replaced_same _ w); auto]. }
  cbn. destruct Hw as [[H1 H2]|(sm & Ha & Hl & to & now & items & h & content & H0 & H1 & H2 & H3 & H4)].
  - left. split; cbn; [by rewrite lookup_delete_ne|]. constructor; [by rewrite lookup_delete_ne|done].
  - right. exists sm. split; [done|]. cbn. split.
    + constructor; [right; exists content; split; [by exists to, now, items, h|by rewrite lookup_delete_ne]|done].
    + exists to, now, items, h, content. rewrite lookup_delete_ne by done. split; [|done]. intros Hst.
      specialize (H0 Hst). cbn. lia.
Qed.

Lemma reject_outcome w :
  outcome (reject_non_regular_target path) w
    (fun _ w' => later w w' /\ (healthy deadline -> w_disk w !! path <> Some Directory))
    (fun w' => later w w' /\ ~ (healthy deadline /\
       (w_disk w !! path = None \/ exists c, w_disk w !! path = Some (Regular c)))).
Proof.
  unfold outcome, reject_non_regular_target, mbind, st_bind, next_tick, get_disk. cbn.
  destruct (fault (w_ticks w)) as [e|] eqn:E.
  - assert (Hn : ~ healthy deadline) by (intros [H _]; by rewrite H in E).
    destruct e; cbn; split; try done; naive_solver.
  - destruct (w_disk w !! path) as [[c| |]|] eqn:Ep; cbn; rewrite ?Ep; split; try done; naive_solver.
Qed.

(** From the temporary file to the end of the call. *)
Lemma publication_outcome temp w :
  temp <> path -> (from <= w_ticks w)%nat -> untouched path old w -> (healthy deadline -> old <> Some Directory) ->
  outcome (
    out ← write_temporary_snapshot store temp batch_size deadline;
    _ ← ensure_deadline deadline;
    current ← publish;
    if negb (current : bool) then st_fail SnSuperseded
    else
      _ ← replace_file temp path;
      _ ← match parent_dir path with Some d => sync_directory d | None => mret tt end;
      mret out) w (fun out => target_replaced out.1)
    (fun w' => target_settled w' /\ ~ (writable store batch_size deadline /\ w_disk w !! temp = None /\
       forall w, (publish w).1 = Ok true)).
Proof.
  intros Hne Hfrom Hu Hdir. eapply outcome_bind.
  { eapply outcome_weaken; [by apply (write_temporary_outcome temp path old w)|intros a w' H; exact H|].
    intros w' [Hu' Hn]. split; [by left|naive_solver]. }
  assert (Hbad : forall w', untouched path old w' -> ~ healthy deadline -> target_settled w' /\
    ~ (writable store batch_size deadline /\ w_disk w !! temp = None /\ forall w, (publish w).1 = Ok true))
    by (intros w' ? ?; split; [by left|unfold writable; naive_solver]).
  intros [summary store'] w1 (to & Hto & Hr). cbn [fst] in *. eapply outcome_bind.
  { eapply outcome_weaken; [apply (deadline_outcome w1 deadline)|intros a w' H; exact H|].
    intros w' [Hs Hn]. apply Hbad; [eapply untouched_same; [done|apply Hr]|done]. }
  intros [] w2 Hs2.
  assert (Hr2 : file_ready temp path old to summary w2).
  { destruct Hr as [Hu1 H]. split; [by eapply untouched_same|]. by rewrite (proj1 Hs2). }
  eapply (outcome_bind publish _ w2 (fun b w' => publish w2 = (Ok b, w'))).
  { unfold outcome. pose proof (publish_keeps w2) as Hk. destruct (publish w2) as [[b|e] w'] eqn:Ep; [done|].
    split; [left; eapply untouched_disk; [exact Hk|apply Hr2]|]. intros (_ & _ & H). specialize (H w2).
    by rewrite Ep in H. }
  intros b w3 Hp. pose proof (publish_keeps w2) as Hs3. rewrite Hp in Hs3. cbn [snd] in Hs3.
  assert (Hto3 : steady -> (to <= w_ticks w3)%nat).
  { intros Hst. specialize (Hst w2). rewrite Hp in Hst. destruct Hs2 as (_ & _ & ?). cbn in Hst. lia. }
  assert (Hr3 : file_ready temp path old to summary w3).
  { destruct Hr2 as [Hu2 H]. split; [by eapply untouched_disk|]. by rewrite (proj1 Hs3). }
  destruct b; cbn [negb].
  2: { apply outcome_fail. split; [left; apply Hr3|]. intros (_ & _ & H). specialize (H w2). by rewrite Hp in H. }
  eapply outcome_bind.
  { eapply outcome_weaken; [apply (rename_outcome temp summary to w3); [done|done|done|by eapply publish_allowed]|intros a w' H; exact H|].
    intros w' [Hu' Hn]. apply Hbad; [done|]. naive_solver. }
  intros [] w4 Hrep.
  assert (Hend : forall w', target_replaced summary w' -> ~ healthy deadline -> target_settled w' /\
    ~ (writable store batch_size deadline /\ w_disk w !! temp = None /\ forall w, (publish w).1 = Ok true))
    by (intros w' ? ?; split; [right; by exists summary|unfold writable; naive_solver]).
  destruct (parent_dir path) as [d|]; [|by apply outcome_ret].
  unfold sync_directory. eapply outcome_bind; [eapply outcome_bind|].
  - eapply outcome_weaken; [apply (call_outcome w4 deadline)|intros a w' H; exact H|].
    intros w' [Hs Hn]. apply Hend; [by eapply replaced_same|done].
  - intros [] w5 Hs5. eapply outcome_weaken; [apply (call_outcome w5 deadline)|intros a w' H|].
    + exact (replaced_same summary _ _ H (replaced_same summary _ _ Hs5 Hrep)).
    + intros w' [Hs Hn]. apply Hend; [|done]. eapply replaced_same; [done|by eapply replaced_same].
  - intros [] w6 Hr6. by apply outcome_ret.
Qed.

Lemma parent_dir_length d : parent_dir path = Some d -> S (length (p_components d)) = length (p_components path).
Proof.
  destruct path_named as (dir & name & Hp & _). unfold parent_dir, parent. rewrite Hp. destruct dir as [|x dir].
  - cbn. destruct (path_is_empty _); [done|]. by intros [= <-].
  - cbn [app]. change (x :: dir ++ [name]) with ((x :: dir) ++ [name]). rewrite removelast_last.
    destruct (path_is_empty _); [done|]. intros [= <-]. cbn [p_components]. rewrite length_app. cbn. lia.
Qed.

(** Only paths above the target are made. *)
Lemma make_parent_outcome w :
  untouched path old w ->
  outcome (match parent_dir path with Some d => create_dir_all d | None => mret tt end) w
    (fun _ w' => untouched path old w' /\ (w_ticks w <= w_ticks w')%nat /\
       forall q, (length (p_components path) <= length (p_components q))%nat -> w_disk w' !! q = w_disk w !! q)
    (fun w' => untouched path old w' /\ ~ (healthy deadline /\ forall q c,
       (length (p_components q) < length (p_components path))%nat -> w_disk w !! q <> Some (Regular c))).
Proof.
  intros Hu. destruct (parent_dir path) as [d|] eqn:Hd; [|by apply outcome_ret].
  pose proof (parent_dir_length d Hd) as Hl. unfold create_dir_all. eapply outcome_bind.
  { eapply outcome_weaken; [apply (call_outcome w deadline)|intros a w' H; exact H|].
    intros w' [Hs Hn]. split; [by eapply untouched_same|naive_solver]. }
  intros [] w1 Hs. eapply outcome_weaken; [apply (create_dirs_outcome _ [] _ path old w1); [cbn; lia|by eapply untouched_same]|..].
  - destruct Hs as (Hd1 & _ & Ht1). intros _ w' (Hu' & Ht' & Hq). split_and!; [done|lia|].
    intros q Hlq. rewrite Hq by (cbn; lia). by rewrite Hd1.
  - intros w' [Hu' Hn]. split; [done|]. intros [Hh Hc]. apply Hn. split; [done|].
    intros q c Hlq. rewrite (proj1 Hs). apply Hc. cbn in Hlq. lia.
Qed.

Lemma write_snapshot_outcome w :
  (from <= w_ticks w)%nat -> untouched path old w ->
  outcome (write_cache_snapshot_if_current store path batch_size deadline publish) w
    (fun out => target_replaced out.1)
    (fun w' => target_settled w' /\ ~ (writable store batch_size deadline /\ clear_way w /\
       forall w, (publish w).1 = Ok true)).
Proof.
  intros Hfrom Hu. unfold write_cache_snapshot_if_current.
  assert (Hbad : forall w', untouched path old w' -> ~ (healthy deadline /\ clear_way w) -> target_settled w' /\
    ~ (writable store batch_size deadline /\ clear_way w /\ forall w, (publish w).1 = Ok true))
    by (intros w' ? ?; split; [by left|unfold writable; naive_solver]).
  eapply outcome_bind.
  { eapply outcome_weaken; [apply (deadline_outcome w deadline)|intros a w' H; exact H|].
    intros w' [Hs Hn]. apply Hbad; [by eapply untouched_same|naive_solver]. }
  intros [] w1 Hs1. assert (Hu1 : untouched path old w1) by (by eapply untouched_same).
  eapply (outcome_bind _ _ w1 (fun _ w' => untouched path old w' /\ (w_ticks w1 <= w_ticks w')%nat /\
    forall q, (length (p_components path) <= length (p_components q))%nat -> w_disk w' !! q = w_disk w !! q)).
  { eapply outcome_weaken; [by apply (make_parent_outcome w1)|..]; rewrite (proj1 Hs1); [done|].
    intros w' [Hu' Hn]. apply Hbad; [done|]. unfold clear_way. naive_solver. }
  intros [] w2 (Hu2 & Ht2 & Hq2). eapply outcome_bind.
  { eapply outcome_weaken; [apply (reject_outcome w2)|intros a w' H; exact H|].
    intros w' [Hs Hn]. apply Hbad; [by eapply untouched_same|]. intros [Hh (_ & _ & Hp)]. apply Hn. split; [done|].
    by rewrite Hq2. }
  intros [] w3 [Hs3 Hdir]. destruct Hu2 as [Hp2 Hl2].
  assert (Hu3 : untouched path old w3) by (by eapply untouched_same).
  eapply (outcome_bind _ _ w3 (fun temp w' => later w3 w' /\ exists id, temp = temp_name path id)).
  { pose proof (temporary_path_named path w3 path_named) as Ht. unfold outcome.
    destruct (temporary_path path w3) as [[t|e] w'] eqn:Et; [|done]. injection Ht as ->.
    unfold temporary_path in Et. injection Et as _ <-. split; [by split_and!|by eexists]. }
  intros temp w4 [Hs4 [id ->]]. destruct (temp_name_components path id path_named) as [Hlt Hne].
  assert (Hfrom4 : (from <= w_ticks w4)%nat)
    by (destruct Hs1 as (_&_&?), Hs3 as (_&_&?), Hs4 as (_&_&?); lia).
  pose proof (publication_outcome (temp_name path id) w4 Hne Hfrom4 (untouched_same _ _ _ _ Hs4 Hu3)) as Hpub.
  rewrite Hp2 in Hdir. specialize (Hpub Hdir). unfold outcome, or_remove in *.
  match type of Hpub with context [match ?m ?x with _ => _ end] => destruct (m x) as [[out|e] w5] end; [done|].
  destruct Hpub as [Hset Hn]. split; [by apply remove_settled|]. intros (Hw & Hc & Hp). apply Hn. split; [done|].
  split; [|done]. rewrite (proj1 Hs4), (proj1 Hs3), Hq2 by lia. apply Hc.
Qed.

End Target.
End Publish.

(** ** Reading a complete file *)

Lemma read_outcome deadline w n file :
  (n <= length file)%nat ->
  outcome (file_read_exact n file) w (fun out w' => out = (take n file, drop n file) /\ later w w')
    (fun _ => ~ healthy deadline).
Proof.
  intros Hn. unfold file_read_exact. eapply outcome_bind.
  - eapply outcome_weaken; [apply (call_outcome w deadline)|intros a w' H; exact H|naive_solver].
  - intros [] w' Hs. rewrite (proj2 (Nat.leb_le _ _)) by done. by apply outcome_ret.
Qed.

(** The whole body is hashed. *)
Lemma verify_loop_outcome deadline fuel remaining file hashed w :
  0 <= remaining <= bytes_len file -> (Z.to_nat remaining <= fuel)%nat ->
  outcome (verify_loop fuel deadline remaining file hashed) w
    (fun out w' => out = hashed ++ take (Z.to_nat remaining) file /\ later w w') (fun _ => ~ healthy deadline).
Proof.
  revert remaining file hashed w. induction fuel as [|fuel IH]; intros remaining file hashed w Hr Hf; cbn [verify_loop].
  - rewrite (proj2 (Z.leb_le _ _)) by lia. apply outcome_ret. split; [|done].
    replace (Z.to_nat remaining) with 0%nat by lia. by rewrite take_0, app_nil_r.
  - destruct (Z.leb_spec remaining 0).
    { apply outcome_ret. split; [|done]. replace (Z.to_nat remaining) with 0%nat by lia. by rewrite take_0, app_nil_r. }
    eapply outcome_bind.
    { eapply outcome_weaken; [apply (deadline_outcome w deadline)|intros a w' H'; exact H'|naive_solver]. }
    intros [] w1 Hs1. set (len := Z.min remaining VERIFY_BUFFER_BYTES). unfold bytes_len in *.
    assert (Hlen : 0 < len <= remaining) by (unfold len, VERIFY_BUFFER_BYTES; lia).
    eapply outcome_bind; [apply (read_outcome deadline w1); lia|]. intros out w2 [-> Hs2].
    eapply outcome_weaken; [apply IH|..].
    + unfold bytes_len. rewrite length_drop. lia.
    + lia.
    + intros out w3 [-> Hs3]. split; [|by eapply later_trans; [|eapply later_trans]].
      rewrite <-app_assoc. f_equal.
      replace (Z.to_nat remaining) with (Z.to_nat len + Z.to_nat (remaining - len))%nat by lia.
      by rewrite take_take_drop.
    + done.
Qed.

Lemma bind_reader {B} (f : CacheSnapshotReader -> ST (CacheSnapshotReader * World) B) rd w Q F :
  outcome (f rd) (rd, w) Q F -> outcome (get_reader ≫= f) (rd, w) Q F.
Proof. done. Qed.

Lemma bind_put_reader {B} (f : unit -> ST (CacheSnapshotReader * World) B) rd0 rd w Q F :
  outcome (f tt) (rd0, w) Q F -> outcome (put_reader rd0 ≫= f) (rd, w) Q F.
Proof. done. Qed.

Lemma bind_in_world {A B} (m : IO A) (f : A -> ST (CacheSnapshotReader * World) B) rd w
    (R : A -> World -> Prop) Q F :
  outcome m w R (fun w' => F (rd, w')) -> (forall a w', R a w' -> outcome (f a) (rd, w') Q F) ->
  outcome (in_world m ≫= f) (rd, w) Q F.
Proof.
  unfold outcome, in_world, mbind, st_bind. cbn. intros Hm Hf. destruct (m w) as [[a|e] w']; [by apply Hf|done].
Qed.

Section Reading.
Context (deadline : Deadline) (fine : healthy deadline).

Lemma call_ok w : outcome io_call w (fun _ w' => later w w') (fun _ => False).
Proof. eapply outcome_weaken; [apply (call_outcome w deadline)|done|naive_solver]. Qed.

Lemma deadline_ok w : outcome (ensure_deadline deadline) w (fun _ w' => later w w') (fun _ => False).
Proof. eapply outcome_weaken; [apply (deadline_outcome w deadline)|done|naive_solver]. Qed.

Lemma read_exact_ok w n file :
  (n <= length file)%nat ->
  outcome (file_read_exact n file) w (fun out w' => out = (take n file, drop n file) /\ later w w') (fun _ => False).
Proof. intros Hn. eapply outcome_weaken; [by apply (read_outcome deadline)|done|naive_solver]. Qed.

Lemma verify_loop_ok fuel remaining file hashed w :
  0 <= remaining <= bytes_len file -> (Z.to_nat remaining <= fuel)%nat ->
  outcome (verify_loop fuel deadline remaining file hashed) w
    (fun out w' => out = hashed ++ take (Z.to_nat remaining) file /\ later w w') (fun _ => False).
Proof. intros. eapply outcome_weaken; [by apply verify_loop_outcome|done|naive_solver]. Qed.

Lemma open_ok path w limit from to now items h content :
  resolve (w_disk w) path = path -> w_disk w !! path = Some (Regular content) ->
  bytes_len content <= limit -> snapshot_of from to now items h content ->
  outcome (open_cache_snapshot path limit deadline) w
    (fun o w' => later w w' /\ exists ps n, read_between w w' n /\
       Forall2 (encoded from to now) (first_of_each ∅ items) ps /\ hd_record_count h = Z.of_nat (length ps) /\
       o = Some (mk_reader (frames ps) (hd_generated_at_utc_millis h)
             (bytes_len content) (hd_record_count h) (clock n) (mk_recovery 0 0 0 0) ∅)) (fun _ => False).
Proof.
  intros Hres Hf Hlim (_ & ps & Hps & Hc & Hcount & Hbody & Hsum & Hok).
  pose proof Hok as (_ & Hmax & Hb0 & Hbm & Hck). pose proof (length_encode_header h Hck) as Hhl.
  assert (Hlen : bytes_len content = HEADER_BYTES + hd_body_bytes h)
    by (unfold bytes_len; rewrite Hc, length_app, Hhl, Hbody; unfold bytes_len, HEADER_BYTES; lia).
  unfold open_cache_snapshot. eapply outcome_bind; [apply deadline_ok|]. intros [] w1 Hs1.
  eapply outcome_bind; [apply tick_outcome|]. intros n w2 Hs2.
  eapply (outcome_bind get_disk _ w2 (fun d w' => d = w_disk w2 /\ w' = w2)); [done|]. intros d w0 [-> ->].
  rewrite (proj1 fine), (proj1 Hs2), (proj1 Hs1), Hres, Hf.
  eapply outcome_bind; [apply call_ok|]. intros [] w3 Hs3.
  rewrite (proj2 (Z.ltb_ge _ HEADER_BYTES)), (proj2 (Z.ltb_ge _ _)) by lia.
  eapply outcome_bind.
  { apply (read_exact_ok w3). rewrite Hc, length_app, Hhl. unfold HEADER_BYTES. lia. }
  intros out w4 [-> Hs4]. change (Z.to_nat HEADER_BYTES) with 60%nat.
  replace (take 60 content) with (encode_header h) by (by rewrite Hc, take_app_length').
  replace (drop 60 content) with (frames ps) by (by rewrite Hc, drop_app_length').
  rewrite decode_encode_header by done. apply bind_lift; [|done]. intros ? [= <-].
  rewrite (proj2 (Z.ltb_ge _ _)) by lia. rewrite (proj2 (checked_add64_some _ _ (bytes_len content))) by lia.
  rewrite bool_decide_true by done. cbn [orb negb].
  assert (Hfull : take (Z.to_nat (hd_body_bytes h)) (frames ps) = frames ps).
  { apply take_ge. rewrite Hbody. unfold bytes_len. lia. }
  eapply outcome_bind; [apply (verify_loop_ok _ _ _ _ w4); rewrite Hbody; unfold bytes_len; lia|].
  intros out w5 [-> Hs5]. rewrite Hfull. cbn [app]. rewrite bool_decide_true by done. cbn [negb].
  eapply outcome_bind; [apply call_ok|]. intros [] w6 Hs6.
  eapply outcome_bind; [apply now_outcome|]. intros t w7 [(k & Hk & ->) Hs7]. apply outcome_ret.
  assert (Hl6 : later w w6).
  { apply (later_trans _ w4); [|by apply (later_trans _ w5)].
    by apply (later_trans _ w1), (later_trans _ w2), (later_trans _ w3). }
  split; [by apply (later_trans _ w6)|]. exists ps, k. split_and!; [|done..].
  destruct Hl6 as (_ & _ & ?). unfold read_between in *. lia.
Qed.

Context {HL : HickoryLaws HH}.
Context (from to : nat) (now read_at : Instant).
Context (read_range : instant_min + u64_max <= read_at <= instant_max - u64_max).

(** What is left of the time to [at_], seen from [now] when the wall clock showed
    [written], once the wall clock shows [read]. *)
Definition lifetime_left (at_ now : Instant) (written read : Z) : Z :=
  Z.max 0 (Z.min (written + Z.max 0 (at_ - now)) u64_max - read).

(** [kr'] is [kr] written at [now] and read at [read_at], with the wall clock read
    in the window [from], [to] when writing and [from'], [to'] when reading. *)
Definition read_back (from' to' : nat) (kr kr' : CacheKey * CacheRecord) : Prop :=
  kr'.1 = kr.1 /\ version kr'.2 = version kr.2 /\
  exists n1 n2 n1' n2', (from <= n1 < to)%nat /\ (from <= n2 < to)%nat /\
    (from' <= n1' < to')%nat /\ (from' <= n2' < to')%nat /\
    let e := entry kr.2 in
    entry kr'.2 = mk_entry (response e) (upstream e)
      (read_at - Z.min (Z.max 0 (now - inserted_at e)) u64_max)
      (read_at + lifetime_left (expires_at e) now (wall_nanos n1) (wall_nanos n2'))
      (match stale_until e with
       | Some s => if now <? s then Some (read_at + lifetime_left s now (wall_nanos n2) (wall_nanos n1')) else None
       | None => None
       end)
      (response_class e) (producer_revision e) (quality e) (checksum e) (format_version e).

Lemma restored_left at_ w w' : u64 w -> restored at_ now w read_at w' = read_at + lifetime_left at_ now w w'.
Proof.
  intros Hw. unfold restored, lifetime_left, unix_nanos_for_instant, duration_nanos, duration_since, sat_sub, sat_add64.
  unfold_ints. lia.
Qed.

Lemma restored_stale o w w' :
  u64 w -> match o with Some s => if now <? s then Some (restored s now w read_at w') else None | None => None end =
    match o with Some s => if now <? s then Some (read_at + lifetime_left s now w w') else None | None => None end.
Proof. intros Hw. destruct o as [s|]; [|done]. destruct (now <? s); [|done]. by rewrite restored_left. Qed.

Lemma read_back_widen from1 to1 from2 to2 krs rs :
  (from2 <= from1)%nat -> (to1 <= to2)%nat -> Forall2 (read_back from1 to1) krs rs -> Forall2 (read_back from2 to2) krs rs.
Proof.
  intros Hf Ht. apply Forall2_impl. intros kr kr' (Hk & Hv & n1 & n2 & n1' & n2' & H1 & H2 & H3 & H4 & H).
  split; [done|split; [done|]]. exists n1, n2, n1', n2'. do 2 (split; [done|]). split; [lia|split; [lia|done]].
Qed.

Definition storable (kr : CacheKey * CacheRecord) : Prop := exists wire, encodable kr.1 kr.2 wire.

Lemma encode_storage_key_ok k r wire : encodable k r wire -> exists b, encode_storage_key k = Ok b.
Proof.
  intros H. destruct (encode_record_ok k r wire 0 0 0 H) as (ns & enc & _ & _ & _ & Hns & Henc & _).
  unfold encode_storage_key. rewrite Hns. cbn [mbind result_bind]. rewrite Henc. by eexists.
Qed.

Lemma digest_ok k r wire : encodable k r wire -> digest_of k = Ok (key_digest k).
Proof.
  intros [b Hb]%encode_storage_key_ok. unfold key_digest, digest_of. by rewrite Hb.
Qed.

(** The next record of a complete file comes back, as a record for the batch or
    as an expired one. *)
Lemma next_record_ok rd w kr payload rest :
  storable kr -> encoded from to now kr payload -> rd_now rd = read_at -> rd_file rd = record_frame payload ++ rest ->
  key_digest kr.1 ∉ rd_seen rd ->
  outcome (next_record deadline) (rd, w)
    (fun o s => later w s.2 /\ exists kr', read_back (w_ticks w) (w_ticks s.2) kr kr' /\
       o = (if snapshot_is_answerable kr'.2 read_at then Some kr' else None) /\
       s.1 = with_summary (see (with_file rd rest (rd_remaining rd - 1)) (key_digest kr.1))
               ((if snapshot_is_answerable kr'.2 read_at then bump_loaded else bump_expired) (rd_summary rd)))
    (fun _ => False).
Proof.
  destruct kr as [k r]. intros [wire Hen] (n1 & n2 & Hn1 & Hn2 & Henc & Hmax) Hnow Hfile Hseen. cbn [fst snd] in *.
  unfold next_record. eapply bind_in_world; [apply deadline_ok|]. intros [] wa Hsa. apply bind_reader.
  pose proof (CacheStore.bytes_len_nonneg payload) as Hp0. unfold record_frame in Hfile. rewrite <-app_assoc in Hfile.
  eapply bind_in_world; [apply read_exact_ok; rewrite Hfile, length_app, length_be_bytes; lia|].
  intros out wb [-> Hsb]. rewrite Hfile, take_app_length', drop_app_length' by (by rewrite length_be_bytes).
  rewrite from_be_be_bytes_small by (unfold MAX_RECORD_BYTES in *; cbn; lia).
  apply bind_put_reader. rewrite (proj2 (Z.ltb_ge _ _)) by done. unfold bytes_len at 1. rewrite Nat2Z.id.
  eapply bind_in_world; [apply read_exact_ok; rewrite length_app; lia|].
  intros out wc [-> Hsc]. rewrite take_app_length, drop_app_length. apply bind_reader, bind_put_reader.
  eapply bind_in_world; [apply nanos_outcome|]. intros w1' wd [(n1' & Hn1' & ->) Hsd].
  eapply bind_in_world; [apply nanos_outcome|]. intros w2' we [(n2' & Hn2' & ->) Hse].
  assert (Hs3 : later w wc) by (by apply (later_trans _ wa), (later_trans _ wb)).
  assert (Hs : later w we) by (by apply (later_trans _ wc), (later_trans _ wd)).
  assert (Hin : (w_ticks w <= n1' < w_ticks we)%nat /\ (w_ticks w <= n2' < w_ticks we)%nat).
  { destruct Hs3 as (_ & _ & ?), Hsd as (_ & _ & ?), Hse as (_ & _ & ?). unfold read_between in *. lia. }
  cbn [rd_now with_file]. rewrite Hnow.
  rewrite (decode_encoded k r wire payload now (wall_nanos n1) (wall_nanos n2) read_at (wall_nanos n1') (wall_nanos n2'))
    by (done || apply wall_nanos_range).
  rewrite (digest_ok k r wire Hen). apply bind_lift; [|done]. intros d [= <-]. cbn [rd_seen with_file].
  rewrite bool_decide_false by done. cbn [rd_now see with_file]. rewrite Hnow.
  set (r' := mk_record _ _). destruct (snapshot_is_answerable r' read_at) eqn:Ea; apply bind_put_reader, outcome_ret.
  all: split; [done|]; exists (k, r'); cbn [fst snd]; rewrite Ea; split; [|done];
    do 2 (split; [done|]); exists n1, n2, n1', n2'; do 2 (split; [done|]); do 2 (split; [apply Hin|]);
    unfold r'; cbn [entry]; unfold restored_entry; by rewrite restored_left, restored_stale by apply wall_nanos_range.
Qed.

(** [krs] are the records still to read. *)
Record pending (krs : list (CacheKey * CacheRecord)) (rd : CacheSnapshotReader) : Prop := {
  pd_file : exists ps, Forall2 (encoded from to now) krs ps /\ rd_file rd = frames ps;
  pd_remaining : rd_remaining rd = Z.of_nat (length krs);
  pd_now : rd_now rd = read_at;
  pd_storable : Forall storable krs;
  pd_distinct : NoDup (key_digest <$> krs.*1);
  pd_unseen : Forall (fun kr => key_digest kr.1 ∉ rd_seen rd) krs
}.

Definition answerable (rs : list (CacheKey * CacheRecord)) : list (CacheKey * CacheRecord) :=
  filter (fun kr => snapshot_is_answerable kr.2 read_at = true) rs.

Definition tally (rs : list (CacheKey * CacheRecord)) (s : CacheRecoverySummary) : CacheRecoverySummary :=
  foldl (fun s kr => (if snapshot_is_answerable kr.2 read_at then bump_loaded else bump_expired) s) s rs.

Lemma pending_next kr krs rd summary rest :
  pending (kr :: krs) rd -> (exists ps, Forall2 (encoded from to now) krs ps /\ rest = frames ps) ->
  pending krs (with_summary (see (with_file rd rest (rd_remaining rd - 1)) (key_digest kr.1)) summary).
Proof.
  intros [_ Hr Hn Hst Hd Hu] Hf. apply Forall_cons_iff in Hst as [_ Hst], Hu as [_ Hu]. cbn in Hd.
  apply list.NoDup_cons in Hd as [Hnot Hd]. split; try done; cbn.
  - rewrite Hr. cbn. lia.
  - rewrite List.Forall_forall in Hu |- *. intros x Hx. specialize (Hu x Hx). cbn.
    rewrite not_elem_of_union, not_elem_of_singleton. split; [|done]. intros He. apply Hnot. rewrite <-He.
    apply list_elem_of_fmap. exists x.1. split; [done|]. apply list_elem_of_fmap. exists x.
    split; [done|by apply list_elem_of_In].
Qed.

Lemma batch_loop_ok fuel size batch rd w krs :
  pending krs rd -> (length krs <= fuel)%nat ->
  outcome (batch_loop fuel size deadline batch) (rd, w)
    (fun out s => (w_ticks w <= w_ticks s.2)%nat /\ exists taken rest rs, krs = taken ++ rest /\
       Forall2 (read_back (w_ticks w) (w_ticks s.2)) taken rs /\
       out = batch ++ answerable rs /\ pending rest s.1 /\ rd_summary s.1 = tally rs (rd_summary rd) /\
       (rest = [] \/ (size <= length out)%nat)) (fun _ => False).
Proof.
  revert batch rd w krs. induction fuel as [|fuel IH]; intros batch rd w krs Hp Hf; cbn [batch_loop]; apply bind_reader;
    rewrite (pd_remaining _ _ Hp).
  all: destruct krs as [|kr krs].
  1, 3: apply outcome_ret; split; [done|]; exists [], [], []; split_and!; [done|constructor|by rewrite app_nil_r|done|done|by left].
  { cbn in Hf. lia. }
  rewrite (proj2 (Z.leb_gt _ _)) by (cbn; lia). cbn [orb].
  destruct (Nat.leb_spec size (length batch)) as [Hs|Hs].
  { apply outcome_ret. split; [done|]. exists [], (kr :: krs), []. split_and!; [done|constructor|by rewrite app_nil_r|done|done|by right]. }
  pose proof Hp as [(ps & Hps & Hfile) _ Hnow Hst _ Hu]. apply Forall_cons_iff in Hst as [Hst _], Hu as [Hu _].
  inversion Hps as [|? payload ? ps' Henc Hps']; subst. cbn in Hfile.
  eapply outcome_bind; [by eapply (next_record_ok rd w kr payload (frames ps'))|].
  intros o [rd' w'] ((_ & _ & Hs') & kr' & Hrb & -> & Hrd). cbn [fst snd] in *.
  assert (Hp' : pending krs rd').
  { rewrite Hrd. apply pending_next; [done|by exists ps']. }
  eapply outcome_weaken; [apply (IH _ rd' w' krs Hp')|..]; [cbn in Hf; lia| |done].
  intros out [rd2 w2] (Ht2 & taken & rest & rs & -> & Hf2 & -> & Hp2 & Hsum & Hend). cbn [fst snd] in *.
  assert (Hall : Forall2 (read_back (w_ticks w) (w_ticks w2)) (kr :: taken) (kr' :: rs)).
  { assert (H1 : Forall2 (read_back (w_ticks w) (w_ticks w')) [kr] [kr']) by (constructor; [exact Hrb|constructor]).
    change (Forall2 (read_back (w_ticks w) (w_ticks w2)) ([kr] ++ taken) ([kr'] ++ rs)). apply Forall2_app;
      [by eapply read_back_widen; [| |exact H1]|by eapply read_back_widen; [| |exact Hf2]]. }
  split; [lia|]. exists (kr :: taken), rest, (kr' :: rs). split_and!; [done|done| |done| |done].
  - rewrite <-app_assoc. unfold answerable. rewrite filter_cons. f_equal.
    destruct (snapshot_is_answerable kr'.2 read_at); [by rewrite decide_True|by rewrite decide_False].
  - rewrite Hsum, Hrd. done.
Qed.

(** The loop of the snapshot's owner: batches until the file is read. *)
Fixpoint read_all (fuel size : nat) : RIO (list (CacheKey * CacheRecord)) :=
  rd ← get_reader;
  if is_complete rd then mret []
  else match fuel with
  | O => mret []
  | S fuel' =>
    b ← next_batch size deadline;
    rest ← read_all fuel' size;
    mret (b ++ rest)
  end.

Lemma read_all_ok fuel size rd w krs :
  pending krs rd -> (length krs <= fuel)%nat -> size <> 0%nat ->
  outcome (read_all fuel size) (rd, w)
    (fun out s => (w_ticks w <= w_ticks s.2)%nat /\ exists rs,
       Forall2 (read_back (w_ticks w) (w_ticks s.2)) krs rs /\ out = answerable rs /\
       rd_summary s.1 = tally rs (rd_summary rd) /\ is_complete s.1 = true) (fun _ => False).
Proof.
  revert rd w krs. induction fuel as [|fuel IH]; intros rd w krs Hp Hf Hz; cbn [read_all]; apply bind_reader;
    unfold is_complete at 1; rewrite (pd_remaining _ _ Hp).
  all: destruct krs as [|kr krs]; cbn [length] in *; [|try lia].
  1, 2: apply outcome_ret; split; [done|]; exists []; split_and!; [constructor|done|done|cbn; unfold is_complete; by rewrite (pd_remaining _ _ Hp)].
  rewrite (proj2 (Z.eqb_neq _ _)) by lia.
  eapply outcome_bind.
  { unfold next_batch. rewrite (proj2 (Nat.eqb_neq _ _)) by done. apply bind_reader.
    rewrite (pd_remaining _ _ Hp). apply (batch_loop_ok _ size [] rd w _ Hp). cbn [length]. lia. }
  intros out [rd1 w1] (Ht1 & taken & rest & rs & Hsplit & Hf2 & -> & Hp1 & Hsum & Hend). cbn [fst snd app] in *.
  assert (Hlen : (length rest <= fuel)%nat).
  { destruct taken as [|x taken].
    - inversion Hf2; subst. cbn in *. subst rest. destruct Hend as [?|?]; [done|lia].
    - injection Hsplit as <- Hsplit. apply (f_equal length) in Hsplit. rewrite length_app in Hsplit. lia. }
  eapply outcome_bind; [by apply (IH rd1 w1 rest)|].
  intros out [rd2 w2] (Ht2 & rs2 & Hf3 & -> & Hsum2 & Hc). cbn [fst snd] in *. apply outcome_ret.
  split; [cbn; lia|]. exists (rs ++ rs2). rewrite Hsplit. cbn [snd].
  split_and!; [apply Forall2_app; [apply (read_back_widen _ _ _ _ _ _ (le_n _) Ht2 Hf2)|apply (read_back_widen _ _ _ _ _ _ Ht1 (le_n _) Hf3)]|unfold answerable; by rewrite list.filter_app| |done].
  cbn. rewrite Hsum2, Hsum. unfold tally. by rewrite foldl_app.
Qed.

End Reading.

(** ** Records that fit *)

Lemma first_of_each_distinct seen items :
  NoDup (key_digest <$> (first_of_each seen items).*1) /\
  Forall (fun kr => (key_digest kr.1 ∉ seen) /\ kr ∈ items) (first_of_each seen items).
Proof.
  revert seen. induction items as [|x items IH]; intros seen; cbn [first_of_each]; [split; constructor|].
  case_bool_decide as Hx.
  - destruct (IH seen) as [Hn Hf]. split; [done|]. eapply List.Forall_impl; [|exact Hf].
    intros kr [H1 H2]. split; [done|by right].
  - destruct (IH ({[key_digest x.1]} ∪ seen)) as [Hn Hf]. rewrite List.Forall_forall in Hf. split.
    + cbn. apply list.NoDup_cons. split; [|done]. intros (k & Hk & (kr & -> & Hin)%list_elem_of_fmap)%list_elem_of_fmap.
      apply list_elem_of_In, Hf in Hin as [Hnot _]. apply Hnot. rewrite <-Hk. set_solver.
    + constructor; [split; [done|by left]|]. apply List.Forall_forall. intros kr Hin.
      apply Hf in Hin as [Hnot Hin]. split; [set_solver|by right].
Qed.

Lemma put_bytes_length v m b : put_bytes v m = Ok b -> bytes_len b <= 4 + m.
Proof.
  unfold put_bytes. destruct (_ <? _); [done|]. destruct (Z.ltb_spec m (bytes_len v)); [done|]. intros <-%Ok_inj.
  unfold bytes_len, put_u32 in *. rewrite length_app, length_be_bytes. lia.
Qed.

Lemma bytes_len_app a b : bytes_len (a ++ b) = bytes_len a + bytes_len b.
Proof. unfold bytes_len. rewrite length_app. lia. Qed.

Lemma bytes_len_be n z : bytes_len (be_bytes n z) = Z.of_nat n.
Proof. unfold bytes_len. by rewrite length_be_bytes. Qed.

Lemma namespace_length ns b :
  valid_namespace ns -> codec_encode_namespace ns = Ok b -> bytes_len b <= 37 + MAX_COMPONENT_BYTES.
Proof.
  unfold codec_encode_namespace. destruct ns as [|s|d s]; intros Hv.
  - intros [= <-]. by vm_compute.
  - intros (b' & Hb & <-%Ok_inj)%bind_ok. apply put_bytes_length in Hb. rewrite bytes_len_app. change (bytes_len [x01]) with 1. lia.
  - intros (b' & Hb & <-%Ok_inj)%bind_ok. apply put_bytes_length in Hb. destruct Hv as [Hd _]. unfold valid_digest in Hd.
    rewrite !bytes_len_app. change (bytes_len [x02]) with 1. unfold bytes_len at 1. rewrite Hd. lia.
Qed.

Lemma put_option_length o n : (forall b, o = Some b -> bytes_len b <= n) -> 0 <= n -> bytes_len (put_option o) <= 1 + n.
Proof.
  intros Ho Hn. destruct o as [b|]; cbn [put_option].
  - rewrite bytes_len_app. specialize (Ho b eq_refl). change (bytes_len [x01]) with 1. lia.
  - change (bytes_len [x00]) with 1. lia.
Qed.

(** A record the codec takes is far below the bound of a snapshot. *)
Lemma encode_record_length k r wire now w1 w2 payload :
  encodable k r wire -> encode_record k r now w1 w2 = Ok payload -> bytes_len payload <= MAX_RECORD_BYTES.
Proof.
  intros Hen. unfold encode_record. rewrite (en_wire _ _ _ Hen). cbn [ok_or mbind result_bind].
  destruct (_ <? _); [done|]. intros (ns & Hns & H)%bind_ok. apply bind_ok in H as (enc & Henc & H).
  apply bind_ok in H as (tg & Htg & H). apply bind_ok in H as (us & Hus & H). apply bind_ok in H as (bd & Hbd & H).
  apply Ok_inj in H as <-. apply namespace_length in Hns; [|apply Hen]. apply put_bytes_length in Henc, Htg, Hbd.
  assert (Hu : bytes_len (put_option us) <= 1 + (4 + MAX_UPSTREAM_ID_BYTES)).
  { apply put_option_length; [|done]. intros b ->. destruct (used_id _); [|done].
    destruct (put_bytes _ _) eqn:E; [|done]. injection Hus as ->. by apply put_bytes_length in E. }
  match goal with |- context [put_option ?o] => assert (Hs : bytes_len (put_option o) <= 1 + 8) end.
  { apply put_option_length; [|done]. intros b. destruct (stale_until _) as [u|]; [|done]. destruct (now <? u); [|done].
    intros [= <-]. unfold put_u64. rewrite bytes_len_be. lia. }
  rewrite !bytes_len_app. unfold put_u16, put_u64 in *. rewrite !bytes_len_be.
  change (bytes_len [_]) with 1. change (bytes_len [byte_of_Z (encode_response_class (response_class (entry r)))]) with 1.
  unfold MAX_RECORD_BYTES, MAX_COMPONENT_BYTES, MAX_UPSTREAM_ID_BYTES, MAX_DNS_WIRE_BYTES in *. lia.
Qed.

Lemma tally_counts read_at rs s :
  0 <= rs_loaded s -> 0 <= rs_expired s -> rs_loaded s + rs_expired s + Z.of_nat (length rs) <= u64_max ->
  tally read_at rs s = mk_recovery (rs_loaded s + Z.of_nat (length (answerable read_at rs)))
    (rs_expired s + (Z.of_nat (length rs) - Z.of_nat (length (answerable read_at rs))))
    (rs_corrupt s) (rs_incompatible s).
Proof.
  revert s. induction rs as [|kr rs IH]; intros s H1 H2 H3; cbn [tally foldl length] in *.
  { unfold answerable. cbn. destruct s. cbn. f_equal; lia. }
  change (foldl _ ?x rs) with (tally read_at rs x). unfold answerable. rewrite filter_cons.
  destruct (snapshot_is_answerable kr.2 read_at);
    [rewrite decide_True by done|rewrite decide_False by done];
    rewrite IH by (cbn; unfold sat_add64; lia); unfold answerable;
    cbn [rs_loaded rs_expired rs_corrupt rs_incompatible bump_loaded bump_expired length]; unfold sat_add64; f_equal; lia.
Qed.

(** ** Any file *)

Lemma any_outcome {S A} (m : ST S A) s : outcome m s (fun _ _ => True) (fun _ => True).
Proof. unfold outcome. by destruct (m s) as [[a|e] s']. Qed.

(** What [open_cache_snapshot] has checked of a file [file] it accepts. *)
Definition verified (file : list byte) (limit : Z) (rd : CacheSnapshotReader) : Prop :=
  exists h, decode_header (take 60 file) = Ok h /\ rd_file rd = drop 60 file /\
    hd_record_count h <= MAX_RECORDS /\ HEADER_BYTES + hd_body_bytes h = bytes_len file /\ bytes_len file <= limit /\
    sha256 (rd_file rd ++ metadata_bytes h) = hd_checksum h /\
    rd_remaining rd = hd_record_count h /\ rd_snapshot_bytes rd = bytes_len file /\
    rd_generated_at_utc_millis rd = hd_generated_at_utc_millis h /\
    rd_summary rd = mk_recovery 0 0 0 0 /\ rd_seen rd = ∅.

Lemma decode_header_count bytes h : decode_header bytes = Ok h -> 0 <= hd_record_count h /\ 0 <= hd_body_bytes h.
Proof.
  unfold decode_header. do 3 (destruct (negb _); [done|]). intros <-%Ok_inj.
  cbn [hd_record_count hd_body_bytes]. split; apply from_be_range.
Qed.

Lemma open_outcome path limit deadline w :
  outcome (open_cache_snapshot path limit deadline) w
    (fun o _ => forall rd, o = Some rd -> exists file,
       w_disk w !! resolve (w_disk w) path = Some (Regular file) /\ verified file limit rd) (fun _ => True).
Proof.
  unfold open_cache_snapshot. eapply (outcome_bind _ _ w (fun _ w' => later w w')).
  { eapply outcome_weaken; [apply (deadline_outcome w deadline)|done|done]. }
  intros [] w1 Hs1. eapply outcome_bind; [eapply outcome_weaken; [apply tick_outcome|intros a w' H; exact H|done]|].
  intros n w2 Hs2. eapply (outcome_bind get_disk _ w2 (fun d w' => d = w_disk w2 /\ w' = w2)); [done|].
  intros d w0 [-> ->]. rewrite (proj1 Hs2), (proj1 Hs1).
  destruct (fault n) as [[| | |c]|]; [by apply outcome_ret|done..|].
  destruct (w_disk w !! _) as [node|]; [|by apply outcome_ret].
  eapply outcome_bind; [apply any_outcome|]. intros [] w3 _.
  destruct node as [file| |]; try done.
  destruct (Z.ltb_spec (bytes_len file) HEADER_BYTES) as [|Hmin]; [done|].
  destruct (Z.ltb_spec limit (bytes_len file)) as [|Hlim]; [done|].
  eapply outcome_bind.
  { eapply outcome_weaken; [apply (read_outcome deadline w3)|intros a w' H; exact H|done].
    unfold bytes_len, HEADER_BYTES in *. lia. }
  intros out w4 [-> _]. change (Z.to_nat HEADER_BYTES) with 60%nat. apply bind_lift; [|done]. intros h Hh.
  destruct (Z.ltb_spec MAX_RECORDS (hd_record_count h)) as [|Hmax]; [done|]. cbn [orb].
  case_bool_decide as Hadd; [|done]. cbn [negb]. apply checked_add64_some in Hadd as [Hlen _].
  pose proof (decode_header_count _ _ Hh) as [_ Hb0].
  assert (Hd : bytes_len (drop 60 file) = hd_body_bytes h)
    by (unfold bytes_len, HEADER_BYTES in *; rewrite length_drop; lia).
  eapply outcome_bind.
  { eapply outcome_weaken; [apply (verify_loop_outcome deadline _ _ _ _ w4)|intros a w' H; exact H|done];
      [lia|unfold bytes_len in Hd; lia]. }
  intros out w5 [-> _]. cbn [app]. rewrite take_ge by (unfold bytes_len in Hd; lia).
  case_bool_decide as Hsum; [|done]. cbn [negb].
  eapply outcome_bind; [apply any_outcome|]. intros [] w6 _.
  eapply outcome_bind; [apply any_outcome|]. intros t w7 _. apply outcome_ret. intros rd [= <-].
  exists file. split; [done|]. by exists h.
Qed.

(** The records accounted for, and those still to read. *)
Definition accounted (rd : CacheSnapshotReader) : Z :=
  rs_loaded (rd_summary rd) + rs_expired (rd_summary rd) + rs_corrupt (rd_summary rd) +
  rs_incompatible (rd_summary rd) + rd_remaining rd.

Record counting (rd : CacheSnapshotReader) : Prop := {
  ct_loaded : 0 <= rs_loaded (rd_summary rd);
  ct_expired : 0 <= rs_expired (rd_summary rd);
  ct_corrupt : 0 <= rs_corrupt (rd_summary rd);
  ct_incompatible : 0 <= rs_incompatible (rd_summary rd);
  ct_remaining : 0 <= rd_remaining rd;
  ct_total : accounted rd <= u64_max
}.

(** From [rd] to [rd'] with [batch] handed out. *)
Record progressed (rd rd' : CacheSnapshotReader) (batch : list (CacheKey * CacheRecord)) : Prop := {
  pg_total : accounted rd' = accounted rd;
  pg_counting : counting rd';
  pg_loaded : rs_loaded (rd_summary rd') = rs_loaded (rd_summary rd) + Z.of_nat (length batch);
  pg_remaining : rd_remaining rd' + Z.of_nat (length batch) <= rd_remaining rd;
  pg_now : rd_now rd' = rd_now rd;
  pg_answerable : Forall (fun kr => snapshot_is_answerable kr.2 (rd_now rd) = true) batch;
  pg_seen : rd_seen rd ⊆ rd_seen rd';
  pg_new : Forall (fun kr => key_digest kr.1 ∈ rd_seen rd' /\ ~ key_digest kr.1 ∈ rd_seen rd) batch;
  pg_distinct : NoDup (key_digest <$> batch.*1)
}.

Definition opt_list {A} (o : option A) : list A := match o with Some a => [a] | None => [] end.

(** A record that is not handed out is counted once. *)
Lemma progressed_counted rd file bump seen :
  counting rd -> 0 < rd_remaining rd -> rd_seen rd ⊆ seen ->
  bump ∈ [bump_expired; bump_corrupt; bump_incompatible] ->
  progressed rd (mk_reader file (rd_generated_at_utc_millis rd) (rd_snapshot_bytes rd) (rd_remaining rd - 1)
    (rd_now rd) (bump (rd_summary rd)) seen) [].
Proof.
  intros [] Hpos Hsub Hb. unfold accounted in *.
  assert (Hsum : let s := bump (rd_summary rd) in
    rs_loaded s = rs_loaded (rd_summary rd) /\ 0 <= rs_expired s /\ 0 <= rs_corrupt s /\ 0 <= rs_incompatible s /\
    rs_expired s + rs_corrupt s + rs_incompatible s = rs_expired (rd_summary rd) + rs_corrupt (rd_summary rd) +
      rs_incompatible (rd_summary rd) + 1).
  { rewrite !elem_of_cons in Hb. destruct Hb as [->|[->|[->|?%elem_of_nil]]]; cbn; unfold sat_add64; try done; lia. }
  cbn zeta in Hsum. destruct Hsum as (S1 & S2 & S3 & S4 & S5).
  split; try done; try (unfold accounted; cbn; lia); [split; unfold accounted; cbn; lia|constructor..].
Qed.

Lemma next_record_progress deadline rd w :
  counting rd -> 0 < rd_remaining rd ->
  outcome (next_record deadline) (rd, w)
    (fun o s => progressed rd s.1 (opt_list o) /\ rd_remaining s.1 = rd_remaining rd - 1) (fun _ => True).
Proof.
  intros Hc Hpos. unfold next_record. eapply bind_in_world; [apply any_outcome|]. intros [] wa _. apply bind_reader.
  eapply bind_in_world; [apply any_outcome|]. intros [lb rest] wb _. apply bind_put_reader.
  destruct (_ <? _); [done|]. eapply bind_in_world; [apply any_outcome|]. intros [payload rest'] wc _.
  apply bind_reader, bind_put_reader.
  eapply bind_in_world; [apply any_outcome|]. intros w1 wd _.
  eapply bind_in_world; [apply any_outcome|]. intros w2 we _. cbn [with_file rd_now rd_seen].
  destruct (decode_record (rd_now rd) w1 w2 payload) as [[[k r] rest2]|e].
  2: { destruct e; apply bind_put_reader, outcome_ret; (split; [|done]).
       - apply (progressed_counted rd rest' bump_corrupt (rd_seen rd)); rewrite ?elem_of_cons; auto.
       - apply (progressed_counted rd rest' bump_incompatible (rd_seen rd)); rewrite ?elem_of_cons; auto.
       - apply (progressed_counted rd rest' bump_corrupt (rd_seen rd)); rewrite ?elem_of_cons; auto. }
  apply bind_lift; [|done]. intros d Hd. case_bool_decide as Hseen.
  { apply bind_put_reader, outcome_ret. split; [|done].
    apply (progressed_counted rd rest' bump_corrupt (rd_seen rd)); rewrite ?elem_of_cons; auto. }
  cbn [rd_now see with_file]. destruct (snapshot_is_answerable r (rd_now rd)) eqn:Ea; apply bind_put_reader, outcome_ret;
    (split; [|done]).
  2: { apply (progressed_counted rd rest' bump_expired ({[d]} ∪ rd_seen rd)); rewrite ?elem_of_cons; auto. set_solver. }
  assert (Hk : key_digest k = d) by (unfold key_digest; by rewrite Hd).
  destruct Hc. unfold accounted in *. split; cbn; unfold accounted; cbn; unfold sat_add64; try lia.
  - split; unfold accounted; cbn; unfold sat_add64; lia.
  - by constructor.
  - set_solver.
  - constructor; [|done]. cbn. rewrite Hk. split; [set_solver|done].
  - apply NoDup_singleton.
Qed.

Lemma progressed_trans rd rd1 rd2 b1 b2 :
  progressed rd rd1 b1 -> progressed rd1 rd2 b2 -> progressed rd rd2 (b1 ++ b2).
Proof.
  intros [] []. split; try congruence.
  - rewrite length_app. lia.
  - rewrite length_app. lia.
  - apply Forall_app. split; [done|]. by rewrite <-pg_now0.
  - by transitivity (rd_seen rd1).
  - rewrite List.Forall_forall in pg_new0, pg_new1. apply List.Forall_forall. intros kr Hkr.
    apply in_app_or in Hkr as [Hkr|Hkr]; [destruct (pg_new0 kr Hkr)|destruct (pg_new1 kr Hkr)]; set_solver.
  - rewrite !fmap_app. apply list.NoDup_app. split_and!; [done| |done].
    intros x (k1 & -> & (kr1 & -> & H1)%list_elem_of_fmap)%list_elem_of_fmap
      (k2 & Hk & (kr2 & -> & H2)%list_elem_of_fmap)%list_elem_of_fmap.
    rewrite List.Forall_forall in pg_new0, pg_new1. apply list_elem_of_In in H1, H2.
    destruct (pg_new1 kr2 H2) as [_ Hn]. apply Hn. rewrite <-Hk. by apply pg_new0.
Qed.

Lemma batch_loop_progress fuel size deadline batch rd w :
  counting rd -> (length batch <= size)%nat ->
  outcome (batch_loop fuel size deadline batch) (rd, w)
    (fun out s => exists more, out = batch ++ more /\ progressed rd s.1 more /\ (length out <= size)%nat /\
       (rd_remaining rd <= Z.of_nat fuel -> rd_remaining s.1 = 0 \/ length out = size)) (fun _ => True).
Proof.
  assert (Hrefl : forall rd, counting rd -> progressed rd rd []).
  { intros rd0 Hc. split; try done; [cbn; lia|cbn; lia|constructor..]. }
  revert batch rd w. induction fuel as [|fuel IH]; intros batch rd w Hc Hl; cbn [batch_loop]; apply bind_reader.
  all: destruct (Z.leb_spec (rd_remaining rd) 0) as [Hr|Hr]; cbn [orb];
    [|destruct (Nat.leb_spec size (length batch)) as [Hs|Hs]].
  1-5: apply outcome_ret; exists []; rewrite app_nil_r; split_and!; [done|by apply Hrefl|lia|];
    destruct Hc; cbn; lia.
  eapply outcome_bind; [by apply next_record_progress|].
  intros o [rd1 w1] [Hp Hr1]. cbn [fst] in *. change (match o with Some kr => [kr] | None => [] end) with (opt_list o).
  assert (Ho : (length (opt_list o) <= 1)%nat) by (by destruct o; cbn; lia).
  eapply outcome_weaken; [apply (IH (batch ++ opt_list o) rd1 w1); [apply Hp|rewrite length_app; lia]| |done].
  intros out [rd2 w2] (more & -> & Hp2 & Hlen & Hend). cbn [fst] in *. exists (opt_list o ++ more).
  rewrite app_assoc. split_and!; [done|by eapply progressed_trans|done|]. intros. apply Hend. lia.
Qed.

(** Every record the store can show is one the codec takes, and there are not too
    many of them. *)
Definition store_storable (store : MokaCacheStore) : Prop :=
  forall items, shown store items -> Forall storable items /\ Z.of_nat (length items) <= MAX_RECORDS.

Section Theorems.
Context {HL : HickoryLaws HH}.
Context (sha_length : forall x, length (sha256 x) = CHECKSUM_BYTES).
Context (store : MokaCacheStore) (path : Path) (batch_size : nat) (deadline : Deadline).

Lemma storable_fits items now : Forall storable items -> Z.of_nat (length items) <= MAX_RECORDS -> records_fit now items.
Proof.
  intros Hs Hl. split; [|done]. intros kr Hin. rewrite List.Forall_forall in Hs.
  destruct (Hs kr) as [wire Hen]; [by apply list_elem_of_In|]. split; [eexists; by eapply digest_ok|].
  intros w1 w2 _ _. destruct (encode_record_ok kr.1 kr.2 wire now w1 w2 Hen) as (? & ? & ? & ? & ? & _ & _ & _ & _ & _ & H).
  eexists. split; [exact H|]. by eapply encode_record_length.
Qed.

(** Whatever is on the disk, a reader is opened only on a regular file no longer
    than the limit, whose length is the one its header states and whose SHA-256 of
    body and metadata is the one its header carries; and every batch it then
    hands out is within its size, of records that can still answer and that no
    earlier batch held, with each record of the file counted exactly once as
    loaded, expired, corrupt or incompatible. *)
Theorem snapshot_reader_accounts limit size w rd w' :
  open_cache_snapshot path limit deadline w = (Ok (Some rd), w') ->
  (exists file, w_disk w !! resolve (w_disk w) path = Some (Regular file) /\ verified file limit rd) /\
  counting rd /\
  forall rd1 w1 batch rd2 w2, counting rd1 -> next_batch size deadline (rd1, w1) = (Ok batch, (rd2, w2)) ->
    progressed rd1 rd2 batch /\ (length batch <= size)%nat /\ (rd_remaining rd2 = 0 \/ length batch = size).
Proof.
  intros Ho. pose proof (open_outcome path limit deadline w) as H. unfold outcome in H. rewrite Ho in H.
  destruct (H rd eq_refl) as (file & Hf & Hv). split; [by exists file|].
  destruct Hv as (h & Hh & _ & Hm & _ & _ & _ & Hr & _ & _ & Hs & _). apply decode_header_count in Hh as [Hc _]. split.
  { split; unfold accounted; rewrite ?Hs, ?Hr; cbn; unfold MAX_RECORDS in *; unfold_ints; lia. }
  intros rd1 w1 batch rd2 w2 Hcount. unfold next_batch. destruct (Nat.eqb_spec size 0); [done|]. intros Hn.
  assert (Hb : outcome (rd ← get_reader; batch_loop (Z.to_nat (rd_remaining rd)) size deadline []) (rd1, w1)
    (fun out s => exists more, out = [] ++ more /\ progressed rd1 s.1 more /\ (length out <= size)%nat /\
       (rd_remaining rd1 <= Z.of_nat (Z.to_nat (rd_remaining rd1)) -> rd_remaining s.1 = 0 \/ length out = size)) (fun _ => True)).
  { apply bind_reader. apply batch_loop_progress; [done|cbn; lia]. }
  unfold outcome in Hb. rewrite Hn in Hb. destruct Hb as (more & -> & Hp & Hl & He). cbn [fst app] in *.
  split_and!; [done|done|]. apply He. lia.
Qed.

(** C22: The target is replaced at once or not at all: whatever fails, and wherever the
    process stops, the target holds what it held before or a whole snapshot of the
    store (header, records and checksum agree); it changes only after
    [publish_current] has said yes; and a call that succeeds leaves a snapshot
    with the summary it returns. *)
Theorem snapshot_publish_atomic publish allowed w :
  named path -> w_log w = [] ->
  (forall w', same_disk w' (publish w').2) -> (forall w1 w2, publish w1 = (Ok true, w2) -> allowed) ->
  let '(r, w') := write_cache_snapshot_if_current store path batch_size deadline publish w in
  (forall d, d ∈ w_disk w' :: w_log w' -> d !! path = w_disk w !! path \/
     allowed /\ exists content, complete store (w_ticks w) content /\ d !! path = Some (Regular content)) /\
  (forall summary store', r = Ok (summary, store') -> exists to now items h content,
     shown store items /\ snapshot_of (w_ticks w) to now items h content /\
     w_disk w' !! path = Some (Regular content) /\ summary = summary_of h).
Proof.
  intros Hnamed Hlog Hkeep Hallow.
  assert (Hu : untouched path (w_disk w !! path) w) by (split; [done|rewrite Hlog; constructor]).
  pose proof (write_snapshot_outcome sha_length store batch_size deadline (w_ticks w) path (w_disk w !! path) Hnamed
    publish allowed Hkeep Hallow w (le_n _) Hu) as H. unfold outcome in H.
  assert (Hrep : forall summary w', target_replaced store (w_ticks w) path (w_disk w !! path) publish allowed summary w' ->
    forall d, d ∈ w_disk w' :: w_log w' -> d !! path = w_disk w !! path \/
     allowed /\ exists content, complete store (w_ticks w) content /\ d !! path = Some (Regular content)).
  { intros sm w' (Ha & Hl & to & now & items & h & content & _ & H1 & H2 & H3 & _) d [->|Hd]%elem_of_cons.
    - right. split; [done|]. exists content. split; [by exists to, now, items, h|done].
    - rewrite List.Forall_forall in Hl. apply list_elem_of_In, Hl in Hd as [?|?]; [by left|by right]. }
  destruct (write_cache_snapshot_if_current _ _ _ _ _ w) as [[[summary store']|e] w'].
  - cbn [fst] in H. split; [by eapply Hrep|]. intros ? ? [= <- <-].
    destruct H as (_ & _ & to & now & items & h & content & _ & H). by exists to, now, items, h, content.
  - split; [|done]. destruct H as [[[H1 H2]|[sm H]] _]; [|by eapply Hrep].
    intros d [->|Hd]%elem_of_cons; [by left|]. rewrite List.Forall_forall in H2. left. by apply H2, list_elem_of_In.
Qed.

End Theorems.

End Effects.

(** ** A concrete snapshot *)

Section SnapshotWitness.
Import Sample MapMoka.

(** 32 bytes of any input; a stand-in for SHA-256 that can be evaluated. *)
Definition toy_sha (x : list byte) : list byte := be_bytes 32 (from_be x).
Lemma toy_sha_length x : length (toy_sha x) = CHECKSUM_BYTES.
Proof. apply length_be_bytes. Qed.

Definition snap_path : Path := mk_path true ["var"; "cache.snapshot"]%string.
Definition snap_world : World :=
  mk_world (<[snap_path := Regular [x2a]]> (<[mk_path true ["var"%string] := Directory]> ∅)) 0 0 [].
Definition snap_store : MokaCacheStore (HH := hickory) :=
  set_moka (moka_with_limit None)
    (mk_map_moka MokaExpiry {[ codec_key := (codec_record, None) ]}).
Definition snap_clock : nat -> Instant := fun _ => sample_now.
Definition snap_wall : nat -> Z := fun _ => from_secs 5000.
Definition no_fault : nat -> option IoError := fun _ => None.
Definition snap_resolve : Disk -> Path -> Path := fun _ p => p.
Definition snap_deadline : Deadline := sample_now + from_secs 30.

Lemma snap_iter t0 t2 kr :
  kr ∈ moka_iter t2 (moka_run_pending_tasks t0 (mk_cache snap_store)) -> kr = (codec_key, codec_record).
Proof.
  destruct kr as [k r]. intros H%iter_held. apply lookup_map_held in H as (x & Hx & Hl). cbn in Hx.
  apply map_lookup_filter_Some in Hx as [Hx _]. apply lookup_singleton_Some in Hx as [<- <-].
  unfold live in Hl. cbn in Hl. by injection Hl as <-.
Qed.

Lemma snap_iter_length t0 t2 :
  (length (moka_iter t2 (moka_run_pending_tasks t0 (mk_cache snap_store))) <= 1)%nat.
Proof.
  pose proof (snap_iter t0 t2) as H. cbn [moka_iter map_moka_calls] in *.
  match goal with |- context [map_to_list ?m] => pose proof (NoDup_map_to_list m) as Hnd end.
  destruct (map_to_list _) as [|a [|b l]]; cbn; [lia..|]. exfalso.
  rewrite (H a), (H b) in Hnd by (set_solver). apply list.NoDup_cons in Hnd as [Hn _]. set_solver.
Qed.

Lemma snap_storable : store_storable (HH := hickory) snap_store.
Proof.
  intros items (t0 & t1 & t2 & ->). unfold visible_at. split.
  - apply List.Forall_forall. intros kr [_ Hin]%list_elem_of_In%list_elem_of_filter. apply snap_iter in Hin as ->.
    exists codec_wire. apply codec_encodable.
  - pose proof (snap_iter_length t0 t2). etransitivity; [apply Nat2Z.inj_le, length_filter|].
    unfold MAX_RECORDS. lia.
Qed.

Lemma snap_healthy : healthy snap_clock no_fault snap_deadline.
Proof. split; [done|]. intros n. by vm_compute. Qed.

Lemma snap_named : named snap_path.
Proof. exists ["var"%string], "cache.snapshot"%string. split; [done|]. eexists. by vm_compute. Qed.

Lemma snap_clear : clear_way 77 snap_path snap_world.
Proof.
  split_and!.
  - intros q c Hq. unfold snap_world. cbn [w_disk]. rewrite lookup_insert_ne by (intros <-; cbn in Hq; lia).
    intros [[_ ?]|[_ ?]]%lookup_insert_Some; done.
  - intros id. destruct (temp_name_components 77 snap_path id snap_named) as [Hl Hne]. unfold snap_world. cbn [w_disk].
    rewrite lookup_insert_ne by done. rewrite lookup_insert_ne; [done|]. intros He. rewrite <-He in Hl. done.
  - right. by eexists.
Qed.


(** The publication refused by its caller. *)
Definition refuse_publish : ST World bool := fun w => (Ok false, w).

Lemma snapshot_publish_atomic_witness :
  let '(_, w') := write_cache_snapshot_if_current toy_sha snap_clock snap_wall no_fault (fun _ => 0%nat) 77
    snap_store snap_path 128 snap_deadline refuse_publish snap_world in
  forall d, d ∈ w_disk w' :: w_log w' -> d !! snap_path = w_disk snap_world !! snap_path.
Proof.
  pose proof (snapshot_publish_atomic (HH := hickory) toy_sha snap_clock snap_wall no_fault (fun _ => 0%nat) 77
    toy_sha_length snap_store snap_path 128 snap_deadline refuse_publish False snap_world snap_named eq_refl
    (fun _ => conj eq_refl eq_refl)) as H.
  assert (Hno : forall w1 w2 : World, refuse_publish w1 = (Ok true, w2) -> False) by (intros w1 w2 [=]).
  specialize (H Hno). destruct (write_cache_snapshot_if_current _ _ _ _ _ _ _ _ _ _ _ _) as [r w'].
  intros d Hd. destruct (proj1 H d Hd) as [?|[[] _]]. done.
Defined.

(** A snapshot of nothing. *)
Definition empty_header : Header := mk_header 7 0 0 (toy_sha (metadata_bytes (mk_header 7 0 0 []))).
Definition empty_world : World :=
  mk_world {[ snap_path := Regular (encode_header empty_header) ]} 0 0 [].

Lemma snapshot_reader_accounts_witness :
  exists rd w', open_cache_snapshot toy_sha snap_clock no_fault snap_resolve snap_path 1000 snap_deadline empty_world
    = (Ok (Some rd), w') /\ counting rd.
Proof.
  destruct (open_cache_snapshot toy_sha snap_clock no_fault snap_resolve snap_path 1000 snap_deadline empty_world)
    as [[[rd|]|e] w'] eqn:E; [|by vm_compute in E..].
  exists rd, w'. split; [done|].
  apply (snapshot_reader_accounts (HH := hickory) toy_sha snap_clock snap_wall no_fault snap_resolve snap_path
    snap_deadline 1000 1 empty_world rd w' E).
Defined.

End SnapshotWitness.
