(* ===== verification/SnapshotOwner.v ===== *)
(** * The owner of the cache snapshot (src/backend/src/cache/snapshot_owner.rs)

    One owner per process restores the cache from the snapshot file at start,
    writes it periodically and once more at shutdown, and follows reloads by
    switching its source. Two mutexes order its work: [state], held for short
    updates, and [publish], held by a writer from its check that it is still
    current until the rename is done, and by a switch or a shutdown.

    Recovery is a computation of [Snapshot]'s kind. The rest is a step function on
    the shared state, one command per stretch of code between two points where
    another task can run; a command that cannot run yet (a lock is taken, a writer
    is elsewhere) is refused. Stores are addresses, so that sources can be
    compared by identity; a store is its two generations. Timers, notifications
    and the abort of the periodic task only decide which command comes next; a
    task that was aborted is one that gets no further command. *)

From S2P Require Import Prelude Message CacheModel CacheAdmission CacheCodec MokaStore Snapshot.

Definition SNAPSHOT_BATCH_SIZE : nat := 128.
Definition SNAPSHOT_FILE_LIMIT_BYTES : Z := 1024 * 1024 * 1024.

(** ** Settings and paths *)

Inductive CacheSnapshotOwnerBuildError :=
| ZeroInterval | InvalidPath | MissingRuntime | MissingSource | SourceMismatch | AlreadyAttached.

Record CacheSnapshotSettings := mk_snapshot_settings {
  sn_enabled : bool;
  sn_path : Path;
  sn_interval : Duration;
  sn_protected_paths : list Path
}.

Section Paths.
(** [fs::symlink_metadata], and the link count, device and inode of what a path
    leads to. *)
Context (symlink_metadata : Path -> result IoError Node).
Context (metadata : Path -> option (Z * Z * Z)).

Definition is_link_or_reparse (n : Node) : bool := match n with SymLink => true | _ => false end.
Definition node_is_file (n : Node) : bool := match n with Regular _ => true | _ => false end.
Definition node_is_dir (n : Node) : bool := match n with Directory => true | _ => false end.

Definition opened_file_identity (path : Path) (reject_hard_links : bool) :
    result CacheSnapshotOwnerBuildError (Z * Z) :=
  match metadata path with
  | None => Err InvalidPath
  | Some (nlink, dev, ino) =>
    if reject_hard_links && negb (nlink =? 1) then Err InvalidPath else Ok (dev, ino)
  end.

Definition same_existing_file (left right : Path) : bool :=
  match opened_file_identity left false, opened_file_identity right false with
  | Ok l, Ok r => bool_decide (l = r)
  | _, _ => false
  end.

(** One component: whether to go on to the next. *)
Definition check_component (path current : Path) : result CacheSnapshotOwnerBuildError bool :=
  match symlink_metadata current with
  | Ok node =>
    if is_link_or_reparse node || (negb (bool_decide (current = path)) && negb (node_is_dir node))
    then Err InvalidPath else Ok true
  | Err NotFound => Ok false
  | Err _ => Err InvalidPath
  end.

Fixpoint linked_components (path : Path) (done todo : list string) :
    result CacheSnapshotOwnerBuildError unit :=
  match todo with
  | [] => Ok tt
  | name :: rest =>
    go_on ← check_component path (mk_path (p_absolute path) (done ++ [name]));
    if go_on : bool then linked_components path (done ++ [name]) rest else Ok tt
  end.

(** The prefixes of the path, the root first, up to one that does not exist. *)
Definition reject_linked_components (path : Path) : result CacheSnapshotOwnerBuildError unit :=
  go_on ← (if p_absolute path then check_component path (mk_path true []) else Ok true);
  if go_on : bool then linked_components path [] (p_components path) else Ok tt.

Definition path_eq (left right : Path) : bool := bool_decide (left = right).

Definition validate_managed_path (path : Path) (protected_paths : list Path) :
    result CacheSnapshotOwnerBuildError unit :=
  if negb (p_absolute path) || bool_decide (path_file_name path = None) then Err InvalidPath
  else
    _ ← reject_linked_components path;
    _ ← match symlink_metadata path with
        | Ok node =>
          if negb (node_is_file node) || is_link_or_reparse node then Err InvalidPath
          else _ ← opened_file_identity path true; Ok tt
        | Err NotFound => Ok tt
        | Err _ => Err InvalidPath
        end;
    if existsb (fun protected => path_eq path protected || same_existing_file path protected) protected_paths
    then Err InvalidPath
    else Ok tt.

Definition CacheSnapshotSettings_new (enabled : bool) (path : Path) (interval : Duration)
    (protected_paths : list Path) : result CacheSnapshotOwnerBuildError CacheSnapshotSettings :=
  if is_zero interval then Err ZeroInterval
  else _ ← validate_managed_path path protected_paths;
       Ok (mk_snapshot_settings enabled path interval protected_paths).
End Paths.

(** ** Status *)

Inductive CacheSnapshotCondition := CoDisabled | CoIdle | CoWriting | CoRestoring | CoFailed | CoStopped.
Inductive CacheSnapshotFailure := FaTimeout | FaUnavailable | FaCorrupt | FaIncompatible | FaResourceExhausted | FaIo.
#[global] Instance CacheSnapshotFailure_eq_dec : EqDecision CacheSnapshotFailure.
Proof. solve_decision. Defined.

Record CacheSnapshotOwnerStatus := mk_owner_status {
  os_condition : CacheSnapshotCondition;
  os_owner_revision : Z;
  os_generation : Z;
  os_file_bytes : option Z;
  os_last_success_at_utc_millis : option Z;
  os_last_error : option CacheSnapshotFailure;
  os_recovery : CacheRecoverySummary;
  os_recovery_skipped : Z
}.

Record CacheSnapshotShutdownSummary := mk_shutdown_summary {
  ss_completed : bool;
  ss_attempted : bool;
  ss_written : bool;
  ss_error : option CacheSnapshotFailure
}.

Record RecoveryResult := mk_recovery_result {
  rr_summary : CacheRecoverySummary;
  rr_skipped : Z;
  rr_file_bytes : option Z;
  rr_last_success_at_utc_millis : option Z;
  rr_complete : bool;
  rr_error : option CacheSnapshotFailure
}.

Definition no_recovery : CacheRecoverySummary := mk_recovery 0 0 0 0.

Definition failure (e : CacheSnapshotError) : CacheSnapshotFailure :=
  match e with
  | SnTimeout => FaTimeout
  | SnUnavailable | SnSuperseded => FaUnavailable
  | SnCorrupt => FaCorrupt
  | SnIncompatible => FaIncompatible
  | SnResourceExhausted => FaResourceExhausted
  | SnIo _ => FaIo
  end.

(** ** Recovery *)

Section Recovery.
Context {HH : Hickory} {M : Moka}.
Context (sha256 : list byte -> list byte) (clock : nat -> Instant) (wall : nat -> Z).
Context (fault : nat -> option IoError) (resolve : Disk -> Path -> Path).
(** Whether the blocking task run at a tick ends without a panic. *)
Context (joined : nat -> bool).

(** The clock of a call made now, and the world after [n] readings of it. *)
Definition call_clock (w : World) : nat -> Instant := clock_from clock (w_ticks w).
Definition after_call (n : nat) (w : World) : World :=
  mk_world (w_disk w) (w_ticks w + n) (w_next_temp_file w) (w_log w).

(** The insertion of one batch: whether it ran into the deadline, the failures
    so far, the store and the world. *)
Fixpoint insert_batch (deadline : Deadline) (batch : list (CacheKey * CacheRecord)) (failures : Z)
    (store : MokaCacheStore) (w : World) : bool * Z * MokaCacheStore * World :=
  match batch with
  | [] => (false, failures, store, w)
  | (key, r) :: rest =>
    let '(res, store') := moka_compare_and_swap store key Absent (entry r) deadline (call_clock w) in
    let w' := after_call 8 w in
    match res with
    | Ok (Inserted _) | Ok (Replaced _) => insert_batch deadline rest failures store' w'
    | Ok (Conflict _) | Ok RejectedQuality => insert_batch deadline rest (sat_add64 failures 1) store' w'
    | Err e =>
      match pe_class e with
      | PE_Timeout => (true, sat_add64 failures 1, store', w')
      | _ => insert_batch deadline rest (sat_add64 failures 1) store' w'
      end
    end
  end.

Definition set_loaded (s : CacheRecoverySummary) (n : Z) : CacheRecoverySummary :=
  mk_recovery n (rs_expired s) (rs_corrupt s) (rs_incompatible s).

(** The loop over the batches, and what follows it. A batch takes at least one of
    the remaining records. *)
Fixpoint recover_loop (fuel : nat) (deadline : Deadline) (file_bytes last_success : option Z)
    (rd : CacheSnapshotReader) (failures : Z) (store : MokaCacheStore) (w : World) :
    RecoveryResult * MokaCacheStore * World :=
  let finish :=
    let '(st, store') := moka_stats store (call_clock w) in
    let decoded := rs_loaded (rd_summary rd) in
    let summary := set_loaded (rd_summary rd) (entries st) in
    let skipped := sat_add64 failures (sat_sub decoded (entries st)) in
    (mk_recovery_result summary skipped file_bytes last_success true
       (if 0 <? skipped then Some FaResourceExhausted else None), store', after_call 1 w) in
  if is_complete rd then finish
  else match fuel with
  | O => finish
  | S fuel' =>
    if negb (joined (w_ticks w)) then
      (mk_recovery_result no_recovery failures file_bytes last_success false (Some FaUnavailable), store,
       after_call 1 w)
    else match next_batch sha256 clock wall fault SNAPSHOT_BATCH_SIZE deadline (rd, after_call 1 w) with
    | (Err e, (rd', w')) =>
      (mk_recovery_result (rd_summary rd') failures file_bytes last_success false (Some (failure e)), store, w')
    | (Ok batch, (rd', w')) =>
      match insert_batch deadline batch failures store w' with
      | (true, failures', store', w'') =>
        let '(st, store'') := moka_stats store' (call_clock w'') in
        (mk_recovery_result (set_loaded (rd_summary rd') (entries st)) failures' file_bytes last_success false
           (Some FaTimeout), store'', after_call 1 w'')
      | (false, failures', store', w'') =>
        recover_loop fuel' deadline file_bytes last_success rd' failures' store' w''
      end
    end
  end.

Definition failed_recovery (f : CacheSnapshotFailure) : RecoveryResult :=
  mk_recovery_result no_recovery 0 None None false (Some f).
Definition empty_recovery : RecoveryResult := mk_recovery_result no_recovery 0 None None true None.

Definition recover_snapshot (store : MokaCacheStore) (path : Path) (deadline : Deadline) (w : World) :
    RecoveryResult * MokaCacheStore * World :=
  if negb (joined (w_ticks w)) then (failed_recovery FaUnavailable, store, after_call 1 w)
  else match open_cache_snapshot sha256 clock fault resolve path SNAPSHOT_FILE_LIMIT_BYTES deadline (after_call 1 w) with
  | (Ok None, w') => (empty_recovery, store, w')
  | (Err e, w') => (failed_recovery (failure e), store, w')
  | (Ok (Some rd), w') =>
    recover_loop (Z.to_nat (rd_remaining rd)) deadline (Some (rd_snapshot_bytes rd))
      (Some (rd_generated_at_utc_millis rd)) rd 0 store w'
  end.
End Recovery.

(** ** The owner's state *)

Record SnapshotSource := mk_source {
  so_owner_revision : Z;
  so_generation : Z;
  so_store : nat;
  so_settings : CacheSnapshotSettings
}.

Record OwnerState := mk_owner_state {
  ow_source : SnapshotSource;
  ow_status : CacheSnapshotOwnerStatus;
  ow_last_persisted_source_generation : option Z;
  ow_stopped : bool
}.

(** The generations of a store: [snapshot_generation] and
    [snapshot_reset_generation]. *)
Record StoreGenerations := mk_generations { sg_generation : Z; sg_reset : Z }.

(** The state [start] builds after recovery. *)
Definition owner_start (owner_revision : Z) (store : nat) (generations : StoreGenerations)
    (settings : CacheSnapshotSettings) (recovery : RecoveryResult) : OwnerState :=
  let generation := 1 in
  let condition :=
    if negb (sn_enabled settings) then CoDisabled
    else match rr_error recovery with Some _ => CoFailed | None => CoIdle end in
  let persisted :=
    if sn_enabled settings && rr_complete recovery && bool_decide (rr_error recovery = None) &&
       (rr_skipped recovery =? 0) && bool_decide (is_Some (rr_file_bytes recovery))
    then Some (sg_generation generations) else None in
  mk_owner_state (mk_source owner_revision generation store settings)
    (mk_owner_status condition owner_revision generation (rr_file_bytes recovery)
       (rr_last_success_at_utc_millis recovery) (rr_error recovery) (rr_summary recovery) (rr_skipped recovery))
    persisted false.

Definition matches_source (o : OwnerState) (owner_revision : Z) (store : nat) : bool :=
  (so_owner_revision (ow_source o) =? owner_revision) && (so_store (ow_source o) =? store)%nat.

Record PreparedCacheSnapshotSwitch := mk_switch {
  pw_owner_revision : Z;
  pw_store : nat;
  pw_settings : CacheSnapshotSettings
}.

Definition publish_switch (o : OwnerState) (p : PreparedCacheSnapshotSwitch) : OwnerState :=
  let generation := sat_add64 (so_generation (ow_source o)) 1 in
  mk_owner_state (mk_source (pw_owner_revision p) generation (pw_store p) (pw_settings p))
    (mk_owner_status (if sn_enabled (pw_settings p) then CoIdle else CoDisabled) (pw_owner_revision p) generation
       None None None no_recovery 0)
    None (ow_stopped o).

Definition set_source_generation (s : SnapshotSource) (g : Z) : SnapshotSource :=
  mk_source (so_owner_revision s) g (so_store s) (so_settings s).
Definition set_condition (s : CacheSnapshotOwnerStatus) (c : CacheSnapshotCondition) : CacheSnapshotOwnerStatus :=
  mk_owner_status c (os_owner_revision s) (os_generation s) (os_file_bytes s) (os_last_success_at_utc_millis s)
    (os_last_error s) (os_recovery s) (os_recovery_skipped s).
Definition set_status_generation (s : CacheSnapshotOwnerStatus) (g : Z) : CacheSnapshotOwnerStatus :=
  mk_owner_status (os_condition s) (os_owner_revision s) g (os_file_bytes s) (os_last_success_at_utc_millis s)
    (os_last_error s) (os_recovery s) (os_recovery_skipped s).
Definition set_status_error (s : CacheSnapshotOwnerStatus) (f : option CacheSnapshotFailure) : CacheSnapshotOwnerStatus :=
  mk_owner_status (os_condition s) (os_owner_revision s) (os_generation s) (os_file_bytes s)
    (os_last_success_at_utc_millis s) f (os_recovery s) (os_recovery_skipped s).
Definition set_status_file (s : CacheSnapshotOwnerStatus) (bytes : option Z) (at_ : option Z) : CacheSnapshotOwnerStatus :=
  mk_owner_status (os_condition s) (os_owner_revision s) (os_generation s) bytes at_
    (os_last_error s) (os_recovery s) (os_recovery_skipped s).
Definition set_status (o : OwnerState) (s : CacheSnapshotOwnerStatus) : OwnerState :=
  mk_owner_state (ow_source o) s (ow_last_persisted_source_generation o) (ow_stopped o).

(** The first critical section of [shutdown]. *)
Definition shutdown_begin (o : OwnerState) : OwnerState :=
  let generation := sat_add64 (so_generation (ow_source o)) 1 in
  mk_owner_state (set_source_generation (ow_source o) generation)
    (set_condition (set_status_generation (ow_status o) generation)
       (if sn_enabled (so_settings (ow_source o)) then CoWriting else CoStopped))
    (ow_last_persisted_source_generation o) true.

(** [Drop for CacheSnapshotOwner], which does not take [publish]. *)
Definition owner_drop (o : OwnerState) : OwnerState :=
  mk_owner_state (set_source_generation (ow_source o) (sat_add64 (so_generation (ow_source o)) 1))
    (ow_status o) (ow_last_persisted_source_generation o) true.

Definition snapshot_publish_is_current (o : OwnerState) (reset : Z) (source : SnapshotSource)
    (reset_generation : Z) (allow_stopped : bool) : bool :=
  (so_generation (ow_source o) =? so_generation source) &&
  (so_store (ow_source o) =? so_store source)%nat &&
  (negb (ow_stopped o) || allow_stopped) && (reset =? reset_generation).

(** The first critical section of [snapshot_current]: the source to write. *)
Definition snapshot_begin (o : OwnerState) (generation : Z) : option (SnapshotSource * OwnerState) :=
  if ow_stopped o || negb (sn_enabled (so_settings (ow_source o))) then None
  else if bool_decide (ow_last_persisted_source_generation o = Some generation) then None
  else Some (ow_source o, set_status o (set_condition (ow_status o) CoWriting)).

(** The last critical section of [snapshot_current]; [generation] is the store's
    now, [source_generation] what it was before the write. *)
Definition snapshot_finish (o : OwnerState) (source : SnapshotSource) (generation source_generation : Z)
    (r : result CacheSnapshotError CacheSnapshotWriteSummary) : OwnerState :=
  match r with
  | Ok summary =>
    if (so_generation (ow_source o) =? so_generation source) && negb (ow_stopped o) then
      mk_owner_state (ow_source o)
        (set_status_error (set_status_file (set_condition (ow_status o) CoIdle) (Some (ws_bytes summary))
           (Some (ws_generated_at_utc_millis summary))) None)
        (if generation =? source_generation then Some source_generation else None) (ow_stopped o)
    else o
  | Err SnSuperseded => o
  | Err e =>
    if (so_generation (ow_source o) =? so_generation source) && negb (ow_stopped o) then
      set_status o (set_status_error (set_condition (ow_status o) CoFailed) (Some (failure e)))
    else o
  end.

Definition set_shutdown_success (o : OwnerState) (summary : CacheSnapshotWriteSummary) : OwnerState :=
  set_status o (set_status_error (set_status_file (set_condition (ow_status o) CoStopped) (Some (ws_bytes summary))
    (Some (ws_generated_at_utc_millis summary))) None).

Definition set_shutdown_status (o : OwnerState) (generation : Z) (file_bytes : option Z)
    (f : CacheSnapshotFailure) : OwnerState :=
  if so_generation (ow_source o) =? generation then
    let s := ow_status o in
    set_status o (set_status_error (set_status_file (set_condition s CoFailed)
      (match file_bytes with Some b => Some b | None => os_file_bytes s end) (os_last_success_at_utc_millis s)) (Some f))
  else o.

(** The end of [shutdown] after its write. *)
Definition shutdown_finish (o : OwnerState) (r : result CacheSnapshotError CacheSnapshotWriteSummary) :
    CacheSnapshotShutdownSummary * OwnerState :=
  match r with
  | Ok summary => (mk_shutdown_summary true true true None, set_shutdown_success o summary)
  | Err SnSuperseded => (mk_shutdown_summary false true false (Some FaUnavailable), o)
  | Err e =>
    (mk_shutdown_summary false true false (Some (failure e)),
     set_shutdown_status o (os_generation (ow_status o)) None (failure e))
  end.

(** ** Tasks and steps *)

Inductive Phase :=
| PhCaptured                 (* the source is cloned, the generation not read yet *)
| PhWriting                  (* the temporary file is being written *)
| PhHolding (reset : Z)      (* current when the store's reset generation was [reset]; [publish] is held *)
| PhReplaced (r : result CacheSnapshotError CacheSnapshotWriteSummary)  (* renamed or not, [publish] still held *)
| PhDone (r : result CacheSnapshotError CacheSnapshotWriteSummary).

Record Writer := mk_writer {
  wt_source : SnapshotSource;
  wt_reset : Z;
  wt_allow_stopped : bool;
  wt_source_generation : Z;
  wt_phase : Phase
}.

(** A rename over the target (the call can still fail, on the sync of the
    directory): who did it and what the owner was then. *)
Record Publication := mk_publication {
  pb_writer : Writer;
  pb_owner : OwnerState;
  pb_dropped : bool
}.

Record System := mk_system {
  sy_owner : OwnerState;
  sy_publish : option nat;
  sy_stores : gmap nat StoreGenerations;
  sy_writers : gmap nat Writer;
  sy_shutdown : option SnapshotSource;
  sy_dropped : bool;
  sy_published : list Publication
}.

Definition set_owner (s : System) (o : OwnerState) : System :=
  mk_system o (sy_publish s) (sy_stores s) (sy_writers s) (sy_shutdown s) (sy_dropped s) (sy_published s).
Definition set_writer (s : System) (id : nat) (w : Writer) : System :=
  mk_system (sy_owner s) (sy_publish s) (sy_stores s) (<[id := w]> (sy_writers s)) (sy_shutdown s) (sy_dropped s)
    (sy_published s).
Definition set_publish (s : System) (l : option nat) : System :=
  mk_system (sy_owner s) l (sy_stores s) (sy_writers s) (sy_shutdown s) (sy_dropped s) (sy_published s).
Definition set_stores (s : System) (st : gmap nat StoreGenerations) : System :=
  mk_system (sy_owner s) (sy_publish s) st (sy_writers s) (sy_shutdown s) (sy_dropped s) (sy_published s).
Definition set_shutdown (s : System) (sh : option SnapshotSource) : System :=
  mk_system (sy_owner s) (sy_publish s) (sy_stores s) (sy_writers s) sh (sy_dropped s) (sy_published s).
Definition with_phase (w : Writer) (ph : Phase) : Writer :=
  mk_writer (wt_source w) (wt_reset w) (wt_allow_stopped w) (wt_source_generation w) ph.
Definition generations (s : System) (a : nat) : StoreGenerations :=
  default (mk_generations 0 0) (sy_stores s !! a).

Inductive Command :=
| CmdBegin (id : nat)                                        (* the period is over *)
| CmdReadGeneration (id : nat)
| CmdWriteFails (id : nat) (e : CacheSnapshotError)          (* before the check *)
| CmdCheck (id : nat) (path_valid : bool)
| CmdRename (id : nat) (renamed : bool) (r : result CacheSnapshotError CacheSnapshotWriteSummary)
| CmdRelease (id : nat)
| CmdFinish (id : nat)
| CmdSwitch (p : PreparedCacheSnapshotSwitch)
| CmdShutdown
| CmdShutdownTimeout
| CmdShutdownWrite (id : nat)
| CmdStoreWrite (a : nat)
| CmdStoreInvalidate (a : nat)
| CmdDrop.

Definition is_replaced (w : Writer) : option (result CacheSnapshotError CacheSnapshotWriteSummary) :=
  match wt_phase w with PhReplaced r => Some r | _ => None end.

Definition owner_step (s : System) (c : Command) : option System :=
  match c with
  | CmdBegin id =>
    match sy_writers s !! id with
    | Some _ => None
    | None =>
      let a := so_store (ow_source (sy_owner s)) in
      '(source, o) ← snapshot_begin (sy_owner s) (sg_generation (generations s a));
      Some (set_writer (set_owner s o) id
        (mk_writer source (sg_reset (generations s a)) false 0 PhCaptured))
    end
  | CmdReadGeneration id =>
    w ← sy_writers s !! id;
    match wt_phase w with
    | PhCaptured =>
      Some (set_writer s id (mk_writer (wt_source w) (wt_reset w) (wt_allow_stopped w)
        (sg_generation (generations s (so_store (wt_source w)))) PhWriting))
    | _ => None
    end
  | CmdWriteFails id e =>
    w ← sy_writers s !! id;
    match wt_phase w with PhWriting => Some (set_writer s id (with_phase w (PhDone (Err e)))) | _ => None end
  | CmdCheck id path_valid =>
    w ← sy_writers s !! id;
    match wt_phase w, sy_publish s with
    | PhWriting, None =>
      if negb (snapshot_publish_is_current (sy_owner s) (sg_reset (generations s (so_store (wt_source w))))
                 (wt_source w) (wt_reset w) (wt_allow_stopped w))
      then Some (set_writer s id (with_phase w (PhDone (Err SnSuperseded))))
      else if negb path_valid then Some (set_writer s id (with_phase w (PhDone (Err SnUnavailable))))
      else Some (set_publish (set_writer s id
             (with_phase w (PhHolding (sg_reset (generations s (so_store (wt_source w))))))) (Some id))
    | _, _ => None
    end
  | CmdRename id renamed r =>
    w ← sy_writers s !! id;
    match wt_phase w with
    | PhHolding _ =>
      if is_ok r && negb renamed then None
      else
        let published := if renamed then mk_publication w (sy_owner s) (sy_dropped s) :: sy_published s
                         else sy_published s in
        Some (mk_system (sy_owner s) (sy_publish s) (sy_stores s)
          (<[id := with_phase w (PhReplaced r)]> (sy_writers s)) (sy_shutdown s) (sy_dropped s) published)
    | _ => None
    end
  | CmdRelease id =>
    w ← sy_writers s !! id;
    r ← is_replaced w;
    Some (set_publish (set_writer s id (with_phase w (PhDone r))) None)
  | CmdFinish id =>
    w ← sy_writers s !! id;
    match wt_phase w with
    | PhDone r =>
      let s' := mk_system (sy_owner s) (sy_publish s) (sy_stores s) (delete id (sy_writers s)) (sy_shutdown s)
                  (sy_dropped s) (sy_published s) in
      if wt_allow_stopped w then Some (set_owner s' (shutdown_finish (sy_owner s) r).2)
      else Some (set_owner s' (snapshot_finish (sy_owner s) (wt_source w)
             (sg_generation (generations s (so_store (wt_source w)))) (wt_source_generation w) r))
    | _ => None
    end
  | CmdSwitch p =>
    match sy_publish s with Some _ => None | None => Some (set_owner s (publish_switch (sy_owner s) p)) end
  | CmdShutdown =>
    match sy_publish s with
    | Some _ => None
    | None =>
      if ow_stopped (sy_owner s) then Some s
      else let o := shutdown_begin (sy_owner s) in
           Some (set_shutdown (set_owner s o)
             (if sn_enabled (so_settings (ow_source o)) then Some (ow_source o) else None))
    end
  | CmdShutdownTimeout =>
    source ← sy_shutdown s;
    Some (set_shutdown (set_owner s (set_shutdown_status (sy_owner s) (so_generation source) None FaTimeout)) None)
  | CmdShutdownWrite id =>
    source ← sy_shutdown s;
    match sy_writers s !! id with
    | Some _ => None
    | None =>
      Some (set_shutdown (set_writer s id
        (mk_writer source (sg_reset (generations s (so_store source))) true 0 PhWriting)) None)
    end
  | CmdStoreWrite a =>
    let g := generations s a in
    Some (set_stores s (<[a := mk_generations (wrap64 (sg_generation g + 1)) (sg_reset g)]> (sy_stores s)))
  | CmdStoreInvalidate a =>
    let g := generations s a in
    Some (set_stores s (<[a := mk_generations (wrap64 (sg_generation g + 1)) (wrap64 (sg_reset g + 1))]> (sy_stores s)))
  | CmdDrop => Some (mk_system (owner_drop (sy_owner s)) (sy_publish s) (sy_stores s) (sy_writers s) (sy_shutdown s)
                      true (sy_published s))
  end.

Definition owner_run (s : System) (cs : list Command) : option System :=
  foldl (fun acc c => s ← acc; owner_step s c) (Some s) cs.

(** ** Only the current source publishes *)

Definition holds_publish (w : Writer) : Prop :=
  match wt_phase w with PhHolding _ | PhReplaced _ => True | _ => False end.

(** [w] writes for the source the owner has, and may write now. *)
Definition current_for (o : OwnerState) (w : Writer) : Prop :=
  so_generation (ow_source o) = so_generation (wt_source w) /\
  so_store (ow_source o) = so_store (wt_source w) /\
  (ow_stopped o = true -> wt_allow_stopped w = true).

Definition publication_ok (p : Publication) : Prop :=
  (pb_dropped p = false -> current_for (pb_owner p) (pb_writer p)) /\
  wt_phase (pb_writer p) = PhHolding (wt_reset (pb_writer p)).

Record owner_inv (s : System) : Prop := {
  oi_lock : forall id w, sy_writers s !! id = Some w -> holds_publish w -> sy_publish s = Some id;
  oi_current : forall id w, sy_writers s !! id = Some w -> holds_publish w -> sy_dropped s = false ->
    current_for (sy_owner s) w;
  oi_reset : forall id w reset, sy_writers s !! id = Some w -> wt_phase w = PhHolding reset -> reset = wt_reset w;
  oi_published : Forall publication_ok (sy_published s)
}.

(** The same source, stopped or not. *)
Definition same_standing (o o' : OwnerState) : Prop :=
  ow_source o' = ow_source o /\ ow_stopped o' = ow_stopped o.

Lemma current_standing o o' w : same_standing o o' -> current_for o w -> current_for o' w.
Proof. unfold current_for. by intros [-> ->]. Qed.

Lemma snapshot_begin_standing o g source o' :
  snapshot_begin o g = Some (source, o') -> same_standing o o' /\ source = ow_source o /\ ow_stopped o = false.
Proof.
  unfold snapshot_begin. destruct (ow_stopped o) eqn:E; [done|]. cbn [orb]. destruct (negb _); [done|].
  case_bool_decide; [done|]. by intros [= <- <-].
Qed.

Lemma snapshot_finish_standing o source g sg r : same_standing o (snapshot_finish o source g sg r).
Proof. unfold snapshot_finish. destruct r as [sm|e]; [by destruct (_ && _)|]. by destruct e; try destruct (_ && _). Qed.

Lemma shutdown_status_standing o g b f : same_standing o (set_shutdown_status o g b f).
Proof. unfold set_shutdown_status. by destruct (_ =? _). Qed.

Lemma shutdown_finish_standing o r : same_standing o (shutdown_finish o r).2.
Proof. destruct r as [sm|e]; [done|]. destruct e; cbn; try done; apply shutdown_status_standing. Qed.

(** A step that changes neither the lock nor a writer that holds it. *)
Lemma inv_keep s s' :
  owner_inv s -> same_standing (sy_owner s) (sy_owner s') -> sy_publish s' = sy_publish s ->
  sy_dropped s' = sy_dropped s -> sy_published s' = sy_published s ->
  (forall id w, sy_writers s' !! id = Some w -> sy_writers s !! id = Some w \/ ~ holds_publish w) ->
  owner_inv s'.
Proof.
  intros [] Hst Hl Hd Hp Hw. split.
  - intros id w H Hh. destruct (Hw id w H) as [H'|H']; [|done]. rewrite Hl. by eapply oi_lock0.
  - intros id w H Hh Hd'. destruct (Hw id w H) as [H'|H']; [|done]. eapply current_standing; [done|].
    eapply oi_current0; [done|done|congruence].
  - intros id w reset H Hh. destruct (Hw id w H) as [H'|H']; [by eapply oi_reset0|].
    destruct H'. unfold holds_publish. by rewrite Hh.
  - by rewrite Hp.
Qed.

(** With [publish] free, no writer holds it, whatever becomes of the owner. *)
Lemma inv_free s o sh :
  owner_inv s -> sy_publish s = None -> owner_inv (set_shutdown (set_owner s o) sh).
Proof.
  intros [] Hl. split; cbn; try done.
  intros id w H Hh _. specialize (oi_lock0 id w H Hh). congruence.
Qed.

Lemma insert_other {m : gmap nat Writer} {id : nat} {w0 : Writer} (Hn : ~ holds_publish w0) id' w :
  <[id := w0]> m !! id' = Some w -> m !! id' = Some w \/ ~ holds_publish w.
Proof. intros [[_ <-]|[_ H]]%lookup_insert_Some; [by right|by left]. Qed.

Lemma inv_check s id v s' : owner_inv s -> owner_step s (CmdCheck id v) = Some s' -> owner_inv s'.
Proof.
  intros Hi. cbn. intros (w & Hw & H)%bind_Some. destruct (wt_phase w) eqn:Ep; try done.
  destruct (sy_publish s) eqn:El; [done|].
  destruct (snapshot_publish_is_current _ _ _ _ _) eqn:Ec; cbn [negb] in H.
  2: { injection H as <-. apply (inv_keep s); try done. intros id' w'. apply insert_other; by intros []. }
  destruct v; cbn [negb] in H.
  2: { injection H as <-. apply (inv_keep s); try done. intros id' w'. apply insert_other; by intros []. }
  injection H as <-. unfold snapshot_publish_is_current in Ec.
  apply andb_true_iff in Ec as [Ec Hreset]. apply andb_true_iff in Ec as [Ec Hstop].
  apply andb_true_iff in Ec as [Hgen Hstore]. apply Z.eqb_eq in Hgen, Hreset. apply Nat.eqb_eq in Hstore.
  assert (Hnone : forall id' w', sy_writers s !! id' = Some w' -> holds_publish w' -> False).
  { intros id' w' H Hh. destruct Hi. specialize (oi_lock0 id' w' H Hh). congruence. }
  destruct Hi. split; cbn.
  - intros id' w' [[<- <-]|[_ H]]%lookup_insert_Some Hh; [done|]. by destruct (Hnone _ _ H Hh).
  - intros id' w' [[<- <-]|[_ H]]%lookup_insert_Some Hh _; [|by destruct (Hnone _ _ H Hh)].
    split_and!; [done|done|]. intros Hs. rewrite Hs in Hstop. done.
  - intros id' w' reset [[<- <-]|[_ H]]%lookup_insert_Some Hph; [cbn in *; congruence|by eapply oi_reset0].
  - done.
Qed.

Lemma inv_rename s id renamed r s' : owner_inv s -> owner_step s (CmdRename id renamed r) = Some s' -> owner_inv s'.
Proof.
  intros Hi. cbn. intros (w & Hw & H)%bind_Some. destruct (wt_phase w) as [| |reset| |] eqn:Ep; try done.
  destruct (_ && _); [done|]. injection H as <-.
  assert (Hh : holds_publish w) by (unfold holds_publish; by rewrite Ep).
  destruct Hi as [Hl Hc Hr Hp]. split; cbn.
  - intros id' w' [[<- <-]|[_ H]]%lookup_insert_Some Hh'; [exact (Hl _ _ Hw Hh)|exact (Hl _ _ H Hh')].
  - intros id' w' [[<- <-]|[_ H]]%lookup_insert_Some Hh' Hd; [exact (Hc _ _ Hw Hh Hd)|by eapply Hc].
  - intros id' w' reset' [[<- <-]|[_ H]]%lookup_insert_Some Hph; [done|by eapply Hr].
  - destruct renamed; [|done]. constructor; [|done]. split; cbn.
    + intros Hd. exact (Hc _ _ Hw Hh Hd).
    + rewrite Ep. f_equal. by eapply Hr.
Qed.

Lemma inv_release s id s' : owner_inv s -> owner_step s (CmdRelease id) = Some s' -> owner_inv s'.
Proof.
  intros Hi. cbn. intros (w & Hw & (r & Hr & H)%bind_Some)%bind_Some. injection H as <-.
  unfold is_replaced in Hr. destruct (wt_phase w) eqn:Ep; try done.
  assert (Hh : holds_publish w) by (unfold holds_publish; by rewrite Ep).
  destruct Hi as [Hl Hc Hre Hp]. pose proof (Hl _ _ Hw Hh) as Hlock.
  assert (Hnone : forall id' w', <[id := with_phase w (PhDone r)]> (sy_writers s) !! id' = Some w' ->
    ~ holds_publish w').
  { intros id' w' [[_ <-]|[Hne H]]%lookup_insert_Some Hh'; [done|]. pose proof (Hl _ _ H Hh'). congruence. }
  split; cbn; try done.
  - intros id' w' H Hh'. by destruct (Hnone _ _ H).
  - intros id' w' H Hh'. by destruct (Hnone _ _ H).
  - intros id' w' reset H Hph. destruct (Hnone _ _ H). unfold holds_publish. by rewrite Hph.
Qed.

Lemma owner_step_inv s c s' : owner_inv s -> owner_step s c = Some s' -> owner_inv s'.
Proof.
  intros Hi H. destruct c as [id|id|id e|id v|id b r|id|id|p| | |id|a|a|];
    [..| |]; try (by eapply inv_check); try (by eapply inv_rename); try (by eapply inv_release); cbn in H.
  - destruct (sy_writers s !! id) eqn:E; [done|]. apply bind_Some in H as ([source o] & Hb & H). injection H as <-.
    apply snapshot_begin_standing in Hb as (Hst & _ & _). apply (inv_keep s); try done. intros id' w'. apply insert_other; by intros [].
  - apply bind_Some in H as (w & Hw & H). destruct (wt_phase w); try done. injection H as <-.
    apply (inv_keep s); try done. intros id' w'. apply insert_other; by intros [].
  - apply bind_Some in H as (w & Hw & H). destruct (wt_phase w); try done. injection H as <-.
    apply (inv_keep s); try done. intros id' w'. apply insert_other; by intros [].
  - apply bind_Some in H as (w & Hw & H). destruct (wt_phase w) as [| | | |r]; try done.
    assert (Hdel : forall o, same_standing (sy_owner s) o -> owner_inv (set_owner (mk_system (sy_owner s) (sy_publish s)
      (sy_stores s) (delete id (sy_writers s)) (sy_shutdown s) (sy_dropped s) (sy_published s)) o)).
    { intros o Ho. apply (inv_keep s); try done. cbn. intros id' w' [_ ?]%lookup_delete_Some. by left. }
    destruct (wt_allow_stopped w); injection H as <-; apply Hdel;
      [apply shutdown_finish_standing|apply snapshot_finish_standing].
  - destruct (sy_publish s) eqn:El; [done|]. injection H as <-.
    exact (inv_free s (publish_switch (sy_owner s) p) (sy_shutdown s) Hi El).
  - destruct (sy_publish s) eqn:El; [done|]. destruct (ow_stopped (sy_owner s)); injection H as <-; [done|].
    by apply inv_free.
  - apply bind_Some in H as (source & Hs & H). injection H as <-. apply (inv_keep s); try done; [|by left].
    apply shutdown_status_standing.
  - apply bind_Some in H as (source & Hs & H). destruct (sy_writers s !! id); [done|]. injection H as <-.
    apply (inv_keep s); try done. intros id' w'. apply insert_other; by intros [].
  - injection H as <-. apply (inv_keep s); try done. by left.
  - injection H as <-. apply (inv_keep s); try done. by left.
  - injection H as <-. destruct Hi. by split.
Qed.

Lemma owner_run_none cs : foldl (fun acc c => s ← acc; owner_step s c) None cs = None.
Proof. by induction cs. Qed.

Lemma owner_run_cons s c cs s' :
  owner_run s (c :: cs) = Some s' <-> exists s1, owner_step s c = Some s1 /\ owner_run s1 cs = Some s'.
Proof.
  unfold owner_run. cbn [foldl mbind option_bind]. destruct (owner_step s c) as [s1|].
  - split; [intros H; by exists s1|]. by intros (? & [= <-] & ?).
  - rewrite owner_run_none. split; [done|]. by intros (? & ? & _).
Qed.

Lemma owner_run_inv cs s s' : owner_inv s -> owner_run s cs = Some s' -> owner_inv s'.
Proof.
  revert s. induction cs as [|c cs IH]; intros s Hi H; [by injection H as <-|].
  apply owner_run_cons in H as (s1 & H1 & H). eapply IH; [|exact H]. by eapply owner_step_inv.
Qed.

(** No writer at work, [publish] free. *)
Definition owner_initial (o : OwnerState) (stores : gmap nat StoreGenerations) : System :=
  mk_system o None stores ∅ None false [].

Lemma owner_initial_inv o stores : owner_inv (owner_initial o stores).
Proof. by split. Qed.

(** ** What a check that passes excludes *)

Definition owner_generation (s : System) : Z := so_generation (ow_source (sy_owner s)).
Definition reset_of (s : System) (a : nat) : Z := sg_reset (generations s a).

(** The commands that end a source or clear its store. *)
Definition ends_source (c : Command) : bool :=
  match c with CmdSwitch _ | CmdShutdown | CmdDrop => true | _ => false end.
Definition clears (a : nat) (c : Command) : bool :=
  match c with CmdStoreInvalidate b => bool_decide (a = b) | _ => false end.

Lemma generations_insert s a b g :
  generations (set_stores s (<[a := g]> (sy_stores s))) b = if bool_decide (a = b) then g else generations s b.
Proof.
  unfold generations. cbn. case_bool_decide as E; [subst b; by rewrite lookup_insert_eq|by rewrite lookup_insert_ne].
Qed.

Lemma step_reset s c s' a :
  owner_step s c = Some s' -> u64 (reset_of s a) ->
  reset_of s' a = wrap64 (reset_of s a + if clears a c then 1 else 0).
Proof.
  intros H Hu. assert (Hsame : generations s' a = generations s a -> clears a c = false ->
    reset_of s' a = wrap64 (reset_of s a + if clears a c then 1 else 0)).
  { intros Hg Hc. unfold reset_of in *. rewrite Hg, Hc, Z.add_0_r. by rewrite wrap64_small. }
  destruct c as [id|id|id e|id v|id b r|id|id|p| | |id|b|b|]; cbn in H;
    repeat match goal with
    | H : _ ≫= _ = Some _ |- _ => apply bind_Some in H as (? & ? & H)
    | H : (match ?x with _ => _ end) = Some _ |- _ => destruct x; try discriminate H
    end; try (injection H as <-); try (by apply Hsame).
  - unfold reset_of in *. rewrite generations_insert. cbn [clears]. rewrite Z.add_0_r, (wrap64_small (sg_reset _)) by done.
    by case_bool_decide; subst.
  - unfold reset_of in *. rewrite generations_insert. cbn [clears].
    rewrite (bool_decide_ext (a = b) (b = a)) by (split; congruence).
    case_bool_decide; [subst; done|]. by rewrite Z.add_0_r, wrap64_small.
Qed.

Lemma run_reset cs s s' a :
  owner_run s cs = Some s' -> u64 (reset_of s a) ->
  reset_of s' a = wrap64 (reset_of s a + Z.of_nat (length (filter (fun c => clears a c = true) cs))).
Proof.
  revert s. induction cs as [|c cs IH]; intros s H Hu.
  { injection H as <-. cbn. by rewrite Z.add_0_r, wrap64_small. }
  apply owner_run_cons in H as (s1 & H1 & H). pose proof (step_reset _ _ _ a H1 Hu) as Hr.
  rewrite (IH s1 H) by (rewrite Hr; apply wrap64_range). rewrite Hr, filter_cons. unfold wrap64.
  rewrite Zplus_mod_idemp_l. destruct (clears a c); [rewrite decide_True by done|rewrite decide_False by done];
    f_equal; cbn [length]; lia.
Qed.

Lemma step_generation s c s' :
  owner_step s c = Some s' -> 0 <= owner_generation s < u64_max ->
  (ends_source c = false \/ (ow_stopped (sy_owner s) = true /\ c = CmdShutdown) ->
     same_standing (sy_owner s) (sy_owner s')) /\
  (ends_source c = true -> ~ (ow_stopped (sy_owner s) = true /\ c = CmdShutdown) ->
     owner_generation s' = owner_generation s + 1).
Proof.
  intros H Hg. assert (Hsat : sat_add64 (owner_generation s) 1 = owner_generation s + 1) by (unfold sat_add64; lia).
  assert (Hkeep : ends_source c = false -> same_standing (sy_owner s) (sy_owner s') ->
    (ends_source c = false \/ (ow_stopped (sy_owner s) = true /\ c = CmdShutdown) ->
     same_standing (sy_owner s) (sy_owner s')) /\
    (ends_source c = true -> ~ (ow_stopped (sy_owner s) = true /\ c = CmdShutdown) ->
     owner_generation s' = owner_generation s + 1)) by (intros -> ?; split; [done|intros [=]]).
  destruct c as [id|id|id e|id v|id b r|id|id|p| | |id|b|b|]; cbn in H;
    repeat match goal with
    | H : _ ≫= _ = Some _ |- _ => apply bind_Some in H as (? & ? & H)
    | H : (match ?x with _ => _ end) = Some _ |- _ => destruct x eqn:?; try discriminate H
    end; try (injection H as <-); try (by apply Hkeep).
  - apply Hkeep; [done|]. by eapply snapshot_begin_standing.
  - apply Hkeep; [done|]. apply shutdown_finish_standing.
  - apply Hkeep; [done|]. apply snapshot_finish_standing.
  - split; [naive_solver|]. intros _ _. exact Hsat.
  - split; [done|]. intros _ Hn. by destruct Hn.
  - split; [naive_solver|]. intros _ _. exact Hsat.
  - apply Hkeep; [done|]. apply shutdown_status_standing.
  - split; [naive_solver|]. intros _ _. exact Hsat.
Qed.

Lemma same_standing_generation s s' :
  same_standing (sy_owner s) (sy_owner s') -> owner_generation s' = owner_generation s.
Proof. unfold owner_generation. by intros [-> _]. Qed.

Lemma step_generation_grows s c s' :
  owner_step s c = Some s' -> 0 <= owner_generation s < u64_max ->
  owner_generation s <= owner_generation s' <= owner_generation s + 1.
Proof.
  intros H Hg. destruct (step_generation s c s' H Hg) as [H1 H2].
  destruct (ends_source c) eqn:E; [|rewrite (same_standing_generation _ _ (H1 (or_introl eq_refl))); lia].
  assert (Hd : (ow_stopped (sy_owner s) = true /\ c = CmdShutdown) \/ ~ (ow_stopped (sy_owner s) = true /\ c = CmdShutdown))
    by (destruct (ow_stopped (sy_owner s)), c; (left; done) || (right; by intros [? ?])).
  destruct Hd as [Hs|Hs].
  - rewrite (same_standing_generation _ _ (H1 (or_intror Hs))). lia.
  - rewrite (H2 eq_refl Hs). lia.
Qed.

Lemma run_generation_grows cs s s' :
  owner_run s cs = Some s' -> 0 <= owner_generation s -> owner_generation s + Z.of_nat (length cs) < u64_max ->
  owner_generation s <= owner_generation s'.
Proof.
  revert s. induction cs as [|c cs IH]; intros s H H0 Hb; [injection H as <-; lia|].
  apply owner_run_cons in H as (s1 & H1 & H). cbn [length] in Hb.
  pose proof (step_generation_grows s c s1 H1 ltac:(lia)). specialize (IH s1 H ltac:(lia) ltac:(lia)). lia.
Qed.

(** With the owner's generation unmoved, nothing ended the source. *)
Lemma run_same_source cs s s' :
  owner_run s cs = Some s' -> 0 <= owner_generation s -> owner_generation s + Z.of_nat (length cs) < u64_max ->
  ow_stopped (sy_owner s) = false -> owner_generation s' = owner_generation s ->
  Forall (fun c => ends_source c = false) cs /\ same_standing (sy_owner s) (sy_owner s').
Proof.
  revert s. induction cs as [|c cs IH]; intros s H H0 Hb Hs Hg; [injection H as <-; split; [constructor|done]|].
  apply owner_run_cons in H as (s1 & H1 & H). cbn [length] in Hb.
  pose proof (step_generation_grows s c s1 H1 ltac:(lia)) as Hstep.
  pose proof (run_generation_grows cs s1 s' H ltac:(lia) ltac:(lia)) as Hrun.
  destruct (step_generation s c s1 H1 ltac:(lia)) as [Hk Hb'].
  destruct (ends_source c) eqn:E.
  { exfalso. rewrite (Hb' eq_refl) in Hrun, Hstep; [lia|..]; intros [? _]; congruence. }
  destruct (Hk (or_introl eq_refl)) as [Hsrc Hst].
  destruct (IH s1 H) as [Hf [Hsrc' Hst']]; [lia|lia|congruence|unfold owner_generation in *; congruence|].
  split; [by constructor|]. split; congruence.
Qed.

Lemma wrap64_add_fixed x n : u64 x -> 0 <= n <= u64_max -> wrap64 (x + n) = x -> n = 0.
Proof. unfold wrap64. unfold_ints. intros. Z.to_euclidean_division_equations. lia. Qed.

(** What a writer captured stays, as long as it is the same task. *)
Definition same_capture (w w' : Writer) : Prop :=
  wt_source w' = wt_source w /\ wt_reset w' = wt_reset w /\ wt_allow_stopped w' = wt_allow_stopped w.

Definition starts (id : nat) (c : Command) : bool :=
  match c with CmdBegin i | CmdShutdownWrite i => bool_decide (i = id) | _ => false end.

Lemma step_capture s c s' id w' :
  owner_step s c = Some s' -> starts id c = false -> sy_writers s' !! id = Some w' ->
  exists w, sy_writers s !! id = Some w /\ same_capture w w'.
Proof.
  intros H Hc Hw'. assert (Hsame : sy_writers s' !! id = sy_writers s !! id ->
    exists w, sy_writers s !! id = Some w /\ same_capture w w') by (intros E; exists w'; split; [congruence|done]).
  assert (Hins : forall i w0 w1, sy_writers s !! i = Some w0 -> same_capture w0 w1 ->
    sy_writers s' = <[i := w1]> (sy_writers s) -> exists w, sy_writers s !! id = Some w /\ same_capture w w').
  { intros i w0 w1 H0 H1 E. rewrite E, lookup_insert_Some in Hw'.
    destruct Hw' as [[-> <-]|[_ Hw']]; [by exists w0|by exists w']. }
  destruct c as [i|i|i e|i v|i b r|i|i|p| | |i|b|b|]; cbn in H, Hc.
  - case_bool_decide; [done|]. destruct (sy_writers s !! i); [done|]. apply bind_Some in H as ([source o] & _ & H).
    injection H as <-. apply Hsame. cbn. by rewrite lookup_insert_ne.
  - apply bind_Some in H as (w & Hw & H). destruct (wt_phase w); try done. injection H as <-.
    (eapply (Hins i w); [done| |reflexivity]; done).
  - apply bind_Some in H as (w & Hw & H). destruct (wt_phase w); try done. injection H as <-. (eapply (Hins i w); [done| |reflexivity]; done).
  - apply bind_Some in H as (w & Hw & H). destruct (wt_phase w), (sy_publish s); try done.
    destruct (negb _); [|destruct v]; injection H as <-; (eapply (Hins i w); [done| |reflexivity]; done).
  - apply bind_Some in H as (w & Hw & H). destruct (wt_phase w); try done. destruct (_ && _); [done|].
    injection H as <-. (eapply (Hins i w); [done| |reflexivity]; done).
  - apply bind_Some in H as (w & Hw & H). apply bind_Some in H as (r & _ & H). injection H as <-. (eapply (Hins i w); [done| |reflexivity]; done).
  - apply bind_Some in H as (w & Hw & H). destruct (wt_phase w); try done. exists w'. split; [|done].
    destruct (wt_allow_stopped w); injection H as <-; cbn in Hw'; by apply lookup_delete_Some in Hw' as [_ ?].
  - destruct (sy_publish s); [done|]. injection H as <-. by apply Hsame.
  - destruct (sy_publish s); [done|]. destruct (ow_stopped _); injection H as <-; by apply Hsame.
  - apply bind_Some in H as (source & _ & H). injection H as <-. by apply Hsame.
  - case_bool_decide; [done|]. apply bind_Some in H as (source & _ & H). destruct (sy_writers s !! i); [done|].
    injection H as <-. apply Hsame. cbn. by rewrite lookup_insert_ne.
  - injection H as <-. by apply Hsame.
  - injection H as <-. by apply Hsame.
  - injection H as <-. by apply Hsame.
Qed.

Lemma run_capture cs s s' id w' :
  owner_run s cs = Some s' -> Forall (fun c => starts id c = false) cs -> sy_writers s' !! id = Some w' ->
  exists w, sy_writers s !! id = Some w /\ same_capture w w'.
Proof.
  revert s. induction cs as [|c cs IH]; intros s H Hf Hw'; [injection H as <-; by exists w'|].
  apply owner_run_cons in H as (s1 & H1 & H). apply Forall_cons_iff in Hf as [Hc Hf].
  destruct (IH s1 H Hf Hw') as (w1 & Hw1 & E1). destruct (step_capture _ _ _ id w1 H1 Hc Hw1) as (w & Hw & E).
  exists w. split; [done|]. destruct E as (? & ? & ?), E1 as (? & ? & ?). repeat split; congruence.
Qed.

Lemma check_holds s id v s' w' reset :
  owner_step s (CmdCheck id v) = Some s' -> sy_writers s' !! id = Some w' -> wt_phase w' = PhHolding reset ->
  exists w, sy_writers s !! id = Some w /\ same_capture w w' /\
    snapshot_publish_is_current (sy_owner s) (reset_of s (so_store (wt_source w))) (wt_source w) (wt_reset w)
      (wt_allow_stopped w) = true.
Proof.
  cbn. intros (w & Hw & H)%bind_Some. destruct (wt_phase w) eqn:Ep; try done. destruct (sy_publish s); [done|].
  unfold reset_of. destruct (snapshot_publish_is_current _ _ _ _ _) eqn:Ec; cbn [negb] in H; [destruct v|];
    injection H as <-; cbn; rewrite lookup_insert_eq; intros [= <-] Hp; try done. by exists w.
Qed.

(** ** Properties *)

(** C25: Whatever the order in which the tasks run, a snapshot replaces the file only
    while its writer holds [publish] and is current: the owner has the source the
    writer captured, and has not been stopped unless it is the shutdown's own
    write; and the writer has checked that the store's reset generation is the one
    it captured. (Dropping the owner takes no lock and is the exception.) *)
Theorem published_while_current o stores cs s :
  owner_run (owner_initial o stores) cs = Some s ->
  Forall publication_ok (sy_published s) /\
  (forall id1 id2 w1 w2, sy_writers s !! id1 = Some w1 -> sy_writers s !! id2 = Some w2 ->
     holds_publish w1 -> holds_publish w2 -> id1 = id2).
Proof.
  intros H. pose proof (owner_run_inv _ _ _ (owner_initial_inv o stores) H) as [Hl Hc Hr Hp].
  split; [done|]. intros id1 id2 w1 w2 H1 H2 Hh1 Hh2. pose proof (Hl _ _ H1 Hh1). pose proof (Hl _ _ H2 Hh2). congruence.
Qed.

(** Between the capture of a periodic snapshot and a check that passes, no
    command cleared the store, switched the source, or stopped or dropped the
    owner: a file that holds cleared records, or records of a replaced store, is
    not published by a check made afterwards. *)
Theorem check_excludes_clear s0 id s1 cs s2 v s3 w3 reset :
  owner_step s0 (CmdBegin id) = Some s1 -> owner_run s1 cs = Some s2 ->
  Forall (fun c => starts id c = false) cs ->
  owner_step s2 (CmdCheck id v) = Some s3 -> sy_writers s3 !! id = Some w3 -> wt_phase w3 = PhHolding reset ->
  0 <= owner_generation s0 -> owner_generation s0 + Z.of_nat (length cs) < u64_max ->
  (forall a, u64 (reset_of s0 a)) ->
  ow_source (sy_owner s2) = ow_source (sy_owner s0) /\
  Forall (fun c => ends_source c = false /\ clears (so_store (ow_source (sy_owner s0))) c = false) cs.
Proof.
  intros Hb Hrun Hst Hchk Hw3 Hph Hg0 Hgb Hres.
  destruct (check_holds _ _ _ _ _ _ Hchk Hw3 Hph) as (w2 & Hw2 & _ & Hcur).
  destruct (run_capture _ _ _ _ _ Hrun Hst Hw2) as (w1 & Hw1 & Hsrc & Hrs & Hal).
  pose proof Hb as Hb'. cbn in Hb'. destruct (sy_writers s0 !! id); [done|].
  apply bind_Some in Hb' as ([source o] & Hbeg & E). injection E as <-.
  apply snapshot_begin_standing in Hbeg as ([Hos Hstop] & -> & Hns). cbn in Hw1. rewrite lookup_insert_eq in Hw1.
  injection Hw1 as <-. cbn in Hsrc, Hrs. set (s1 := set_writer _ _ _) in *.
  assert (Hg1 : owner_generation s1 = owner_generation s0) by (unfold owner_generation; cbn; by rewrite Hos).
  unfold snapshot_publish_is_current in Hcur. rewrite Hsrc, Hrs in Hcur.
  apply andb_true_iff in Hcur as [Hcur Hreset]. apply andb_true_iff in Hcur as [Hcur _].
  apply andb_true_iff in Hcur as [Hgen _]. apply Z.eqb_eq in Hgen, Hreset.
  destruct (run_same_source cs s1 s2 Hrun) as [Hends [Hsame _]]; [lia|lia|cbn; congruence|by rewrite Hg1|].
  split; [rewrite Hsame; exact Hos|]. set (a := so_store (ow_source (sy_owner s0))) in *.
  rewrite (run_reset cs s1 s2 a Hrun (Hres a)) in Hreset. change (reset_of s1 a) with (reset_of s0 a) in Hreset.
  change (sg_reset (generations s0 a)) with (reset_of s0 a) in Hreset.
  assert (Hzero : length (filter (fun c => clears a c = true) cs) = 0%nat).
  { pose proof (length_filter (fun c => clears a c = true) cs). apply wrap64_add_fixed in Hreset; [lia|apply Hres|].
    unfold owner_generation in *. lia. }
  apply nil_length_inv in Hzero. rewrite List.Forall_forall in Hends |- *. intros c Hin. split; [by apply Hends|].
  destruct (clears a c) eqn:E; [|done]. exfalso.
  assert (Hf : c ∈ filter (fun c => clears a c = true) cs) by (apply list_elem_of_filter; split; [done|by apply list_elem_of_In]).
  rewrite Hzero in Hf. by apply elem_of_nil in Hf.
Qed.

(** ** What recovery puts into the store *)

(** The clock is not turned back: a computation reads it from where it is on. *)
Definition grows {S A} (ticks : S -> nat) (m : ST S A) : Prop := forall s, (ticks s <= ticks (m s).2)%nat.

Lemma grows_ret {S A} (ticks : S -> nat) (a : A) : grows ticks (mret a).
Proof. intros s. apply le_n. Qed.
Lemma grows_fail {S A} (ticks : S -> nat) e : grows ticks (st_fail (A := A) e).
Proof. intros s. apply le_n. Qed.
Lemma grows_lift {S A} (ticks : S -> nat) (r : result CacheSnapshotError A) : grows ticks (st_lift r).
Proof. intros s. apply le_n. Qed.
Lemma grows_bind {S A B} (ticks : S -> nat) (m : ST S A) (f : A -> ST S B) :
  grows ticks m -> (forall a, grows ticks (f a)) -> grows ticks (m ≫= f).
Proof.
  intros Hm Hf s. unfold mbind, st_bind. specialize (Hm s). destruct (m s) as [[a|e] s1]; cbn [snd] in *; [|done].
  specialize (Hf a s1). lia.
Qed.
Create HintDb grows.
#[export] Hint Resolve grows_ret grows_fail grows_lift : grows.

(** One case per branch, the known calls by their lemmas. *)
Ltac grow :=
  repeat match goal with
  | |- forall _, _ => intros ?
  | |- grows _ (_ ≫= _) => apply grows_bind
  | |- grows _ (match ?x with _ => _ end) => destruct x
  | |- grows _ _ => solve [auto with grows]
  end.

Section Restored.
Context {HH : Hickory} {M : Moka} {ML : MokaLaws M}.
Context (sha256 : list byte -> list byte) (clock : nat -> Instant) (wall : nat -> Z).
Context (fault : nat -> option IoError) (resolve : Disk -> Path -> Path) (joined : nat -> bool).
Context (clock_monotone : monotone_clock clock).

Lemma tick_grows : grows w_ticks next_tick.
Proof. intros w. cbn. lia. Qed.
Lemma disk_grows : grows w_ticks get_disk.
Proof. intros w. apply le_n. Qed.
#[local] Hint Resolve tick_grows disk_grows : grows.

Lemma call_grows : grows w_ticks (io_call fault).
Proof.
  unfold io_call. grow.
Qed.
Lemma deadline_grows d : grows w_ticks (ensure_deadline clock d).
Proof.
  unfold ensure_deadline, instant_now. grow.
Qed.
Lemma nanos_grows : grows w_ticks (system_time_nanos wall).
Proof.
  unfold system_time_nanos. grow.
Qed.
#[local] Hint Resolve call_grows : grows.
Lemma read_grows n file : grows w_ticks (file_read_exact fault n file).
Proof.
  unfold file_read_exact. grow.
Qed.
#[local] Hint Resolve deadline_grows nanos_grows read_grows : grows.

Lemma verify_grows fuel d remaining file hashed : grows w_ticks (verify_loop clock fault fuel d remaining file hashed).
Proof.
  revert remaining file hashed.
  induction fuel as [|fuel IH]; intros remaining file hashed; cbn [verify_loop]; grow; apply IH.
Qed.

Lemma open_grows path limit d : grows w_ticks (open_cache_snapshot sha256 clock fault resolve path limit d).
Proof.
  pose proof verify_grows. unfold open_cache_snapshot, instant_now. grow.
Qed.

Abbreviation reader_ticks := (fun s : CacheSnapshotReader * World => w_ticks s.2).

Lemma in_world_grows {A} (m : ST World A) : grows w_ticks m -> grows reader_ticks (in_world m).
Proof. intros Hm [rd w]. specialize (Hm w). unfold in_world. cbn [snd]. by destruct (m w). Qed.
Lemma get_reader_grows : grows reader_ticks get_reader.
Proof. intros s. apply le_n. Qed.
Lemma put_reader_grows rd : grows reader_ticks (put_reader rd).
Proof. intros s. apply le_n. Qed.
#[local] Hint Resolve in_world_grows get_reader_grows put_reader_grows : grows.

Lemma next_record_grows d : grows reader_ticks (next_record sha256 clock wall fault d).
Proof.
  unfold next_record. grow.
Qed.

Lemma next_batch_grows size d : grows reader_ticks (next_batch sha256 clock wall fault size d).
Proof.
  assert (Hloop : forall fuel batch, grows reader_ticks (batch_loop sha256 clock wall fault fuel size d batch)).
  { pose proof (next_record_grows d). induction fuel as [|fuel IH]; intros batch; cbn [batch_loop]; grow; apply IH. }
  unfold next_batch. grow.
Qed.

(** A record of the file: its bytes are there, and decode. *)
Definition from_file (file : list byte) (k : CacheKey) (e : CacheEntry) : Prop :=
  exists pre payload post at_ w1 w2 v rest, file = pre ++ payload ++ post /\
    decode_record at_ w1 w2 payload = Ok ((k, mk_record v e), rest).

Lemma from_file_app pre file k e : from_file file k e -> from_file (pre ++ file) k e.
Proof.
  intros (p & payload & post & a & w1 & w2 & v & rest & -> & H). exists (pre ++ p), payload, post, a, w1, w2, v, rest.
  by rewrite <-app_assoc.
Qed.

Lemma read_any w n file :
  outcome (file_read_exact fault n file) w (fun out _ => out = (take n file, drop n file)) (fun _ => True).
Proof.
  unfold file_read_exact. eapply outcome_bind; [apply any_outcome|]. intros [] w' _.
  by destruct (_ <=? _)%nat; [apply outcome_ret|apply outcome_fail].
Qed.

(** A record handed out is one of the file, and the rest of the file follows. *)
Definition reads_from (rd : CacheSnapshotReader) (batch : list (CacheKey * CacheRecord)) (rd' : CacheSnapshotReader) : Prop :=
  (exists pre, rd_file rd = pre ++ rd_file rd') /\
  Forall (fun kr => from_file (rd_file rd) kr.1 (entry kr.2)) batch.

Lemma next_record_reads d rd w :
  outcome (next_record sha256 clock wall fault d) (rd, w) (fun o s => reads_from rd (opt_list o) s.1) (fun _ => True).
Proof.
  unfold next_record. eapply bind_in_world; [apply any_outcome|]. intros [] wa _. apply bind_reader.
  eapply bind_in_world; [apply read_any|]. intros ? wb ->. apply bind_put_reader.
  destruct (_ <? _); [done|]. eapply bind_in_world; [apply read_any|]. intros ? wc ->.
  apply bind_reader, bind_put_reader. set (n := Z.to_nat _). set (f := rd_file rd).
  assert (Hf : f = take 4 f ++ take n (drop 4 f) ++ drop n (drop 4 f)) by (by rewrite !take_drop).
  assert (Hpre : exists pre, f = pre ++ drop n (drop 4 f)).
  { exists (take 4 f ++ take n (drop 4 f)). by rewrite <-app_assoc. }
  eapply bind_in_world; [apply any_outcome|]. intros w1 wd _.
  eapply bind_in_world; [apply any_outcome|]. intros w2 we _. cbn [with_file rd_now rd_seen rd_file].
  destruct (decode_record _ w1 w2 _) as [[[k r] rest2]|e] eqn:Ed.
  2: { destruct e; apply bind_put_reader, outcome_ret; split; [exact Hpre|constructor|exact Hpre|constructor|exact Hpre|constructor]. }
  apply bind_lift; [|done]. intros dg _. case_bool_decide.
  { apply bind_put_reader, outcome_ret. split; [exact Hpre|constructor]. }
  cbn [rd_now see with_file]. destruct (snapshot_is_answerable r _); apply bind_put_reader, outcome_ret;
    (split; [exact Hpre|]); [|constructor].
  constructor; [|constructor]. exists (take 4 f), (take n (drop 4 f)), (drop n (drop 4 f)), (rd_now rd), w1, w2, (version r), rest2.
  split; [exact Hf|]. cbn [fst snd]. rewrite Ed. by destruct r.
Qed.

Lemma batch_loop_reads fuel size d batch rd w :
  outcome (batch_loop sha256 clock wall fault fuel size d batch) (rd, w)
    (fun out s => exists more, out = batch ++ more /\ reads_from rd more s.1) (fun _ => True).
Proof.
  assert (Hnil : forall rd, reads_from rd [] rd) by (intros r0; split; [by exists []|constructor]).
  revert batch rd w. induction fuel as [|fuel IH]; intros batch rd w; cbn [batch_loop]; apply bind_reader.
  all: destruct (_ || _); [apply outcome_ret; exists []; by rewrite app_nil_r|].
  { apply outcome_ret. exists []. by rewrite app_nil_r. }
  eapply outcome_bind; [apply next_record_reads|]. intros o [rd1 w1] [[pre Hpre] Ho]. cbn [fst] in *.
  eapply outcome_weaken; [apply IH| |done]. intros out [rd2 w2] (more & -> & [pre2 Hpre2] & Hm). cbn [fst] in *.
  exists (opt_list o ++ more). split; [by rewrite app_assoc|]. split.
  - exists (pre ++ pre2). by rewrite <-app_assoc, <-Hpre2.
  - apply Forall_app. split; [done|]. eapply List.Forall_impl; [|exact Hm]. intros kr Hkr. rewrite Hpre. by apply from_file_app.
Qed.

(** ** The store *)

Definition only (P : CacheKey -> CacheEntry -> Prop) (t : Instant) (m : moka) : Prop :=
  forall k r, held t m !! k = Some r -> P k (entry r).

Lemma only_later P t t' m : t <= t' -> only P t m -> only P t' m.
Proof. intros Ht H k r Hr. eapply H, lookup_weaken; [exact Hr|by apply held_later]. Qed.

Lemma cas_only P t s k e cond d c res s' :
  only P t (mk_cache s) -> P k e -> t <= c 0%nat -> monotone_clock c ->
  moka_compare_and_swap s k cond e d c = (res, s') -> only P (c 7%nat) (mk_cache s').
Proof.
  intros Ho HP Ht Hc H.
  assert (Hr : refines t s (mk_lossy (held t (mk_cache s)) (mk_next_version s) (snapshot_reset_generation s)))
    by (split; try done; unfold within; done).
  destruct (moka_exec_cas _ _ _ _ _ _ _ _ _ _ Hr Ht Hc H) as (L' & Hs & Hr').
  intros k' r' Hk'. pose proof (lookup_weaken _ _ _ _ Hk' (rf_within _ _ _ Hr')) as Hw.
  inversion Hs; subst; cbn [written] in Hw; try (by apply Ho in Hw);
    apply lookup_insert_Some in Hw as [[<- <-]|[_ Hw]]; [done|by apply Ho in Hw|done|by apply Ho in Hw].
Qed.

Lemma stats_only P t s c st s' :
  only P t (mk_cache s) -> t <= c 0%nat -> moka_stats s c = (st, s') -> only P (c 0%nat) (mk_cache s').
Proof.
  intros Ho Ht [= _ <-]. intros k r Hr. cbn in Hr. eapply (only_later P t (c 0%nat) _ Ht Ho), lookup_weaken; [exact Hr|].
  apply held_run.
Qed.

Lemma call_clock_monotone w : monotone_clock (call_clock clock w).
Proof. by apply clock_from_monotone. Qed.

Lemma call_clock_at w n : call_clock clock w n = clock (w_ticks w + n)%nat.
Proof. done. Qed.

Lemma insert_batch_only P d batch failures s w b f' s' w' :
  Forall (fun kr => P kr.1 (entry kr.2)) batch -> only P (clock (w_ticks w)) (mk_cache s) ->
  insert_batch clock d batch failures s w = (b, f', s', w') ->
  only P (clock (w_ticks w')) (mk_cache s') /\ (w_ticks w <= w_ticks w')%nat.
Proof.
  revert failures s w. induction batch as [|[k r] batch IH]; intros failures s w HP Ho H; cbn [insert_batch] in H.
  { by injection H as <- <- <- <-. }
  apply Forall_cons_iff in HP as [Hk HP]. cbn [fst snd] in Hk.
  destruct (moka_compare_and_swap s k Absent (entry r) d (call_clock clock w)) as [res s1] eqn:Ec.
  apply (cas_only P (clock (w_ticks w))) in Ec; [|done|done|rewrite call_clock_at; apply clock_monotone; lia|apply call_clock_monotone].
  assert (Ho1 : only P (clock (w_ticks (after_call 8 w))) (mk_cache s1)).
  { eapply only_later; [|exact Ec]. rewrite call_clock_at. apply clock_monotone. cbn. lia. }
  assert (Hgo : forall f, insert_batch clock d batch f s1 (after_call 8 w) = (b, f', s', w') ->
    only P (clock (w_ticks w')) (mk_cache s') /\ (w_ticks w <= w_ticks w')%nat).
  { intros f Hf. destruct (IH _ _ _ HP Ho1 Hf) as [? Ht]. split; [done|]. cbn in Ht. lia. }
  destruct res as [[]|e]; try (by eapply Hgo).
  destruct (pe_class e); try (by eapply Hgo). injection H as <- <- <- <-. split; [done|cbn; lia].
Qed.

Lemma recover_loop_only P fuel d fb ls rd failures s w res s' w' :
  (forall k e, from_file (rd_file rd) k e -> P k e) -> only P (clock (w_ticks w)) (mk_cache s) ->
  recover_loop sha256 clock wall fault joined fuel d fb ls rd failures s w = (res, s', w') ->
  only P (clock (w_ticks w')) (mk_cache s').
Proof.
  assert (Hstats : forall st s w s1 n, only P (clock (w_ticks w)) (mk_cache s) ->
    moka_stats s (call_clock clock w) = (st, s1) -> only P (clock (w_ticks (after_call n w))) (mk_cache s1)).
  { intros st s0 w0 s1 n Ho E. apply (stats_only P (clock (w_ticks w0))) in E; [|done|rewrite call_clock_at; apply clock_monotone; lia].
    eapply only_later; [|exact E]. rewrite call_clock_at. apply clock_monotone. cbn. lia. }
  revert rd failures s w. induction fuel as [|fuel IH]; intros rd failures s w HP Ho H; cbn [recover_loop] in H.
  all: destruct (moka_stats s (call_clock clock w)) as [st s0] eqn:Es; destruct (is_complete rd).
  1-3: injection H as <- <- <-; by eapply Hstats.
  destruct (negb (joined (w_ticks w))).
  { injection H as <- <- <-. eapply only_later; [|exact Ho]. apply clock_monotone. cbn. lia. }
  pose proof (next_batch_grows SNAPSHOT_BATCH_SIZE d (rd, after_call 1 w)) as Hg. cbn beta in Hg.
  assert (Hr : outcome (next_batch sha256 clock wall fault SNAPSHOT_BATCH_SIZE d) (rd, after_call 1 w)
    (fun out st => exists more, out = [] ++ more /\ reads_from rd more st.1) (fun _ => True)).
  { unfold next_batch, SNAPSHOT_BATCH_SIZE. cbn [Nat.eqb]. apply bind_reader, batch_loop_reads. }
  unfold outcome in Hr.
  destruct (next_batch sha256 clock wall fault SNAPSHOT_BATCH_SIZE d (rd, after_call 1 w)) as [[batch|e] [rd' w1]].
  2: { injection H as <- <- <-. eapply only_later; [|exact Ho]. apply clock_monotone. cbn in Hg. lia. }
  destruct Hr as (more & -> & [pre Hpre] & Hm). cbn [app fst snd] in *.
  assert (Ho1 : only P (clock (w_ticks w1)) (mk_cache s)).
  { eapply only_later; [|exact Ho]. apply clock_monotone. cbn in Hg. lia. }
  assert (HPm : Forall (fun kr => P kr.1 (entry kr.2)) more) by (eapply List.Forall_impl; [|exact Hm]; intros kr; apply HP).
  destruct (insert_batch clock d more failures s w1) as [[[b f1] s1] w2] eqn:Ei.
  apply (insert_batch_only P _ _ _ _ _ _ _ _ _ HPm Ho1) in Ei as [Ho2 Ht2]. destruct b.
  - destruct (moka_stats s1 (call_clock clock w2)) as [st2 s2] eqn:Es2. injection H as <- <- <-. by eapply Hstats.
  - eapply IH; [|exact Ho2|exact H]. intros k e Hf. apply HP. rewrite Hpre. by apply from_file_app.
Qed.

(** Enough rounds: a batch takes at least one of the remaining records, so as many
    rounds as there are records read the whole file. *)
Lemma recover_loop_fuel fuel d fb ls rd failures s w :
  counting rd -> rd_remaining rd <= Z.of_nat fuel ->
  recover_loop sha256 clock wall fault joined (S fuel) d fb ls rd failures s w =
  recover_loop sha256 clock wall fault joined fuel d fb ls rd failures s w.
Proof.
  revert rd failures s w. induction fuel as [|fuel IH]; intros rd failures s w Hc Hf.
  - cbn [recover_loop]. unfold is_complete. destruct Hc. by rewrite (proj2 (Z.eqb_eq _ _)) by lia.
  - cbn [recover_loop]. destruct (is_complete rd) eqn:Ec; [done|]. destruct (negb _); [done|].
    assert (Hb : outcome (next_batch sha256 clock wall fault SNAPSHOT_BATCH_SIZE d) (rd, after_call 1 w)
      (fun out st => exists more, out = [] ++ more /\ progressed sha256 rd st.1 more /\ (length out <= SNAPSHOT_BATCH_SIZE)%nat /\
       (rd_remaining rd <= Z.of_nat (Z.to_nat (rd_remaining rd)) -> rd_remaining st.1 = 0 \/ length out = SNAPSHOT_BATCH_SIZE)) (fun _ => True)).
    { unfold next_batch, SNAPSHOT_BATCH_SIZE. cbn [Nat.eqb]. apply bind_reader. apply batch_loop_progress; [done|cbn; lia]. }
    unfold outcome in Hb.
    destruct (next_batch sha256 clock wall fault SNAPSHOT_BATCH_SIZE d (rd, after_call 1 w)) as [[batch|e] [rd' w1]]; [|done].
    destruct Hb as (more & -> & Hp & _ & Hend). cbn [fst app] in *.
    destruct (insert_batch clock d more failures s w1) as [[[b f1] s1] w2]. destruct b; [done|].
    apply IH; [apply Hp|]. pose proof (pg_remaining _ _ _ _ Hp) as Hrem. destruct Hc. unfold is_complete in Ec.
    destruct Hend as [?|Hlen]; [lia|lia|]. rewrite Hlen in Hrem. unfold SNAPSHOT_BATCH_SIZE in Hrem. lia.
Qed.

(** After recovery into a new store, every record the store shows, then or later,
    is one of a regular file whose length, header and SHA-256 agree; and more
    rounds of the recovery loop than the file has records change nothing. *)
Theorem recovery_restores_file limit path d w res s' w' :
  recover_snapshot sha256 clock wall fault resolve joined (moka_with_limit limit) path d w = (res, s', w') ->
  (forall t k r, clock (w_ticks w') <= t -> held t (mk_cache s') !! k = Some r ->
     exists file rd, w_disk w !! resolve (w_disk w) path = Some (Regular file) /\
       verified sha256 file SNAPSHOT_FILE_LIMIT_BYTES rd /\ from_file (drop 60 file) k (entry r)) /\
  (forall rd more, counting rd -> forall fb ls s w,
     recover_loop sha256 clock wall fault joined (Z.to_nat (rd_remaining rd) + more) d fb ls rd 0 s w =
     recover_loop sha256 clock wall fault joined (Z.to_nat (rd_remaining rd)) d fb ls rd 0 s w).
Proof.
  intros H. split.
  2: { intros rd more Hc fb ls s w0. induction more as [|more IH]; [by rewrite Nat.add_0_r|].
       rewrite Nat.add_succ_r, recover_loop_fuel; [exact IH|done|]. destruct Hc. lia. }
  assert (Hnew : forall P t, only P t (mk_cache (moka_with_limit limit))).
  { intros P t k r. cbn. by rewrite held_build, lookup_empty. }
  set (P := fun k e => exists file rd, w_disk w !! resolve (w_disk w) path = Some (Regular file) /\
       verified sha256 file SNAPSHOT_FILE_LIMIT_BYTES rd /\ from_file (drop 60 file) k e).
  cut (only P (clock (w_ticks w')) (mk_cache s')).
  { intros Ho t k r Ht Hr. exact (only_later P _ t _ Ht Ho k r Hr). }
  revert H. unfold recover_snapshot. destruct (negb _); [intros [= <- <- <-]; apply Hnew|].
  pose proof (open_outcome sha256 clock fault resolve path SNAPSHOT_FILE_LIMIT_BYTES d (after_call 1 w)) as Ho.
  unfold outcome in Ho. destruct (open_cache_snapshot _ _ _ _ _ _ _ _) as [[[rd|]|e] w1];
    [|intros [= <- <- <-]; apply Hnew..].
  destruct (Ho rd eq_refl) as (file & Hfile & Hv). intros H.
  eapply recover_loop_only; [|apply Hnew|exact H]. intros k e Hf. exists file, rd. split; [done|]. split; [done|].
  destruct Hv as (h & _ & Hrd & _). by rewrite Hrd in Hf.
Qed.

End Restored.

(** ** Concrete runs *)

Section OwnerWitness.
Import Sample MapMoka.

Definition own_settings : CacheSnapshotSettings := mk_snapshot_settings true snap_path (from_secs 60) [].
Definition own_state : OwnerState := owner_start 1 0 (mk_generations 5 0) own_settings empty_recovery.
Definition own_stores : gmap nat StoreGenerations := {[ 0%nat := mk_generations 5 0 ]}.
Definition own_summary : CacheSnapshotWriteSummary := mk_write_summary 1000 3 400.

(** A periodic snapshot that is published, one overtaken by a reload, one overtaken
    by a clear, and the shutdown's. *)
Definition own_commands : list Command :=
  [CmdBegin 1; CmdReadGeneration 1; CmdStoreWrite 0; CmdCheck 1 true; CmdRename 1 true (Ok own_summary); CmdRelease 1;
   CmdFinish 1;
   CmdBegin 2; CmdReadGeneration 2; CmdSwitch (mk_switch 2 7 own_settings); CmdCheck 2 true; CmdFinish 2;
   CmdBegin 3; CmdReadGeneration 3; CmdStoreInvalidate 7; CmdCheck 3 true; CmdFinish 3;
   CmdShutdown; CmdShutdownWrite 4; CmdCheck 4 true; CmdRename 4 true (Ok own_summary); CmdRelease 4; CmdFinish 4].

Definition published_by (s : System) : list (Z * nat) :=
  (fun p => (so_generation (wt_source (pb_writer p)), so_store (wt_source (pb_writer p)))) <$> sy_published s.

Example own_run_publishes :
  published_by <$> owner_run (owner_initial own_state own_stores) own_commands = Some [(3, 7%nat); (1, 0%nat)].
Proof. vm_compute. reflexivity. Qed.

Lemma published_while_current_witness :
  exists s, owner_run (owner_initial own_state own_stores) own_commands = Some s /\
    Forall publication_ok (sy_published s).
Proof.
  destruct (owner_run (owner_initial own_state own_stores) own_commands) as [s|] eqn:E; [|by vm_compute in E].
  exists s. split; [done|]. exact (proj1 (published_while_current own_state own_stores own_commands s E)).
Defined.

Definition own_begun : option System := owner_step (owner_initial own_state own_stores) (CmdBegin 1).

Lemma check_excludes_clear_witness :
  exists s1 s2 s3, owner_step (owner_initial own_state own_stores) (CmdBegin 1) = Some s1 /\
    owner_run s1 [CmdReadGeneration 1; CmdStoreWrite 0] = Some s2 /\ owner_step s2 (CmdCheck 1 true) = Some s3 /\
    ow_source (sy_owner s2) = ow_source own_state.
Proof.
  destruct (owner_step (owner_initial own_state own_stores) (CmdBegin 1)) as [s1|] eqn:E1; [|by vm_compute in E1].
  destruct (owner_run s1 [CmdReadGeneration 1; CmdStoreWrite 0]) as [s2|] eqn:E2;
    [|injection E1 as <-; by vm_compute in E2].
  destruct (owner_step s2 (CmdCheck 1 true)) as [s3|] eqn:E3;
    [|injection E1 as <-; injection E2 as <-; by vm_compute in E3].
  exists s1, s2, s3. split; [done|]. split; [done|]. split; [done|].
  assert (Hw : exists w reset, sy_writers s3 !! 1%nat = Some w /\ wt_phase w = PhHolding reset).
  { injection E1 as <-; injection E2 as <-; injection E3 as <-. by eexists _, _. }
  destruct Hw as (w & reset & Hw & Hp).
  refine (proj1 (check_excludes_clear (owner_initial own_state own_stores) 1 s1 [CmdReadGeneration 1; CmdStoreWrite 0] s2
    true s3 w reset E1 E2 _ E3 Hw Hp _ _ _)).
  - by repeat constructor.
  - by vm_compute.
  - by vm_compute.
  - intros a. unfold reset_of, generations, owner_initial, own_stores. cbn [sy_stores].
    destruct (decide (a = 0%nat)) as [->|]; [split; by vm_compute|]. rewrite lookup_singleton_ne by done.
    split; by vm_compute.
Defined.

(** The reset generation is checked before the rename and not at it: a clear that
    runs in between (it does not take [publish]) is complete when the file with
    the cleared records replaces the target. *)
Theorem clear_can_pass_the_check :
  (fun s => ((fun p => wt_reset (pb_writer p)) <$> sy_published s, reset_of s 0)) <$>
    owner_run (owner_initial own_state own_stores)
      [CmdBegin 1; CmdReadGeneration 1; CmdCheck 1 true; CmdStoreInvalidate 0; CmdRename 1 true (Ok own_summary)] =
  Some ([0], 1).
Proof. vm_compute. reflexivity. Qed.

(** A periodic write overtaken by a clear returns without touching the status: the
    owner reports that it is writing, though no writer is left. *)
Theorem superseded_write_reported :
  (fun s => (os_condition (ow_status (sy_owner s)), size (sy_writers s))) <$>
    owner_run (owner_initial own_state own_stores)
      [CmdBegin 1; CmdReadGeneration 1; CmdStoreInvalidate 0; CmdCheck 1 true; CmdFinish 1] =
  Some (CoWriting, 0%nat).
Proof. vm_compute. reflexivity. Qed.

(** Recovery from the snapshot of nothing. *)
Lemma recovery_restores_file_witness :
  exists res s' w', recover_snapshot toy_sha snap_clock snap_wall no_fault snap_resolve (fun _ => true)
    (moka_with_limit (HH := hickory) None) snap_path snap_deadline empty_world = (res, s', w') /\
    forall t k r, snap_clock (w_ticks w') <= t -> held t (mk_cache s') !! k = Some r ->
      exists file, w_disk empty_world !! snap_path = Some (Regular file) /\ from_file (drop 60 file) k (entry r).
Proof.
  destruct (recover_snapshot toy_sha snap_clock snap_wall no_fault snap_resolve (fun _ => true)
    (moka_with_limit (HH := hickory) None) snap_path snap_deadline empty_world) as [[res s'] w'] eqn:E.
  exists res, s', w'. split; [done|]. intros t k r Ht Hr.
  destruct (proj1 (recovery_restores_file (HH := hickory) toy_sha snap_clock snap_wall no_fault snap_resolve
    (fun _ => true) (fun i j _ => Z.le_refl _) None snap_path snap_deadline empty_world res s' w' E) t k r Ht Hr)
    as (file & rd & H1 & _ & H3).
  exists file. split; [exact H1|exact H3].
Defined.

Example recovery_of_nothing :
  (fun x => (rr_complete x.1.1, rr_file_bytes x.1.1)) (recover_snapshot toy_sha snap_clock snap_wall no_fault snap_resolve
    (fun _ => true) (moka_with_limit (HH := hickory) None) snap_path snap_deadline empty_world) = (true, Some 60).
Proof. vm_compute. reflexivity. Qed.

End OwnerWitness.
