(* ===== verification/ConfigModel.v ===== *)
(** * Configuration documents (src/backend/src/config/model.rs, contract.rs)

    The types a YAML document is deserialised into, with the defaults of the fields that
    may be left out, the syntax of durations and of client networks, and paths with their
    lexical normalisation. The deserialiser itself is not modelled: a document is the value
    it produces. A path is the list of its components, which is all the code looks at;
    paths are those of Unix. Names are [string]s, which hold the bytes of a text. *)

From stdpp Require Import pretty.
From S2P Require Import Prelude Text Net Client Group Plan Outbound ClientIp.

(** ** Paths *)

(** [std::path::Component]; there are no prefixes outside Windows. *)
Inductive Component := RootDir | CurDir | ParentDir | Normal (name : chars).
#[global] Instance Component_eq_dec : EqDecision Component.
Proof. solve_decision. Defined.

Abbreviation PathBuf := (list Component).

(** [Path::components] of a text: repeated slashes count once, and [.] only counts at the
    start of a relative path. *)
Definition component_of (name : chars) : Component :=
  if bool_decide (name = lit ".") then CurDir
  else if bool_decide (name = lit "..") then ParentDir else Normal name.

Definition is_cur_dir (c : Component) : bool := bool_decide (c = CurDir).

Definition path_of (text : chars) : PathBuf :=
  let parts := component_of <$> filter (fun name => name <> []) (split_on 47 text) in
  if starts_with (lit "/") text then RootDir :: filter (fun c => c <> CurDir) parts
  else match parts with
       | [] => []
       | c :: rest => c :: filter (fun c => c <> CurDir) rest
       end.

(** The text of a path that was built from components. *)
Definition component_text (c : Component) : chars :=
  match c with RootDir => [] | CurDir => lit "." | ParentDir => lit ".." | Normal name => name end.
Definition path_text (p : PathBuf) : chars :=
  match p with
  | [RootDir] => lit "/"
  | _ => join (lit "/") (component_text <$> p)
  end.

Definition is_absolute (p : PathBuf) : bool := bool_decide (head p = Some RootDir).
Definition is_non_empty_path (p : PathBuf) : bool := negb (bool_decide (p = [])).

(** [Path::join] *)
Definition path_join (base value : PathBuf) : PathBuf :=
  if is_absolute value then value
  else match base with
       | [] => value
       | _ => base ++ match value with CurDir :: rest => rest | _ => value end
       end.

(** [Path::parent], and with it [PathBuf::pop]. *)
Definition path_parent (p : PathBuf) : option PathBuf :=
  match list.last p with
  | None | Some RootDir => None
  | Some _ => Some (removelast p)
  end.

Definition normalize_step (absolute : bool) (output : PathBuf) (c : Component) : PathBuf :=
  match c with
  | CurDir => output
  | ParentDir =>
    match path_parent output with
    | Some shorter => shorter
    | None => if absolute then output else output ++ [ParentDir]
    end
  | RootDir => [RootDir]
  | Normal _ => output ++ [c]
  end.

Definition lexical_normalize (path : PathBuf) : PathBuf :=
  foldl (normalize_step (is_absolute path)) [] path.

Definition resolve_path (base value : PathBuf) : PathBuf :=
  if is_absolute value then lexical_normalize value else lexical_normalize (path_join base value).

(** [Path::starts_with] compares whole components. *)
Definition path_starts_with (p base : PathBuf) : bool := bool_decide (base `prefix_of` p).

Definition path_key (p : PathBuf) : PathBuf := lexical_normalize p.
Definition paths_overlap (left right : PathBuf) : bool :=
  path_starts_with (path_key left) (path_key right) || path_starts_with (path_key right) (path_key left).

Example normalized_paths :
  path_text (lexical_normalize (path_of (lit "/srv//flux/./data/../dns.db"))) = lit "/srv/flux/dns.db" /\
  path_text (resolve_path (path_of (lit "/srv/flux")) (path_of (lit "./../rules"))) = lit "/srv/rules" /\
  path_text (lexical_normalize (path_of (lit "/../etc"))) = lit "/etc" /\
  paths_overlap (path_of (lit "/srv/flux")) (path_of (lit "/srv/flux/a")) = true /\
  paths_overlap (path_of (lit "/srv/flux")) (path_of (lit "/srv/flux2")) = false.
Proof. by vm_compute. Qed.

(** ** Durations *)

(** One constructor per message. *)
Inductive DurationError :=
| DE_Empty | DE_Near | DE_NumberTooLarge | DE_Fraction | DE_Unit | DE_TooLarge | DE_NoComponent.

Definition is_digit (c : Z) : bool := (48 <=? c) && (c <=? 57).
Definition is_alphabetic (c : Z) : bool := ((65 <=? c) && (c <=? 90)) || ((97 <=? c) && (c <=? 122)).

(** The longest prefix of characters that satisfy [p], and the rest. *)
Fixpoint span (p : Z -> bool) (s : chars) : chars * chars :=
  match s with
  | [] => ([], [])
  | c :: s' => if p c then let '(a, b) := span p s' in (c :: a, b) else ([], s)
  end.

Definition digits_value (ds : chars) : Z := foldl (fun a c => a * 10 + (c - 48)) 0 ds.

Definition u128_checked (z : Z) : option Z := if z <? 2 ^ 128 then Some z else None.

(** [parse::<u128>] of digits. *)
Definition parse_u128 (ds : chars) : option Z := u128_checked (digits_value ds).

Definition unit_nanos (unit : chars) : option Z :=
  if bool_decide (unit = lit "ns") then Some 1
  else if bool_decide (unit = lit "us") then Some 1_000
  else if bool_decide (unit = lit "ms") then Some 1_000_000
  else if bool_decide (unit = lit "s") then Some 1_000_000_000
  else if bool_decide (unit = lit "m") then Some (60 * 1_000_000_000)
  else if bool_decide (unit = lit "h") then Some (60 * 60 * 1_000_000_000)
  else if bool_decide (unit = lit "d") then Some (24 * 60 * 60 * 1_000_000_000)
  else if bool_decide (unit = lit "w") then Some (7 * 24 * 60 * 60 * 1_000_000_000)
  else None.

(** The fractional part: its digits' value and their number, and what follows. *)
Definition parse_fraction (s : chars) : result DurationError (Z * Z * chars) :=
  match s with
  | c :: s' =>
    if c =? 46 then
      let '(ds, rest) := span is_digit s' in
      if bool_decide (ds = []) || (9 <? length ds)%nat then Err DE_Fraction
      else Ok (digits_value ds, Z.of_nat (length ds), rest)
    else Ok (0, 0, s)
  | [] => Ok (0, 0, s)
  end.

Definition fraction_nanos (fractional fractional_digits unit : Z) : option Z :=
  if fractional_digits =? 0 then Some 0
  else
    value ← u128_checked (fractional * unit);
    value ← u128_checked (value * 10 ^ (9 - fractional_digits));
    Some (value / 1_000_000_000).

(** One turn of the loop: a number with its unit. *)
Definition duration_component (s : chars) : result DurationError (Z * Z * chars) :=
  let '(ds, s1) := span is_digit s in
  if bool_decide (ds = []) then Err DE_Near
  else
    integer ← ok_or DE_NumberTooLarge (parse_u128 ds);
    '(fractional, fractional_digits, s2) ← parse_fraction s1;
    let '(unit, rest) := span is_alphabetic s2 in
    nanos ← ok_or DE_Unit (unit_nanos unit);
    integer_nanos ← ok_or DE_TooLarge (u128_checked (integer * nanos));
    fractional_nanos ← ok_or DE_TooLarge (fraction_nanos fractional fractional_digits nanos);
    Ok (integer_nanos, fractional_nanos, rest).

(** Every turn consumes a digit, so the length of the text bounds the turns. *)
Fixpoint duration_loop (fuel : nat) (s : chars) (total_nanos components : Z) :
    result DurationError (Z * Z) :=
  match s, fuel with
  | [], _ => Ok (total_nanos, components)
  | _, O => Err DE_Near
  | _, S fuel =>
    '(integer_nanos, fractional_nanos, rest) ← duration_component s;
    total ← ok_or DE_TooLarge (u128_checked (total_nanos + integer_nanos));
    total ← ok_or DE_TooLarge (u128_checked (total + fractional_nanos));
    duration_loop fuel rest total (components + 1)
  end.

Definition parse_duration (value : chars) : result DurationError Duration :=
  let input := trim value in
  if bool_decide (input = []) then Err DE_Empty
  else
    '(total_nanos, components) ← duration_loop (length input) input 0 0;
    if components =? 0 then Err DE_NoComponent
    else if (2 ^ 64 - 1) * 1_000_000_000 <? total_nanos then Err DE_TooLarge
    else Ok total_nanos.

Definition serialize_duration (value : Duration) : chars := lit (pretty value) ++ lit "ns".

Example some_durations :
  parse_duration (lit " 1h30m ") = Ok (from_secs 5400) /\ parse_duration (lit "1.5s") = Ok 1_500_000_000 /\
  parse_duration (lit "0.1ns") = Ok 0 /\ parse_duration (lit "10") = Err DE_Unit /\
  parse_duration (lit "1s m") = Err DE_Near /\ parse_duration (serialize_duration 86_400_123) = Ok 86_400_123.
Proof. by vm_compute. Qed.

(** ** The document *)

Definition DEFAULT_RULE_SET_MAX_SIZE_BYTES : Z := 16 * 1024 * 1024.
Definition DEFAULT_RULE_SET_MAX_RULES : Z := 131072.
Definition DEFAULT_OPTIMISTIC_NEGATIVE_MAX_AGE : Duration := from_secs 300.
Definition DEFAULT_NEGATIVE_TTL_MAX : Duration := from_secs 300.
Definition CONFIG_VERSION : Z := 2.
Definition MAX_RESOURCES_PER_NAMESPACE : nat := 1024.
Definition MAX_INLINE_BYTES : Z := 256 * 1024.
Definition MAX_CLIENT_IPS : nat := 256.
Definition MAX_SIZE_BYTES : Z := 2 ^ 40.
Definition CONFIG_MAX_RETENTION_DAYS : Z := 3650.
Definition MAX_RULE_SET_SELECTOR_BYTES : Z := 128.

Record WorkDto := mk_work {
  wk_path : PathBuf;
  wk_rules_path : PathBuf;
  wk_rule_set_max_size_bytes : Z;
  wk_rule_set_max_rules : Z
}.

Inductive LogLevelDto := LL_Trace | LL_Debug | LL_Info | LL_Warn | LL_Error.
Record LogsDto := mk_logs { lg_enable : bool; lg_level : LogLevelDto; lg_path : PathBuf }.

Record WebUiUserDto := mk_webui_user { wu_name : string; wu_password_hash : string }.
Record WebUiDto := mk_webui {
  ui_enable : bool;
  ui_address : IpAddr;
  ui_port : Z;
  ui_public_origin : option Url;
  ui_users : list WebUiUserDto
}.

Record OptimisticDto := mk_optimistic_dto {
  od_enabled : bool;
  od_answer_ttl : Duration;
  od_max_age : Duration;
  od_negative_max_age : Duration
}.
Record CacheOverrideDto := mk_cache_override_dto {
  cd_enabled : option bool;
  cd_optimistic : option OptimisticDto
}.
Record TtlOverrideDto := mk_ttl_dto {
  td_enabled : option bool;
  td_min : option Duration;
  td_max : option Duration
}.

Inductive TlsMode := TM_Terminate | TM_External.
Record TlsDto := mk_tls {
  tl_mode : TlsMode;
  tl_certificate_file : option PathBuf;
  tl_private_key_file : option PathBuf
}.
Record DohRouteDto := mk_route_dto { rt_path : chars; rt_strategy : string }.

Inductive HostsFormat := HF_Json | HF_Hosts.
Inductive HostsResourceDto :=
| HostsConst (name : string) (format : HostsFormat) (hosts : string)
| HostsFile (name : string) (format : HostsFormat) (path : PathBuf) (auto_update : bool)
    (update_interval : option Duration).
Definition hosts_name (r : HostsResourceDto) : string :=
  match r with HostsConst name _ _ | HostsFile name _ _ _ _ => name end.

Inductive OutboundType := OT_Socks5.
Inductive SecretRefDto :=
| SecretEnv (env : chars)
| SecretFile (file : PathBuf)
| SecretInline (url : chars)
| SecretParts (env : option chars) (file : option PathBuf) (url : option chars).
Record OutboundDto := mk_outbound { ob_name : string; ob_kind : OutboundType; ob_proxy_url : SecretRefDto }.

(** [SecretRefDto::deserialize] of a mapping. *)
Definition secret_ref_of (env : option chars) (file : option PathBuf) (url : option chars) : SecretRefDto :=
  match env, file, url with
  | Some env, None, None => SecretEnv env
  | None, Some file, None => SecretFile file
  | None, None, Some url => SecretInline url
  | _, _, _ => SecretParts env file url
  end.

Inductive RuleSetFormat := RF_Json | RF_Clash | RF_Dat.
Inductive RuleSetDto :=
| RuleSetConst (name : string) (format : RuleSetFormat) (rule : string)
| RuleSetFile (name : string) (format : RuleSetFormat) (path : PathBuf) (auto_update : bool)
    (update_interval : option Duration)
| RuleSetRemote (name : string) (format : RuleSetFormat) (url : Url) (proxy : option string)
    (auto_update : bool) (update_interval : option Duration).
Definition rule_set_name (r : RuleSetDto) : string :=
  match r with
  | RuleSetConst name _ _ | RuleSetFile name _ _ _ _ | RuleSetRemote name _ _ _ _ _ => name
  end.

Record SnapshotV2 := mk_snapshot_v2 {
  sv_enabled : bool;
  sv_path : PathBuf;
  sv_snapshot_interval : Duration
}.
Definition SnapshotV2_default : SnapshotV2 :=
  mk_snapshot_v2 false (path_of (lit "./data/dns-cache.db")) (from_secs 300).

Record GlobalCacheV2 := mk_global_cache_v2 {
  gv_enabled : bool;
  gv_max_size_bytes : Z;
  gv_failure_ttl : Duration;
  gv_negative_ttl_max : Duration;
  gv_optimistic : OptimisticDto;
  gv_persistence : SnapshotV2
}.
Definition GlobalCacheV2_default : GlobalCacheV2 :=
  mk_global_cache_v2 false (64 * 1024 * 1024) (from_secs 5) DEFAULT_NEGATIVE_TTL_MAX
    (mk_optimistic_dto false (from_secs 10) (from_secs 86400) DEFAULT_OPTIMISTIC_NEGATIVE_MAX_AGE)
    SnapshotV2_default.

Record RetentionV2 := mk_retention_v2 { rv_days : Z; rv_grace_days : Z; rv_reference_size_bytes : Z }.
Definition RetentionV2_default : RetentionV2 := mk_retention_v2 7 3 (2 ^ 30).

Inductive DatabaseType := Sqlite.
Record DatabaseV2 := mk_database { db_kind : DatabaseType; db_path : PathBuf; db_records_path : PathBuf }.

Section Documents.
Context {IN : IpNetOps}.

Record EcsDto := mk_ecs_dto { ed_mode : EcsMode; ed_custom_ip : option IpNet }.

Record ClientIpDto := mk_client_ip_dto {
  ci_source : ClientIpSource;
  ci_header : option ForwardedHeader;
  ci_trusted_proxies : option (list IpNet);
  ci_on_missing : option ForwardedDisposition;
  ci_on_invalid : option ForwardedDisposition
}.
Record DohEndpointDto := mk_endpoint_dto {
  de_name : string;
  de_addresses : list IpAddr;
  de_port : Z;
  de_tls : TlsDto;
  de_client_ip : ClientIpDto
}.
Inductive ListenerDto :=
| UdpDto (name : string) (addresses : list IpAddr) (port : Z) (strategy : string) (hosts : option string)
| TcpDto (name : string) (addresses : list IpAddr) (port : Z) (strategy : string) (hosts : option string)
| DohDto (name : string) (routes : list DohRouteDto) (endpoints : list DohEndpointDto).
Definition listener_name (l : ListenerDto) : string :=
  match l with UdpDto name _ _ _ _ | TcpDto name _ _ _ _ | DohDto name _ _ => name end.

(** Members of groups are the [Member]s of the selector. *)
Inductive UpstreamDto :=
| HostsDto (name format hosts : string)
| DohUpstreamDto (name : string) (address : Url) (bootstrap : option string) (connect_ip : option IpAddr)
    (proxy : option string) (edns_client_subnet : option EcsDto)
| GroupDto (name : string) (upstreams : list Member) (upstream_mode : UpstreamMode) (timeout : Duration)
    (fallbacks : option (list Member)) (fallback_upstream_mode : option UpstreamMode)
    (fallback_timeout : option Duration).
Definition upstream_name (u : UpstreamDto) : string :=
  match u with HostsDto name _ _ | DohUpstreamDto name _ _ _ _ _ | GroupDto name _ _ _ _ _ _ => name end.

Record StrategyRuleDto := mk_rule_dto {
  rl_rule_set : option string;
  rl_hosts : option string;
  rl_upstream : option string;
  rl_ecs : option EcsDto
}.
Record StrategyDto := mk_strategy_dto {
  sd_name : string;
  sd_rules : list StrategyRuleDto;
  sd_default_upstream : string;
  sd_cache : option CacheOverrideDto;
  sd_ttl_override : option TtlOverrideDto;
  sd_ecs : option EcsDto
}.

Record DnsV2 := mk_dns_v2 {
  dv_cache : option GlobalCacheV2;
  dv_ttl_override : option TtlOverrideDto;
  dv_ecs : option EcsDto;
  dv_resolve_log : option bool
}.
Record ClientV2 := mk_client_v2 {
  cv_name : string;
  cv_client_id : string;
  cv_ips : list IpNet;
  cv_strategy : option string;
  cv_cache : option CacheOverrideDto;
  cv_ttl_override : option TtlOverrideDto;
  cv_ecs : option EcsDto
}.
Record ConfigV2 := mk_config_v2 {
  cf_version : Z;
  cf_work : WorkDto;
  cf_database : DatabaseV2;
  cf_logs : LogsDto;
  cf_webui : WebUiDto;
  cf_dns : DnsV2;
  cf_retention : RetentionV2;
  cf_listener : list ListenerDto;
  cf_upstreams : list UpstreamDto;
  cf_strategy : list StrategyDto;
  cf_hosts : list HostsResourceDto;
  cf_outbound : list OutboundDto;
  cf_rule_set : list RuleSetDto;
  cf_clients : list ClientV2
}.
Definition cache_or_default (d : DnsV2) : GlobalCacheV2 :=
  match dv_cache d with Some c => c | None => GlobalCacheV2_default end.
End Documents.

(** ** What a duration means *)

(** A number with its unit, as written. *)
Record DurationPart := mk_part { pt_integer : chars; pt_fraction : option chars; pt_unit : chars }.

Definition part_ok (p : DurationPart) : Prop :=
  pt_integer p <> [] /\ Forall (fun c => is_digit c = true) (pt_integer p) /\
  (forall f, pt_fraction p = Some f -> f <> [] /\ (length f <= 9)%nat /\ Forall (fun c => is_digit c = true) f) /\
  is_Some (unit_nanos (pt_unit p)).

Definition part_text (p : DurationPart) : chars :=
  pt_integer p ++ match pt_fraction p with Some f => 46 :: f | None => [] end ++ pt_unit p.

(** Nanoseconds, the fraction rounded down. *)
Definition part_nanos (p : DurationPart) : Z :=
  let u := default 0 (unit_nanos (pt_unit p)) in
  digits_value (pt_integer p) * u +
  match pt_fraction p with Some f => digits_value f * u / 10 ^ Z.of_nat (length f) | None => 0 end.

Definition parts_nanos (ps : list DurationPart) : Z := foldr (fun p a => part_nanos p + a) 0 ps.
Definition max_duration_nanos : Z := (2 ^ 64 - 1) * 1_000_000_000.

Lemma span_spec p s a b :
  span p s = (a, b) -> s = a ++ b /\ Forall (fun c => p c = true) a /\ (forall c, head b = Some c -> p c = false).
Proof.
  revert a b. induction s as [|c s IH]; intros a b; cbn; [intros [= <- <-]; done|].
  destruct (p c) eqn:E; [|intros [= <- <-]; by split_and!; [..|intros ? [= <-]]].
  destruct (span p s) as [a' b']. intros [= <- <-]. destruct (IH _ _ eq_refl) as (-> & ? & ?).
  split_and!; [done|by constructor|done].
Qed.

Lemma span_app (p : Z -> bool) a b :
  Forall (fun c => p c = true) a -> (forall c, head b = Some c -> p c = false) -> span p (a ++ b) = (a, b).
Proof.
  intros Ha Hb. induction Ha as [|c a Hc _ IH]; cbn.
  - destruct b as [|c b]; cbn; [done|]. by rewrite (Hb c eq_refl).
  - by rewrite Hc, IH.
Qed.

Lemma digits_value_bounds_from ds a :
  Forall (fun c => is_digit c = true) ds -> 0 <= a ->
  0 <= foldl (fun a c => a * 10 + (c - 48)) a ds < (a + 1) * 10 ^ Z.of_nat (length ds).
Proof.
  intros H. revert a. induction H as [|c ds Hc _ IH]; intros a Ha; cbn [foldl length]; [cbn; lia|].
  unfold is_digit in Hc. specialize (IH (a * 10 + (c - 48)) ltac:(lia)).
  rewrite Nat2Z.inj_succ, Z.pow_succ_r by lia. nia.
Qed.

Lemma digits_value_bounds ds :
  Forall (fun c => is_digit c = true) ds -> 0 <= digits_value ds < 10 ^ Z.of_nat (length ds).
Proof. intros H. pose proof (digits_value_bounds_from ds 0 H ltac:(lia)). unfold digits_value. lia. Qed.

Lemma unit_nanos_spec unit u :
  unit_nanos unit = Some u -> 1 <= u <= 604_800_000_000_000 /\ unit <> [] /\ Forall (fun c => is_alphabetic c = true) unit.
Proof.
  unfold unit_nanos. repeat case_bool_decide; intros [= <-]; subst; split_and!; try lia; try done; repeat constructor.
Qed.

Lemma u128_checked_Some z : z < 2 ^ 128 -> u128_checked z = Some z.
Proof. intros H. unfold u128_checked. by rewrite (proj2 (Z.ltb_lt _ _) H). Qed.
Lemma u128_checked_inv z v : u128_checked z = Some v -> v = z.
Proof. unfold u128_checked. destruct (_ <? _); congruence. Qed.

Lemma fraction_nanos_spec f u :
  f <> [] -> (length f <= 9)%nat -> Forall (fun c => is_digit c = true) f -> 1 <= u <= 604_800_000_000_000 ->
  fraction_nanos (digits_value f) (Z.of_nat (length f)) u = Some (digits_value f * u / 10 ^ Z.of_nat (length f)).
Proof.
  intros Hne Hl Hf Hu. unfold fraction_nanos. destruct f as [|c f']; [done|]. set (f := c :: f') in *.
  assert (Hlen : (Z.of_nat (length f) =? 0) = false) by (apply Z.eqb_neq; subst f; cbn [length]; lia). rewrite Hlen.
  pose proof (digits_value_bounds f Hf) as Hb. set (k := Z.of_nat (length f)) in *.
  assert (Hk : 0 <= k <= 9) by (subst k; lia).
  assert (H9 : 10 ^ k * 10 ^ (9 - k) = 10 ^ 9) by (rewrite <- Z.pow_add_r by lia; f_equal; lia).
  assert (Hp : 0 < 10 ^ k) by (apply Z.pow_pos_nonneg; lia).
  assert (Hq : 0 < 10 ^ (9 - k)) by (apply Z.pow_pos_nonneg; lia).
  assert (Hm : 0 <= digits_value f * 10 ^ (9 - k) < 10 ^ 9) by nia.
  assert (Hm' : 0 <= digits_value f <= digits_value f * 10 ^ (9 - k)) by nia.
  rewrite u128_checked_Some by nia. cbn [mbind option_bind].
  rewrite u128_checked_Some by nia. cbn [mbind option_bind].
  replace 1_000_000_000 with (10 ^ k * 10 ^ (9 - k)) by (rewrite H9; done).
  by rewrite Z.div_mul_cancel_r by lia.
Qed.

Lemma digit_not_alphabetic c : is_digit c = true -> is_alphabetic c = false.
Proof. unfold is_digit, is_alphabetic. lia. Qed.
Lemma alphabetic_not_digit c : is_alphabetic c = true -> is_digit c = false.
Proof. unfold is_digit, is_alphabetic. lia. Qed.

Lemma part_nanos_nonneg p : part_ok p -> 0 <= part_nanos p.
Proof.
  intros (_ & Hi & Hf & u & Hu). unfold part_nanos. rewrite Hu. cbn.
  pose proof (digits_value_bounds _ Hi). apply unit_nanos_spec in Hu as [Hu _].
  destruct (pt_fraction p) as [f|]; [|nia]. destruct (Hf f eq_refl) as (_ & _ & Hd).
  pose proof (digits_value_bounds _ Hd).
  assert (0 <= digits_value f * u / 10 ^ Z.of_nat (length f)) by (apply Z.div_pos; [nia|apply Z.pow_pos_nonneg; lia]).
  nia.
Qed.

Lemma parts_nanos_nonneg ps : Forall part_ok ps -> 0 <= parts_nanos ps.
Proof. induction 1 as [|p ps Hp _ IH]; cbn; [done|]. pose proof (part_nanos_nonneg p Hp). unfold parts_nanos in IH. lia. Qed.

(** A part that is written is read, and one that is read was written. *)
Lemma duration_component_ok p rest :
  part_ok p -> part_nanos p < 2 ^ 128 -> (forall c, head rest = Some c -> is_alphabetic c = false) ->
  exists i f, duration_component (part_text p ++ rest) = Ok (i, f, rest) /\ 0 <= i /\ 0 <= f /\ i + f = part_nanos p.
Proof.
  intros (Hne & Hi & Hf & u & Hu) Hmax Hrest. unfold duration_component, part_text, part_nanos in *.
  rewrite Hu in *. cbn [default from_option id] in *. pose proof (digits_value_bounds _ Hi) as Hib.
  destruct (unit_nanos_spec _ _ Hu) as (Hub & Hun & Hua).
  assert (Hiu : 0 <= digits_value (pt_integer p) <= digits_value (pt_integer p) * u) by nia.
  rewrite <- !(assoc_L (++)). rewrite span_app; [|done|].
  2:{ intros c. destruct (pt_fraction p) as [f|]; cbn; [by intros [= <-]|].
      destruct (pt_unit p) as [|x l]; [done|]. cbn. intros [= <-]. apply Forall_cons_iff in Hua as [Hx _].
      by apply alphabetic_not_digit. }
  rewrite bool_decide_eq_false_2 by done.
  destruct (pt_fraction p) as [f|].
  - cbv beta iota in Hmax. destruct (Hf f eq_refl) as (Hfn & Hfl & Hfd). pose proof (digits_value_bounds _ Hfd).
    assert (Hq : 0 <= digits_value f * u / 10 ^ Z.of_nat (length f))
      by (apply Z.div_pos; [nia|apply Z.pow_pos_nonneg; lia]).
    unfold parse_u128. rewrite u128_checked_Some by lia. cbn [ok_or mbind result_bind parse_fraction app]. rewrite Z.eqb_refl.
    rewrite span_app; [|done|].
    2:{ intros c. destruct (pt_unit p) as [|x l]; [done|]. cbn. intros [= <-].
        apply Forall_cons_iff in Hua as [Hx _]. by apply alphabetic_not_digit. }
    rewrite bool_decide_eq_false_2 by done. rewrite (proj2 (Nat.ltb_ge _ _) Hfl). cbn [orb mbind result_bind].
    rewrite span_app by done. rewrite Hu. cbn [ok_or mbind result_bind].
    rewrite u128_checked_Some by lia. cbn [ok_or mbind result_bind].
    rewrite fraction_nanos_spec by done. cbn [ok_or mbind result_bind].
    eexists _, _. split; [done|]. lia.
  - cbv beta iota in Hmax. unfold parse_u128. rewrite u128_checked_Some by lia. cbn [ok_or mbind result_bind app].
    assert (Hpf : parse_fraction (pt_unit p ++ rest) = Ok (0, 0, pt_unit p ++ rest)).
    { destruct (pt_unit p) as [|x l]; [done|]. apply Forall_cons_iff in Hua as [Hx _]. cbn.
      unfold is_alphabetic in Hx. by rewrite (proj2 (Z.eqb_neq x 46)) by lia. }
    rewrite Hpf. cbn [mbind result_bind]. rewrite span_app by done. rewrite Hu. cbn [ok_or mbind result_bind].
    rewrite u128_checked_Some by lia. cbn. eexists _, _. split; [done|]. lia.
Qed.

Lemma digit_head p rest : part_ok p -> exists c, head (part_text p ++ rest) = Some c /\ is_digit c = true.
Proof.
  intros (Hne & Hi & _). unfold part_text. destruct (pt_integer p) as [|c l]; [done|].
  apply Forall_cons_iff in Hi as [Hc _]. by exists c.
Qed.

Lemma duration_component_inv s i f rest :
  duration_component s = Ok (i, f, rest) ->
  exists p, part_ok p /\ s = part_text p ++ rest /\ i + f = part_nanos p.
Proof.
  unfold duration_component. destruct (span is_digit s) as [ds s1] eqn:Hs. apply span_spec in Hs as (-> & Hds & _).
  case_bool_decide as Hne; [done|]. unfold parse_u128.
  destruct (u128_checked (digits_value ds)) as [n|] eqn:Hn; [|done]. apply u128_checked_inv in Hn as ->.
  cbn [ok_or mbind result_bind].
  destruct (parse_fraction s1) as [[[fr k] s2]|] eqn:Hf; [|done]. cbn [mbind result_bind].
  destruct (span is_alphabetic s2) as [unit r] eqn:Hsp. apply span_spec in Hsp as (-> & _ & _).
  destruct (unit_nanos unit) as [u|] eqn:Hu; [|done]. cbn [ok_or mbind result_bind].
  destruct (u128_checked (digits_value ds * u)) as [n|] eqn:Hn; [|done]. apply u128_checked_inv in Hn as ->.
  cbn [ok_or mbind result_bind].
  destruct (fraction_nanos fr k u) as [fn|] eqn:Hfn; [|done]. cbn. intros [= <- <- <-].
  assert (Hcase : (s1 = unit ++ r /\ fr = 0 /\ k = 0) \/
    exists fs, s1 = 46 :: fs ++ unit ++ r /\ fs <> [] /\ (length fs <= 9)%nat /\
      Forall (fun c => is_digit c = true) fs /\ fr = digits_value fs /\ k = Z.of_nat (length fs)).
  { revert Hf. destruct s1 as [|c s1]; cbn [parse_fraction]; [intros [= <- <- Hr]; by left|].
    destruct (Z.eqb_spec c 46) as [->|]; [|intros [= <- <- Hr]; by left].
    destruct (span is_digit s1) as [fs r'] eqn:Hs. apply span_spec in Hs as (-> & Hfs & _).
    case_bool_decide as Hn; [done|]. destruct (Nat.ltb_spec 9 (length fs)); [done|]. cbn.
    intros [= <- <- ->]. right. by exists fs. }
  pose proof (unit_nanos_spec _ _ Hu) as (Hub & _).
  destruct Hcase as [(-> & -> & ->)|(fs & -> & Hfne & Hfl & Hfd & -> & ->)].
  - exists (mk_part ds None unit). unfold part_ok, part_text, part_nanos. cbn. rewrite Hu. cbn.
    cbn in Hfn. injection Hfn as <-. split_and!; [done..|by eexists|by rewrite <- (assoc_L (++))|done].
  - exists (mk_part ds (Some fs) unit). unfold part_ok, part_text, part_nanos. cbn [pt_integer pt_fraction pt_unit].
    rewrite Hu. rewrite fraction_nanos_spec in Hfn by done. injection Hfn as <-. cbn [default from_option id].
    split_and!; [done|done|by intros ? [= <-]|by eexists| |done].
    rewrite <- (assoc_L (++) ds). cbn. by rewrite <- (assoc_L (++) fs).
Qed.

Lemma duration_loop_ok ps fuel total n :
  Forall part_ok ps -> (length (ps ≫= part_text) <= fuel)%nat -> 0 <= total ->
  total + parts_nanos ps < 2 ^ 128 ->
  duration_loop fuel (ps ≫= part_text) total n = Ok (total + parts_nanos ps, n + Z.of_nat (length ps)).
Proof.
  intros Hps. revert fuel total n. induction Hps as [|p ps Hp Hps IH]; intros fuel total n Hf Ht Hmax; cbn [mbind list_bind].
  { destruct fuel; cbn; do 2 f_equal; lia. }
  cbn [mbind list_bind] in Hf. fold (ps ≫= part_text) in *. cbn [parts_nanos foldr] in Hmax |- *. fold (parts_nanos ps) in *.
  pose proof (parts_nanos_nonneg ps Hps). pose proof (part_nanos_nonneg p Hp).
  destruct (digit_head p (ps ≫= part_text) Hp) as (c & Hc & _).
  destruct (duration_component_ok p (ps ≫= part_text) Hp) as (i & f & Hd & Hi & Hfn & Hsum); [lia|..].
  { intros c'. destruct ps as [|q ps]; [done|]. cbn. intros Hc'. apply Forall_cons_iff in Hps as [Hq _].
    destruct (digit_head q (ps ≫= part_text) Hq) as (c'' & Hc'' & Hdig). rewrite Hc' in Hc''.
    injection Hc'' as ->. by apply digit_not_alphabetic. }
  assert (Hlp : (0 < length (part_text p))%nat).
  { destruct Hp as (Hne & _). unfold part_text. destruct (pt_integer p); [done|]. cbn. lia. }
  rewrite length_app in Hf. destruct (part_text p ++ (ps ≫= part_text)) as [|x s] eqn:Hs; [done|].
  destruct fuel as [|fuel]; [lia|]. cbn [duration_loop]. rewrite Hd. cbn [mbind result_bind].
  rewrite u128_checked_Some by lia. cbn [ok_or mbind result_bind].
  rewrite u128_checked_Some by lia. cbn [ok_or mbind result_bind].
  rewrite IH by lia. f_equal. f_equal; cbn [length]; lia.
Qed.

Lemma duration_loop_inv fuel s total n t m :
  duration_loop fuel s total n = Ok (t, m) ->
  exists ps, Forall part_ok ps /\ s = ps ≫= part_text /\ t = total + parts_nanos ps /\ m = n + Z.of_nat (length ps).
Proof.
  revert s total n. induction fuel as [|fuel IH]; intros s total n; destruct s as [|c s]; cbn [duration_loop];
    try (intros [= <- <-]; exists []; cbn; split_and!; [constructor|done|lia..]); [done|].
  destruct (duration_component (c :: s)) as [[[i f] rest]|] eqn:Hd; [|done]. cbn [mbind result_bind].
  apply duration_component_inv in Hd as (p & Hp & -> & Hsum).
  destruct (u128_checked (total + i)) as [t1|] eqn:H1; [|done]. apply u128_checked_inv in H1 as ->. cbn [ok_or mbind result_bind].
  destruct (u128_checked (total + i + f)) as [t2|] eqn:H2; [|done]. apply u128_checked_inv in H2 as ->. cbn [ok_or mbind result_bind].
  intros (ps & Hps & -> & -> & ->)%IH. exists (p :: ps). cbn [mbind list_bind parts_nanos foldr length].
  fold (parts_nanos ps). split_and!; [by constructor|done|lia..].
Qed.

(** C28: Durations: a text is accepted exactly when, without the blanks around it, it is a
    sequence of numbers with units whose sum fits the seconds of a [Duration], and the
    result is that sum, fractions of a nanosecond dropped part by part. No overflow of the
    arithmetic on the way refuses or changes such a text. *)
Theorem parse_duration_spec value d :
  parse_duration value = Ok d <->
  exists ps, ps <> [] /\ Forall part_ok ps /\ trim value = ps ≫= part_text /\
    d = parts_nanos ps /\ d <= max_duration_nanos.
Proof.
  unfold parse_duration. split.
  - case_bool_decide as Hne; [done|].
    destruct (duration_loop _ _ _ _) as [[t m]|] eqn:Hl; [|done]. cbn [mbind result_bind].
    apply duration_loop_inv in Hl as (ps & Hps & Htrim & -> & ->). destruct (Z.eqb_spec (0 + Z.of_nat (length ps)) 0); [done|].
    destruct (Z.ltb_spec ((2 ^ 64 - 1) * 1_000_000_000) (0 + parts_nanos ps)); [done|]. intros [= <-].
    exists ps. unfold max_duration_nanos. split_and!; [by intros ->|done|done|lia..].
  - intros (ps & Hne & Hps & Htrim & -> & Hmax). rewrite Htrim. unfold max_duration_nanos in Hmax.
    destruct ps as [|p ps]; [done|]. rewrite bool_decide_eq_false_2.
    2:{ apply Forall_cons_iff in Hps as [(Hpi & _) _]. cbn. unfold part_text. by destruct (pt_integer p). }
    rewrite duration_loop_ok by (done || lia). cbn [mbind result_bind].
    rewrite (proj2 (Z.eqb_neq _ _)) by (cbn [length]; lia).
    rewrite (proj2 (Z.ltb_ge _ _)) by lia. f_equal; lia.
Qed.

(** ** Normalised paths *)

(** An absolute path of names only. *)
Definition clean_path (p : PathBuf) : Prop := exists names, p = RootDir :: (Normal <$> names).

Lemma is_absolute_spec p : is_absolute p = true <-> exists rest, p = RootDir :: rest.
Proof.
  unfold is_absolute. rewrite bool_decide_eq_true. destruct p as [|c p]; cbn; [naive_solver|].
  split; [intros [= ->]; by eexists|intros (? & [= -> _]); done].
Qed.

Lemma clean_absolute p : clean_path p -> is_absolute p = true.
Proof. intros (names & ->). done. Qed.

Lemma clean_step p c : clean_path p -> clean_path (normalize_step true p c).
Proof.
  intros (names & ->). destruct c as [| | |name]; cbn [normalize_step].
  - by exists [].
  - by exists names.
  - unfold path_parent. destruct names as [|x names _] using rev_ind; [by exists []|].
    rewrite fmap_app. change (RootDir :: (Normal <$> names) ++ (Normal <$> [x]))
      with ((RootDir :: (Normal <$> names)) ++ [Normal x]).
    rewrite last_snoc, removelast_last. by exists names.
  - exists (names ++ [name]). by rewrite fmap_app.
Qed.

Lemma clean_steps p l : clean_path p -> clean_path (foldl (normalize_step true) p l).
Proof. revert p. induction l as [|c l IH]; intros p Hp; cbn; [done|]. by apply IH, clean_step. Qed.

Lemma normalize_clean p : is_absolute p = true -> clean_path (lexical_normalize p).
Proof.
  intros H. unfold lexical_normalize. rewrite H. apply is_absolute_spec in H as (rest & ->). cbn.
  apply clean_steps. by exists [].
Qed.

Lemma normalize_names pre names :
  foldl (normalize_step true) pre (Normal <$> names) = pre ++ (Normal <$> names).
Proof.
  revert pre. induction names as [|x names IH]; intros pre; cbn; [by rewrite app_nil_r|].
  rewrite IH. by rewrite <- (assoc_L (++)).
Qed.

Lemma normalize_id p : clean_path p -> lexical_normalize p = p.
Proof. intros (names & ->). unfold lexical_normalize. cbn. apply normalize_names. Qed.

Lemma join_absolute base value : is_absolute base = true -> is_absolute (path_join base value) = true.
Proof.
  intros H. unfold path_join. destruct (is_absolute value) eqn:E; [done|].
  apply is_absolute_spec in H as (rest & ->). done.
Qed.

Lemma resolve_path_clean base value : is_absolute base = true -> clean_path (resolve_path base value).
Proof.
  intros H. unfold resolve_path. destruct (is_absolute value) eqn:E; apply normalize_clean; [done|].
  by apply join_absolute.
Qed.

Lemma parent_absolute p q : is_absolute p = true -> path_parent p = Some q -> is_absolute q = true.
Proof.
  intros (rest & ->)%is_absolute_spec. unfold path_parent.
  destruct rest as [|x rest _] using rev_ind; [done|].
  change (RootDir :: rest ++ [x]) with ((RootDir :: rest) ++ [x]). rewrite last_snoc, removelast_last.
  destruct x; intros [= <-]; done.
Qed.
