(* ===== verification/ConfigValidate.v ===== *)
(** * Validation of the configuration (src/backend/src/config/validate.rs, contract.rs)

    The checks a document passes before it is used: names, references, upstream cycles,
    bind conflicts, bounds and paths. A validator is the list of the errors it pushes, in
    their order; [ConfigV2_validate] sorts them and refuses the document when there is
    one. The parser of the url crate is an argument. *)

From stdpp Require Import pretty.
From S2P Require Import Prelude Text Net Client Rules Group DohRoute Plan Outbound ClientIp ConfigModel.

(** ** Reports *)

Inductive ConfigErrorKind :=
| CE_Parse | CE_UnsupportedVersion | CE_MissingField | CE_InvalidValue | CE_UnknownField | CE_Duplicate
| CE_MissingReference | CE_WrongReferenceKind | CE_Cycle | CE_Constraint | CE_UnsupportedFeature
| CE_BindConflict | CE_Secret | CE_Snapshot | CE_Migration.
#[global] Instance ConfigErrorKind_eq_dec : EqDecision ConfigErrorKind.
Proof. solve_decision. Defined.

(** The derived order is that of the constructors. *)
Definition kind_rank (k : ConfigErrorKind) : nat :=
  match k with
  | CE_Parse => 0 | CE_UnsupportedVersion => 1 | CE_MissingField => 2 | CE_InvalidValue => 3
  | CE_UnknownField => 4 | CE_Duplicate => 5 | CE_MissingReference => 6 | CE_WrongReferenceKind => 7
  | CE_Cycle => 8 | CE_Constraint => 9 | CE_UnsupportedFeature => 10 | CE_BindConflict => 11
  | CE_Secret => 12 | CE_Snapshot => 13 | CE_Migration => 14
  end%nat.

Record ConfigError := mk_config_error {
  ce_kind : ConfigErrorKind;
  ce_path : string;
  ce_message : string;
  ce_line : option nat;
  ce_column : option nat
}.
Definition config_error (kind : ConfigErrorKind) (path message : string) : ConfigError :=
  mk_config_error kind path message None None.

Record ConfigErrorReport := mk_report { cr_errors : list ConfigError; cr_warnings : list string }.

Definition report_push (r : ConfigErrorReport) (e : ConfigError) : ConfigErrorReport :=
  mk_report (cr_errors r ++ [e]) (cr_warnings r).
Definition report_extend (r other : ConfigErrorReport) : ConfigErrorReport :=
  mk_report (cr_errors r ++ cr_errors other) (cr_warnings r ++ cr_warnings other).
Definition report_is_empty (r : ConfigErrorReport) : bool := bool_decide (cr_errors r = []).

(** [Vec::sort_by] is stable. *)
Section Sort.
Context {A : Type} (compare : A -> A -> comparison).
Fixpoint insert_before (x : A) (l : list A) : list A :=
  match l with
  | [] => [x]
  | y :: l' => match compare x y with Gt => y :: insert_before x l' | _ => x :: l end
  end.
Definition sort_by (l : list A) : list A := foldr insert_before [] l.

Lemma insert_before_perm x l : insert_before x l ≡ₚ x :: l.
Proof. induction l as [|y l IH]; cbn; [done|]. destruct (compare x y); [done..|]. rewrite IH. constructor. Qed.
Lemma sort_by_perm l : sort_by l ≡ₚ l.
Proof. induction l as [|x l IH]; cbn; [done|]. by rewrite insert_before_perm, IH. Qed.
End Sort.

(** [Ordering::then_with] *)
Definition then_with (c d : comparison) : comparison := match c with Eq => d | _ => c end.

Definition error_compare (left right : ConfigError) : comparison :=
  then_with (String.compare (ce_path left) (ce_path right))
    (then_with (Nat.compare (kind_rank (ce_kind left)) (kind_rank (ce_kind right)))
      (String.compare (ce_message left) (ce_message right))).

(** [Vec::dedup]: equal neighbours count once. *)
Fixpoint dedup (l : list string) : list string :=
  match l with
  | x :: (y :: _) as l' => if bool_decide (x = y) then dedup l' else x :: dedup l'
  | _ => l
  end.

Definition sort_deterministically (r : ConfigErrorReport) : ConfigErrorReport :=
  mk_report (sort_by error_compare (cr_errors r)) (dedup (sort_by String.compare (cr_warnings r))).

(** ** Helpers of the validators *)

Definition when (b : bool) (kind : ConfigErrorKind) (path message : string) : list ConfigError :=
  if b then [config_error kind path message] else [].

(** [format!("{path}[{index}]")] *)
Definition at_index (path : string) (index : nat) : string := path +:+ "[" +:+ pretty index +:+ "]".
Definition field (path name : string) : string := path +:+ "." +:+ name.

(** A loop over [l] with its index; [f] sees the items before the current one, which is
    what the sets the loops fill are made of. *)
Fixpoint each_from {A} (f : list A -> A -> list ConfigError) (before l : list A) : list ConfigError :=
  match l with
  | [] => []
  | x :: l' => f before x ++ each_from f (before ++ [x]) l'
  end.
Definition each {A} (f : list A -> A -> list ConfigError) (l : list A) : list ConfigError := each_from f [] l.

(** [value.trim().is_empty()] *)
Definition blank (s : string) : bool :=
  match utf8_decode (str_bytes s) with Some c => bool_decide (trim c = []) | None => false end.
Definition some_blank (s : option string) : bool := match s with Some s => blank s | None => false end.

Definition string_starts_with (pre s : string) : bool := starts_with (lit pre) (lit s).

Definition validate_name (name path : string) : list ConfigError :=
  if (str_len name =? 0) || (128 <? str_len name) then
    [config_error CE_InvalidValue path "name must contain 1..=128 characters"]
  else when (negb (config_id_ok name)) CE_InvalidValue path "name contains an unsupported character".

Definition validate_port (port : Z) (path : string) : list ConfigError :=
  when (port =? 0) CE_InvalidValue path "port must be within_bounds 1 and 65535".

Definition validate_addresses (addresses : list IpAddr) (path : string) : list ConfigError :=
  when (bool_decide (addresses = [])) CE_MissingField path "at least one address is required" ++
  each (fun before a => when (bool_decide (a ∈ before)) CE_Duplicate (at_index path (length before))
                          "address is duplicated") addresses.

Definition validate_required_path (path : option PathBuf) (field_path : string) : list ConfigError :=
  match path with
  | None => [config_error CE_MissingField field_path "path is required"]
  | Some p => when (negb (is_non_empty_path p)) CE_InvalidValue field_path "path must not be empty"
  end.

Definition is_supported_password_hash (value : string) : bool :=
  ((string_starts_with "$2a$" value || string_starts_with "$2b$" value || string_starts_with "$2y$" value) &&
   (str_len value =? 60)) ||
  (string_starts_with "$argon2id$" value && (20 <=? str_len value)).

Definition http_scheme (u : Url) : bool := String.eqb (url_scheme u) "http" || String.eqb (url_scheme u) "https".

Definition is_valid_public_origin (origin : Url) : bool :=
  http_scheme origin && bool_decide (is_Some (url_host_str origin)) && bool_decide (url_username origin = []) &&
  bool_decide (url_password origin = None) && bool_decide (url_path origin = str_bytes "/") &&
  bool_decide (url_query origin = None) && bool_decide (url_fragment origin = None).

Definition is_valid_env_name (value : chars) : bool :=
  match utf8_encode value with
  | [] => false
  | b :: bytes =>
    let c := byte_to_Z b in
    ((c =? 95) || ((97 <=? c) && (c <=? 122)) || ((65 <=? c) && (c <=? 90))) &&
    forallb (fun b => let c := byte_to_Z b in
      ((48 <=? c) && (c <=? 57)) || ((65 <=? c) && (c <=? 90)) || ((97 <=? c) && (c <=? 122)) || (c =? 95)) bytes
  end.

Definition validate_optimistic (o : OptimisticDto) (path : string) : list ConfigError :=
  when (is_zero (od_answer_ttl o)) CE_InvalidValue (field path "answer_ttl") "duration must be greater than zero" ++
  when (is_zero (od_max_age o)) CE_InvalidValue (field path "max_age") "duration must be greater than zero".

Definition validate_cache_override (cache : CacheOverrideDto) (path : string) : list ConfigError :=
  when (bool_decide (cd_enabled cache = None)) CE_MissingField (field path "enabled")
    "enabled is required when a cache override is present" ++
  match cd_optimistic cache with Some o => validate_optimistic o (field path "optimistic") | None => [] end.

Definition validate_ttl (ttl : TtlOverrideDto) (path : string) : list ConfigError :=
  match td_min ttl, td_max ttl with
  | Some min, Some max =>
    when (negb (is_zero max) && negb (is_zero min) && (max <? min)) CE_Constraint path "min TTL must not exceed max TTL"
  | _, _ => []
  end.

(** [auto_update && update_interval.is_none_or(|value| value.is_zero())] *)
Definition missing_interval (auto_update : bool) (interval : option Duration) : bool :=
  auto_update && match interval with None => true | Some v => is_zero v end.

Definition validate_update (auto_update : bool) (interval : option Duration) (path : string) : list ConfigError :=
  when (missing_interval auto_update interval) CE_MissingField (field path "update_interval")
    "update_interval is required when auto_update is true".

Definition validate_hosts_resource (r : HostsResourceDto) (path : string) : list ConfigError :=
  match r with
  | HostsConst _ _ hosts => when (blank hosts) CE_MissingField (field path "hosts") "inline hosts content must not be empty"
  | HostsFile _ _ file auto_update interval =>
    when (negb (is_non_empty_path file)) CE_MissingField (field path "path") "file path must not be empty" ++
    validate_update auto_update interval path
  end.

(** Scheme, host, and no credentials or fragment. *)
Definition validate_http_url (u : Url) (path subject what : string) : list ConfigError :=
  when (negb (http_scheme u)) CE_InvalidValue path (subject +:+ " must use http or https") ++
  when (bool_decide (url_host_str u = None)) CE_InvalidValue path (what +:+ " must include a host") ++
  when (negb (bool_decide (url_username u = [])) || bool_decide (is_Some (url_password u)) ||
        bool_decide (is_Some (url_fragment u)))
    CE_InvalidValue path (what +:+ " must not contain credentials or a fragment").

Definition validate_rule_set (r : RuleSetDto) (path : string) : list ConfigError :=
  match r with
  | RuleSetConst _ _ rule => when (blank rule) CE_MissingField (field path "rule") "inline rule content must not be empty"
  | RuleSetFile _ _ file auto_update interval =>
    when (negb (is_non_empty_path file)) CE_MissingField (field path "path") "file path must not be empty" ++
    validate_update auto_update interval path
  | RuleSetRemote _ _ url _ auto_update interval =>
    validate_http_url url (field path "url") "remote URL" "remote URL" ++ validate_update auto_update interval path
  end.

Definition validate_group_members (members : list Member) (mode : UpstreamMode) (path : string) : list ConfigError :=
  when (bool_decide (members = [])) CE_MissingField path "at least one group member is required" ++
  each (fun before m =>
    let member_path := at_index path (length before) in
    when (blank (member_name m)) CE_MissingField (field member_path "name") "member name must not be empty" ++
    when (bool_decide (member_name m ∈ member_name <$> before)) CE_Duplicate (field member_path "name")
      "group member is duplicated" ++
    when (weight m =? 0) CE_InvalidValue (field member_path "weight") "weight must be positive" ++
    when (match mode with UM_Parallel | UM_Failover => negb (weight m =? 1) | _ => false end)
      CE_Constraint (field member_path "weight") "parallel and failover members must use weight 1") members.

(** ** Search for cycles *)

Abbreviation Graph := (gmap string (list string)).

Definition sorted_edges (edges : list string) : list string := dedup (sort_by String.compare edges).

Inductive Mark := InProgress | Finished.
#[global] Instance Mark_eq_dec : EqDecision Mark.
Proof. solve_decision. Defined.
Abbreviation Marks := (gmap string Mark).

(** [stack[start..]] from the first occurrence of [node]. *)
Fixpoint from_first (node : string) (stack : list string) : list string :=
  match stack with
  | [] => []
  | x :: rest => if bool_decide (x = node) then stack else from_first node rest
  end.
Definition cycle_error (node : string) (stack : list string) : ConfigError :=
  config_error CE_Cycle ("upstreams." +:+ node)
    ("upstream cycle: " +:+ String.concat " -> " (from_first node stack ++ [node])).

(** The loop over the edges of a node; [go] visits one of them. *)
Fixpoint visit_edges (g : Graph) (go : string -> Marks -> option (Marks * list ConfigError))
    (edges : list string) (states : Marks) (errors : list ConfigError) : option (Marks * list ConfigError) :=
  match edges with
  | [] => Some (states, errors)
  | edge :: rest =>
    if bool_decide (is_Some (g !! edge)) then
      '(states', more) ← go edge states;
      visit_edges g go rest states' (errors ++ more)
    else visit_edges g go rest states errors
  end.

(** [visit]; every nested call is for a node without a mark, so the number of nodes bounds
    the depth. [None] is never reached. *)
Fixpoint visit (fuel : nat) (g : Graph) (node : string) (states : Marks) (stack : list string) :
    option (Marks * list ConfigError) :=
  match states !! node with
  | Some InProgress => Some (states, [cycle_error node stack])
  | Some Finished => Some (states, [])
  | None =>
    match fuel with
    | O => None
    | S fuel =>
      '(states', errors) ← visit_edges g (fun edge st => visit fuel g edge st (stack ++ [node]))
        (sorted_edges (default [] (g !! node))) (<[node := InProgress]> states) [];
      Some (<[node := Finished]> states', errors)
    end
  end.

Fixpoint visit_all (fuel : nat) (g : Graph) (nodes : list string) (states : Marks) (errors : list ConfigError) :
    option (list ConfigError) :=
  match nodes with
  | [] => Some errors
  | node :: rest =>
    '(states', more) ← visit fuel g node states [];
    visit_all fuel g rest states' (errors ++ more)
  end.

(** [graph.keys()], in their order. *)
Definition graph_keys (g : Graph) : list string := sort_by String.compare (map_to_list g).*1.

(** ** Outbound proxies *)

Section Validate.
Context (Url_parse : chars -> option Url).

Definition inline_proxy_url_error (value : option chars) : option string :=
  value ← value;
  if bool_decide (trim value = []) then None
  else match Url_parse (trim value) with
       | None => Some "inline proxy URL must be a valid URL"
       | Some url =>
         if negb (String.eqb (url_scheme url) "socks5" || String.eqb (url_scheme url) "socks5h")
         then Some "inline proxy URL scheme must be socks5 or socks5h"
         else if bool_decide (url_host_str url = None) then Some "inline proxy URL must contain a host"
         else None
       end.

Definition secret_parts (s : SecretRefDto) : option chars * option PathBuf * option chars :=
  match s with
  | SecretEnv env => (Some env, None, None)
  | SecretFile file => (None, Some file, None)
  | SecretInline url => (None, None, Some url)
  | SecretParts env file url => (env, file, url)
  end.

Definition validate_outbound (o : OutboundDto) (path : string) : list ConfigError :=
  let '(env, file, url) := secret_parts (ob_proxy_url o) in
  let has_env := some_text env in
  let has_file := match file with Some p => is_non_empty_path p | None => false end in
  let has_url := some_text url in
  when (negb (Z.b2z has_env + Z.b2z has_file + Z.b2z has_url =? 1)) CE_Secret (field path "proxy_url")
    "exactly one of env, file or url is required" ++
  when (match env with Some v => bool_decide (trim v = []) | None => false end) CE_Secret (field path "proxy_url.env")
    "environment variable name must not be empty" ++
  when (match env with Some v => negb (is_valid_env_name v) | None => false end) CE_Secret (field path "proxy_url.env")
    "environment variable name contains unsupported characters" ++
  when (match file with Some p => negb (is_non_empty_path p) | None => false end) CE_Secret (field path "proxy_url.file")
    "secret file path must not be empty" ++
  match inline_proxy_url_error url with
  | Some message => [config_error CE_Secret (field path "proxy_url.url") message]
  | None => []
  end.

Context {IN : IpNetOps}.

(** ** Listeners *)

Definition validate_ecs (ecs : option EcsDto) (path : string) : list ConfigError :=
  match ecs with
  | None => []
  | Some e =>
    let custom := match ed_mode e with EcsCustom => true | _ => false end in
    when (custom && bool_decide (ed_custom_ip e = None)) CE_MissingField (field path "custom_ip")
      "custom_ip is required for custom mode" ++
    when (negb custom && bool_decide (is_Some (ed_custom_ip e))) CE_Constraint (field path "custom_ip")
      "custom_ip is only allowed for custom mode"
  end.

Definition no_proxies (p : option (list IpNet)) : bool :=
  match p with None => true | Some l => bool_decide (l = []) end.
Definition is_set {A} (o : option A) : bool := match o with Some _ => true | None => false end.

Definition validate_client_ip (c : ClientIpDto) (endpoint_path : string) : list ConfigError :=
  let path := field endpoint_path "client_ip" in
  match ci_source c with
  | CIS_Peer =>
    when (is_set (ci_header c) || is_set (ci_trusted_proxies c) || is_set (ci_on_missing c) || is_set (ci_on_invalid c))
      CE_Constraint path "peer source must not configure proxy header options"
  | CIS_ForwardedHeader =>
    when (negb (is_set (ci_header c))) CE_MissingField (field path "header")
      "header is required for forwarded_header source" ++
    when (no_proxies (ci_trusted_proxies c)) CE_MissingField (field path "trusted_proxies")
      "trusted_proxies is required for forwarded_header source"
  | CIS_ProxyProtocol =>
    when (no_proxies (ci_trusted_proxies c)) CE_MissingField (field path "trusted_proxies")
      "trusted_proxies is required for proxy_protocol source" ++
    when (is_set (ci_header c) || is_set (ci_on_missing c) || is_set (ci_on_invalid c)) CE_Constraint path
      "proxy_protocol source does not accept forwarded header options"
  end.

Definition validate_tls (tls : TlsDto) (path : string) : list ConfigError :=
  match tl_mode tls with
  | TM_Terminate =>
    validate_required_path (tl_certificate_file tls) (field path "tls.certificate_file") ++
    validate_required_path (tl_private_key_file tls) (field path "tls.private_key_file")
  | TM_External =>
    when (is_set (tl_certificate_file tls)) CE_Constraint (field path "tls.certificate_file")
      "certificate_file is forbidden for external mode" ++
    when (is_set (tl_private_key_file tls)) CE_Constraint (field path "tls.private_key_file")
      "private_key_file is forbidden for external mode"
  end.

Definition pattern_error_text (e : DohPathPatternError) : string :=
  match e with
  | InvalidPath => "route path must be a non-empty absolute HTTP path without query, fragment, or control characters"
  | InvalidPlaceholder => "client_id placeholder must appear at most once as a complete path segment"
  end.

(** The compiled templates of the routes so far: of the first route of every path. *)
Fixpoint routes_loop (path : string) (index : nat) (paths : list chars)
    (compiled : list (nat * DohPathPattern)) (routes : list DohRouteDto) : list ConfigError :=
  match routes with
  | [] => []
  | r :: rest =>
    let route_path := at_index (field path "routes") index in
    let is_unique := negb (bool_decide (rt_path r ∈ paths)) in
    let '(errors, compiled') :=
      match pattern_new (rt_path r) with
      | Ok pattern =>
        if is_unique then
          (match list_find (fun x => overlaps pattern x.2 = true) compiled with
           | Some (_, (other, _)) => [config_error CE_Constraint (field route_path "path")
               ("route path overlaps with " +:+ at_index (field path "routes") other +:+ ".path")]
           | None => []
           end, compiled ++ [(index, pattern)])
        else ([], compiled)
      | Err e => ([config_error CE_InvalidValue (field route_path "path") (pattern_error_text e)], compiled)
      end in
    when (starts_with (lit "/dns-quer/inner") (rt_path r) || starts_with (lit "/dns-quer/outside") (rt_path r))
      CE_Constraint (field route_path "path") "path is reserved by the service" ++
    when (negb is_unique) CE_Duplicate (field route_path "path") "route path is duplicated" ++
    errors ++
    when (blank (rt_strategy r)) CE_MissingField (field route_path "strategy") "strategy reference must not be empty" ++
    routes_loop path (S index) (paths ++ [rt_path r]) compiled' rest
  end.

Definition validate_doh_endpoint (path : string) (before : list DohEndpointDto) (e : DohEndpointDto) : list ConfigError :=
  let endpoint_path := at_index (field path "endpoints") (length before) in
  validate_name (de_name e) (field endpoint_path "name") ++
  when (bool_decide (de_name e ∈ de_name <$> before)) CE_Duplicate (field endpoint_path "name")
    "endpoint name is duplicated" ++
  validate_addresses (de_addresses e) (field endpoint_path "addresses") ++
  validate_port (de_port e) (field endpoint_path "port") ++
  validate_tls (de_tls e) endpoint_path ++
  validate_client_ip (de_client_ip e) endpoint_path.

Definition validate_stream (path : string) (addresses : list IpAddr) (port : Z) (strategy : string)
    (hosts : option string) : list ConfigError :=
  validate_addresses addresses (field path "addresses") ++ validate_port port (field path "port") ++
  when (blank strategy) CE_MissingField (field path "strategy") "strategy must not be empty" ++
  when (some_blank hosts) CE_InvalidValue (field path "hosts") "hosts reference must not be empty".

Definition validate_listener (path : string) (l : ListenerDto) : list ConfigError :=
  match l with
  | UdpDto _ addresses port strategy hosts | TcpDto _ addresses port strategy hosts =>
    validate_stream path addresses port strategy hosts
  | DohDto _ routes endpoints =>
    when (bool_decide (length routes = 0%nat)) CE_MissingField (field path "routes") "at least one route is required" ++
    when (bool_decide (length endpoints = 0%nat)) CE_MissingField (field path "endpoints")
      "at least one endpoint is required" ++
    routes_loop path 0 [] [] routes ++
    each (validate_doh_endpoint path) endpoints
  end.

(** ** Upstreams and strategies *)

Definition validate_upstream (u : UpstreamDto) (path : string) : list ConfigError :=
  match u with
  | HostsDto _ format hosts =>
    when (negb (String.eqb format "json" || String.eqb format "hosts")) CE_InvalidValue (field path "format")
      "hosts upstream format must be json or hosts" ++
    when (blank hosts) CE_MissingField (field path "hosts") "inline hosts content must not be empty"
  | DohUpstreamDto _ address bootstrap connect_ip _ ecs =>
    validate_http_url address (field path "address") "upstream address" "upstream URL" ++
    when (is_set bootstrap && is_set connect_ip) CE_Constraint path "bootstrap and connect_ip are mutually exclusive" ++
    validate_ecs ecs (field path "edns_client_subnet")
  | GroupDto _ upstreams mode timeout fallbacks fallback_mode fallback_timeout =>
    validate_group_members upstreams mode (field path "upstreams") ++
    when (is_zero timeout) CE_InvalidValue (field path "timeout") "timeout must be greater than zero" ++
    match fallbacks with
    | Some fallbacks =>
      when (bool_decide (fallbacks = [])) CE_Constraint (field path "fallbacks")
        "fallbacks must not be empty when provided" ++
      when (negb (is_set fallback_mode)) CE_MissingField (field path "fallback_upstream_mode")
        "fallback mode is required when fallbacks are provided" ++
      when (match fallback_timeout with None => true | Some v => is_zero v end) CE_MissingField
        (field path "fallback_timeout") "fallback timeout is required and must be positive" ++
      match fallback_mode with
      | Some mode => validate_group_members fallbacks mode (field path "fallbacks")
      | None => []
      end
    | None =>
      when (is_set fallback_mode || is_set fallback_timeout) CE_Constraint path
        "fallback mode and timeout require fallbacks"
    end
  end.

(** [value.as_ref().is_some_and(|value| !value.trim().is_empty())] *)
Definition names_item (s : option string) : bool := match s with Some s => negb (blank s) | None => false end.

Definition validate_rule (rule_path : string) (r : StrategyRuleDto) : list ConfigError :=
  let has_rule_set := names_item (rl_rule_set r) in
  let has_hosts := names_item (rl_hosts r) in
  when (Bool.eqb has_rule_set has_hosts) CE_Constraint rule_path "exactly one of rule_set or hosts is required" ++
  when (has_rule_set && negb (names_item (rl_upstream r))) CE_MissingField (field rule_path "upstream")
    "rule_set rules require an upstream" ++
  when (has_hosts && is_set (rl_upstream r)) CE_Constraint (field rule_path "upstream")
    "hosts rules must not specify an upstream" ++
  validate_ecs (rl_ecs r) (field rule_path "edns_client_subnet").

Definition validate_strategy (s : StrategyDto) (path : string) : list ConfigError :=
  when (bool_decide (length (sd_rules s) = 0%nat)) CE_MissingField (field path "rules") "at least one rule is required" ++
  when (blank (sd_default_upstream s)) CE_MissingField (field path "default_upstream")
    "default upstream must not be empty" ++
  match sd_cache s with Some c => validate_cache_override c (field path "cache") | None => [] end ++
  match sd_ttl_override s with Some t => validate_ttl t (field path "ttl_override") | None => [] end ++
  validate_ecs (sd_ecs s) (field path "edns_client_subnet") ++
  each (fun before r => validate_rule (at_index (field path "rules") (length before)) r) (sd_rules s).

(** ** The whole document; [ResourceConfig] borrows these fields of it *)

Definition validate_user (before : list WebUiUserDto) (u : WebUiUserDto) : list ConfigError :=
  let path := at_index "webui.users" (length before) in
  validate_name (wu_name u) (field path "name") ++
  when (bool_decide (wu_name u ∈ wu_name <$> before)) CE_Duplicate (field path "name") "user name is duplicated" ++
  when (negb (is_supported_password_hash (wu_password_hash u))) CE_InvalidValue (field path "password_hash")
    "password_hash must use a supported one-way hash format".

Definition validate_startup (c : ConfigV2) : list ConfigError :=
  when (negb (is_non_empty_path (wk_path (cf_work c)))) CE_MissingField "work.path" "path must not be empty" ++
  when (negb (is_non_empty_path (wk_rules_path (cf_work c)))) CE_MissingField "work.rules_path" "path must not be empty" ++
  when (wk_rule_set_max_size_bytes (cf_work c) =? 0) CE_InvalidValue "work.rule_set_max_size_bytes"
    "rule-set size limit must be greater than zero" ++
  when (wk_rule_set_max_rules (cf_work c) =? 0) CE_InvalidValue "work.rule_set_max_rules"
    "rule-set rule limit must be greater than zero" ++
  when (negb (is_non_empty_path (db_path (cf_database c)))) CE_MissingField "database.path"
    "database path must not be empty" ++
  when (negb (is_non_empty_path (lg_path (cf_logs c)))) CE_MissingField "logs.path" "log path must not be empty" ++
  when (bool_decide (length (cf_listener c) = 0%nat)) CE_MissingField "listener" "at least one listener is required" ++
  when (bool_decide (length (cf_upstreams c) = 0%nat)) CE_MissingField "upstreams" "at least one upstream is required" ++
  when (bool_decide (length (cf_strategy c) = 0%nat)) CE_MissingField "strategy" "at least one strategy is required" ++
  when (ui_port (cf_webui c) =? 0) CE_InvalidValue "webui.port" "port must be within_bounds 1 and 65535" ++
  match ui_public_origin (cf_webui c) with
  | None => when (ui_enable (cf_webui c)) CE_MissingField "webui.public_origin"
              "public_origin is required when webui is enabled"
  | Some origin => when (negb (is_valid_public_origin origin)) CE_InvalidValue "webui.public_origin"
      "public_origin must be an absolute http or https origin without credentials, path, query, or fragment"
  end ++
  each validate_user (ui_users (cf_webui c)).

(** One namespace: valid names, no duplicates, and the checks of every item. *)
Definition validate_namespace {A} (path duplicate : string) (name : A -> string)
    (check : A -> string -> list ConfigError) (l : list A) : list ConfigError :=
  each (fun before x =>
    let item_path := at_index path (length before) in
    validate_name (name x) (field item_path "name") ++
    when (bool_decide (name x ∈ name <$> before)) CE_Duplicate (field item_path "name") duplicate ++
    check x item_path) l.

Definition validate_collections (c : ConfigV2) : list ConfigError :=
  validate_namespace "listener" "listener name is duplicated" listener_name
    (fun l path => validate_listener path l) (cf_listener c) ++
  validate_namespace "upstreams" "upstream name is duplicated" upstream_name validate_upstream (cf_upstreams c) ++
  validate_namespace "strategy" "strategy name is duplicated" sd_name validate_strategy (cf_strategy c) ++
  validate_namespace "hosts" "hosts resource name is duplicated" hosts_name validate_hosts_resource (cf_hosts c) ++
  validate_namespace "outbound" "outbound name is duplicated" ob_name validate_outbound (cf_outbound c) ++
  validate_namespace "rule_set" "rule_set name is duplicated" rule_set_name validate_rule_set (cf_rule_set c).

(** [str::split_once(':')] *)
Fixpoint split_selector (s : string) : option (string * string) :=
  match s with
  | EmptyString => None
  | String c rest =>
    if (Ascii.nat_of_ascii c =? 58)%nat then Some (EmptyString, rest)
    else '(a, b) ← split_selector rest; Some (String c a, b)
  end.

(** A selector with a byte above 127 is refused, whatever text its bytes spell. *)
Definition check_rule_set_selector (rule_sets : list string) (value path : string) : list ConfigError :=
  if bool_decide (value ∈ rule_sets) then []
  else match split_selector value with
       | Some (base, selector) =>
         when (negb (bool_decide (base ∈ rule_sets))) CE_MissingReference (field path "rule_set")
           "rule_set selector base does not exist" ++
         when (negb (is_set (normalize_rule_set_selector (lit selector) MAX_RULE_SET_SELECTOR_BYTES)))
           CE_InvalidValue (field path "rule_set")
           "rule_set selector must be non-empty printable ASCII without ':' or '@'"
       | None => [config_error CE_MissingReference (field path "rule_set") "rule_set reference does not exist"]
       end.

Section References.
Context (c : ConfigV2).
Let strategies := sd_name <$> cf_strategy c.
Let upstreams := upstream_name <$> cf_upstreams c.
Let hosts := hosts_name <$> cf_hosts c.
Let rule_sets := rule_set_name <$> cf_rule_set c.
Let outbounds := ob_name <$> cf_outbound c.

Definition all_names : list string := strategies ++ upstreams ++ hosts ++ rule_sets ++ outbounds.

Definition check_reference (value path expected : string) (target : list string) : list ConfigError :=
  if bool_decide (value ∈ target) then []
  else [config_error (if bool_decide (value ∈ all_names) then CE_WrongReferenceKind else CE_MissingReference)
          path ("reference must point to " +:+ expected)].

Definition check_option (value : option string) (path expected : string) (target : list string) : list ConfigError :=
  match value with Some v => check_reference v path expected target | None => [] end.

Definition member_references (members : list Member) (path : string) : list ConfigError :=
  each (fun before m => check_reference (member_name m) (field (at_index path (length before)) "name") "upstream" upstreams)
    members.

Definition listener_references (path : string) (l : ListenerDto) : list ConfigError :=
  match l with
  | UdpDto _ _ _ strategy local | TcpDto _ _ _ strategy local =>
    check_reference strategy (field path "strategy") "strategy" strategies ++
    check_option local (field path "hosts") "hosts" hosts
  | DohDto _ routes _ =>
    each (fun before r => check_reference (rt_strategy r) (field (at_index (field path "routes") (length before)) "strategy")
            "strategy" strategies) routes
  end.

Definition upstream_references (path : string) (u : UpstreamDto) : list ConfigError :=
  match u with
  | DohUpstreamDto _ _ bootstrap _ proxy _ =>
    check_option bootstrap (field path "bootstrap") "upstream" upstreams ++
    check_option proxy (field path "proxy") "outbound" outbounds
  | GroupDto _ members _ _ fallbacks _ _ =>
    member_references members (field path "upstreams") ++
    match fallbacks with Some f => member_references f (field path "fallbacks") | None => [] end
  | HostsDto _ _ _ => []
  end.

Definition rule_references (path : string) (r : StrategyRuleDto) : list ConfigError :=
  check_option (rl_hosts r) (field path "hosts") "hosts" hosts ++
  match rl_rule_set r with Some v => check_rule_set_selector rule_sets v path | None => [] end ++
  check_option (rl_upstream r) (field path "upstream") "upstream" upstreams.

Definition strategy_references (path : string) (s : StrategyDto) : list ConfigError :=
  check_reference (sd_default_upstream s) (field path "default_upstream") "upstream" upstreams ++
  each (fun before r => rule_references (at_index (field path "rules") (length before)) r) (sd_rules s).

Definition rule_set_references (path : string) (r : RuleSetDto) : list ConfigError :=
  match r with
  | RuleSetRemote _ _ _ proxy _ _ => check_option proxy (field path "proxy") "outbound" outbounds
  | _ => []
  end.

Definition validate_references : list ConfigError :=
  each (fun before l => listener_references (at_index "listener" (length before)) l) (cf_listener c) ++
  each (fun before u => upstream_references (at_index "upstreams" (length before)) u) (cf_upstreams c) ++
  each (fun before s => strategy_references (at_index "strategy" (length before)) s) (cf_strategy c) ++
  each (fun before r => rule_set_references (at_index "rule_set" (length before)) r) (cf_rule_set c).

Definition validate_client_strategy (strategy : option string) (index : nat) : list ConfigError :=
  match strategy with
  | Some name =>
    if bool_decide (name ∈ strategies) then []
    else [config_error
      (if bool_decide (name ∈ upstreams) || bool_decide (name ∈ hosts) || bool_decide (name ∈ rule_sets) ||
          bool_decide (name ∈ outbounds) then CE_WrongReferenceKind else CE_MissingReference)
      (field (at_index "clients" index) "strategy") "reference must point to strategy"]
  | None => []
  end.
End References.

(** ** Cycles of upstreams *)

Definition upstream_edges (u : UpstreamDto) : list string :=
  match u with
  | DohUpstreamDto _ _ (Some bootstrap) _ _ _ => [bootstrap]
  | GroupDto _ upstreams _ _ fallbacks _ _ => member_name <$> upstreams ++ default [] fallbacks
  | _ => []
  end.

(** [BTreeMap::insert]: a later upstream of the same name replaces the earlier one. *)
Definition upstream_graph (l : list UpstreamDto) : Graph :=
  foldl (fun g u => <[upstream_name u := upstream_edges u]> g) ∅ l.

Definition validate_upstream_cycles (l : list UpstreamDto) : list ConfigError :=
  let g := upstream_graph l in
  default [] (visit_all (S (size g)) g (graph_keys g) ∅ []).

(** ** The bind plan *)

Inductive BindProtocol := BP_Udp | BP_Tcp.
#[global] Instance BindProtocol_eq_dec : EqDecision BindProtocol.
Proof. solve_decision. Defined.
Inductive BindTransport := BT_Udp | BT_Tcp | BT_Doh.
Record DohBindingRef := mk_binding { bd_listener_id : string; bd_endpoint_id : string }.
Record BindEntry := mk_bind {
  be_protocol : BindProtocol;
  be_transport : BindTransport;
  be_doh_binding : option DohBindingRef;
  be_address : IpAddr;
  be_port : Z;
  be_owner : string;
  be_v6_only : bool
}.

Definition protocol_rank (p : BindProtocol) : nat := match p with BP_Udp => 0 | BP_Tcp => 1 end%nat.
Definition transport_rank (t : BindTransport) : nat := match t with BT_Udp => 0 | BT_Tcp => 1 | BT_Doh => 2 end%nat.

(** [IpAddr::to_string]: IPv6 with its longest run of at least two zero groups left out. *)
Definition v4_text (a : Z) : string :=
  String.concat "." ((fun b => pretty (byte_to_Z b)) <$> v4_octets a).
Definition hex_char (d : Z) : string :=
  String (Ascii.ascii_of_nat (Z.to_nat (if d <? 10 then 48 + d else 87 + d))) EmptyString.
Definition group_text (g : Z) : string :=
  (if g <? 0x1000 then EmptyString else hex_char (g / 0x1000)) +:+
  (if g <? 0x100 then EmptyString else hex_char (g / 0x100 mod 16)) +:+
  (if g <? 0x10 then EmptyString else hex_char (g / 0x10 mod 16)) +:+ hex_char (g mod 16).
Definition v6_groups (a : Z) : list Z := (fun i => a / 2 ^ (16 * i) mod 2 ^ 16) <$> [7; 6; 5; 4; 3; 2; 1; 0].

(** The start and the length of the first longest run of zeros; [start] and [len] are the
    current run. *)
Fixpoint longest_zeros (i : nat) (start len : nat) (best : nat * nat) (groups : list Z) : nat * nat :=
  match groups with
  | [] => best
  | g :: rest =>
    if g =? 0 then
      let start := if (len =? 0)%nat then i else start in
      let len := S len in
      longest_zeros (S i) start len (if (best.2 <? len)%nat then (start, len) else best) rest
    else longest_zeros (S i) 0 0 best rest
  end.
Definition v6_text (a : Z) : string :=
  match to_ipv4_mapped a with
  | Some v4 => "::ffff:" +:+ v4_text v4
  | None =>
    let groups := v6_groups a in
    let '(start, len) := longest_zeros 0 0 0 (0, 0)%nat groups in
    if (1 <? len)%nat then
      String.concat ":" (group_text <$> take start groups) +:+ "::" +:+
      String.concat ":" (group_text <$> drop (start + len) groups)
    else String.concat ":" (group_text <$> groups)
  end.
Definition address_text (a : IpAddr) : string := match a with V4 v => v4_text v | V6 v => v6_text v end.

Definition bind_compare (left right : BindEntry) : comparison :=
  then_with (Nat.compare (protocol_rank (be_protocol left)) (protocol_rank (be_protocol right)))
    (then_with (Nat.compare (transport_rank (be_transport left)) (transport_rank (be_transport right)))
      (then_with (Z.compare (be_port left) (be_port right))
        (then_with (String.compare (address_text (be_address left)) (address_text (be_address right)))
          (String.compare (be_owner left) (be_owner right))))).

Definition addresses_overlap (left right : IpAddr) : bool :=
  match left, right with
  | V4 l, V4 r | V6 l, V6 r => (l =? r) || (l =? 0) || (r =? 0)
  | _, _ => false
  end.

Definition is_ipv6 (a : IpAddr) : bool := match a with V6 _ => true | V4 _ => false end.

Definition bind_entries (protocol : BindProtocol) (transport : BindTransport) (binding : option DohBindingRef)
    (owner : string) (addresses : list IpAddr) (port : Z) : list BindEntry :=
  (fun a => mk_bind protocol transport binding a port owner (is_ipv6 a)) <$> addresses.

Definition listener_entries (index : nat) (l : ListenerDto) : list BindEntry :=
  match l with
  | UdpDto name addresses port _ _ => bind_entries BP_Udp BT_Udp None name addresses port
  | TcpDto name addresses port _ _ => bind_entries BP_Tcp BT_Tcp None name addresses port
  | DohDto name _ endpoints =>
    endpoints ≫= fun e =>
      bind_entries BP_Tcp BT_Doh (Some (mk_binding name (de_name e)))
        (field (field (at_index "listener" index) name) (de_name e)) (de_addresses e) (de_port e)
  end.

Fixpoint all_entries (index : nat) (l : list ListenerDto) : list BindEntry :=
  match l with [] => [] | x :: rest => listener_entries index x ++ all_entries (S index) rest end.

Definition binds_conflict (left right : BindEntry) : bool :=
  bool_decide (be_protocol left = be_protocol right) && (be_port left =? be_port right) &&
  addresses_overlap (be_address left) (be_address right).

(** Every pair, the earlier entry first. *)
Fixpoint entry_conflicts (l : list BindEntry) : list ConfigError :=
  match l with
  | [] => []
  | e :: rest =>
    (rest ≫= fun other => when (binds_conflict e other) CE_BindConflict
       (field (field "bind" (be_owner e)) (pretty (be_port e))) "expanded listener addresses conflict") ++
    entry_conflicts rest
  end.

Definition webui_conflicts (w : WebUiDto) (l : list BindEntry) : list ConfigError :=
  if ui_enable w then
    l ≫= fun e => when (bool_decide (be_protocol e = BP_Tcp) && (be_port e =? ui_port w) &&
                         addresses_overlap (be_address e) (ui_address w))
      CE_BindConflict (field "bind.webui" (pretty (ui_port w))) "management endpoint conflicts with a DNS TCP endpoint"
  else [].

Definition build_resource_bind_plan (c : ConfigV2) : result ConfigErrorReport (list BindEntry) :=
  let entries := all_entries 0 (cf_listener c) in
  let report := sort_deterministically
    (mk_report (entry_conflicts entries ++ webui_conflicts (cf_webui c) entries) []) in
  if report_is_empty report then Ok (sort_by bind_compare entries) else Err report.

Definition validate_resources (c : ConfigV2) (report : ConfigErrorReport) : ConfigErrorReport :=
  let report := mk_report (cr_errors report ++ validate_startup c ++ validate_collections c ++
    validate_references c ++ validate_upstream_cycles (cf_upstreams c)) (cr_warnings report) in
  match build_resource_bind_plan c with Ok _ => report | Err errors => report_extend report errors end.

(** ** [ConfigV2::validate] *)

(** [check] of contract.rs: an error when the condition does not hold. *)
Definition check_valid (valid : bool) (path message : string) : list ConfigError :=
  when (negb valid) CE_InvalidValue path message.

Definition within_bounds (lo hi z : Z) : bool := (lo <=? z) && (z <=? hi).

Definition validate_size (size : Z) (path : string) : list ConfigError :=
  check_valid (within_bounds 1 MAX_SIZE_BYTES size) path "bytes must be in 1..=1099511627776".

Definition check_count {A} (l : list A) (path : string) : list ConfigError :=
  check_valid (length l <=? MAX_RESOURCES_PER_NAMESPACE)%nat path "namespace exceeds 1024 resources".

Definition check_inline (text path : string) : list ConfigError :=
  check_valid (str_len text <=? MAX_INLINE_BYTES) path "inline text exceeds 256 KiB".

Definition check_inline_texts (c : ConfigV2) : list ConfigError :=
  each (fun before r => match r with
    | HostsConst _ _ hosts => check_inline hosts (field (at_index "hosts" (length before)) "hosts")
    | _ => [] end) (cf_hosts c) ++
  each (fun before r => match r with
    | RuleSetConst _ _ rule => check_inline rule (field (at_index "rule_set" (length before)) "rule")
    | _ => [] end) (cf_rule_set c) ++
  each (fun before u => match u with
    | HostsDto _ _ hosts => check_inline hosts (field (at_index "upstreams" (length before)) "hosts")
    | _ => [] end) (cf_upstreams c).

Definition u32_checked_add (a b : Z) : option Z := if a + b <? 2 ^ 32 then Some (a + b) else None.

Definition check_globals (c : ConfigV2) : list ConfigError :=
  let cache := cache_or_default (cf_dns c) in
  let retention := cf_retention c in
  validate_size (gv_max_size_bytes cache) "dns.cache.memory.max_size_bytes" ++
  check_valid (within_bounds (from_secs 1) (from_secs 300) (gv_failure_ttl cache)) "dns.cache.failure_ttl"
    "failure TTL must be in 1s..=5m" ++
  check_valid (within_bounds (from_secs 1) (from_secs 86400) (gv_negative_ttl_max cache)) "dns.cache.negative_ttl_max"
    "negative TTL max must be in 1s..=1d" ++
  validate_optimistic (gv_optimistic cache) "dns.cache.optimistic" ++
  check_valid (within_bounds (from_secs 1) (from_secs 86400) (sv_snapshot_interval (gv_persistence cache)))
    "dns.cache.persistence.snapshot_interval" "snapshot interval must be in 1s..=1d" ++
  check_valid (is_non_empty_path (sv_path (gv_persistence cache))) "dns.cache.persistence.path" "path is required" ++
  check_valid (is_non_empty_path (db_records_path (cf_database c))) "database.records_path" "path is required" ++
  match dv_ttl_override (cf_dns c) with Some t => validate_ttl t "dns.ttl_override" | None => [] end ++
  validate_ecs (dv_ecs (cf_dns c)) "dns.edns_client_subnet" ++
  check_valid ((0 <? rv_days retention) && (rv_days retention <=? CONFIG_MAX_RETENTION_DAYS)) "statistics.retention.days"
    "days must be in 1..=3650" ++
  check_valid (match u32_checked_add (rv_days retention) (rv_grace_days retention) with
               | Some sum => sum <=? CONFIG_MAX_RETENTION_DAYS | None => false end)
    "statistics.retention.grace_days" "days plus grace_days must not exceed 3650" ++
  validate_size (rv_reference_size_bytes retention) "statistics.retention.reference_size_bytes".

Definition client_id_byte (b : byte) : bool :=
  let z := byte_to_Z b in
  ((48 <=? z) && (z <=? 57)) || ((65 <=? z) && (z <=? 90)) || ((97 <=? z) && (z <=? 122)) ||
  (z =? 45) || (z =? 46) || (z =? 95) || (z =? 126).
Definition valid_client_id (value : string) : bool :=
  within_bounds 1 128 (str_len value) && forallb client_id_byte (str_bytes value).

Definition check_client (c : ConfigV2) (before : list ClientV2) (x : ClientV2) : list ConfigError :=
  let index := length before in
  let path := at_index "clients" index in
  validate_name (cv_name x) (field path "name") ++
  when (bool_decide (cv_name x ∈ cv_name <$> before)) CE_Duplicate (field path "name")
    "duplicate management name or request identity" ++
  when (bool_decide (cv_client_id x ∈ cv_client_id <$> before)) CE_Duplicate (field path "client_id")
    "duplicate management name or request identity" ++
  check_valid (valid_client_id (cv_client_id x)) (field path "client_id")
    "client_id must contain 1..=128 URL unreserved ASCII characters" ++
  check_valid (length (cv_ips x) <=? MAX_CLIENT_IPS)%nat (field path "match.ips") "at most 256 IP ranges are allowed" ++
  each (fun earlier ip => when (bool_decide (ip ∈ (before ≫= cv_ips) ++ earlier)) CE_Duplicate
          (at_index (field path "match.ips") (length earlier)) "duplicate normalized CIDR") (cv_ips x) ++
  validate_client_strategy c (cv_strategy x) index ++
  match cv_cache x with Some o => validate_cache_override o (field path "cache") | None => [] end ++
  match cv_ttl_override x with Some t => validate_ttl t (field path "ttl_override") | None => [] end ++
  validate_ecs (cv_ecs x) (field path "edns_client_subnet").

Definition ConfigV2_validate (c : ConfigV2) : result ConfigErrorReport unit :=
  let report := mk_report (when (negb (cf_version c =? CONFIG_VERSION)) CE_UnsupportedVersion "version"
    "only version 2 is accepted; use a new development directory") [] in
  let report := validate_resources c report in
  let report := mk_report (cr_errors report ++
    check_count (cf_listener c) "listener" ++ check_count (cf_upstreams c) "upstreams" ++
    check_count (cf_strategy c) "strategy" ++ check_count (cf_hosts c) "hosts" ++
    check_count (cf_outbound c) "outbound" ++ check_count (cf_rule_set c) "rule_set" ++
    check_count (cf_clients c) "clients" ++ check_inline_texts c ++ check_globals c ++
    each (check_client c) (cf_clients c)) (cr_warnings report) in
  let report := sort_deterministically report in
  if report_is_empty report then Ok tt else Err report.

(** ** [ConfigV2::resolve_paths] *)

Record V2Paths := mk_v2_paths {
  vp_work : PathBuf;
  vp_statistics : PathBuf;
  vp_records : PathBuf;
  vp_snapshot : PathBuf
}.

Definition single_error (kind : ConfigErrorKind) (path message : string) : ConfigErrorReport :=
  mk_report [config_error kind path message] [].

Definition protected_paths (c : ConfigV2) (source work : PathBuf) : list PathBuf :=
  [lexical_normalize source; path_join work [Normal (lit "config.yaml")];
   lexical_normalize (path_join work (lg_path (cf_logs c)))].

Definition file_path_errors (protected : list PathBuf) (records : PathBuf) (name : string) (path : PathBuf) :
    list ConfigError :=
  check_valid (negb (paths_overlap path records)) name "file overlaps records directory" ++
  check_valid (negb (existsb (paths_overlap path) protected)) name "file overlaps protected configuration or log".

Definition path_errors (protected : list PathBuf) (p : V2Paths) : list ConfigError :=
  file_path_errors protected (vp_records p) "database.path" (vp_statistics p) ++
  file_path_errors protected (vp_records p) "dns.cache.persistence.path" (vp_snapshot p) ++
  check_valid (negb (paths_overlap (vp_statistics p) (vp_snapshot p))) "dns.cache.persistence.path"
    "snapshot overlaps statistics database" ++
  check_valid (negb (existsb (fun q => paths_overlap q (vp_records p)) protected)) "database.records_path"
    "records directory overlaps protected configuration or log".

Definition resolve_paths (c : ConfigV2) (source : PathBuf) : result ConfigErrorReport V2Paths :=
  if negb (is_absolute source) then Err (single_error CE_InvalidValue "source" "absolute source path required")
  else match path_parent source with
  | None => Err (single_error CE_InvalidValue "source" "configuration filename required")
  | Some config_dir =>
    let work := lexical_normalize (path_join config_dir (wk_path (cf_work c))) in
    let resolve path := lexical_normalize (path_join work path) in
    let paths := mk_v2_paths work (resolve (db_path (cf_database c))) (resolve (db_records_path (cf_database c)))
      (resolve (sv_path (gv_persistence (cache_or_default (cf_dns c))))) in
    let errors := path_errors (protected_paths c source work) paths in
    if bool_decide (length errors = 0%nat) then Ok paths else Err (mk_report errors [])
  end.

End Validate.

(** ** Lemmas on validators *)

Lemma when_nil b kind path message : when b kind path message = [] <-> b = false.
Proof. unfold when. by destruct b. Qed.

Lemma check_valid_nil b path message : check_valid b path message = [] <-> b = true.
Proof. unfold check_valid. rewrite when_nil. by destruct b. Qed.

Lemma each_from_nil {A} (f : list A -> A -> list ConfigError) before l :
  each_from f before l = [] <-> forall l1 x l2, l = l1 ++ x :: l2 -> f (before ++ l1) x = [].
Proof.
  revert before. induction l as [|y l IH]; intros before; cbn.
  { split; [intros _ l1 x l2 H; by destruct l1|done]. }
  split.
  - intros [H1 H2]%app_eq_nil l1 x l2 Hl. rewrite IH in H2. destruct l1 as [|z l1]; injection Hl as -> ->.
    + by rewrite app_nil_r.
    + specialize (H2 l1 x l2 eq_refl). by rewrite <- (assoc_L (++)) in H2.
  - intros H. pose proof (H [] y l eq_refl) as E. rewrite app_nil_r in E. rewrite E. cbn.
    apply IH. intros l1 x l2 ->. rewrite <- (assoc_L (++)). by apply (H (y :: l1) x l2).
Qed.

Lemma each_elem {A} (f : list A -> A -> list ConfigError) l x :
  each f l = [] -> x ∈ l -> exists before, f before x = [].
Proof.
  intros H (l1 & l2 & ->)%list_elem_of_split. exists l1. by apply (proj1 (each_from_nil f [] _) H l1 x l2).
Qed.

Lemma each_nodup {A B} `{EqDecision B} (key : A -> B) (f : list A -> A -> list ConfigError) l :
  (forall before x, f before x = [] -> key x ∉ key <$> before) -> each f l = [] -> NoDup (key <$> l).
Proof.
  intros Hf H. unfold each in H. rewrite each_from_nil in H.
  induction l as [|x l IH] using rev_ind; [constructor|].
  rewrite fmap_app. apply list.NoDup_app. split_and!.
  - apply IH. intros l1 y l2 ->. apply (H l1 y (l2 ++ [x])). by rewrite <- (assoc_L (++)).
  - intros k Hk Hx. apply list_elem_of_singleton in Hx as ->. by eapply (Hf l x), Hk; apply (H l x []).
  - apply NoDup_singleton.
Qed.

(** ** Cycle detection finds exactly the cycles *)

Lemma elem_of_dedup x l : x ∈ dedup l <-> x ∈ l.
Proof.
  induction l as [|y [|z l] IH]; [done..|]. change (dedup (y :: z :: l)) with
    (if bool_decide (y = z) then dedup (z :: l) else y :: dedup (z :: l)).
  case_bool_decide; subst; rewrite ?IH; set_solver.
Qed.

Lemma elem_of_sorted_edges x l : x ∈ sorted_edges l <-> x ∈ l.
Proof. unfold sorted_edges. by rewrite elem_of_dedup, sort_by_perm. Qed.

Section Cycles.
Context (g : Graph).

(** From a node to a defined one it names. *)
Definition edge (n m : string) : Prop := exists es, g !! n = Some es /\ m ∈ es /\ is_Some (g !! m).

(** Finished nodes lie on no cycle, and their edges lead to finished nodes. *)
Definition closed (st : Marks) : Prop :=
  forall n, st !! n = Some Finished -> ~ tc edge n n /\ forall m, edge n m -> st !! m = Some Finished.

Record visited (st st' : Marks) (errs : list ConfigError) : Prop := {
  vi_keeps : forall n m, st !! n = Some m -> st' !! n = Some m;
  vi_new : forall n, st !! n = None -> st' !! n = None \/ st' !! n = Some Finished /\ is_Some (g !! n);
  vi_closed : errs = [] -> closed st -> closed st';
  vi_cycle : errs <> [] -> exists n, tc edge n n
}.

Definition marks_ok (st : Marks) : Prop := forall n, is_Some (st !! n) -> is_Some (g !! n).

Lemma visited_refl st : visited st st [].
Proof. constructor; auto. done. Qed.

Lemma visited_trans st1 st2 st3 e1 e2 : visited st1 st2 e1 -> visited st2 st3 e2 -> visited st1 st3 (e1 ++ e2).
Proof.
  intros [K1 N1 C1 Y1] [K2 N2 C2 Y2]. constructor.
  - eauto.
  - intros n Hn. destruct (N1 n Hn) as [H|[H ?]]; [by apply N2|right; eauto].
  - intros [-> ->]%app_eq_nil ?. auto.
  - intros H. destruct e1; [by apply Y2|by apply Y1].
Qed.

Lemma visited_marks st st' errs : visited st st' errs -> marks_ok st -> marks_ok st'.
Proof.
  intros V M n [m Hm]. destruct (st !! n) as [m'|] eqn:E; [apply M; by eexists|].
  destruct (vi_new _ _ _ V n E) as [?|[_ ?]]; [congruence|done].
Qed.

Lemma visited_size st st' errs : visited st st' errs -> (size st <= size st')%nat.
Proof.
  intros V. rewrite <- !size_dom. apply subseteq_size. intros n [m Hm]%elem_of_dom.
  apply elem_of_dom. eexists. by apply (vi_keeps _ _ _ V).
Qed.

Lemma marks_size st : marks_ok st -> (size st <= size g)%nat.
Proof. intros M. rewrite <- !size_dom. apply subseteq_size. intros n ?%elem_of_dom. by apply elem_of_dom, M. Qed.

Lemma tc_step_back n m : tc edge n m -> exists k, edge n k /\ (k = m \/ tc edge k m).
Proof. destruct 1; eauto. Qed.

Lemma closed_tc st n m : closed st -> st !! n = Some Finished -> tc edge n m -> st !! m = Some Finished.
Proof.
  intros C Hn H. revert Hn. induction H as [x y H|x y z H _ IH]; intros Hx; [by apply (C x)|].
  apply IH. by apply (C x).
Qed.

Definition spec (fuel : nat) : Prop := forall node st stack,
  is_Some (g !! node) -> marks_ok st -> (forall k, st !! k = Some InProgress -> tc edge k node) ->
  (size g < fuel + size st)%nat ->
  exists st' errs, visit fuel g node st stack = Some (st', errs) /\ visited st st' errs /\
    (errs = [] -> st' !! node = Some Finished).

Lemma visit_edges_spec fuel node stack es :
  spec fuel -> forall st errs,
  (forall e, e ∈ es -> is_Some (g !! e) -> edge node e) -> marks_ok st ->
  st !! node = Some InProgress -> (forall k, st !! k = Some InProgress -> k = node \/ tc edge k node) ->
  (size g < fuel + size st)%nat ->
  exists st' more, visit_edges g (fun e st => visit fuel g e st stack) es st errs = Some (st', errs ++ more) /\
    visited st st' more /\ (more = [] -> forall e, e ∈ es -> is_Some (g !! e) -> st' !! e = Some Finished).
Proof.
  intros IH. induction es as [|e es IHes]; intros st errs He M Hn Hk Hf; cbn [visit_edges].
  { exists st, []. rewrite app_nil_r. split_and!; [done|apply visited_refl|set_solver]. }
  case_bool_decide as Hg.
  - destruct (IH e st stack Hg M) as (st1 & e1 & -> & V1 & F1); [|done|].
    { intros k Hp. assert (edge node e) by (apply He; [left|done]).
      destruct (Hk k Hp) as [->|?]; [by constructor|]. eapply tc_r; eauto. }
    cbn [mbind option_bind].
    destruct (IHes st1 (errs ++ e1)) as (st2 & e2 & -> & V2 & F2).
    + intros e' ? ?. apply He; [by right|done].
    + by eapply visited_marks.
    + by apply (vi_keeps _ _ _ V1).
    + intros k Hp. apply Hk. destruct (st !! k) as [m|] eqn:E.
      * apply (vi_keeps _ _ _ V1) in E. congruence.
      * destruct (vi_new _ _ _ V1 k E) as [?|[? _]]; congruence.
    + pose proof (visited_size _ _ _ V1). lia.
    + exists st2, (e1 ++ e2). rewrite (assoc_L (++)). split_and!; [done|by eapply visited_trans|].
      intros [-> ->]%app_eq_nil e' [->|?]%elem_of_cons ?; [|by apply F2].
      by apply (vi_keeps _ _ _ V2), F1.
  - destruct (IHes st errs) as (st2 & e2 & -> & V2 & F2); [|done..|].
    { intros e' ? ?. apply He; [by right|done]. }
    exists st2, e2. split_and!; [done|done|].
    intros -> e' [->|?]%elem_of_cons ?; [done|by apply F2].
Qed.

Lemma closed_start st node : st !! node = None -> closed st -> closed (<[node := InProgress]> st).
Proof.
  intros Hn C n Hf. assert (n <> node) by (intros ->; by rewrite lookup_insert_eq in Hf).
  rewrite lookup_insert_ne in Hf by done. destruct (C n Hf) as [H1 H2]. split; [done|].
  intros m Hm. specialize (H2 m Hm). rewrite lookup_insert_ne; [done|]. intros ->. congruence.
Qed.

Lemma closed_finish st node :
  st !! node = Some InProgress -> closed st -> (forall e, edge node e -> st !! e = Some Finished) ->
  closed (<[node := Finished]> st).
Proof.
  intros Hn C He n Hf.
  assert (Hup : forall m, st !! m = Some Finished -> <[node := Finished]> st !! m = Some Finished).
  { intros m Hm. rewrite lookup_insert_ne; [done|]. intros ->. congruence. }
  destruct (decide (n = node)) as [->|Hne].
  - split; [|intros m Hm; by apply Hup, He]. intros (k & Hk & Hc)%tc_step_back.
    assert (st !! node = Some Finished); [|congruence].
    destruct Hc as [->|Hc]; [by apply He|]. eapply closed_tc; [done|by apply He|done].
  - rewrite lookup_insert_ne in Hf by done. destruct (C n Hf) as [H1 H2]. split; [done|].
    intros m Hm. by apply Hup, H2.
Qed.

Lemma visit_spec fuel : spec fuel.
Proof.
  induction fuel as [|fuel IH]; intros node st stack Hg M Hk Hf; cbn [visit];
    (destruct (st !! node) as [[]|] eqn:Hn;
     [exists st, [cycle_error node stack]; split_and!; [done| |done];
      constructor; [done|auto|done|intros _; exists node; by apply Hk]
     |exists st, []; split_and!; [done|apply visited_refl|done]|]).
  - pose proof (marks_size st M). lia.
  - assert (M1 : marks_ok (<[node := InProgress]> st)).
    { intros n. destruct (decide (n = node)) as [->|]; [done|]. rewrite lookup_insert_ne by done. apply M. }
    destruct (visit_edges_spec fuel node (stack ++ [node]) (sorted_edges (default [] (g !! node))) IH
      (<[node := InProgress]> st) []) as (st1 & errs & -> & V & F).
    + intros e He ?. rewrite elem_of_sorted_edges in He. destruct Hg as [es Hes]. rewrite Hes in He. exists es. split; [done|]. split; [exact He|done].
    + done.
    + by rewrite lookup_insert_eq.
    + intros k. destruct (decide (k = node)) as [->|]; [by left|]. rewrite lookup_insert_ne by done. right. auto.
    + rewrite map_size_insert_None by done. lia.
    + cbn. exists (<[node := Finished]> st1), errs. split_and!; [done| |intros _; by rewrite lookup_insert_eq].
      assert (H1 : st1 !! node = Some InProgress) by (apply (vi_keeps _ _ _ V); by rewrite lookup_insert_eq).
      constructor.
      * intros n m Hm. assert (n <> node) by congruence. rewrite lookup_insert_ne by done.
        apply (vi_keeps _ _ _ V). by rewrite lookup_insert_ne.
      * intros n Hm. destruct (decide (n = node)) as [->|]; [right; by rewrite lookup_insert_eq|].
        rewrite lookup_insert_ne by done. apply (vi_new _ _ _ V). by rewrite lookup_insert_ne.
      * intros -> C. apply closed_finish; [done|by apply (vi_closed _ _ _ V), closed_start|].
        intros e (es & Hes & He & Hge). apply F; [done| |done].
        rewrite elem_of_sorted_edges. by rewrite Hes.
      * apply (vi_cycle _ _ _ V).
Qed.

Lemma visit_all_spec fuel nodes st errs :
  Forall (fun n => is_Some (g !! n)) nodes -> marks_ok st -> (forall k, st !! k <> Some InProgress) ->
  (size g < fuel + size st)%nat ->
  exists st' more, visit_all fuel g nodes st errs = Some (errs ++ more) /\ visited st st' more /\
    (more = [] -> Forall (fun n => st' !! n = Some Finished) nodes).
Proof.
  intros Hn. revert st errs. induction Hn as [|n nodes Hg _ IH]; intros st errs M Hp Hf; cbn [visit_all].
  { exists st, []. rewrite app_nil_r. split_and!; [done|apply visited_refl|constructor]. }
  destruct (visit_spec fuel n st [] Hg M) as (st1 & e1 & -> & V1 & F1); [intros k ?; by destruct (Hp k)|done|].
  cbn [mbind option_bind]. destruct (IH st1 (errs ++ e1)) as (st2 & e2 & -> & V2 & F2).
  - by eapply visited_marks.
  - intros k Hk. destruct (st !! k) as [m|] eqn:E.
    + pose proof (vi_keeps _ _ _ V1 _ _ E). apply (Hp k). congruence.
    + destruct (vi_new _ _ _ V1 k E) as [?|[? _]]; congruence.
  - pose proof (visited_size _ _ _ V1). lia.
  - exists st2, (e1 ++ e2). rewrite (assoc_L (++)). split_and!; [done|by eapply visited_trans|].
    intros [-> ->]%app_eq_nil. constructor; [by apply (vi_keeps _ _ _ V2), F1|by apply F2].
Qed.

Lemma graph_keys_elem n : n ∈ graph_keys g <-> is_Some (g !! n).
Proof.
  unfold graph_keys. rewrite sort_by_perm, list_elem_of_fmap. split.
  - intros ([k es] & -> & H%elem_of_map_to_list). by eexists.
  - intros [es H]. exists (n, es). split; [done|]. by apply elem_of_map_to_list.
Qed.

Lemma visit_all_exact : exists errs,
  visit_all (S (size g)) g (graph_keys g) ∅ [] = Some errs /\ (errs = [] <-> forall n, ~ tc edge n n).
Proof.
  destruct (visit_all_spec (S (size g)) (graph_keys g) ∅ []) as (st & errs & -> & V & F).
  - apply list.Forall_forall. intros n. by apply graph_keys_elem.
  - intros n [m Hm]. by rewrite lookup_empty in Hm.
  - intros k. by rewrite lookup_empty.
  - rewrite map_size_empty. lia.
  - exists errs. split; [done|]. split.
    + intros -> n Hc. assert (Hg : is_Some (g !! n)).
      { destruct (tc_step_back n n Hc) as (k & (es & Hes & _) & _). by eexists. }
      apply (vi_closed _ _ _ V eq_refl) with n; [|by apply (proj1 (list.Forall_forall _ _) (F eq_refl)), graph_keys_elem|done].
      intros k Hk. by rewrite lookup_empty in Hk.
    + intros H. destruct errs as [|e errs]; [done|]. destruct (vi_cycle _ _ _ V) as [n Hn]; [done|]. by destruct (H n).
Qed.
End Cycles.

(** ** Pairs of entries *)

(** No two elements are related, in either order. *)
Inductive pairwise {A} (R : A -> A -> Prop) : list A -> Prop :=
| pairwise_nil : pairwise R []
| pairwise_cons x l : Forall (R x) l -> pairwise R l -> pairwise R (x :: l).

Lemma pairwise_perm {A} (R : A -> A -> Prop) `{!Symmetric R} l l' : l ≡ₚ l' -> pairwise R l -> pairwise R l'.
Proof.
  induction 1 as [|x l l' Hp IH|x y l|l1 l2 l3 _ IH1 _ IH2]; intros H.
  - done.
  - inversion H as [|? ? Hx Hl]; subst. constructor; [by rewrite <- Hp|by apply IH].
  - inversion H as [|? ? Hy Hl]; subst. inversion Hl as [|? ? Hx Hl']; subst.
    apply Forall_cons_iff in Hy as [Hyx Hy]. repeat constructor; auto.
  - auto.
Qed.

Lemma pairwise_lookup {A} (R : A -> A -> Prop) `{!Symmetric R} l i j x y :
  pairwise R l -> l !! i = Some x -> l !! j = Some y -> i <> j -> R x y.
Proof.
  intros H. revert i j. induction H as [|z l Hz _ IH]; intros i j Hi Hj Hne; [done|].
  rewrite list.Forall_forall in Hz.
  destruct i as [|i], j as [|j]; cbn in Hi, Hj; [done|..].
  - injection Hi as ->. apply Hz. by eapply list_elem_of_lookup_2.
  - injection Hj as ->. symmetry. apply Hz. by eapply list_elem_of_lookup_2.
  - eapply IH; [done..|]. congruence.
Qed.

Lemma bind_nil_Forall {A B} (f : A -> list B) l : l ≫= f = [] <-> Forall (fun x => f x = []) l.
Proof.
  induction l as [|x l IH]; cbn; [split; [constructor|done]|]. rewrite Forall_cons_iff, <- IH.
  split; [intros [? ?]%app_eq_nil; done|intros [-> H]; exact H].
Qed.

Definition separate (a b : BindEntry) : Prop := binds_conflict a b = false.

#[global] Instance separate_sym : Symmetric separate.
Proof.
  intros a b. unfold separate, binds_conflict. intros H. rewrite <- H.
  rewrite (bool_decide_ext _ (be_protocol a = be_protocol b)) by (split; congruence).
  rewrite (Z.eqb_sym (be_port b)). f_equal.
  unfold addresses_overlap. destruct (be_address a) as [x|x], (be_address b) as [y|y]; try done;
    rewrite (Z.eqb_sym y x); by destruct (x =? y), (x =? 0), (y =? 0).
Qed.

Lemma entry_conflicts_nil l : entry_conflicts l = [] <-> pairwise separate l.
Proof.
  induction l as [|e l IH]; cbn; [split; [constructor|done]|]. split.
  - intros [H1 H2]%app_eq_nil. apply bind_nil_Forall in H1. constructor; [|by apply IH].
    eapply list.Forall_impl; [exact H1|]. cbn. intros x Hx. by apply when_nil in Hx.
  - intros H. inversion H as [|? ? Hx Hl]; subst. rewrite (proj2 IH Hl), app_nil_r. apply bind_nil_Forall.
    eapply list.Forall_impl; [exact Hx|]. cbn. intros x ?. by apply when_nil.
Qed.

Lemma sort_by_nil {A} (compare : A -> A -> comparison) l : sort_by compare l = [] <-> l = [].
Proof.
  split; [|by intros ->]. intros H. pose proof (sort_by_perm compare l) as Hp. rewrite H in Hp.
  by apply Permutation_nil_l in Hp.
Qed.

Section BindPlan.
Context {IN : IpNetOps}.

(** The web interface listens on a TCP address no entry of the plan takes. *)
Definition webui_free (w : WebUiDto) (plan : list BindEntry) : Prop :=
  ui_enable w = true -> Forall (fun e => be_protocol e = BP_Tcp -> be_port e = ui_port w ->
    addresses_overlap (be_address e) (ui_address w) = false) plan.

Lemma webui_conflicts_nil w l : webui_conflicts w l = [] <-> webui_free w l.
Proof.
  unfold webui_conflicts, webui_free. destruct (ui_enable w); [|done].
  rewrite bind_nil_Forall. split.
  - intros H _. eapply list.Forall_impl; [exact H|]. cbn. intros e He. apply when_nil in He. intros Hp Hq.
    rewrite bool_decide_eq_true_2, Hq, Z.eqb_refl in He by done. done.
  - intros H. eapply list.Forall_impl; [exact (H eq_refl)|]. cbn. intros e He. apply when_nil.
    case_bool_decide; cbn; [|done]. destruct (Z.eqb_spec (be_port e) (ui_port w)); cbn; auto.
Qed.

Lemma bind_plan_iff c plan :
  build_resource_bind_plan c = Ok plan <->
  plan = sort_by bind_compare (all_entries 0 (cf_listener c)) /\
  pairwise separate (all_entries 0 (cf_listener c)) /\ webui_free (cf_webui c) (all_entries 0 (cf_listener c)).
Proof.
  unfold build_resource_bind_plan, report_is_empty, sort_deterministically. cbn [cr_errors cr_warnings].
  case_bool_decide as H; rewrite sort_by_nil in H.
  - apply app_eq_nil in H as [H1 H2]. apply entry_conflicts_nil in H1. apply webui_conflicts_nil in H2.
    split; [by intros [= <-]|by intros (-> & _)].
  - split; [done|]. intros (_ & H1 & H2). destruct H.
    by rewrite (proj2 (entry_conflicts_nil _) H1), (proj2 (webui_conflicts_nil _ _) H2).
Qed.

(** *** What a plan must be, without the code's own tests *)

(** The destinations a bound address receives on: itself, and for the unspecified address
    every address of its family (an IPv6 socket takes no IPv4 traffic: [be_v6_only]). *)
Inductive receives : IpAddr -> IpAddr -> Prop :=
| receives_own a : receives a a
| receives_any_v4 a : receives (V4 0) (V4 a)
| receives_any_v6 a : receives (V6 0) (V6 a).

Abbreviation Socket := (BindProtocol * IpAddr * Z)%type.

(** Two sockets compete when there is a destination both would receive on. *)
Definition compete (s t : Socket) : Prop :=
  s.1.1 = t.1.1 /\ s.2 = t.2 /\ exists dst, receives s.1.2 dst /\ receives t.1.2 dst.

(** The sockets a listener asks for, with what is served on them. *)
Definition requested (l : ListenerDto) : list (BindTransport * option DohBindingRef * Socket) :=
  match l with
  | UdpDto _ addresses port _ _ => (fun a => (BT_Udp, None, (BP_Udp, a, port))) <$> addresses
  | TcpDto _ addresses port _ _ => (fun a => (BT_Tcp, None, (BP_Tcp, a, port))) <$> addresses
  | DohDto name _ endpoints =>
    endpoints ≫= fun e =>
      (fun a => (BT_Doh, Some (mk_binding name (de_name e)), (BP_Tcp, a, de_port e))) <$> de_addresses e
  end.

Definition socket (e : BindEntry) : Socket := (be_protocol e, be_address e, be_port e).
Definition served (e : BindEntry) : BindTransport * option DohBindingRef * Socket :=
  (be_transport e, be_doh_binding e, socket e).
Definition webui_socket (w : WebUiDto) : Socket := (BP_Tcp, ui_address w, ui_port w).

Lemma overlap_receives a b : addresses_overlap a b = true <-> exists dst, receives a dst /\ receives b dst.
Proof.
  split.
  - destruct a as [x|x], b as [y|y]; cbn; try done;
      rewrite !orb_true_iff, !Z.eqb_eq; intros [[-> | ->]| ->]; eexists; split; constructor.
  - intros (dst & Ha & Hb). destruct Ha as [a|a|a]; inversion Hb; subst; cbn; rewrite ?Z.eqb_refl, ?orb_true_r;
      try done. by destruct a as [x|x]; cbn; rewrite Z.eqb_refl.
Qed.

Lemma binds_conflict_compete a b : binds_conflict a b = true <-> compete (socket a) (socket b).
Proof.
  unfold binds_conflict, compete. cbn. rewrite !andb_true_iff, bool_decide_eq_true, Z.eqb_eq, overlap_receives. naive_solver.
Qed.

Lemma entries_served i l : served <$> all_entries i l = l ≫= requested.
Proof.
  revert i. induction l as [|x l IH]; intros i; cbn; [done|]. rewrite fmap_app, IH. f_equal.
  destruct x as [name addresses port st h|name addresses port st h|name routes endpoints]; cbn.
  1, 2: unfold bind_entries; by rewrite <- list_fmap_compose.
  induction endpoints as [|e es IHe]; cbn; [done|]. rewrite fmap_app, IHe. f_equal.
  unfold bind_entries. by rewrite <- list_fmap_compose.
Qed.

Lemma entry_conflicts_pair l : entry_conflicts l <> [] ->
  exists i j a b, i <> j /\ l !! i = Some a /\ l !! j = Some b /\ binds_conflict a b = true.
Proof.
  induction l as [|e l IH]; cbn; [done|]. intros H.
  destruct (decide (entry_conflicts l = [])) as [Hl|Hl].
  2:{ destruct (IH Hl) as (i & j & a & b & Hne & Hi & Hj & Hc). exists (S i), (S j), a, b. split_and!; auto. }
  rewrite Hl, app_nil_r, bind_nil_Forall in H. apply not_Forall_Exists in H; [|intros x; apply _].
  apply Exists_exists in H as (x & Hx%list_elem_of_In & Hc). apply list_elem_of_lookup in Hx as [j Hj].
  exists 0%nat, (S j), e, x. split_and!; [done|done|done|]. cbn in Hc. destruct (binds_conflict e x) eqn:E; [done|].
  by destruct Hc.
Qed.

Lemma webui_conflicts_some w l : webui_conflicts w l <> [] ->
  ui_enable w = true /\ exists e, e ∈ l /\ compete (socket e) (webui_socket w).
Proof.
  unfold webui_conflicts. destruct (ui_enable w); [|done]. rewrite bind_nil_Forall. intros H. split; [done|].
  apply not_Forall_Exists in H; [|intros x; apply _]. apply Exists_exists in H as (x & Hx%list_elem_of_In & Hc).
  exists x. split; [done|]. cbn in Hc. destruct (_ && _) eqn:E in Hc; [|by destruct Hc].
  rewrite !andb_true_iff, bool_decide_eq_true, Z.eqb_eq, overlap_receives in E. unfold compete. cbn. naive_solver.
Qed.

Lemma webui_free_compete w l : webui_free w l -> ui_enable w = true ->
  forall e, e ∈ l -> ~ compete (socket e) (webui_socket w).
Proof.
  intros H Hw e He (Hp & Hq & Hd%overlap_receives). specialize (H Hw). rewrite list.Forall_forall in H.
  cbn in *. by rewrite (H e He Hp Hq) in Hd.
Qed.

Lemma entries_v6_only i l : Forall (fun e => be_v6_only e = is_ipv6 (be_address e)) (all_entries i l).
Proof.
  assert (Hb : forall p t b o addrs port, Forall (fun e => be_v6_only e = is_ipv6 (be_address e)) (bind_entries p t b o addrs port)).
  { intros. unfold bind_entries. apply list.Forall_fmap, list.Forall_true. done. }
  revert i. induction l as [|x l IH]; intros i; cbn; [constructor|]. apply list.Forall_app. split; [|apply IH].
  destruct x as [name addresses port st h|name addresses port st h|name routes endpoints]; cbn; [apply Hb..|].
  induction endpoints as [|e es IHe]; cbn; [constructor|]. apply list.Forall_app. split; [apply Hb|exact IHe].
Qed.

(** C26: Binding: the plan of a document serves exactly the sockets its listeners ask for,
    every address of a UDP or TCP listener and of every endpoint of a DoH listener; no two
    entries of it could receive on the same destination of a protocol and port, the
    unspecified address receiving on all of its family; and none could take the traffic of
    an enabled web interface. A plan is refused only when two of the sockets asked for, or
    one of them and the web interface, do compete. *)
Theorem bind_plan_spec c :
  let wanted := cf_listener c ≫= requested in
  match build_resource_bind_plan c with
  | Ok plan =>
    served <$> plan ≡ₚ wanted /\
    Forall (fun e => be_v6_only e = true <-> exists a, be_address e = V6 a) plan /\
    (forall i j a b, plan !! i = Some a -> plan !! j = Some b -> i <> j -> ~ compete (socket a) (socket b)) /\
    (ui_enable (cf_webui c) = true -> forall e, e ∈ plan -> ~ compete (socket e) (webui_socket (cf_webui c)))
  | Err report =>
    cr_errors report <> [] /\
    ((exists i j x y, i <> j /\ wanted !! i = Some x /\ wanted !! j = Some y /\ compete x.2 y.2) \/
     (ui_enable (cf_webui c) = true /\ exists x, x ∈ wanted /\ compete x.2 (webui_socket (cf_webui c))))
  end.
Proof.
  cbv zeta. pose proof (entries_served 0 (cf_listener c)) as Hw.
  destruct (build_resource_bind_plan c) as [plan|report] eqn:E.
  - apply bind_plan_iff in E as (-> & Hp & Hf). pose proof (sort_by_perm bind_compare (all_entries 0 (cf_listener c))) as P.
    split_and!.
    + by rewrite P, Hw.
    + rewrite P. eapply list.Forall_impl; [apply entries_v6_only|]. intros e ->.
      destruct (be_address e); cbn; naive_solver.
    + intros i j a b Hi Hj Hne Hc%binds_conflict_compete.
      assert (Hs : separate a b) by (eapply (pairwise_lookup separate _ i j); [apply (pairwise_perm separate _ _ (symmetry P) Hp)|done..]).
      unfold separate in Hs. congruence.
    + intros He e Hin. rewrite P in Hin. by eapply webui_free_compete.
  - revert E. unfold build_resource_bind_plan, report_is_empty, sort_deterministically. cbn [cr_errors cr_warnings].
    case_bool_decide as H; [done|]. intros [= <-]. cbn [cr_errors]. split; [done|]. rewrite sort_by_nil in H.
    rewrite <- Hw. destruct (decide (entry_conflicts (all_entries 0 (cf_listener c)) = [])) as [H1|H1].
    + right. rewrite H1 in H. apply webui_conflicts_some in H as (He & e & Hin & Hc). split; [done|].
      exists (served e). split; [by apply list_elem_of_fmap_2|done].
    + left. apply entry_conflicts_pair in H1 as (i & j & a & b & Hne & Hi & Hj & Hc).
      exists i, j, (served a), (served b). rewrite !list_lookup_fmap, Hi, Hj. split_and!; [done..|].
      by apply binds_conflict_compete.
Qed.
End BindPlan.

(** ** The paths of the data *)

Lemma paths_overlap_clean p q : clean_path p -> clean_path q ->
  paths_overlap p q = false <-> ~ p `prefix_of` q /\ ~ q `prefix_of` p.
Proof.
  intros Hp Hq. unfold paths_overlap, path_key, path_starts_with. rewrite (normalize_id p Hp), (normalize_id q Hq).
  rewrite orb_false_iff, !bool_decide_eq_false. tauto.
Qed.

Lemma existsb_none {A} (f : A -> bool) l : existsb f l = false <-> Forall (fun x => f x = false) l.
Proof.
  induction l as [|x l IH]; cbn; [split; [constructor|done]|]. rewrite orb_false_iff, Forall_cons_iff. tauto.
Qed.

(** Neither path lies in the other. *)
Definition apart (p q : PathBuf) : Prop := ~ p `prefix_of` q /\ ~ q `prefix_of` p.

Section Paths.
Context {IN : IpNetOps}.

(** C27: Data files: when the paths of a document are accepted, each of them is absolute and
    made of names only, and the statistics database, the cache snapshot and the directory
    of the records lie outside of each other and of the configuration file, its copy in
    the work directory and the log, so that none can overwrite or hide another. *)
Theorem data_paths_apart c source p :
  resolve_paths c source = Ok p ->
  Forall clean_path [vp_work p; vp_statistics p; vp_records p; vp_snapshot p] /\
  pairwise apart [vp_statistics p; vp_snapshot p; vp_records p] /\
  Forall (fun q => Forall (apart q) (protected_paths c source (vp_work p)))
    [vp_statistics p; vp_snapshot p; vp_records p].
Proof.
  unfold resolve_paths. destruct (is_absolute source) eqn:Ha; [|done]. cbn [negb].
  destruct (path_parent source) as [dir|] eqn:Hd; [|done].
  pose proof (parent_absolute _ _ Ha Hd) as Hdir.
  set (work := lexical_normalize (path_join dir (wk_path (cf_work c)))).
  assert (Hw : clean_path work) by (by apply normalize_clean, join_absolute).
  pose proof (clean_absolute _ Hw) as Hwa.
  assert (Hr : forall q, clean_path (lexical_normalize (path_join work q))) by (intros q; by apply normalize_clean, join_absolute).
  assert (Hprot : Forall clean_path (protected_paths c source work)).
  { destruct Hw as (names & Hn). unfold protected_paths. repeat constructor; [by apply normalize_clean| |apply Hr].
    rewrite Hn. exists (names ++ [lit "config.yaml"]). by rewrite fmap_app. }
  case_bool_decide as He; [|done]. intros [= <-]. apply length_zero_iff_nil in He.
  unfold path_errors, file_path_errors in He. cbn [vp_work vp_statistics vp_records vp_snapshot] in *.
  repeat match goal with H : _ ++ _ = [] |- _ => apply app_eq_nil in H as [? ?] end.
  repeat match goal with H : check_valid _ _ _ = [] |- _ => apply check_valid_nil, negb_true_iff in H end.
  repeat match goal with H : paths_overlap _ _ = false |- _ => apply paths_overlap_clean in H; [|apply Hr..] end.
  repeat match goal with H : existsb _ _ = false |- _ => apply existsb_none in H end.
  assert (Hap : forall q, Forall (fun x => paths_overlap (lexical_normalize (path_join work q)) x = false)
      (protected_paths c source work) -> Forall (apart (lexical_normalize (path_join work q))) (protected_paths c source work)).
  { intros q Hq. rewrite list.Forall_forall in Hq, Hprot |- *. intros x Hx. apply paths_overlap_clean; auto. }
  split_and!.
  - repeat constructor; auto.
  - repeat constructor; auto; unfold apart; tauto.
  - do 2 (constructor; [by apply Hap|]). constructor; [|constructor]. rewrite list.Forall_forall in *. intros x Hx.
    match goal with H : forall x, x ∈ _ -> paths_overlap x _ = false |- _ => specialize (H x Hx) end.
    rewrite paths_overlap_clean in * by auto. unfold apart. tauto.
Qed.
End Paths.

(** ** Upstreams that refer to themselves *)

Section UpstreamCycles.
Context {IN : IpNetOps}.

(** [n] and [m] are upstreams of the document, and the first needs the second: as the
    resolver of its host name, or as a member of its group. *)
Definition needs (l : list UpstreamDto) (n m : string) : Prop :=
  exists u v, u ∈ l /\ v ∈ l /\ upstream_name u = n /\ upstream_name v = m /\ m ∈ upstream_edges u.

Lemma graph_lookup l n es :
  NoDup (upstream_name <$> l) ->
  upstream_graph l !! n = Some es <-> exists u, u ∈ l /\ upstream_name u = n /\ upstream_edges u = es.
Proof.
  unfold upstream_graph. induction l as [|x l IH] using rev_ind; intros Hd; cbn; [set_solver|].
  rewrite foldl_app. cbn. rewrite fmap_app in Hd. apply list.NoDup_app in Hd as (Hd & Hx & _).
  destruct (decide (n = upstream_name x)) as [->|Hne].
  - rewrite lookup_insert_eq. split.
    + intros [= <-]. exists x. set_solver.
    + intros (u & [Hu|Hu%list_elem_of_singleton]%elem_of_app & Hn & <-); [|by subst].
      exfalso. apply (Hx (upstream_name x)); [|set_solver]. apply list_elem_of_fmap. by exists u.
  - rewrite lookup_insert_ne by done. rewrite IH by done. split; [set_solver|].
    intros (u & [Hu|Hu%list_elem_of_singleton]%elem_of_app & Hn & <-); [by exists u|by subst].
Qed.

Lemma edge_needs l n m : NoDup (upstream_name <$> l) -> edge (upstream_graph l) n m <-> needs l n m.
Proof.
  intros Hd. unfold edge, needs. split.
  - intros (es & Hes & Hm & (es' & Hm')). rewrite graph_lookup in Hes, Hm' by done.
    destruct Hes as (u & ? & ? & <-), Hm' as (v & ? & ? & _). by exists u, v.
  - intros (u & v & Hu & Hv & Hn & Hm & He). exists (upstream_edges u). split_and!; [|done|].
    + apply graph_lookup; [done|]. by exists u.
    + exists (upstream_edges v). apply graph_lookup; [done|]. by exists v.
Qed.

Lemma tc_mono {A} (R S : A -> A -> Prop) x y : (forall x y, R x y -> S x y) -> tc R x y -> tc S x y.
Proof. intros H. induction 1; [apply tc_once|eapply tc_l]; eauto. Qed.

Lemma tc_equiv {A} (R S : A -> A -> Prop) x y : (forall x y, R x y <-> S x y) -> tc R x y <-> tc S x y.
Proof. intros H. split; apply tc_mono; intros; by apply H. Qed.

Lemma cycles_graph l : validate_upstream_cycles l = [] <-> forall n, ~ tc (edge (upstream_graph l)) n n.
Proof.
  unfold validate_upstream_cycles. destruct (visit_all_exact (upstream_graph l)) as (errs & -> & H). exact H.
Qed.

(** C10: Cycles: among upstreams with different names, the search reports nothing exactly when
    no upstream needs itself, directly or through others. The depth bound of the search is
    enough. *)
Theorem upstream_cycles_exact l :
  NoDup (upstream_name <$> l) ->
  validate_upstream_cycles l = [] <-> forall n, ~ tc (needs l) n n.
Proof.
  intros Hd. rewrite cycles_graph. split; intros H n Hn; apply (H n);
    (eapply tc_equiv; [|exact Hn]); intros; [|symmetry]; by apply edge_needs.
Qed.

End UpstreamCycles.

(** ** What acceptance gives *)

Section Accepted.
Context (Url_parse : chars -> option Url) {IN : IpNetOps}.

Record accepted (c : ConfigV2) : Prop := {
  ac_version : cf_version c = CONFIG_VERSION;
  ac_startup : validate_startup c = [];
  ac_collections : validate_collections Url_parse c = [];
  ac_references : validate_references c = [];
  ac_cycles : validate_upstream_cycles (cf_upstreams c) = [];
  ac_bind : exists plan, build_resource_bind_plan c = Ok plan;
  ac_globals : check_globals c = [];
  ac_clients : each (check_client c) (cf_clients c) = []
}.

Lemma validate_accepted c : ConfigV2_validate Url_parse c = Ok tt -> accepted c.
Proof.
  unfold ConfigV2_validate, report_is_empty, sort_deterministically. cbn [cr_errors cr_warnings].
  case_bool_decide as H; [|done]. intros _. rewrite sort_by_nil in H. apply app_eq_nil in H as [H1 H2].
  do 9 (apply app_eq_nil in H2 as [? H2]).
  unfold validate_resources in H1. cbn [cr_errors cr_warnings] in H1.
  assert (Hplan : exists plan, build_resource_bind_plan c = Ok plan).
  { pose proof (bind_plan_spec c) as Hs. destruct (build_resource_bind_plan c) as [plan|r]; [by eexists|].
    exfalso. destruct Hs as [Hne _]. cbn in H1. by apply app_eq_nil in H1 as [_ ?]. }
  destruct Hplan as [plan Hplan]. rewrite Hplan in H1. cbn in H1.
  apply app_eq_nil in H1 as [Hv H1]. do 3 (apply app_eq_nil in H1 as [? H1]).
  constructor; try done; [|by exists plan]. apply when_nil, negb_false_iff, Z.eqb_eq in Hv. done.
Qed.

Lemma validate_name_ok name path : validate_name name path = [] -> config_id_ok name = true.
Proof.
  unfold validate_name. destruct (_ || _); [done|]. rewrite when_nil. by intros ->%negb_false_iff.
Qed.

Lemma namespace_ok {A} path duplicate (name : A -> string) check l :
  validate_namespace path duplicate name check l = [] ->
  NoDup (name <$> l) /\ Forall (fun x => config_id_ok (name x) = true /\ exists p, check x p = []) l.
Proof.
  intros H. split.
  - eapply each_nodup; [|exact H]. cbn. intros before x [_ [Hd _]%app_eq_nil]%app_eq_nil.
    by apply when_nil, bool_decide_eq_false in Hd.
  - apply list.Forall_forall. intros x Hx. destruct (each_elem _ _ _ H Hx) as (before & Hb). cbn in Hb.
    apply app_eq_nil in Hb as [Hn [_ Hc]%app_eq_nil]. split; [by eapply validate_name_ok|by eexists].
Qed.

Lemma check_reference_ok c value path expected target :
  check_reference c value path expected target = [] -> value ∈ target.
Proof. unfold check_reference. by case_bool_decide. Qed.

Lemma check_option_ok c value path expected target v :
  check_option c value path expected target = [] -> value = Some v -> v ∈ target.
Proof. intros H ->. by eapply check_reference_ok. Qed.

Lemma check_members_ok c members path :
  member_references c members path = [] -> Forall (fun m => member_name m ∈ upstream_name <$> cf_upstreams c) members.
Proof.
  intros H. apply list.Forall_forall. intros m Hm. destruct (each_elem _ _ _ H Hm) as (before & Hb).
  by eapply check_reference_ok.
Qed.
End Accepted.

(** ** Examples *)

Module ConfigExamples.

(** Networks that are single addresses. *)
#[export] Instance hosts_only : IpNetOps := {|
  IpNet := IpAddr; net_contains n a := bool_decide (n = a); prefix_len _ := 32
|}.

Definition no_urls (_ : chars) : option Url := None.

Definition https_url : Url :=
  mk_url "https" [] None (Some (str_bytes "dns.example")) None (str_bytes "/dns-query") None None.

Definition sample_upstreams : list UpstreamDto :=
  [HostsDto "local" "hosts" "127.0.0.1 localhost";
   DohUpstreamDto "remote" https_url (Some "local") None None None;
   GroupDto "all" [mk_member "remote" 1; mk_member "local" 1] UM_Failover (from_secs 2)
     (Some [mk_member "local" 1]) (Some UM_Parallel) (Some (from_secs 1))].

Definition sample_config : ConfigV2 := mk_config_v2 2
  (mk_work (path_of (lit "work")) (path_of (lit "rules")) DEFAULT_RULE_SET_MAX_SIZE_BYTES DEFAULT_RULE_SET_MAX_RULES)
  (mk_database Sqlite (path_of (lit "data/stats.db")) (path_of (lit "data/records")))
  (mk_logs true LL_Info (path_of (lit "./logs/flux.log")))
  (mk_webui false (V4 0) 8080 None [])
  (mk_dns_v2 None (Some (mk_ttl_dto (Some true) None (Some (from_secs 300)))) None None)
  RetentionV2_default
  [UdpDto "udp" [V4 0; V6 0] 53 "main" (Some "lan"); TcpDto "tcp" [V4 2130706433] 53 "main" None;
   DohDto "web" [mk_route_dto (lit "/dns-query/{client_id}") "main"]
     [mk_endpoint_dto "front" [V4 0] 443 (mk_tls TM_External None None) (mk_client_ip_dto CIS_Peer None None None None)]]
  sample_upstreams
  [mk_strategy_dto "main"
     [mk_rule_dto (Some "ads:CN") None (Some "all") None; mk_rule_dto None (Some "lan") None None] "all" None
     (Some (mk_ttl_dto None (Some (from_secs 600)) None)) None]
  [HostsConst "lan" HF_Hosts "10.0.0.1 router"] []
  [RuleSetConst "ads" RF_Dat "x"]
  [mk_client_v2 "tv" "tv-1" [V4 7] (Some "main") None None None].

Lemma sample_valid : ConfigV2_validate no_urls sample_config = Ok tt.
Proof. by vm_compute. Qed.

Lemma upstream_cycles_exact_witness :
  (forall n, ~ tc (needs sample_upstreams) n n) /\
  ~ forall n, ~ tc (needs [GroupDto "a" [mk_member "b" 1] UM_Failover 1 None None None;
                           DohUpstreamDto "b" https_url (Some "a") None None None]) n n.
Proof.
  split.
  - apply (upstream_cycles_exact sample_upstreams); [|by vm_compute]. repeat (constructor; [set_solver|]). constructor.
  - intros H. apply upstream_cycles_exact in H; [by vm_compute in H|]. repeat (constructor; [set_solver|]). constructor.
Defined.

Lemma data_paths_apart_witness : exists p,
  resolve_paths sample_config (path_of (lit "/etc/flux/config.yaml")) = Ok p /\
  path_text (vp_statistics p) = lit "/etc/flux/work/data/stats.db" /\
  pairwise apart [vp_statistics p; vp_snapshot p; vp_records p].
Proof.
  eexists. split; [vm_compute; reflexivity|]. split; [by vm_compute|].
  refine (proj1 (proj2 (data_paths_apart sample_config (path_of (lit "/etc/flux/config.yaml")) _ _))).
  vm_compute. reflexivity.
Defined.

(** Some documents are refused: a wrong kind of reference, a shared port, a cycle. *)
Example refused_documents :
  (ce_kind <$> validate_upstream_cycles [GroupDto "a" [mk_member "a" 1] UM_Failover 1 None None None]) = [CE_Cycle] /\
  is_ok (build_resource_bind_plan (mk_config_v2 2 (cf_work sample_config) (cf_database sample_config)
    (cf_logs sample_config) (mk_webui true (V4 1) 53 None []) (cf_dns sample_config) RetentionV2_default
    (cf_listener sample_config) [] [] [] [] [] [])) = true /\
  address_text (V6 1) = "::1" /\ address_text (V6 (2 ^ 96)) = "0:1::".
Proof. by vm_compute. Qed.
End ConfigExamples.
