(* ===== verification/ConfigResolve.v ===== *)
(** * From documents to the resolved configuration (src/backend/src/config/resolve.rs)

    [resolve_config_v2] turns an accepted document into the configuration the runtime is
    built from: paths made absolute, settings inherited, names turned into identifiers. Its
    [expect]s would panic if validation had let something through; a panic is [None] here,
    and the theorems show that there is none and that the result is closed: unique names,
    references that exist, no cycles. Types that Plan.v has with fewer fields are given in
    full here, with their views as those. The text the configuration is hashed from is a
    [Debug] rendering and an argument. *)

From stdpp Require Import pretty.
From S2P Require Import Prelude Text Net CacheModel Client Rules Group Outcome DohRoute Plan Executor Upstreams Outbound ClientIp WebAuth ConfigModel ConfigValidate.

(** ** The resolved types *)

Record ResolvedWork := mk_resolved_work {
  rw_path : PathBuf;
  rw_rules_path : PathBuf;
  rw_snapshot_path : PathBuf;
  rw_rule_set_max_size_bytes : Z;
  rw_rule_set_max_rules : Z
}.
Record ResolvedDatabase := mk_resolved_database { rd_kind : DatabaseType; rd_path : PathBuf; rd_records_path : PathBuf }.
Record ResolvedLogs := mk_resolved_logs { rg_enable : bool; rg_level : LogLevelDto; rg_path : PathBuf }.
Record ResolvedWebUiUser := mk_resolved_user { ru_name : string; ru_password_hash : string }.
Record ResolvedWebUi := mk_resolved_webui {
  rwu_enable : bool;
  rwu_address : IpAddr;
  rwu_port : Z;
  rwu_public_origin : option Url;
  rwu_users : list ResolvedWebUiUser
}.
Record FullGlobalCache := mk_full_cache {
  fg_enabled : bool;
  fg_memory_max_size_bytes : Z;
  fg_failure_ttl : Duration;
  fg_negative_ttl_max : Duration;
  fg_optimistic : ResolvedOptimistic;
  fg_persistence_enabled : bool;
  fg_persistence_path : PathBuf;
  fg_snapshot_interval : Duration
}.
Definition cache_view (g : FullGlobalCache) : ResolvedGlobalCache :=
  mk_global_cache (fg_enabled g) (fg_optimistic g).

Record ResolvedStatistics := mk_resolved_statistics {
  rst_retention_days : Z;
  rst_retention_grace_days : Z;
  rst_retention_reference_size_bytes : Z
}.
Inductive ResolvedHostsResource :=
| RHostsConst (id : ConfigId) (format : HostsFormat) (hosts : string)
| RHostsFile (id : ConfigId) (format : HostsFormat) (path : PathBuf) (auto_update : bool)
    (update_interval : option Duration).
Definition resolved_hosts_id (r : ResolvedHostsResource) : ConfigId :=
  match r with RHostsConst id _ _ | RHostsFile id _ _ _ _ => id end.

Record ResolvedOutbound := mk_resolved_outbound {
  ro_id : ConfigId;
  ro_kind : OutboundType;
  ro_proxy_url : ResolvedSecretRef
}.
Inductive ResolvedRuleSet :=
| RRuleSetConst (id : ConfigId) (format : RuleSetFormat) (rule : string)
| RRuleSetFile (id : ConfigId) (format : RuleSetFormat) (path : PathBuf) (auto_update : bool)
    (update_interval : option Duration)
| RRuleSetRemote (id : ConfigId) (format : RuleSetFormat) (url : Url) (proxy : option ConfigId)
    (auto_update : bool) (update_interval : option Duration).
Definition resolved_rule_set_id (r : ResolvedRuleSet) : ConfigId :=
  match r with RRuleSetConst id _ _ | RRuleSetFile id _ _ _ _ | RRuleSetRemote id _ _ _ _ _ => id end.

Section Resolve.
Context {IN : IpNetOps}.

Record ResolvedDns := mk_resolved_dns {
  rdn_cache : FullGlobalCache;
  rdn_ttl_override : ResolvedTtlOverride;
  rdn_ecs : ResolvedEcs;
  rdn_resolve_log : bool
}.
Record ResolvedClientIp := mk_resolved_client_ip {
  rci_source : ClientIpSource;
  rci_header : option ForwardedHeader;
  rci_trusted_proxies : option (list IpNet);
  rci_on_missing : option ForwardedDisposition;
  rci_on_invalid : option ForwardedDisposition
}.
Record ResolvedDohEndpoint := mk_resolved_endpoint {
  re_id : ConfigId;
  re_binding : DohBindingRef;
  re_addresses : list IpAddr;
  re_port : Z;
  re_tls_mode : TlsMode;
  re_certificate_file : option PathBuf;
  re_private_key_file : option PathBuf;
  re_client_ip : ResolvedClientIp
}.
Inductive FullListener :=
| FullUdp (id : ConfigId) (addresses : list IpAddr) (port : Z) (strategy : ConfigId) (hosts : option ConfigId)
| FullTcp (id : ConfigId) (addresses : list IpAddr) (port : Z) (strategy : ConfigId) (hosts : option ConfigId)
| FullDoh (id : ConfigId) (routes : list ResolvedDohRoute) (endpoints : list ResolvedDohEndpoint).
Definition full_listener_id (l : FullListener) : ConfigId :=
  match l with FullUdp id _ _ _ _ | FullTcp id _ _ _ _ | FullDoh id _ _ => id end.
Definition listener_view (l : FullListener) : ResolvedListener :=
  match l with
  | FullUdp id _ _ strategy hosts => Udp id strategy hosts
  | FullTcp id _ _ strategy hosts => Tcp id strategy hosts
  | FullDoh id routes _ => Doh id routes
  end.

Inductive FullUpstream :=
| FullHosts (id : ConfigId) (format hosts : string)
| FullDohUpstream (id : ConfigId) (address : Url) (bootstrap : option ConfigId) (connect_ip : option IpAddr)
    (proxy : option ConfigId) (edns_client_subnet : option ResolvedEcs)
| FullGroup (id : ConfigId) (upstreams : list Member) (upstream_mode : UpstreamMode) (timeout : Duration)
    (fallbacks : list Member) (fallback_upstream_mode : option UpstreamMode) (fallback_timeout : option Duration).
Definition full_upstream_id (u : FullUpstream) : ConfigId :=
  match u with FullHosts id _ _ | FullDohUpstream id _ _ _ _ _ | FullGroup id _ _ _ _ _ _ => id end.
Definition upstream_view (u : FullUpstream) : ResolvedUpstream :=
  match u with
  | FullHosts id _ _ => UpstreamHosts id
  | FullDohUpstream id _ _ _ _ ecs => UpstreamDoh id ecs
  | FullGroup id upstreams mode timeout fallbacks fmode ftimeout =>
    UpstreamGroup id upstreams mode timeout fallbacks fmode ftimeout
  end.

Record ResolvedConfig := mk_resolved_config {
  rcf_version : Z;
  rcf_work : ResolvedWork;
  rcf_database : ResolvedDatabase;
  rcf_logs : ResolvedLogs;
  rcf_webui : ResolvedWebUi;
  rcf_dns : ResolvedDns;
  rcf_statistics : ResolvedStatistics;
  rcf_listeners : list FullListener;
  rcf_upstreams : list FullUpstream;
  rcf_strategies : list ResolvedStrategy;
  rcf_hosts : list ResolvedHostsResource;
  rcf_outbounds : list ResolvedOutbound;
  rcf_rule_sets : list ResolvedRuleSet;
  rcf_clients : list ResolvedClient;
  rcf_bind_plan : list BindEntry;
  rcf_input_hash : string;
  rcf_normalized_hash : string
}.

(** ** Inherited settings *)

Definition resolve_optimistic (o : OptimisticDto) : ResolvedOptimistic :=
  mk_optimistic (od_enabled o) (od_answer_ttl o) (od_max_age o) (Z.min (od_negative_max_age o) (od_max_age o)).

Definition resolve_cache (value : option CacheOverrideDto) (parent : ResolvedOptimistic) (source : ValueSource) :
    option ResolvedCacheOverride :=
  (fun v => mk_cache_override (default false (cd_enabled v))
     (Some match cd_optimistic v with Some o => resolve_optimistic o | None => parent end) source) <$> value.

(** [Option::or] *)
Definition or_else {A} (a b : option A) : option A := match a with Some _ => a | None => b end.

Definition resolve_ttl (value : option TtlOverrideDto) (parent : option ResolvedTtlOverride) (source : ValueSource) :
    ResolvedTtlOverride :=
  let parent := default (mk_ttl_override false None None VS_Default) parent in
  match value with
  | None => parent
  | Some v => mk_ttl_override (default (to_enabled parent) (td_enabled v)) (or_else (td_min v) (to_min parent))
                (or_else (td_max v) (to_max parent)) source
  end.

Definition resolve_ecs (value : option EcsDto) (parent : option ResolvedEcs) (source : ValueSource) : ResolvedEcs :=
  match value with
  | None => default (mk_ecs EcsDisabled None VS_Default) parent
  | Some v => mk_ecs (ed_mode v) match ed_mode v with EcsCustom => ed_custom_ip v | _ => None end source
  end.

Definition resolve_dns_v2 (d : DnsV2) (work_path : PathBuf) : ResolvedDns :=
  let cache := cache_or_default d in
  mk_resolved_dns
    (mk_full_cache (gv_enabled cache) (gv_max_size_bytes cache) (gv_failure_ttl cache) (gv_negative_ttl_max cache)
      (resolve_optimistic (gv_optimistic cache)) (sv_enabled (gv_persistence cache))
      (resolve_path work_path (sv_path (gv_persistence cache))) (sv_snapshot_interval (gv_persistence cache)))
    (resolve_ttl (dv_ttl_override d) None VS_Global) (resolve_ecs (dv_ecs d) None VS_Global)
    (default false (dv_resolve_log d)).

(** ** Identifiers *)

Definition ConfigId_new (value : string) : result ConfigError ConfigId :=
  if (str_len value =? 0) || (128 <? str_len value) then
    Err (config_error CE_InvalidValue "name" "identifier must contain 1..=128 characters")
  else if negb (config_id_ok value) then
    Err (config_error CE_InvalidValue "name" "identifier contains an unsupported character")
  else Ok value.

(** [Result::expect]: a panic is [None]. *)
Definition expect {E A} (r : result E A) : option A := match r with Ok a => Some a | Err _ => None end.

Definition config_id (value : string) : option ConfigId := expect (ConfigId_new value).
Definition optional_id (value : option string) : option (option ConfigId) :=
  match value with Some v => Some <$> config_id v | None => Some None end.

Definition resolve_rule_set_ref (value : string) : option ResolvedRuleSetRef :=
  match split_selector value with
  | None => id ← config_id value; Some (mk_rule_ref id None)
  | Some (resource, selector) =>
    sel ← normalize_rule_set_selector (lit selector) MAX_RULE_SET_SELECTOR_BYTES;
    id ← config_id resource;
    Some (mk_rule_ref id (Some sel))
  end.

(** ** One definition per kind of item *)

Definition resolve_rule (strategy_ecs : ResolvedEcs) (r : StrategyRuleDto) : option ResolvedStrategyRule :=
  rule_set ← match rl_rule_set r with Some v => Some <$> resolve_rule_set_ref v | None => Some None end;
  hosts ← optional_id (rl_hosts r);
  upstream ← optional_id (rl_upstream r);
  Some (mk_strategy_rule rule_set hosts upstream (resolve_ecs (rl_ecs r) (Some strategy_ecs) VS_Rule)).

Definition resolve_strategy (s : StrategyDto) (global_ttl : ResolvedTtlOverride) (global_ecs : ResolvedEcs)
    (global_optimistic : ResolvedOptimistic) : option ResolvedStrategy :=
  let strategy_ecs := resolve_ecs (sd_ecs s) (Some global_ecs) VS_Strategy in
  id ← config_id (sd_name s);
  rules ← mapM (resolve_rule strategy_ecs) (sd_rules s);
  default_upstream ← config_id (sd_default_upstream s);
  Some (mk_strategy id rules default_upstream (resolve_cache (sd_cache s) global_optimistic VS_Strategy)
    (resolve_ttl (sd_ttl_override s) (Some global_ttl) VS_Strategy) strategy_ecs).

Definition resolve_client_ip_dto (c : ClientIpDto) : ResolvedClientIp :=
  mk_resolved_client_ip (ci_source c) (ci_header c) (ci_trusted_proxies c) (ci_on_missing c) (ci_on_invalid c).

Definition resolve_route (r : DohRouteDto) : option ResolvedDohRoute :=
  strategy ← config_id (rt_strategy r); Some (mk_doh_route (rt_path r) strategy).

Definition resolve_endpoint (listener : string) (work_path : PathBuf) (e : DohEndpointDto) : option ResolvedDohEndpoint :=
  id ← config_id (de_name e);
  Some (mk_resolved_endpoint id (mk_binding listener (de_name e)) (de_addresses e) (de_port e) (tl_mode (de_tls e))
    (resolve_path work_path <$> tl_certificate_file (de_tls e)) (resolve_path work_path <$> tl_private_key_file (de_tls e))
    (resolve_client_ip_dto (de_client_ip e))).

Definition resolve_listener (work_path : PathBuf) (l : ListenerDto) : option FullListener :=
  match l with
  | UdpDto name addresses port strategy hosts =>
    id ← config_id name; strategy ← config_id strategy; hosts ← optional_id hosts;
    Some (FullUdp id addresses port strategy hosts)
  | TcpDto name addresses port strategy hosts =>
    id ← config_id name; strategy ← config_id strategy; hosts ← optional_id hosts;
    Some (FullTcp id addresses port strategy hosts)
  | DohDto name routes endpoints =>
    id ← config_id name; routes ← mapM resolve_route routes; endpoints ← mapM (resolve_endpoint name work_path) endpoints;
    Some (FullDoh id routes endpoints)
  end.

Definition resolve_member (m : Member) : option Member :=
  name ← config_id (member_name m); Some (mk_member name (weight m)).

Definition resolve_upstream_dto (global_ecs : ResolvedEcs) (u : UpstreamDto) : option FullUpstream :=
  match u with
  | HostsDto name format hosts => id ← config_id name; Some (FullHosts id format hosts)
  | DohUpstreamDto name address bootstrap connect_ip proxy ecs =>
    id ← config_id name; bootstrap ← optional_id bootstrap; proxy ← optional_id proxy;
    Some (FullDohUpstream id address bootstrap connect_ip proxy (Some (resolve_ecs ecs (Some global_ecs) VS_Upstream)))
  | GroupDto name upstreams mode timeout fallbacks fmode ftimeout =>
    id ← config_id name; upstreams ← mapM resolve_member upstreams;
    fallbacks ← mapM resolve_member (default [] fallbacks);
    Some (FullGroup id upstreams mode timeout fallbacks fmode ftimeout)
  end.

Definition resolve_hosts (work_path : PathBuf) (r : HostsResourceDto) : option ResolvedHostsResource :=
  match r with
  | HostsConst name format hosts => id ← config_id name; Some (RHostsConst id format hosts)
  | HostsFile name format path auto_update interval =>
    id ← config_id name; Some (RHostsFile id format (resolve_path work_path path) auto_update interval)
  end.

Definition resolve_outbound (work_path : PathBuf) (o : OutboundDto) : option ResolvedOutbound :=
  let '(env, file, url) := secret_parts (ob_proxy_url o) in
  id ← config_id (ob_name o);
  Some (mk_resolved_outbound id (ob_kind o)
    (mk_secret env ((fun p => path_text (resolve_path work_path p)) <$> file) url)).

Definition resolve_rule_set (work_path : PathBuf) (r : RuleSetDto) : option ResolvedRuleSet :=
  match r with
  | RuleSetConst name format rule => id ← config_id name; Some (RRuleSetConst id format rule)
  | RuleSetFile name format path auto_update interval =>
    id ← config_id name; Some (RRuleSetFile id format (resolve_path work_path path) auto_update interval)
  | RuleSetRemote name format url proxy auto_update interval =>
    id ← config_id name; proxy ← optional_id proxy; Some (RRuleSetRemote id format url proxy auto_update interval)
  end.

Definition resolve_client_v2 (global_ttl : ResolvedTtlOverride) (global_ecs : ResolvedEcs)
    (global_optimistic : ResolvedOptimistic) (x : ClientV2) : option ResolvedClient :=
  name ← config_id (cv_name x);
  strategy ← optional_id (cv_strategy x);
  Some (mk_resolved_client name [cv_client_id x] (cv_ips x) strategy
    (resolve_cache (cv_cache x) global_optimistic VS_Client)
    (resolve_ttl (cv_ttl_override x) (Some global_ttl) VS_Client)
    (resolve_ecs (cv_ecs x) (Some global_ecs) VS_Client)).

(** ** The whole document *)

Context (Url_parse : chars -> option Url).

(** The values written with [{:?}]; their [Debug] text is the compiler's for the most part. *)
Inductive DebugValue :=
| Dbg_Path (path : chars)
| Dbg_Work (v : ResolvedWork) | Dbg_Database (v : ResolvedDatabase) | Dbg_Logs (v : ResolvedLogs)
| Dbg_WebUi (v : ResolvedWebUi) | Dbg_Dns (v : ResolvedDns) | Dbg_Statistics (v : ResolvedStatistics)
| Dbg_Listeners (v : list FullListener) | Dbg_Upstreams (v : list FullUpstream)
| Dbg_Strategies (v : list ResolvedStrategy) | Dbg_Hosts (v : list ResolvedHostsResource)
| Dbg_Outbounds (v : list ResolvedOutbound) | Dbg_RuleSets (v : list ResolvedRuleSet)
| Dbg_Clients (v : list ResolvedClient) | Dbg_BindPlan (v : list BindEntry).
Context (debug : DebugValue -> list byte).

Fixpoint join_bytes (sep : list byte) (ps : list (list byte)) : list byte :=
  match ps with
  | [] => []
  | [p] => p
  | p :: ps' => p ++ sep ++ join_bytes sep ps'
  end.

(** A proxy URL in the document goes in as its hash only. *)
Definition secret_source (r : ResolvedSecretRef) : list byte :=
  match sr_env r, sr_file r, sr_url r with
  | Some name, None, None => str_bytes "env:" ++ utf8_encode name
  | None, Some path, None => str_bytes "file:" ++ debug (Dbg_Path path)
  | None, None, Some url => str_bytes "inline:" ++ str_bytes (deterministic_hash (utf8_encode (trim url)))
  | _, _, _ => str_bytes "invalid"
  end.
Definition secret_material (outbounds : list ResolvedOutbound) : list byte :=
  join_bytes (str_bytes "|")
    ((fun o => str_bytes (ro_id o) ++ str_bytes "=" ++ secret_source (ro_proxy_url o)) <$> outbounds).
Definition password_material (users : list ResolvedWebUiUser) : list byte :=
  join_bytes (str_bytes "|")
    ((fun u => str_bytes (ru_name u) ++ str_bytes "=" ++
        str_bytes (deterministic_hash (str_bytes (ru_password_hash u)))) <$> users).

(** The text the normalised hash is taken of; it does not look at the hashes of [v]. *)
Definition normalized_material (v : ResolvedConfig) : list byte :=
  str_bytes "version=" ++ str_bytes (pretty (rcf_version v)) ++
  str_bytes "|work=" ++ debug (Dbg_Work (rcf_work v)) ++
  str_bytes "|db=" ++ debug (Dbg_Database (rcf_database v)) ++
  str_bytes "|logs=" ++ debug (Dbg_Logs (rcf_logs v)) ++
  str_bytes "|webui=" ++ debug (Dbg_WebUi (rcf_webui v)) ++
  str_bytes "|dns=" ++ debug (Dbg_Dns (rcf_dns v)) ++
  str_bytes "|statistics=" ++ debug (Dbg_Statistics (rcf_statistics v)) ++
  str_bytes "|listeners=" ++ debug (Dbg_Listeners (rcf_listeners v)) ++
  str_bytes "|upstreams=" ++ debug (Dbg_Upstreams (rcf_upstreams v)) ++
  str_bytes "|strategies=" ++ debug (Dbg_Strategies (rcf_strategies v)) ++
  str_bytes "|hosts=" ++ debug (Dbg_Hosts (rcf_hosts v)) ++
  str_bytes "|outbounds=" ++ debug (Dbg_Outbounds (rcf_outbounds v)) ++
  str_bytes "|rule_sets=" ++ debug (Dbg_RuleSets (rcf_rule_sets v)) ++
  str_bytes "|clients=" ++ debug (Dbg_Clients (rcf_clients v)) ++
  str_bytes "|bind=" ++ debug (Dbg_BindPlan (rcf_bind_plan v)) ++
  str_bytes "|secret_refs=" ++ secret_material (rcf_outbounds v) ++
  str_bytes "|password_hashes=" ++ password_material (rwu_users (rcf_webui v)).

Definition resolve_items (c : ConfigV2) (input_hash : string) (paths : V2Paths) (bind_plan : list BindEntry) :
    option ResolvedConfig :=
  let work := mk_resolved_work (vp_work paths) (resolve_path (vp_work paths) (wk_rules_path (cf_work c)))
    (path_join (vp_work paths) [Normal (lit "config.yaml")]) (wk_rule_set_max_size_bytes (cf_work c))
    (wk_rule_set_max_rules (cf_work c)) in
  let work_path := rw_path work in
  let logs := mk_resolved_logs (lg_enable (cf_logs c)) (lg_level (cf_logs c)) (resolve_path work_path (lg_path (cf_logs c))) in
  let webui := mk_resolved_webui (ui_enable (cf_webui c)) (ui_address (cf_webui c)) (ui_port (cf_webui c))
    (ui_public_origin (cf_webui c))
    ((fun u => mk_resolved_user (wu_name u) (wu_password_hash u)) <$> ui_users (cf_webui c)) in
  let dns := resolve_dns_v2 (cf_dns c) work_path in
  let ttl := rdn_ttl_override dns in
  let ecs := rdn_ecs dns in
  let optimistic := fg_optimistic (rdn_cache dns) in
  strategies ← mapM (fun s => resolve_strategy s ttl ecs optimistic) (cf_strategy c);
  listeners ← mapM (resolve_listener work_path) (cf_listener c);
  upstreams ← mapM (resolve_upstream_dto ecs) (cf_upstreams c);
  hosts ← mapM (resolve_hosts work_path) (cf_hosts c);
  outbounds ← mapM (resolve_outbound work_path) (cf_outbound c);
  rule_sets ← mapM (resolve_rule_set work_path) (cf_rule_set c);
  clients ← mapM (resolve_client_v2 ttl ecs optimistic) (cf_clients c);
  let resolved normalized_hash := mk_resolved_config (cf_version c) work
    (mk_resolved_database (db_kind (cf_database c)) (vp_statistics paths) (vp_records paths)) logs webui dns
    (mk_resolved_statistics (rv_days (cf_retention c)) (rv_grace_days (cf_retention c))
      (rv_reference_size_bytes (cf_retention c)))
    listeners upstreams strategies hosts outbounds rule_sets clients bind_plan input_hash normalized_hash in
  Some (resolved (deterministic_hash (normalized_material (resolved EmptyString)))).

Definition resolve_config_v2 (c : ConfigV2) (input_hash : string) (source_path : PathBuf) :
    option (result ConfigErrorReport ResolvedConfig) :=
  match ConfigV2_validate Url_parse c with
  | Err report => Some (Err report)
  | Ok _ =>
    match resolve_paths c source_path with
    | Err report => Some (Err report)
    | Ok paths =>
      match build_resource_bind_plan c with
      | Err report => Some (Err report)
      | Ok bind_plan => Ok <$> resolve_items c input_hash paths bind_plan
      end
    end
  end.
End Resolve.

(** ** Identifiers of accepted names *)

Lemma config_id_ok_Some v : config_id_ok v = true -> config_id v = Some v.
Proof.
  intros H. unfold config_id, ConfigId_new. rewrite H. unfold config_id_ok in H.
  apply andb_true_iff in H as [H%negb_true_iff _]. by rewrite H.
Qed.

Lemma config_id_inv v w : config_id v = Some w -> w = v.
Proof. unfold config_id, ConfigId_new. repeat (destruct (_ : bool); [done|]). by intros [= ->]. Qed.

Lemma optional_id_Some v : (forall x, v = Some x -> config_id_ok x = true) -> optional_id v = Some v.
Proof. destruct v as [x|]; cbn; [|done]. intros H. by rewrite config_id_ok_Some by auto. Qed.

Lemma optional_id_inv v w : optional_id v = Some w -> w = v.
Proof. destruct v as [x|]; cbn; [|by intros [= <-]]. destruct (config_id x) eqn:E; [|done]. apply config_id_inv in E. by intros [= <-]; subst. Qed.

Lemma split_colon_spec s a b : split_selector s = Some (a, b) -> exists c, s = a +:+ String c b /\ Ascii.nat_of_ascii c = 58%nat.
Proof.
  revert a b. induction s as [|c s IH]; intros a b; cbn; [done|]. destruct (Nat.eqb_spec (Ascii.nat_of_ascii c) 58).
  - intros [= <- <-]. by exists c.
  - destruct (split_selector s) as [[a' b']|] eqn:E; [|done]. cbn. intros [= <- <-].
    destruct (IH _ _ eq_refl) as (c' & -> & ?). by exists c'.
Qed.

(** A name has no colon. *)
Lemma config_id_no_colon s : config_id_ok s = true -> split_selector s = None.
Proof.
  intros H. unfold config_id_ok in H. apply andb_true_iff in H as [_ H]. rewrite forallb_forall in H.
  assert (Hall : forall b, b ∈ str_bytes s -> byte_to_Z b <> 58).
  { intros b Hb Hz. apply list_elem_of_In, H in Hb. unfold is_ascii_alphanumeric, is_id_punct in Hb. rewrite Hz in Hb.
    by vm_compute in Hb. }
  clear H. induction s as [|c s IH]; cbn; [done|]. destruct (Nat.eqb_spec (Ascii.nat_of_ascii c) 58) as [E|].
  - exfalso. apply (Hall (Ascii.byte_of_ascii c)); [cbn; left|].
    assert (c = Ascii.ascii_of_nat 58) as -> by (rewrite <- E; symmetry; apply Ascii.ascii_nat_embedding). by vm_compute.
  - rewrite IH; [done|]. intros b Hb. apply Hall. cbn. by right.
Qed.

Section Proofs.
Context {IN : IpNetOps}.

Lemma rule_set_ref_total rule_sets value path :
  (forall x, x ∈ rule_sets -> config_id_ok x = true) -> check_rule_set_selector rule_sets value path = [] ->
  exists r, resolve_rule_set_ref value = Some r /\ rr_resource r ∈ rule_sets.
Proof.
  intros Hok. unfold check_rule_set_selector, resolve_rule_set_ref. case_bool_decide as Hv.
  - intros _. pose proof (Hok _ Hv) as H. rewrite config_id_no_colon, config_id_ok_Some by done. cbn. by eexists.
  - destruct (split_selector value) as [[base selector]|]; [|done]. intros [Hb Hs]%app_eq_nil.
    apply when_nil, negb_false_iff, bool_decide_eq_true in Hb. apply when_nil, negb_false_iff in Hs.
    destruct (normalize_rule_set_selector _ _) as [sel|]; [|done]. cbn.
    rewrite config_id_ok_Some by auto. cbn. by eexists.
Qed.

Lemma mapM_total {A B} (f : A -> option B) l : (forall x, x ∈ l -> is_Some (f x)) -> is_Some (mapM f l).
Proof. intros H. apply mapM_is_Some. apply list.Forall_forall. exact H. Qed.

Lemma mapM_fmap {A B C} (f : A -> option B) (g : A -> C) (h : B -> C) l l' :
  (forall x y, f x = Some y -> h y = g x) -> mapM f l = Some l' -> h <$> l' = g <$> l.
Proof.
  intros H HF%mapM_Some. induction HF as [|x y l l' Hxy _ IH]; [done|]. rewrite !fmap_cons. by rewrite IH, (H _ _ Hxy).
Qed.

Lemma mapM_Forall {A B} (f : A -> option B) (P : A -> Prop) (Q : B -> Prop) l l' :
  (forall x y, P x -> f x = Some y -> Q y) -> Forall P l -> mapM f l = Some l' -> Forall Q l'.
Proof.
  intros H HP HF%mapM_Some. revert HP. induction HF as [|x y l l' Hxy _ IH]; intros HP; [constructor|].
  apply Forall_cons_iff in HP as [Hx HP]. constructor; eauto.
Qed.

(** ** What validation says of every item *)

Context (Url_parse : chars -> option Url).

Section Facts.
Context (c : ConfigV2) (Hc : accepted Url_parse c).

Let strategies := sd_name <$> cf_strategy c.
Let upstreams := upstream_name <$> cf_upstreams c.
Let hosts := hosts_name <$> cf_hosts c.
Let rule_sets := rule_set_name <$> cf_rule_set c.
Let outbounds := ob_name <$> cf_outbound c.

Definition names_ok (l : list string) : Prop := NoDup l /\ Forall (fun x => config_id_ok x = true) l.

Lemma namespace_names {A} path duplicate (name : A -> string) check l :
  validate_namespace path duplicate name check l = [] -> names_ok (name <$> l).
Proof.
  intros [H1 H2]%namespace_ok. split; [done|]. apply list.Forall_fmap. eapply list.Forall_impl; [exact H2|]. by intros x [? _].
Qed.

Lemma accepted_names :
  names_ok (listener_name <$> cf_listener c) /\ names_ok upstreams /\ names_ok strategies /\ names_ok hosts /\
  names_ok outbounds /\ names_ok rule_sets.
Proof.
  pose proof (ac_collections _ _ Hc) as H. unfold validate_collections in H.
  do 5 (apply app_eq_nil in H as [? H]). split_and!; by eapply namespace_names.
Qed.

Lemma name_ok l x : names_ok l -> x ∈ l -> config_id_ok x = true.
Proof. intros [_ H]. apply (proj1 (list.Forall_forall _ _) H). Qed.

(** The part of [validate_collections] for one item. *)
Lemma accepted_items :
  Forall (fun l => exists p, validate_listener p l = []) (cf_listener c) /\
  Forall (fun u => exists p, validate_upstream u p = []) (cf_upstreams c) /\
  Forall (fun s => exists p, validate_strategy s p = []) (cf_strategy c) /\
  Forall (fun o => exists p, validate_outbound Url_parse o p = []) (cf_outbound c).
Proof.
  pose proof (ac_collections _ _ Hc) as H. unfold validate_collections in H.
  do 5 (apply app_eq_nil in H as [? H]).
  split_and!; (eapply list.Forall_impl; [by eapply namespace_ok|]); cbn; by intros x [_ ?].
Qed.

Lemma each_forall {A} (f : list A -> A -> list ConfigError) (P : A -> Prop) l :
  (forall before x, f before x = [] -> P x) -> each f l = [] -> Forall P l.
Proof. intros H He. apply list.Forall_forall. intros x Hx. destruct (each_elem _ _ _ He Hx) as [before Hb]. eauto. Qed.

Definition listener_refs_ok (l : ListenerDto) : Prop :=
  match l with
  | UdpDto _ _ _ strategy local | TcpDto _ _ _ strategy local =>
    strategy ∈ strategies /\ forall h, local = Some h -> h ∈ hosts
  | DohDto _ routes _ => Forall (fun r => rt_strategy r ∈ strategies) routes
  end.
Definition members_ok (l : list Member) : Prop := Forall (fun m => member_name m ∈ upstreams) l.
Definition upstream_refs_ok (u : UpstreamDto) : Prop :=
  match u with
  | HostsDto _ _ _ => True
  | DohUpstreamDto _ _ bootstrap _ proxy _ =>
    (forall b, bootstrap = Some b -> b ∈ upstreams) /\ (forall p, proxy = Some p -> p ∈ outbounds)
  | GroupDto _ members _ _ fallbacks _ _ => members_ok members /\ members_ok (default [] fallbacks)
  end.
Definition rule_refs_ok (r : StrategyRuleDto) : Prop :=
  (forall h, rl_hosts r = Some h -> h ∈ hosts) /\ (forall u, rl_upstream r = Some u -> u ∈ upstreams) /\
  (forall v, rl_rule_set r = Some v -> exists p, check_rule_set_selector rule_sets v p = []).
Definition strategy_refs_ok (s : StrategyDto) : Prop :=
  sd_default_upstream s ∈ upstreams /\ Forall rule_refs_ok (sd_rules s).
Definition rule_set_refs_ok (r : RuleSetDto) : Prop :=
  match r with RuleSetRemote _ _ _ (Some p) _ _ => p ∈ outbounds | _ => True end.

Lemma accepted_refs :
  Forall listener_refs_ok (cf_listener c) /\ Forall upstream_refs_ok (cf_upstreams c) /\
  Forall strategy_refs_ok (cf_strategy c) /\ Forall rule_set_refs_ok (cf_rule_set c).
Proof.
  pose proof (ac_references _ _ Hc) as H. unfold validate_references in H.
  do 3 (apply app_eq_nil in H as [? H]). split_and!; (eapply each_forall; [|done]); cbn; intros before x.
  - destruct x; cbn; [intros [? ?]%app_eq_nil..|]; [split; [by eapply check_reference_ok|intros h; by eapply check_option_ok]..|].
    apply each_forall. intros b r. by apply check_reference_ok.
  - destruct x as [| |? ? ? ? fallbacks]; cbn; [done| |]; intros [? ?]%app_eq_nil.
    + split; intros; by eapply check_option_ok.
    + split; [by eapply check_members_ok|]. destruct fallbacks; [by eapply check_members_ok|constructor].
  - intros [? ?]%app_eq_nil. split; [by eapply check_reference_ok|]. eapply each_forall; [|done]. cbn.
    intros b r [Hh [Hr Hu]%app_eq_nil]%app_eq_nil. split_and!.
    + intros h. by eapply check_option_ok.
    + intros u. by eapply check_option_ok.
    + intros v Hv. rewrite Hv in Hr. by eexists.
  - destruct x as [| |? ? ? [p|]]; cbn; try done. apply check_reference_ok.
Qed.

Lemma accepted_clients :
  NoDup (cv_name <$> cf_clients c) /\ NoDup (cv_client_id <$> cf_clients c) /\ NoDup (cf_clients c ≫= cv_ips) /\
  Forall (fun x => config_id_ok (cv_name x) = true /\ forall s, cv_strategy x = Some s -> s ∈ strategies) (cf_clients c).
Proof.
  pose proof (ac_clients _ _ Hc) as H.
  assert (Hcl : forall before x, check_client c before x = [] ->
    config_id_ok (cv_name x) = true /\ (cv_name x ∉ cv_name <$> before) /\ (cv_client_id x ∉ cv_client_id <$> before) /\
    (NoDup (cv_ips x) /\ forall ip, ip ∈ cv_ips x -> ip ∉ before ≫= cv_ips) /\ (forall s, cv_strategy x = Some s -> s ∈ strategies)).
  { intros before x Hx. unfold check_client in Hx. do 7 (apply app_eq_nil in Hx as [? Hx]).
    repeat match goal with H : when _ _ _ _ = [] |- _ => apply when_nil, bool_decide_eq_false in H end.
    split_and!; [by eapply validate_name_ok|done|done| | |].
    - rewrite <- (list_fmap_id (cv_ips x)). eapply (each_nodup id); [|done]. cbn. intros earlier ip Hip.
      apply when_nil, bool_decide_eq_false in Hip. rewrite list_fmap_id. set_solver.
    - intros ip Hip. match goal with H : each _ (cv_ips x) = [] |- _ => destruct (each_elem _ _ _ H Hip) as [e He] end.
      cbn in He. apply when_nil, bool_decide_eq_false in He. set_solver.
    - intros s Hs. match goal with H : validate_client_strategy _ _ _ = [] |- _ => revert H end.
      rewrite Hs. unfold validate_client_strategy. by case_bool_decide. }
  split_and!.
  - eapply each_nodup; [|exact H]. intros before x Hx. by apply Hcl in Hx as (_ & ? & _).
  - eapply each_nodup; [|exact H]. intros before x Hx. by apply Hcl in Hx as (_ & _ & ? & _).
  - unfold each in H. rewrite each_from_nil in H. clear -H Hcl. induction (cf_clients c) as [|x l IH] using rev_ind; [constructor|].
    rewrite bind_app. apply list.NoDup_app. cbn. rewrite app_nil_r.
    destruct (Hcl l x) as (_ & _ & _ & [Hn Hf] & _); [by apply (H l x [])|]. split_and!.
    + apply IH. intros l1 y l2 ->. apply (H l1 y (l2 ++ [x])). by rewrite <- (assoc_L (++)).
    + intros ip H1 H2. by eapply Hf.
    + done.
  - eapply each_forall; [|exact H]. intros before x Hx. by apply Hcl in Hx as (? & _ & _ & _ & ?).
Qed.

(** ** No [expect] fails *)

Lemma listeners_total work : is_Some (mapM (resolve_listener work) (cf_listener c)).
Proof.
  destruct accepted_names as (Hl & _ & Hs & Hh & _). destruct accepted_refs as (Hr & _). destruct accepted_items as (Hv & _).
  apply mapM_total. intros l Hin. rewrite list.Forall_forall in Hr, Hv. specialize (Hr l Hin). destruct (Hv l Hin) as [p Hp].
  assert (Hn : config_id_ok (listener_name l) = true) by (eapply name_ok; [exact Hl|by apply list_elem_of_fmap_2]).
  destruct l as [name addresses port strategy local|name addresses port strategy local|name routes endpoints];
    cbn in Hr, Hn |- *; rewrite (config_id_ok_Some name) by done; cbn.
  1,2: destruct Hr as [Hst Hlo];
    rewrite (config_id_ok_Some strategy) by (eapply name_ok; [exact Hs|done]); cbn;
    rewrite (optional_id_Some local) by (intros h Hx; eapply name_ok; [exact Hh|auto]); cbn; by eexists.
  cbn in Hp. apply app_eq_nil in Hp as [_ [_ [_ He]%app_eq_nil]%app_eq_nil].
  destruct (mapM_total resolve_route routes) as [rs ->].
  { intros r Hri. rewrite list.Forall_forall in Hr. unfold resolve_route.
    rewrite config_id_ok_Some by (eapply name_ok; [exact Hs|auto]). by eexists. }
  destruct (mapM_total (resolve_endpoint name work) endpoints) as [es ->]; [|by eexists].
  intros e Hei. destruct (each_elem _ _ _ He Hei) as [before Hb]. unfold validate_doh_endpoint in Hb.
  apply app_eq_nil in Hb as [Hb _]. unfold resolve_endpoint.
  rewrite config_id_ok_Some by (by eapply validate_name_ok). by eexists.
Qed.

Lemma members_total l : members_ok l -> mapM resolve_member l = Some l.
Proof.
  destruct accepted_names as (_ & Hu & _). intros H. induction H as [|m l Hm _ IH]; [done|].
  assert (Hr : resolve_member m = Some m).
  { unfold resolve_member. rewrite config_id_ok_Some by (eapply name_ok; [exact Hu|done]). by destruct m. }
  cbn. rewrite Hr. cbn. by rewrite IH.
Qed.

Lemma upstreams_total ecs : is_Some (mapM (resolve_upstream_dto ecs) (cf_upstreams c)).
Proof.
  destruct accepted_names as (_ & Hu & _ & _ & Ho & _). destruct accepted_refs as (_ & Hr & _).
  apply mapM_total. intros u Hin. rewrite list.Forall_forall in Hr. specialize (Hr u Hin).
  assert (Hn : config_id_ok (upstream_name u) = true) by (eapply name_ok; [exact Hu|by apply list_elem_of_fmap_2]).
  destruct u as [name format hs|name address bootstrap ip proxy e|name ms mode timeout fs fmode ftimeout];
    cbn in Hr, Hn |- *; rewrite (config_id_ok_Some name) by done; cbn.
  - by eexists.
  - destruct Hr as [Hb Hp]. rewrite (optional_id_Some bootstrap) by (intros x Hx; eapply name_ok; [exact Hu|auto]). cbn.
    rewrite (optional_id_Some proxy) by (intros x Hx; eapply name_ok; [exact Ho|auto]). by eexists.
  - destruct Hr as [Hm Hf]. rewrite members_total by done. cbn. rewrite members_total by done. by eexists.
Qed.

Lemma rule_resolves ecs r : rule_refs_ok r -> is_Some (resolve_rule ecs r).
Proof.
  destruct accepted_names as (_ & Hu & _ & Hh & _ & Hrs). intros (H1 & H2 & H3). unfold resolve_rule.
  assert (Hset : is_Some (match rl_rule_set r with Some v => Some <$> resolve_rule_set_ref v | None => Some None end)).
  { destruct (rl_rule_set r) as [v|]; [|by eexists]. destruct (H3 v eq_refl) as [p Hp].
    destruct (rule_set_ref_total rule_sets v p) as (x & -> & _); [intros y Hy; eapply name_ok; [exact Hrs|done]|done|by eexists]. }
  destruct Hset as [x ->]. cbn. rewrite (optional_id_Some (rl_hosts r)) by (intros y Hy; eapply name_ok; [exact Hh|auto]). cbn.
  rewrite (optional_id_Some (rl_upstream r)) by (intros y Hy; eapply name_ok; [exact Hu|auto]). by eexists.
Qed.

Lemma strategies_total ttl ecs opt : is_Some (mapM (fun s => resolve_strategy s ttl ecs opt) (cf_strategy c)).
Proof.
  destruct accepted_names as (_ & Hu & Hs & _). destruct accepted_refs as (_ & _ & Hr & _).
  apply mapM_total. intros s Hin. rewrite list.Forall_forall in Hr. destruct (Hr s Hin) as [Hd Hrules].
  unfold resolve_strategy. rewrite (config_id_ok_Some (sd_name s)) by (eapply name_ok; [exact Hs|by apply list_elem_of_fmap_2]). cbn.
  destruct (mapM_total (resolve_rule (resolve_ecs (sd_ecs s) (Some ecs) VS_Strategy)) (sd_rules s)) as [rs ->].
  { intros r Hri. apply rule_resolves. rewrite list.Forall_forall in Hrules. auto. }
  cbn. rewrite (config_id_ok_Some (sd_default_upstream s)) by (eapply name_ok; [exact Hu|done]). by eexists.
Qed.

Lemma resources_total work :
  is_Some (mapM (resolve_hosts work) (cf_hosts c)) /\ is_Some (mapM (resolve_outbound work) (cf_outbound c)) /\
  is_Some (mapM (resolve_rule_set work) (cf_rule_set c)).
Proof.
  destruct accepted_names as (_ & _ & _ & Hh & Ho & Hrs). destruct accepted_refs as (_ & _ & _ & Hr).
  split_and!; apply mapM_total; intros x Hx.
  - assert (Hn : config_id_ok (hosts_name x) = true) by (eapply name_ok; [exact Hh|by apply list_elem_of_fmap_2]).
    destruct x; cbn in Hn |- *; rewrite config_id_ok_Some by done; by eexists.
  - assert (Hn : config_id_ok (ob_name x) = true) by (eapply name_ok; [exact Ho|by apply list_elem_of_fmap_2]).
    unfold resolve_outbound. destruct (secret_parts _) as [[env file] url]. rewrite config_id_ok_Some by done. by eexists.
  - assert (Hn : config_id_ok (rule_set_name x) = true) by (eapply name_ok; [exact Hrs|by apply list_elem_of_fmap_2]).
    rewrite list.Forall_forall in Hr. specialize (Hr x Hx).
    destruct x as [| |name format url proxy]; cbn in Hn, Hr |- *; rewrite config_id_ok_Some by done; cbn; [by eexists..|].
    rewrite (optional_id_Some proxy); [by eexists|]. intros p ->. eapply name_ok; [exact Ho|done].
Qed.

Lemma clients_total ttl ecs opt : is_Some (mapM (resolve_client_v2 ttl ecs opt) (cf_clients c)).
Proof.
  destruct accepted_names as (_ & _ & Hs & _). destruct accepted_clients as (_ & _ & _ & H).
  apply mapM_total. intros x Hx. rewrite list.Forall_forall in H. destruct (H x Hx) as [Hn Hst]. unfold resolve_client_v2.
  rewrite (config_id_ok_Some (cv_name x)) by done. cbn.
  rewrite (optional_id_Some (cv_strategy x)) by (intros y Hy; eapply name_ok; [exact Hs|auto]). by eexists.
Qed.
End Facts.

Context (debug : DebugValue -> list byte).

Lemma resolve_items_total c hash paths plan :
  accepted Url_parse c -> is_Some (resolve_items debug c hash paths plan).
Proof.
  intros Hc. unfold resolve_items.
  destruct (strategies_total c Hc (rdn_ttl_override (resolve_dns_v2 (cf_dns c) (vp_work paths)))
    (rdn_ecs (resolve_dns_v2 (cf_dns c) (vp_work paths)))
    (fg_optimistic (rdn_cache (resolve_dns_v2 (cf_dns c) (vp_work paths))))) as [? E1].
  destruct (listeners_total c Hc (vp_work paths)) as [? E2].
  destruct (upstreams_total c Hc (rdn_ecs (resolve_dns_v2 (cf_dns c) (vp_work paths)))) as [? E3].
  destruct (resources_total c Hc (vp_work paths)) as ([? E4] & [? E5] & [? E6]).
  destruct (clients_total c Hc (rdn_ttl_override (resolve_dns_v2 (cf_dns c) (vp_work paths)))
    (rdn_ecs (resolve_dns_v2 (cf_dns c) (vp_work paths)))
    (fg_optimistic (rdn_cache (resolve_dns_v2 (cf_dns c) (vp_work paths))))) as [? E7].
  cbv zeta. cbn [rw_path]. rewrite E1. cbn [mbind option_bind]. rewrite E2. cbn [mbind option_bind].
  rewrite E3. cbn [mbind option_bind]. rewrite E4. cbn [mbind option_bind]. rewrite E5. cbn [mbind option_bind].
  rewrite E6. cbn [mbind option_bind]. rewrite E7. by eexists.
Qed.

(** C7: Resolution: it never panics, whatever the document: every name, reference and selector
    it unwraps was validated. A configuration comes out exactly when the document is valid
    and its paths are accepted; otherwise their errors are returned. *)
Theorem resolve_never_panics c hash source :
  exists r, resolve_config_v2 Url_parse debug c hash source = Some r /\
    match ConfigV2_validate Url_parse c, resolve_paths c source with
    | Ok _, Ok _ => exists v, r = Ok v
    | Ok _, Err report => r = Err report
    | Err report, _ => r = Err report
    end.
Proof.
  unfold resolve_config_v2. destruct (ConfigV2_validate Url_parse c) as [[]|report] eqn:Hv; [|by eexists].
  apply validate_accepted in Hv. destruct (resolve_paths c source) as [paths|report]; [|by eexists].
  destruct (ac_bind _ _ Hv) as [plan ->].
  destruct (resolve_items_total c hash paths plan Hv) as [v ->]. cbn. eexists. split; [done|]. by exists v.
Qed.
End Proofs.

(** Inverts the binds of a resolution that succeeded. *)
Ltac resolve_inv :=
  repeat match goal with
  | H : (_ ≫= _) = Some _ |- _ => apply bind_Some in H as (? & ? & H)
  | H : config_id _ = Some _ |- _ => apply config_id_inv in H
  | H : optional_id _ = Some _ |- _ => apply optional_id_inv in H
  | H : Some _ = Some _ |- _ => injection H as H
  end; subst; cbn in *.

(** ** Closed configurations *)

Section Closed.
Context {IN : IpNetOps}.

Definition listener_strategies (l : FullListener) : list ConfigId :=
  match l with FullUdp _ _ _ s _ | FullTcp _ _ _ s _ => [s] | FullDoh _ routes _ => dr_strategy <$> routes end.
Definition listener_hosts (l : FullListener) : list ConfigId :=
  match l with FullUdp _ _ _ _ h | FullTcp _ _ _ _ h => option_list h | FullDoh _ _ _ => [] end.
Definition upstream_needs (u : FullUpstream) : list ConfigId :=
  match u with
  | FullHosts _ _ _ => []
  | FullDohUpstream _ _ bootstrap _ _ _ => option_list bootstrap
  | FullGroup _ upstreams _ _ fallbacks _ _ => member_name <$> upstreams ++ fallbacks
  end.
Definition upstream_proxies (u : FullUpstream) : list ConfigId :=
  match u with FullDohUpstream _ _ _ _ proxy _ => option_list proxy | _ => [] end.
Definition rule_set_proxies (r : ResolvedRuleSet) : list ConfigId :=
  match r with RRuleSetRemote _ _ _ proxy _ _ => option_list proxy | _ => [] end.

(** What a selector of a group takes. *)
Definition selectable (mode : UpstreamMode) (members : list Member) : Prop :=
  members <> [] /\ NoDup (member_name <$> members) /\
  Forall (fun m => weight m <> 0 /\ match mode with UM_Parallel | UM_Failover => weight m = 1 | _ => True end) members.

Definition group_ok (u : FullUpstream) : Prop :=
  match u with
  | FullGroup _ members mode timeout fallbacks fmode ftimeout =>
    selectable mode members /\ timeout <> 0 /\
    (fallbacks = [] \/ exists fm ft, fmode = Some fm /\ ftimeout = Some ft /\ ft <> 0 /\ selectable fm fallbacks)
  | _ => True
  end.

Definition upstream_depends (l : list FullUpstream) (n m : ConfigId) : Prop :=
  exists u w, u ∈ l /\ w ∈ l /\ full_upstream_id u = n /\ full_upstream_id w = m /\ m ∈ upstream_needs u.

Section Of.
Context (v : ResolvedConfig).
Let strategies := st_id <$> rcf_strategies v.
Let upstreams := full_upstream_id <$> rcf_upstreams v.
Let hosts := resolved_hosts_id <$> rcf_hosts v.
Let outbounds := ro_id <$> rcf_outbounds v.
Let rule_sets := resolved_rule_set_id <$> rcf_rule_sets v.

(** A rule sends what a rule set matches to an upstream, or answers from hosts. *)
Definition rule_closed (r : ResolvedStrategyRule) : Prop :=
  match sr_rule_set r, sr_hosts r, sr_upstream r with
  | Some s, None, Some u => rr_resource s ∈ rule_sets /\ u ∈ upstreams
  | None, Some h, None => h ∈ hosts
  | _, _, _ => False
  end.

Record config_closed : Prop := {
  cl_names : names_ok (full_listener_id <$> rcf_listeners v) /\ names_ok upstreams /\ names_ok strategies /\
    names_ok hosts /\ names_ok outbounds /\ names_ok rule_sets /\ names_ok (rc_name <$> rcf_clients v);
  cl_identities : NoDup (rcf_clients v ≫= rc_client_ids) /\ NoDup (rcf_clients v ≫= rc_ips);
  cl_listeners : Forall (fun l => listener_strategies l ⊆ strategies /\ listener_hosts l ⊆ hosts) (rcf_listeners v);
  cl_upstreams : Forall (fun u => upstream_needs u ⊆ upstreams /\ upstream_proxies u ⊆ outbounds /\ group_ok u)
    (rcf_upstreams v);
  cl_strategies : Forall (fun s => st_default_upstream s ∈ upstreams /\ st_rules s <> [] /\ Forall rule_closed (st_rules s))
    (rcf_strategies v);
  cl_rule_sets : Forall (fun r => rule_set_proxies r ⊆ outbounds) (rcf_rule_sets v);
  cl_clients : Forall (fun x => forall s, rc_strategy x = Some s -> s ∈ strategies) (rcf_clients v);
  cl_acyclic : forall n, ~ tc (upstream_depends (rcf_upstreams v)) n n
}.
End Of.

(** ** A name is not blank *)

Lemma drop_while_keeps p l c : c ∈ l -> p c = false -> drop_while p l <> [].
Proof.
  intros Hc Hp. induction l as [|x l IH]; [by apply elem_of_nil in Hc|]. cbn.
  destruct (p x) eqn:E; [|done]. apply IH. apply elem_of_cons in Hc as [->|]; [congruence|done].
Qed.

Lemma trim_keeps c l : is_whitespace c = false -> trim (c :: l) <> [].
Proof.
  intros Hc. unfold trim. cbn [drop_while]. rewrite Hc. intros H%(f_equal reverse).
  revert H. rewrite ?reverse_involutive. intros H. eapply (drop_while_keeps is_whitespace (reverse (c :: l)) c); [|done|exact H].
  by rewrite elem_of_reverse, elem_of_cons; left.
Qed.

Definition graphic (b : byte) : bool := (33 <=? byte_to_Z b) && (byte_to_Z b <=? 126).

Lemma graphic_not_blank s b rest : str_bytes s = b :: rest -> graphic b = true -> blank s = false.
Proof.
  intros Hs Hb. unfold blank. rewrite Hs. unfold graphic in Hb. cbn [utf8_decode].
  assert (Hlt : (byte_to_Z b <? 0x80) = true) by lia. rewrite Hlt.
  destruct (utf8_decode rest) as [l|]; [|done]. cbn. apply bool_decide_eq_false, trim_keeps.
  unfold is_whitespace. lia.
Qed.

Lemma config_id_head s : config_id_ok s = true -> exists b rest, str_bytes s = b :: rest /\ graphic b = true.
Proof.
  unfold config_id_ok. intros [Hl Hf]%andb_true_iff. destruct s as [|c s]; [done|].
  cbn in Hf. apply andb_true_iff in Hf as [Hb _]. eexists _, _. split; [done|].
  unfold is_ascii_alphanumeric, is_id_punct in Hb. unfold graphic. lia.
Qed.

Lemma config_id_not_blank s : config_id_ok s = true -> blank s = false.
Proof. intros (b & rest & Hs & Hb)%config_id_head. by eapply graphic_not_blank. Qed.

Lemma selector_not_blank rule_sets value path :
  (forall x, x ∈ rule_sets -> config_id_ok x = true) -> check_rule_set_selector rule_sets value path = [] ->
  blank value = false.
Proof.
  intros Hok. unfold check_rule_set_selector. case_bool_decide as Hv; [intros _; by apply config_id_not_blank, Hok|].
  destruct (split_selector value) as [[base selector]|] eqn:E; [|done]. intros [Hb _]%app_eq_nil.
  apply when_nil, negb_false_iff, bool_decide_eq_true, Hok, config_id_head in Hb as (b & rest & Hs & Hg).
  apply split_colon_spec in E as (c & -> & _).
  destruct base as [|a base]; [done|]. eapply graphic_not_blank; [|exact Hg]. cbn in Hs |- *. by injection Hs as <- _.
Qed.

(** ** Resolution keeps names and references *)

Lemma rule_set_ref_inv value r :
  resolve_rule_set_ref value = Some r ->
  rr_resource r = match split_selector value with Some (base, _) => base | None => value end.
Proof.
  unfold resolve_rule_set_ref. destruct (split_selector value) as [[base sel]|]; cbn.
  - destruct (normalize_rule_set_selector _ _); [|done]. cbn. destruct (config_id base) eqn:E; [|done]. cbn.
    intros [= <-]. by apply config_id_inv in E.
  - destruct (config_id value) eqn:E; [|done]. cbn. intros [= <-]. by apply config_id_inv in E.
Qed.

Lemma resolve_member_id m m' : resolve_member m = Some m' -> m' = m.
Proof. unfold resolve_member. intros H. resolve_inv. by destruct m. Qed.

Lemma resolve_members_id l l' : mapM resolve_member l = Some l' -> l' = l.
Proof.
  intros H. apply (mapM_fmap resolve_member id id) in H; [by rewrite !list_fmap_id in H|]. intros x y. apply resolve_member_id.
Qed.

Lemma resolve_listener_inv work l r :
  resolve_listener work l = Some r ->
  full_listener_id r = listener_name l /\
  listener_strategies r = match l with UdpDto _ _ _ s _ | TcpDto _ _ _ s _ => [s] | DohDto _ routes _ => rt_strategy <$> routes end /\
  listener_hosts r = match l with UdpDto _ _ _ _ h | TcpDto _ _ _ _ h => option_list h | DohDto _ _ _ => [] end.
Proof.
  destruct l; cbn; intros H; resolve_inv; split_and!; try done.
  eapply mapM_fmap; [|done]. intros a b Hab. unfold resolve_route in Hab. by resolve_inv.
Qed.

Lemma resolve_upstream_inv ecs u r :
  resolve_upstream_dto ecs u = Some r ->
  full_upstream_id r = upstream_name u /\ upstream_needs r = upstream_edges u /\
  upstream_proxies r = match u with DohUpstreamDto _ _ _ _ proxy _ => option_list proxy | _ => [] end.
Proof.
  destruct u as [|name address bootstrap|name ms mode timeout fs fmode ftimeout]; cbn; intros H; resolve_inv; try done.
  repeat match goal with H : mapM resolve_member _ = Some _ |- _ => apply resolve_members_id in H end. by subst.
Qed.

Lemma group_members_selectable members mode path :
  validate_group_members members mode path = [] -> selectable mode members.
Proof.
  intros [H1 H2]%app_eq_nil. apply when_nil, bool_decide_eq_false in H1. split_and!; [done| |].
  - eapply each_nodup; [|exact H2]. cbn. intros before m [_ [Hd _]%app_eq_nil]%app_eq_nil.
    by apply when_nil, bool_decide_eq_false in Hd.
  - eapply each_forall; [|exact H2]. cbn. intros before m [_ [_ [Hw Hm]%app_eq_nil]%app_eq_nil]%app_eq_nil.
    apply when_nil, Z.eqb_neq in Hw. apply when_nil in Hm. split; [done|].
    destruct mode; try done; by apply negb_false_iff, Z.eqb_eq in Hm.
Qed.

Lemma resolve_group_ok ecs u r path : validate_upstream u path = [] -> resolve_upstream_dto ecs u = Some r -> group_ok r.
Proof.
  destruct u as [| |name ms mode timeout fs fmode ftimeout]; cbn; intros Hv H; resolve_inv; try done.
  repeat match goal with H : mapM resolve_member _ = Some _ |- _ => apply resolve_members_id in H as -> end.
  apply app_eq_nil in Hv as [Hm [Ht Hf]%app_eq_nil]. apply group_members_selectable in Hm.
  apply when_nil, Z.eqb_neq in Ht. split_and!; [done|done|]. destruct fs as [fs|]; cbn; [|by left].
  apply app_eq_nil in Hf as [_ [H1 [H2 H3]%app_eq_nil]%app_eq_nil].
  apply when_nil in H1, H2. destruct fmode as [fm|]; [|done]. destruct ftimeout as [ft|]; [|done].
  right. exists fm, ft. split_and!; [done|done|by apply Z.eqb_neq in H2|by eapply group_members_selectable].
Qed.

(** ** An accepted rule is closed *)

Section Rules.
Context (hosts upstreams rule_sets : list string).
Context (Hh : names_ok hosts) (Hu : names_ok upstreams) (Hr : names_ok rule_sets).

Lemma rule_shape path r ecs out :
  validate_rule path r = [] ->
  (forall h, rl_hosts r = Some h -> h ∈ hosts) -> (forall u, rl_upstream r = Some u -> u ∈ upstreams) ->
  (forall v, rl_rule_set r = Some v -> exists p, check_rule_set_selector rule_sets v p = []) ->
  resolve_rule ecs r = Some out ->
  match sr_rule_set out, sr_hosts out, sr_upstream out with
  | Some s, None, Some u => rr_resource s ∈ rule_sets /\ u ∈ upstreams
  | None, Some h, None => h ∈ hosts
  | _, _, _ => False
  end.
Proof.
  intros [H1 [H2 [H3 _]%app_eq_nil]%app_eq_nil]%app_eq_nil Hhosts Hups Hsets. apply when_nil in H1, H2, H3.
  assert (Nh : names_item (rl_hosts r) = is_set (rl_hosts r)).
  { destruct (rl_hosts r) as [h|]; [|done]. cbn. by rewrite config_id_not_blank by (eapply name_ok; [exact Hh|auto]). }
  assert (Ns : names_item (rl_rule_set r) = is_set (rl_rule_set r)).
  { destruct (rl_rule_set r) as [s|]; [|done]. cbn. destruct (Hsets s eq_refl) as [p Hp].
    rewrite (selector_not_blank rule_sets s p); [done| |done]. intros x. by eapply name_ok. }
  rewrite Nh, Ns in *. unfold resolve_rule. intros (rs & Hrs & (h & Hho & (u & Hup & Hout)%bind_Some)%bind_Some)%bind_Some.
  apply optional_id_inv in Hho as ->. apply optional_id_inv in Hup as ->. injection Hout as <-. cbn.
  destruct (rl_rule_set r) as [s|], (rl_hosts r) as [h|]; cbn in *; try done.
  - destruct (resolve_rule_set_ref s) as [ref|] eqn:Eref; [|done]. injection Hrs as <-.
    destruct (rl_upstream r) as [u|]; [|done]. split; [|by apply Hups].
    destruct (Hsets s eq_refl) as [p Hp].
    destruct (rule_set_ref_total rule_sets s p) as (ref' & Eref' & Hin); [intros; by eapply name_ok|done|]. congruence.
  - injection Hrs as <-. destruct (rl_upstream r); [done|]. by apply Hhosts.
Qed.
End Rules.
End Closed.

Section Composition.
Context {IN : IpNetOps} (Url_parse : chars -> option Url).
Context (debug : DebugValue -> list byte).

(** What [resolve_items] made of every namespace. *)
Record items_of (c : ConfigV2) (work : PathBuf) (v : ResolvedConfig) : Prop := {
  io_strategies : mapM (fun s => resolve_strategy s (rdn_ttl_override (rcf_dns v)) (rdn_ecs (rcf_dns v))
    (fg_optimistic (rdn_cache (rcf_dns v)))) (cf_strategy c) = Some (rcf_strategies v);
  io_listeners : mapM (resolve_listener work) (cf_listener c) = Some (rcf_listeners v);
  io_upstreams : mapM (resolve_upstream_dto (rdn_ecs (rcf_dns v))) (cf_upstreams c) = Some (rcf_upstreams v);
  io_hosts : mapM (resolve_hosts work) (cf_hosts c) = Some (rcf_hosts v);
  io_outbounds : mapM (resolve_outbound work) (cf_outbound c) = Some (rcf_outbounds v);
  io_rule_sets : mapM (resolve_rule_set work) (cf_rule_set c) = Some (rcf_rule_sets v);
  io_clients : mapM (resolve_client_v2 (rdn_ttl_override (rcf_dns v)) (rdn_ecs (rcf_dns v))
    (fg_optimistic (rdn_cache (rcf_dns v)))) (cf_clients c) = Some (rcf_clients v)
}.

Lemma resolve_config_inv c hash source v :
  resolve_config_v2 Url_parse debug c hash source = Some (Ok v) ->
  accepted Url_parse c /\ exists work, items_of c work v.
Proof.
  unfold resolve_config_v2. destruct (ConfigV2_validate Url_parse c) as [[]|] eqn:Hv; [|done].
  apply validate_accepted in Hv. destruct (resolve_paths c source) as [paths|]; [|done].
  destruct (build_resource_bind_plan c) as [plan|]; [|done].
  destruct (resolve_items _ c hash paths plan) as [v'|] eqn:Hi; [|done]. cbn. intros [= <-]. split; [done|].
  exists (vp_work paths). revert Hi. unfold resolve_items. cbv zeta.
  intros (? & ? & (? & ? & (? & ? & (? & ? & (? & ? & (? & ? & (? & ? & H)%bind_Some)%bind_Some)%bind_Some)%bind_Some)%bind_Some)%bind_Some)%bind_Some.
  injection H as <-. by constructor.
Qed.

Lemma strategy_ids ttl ecs opt s r : resolve_strategy s ttl ecs opt = Some r -> st_id r = sd_name s.
Proof. unfold resolve_strategy. intros H. by resolve_inv. Qed.

Lemma items_names c work v :
  items_of c work v ->
  full_listener_id <$> rcf_listeners v = listener_name <$> cf_listener c /\
  full_upstream_id <$> rcf_upstreams v = upstream_name <$> cf_upstreams c /\
  st_id <$> rcf_strategies v = sd_name <$> cf_strategy c /\
  resolved_hosts_id <$> rcf_hosts v = hosts_name <$> cf_hosts c /\
  ro_id <$> rcf_outbounds v = ob_name <$> cf_outbound c /\
  resolved_rule_set_id <$> rcf_rule_sets v = rule_set_name <$> cf_rule_set c.
Proof.
  intros [Hs Hl Hu Hh Ho Hr _]. split_and!; (eapply mapM_fmap; [|done]); intros x y Hxy.
  - by apply resolve_listener_inv in Hxy as [? _].
  - by apply resolve_upstream_inv in Hxy as [? _].
  - cbn in Hxy. eapply strategy_ids, Hxy.
  - destruct x; cbn in Hxy; by resolve_inv.
  - unfold resolve_outbound in Hxy. destruct (secret_parts _) as [[env file] url]. by resolve_inv.
  - destruct x; cbn in Hxy; by resolve_inv.
Qed.

Lemma items_clients c work v :
  items_of c work v ->
  rc_name <$> rcf_clients v = cv_name <$> cf_clients c /\
  rcf_clients v ≫= rc_client_ids = cv_client_id <$> cf_clients c /\ rcf_clients v ≫= rc_ips = cf_clients c ≫= cv_ips /\
  rc_strategy <$> rcf_clients v = cv_strategy <$> cf_clients c.
Proof.
  intros [_ _ _ _ _ _ Hc]. apply mapM_Some in Hc. induction Hc as [|x y l l' Hxy _ (IH1 & IH2 & IH3 & IH4)]; [done|].
  unfold resolve_client_v2 in Hxy.
  apply bind_Some in Hxy as (n & Hn%config_id_inv & (s & Hs%optional_id_inv & Hy)%bind_Some).
  injection Hy as <-. subst. rewrite !fmap_cons, IH1, IH4. split_and!; [done| | |done].
  - change (cv_client_id x :: (l' ≫= rc_client_ids) = cv_client_id x :: (cv_client_id <$> l)). by rewrite IH2.
  - change (cv_ips x ++ (l' ≫= rc_ips) = cv_ips x ++ (l ≫= cv_ips)). by rewrite IH3.
Qed.

Lemma option_list_subset (o : option string) l : (forall x, o = Some x -> x ∈ l) -> option_list o ⊆ l.
Proof. destruct o as [x|]; cbn; intros H y Hy; [|by apply elem_of_nil in Hy]. apply list_elem_of_singleton in Hy as ->. auto. Qed.

(** Dependencies of the resolved upstreams are those of the document. *)
Lemma depends_needs ecs l l' n m :
  mapM (resolve_upstream_dto ecs) l = Some l' -> upstream_depends l' n m -> needs l n m.
Proof.
  intros HF%mapM_Some (u & w & Hu & Hw & <- & <- & Hm).
  apply list_elem_of_lookup_1 in Hu as [i Hi]. apply list_elem_of_lookup_1 in Hw as [j Hj].
  destruct (Forall2_lookup_r _ _ _ _ _ HF Hi) as (x & Hx & Exu). destruct (Forall2_lookup_r _ _ _ _ _ HF Hj) as (y & Hy & Eyw).
  apply resolve_upstream_inv in Exu as (Hid & Hne & _). apply resolve_upstream_inv in Eyw as (Hid' & _).
  exists x, y. rewrite <- Hne. split_and!; [by eapply list_elem_of_lookup_2..|done|done|done].
Qed.

Section Parts.
Context (c : ConfigV2) (work : PathBuf) (v : ResolvedConfig) (Hc : accepted Url_parse c) (Hio : items_of c work v).

Lemma closed_listeners : Forall (fun l => listener_strategies l ⊆ sd_name <$> cf_strategy c /\
  listener_hosts l ⊆ hosts_name <$> cf_hosts c) (rcf_listeners v).
Proof.
  destruct (accepted_refs Url_parse c Hc) as (R & _).
  eapply mapM_Forall; [|exact R|exact (io_listeners _ _ _ Hio)]. intros x y Hx Hy.
  apply resolve_listener_inv in Hy as (_ & -> & ->). destruct x as [? ? ? s h|? ? ? s h|? routes ?]; cbn in Hx;
    [destruct Hx as [? ?]; split; [intros z Hz; by apply list_elem_of_singleton in Hz as ->|by apply option_list_subset]..|].
  split; [|intros z Hz; by apply elem_of_nil in Hz].
  intros z (r & -> & Hr)%list_elem_of_fmap. by apply (proj1 (list.Forall_forall _ _) Hx).
Qed.

Lemma closed_upstreams : Forall (fun u => upstream_needs u ⊆ upstream_name <$> cf_upstreams c /\
  upstream_proxies u ⊆ ob_name <$> cf_outbound c /\ group_ok u) (rcf_upstreams v).
Proof.
  destruct (accepted_refs Url_parse c Hc) as (_ & R & _). destruct (accepted_items Url_parse c Hc) as (_ & V & _).
  assert (RV : Forall (fun u => upstream_refs_ok c u /\ exists p, validate_upstream u p = []) (cf_upstreams c)) by (by apply Forall_and).
  eapply mapM_Forall; [|exact RV|exact (io_upstreams _ _ _ Hio)]. intros x y [Hx [p Hp]] Hy.
  split; [|split; [|by eapply resolve_group_ok]]; apply resolve_upstream_inv in Hy as (_ & Hn & Hpr).
  - rewrite Hn. destruct x as [|? ? bootstrap|? ms ? ? fs]; cbn in Hx |- *.
    + intros z Hz. by apply elem_of_nil in Hz.
    + destruct bootstrap as [b|]; intros z Hz; [|by apply elem_of_nil in Hz].
      apply list_elem_of_singleton in Hz as ->. by apply Hx.
    + destruct Hx as [H1 H2]. intros z (m & -> & [Hm|Hm]%elem_of_app)%list_elem_of_fmap;
        [by apply (proj1 (list.Forall_forall _ _) H1)|by apply (proj1 (list.Forall_forall _ _) H2)].
  - rewrite Hpr. destruct x; cbn in Hx; [intros z Hz; by apply elem_of_nil in Hz|by apply option_list_subset, Hx|].
    intros z Hz. by apply elem_of_nil in Hz.
Qed.

Lemma closed_strategies : Forall (fun s => st_default_upstream s ∈ upstream_name <$> cf_upstreams c /\ st_rules s <> [] /\
  Forall (rule_closed v) (st_rules s)) (rcf_strategies v).
Proof.
  destruct (accepted_refs Url_parse c Hc) as (_ & _ & R & _). destruct (accepted_items Url_parse c Hc) as (_ & _ & V & _).
  destruct (accepted_names Url_parse c Hc) as (_ & Nu & _ & Nh & _ & Nr).
  destruct (items_names _ _ _ Hio) as (_ & Eu & _ & Eh & _ & Er).
  assert (RV : Forall (fun s => strategy_refs_ok c s /\ exists p, validate_strategy s p = []) (cf_strategy c)) by (by apply Forall_and).
  eapply mapM_Forall; [|exact RV|exact (io_strategies _ _ _ Hio)]. intros x y [[Hd Hr] [p Hp]] Hy. cbn in Hy.
  apply bind_Some in Hy as (i & _ & (rules & Hrules & (d & ->%config_id_inv & Hy)%bind_Some)%bind_Some).
  injection Hy as <-. cbn [st_default_upstream st_rules]. unfold validate_strategy in Hp.
  apply app_eq_nil in Hp as [Hne Hp]. do 4 (apply app_eq_nil in Hp as [_ Hp]).
  apply when_nil, bool_decide_eq_false in Hne. split_and!; [done| |].
  - intros ->. apply mapM_Some, Forall2_length in Hrules. done.
  - assert (Hall : Forall (fun r => rule_refs_ok c r /\ exists q, validate_rule q r = []) (sd_rules x)).
    { apply Forall_and; [done|]. eapply each_forall; [|exact Hp]. cbn. intros before r Hv. by eexists. }
    eapply mapM_Forall; [|exact Hall|exact Hrules]. intros r out [(H1 & H2 & H3) [q Hq]] Ho.
    unfold rule_closed. rewrite Eu, Eh, Er. eapply rule_shape; [exact Nh|exact Nr|exact Hq|done..].
Qed.

Lemma closed_rule_sets : Forall (fun r => rule_set_proxies r ⊆ ob_name <$> cf_outbound c) (rcf_rule_sets v).
Proof.
  destruct (accepted_refs Url_parse c Hc) as (_ & _ & _ & R).
  eapply mapM_Forall; [|exact R|exact (io_rule_sets _ _ _ Hio)]. intros x y Hx Hy.
  destruct x as [| |? ? ? proxy]; cbn in Hx, Hy; resolve_inv; try (intros z Hz; by apply elem_of_nil in Hz).
  match goal with |- option_list ?o ⊆ _ => destruct o end; [|intros z Hz; by apply elem_of_nil in Hz].
  intros z Hz. by apply list_elem_of_singleton in Hz as ->.
Qed.

Lemma closed_clients :
  Forall (fun x => forall s, rc_strategy x = Some s -> s ∈ sd_name <$> cf_strategy c) (rcf_clients v).
Proof.
  destruct (accepted_clients Url_parse c Hc) as (_ & _ & _ & R).
  eapply mapM_Forall; [|exact R|exact (io_clients _ _ _ Hio)]. intros x y [_ Hx] Hy.
  unfold resolve_client_v2 in Hy. by resolve_inv.
Qed.
End Parts.

Lemma depends_tc c work v n m :
  items_of c work v -> tc (upstream_depends (rcf_upstreams v)) n m -> tc (needs (cf_upstreams c)) n m.
Proof.
  intros Hio. apply tc_mono. intros x y. by eapply depends_needs, io_upstreams.
Qed.

Lemma resolve_closed c hash source v :
  resolve_config_v2 Url_parse debug c hash source = Some (Ok v) -> config_closed v.
Proof.
  intros (Hc & work & Hio)%resolve_config_inv.
  pose proof (items_names _ _ _ Hio) as (El & Eu & Es & Eh & Eo & Er).
  pose proof (items_clients _ _ _ Hio) as (Ec1 & Ec2 & Ec3 & Ec4).
  pose proof (accepted_names Url_parse c Hc) as (Nl & Nu & Ns & Nh & No & Nr).
  pose proof (accepted_clients Url_parse c Hc) as (C1 & C2 & C3 & C4).
  constructor; rewrite ?El, ?Eu, ?Es, ?Eh, ?Eo, ?Er, ?Ec1, ?Ec2, ?Ec3.
  - split_and!; try done. split; [done|]. apply list.Forall_fmap. eapply list.Forall_impl; [exact C4|]. by intros x [? _].
  - done.
  - by eapply closed_listeners.
  - by eapply closed_upstreams.
  - by eapply closed_strategies.
  - by eapply closed_rule_sets.
  - by eapply closed_clients.
  - intros n Hn. apply (proj1 (cycles_graph _) (ac_cycles _ _ Hc) n). eapply tc_equiv; [intros; by apply edge_needs, Nu|].
    by apply (depends_tc c work v n n Hio).
Qed.

(** C9: The result of resolution is closed: every name is a valid identifier and unique in
    its kind, clients share no identity or network, every reference leads to an item of
    the right kind, a rule either sends the matches of a rule set to an upstream or
    answers from hosts, groups are of a shape their selectors take, and no upstream
    depends on itself. *)
Theorem resolved_config_closed c hash source v :
  resolve_config_v2 Url_parse debug c hash source = Some (Ok v) -> config_closed v.
Proof. apply resolve_closed. Qed.
End Composition.

(** ** The upstreams of a closed configuration can be built *)

Section Build.
Context {IN : IpNetOps}.

Lemma check_members_total mode seen rest index total :
  NoDup (member_name <$> seen ++ rest) ->
  Forall (fun m => weight m <> 0 /\ match mode with UM_Parallel | UM_Failover => weight m = 1 | _ => True end) rest ->
  exists t, Group.check_members (policy_of_mode mode) seen rest index total = Ok t.
Proof.
  revert seen index total. induction rest as [|m rest IH]; intros seen index total Hd HF; cbn; [by eexists|].
  apply Forall_cons_iff in HF as [[Hw Hm] HF]. rewrite (proj2 (Z.eqb_neq _ _) Hw).
  rewrite bool_decide_eq_false_2.
  2:{ rewrite fmap_app, fmap_cons in Hd. apply list.NoDup_app in Hd as (_ & Hd & _). intros Hin.
      apply (Hd _ Hin). left. }
  assert (Hfix : ((bool_decide (policy_of_mode mode = Parallel) || bool_decide (policy_of_mode mode = Failover)) &&
    negb (weight m =? 1)) = false) by (destruct mode; cbn in Hm |- *; try done; by rewrite Hm).
  rewrite Hfix. apply IH; [|done]. by rewrite <- (assoc_L (++)).
Qed.

Lemma new_selector_total mode members :
  selectable mode members -> exists g, new_selector (policy_of_mode mode) members = Ok g /\ g_members g = members.
Proof.
  intros (Hne & Hd & HF). destruct (check_members_total mode [] members 0 0 Hd HF) as [t Ht].
  unfold new_selector. rewrite bool_decide_eq_false_2 by done. rewrite bool_decide_eq_false_2 by (by destruct mode).
  rewrite Ht. cbn. by eexists.
Qed.

Context (defs : gmap string ResolvedUpstream) (direct : gmap string ConnectorId).
Context (direct_ok : forall name c, direct !! name = Some c -> c = mk_connector name).

(** A member is a group or has a connector, and its name is that of a connector. *)
Definition member_known (m : Member) : Prop :=
  is_Some (ConnectorId_new (member_name m)) /\
  (group_name defs (member_name m) = true \/ is_Some (direct !! member_name m)).

Definition group_buildable (id : string) (u : ResolvedUpstream) : Prop :=
  match u with
  | UpstreamGroup _ members mode timeout fallbacks fmode ftimeout =>
    is_Some (ConnectorId_new id) /\ Forall member_known (members ++ fallbacks) /\ selectable mode members /\ timeout <> 0 /\
    (fallbacks = [] \/ exists fm ft, fmode = Some fm /\ ftimeout = Some ft /\ ft <> 0 /\ selectable fm fallbacks)
  | _ => True
  end.

Context (buildable : forall id u, defs !! id = Some u -> group_buildable id u).
Context (acyclic : forall n, ~ tc (group_edge defs) n n).

Definition builds (build : string -> BuildState -> result UpstreamRuntimeBuildError BuildState) (m : Member) : Prop :=
  forall st, build_inv defs direct st -> group_name defs (member_name m) = true -> is_ok (build (member_name m) st) = true.

Section Members.
Context (build : string -> BuildState -> result UpstreamRuntimeBuildError BuildState) (B : gset string).

Lemma exchange_total group m st :
  (forall st, build_inv defs direct st -> group_name defs (member_name m) = true ->
     build_post defs direct B st (member_name m) (build (member_name m) st)) ->
  builds build m -> member_known m -> build_inv defs direct st ->
  is_ok (member_exchange_of build defs group m st) = true.
Proof.
  intros Hpost Hb [[cid Hcid] Hk] Hi. unfold member_exchange_of. fold (group_name defs (member_name m)).
  destruct (group_name defs (member_name m)) eqn:Hg.
  - specialize (Hpost st Hi eq_refl). specialize (Hb st Hi Hg). destruct (build (member_name m) st) as [st'|]; [|done].
    destruct Hpost as [_ [ex Hx]]. cbn. rewrite Hx. cbn. by rewrite Hcid.
  - destruct Hk as [?|[cn Hd]]; [done|]. rewrite (bi_all _ _ _ Hi).
    destruct (bs_groups st !! member_name m) eqn:Hl.
    + exfalso. assert (group_name defs (member_name m) = true); [|congruence].
      eapply built_group_name; [apply Hi|by eexists].
    + by rewrite Hd.
Qed.

Lemma exchanges_total group members st :
  (forall m st, m ∈ members -> build_inv defs direct st -> group_name defs (member_name m) = true ->
     build_post defs direct B st (member_name m) (build (member_name m) st)) ->
  Forall (builds build) members -> Forall member_known members -> build_inv defs direct st ->
  exists xs st', group_member_exchanges build defs group members st = Ok (xs, st') /\
    build_step defs direct B st st' /\ Forall2 (member_bound defs direct (bs_groups st')) members xs.
Proof.
  intros Hpost Hb Hk Hi.
  assert (Hok : is_ok (group_member_exchanges build defs group members st) = true).
  { revert st Hi. induction members as [|m members IH]; intros st Hi; [done|]. cbn [group_member_exchanges].
    apply Forall_cons_iff in Hb as [Hm Hb], Hk as [Hkm Hk].
    assert (Hp1 : forall st, build_inv defs direct st -> group_name defs (member_name m) = true ->
      build_post defs direct B st (member_name m) (build (member_name m) st)) by (intros; apply Hpost; [left|done..]).
    pose proof (exchange_total group m st Hp1 Hm Hkm Hi) as H1.
    pose proof (member_exchange_of_spec defs direct direct_ok build B group m st Hp1 Hi) as H2.
    destruct (member_exchange_of build defs group m st) as [[x st1]|]; [|done]. cbn.
    assert (H3 : is_ok (group_member_exchanges build defs group members st1) = true).
    { apply IH; [|done..|apply H2]. intros; apply Hpost; [by right|done..]. }
    by destruct (group_member_exchanges build defs group members st1) as [[xs st2]|]. }
  pose proof (group_member_exchanges_spec defs direct direct_ok build B group members st Hpost Hi) as Hs.
  destruct (group_member_exchanges build defs group members st) as [[xs st']|]; [|done]. by exists xs, st'.
Qed.

Lemma phase_total g members xs groups timeout :
  g_members g = members -> members <> [] -> NoDup (member_name <$> members) -> Forall member_known members ->
  Forall2 (member_bound defs direct groups) members xs -> timeout <> 0 ->
  is_ok (new_members g xs (Some timeout)) = true.
Proof.
  intros Hg Hne Hd Hk HF Ht.
  assert (Hxs : connector_id <$> xs = member_connector <$> members).
  { clear -HF. induction HF as [|m x ms xs [Hx _] _ IH]; [done|]. rewrite !fmap_cons. by rewrite Hx, IH. }
  apply (new_members_iff g xs (Some timeout)). rewrite Hg, Hxs. split_and!; [|congruence| | |done].
  - intros ->. by apply Forall2_nil_inv_r in HF.
  - change (NoDup ((mk_connector ∘ member_name) <$> members)). rewrite list_fmap_compose.
    apply (NoDup_fmap_2_strong mk_connector); [|exact Hd]. intros x y _ _ [= ->]. done.
  - eapply list.Forall_impl; [exact Hk|]. by intros m [? _].
Qed.
End Members.

Lemma executor_total build B id members mode timeout fallbacks fmode ftimeout st :
  (forall m st, m ∈ members ++ fallbacks -> build_inv defs direct st -> group_name defs (member_name m) = true ->
     build_post defs direct B st (member_name m) (build (member_name m) st)) ->
  Forall (builds build) (members ++ fallbacks) -> build_inv defs direct st ->
  group_buildable id (UpstreamGroup id members mode timeout fallbacks fmode ftimeout) ->
  is_ok (group_executor build defs id members mode timeout fallbacks fmode ftimeout st) = true.
Proof.
  intros Hpost Hb Hi (_ & Hk & Hsel & Ht & Hfb). unfold group_executor.
  apply list.Forall_app in Hb as [Hb1 Hb2], Hk as [Hk1 Hk2].
  destruct (new_selector_total mode members Hsel) as (g & -> & Hg). cbn [map_err mbind result_bind].
  destruct (exchanges_total build B id members st) as (xs & st1 & -> & Hs1 & HF1); [|done..|].
  { intros; apply Hpost; [apply elem_of_app; by left|done..]. }
  cbn [mbind result_bind]. destruct Hsel as (Hne & Hd & _). case_bool_decide as Hf.
  - unfold new_with_members. pose proof (phase_total g members xs _ timeout Hg Hne Hd Hk1 HF1 Ht) as Hp.
    by destruct (new_members g xs (Some timeout)).
  - destruct Hfb as [?|(fm & ft & -> & -> & Hft & Hfs)]; [done|]. cbn [ok_or mbind result_bind].
    destruct (new_selector_total fm fallbacks Hfs) as (fg & -> & Hfg). cbn [map_err mbind result_bind].
    destruct (exchanges_total build B id fallbacks st1) as (fxs & st2 & -> & Hs2 & HF2); [|done..|apply Hs1|].
    { intros; apply Hpost; [apply elem_of_app; by right|done..]. }
    cbn [mbind result_bind]. unfold new_with_fallback_members. destruct Hfs as (Hfne & Hfd & _).
    pose proof (phase_total fg fallbacks fxs _ ft Hfg Hfne Hfd Hk2 HF2 Hft) as Hp2.
    pose proof (phase_total g members xs _ timeout Hg Hne Hd Hk1 HF1 Ht) as Hp1.
    destruct (new_members fg fxs (Some ft)); [|done]. by destruct (new_members g xs (Some timeout)).
Qed.

Lemma build_total fuel B id st :
  build_inv defs direct st -> B ⊆ dom defs -> (size defs < fuel + size B)%nat ->
  (forall b, b ∈ B -> tc (group_edge defs) b id) -> group_name defs id = true ->
  is_ok (build_group_executor fuel defs B id st) = true.
Proof.
  revert B id st. induction fuel as [|fuel IH]; intros B id st Hi HB Hsz Hch Hg.
  { exfalso. apply subseteq_size in HB. rewrite size_dom in HB. lia. }
  cbn [build_group_executor]. case_bool_decide as Hl; [done|].
  case_bool_decide as Hin; [by destruct (acyclic id (Hch id Hin))|].
  unfold group_name in Hg. destruct (defs !! id) as [u|] eqn:Hd; [|done].
  destruct u as [| |gid members mode timeout fallbacks fmode ftimeout]; [done..|].
  pose proof (buildable id _ Hd) as Hbu. set (B' := {[id]} ∪ B).
  assert (Hedge : forall m, m ∈ members ++ fallbacks -> group_name defs (member_name m) = true ->
    group_edge defs id (member_name m)).
  { intros m Hm Hgm. split; [|done]. eexists. split; [exact Hd|]. by apply list_elem_of_fmap_2. }
  assert (HB' : B' ⊆ dom defs) by (apply elem_of_dom_2 in Hd; set_solver).
  assert (Hsz' : (size defs < fuel + size B')%nat).
  { unfold B'. rewrite size_union by set_solver. rewrite size_singleton. lia. }
  assert (Hch' : forall m, m ∈ members ++ fallbacks -> group_name defs (member_name m) = true ->
    forall b, b ∈ B' -> tc (group_edge defs) b (member_name m)).
  { intros m Hm Hgm b [->%elem_of_singleton|Hb]%elem_of_union; [by apply tc_once, Hedge|].
    eapply tc_r; [by apply Hch|by apply Hedge]. }
  assert (Hx : is_ok (group_executor (build_group_executor fuel defs B') defs id members mode timeout fallbacks
    fmode ftimeout st) = true).
  { apply (executor_total _ B'); [..|done|done].
    - intros m st0 Hm Hi0 Hgm. apply build_group_executor_spec; auto.
    - apply list.Forall_forall. intros m Hm st0 Hi0 Hgm. apply IH; auto. }
  destruct (group_executor _ defs id members mode timeout fallbacks fmode ftimeout st) as [[ex st']|]; [|done].
  destruct Hbu as ([cid Hcid] & _). cbn. by rewrite Hcid.
Qed.

Lemma group_loop_total l st :
  (forall id u, (id, u) ∈ l -> defs !! id = Some u) -> build_inv defs direct st ->
  is_ok (group_loop (build_fuel defs) defs l st) = true.
Proof.
  revert st. induction l as [|[id u] l IH]; intros st Hl Hi; cbn [group_loop]; [done|].
  assert (Hl' : forall id u, (id, u) ∈ l -> defs !! id = Some u) by (intros; apply Hl; by right).
  assert (Hsz : (size defs < build_fuel defs + size (∅ : gset string))%nat).
  { unfold build_fuel. rewrite size_empty. lia. }
  destruct (is_group u) eqn:Hg; [|by apply IH].
  assert (Hgn : group_name defs id = true) by (unfold group_name; rewrite (Hl id u) by left; done).
  pose proof (build_total (build_fuel defs) ∅ id st Hi ltac:(set_solver) Hsz ltac:(set_solver) Hgn) as H1.
  pose proof (build_group_executor_spec defs direct direct_ok (build_fuel defs) ∅ id st Hi ltac:(set_solver) Hsz
    ltac:(set_solver)) as H2.
  destruct (build_group_executor _ _ _ _ _) as [st1|]; [|done]. cbn. apply IH; [done|]. by destruct H2 as [[? _ _] _].
Qed.
End Build.

(** ** From the document to the running upstreams *)

Section Runtime.
Context {IN : IpNetOps} (Url_parse : chars -> option Url).
Context (debug : DebugValue -> list byte).

Lemma view_id u : upstream_id (upstream_view u) = full_upstream_id u.
Proof. by destruct u. Qed.

Lemma view_ids (l : list FullUpstream) : upstream_id <$> (upstream_view <$> l) = full_upstream_id <$> l.
Proof. induction l as [|u l IH]; [done|]. rewrite !fmap_cons. by rewrite IH, view_id. Qed.

Lemma definition_loop_total defs l :
  NoDup (upstream_id <$> l) -> (forall u, u ∈ l -> defs !! upstream_id u = None) -> is_ok (definition_loop defs l) = true.
Proof.
  revert defs. induction l as [|u l IH]; intros defs Hd Hn; cbn [definition_loop]; [done|].
  rewrite fmap_cons in Hd. apply list.NoDup_cons in Hd as [Hu Hd].
  rewrite bool_decide_eq_false_2 by (rewrite (Hn u) by left; by intros []).
  apply IH; [done|]. intros w Hw. rewrite lookup_insert_ne; [apply Hn; by right|].
  intros E. apply Hu. rewrite E. by apply list_elem_of_fmap_2.
Qed.

Lemma build_connectors_ok make connectors l r :
  build_connectors make connectors l = Ok r ->
  connectors ⊆ r /\ forall u, u ∈ l -> is_Some (ConnectorId_new (upstream_id u)) /\ mk_connector (upstream_id u) ∈ r.
Proof.
  revert connectors. induction l as [|u l IH]; intros connectors; cbn [build_connectors].
  { intros [= <-]. split; [done|]. intros u Hu. by apply elem_of_nil in Hu. }
  destruct (ConnectorId_new (upstream_id u)) as [cid|] eqn:Hcid; [|done]. cbn [ok_or mbind result_bind].
  pose proof Hcid as Hc%ConnectorId_new_some. subst cid.
  case_bool_decide; [done|]. destruct (is_group u); [done|]. destruct (negb (make u)); [done|].
  intros [Hsub Hall]%IH. split; [set_solver|]. intros w [->|Hw]%elem_of_cons; [|by apply Hall].
  split; [by eexists|set_solver].
Qed.

Lemma direct_loop_total r direct l :
  NoDup (upstream_id <$> l) -> (forall u, u ∈ l -> direct !! upstream_id u = None) ->
  (forall u, u ∈ l -> is_Some (ConnectorId_new (upstream_id u)) /\ mk_connector (upstream_id u) ∈ r) ->
  is_ok (direct_loop r direct l) = true.
Proof.
  revert direct. induction l as [|u l IH]; intros direct Hd Hn Hr; cbn [direct_loop]; [done|].
  rewrite fmap_cons in Hd. apply list.NoDup_cons in Hd as [Hu Hd].
  destruct (Hr u) as [[cid Hcid] Hin]; [left|]. unfold registry_get_by_name. rewrite Hcid. cbn [ok_or mbind result_bind].
  apply ConnectorId_new_some in Hcid as ->. rewrite (bool_decide_eq_true_2 (mk_connector (upstream_id u) ∈ r)) by done. cbn [map_err mbind result_bind].
  rewrite bool_decide_eq_false_2 by (rewrite (Hn u) by left; by intros []).
  apply IH; [done| |intros; apply Hr; by right]. intros w Hw. rewrite lookup_insert_ne; [apply Hn; by right|].
  intros E. apply Hu. rewrite E. by apply list_elem_of_fmap_2.
Qed.

(** A name without an exclamation mark is that of a connector. *)
Definition plain_name (s : string) : Prop := Forall (fun b => byte_to_Z b <> 33) (str_bytes s).

Lemma plain_connector s : config_id_ok s = true -> plain_name s -> is_Some (ConnectorId_new s).
Proof.
  unfold config_id_ok, ConnectorId_new. intros [Hl%negb_true_iff Hf]%andb_true_iff Hp. rewrite Hl.
  assert (Hall : forallb (fun b => is_ascii_alphanumeric b || is_id_punct b) (str_bytes s) = true).
  { apply forallb_forall. intros b Hb. rewrite forallb_forall in Hf. specialize (Hf b Hb).
    apply orb_true_iff in Hf as [?|E]; [done|]. apply list_elem_of_In in Hb.
    apply (proj1 (list.Forall_forall _ _) Hp) in Hb. lia. }
  rewrite Hall. by eexists.
Qed.

Section OfConfig.
Context (v : ResolvedConfig) (Hv : config_closed v) (Hp : Forall (fun u => plain_name (full_upstream_id u)) (rcf_upstreams v)).
Let l := upstream_view <$> rcf_upstreams v.

Lemma config_defs id u : definitions l !! id = Some u <-> exists w, w ∈ rcf_upstreams v /\ u = upstream_view w /\ full_upstream_id w = id.
Proof.
  destruct (cl_names v Hv) as (_ & [Hd _] & _). rewrite definitions_lookup by (unfold l; by rewrite view_ids).
  unfold l. rewrite list_elem_of_fmap. split.
  - intros [(w & -> & Hw) <-]. exists w. by rewrite view_id.
  - intros (w & Hw & -> & <-). split; [by exists w|apply view_id].
Qed.

Lemma upstream_connector name : name ∈ full_upstream_id <$> rcf_upstreams v -> is_Some (ConnectorId_new name).
Proof.
  intros Hin. destruct (cl_names v Hv) as (_ & Hn & _). pose proof (name_ok _ _ Hn Hin) as Hok.
  apply list_elem_of_fmap in Hin as (u & -> & Hu). apply plain_connector; [done|].
  by apply (proj1 (list.Forall_forall _ _) Hp).
Qed.

Lemma config_buildable direct id u :
  (forall w, w ∈ l -> is_group w = false -> is_Some (direct !! upstream_id w)) ->
  definitions l !! id = Some u -> group_buildable (definitions l) direct id u.
Proof.
  intros Hdir (w & Hw & -> & <-)%config_defs. pose proof (proj1 (list.Forall_forall _ _) (cl_upstreams v Hv) w Hw) as (Hne & _ & Hg).
  destruct w as [| |gid members mode timeout fallbacks fmode ftimeout]; [done..|]. cbn in Hg |- *.
  destruct Hg as (Hs & Ht & Hf). split_and!; [|..|done|done|done].
  - apply upstream_connector. by apply list_elem_of_fmap_2 with (f := full_upstream_id) in Hw.
  - apply list.Forall_forall. intros m Hm. assert (Hin : member_name m ∈ full_upstream_id <$> rcf_upstreams v).
    { apply Hne. by apply list_elem_of_fmap_2. }
    split; [by apply upstream_connector|]. apply list_elem_of_fmap in Hin as (x & Ex & Hx).
    assert (Hdx : definitions l !! member_name m = Some (upstream_view x)) by (apply config_defs; by exists x).
    unfold group_name. rewrite Hdx. destruct (is_group (upstream_view x)) eqn:E; [by left|right].
    rewrite Ex, <- view_id. apply Hdir; [|done]. by apply list_elem_of_fmap_2.
Qed.

Lemma config_acyclic n : ~ tc (group_edge (definitions l)) n n.
Proof.
  intros H. apply (cl_acyclic v Hv n).
  assert (Hstep : forall x y, group_edge (definitions l) x y -> upstream_depends (rcf_upstreams v) x y).
  { intros x y [(u & Hu & Hy) Hg]. unfold group_name in Hg. destruct (definitions l !! y) as [uy|] eqn:Ey; [|done].
    apply config_defs in Hu as (w & Hw & -> & <-). apply config_defs in Ey as (wy & Hwy & -> & <-).
    exists w, wy. split_and!; [done..|]. destruct w; [by apply elem_of_nil in Hy..|exact Hy]. }
  by eapply tc_mono.
Qed.

Lemma config_runtime make r :
  build_connectors make ∅ (direct_upstreams l) = Ok r -> exists rt, from_registry l r = Ok rt.
Proof.
  intros [_ Hr]%build_connectors_ok. destruct (cl_names v Hv) as (_ & [Hd _] & _).
  assert (Hnd : NoDup (upstream_id <$> l)) by (unfold l; by rewrite view_ids).
  assert (Hnd' : NoDup (upstream_id <$> direct_upstreams l)).
  { eapply sublist_NoDup; [exact Hnd|]. apply fmap_sublist, sublist_filter. }
  unfold from_registry. pose proof (definition_loop_total ∅ l Hnd ltac:(intros; apply lookup_empty)) as H1.
  destruct (definition_loop ∅ l) as [defs|] eqn:Edef; [|done].
  apply definition_loop_spec in Edef as (_ & _ & ->). rewrite (right_id_L ∅ (∪)). cbn [mbind result_bind].
  pose proof (direct_loop_total r ∅ (direct_upstreams l) Hnd' ltac:(intros; apply lookup_empty) Hr) as H2.
  destruct (direct_loop r ∅ (direct_upstreams l)) as [direct|] eqn:Edir; [|done].
  apply direct_loop_spec in Edir as (_ & Hval & Hall). cbn [mbind result_bind].
  assert (Hg : is_ok (group_loop (build_fuel (definitions l)) (definitions l) (btree_list (definitions l))
    (mk_build (NE_Direct <$> direct) ∅)) = true).
  { apply (group_loop_total (definitions l) direct).
    - intros name c [H|[? _]]%Hval; [by rewrite lookup_empty in H|done].
    - intros id u Hu. apply config_buildable; [|done]. intros w Hw Hg. apply Hall. by apply list_elem_of_filter.
    - apply config_acyclic.
    - intros; by apply elem_of_btree_list.
    - split; cbn; [constructor|]. intros name. by rewrite lookup_empty, lookup_fmap. }
  destruct (group_loop _ _ _ _) as [st|]; [|done]. cbn. by eexists.
Qed.
End OfConfig.

(** C8: From the document to the upstreams: when a document resolves, its upstreams have no
    exclamation mark in their names, and the connectors of its hosts and DoH upstreams
    could be made, then the runtime of its upstreams is built: there is no duplicate,
    missing member, cycle, bad weight, missing fallback setting or zero timeout left for
    the build to fail on. *)
Theorem accepted_upstreams_build c hash source v make r :
  resolve_config_v2 Url_parse debug c hash source = Some (Ok v) ->
  Forall (fun u => plain_name (full_upstream_id u)) (rcf_upstreams v) ->
  build_connectors make ∅ (direct_upstreams (upstream_view <$> rcf_upstreams v)) = Ok r ->
  exists rt, from_registry (upstream_view <$> rcf_upstreams v) r = Ok rt.
Proof. intros Hv%resolve_closed Hp Hr. by eapply config_runtime. Qed.
End Runtime.

(** ** Proxies are checked before the runtime is prepared *)

Section Secrets.
Context {IN : IpNetOps}.
Context (env_var : chars -> option (option chars)) (file_content : chars -> option (list byte)).
Context (Url_parse : chars -> option Url).

Inductive SecretValidationError :=
| SV_Resolve (outbound : ConfigId) (source : SecretResolveError)
| SV_BootstrapForbidden (upstream outbound bootstrap : ConfigId).

#[local] Instance ProxyScheme_eq_dec : EqDecision ProxyScheme.
Proof. solve_decision. Defined.

Fixpoint outbound_schemes (max_bytes : Z) (schemes : gmap string ProxyScheme) (l : list ResolvedOutbound) :
    result SecretValidationError (gmap string ProxyScheme) :=
  match l with
  | [] => Ok schemes
  | o :: rest =>
    scheme ← map_err (SV_Resolve (ro_id o)) (proxy_scheme env_var file_content Url_parse (ro_proxy_url o) max_bytes);
    outbound_schemes max_bytes (<[ro_id o := scheme]> schemes) rest
  end.

Fixpoint bootstrap_check (schemes : gmap string ProxyScheme) (l : list FullUpstream) : result SecretValidationError unit :=
  match l with
  | [] => Ok tt
  | FullDohUpstream id _ (Some bootstrap) _ (Some proxy) _ :: rest =>
    if bool_decide (schemes !! proxy = Some PS_Socks5h) then Err (SV_BootstrapForbidden id proxy bootstrap)
    else bootstrap_check schemes rest
  | _ :: rest => bootstrap_check schemes rest
  end.

Definition validate_secret_refs (v : ResolvedConfig) (max_bytes : Z) : result SecretValidationError unit :=
  schemes ← outbound_schemes max_bytes ∅ (rcf_outbounds v);
  bootstrap_check schemes (rcf_upstreams v).

Lemma outbound_schemes_spec max_bytes schemes l r :
  NoDup (ro_id <$> l) -> outbound_schemes max_bytes schemes l = Ok r ->
  (forall o, o ∈ l -> exists s, proxy_scheme env_var file_content Url_parse (ro_proxy_url o) max_bytes = Ok s /\
    r !! ro_id o = Some s) /\ (forall k, k ∉ ro_id <$> l -> r !! k = schemes !! k).
Proof.
  revert schemes. induction l as [|o l IH]; intros schemes Hd; cbn [outbound_schemes].
  { intros [= <-]. split; [intros o Ho; by apply elem_of_nil in Ho|done]. }
  rewrite fmap_cons in Hd. apply list.NoDup_cons in Hd as [Hn Hd].
  destruct (proxy_scheme _ _ _ (ro_proxy_url o) max_bytes) as [s|] eqn:Es; [|done]. cbn [map_err mbind result_bind].
  intros [H1 H2]%IH; [|done]. split.
  - intros x [->|Hx]%elem_of_cons; [|by apply H1]. exists s. split; [done|]. rewrite H2 by done. by rewrite lookup_insert_eq.
  - intros k Hk. rewrite fmap_cons in Hk. apply not_elem_of_cons in Hk as [Hne Hk]. rewrite H2 by done.
    by rewrite lookup_insert_ne.
Qed.

Lemma bootstrap_check_spec schemes l id address bootstrap ip proxy ecs :
  bootstrap_check schemes l = Ok tt -> FullDohUpstream id address (Some bootstrap) ip (Some proxy) ecs ∈ l ->
  schemes !! proxy <> Some PS_Socks5h.
Proof.
  induction l as [|u l IH]; intros H Hin; [by apply elem_of_nil in Hin|]. apply elem_of_cons in Hin as [<-|Hin].
  - cbn in H. by case_bool_decide.
  - apply IH; [|done]. destruct u as [|? ? [b|] ? [p|] ?|]; cbn in H; try done. by case_bool_decide.
Qed.

(** In a configuration whose secrets were validated, every proxy has a readable SOCKS5 URL,
    and no upstream that resolves its own host name is reached through a proxy that would
    resolve it again. *)
Lemma secret_refs_valid v max_bytes :
  config_closed v -> validate_secret_refs v max_bytes = Ok tt ->
  (forall o, o ∈ rcf_outbounds v ->
     is_ok (proxy_scheme env_var file_content Url_parse (ro_proxy_url o) max_bytes) = true) /\
  (forall o id address bootstrap ip ecs, o ∈ rcf_outbounds v ->
     FullDohUpstream id address (Some bootstrap) ip (Some (ro_id o)) ecs ∈ rcf_upstreams v ->
     proxy_scheme env_var file_content Url_parse (ro_proxy_url o) max_bytes = Ok PS_Socks5).
Proof.
  intros Hv. destruct (cl_names v Hv) as (_ & _ & _ & _ & [Hd _] & _). unfold validate_secret_refs.
  destruct (outbound_schemes max_bytes ∅ (rcf_outbounds v)) as [schemes|] eqn:Es; [|done]. cbn [mbind result_bind].
  apply outbound_schemes_spec in Es as [H1 _]; [|done]. intros Hb. split.
  - intros o Ho. by destruct (H1 o Ho) as (s & -> & _).
  - intros o id address bootstrap ip ecs Ho Hu. destruct (H1 o Ho) as (s & -> & Hs).
    pose proof (bootstrap_check_spec _ _ _ _ _ _ _ _ Hb Hu). destruct s; [done|congruence].
Qed.
End Secrets.

(** ** Examples *)

Module ResolveExamples.
Import ConfigExamples.

Definition no_debug (_ : DebugValue) : list byte := [].
Definition sample_source : PathBuf := path_of (lit "/etc/flux/config.yaml").

Definition sample_resolved : ResolvedConfig := Eval vm_compute in
  match resolve_config_v2 no_urls no_debug sample_config "00" sample_source with
  | Some (Ok v) => v
  | _ => mk_resolved_config 0 (mk_resolved_work [] [] [] 0 0) (mk_resolved_database Sqlite [] []) (mk_resolved_logs false LL_Info [])
           (mk_resolved_webui false (V4 0) 0 None []) (resolve_dns_v2 (cf_dns sample_config) [])
           (mk_resolved_statistics 0 0 0) [] [] [] [] [] [] [] [] EmptyString EmptyString
  end.

Lemma sample_resolves :
  resolve_config_v2 no_urls no_debug sample_config "00" sample_source = Some (Ok sample_resolved).
Proof. vm_compute. reflexivity. Qed.

Lemma resolved_config_closed_witness : config_closed sample_resolved.
Proof. exact (resolved_config_closed no_urls no_debug sample_config "00" sample_source _ sample_resolves). Defined.

Definition sample_registry : gset ConnectorId := {[mk_connector "local"; mk_connector "remote"]}.

Lemma accepted_upstreams_build_witness :
  exists rt, from_registry (upstream_view <$> rcf_upstreams sample_resolved) sample_registry = Ok rt.
Proof.
  apply (accepted_upstreams_build no_urls no_debug sample_config "00" sample_source sample_resolved (fun _ => true)).
  - exact sample_resolves.
  - unfold plain_name. repeat constructor; by vm_compute.
  - by vm_compute.
Defined.

(** The bounds of a strategy are checked in its own block only: with a maximum of 300
    seconds for all and a minimum of 600 seconds for a strategy, the resolved bounds cross,
    although [validate_ttl] refuses such bounds in one block. *)
Example inherited_ttl_bounds_cross :
  ConfigV2_validate no_urls sample_config = Ok tt /\
  ((fun s => (to_min (st_ttl_override s), to_max (st_ttl_override s))) <$> rcf_strategies sample_resolved) =
    [(Some (from_secs 600), Some (from_secs 300))] /\
  validate_ttl (mk_ttl_dto None (Some (from_secs 600)) (Some (from_secs 300))) "dns" <> [].
Proof. split; [exact sample_valid|]. by vm_compute. Qed.
End ResolveExamples.
